(* ===== verification/_CoqProject ===== *)
-Q . S2P
Prelude.v
Types.v
Mir.v
Liveness.v
SlotState.v
Diagnostics.v
Decl.v
Borrowck.v
BorrowckEnds.v
BorrowPaths.v
Drop.v
Fold.v
HashMap.v
Arena.v
Strings.v
Lexer.v
LexerReadback.v
LexerStream.v
Registry.v
RegistryTypes.v
RegistryState.v
Containers.v
Functions.v
Scopes.v
Instantiate.v
Ast.v
Facts.v
Lower.v
LowerShape.v
LowerKeeps.v
LowerLimits.v
Build.v
Glue.v
Symbols.v
Check.v
Coerce.v
TypeExprs.v
Resolve.v
Declare.v
Resolver.v
Parser.v
Sources.v
ResolveKeeps.v
ResolveEnds.v
ResolveLimits.v
ParserSteps.v
ParserTotal.v
Printer.v
Interface.v
ParserReadback.v
Compile.v
CompileSound.v
CompileCalls.v
MirPrint.v
Driver.v
Emit.v
EmitArith.v
EmitShape.v
PassesKeep.v
EmitLimits.v
