(* ===== verification/Prelude.v ===== *)
(** * Gab compiler: verification library

    Gab is a small language with ownership and borrowing that compiles to native
    code.  A source goes through [src/src/syntax] (lexer, parser), [src/src/ast]
    (names and types resolved), [src/src/mir] (lowered to a control-flow graph,
    checked for dangling borrows, completed with the releases, folded) and
    [src/src/llvm] (code).  This library models the parts in which the
    compiler's promises are kept and the containers under them, as Rocq
    functions that follow the C code function by function, and proves what they
    promise.

    ** The files

    - [Prelude] (this file): words of a fixed width, the loop
      [while (changed)] with its invariant and termination lemmas, lists,
      tactics.  A C integer is a [Z] or an [N] with its wrap-around written out
      where the code may reach it; the counters of lines, columns and positions
      are not bounded, which is the code on sources below 2^31 bytes.
    - [Types]: [src/src/type/type.h], [type.c], [constant.c], [decl_id.h].  A
      pointer to a type is a handle; [TypeView] is the interface through which
      the passes over the MIR ask about a type, [TypeViewLaws] what the registry
      promises of the answers.  The passes are proved for every view.
    - [Mir]: [src/src/mir/mir.h] and [mir.c], the control-flow graph.  Growable
      arrays are lists, a block is its index.
    - [Liveness]: [src/src/mir/mir_liveness.c], with its bit sets as arrays of
      64-bit words.
    - [SlotState]: [src/src/mir/mir_state.c], the borrow checker's states.
    - [Diagnostics]: [src/src/diagnostics.c].  [Decl]: [src/src/decl.h].
    - [Borrowck], [BorrowckEnds], [BorrowPaths]: [src/src/mir/mir_borrowck.c],
      every instruction, the fixed point and the reporting run; the second file is
      the proof that the fixed point is reached and that a chain of sources ends
      where no definition leads round to itself; the third says of the paths of a
      function what is reported and recorded.
    - [Drop]: [src/src/mir/mir_drop.c], the four passes that place the releases.
    - [Fold]: [src/src/mir/mir_fold.c].
    - [HashMap]: [src/src/util/hash_map.h], [hash.h].  [Arena]:
      [src/src/memory/arena.c], [util/align.h].  [Strings]:
      [src/src/string/string.c], [string_ref.c].
    - [Lexer], [LexerReadback], [LexerStream]: [src/src/syntax/lexer.c].
    - [Ast]: the tree of [src/src/ast/expr.c], [stmt.c], [type_expr.c], [ast.c].
      [Parser]: [src/src/syntax/parser.c].  [ParserSteps], [ParserTotal]: what
      its functions do, in one triple for all.  [Printer], [ParserReadback]: a
      printer of expressions, as the specification of their grammar, and the
      parser as its inverse.
    - [Interface]: [src/src/driver/interface.c], the declarations and generic
      bodies that a module prints for its importers.
    - [Registry]: [src/src/type/type_registry.c] and the structural hash and
      equality of [type.c].  [RegistryTypes]: the invariant of the registry and
      the meaning of a type.  [RegistryState]: layouts, conformances, the steps
      a registry goes through, and [registry_view], the [TypeView] a registry
      gives the passes.  [Containers]: what an index goes into.
    - [Functions]: [src/src/function_registry.c] and the signatures of instances
      of [src/src/scope.c].  [Scopes]: the rest of [scope.c].
    - [Instantiate]: [src/src/mir/mir_instantiate.c], over the two registries as
      a state.
    - [Facts]: [src/src/ast/facts.c], what resolution notes of the tree, whose
      nodes are told by their paths.  [Lower]: [src/src/mir/mir_lower.c], a
      monad over [Lowering] whose failures are told apart: [Stuck] is an
      assertion or a null pointer, [OutOfFuel] a call nested deeper than the
      fuel.  [LowerShape]: what lowering returns of a function whose facts are as
      it needs them and in whose blocks nothing follows a jump.
      [LowerKeeps]: what lowering leaves of the registries.  [LowerLimits]: where
      it does not do what is meant.
    - [Build]: [src/src/mir/mir_build.c], [mir_module.c] and [src/src/ast/pending.c],
      the bodies of a module and the instances they call.  [Glue]: the names and
      the types of the drop glue of [src/src/llvm/llvm_emit.c].
    - [TypeExprs], [Coerce], [Check], [Resolve], [Declare], [Resolver]:
      [src/src/ast/resolve.c], [typexpr.c] and [coerce.c], one monad over one state.
      [ResolveKeeps], [ResolveEnds], [ResolveLimits]: what resolution leaves of
      the registries, how deep its calls go, and where it fails.
    - [Symbols]: [src/src/llvm/llvm_symbol.c].
    - [MirPrint]: [src/src/mir/mir_print.c].
    - [Sources]: modules read from a text, for the examples.  [Compile]:
      [src/src/driver/compile.c], the passes in their order;
      what the code generator is told is a list of [UnitCall].  [CompileSound]:
      what a compilation reports and declares.  [CompileCalls]: the bodies behind
      the calls.  [Driver]: [src/src/driver/main.c] and [link.c].
    - [Emit]: [src/src/llvm/llvm_emit.c], with the module as the list of the calls
      of LLVM.  [EmitArith]: what its arithmetic and comparisons compute.  [EmitShape]: what these
      calls make of the blocks.  [PassesKeep]: what the
      passes between lowering and emission leave of them.  [EmitLimits]: two
      programs whose code is wrong.

    ** How the parts meet

    The resolver is a client of the registries, the scopes, the facts, the pool
    and the diagnostics, all in one state, and has the bodies of a module noted
    for the build, which begins with the facts and the work it leaves.

    The lexer hands a literal's bytes to the string pool, which is a client of
    the hash table; its proof uses only [represents], the refinement of a table
    to a finite map; so are the type registry, with its three tables, which
    discharges [TypeViewLaws], the function registry, the scopes and the facts.
    Lowering reads the facts and the scopes' symbols and makes the MIR the passes
    take; its theorem gives them [targets_wf], which the theorems of liveness
    ask for.  Instantiation turns a generic MIR into an instance's, making types
    and functions in the registries on the way.  A build lowers the bodies of a
    module, instantiates what they call until nothing is left to instantiate, and
    has the borrow checker read them.  The borrow checker reads the liveness of every value it
    finds dangling and keeps its states in [SlotState]; drop elaboration and
    folding rewrite the same [MIRFunction].  All passes see types through
    [TypeView] and functions through the heap of [Decl].

    [Compile] puts the parts together: it parses the sources and the interfaces of
    the imports, resolves, builds, folds and elaborates each body and hands it to
    the code generator, and prints the interface.  [EmitShape.told] gives each of
    its calls to [Emit], which asks the registries again and makes the drop glue;
    what emission adds to the registries is left out of [Compile]: the registries
    only grow, and what is asked of them for a later body is there.  [Driver] is a client of [Compile]: it turns the
    arguments of the program into a request and the answer into an exit code and a
    command.

    ** What the theorems show

    - Borrow checker: a value read after it was moved, or read while a borrow that
      came to it along some path, through whichever blocks, names a storage that
      ended, is reported; the parameters that a borrow returned on some path may
      name are recorded for the callers; the analysis ends on every function in
      which no definition leads round to itself, with a bound on its turns computed
      from the function ([borrowck_fuel]).  On one that has such a definition
      [collect_sources] recurs for ever, and the model has no answer.
    - Liveness: the loop ends; a place is live exactly when some path of the
      graph reads it before it is written.
    - Slot states: the join is a semilattice up to the comparison that stops the
      fixed point, and that comparison is reading alike.
    - Drop: the analysis ends, what it says a local holds is true on every path,
      exactly the releases of empty locals are removed, and a drop flag tells
      whether its local holds an object.
    - Fold: every run of a function without arithmetic at [usize] is a run of the
      folded function, with the same effects.
    - Lexer: lexing ends on every source, its tokens and the trivia between them
      cover the source, with the place of each and the text and value of each
      valid one; tokens printed are lexed back.
    - Parser: it ends on every source without the three tokens that make a block
      loop for ever; a [NULL] is always reported; an expression printed is parsed
      back as the same tree.
    - Interface: what of a generic body importers do not read as it was written.
    - Strings: interned strings are equal as pointers exactly when their bytes
      are.  HashMap: a table answers as a finite map and no probe runs forever.
      Arena: allocations in use never overlap.
    - Registry: there is one pointer per type, whatever the order of the calls;
      substitution replaces parameters; the fields of a struct are laid out
      apart; a type conforms to an interface once.
    - Functions, Scopes: a declaration has one function at given arguments, with
      the signature of its declaration substituted; a name is declared once where it is checked, and
      a lookup finds the innermost binding.
    - Resolution: the depth of its own calls is bounded by what is computed from the
      tree ([module_depth]), which bounds no question to the registry; a value that is coerced is, after
      its adjustment, of the type it is given to.
    - Symbols: the symbol of a function tells its module, owner, name and type
      arguments, up to the modules of the types, where its linkage is not C's.
    - Lower: lowering a function whose facts are as it needs them, and in whose
      blocks nothing follows a jump, returns, its blocks are basic blocks
      with one terminator each, its values have types of the registry.
      Instantiate: the instance of a body is the body at arguments that fit it.
    - Build: the walk over the instances ends whatever a module's functions call,
      with an error when they call more than the limit; otherwise every instance
      called has its body, instances called by instances too.
    - Compilation: it fails exactly when it has a message; every call of the code
      handed over is of a registered function, with the bodies of the instances;
      importers ask for the symbol that the object declares, for names that fit.
    - Emission: an instruction of arithmetic or a comparison computes what the source
      means of its first and its second operand, with the signs of their kind; the
      passes keep the blocks of a body, their ids and their order ([PassesKeep]), and
      every block of the module LLVM is told, those of checks, guarded releases, glue and the entry
      too, ends in its only terminator.  A builder is a state: [calm] code leaves
      the builders where they are, [stage] follows the code that branches.
    - Driver: the program ends with 0 only when it compiled, and says something when
      it does not; its arrays are not overrun, the command of the linker is when the
      objects do not fit.  MIR printer: a buffer holds what a file would, cut.
    - Where the code does not do what it means to, a theorem computes an input
      that shows it; the manifest lists these as findings.

    ** Fuel

    A loop of the code that is not structural takes fuel and answers [None] when
    it runs out; each has a theorem that a bound computed from its input is
    enough.  [Liveness]: the number of bits of all rows.  [Borrowck]: the height
    of the lattice of slot states; for the chain of a value's sources, one more than
    there are instructions ([sources_fuel]): a chain as long draws on some value
    twice, and then the code does not come back either, so that [None] is no
    default ([collect_sources_settled], [mir_borrowck] answers [None] too).  [Drop]: three levels per local and block.
    [HashMap]: a probe that went around the table once will not end.  [Lexer]:
    the bytes left to read, since every turn eats one.  [Parser]: a token is at least
    one byte, so [parser_fuel] is linear in the source.  [Registry]: types point
    to older types, so substitution goes no deeper than the address of the type;
    the questions about a type recurse over fields and may not end, which a
    theorem shows; the theorem of lowering has the hypothesis that they are
    answered, [owning_answered], which holds where no type holds others by value
    ([flat_answers]).  [Lower]: three calls for each level of an expression.
    [Build]: as many turns as instances may be wanted, [GAB_MAX_INSTANTIATIONS];
    more change nothing.  [TypeExprs] to [Resolver]: one depth for types,
    expressions and statements, told apart from a refusal by [TooDeep]; the fields
    of a struct are resolved once, so that types go no deeper than the deepest
    type for each struct there may be; [type_fuel] is for the questions about a
    type.  [Symbols]: types are made of older types.

    ** What is not modelled

    Allocation that fails aborts the compiler, so the models have none; the
    layout of C structs and freeing are not modelled.  [vsnprintf] is the text
    of the messages.  The table of facts about expressions is a parameter of the
    interface printer.  Resolution does not tell a failed [assert], a null pointer
    and a question without an answer apart: all are [Refused].  LLVM is a
    parameter: which modules it accepts, how it prints them and the machine it
    makes code for; of its calls the library has the order and the arguments, and
    of its documentation that a builder appends to the block it was put at.  The
    files, the environment and the commands the driver runs are parameters too.
    The commands of [src/test] and the core library in gab are not modelled. *)

From stdpp Require Export prelude gmap strings list.
From Stdlib Require Export ZArith NArith.
From Stdlib Require Import Lia.

#[export] Set Default Goal Selector "!".

(** The scope of the notations of this development. *)
Declare Scope gab_scope.
Delimit Scope gab_scope with gab.
Open Scope gab_scope.

#[global] Arguments Nat.div : simpl never.
#[global] Arguments Nat.modulo : simpl never.
#[global] Arguments N.of_nat : simpl never.
#[global] Arguments N.to_nat : simpl never.
#[global] Arguments Z.of_nat : simpl never.

(** Lemmas that close the routine goals of the components. *)
Create HintDb gab.

(** ** Fixed-width integers

    A C integer of width [w] is a [Z] (signed values) or an [N] (unsigned
    values and bit words); the conversions wrap as C's casts do on the
    two's-complement targets the compiler supports. *)

Definition wrap_unsigned (w z : Z) : Z := (z mod 2 ^ w)%Z.

Definition wrap_signed (w z : Z) : Z :=
  ((z + 2 ^ (w - 1)) mod 2 ^ w - 2 ^ (w - 1))%Z.

Abbreviation to_u32 := (wrap_unsigned 32).
Abbreviation to_i32 := (wrap_signed 32).
Abbreviation to_u64 := (wrap_unsigned 64).
Abbreviation to_i64 := (wrap_signed 64).

Definition INT32_MIN : Z := (- 2 ^ 31)%Z.
Definition INT32_MAX : Z := (2 ^ 31 - 1)%Z.
Definition UINT32_MAX : N := 4294967295%N.

Definition in_i32 (z : Z) : Prop := (INT32_MIN <= z <= INT32_MAX)%Z.

Lemma wrap_unsigned_range w z : (0 <= w)%Z -> (0 <= wrap_unsigned w z < 2 ^ w)%Z.
Proof. intros. apply Z.mod_pos_bound, Z.pow_pos_nonneg; lia. Qed.

Lemma wrap_unsigned_id w z : (0 <= z < 2 ^ w)%Z -> wrap_unsigned w z = z.
Proof. apply Z.mod_small. Qed.

Lemma wrap_signed_range w z :
  (0 < w)%Z -> (- 2 ^ (w - 1) <= wrap_signed w z < 2 ^ (w - 1))%Z.
Proof.
  intros Hw. unfold wrap_signed.
  pose proof (Z.mod_pos_bound (z + 2 ^ (w - 1)) (2 ^ w) ltac:(apply Z.pow_pos_nonneg; lia)).
  replace (2 ^ w)%Z with (2 * 2 ^ (w - 1))%Z in *; [lia|].
  rewrite <- Z.pow_succ_r by lia. f_equal; lia.
Qed.

Lemma wrap_signed_id w z :
  (0 < w)%Z -> (- 2 ^ (w - 1) <= z < 2 ^ (w - 1))%Z -> wrap_signed w z = z.
Proof.
  intros Hw Hz. unfold wrap_signed. rewrite Z.mod_small; [lia|].
  replace (2 ^ w)%Z with (2 * 2 ^ (w - 1))%Z; [lia|].
  rewrite <- Z.pow_succ_r by lia. f_equal; lia.
Qed.

(** The signed reading of a word is congruent to the word. *)
Lemma wrap_signed_mod w z : (0 < w)%Z -> (wrap_signed w z mod 2 ^ w = z mod 2 ^ w)%Z.
Proof.
  intros Hw. unfold wrap_signed.
  rewrite Zminus_mod_idemp_l. f_equal. lia.
Qed.

Lemma wrap_signed_congr w a b :
  (0 < w)%Z -> (a mod 2 ^ w = b mod 2 ^ w)%Z -> wrap_signed w a = wrap_signed w b.
Proof.
  intros Hw H. unfold wrap_signed. f_equal.
  rewrite (Zplus_mod a), (Zplus_mod b), H. done.
Qed.

(** ** Alignment ([src/src/util/align.h]) *)

Definition align_up (offset alignment : Z) : Z :=
  Z.land (to_u64 (offset + (alignment - 1))) (to_u64 (Z.lnot (alignment - 1))).

Lemma align_up_pow o k :
  (0 <= k <= 63)%Z -> align_up o (2 ^ k) = (2 ^ k * (to_u64 (o + (2 ^ k - 1)) / 2 ^ k))%Z.
Proof.
  intros Hk. unfold align_up. pose proof (wrap_unsigned_range 64 (o + (2 ^ k - 1)) ltac:(lia)) as Hx.
  set (x := to_u64 (o + (2 ^ k - 1))) in *.
  replace (to_u64 (Z.lnot (2 ^ k - 1))) with (Z.shiftl (Z.ones (64 - k)) k).
  2: { rewrite Z.shiftl_mul_pow2, Z.ones_equiv by lia. unfold wrap_unsigned, Z.lnot.
       replace (Z.pred (- (2 ^ k - 1)))%Z with (- 2 ^ k)%Z by lia. rewrite <- (Z.mod_add _ 1) by lia.
       assert (H64 : (2 ^ 64 = 2 ^ (64 - k) * 2 ^ k)%Z) by (rewrite <- Z.pow_add_r by lia; f_equal; lia).
       assert (0 < 2 ^ k)%Z by (apply Z.pow_pos_nonneg; lia).
       assert (1 <= 2 ^ (64 - k))%Z by (apply (Z.pow_le_mono_r 2 0); lia).
       rewrite Z.mod_small; [nia|]. nia. }
  rewrite (Z.mul_comm (2 ^ k)), <- Z.shiftr_div_pow2, <- Z.shiftl_mul_pow2 by lia.
  apply Z.bits_inj'. intros n Hn. rewrite Z.land_spec. destruct (Z.lt_ge_cases n k) as [Hlt|Hge].
  - rewrite !Z.shiftl_spec_low by done. by rewrite andb_false_r.
  - rewrite !Z.shiftl_spec, Z.shiftr_spec by lia. replace (n - k + k)%Z with n by lia.
    destruct (Z.lt_ge_cases n 64) as [Hlt|Hge2].
    + rewrite Z.ones_spec_low by lia. by rewrite andb_true_r.
    + rewrite Z.ones_spec_high, andb_false_r by lia. symmetry.
      destruct (decide (x = 0)%Z) as [->|Hne]; [apply Z.bits_0|].
      apply Z.bits_above_log2; [lia|]. apply Z.log2_lt_pow2; [lia|].
      apply (Z.lt_le_trans _ (2 ^ 64)); [lia|]. apply Z.pow_le_mono_r; lia.
Qed.

(** The result is a multiple of the alignment, also when the sum wraps. *)
Lemma align_up_multiple o k : (0 <= k <= 63)%Z -> (align_up o (2 ^ k) mod 2 ^ k = 0)%Z.
Proof. intros Hk. rewrite align_up_pow, Z.mul_comm by done. apply Z.mod_mul, Z.pow_nonzero; lia. Qed.

Lemma align_up_bounds o k :
  (0 <= k <= 63)%Z -> (0 <= o)%Z -> (o + (2 ^ k - 1) < 2 ^ 64)%Z -> (o <= align_up o (2 ^ k) < o + 2 ^ k)%Z.
Proof.
  intros Hk H0 Ho. assert (0 < 2 ^ k)%Z by (apply Z.pow_pos_nonneg; lia).
  rewrite align_up_pow, wrap_unsigned_id by lia.
  pose proof (Z.div_mod (o + (2 ^ k - 1)) (2 ^ k)). pose proof (Z.mod_pos_bound (o + (2 ^ k - 1)) (2 ^ k)). lia.
Qed.

(** ** [while (changed)]

    Every data-flow pass of the compiler is the loop

      bool changed = true;
      while (changed) { changed = false; ... }

    [while_changed fuel body a] runs at most [fuel] turns of it; the body
    returns the flag the turn left in [changed] with the next state.  [None]
    is a loop that did not end within the fuel. *)

Fixpoint while_changed {A} (fuel : nat) (body : A -> bool * A) (a : A) : option A :=
  match fuel with
  | O => None
  | S fuel' =>
      let '(changed, a') := body a in
      if changed then while_changed fuel' body a' else Some a'
  end.

Section while_changed.
Context {A : Type} (body : A -> bool * A).

(** An invariant of the body holds at the exit, and the exit is the result
    of a turn that changed nothing from a state with the invariant. *)
Lemma while_changed_inv (I : A -> Prop) fuel a r :
  (forall x, I x -> I (body x).2) ->
  I a -> while_changed fuel body a = Some r ->
  exists x, I x /\ body x = (false, r).
Proof.
  intros Hstep. revert a. induction fuel as [|fuel IH]; intros a Ha; simpl; [done|].
  destruct (body a) as [changed a'] eqn:Hb. destruct changed.
  - apply IH. specialize (Hstep a Ha). by rewrite Hb in Hstep.
  - intros [= <-]. by exists a.
Qed.

(** A turn that changes something increases a measure that is bounded on the
    states of the invariant: the loop ends. *)
Lemma while_changed_terminates (I : A -> Prop) (m : A -> nat) bound fuel a :
  (forall x, I x -> I (body x).2) ->
  (forall x, I x -> m x <= bound) ->
  (forall x, I x -> (body x).1 = true -> m x < m (body x).2) ->
  I a -> bound - m a < fuel ->
  is_Some (while_changed fuel body a).
Proof.
  intros Hstep Hbound Hinc. revert a. induction fuel as [|fuel IH]; intros a Ha Hf; [lia|].
  simpl. destruct (body a) as [changed a'] eqn:Hb. destruct changed; [|by eexists].
  pose proof (Hstep a Ha) as Ha'. pose proof (Hinc a Ha) as Hlt.
  rewrite Hb in Ha', Hlt. simpl in *. specialize (Hlt eq_refl).
  pose proof (Hbound a' Ha'). apply IH; [done|lia].
Qed.

(** More fuel never changes the answer. *)
Lemma while_changed_more_fuel fuel fuel' a r :
  fuel <= fuel' -> while_changed fuel body a = Some r -> while_changed fuel' body a = Some r.
Proof.
  revert fuel' a. induction fuel as [|fuel IH]; intros fuel' a Hle; simpl; [done|].
  destruct fuel' as [|fuel']; [lia|]. simpl.
  destruct (body a) as [[] a']; [apply IH; lia|done].
Qed.
End while_changed.

(** ** Lists *)

Section filter_length.
Context {A : Type} (P Q : A -> Prop) `{!forall x, Decision (P x), !forall x, Decision (Q x)}.
Hypothesis HPQ : forall x, P x -> Q x.

Lemma filter_length_mono (l : list A) : length (filter P l) <= length (filter Q l).
Proof.
  induction l as [|x l IH]; [done|]. rewrite !filter_cons.
  repeat case_decide; simpl; try lia. naive_solver.
Qed.

Lemma filter_length_strict (l : list A) x :
  x ∈ l -> Q x -> ~ P x -> length (filter P l) < length (filter Q l).
Proof.
  intros Hx HQ HP. induction l as [|y l IH]; [by apply elem_of_nil in Hx|].
  rewrite !filter_cons. pose proof (filter_length_mono l).
  apply elem_of_cons in Hx as [->|Hx].
  - rewrite decide_False, decide_True by done. simpl. lia.
  - specialize (IH Hx). repeat case_decide; simpl; try lia. naive_solver.
Qed.
End filter_length.

Lemma elem_of_list_prod {A B} (l : list A) (k : list B) x y :
  (x, y) ∈ list_prod l k <-> x ∈ l /\ y ∈ k.
Proof. rewrite !list_elem_of_In. apply in_prod_iff. Qed.

(** ** Tactics *)

(** The function at the head of an application unfolded. *)
Ltac unfold_head m := match m with ?f _ => unfold_head f | ?f => unfold f end.

(** Evaluate the decisions of a goal that are about closed terms. *)
Ltac decide_closed :=
  repeat match goal with
  | |- context [@bool_decide ?P ?d] =>
      let b := eval vm_compute in (@bool_decide P d) in
      lazymatch b with
      | true => change (@bool_decide P d) with true
      | false => change (@bool_decide P d) with false
      end
  end; cbv iota beta.

(** Look at every entry of a concrete list. *)
Ltac each_entry p H :=
  repeat (destruct p as [|p]; [injection H as <-|]); try (by destruct p).
