(* ===== verification/Types.v ===== *)
(** * Types: the type representation of the compiler

    The data of [src/src/type/type.h], [type_internal.h], [constant.h] and
    [decl_id.h], the functions of [src/src/type/type.c] and
    [src/src/constant.c] over them, and the interface ([TypeView]) the MIR
    passes use to ask the registry about a type.

    A [const Type *] is a [TypePtr]: [None] is [NULL], [Some n] the n-th type
    of the registry's heap.  A [const String *] is a [StrPtr]: strings are
    interned, so the code compares them by address and the model by handle. *)

From S2P Require Import Prelude.
From Stdlib Require Import SpecFloat.

(** ** Pointers and identifiers *)

Abbreviation TypePtr := (option nat).
Abbreviation StrPtr := (option nat).
Abbreviation FuncPtr := (option nat).
Abbreviation SymbolPtr := (option nat).
Abbreviation DeclPtr := (option nat).

Record DeclId := MkDeclId {
  id_module : StrPtr;
  id_owner : StrPtr;
  id_name : StrPtr;
  id_block : N;
}.

#[export] Instance DeclId_eq_dec : EqDecision DeclId.
Proof. solve_decision. Defined.

(** The zero-initialised identifier [(DeclId){0}]. *)
Definition decl_id_zero : DeclId := MkDeclId None None None 0.

Definition decl_id_equals (id other : DeclId) : bool :=
  bool_decide (id_module id = id_module other) && bool_decide (id_owner id = id_owner other) &&
  bool_decide (id_name id = id_name other) && (id_block id =? id_block other)%N.

Definition decl_id_is_set (id : DeclId) : bool :=
  match id_name id with Some _ => true | None => false end.

(** ** Kinds *)

Inductive TypeKind :=
  | TYPE_I32 | TYPE_F32 | TYPE_BOOL
  | TYPE_U8 | TYPE_USIZE
  | TYPE_RAW
  | TYPE_STR
  | TYPE_ARRAY | TYPE_SLICE | TYPE_STRUCT
  | TYPE_REF
  | TYPE_PARAM
  | TYPE_UNKNOWN | TYPE_ERROR.

#[export] Instance TypeKind_eq_dec : EqDecision TypeKind.
Proof. solve_decision. Defined.

(** The value of the enumerator, as C numbers it. *)
Definition kind_index (k : TypeKind) : N :=
  match k with
  | TYPE_I32 => 0 | TYPE_F32 => 1 | TYPE_BOOL => 2 | TYPE_U8 => 3 | TYPE_USIZE => 4
  | TYPE_RAW => 5 | TYPE_STR => 6 | TYPE_ARRAY => 7 | TYPE_SLICE => 8 | TYPE_STRUCT => 9
  | TYPE_REF => 10 | TYPE_PARAM => 11 | TYPE_UNKNOWN => 12 | TYPE_ERROR => 13
  end.

(** ** Single-precision floats

    A C [float] is an IEEE 754 binary32 value: precision 24, emax 128.  A NaN
    has one representative, the code never looks at its payload. *)

Abbreviation f32 := spec_float.
Abbreviation f32_prec := 24%Z.
Abbreviation f32_emax := 128%Z.

Definition f32_add : f32 -> f32 -> f32 := SFadd f32_prec f32_emax.
Definition f32_sub : f32 -> f32 -> f32 := SFsub f32_prec f32_emax.
Definition f32_mul : f32 -> f32 -> f32 := SFmul f32_prec f32_emax.
Definition f32_div : f32 -> f32 -> f32 := SFdiv f32_prec f32_emax.
Definition f32_opp : f32 -> f32 := SFopp.
Definition f32_eqb : f32 -> f32 -> bool := SFeqb.

#[export] Instance f32_eq_dec : EqDecision f32.
Proof. solve_decision. Defined.

(** The bits [memcpy(&bits, &as_float, 4)] reads. *)
Definition f32_bits (f : f32) : N :=
  let sign (s : bool) := if s then 2147483648%N else 0%N in
  match f with
  | S754_zero s => sign s
  | S754_infinity s => (sign s + 2139095040)%N
  | S754_nan => 2143289344%N
  | S754_finite s m e =>
      if (8388608 <=? Npos m)%N
      then (sign s + N.shiftl (Z.to_N (e + 150)) 23 + (Npos m - 8388608))%N
      else (sign s + Npos m)%N
  end.

(** ** Constants *)

(** The union of [Constant]; its member is told by the constant's type. *)
Inductive ConstantValue :=
  | as_int (z : Z)
  | as_float (f : f32)
  | as_bool (b : bool)
  | as_string (s : StrPtr).

Record Constant := MkConstant {
  constant_type : TypePtr;
  constant_value : ConstantValue;
}.

#[export] Instance ConstantValue_eq_dec : EqDecision ConstantValue.
Proof. solve_decision. Defined.
#[export] Instance Constant_eq_dec : EqDecision Constant.
Proof. solve_decision. Defined.

Definition constant_int (type : TypePtr) (value : Z) : Constant := MkConstant type (as_int value).
Definition constant_float (type : TypePtr) (value : f32) : Constant := MkConstant type (as_float value).
Definition constant_bool (type : TypePtr) (value : bool) : Constant := MkConstant type (as_bool value).
Definition constant_string (type : TypePtr) (text : StrPtr) : Constant := MkConstant type (as_string text).

(** Reads of the union.  A zero-initialised union reads as zero at every
    member; the code reads a member only after checking the type that says it
    was the one written. *)
Definition const_int (c : Constant) : Z :=
  match constant_value c with as_int z => z | as_bool b => Z.b2z b | _ => 0%Z end.
Definition const_float (c : Constant) : f32 :=
  match constant_value c with as_float f => f | _ => S754_zero false end.
Definition const_bool (c : Constant) : bool :=
  match constant_value c with as_bool b => b | _ => false end.
Definition const_string (c : Constant) : StrPtr :=
  match constant_value c with as_string s => s | _ => None end.

(** ** Types *)

Inductive TypeConst :=
  | CONST_VALUE (value : Constant)
  | CONST_PARAM (param : nat).

Inductive TypeArg :=
  | TYPE_ARG_TYPE (type : TypePtr)
  | TYPE_ARG_CONST (constant : TypeConst).

#[export] Instance TypeConst_eq_dec : EqDecision TypeConst.
Proof. solve_decision. Defined.
#[export] Instance TypeArg_eq_dec : EqDecision TypeArg.
Proof. solve_decision. Defined.

Definition TYPE_ARG_NONE : TypeArg := TYPE_ARG_TYPE None.

Definition type_arg_is_set (arg : TypeArg) : bool :=
  match arg with TYPE_ARG_TYPE None => false | _ => true end.

Inductive TypeMetadata := TYPE_META_NONE | TYPE_META_LENGTH.

#[export] Instance TypeMetadata_eq_dec : EqDecision TypeMetadata.
Proof. solve_decision. Defined.

Record TypeField := MkTypeField { field_name : StrPtr; field_type : TypePtr }.

#[export] Instance TypeField_eq_dec : EqDecision TypeField.
Proof. solve_decision. Defined.

Record TypeDecl := MkTypeDecl {
  decl_id : DeclId;
  decl_param_count : nat;
  decl_fields : list TypeField;
}.

(** [struct Type].  The three members of its union are three fields here:
    [pointee] is read at [TYPE_REF]/[TYPE_RAW], [substituted] at
    [TYPE_STRUCT], [param_index] at [TYPE_PARAM] only. *)
Record TypeData := MkType {
  ty_kind : TypeKind;
  ty_name : StrPtr;
  ty_decl : DeclPtr;
  ty_args : list TypeArg;
  ty_has_param : bool;
  ty_pointee : TypePtr;
  ty_substituted : option (list TypeField);
  ty_param_index : nat;
}.

#[export] Instance TypeDecl_eq_dec : EqDecision TypeDecl.
Proof. solve_decision. Defined.
#[export] Instance TypeData_eq_dec : EqDecision TypeData.
Proof. solve_decision. Defined.

Definition type_init (kind : TypeKind) (name : StrPtr) : TypeData :=
  MkType kind name None [] (bool_decide (kind = TYPE_PARAM)) None None 0.

(** ** [type.c]

    A function that checks for [NULL] takes an [option TypeData]; one that
    dereferences its argument at once takes the [TypeData].  A failed
    [assert] is [None]. *)

Definition type_kind (type : TypeData) : TypeKind := ty_kind type.
Definition type_name_of (type : TypeData) : StrPtr := ty_name type.
Definition type_decl (type : TypeData) : DeclPtr := ty_decl type.
Definition type_args (type : TypeData) : list TypeArg := ty_args type.
Definition type_arg_count (type : TypeData) : nat := length (ty_args type).

Definition type_metadata_of (type : option TypeData) : TypeMetadata :=
  match type with
  | None => TYPE_META_NONE
  | Some t =>
      match ty_kind t with
      | TYPE_STR | TYPE_SLICE => TYPE_META_LENGTH
      | _ => TYPE_META_NONE
      end
  end.

Definition type_is_str_ref (deref : TypePtr -> option TypeData) (type : option TypeData) : bool :=
  match type with
  | None => false
  | Some t =>
      bool_decide (ty_kind t = TYPE_REF) &&
      match deref (ty_pointee t) with
      | None => false
      | Some p => bool_decide (ty_kind p = TYPE_STR)
      end
  end.

Definition type_is_sized (type : option TypeData) : bool :=
  match type with
  | None => true
  | Some t =>
      match ty_kind t with
      | TYPE_STR | TYPE_SLICE => false
      | TYPE_PARAM => false
      | _ => true
      end
  end.

Definition type_pointee (type : option TypeData) : TypePtr :=
  match type with
  | None => None
  | Some t =>
      match ty_kind t with
      | TYPE_REF | TYPE_RAW => ty_pointee t
      | _ => None
      end
  end.

Definition type_is_indirect (type : option TypeData) : bool :=
  match type with None => false | Some t => bool_decide (ty_kind t = TYPE_REF) end.

Definition type_array_element (type : option TypeData) : option TypePtr :=
  match type with
  | Some t =>
      match ty_kind t, ty_args t with
      | TYPE_ARRAY, [TYPE_ARG_TYPE element; _] => Some element
      | _, _ => None
      end
  | None => None
  end.

Definition type_slice_element (type : option TypeData) : option TypePtr :=
  match type with
  | Some t =>
      match ty_kind t, ty_args t with
      | TYPE_SLICE, [TYPE_ARG_TYPE element] => Some element
      | _, _ => None
      end
  | None => None
  end.

Definition type_array_length_is_known (type : option TypeData) : bool :=
  match type with
  | Some t =>
      match ty_kind t, ty_args t with
      | TYPE_ARRAY, [_; TYPE_ARG_CONST (CONST_VALUE _)] => true
      | _, _ => false
      end
  | None => false
  end.

(** The [int64_t] count is returned as an [int32_t]. *)
Definition type_array_length (type : option TypeData) : option Z :=
  match type with
  | Some t =>
      match ty_kind t, ty_args t with
      | TYPE_ARRAY, [_; TYPE_ARG_CONST (CONST_VALUE value)] => Some (to_i32 (const_int value))
      | _, _ => None
      end
  | None => None
  end.

Definition type_is_primitive (type : TypeData) : bool :=
  match ty_kind type with
  | TYPE_I32 | TYPE_F32 | TYPE_BOOL | TYPE_U8 | TYPE_USIZE | TYPE_STR | TYPE_SLICE
  | TYPE_ARRAY | TYPE_RAW => true
  | _ => false
  end.

Definition kind_is_integer (k : TypeKind) : bool :=
  match k with
  | TYPE_I32 | TYPE_U8 | TYPE_USIZE => true
  | TYPE_F32 | TYPE_BOOL | TYPE_STR | TYPE_ARRAY | TYPE_SLICE | TYPE_STRUCT | TYPE_REF
  | TYPE_RAW | TYPE_PARAM | TYPE_UNKNOWN | TYPE_ERROR => false
  end.

Definition kind_is_unsigned (k : TypeKind) : bool :=
  match k with
  | TYPE_U8 | TYPE_USIZE => true
  | TYPE_I32 | TYPE_F32 | TYPE_BOOL | TYPE_STR | TYPE_ARRAY | TYPE_SLICE | TYPE_STRUCT
  | TYPE_REF | TYPE_RAW | TYPE_PARAM | TYPE_UNKNOWN | TYPE_ERROR => false
  end.

Definition type_is_integer (type : option TypeData) : bool :=
  match type with None => false | Some t => kind_is_integer (ty_kind t) end.

Definition type_is_unsigned (type : option TypeData) : bool :=
  match type with None => false | Some t => kind_is_unsigned (ty_kind t) end.

Definition type_names_itself (type : TypeData) : bool :=
  match ty_kind type with
  | TYPE_I32 | TYPE_F32 | TYPE_BOOL | TYPE_U8 | TYPE_USIZE | TYPE_STR | TYPE_ERROR
  | TYPE_PARAM => true
  | _ => false
  end.

Definition type_param_index (type : option TypeData) : option nat :=
  match type with
  | Some t => if bool_decide (ty_kind t = TYPE_PARAM) then Some (ty_param_index t) else None
  | None => None
  end.

Definition type_has_param (type : option TypeData) : bool :=
  match type with None => false | Some t => ty_has_param t end.

(** ** What the MIR passes ask about a type

    The passes hold [const Type *] pointers and put every question to
    [type.c] or to the registry.  [TypeView] is that interface: the answers as
    functions of the pointer.  [Registry.v] discharges it for a registry. *)

Class TypeView := {
  (** [type_kind]; [None] at [NULL]. *)
  tv_kind : TypePtr -> option TypeKind;
  (** [type_pointee]. *)
  tv_pointee : TypePtr -> TypePtr;
  (** [type_registry_fields_of(..)->count]. *)
  tv_field_count : TypePtr -> nat;
  (** [type_registry_owns], [type_registry_borrows], [type_registry_is_unique]. *)
  tv_owns : TypePtr -> bool;
  tv_borrows : TypePtr -> bool;
  tv_is_unique : TypePtr -> bool;
  (** [type_registry_get_primitive]. *)
  tv_primitive : TypeKind -> TypePtr;
}.

(** What the registry promises of its answers. *)
Class TypeViewLaws (TV : TypeView) : Prop := {
  tv_kind_null : tv_kind None = None;
  tv_owns_null : tv_owns None = false;
  tv_borrows_null : tv_borrows None = false;
  tv_ref_borrows t : tv_kind t = Some TYPE_REF -> tv_borrows t = true;
  tv_ref_owns t : tv_kind t = Some TYPE_REF -> tv_owns t = false;
  tv_raw_inert t : tv_kind t = Some TYPE_RAW -> tv_owns t = false /\ tv_borrows t = false;
  tv_fields_struct t : tv_kind t <> Some TYPE_STRUCT -> tv_field_count t = 0;
  tv_pointee_indirect t :
    tv_kind t <> Some TYPE_REF -> tv_kind t <> Some TYPE_RAW -> tv_pointee t = None;
}.

Section constants.
Context `{TV : TypeView}.

Definition tv_is_integer (type : TypePtr) : bool :=
  match tv_kind type with Some k => kind_is_integer k | None => false end.
Definition tv_is_unsigned (type : TypePtr) : bool :=
  match tv_kind type with Some k => kind_is_unsigned k | None => false end.
Definition tv_is_indirect (type : TypePtr) : bool := bool_decide (tv_kind type = Some TYPE_REF).

(** *** [constant.c] *)

Definition constant_is_int (c : Constant) : bool := tv_is_integer (constant_type c).
Definition constant_is_float (c : Constant) : bool :=
  bool_decide (tv_kind (constant_type c) = Some TYPE_F32).
Definition constant_is_bool (c : Constant) : bool :=
  bool_decide (tv_kind (constant_type c) = Some TYPE_BOOL).
Definition constant_is_string (c : Constant) : bool :=
  bool_decide (tv_kind (constant_type c) = Some TYPE_STR).

Definition constant_equals (a b : Constant) : bool :=
  if negb (bool_decide (constant_type a = constant_type b)) then false
  else if constant_is_string a then bool_decide (const_string a = const_string b)
  else if constant_is_float a then f32_eqb (const_float a) (const_float b)
  else if constant_is_bool a then bool_decide (const_bool a = const_bool b)
  else (const_int a =? const_int b)%Z.

(** [addr] is the address an interned string has. *)
Definition constant_hash (addr : StrPtr -> N) (c : Constant) : N :=
  if constant_is_string c then addr (const_string c)
  else if constant_is_float c then f32_bits (const_float c)
  else Z.to_N (to_u32 (const_int c)).
End constants.

(** A small registry the witnesses of the MIR passes are run on: [i32], [bool],
    [&i32], a struct of two references, a [Unique<i32>], [usize] and [f32]. *)
Definition sample_i32 : TypePtr := Some 0.
Definition sample_bool : TypePtr := Some 1.
Definition sample_ref : TypePtr := Some 2.
Definition sample_pair : TypePtr := Some 3.
Definition sample_unique : TypePtr := Some 4.
Definition sample_usize : TypePtr := Some 5.
Definition sample_f32 : TypePtr := Some 6.

Definition sample_view : TypeView := {|
  tv_kind t := match t with
    | Some 0 => Some TYPE_I32 | Some 1 => Some TYPE_BOOL | Some 2 => Some TYPE_REF
    | Some 3 => Some TYPE_STRUCT | Some 4 => Some TYPE_STRUCT | Some 5 => Some TYPE_USIZE
    | Some 6 => Some TYPE_F32 | Some _ => Some TYPE_ERROR | None => None end;
  tv_pointee t := match t with Some 2 => Some 0 | _ => None end;
  tv_field_count t := match t with Some 3 => 2 | Some 4 => 1 | _ => 0 end;
  tv_owns t := bool_decide (t = Some 4);
  tv_borrows t := bool_decide (t = Some 2 \/ t = Some 3);
  tv_is_unique t := bool_decide (t = Some 4);
  tv_primitive k := match k with
    | TYPE_I32 => Some 0 | TYPE_BOOL => Some 1 | TYPE_USIZE => Some 5 | TYPE_F32 => Some 6 | _ => None end;
|}.

#[export] Instance sample_view_laws : TypeViewLaws sample_view.
Proof.
  split; try done; intros [[|[|[|[|[|[|[|]]]]]]]|]; cbn; try done; intros; simplify_eq.
Qed.
