(* ===== verification/Mir.v ===== *)
(** * Mir: the mid-level representation

    The data of [src/src/mir/mir.h] and the functions of [src/src/mir/mir.c].
    The growable arrays of the code are lists here; a [MIRBlock *] is the
    block's index in [blocks] (blocks are only ever appended, so it is also
    the block's id). *)

From S2P Require Import Prelude Types.

(** ** Identifiers

    [MIRValueId], [MIRBlockId] and [MIRFieldId] wrap a [uint32_t]; the
    all-ones word stands for none. *)

Abbreviation MIRValueId := N.
Abbreviation MIRBlockId := N.
Abbreviation MIRFieldId := N.

Definition MIR_NO_VALUE : MIRValueId := UINT32_MAX.
Definition MIR_NO_BLOCK : MIRBlockId := UINT32_MAX.
Definition MIR_WHOLE_VALUE : MIRFieldId := UINT32_MAX.

Definition mir_value_is_none (value : MIRValueId) : bool := (value =? UINT32_MAX)%N.
Definition mir_block_is_none (block : MIRBlockId) : bool := (block =? UINT32_MAX)%N.
Definition mir_field_is_whole (field : MIRFieldId) : bool := (field =? UINT32_MAX)%N.

(** ** Operations *)

Inductive MIROp :=
  | MIR_CONST_INT | MIR_CONST_FLOAT | MIR_CONST_BOOL | MIR_CONST_STR
  | MIR_SIZE_OF
  | MIR_ADD | MIR_SUB | MIR_MUL | MIR_DIV | MIR_MOD | MIR_NEG
  | MIR_CMP
  | MIR_NOT
  | MIR_ITOF | MIR_FTOI
  | MIR_LOAD | MIR_STORE | MIR_REF
  | MIR_BOUNDS
  | MIR_COPY
  | MIR_MAKE_SLICE | MIR_SLICE_LEN
  | MIR_CALL
  | MIR_NULL
  | MIR_DROP
  | MIR_DROP_FLAG
  | MIR_STORAGE_LIVE | MIR_STORAGE_DEAD
  | MIR_STORAGE_INIT
  | MIR_JMP | MIR_BRANCH | MIR_RETURN | MIR_UNREACHABLE.

#[export] Instance MIROp_eq_dec : EqDecision MIROp.
Proof. solve_decision. Defined.

Inductive CmpPredicate :=
  | MIR_CMP_LT | MIR_CMP_GT | MIR_CMP_EQ | MIR_CMP_NE | MIR_CMP_LE | MIR_CMP_GE.

#[export] Instance CmpPredicate_eq_dec : EqDecision CmpPredicate.
Proof. solve_decision. Defined.

(** The kind of a projection with the member of its union. *)
Inductive ProjKind :=
  | PROJ_FIELD (field : MIRFieldId)
  | PROJ_DEREF
  | PROJ_INDEX (index : MIRValueId).

Record Projection := MkProjection { proj_kind : ProjKind; proj_type : TypePtr }.

Inductive MIROperand :=
  | OPERAND_VALUE (value : MIRValueId)
  | OPERAND_CONST (constant : Constant).

Definition mir_operand_value (value : MIRValueId) : MIROperand := OPERAND_VALUE value.
Definition mir_operand_const (constant : Constant) : MIROperand := OPERAND_CONST constant.

Definition mir_operand_as_value (operand : MIROperand) : MIRValueId :=
  match operand with OPERAND_VALUE v => v | OPERAND_CONST _ => MIR_NO_VALUE end.

Record Place := MkPlace {
  base : MIRValueId;
  projections : list Projection;
  binding : SymbolPtr;
}.

Inductive ReadKind := READ_COPY | READ_MOVE.

#[export] Instance ProjKind_eq_dec : EqDecision ProjKind.
Proof. solve_decision. Defined.
#[export] Instance Projection_eq_dec : EqDecision Projection.
Proof. solve_decision. Defined.
#[export] Instance MIROperand_eq_dec : EqDecision MIROperand.
Proof. solve_decision. Defined.
#[export] Instance Place_eq_dec : EqDecision Place.
Proof. solve_decision. Defined.
#[export] Instance ReadKind_eq_dec : EqDecision ReadKind.
Proof. solve_decision. Defined.

Record Span := MkSpan { span_line : Z; span_column : Z }.

#[export] Instance Span_eq_dec : EqDecision Span.
Proof. solve_decision. Defined.

(** The union of [MIRInst], told by the op that wrote it. *)
Inductive MIRPayload :=
  | payload_constant (constant : Constant)
  | payload_predicate (predicate : CmpPredicate)
  | payload_place (place : Place) (read : ReadKind) (flag : MIRValueId)
  | payload_callee (callee : FuncPtr)
  | payload_targets (target0 target1 : MIRBlockId).

Record MIRInst := MkInst {
  op : MIROp;
  inst_type : TypePtr;
  result : MIRValueId;
  args : list MIROperand;
  payload : MIRPayload;
  ending : FuncPtr;
  inst_span : Span;
}.

#[export] Instance MIRPayload_eq_dec : EqDecision MIRPayload.
Proof. solve_decision. Defined.
#[export] Instance MIRInst_eq_dec : EqDecision MIRInst.
Proof. solve_decision. Defined.

(** Reads of the union; a member read under another tag is the zero the
    compound literals of the code initialise the union with. *)
Definition zero_place : Place := MkPlace 0 [] None.
Definition zero_constant : Constant := MkConstant None (as_int 0).

Definition inst_place (inst : MIRInst) : Place :=
  match payload inst with payload_place p _ _ => p | _ => zero_place end.
Definition inst_read (inst : MIRInst) : ReadKind :=
  match payload inst with payload_place _ r _ => r | _ => READ_COPY end.
Definition inst_flag (inst : MIRInst) : MIRValueId :=
  match payload inst with payload_place _ _ f => f | _ => 0%N end.
Definition inst_constant (inst : MIRInst) : Constant :=
  match payload inst with payload_constant c => c | _ => zero_constant end.
Definition inst_callee (inst : MIRInst) : FuncPtr :=
  match payload inst with payload_callee f => f | _ => None end.
Definition inst_targets (inst : MIRInst) : MIRBlockId * MIRBlockId :=
  match payload inst with payload_targets a b => (a, b) | _ => (0%N, 0%N) end.

Definition arg_count (inst : MIRInst) : nat := length (args inst).

Record MIRBlock := MkBlock { block_id : MIRBlockId; insts : list MIRInst }.

Record MIRValueInfo := MkValueInfo {
  value_type : TypePtr;
  value_binding : SymbolPtr;
  value_span : Span;
}.

Record MIRFunction := MkFunction {
  mir_function : FuncPtr;
  blocks : list MIRBlock;
  entry : MIRBlockId;
  values : list MIRValueInfo;
  params : list MIRValueId;
}.

Definition block_count (ir : MIRFunction) : nat := length (blocks ir).
Definition value_count (ir : MIRFunction) : nat := length (values ir).
Definition inst_count (b : MIRBlock) : nat := length (insts b).

Definition set_blocks (ir : MIRFunction) (bs : list MIRBlock) : MIRFunction :=
  MkFunction (mir_function ir) bs (entry ir) (values ir) (params ir).
Definition set_values (ir : MIRFunction) (vs : list MIRValueInfo) : MIRFunction :=
  MkFunction (mir_function ir) (blocks ir) (entry ir) vs (params ir).
Definition set_insts (b : MIRBlock) (l : list MIRInst) : MIRBlock := MkBlock (block_id b) l.

(** ** Building a function *)

(** Returns the new block's index with the function. *)
Definition mir_block_create (ir : MIRFunction) : MIRFunction * nat :=
  (set_blocks ir (blocks ir ++ [MkBlock (N.of_nat (block_count ir)) []]), block_count ir).

Definition mir_function_create (function : FuncPtr) : MIRFunction :=
  let ir := MkFunction function [] MIR_NO_BLOCK [] [] in
  let '(ir, b) := mir_block_create ir in
  MkFunction (mir_function ir) (blocks ir) (N.of_nat b) (values ir) (params ir).

Definition mir_block_at (ir : MIRFunction) (id : MIRBlockId) : option MIRBlock :=
  if mir_block_is_none id || (N.of_nat (block_count ir) <=? id)%N then None
  else blocks ir !! N.to_nat id.

Definition mir_value_create (ir : MIRFunction) (type : TypePtr) (b : SymbolPtr) (span : Span)
  : MIRFunction * MIRValueId :=
  (set_values ir (values ir ++ [MkValueInfo type b span]), N.of_nat (value_count ir)).

Definition mir_value_info (ir : MIRFunction) (value : MIRValueId) : option MIRValueInfo :=
  if mir_value_is_none value || (N.of_nat (value_count ir) <=? value)%N then None
  else values ir !! N.to_nat value.

Definition mir_emit (ir : MIRFunction) (block : nat) (inst : MIRInst) : MIRFunction :=
  set_blocks ir (alter (fun b => set_insts b (insts b ++ [inst])) block (blocks ir)).

(** ** Places *)

Definition mir_place_of (b : MIRValueId) (bind : SymbolPtr) : Place := MkPlace b [] bind.

Definition mir_place_project (place : Place) (projection : Projection) : Place :=
  MkPlace (base place) (projections place ++ [projection]) (binding place).

(** ** Predicates on operations and blocks *)

Definition mir_op_has_place (o : MIROp) : bool :=
  match o with
  | MIR_LOAD | MIR_STORE | MIR_REF | MIR_DROP | MIR_DROP_FLAG | MIR_NULL
  | MIR_STORAGE_LIVE | MIR_STORAGE_DEAD | MIR_STORAGE_INIT => true
  | _ => false
  end.

Definition mir_op_is_terminator (o : MIROp) : bool :=
  match o with
  | MIR_JMP | MIR_BRANCH | MIR_RETURN | MIR_UNREACHABLE => true
  | _ => false
  end.

Definition mir_block_is_terminated (b : MIRBlock) : bool :=
  match last (insts b) with Some inst => mir_op_is_terminator (op inst) | None => false end.

(** The [count] first entries of [out]. *)
Definition mir_block_successors (b : MIRBlock) : list MIRBlockId :=
  if negb (mir_block_is_terminated b) then []
  else
    match last (insts b) with
    | None => []
    | Some terminator =>
        let '(target0, target1) := inst_targets terminator in
        match op terminator with
        | MIR_JMP => [target0]
        | MIR_BRANCH => [target0; target1]
        | _ => []
        end
    end.

Section typed.
Context `{TV : TypeView}.

(** [while (type_is_indirect(type)) type = type_pointee(type)]: a pointer
    chain is finite, [fuel] bounds its length. *)
Fixpoint mir_indexed_container (fuel : nat) (type : TypePtr) : option TypePtr :=
  if tv_is_indirect type then
    match fuel with
    | O => None
    | S fuel' => mir_indexed_container fuel' (tv_pointee type)
    end
  else Some type.

Definition mir_place_index (b : Place) (container : TypePtr) (index : MIRValueId)
    (element : TypePtr) : Place :=
  let b :=
    if bool_decide (tv_kind container = Some TYPE_RAW) then
      mir_place_project b (MkProjection PROJ_DEREF container)
    else if tv_is_indirect container then
      mir_place_project b (MkProjection PROJ_DEREF (tv_pointee container))
    else b in
  mir_place_project b (MkProjection (PROJ_INDEX index) element).

Definition mir_bounds_operands (fuel : nat) (indexed : Place) (container : TypePtr)
    (index : MIRValueId) : option (list MIRValueId) :=
  c ← mir_indexed_container fuel container;
  Some (if bool_decide (tv_kind c = Some TYPE_SLICE) then [index; base indexed] else [index]).

Definition mir_type_needs_drop (type : TypePtr) : bool :=
  match type with None => false | Some _ => tv_owns type end.
End typed.

(** ** Names *)

(** The table has no row for [MIR_SIZE_OF]: its entry is [NULL]. *)
Definition mir_op_name (o : MIROp) : option string :=
  match o with
  | MIR_CONST_INT => Some "const.int"
  | MIR_CONST_FLOAT => Some "const.float"
  | MIR_CONST_BOOL => Some "const.bool"
  | MIR_CONST_STR => Some "const.str"
  | MIR_SIZE_OF => None
  | MIR_ADD => Some "add"
  | MIR_SUB => Some "sub"
  | MIR_MUL => Some "mul"
  | MIR_DIV => Some "div"
  | MIR_MOD => Some "mod"
  | MIR_NEG => Some "neg"
  | MIR_CMP => Some "cmp"
  | MIR_NOT => Some "not"
  | MIR_ITOF => Some "itof"
  | MIR_FTOI => Some "ftoi"
  | MIR_LOAD => Some "load"
  | MIR_STORE => Some "store"
  | MIR_REF => Some "ref"
  | MIR_BOUNDS => Some "bounds"
  | MIR_COPY => Some "copy"
  | MIR_MAKE_SLICE => Some "make_slice"
  | MIR_SLICE_LEN => Some "slice_len"
  | MIR_CALL => Some "call"
  | MIR_NULL => Some "null"
  | MIR_DROP_FLAG => Some "drop_flag"
  | MIR_DROP => Some "drop"
  | MIR_STORAGE_LIVE => Some "storage_live"
  | MIR_STORAGE_DEAD => Some "storage_dead"
  | MIR_STORAGE_INIT => Some "storage_init"
  | MIR_JMP => Some "jmp"
  | MIR_BRANCH => Some "branch"
  | MIR_RETURN => Some "return"
  | MIR_UNREACHABLE => Some "unreachable"
  end.

Definition mir_cmp_predicate_name (p : CmpPredicate) : string :=
  match p with
  | MIR_CMP_LT => "lt"
  | MIR_CMP_GT => "gt"
  | MIR_CMP_EQ => "eq"
  | MIR_CMP_NE => "ne"
  | MIR_CMP_LE => "le"
  | MIR_CMP_GE => "ge"
  end.

(** ** A counting loop, for the witnesses

<<
    func count(n: i32): i32 { for let i: i32 = 0; i < n; i = i + 1 { } return 0; }
>> *)

Definition no_span : Span := MkSpan 0 0.

Definition inst_at (o : MIROp) (t : TypePtr) (r : MIRValueId) (a : list MIROperand) (p : MIRPayload) : MIRInst :=
  MkInst o t r a p None no_span.

Definition on_place (b : MIRValueId) (ps : list ProjKind) (r : ReadKind) : MIRPayload :=
  payload_place (MkPlace b ((fun k => MkProjection k None) <$> ps) None) r 0.

Definition local (t : TypePtr) : MIRValueInfo := MkValueInfo t None no_span.

Definition sample_loop : MIRFunction := {|
  mir_function := Some 0;
  blocks :=
    [ MkBlock 0
        [ inst_at MIR_STORAGE_LIVE sample_i32 MIR_NO_VALUE [] (on_place 1 [] READ_COPY);
          inst_at MIR_CONST_INT sample_i32 2 [] (payload_constant (constant_int sample_i32 0));
          inst_at MIR_STORE sample_i32 MIR_NO_VALUE [OPERAND_VALUE 2] (on_place 1 [] READ_COPY);
          inst_at MIR_JMP None MIR_NO_VALUE [] (payload_targets 1 0) ];
      MkBlock 1
        [ inst_at MIR_LOAD sample_i32 3 [] (on_place 1 [] READ_COPY);
          inst_at MIR_CMP sample_bool 4 [OPERAND_VALUE 3; OPERAND_VALUE 0] (payload_predicate MIR_CMP_LT);
          inst_at MIR_BRANCH None MIR_NO_VALUE [OPERAND_VALUE 4] (payload_targets 2 3) ];
      MkBlock 2
        [ inst_at MIR_LOAD sample_i32 5 [] (on_place 1 [] READ_COPY);
          inst_at MIR_ADD sample_i32 6 [OPERAND_VALUE 5; OPERAND_CONST (constant_int sample_i32 1)]
            (payload_constant zero_constant);
          inst_at MIR_STORE sample_i32 MIR_NO_VALUE [OPERAND_VALUE 6] (on_place 1 [] READ_COPY);
          inst_at MIR_JMP None MIR_NO_VALUE [] (payload_targets 1 0) ];
      MkBlock 3
        [ inst_at MIR_STORAGE_DEAD sample_i32 MIR_NO_VALUE [] (on_place 1 [] READ_COPY);
          inst_at MIR_RETURN None MIR_NO_VALUE [OPERAND_CONST (constant_int sample_i32 0)]
            (payload_constant zero_constant) ] ];
  entry := 0;
  values := [local sample_i32; local sample_i32; local sample_i32; local sample_i32;
             local sample_bool; local sample_i32; local sample_i32];
  params := [0%N];
|}.
