(* ===== verification/Liveness.v ===== *)
(** * Liveness: which places are read later

    The analysis of [src/src/mir/mir_liveness.c]: a backward data-flow over
    bit sets of places, one bit for every value and one for every field of a
    struct value.  The sets are arrays of 64-bit words, as in the code; the
    theorems relate them to paths of the control-flow graph. *)

From S2P Require Import Prelude Types Mir.

(** ** Bit sets *)

Abbreviation words := (list N).

Definition word_of (index : nat) : nat := index / 64.
Definition bit_of (index : nat) : N := N.shiftl 1 (N.of_nat (index mod 64)).

Definition set_test (set : words) (index : nat) : bool :=
  match set !! word_of index with
  | Some w => negb (N.land w (bit_of index) =? 0)%N
  | None => false
  end.

Definition set_add (set : words) (index : nat) : words :=
  alter (fun w => N.lor w (bit_of index)) (word_of index) set.

(** [w &= ~bit] on a 64-bit word. *)
Definition set_remove (set : words) (index : nat) : words :=
  alter (fun w => N.ldiff w (bit_of index)) (word_of index) set.

(** [dst[w] |= src[w]] for every word. *)
Definition set_union (dst src : words) : words := zip_with N.lor dst src.

(** ** The analysis *)

Record Liveness := MkLiveness {
  live_entry : list words;
  live_exit : list words;
  value_base : list nat;
  value_fields : list nat;
  place_count : nat;
  words_per_block : nat;
  live_ir : MIRFunction;
}.

Definition with_rows (lv : Liveness) (en ex : list words) : Liveness :=
  MkLiveness en ex (value_base lv) (value_fields lv) (place_count lv) (words_per_block lv) (live_ir lv).

Definition base_of (lv : Liveness) (value : MIRValueId) : nat :=
  default 0 (value_base lv !! N.to_nat value).
Definition fields_of (lv : Liveness) (value : MIRValueId) : nat :=
  default 0 (value_fields lv !! N.to_nat value).

Definition place_index (lv : Liveness) (value : MIRValueId) (field : MIRFieldId) : nat :=
  if mir_field_is_whole field || (N.of_nat (fields_of lv value) <=? field)%N
  then base_of lv value
  else base_of lv value + 1 + N.to_nat field.

Definition value_out_of_range (lv : Liveness) (value : MIRValueId) : bool :=
  mir_value_is_none value || (N.of_nat (value_count (live_ir lv)) <=? value)%N.

(** The loop over the fields of [value]. *)
Definition field_indices (lv : Liveness) (value : MIRValueId) : list nat :=
  (fun i => place_index lv value (N.of_nat i)) <$> seq 0 (fields_of lv value).

Definition read_place (lv : Liveness) (set : words) (value : MIRValueId) (field : MIRFieldId) : words :=
  if value_out_of_range lv value then set
  else
    let set := set_add set (place_index lv value field) in
    if negb (mir_field_is_whole field) then set
    else foldl set_add set (field_indices lv value).

Definition write_place (lv : Liveness) (set : words) (value : MIRValueId) (field : MIRFieldId) : words :=
  if value_out_of_range lv value then set
  else
    let set := set_remove set (place_index lv value field) in
    if negb (mir_field_is_whole field) then set
    else foldl set_remove set (field_indices lv value).

Definition leading_field (place : Place) : MIRFieldId :=
  match projections place with
  | [] => MIR_WHOLE_VALUE
  | p :: _ => match proj_kind p with PROJ_FIELD f => f | _ => MIR_WHOLE_VALUE end
  end.

(** The values the place's path indexes with. *)
Definition place_indices (place : Place) : list MIRValueId :=
  omap (fun p => match proj_kind p with PROJ_INDEX i => Some i | _ => None end) (projections place).

Definition read_indices (lv : Liveness) (place : Place) (set : words) : words :=
  foldl (fun set i => read_place lv set i MIR_WHOLE_VALUE) set (place_indices place).

Definition place_reads (lv : Liveness) (place : Place) (set : words) : words :=
  read_indices lv place (read_place lv set (base place) (leading_field place)).

Definition step_backwards (lv : Liveness) (inst : MIRInst) (set : words) : words :=
  let set :=
    if negb (mir_value_is_none (result inst))
    then write_place lv set (result inst) MIR_WHOLE_VALUE else set in
  let place := inst_place inst in
  let set :=
    if bool_decide (op inst = MIR_STORE) then
      let set := write_place lv set (base place) (leading_field place) in
      let set :=
        if bool_decide (1 < length (projections place))
        then read_place lv set (base place) (leading_field place) else set in
      read_indices lv place set
    else if bool_decide (op inst = MIR_LOAD \/ op inst = MIR_REF \/ op inst = MIR_DROP)
    then place_reads lv place set
    else set in
  let set :=
    if bool_decide (op inst = MIR_STORAGE_LIVE \/ op inst = MIR_STORAGE_DEAD)
    then write_place lv set (base place) MIR_WHOLE_VALUE else set in
  foldl (fun set arg => read_place lv set (mir_operand_as_value arg) MIR_WHOLE_VALUE) set (args inst).

(** The set after walking the instructions from the last to the first. *)
Definition walk_backwards (lv : Liveness) (l : list MIRInst) (set : words) : words :=
  foldr (step_backwards lv) set l.

(** *** The layout of the bit set *)

Section layout.
Context `{TV : TypeView}.

Definition field_count_of (info : MIRValueInfo) : nat :=
  if bool_decide (tv_kind (value_type info) = Some TYPE_STRUCT)
  then tv_field_count (value_type info) else 0.

(** [value_base] and the number of places, from [places] on. *)
Fixpoint layout_places (places : nat) (fields : list nat) : list nat * nat :=
  match fields with
  | [] => ([], places)
  | f :: fields' =>
      let '(bases, total) := layout_places (places + (1 + f)) fields' in
      (places :: bases, total)
  end.

Definition liveness_init (ir : MIRFunction) : Liveness :=
  let fields := field_count_of <$> values ir in
  let '(bases, places) := layout_places 0 fields in
  let words := (places + 63) / 64 in
  let words := if bool_decide (words = 0) then 1 else words in
  let rows := replicate (block_count ir) (replicate words 0%N) in
  MkLiveness rows rows bases fields places words ir.
End layout.

(** *** The fixed point *)

(** [exit |= entry(successor)] over the successors; the flag is [changed]. *)
Definition flow_exit (en : list words) (acc : bool * words) (s : MIRBlockId) : bool * words :=
  let '(changed, ex) := acc in
  match en !! N.to_nat s with
  | Some successor_entry =>
      let ex' := set_union ex successor_entry in
      (changed || negb (bool_decide (ex' = ex)), ex')
  | None => (changed, ex)
  end.

(** One block of a turn of the loop. *)
Definition flow_block (acc : bool * Liveness) (i : nat) : bool * Liveness :=
  let '(changed, lv) := acc in
  match blocks (live_ir lv) !! i, live_exit lv !! i, live_entry lv !! i with
  | Some block, Some ex, Some en =>
      let '(changed, ex) := foldl (flow_exit (live_entry lv)) (changed, ex) (mir_block_successors block) in
      let working := walk_backwards lv (insts block) ex in
      let en' := set_union en working in
      (changed || negb (bool_decide (en' = en)),
       with_rows lv (<[i := en']> (live_entry lv)) (<[i := ex]> (live_exit lv)))
  | _, _, _ => (changed, lv)
  end.

Definition flow_pass (lv : Liveness) : bool * Liveness :=
  foldl flow_block (false, lv) (reverse (seq 0 (block_count (live_ir lv)))).

(** Enough turns: every turn but the last sets a bit of a row. *)
Definition liveness_fuel (lv : Liveness) : nat :=
  S (2 * (block_count (live_ir lv) * (64 * words_per_block lv))).

Definition mir_liveness_compute `{TV : TypeView} (ir : MIRFunction) : option Liveness :=
  let lv := liveness_init ir in
  while_changed (liveness_fuel lv) flow_pass lv.

(** ** Queries *)

Definition any_field_live (lv : Liveness) (set : words) (value : MIRValueId) : bool :=
  set_test set (place_index lv value MIR_WHOLE_VALUE) ||
  existsb (set_test set) (field_indices lv value).

Definition row_of (rows : list words) (block : MIRBlockId) : words :=
  default [] (rows !! N.to_nat block).

Definition mir_live_on_entry (lv : Liveness) (block : MIRBlockId) (value : MIRValueId) : bool :=
  if mir_block_is_none block || value_out_of_range lv value then false
  else any_field_live lv (row_of (live_entry lv) block) value.

Definition mir_live_on_exit (lv : Liveness) (block : MIRBlockId) (value : MIRValueId) : bool :=
  if mir_block_is_none block || value_out_of_range lv value then false
  else any_field_live lv (row_of (live_exit lv) block) value.

Definition mir_live_set_holds (lv : Liveness) (set : words) (value : MIRValueId) : bool :=
  if value_out_of_range lv value then false else any_field_live lv set value.

(** The sets [visit] is called with, in order: what is live after each
    instruction, from the last to the first. *)
Definition mir_live_walk_block (lv : Liveness) (block : MIRBlockId) : list words :=
  match mir_block_at (live_ir lv) block with
  | None => []
  | Some data =>
      (foldl (fun '(visited, working) inst =>
                (visited ++ [working], step_backwards lv inst working))
             ([], row_of (live_exit lv) block) (reverse (insts data))).1
  end.

Definition mir_live_after (lv : Liveness) (block : MIRBlockId) (index : nat) (value : MIRValueId)
    (field : MIRFieldId) : bool :=
  if mir_block_is_none block || value_out_of_range lv value then false
  else
    match mir_block_at (live_ir lv) block with
    | None => false
    | Some data =>
        let working := walk_backwards lv (drop (index + 1) (insts data)) (row_of (live_exit lv) block) in
        if mir_field_is_whole field then any_field_live lv working value
        else set_test working (place_index lv value field)
    end.

(** ** Bit sets as sets of indices *)

Lemma bit_of_testbit i k : N.testbit (bit_of i) k = (k =? N.of_nat (i mod 64))%N.
Proof.
  unfold bit_of. rewrite N.shiftl_1_l, N.pow2_bits_eqb. apply N.eqb_sym.
Qed.

Lemma land_bit w i :
  negb (N.land w (bit_of i) =? 0)%N = N.testbit w (N.of_nat (i mod 64)).
Proof.
  destruct (N.testbit w (N.of_nat (i mod 64))) eqn:Hb.
  - apply negb_true_iff, N.eqb_neq. intros H.
    assert (Ht : N.testbit (N.land w (bit_of i)) (N.of_nat (i mod 64)) = false)
      by (rewrite H; apply N.bits_0).
    rewrite N.land_spec, bit_of_testbit, Hb, N.eqb_refl in Ht. done.
  - apply negb_false_iff, N.eqb_eq, N.bits_inj. intros k.
    rewrite N.land_spec, bit_of_testbit, N.bits_0.
    destruct (N.eqb_spec k (N.of_nat (i mod 64))) as [->|]; by rewrite ?Hb, ?andb_false_r.
Qed.

Lemma set_test_testbit set i :
  set_test set i =
  match set !! word_of i with Some w => N.testbit w (N.of_nat (i mod 64)) | None => false end.
Proof. unfold set_test. destruct (set !! word_of i); [apply land_bit|done]. Qed.

(** Equal words and equal bits are equal indices. *)
Lemma index_split i j : word_of i = word_of j -> i mod 64 = j mod 64 -> i = j.
Proof.
  unfold word_of. intros. rewrite (Nat.div_mod_eq i 64), (Nat.div_mod_eq j 64). lia.
Qed.

(** A set holds at most [64] indices for every word it has. *)
Definition in_range (set : words) (i : nat) : Prop := i < 64 * length set.

Lemma in_range_word set i : in_range set i -> is_Some (set !! word_of i).
Proof.
  unfold in_range, word_of. intros. apply lookup_lt_is_Some.
  apply Nat.Div0.div_lt_upper_bound. lia.
Qed.

Lemma set_test_range set i : set_test set i = true -> in_range set i.
Proof.
  unfold set_test, in_range, word_of. destruct (set !! _) eqn:H; [|done]. intros _.
  apply lookup_lt_Some in H. pose proof (Nat.div_mod_eq i 64).
  pose proof (Nat.mod_upper_bound i 64). lia.
Qed.

Lemma length_set_add set i : length (set_add set i) = length set.
Proof. apply length_alter. Qed.
Lemma length_set_remove set i : length (set_remove set i) = length set.
Proof. apply length_alter. Qed.
Lemma length_set_union a b : length a = length b -> length (set_union a b) = length a.
Proof. intros H. unfold set_union. rewrite length_zip_with. lia. Qed.

Lemma set_test_add set i j :
  in_range set i -> set_test (set_add set i) j = bool_decide (j = i) || set_test set j.
Proof.
  intros Hi. rewrite !set_test_testbit. unfold set_add.
  destruct (in_range_word _ _ Hi) as [w Hw].
  destruct (decide (word_of i = word_of j)) as [He|He].
  - rewrite <- He, list_lookup_alter_eq, Hw. simpl.
    rewrite N.lor_spec, bit_of_testbit, orb_comm. f_equal.
    destruct (N.eqb_spec (N.of_nat (j mod 64)) (N.of_nat (i mod 64))) as [Hm|Hm].
    + symmetry. apply bool_decide_eq_true. apply index_split; [done|lia].
    + symmetry. apply bool_decide_eq_false. congruence.
  - rewrite list_lookup_alter_ne by done.
    rewrite bool_decide_eq_false_2 by congruence. done.
Qed.

Lemma set_test_remove set i j :
  set_test (set_remove set i) j = negb (bool_decide (j = i)) && set_test set j.
Proof.
  rewrite !set_test_testbit. unfold set_remove.
  destruct (decide (word_of i = word_of j)) as [He|He].
  - rewrite <- He, list_lookup_alter_eq. destruct (set !! word_of i); simpl; [|by rewrite andb_false_r].
    rewrite N.ldiff_spec, bit_of_testbit, andb_comm. f_equal. f_equal.
    destruct (N.eqb_spec (N.of_nat (j mod 64)) (N.of_nat (i mod 64))) as [Hm|Hm].
    + symmetry. apply bool_decide_eq_true. apply index_split; [done|lia].
    + symmetry. apply bool_decide_eq_false. congruence.
  - rewrite list_lookup_alter_ne by done.
    rewrite (bool_decide_eq_false_2 (j = i)) by congruence. done.
Qed.

Lemma set_test_union a b j :
  length a = length b -> set_test (set_union a b) j = set_test a j || set_test b j.
Proof.
  intros Hl. rewrite !set_test_testbit. unfold set_union. rewrite lookup_zip_with.
  destruct (a !! word_of j) as [w|] eqn:Ha, (b !! word_of j) as [w'|] eqn:Hb; simpl.
  - apply N.lor_spec.
  - apply lookup_lt_Some in Ha. apply lookup_ge_None in Hb. lia.
  - apply lookup_lt_Some in Hb. apply lookup_ge_None in Ha. lia.
  - done.
Qed.

Lemma length_foldl_add l : forall set, length (foldl set_add set l) = length set.
Proof. induction l as [|i l IH]; intros set; simpl; [done|]. by rewrite IH, length_set_add. Qed.

Lemma length_foldl_remove l : forall set, length (foldl set_remove set l) = length set.
Proof. induction l as [|i l IH]; intros set; simpl; [done|]. by rewrite IH, length_set_remove. Qed.

Lemma set_test_foldl_add l : forall set j,
  Forall (in_range set) l ->
  set_test (foldl set_add set l) j = bool_decide (j ∈ l) || set_test set j.
Proof.
  induction l as [|i l IH]; intros set j Hl; cbn [foldl].
  - by rewrite bool_decide_eq_false_2 by set_solver.
  - apply Forall_cons in Hl as [Hi Hl]. rewrite IH.
    2:{ eapply Forall_impl; [done|]. intros x. unfold in_range. by rewrite length_set_add. }
    rewrite set_test_add by done.
    repeat case_bool_decide; set_solver.
Qed.

Lemma set_test_foldl_remove l : forall set j,
  set_test (foldl set_remove set l) j = negb (bool_decide (j ∈ l)) && set_test set j.
Proof.
  induction l as [|i l IH]; intros set j; cbn [foldl].
  - by rewrite bool_decide_eq_false_2 by set_solver.
  - rewrite IH, set_test_remove. repeat case_bool_decide; set_solver.
Qed.

(** ** What an instruction reads and writes

    [covered lv v f] are the indices a read or a write of the field [f] of the
    value [v] touches; [inst_reads] and [inst_writes] collect them over an
    instruction. *)

Definition covered (lv : Liveness) (value : MIRValueId) (field : MIRFieldId) : list nat :=
  if value_out_of_range lv value then []
  else place_index lv value field :: (if mir_field_is_whole field then field_indices lv value else []).

Definition inst_writes (lv : Liveness) (inst : MIRInst) : list nat :=
  let place := inst_place inst in
  covered lv (result inst) MIR_WHOLE_VALUE ++
  (if bool_decide (op inst = MIR_STORE) then covered lv (base place) (leading_field place) else []) ++
  (if bool_decide (op inst = MIR_STORAGE_LIVE \/ op inst = MIR_STORAGE_DEAD)
   then covered lv (base place) MIR_WHOLE_VALUE else []).

Definition inst_reads (lv : Liveness) (inst : MIRInst) : list nat :=
  let place := inst_place inst in
  let indices := concat ((fun i => covered lv i MIR_WHOLE_VALUE) <$> place_indices place) in
  (if bool_decide (op inst = MIR_STORE) then
     (if bool_decide (1 < length (projections place))
      then covered lv (base place) (leading_field place) else []) ++ indices
   else if bool_decide (op inst = MIR_LOAD \/ op inst = MIR_REF \/ op inst = MIR_DROP)
   then covered lv (base place) (leading_field place) ++ indices
   else []) ++
  concat ((fun arg => covered lv (mir_operand_as_value arg) MIR_WHOLE_VALUE) <$> args inst).

Lemma read_place_covered lv set v f : read_place lv set v f = foldl set_add set (covered lv v f).
Proof.
  unfold read_place, covered. destruct (value_out_of_range lv v); [done|].
  by destruct (mir_field_is_whole f).
Qed.

Lemma write_place_covered lv set v f : write_place lv set v f = foldl set_remove set (covered lv v f).
Proof.
  unfold write_place, covered. destruct (value_out_of_range lv v); [done|].
  by destruct (mir_field_is_whole f).
Qed.

Lemma foldl_read_covered {A} lv (g : A -> MIRValueId) l : forall set,
  foldl (fun set a => read_place lv set (g a) MIR_WHOLE_VALUE) set l =
  foldl set_add set (concat ((fun a => covered lv (g a) MIR_WHOLE_VALUE) <$> l)).
Proof.
  induction l as [|a l IH]; intros set; [done|].
  cbn [foldl fmap list_fmap concat]. by rewrite foldl_app, IH, read_place_covered.
Qed.

Lemma read_indices_covered lv place set :
  read_indices lv place set =
  foldl set_add set (concat ((fun i => covered lv i MIR_WHOLE_VALUE) <$> place_indices place)).
Proof. apply (foldl_read_covered lv (fun i => i)). Qed.

Lemma covered_none lv f : covered lv MIR_NO_VALUE f = [].
Proof. done. Qed.

(** The transfer function: first the writes leave the set, then the reads
    enter it. *)
Lemma step_backwards_covered lv inst set :
  step_backwards lv inst set =
  foldl set_add (foldl set_remove set (inst_writes lv inst)) (inst_reads lv inst).
Proof.
  unfold step_backwards, inst_writes, inst_reads, place_reads.
  assert (Hres : (if negb (mir_value_is_none (result inst))
                  then write_place lv set (result inst) MIR_WHOLE_VALUE else set) =
                 foldl set_remove set (covered lv (result inst) MIR_WHOLE_VALUE)).
  { rewrite write_place_covered. unfold mir_value_is_none.
    destruct (N.eqb_spec (result inst) UINT32_MAX) as [->|]; done. }
  rewrite Hres, (foldl_read_covered lv mir_operand_as_value), !foldl_app. f_equal.
  rewrite !read_indices_covered, !write_place_covered, !read_place_covered.
  destruct (op inst); decide_closed; rewrite ?foldl_app; try done.
  by destruct (bool_decide _).
Qed.

(** ** The layout gives every place an index below [place_count] *)

Record layout_wf (lv : Liveness) : Prop := {
  layout_in_range v :
    value_out_of_range lv v = false -> base_of lv v + 1 + fields_of lv v <= place_count lv;
  layout_words : place_count lv <= 64 * words_per_block lv;
}.

Lemma covered_range lv v f i : layout_wf lv -> i ∈ covered lv v f -> i < place_count lv.
Proof.
  intros Hwf. unfold covered. destruct (value_out_of_range lv v) eqn:Hr; [set_solver|].
  pose proof (layout_in_range _ Hwf v Hr) as Hb.
  assert (Hp : forall g, place_index lv v g < place_count lv).
  { intros g. unfold place_index.
    destruct (mir_field_is_whole g || (N.of_nat (fields_of lv v) <=? g)%N) eqn:Hg; [lia|].
    apply orb_false_iff in Hg as [_ Hg%N.leb_gt]. lia. }
  intros [->|Hi]%elem_of_cons; [apply Hp|].
  destruct (mir_field_is_whole f); [|set_solver].
  unfold field_indices in Hi. apply list_elem_of_fmap in Hi as (k & -> & _). apply Hp.
Qed.

Lemma inst_reads_range lv inst i : layout_wf lv -> i ∈ inst_reads lv inst -> i < place_count lv.
Proof.
  intros Hwf. unfold inst_reads.
  rewrite elem_of_app, !list_elem_of_In, !in_concat.
  setoid_rewrite <- list_elem_of_In.
  assert (Hc : forall {A} (g : A -> MIRValueId) l j,
    j ∈ concat ((fun a => covered lv (g a) MIR_WHOLE_VALUE) <$> l) -> j < place_count lv).
  { intros A g l j Hj. apply list_elem_of_In, in_concat in Hj as (c & Hc%list_elem_of_In & Hj%list_elem_of_In).
    apply list_elem_of_fmap in Hc as (a & -> & _). by eapply covered_range. }
  pose proof (fun j => Hc _ (fun i => i) (place_indices (inst_place inst)) j) as Hi.
  pose proof (fun j => covered_range lv (base (inst_place inst)) (leading_field (inst_place inst)) j Hwf) as Hb.
  intros [H|(c & Hcin & Hj)].
  - repeat case_bool_decide; rewrite ?elem_of_app in H; naive_solver set_solver.
  - apply list_elem_of_fmap in Hcin as (a & -> & _). by eapply covered_range.
Qed.

Lemma length_step_backwards lv inst set : length (step_backwards lv inst set) = length set.
Proof. by rewrite step_backwards_covered, length_foldl_add, length_foldl_remove. Qed.

Lemma length_walk_backwards lv l set : length (walk_backwards lv l set) = length set.
Proof. induction l as [|inst l IH]; simpl; [done|]. by rewrite length_step_backwards. Qed.

Lemma set_test_step lv inst set i :
  layout_wf lv -> length set = words_per_block lv ->
  set_test (step_backwards lv inst set) i =
  bool_decide (i ∈ inst_reads lv inst) ||
  (negb (bool_decide (i ∈ inst_writes lv inst)) && set_test set i).
Proof.
  intros Hwf Hl. rewrite step_backwards_covered, set_test_foldl_add, set_test_foldl_remove; [done|].
  apply Forall_forall. intros j Hj%inst_reads_range; [|done].
  unfold in_range. rewrite length_foldl_remove, Hl. pose proof (layout_words _ Hwf). lia.
Qed.

Lemma layout_places_spec fields : forall places,
  let '(bases, total) := layout_places places fields in
  places <= total /\ length bases = length fields /\
  forall k b f, bases !! k = Some b -> fields !! k = Some f -> b + 1 + f <= total.
Proof.
  induction fields as [|f fields IH]; intros places; simpl; [naive_solver lia|].
  specialize (IH (places + S f)). destruct (layout_places (places + S f) fields) as [bases total].
  destruct IH as (Hle & Hlen & Hin). split; [lia|]. split; [simpl; lia|].
  intros [|k] b g; simpl; [intros [= <-] [= <-]; lia|apply Hin].
Qed.

Lemma liveness_init_wf `{TV : TypeView} ir : layout_wf (liveness_init ir).
Proof.
  unfold liveness_init. pose proof (layout_places_spec (field_count_of <$> values ir) 0) as Hs.
  destruct (layout_places 0 (field_count_of <$> values ir)) as [bases places].
  destruct Hs as (_ & Hlen & Hin). split; simpl.
  - intros v [_ Hr%N.leb_gt]%orb_false_iff. unfold base_of, fields_of; cbn in *.
    unfold value_count in Hr. rewrite length_fmap in Hlen.
    destruct (lookup_lt_is_Some_2 bases (N.to_nat v)) as [b Hb]; [lia|].
    destruct (lookup_lt_is_Some_2 (field_count_of <$> values ir) (N.to_nat v)) as [f Hf];
      [rewrite length_fmap; lia|].
    rewrite Hb, Hf. simpl. eapply Hin; eauto.
  - case_bool_decide as Hz; pose proof (Nat.div_mod_eq (places + 63) 64);
      pose proof (Nat.mod_upper_bound (places + 63) 64); lia.
Qed.

(** ** Well-formed rows *)

(** The words of a row fit 64 bits, as [uint64_t] makes them. *)
Definition word64 (w : N) : Prop := forall k, (64 <= k)%N -> N.testbit w k = false.

Record row_wf (n : nat) (row : words) : Prop := {
  row_length : length row = n;
  row_words : Forall word64 row;
}.

Lemma word64_bit_of i : word64 (bit_of i).
Proof.
  intros k Hk. rewrite bit_of_testbit. apply N.eqb_neq.
  pose proof (Nat.mod_upper_bound i 64). lia.
Qed.

Lemma word64_lor a b : word64 a -> word64 b -> word64 (N.lor a b).
Proof. intros Ha Hb k Hk. by rewrite N.lor_spec, Ha, Hb. Qed.

Lemma word64_ldiff a b : word64 a -> word64 (N.ldiff a b).
Proof. intros Ha k Hk. by rewrite N.ldiff_spec, Ha. Qed.

Lemma row_wf_add n set i : row_wf n set -> row_wf n (set_add set i).
Proof.
  intros [Hl Hw]. split; [by rewrite length_set_add|].
  apply Forall_alter; [done|]. intros w _ Hx. by apply word64_lor, word64_bit_of.
Qed.

Lemma row_wf_remove n set i : row_wf n set -> row_wf n (set_remove set i).
Proof.
  intros [Hl Hw]. split; [by rewrite length_set_remove|].
  apply Forall_alter; [done|]. intros w _ Hx. by apply word64_ldiff.
Qed.

Lemma row_wf_union n a b : row_wf n a -> row_wf n b -> row_wf n (set_union a b).
Proof.
  intros [Hla Hwa] [Hlb Hwb]. split; [rewrite length_set_union; lia|].
  apply Forall_lookup. intros k w Hk. unfold set_union in Hk.
  apply lookup_zip_with_Some in Hk as (x & y & -> & Hx & Hy).
  apply word64_lor; [exact (Forall_lookup_1 _ _ _ _ Hwa Hx)|exact (Forall_lookup_1 _ _ _ _ Hwb Hy)].
Qed.

Lemma row_wf_foldl n (f : words -> nat -> words) l : forall set,
  (forall set i, row_wf n set -> row_wf n (f set i)) -> row_wf n set -> row_wf n (foldl f set l).
Proof. induction l as [|i l IH]; intros set Hf Hs; simpl; [done|]. by apply IH, Hf. Qed.

Lemma row_wf_step n lv inst set : row_wf n set -> row_wf n (step_backwards lv inst set).
Proof.
  intros. rewrite step_backwards_covered.
  apply row_wf_foldl; [apply row_wf_add|]. by apply row_wf_foldl; [apply row_wf_remove|].
Qed.

Lemma row_wf_walk n lv l set : row_wf n set -> row_wf n (walk_backwards lv l set).
Proof. intros. induction l; simpl; [done|]. by apply row_wf_step. Qed.

(** A row is the set of its indices. *)
Lemma row_ext n a b :
  row_wf n a -> row_wf n b -> (forall i, set_test a i = set_test b i) -> a = b.
Proof.
  intros [Hla Hwa] [Hlb Hwb] Ht. apply list_eq. intros k.
  destruct (a !! k) as [w|] eqn:Ha, (b !! k) as [w'|] eqn:Hb.
  - f_equal. apply N.bits_inj. intros j. destruct (N.ltb_spec j 64) as [Hj|Hj].
    + specialize (Ht (k * 64 + N.to_nat j)). rewrite !set_test_testbit in Ht.
      unfold word_of in Ht.
      rewrite Nat.div_add_l, Nat.div_small, Nat.add_0_r, Ha, Hb in Ht by lia.
      rewrite Nat.add_comm, Nat.Div0.mod_add, Nat.mod_small, N2Nat.id in Ht by lia. done.
    + rewrite (Forall_lookup_1 _ _ _ _ Hwa Ha) by done.
      by rewrite (Forall_lookup_1 _ _ _ _ Hwb Hb).
  - apply lookup_lt_Some in Ha. apply lookup_ge_None in Hb. lia.
  - apply lookup_lt_Some in Hb. apply lookup_ge_None in Ha. lia.
  - done.
Qed.

(** Joining into a row changes it exactly when it adds an index. *)
Lemma union_changed n a b :
  row_wf n a -> row_wf n b -> set_union a b <> a ->
  exists i, set_test (set_union a b) i = true /\ set_test a i = false.
Proof.
  intros Ha Hb Hne.
  pose proof (row_wf_union n a b Ha Hb) as Hu.
  assert (Hl : length a = length b) by (destruct Ha, Hb; lia).
  destruct (decide (Forall (fun i => set_test (set_union a b) i = set_test a i) (seq 0 (64 * n))))
    as [Hall|Hex].
  - exfalso. apply Hne. eapply row_ext; [done|done|]. intros i.
    destruct (decide (i < 64 * n)) as [Hi|Hi].
    + rewrite Forall_forall in Hall. apply Hall. apply elem_of_seq. lia.
    + transitivity false; [|symmetry]; apply not_true_is_false; intros H%set_test_range;
        unfold in_range in H; destruct Hu, Ha; lia.
  - apply not_Forall_Exists, Exists_exists in Hex; [|apply _]. destruct Hex as (i & _ & Hi).
    exists i. simpl in Hi. rewrite set_test_union in Hi |- * by done.
    destruct (set_test a i), (set_test b i); naive_solver.
Qed.

(** ** A turn of the loop *)

(** Index [i] of the entry ([false]) or exit ([true]) row of block [b]. *)
Definition rows_of (lv : Liveness) (side : bool) : list words :=
  if side then live_exit lv else live_entry lv.
Definition cell (lv : Liveness) (side : bool) (b i : nat) : bool :=
  set_test (default [] (rows_of lv side !! b)) i.

Record rows_wf (lv : Liveness) : Prop := {
  rows_layout : layout_wf lv;
  rows_length side : length (rows_of lv side) = block_count (live_ir lv);
  rows_words side : Forall (row_wf (words_per_block lv)) (rows_of lv side);
}.

(** A later state of the loop: the same layout, more places. *)
Record extends (lv lv' : Liveness) : Prop := {
  extends_layout : lv' = with_rows lv (live_entry lv') (live_exit lv');
  extends_cell side b i : cell lv side b i = true -> cell lv' side b i = true;
}.

(** [lv'] holds a place [lv] does not. *)
Definition grew (lv lv' : Liveness) : Prop :=
  exists side b i, cell lv' side b i = true /\ cell lv side b i = false.

#[export] Instance extends_preorder : PreOrder extends.
Proof.
  split.
  - intros lv. split; [by destruct lv|done].
  - intros a b c [Hab Hc] [Hbc Hd]. split; [|auto]. rewrite Hbc, Hab. done.
Qed.

Lemma grew_extends lv lv' lv'' : grew lv lv' -> extends lv' lv'' -> grew lv lv''.
Proof. intros (s & b & i & H & H') [_ Hc]. exists s, b, i. auto. Qed.

Lemma extends_grew lv lv' lv'' : extends lv lv' -> grew lv' lv'' -> grew lv lv''.
Proof.
  intros [_ Hc] (s & b & i & H & H'). exists s, b, i. split; [done|].
  destruct (cell lv s b i) eqn:He; [|done]. apply Hc in He. congruence.
Qed.

(** What the block's equations say when nothing changes any more. *)
Definition stable_block (lv : Liveness) (b : nat) : Prop :=
  forall block ex en,
    blocks (live_ir lv) !! b = Some block ->
    live_exit lv !! b = Some ex -> live_entry lv !! b = Some en ->
    (forall s row i, s ∈ mir_block_successors block -> live_entry lv !! N.to_nat s = Some row ->
       set_test row i = true -> set_test ex i = true) /\
    (forall i, set_test (walk_backwards lv (insts block) ex) i = true -> set_test en i = true).

Lemma flow_exit_foldl n en l : forall changed ex,
  Forall (row_wf n) en -> row_wf n ex ->
  let '(changed', ex') := foldl (flow_exit en) (changed, ex) l in
  row_wf n ex' /\
  (forall i, set_test ex' i = true <->
     set_test ex i = true \/ exists s row, s ∈ l /\ en !! N.to_nat s = Some row /\ set_test row i = true) /\
  (changed' = false -> changed = false /\ ex' = ex) /\
  (changed' = true -> changed = true \/ exists i, set_test ex' i = true /\ set_test ex i = false).
Proof.
  induction l as [|s l IH]; intros changed ex Hen Hex; cbn [foldl].
  { split; [done|]. split; [|naive_solver]. intros i. split; [by left|].
    intros [?|(? & ? & H & _)]; [done|by apply elem_of_nil in H]. }
  unfold flow_exit at 2. destruct (en !! N.to_nat s) as [row|] eqn:Hrow.
  2:{ specialize (IH changed ex Hen Hex). destruct (foldl _ _ l) as [c' ex'].
      destruct IH as (Hwf & Ht & Hrest). split; [done|]. split; [|done].
      intros i. rewrite Ht. split.
      - intros [?|(s' & row & Hs & Hr)]; [by left|right]. exists s', row. split; [by right|done].
      - intros [?|(s' & row & [->|Hs]%elem_of_cons & Hr & ?)]; [by left|congruence|].
        right. by exists s', row. }
  pose proof (Forall_lookup_1 _ _ _ _ Hen Hrow) as Hrw.
  pose proof (row_wf_union n ex row Hex Hrw) as Hu.
  assert (Hl : length ex = length row) by (destruct Hex, Hrw; lia).
  specialize (IH (changed || negb (bool_decide (set_union ex row = ex))) (set_union ex row) Hen Hu).
  destruct (foldl _ _ l) as [c' ex']. destruct IH as (Hwf & Ht & Hf & Htr).
  split; [done|]. split; [|split].
  - intros i. rewrite Ht, set_test_union, orb_true_iff by done. split.
    + intros [[?|?]|(s' & row' & Hs & Hr)]; [by left|right..].
      * exists s, row. split; [by left|done].
      * exists s', row'. split; [by right|done].
    + intros [?|(s' & row' & [->|Hs]%elem_of_cons & Hr & Hi)]; [by left; left| |].
      * left; right. congruence.
      * right. by exists s', row'.
  - intros Hc. apply Hf in Hc as [Hc ->]. apply orb_false_iff in Hc as [-> Hc].
    apply negb_false_iff, bool_decide_eq_true in Hc. done.
  - intros Hc. apply Htr in Hc as [Hc|(i & Hi & Hn)].
    + apply orb_true_iff in Hc as [Hc|Hc]; [by left|right].
      apply negb_true_iff, bool_decide_eq_false in Hc.
      destruct (union_changed n ex row Hex Hrw Hc) as (i & Hi & Hn).
      exists i. split; [|done]. apply Ht. by left.
    + right. exists i. split; [done|]. rewrite set_test_union in Hn by done.
      by apply orb_false_iff in Hn as [Hn _].
Qed.

Lemma cell_insert lv side b r i en ex :
  rows_wf lv -> b < block_count (live_ir lv) ->
  cell (with_rows lv (<[b:=en]> (live_entry lv)) (<[b:=ex]> (live_exit lv))) side r i =
  if decide (r = b) then set_test (if side then ex else en) i else cell lv side r i.
Proof.
  intros Hwf Hb. unfold cell, rows_of.
  pose proof (rows_length _ Hwf true). pose proof (rows_length _ Hwf false). cbn in *.
  destruct (decide (r = b)) as [->|Hne]; destruct side; cbn;
    rewrite ?list_lookup_insert_eq, ?list_lookup_insert_ne by (done || lia); done.
Qed.

(** Replacing the rows of a block by larger ones. *)
Definition update (lv : Liveness) (b : nat) (en ex : words) : Liveness :=
  with_rows lv (<[b:=en]> (live_entry lv)) (<[b:=ex]> (live_exit lv)).

Lemma layout_wf_rows lv en ex : layout_wf lv -> layout_wf (with_rows lv en ex).
Proof. intros [Hr Hw]. split; [exact Hr|exact Hw]. Qed.

Lemma rows_wf_update lv b en ex :
  rows_wf lv -> row_wf (words_per_block lv) en -> row_wf (words_per_block lv) ex ->
  rows_wf (update lv b en ex).
Proof.
  intros Hwf Hen Hex.
  pose proof (rows_length _ Hwf true). pose proof (rows_length _ Hwf false).
  pose proof (rows_words _ Hwf true). pose proof (rows_words _ Hwf false).
  split; [apply layout_wf_rows, Hwf| |]; intros []; cbn in *; rewrite ?length_insert; try done;
    by apply Forall_insert.
Qed.

Lemma extends_update lv b en ex en' ex' :
  rows_wf lv -> live_entry lv !! b = Some en -> live_exit lv !! b = Some ex ->
  (forall i, set_test en i = true -> set_test en' i = true) ->
  (forall i, set_test ex i = true -> set_test ex' i = true) ->
  extends lv (update lv b en' ex').
Proof.
  intros Hwf Hen Hex He Hx. split; [done|]. intros side r i.
  unfold update. rewrite cell_insert; [|done|].
  2:{ rewrite <- (rows_length _ Hwf false). by eapply lookup_lt_Some. }
  destruct (decide (r = b)) as [->|]; [|done]. unfold cell, rows_of.
  destruct side; rewrite ?Hex, ?Hen; cbn; auto.
Qed.

Lemma grew_update lv b en ex en' ex' :
  rows_wf lv -> live_entry lv !! b = Some en -> live_exit lv !! b = Some ex ->
  (exists i, set_test en' i = true /\ set_test en i = false) \/
  (exists i, set_test ex' i = true /\ set_test ex i = false) ->
  grew lv (update lv b en' ex').
Proof.
  intros Hwf Hen Hex.
  assert (Hb : b < block_count (live_ir lv)).
  { rewrite <- (rows_length _ Hwf false). by eapply lookup_lt_Some. }
  intros [(i & Hi & Hn)|(i & Hi & Hn)]; [exists false, b, i|exists true, b, i];
    unfold update; rewrite cell_insert, decide_True by done; (split; [done|]);
    unfold cell, rows_of; by rewrite ?Hex, ?Hen.
Qed.

(** One block of a turn: the rows stay well-formed and only grow, the flag
    says whether they grew, and an unchanged block satisfies its equations. *)
Lemma flow_block_spec lv i changed :
  rows_wf lv -> i < block_count (live_ir lv) ->
  let '(changed', lv') := flow_block (changed, lv) i in
  rows_wf lv' /\ extends lv lv' /\
  (changed' = true -> changed = true \/ grew lv lv') /\
  (changed' = false -> changed = false /\ lv' = lv /\ stable_block lv i).
Proof.
  intros Hwf Hi. unfold flow_block.
  pose proof (rows_length _ Hwf true) as Hlx. pose proof (rows_length _ Hwf false) as Hle.
  pose proof (rows_words _ Hwf true) as Hwx. pose proof (rows_words _ Hwf false) as Hwe.
  cbn in Hlx, Hle, Hwx, Hwe.
  destruct (lookup_lt_is_Some_2 (blocks (live_ir lv)) i Hi) as [block Hblock].
  destruct (lookup_lt_is_Some_2 (live_exit lv) i) as [ex Hex]; [lia|].
  destruct (lookup_lt_is_Some_2 (live_entry lv) i) as [en Hen]; [lia|].
  rewrite Hblock, Hex, Hen.
  pose proof (Forall_lookup_1 _ _ _ _ Hwx Hex) as Hrx.
  pose proof (Forall_lookup_1 _ _ _ _ Hwe Hen) as Hre.
  pose proof (flow_exit_foldl _ _ (mir_block_successors block) changed ex Hwe Hrx) as Hf.
  destruct (foldl _ _ (mir_block_successors block)) as [c1 ex1].
  destruct Hf as (Hrx1 & Htx & Hfx & Hgx).
  pose proof (row_wf_walk _ lv (insts block) _ Hrx1) as Hrw.
  pose proof (row_wf_union _ _ _ Hre Hrw) as Hru.
  assert (Hl : length en = length (walk_backwards lv (insts block) ex1)) by (destruct Hre, Hrw; lia).
  fold (update lv i (set_union en (walk_backwards lv (insts block) ex1)) ex1).
  split; [by apply rows_wf_update|]. split; [|split].
  - eapply extends_update; [done..| |intros; apply Htx; by left].
    intros j Hj. by rewrite set_test_union, Hj by done.
  - intros [Hc|Hc%negb_true_iff%bool_decide_eq_false]%orb_true_iff.
    + apply Hgx in Hc as [->|Hc]; [by left|right]. eapply grew_update; eauto.
    + right. eapply grew_update; [done..|]. left. by eapply union_changed.
  - intros [Hc1 Hc2%negb_false_iff%bool_decide_eq_true]%orb_false_iff.
    apply Hfx in Hc1 as [-> ->].
    split; [done|]. split.
    + unfold update. rewrite Hc2, !list_insert_id by done. by destruct lv.
    + intros block' ex' en' ? ? ?. simplify_eq. split.
      * intros s row j Hs Hrow Ht. apply Htx. right. eauto.
      * intros j Ht. rewrite <- Hc2, set_test_union, orb_true_iff by done. by right.
Qed.

Lemma flow_blocks_spec l : forall lv changed,
  rows_wf lv -> Forall (fun i => i < block_count (live_ir lv)) l ->
  let '(changed', lv') := foldl flow_block (changed, lv) l in
  rows_wf lv' /\ extends lv lv' /\
  (changed' = true -> changed = true \/ grew lv lv') /\
  (changed' = false -> changed = false /\ lv' = lv /\ Forall (stable_block lv) l).
Proof.
  induction l as [|i l IH]; intros lv changed Hwf Hl; cbn [foldl].
  { split; [done|]. split; [reflexivity|]. naive_solver. }
  apply Forall_cons in Hl as [Hi Hl].
  pose proof (flow_block_spec lv i changed Hwf Hi) as Hb.
  destruct (flow_block (changed, lv) i) as [c1 lv1]. destruct Hb as (Hwf1 & Hext & Hg & Hs).
  assert (Hir : live_ir lv1 = live_ir lv) by by rewrite (extends_layout _ _ Hext).
  specialize (IH lv1 c1 Hwf1). rewrite Hir in IH. specialize (IH Hl).
  destruct (foldl flow_block (c1, lv1) l) as [c2 lv2]. destruct IH as (Hwf2 & Hext2 & Hg2 & Hs2).
  split; [done|]. split; [by etransitivity|]. split.
  - intros Hc. apply Hg2 in Hc as [Hc|Hc].
    + apply Hg in Hc as [?|Hc]; [by left|right]. by eapply grew_extends.
    + right. by eapply extends_grew.
  - intros Hc. apply Hs2 in Hc as (Hc & -> & Hst). apply Hs in Hc as (-> & -> & Hsi).
    split; [done|]. split; [done|]. by constructor.
Qed.

Lemma flow_pass_spec lv :
  rows_wf lv ->
  rows_wf (flow_pass lv).2 /\ extends lv (flow_pass lv).2 /\
  ((flow_pass lv).1 = true -> grew lv (flow_pass lv).2) /\
  ((flow_pass lv).1 = false -> (flow_pass lv).2 = lv /\
     forall b, b < block_count (live_ir lv) -> stable_block lv b).
Proof.
  intros Hwf. unfold flow_pass.
  pose proof (flow_blocks_spec (reverse (seq 0 (block_count (live_ir lv)))) lv false Hwf) as H.
  destruct (foldl flow_block _ _) as [c lv']. destruct H as (Hwf' & Hext & Hg & Hs).
  { apply Forall_forall. intros i. rewrite elem_of_reverse, elem_of_seq. lia. }
  split; [done|]. split; [done|]. split; [naive_solver|].
  intros Hc. apply Hs in Hc as (_ & -> & Hst). split; [done|]. intros b Hb.
  rewrite Forall_forall in Hst. apply Hst. rewrite elem_of_reverse, elem_of_seq. lia.
Qed.

(** ** The loop ends *)

(** Every cell the rows can hold. *)
Definition all_cells (lv : Liveness) : list (bool * (nat * nat)) :=
  list_prod [false; true]
    (list_prod (seq 0 (block_count (live_ir lv))) (seq 0 (64 * words_per_block lv))).

Definition cell_holds (lv : Liveness) (c : bool * (nat * nat)) : Prop :=
  cell lv c.1 c.2.1 c.2.2 = true.

#[export] Instance cell_holds_dec lv c : Decision (cell_holds lv c).
Proof. unfold cell_holds. apply _. Defined.

Definition live_cells (lv : Liveness) : nat := length (filter (cell_holds lv) (all_cells lv)).

Lemma live_cells_bound lv : live_cells lv <= 2 * (block_count (live_ir lv) * (64 * words_per_block lv)).
Proof.
  unfold live_cells, all_cells. etransitivity; [apply length_filter|].
  rewrite !length_prod, !length_seq. simpl. lia.
Qed.

Lemma cell_in_all_cells lv side b i :
  rows_wf lv -> cell lv side b i = true -> (side, (b, i)) ∈ all_cells lv.
Proof.
  intros Hwf Hc. unfold all_cells. rewrite !elem_of_list_prod, !elem_of_seq.
  unfold cell in Hc. pose proof (rows_length _ Hwf side) as Hl. pose proof (rows_words _ Hwf side) as Hw.
  destruct (rows_of lv side !! b) as [row|] eqn:Hr; [|done].
  pose proof (Forall_lookup_1 _ _ _ _ Hw Hr) as [Hrl _].
  apply lookup_lt_Some in Hr. apply set_test_range in Hc. unfold in_range in Hc. simpl in Hc.
  split; [destruct side; set_solver|]. split; lia.
Qed.

Lemma grew_live_cells lv lv' :
  rows_wf lv -> rows_wf lv' -> extends lv lv' -> grew lv lv' -> live_cells lv < live_cells lv'.
Proof.
  intros Hwf Hwf' [Heq Hext] (side & b & i & Hc & Hn).
  assert (Hall : all_cells lv = all_cells lv') by by rewrite Heq.
  unfold live_cells. rewrite Hall.
  apply filter_length_strict with (x := (side, (b, i))).
  - intros [s [r j]]. apply Hext.
  - by apply cell_in_all_cells.
  - done.
  - unfold cell_holds. simpl. congruence.
Qed.

Section compute.
Context `{TV : TypeView}.

Lemma liveness_init_rows ir : rows_wf (liveness_init ir).
Proof.
  pose proof (liveness_init_wf ir) as Hwf.
  unfold liveness_init in *. destruct (layout_places _ _) as [bases places].
  split; [done|intros []; cbn; apply length_replicate|].
  intros []; cbn; apply Forall_replicate; (split; [apply length_replicate|]);
    apply Forall_replicate; intros k _; apply N.bits_0.
Qed.

(** Every state of the loop extends the initial one. *)
Definition reachable (ir : MIRFunction) (lv : Liveness) : Prop :=
  rows_wf lv /\ extends (liveness_init ir) lv.

Lemma reachable_pass ir lv : reachable ir lv -> reachable ir (flow_pass lv).2.
Proof.
  intros [Hwf Hext]. destruct (flow_pass_spec lv Hwf) as (Hwf' & Hext' & _).
  split; [done|]. by etransitivity.
Qed.

Lemma mir_liveness_compute_total ir : is_Some (mir_liveness_compute ir).
Proof.
  unfold mir_liveness_compute.
  apply while_changed_terminates with (I := reachable ir) (m := live_cells)
    (bound := 2 * (block_count (live_ir (liveness_init ir)) * (64 * words_per_block (liveness_init ir)))).
  - apply reachable_pass.
  - intros lv [_ [Heq _]]. etransitivity; [apply live_cells_bound|]. by rewrite Heq.
  - intros lv [Hwf _] Hc. destruct (flow_pass_spec lv Hwf) as (Hwf' & Hext' & Hg & _).
    apply grew_live_cells; auto.
  - split; [apply liveness_init_rows|reflexivity].
  - unfold liveness_fuel. lia.
Qed.

(** The result satisfies the equations of every block. *)
Lemma mir_liveness_compute_stable ir lv :
  mir_liveness_compute ir = Some lv ->
  reachable ir lv /\ forall b, b < block_count ir -> stable_block lv b.
Proof.
  intros H. apply (while_changed_inv _ (reachable ir)) in H as (x & Hx & Hr).
  - pose proof Hx as [Hwf Hext]. destruct (flow_pass_spec x Hwf) as (_ & _ & _ & Hs).
    rewrite Hr in Hs. cbn in Hs. destruct (Hs eq_refl) as [<- Hst]. split; [done|].
    intros b Hb. apply Hst. rewrite (extends_layout _ _ Hext).
    unfold liveness_init. by destruct (layout_places _ _).
  - apply reachable_pass.
  - split; [apply liveness_init_rows|reflexivity].
Qed.
End compute.

(** ** Paths

    [path_reads ir reads writes p b j]: some path of the control-flow graph
    from just before the [j]-th instruction of block [b] reads the place [p]
    before anything writes it. *)

Inductive path_reads (ir : MIRFunction) (reads writes : MIRInst -> list nat) (p : nat)
  : nat -> nat -> Prop :=
  | path_read b j block inst :
      blocks ir !! b = Some block -> insts block !! j = Some inst ->
      p ∈ reads inst ->
      path_reads ir reads writes p b j
  | path_pass b j block inst :
      blocks ir !! b = Some block -> insts block !! j = Some inst ->
      p ∉ writes inst -> path_reads ir reads writes p b (S j) ->
      path_reads ir reads writes p b j
  | path_jump b block s :
      blocks ir !! b = Some block -> s ∈ mir_block_successors block ->
      path_reads ir reads writes p (N.to_nat s) 0 ->
      path_reads ir reads writes p b (length (insts block)).

(** The paths that read a place of the analysed function. *)
Definition needed (lv : Liveness) : nat -> nat -> nat -> Prop :=
  path_reads (live_ir lv) (inst_reads lv) (inst_writes lv).

(** Terminators only target blocks of the function. *)
Definition targets_wf (ir : MIRFunction) : Prop :=
  forall b block s, blocks ir !! b = Some block -> s ∈ mir_block_successors block ->
    N.to_nat s < block_count ir.

Lemma needed_layout lv lv' : extends lv lv' -> needed lv' = needed lv.
Proof. intros [-> _]. done. Qed.

Lemma walk_backwards_cons lv inst l set :
  walk_backwards lv (inst :: l) set = step_backwards lv inst (walk_backwards lv l set).
Proof. done. Qed.

(** Walking a suffix of a block from a justified set yields a justified set. *)
Lemma walk_needed lv b block ex :
  layout_wf lv -> length ex = words_per_block lv -> blocks (live_ir lv) !! b = Some block ->
  (forall p, set_test ex p = true -> needed lv p b (length (insts block))) ->
  forall j p, j <= length (insts block) ->
    set_test (walk_backwards lv (drop j (insts block)) ex) p = true -> needed lv p b j.
Proof.
  intros Hwf Hl Hb Hex j p Hj. remember (length (insts block) - j) as k eqn:Hk.
  revert j p Hj Hk. induction k as [|k IH]; intros j p Hj Hk.
  - assert (j = length (insts block)) as -> by lia. rewrite drop_all. apply Hex.
  - destruct (lookup_lt_is_Some_2 (insts block) j) as [inst Hinst]; [lia|].
    rewrite (drop_S _ _ _ Hinst). rewrite walk_backwards_cons.
    rewrite set_test_step by (done || by rewrite length_walk_backwards).
    rewrite orb_true_iff, andb_true_iff, negb_true_iff, bool_decide_eq_true, bool_decide_eq_false.
    intros [Hr|[Hw Ht]].
    + by eapply path_read.
    + eapply path_pass; [done..|]. apply IH; [lia|lia|done].
Qed.

(** A state of the loop claims no more than the paths justify. *)
Definition justified (lv : Liveness) : Prop :=
  forall b block p, blocks (live_ir lv) !! b = Some block ->
    (cell lv false b p = true -> needed lv p b 0) /\
    (cell lv true b p = true -> needed lv p b (length (insts block))).

Lemma justified_block lv i changed :
  rows_wf lv -> i < block_count (live_ir lv) -> justified lv ->
  justified (flow_block (changed, lv) i).2.
Proof.
  intros Hwf Hi Hj. unfold flow_block.
  pose proof (rows_length _ Hwf true) as Hlx. pose proof (rows_length _ Hwf false) as Hle.
  pose proof (rows_words _ Hwf true) as Hwx. pose proof (rows_words _ Hwf false) as Hwe.
  cbn in Hlx, Hle, Hwx, Hwe.
  destruct (lookup_lt_is_Some_2 (blocks (live_ir lv)) i Hi) as [block Hblock].
  destruct (lookup_lt_is_Some_2 (live_exit lv) i) as [ex Hex]; [lia|].
  destruct (lookup_lt_is_Some_2 (live_entry lv) i) as [en Hen]; [lia|].
  rewrite Hblock, Hex, Hen.
  pose proof (Forall_lookup_1 _ _ _ _ Hwx Hex) as Hrx.
  pose proof (Forall_lookup_1 _ _ _ _ Hwe Hen) as Hre.
  pose proof (flow_exit_foldl _ _ (mir_block_successors block) changed ex Hwe Hrx) as Hf.
  destruct (foldl _ _ (mir_block_successors block)) as [c1 ex1].
  destruct Hf as (Hrx1 & Htx & _). cbn [snd].
  assert (Hjx : forall p, set_test ex1 p = true -> needed lv p i (length (insts block))).
  { intros p [Ht|(s & row & Hs & Hrow & Ht)]%Htx.
    - destruct (Hj i block p Hblock) as [_ Hjt]. apply Hjt. unfold cell, rows_of. by rewrite Hex.
    - eapply path_jump; [done..|]. pose proof (lookup_lt_Some _ _ _ Hrow).
      destruct (lookup_lt_is_Some_2 (blocks (live_ir lv)) (N.to_nat s)) as [sblock Hsb];
        [unfold block_count in Hle; lia|].
      destruct (Hj _ sblock p Hsb) as [Hjt _]. apply Hjt. unfold cell, rows_of. by rewrite Hrow. }
  pose proof (row_wf_walk _ lv (insts block) _ Hrx1) as Hrw.
  intros r rblock p Hr. change (live_ir _) with (live_ir lv) in Hr.
  fold (update lv i (set_union en (walk_backwards lv (insts block) ex1)) ex1).
  change (needed (update _ _ _ _)) with (needed lv).
  unfold update. rewrite !cell_insert by done.
  destruct (decide (r = i)) as [->|]; [|by apply Hj]. simplify_eq.
  split; [|apply Hjx].
  rewrite set_test_union by (destruct Hre, Hrw; lia). intros [Ht|Ht]%orb_true_iff.
  - destruct (Hj i block p Hblock) as [Hjt _]. apply Hjt. unfold cell, rows_of. by rewrite Hen.
  - apply (walk_needed lv i block ex1) with (j := 0); rewrite ?drop_0; try done; [|by destruct Hrx1|lia].
    apply Hwf.
Qed.

Lemma justified_pass lv : rows_wf lv -> justified lv -> justified (flow_pass lv).2.
Proof.
  intros Hwf Hj. unfold flow_pass.
  assert (Hl : Forall (fun i => i < block_count (live_ir lv)) (reverse (seq 0 (block_count (live_ir lv))))).
  { apply Forall_forall. intros i. rewrite elem_of_reverse, elem_of_seq. lia. }
  revert Hl. generalize (reverse (seq 0 (block_count (live_ir lv)))) as l, false as changed.
  intros l. revert lv Hwf Hj. induction l as [|i l IH]; intros lv Hwf Hj changed Hl; [done|].
  apply Forall_cons in Hl as [Hi Hl]. cbn [foldl].
  pose proof (flow_block_spec lv i changed Hwf Hi) as Hb.
  pose proof (justified_block lv i changed Hwf Hi Hj) as Hj1.
  destruct (flow_block (changed, lv) i) as [c1 lv1]. destruct Hb as (Hwf1 & Hext & _).
  apply IH; [done|done|]. by rewrite (extends_layout _ _ Hext).
Qed.

(** At a stable state a path that reads a place is seen at every position. *)
Lemma needed_walk lv p b j :
  rows_wf lv -> targets_wf (live_ir lv) ->
  (forall b, b < block_count (live_ir lv) -> stable_block lv b) ->
  needed lv p b j ->
  forall block ex, blocks (live_ir lv) !! b = Some block -> live_exit lv !! b = Some ex ->
    set_test (walk_backwards lv (drop j (insts block)) ex) p = true.
Proof.
  intros Hwf Htg Hst Hn. pose proof (rows_words _ Hwf true) as Hwx. cbn in Hwx.
  induction Hn as [b j block inst Hb Hi Hr|b j block inst Hb Hi Hw Hn IH|b block s Hb Hs Hn IH];
    intros block' ex Hb' Hex; simplify_eq.
  1,2: rewrite (drop_S _ _ _ Hi); rewrite walk_backwards_cons;
    rewrite set_test_step by
      (apply Hwf || (rewrite length_walk_backwards; by destruct (Forall_lookup_1 _ _ _ _ Hwx Hex))).
  - by rewrite bool_decide_eq_true_2.
  - rewrite (bool_decide_eq_false_2 (p ∈ inst_writes _ _)) by done.
    apply orb_true_iff. right. cbn [negb andb]. by apply IH.
  - rewrite drop_all. cbn. pose proof (Htg _ _ _ Hb Hs) as Hsr.
    destruct (lookup_lt_is_Some_2 (blocks (live_ir lv)) (N.to_nat s) Hsr) as [sb Hsb].
    pose proof (rows_length _ Hwf true) as Hlx. pose proof (rows_length _ Hwf false) as Hle. cbn in Hlx, Hle.
    destruct (lookup_lt_is_Some_2 (live_exit lv) (N.to_nat s)) as [sx Hsx]; [lia|].
    destruct (lookup_lt_is_Some_2 (live_entry lv) (N.to_nat s)) as [se Hse]; [lia|].
    destruct (lookup_lt_is_Some_2 (live_entry lv) b) as [en Hen].
    { apply lookup_lt_Some in Hex. lia. }
    assert (Hbr : b < block_count (live_ir lv)) by (apply lookup_lt_Some in Hex; lia).
    destruct (Hst b Hbr _ _ _ Hb Hex Hen) as [Hsucc _].
    destruct (Hst _ Hsr _ _ _ Hsb Hsx Hse) as [_ Hin].
    eapply Hsucc; [done..|]. apply Hin. specialize (IH _ _ Hsb Hsx). by rewrite drop_0 in IH.
Qed.

(** ** The analysis is exact *)

Lemma any_field_live_spec lv set v f :
  value_out_of_range lv v = false ->
  (if mir_field_is_whole f then any_field_live lv set v else set_test set (place_index lv v f)) = true <->
  exists p, p ∈ covered lv v f /\ set_test set p = true.
Proof.
  intros Hr. unfold covered, any_field_live. rewrite Hr.
  destruct (mir_field_is_whole f) eqn:Hf.
  - apply N.eqb_eq in Hf as ->. rewrite orb_true_iff, existsb_exists. setoid_rewrite elem_of_cons.
    setoid_rewrite <- list_elem_of_In. split.
    + intros [H|(p & Hp & H)]; eauto.
    + intros (p & [->|Hp] & H); eauto.
  - setoid_rewrite elem_of_cons. split; [intros H; exists (place_index lv v f); eauto|].
    intros (p & [->|H%elem_of_nil] & Hp); done.
Qed.

Lemma any_field_live_whole lv set v :
  value_out_of_range lv v = false ->
  any_field_live lv set v = true <->
  exists p, p ∈ covered lv v MIR_WHOLE_VALUE /\ set_test set p = true.
Proof. apply (any_field_live_spec lv set v MIR_WHOLE_VALUE). Qed.

Lemma covered_out_of_range lv v f : value_out_of_range lv v = true -> covered lv v f = [].
Proof. unfold covered. by intros ->. Qed.

Lemma mir_block_at_Some ir b block :
  mir_block_at ir b = Some block -> mir_block_is_none b = false /\ blocks ir !! N.to_nat b = Some block.
Proof. unfold mir_block_at. by destruct (mir_block_is_none b), (_ <=? _)%N. Qed.

Section exact.
Context `{TV : TypeView}.
Context (ir : MIRFunction) (lv : Liveness).
Hypothesis Htargets : targets_wf ir.
Hypothesis Hcompute : mir_liveness_compute ir = Some lv.

Lemma computed_ir : live_ir lv = ir.
Proof.
  apply mir_liveness_compute_stable in Hcompute as [[_ Hext] _].
  rewrite (extends_layout _ _ Hext). unfold liveness_init. by destruct (layout_places _ _).
Qed.

Lemma computed_justified : justified lv.
Proof.
  pose proof Hcompute as H.
  apply (while_changed_inv _ (fun x => reachable ir x /\ justified x)) in H as (x & [Hx Hj] & Hr).
  - destruct Hx as [Hwf _]. pose proof (justified_pass x Hwf Hj) as H. by rewrite Hr in H.
  - intros x [Hx Hj]. split; [by apply reachable_pass|]. apply justified_pass; [apply Hx|done].
  - split; [split; [apply liveness_init_rows|reflexivity]|].
    intros b block p _. unfold cell, rows_of, liveness_init.
    destruct (layout_places _ _) as [bases places]. cbn.
    assert (Hz : forall n w, set_test (default [] (replicate n (replicate w 0%N) !! b)) p = false).
    { intros n w. unfold set_test. destruct (replicate n _ !! b) as [row|] eqn:Hrow; [|done].
      apply lookup_replicate in Hrow as [-> _]. cbn.
      destruct (replicate w 0%N !! word_of p) as [k|] eqn:Hk; [|done].
      apply lookup_replicate in Hk as [-> _]. done. }
    by split; rewrite Hz.
Qed.

(** What the exit row walked back to [j] holds. *)
Lemma computed_at b block j p :
  mir_block_at ir b = Some block -> j <= length (insts block) ->
  set_test (walk_backwards lv (drop j (insts block)) (row_of (live_exit lv) b)) p = true <->
  needed lv p (N.to_nat b) j.
Proof.
  intros [_ Hb]%mir_block_at_Some Hj.
  pose proof (mir_liveness_compute_stable _ _ Hcompute) as [[Hwf _] Hst].
  rewrite <- computed_ir in Hb, Hst.
  pose proof (rows_length _ Hwf true) as Hlx. pose proof (rows_words _ Hwf true) as Hwx. cbn in Hlx, Hwx.
  destruct (lookup_lt_is_Some_2 (live_exit lv) (N.to_nat b)) as [ex Hex].
  { apply lookup_lt_Some in Hb. unfold block_count in Hlx. lia. }
  unfold row_of. rewrite Hex. cbn [default]. split.
  - apply walk_needed; [apply Hwf|by destruct (Forall_lookup_1 _ _ _ _ Hwx Hex)|done| |done].
    intros q Hq. apply (computed_justified _ _ q Hb). unfold cell, rows_of. by rewrite Hex.
  - intros Hn. eapply needed_walk; [done| |done|done|done|done]. by rewrite computed_ir.
Qed.

Lemma computed_entry b block p :
  mir_block_at ir b = Some block ->
  set_test (row_of (live_entry lv) b) p = true <-> needed lv p (N.to_nat b) 0.
Proof.
  intros Hb. split.
  - intros Ht. apply mir_block_at_Some in Hb as [_ Hb]. rewrite <- computed_ir in Hb.
    by apply (computed_justified _ _ p Hb).
  - intros Hn. pose proof Hb as [_ Hb']%mir_block_at_Some.
    rewrite <- (computed_at b block 0 p Hb), drop_0 in Hn by lia.
    pose proof (mir_liveness_compute_stable _ _ Hcompute) as [[Hwf _] Hst].
    pose proof (lookup_lt_Some _ _ _ Hb') as Hlt.
    pose proof (rows_length _ Hwf true) as Hlx. pose proof (rows_length _ Hwf false) as Hle. cbn in Hlx, Hle.
    rewrite computed_ir in Hlx, Hle. unfold block_count in Hlx, Hle.
    destruct (lookup_lt_is_Some_2 (live_exit lv) (N.to_nat b)) as [ex Hex]; [lia|].
    destruct (lookup_lt_is_Some_2 (live_entry lv) (N.to_nat b)) as [en Hen]; [lia|].
    rewrite <- computed_ir in Hb'. destruct (Hst _ Hlt _ _ _ Hb' Hex Hen) as [_ Hin].
    unfold row_of in *. rewrite Hen. rewrite Hex in Hn. by apply Hin.
Qed.
End exact.

(** The analysis loop of [mir_liveness_compute] ends on every function:
    with fuel for one turn more than the rows have bits, it returns. *)
Theorem mir_liveness_terminates `{TV : TypeView} (ir : MIRFunction) :
  exists lv, mir_liveness_compute ir = Some lv.
Proof. apply mir_liveness_compute_total. Qed.

(** C24: [mir_live_after] is exact: a value (or one field of it) is reported live
    after the [j]-th instruction of a block exactly when some path of the
    control-flow graph from there reads one of the places it covers before
    anything writes that place. *)
Theorem mir_live_after_exact `{TV : TypeView} (ir : MIRFunction) (lv : Liveness) b block j v f :
  targets_wf ir ->
  mir_liveness_compute ir = Some lv ->
  mir_block_at ir b = Some block -> j < length (insts block) ->
  mir_live_after lv b j v f = true <->
  exists p, p ∈ covered lv v f /\ needed lv p (N.to_nat b) (S j).
Proof.
  intros Htg Hc Hb Hj. unfold mir_live_after. rewrite (computed_ir _ _ Hc), Hb.
  destruct (mir_block_at_Some _ _ _ Hb) as [-> _]. cbn [orb].
  destruct (value_out_of_range lv v) eqn:Hr.
  - rewrite covered_out_of_range by done. split; [done|]. by intros (p & H0%elem_of_nil & _).
  - rewrite any_field_live_spec by done. rewrite Nat.add_1_r.
    by setoid_rewrite (computed_at ir lv Htg Hc b block (S j) _ Hb Hj).
Qed.

(** The rows kept for the block boundaries are exact: a value is live on
    entry (on exit) of a block exactly when some path from the block's first
    instruction (from its end) reads one of its places before writing it. *)
Theorem mir_live_boundary_exact `{TV : TypeView} (ir : MIRFunction) (lv : Liveness) b block v :
  targets_wf ir ->
  mir_liveness_compute ir = Some lv ->
  mir_block_at ir b = Some block ->
  (mir_live_on_entry lv b v = true <->
   exists p, p ∈ covered lv v MIR_WHOLE_VALUE /\ needed lv p (N.to_nat b) 0) /\
  (mir_live_on_exit lv b v = true <->
   exists p, p ∈ covered lv v MIR_WHOLE_VALUE /\ needed lv p (N.to_nat b) (length (insts block))).
Proof.
  intros Htg Hc Hb. unfold mir_live_on_entry, mir_live_on_exit.
  destruct (mir_block_at_Some _ _ _ Hb) as [-> _]. cbn [orb].
  destruct (value_out_of_range lv v) eqn:Hr.
  - rewrite covered_out_of_range by done. split; (split; [done|]); by intros (p & H0%elem_of_nil & _).
  - rewrite !any_field_live_whole by done.
    setoid_rewrite (computed_entry ir lv Htg Hc b block _ Hb). split; [done|].
    setoid_rewrite <- (computed_at ir lv Htg Hc b block (length (insts block)) _ Hb ltac:(lia)).
    by rewrite drop_all.
Qed.

(** ** Witnesses *)

Definition targets_check (ir : MIRFunction) : bool :=
  forallb (fun block =>
    forallb (fun s => bool_decide (N.to_nat s < block_count ir)) (mir_block_successors block)) (blocks ir).

Lemma targets_check_wf ir : targets_check ir = true -> targets_wf ir.
Proof.
  unfold targets_check. rewrite forallb_forall. intros H b block s Hb Hs.
  specialize (H block). rewrite <- list_elem_of_In in H.
  specialize (H (list_elem_of_lookup_2 _ _ _ Hb)). rewrite forallb_forall in H.
  specialize (H s). rewrite <- list_elem_of_In in H. specialize (H Hs).
  by apply bool_decide_eq_true in H.
Defined.

Definition sample_liveness : Liveness :=
  default (liveness_init (TV := sample_view) sample_loop)
    (mir_liveness_compute (TV := sample_view) sample_loop).

(** The counter of the loop is live after the store of the latch. *)
Lemma mir_live_after_exact_witness :
  exists p, p ∈ covered sample_liveness 1 MIR_WHOLE_VALUE /\ needed sample_liveness p 2 3.
Proof.
  refine (proj1 (@mir_live_after_exact sample_view sample_loop sample_liveness 2
    (MkBlock 2 _) 2 1 MIR_WHOLE_VALUE _ _ _ _) _).
  - apply targets_check_wf. vm_compute. reflexivity.
  - vm_compute. reflexivity.
  - vm_compute. reflexivity.
  - simpl. lia.
  - vm_compute. reflexivity.
Defined.

(** The parameter is live on entry, and nothing is live leaving the last block. *)
Lemma mir_live_boundary_exact_witness :
  (exists p, p ∈ covered sample_liveness 0 MIR_WHOLE_VALUE /\ needed sample_liveness p 0 0) /\
  ~ (exists p, p ∈ covered sample_liveness 0 MIR_WHOLE_VALUE /\ needed sample_liveness p 3 2).
Proof.
  assert (Htg : targets_wf sample_loop) by (apply targets_check_wf; vm_compute; reflexivity).
  assert (Hc : mir_liveness_compute (TV := sample_view) sample_loop = Some sample_liveness)
    by (vm_compute; reflexivity).
  split.
  - refine (proj1 (proj1 (@mir_live_boundary_exact sample_view sample_loop sample_liveness 0
      (MkBlock 0 _) 0 Htg Hc _)) _); vm_compute; reflexivity.
  - intros H.
    refine ((fun H' => _) (proj2 (proj2 (@mir_live_boundary_exact sample_view sample_loop sample_liveness 3
      (MkBlock 3 [_; _]) 0 Htg Hc _)) H)); vm_compute in *; [discriminate|reflexivity].
Defined.
