(* ===== verification/SlotState.v ===== *)
(** * SlotState: what the borrow checker knows of every slot

    The abstract states of [src/src/mir/mir_state.c]: for every value whether
    its slot is initialised, moved from or dangling, which values it may
    borrow from, and the same for its fields; with the join of two states, the
    comparison the fixed point stops at, and the invalidation of borrows.

    A [MIRSlot] owns its arrays: every operation of the code that stores a slot
    in a state either builds it afresh or stores the modified copy back over
    the slot it was read from, so a slot is a tree and a state a finite map. *)

From S2P Require Import Prelude Types Mir.

(** ** Slots *)

Inductive MIRSlotInit :=
  | MIR_SLOT_UNREACHED
  | MIR_SLOT_UNINIT
  | MIR_SLOT_MOVED
  | MIR_SLOT_DANGLING
  | MIR_SLOT_INIT.

#[export] Instance MIRSlotInit_eq_dec : EqDecision MIRSlotInit.
Proof. solve_decision. Defined.

(** The enumerator's value; the code compares states with [<]. *)
Definition init_index (i : MIRSlotInit) : nat :=
  match i with
  | MIR_SLOT_UNREACHED => 0
  | MIR_SLOT_UNINIT => 1
  | MIR_SLOT_MOVED => 2
  | MIR_SLOT_DANGLING => 3
  | MIR_SLOT_INIT => 4
  end.

#[warnings="-register-all"]
Inductive MIRSlot :=
  MkSlot (slot_init : MIRSlotInit) (slot_borrows : list MIRValueId) (slot_fields : list MIRSlot).

Definition slot_init (s : MIRSlot) : MIRSlotInit := let '(MkSlot i _ _) := s in i.
Definition slot_borrows (s : MIRSlot) : list MIRValueId := let '(MkSlot _ b _) := s in b.
Definition slot_fields (s : MIRSlot) : list MIRSlot := let '(MkSlot _ _ f) := s in f.
Definition field_count (s : MIRSlot) : nat := length (slot_fields s).

(** [(MIRSlot){.init = i}] *)
Definition slot_leaf (i : MIRSlotInit) : MIRSlot := MkSlot i [] [].

Definition set_init (s : MIRSlot) (i : MIRSlotInit) : MIRSlot := MkSlot i (slot_borrows s) (slot_fields s).
Definition set_borrows (s : MIRSlot) (b : list MIRValueId) : MIRSlot := MkSlot (slot_init s) b (slot_fields s).
Definition set_fields (s : MIRSlot) (f : list MIRSlot) : MIRSlot := MkSlot (slot_init s) (slot_borrows s) f.

(** Induction over a slot with the hypothesis at every field. *)
Lemma slot_ind' (P : MIRSlot -> Prop) :
  (forall i b f, Forall P f -> P (MkSlot i b f)) -> forall s, P s.
Proof.
  intros H. fix IH 1. intros [i b f]. apply H.
  induction f as [|s f IHf]; constructor; [apply IH|exact IHf].
Qed.

Definition mir_slot_borrows_from (s : MIRSlot) (from : MIRValueId) : bool :=
  existsb (N.eqb from) (slot_borrows s).

Definition mir_slot_add_borrow (s : MIRSlot) (from : MIRValueId) : MIRSlot :=
  if mir_value_is_none from || mir_slot_borrows_from s from then s
  else set_borrows s (slot_borrows s ++ [from]).

(** The loops that add every borrow of an array. *)
Definition add_borrows (s : MIRSlot) (l : list MIRValueId) : MIRSlot := foldl mir_slot_add_borrow s l.

Definition mir_slot_open_fields (s : MIRSlot) (count : nat) : MIRSlot :=
  if bool_decide (count = 0) || bool_decide (count <= field_count s) then s
  else set_fields s (slot_fields s ++ replicate (count - field_count s) (slot_leaf (slot_init s))).

Fixpoint mir_slot_set_all (s : MIRSlot) (i : MIRSlotInit) : MIRSlot :=
  match s with MkSlot _ b f => MkSlot i b ((fun field => mir_slot_set_all field i) <$> f) end.

(** One turn of the loop over the fields. *)
Definition flatten_field (flat field : MIRSlot) : MIRSlot :=
  let flat :=
    if bool_decide (slot_init flat = MIR_SLOT_INIT) && bool_decide (slot_init field = MIR_SLOT_DANGLING)
    then set_init flat MIR_SLOT_DANGLING else flat in
  add_borrows flat (slot_borrows field).

Fixpoint mir_slot_flattened (s : MIRSlot) : MIRSlot :=
  match s with
  | MkSlot i b f =>
      foldl (fun flat field => flatten_field flat (mir_slot_flattened field))
        (add_borrows (slot_leaf i) b) f
  end.

Fixpoint slot_copy (s : MIRSlot) : MIRSlot :=
  match s with MkSlot i b f => MkSlot i b (slot_copy <$> f) end.

Fixpoint slot_depth (s : MIRSlot) : nat :=
  match s with
  | MkSlot _ _ [] => 0
  | MkSlot _ _ f => S (max_list (slot_depth <$> f))
  end.

(** [i < s.field_count ? s.fields[i] : (MIRSlot){.init = s.init}] *)
Definition field_or_leaf (s : MIRSlot) (i : nat) : MIRSlot :=
  default (slot_leaf (slot_init s)) (slot_fields s !! i).

(** The recursion of [slot_merge] goes down both trees at once, as deep as the
    deeper of the two; [fuel] is a bound on that depth. *)
Fixpoint slot_merge_at (fuel : nat) (a b : MIRSlot) : MIRSlot :=
  if bool_decide (slot_init a = MIR_SLOT_UNREACHED) then slot_copy b
  else if bool_decide (slot_init b = MIR_SLOT_UNREACHED) then slot_copy a
  else
    let merged := slot_copy a in
    let merged :=
      if bool_decide (init_index (slot_init b) < init_index (slot_init merged))
      then set_init merged (slot_init b) else merged in
    let merged := add_borrows merged (slot_borrows b) in
    let fields := Nat.max (field_count a) (field_count b) in
    match fuel with
    | O => merged
    | S fuel' =>
        if bool_decide (0 < fields) then
          set_fields merged
            ((fun i => slot_merge_at fuel' (field_or_leaf a i) (field_or_leaf b i)) <$> seq 0 fields)
        else merged
    end.

Definition slot_merge (a b : MIRSlot) : MIRSlot :=
  slot_merge_at (Nat.max (slot_depth a) (slot_depth b)) a b.

Fixpoint slot_invalidate_borrows_of (s : MIRSlot) (dropped : MIRValueId) : MIRSlot :=
  match s with
  | MkSlot i b f =>
      let s := MkSlot i b ((fun field => slot_invalidate_borrows_of field dropped) <$> f) in
      if bool_decide (i = MIR_SLOT_INIT) && mir_slot_borrows_from s dropped
      then set_init s MIR_SLOT_DANGLING else s
  end.

(** The first test, with the borrows of the first slot looked up in the second. *)
Definition slot_head_equals (a b : MIRSlot) : bool :=
  bool_decide (slot_init a = slot_init b) &&
  bool_decide (length (slot_borrows a) = length (slot_borrows b)) &&
  bool_decide (field_count a = field_count b) &&
  forallb (mir_slot_borrows_from b) (slot_borrows a).

Fixpoint slot_equals (a b : MIRSlot) : bool :=
  match a with
  | MkSlot _ _ f =>
      slot_head_equals a b &&
      (fix fields_equal (l l' : list MIRSlot) : bool :=
         match l, l' with
         | s :: l, s' :: l' => slot_equals s s' && fields_equal l l'
         | _, _ => true
         end) f (slot_fields b)
  end.

(** ** States *)

Record MIRState := MkState {
  slots : gmap N MIRSlot;
  unreachable : bool;
}.

Definition mir_state_init : MIRState := MkState ∅ false.

Definition mir_state_get (state : MIRState) (value : MIRValueId) : MIRSlot :=
  default (slot_leaf MIR_SLOT_UNREACHED) (slots state !! value).

Definition mir_state_set (state : MIRState) (value : MIRValueId) (slot : MIRSlot) : MIRState :=
  MkState (<[value := slot]> (slots state)) (unreachable state).

Definition mir_state_copy (from : MIRState) : MIRState :=
  MkState (slot_copy <$> slots from) (unreachable from).

(** The loop visits every key of [other] once. *)
Definition merge_entry (mine theirs : option MIRSlot) : option MIRSlot :=
  match theirs with
  | None => mine
  | Some slot => Some (slot_merge (default (slot_leaf MIR_SLOT_UNREACHED) mine) slot)
  end.

Definition mir_state_merge (state other : MIRState) : MIRState :=
  if unreachable other then state
  else if unreachable state then mir_state_copy other
  else MkState (merge merge_entry (slots state) (slots other)) (unreachable state).

Definition mir_state_invalidate_borrows_of (state : MIRState) (dropped : MIRValueId) : MIRState :=
  MkState ((fun slot => slot_invalidate_borrows_of slot dropped) <$> slots state) (unreachable state).

Definition state_contained_by (a b : MIRState) : bool :=
  forallb (fun '(key, slot) => slot_equals slot (mir_state_get b key)) (map_to_list (slots a)).

Definition mir_state_equals (a b : MIRState) : bool :=
  if negb (bool_decide (unreachable a = unreachable b)) then false
  else state_contained_by a b && state_contained_by b a.

(** ** Adding borrows *)

Definition add_borrow (l : list MIRValueId) (v : MIRValueId) : list MIRValueId :=
  if mir_value_is_none v || existsb (N.eqb v) l then l else l ++ [v].
Definition borrow_union (l l' : list MIRValueId) : list MIRValueId := foldl add_borrow l l'.

Lemma existsb_eqb v l : existsb (N.eqb v) l = bool_decide (v ∈ l).
Proof.
  apply Bool.eq_iff_eq_true. rewrite existsb_exists, bool_decide_eq_true, list_elem_of_In. split.
  - intros (x & Hx & ->%N.eqb_eq). done.
  - intros H. exists v. by rewrite N.eqb_refl.
Qed.

Lemma add_borrows_eq s l : add_borrows s l = set_borrows s (borrow_union (slot_borrows s) l).
Proof.
  revert s. induction l as [|v l IH]; intros [i b f]; [done|].
  cbn [add_borrows borrow_union foldl]. fold (add_borrows (mir_slot_add_borrow (MkSlot i b f) v) l).
  rewrite IH. unfold mir_slot_add_borrow, mir_slot_borrows_from, add_borrow. cbn [slot_borrows].
  by destruct (mir_value_is_none v || existsb (N.eqb v) b).
Qed.

Lemma elem_of_add_borrow l v x : x ∈ add_borrow l v <-> x ∈ l \/ (x = v /\ v <> MIR_NO_VALUE).
Proof.
  unfold add_borrow, mir_value_is_none. rewrite existsb_eqb.
  destruct (N.eqb_spec v UINT32_MAX) as [->|Hne]; cbn [orb]; [naive_solver|].
  case_bool_decide; [naive_solver|]. rewrite elem_of_app, list_elem_of_singleton. naive_solver.
Qed.

Lemma elem_of_borrow_union l l' x :
  x ∈ borrow_union l l' <-> x ∈ l \/ (x ∈ l' /\ x <> MIR_NO_VALUE).
Proof.
  revert l. induction l' as [|v l' IH]; intros l; cbn [borrow_union foldl].
  - rewrite elem_of_nil. naive_solver.
  - fold (borrow_union (add_borrow l v) l'). rewrite IH, elem_of_add_borrow, elem_of_cons. naive_solver.
Qed.

Lemma NoDup_borrow_union l l' : NoDup l -> NoDup (borrow_union l l').
Proof.
  revert l. induction l' as [|v l' IH]; intros l Hl; cbn [borrow_union foldl]; [done|].
  apply IH. unfold add_borrow. rewrite existsb_eqb.
  destruct (mir_value_is_none v); cbn [orb]; [done|]. case_bool_decide; [done|].
  apply NoDup_app. split; [done|]. split; [|apply NoDup_singleton].
  intros x Hx ->%list_elem_of_singleton. done.
Qed.

(** ** Well-formed slots: every list of borrows is a set of values *)

#[warnings="-register-all"]
Inductive slot_wf : MIRSlot -> Prop :=
  slot_wf_intro i b f :
    NoDup b -> MIR_NO_VALUE ∉ b -> Forall slot_wf f -> slot_wf (MkSlot i b f).

Lemma slot_wf_inv i b f :
  slot_wf (MkSlot i b f) -> NoDup b /\ (MIR_NO_VALUE ∉ b) /\ Forall slot_wf f.
Proof. by inversion 1. Qed.

Lemma slot_leaf_wf i : slot_wf (slot_leaf i).
Proof. constructor; [constructor|apply not_elem_of_nil|constructor]. Qed.

Lemma set_init_wf s i : slot_wf s -> slot_wf (set_init s i).
Proof. destruct s. intros (?&?&?)%slot_wf_inv. by constructor. Qed.

Lemma add_borrows_wf s l : slot_wf s -> slot_wf (add_borrows s l).
Proof.
  rewrite add_borrows_eq. destruct s as [i b f]. intros (?&?&?)%slot_wf_inv. constructor; cbn; [|..|done].
  - by apply NoDup_borrow_union.
  - rewrite elem_of_borrow_union. naive_solver.
Qed.

Lemma field_or_leaf_wf s i : slot_wf s -> slot_wf (field_or_leaf s i).
Proof.
  destruct s as [k b f]. intros (_ & _ & Hf)%slot_wf_inv. unfold field_or_leaf. cbn.
  destruct (f !! i) eqn:Hi; [by eapply Forall_lookup_1|apply slot_leaf_wf].
Qed.

Lemma set_all_wf s i : slot_wf s -> slot_wf (mir_slot_set_all s i).
Proof.
  induction s as [k b f IH] using slot_ind'. intros (? & ? & Hf)%slot_wf_inv. cbn. constructor; [done..|].
  apply Forall_fmap. rewrite Forall_forall in *. intros x Hx. cbn. auto.
Qed.

Lemma open_fields_wf s n : slot_wf s -> slot_wf (mir_slot_open_fields s n).
Proof.
  intros Hs. unfold mir_slot_open_fields. destruct (_ || _); [done|].
  destruct s as [i b f]. apply slot_wf_inv in Hs as (?&?&?). constructor; [done..|]. cbn.
  apply Forall_app. split; [done|]. apply Forall_replicate, slot_leaf_wf.
Qed.

Lemma flattened_wf s : slot_wf s -> slot_wf (mir_slot_flattened s).
Proof.
  induction s as [i b f IH] using slot_ind'. intros (? & ? & Hf)%slot_wf_inv. cbn.
  assert (Hinit : slot_wf (add_borrows (slot_leaf i) b)) by (apply add_borrows_wf, slot_leaf_wf).
  revert Hinit. generalize (add_borrows (slot_leaf i) b) as flat. clear i b H H0.
  induction f as [|s f IHf]; intros flat Hflat; cbn; [done|].
  apply Forall_cons in Hf as [Hs Hf]. apply Forall_cons in IH as [IHs IHfs].
  apply IHf; [done..|]. unfold flatten_field. apply add_borrows_wf.
  destruct (_ && _); [by apply set_init_wf|done].
Qed.

(** ** Equivalence: the same tree, borrows compared as sets *)

#[warnings="-register-all"]
Inductive slot_equiv : Equiv MIRSlot :=
  slot_equiv_intro i b b' f f' :
    (forall v, v ∈ b <-> v ∈ b') -> Forall2 slot_equiv f f' ->
    slot_equiv (MkSlot i b f) (MkSlot i b' f').
#[export] Existing Instance slot_equiv.

Lemma slot_equiv_inv i b f i' b' f' :
  MkSlot i b f ≡ MkSlot i' b' f' -> i = i' /\ (forall v, v ∈ b <-> v ∈ b') /\ Forall2 (≡) f f'.
Proof. by inversion 1. Qed.

#[export] Instance slot_equiv_equivalence : Equivalence (≡@{MIRSlot}).
Proof.
  split.
  - intros s. induction s as [i b f IH] using slot_ind'. constructor; [done|]. by apply Forall_Forall2_diag.
  - intros s. induction s as [i b f IH] using slot_ind'. intros [i' b' f'] (-> & Hb & Hf)%slot_equiv_inv.
    constructor; [by setoid_rewrite Hb|]. clear Hb. revert f' Hf.
    induction IH as [|s f IHs _ IHf]; intros f' Hf; inversion Hf; subst;
      constructor; [by apply IHs|by apply IHf].
  - intros s. induction s as [i b f IH] using slot_ind'.
    intros [i' b' f'] [i'' b'' f''] (-> & Hb & Hf)%slot_equiv_inv (-> & Hb' & Hf')%slot_equiv_inv.
    constructor; [by setoid_rewrite Hb|]. clear Hb Hb'. revert f' f'' Hf Hf'.
    induction IH as [|s f IHs _ IHf]; intros f' f'' Hf Hf'; inversion Hf; subst;
      inversion Hf'; subst; constructor; [by eapply IHs|by eapply IHf].
Qed.

Lemma slot_equiv_init a b : a ≡ b -> slot_init a = slot_init b.
Proof. by destruct 1. Qed.

Lemma slot_equiv_count a b : a ≡ b -> field_count a = field_count b.
Proof. destruct 1 as [i b b' f f' _ Hf]. by apply Forall2_length in Hf. Qed.

Lemma slot_equiv_field a b i : a ≡ b -> field_or_leaf a i ≡ field_or_leaf b i.
Proof.
  destruct 1 as [k b b' f f' _ Hf]. unfold field_or_leaf. cbn.
  destruct (f !! i) as [s|] eqn:Hi.
  - destruct (Forall2_lookup_l _ _ _ _ _ Hf Hi) as (s' & -> & Hs). done.
  - apply lookup_ge_None in Hi. rewrite (Forall2_length _ _ _ Hf) in Hi.
    by rewrite (proj2 (lookup_ge_None f' i) Hi).
Qed.

(** Two duplicate-free lists with the same members have the same length. *)
Lemma NoDup_subset_length (l l' : list N) :
  NoDup l -> NoDup l' -> length l = length l' -> (forall v, v ∈ l -> v ∈ l') -> forall v, v ∈ l' -> v ∈ l.
Proof.
  intros Hl Hl' Hlen Hs v Hv.
  assert (Hp : l ≡ₚ l').
  { apply submseteq_length_Permutation; [|lia]. by apply NoDup_submseteq. }
  by rewrite Hp.
Qed.

Lemma slot_head_equals_spec a b :
  slot_wf a -> slot_wf b ->
  slot_head_equals a b = true <->
  slot_init a = slot_init b /\ (forall v, v ∈ slot_borrows a <-> v ∈ slot_borrows b) /\ field_count a = field_count b.
Proof.
  intros Ha Hb. destruct a as [i l f], b as [i' l' f'].
  apply slot_wf_inv in Ha as (Hn & _ & _). apply slot_wf_inv in Hb as (Hn' & _ & _).
  unfold slot_head_equals, mir_slot_borrows_from. cbn.
  rewrite !andb_true_iff, !bool_decide_eq_true, forallb_forall.
  setoid_rewrite existsb_eqb. setoid_rewrite bool_decide_eq_true. setoid_rewrite <- list_elem_of_In.
  split.
  - intros [[[? Hlen] ?] Hs]. split; [done|]. split; [|done].
    intros v. split; [apply Hs|]. by apply NoDup_subset_length.
  - intros (? & Hs & ?). split; [|apply Hs]. split; [|done]. split; [done|].
    apply Permutation_length, NoDup_Permutation; done.
Qed.

(** The comparison of the code decides equivalence. *)
Lemma slot_equals_equiv a b : slot_wf a -> slot_wf b -> slot_equals a b = true <-> a ≡ b.
Proof.
  revert b. induction a as [i l f IH] using slot_ind'. intros b Ha Hb.
  pose proof (slot_head_equals_spec _ _ Ha Hb) as Hh.
  cbn [slot_equals]. rewrite andb_true_iff, Hh. destruct b as [i' l' f']. cbn [slot_init slot_borrows].
  unfold field_count. cbn [slot_fields].
  apply slot_wf_inv in Ha as (_ & _ & Haf). apply slot_wf_inv in Hb as (_ & _ & Hbf).
  clear Hh. assert (Hf : length f = length f' ->
    (fix fields_equal l l' := match l, l' with
       | s :: l, s' :: l' => slot_equals s s' && fields_equal l l' | _, _ => true end) f f' = true <->
    Forall2 (≡) f f').
  { revert f' Hbf. induction IH as [|s f IHs _ IHf]; intros [|s' f'] Hbf Hlen; try done.
    apply Forall_cons in Haf as [Hs Haf]. apply Forall_cons in Hbf as [Hs' Hbf].
    rewrite andb_true_iff, IHs, IHf, Forall2_cons by (done || (simpl in Hlen; lia)). done. }
  split.
  - intros ((-> & Hl & Hlen) & H). constructor; [done|]. by apply Hf.
  - intros (-> & Hl & H)%slot_equiv_inv. pose proof (Forall2_length _ _ _ H) as Hlen.
    split; [done|]. by apply Hf.
Qed.

(** ** The equations of the join *)

Lemma slot_copy_id s : slot_copy s = s.
Proof.
  induction s as [i b f IH] using slot_ind'. cbn. f_equal.
  induction IH as [|s f Hs _ IHf]; [done|]. cbn. by rewrite Hs, IHf.
Qed.

Definition init_join (i j : MIRSlotInit) : MIRSlotInit :=
  if bool_decide (init_index j < init_index i) then j else i.

Lemma slot_depth_eq k b f : f <> [] -> slot_depth (MkSlot k b f) = S (max_list (slot_depth <$> f)).
Proof. by destruct f. Qed.

Lemma slot_depth_field s i :
  slot_depth (field_or_leaf s i) <= slot_depth s /\
  (slot_fields s <> [] -> slot_depth (field_or_leaf s i) < slot_depth s).
Proof.
  destruct s as [k b f]. unfold field_or_leaf. cbn [slot_fields slot_init].
  destruct (decide (f = [])) as [->|Hf]; [by split|].
  rewrite slot_depth_eq by done.
  destruct (f !! i) as [s|] eqn:Hi; cbn [default from_option].
  - assert (Hm : slot_depth s <= max_list (slot_depth <$> f)).
    { apply max_list_elem_of_le, list_elem_of_fmap. exists s. split; [done|]. by eapply list_elem_of_lookup_2. }
    unfold id in *. split; intros; lia.
  - change (slot_depth (slot_leaf k)) with 0. split; intros; lia.
Qed.

Lemma slot_merge_at_fuel n m a b :
  Nat.max (slot_depth a) (slot_depth b) <= n -> Nat.max (slot_depth a) (slot_depth b) <= m ->
  slot_merge_at n a b = slot_merge_at m a b.
Proof.
  revert m a b. induction n as [|n IH]; intros m a b Hn Hm.
  - assert (Hz : Nat.max (field_count a) (field_count b) = 0).
    { destruct a as [? ? [|]], b as [? ? [|]]; cbn in *; lia. }
    destruct m; cbn [slot_merge_at]; by rewrite ?Hz.
  - destruct m as [|m].
    { assert (Hz : Nat.max (field_count a) (field_count b) = 0).
      { destruct a as [? ? [|]], b as [? ? [|]]; cbn in *; lia. }
      cbn [slot_merge_at]. by rewrite ?Hz. }
    cbn [slot_merge_at]. do 2 (case_bool_decide; [done|]).
    case_bool_decide as Hpos; [|done]. f_equal. apply list_fmap_ext. intros k i _.
    destruct (slot_depth_field a i) as [Ha Ha'], (slot_depth_field b i) as [Hb Hb'].
    assert (Hd : Nat.max (slot_depth (field_or_leaf a i)) (slot_depth (field_or_leaf b i)) <=
                 pred (Nat.max (slot_depth a) (slot_depth b))).
    { unfold field_count in Hpos.
      destruct a as [ia ba [|sa fa]], b as [ib bb [|sb fb]]; cbn [slot_fields length] in *; try lia;
        try specialize (Ha' ltac:(done)); try specialize (Hb' ltac:(done));
        cbn [field_or_leaf slot_fields slot_init lookup list_lookup default slot_depth slot_leaf] in *; lia. }
    apply IH; lia.
Qed.

(** The join, one level at a time. *)
Lemma slot_merge_eq a b :
  slot_merge a b =
  if bool_decide (slot_init a = MIR_SLOT_UNREACHED) then b
  else if bool_decide (slot_init b = MIR_SLOT_UNREACHED) then a
  else MkSlot (init_join (slot_init a) (slot_init b)) (borrow_union (slot_borrows a) (slot_borrows b))
         ((fun i => slot_merge (field_or_leaf a i) (field_or_leaf b i)) <$>
            seq 0 (Nat.max (field_count a) (field_count b))).
Proof.
  unfold slot_merge at 1.
  rewrite (slot_merge_at_fuel _ (S (Nat.max (slot_depth a) (slot_depth b)))) by lia.
  cbn [slot_merge_at]. rewrite !slot_copy_id. do 2 (case_bool_decide; [done|]).
  rewrite add_borrows_eq. unfold init_join.
  assert (Hm : forall i, slot_merge_at (Nat.max (slot_depth a) (slot_depth b)) (field_or_leaf a i) (field_or_leaf b i) =
                    slot_merge (field_or_leaf a i) (field_or_leaf b i)).
  { intros i. apply slot_merge_at_fuel; [|done].
    pose proof (slot_depth_field a i). pose proof (slot_depth_field b i). lia. }
  destruct (decide (0 < Nat.max (field_count a) (field_count b))) as [Hpos|Hpos].
  - rewrite (bool_decide_eq_true_2 _ Hpos).
    assert (He : forall l : list nat,
      (fun i => slot_merge_at (Nat.max (slot_depth a) (slot_depth b)) (field_or_leaf a i) (field_or_leaf b i)) <$> l =
      (fun i => slot_merge (field_or_leaf a i) (field_or_leaf b i)) <$> l).
    { intros l. apply list_fmap_ext. intros _ i _. apply Hm. }
    rewrite He. clear He Hm.
    destruct a as [ia ba fa], b as [ib bb fb]. cbn [slot_init slot_borrows]. by case_bool_decide.
  - rewrite (bool_decide_eq_false_2 _ Hpos).
    destruct a as [ia ba [|]], b as [ib bb [|]]; unfold field_count in Hpos; cbn [slot_fields length] in Hpos; try lia.
    cbn [slot_init slot_borrows]. by case_bool_decide.
Qed.

(** Two slots with the same head and equivalent fields are equivalent. *)
Lemma slot_equiv_fields a b :
  slot_init a = slot_init b -> (forall v, v ∈ slot_borrows a <-> v ∈ slot_borrows b) ->
  field_count a = field_count b ->
  (forall i, i < field_count a -> field_or_leaf a i ≡ field_or_leaf b i) -> a ≡ b.
Proof.
  destruct a as [k l f], b as [k' l' f']. unfold field_count, field_or_leaf. cbn.
  intros -> Hl Hlen Hf. constructor; [done|]. apply Forall2_same_length_lookup. split; [done|].
  intros i s s' Hs Hs'. specialize (Hf i (lookup_lt_Some _ _ _ Hs)). by rewrite Hs, Hs' in Hf.
Qed.

Lemma init_join_unreached i j :
  i <> MIR_SLOT_UNREACHED -> j <> MIR_SLOT_UNREACHED -> init_join i j <> MIR_SLOT_UNREACHED.
Proof. unfold init_join. by case_bool_decide. Qed.

Lemma init_join_comm i j : init_join i j = init_join j i.
Proof. by destruct i, j. Qed.
Lemma init_join_assoc i j k : init_join (init_join i j) k = init_join i (init_join j k).
Proof. by destruct i, j, k. Qed.
Lemma init_join_diag i : init_join i i = i.
Proof. by destruct i. Qed.

Lemma slot_merge_unreached_l a b : slot_init a = MIR_SLOT_UNREACHED -> slot_merge a b = b.
Proof. intros H. by rewrite slot_merge_eq, bool_decide_eq_true_2. Qed.
Lemma slot_merge_unreached_r a b :
  slot_init a <> MIR_SLOT_UNREACHED -> slot_init b = MIR_SLOT_UNREACHED -> slot_merge a b = a.
Proof. intros. by rewrite slot_merge_eq, bool_decide_eq_false_2, bool_decide_eq_true_2. Qed.

Section reached.
Context (a b : MIRSlot).
Hypothesis (Ha : slot_init a <> MIR_SLOT_UNREACHED) (Hb : slot_init b <> MIR_SLOT_UNREACHED).

Lemma slot_merge_reached :
  slot_merge a b =
  MkSlot (init_join (slot_init a) (slot_init b)) (borrow_union (slot_borrows a) (slot_borrows b))
    ((fun i => slot_merge (field_or_leaf a i) (field_or_leaf b i)) <$>
       seq 0 (Nat.max (field_count a) (field_count b))).
Proof. by rewrite slot_merge_eq, !bool_decide_eq_false_2. Qed.

Lemma slot_merge_init : slot_init (slot_merge a b) = init_join (slot_init a) (slot_init b).
Proof. by rewrite slot_merge_reached. Qed.

Lemma slot_merge_borrows v :
  v ∈ slot_borrows (slot_merge a b) <-> v ∈ slot_borrows a \/ (v ∈ slot_borrows b /\ v <> MIR_NO_VALUE).
Proof. rewrite slot_merge_reached. apply elem_of_borrow_union. Qed.

Lemma slot_merge_count : field_count (slot_merge a b) = Nat.max (field_count a) (field_count b).
Proof. rewrite slot_merge_reached. unfold field_count at 1. cbn [slot_fields]. by rewrite length_fmap, length_seq. Qed.

Lemma field_or_leaf_out s i : field_count s <= i -> field_or_leaf s i = slot_leaf (slot_init s).
Proof. unfold field_or_leaf, field_count. intros. by rewrite (proj2 (lookup_ge_None _ _)). Qed.

Lemma slot_merge_field i :
  field_or_leaf (slot_merge a b) i = slot_merge (field_or_leaf a i) (field_or_leaf b i).
Proof.
  destruct (decide (i < Nat.max (field_count a) (field_count b))) as [Hi|Hi].
  - rewrite slot_merge_reached. unfold field_or_leaf at 1. cbn [slot_fields].
    by rewrite list_lookup_fmap, lookup_seq_lt by done.
  - rewrite !field_or_leaf_out by (rewrite ?slot_merge_count; lia).
    rewrite slot_merge_init, slot_merge_eq, !bool_decide_eq_false_2 by done. done.
Qed.
End reached.

Lemma slot_merge_init_reached a b :
  slot_init (slot_merge a b) = MIR_SLOT_UNREACHED <->
  slot_init a = MIR_SLOT_UNREACHED /\ slot_init b = MIR_SLOT_UNREACHED.
Proof.
  rewrite slot_merge_eq. repeat case_bool_decide; [naive_solver..|]. cbn.
  pose proof (init_join_unreached (slot_init a) (slot_init b)). naive_solver.
Qed.

(** Induction on several slots at once, down to the same field of each. *)
Lemma slot_fields_ind (P : list MIRSlot -> Prop) :
  (forall l, (forall i, Exists (fun s => i < field_count s) l -> P ((fun s => field_or_leaf s i) <$> l)) -> P l) ->
  forall l, P l.
Proof.
  intros Hstep l. remember (sum_list (slot_depth <$> l)) as n eqn:Hn.
  revert l Hn. induction (lt_wf n) as [n _ IH]. intros l ->. apply Hstep. intros i Hi.
  eapply IH; [|reflexivity]. clear Hstep IH.
  assert (Hle : forall k, sum_list (slot_depth <$> ((fun s => field_or_leaf s i) <$> k)) <= sum_list (slot_depth <$> k)).
  { intros k. induction k as [|s k IHk]; [done|]. cbn. pose proof (proj1 (slot_depth_field s i)). cbn in IHk. lia. }
  induction Hi as [s k Hs|s k Hk IHk]; specialize (Hle k); pose proof (slot_depth_field s i) as [H1 H2];
    cbn in *; [|lia].
  enough (slot_depth (field_or_leaf s i) < slot_depth s) by lia. apply H2.
  unfold field_count in Hs. by destruct (slot_fields s); cbn in Hs; [lia|].
Qed.

Lemma slot_merge_wf a b : slot_wf a -> slot_wf b -> slot_wf (slot_merge a b).
Proof.
  enough (H : forall l, match l with [a; b] => slot_wf a -> slot_wf b -> slot_wf (slot_merge a b) | _ => True end)
    by exact (H [a; b]).
  clear a b. intros l. induction l as [[|a [|b [|]]] IH] using slot_fields_ind; try done. intros Ha Hb.
  destruct (decide (slot_init a = MIR_SLOT_UNREACHED)); [by rewrite slot_merge_unreached_l|].
  destruct (decide (slot_init b = MIR_SLOT_UNREACHED)); [by rewrite slot_merge_unreached_r|].
  rewrite slot_merge_reached by done. constructor.
  - apply NoDup_borrow_union. destruct a. by apply slot_wf_inv in Ha as [? _].
  - rewrite elem_of_borrow_union. destruct a. apply slot_wf_inv in Ha as (_ & ? & _). naive_solver.
  - apply Forall_fmap, Forall_forall. intros i Hi%elem_of_seq. cbn.
    apply (IH i); [|by apply field_or_leaf_wf..].
    destruct (decide (i < field_count a)); [by constructor|]. constructor 2. constructor. lia.
Qed.

(** A slot nothing is known of has nothing recorded in it. *)
#[warnings="-register-all"]
Inductive slot_settled : MIRSlot -> Prop :=
  slot_settled_intro i b f :
    (i = MIR_SLOT_UNREACHED -> b = [] /\ f = []) -> Forall slot_settled f -> slot_settled (MkSlot i b f).

Lemma slot_settled_unreached s : slot_settled s -> slot_init s = MIR_SLOT_UNREACHED -> s = slot_leaf MIR_SLOT_UNREACHED.
Proof. destruct 1 as [i b f H]. cbn. intros ->. by destruct (H eq_refl) as [-> ->]. Qed.

Lemma slot_settled_field s i : slot_settled s -> slot_settled (field_or_leaf s i).
Proof.
  destruct 1 as [k b f H Hf]. unfold field_or_leaf. cbn.
  destruct (f !! i) eqn:Hi; [by eapply Forall_lookup_1|]. constructor; [done|constructor].
Qed.

(** The facts a goal about a slot's fields asks for: which of the slots of the
    list have the field. *)
Ltac some_field :=
  match goal with
  | |- Exists (fun s => ?i < field_count s) (?s :: ?l) =>
      destruct (decide (i < field_count s));
      [by constructor|constructor 2; try some_field]
  | |- Exists _ [] => exfalso; lia
  end.

Lemma slot_merge_idemp a : slot_wf a -> slot_merge a a ≡ a.
Proof.
  enough (H : forall l, match l with [a] => slot_wf a -> slot_merge a a ≡ a | _ => True end) by exact (H [a]).
  clear a. intros l. induction l as [[|a [|]] IH] using slot_fields_ind; try done. intros Ha.
  destruct (decide (slot_init a = MIR_SLOT_UNREACHED)); [by rewrite slot_merge_unreached_l|].
  apply slot_equiv_fields.
  - by rewrite slot_merge_init, init_join_diag.
  - intros v. rewrite slot_merge_borrows by done. naive_solver.
  - rewrite slot_merge_count by done. lia.
  - intros i Hi. rewrite slot_merge_count in Hi by done. rewrite slot_merge_field by done.
    apply (IH i); [constructor; lia|by apply field_or_leaf_wf].
Qed.

Lemma slot_merge_comm a b :
  slot_wf a -> slot_wf b -> slot_settled a -> slot_settled b -> slot_merge a b ≡ slot_merge b a.
Proof.
  enough (H : forall l, match l with [a; b] =>
    slot_wf a -> slot_wf b -> slot_settled a -> slot_settled b -> slot_merge a b ≡ slot_merge b a | _ => True end)
    by exact (H [a; b]).
  clear a b. intros l. induction l as [[|a [|b [|]]] IH] using slot_fields_ind; try done. intros Ha Hb Sa Sb.
  destruct (decide (slot_init a = MIR_SLOT_UNREACHED)), (decide (slot_init b = MIR_SLOT_UNREACHED)).
  - by rewrite (slot_settled_unreached a), (slot_settled_unreached b).
  - by rewrite slot_merge_unreached_l, slot_merge_unreached_r.
  - by rewrite slot_merge_unreached_r, slot_merge_unreached_l.
  - apply slot_equiv_fields.
    + by rewrite !slot_merge_init, init_join_comm.
    + intros v. rewrite !slot_merge_borrows by done.
      destruct a, b. apply slot_wf_inv in Ha as (_ & ? & _). apply slot_wf_inv in Hb as (_ & ? & _).
      cbn. naive_solver.
    + rewrite !slot_merge_count by done. lia.
    + intros i Hi. rewrite slot_merge_count in Hi by done. rewrite !slot_merge_field by done.
      apply (IH i); eauto using field_or_leaf_wf, slot_settled_field. some_field.
Qed.

Lemma slot_merge_assoc a b c : slot_merge (slot_merge a b) c ≡ slot_merge a (slot_merge b c).
Proof.
  enough (H : forall l, match l with [a; b; c] =>
    slot_merge (slot_merge a b) c ≡ slot_merge a (slot_merge b c) | _ => True end)
    by exact (H [a; b; c]).
  clear a b c. intros l. induction l as [[|a [|b [|c [|]]]] IH] using slot_fields_ind; try done.
  pose proof (slot_merge_init_reached a b). pose proof (slot_merge_init_reached b c).
  destruct (decide (slot_init a = MIR_SLOT_UNREACHED)); [rewrite !(slot_merge_unreached_l a) by done; done|].
  destruct (decide (slot_init b = MIR_SLOT_UNREACHED)).
  { rewrite (slot_merge_unreached_l b), (slot_merge_unreached_r a b) by done. done. }
  destruct (decide (slot_init c = MIR_SLOT_UNREACHED)).
  { rewrite (slot_merge_unreached_r b), (slot_merge_unreached_r (slot_merge a b)) by naive_solver. done. }
  assert (slot_init (slot_merge a b) <> MIR_SLOT_UNREACHED) by naive_solver.
  assert (slot_init (slot_merge b c) <> MIR_SLOT_UNREACHED) by naive_solver.
  apply slot_equiv_fields.
  - by rewrite !slot_merge_init, init_join_assoc.
  - intros v. rewrite !slot_merge_borrows by done. naive_solver.
  - rewrite !slot_merge_count by done. lia.
  - intros i Hi. rewrite !slot_merge_count in Hi by done. rewrite !slot_merge_field by done.
    apply (IH i). some_field.
Qed.

#[export] Instance slot_merge_proper : Proper ((≡) ==> (≡) ==> (≡)) slot_merge.
Proof.
  enough (H : forall l, match l with [a; a'; b; b'] =>
    a ≡ a' -> b ≡ b' -> slot_merge a b ≡ slot_merge a' b' | _ => True end).
  { intros a a' Ha b b' Hb. exact (H [a; a'; b; b'] Ha Hb). }
  intros l. induction l as [[|a [|a' [|b [|b' [|]]]]] IH] using slot_fields_ind; try done. intros Ha Hb.
  pose proof (slot_equiv_init _ _ Ha). pose proof (slot_equiv_init _ _ Hb).
  destruct (decide (slot_init a = MIR_SLOT_UNREACHED)); [rewrite (slot_merge_unreached_l a), (slot_merge_unreached_l a') by congruence; done|].
  destruct (decide (slot_init b = MIR_SLOT_UNREACHED)); [rewrite (slot_merge_unreached_r a), (slot_merge_unreached_r a') by congruence; done|].
  pose proof (slot_equiv_count _ _ Ha). pose proof (slot_equiv_count _ _ Hb).
  apply slot_equiv_fields.
  - rewrite !slot_merge_init by congruence. congruence.
  - intros v. rewrite !slot_merge_borrows by congruence.
    destruct Ha as [? ? ? ? ? Hab _], Hb as [? ? ? ? ? Hbb _]. cbn. by rewrite Hab, Hbb.
  - rewrite !slot_merge_count by congruence. lia.
  - intros i Hi. rewrite !slot_merge_count in Hi by congruence. rewrite !slot_merge_field by congruence.
    apply (IH i); [some_field|by apply slot_equiv_field..].
Qed.

(** ** States, compared slot by slot *)

Definition state_wf (s : MIRState) : Prop := map_Forall (fun _ slot => slot_wf slot) (slots s).
Definition state_settled (s : MIRState) : Prop := map_Forall (fun _ slot => slot_settled slot) (slots s).

#[export] Instance state_equiv : Equiv MIRState := fun a b =>
  unreachable a = unreachable b /\ forall v, mir_state_get a v ≡ mir_state_get b v.

#[export] Instance state_equiv_equivalence : Equivalence (≡@{MIRState}).
Proof.
  split.
  - by intros s.
  - intros s t [H H']. split; [done|]. intros v. by rewrite H'.
  - intros s t u [H H'] [K K']. split; [congruence|]. intros v. by rewrite H', K'.
Qed.

Lemma state_get_wf s v : state_wf s -> slot_wf (mir_state_get s v).
Proof.
  intros Hs. unfold mir_state_get. destruct (slots s !! v) eqn:Hv; [by eapply Hs|apply slot_leaf_wf].
Qed.

Lemma state_get_settled s v : state_settled s -> slot_settled (mir_state_get s v).
Proof.
  intros Hs. unfold mir_state_get. destruct (slots s !! v) eqn:Hv; [by eapply Hs|]. constructor; [done|constructor].
Qed.

Lemma state_contained_by_spec a b :
  state_wf a -> state_wf b ->
  state_contained_by a b = true <-> forall v slot, slots a !! v = Some slot -> slot ≡ mir_state_get b v.
Proof.
  intros Ha Hb. unfold state_contained_by. rewrite forallb_forall. split.
  - intros H v slot Hv. apply slot_equals_equiv; [by eapply Ha|by apply state_get_wf|].
    apply (H (v, slot)), list_elem_of_In, elem_of_map_to_list, Hv.
  - intros H [v slot] Hv%list_elem_of_In%elem_of_map_to_list.
    apply slot_equals_equiv; [by eapply Ha|by apply state_get_wf|]. by apply H.
Qed.

(** The comparison the fixed point of the borrow checker stops at. *)
Lemma state_equals_equiv a b : state_wf a -> state_wf b -> mir_state_equals a b = true <-> a ≡ b.
Proof.
  intros Ha Hb. unfold mir_state_equals.
  case_bool_decide as Hu; cbn [negb]; [|split; [done|]; by intros [? _]].
  rewrite andb_true_iff, !state_contained_by_spec by done. split.
  - intros [H H']. split; [done|]. intros v. specialize (H v). specialize (H' v). unfold mir_state_get in *.
    destruct (slots a !! v) as [s|] eqn:Hv; cbn [default from_option]; [by apply H|].
    destruct (slots b !! v) as [s|] eqn:Hv'; cbn [default from_option]; [|done]. symmetry. by apply H'.
  - intros [_ H]. split; intros v s Hv; specialize (H v); unfold mir_state_get in *; rewrite Hv in H; [done|].
    by symmetry.
Qed.

Lemma state_merge_get a b v :
  unreachable a = false -> unreachable b = false -> state_settled a ->
  mir_state_get (mir_state_merge a b) v = slot_merge (mir_state_get a v) (mir_state_get b v).
Proof.
  intros Ha Hb Hs. unfold mir_state_merge. rewrite Ha, Hb.
  pose proof (state_get_settled a v Hs) as Hsv.
  unfold mir_state_get in *. cbn [slots]. rewrite lookup_merge.
  destruct (slots a !! v) as [s|], (slots b !! v) as [t|]; cbn [merge_entry default from_option diag_None] in *; try done.
  destruct (decide (slot_init s = MIR_SLOT_UNREACHED)) as [Hu|Hu].
  - by rewrite (slot_settled_unreached s Hsv Hu), slot_merge_unreached_l.
  - by rewrite slot_merge_unreached_r.
Qed.

Lemma state_copy_id s : mir_state_copy s = s.
Proof.
  destruct s as [m u]. unfold mir_state_copy. cbn. f_equal.
  rewrite <- (map_fmap_id m) at 2. apply map_fmap_ext. intros. by rewrite slot_copy_id.
Qed.

Lemma state_merge_unreachable a b :
  unreachable (mir_state_merge a b) = unreachable a && unreachable b.
Proof.
  unfold mir_state_merge. rewrite state_copy_id.
  destruct (unreachable a) eqn:Ha, (unreachable b) eqn:Hb; cbn; by rewrite ?Ha, ?Hb.
Qed.

Lemma state_merge_wf a b : state_wf a -> state_wf b -> state_wf (mir_state_merge a b).
Proof.
  intros Ha Hb. unfold mir_state_merge. rewrite state_copy_id.
  destruct (unreachable b); [done|]. destruct (unreachable a); [done|].
  intros v s. cbn. rewrite lookup_merge.
  destruct (slots a !! v) as [t|] eqn:Hv, (slots b !! v) as [t'|] eqn:Hv';
    cbn [merge_entry default from_option diag_None]; intros [= <-].
  - apply slot_merge_wf; [by eapply Ha|by eapply Hb].
  - by eapply Ha.
  - apply slot_merge_wf; [apply slot_leaf_wf|by eapply Hb].
Qed.

Lemma slot_merge_settled a b : slot_settled a -> slot_settled b -> slot_settled (slot_merge a b).
Proof.
  enough (H : forall l, match l with [a; b] =>
    slot_settled a -> slot_settled b -> slot_settled (slot_merge a b) | _ => True end)
    by exact (H [a; b]).
  clear a b. intros l. induction l as [[|a [|b [|]]] IH] using slot_fields_ind; try done. intros Ha Hb.
  destruct (decide (slot_init a = MIR_SLOT_UNREACHED)); [by rewrite slot_merge_unreached_l|].
  destruct (decide (slot_init b = MIR_SLOT_UNREACHED)); [by rewrite slot_merge_unreached_r|].
  rewrite slot_merge_reached by done. constructor.
  - intros H. by destruct (init_join_unreached (slot_init a) (slot_init b)).
  - apply Forall_fmap, Forall_forall. intros i Hi%elem_of_seq. cbn.
    apply (IH i); eauto using slot_settled_field. some_field.
Qed.

Lemma state_merge_settled a b : state_settled a -> state_settled b -> state_settled (mir_state_merge a b).
Proof.
  intros Ha Hb. unfold mir_state_merge. rewrite state_copy_id.
  destruct (unreachable b); [done|]. destruct (unreachable a); [done|].
  intros v s. cbn. rewrite lookup_merge.
  destruct (slots a !! v) as [t|] eqn:Hv, (slots b !! v) as [t'|] eqn:Hv';
    cbn [merge_entry default from_option diag_None]; intros [= <-].
  - apply slot_merge_settled; [by eapply Ha|by eapply Hb].
  - by eapply Ha.
  - apply slot_merge_settled; [constructor; [done|constructor]|by eapply Hb].
Qed.

(** ** What a slot names, fields included *)

#[warnings="-register-all"]
Inductive slot_names (v : MIRValueId) : MIRSlot -> Prop :=
  | slot_names_here i b f : v ∈ b -> slot_names v (MkSlot i b f)
  | slot_names_field i b f s : s ∈ f -> slot_names v s -> slot_names v (MkSlot i b f).

Lemma slot_names_inv v i b f :
  slot_names v (MkSlot i b f) <-> v ∈ b \/ exists s, s ∈ f /\ slot_names v s.
Proof. split; [inversion 1; eauto|]. intros [?|(s & ? & ?)]; by econstructor. Qed.

(** A slot read as a whole dangles when it dangles itself, or is initialised
    and a field of it read as a whole dangles. *)
#[warnings="-register-all"]
Inductive slot_dangles : MIRSlot -> Prop :=
  | slot_dangles_here b f : slot_dangles (MkSlot MIR_SLOT_DANGLING b f)
  | slot_dangles_field b f s : s ∈ f -> slot_dangles s -> slot_dangles (MkSlot MIR_SLOT_INIT b f).

Lemma add_borrows_init s l : slot_init (add_borrows s l) = slot_init s.
Proof. rewrite add_borrows_eq. by destruct s. Qed.

Lemma elem_of_add_borrows s l v :
  v ∈ slot_borrows (add_borrows s l) <-> v ∈ slot_borrows s \/ (v ∈ l /\ v <> MIR_NO_VALUE).
Proof. rewrite add_borrows_eq. destruct s. apply elem_of_borrow_union. Qed.

Lemma flatten_field_init flat field :
  slot_init (flatten_field flat field) =
  if bool_decide (slot_init flat = MIR_SLOT_INIT) && bool_decide (slot_init field = MIR_SLOT_DANGLING)
  then MIR_SLOT_DANGLING else slot_init flat.
Proof. unfold flatten_field. rewrite add_borrows_init. destruct (_ && _); by destruct flat. Qed.

Lemma elem_of_flatten_field flat field v :
  v ∈ slot_borrows (flatten_field flat field) <->
  v ∈ slot_borrows flat \/ (v ∈ slot_borrows field /\ v <> MIR_NO_VALUE).
Proof. unfold flatten_field. rewrite elem_of_add_borrows. destruct (_ && _); by destruct flat. Qed.

Section flatten_fields.
Let flatten_all (flat : MIRSlot) (f : list MIRSlot) : MIRSlot :=
  foldl (fun flat field => flatten_field flat (mir_slot_flattened field)) flat f.

Lemma flatten_all_borrows f flat v :
  v ∈ slot_borrows (flatten_all flat f) <->
  v ∈ slot_borrows flat \/ exists s, s ∈ f /\ v ∈ slot_borrows (mir_slot_flattened s) /\ v <> MIR_NO_VALUE.
Proof.
  revert flat. induction f as [|s f IH]; intros flat; cbn.
  - split; [auto|]. by intros [?|(s & []%elem_of_nil & _)].
  - fold (flatten_all (flatten_field flat (mir_slot_flattened s)) f).
    rewrite IH, elem_of_flatten_field. setoid_rewrite elem_of_cons. naive_solver.
Qed.

Lemma flatten_all_init f flat :
  slot_init (flatten_all flat f) =
  if bool_decide (slot_init flat = MIR_SLOT_INIT) &&
     existsb (fun s => bool_decide (slot_init (mir_slot_flattened s) = MIR_SLOT_DANGLING)) f
  then MIR_SLOT_DANGLING else slot_init flat.
Proof.
  revert flat. induction f as [|s f IH]; intros flat; cbn.
  - by rewrite andb_false_r.
  - fold (flatten_all (flatten_field flat (mir_slot_flattened s)) f).
    rewrite IH, flatten_field_init.
    destruct (bool_decide (slot_init flat = MIR_SLOT_INIT)) eqn:Hf; cbn [andb]; [|by rewrite Hf].
    destruct (bool_decide (slot_init (mir_slot_flattened s) = MIR_SLOT_DANGLING)); cbn [orb andb].
    + by rewrite bool_decide_eq_false_2.
    + by rewrite Hf.
Qed.
End flatten_fields.

Lemma flattened_borrows s v :
  v ∈ slot_borrows (mir_slot_flattened s) <-> slot_names v s /\ v <> MIR_NO_VALUE.
Proof.
  induction s as [i b f IH] using slot_ind'. cbn [mir_slot_flattened].
  rewrite flatten_all_borrows, elem_of_add_borrows, slot_names_inv, Forall_forall in *.
  cbn [slot_leaf slot_borrows]. rewrite elem_of_nil. split.
  - intros [[[]|[? ?]]|(s & Hs & Hv & ?)]; [tauto|]. apply (IH s Hs) in Hv. naive_solver.
  - intros [[?|(s & Hs & Hv)] ?]; [tauto|]. right. exists s. by rewrite (IH s Hs).
Qed.

Lemma flattened_dangling s : slot_init (mir_slot_flattened s) = MIR_SLOT_DANGLING <-> slot_dangles s.
Proof.
  induction s as [i b f IH] using slot_ind'. cbn [mir_slot_flattened].
  rewrite flatten_all_init, add_borrows_init. cbn [slot_leaf slot_init]. rewrite Forall_forall in IH.
  assert (He : existsb (fun s => bool_decide (slot_init (mir_slot_flattened s) = MIR_SLOT_DANGLING)) f = true <->
               exists s, s ∈ f /\ slot_dangles s).
  { rewrite existsb_exists. setoid_rewrite bool_decide_eq_true. setoid_rewrite <- list_elem_of_In.
    split; intros (s & Hs & H); exists s; (split; [done|]); by apply (IH s Hs). }
  destruct (existsb _ f).
  - destruct (proj1 He eq_refl) as (s & Hs & Hd). rewrite andb_true_r. case_bool_decide as Hi; [subst i|].
    + split; [|done]. intros _. by econstructor.
    + split; [intros ->; constructor|]. inversion 1; by subst.
  - rewrite andb_false_r. split; [intros ->; constructor|]. inversion 1 as [|? ? s Hs Hd]; [done|].
    subst. assert (false = true) by (apply He; eauto). done.
Qed.

Lemma flattened_init s :
  slot_init (mir_slot_flattened s) = slot_init s \/
  slot_init s = MIR_SLOT_INIT /\ slot_init (mir_slot_flattened s) = MIR_SLOT_DANGLING.
Proof.
  destruct s as [i b f]. cbn [mir_slot_flattened].
  rewrite flatten_all_init, add_borrows_init. cbn [slot_leaf slot_init].
  destruct (bool_decide (i = MIR_SLOT_INIT)) eqn:Hi; [apply bool_decide_eq_true in Hi as ->|by left].
  destruct (existsb _ f); cbn; auto.
Qed.

(** ** Invalidation *)

(** The initialised part of a slot names a value: every slot from the root
    down to the one whose borrows list it is initialised. *)
#[warnings="-register-all"]
Inductive slot_holds_borrow (v : MIRValueId) : MIRSlot -> Prop :=
  | slot_holds_here b f : v ∈ b -> slot_holds_borrow v (MkSlot MIR_SLOT_INIT b f)
  | slot_holds_field b f s :
      s ∈ f -> slot_holds_borrow v s -> slot_holds_borrow v (MkSlot MIR_SLOT_INIT b f).

Lemma invalidate_eq i b f v :
  slot_invalidate_borrows_of (MkSlot i b f) v =
  MkSlot (if bool_decide (i = MIR_SLOT_INIT) && bool_decide (v ∈ b) then MIR_SLOT_DANGLING else i) b
    ((fun field => slot_invalidate_borrows_of field v) <$> f).
Proof.
  cbn [slot_invalidate_borrows_of]. unfold mir_slot_borrows_from. cbn [slot_borrows]. rewrite existsb_eqb.
  by destruct (bool_decide (i = MIR_SLOT_INIT) && bool_decide (v ∈ b)).
Qed.

Lemma invalidate_dangles v s : slot_holds_borrow v s -> slot_dangles (slot_invalidate_borrows_of s v).
Proof.
  induction 1 as [b f Hv|b f s Hs _ IH]; rewrite invalidate_eq, bool_decide_eq_true_2 by done; cbn [andb].
  - rewrite bool_decide_eq_true_2 by done. constructor.
  - case_bool_decide; [constructor|]. econstructor; [|exact IH]. apply list_elem_of_fmap. eauto.
Qed.

Lemma invalidate_not_named v s : ~ slot_names v s -> slot_invalidate_borrows_of s v = s.
Proof.
  induction s as [i b f IH] using slot_ind'. rewrite slot_names_inv. intros Hn. rewrite invalidate_eq.
  rewrite (bool_decide_eq_false_2 (v ∈ b)) by tauto. rewrite andb_false_r. f_equal.
  assert (He : forall s, s ∈ f -> slot_invalidate_borrows_of s v = s).
  { rewrite Forall_forall in IH. intros s Hs. apply IH; [done|]. contradict Hn. eauto. }
  clear IH Hn. induction f as [|s f IHf]; [done|]. cbn. rewrite He by left. f_equal.
  apply IHf. intros t Ht. apply He. by right.
Qed.

Lemma invalidate_wf v s : slot_wf s -> slot_wf (slot_invalidate_borrows_of s v).
Proof.
  induction s as [i b f IH] using slot_ind'. intros (? & ? & Hf)%slot_wf_inv. rewrite invalidate_eq.
  constructor; [done..|]. apply Forall_fmap. rewrite Forall_forall in *. intros s Hs. cbn. auto.
Qed.

Lemma state_get_invalidate s d v :
  mir_state_get (mir_state_invalidate_borrows_of s d) v = slot_invalidate_borrows_of (mir_state_get s v) d.
Proof.
  unfold mir_state_get, mir_state_invalidate_borrows_of. cbn [slots]. rewrite lookup_fmap.
  by destruct (slots s !! v).
Qed.

Lemma slot_names_equiv v a b : a ≡ b -> slot_names v a -> slot_names v b.
Proof.
  intros H Hv. revert b H. induction Hv as [i l f Hv|i l f s Hs _ IH]; intros [i' l' f'] (<- & Hl & Hf)%slot_equiv_inv.
  - constructor. by apply Hl.
  - apply list_elem_of_lookup in Hs as [k Hk]. destruct (Forall2_lookup_l _ _ _ _ _ Hf Hk) as (t & Ht & Heq).
    apply (slot_names_field v i l' f' t); [by eapply list_elem_of_lookup_2|by apply IH].
Qed.

Lemma slot_dangles_equiv a b : a ≡ b -> slot_dangles a -> slot_dangles b.
Proof.
  intros H Hv. revert b H. induction Hv as [l f|l f s Hs _ IH]; intros [i' l' f'] (<- & _ & Hf)%slot_equiv_inv.
  - constructor.
  - apply list_elem_of_lookup in Hs as [k Hk]. destruct (Forall2_lookup_l _ _ _ _ _ Hf Hk) as (t & Ht & Heq).
    apply (slot_dangles_field l' f' t); [by eapply list_elem_of_lookup_2|by apply IH].
Qed.

Lemma flattened_equiv a b :
  a ≡ b ->
  slot_init (mir_slot_flattened a) = slot_init (mir_slot_flattened b) /\
  forall v, v ∈ slot_borrows (mir_slot_flattened a) <-> v ∈ slot_borrows (mir_slot_flattened b).
Proof.
  intros H. split.
  - pose proof (slot_equiv_init _ _ H) as Hi. pose proof (slot_dangles_equiv a b H) as Hab.
    pose proof (slot_dangles_equiv b a (symmetry H)) as Hba. rewrite <- !flattened_dangling in *.
    destruct (flattened_init a) as [Ha|[? Ha]], (flattened_init b) as [Hb|[? Hb]]; try congruence.
    + rewrite Hb. symmetry. naive_solver congruence.
    + rewrite Ha. naive_solver congruence.
  - intros v. rewrite !flattened_borrows.
    split; intros [Hv ?]; (split; [|done]); by eapply slot_names_equiv.
Qed.

(** ** A struct that borrows, for the witnesses *)

Definition sample_borrowing (b : list MIRValueId) : MIRState :=
  MkState {[ 3%N := MkSlot MIR_SLOT_INIT [] [MkSlot MIR_SLOT_INIT b []; slot_leaf MIR_SLOT_UNINIT] ]} false.

Lemma sample_borrowing_ok b :
  NoDup b -> MIR_NO_VALUE ∉ b -> state_wf (sample_borrowing b) /\ state_settled (sample_borrowing b).
Proof.
  intros Hb Hn. split; intros v s Hv; cbn [sample_borrowing slots] in Hv;
    apply lookup_singleton_Some in Hv as [<- <-].
  - constructor; [constructor|apply not_elem_of_nil|]. repeat constructor; [done..|apply not_elem_of_nil].
  - repeat constructor; done.
Qed.

(** ** Properties *)

(** Two states that compare equal tell every reader the same: the slot of
    each value, read as a whole, has the same state and may borrow from the
    same values; and states that read the same slot by slot compare equal. *)
Theorem mir_state_equals_reads a b :
  state_wf a -> state_wf b ->
  (mir_state_equals a b = true ->
   unreachable a = unreachable b /\
   forall v, let flat s := mir_slot_flattened (mir_state_get s v) in
     field_count (mir_state_get a v) = field_count (mir_state_get b v) /\
     slot_init (flat a) = slot_init (flat b) /\
     forall x, x ∈ slot_borrows (flat a) <-> x ∈ slot_borrows (flat b)) /\
  (unreachable a = unreachable b -> (forall v, mir_state_get a v ≡ mir_state_get b v) ->
   mir_state_equals a b = true).
Proof.
  intros Ha Hb. rewrite state_equals_equiv by done. split; [|by split].
  intros [Hu H]. split; [done|]. intros v. split; [by apply slot_equiv_count|]. by apply flattened_equiv.
Qed.

Lemma mir_state_equals_reads_witness :
  mir_state_equals (sample_borrowing [1%N; 2%N]) (sample_borrowing [2%N; 1%N]) = true /\
  field_count (mir_state_get (sample_borrowing [1%N; 2%N]) 3) = 2.
Proof.
  destruct (sample_borrowing_ok [1%N; 2%N]) as [Hw _]; [apply (bool_decide_unpack _); vm_compute; exact I..|].
  destruct (sample_borrowing_ok [2%N; 1%N]) as [Hw' _]; [apply (bool_decide_unpack _); vm_compute; exact I..|].
  assert (He : mir_state_equals (sample_borrowing [1%N; 2%N]) (sample_borrowing [2%N; 1%N]) = true)
    by (vm_compute; reflexivity).
  destruct (mir_state_equals_reads _ _ Hw Hw') as [H _].
  split; [done|]. destruct (H He) as [_ Hr]. by rewrite (proj1 (Hr 3%N)).
Defined.

(** C14: The join of states is a join.  On states that are well formed (the borrows
    of every slot are a set of values) and settled (a slot nothing is known of has
    nothing recorded in it), it is idempotent and associative up to the comparison
    the fixed point uses, and commutative where not both states are unreachable. *)
Theorem mir_state_merge_semilattice a b c :
  state_wf a -> state_wf b -> state_wf c -> state_settled a -> state_settled b -> state_settled c ->
  mir_state_equals (mir_state_merge a a) a = true /\
  (unreachable a && unreachable b = false ->
   mir_state_equals (mir_state_merge a b) (mir_state_merge b a) = true) /\
  mir_state_equals (mir_state_merge (mir_state_merge a b) c) (mir_state_merge a (mir_state_merge b c)) = true.
Proof.
  intros Wa Wb Wc Sa Sb Sc. rewrite !state_equals_equiv by eauto using state_merge_wf. repeat split.
  - rewrite state_merge_unreachable. by destruct (unreachable a).
  - intros v. destruct (unreachable a) eqn:Hu; [by unfold mir_state_merge; rewrite Hu|].
    rewrite state_merge_get by done. apply slot_merge_idemp. by apply state_get_wf.
  - rewrite !state_merge_unreachable. apply andb_comm.
  - intros v. destruct (unreachable a) eqn:Hu, (unreachable b) eqn:Hu'; [done|..].
    1-2: unfold mir_state_merge; by rewrite Hu, Hu', state_copy_id.
    rewrite !state_merge_get by done.
    apply slot_merge_comm; eauto using state_get_wf, state_get_settled.
  - rewrite !state_merge_unreachable. symmetry. apply andb_assoc.
  - intros v. destruct (unreachable a) eqn:Ha, (unreachable b) eqn:Hb, (unreachable c) eqn:Hc;
      try (unfold mir_state_merge; rewrite ?Ha, ?Hb, ?Hc, ?state_copy_id; cbn; rewrite ?Ha, ?Hb, ?Hc; reflexivity).
    rewrite !state_merge_get by (rewrite ?state_merge_unreachable, ?Ha, ?Hb, ?Hc; eauto using state_merge_settled).
    apply slot_merge_assoc.
Qed.

Lemma mir_state_merge_semilattice_witness :
  mir_state_equals (mir_state_merge (sample_borrowing [1%N]) (sample_borrowing [2%N]))
    (mir_state_merge (sample_borrowing [2%N]) (sample_borrowing [1%N])) = true.
Proof.
  destruct (sample_borrowing_ok [1%N]) as [Wa Sa]; [apply (bool_decide_unpack _); vm_compute; exact I..|].
  destruct (sample_borrowing_ok [2%N]) as [Wb Sb]; [apply (bool_decide_unpack _); vm_compute; exact I..|].
  by apply (mir_state_merge_semilattice _ _ _ Wa Wb Wb Sa Sb Sb).
Defined.

(** A slot read as a whole names exactly the values its fields and itself
    name, and dangles exactly when it does, or is initialised over a field
    that does; otherwise its state is its own. *)
Theorem mir_slot_flattened_spec s :
  (forall v, v ∈ slot_borrows (mir_slot_flattened s) <-> slot_names v s /\ v <> MIR_NO_VALUE) /\
  (slot_init (mir_slot_flattened s) = MIR_SLOT_DANGLING <-> slot_dangles s) /\
  (~ slot_dangles s -> slot_init (mir_slot_flattened s) = slot_init s).
Proof.
  split; [apply flattened_borrows|]. split; [apply flattened_dangling|].
  rewrite <- flattened_dangling. by destruct (flattened_init s) as [?|[? ->]].
Qed.

(** Ending what [dropped] names leaves every slot that holds a borrow of
    it dangling, and every slot that names nothing of it as it was. *)
Theorem mir_state_invalidate_dangles s dropped v :
  let flat state := mir_slot_flattened (mir_state_get state v) in
  (slot_holds_borrow dropped (mir_state_get s v) ->
   slot_init (flat (mir_state_invalidate_borrows_of s dropped)) = MIR_SLOT_DANGLING) /\
  (~ slot_names dropped (mir_state_get s v) ->
   mir_state_get (mir_state_invalidate_borrows_of s dropped) v = mir_state_get s v).
Proof.
  cbv zeta beta. rewrite !state_get_invalidate. split.
  - intros H. by apply flattened_dangling, invalidate_dangles.
  - apply invalidate_not_named.
Qed.

Lemma mir_state_invalidate_dangles_witness :
  slot_init (mir_slot_flattened
    (mir_state_get (mir_state_invalidate_borrows_of (sample_borrowing [1%N]) 1) 3)) = MIR_SLOT_DANGLING.
Proof.
  apply (mir_state_invalidate_dangles (sample_borrowing [1%N]) 1 3).
  eapply slot_holds_field; [apply list_elem_of_here|]. constructor. apply list_elem_of_here.
Defined.
