(* ===== verification/Diagnostics.v ===== *)
(** * Diagnostics: what a pass reports

    The accumulator of [src/src/diagnostics.c].  A message is the text
    [vsnprintf] formatted, so [diag_error] takes the formatted text; the list
    is [GAB_LIST(DiagnosticList)]. *)

From S2P Require Import Prelude Types Mir.
From stdpp Require Import pretty.
From Stdlib Require Import Ascii.

Inductive DiagKind :=
  | GAB_ERR_SYNTAX | GAB_ERR_TYPE | GAB_ERR_NAME | GAB_ERR_CODEGEN | GAB_ERR_LIFETIME.

#[export] Instance DiagKind_eq_dec : EqDecision DiagKind.
Proof. solve_decision. Defined.

Record Diagnostic := MkDiagnostic {
  diag_kind : DiagKind;
  diag_span : Span;
  diag_message : string;
}.

#[export] Instance Diagnostic_eq_dec : EqDecision Diagnostic.
Proof. solve_decision. Defined.

Record Diagnostics := MkDiagnostics {
  diag_module : option string;
  diag_items : list Diagnostic;
}.

Definition diagnostics_init (module : option string) : Diagnostics := MkDiagnostics module [].

Definition diag_error (d : Diagnostics) (kind : DiagKind) (span : Span) (message : string) : Diagnostics :=
  MkDiagnostics (diag_module d) (diag_items d ++ [MkDiagnostic kind span message]).

Definition diagnostics_has_errors (d : Diagnostics) : bool := bool_decide (0 < length (diag_items d)).
Definition diagnostics_count (d : Diagnostics) : nat := length (diag_items d).
Definition diagnostics_get (d : Diagnostics) (index : nat) : option Diagnostic :=
  if bool_decide (length (diag_items d) <= index) then None else diag_items d !! index.

Definition diag_kind_name (kind : DiagKind) : string :=
  match kind with
  | GAB_ERR_SYNTAX => "syntax error"
  | GAB_ERR_TYPE => "type error"
  | GAB_ERR_NAME => "name error"
  | GAB_ERR_CODEGEN => "codegen error"
  | GAB_ERR_LIFETIME => "lifetime error"
  end.

(** The decimal text [printf] writes for an [int]. *)
Definition print_int (z : Z) : string := pretty z.

(** The text [diagnostics_print] writes. *)
Definition diagnostic_line (module : string) (d : Diagnostic) : string :=
  module +:+ ":" +:+ print_int (span_line (diag_span d)) +:+ ":" +:+ print_int (span_column (diag_span d)) +:+
  ": " +:+ diag_kind_name (diag_kind d) +:+ ": " +:+ diag_message d +:+ String "010"%char "".

Definition diagnostics_print (d : Diagnostics) : string :=
  foldr (fun item out => diagnostic_line (default "<script>" (diag_module d)) item +:+ out) "" (diag_items d).

Lemma diagnostics_has_errors_count d : diagnostics_has_errors d = negb (Nat.eqb (diagnostics_count d) 0).
Proof.
  unfold diagnostics_has_errors, diagnostics_count. destruct (diag_items d); [done|]. cbn.
  by rewrite bool_decide_eq_true_2 by lia.
Qed.
