(* ===== verification/Decl.v ===== *)
(** * Decl: functions and their declarations

    The data of [src/src/decl.h] the passes over the MIR and the function
    registry share.  A [const FuncDecl *] is a handle of the declarations'
    heap, a [Function *] a [FuncPtr]. *)

From S2P Require Import Prelude Types.

Inductive Linkage := LINKAGE_INTERNAL | LINKAGE_GAB | LINKAGE_C.

#[export] Instance Linkage_eq_dec : EqDecision Linkage.
Proof. solve_decision. Defined.

(** The bits of [FuncModifier]. *)
Definition FUNC_MOD_NONE : N := 0.
Definition FUNC_MOD_INTRINSIC : N := N.shiftl 1 0.
Definition FUNC_MOD_CALLER : N := N.shiftl 1 1.

Record FuncSignature := MkFuncSignature {
  return_type : TypePtr;
  sig_params : list TypePtr;
}.

Record InterfaceDecl := MkInterfaceDecl {
  iface_id : DeclId;
  iface_methods : list DeclPtr;
  iface_param_count : nat;
}.

Record InterfaceRef := MkInterfaceRef {
  ref_interface : DeclPtr;
  ref_args : list TypeArg;
}.

Inductive TypeParamBound :=
  | BOUND_NONE
  | BOUND_INTERFACE (interface : InterfaceRef)
  | BOUND_VALUE (value : TypePtr).

Record FuncDecl := MkFuncDecl {
  func_id : DeclId;
  func_interface : DeclPtr;
  linkage : Linkage;
  modifiers : N;
  location_type : TypePtr;
  func_signature : FuncSignature;
  type_param_count : nat;
  type_param_bounds : list TypeParamBound;
}.

Record Function := MkFunc {
  fn_decl : FuncDecl;
  fn_signature : FuncSignature;
  fn_type_args : list TypeArg;
  borrowed_params : N;
  borrowed_params_known : bool;
}.

Definition with_borrowed_params (f : Function) (bits : N) : Function :=
  MkFunc (fn_decl f) (fn_signature f) (fn_type_args f) bits true.

(** [modifiers & FUNC_MOD_...] *)
Definition has_modifier (decl : FuncDecl) (modifier : N) : bool := negb (N.land (modifiers decl) modifier =? 0)%N.

Definition function_lowers_no_body (function : Function) : bool :=
  negb (bool_decide (linkage (fn_decl function) = LINKAGE_INTERNAL)) ||
  has_modifier (fn_decl function) FUNC_MOD_INTRINSIC.

(** ** A declaration, for the witnesses *)

Definition sample_decl (ret : TypePtr) (ps : list TypePtr) : FuncDecl :=
  MkFuncDecl decl_id_zero None LINKAGE_INTERNAL FUNC_MOD_NONE None (MkFuncSignature ret ps) 0 [].

Definition sample_function (ret : TypePtr) (ps : list TypePtr) : Function :=
  MkFunc (sample_decl ret ps) (MkFuncSignature ret ps) [] 0 false.
