(* ===== verification/Borrowck.v ===== *)
(** * Borrowck: the borrow checker

    [src/src/mir/mir_borrowck.c]: a forward data-flow over the slot states of
    [SlotState.v] that runs the blocks of a function to a fixed point without
    reporting, then runs every reached block once more and reports.

    [MIRFlow] is split: what a run never changes ([funcs], the heap of
    functions; [ir]; [liveness]; [flow_return_type]) are variables of the
    section, what it changes is the record.  [wide_shift p] is what the target
    computes for [(uint32_t)1 << p] with [p >= 32], which C leaves undefined.

    [collect_sources] recurs from a value to the arguments of its definition,
    and does not come back from a value whose definition leads round to
    itself.  The model counts the length of the chain: [None] is a chain longer
    than the instructions there are, which is one that goes round
    ([collect_sources_settled] in BorrowckEnds.v).  [sources_ended] records
    that every call so far has come back; once it is false nothing the flow
    holds stands for what the code computes, and [mir_borrowck] answers
    [None]. *)

From S2P Require Import Prelude Types Mir Liveness SlotState Diagnostics Decl.

Record MIRFlow := MkFlow {
  flow_state : MIRState;
  flow_diagnostics : Diagnostics;
  reporting : bool;
  returned_params : N;
  sources_ended : bool;
}.

Definition with_state (flow : MIRFlow) (s : MIRState) : MIRFlow :=
  MkFlow s (flow_diagnostics flow) (reporting flow) (returned_params flow) (sources_ended flow).
Definition with_diagnostics (flow : MIRFlow) (d : Diagnostics) : MIRFlow :=
  MkFlow (flow_state flow) d (reporting flow) (returned_params flow) (sources_ended flow).
Definition with_returned (flow : MIRFlow) (r : N) : MIRFlow :=
  MkFlow (flow_state flow) (flow_diagnostics flow) (reporting flow) r (sources_ended flow).
Definition sources_lost (flow : MIRFlow) : MIRFlow :=
  MkFlow (flow_state flow) (flow_diagnostics flow) (reporting flow) (returned_params flow) false.

(** [mir_state_get(flow->state, value)] and [mir_state_set(flow->state, ..)] *)
Definition flow_get (flow : MIRFlow) (value : MIRValueId) : MIRSlot := mir_state_get (flow_state flow) value.
Definition flow_set (flow : MIRFlow) (value : MIRValueId) (slot : MIRSlot) : MIRFlow :=
  with_state flow (mir_state_set (flow_state flow) value slot).

Definition msg_moved : string := "this was moved out of and no longer holds a value".
Definition msg_freed : string := "this names memory that has been freed".
Definition msg_unset : string := "this is read before it is given a value".
Definition msg_stored : string := "this borrow outlives what it names, so it cannot be stored here".
Definition msg_returned : string := "this borrow outlives what it names, so it cannot be returned".

Definition report (flow : MIRFlow) (span : Span) (message : string) : MIRFlow :=
  if negb (reporting flow) then flow
  else with_diagnostics flow (diag_error (flow_diagnostics flow) GAB_ERR_LIFETIME span message).

Definition call_result_may_name (callee : option Function) (index : nat) : bool :=
  match callee with
  | None => true
  | Some callee =>
      if negb (borrowed_params_known callee) then true
      else bool_decide (32 <= index) || negb (N.land (borrowed_params callee) (N.shiftl 1 (N.of_nat index)) =? 0)%N
  end.

Definition root_of (place : Place) : MIRValueId := base place.

(** [projection.field.id] of a field projection. *)
Definition proj_field (p : Projection) : MIRFieldId :=
  match proj_kind p with PROJ_FIELD f => f | _ => 0%N end.
Definition proj_is_field (p : Projection) : bool := match proj_kind p with PROJ_FIELD _ => true | _ => false end.

(** The walk of [slot_of] down the leading fields of a path. *)
Fixpoint slot_walk (slot : MIRSlot) (path : list Projection) : option MIRSlot :=
  match path with
  | [] => Some slot
  | p :: path =>
      match proj_kind p with
      | PROJ_FIELD f =>
          if (N.of_nat (field_count slot) <=? f)%N then None
          else field ← slot_fields slot !! N.to_nat f; slot_walk field path
      | _ => Some slot
      end
  end.

Definition slot_of (state : MIRState) (place : Place) : option MIRSlot :=
  if mir_value_is_none (root_of place) then None
  else slot_walk (mir_state_get state (root_of place)) (projections place).

(** The slot with the one [path] leads to replaced by [stored]. *)
Fixpoint store_at (at_ : MIRSlot) (path : list Projection) (stored : MIRSlot) : option MIRSlot :=
  match path with
  | [] => Some stored
  | p :: path =>
      match proj_kind p with
      | PROJ_FIELD f =>
          if (N.of_nat (field_count at_) <=? f)%N then None
          else
            field ← slot_fields at_ !! N.to_nat f;
            field' ← store_at field path stored;
            Some (set_fields at_ (<[N.to_nat f := field']> (slot_fields at_)))
      | _ => None
      end
  end.

Definition store_into (state : MIRState) (place : Place) (depth : nat) (stored : MIRSlot) : option MIRState :=
  if mir_value_is_none (root_of place) then None
  else
    slot ← store_at (mir_state_get state (root_of place)) (take depth (projections place)) stored;
    Some (mir_state_set state (root_of place) slot).

Fixpoint leading_fields (l : list Projection) : nat :=
  match l with
  | p :: l => if proj_is_field p then S (leading_fields l) else 0
  | [] => 0
  end.

Definition tracked_depth (place : Place) : nat := leading_fields (projections place).

Definition reaches_past_its_root (place : Place) : bool :=
  existsb (fun p => bool_decide (proj_kind p = PROJ_DEREF)) (projections place).

(** Opens the slot of every field of a path. *)
Fixpoint open_path (at_ : MIRSlot) (path : list Projection) : MIRSlot :=
  match path with
  | [] => at_
  | p :: path =>
      let at_ := mir_slot_open_fields at_ (N.to_nat (proj_field p) + 1) in
      set_fields at_ (alter (fun field => open_path field path) (N.to_nat (proj_field p)) (slot_fields at_))
  end.

Section borrowck.
Context `{TV : TypeView}.
Variables (funcs : gmap nat Function) (ir : MIRFunction) (liveness : Liveness).
Variables (flow_return_type : TypePtr) (wide_shift : nat -> N).

Definition binding_of (value : MIRValueId) : SymbolPtr :=
  match mir_value_info ir value with Some info => value_binding info | None => None end.

Definition type_of (value : MIRValueId) : TypePtr :=
  match mir_value_info ir value with Some info => value_type info | None => None end.

Definition borrows_memory (type : TypePtr) : bool :=
  match type with None => false | Some _ => tv_borrows type end.

(** [type && type_registry_is_unique(flow->registry, type)] *)
Definition is_unique_type (type : TypePtr) : bool :=
  match type with None => false | Some _ => tv_is_unique type end.

Definition is_parameter (value : MIRValueId) : bool := existsb (fun p => p =? value)%N (params ir).

Definition holds_its_own_object (value : MIRValueId) : bool := is_unique_type (type_of value).

Definition definition_of (value : MIRValueId) : option MIRInst :=
  if mir_value_is_none value then None
  else
    find (fun inst => negb (mir_value_is_none (result inst)) && (result inst =? value)%N)
      (flat_map insts (blocks ir)).

(** [flow->callee] through the heap. *)
Definition callee_of (inst : MIRInst) : option Function := inst_callee inst ≫= (fun f => funcs !! f).

(** *** The sources of a value

    [collect_sources] follows the arguments of a value's definition; [fuel]
    bounds the length of that chain, and [None] is a chain that is longer. *)

Definition collect_place_sources (state : MIRState) (place : Place) (into : MIRSlot) : MIRSlot :=
  let root := root_of place in
  if mir_value_is_none root then into
  else
    let moved := bool_decide (slot_init (mir_state_get state root) = MIR_SLOT_MOVED) in
    if holds_its_own_object root && negb moved then mir_slot_add_borrow into root
    else
      let named := default (mir_state_get state root) (slot_of state place) in
      let flat := mir_slot_flattened named in
      let into := add_borrows into (slot_borrows flat) in
      if bool_decide (slot_borrows flat = []) && negb (bool_decide (slot_init flat = MIR_SLOT_MOVED))
      then mir_slot_add_borrow into root else into.

(** The arguments of a call its result may name. *)
Definition named_args (callee : option Function) (l : list MIROperand) : list MIROperand :=
  omap (fun '(i, arg) => if call_result_may_name callee i then Some arg else None) (imap pair l).

(** The arguments whose sources are the sources of the result. *)
Definition source_args (inst : MIRInst) : list MIROperand :=
  match op inst with
  | MIR_COPY | MIR_MAKE_SLICE => args inst
  | MIR_CALL => named_args (callee_of inst) (args inst)
  | _ => if negb (borrows_memory (inst_type inst)) then [] else args inst
  end.

Definition collect_undefined (state : MIRState) (value : MIRValueId) (into : MIRSlot) : MIRSlot :=
  let flat := mir_slot_flattened (mir_state_get state value) in
  let into := add_borrows into (slot_borrows flat) in
  if bool_decide (0 < length (slot_borrows flat)) then into
  else if borrows_memory (type_of value) || holds_its_own_object value
  then mir_slot_add_borrow into value else into.

Fixpoint collect_sources (fuel : nat) (state : MIRState) (value : MIRValueId) (into : MIRSlot) : option MIRSlot :=
  match fuel with
  | O => None
  | S fuel =>
      match definition_of value with
      | None => Some (collect_undefined state value into)
      | Some inst =>
          match op inst with
          | MIR_LOAD | MIR_REF => Some (collect_place_sources state (inst_place inst) into)
          | _ =>
              foldl (fun into arg => into ← into; collect_sources fuel state (mir_operand_as_value arg) into)
                (Some into) (source_args inst)
          end
      end
  end.

(** A chain of definitions longer than this meets an instruction twice. *)
Definition sources_fuel : nat := S (length (flat_map insts (blocks ir))).

(** A call of [collect_sources] from the flow, with the slot it filled. *)
Definition collect (flow : MIRFlow) (value : MIRValueId) (into : MIRSlot) : MIRFlow * MIRSlot :=
  match collect_sources sources_fuel (flow_state flow) value into with
  | Some slot => (flow, slot)
  | None => (sources_lost flow, into)
  end.

Definition live_where_storage_ends (source held_in : MIRValueId) (field : MIRFieldId) : bool :=
  existsb (fun b =>
    existsb (fun '(j, inst) =>
      if negb (bool_decide (op inst = MIR_STORAGE_DEAD)) && negb (bool_decide (op inst = MIR_DROP)) then false
      else if negb (base (inst_place inst) =? source)%N then false
      else mir_live_after liveness (block_id b) j held_in field)
    (imap pair (insts b))) (blocks ir).

Definition outlives_its_source (flow : MIRFlow) (borrow held_in : MIRValueId) (held_in_field : bool)
    (field : MIRFieldId) : MIRFlow * bool :=
  let '(flow, sources) := collect flow borrow (slot_leaf MIR_SLOT_UNREACHED) in
  (flow,
   existsb (fun source =>
     if is_parameter source then false
     else if is_unique_type (type_of source) then false
     else if mir_value_is_none held_in then true
     else live_where_storage_ends source held_in (if held_in_field then field else MIR_WHOLE_VALUE))
   (slot_borrows sources)).

(** [if (outlives_its_source(..)) { report(..); }] *)
Definition report_outlives (flow : MIRFlow) (span : Span) (message : string) (borrow held_in : MIRValueId)
    (held_in_field : bool) (field : MIRFieldId) : MIRFlow :=
  let '(flow, outlives) := outlives_its_source flow borrow held_in held_in_field field in
  if outlives then report flow span message else flow.

Definition state_of (state : MIRState) (place : Place) : MIRSlotInit :=
  let named := default (mir_state_get state (root_of place)) (slot_of state place) in
  if bool_decide (slot_init named = MIR_SLOT_INIT) then slot_init (mir_slot_flattened named) else slot_init named.

Definition check_readable (flow : MIRFlow) (place : Place) (span : Span) : MIRFlow :=
  if mir_value_is_none (root_of place) then flow
  else
    match state_of (flow_state flow) place with
    | MIR_SLOT_MOVED => report flow span msg_moved
    | MIR_SLOT_DANGLING => report flow span msg_freed
    | MIR_SLOT_UNINIT => if tv_is_indirect (type_of (root_of place)) then report flow span msg_unset else flow
    | _ => flow
    end.

(** *** One instruction *)

Definition invalidate (flow : MIRFlow) (dropped : MIRValueId) : MIRFlow :=
  with_state flow (mir_state_invalidate_borrows_of (flow_state flow) dropped).

Definition flow_storage_dead (flow : MIRFlow) (inst : MIRInst) : MIRFlow :=
  flow_set (invalidate flow (root_of (inst_place inst))) (root_of (inst_place inst)) (slot_leaf MIR_SLOT_UNINIT).

Definition flow_drop (flow : MIRFlow) (inst : MIRInst) : MIRFlow :=
  foldl (fun flow arg => invalidate flow (mir_operand_as_value arg))
    (invalidate flow (root_of (inst_place inst))) (args inst).

(** [MIR_REF], and [MIR_LOAD] up to the move. *)
Definition flow_take (flow : MIRFlow) (inst : MIRInst) : MIRFlow :=
  let flow := check_readable flow (inst_place inst) (inst_span inst) in
  flow_set flow (result inst)
    (collect_place_sources (flow_state flow) (inst_place inst) (slot_leaf MIR_SLOT_INIT)).

Definition flow_load (flow : MIRFlow) (inst : MIRInst) : MIRFlow :=
  let flow := flow_take flow inst in
  if negb (bool_decide (inst_read inst = READ_MOVE)) then flow
  else
    let root := root_of (inst_place inst) in
    flow_set flow root (mir_slot_set_all (flow_get flow root) MIR_SLOT_MOVED).

Definition flow_store (flow : MIRFlow) (inst : MIRInst) : MIRFlow :=
  match args inst with
  | [] => flow
  | arg :: _ =>
      let place := inst_place inst in
      let root := root_of place in
      let value := mir_operand_as_value arg in
      if mir_value_is_none root then flow
      else
        let depth := tracked_depth place in
        if reaches_past_its_root place then
          if borrows_memory (type_of value)
          then report_outlives flow (inst_span inst) msg_stored value MIR_NO_VALUE false MIR_WHOLE_VALUE
          else flow
        else
          let '(flow, stored) := collect flow value (slot_leaf MIR_SLOT_INIT) in
          let flow :=
            if bool_decide (depth = 0) && is_unique_type (type_of root) then invalidate flow root else flow in
          let flow :=
            if bool_decide (0 < depth) then
              flow_set flow root
                (open_path (set_init (flow_get flow root) MIR_SLOT_INIT) (take depth (projections place)))
            else flow in
          let flow :=
            match store_into (flow_state flow) place depth stored with
            | Some state => with_state flow state
            | None =>
                let '(flow, slot) := collect flow value (set_init (flow_get flow root) MIR_SLOT_INIT) in
                flow_set flow root slot
            end in
          let field := match projections place with p :: _ => proj_field p | [] => MIR_WHOLE_VALUE end in
          if borrows_memory (type_of value)
          then report_outlives flow (inst_span inst) msg_stored value root (bool_decide (0 < depth))
                 (if bool_decide (0 < depth) then field else MIR_WHOLE_VALUE)
          else flow
  end.

(** The loop over the arguments of a call. *)
Definition check_argument (span : Span) (flow : MIRFlow) (arg : MIROperand) : MIRFlow :=
  let named := flow_get flow (mir_operand_as_value arg) in
  if bool_decide (slot_init named = MIR_SLOT_UNREACHED) then flow
  else
    match slot_init (mir_slot_flattened named) with
    | MIR_SLOT_DANGLING => report flow span msg_freed
    | MIR_SLOT_MOVED => report flow span msg_moved
    | _ => flow
    end.

Definition flow_call (flow : MIRFlow) (inst : MIRInst) : MIRFlow :=
  let flow := foldl (check_argument (inst_span inst)) flow (args inst) in
  let '(flow, slot) := collect flow (result inst) (slot_leaf MIR_SLOT_INIT) in
  flow_set flow (result inst) slot.

(** [(uint32_t)1 << p] *)
Definition param_bit (p : nat) : N :=
  if bool_decide (p < 32) then N.shiftl 1 (N.of_nat p) else wide_shift p.

(** The bits of the parameters a borrow is one of. *)
Definition mark_params (bits : N) (borrow : MIRValueId) : N :=
  foldl (fun bits '(p, param) => if (param =? borrow)%N then N.lor bits (param_bit p) else bits)
    bits (imap pair (params ir)).

Definition flow_return (flow : MIRFlow) (inst : MIRInst) : MIRFlow :=
  match args inst with
  | [] => flow
  | arg :: _ =>
      if negb (borrows_memory flow_return_type) then flow
      else
        let value := mir_operand_as_value arg in
        let '(flow, reached) := collect flow value (slot_leaf MIR_SLOT_UNREACHED) in
        let flow := with_returned flow (foldl mark_params (returned_params flow) (slot_borrows reached)) in
        let returned := flow_get flow value in
        if negb (bool_decide (slot_init returned = MIR_SLOT_UNREACHED)) &&
           bool_decide (slot_init (mir_slot_flattened returned) = MIR_SLOT_DANGLING)
        then report flow (inst_span inst) msg_freed
        else report_outlives flow (inst_span inst) msg_returned value MIR_NO_VALUE false MIR_WHOLE_VALUE
  end.

Definition flow_inst (flow : MIRFlow) (inst : MIRInst) : MIRFlow :=
  let root := root_of (inst_place inst) in
  match op inst with
  | MIR_STORAGE_LIVE => flow_set flow root (slot_leaf MIR_SLOT_UNINIT)
  | MIR_STORAGE_INIT => flow_set flow root (set_init (flow_get flow root) MIR_SLOT_INIT)
  | MIR_STORAGE_DEAD => flow_storage_dead flow inst
  | MIR_DROP => flow_drop flow inst
  | MIR_LOAD => flow_load flow inst
  | MIR_REF => flow_take flow inst
  | MIR_STORE => flow_store flow inst
  | MIR_CALL | MIR_MAKE_SLICE | MIR_COPY => flow_call flow inst
  | MIR_RETURN => flow_return flow inst
  | _ => flow
  end.

(** [flow->block] and [flow->index] are written and never read. *)
Definition flow_block (flow : MIRFlow) (block : MIRBlock) : MIRFlow := foldl flow_inst flow (insts block).

(** *** The fixed point *)

(** The exit of a block joined into one successor. *)
Definition merge_into (exit : MIRState) (acc : bool * list MIRState) (successor : MIRBlockId)
  : bool * list MIRState :=
  let '(changed, entries) := acc in
  match entries !! N.to_nat successor with
  | None => (changed, entries)
  | Some target =>
      let merged := mir_state_merge (mir_state_copy target) exit in
      if negb (mir_state_equals merged target)
      then (true, <[N.to_nat successor := mir_state_copy merged]> entries)
      else (changed, entries)
  end.

(** The silent run of a block from its entry; the flow carries what the passes
    accumulate. *)
Definition flow_step (acc : bool * (list MIRState * MIRFlow)) (i : nat) : bool * (list MIRState * MIRFlow) :=
  let '(changed, (entries, flow)) := acc in
  match entries !! i, blocks ir !! i with
  | Some entry, Some block =>
      if unreachable entry then (changed, (entries, flow))
      else
        let flow := flow_block (with_state flow (mir_state_copy entry)) block in
        let '(changed, entries) :=
          foldl (merge_into (flow_state flow)) (changed, entries) (mir_block_successors block) in
        (changed, (entries, flow))
  | _, _ => (changed, (entries, flow))
  end.

Definition flow_turn (a : list MIRState * MIRFlow) : bool * (list MIRState * MIRFlow) :=
  foldl flow_step (false, a) (seq 0 (block_count ir)).

(** The last run, which reports. *)
Definition flow_report (entries : list MIRState) (flow : MIRFlow) : MIRFlow :=
  foldl (fun flow '(entry, block) =>
    if unreachable entry then flow else flow_block (with_state flow (mir_state_copy entry)) block)
  flow (zip entries (blocks ir)).

(** A parameter holds a value, and may borrow from what the caller passed. *)
Definition param_slot (param : MIRValueId) : MIRSlot :=
  match mir_value_info ir param with
  | Some info =>
      if borrows_memory (value_type info) then mir_slot_add_borrow (slot_leaf MIR_SLOT_INIT) param
      else slot_leaf MIR_SLOT_INIT
  | None => slot_leaf MIR_SLOT_INIT
  end.

Definition initial_entries : list MIRState :=
  let unreached := replicate (block_count ir) (MkState ∅ true) in
  let start := foldl (fun s p => mir_state_set s p (param_slot p)) (MkState ∅ false) (params ir) in
  <[N.to_nat (entry ir) := start]> unreached.

Definition initial_flow (diagnostics : Diagnostics) : MIRFlow := MkFlow mir_state_init diagnostics false 0 true.
End borrowck.

(** The diagnostics with the function's record; [None] is a loop that did not
    end within [fuel] turns, liveness that did not, or a call of
    [collect_sources] that does not come back. *)
Definition mir_borrowck `{TV : TypeView} (funcs : gmap nat Function) (wide_shift : nat -> N) (fuel : nat)
    (ir : MIRFunction) (diagnostics : Diagnostics) (function : option Function) (report_diagnostics : bool)
  : option (Diagnostics * option Function) :=
  if bool_decide (block_count ir = 0) then Some (diagnostics, function)
  else
    liveness ← mir_liveness_compute ir;
    let return_type := match function with Some f => return_type (fn_signature f) | None => None end in
    '(entries, flow) ← while_changed fuel (flow_turn funcs ir liveness return_type wide_shift)
                         (initial_entries ir, initial_flow diagnostics);
    let flow :=
      MkFlow (flow_state flow) (flow_diagnostics flow) report_diagnostics (returned_params flow)
        (sources_ended flow) in
    let flow := flow_report funcs ir liveness return_type wide_shift entries flow in
    let function :=
      if negb report_diagnostics then (fun f => with_borrowed_params f (returned_params flow)) <$> function
      else function in
    if sources_ended flow then Some (flow_diagnostics flow, function) else None.

(** ** Reading and writing the state *)

Lemma state_get_set s v v' slot :
  mir_state_get (mir_state_set s v slot) v' = if bool_decide (v' = v) then slot else mir_state_get s v'.
Proof.
  unfold mir_state_get, mir_state_set. cbn [slots]. case_bool_decide as Hv.
  - subst. by rewrite lookup_insert_eq.
  - by rewrite lookup_insert_ne by congruence.
Qed.

Lemma flow_get_set flow v v' slot :
  flow_get (flow_set flow v slot) v' = if bool_decide (v' = v) then slot else flow_get flow v'.
Proof. apply state_get_set. Qed.

Lemma flow_get_set_ne flow v v' slot : v' <> v -> flow_get (flow_set flow v slot) v' = flow_get flow v'.
Proof. intros. by rewrite flow_get_set, bool_decide_eq_false_2. Qed.

Lemma flow_get_report flow span m v : flow_get (report flow span m) v = flow_get flow v.
Proof. unfold report. by destruct (negb _). Qed.

Lemma flow_get_invalidate flow d v :
  flow_get (invalidate flow d) v = slot_invalidate_borrows_of (flow_get flow v) d.
Proof. apply state_get_invalidate. Qed.

Lemma with_state_report flow span m :
  flow_state (report flow span m) = flow_state flow.
Proof. unfold report. by destruct (negb _). Qed.

(** Every slot of the tree is [i]. *)
#[warnings="-register-all"]
Inductive slot_all (i : MIRSlotInit) : MIRSlot -> Prop :=
  slot_all_intro b f : Forall (slot_all i) f -> slot_all i (MkSlot i b f).

Lemma slot_all_init i s : slot_all i s -> slot_init s = i.
Proof. by destruct 1. Qed.

Lemma set_all_all s i : slot_all i (mir_slot_set_all s i).
Proof.
  induction s as [k b f IH] using slot_ind'. cbn. constructor. by apply Forall_fmap.
Qed.

Lemma invalidate_all i d s :
  i <> MIR_SLOT_INIT -> slot_all i s -> slot_all i (slot_invalidate_borrows_of s d).
Proof.
  intros Hi. induction s as [k b f IH] using slot_ind'. inversion 1 as [? ? Hf]; subst.
  rewrite invalidate_eq, bool_decide_eq_false_2 by done. cbn [andb]. constructor. apply Forall_fmap.
  rewrite Forall_forall in *. intros s Hs. cbn. auto.
Qed.

Lemma slot_walk_all i path : forall s s', slot_all i s -> slot_walk s path = Some s' -> slot_all i s'.
Proof.
  induction path as [|p path IH]; intros s s' Hs; cbn [slot_walk]; [by intros [= <-]|].
  destruct (proj_kind p); [|by intros [= <-]..].
  destruct (_ <=? _)%N; [done|]. destruct (slot_fields s !! N.to_nat field) as [t|] eqn:Ht; cbn; [|done].
  apply IH. destruct Hs as [b f Hf]. cbn in Ht. by eapply Forall_lookup_1.
Qed.

Lemma invalidate_slot_dangles d s : slot_dangles s -> slot_dangles (slot_invalidate_borrows_of s d).
Proof.
  induction 1 as [b f|b f s Hs _ IH]; rewrite invalidate_eq.
  - cbn [andb]. rewrite bool_decide_eq_false_2 by done. constructor.
  - destruct (_ && _); [constructor|]. econstructor; [|exact IH]. apply list_elem_of_fmap. eauto.
Qed.

(** The two ways of an [if] that reports. *)
Ltac destruct_report :=
  match goal with |- context [if ?b then report _ _ _ else _] => destruct b end.

Section flow_lemmas.
Context `{TV : TypeView}.
Context (funcs : gmap nat Function) (ir : MIRFunction) (liveness : Liveness) (rt : TypePtr) (wide_shift : nat -> N).

#[local] Abbreviation step := (flow_inst funcs ir liveness rt wide_shift).
#[local] Abbreviation run := (foldl (flow_inst funcs ir liveness rt wide_shift)).

(** *** Diagnostics and returned parameters only grow, [reporting] stays, and
    what is lost stays lost *)

Definition extends (flow flow' : MIRFlow) : Prop :=
  reporting flow' = reporting flow /\
  (forall k, N.testbit (returned_params flow) k = true -> N.testbit (returned_params flow') k = true) /\
  diag_items (flow_diagnostics flow) `prefix_of` diag_items (flow_diagnostics flow') /\
  (sources_ended flow' = true -> sources_ended flow = true).

#[local] Instance extends_preorder : PreOrder extends.
Proof.
  split; [by intros|]. intros a b c (H & Hr & H' & He) (K & Kr & K' & Ke). split; [congruence|]. split; [auto|].
  split; [by etrans|auto].
Qed.

Lemma extends_report flow span m : extends flow (report flow span m).
Proof.
  unfold report. destruct (reporting flow) eqn:H; cbn [negb]; [|done].
  split; [done|]. split; [done|]. split; [by eexists|done].
Qed.
Lemma mark_params_mono bits borrow k :
  N.testbit bits k = true -> N.testbit (mark_params ir wide_shift bits borrow) k = true.
Proof.
  intros Hk. unfold mark_params. revert bits Hk. induction (imap pair (params ir)) as [|[p param] l IH]; intros bits Hk;
    [done|]. cbn. apply IH. destruct (_ =? _)%N; [|done]. by rewrite N.lor_spec, Hk.
Qed.

Lemma foldl_mark_params_mono l : forall bits k,
  N.testbit bits k = true -> N.testbit (foldl (mark_params ir wide_shift) bits l) k = true.
Proof. induction l as [|b l IH]; intros bits k Hk; [done|]. cbn. by apply IH, mark_params_mono. Qed.

Lemma extends_returned flow l :
  extends flow (with_returned flow (foldl (mark_params ir wide_shift) (returned_params flow) l)).
Proof. split; [done|]. split; [|done]. apply foldl_mark_params_mono. Qed.

(** What a call of [collect_sources] does to the flow. *)
Lemma collect_spec flow v into flow' slot :
  collect funcs ir flow v into = (flow', slot) ->
  flow_state flow' = flow_state flow /\ returned_params flow' = returned_params flow /\ extends flow flow' /\
  (sources_ended flow' = true -> collect_sources funcs ir (sources_fuel ir) (flow_state flow) v into = Some slot).
Proof. unfold collect. destruct (collect_sources _ _ _ _ _ _); by intros [= <- <-]. Qed.

Lemma report_outlives_spec flow span m v held_in b field :
  let flow' := report_outlives funcs ir liveness flow span m v held_in b field in
  flow_state flow' = flow_state flow /\ extends flow flow'.
Proof.
  unfold report_outlives, outlives_its_source. destruct (collect _ _ _ _ _) as [flow1 slot] eqn:Hc.
  apply collect_spec in Hc as (Hs & _ & He & _). destruct (existsb _ _); [|done].
  split; [by rewrite with_state_report|]. etrans; [exact He|apply extends_report].
Qed.

Lemma extends_set flow v s : extends flow (flow_set flow v s).
Proof. done. Qed.
Lemma extends_invalidate flow d : extends flow (invalidate flow d).
Proof. done. Qed.
Lemma extends_foldl {A} (f : MIRFlow -> A -> MIRFlow) l :
  (forall flow a, extends flow (f flow a)) -> forall flow, extends flow (foldl f flow l).
Proof. intros Hf. induction l as [|a l IH]; intros flow; [done|]. cbn. etrans; [apply Hf|apply IH]. Qed.

Lemma extends_check_readable flow place span : extends flow (check_readable ir flow place span).
Proof.
  unfold check_readable. destruct (mir_value_is_none _); [done|].
  destruct (state_of _ _); try done; try apply extends_report. destruct (tv_is_indirect _); [apply extends_report|done].
Qed.

Lemma extends_take flow inst : extends flow (flow_take ir flow inst).
Proof. unfold flow_take. etrans; [apply extends_check_readable|apply extends_set]. Qed.

Lemma extends_check_argument span flow arg : extends flow (check_argument span flow arg).
Proof.
  unfold check_argument. destruct (bool_decide _); [done|]. destruct (slot_init _); done || apply extends_report.
Qed.

Lemma extends_collected flow v into : extends flow (collect funcs ir flow v into).1.
Proof. destruct (collect _ _ _ _ _) as [flow1 slot] eqn:Hc. by apply collect_spec in Hc as (_ & _ & H & _). Qed.

(** A store goes on from the flow that collected its value's sources. *)
Lemma extends_stored flow inst arg rest :
  args inst = arg :: rest -> mir_value_is_none (root_of (inst_place inst)) = false ->
  reaches_past_its_root (inst_place inst) = false ->
  extends (collect funcs ir flow (mir_operand_as_value arg) (slot_leaf MIR_SLOT_INIT)).1
    (flow_store funcs ir liveness flow inst).
Proof.
  intros Ha Hn Hp. unfold flow_store. rewrite Ha. cbv beta zeta. rewrite Hn, Hp.
  destruct (collect _ _ _ _ _) as [flow1 stored]. cbn [fst].
  set (flow2 := if _ && _ then invalidate flow1 _ else flow1).
  assert (H2 : extends flow1 flow2) by (unfold flow2; by destruct (_ && _)). clearbody flow2.
  set (flow3 := if bool_decide (0 < _) then _ else flow2).
  assert (H3 : extends flow1 flow3) by (unfold flow3; by destruct (bool_decide _)). clearbody flow3.
  set (flow4 := match store_into _ _ _ _ with Some _ => _ | None => _ end).
  assert (H4 : extends flow1 flow4).
  { unfold flow4. destruct (store_into _ _ _ _); [exact H3|].
    destruct (collect _ _ _ _ _) as [flow5 slot] eqn:Hc. apply collect_spec in Hc as (_ & _ & H5 & _).
    etrans; [exact H3|]. etrans; [exact H5|apply extends_set]. }
  clearbody flow4. destruct (borrows_memory _); [|done]. etrans; [exact H4|apply report_outlives_spec].
Qed.

Lemma extends_store flow inst : extends flow (flow_store funcs ir liveness flow inst).
Proof.
  destruct (args inst) as [|arg rest] eqn:Ha; [by unfold flow_store; rewrite Ha|].
  destruct (mir_value_is_none (root_of (inst_place inst))) eqn:Hn;
    [unfold flow_store; rewrite Ha; cbv beta zeta; by rewrite Hn|].
  destruct (reaches_past_its_root (inst_place inst)) eqn:Hp; [|etrans; [apply extends_collected|by eapply extends_stored]].
  unfold flow_store. rewrite Ha. cbv beta zeta. rewrite Hn, Hp.
  destruct (borrows_memory _); [apply report_outlives_spec|done].
Qed.

Lemma extends_call flow inst : extends flow (flow_call funcs ir flow inst).
Proof.
  unfold flow_call. destruct (collect _ _ _ _ _) as [flow1 slot] eqn:Hc. apply collect_spec in Hc as (_ & _ & H1 & _).
  etrans; [apply (extends_foldl (check_argument (inst_span inst))), extends_check_argument|]. etrans; [exact H1|apply extends_set].
Qed.

Lemma extends_return flow inst arg rest :
  args inst = arg :: rest -> borrows_memory rt = true ->
  extends (collect funcs ir flow (mir_operand_as_value arg) (slot_leaf MIR_SLOT_UNREACHED)).1
    (flow_return funcs ir liveness rt wide_shift flow inst).
Proof.
  intros Ha Hb. unfold flow_return. rewrite Ha, Hb. cbn [negb]. destruct (collect _ _ _ _ _) as [flow1 slot]. cbn [fst].
  destruct (_ && _); (etrans; [apply extends_returned|]); [apply extends_report|apply report_outlives_spec].
Qed.

Lemma flow_inst_extends flow inst : extends flow (step flow inst).
Proof.
  unfold flow_inst. destruct (op inst); try done.
  - unfold flow_load. destruct (negb _); [apply extends_take|]. etrans; [apply extends_take|apply extends_set].
  - apply extends_store.
  - apply extends_take.
  - apply extends_call.
  - apply extends_call.
  - apply extends_call.
  - unfold flow_drop. etrans; [apply extends_invalidate|]. apply extends_foldl. intros. apply extends_invalidate.
  - destruct (args inst) as [|arg rest] eqn:Ha; [by unfold flow_return; rewrite Ha|].
    destruct (borrows_memory rt) eqn:Hb; [|unfold flow_return; by rewrite Ha, Hb].
    etrans; [apply extends_collected|by eapply extends_return].
Qed.

Lemma run_extends l flow : extends flow (run flow l).
Proof. apply extends_foldl, flow_inst_extends. Qed.

(** *** What one instruction may do to a slot *)

(** The instruction gives the slot of [v] a new content, or moves it away. *)
Definition writes_slot (v : MIRValueId) (inst : MIRInst) : bool :=
  let at_root := (root_of (inst_place inst) =? v)%N in
  match op inst with
  | MIR_STORAGE_LIVE | MIR_STORAGE_INIT | MIR_STORAGE_DEAD => at_root
  | MIR_STORE => at_root && negb (reaches_past_its_root (inst_place inst))
  | MIR_LOAD => (result inst =? v)%N || (bool_decide (inst_read inst = READ_MOVE) && at_root)
  | MIR_REF | MIR_CALL | MIR_MAKE_SLICE | MIR_COPY => (result inst =? v)%N
  | _ => false
  end.

(** The slot went through invalidations and nothing else. *)
Definition invalidated (s s' : MIRSlot) : Prop := exists ds, s' = foldl slot_invalidate_borrows_of s ds.

#[local] Instance invalidated_preorder : PreOrder invalidated.
Proof.
  split; [by exists []|]. intros a b c [ds ->] [ds' ->]. exists (ds ++ ds'). by rewrite foldl_app.
Qed.

Lemma invalidated_once s d : invalidated s (slot_invalidate_borrows_of s d).
Proof. by exists [d]. Qed.

Lemma invalidated_all i s s' : i <> MIR_SLOT_INIT -> invalidated s s' -> slot_all i s -> slot_all i s'.
Proof.
  intros Hi [ds ->]. revert s. induction ds as [|d ds IH]; intros s Hs; [done|]. cbn. apply IH. by apply invalidate_all.
Qed.

Lemma invalidated_dangles s s' : invalidated s s' -> slot_dangles s -> slot_dangles s'.
Proof.
  intros [ds ->]. revert s. induction ds as [|d ds IH]; intros s Hs; [done|]. cbn. apply IH. by apply invalidate_slot_dangles.
Qed.

Lemma flow_get_check_readable flow place span v : flow_get (check_readable ir flow place span) v = flow_get flow v.
Proof.
  unfold check_readable. destruct (mir_value_is_none _); [done|].
  destruct (state_of _ _); rewrite ?flow_get_report; try done. destruct (tv_is_indirect _); by rewrite ?flow_get_report.
Qed.

Lemma flow_get_check_argument span flow arg v : flow_get (check_argument span flow arg) v = flow_get flow v.
Proof.
  unfold check_argument. destruct (bool_decide _); [done|]. destruct (slot_init _); by rewrite ?flow_get_report.
Qed.

Lemma flow_get_check_arguments span l : forall flow v,
  flow_get (foldl (check_argument span) flow l) v = flow_get flow v.
Proof.
  induction l as [|arg l IH]; intros flow v; [done|]. cbn. by rewrite IH, flow_get_check_argument.
Qed.

Lemma flow_get_take_ne flow inst v : result inst <> v -> flow_get (flow_take ir flow inst) v = flow_get flow v.
Proof. intros. unfold flow_take. by rewrite flow_get_set_ne, flow_get_check_readable. Qed.

(** The state is all [flow_get] reads. *)
Lemma flow_get_state flow flow' v : flow_state flow' = flow_state flow -> flow_get flow' v = flow_get flow v.
Proof. unfold flow_get. by intros ->. Qed.

Lemma flow_get_report_outlives flow span m v held_in b field w :
  flow_get (report_outlives funcs ir liveness flow span m v held_in b field) w = flow_get flow w.
Proof. apply flow_get_state, report_outlives_spec. Qed.

Lemma flow_get_call_ne flow inst v : result inst <> v -> flow_get (flow_call funcs ir flow inst) v = flow_get flow v.
Proof.
  intros. unfold flow_call. destruct (collect _ _ _ _ _) as [flow1 slot] eqn:Hc. apply collect_spec in Hc as (Hs & _).
  rewrite flow_get_set_ne, (flow_get_state _ _ _ Hs) by done. apply flow_get_check_arguments.
Qed.

Lemma invalidated_invalidate flow d v : invalidated (flow_get flow v) (flow_get (invalidate flow d) v).
Proof. rewrite flow_get_invalidate. apply invalidated_once. Qed.

Lemma invalidated_drop flow inst v : invalidated (flow_get flow v) (flow_get (flow_drop flow inst) v).
Proof.
  unfold flow_drop. etrans; [apply (invalidated_invalidate _ (root_of (inst_place inst)))|].
  generalize (invalidate flow (root_of (inst_place inst))) as fl. induction (args inst) as [|arg l IH]; intros fl; [cbn; reflexivity|].
  cbn. etrans; [apply (invalidated_invalidate _ (mir_operand_as_value arg))|apply IH].
Qed.

Lemma flow_get_store_into state place depth stored state' v :
  store_into state place depth stored = Some state' -> root_of place <> v ->
  mir_state_get state' v = mir_state_get state v.
Proof.
  unfold store_into. destruct (mir_value_is_none _); [done|]. intros (slot & _ & [= <-])%bind_Some Hv.
  by rewrite state_get_set, bool_decide_eq_false_2.
Qed.

Lemma invalidated_store flow inst v :
  root_of (inst_place inst) <> v \/ reaches_past_its_root (inst_place inst) = true ->
  invalidated (flow_get flow v) (flow_get (flow_store funcs ir liveness flow inst) v).
Proof.
  intros Hv. unfold flow_store. destruct (args inst) as [|arg ?]; [done|]. destruct (mir_value_is_none _); [done|].
  destruct (reaches_past_its_root _).
  { destruct (borrows_memory _); [|done]. by rewrite flow_get_report_outlives. }
  destruct Hv as [Hv|]; [|done].
  set (root := root_of (inst_place inst)) in *.
  destruct (collect _ _ _ _ _) as [flow0 stored] eqn:Hc. apply collect_spec in Hc as (Hs0 & _).
  rewrite <- (flow_get_state _ _ v Hs0).
  set (flow1 := if bool_decide _ && _ then invalidate flow0 root else flow0).
  assert (H1 : invalidated (flow_get flow0 v) (flow_get flow1 v)).
  { unfold flow1. destruct (_ && _); [apply invalidated_invalidate|done]. }
  set (flow2 := if bool_decide (0 < _) then _ else flow1).
  assert (H2 : invalidated (flow_get flow0 v) (flow_get flow2 v)).
  { unfold flow2. destruct (bool_decide (0 < _)); [by rewrite flow_get_set_ne|done]. }
  clearbody flow1 flow2.
  set (flow3 := match store_into _ _ _ _ with Some _ => _ | None => _ end).
  assert (H3 : invalidated (flow_get flow0 v) (flow_get flow3 v)).
  { unfold flow3. destruct (store_into (flow_state flow2) _ _ _) as [state|] eqn:Hs.
    - apply flow_get_store_into with (v := v) in Hs; [|done]. unfold flow_get at 2. cbn [flow_state with_state]. by rewrite Hs.
    - destruct (collect _ _ _ _ _) as [flow4 slot] eqn:Hc. apply collect_spec in Hc as (Hs4 & _).
      by rewrite flow_get_set_ne, (flow_get_state _ _ _ Hs4). }
  clearbody flow3. destruct (borrows_memory _); [|done].
  by rewrite flow_get_report_outlives.
Qed.

Lemma flow_state_return flow inst :
  flow_state (flow_return funcs ir liveness rt wide_shift flow inst) = flow_state flow.
Proof.
  unfold flow_return. destruct (args inst); [done|]. destruct (negb _); [done|].
  destruct (collect _ _ _ _ _) as [flow1 slot] eqn:Hc. apply collect_spec in Hc as (Hs & _).
  destruct (_ && _); [by rewrite with_state_report|].
  rewrite (proj1 (report_outlives_spec _ _ _ _ _ _ _)). exact Hs.
Qed.

Lemma flow_get_return flow inst v :
  flow_get (flow_return funcs ir liveness rt wide_shift flow inst) v = flow_get flow v.
Proof. apply flow_get_state, flow_state_return. Qed.

Lemma flow_inst_invalidated flow inst v :
  writes_slot v inst = false -> invalidated (flow_get flow v) (flow_get (step flow inst) v).
Proof.
  unfold writes_slot, flow_inst. destruct (op inst); try done; intros Hw;
    rewrite ?orb_false_iff, ?N.eqb_neq in Hw.
  - destruct Hw as [Hr Hm]. unfold flow_load. case_bool_decide; cbn [negb andb] in *.
    + apply N.eqb_neq in Hm. by rewrite flow_get_set_ne, flow_get_take_ne by congruence.
    + by rewrite flow_get_take_ne.
  - apply invalidated_store. destruct (N.eqb_spec (root_of (inst_place inst)) v); [|by left].
    right. by destruct (reaches_past_its_root _).
  - by rewrite flow_get_take_ne.
  - by rewrite flow_get_call_ne.
  - by rewrite flow_get_call_ne.
  - by rewrite flow_get_call_ne.
  - apply invalidated_drop.
  - by rewrite flow_get_set_ne by congruence.
  - unfold flow_storage_dead. rewrite flow_get_set_ne by congruence. apply invalidated_invalidate.
  - by rewrite flow_get_set_ne by congruence.
  - by rewrite flow_get_return.
Qed.

Lemma run_invalidated v l : forall flow,
  forallb (fun inst => negb (writes_slot v inst)) l = true ->
  invalidated (flow_get flow v) (flow_get (run flow l) v).
Proof.
  induction l as [|inst l IH]; intros flow Hl; [done|]. cbn in Hl.
  apply andb_true_iff in Hl as [Hi%negb_true_iff Hl]. cbn.
  etrans; [by apply flow_inst_invalidated|by apply IH].
Qed.

(** *** Reading a slot that was moved away or dangles *)

Definition reported (flow : MIRFlow) (span : Span) (message : string) : Prop :=
  MkDiagnostic GAB_ERR_LIFETIME span message ∈ diag_items (flow_diagnostics flow).

(** The instruction reads the slot of [v], or a field of it. *)
Definition reads_slot (v : MIRValueId) (inst : MIRInst) : bool :=
  match op inst with
  | MIR_LOAD | MIR_REF => (root_of (inst_place inst) =? v)%N
  | MIR_CALL | MIR_MAKE_SLICE | MIR_COPY => existsb (fun arg => mir_operand_as_value arg =? v)%N (args inst)
  | _ => false
  end.

(** It reads all of it. *)
Definition reads_whole_slot (v : MIRValueId) (inst : MIRInst) : bool :=
  match op inst with
  | MIR_LOAD | MIR_REF =>
      (root_of (inst_place inst) =? v)%N && bool_decide (tracked_depth (inst_place inst) = 0)
  | _ => reads_slot v inst
  end.

Lemma reported_extends flow flow' span m : extends flow flow' -> reported flow span m -> reported flow' span m.
Proof. intros (_ & _ & (k & Hk) & _) H. unfold reported. rewrite Hk. apply elem_of_app. by left. Qed.

Lemma report_reported flow span m : reporting flow = true -> reported (report flow span m) span m.
Proof.
  intros H. unfold report, reported. rewrite H. cbn. apply elem_of_app. right. apply list_elem_of_here.
Qed.

Lemma state_of_all state place i :
  i <> MIR_SLOT_INIT -> slot_all i (mir_state_get state (root_of place)) -> state_of state place = i.
Proof.
  intros Hi Hs. unfold state_of.
  assert (Hn : slot_all i (default (mir_state_get state (root_of place)) (slot_of state place))).
  { unfold slot_of. destruct (mir_value_is_none _); [done|].
    destruct (slot_walk _ _) eqn:Hw; [|done]. by eapply slot_walk_all. }
  apply slot_all_init in Hn. by rewrite Hn, bool_decide_eq_false_2.
Qed.

Lemma slot_walk_whole slot l : leading_fields l = 0 -> slot_walk slot l = Some slot.
Proof. destruct l as [|p l]; [done|]. cbn. unfold proj_is_field. by destruct (proj_kind p). Qed.

Lemma state_of_dangles state place :
  tracked_depth place = 0 -> slot_dangles (mir_state_get state (root_of place)) ->
  state_of state place = MIR_SLOT_DANGLING.
Proof.
  intros Hd Hs. unfold state_of.
  assert (Hn : default (mir_state_get state (root_of place)) (slot_of state place) =
               mir_state_get state (root_of place)).
  { unfold slot_of. destruct (mir_value_is_none _); [done|]. by rewrite slot_walk_whole. }
  rewrite Hn. case_bool_decide; [by apply flattened_dangling|]. by destruct Hs.
Qed.

Section read.
Context (flow : MIRFlow) (v : MIRValueId) (m : string).
Hypothesis (Hrep : reporting flow = true) (Hv : v <> MIR_NO_VALUE).

Lemma check_readable_reported place span i :
  root_of place = v -> state_of (flow_state flow) place = i ->
  (i = MIR_SLOT_MOVED /\ m = msg_moved) \/ (i = MIR_SLOT_DANGLING /\ m = msg_freed) ->
  reported (check_readable ir flow place span) span m.
Proof.
  intros Hr Hs Hm. unfold check_readable. rewrite Hr.
  replace (mir_value_is_none v) with false by (symmetry; by apply N.eqb_neq).
  rewrite Hs. destruct Hm as [[-> ->]|[-> ->]]; by apply report_reported.
Qed.

Lemma check_argument_reported span arg i :
  mir_operand_as_value arg = v -> slot_init (flow_get flow v) <> MIR_SLOT_UNREACHED ->
  slot_init (mir_slot_flattened (flow_get flow v)) = i ->
  (i = MIR_SLOT_MOVED /\ m = msg_moved) \/ (i = MIR_SLOT_DANGLING /\ m = msg_freed) ->
  reported (check_argument span flow arg) span m.
Proof.
  intros Ha Hu Hs Hm. unfold check_argument. rewrite Ha, bool_decide_eq_false_2, Hs by done.
  destruct Hm as [[-> ->]|[-> ->]]; by apply report_reported.
Qed.
End read.

Lemma check_arguments_reported flow v m i span l :
  reporting flow = true -> v <> MIR_NO_VALUE ->
  existsb (fun arg => mir_operand_as_value arg =? v)%N l = true ->
  slot_init (flow_get flow v) <> MIR_SLOT_UNREACHED ->
  slot_init (mir_slot_flattened (flow_get flow v)) = i ->
  (i = MIR_SLOT_MOVED /\ m = msg_moved) \/ (i = MIR_SLOT_DANGLING /\ m = msg_freed) ->
  reported (foldl (check_argument span) flow l) span m.
Proof.
  intros Hrep Hv. revert flow Hrep. induction l as [|arg l IH]; intros flow Hrep Hl Hu Hs Hm; [done|].
  cbn in *. destruct (N.eqb_spec (mir_operand_as_value arg) v) as [Ha|Ha].
  - eapply reported_extends; [apply extends_foldl, extends_check_argument|].
    by eapply check_argument_reported.
  - apply IH; rewrite ?flow_get_check_argument; try done.
    by destruct (extends_check_argument span flow arg) as [-> _].
Qed.

(** A reading of [v], for any of the two reasons to report one. *)
Lemma read_reported flow v inst i m :
  reporting flow = true -> v <> MIR_NO_VALUE ->
  slot_init (flow_get flow v) <> MIR_SLOT_UNREACHED ->
  slot_init (mir_slot_flattened (flow_get flow v)) = i ->
  (i = MIR_SLOT_MOVED /\ m = msg_moved) \/ (i = MIR_SLOT_DANGLING /\ m = msg_freed) ->
  reads_slot v inst = true ->
  (op inst = MIR_LOAD \/ op inst = MIR_REF -> state_of (flow_state flow) (inst_place inst) = i) ->
  reported (step flow inst) (inst_span inst) m.
Proof.
  intros Hrep Hv Hu Hs Hm Hr Hp. unfold reads_slot, flow_inst in *.
  assert (Htake : op inst = MIR_LOAD \/ op inst = MIR_REF -> root_of (inst_place inst) = v ->
                  reported (flow_take ir flow inst) (inst_span inst) m).
  { intros Ho Hroot. unfold flow_take. eapply reported_extends; [apply extends_set|].
    apply (check_readable_reported flow v m Hrep Hv _ _ i); auto. }
  assert (Hcall : existsb (fun arg => mir_operand_as_value arg =? v)%N (args inst) = true ->
                  reported (flow_call funcs ir flow inst) (inst_span inst) m).
  { intros Ha. unfold flow_call. destruct (collect _ _ _ _ _) as [flow1 slot] eqn:Hc. apply collect_spec in Hc as (_ & _ & H1 & _).
    eapply reported_extends; [etrans; [exact H1|apply extends_set]|].
    by eapply check_arguments_reported. }
  destruct (op inst) eqn:Ho; try done; try (by apply Hcall).
  - apply N.eqb_eq in Hr. unfold flow_load. destruct (negb _); [by apply Htake; auto|].
    eapply reported_extends; [apply extends_set|]. apply Htake; auto.
  - apply N.eqb_eq in Hr. apply Htake; auto.
Qed.

Lemma read_moved_reported flow v inst :
  reporting flow = true -> v <> MIR_NO_VALUE -> slot_all MIR_SLOT_MOVED (flow_get flow v) ->
  reads_slot v inst = true -> reported (step flow inst) (inst_span inst) msg_moved.
Proof.
  intros Hrep Hv Hs Hr. pose proof (slot_all_init _ _ Hs) as Hi.
  apply (read_reported flow v inst MIR_SLOT_MOVED); try done.
  - by rewrite Hi.
  - destruct (flattened_init (flow_get flow v)) as [->|[]]; congruence.
  - by left.
  - intros Ho. apply state_of_all; [done|].
    replace (root_of (inst_place inst)) with v; [done|]. unfold reads_slot in Hr.
    destruct Ho as [Ho|Ho]; rewrite Ho in Hr; by apply N.eqb_eq in Hr.
Qed.

Lemma read_dangling_reported flow v inst :
  reporting flow = true -> v <> MIR_NO_VALUE -> slot_dangles (flow_get flow v) ->
  reads_whole_slot v inst = true -> reported (step flow inst) (inst_span inst) msg_freed.
Proof.
  intros Hrep Hv Hs Hr.
  apply (read_reported flow v inst MIR_SLOT_DANGLING); try done.
  - by destruct Hs.
  - by apply flattened_dangling.
  - by right.
  - unfold reads_whole_slot, reads_slot in *. destruct (op inst); try done; by apply andb_true_iff in Hr as [? _].
  - intros Ho. unfold reads_whole_slot in Hr.
    assert (Hb : root_of (inst_place inst) = v /\ tracked_depth (inst_place inst) = 0).
    { destruct Ho as [Ho|Ho]; rewrite Ho in Hr; apply andb_true_iff in Hr as [?%N.eqb_eq ?%bool_decide_eq_true]; done. }
    apply state_of_dangles; [apply Hb|]. by rewrite (proj1 Hb).
Qed.

(** After a move the whole slot is moved away; after the end of a storage, what
    held a borrow of it dangles. *)
Lemma move_moves flow inst :
  op inst = MIR_LOAD -> inst_read inst = READ_MOVE ->
  slot_all MIR_SLOT_MOVED (flow_get (step flow inst) (root_of (inst_place inst))).
Proof.
  intros Ho Hm. unfold flow_inst, flow_load. rewrite Ho, Hm. cbn [negb bool_decide decide_rel].
  rewrite bool_decide_eq_true_2 by done. cbn [negb]. rewrite flow_get_set, bool_decide_eq_true_2 by done.
  apply set_all_all.
Qed.

Lemma end_dangles flow inst v :
  op inst = MIR_DROP \/ op inst = MIR_STORAGE_DEAD ->
  v <> root_of (inst_place inst) \/ op inst = MIR_DROP ->
  slot_holds_borrow (root_of (inst_place inst)) (flow_get flow v) ->
  slot_dangles (flow_get (step flow inst) v).
Proof.
  intros Ho Hv Hh. apply invalidate_dangles in Hh. unfold flow_inst.
  destruct Ho as [Ho|Ho]; rewrite Ho in Hv |- *.
  - unfold flow_drop. rewrite <- flow_get_invalidate in Hh. revert Hh.
    generalize (invalidate flow (root_of (inst_place inst))) as fl.
    induction (args inst) as [|arg l IH]; intros fl Hfl; [done|]. cbn. apply IH.
    eapply invalidated_dangles; [apply invalidated_invalidate|done].
  - destruct Hv as [Hv|]; [|done]. unfold flow_storage_dead.
    rewrite flow_get_set_ne by done. by rewrite flow_get_invalidate.
Qed.

(** *** The fixed point *)

Lemma unreachable_report flow span m :
  unreachable (flow_state (report flow span m)) = unreachable (flow_state flow).
Proof. by rewrite with_state_report. Qed.

Lemma unreachable_store_into state place depth stored state' :
  store_into state place depth stored = Some state' -> unreachable state' = unreachable state.
Proof.
  unfold store_into. destruct (mir_value_is_none _); [done|]. by intros (slot & _ & [= <-])%bind_Some.
Qed.

Lemma unreachable_store flow inst :
  unreachable (flow_state (flow_store funcs ir liveness flow inst)) = unreachable (flow_state flow).
Proof.
  unfold flow_store. destruct (args inst); [done|]. destruct (mir_value_is_none _); [done|].
  destruct (reaches_past_its_root _).
  { destruct (borrows_memory _); [|done]. by rewrite (proj1 (report_outlives_spec _ _ _ _ _ _ _)). }
  destruct (collect _ _ _ _ _) as [flow0 stored] eqn:Hc. apply collect_spec in Hc as (<- & _).
  set (flow1 := if bool_decide _ && _ then _ else flow0).
  assert (H1 : unreachable (flow_state flow1) = unreachable (flow_state flow0)) by (unfold flow1; by destruct (_ && _)).
  rewrite <- H1. clearbody flow1.
  set (flow2 := if bool_decide (0 < _) then _ else flow1).
  assert (H2 : unreachable (flow_state flow2) = unreachable (flow_state flow1)) by (unfold flow2; by destruct (bool_decide _)).
  rewrite <- H2. clearbody flow2.
  set (flow3 := match store_into _ _ _ _ with Some _ => _ | None => _ end).
  assert (H3 : unreachable (flow_state flow3) = unreachable (flow_state flow2)).
  { unfold flow3. destruct (store_into _ _ _ _) as [state|] eqn:Hs; [by apply unreachable_store_into in Hs|].
    destruct (collect _ _ _ _ _) as [flow4 slot] eqn:Hc. apply collect_spec in Hc as (Hs4 & _). cbn. by rewrite Hs4. }
  rewrite <- H3. destruct (borrows_memory _); [|done]. by rewrite (proj1 (report_outlives_spec _ _ _ _ _ _ _)).
Qed.

Lemma unreachable_foldl {A} (f : MIRFlow -> A -> MIRFlow) l :
  (forall flow a, unreachable (flow_state (f flow a)) = unreachable (flow_state flow)) ->
  forall flow, unreachable (flow_state (foldl f flow l)) = unreachable (flow_state flow).
Proof. intros Hf. induction l as [|a l IH]; intros flow; [done|]. cbn. by rewrite IH, Hf. Qed.

Lemma unreachable_check_readable flow place span :
  unreachable (flow_state (check_readable ir flow place span)) = unreachable (flow_state flow).
Proof.
  unfold check_readable. destruct (mir_value_is_none _); [done|].
  destruct (state_of _ _); rewrite ?unreachable_report; try done. destruct (tv_is_indirect _); by rewrite ?unreachable_report.
Qed.

Lemma unreachable_call flow inst :
  unreachable (flow_state (flow_call funcs ir flow inst)) = unreachable (flow_state flow).
Proof.
  unfold flow_call. destruct (collect _ _ _ _ _) as [flow1 slot] eqn:Hc. apply collect_spec in Hc as (Hs & _).
  cbn. rewrite Hs. apply unreachable_foldl. intros fl arg. unfold check_argument.
  destruct (bool_decide _); [done|]. destruct (slot_init _); by rewrite ?unreachable_report.
Qed.

Lemma unreachable_take flow inst :
  unreachable (flow_state (flow_take ir flow inst)) = unreachable (flow_state flow).
Proof. unfold flow_take. cbn. apply unreachable_check_readable. Qed.

Lemma unreachable_inst flow inst : unreachable (flow_state (step flow inst)) = unreachable (flow_state flow).
Proof.
  unfold flow_inst.
  destruct (op inst); try done; try apply unreachable_store; try apply unreachable_call; try apply unreachable_take.
  - unfold flow_load. destruct (negb _); cbn; apply unreachable_take.
  - unfold flow_drop. rewrite unreachable_foldl; done.
  - by rewrite flow_state_return.
Qed.

Lemma unreachable_block flow b :
  unreachable (flow_state (flow_block funcs ir liveness rt wide_shift flow b)) = unreachable (flow_state flow).
Proof. apply unreachable_foldl, unreachable_inst. Qed.

(** An exit that joins into a target without changing it. *)
Definition absorbs (target exit : MIRState) : Prop :=
  mir_state_equals (mir_state_merge target exit) target = true.

Lemma merge_into_unchanged exit l : forall changed entries entries',
  foldl (merge_into exit) (changed, entries) l = (false, entries') ->
  changed = false /\ entries' = entries /\
  forall s target, s ∈ l -> entries !! N.to_nat s = Some target -> absorbs target exit.
Proof.
  induction l as [|s l IH]; intros changed entries entries'; cbn [foldl].
  - intros [= -> ->]. split; [done|]. split; [done|]. intros ? ? []%elem_of_nil.
  - cbn [merge_into]. destruct (entries !! N.to_nat s) as [target|] eqn:Ht.
    + rewrite !state_copy_id. destruct (mir_state_equals _ _) eqn:He; cbn [negb]; intros H%IH; [|by destruct H].
      destruct H as (-> & -> & H). split; [done|]. split; [done|].
      intros s' t [->|Hs]%elem_of_cons Hst; [|by eapply H]. by simplify_eq.
    + intros (-> & -> & H)%IH. split; [done|]. split; [done|].
      intros s' t [->|Hs]%elem_of_cons Hst; [by simplify_eq|by eapply H].
Qed.

(** The states the blocks of a function are entered with, at the fixed point. *)
Definition fixed_point (entries : list MIRState) : Prop :=
  forall i e b s target,
    entries !! i = Some e -> unreachable e = false -> blocks ir !! i = Some b ->
    s ∈ mir_block_successors b -> entries !! N.to_nat s = Some target ->
    exists flow, flow_state flow = e /\
      absorbs target (flow_state (flow_block funcs ir liveness rt wide_shift flow b)).

#[local] Abbreviation turn_step := (flow_step funcs ir liveness rt wide_shift).

Lemma flow_step_unchanged l : forall changed entries flow entries' flow',
  foldl turn_step (changed, (entries, flow)) l = (false, (entries', flow')) ->
  changed = false /\ entries' = entries /\
  forall i e b s target,
    i ∈ l -> entries !! i = Some e -> unreachable e = false -> blocks ir !! i = Some b ->
    s ∈ mir_block_successors b -> entries !! N.to_nat s = Some target ->
    exists flow, flow_state flow = e /\
      absorbs target (flow_state (flow_block funcs ir liveness rt wide_shift flow b)).
Proof.
  induction l as [|i l IH]; intros changed entries flow entries' flow'; cbn [foldl].
  - intros [= -> -> ->]. split; [done|]. split; [done|]. intros ? ? ? ? ? []%elem_of_nil.
  - cbn [flow_step].
    destruct (entries !! i) as [e|] eqn:He, (blocks ir !! i) as [b|] eqn:Hb.
    + destruct (unreachable e) eqn:Hu.
      * intros (-> & -> & H)%IH. split; [done|]. split; [done|].
        intros j e' b' s target [->|Hj]%elem_of_cons; [congruence|by apply H].
      * rewrite state_copy_id.
        destruct (foldl (merge_into _) _ _) as [changed1 entries1] eqn:Hm.
        intros (-> & -> & H)%IH. apply merge_into_unchanged in Hm as (-> & -> & Hm).
        split; [done|]. split; [done|].
        intros j e' b' s target [->|Hj]%elem_of_cons Hje Hju Hjb Hs Ht; [|by eapply H].
        simplify_eq. eexists. split; [|by eapply Hm]. done.
    + intros (-> & -> & H)%IH. split; [done|]. split; [done|].
      intros j e' b' s target [->|Hj]%elem_of_cons; [congruence|by apply H].
    + intros (-> & -> & H)%IH. split; [done|]. split; [done|].
      intros j e' b' s target [->|Hj]%elem_of_cons; [congruence|by apply H].
    + intros (-> & -> & H)%IH. split; [done|]. split; [done|].
      intros j e' b' s target [->|Hj]%elem_of_cons; [congruence|by apply H].
Qed.

Lemma flow_turn_fixed_point entries flow entries' flow' :
  flow_turn funcs ir liveness rt wide_shift (entries, flow) = (false, (entries', flow')) ->
  entries' = entries /\ fixed_point entries.
Proof.
  unfold flow_turn. intros (_ & -> & H)%flow_step_unchanged. split; [done|].
  intros i e b s target He Hu Hb. eapply H; try done.
  apply elem_of_seq. apply lookup_lt_Some in Hb. unfold block_count. lia.
Qed.

(** *** Every block of the control-flow graph is run *)

#[warnings="-register-all"]
Inductive cfg_reachable : nat -> Prop :=
  | cfg_entry : cfg_reachable (N.to_nat (entry ir))
  | cfg_edge i b s :
      cfg_reachable i -> blocks ir !! i = Some b -> s ∈ mir_block_successors b ->
      N.to_nat s < block_count ir -> cfg_reachable (N.to_nat s).

(** A parameter that may borrow from what the caller passed. *)
Definition param_borrows (q : MIRValueId) : Prop :=
  q ∈ params ir /\ exists info, mir_value_info ir q = Some info /\ borrows_memory (value_type info) = true.

Definition names_itself (e : MIRState) (q : MIRValueId) : Prop :=
  slot_init (mir_state_get e q) <> MIR_SLOT_UNREACHED /\ q ∈ slot_borrows (mir_state_get e q).

(** One state for every block; the entry's is reached, and there every
    borrowing parameter names at least itself. *)
Definition entries_ok (entries : list MIRState) : Prop :=
  length entries = block_count ir /\
  forall e, entries !! N.to_nat (entry ir) = Some e ->
    unreachable e = false /\ forall q, param_borrows q -> names_itself e q.

Lemma merge_names_itself e exit q :
  unreachable e = false -> names_itself e q -> names_itself (mir_state_merge e exit) q.
Proof.
  intros Hu [Hi Hq]. unfold mir_state_merge. rewrite Hu. destruct (unreachable exit); [done|].
  unfold names_itself, mir_state_get in *. cbn [slots]. rewrite lookup_merge.
  destruct (slots e !! q) as [s|]; [|done]. cbn [default from_option] in *.
  destruct (slots exit !! q) as [t|]; cbn [merge_entry diag_None default from_option]; [|done].
  destruct (decide (slot_init t = MIR_SLOT_UNREACHED)); [by rewrite slot_merge_unreached_r|].
  unfold id in *. rewrite slot_merge_init, slot_merge_borrows by done. split; [by apply init_join_unreached|by left].
Qed.

Lemma merge_into_ok exit acc s :
  entries_ok acc.2 -> entries_ok (merge_into exit acc s).2.
Proof.
  destruct acc as [changed entries]. cbn [merge_into snd]. intros [Hlen He].
  destruct (entries !! N.to_nat s) as [target|] eqn:Ht; [|done].
  destruct (negb _); [|done]. cbn [snd]. split; [by rewrite length_insert|].
  intros e. rewrite !state_copy_id. destruct (decide (N.to_nat s = N.to_nat (entry ir))) as [Hs|Hs].
  - rewrite Hs, list_lookup_insert_eq by (rewrite <- Hs; by eapply lookup_lt_Some). intros [= <-].
    rewrite Hs in Ht. destruct (He _ Ht) as [Hu Hq]. split; [by rewrite state_merge_unreachable, Hu|].
    intros q Hbq. apply merge_names_itself; auto.
  - rewrite list_lookup_insert_ne by done. apply He.
Qed.

Lemma foldl_merge_into_ok exit l : forall acc,
  entries_ok acc.2 -> entries_ok (foldl (merge_into exit) acc l).2.
Proof. induction l as [|s l IH]; intros acc Ha; [done|]. cbn. by apply IH, merge_into_ok. Qed.

Lemma flow_step_ok acc i : entries_ok acc.2.1 -> entries_ok (turn_step acc i).2.1.
Proof.
  destruct acc as [changed [entries flow]]. cbn [snd fst flow_step]. intros H.
  destruct (entries !! i) as [e|], (blocks ir !! i) as [b|]; try done.
  destruct (unreachable e); [done|].
  destruct (foldl (merge_into _) _ _) as [changed1 entries1] eqn:Hm. cbn.
  change entries1 with (changed1, entries1).2. rewrite <- Hm. by apply foldl_merge_into_ok.
Qed.

Lemma flow_turn_ok a :
  entries_ok a.1 -> entries_ok (flow_turn funcs ir liveness rt wide_shift a).2.1.
Proof.
  unfold flow_turn. generalize false as c, (seq 0 (block_count ir)) as l. intros c l. revert c a.
  induction l as [|i l IH]; intros c a Ha; [by destruct a|]. cbn [foldl].
  pose proof (flow_step_ok (c, a) i Ha) as H. destruct (turn_step (c, a) i) as [c' a'] eqn:Hs. by apply IH.
Qed.

Lemma initial_entries_ok : entries_ok (initial_entries ir).
Proof.
  unfold initial_entries. split; [by rewrite length_insert, length_replicate|].
  intros e He. apply list_lookup_insert_Some in He as [(_ & <- & _)|(? & He)].
  2:{ apply lookup_replicate in He as [-> ?]. done. }
  unfold param_borrows. set (l := params ir).
  enough (H : forall l s, unreachable s = false ->
    unreachable (foldl (fun s p => mir_state_set s p (param_slot ir p)) s l) = false /\
    forall q, (q ∈ l \/ mir_state_get s q = param_slot ir q) ->
      mir_state_get (foldl (fun s p => mir_state_set s p (param_slot ir p)) s l) q = param_slot ir q).
  { destruct (H l (MkState ∅ false) eq_refl) as [Hu Hget]. split; [done|].
    intros q (Hq & info & Hinfo & Hbor). unfold names_itself. rewrite Hget by auto. unfold param_slot.
    rewrite Hinfo, Hbor. unfold mir_slot_add_borrow.
    assert (Hn : mir_value_is_none q = false).
    { unfold mir_value_info in Hinfo. by destruct (mir_value_is_none q). }
    rewrite Hn. cbn. split; [done|]. apply list_elem_of_here. }
  clear l. intros l. induction l as [|p l IH]; intros s Hs; cbn [foldl].
  - split; [done|]. by intros q [?%elem_of_nil|].
  - destruct (IH (mir_state_set s p (param_slot ir p)) Hs) as [Hu Hget]. split; [done|].
    intros q Hq. apply Hget. rewrite state_get_set. case_bool_decide; [subst; by right|].
    destruct Hq as [[->|?]%elem_of_cons|?]; [done|by left|by right].
Qed.

Lemma fixed_point_reachable entries i e :
  entries_ok entries -> fixed_point entries -> cfg_reachable i -> entries !! i = Some e -> unreachable e = false.
Proof.
  intros [Hlen Hent] Hfix Hi. revert e. induction Hi as [|i b s Hi IH Hb Hs Hlt]; intros target Ht; [by apply Hent in Ht as [? _]|].
  assert (is_Some (entries !! i)) as [e He].
  { apply lookup_lt_is_Some. apply lookup_lt_Some in Hb. unfold block_count in *. lia. }
  destruct (Hfix i e b s target He (IH _ He) Hb Hs Ht) as (flow & Hflow & Habs).
  unfold absorbs, mir_state_equals in Habs. case_bool_decide as Hu; [|done].
  rewrite <- Hu, state_merge_unreachable, unreachable_block, Hflow, (IH _ He). apply andb_false_r.
Qed.

(** *** The last run *)

Lemma extends_report_run l : forall flow,
  extends flow (foldl (fun flow '(entry, block) =>
    if unreachable entry then flow
    else flow_block funcs ir liveness rt wide_shift (with_state flow (mir_state_copy entry)) block) flow l).
Proof.
  apply extends_foldl. intros flow [e b]. destruct (unreachable e); [done|].
  apply (run_extends (insts b) (with_state flow (mir_state_copy e))).
Qed.

(** What a run of a reached block establishes for good, the last run does. *)
Lemma flow_report_holds (P : MIRFlow -> Prop) entries flow i e b :
  (forall flow flow', extends flow flow' -> P flow -> P flow') ->
  entries !! i = Some e -> unreachable e = false -> blocks ir !! i = Some b ->
  (forall flow', reporting flow' = reporting flow -> flow_state flow' = e ->
     P (flow_block funcs ir liveness rt wide_shift flow' b)) ->
  P (flow_report funcs ir liveness rt wide_shift entries flow).
Proof.
  intros Hmono He Hu Hb Hrun. unfold flow_report.
  assert (Hz : zip entries (blocks ir) !! i = Some (e, b)) by (apply lookup_zip_with_Some; eauto).
  rewrite <- (take_drop_middle _ _ _ Hz), foldl_app. cbn [foldl]. rewrite Hu.
  eapply Hmono; [apply extends_report_run|]. apply Hrun; [|apply state_copy_id]. cbn [with_state reporting].
  by rewrite (proj1 (extends_report_run _ _)).
Qed.
End flow_lemmas.

(** What a run of the checker ended with; [J] is what the turns of its loop
    keep. *)
Lemma mir_borrowck_loop `{TV : TypeView} (J : list MIRState -> Prop) funcs ws fuel ir diags function rep d f :
  mir_borrowck funcs ws fuel ir diags function rep = Some (d, f) -> 0 < block_count ir ->
  let rt := match function with Some f => return_type (fn_signature f) | None => None end in
  J (initial_entries ir) ->
  (forall liveness a, J a.1 -> J (flow_turn funcs ir liveness rt ws a).2.1) ->
  exists liveness entries flow,
    let last := flow_report funcs ir liveness rt ws entries flow in
    mir_liveness_compute ir = Some liveness /\
    J entries /\ entries_ok ir entries /\ fixed_point funcs ir liveness rt ws entries /\
    reporting flow = rep /\ sources_ended last = true /\ d = flow_diagnostics last /\
    (rep = false -> f = (fun f => with_borrowed_params f (returned_params last)) <$> function).
Proof.
  intros H Hb rt Hinit Hkeep. unfold mir_borrowck in H. rewrite bool_decide_eq_false_2 in H by lia.
  apply bind_Some in H as (liveness & Hl & H). apply bind_Some in H as ([entries flow] & Hw & H).
  fold rt in Hw, H.
  destruct (while_changed_inv _ (fun a => J a.1 /\ entries_ok ir a.1) _ _ _
              (fun a Ha => conj (Hkeep liveness a (proj1 Ha)) (flow_turn_ok funcs ir liveness rt ws a (proj2 Ha)))
              (conj Hinit (initial_entries_ok ir) :
                J (initial_entries ir, initial_flow diags).1 /\ entries_ok ir (initial_entries ir, initial_flow diags).1) Hw)
    as ([entries0 flow0] & [HJ Hok] & Hturn).
  apply flow_turn_fixed_point in Hturn as [-> Hfix].
  exists liveness, entries0,
    (MkFlow (flow_state flow) (flow_diagnostics flow) rep (returned_params flow) (sources_ended flow)).
  cbn zeta. destruct (sources_ended (flow_report _ _ _ _ _ _ _)) eqn:He; [|done]. injection H as [= <- <-].
  repeat (split; [done|]). by intros ->.
Qed.

Lemma mir_borrowck_inv `{TV : TypeView} funcs ws fuel ir diags function rep d f :
  mir_borrowck funcs ws fuel ir diags function rep = Some (d, f) -> 0 < block_count ir ->
  exists liveness entries flow,
    let rt := match function with Some f => return_type (fn_signature f) | None => None end in
    let last := flow_report funcs ir liveness rt ws entries flow in
    mir_liveness_compute ir = Some liveness /\
    entries_ok ir entries /\ fixed_point funcs ir liveness rt ws entries /\
    reporting flow = rep /\ sources_ended last = true /\ d = flow_diagnostics last /\
    (rep = false -> f = (fun f => with_borrowed_params f (returned_params last)) <$> function).
Proof.
  intros H Hb. destruct (mir_borrowck_loop (fun _ => True) _ _ _ _ _ _ _ _ _ H Hb I (fun _ _ _ => I))
    as (liveness & entries & flow & Hl & _ & Hrest). by exists liveness, entries, flow.
Qed.

(** At the start of a run of the function's first block, every borrowing
    parameter names at least itself. *)
Definition starts `{TV : TypeView} (ir : MIRFunction) (i : nat) (flow : MIRFlow) : Prop :=
  i = N.to_nat (entry ir) -> forall q, param_borrows ir q -> names_itself (flow_state flow) q.

(** What every run of a block control can reach establishes for good holds of
    what the checker returns. *)
Lemma mir_borrowck_block `{TV : TypeView} (P : MIRFlow -> Prop) funcs ws fuel ir diags function rep d f i b :
  let rt := match function with Some f => return_type (fn_signature f) | None => None end in
  (forall flow flow', extends flow flow' -> P flow -> P flow') ->
  mir_borrowck funcs ws fuel ir diags function rep = Some (d, f) ->
  cfg_reachable ir i -> blocks ir !! i = Some b ->
  (forall liveness flow, reporting flow = rep -> starts ir i flow -> P (flow_block funcs ir liveness rt ws flow b)) ->
  exists last, P last /\ d = flow_diagnostics last /\
    (rep = false -> f = (fun f => with_borrowed_params f (returned_params last)) <$> function).
Proof.
  intros rt Hmono H Hi Hb Hrun. pose proof (lookup_lt_Some _ _ _ Hb) as Hlt.
  apply mir_borrowck_inv in H as (liveness & entries & flow & _ & Hok & Hfix & Hrep & _ & Hd & Hf);
    [|unfold block_count; lia].
  assert (is_Some (entries !! i)) as [e He].
  { apply lookup_lt_is_Some. destruct Hok as [-> _]. done. }
  exists (flow_report funcs ir liveness rt ws entries flow). split; [|by split].
  eapply flow_report_holds; [exact Hmono|exact He| |exact Hb|].
  - by eapply fixed_point_reachable.
  - intros flow' Hf' Hs. apply Hrun; [by rewrite Hf', Hrep|]. intros -> q Hq. unfold names_itself.
    rewrite Hs. by apply Hok.
Qed.

(** The diagnostics of the checker hold every report of such a run. *)
Lemma mir_borrowck_block_reported `{TV : TypeView} funcs ws fuel ir diags function d f i b span m :
  mir_borrowck funcs ws fuel ir diags function true = Some (d, f) ->
  cfg_reachable ir i -> blocks ir !! i = Some b ->
  (forall liveness rt flow, reporting flow = true ->
     reported (flow_block funcs ir liveness rt ws flow b) span m) ->
  MkDiagnostic GAB_ERR_LIFETIME span m ∈ diag_items d.
Proof.
  intros H Hi Hb Hrun.
  destruct (mir_borrowck_block (fun flow => reported flow span m) funcs ws fuel ir diags function true d f i b)
    as (last & Hl & -> & _); auto. intros. by eapply reported_extends.
Qed.


(** ** Functions the witnesses run on *)

(** A local of an owning type is moved out of and read again:

<<
    let u: Unique<i32> = ...; take(u); take(u);
>> *)
Definition sample_move (again : list MIRInst) : MIRFunction := {|
  mir_function := Some 0;
  blocks :=
    [ MkBlock 0 [inst_at MIR_JMP None MIR_NO_VALUE [] (payload_targets 1 0)];
      MkBlock 1
        ([ inst_at MIR_STORAGE_LIVE sample_unique MIR_NO_VALUE [] (on_place 0 [] READ_COPY);
           inst_at MIR_CALL sample_unique 1 [] (payload_callee None);
           inst_at MIR_STORE sample_unique MIR_NO_VALUE [OPERAND_VALUE 1] (on_place 0 [] READ_COPY) ] ++
         [ inst_at MIR_LOAD sample_unique 2 [] (on_place 0 [] READ_MOVE);
           inst_at MIR_CALL None MIR_NO_VALUE [OPERAND_VALUE 2] (payload_callee None) ] ++ again ++
         [ inst_at MIR_RETURN None MIR_NO_VALUE [] (payload_constant zero_constant) ]) ];
  entry := 0;
  values := [local sample_unique; local sample_unique; local sample_unique; local sample_unique];
  params := [];
|}.

Definition sample_use (v : MIRValueId) : MIRInst := inst_at MIR_LOAD sample_unique 3 [] (on_place v [] READ_COPY).

(** A reference to a local outlives the local:

<<
    let r: &i32; { let x: i32 = 1; r = &x; } ... r ...
>> *)
Definition sample_escape (use : list MIRInst) : MIRFunction := {|
  mir_function := Some 0;
  blocks :=
    [ MkBlock 0
        ([ inst_at MIR_STORAGE_LIVE sample_ref MIR_NO_VALUE [] (on_place 1 [] READ_COPY);
           inst_at MIR_STORAGE_LIVE sample_i32 MIR_NO_VALUE [] (on_place 0 [] READ_COPY);
           inst_at MIR_STORE sample_i32 MIR_NO_VALUE [OPERAND_CONST (constant_int sample_i32 1)]
             (on_place 0 [] READ_COPY);
           inst_at MIR_REF sample_ref 2 [] (on_place 0 [] READ_COPY);
           inst_at MIR_STORE sample_ref MIR_NO_VALUE [OPERAND_VALUE 2] (on_place 1 [] READ_COPY);
           inst_at MIR_STORAGE_DEAD sample_i32 MIR_NO_VALUE [] (on_place 0 [] READ_COPY)] ++ use ++
         [ inst_at MIR_STORAGE_DEAD sample_ref MIR_NO_VALUE [] (on_place 1 [] READ_COPY);
           inst_at MIR_RETURN None MIR_NO_VALUE [OPERAND_CONST (constant_int sample_i32 0)]
             (payload_constant zero_constant) ]) ];
  entry := 0;
  values := [local sample_i32; local sample_ref; local sample_ref; local sample_i32];
  params := [];
|}.

Definition sample_deref : Projection := MkProjection PROJ_DEREF None.

(** [... = *r] and [*r = 1]. *)
Definition sample_read_through : MIRInst :=
  inst_at MIR_LOAD sample_i32 3 [] (on_place 1 [PROJ_DEREF] READ_COPY).
Definition sample_write_through : MIRInst :=
  inst_at MIR_STORE sample_i32 MIR_NO_VALUE [OPERAND_CONST (constant_int sample_i32 1)]
    (on_place 1 [PROJ_DEREF] READ_COPY).

Definition sample_check (ir : MIRFunction) (function : option Function) (rep : bool) :=
  mir_borrowck (TV := sample_view) ∅ (fun _ => 0%N) 20 ir (diagnostics_init None) function rep.

(** The messages of a check. *)
Definition sample_messages (ir : MIRFunction) : option (list string) :=
  (fun r => diag_message <$> diag_items r.1) <$> sample_check ir None true.

Example sample_move_once : sample_messages (sample_move []) = Some [].
Proof. vm_compute. reflexivity. Qed.
Example sample_move_twice : sample_messages (sample_move [sample_use 0]) = Some [msg_moved].
Proof. vm_compute. reflexivity. Qed.
Example sample_read_escaped : sample_messages (sample_escape [sample_read_through]) = Some [msg_stored; msg_freed].
Proof. vm_compute. reflexivity. Qed.


Lemma mark_params_marks `{TV : TypeView} ir ws bits p param :
  params ir !! p = Some param -> p < 32 -> N.testbit (mark_params ir ws bits param) (N.of_nat p) = true.
Proof.
  intros Hp Hlt. unfold mark_params.
  assert (Hi : imap pair (params ir) !! p = Some (p, param)) by (by rewrite list_lookup_imap, Hp).
  rewrite <- (take_drop_middle _ _ _ Hi), foldl_app. cbn [foldl]. rewrite N.eqb_refl.
  generalize (foldl (fun bits '(p, q) => if (q =? param)%N then N.lor bits (param_bit ws p) else bits) bits
                (take p (imap pair (params ir)))) as bits'. intros bits'.
  assert (Hb : N.testbit (N.lor bits' (param_bit ws p)) (N.of_nat p) = true).
  { unfold param_bit. rewrite bool_decide_eq_true_2 by done.
    by rewrite N.lor_spec, N.shiftl_1_l, N.pow2_bits_true, orb_true_r. }
  revert Hb. generalize (N.lor bits' (param_bit ws p)) as acc.
  induction (drop (S p) (imap pair (params ir))) as [|[q x] l IH]; intros acc Hacc; [done|]. cbn. apply IH.
  destruct (x =? param)%N; [|done]. by rewrite N.lor_spec, Hacc.
Qed.

Lemma foldl_mark_params_marks `{TV : TypeView} ir ws p param l : forall bits,
  params ir !! p = Some param -> p < 32 -> param ∈ l ->
  N.testbit (foldl (mark_params ir ws) bits l) (N.of_nat p) = true.
Proof.
  induction l as [|b l IH]; intros bits Hp Hlt Hin; [by apply elem_of_nil in Hin|]. cbn.
  apply elem_of_cons in Hin as [->|Hin]; [|by apply IH].
  by apply foldl_mark_params_mono, mark_params_marks.
Qed.

Lemma may_name_bit f p :
  N.testbit (borrowed_params f) (N.of_nat p) = true -> call_result_may_name (Some f) p = true.
Proof.
  intros Hb. unfold call_result_may_name. destruct (negb (borrowed_params_known f)); [done|].
  apply orb_true_iff. right. apply negb_true_iff, N.eqb_neq. intros H.
  assert (Ht : N.testbit (N.land (borrowed_params f) (N.shiftl 1 (N.of_nat p))) (N.of_nat p) = false)
    by (rewrite H; apply N.bits_0).
  by rewrite N.land_spec, Hb, N.shiftl_1_l, N.pow2_bits_true in Ht.
Qed.

(** ** Properties *)

(** C1: no use after a move goes unreported.  In a block control can reach, a
    local moved out of and then read, whole or by a field, as an operand or
    through a reference, with nothing stored in it in between, is an error at
    the reading. *)
Theorem use_after_move_reported `{TV : TypeView} funcs ws fuel ir diags function d f
    i b pre move mid use post v :
  mir_borrowck funcs ws fuel ir diags function true = Some (d, f) ->
  cfg_reachable ir i -> blocks ir !! i = Some b -> insts b = pre ++ move :: mid ++ use :: post ->
  op move = MIR_LOAD -> inst_read move = READ_MOVE -> root_of (inst_place move) = v -> v <> MIR_NO_VALUE ->
  forallb (fun inst => negb (writes_slot v inst)) mid = true -> reads_slot v use = true ->
  MkDiagnostic GAB_ERR_LIFETIME (inst_span use) msg_moved ∈ diag_items d.
Proof.
  intros H Hi Hb Hinsts Hop Hmove Hroot Hv Hmid Huse.
  eapply mir_borrowck_block_reported; [exact H|exact Hi|exact Hb|]. intros liveness rt flow Hrep.
  unfold flow_block. rewrite Hinsts, foldl_app. cbn [foldl]. rewrite foldl_app. cbn [foldl].
  eapply reported_extends; [apply run_extends|].
  apply read_moved_reported with v; [|done| |done].
  - rewrite (proj1 (run_extends _ _ _ _ _ mid _)), (proj1 (flow_inst_extends _ _ _ _ _ _ _)).
    by rewrite (proj1 (run_extends _ _ _ _ _ pre _)).
  - eapply invalidated_all; [done|by apply run_invalidated|]. rewrite <- Hroot. by apply move_moves.
Qed.

(** Within one block, for a borrow held by the slot or by any field of it: when
    the storage it names ends or is dropped, a later reading of the whole slot,
    with nothing stored in it in between, is an error at the reading. *)
Theorem field_borrow_of_freed_reported `{TV : TypeView} funcs ws fuel ir diags function d f
    i b pre free mid use post v :
  mir_borrowck funcs ws fuel ir diags function true = Some (d, f) ->
  cfg_reachable ir i -> blocks ir !! i = Some b -> insts b = pre ++ free :: mid ++ use :: post ->
  op free = MIR_DROP \/ op free = MIR_STORAGE_DEAD ->
  v <> root_of (inst_place free) -> v <> MIR_NO_VALUE ->
  (forall liveness rt flow,
     slot_holds_borrow (root_of (inst_place free))
       (flow_get (foldl (flow_inst funcs ir liveness rt ws) flow pre) v)) ->
  forallb (fun inst => negb (writes_slot v inst)) mid = true -> reads_whole_slot v use = true ->
  MkDiagnostic GAB_ERR_LIFETIME (inst_span use) msg_freed ∈ diag_items d.
Proof.
  intros H Hi Hb Hinsts Hop Hne Hv Hholds Hmid Huse.
  eapply mir_borrowck_block_reported; [exact H|exact Hi|exact Hb|]. intros liveness rt flow Hrep.
  unfold flow_block. rewrite Hinsts, foldl_app. cbn [foldl]. rewrite foldl_app. cbn [foldl].
  eapply reported_extends; [apply run_extends|].
  apply read_dangling_reported with v; [|done| |done].
  - rewrite (proj1 (run_extends _ _ _ _ _ mid _)), (proj1 (flow_inst_extends _ _ _ _ _ _ _)).
    by rewrite (proj1 (run_extends _ _ _ _ _ pre _)).
  - eapply invalidated_dangles; [by apply run_invalidated|]. apply end_dangles; auto.
Qed.

Lemma sample_check_result ir function rep :
  is_Some (sample_check ir function rep) -> exists d f, sample_check ir function rep = Some (d, f).
Proof. intros [[d f] ->]. eauto. Qed.

Lemma use_after_move_reported_witness :
  exists d f, sample_check (sample_move [sample_use 0]) None true = Some (d, f) /\
    MkDiagnostic GAB_ERR_LIFETIME no_span msg_moved ∈ diag_items d.
Proof.
  destruct (sample_check_result (sample_move [sample_use 0]) None true) as (d & f & H);
    [by eexists; vm_compute|]. exists d, f. split; [exact H|].
  eapply (use_after_move_reported (TV := sample_view) _ _ _ _ _ _ _ _ 1 _ [_; _; _] _ [_] (sample_use 0) _ 0%N);
    [exact H| |vm_compute; reflexivity..|discriminate|vm_compute; reflexivity|vm_compute; reflexivity].
  apply (cfg_edge (sample_move [sample_use 0]) 0 _ 1%N (cfg_entry (sample_move [sample_use 0])) eq_refl);
    [apply list_elem_of_here|cbn; lia].
Defined.

(** The borrow is held by a temporary: [let x: i32; &x; drop x; use(&x)]. *)
Definition sample_freed : MIRFunction := {|
  mir_function := Some 0;
  blocks :=
    [ MkBlock 0
        [ inst_at MIR_STORAGE_LIVE sample_i32 MIR_NO_VALUE [] (on_place 0 [] READ_COPY);
          inst_at MIR_REF sample_ref 1 [] (on_place 0 [] READ_COPY);
          inst_at MIR_STORAGE_DEAD sample_i32 MIR_NO_VALUE [] (on_place 0 [] READ_COPY);
          inst_at MIR_CALL None MIR_NO_VALUE [OPERAND_VALUE 1] (payload_callee None);
          inst_at MIR_RETURN None MIR_NO_VALUE [] (payload_constant zero_constant) ] ];
  entry := 0;
  values := [local sample_i32; local sample_ref];
  params := [];
|}.

(** [func same(r: &i32): &i32 { return r; }] *)
Definition sample_identity : MIRFunction := {|
  mir_function := Some 0;
  blocks :=
    [ MkBlock 0
        [ inst_at MIR_LOAD sample_ref 1 [] (on_place 0 [] READ_COPY);
          inst_at MIR_RETURN None MIR_NO_VALUE [OPERAND_VALUE 1] (payload_constant zero_constant) ] ];
  entry := 0;
  values := [local sample_ref; local sample_ref];
  params := [0%N];
|}.

(** Writing through a reference whose referent is gone passes. *)
Example store_through_dangling_accepted :
  sample_messages (sample_escape [sample_write_through]) = Some [] /\
  op sample_write_through = MIR_STORE /\ root_of (inst_place sample_write_through) = 1%N.
Proof. vm_compute. done. Qed.
