(* ===== verification/BorrowckEnds.v ===== *)
(** * BorrowckEnds: the borrow checker's fixed point is reached

    The slot states of a function live in a finite lattice: the values a slot
    may name are those the function mentions, a slot is opened as wide as the
    largest field stored to and as deep as the longest path, and its state
    goes down at most four steps.  Every turn of the loop that changes an entry
    climbs it, so the loop ends.

    The other loop is the recursion of [collect_sources] down the definitions
    of values.  It ends unless a definition leads round to itself
    ([collect_sources_settled]); where none does, the checker returns. *)

From S2P Require Import Prelude Types Mir Liveness SlotState Diagnostics Decl Borrowck.

(** ** Slots over a finite universe *)

Section universe.
Context (U : list MIRValueId) (W : nat).

(** A slot no deeper than [d], no wider than [W], that names values of [U] and
    is reached everywhere. *)
Fixpoint slot_ok (d : nat) (s : MIRSlot) : Prop :=
  match s with
  | MkSlot i b f =>
      i <> MIR_SLOT_UNREACHED /\ NoDup b /\ (MIR_NO_VALUE ∉ b) /\ (forall v, v ∈ b -> v ∈ U) /\ length f <= W /\
      match d with O => f = [] | S d => Forall (slot_ok d) f end
  end.

Lemma slot_ok_eq d i b f :
  slot_ok d (MkSlot i b f) <->
  i <> MIR_SLOT_UNREACHED /\ NoDup b /\ (MIR_NO_VALUE ∉ b) /\ (forall v, v ∈ b -> v ∈ U) /\ length f <= W /\
  match d with O => f = [] | S d => Forall (slot_ok d) f end.
Proof. by destruct d. Qed.

Lemma slot_ok_reached d s : slot_ok d s -> slot_init s <> MIR_SLOT_UNREACHED.
Proof. destruct s. by intros (?&_)%slot_ok_eq. Qed.

Lemma slot_ok_flat d i b :
  i <> MIR_SLOT_UNREACHED -> NoDup b -> MIR_NO_VALUE ∉ b -> (forall v, v ∈ b -> v ∈ U) -> slot_ok d (MkSlot i b []).
Proof. intros. apply slot_ok_eq. repeat split; try done; [cbn; lia|]. by destruct d. Qed.

Lemma slot_ok_leaf d i : i <> MIR_SLOT_UNREACHED -> slot_ok d (slot_leaf i).
Proof.
  intros. apply slot_ok_flat; [done|constructor|apply not_elem_of_nil|]. by intros v ?%elem_of_nil.
Qed.

Lemma slot_ok_wf d : forall s, slot_ok d s -> slot_wf s.
Proof.
  induction d as [|d IH]; intros [i b f] (? & ? & ? & ? & ? & Hf)%slot_ok_eq; constructor; try done.
  - by rewrite Hf.
  - eapply Forall_impl; [exact Hf|]. apply IH.
Qed.

Lemma slot_ok_settled d : forall s, slot_ok d s -> slot_settled s.
Proof.
  induction d as [|d IH]; intros [i b f] (? & ? & ? & ? & ? & Hf)%slot_ok_eq; constructor; try done.
  - by rewrite Hf.
  - eapply Forall_impl; [exact Hf|]. apply IH.
Qed.

Lemma slot_ok_field d s i : slot_ok d s -> slot_ok (pred d) (field_or_leaf s i).
Proof.
  destruct s as [k b f]. intros (? & ? & ? & ? & ? & Hf)%slot_ok_eq. unfold field_or_leaf. cbn.
  destruct (f !! i) as [t|] eqn:Ht; [|by apply slot_ok_leaf].
  destruct d as [|d]; [by subst f|]. by eapply Forall_lookup_1.
Qed.

Lemma slot_ok_set_init d s i : slot_ok d s -> i <> MIR_SLOT_UNREACHED -> slot_ok d (set_init s i).
Proof. destruct s. intros (? & Hrest)%slot_ok_eq ?. by apply slot_ok_eq. Qed.

Lemma slot_ok_add_borrows d s l : slot_ok d s -> (forall v, v ∈ l -> v ∈ U) -> slot_ok d (add_borrows s l).
Proof.
  destruct s as [i b f]. intros (? & ? & ? & HU & ? & ?)%slot_ok_eq Hl. rewrite add_borrows_eq. apply slot_ok_eq.
  cbn [set_borrows slot_borrows slot_init slot_fields].
  split; [done|]. split; [by apply NoDup_borrow_union|].
  split; [rewrite elem_of_borrow_union; naive_solver|]. split; [|done].
  intros v. rewrite elem_of_borrow_union. naive_solver.
Qed.

Lemma slot_ok_add_borrow d s v : slot_ok d s -> v ∈ U -> slot_ok d (mir_slot_add_borrow s v).
Proof.
  intros Hs Hv. apply (slot_ok_add_borrows d s [v] Hs). intros w ->%list_elem_of_singleton. done.
Qed.

Lemma slot_ok_map d (f : MIRSlot -> MIRSlot) l :
  (forall s, slot_ok d s -> slot_ok d (f s)) -> Forall (slot_ok d) l -> Forall (slot_ok d) (f <$> l).
Proof. intros Hf Hl. apply Forall_fmap. eapply Forall_impl; [exact Hl|]. apply Hf. Qed.

Lemma slot_ok_set_all d i : i <> MIR_SLOT_UNREACHED -> forall s, slot_ok d s -> slot_ok d (mir_slot_set_all s i).
Proof.
  intros Hi. induction d as [|d IH]; intros [k b f] (? & ? & ? & ? & ? & Hf)%slot_ok_eq; apply slot_ok_eq;
    cbn; rewrite ?length_fmap; repeat split; try done.
  - by rewrite Hf.
  - by apply slot_ok_map.
Qed.

Lemma slot_ok_invalidate d v : forall s, slot_ok d s -> slot_ok d (slot_invalidate_borrows_of s v).
Proof.
  induction d as [|d IH]; intros [k b f] (? & ? & ? & ? & ? & Hf)%slot_ok_eq; rewrite invalidate_eq; apply slot_ok_eq;
    rewrite ?length_fmap; repeat split; try done.
  - by destruct (_ && _).
  - by rewrite Hf.
  - by destruct (_ && _).
  - by apply slot_ok_map.
Qed.

Lemma slot_ok_names d v : forall s, slot_ok d s -> slot_names v s -> v ∈ U.
Proof.
  induction d as [|d IH]; intros [k b f] (? & ? & ? & HU & ? & Hf)%slot_ok_eq [Hv|(s & Hs & Hv)]%slot_names_inv;
    try by apply HU.
  - subst f. by apply elem_of_nil in Hs.
  - rewrite Forall_forall in Hf. eapply IH; [by apply Hf|done].
Qed.

Lemma slot_ok_open_fields d s n :
  slot_ok (S d) s -> n <= W -> slot_ok (S d) (mir_slot_open_fields s n).
Proof.
  intros Hs Hn. unfold mir_slot_open_fields. destruct (_ || _) eqn:Hb; [done|].
  destruct s as [i b f]. unfold field_count in *. cbn [slot_fields] in *.
  apply slot_ok_eq in Hs as (? & ? & ? & ? & ? & Hf). apply slot_ok_eq. cbn.
  repeat (split; [done|]). split.
  - apply orb_false_iff in Hb as [_ Hb%bool_decide_eq_false]. rewrite length_app, length_replicate. lia.
  - apply Forall_app. split; [done|]. apply Forall_replicate. by apply slot_ok_leaf.
Qed.

Lemma slot_ok_open_path path : forall d s,
  slot_ok d s -> length path <= d -> Forall (fun p => N.to_nat (proj_field p) + 1 <= W) path ->
  slot_ok d (open_path s path).
Proof.
  induction path as [|p path IH]; intros d s Hs Hd Hp; [done|]. cbn [length] in Hd.
  destruct d as [|d]; [lia|]. apply Forall_cons in Hp as [Hp Hpath]. cbn [open_path].
  apply (slot_ok_open_fields _ _ _ Hs) in Hp as Ho.
  destruct (mir_slot_open_fields s _) as [i b f]. cbn [set_fields slot_init slot_borrows slot_fields].
  apply slot_ok_eq in Ho as (? & ? & ? & ? & ? & Hf). apply slot_ok_eq.
  rewrite length_alter. repeat (split; [done|]).
  apply Forall_alter; [done|]. intros t _ Ht. apply IH; [done|lia|done].
Qed.

Lemma slot_ok_store_at path : forall d s stored s',
  slot_ok d s -> (forall d', slot_ok d' stored) -> store_at s path stored = Some s' -> slot_ok d s'.
Proof.
  induction path as [|p path IH]; intros d s stored s' Hs Hst; cbn [store_at]; [by intros [= <-]|].
  destruct (proj_kind p); [|done..]. destruct (_ <=? _)%N; [done|].
  intros (t & Ht & (t' & Ht' & [= <-])%bind_Some)%bind_Some.
  destruct s as [i b f]. cbn [set_fields slot_init slot_borrows slot_fields] in *.
  apply slot_ok_eq in Hs as (? & ? & ? & ? & ? & Hf). apply slot_ok_eq. rewrite length_insert.
  repeat (split; [done|]). destruct d as [|d]; [by subst f|].
  apply Forall_insert; [done|]. eapply IH; [by eapply Forall_lookup_1|done|exact Ht'].
Qed.

Lemma slot_ok_merge d : forall a b, slot_ok d a -> slot_ok d b -> slot_ok d (slot_merge a b).
Proof.
  induction d as [|d IH]; intros a b Ha Hb;
    pose proof (slot_ok_reached _ _ Ha); pose proof (slot_ok_reached _ _ Hb);
    rewrite slot_merge_reached by done; apply slot_ok_eq;
    destruct a as [ia ba fa] eqn:Ea, b as [ib bb fb] eqn:Eb;
    pose proof Ha as (? & ? & ? & ? & ? & Hfa)%slot_ok_eq; pose proof Hb as (? & ? & ? & ? & ? & Hfb)%slot_ok_eq;
    cbn [slot_init slot_borrows field_count slot_fields]; unfold field_count; cbn [slot_fields];
    rewrite length_fmap, length_seq;
    (split; [by apply init_join_unreached|]); (split; [by apply NoDup_borrow_union|]);
    (split; [rewrite elem_of_borrow_union; naive_solver|]);
    (split; [intros v; rewrite elem_of_borrow_union; naive_solver|]); (split; [lia|]).
  - by subst fa fb.
  - apply Forall_fmap, Forall_forall. intros i _. cbn. apply IH; by apply (slot_ok_field (S d)).
Qed.

(** ** The height of a slot *)

Definition init_level (i : MIRSlotInit) : nat :=
  match i with
  | MIR_SLOT_UNREACHED => 0
  | MIR_SLOT_INIT => 1
  | MIR_SLOT_DANGLING => 2
  | MIR_SLOT_MOVED => 3
  | MIR_SLOT_UNINIT => 4
  end.

Fixpoint slot_height (d : nat) (s : MIRSlot) : nat :=
  init_level (slot_init s) + length (slot_borrows s) + field_count s +
  match d with
  | O => 0
  | S d => sum_list ((fun i => slot_height d (field_or_leaf s i)) <$> seq 0 W)
  end.

Fixpoint height_bound (d : nat) : nat :=
  4 + length U + W + match d with O => 0 | S d => W * height_bound d end.

Lemma sum_list_bound {A} (f : A -> nat) n l : (forall i, f i <= n) -> sum_list (f <$> l) <= length l * n.
Proof. intros Hf. induction l as [|i l IH]; [done|]. cbn. specialize (Hf i). lia. Qed.

Lemma sum_list_mono {A} (f g : A -> nat) l :
  (forall i, i ∈ l -> f i <= g i) ->
  sum_list (f <$> l) <= sum_list (g <$> l) /\
  (sum_list (f <$> l) = sum_list (g <$> l) -> forall i, i ∈ l -> f i = g i).
Proof.
  intros Hle. induction l as [|x l IH].
  { split; [done|]. intros _ i ?%elem_of_nil. done. }
  destruct IH as [IH1 IH2]; [intros i Hi; apply Hle; by right|].
  specialize (Hle x (list_elem_of_here _ _)). cbn. split; [lia|].
  intros He i [->|Hi]%elem_of_cons; [lia|apply IH2; [lia|done]].
Qed.

Lemma slot_height_eq d s :
  slot_height d s =
  init_level (slot_init s) + length (slot_borrows s) + field_count s +
  match d with
  | O => 0
  | S d => sum_list ((fun i => slot_height d (field_or_leaf s i)) <$> seq 0 W)
  end.
Proof. by destruct d. Qed.

Lemma slot_height_bound d : forall s, slot_ok d s -> slot_height d s <= height_bound d.
Proof.
  induction d as [|d IH]; intros s Hs; rewrite slot_height_eq; cbn [height_bound];
    destruct s as [i b f] eqn:Es; pose proof Hs as (? & Hn & _ & HU & Hw & Hf)%slot_ok_eq;
    unfold field_count; cbn [slot_init slot_borrows slot_fields];
    (assert (length b <= length U) by (apply submseteq_length; by apply NoDup_submseteq));
    (assert (init_level i <= 4) by (destruct i; cbn; lia)).
  - lia.
  - pose proof (sum_list_bound (fun j => slot_height d (field_or_leaf s j)) (height_bound d) (seq 0 W)) as Hsum.
    rewrite length_seq in Hsum. subst s. etrans; [apply Nat.add_le_mono_l, Hsum|lia].
    intros j. apply IH. by apply (slot_ok_field (S d)).
Qed.

Lemma borrow_union_app l l' : exists k, borrow_union l l' = l ++ k.
Proof.
  unfold borrow_union. revert l. induction l' as [|v l' IH]; intros l; [exists []; by rewrite app_nil_r|].
  cbn. destruct (IH (add_borrow l v)) as [k ->]. unfold add_borrow. destruct (_ || _); [by eexists|].
  exists (v :: k). by rewrite <- app_assoc.
Qed.

Lemma init_join_level i j :
  i <> MIR_SLOT_UNREACHED -> j <> MIR_SLOT_UNREACHED ->
  init_level i <= init_level (init_join i j) /\ (init_level (init_join i j) = init_level i -> init_join i j = i).
Proof. destruct i, j; intros; try done; vm_compute; (split; [lia|]); intros; done || lia. Qed.

(** Joining climbs, and stays put only when it adds nothing. *)
Lemma slot_merge_height d : forall a b, slot_ok d a -> slot_ok d b ->
  slot_height d a <= slot_height d (slot_merge a b) /\
  (slot_height d (slot_merge a b) = slot_height d a -> slot_merge a b ≡ a).
Proof.
  induction d as [|d IH]; intros a b Ha Hb;
    pose proof (slot_ok_reached _ _ Ha) as Hra; pose proof (slot_ok_reached _ _ Hb) as Hrb;
    rewrite !slot_height_eq, slot_merge_init, slot_merge_count by done;
    destruct (init_join_level (slot_init a) (slot_init b) Hra Hrb) as [Hi Hi'];
    destruct (borrow_union_app (slot_borrows a) (slot_borrows b)) as [k Hk];
    (assert (Hlen : length (slot_borrows (slot_merge a b)) = length (slot_borrows a) + length k)
      by (rewrite slot_merge_reached by done; cbn [slot_borrows]; by rewrite Hk, length_app));
    rewrite Hlen.
  - split; [lia|]. intros He. apply slot_equiv_fields.
    + rewrite slot_merge_init by done. apply Hi'. lia.
    + assert (k = []) by (apply length_zero_iff_nil; lia). subst k. rewrite app_nil_r in Hk.
      intros v. rewrite slot_merge_reached by done. cbn [slot_borrows]. by rewrite Hk.
    + rewrite slot_merge_count by done. lia.
    + assert (field_count a = 0 /\ field_count b = 0) as [Hfa Hfb].
      { destruct a, b. apply slot_ok_eq in Ha as (_&_&_&_&_&->). by apply slot_ok_eq in Hb as (_&_&_&_&_&->). }
      intros i. rewrite slot_merge_count by done. lia.
  - destruct (sum_list_mono (fun i => slot_height d (field_or_leaf a i))
                (fun i => slot_height d (field_or_leaf (slot_merge a b) i)) (seq 0 W)) as [Hs Hs'].
    { intros i _. rewrite slot_merge_field by done. apply IH; by apply (slot_ok_field (S d)). }
    split; [lia|]. intros He. apply slot_equiv_fields.
    + rewrite slot_merge_init by done. apply Hi'. lia.
    + assert (k = []) by (apply length_zero_iff_nil; lia). subst k. rewrite app_nil_r in Hk.
      intros v. rewrite slot_merge_reached by done. cbn [slot_borrows]. by rewrite Hk.
    + rewrite slot_merge_count by done. lia.
    + intros i Hlt. rewrite slot_merge_count in Hlt by done. rewrite slot_merge_field by done.
      apply IH; try by apply (slot_ok_field (S d)).
      rewrite <- slot_merge_field by done. symmetry. apply (Hs' ltac:(lia)).
      apply elem_of_seq. assert (field_count a <= W /\ field_count b <= W) as [? ?]; [|lia].
      destruct a, b. apply slot_ok_eq in Ha as (_&_&_&_&?&_). apply slot_ok_eq in Hb as (_&_&_&_&?&_). done.
Qed.

(** A slot of a state: nothing is known of it, or it is within bounds. *)
Definition slot_bounded (d : nat) (s : MIRSlot) : Prop := s = slot_leaf MIR_SLOT_UNREACHED \/ slot_ok d s.

Lemma slot_height_unreached d : slot_height d (slot_leaf MIR_SLOT_UNREACHED) = 0.
Proof.
  induction d as [|d IH]; [done|]. rewrite slot_height_eq. cbn [slot_init slot_borrows slot_leaf init_level field_count].
  change (field_count (slot_leaf MIR_SLOT_UNREACHED)) with 0. cbn [length Nat.add].
  assert (Hz : forall l : list nat, sum_list ((fun i => slot_height d (field_or_leaf (slot_leaf MIR_SLOT_UNREACHED) i)) <$> l) = 0).
  { intros l. induction l as [|i l IHl]; [done|]. cbn [fmap list_fmap sum_list_with].
    change (field_or_leaf (slot_leaf MIR_SLOT_UNREACHED) i) with (slot_leaf MIR_SLOT_UNREACHED) at 1.
    rewrite IH. exact IHl. }
  apply Hz.
Qed.

Lemma slot_ok_height_pos d s : slot_ok d s -> 0 < slot_height d s.
Proof.
  intros Hs%slot_ok_reached. rewrite slot_height_eq. assert (0 < init_level (slot_init s)); [|lia].
  by destruct (slot_init s); cbn; try lia.
Qed.

Lemma bounded_merge_height d a b : slot_bounded d a -> slot_bounded d b ->
  slot_height d a <= slot_height d (slot_merge a b) /\
  (slot_height d (slot_merge a b) = slot_height d a -> slot_merge a b ≡ a).
Proof.
  intros [->|Ha] Hb.
  - rewrite slot_merge_unreached_l by done. rewrite slot_height_unreached. split; [lia|].
    destruct Hb as [->|Hb%slot_ok_height_pos]; [done|lia].
  - destruct Hb as [->|Hb]; [|by apply slot_merge_height].
    rewrite slot_merge_unreached_r; [done|by eapply slot_ok_reached|done].
Qed.

Lemma bounded_merge d a b : slot_bounded d a -> slot_bounded d b -> slot_bounded d (slot_merge a b).
Proof.
  intros [->|Ha] [->|Hb].
  - by left.
  - rewrite slot_merge_unreached_l by done. by right.
  - rewrite slot_merge_unreached_r; [by right|by eapply slot_ok_reached|done].
  - right. by apply slot_ok_merge.
Qed.

Lemma bounded_height d s : slot_bounded d s -> slot_height d s <= height_bound d.
Proof. intros [->|Hs]; [rewrite slot_height_unreached; lia|by apply slot_height_bound]. Qed.
End universe.

(** ** The values and paths a function mentions *)

Definition all_insts (ir : MIRFunction) : list MIRInst := flat_map insts (blocks ir).

Definition inst_values (inst : MIRInst) : list MIRValueId :=
  result inst :: root_of (inst_place inst) :: (mir_operand_as_value <$> args inst).

Definition mentioned (ir : MIRFunction) : list MIRValueId :=
  MIR_NO_VALUE :: params ir ++ flat_map inst_values (all_insts ir).

Definition inst_width (inst : MIRInst) : nat :=
  max_list ((fun p => N.to_nat (proj_field p) + 1) <$> projections (inst_place inst)).
Definition ir_width (ir : MIRFunction) : nat := max_list (inst_width <$> all_insts ir).
Definition ir_depth (ir : MIRFunction) : nat :=
  max_list ((fun inst => length (projections (inst_place inst))) <$> all_insts ir).

Lemma max_list_ge {A} (f : A -> nat) l x : x ∈ l -> f x <= max_list (f <$> l).
Proof. intros Hx. apply max_list_elem_of_le, list_elem_of_fmap. eauto. Qed.

Section function.
Context `{TV : TypeView}.
Context (funcs : gmap nat Function) (ir : MIRFunction) (liveness : Liveness) (rt : TypePtr) (wide_shift : nat -> N).

#[local] Abbreviation U := (mentioned ir).
#[local] Abbreviation W := (ir_width ir).
#[local] Abbreviation D := (ir_depth ir).
#[local] Abbreviation ok := (slot_ok U W D).
#[local] Abbreviation bounded := (slot_bounded U W D).
#[local] Abbreviation step := (flow_inst funcs ir liveness rt wide_shift).

Lemma mentioned_none : MIR_NO_VALUE ∈ U.
Proof. apply list_elem_of_here. Qed.

Lemma mentioned_param p : p ∈ params ir -> p ∈ U.
Proof. intros. right. apply elem_of_app. by left. Qed.

Lemma mentioned_inst inst v : inst ∈ all_insts ir -> v ∈ inst_values inst -> v ∈ U.
Proof.
  intros Hi Hv. right. apply elem_of_app. right.
  apply list_elem_of_In, in_flat_map. exists inst. by rewrite <- !list_elem_of_In.
Qed.

Lemma mentioned_root inst : inst ∈ all_insts ir -> root_of (inst_place inst) ∈ U.
Proof. intros. eapply mentioned_inst; [done|]. right. left. Qed.

Lemma mentioned_result inst : inst ∈ all_insts ir -> result inst ∈ U.
Proof. intros. eapply mentioned_inst; [done|]. left. Qed.

Lemma mentioned_arg inst arg : inst ∈ all_insts ir -> arg ∈ args inst -> mir_operand_as_value arg ∈ U.
Proof. intros. eapply mentioned_inst; [done|]. right. right. apply list_elem_of_fmap. exists arg. done. Qed.

Lemma definition_of_mentioned v inst : definition_of ir v = Some inst -> inst ∈ all_insts ir.
Proof.
  unfold definition_of. destruct (mir_value_is_none v); [done|]. intros [H _]%find_some.
  by apply list_elem_of_In.
Qed.

(** *** States within bounds *)

Definition state_ok (s : MIRState) : Prop :=
  forall v, bounded (mir_state_get s v) /\ (v ∉ U -> mir_state_get s v = slot_leaf MIR_SLOT_UNREACHED).

Lemma bounded_set_init s i : bounded s -> i <> MIR_SLOT_UNREACHED -> ok (set_init s i).
Proof. intros [->|Hs] Hi; [by apply slot_ok_leaf|by apply slot_ok_set_init]. Qed.

Lemma bounded_set_all s i : bounded s -> i <> MIR_SLOT_UNREACHED -> ok (mir_slot_set_all s i).
Proof. intros [->|Hs] Hi; [by apply slot_ok_leaf|by apply slot_ok_set_all]. Qed.

Lemma bounded_names s v : bounded s -> slot_names v s -> v ∈ U.
Proof.
  intros [->|Hs] Hv; [|by eapply slot_ok_names].
  apply slot_names_inv in Hv as [Hv|(? & Hv & _)]; by apply elem_of_nil in Hv.
Qed.

Lemma state_ok_set s v slot : state_ok s -> v ∈ U -> ok slot -> state_ok (mir_state_set s v slot).
Proof.
  intros Hs Hv Hslot w. rewrite state_get_set. case_bool_decide; [subst|apply Hs].
  split; [by right|done].
Qed.

Lemma state_ok_invalidate s v : state_ok s -> state_ok (mir_state_invalidate_borrows_of s v).
Proof.
  intros Hs w. rewrite state_get_invalidate. destruct (Hs w) as [Hb Hn]. split.
  - destruct Hb as [->|Hb]; [by left|right; by apply slot_ok_invalidate].
  - intros Hw. by rewrite (Hn Hw).
Qed.

Lemma state_ok_wf s : state_ok s -> state_wf s.
Proof.
  intros Hs v slot Hv. destruct (Hs v) as [Hb _]. unfold mir_state_get in Hb. rewrite Hv in Hb. cbn in Hb.
  destruct Hb as [Hb|Hb]; [unfold id in Hb; subst; apply slot_leaf_wf|by eapply slot_ok_wf].
Qed.

Lemma state_ok_settled s : state_ok s -> state_settled s.
Proof.
  intros Hs v slot Hv. destruct (Hs v) as [Hb _]. unfold mir_state_get in Hb. rewrite Hv in Hb. cbn in Hb.
  destruct Hb as [Hb|Hb]; [unfold id in Hb; subst; constructor; [done|constructor]|by eapply slot_ok_settled].
Qed.

Lemma state_ok_merge a b : state_ok a -> state_ok b -> state_ok (mir_state_merge a b).
Proof.
  intros Ha Hb v. destruct (unreachable a) eqn:Hua, (unreachable b) eqn:Hub.
  1-3: unfold mir_state_merge; rewrite Hua, Hub, ?state_copy_id; auto.
  rewrite state_merge_get by (done || by apply state_ok_settled).
  destruct (Ha v) as [Ba Na], (Hb v) as [Bb Nb]. split; [by apply bounded_merge|].
  intros Hv. by rewrite (Na Hv), (Nb Hv).
Qed.

(** *** Sources are mentioned values *)

(** The function only adds borrows of mentioned values. *)
Definition adds (into into' : MIRSlot) : Prop :=
  exists l, (forall v, v ∈ l -> v ∈ U) /\ into' = add_borrows into l.

Lemma adds_refl s : adds s s.
Proof. exists []. split; [by intros v ?%elem_of_nil|done]. Qed.

Lemma adds_trans a b c : adds a b -> adds b c -> adds a c.
Proof.
  intros (l & Hl & ->) (l' & Hl' & ->). exists (l ++ l'). split.
  - intros v [?|?]%elem_of_app; auto.
  - unfold add_borrows. by rewrite foldl_app.
Qed.

Lemma adds_one s v : v ∈ U -> adds s (mir_slot_add_borrow s v).
Proof. intros Hv. exists [v]. split; [by intros w ->%list_elem_of_singleton|done]. Qed.

Lemma adds_flat s slot : bounded slot -> adds s (add_borrows s (slot_borrows (mir_slot_flattened slot))).
Proof.
  intros Hb. eexists. split; [|done]. intros v [Hv _]%flattened_borrows. by eapply bounded_names.
Qed.

Lemma adds_foldl {A} (f : MIRSlot -> A -> MIRSlot) l :
  (forall into x, x ∈ l -> adds into (f into x)) -> forall into, adds into (foldl f into l).
Proof.
  induction l as [|x l IH]; intros Hf into; [apply adds_refl|]. cbn.
  eapply adds_trans; [apply Hf; left|]. apply IH. intros. apply Hf. by right.
Qed.

Lemma slot_walk_bounded path : forall d s s',
  slot_ok U W d s -> slot_walk s path = Some s' -> forall v, slot_names v s' -> v ∈ U.
Proof.
  induction path as [|p path IH]; intros d s s' Hs; cbn [slot_walk].
  - intros [= <-] v. by eapply slot_ok_names.
  - destruct (proj_kind p); [|by intros [= <-] v; eapply slot_ok_names..].
    destruct (_ <=? _)%N; [done|]. intros (t & Ht & Hw)%bind_Some.
    eapply IH; [|exact Hw]. apply (slot_ok_field U W d s (N.to_nat field)) in Hs.
    unfold field_or_leaf in Hs. rewrite Ht in Hs. exact Hs.
Qed.

Lemma slot_of_names s place slot v :
  state_ok s -> slot_of s place = Some slot -> slot_names v slot -> v ∈ U.
Proof.
  intros Hs. unfold slot_of. destruct (mir_value_is_none _); [done|].
  destruct (Hs (root_of place)) as [[-> | Hb] _]; [|intros; by eapply slot_walk_bounded].
  destruct (projections place) as [|p l]; cbn.
  - intros [= <-]. apply bounded_names. by left.
  - destruct (proj_kind p); [destruct (_ <=? _)%N; [done|]; rewrite lookup_nil; done|..];
      intros [= <-]; apply bounded_names; by left.
Qed.

Lemma collect_place_sources_adds s place into :
  state_ok s -> root_of place ∈ U -> adds into (collect_place_sources ir s place into).
Proof.
  intros Hs Hr. unfold collect_place_sources. destruct (mir_value_is_none _); [apply adds_refl|].
  destruct (_ && _); [by apply adds_one|].
  set (named := default _ _). assert (Hn : forall v, slot_names v named -> v ∈ U).
  { intros v Hv. unfold named in Hv. destruct (slot_of s place) eqn:Hp; cbn in Hv;
      [by eapply slot_of_names|]. eapply bounded_names; [apply Hs|exact Hv]. }
  assert (Hf : adds into (add_borrows into (slot_borrows (mir_slot_flattened named)))).
  { eexists. split; [|done]. intros v [Hv _]%flattened_borrows. auto. }
  destruct (_ && _); [|done]. eapply adds_trans; [exact Hf|by apply adds_one].
Qed.

Lemma source_args_sub inst arg : arg ∈ source_args funcs inst -> arg ∈ args inst.
Proof.
  assert (Hn : arg ∈ named_args (callee_of funcs inst) (args inst) -> arg ∈ args inst).
  { unfold named_args. rewrite list_elem_of_omap. intros ([i a] & Hi & Ha).
    destruct (call_result_may_name _ _); [|done]. injection Ha as [= ->].
    apply elem_of_lookup_imap in Hi as (j & y & [= -> ->] & Hj). by eapply list_elem_of_lookup_2. }
  unfold source_args. destruct (op inst), (negb (borrows_memory (inst_type inst))); try done; by intros ?%elem_of_nil.
Qed.

Lemma foldl_none {A B} (f : A -> B -> option B) l :
  foldl (fun into x => into ← into; f x into) None l = None.
Proof. by induction l. Qed.

Lemma collect_sources_adds n s : state_ok s -> forall v into slot,
  v ∈ U -> collect_sources funcs ir n s v into = Some slot -> adds into slot.
Proof.
  intros Hs. induction n as [|n IH]; intros v into slot Hv; [done|]. cbn [collect_sources].
  destruct (definition_of ir v) as [inst|] eqn:Hd.
  - apply definition_of_mentioned in Hd.
    assert (Hargs : forall l into, l ⊆ source_args funcs inst ->
      foldl (fun into arg => into ← into; collect_sources funcs ir n s (mir_operand_as_value arg) into) (Some into) l = Some slot ->
      adds into slot).
    { induction l as [|arg l IHl]; intros into' Hl; cbn [foldl]; [intros [= ->]; apply adds_refl|]. cbn [mbind option_bind].
      destruct (collect_sources _ _ _ _ _ _) as [into1|] eqn:Hc; [|by rewrite foldl_none].
      intros H. eapply adds_trans; [eapply IH; [|exact Hc]|apply IHl; [set_solver|exact H]].
      eapply mentioned_arg; [done|]. apply source_args_sub, Hl. left. }
    assert (Hplace : adds into (collect_place_sources ir s (inst_place inst) into)).
    { apply collect_place_sources_adds; [done|by apply mentioned_root]. }
    destruct (op inst); try (intros [= <-]; exact Hplace); apply (Hargs _ _ (reflexivity _)).
  - intros [= <-]. unfold collect_undefined. assert (Hf := adds_flat into _ (proj1 (Hs v))).
    destruct (bool_decide _); [done|]. destruct (_ || _); [|done].
    eapply adds_trans; [exact Hf|by apply adds_one].
Qed.

Lemma ok_adds d s s' : slot_ok U W d s -> adds s s' -> slot_ok U W d s'.
Proof. intros Hs (l & Hl & ->). by apply slot_ok_add_borrows. Qed.

(** *** Every instruction stays within bounds *)

Definition flow_ok (flow : MIRFlow) : Prop := state_ok (flow_state flow).

Lemma collect_ok flow v into flow' slot :
  collect funcs ir flow v into = (flow', slot) -> flow_ok flow -> v ∈ U -> flow_ok flow' /\ adds into slot.
Proof.
  unfold collect. destruct (collect_sources _ _ _ _ _ _) as [slot'|] eqn:Hc; intros [= <- <-] Hf Hv; (split; [exact Hf|]).
  - by eapply collect_sources_adds.
  - apply adds_refl.
Qed.

Lemma flow_ok_report_outlives flow span m v held_in b field :
  flow_ok flow -> flow_ok (report_outlives funcs ir liveness flow span m v held_in b field).
Proof. unfold flow_ok. by rewrite (proj1 (report_outlives_spec _ _ _ _ _ _ _ _ _ _)). Qed.

Lemma flow_ok_report flow span m : flow_ok flow -> flow_ok (report flow span m).
Proof. unfold flow_ok. by rewrite with_state_report. Qed.

Lemma flow_ok_foldl {A} (f : MIRFlow -> A -> MIRFlow) l :
  (forall flow x, flow_ok flow -> flow_ok (f flow x)) -> forall flow, flow_ok flow -> flow_ok (foldl f flow l).
Proof. intros Hf. induction l as [|x l IH]; intros flow H; [done|]. cbn. auto. Qed.

Lemma flow_ok_check_readable flow place span : flow_ok flow -> flow_ok (check_readable ir flow place span).
Proof.
  intros H. unfold check_readable. destruct (mir_value_is_none _); [done|].
  destruct (state_of _ _); try done; try by apply flow_ok_report. destruct (tv_is_indirect _); [by apply flow_ok_report|done].
Qed.

Lemma flow_ok_check_argument span flow arg : flow_ok flow -> flow_ok (check_argument span flow arg).
Proof.
  intros H. unfold check_argument. destruct (bool_decide _); [done|].
  destruct (slot_init _); done || by apply flow_ok_report.
Qed.

Lemma flow_ok_set_adds flow v into slot :
  flow_ok flow -> v ∈ U -> ok into -> adds into slot -> flow_ok (flow_set flow v slot).
Proof. intros H Hv Hi Ha. apply state_ok_set; [done|done|by eapply ok_adds]. Qed.

Lemma leaf_init_ok d : slot_ok U W d (slot_leaf MIR_SLOT_INIT).
Proof. by apply slot_ok_leaf. Qed.

Section inst.
Context (flow : MIRFlow) (inst : MIRInst).
Hypothesis (Hf : flow_ok flow) (Hin : inst ∈ all_insts ir).

Lemma flow_ok_take : flow_ok (flow_take ir flow inst).
Proof.
  unfold flow_take. pose proof (flow_ok_check_readable flow (inst_place inst) (inst_span inst) Hf) as Hc.
  eapply flow_ok_set_adds; [done|by apply mentioned_result|apply leaf_init_ok|].
  apply collect_place_sources_adds; [done|by apply mentioned_root].
Qed.

Lemma flow_ok_call : flow_ok (flow_call funcs ir flow inst).
Proof.
  unfold flow_call.
  assert (Hc : flow_ok (foldl (check_argument (inst_span inst)) flow (args inst)))
    by (apply flow_ok_foldl; [intros; by apply flow_ok_check_argument|done]).
  destruct (collect _ _ _ _ _) as [flow1 slot] eqn:Hs. apply collect_ok in Hs as [H1 Ha]; [|done|by apply mentioned_result].
  eapply flow_ok_set_adds; [done|by apply mentioned_result|apply leaf_init_ok|done].
Qed.

Lemma open_path_ok slot depth :
  ok slot -> ok (open_path slot (take depth (projections (inst_place inst)))).
Proof.
  intros Hs. apply slot_ok_open_path; [done|..].
  - rewrite length_take. pose proof (max_list_ge (fun i => length (projections (inst_place i))) _ _ Hin).
    unfold ir_depth. cbn beta in *. lia.
  - apply Forall_take, Forall_forall. intros p Hp.
    pose proof (max_list_ge (fun p => N.to_nat (proj_field p) + 1) _ _ Hp).
    pose proof (max_list_ge inst_width _ _ Hin). unfold ir_width, inst_width in *. cbn beta in *. lia.
Qed.

Lemma flow_ok_store : flow_ok (flow_store funcs ir liveness flow inst).
Proof.
  unfold flow_store. destruct (args inst) as [|arg rest] eqn:Ha; [done|].
  assert (Harg : mir_operand_as_value arg ∈ U) by (eapply mentioned_arg; [done|rewrite Ha; left]).
  destruct (mir_value_is_none _); [done|].
  destruct (reaches_past_its_root _); [destruct (borrows_memory _); [by apply flow_ok_report_outlives|done]|].
  set (root := root_of (inst_place inst)). assert (Hroot : root ∈ U) by by apply mentioned_root.
  destruct (collect _ _ _ _ _) as [flow0 stored] eqn:Hc. apply collect_ok in Hc as [H0 Hst]; [|done|done].
  set (flow1 := if _ && _ then invalidate flow0 root else flow0).
  assert (H1 : flow_ok flow1) by (unfold flow1; destruct (_ && _); [by apply state_ok_invalidate|done]).
  clearbody flow1.
  set (flow2 := if bool_decide (0 < _) then _ else flow1).
  assert (H2 : flow_ok flow2).
  { unfold flow2. destruct (bool_decide (0 < _)); [|done]. apply state_ok_set; [done|done|].
    apply open_path_ok, bounded_set_init; [apply H1|done]. }
  clearbody flow2.
  set (flow3 := match store_into _ _ _ _ with Some _ => _ | None => _ end).
  assert (H3 : flow_ok flow3).
  { unfold flow3. destruct (store_into _ _ _ _) as [state|] eqn:Hs.
    - unfold store_into in Hs. destruct (mir_value_is_none _); [done|].
      apply bind_Some in Hs as (slot & Hs & [= <-]). apply state_ok_set; [done|done|].
      destruct (H2 root) as [[Hr|Hr] _].
      + fold root in Hs. rewrite Hr in Hs. destruct (take _ _) as [|p l]; cbn in Hs.
        * injection Hs as [= <-]. eapply ok_adds; [apply leaf_init_ok|done].
        * destruct (proj_kind p); [destruct (_ <=? _)%N|..]; done.
      + eapply slot_ok_store_at; [exact Hr| |exact Hs]. intros d. eapply ok_adds; [apply leaf_init_ok|done].
    - destruct (collect _ _ _ _ _) as [flow4 slot] eqn:Hc. apply collect_ok in Hc as [H4 Had]; [|done|done].
      eapply flow_ok_set_adds; [done|done| |done]. apply bounded_set_init; [apply H2|done]. }
  clearbody flow3. destruct (borrows_memory _); [by apply flow_ok_report_outlives|done].
Qed.

Lemma flow_ok_inst : flow_ok (step flow inst).
Proof.
  assert (Hroot : root_of (inst_place inst) ∈ U) by by apply mentioned_root.
  unfold flow_inst. destruct (op inst); try done; try apply flow_ok_call; try apply flow_ok_take.
  - unfold flow_load. destruct (negb _); [apply flow_ok_take|].
    apply state_ok_set; [apply flow_ok_take|done|]. apply bounded_set_all; [apply flow_ok_take|done].
  - apply flow_ok_store.
  - unfold flow_drop. apply flow_ok_foldl; [|by apply state_ok_invalidate]. intros. by apply state_ok_invalidate.
  - apply state_ok_set; [done|done|by apply slot_ok_leaf].
  - apply state_ok_set; [by apply state_ok_invalidate|done|by apply slot_ok_leaf].
  - apply state_ok_set; [done|done|]. apply bounded_set_init; [apply Hf|done].
  - unfold flow_ok. by rewrite flow_state_return.
Qed.
End inst.

Lemma flow_ok_block flow b :
  flow_ok flow -> b ∈ blocks ir -> flow_ok (flow_block funcs ir liveness rt wide_shift flow b).
Proof.
  intros Hf Hb. unfold flow_block.
  assert (Hl : forall inst, inst ∈ insts b -> inst ∈ all_insts ir).
  { intros inst Hi. unfold all_insts. apply list_elem_of_In, in_flat_map. exists b. by rewrite <- !list_elem_of_In. }
  revert flow Hf Hl. generalize (insts b) as l. induction l as [|inst l IH]; intros flow Hf Hl; [done|].
  cbn. apply IH; [|intros; apply Hl; by right]. apply flow_ok_inst; [done|]. apply Hl. left.
Qed.

(** *** The loop climbs *)

Definition state_height (s : MIRState) : nat :=
  if unreachable s then 0 else S (sum_list ((fun v => slot_height W D (mir_state_get s v)) <$> U)).

Definition entries_height (entries : list MIRState) : nat := sum_list (state_height <$> entries).

Definition state_height_bound : nat := S (length U * height_bound U W D).

Lemma state_height_le s : state_ok s -> state_height s <= state_height_bound.
Proof.
  intros Hs. unfold state_height, state_height_bound. destruct (unreachable s); [lia|].
  apply le_n_S, sum_list_bound. intros v. apply bounded_height, Hs.
Qed.

Lemma sum_list_insert {A} (f : A -> nat) l i x y :
  l !! i = Some x -> sum_list (f <$> <[i := y]> l) + f x = sum_list (f <$> l) + f y.
Proof.
  revert i. induction l as [|z l IH]; intros [|i]; try done.
  - intros [= ->]. change (f y + sum_list (f <$> l) + f x = f x + sum_list (f <$> l) + f y). lia.
  - intros H. specialize (IH i H). change (f z + sum_list (f <$> <[i := y]> l) + f x = f z + sum_list (f <$> l) + f y). lia.
Qed.

(** Joining a reached exit into an entry raises it, unless the code finds the
    two equal. *)
Lemma merge_height target exit :
  state_ok target -> state_ok exit -> unreachable exit = false ->
  mir_state_equals (mir_state_merge target exit) target = false ->
  state_height target < state_height (mir_state_merge target exit).
Proof.
  intros Ht He Hu Hne. unfold state_height. rewrite state_merge_unreachable, Hu, andb_false_r.
  destruct (unreachable target) eqn:Hut; [lia|]. apply -> Nat.succ_lt_mono.
  assert (Hget : forall v, mir_state_get (mir_state_merge target exit) v =
                      slot_merge (mir_state_get target v) (mir_state_get exit v)).
  { intros v. apply state_merge_get; [done|done|by apply state_ok_settled]. }
  destruct (sum_list_mono (fun v => slot_height W D (mir_state_get target v))
              (fun v => slot_height W D (mir_state_get (mir_state_merge target exit) v)) U) as [Hle Heq].
  { intros v _. rewrite Hget. apply (bounded_merge_height U); [apply Ht|apply He]. }
  apply Nat.le_neq. split; [exact Hle|]. intros Hsum.
  apply not_true_iff_false in Hne. apply Hne. apply state_equals_equiv; [by apply state_ok_wf, state_ok_merge|by apply state_ok_wf|].
  split; [by rewrite state_merge_unreachable, Hu, Hut|]. intros v. rewrite Hget.
  destruct (decide (v ∈ U)) as [Hv|Hv].
  - apply (bounded_merge_height U W D); [apply Ht|apply He|]. rewrite <- Hget. symmetry. by apply Heq.
  - rewrite (proj2 (Ht v) Hv), (proj2 (He v) Hv). done.
Qed.

Definition entries_bounded (entries : list MIRState) : Prop :=
  length entries = block_count ir /\ Forall state_ok entries.

(** What a part of a turn does to the entries: it keeps their bounds, and
    raises them when it sets the flag. *)
Definition climbs (changed changed' : bool) (entries entries' : list MIRState) : Prop :=
  entries_bounded entries' /\ entries_height entries <= entries_height entries' /\
  (changed' = true -> changed = true \/ entries_height entries < entries_height entries').

Lemma climbs_refl changed entries : entries_bounded entries -> climbs changed changed entries entries.
Proof. intros H. split; [done|]. split; [lia|]. by left. Qed.

Lemma climbs_trans c c' c'' e e' e'' : climbs c c' e e' -> climbs c' c'' e' e'' -> climbs c c'' e e''.
Proof.
  intros (_ & Hle & Hc) (Hb & Hle' & Hc'). split; [done|]. split; [lia|].
  intros Ht. destruct (Hc' Ht) as [Ht'|]; [|right; lia]. destruct (Hc Ht'); [by left|right; lia].
Qed.

Lemma merge_into_climbs exit changed entries s :
  state_ok exit -> unreachable exit = false -> entries_bounded entries ->
  let acc := merge_into exit (changed, entries) s in climbs changed acc.1 entries acc.2.
Proof.
  intros He Hu [Hlen Hall]. cbn zeta. cbn [merge_into].
  destruct (entries !! N.to_nat s) as [target|] eqn:Ht; [|by apply climbs_refl].
  rewrite !state_copy_id.
  destruct (mir_state_equals _ _) eqn:Heq; cbn [negb fst snd]; [by apply climbs_refl|].
  assert (Hok : state_ok target) by by eapply Forall_lookup_1.
  pose proof (merge_height target exit Hok He Hu Heq) as Hlt.
  pose proof (sum_list_insert state_height entries (N.to_nat s) target (mir_state_merge target exit) Ht) as Hsum.
  unfold climbs, entries_height. split; [|split; [lia|right; lia]].
  split; [by rewrite length_insert|]. apply Forall_insert; [done|by apply state_ok_merge].
Qed.

Lemma foldl_merge_into_climbs exit l : forall changed entries,
  state_ok exit -> unreachable exit = false -> entries_bounded entries ->
  let acc := foldl (merge_into exit) (changed, entries) l in climbs changed acc.1 entries acc.2.
Proof.
  induction l as [|s l IH]; intros changed entries He Hu Hb; cbn zeta; [by apply climbs_refl|]. cbn [foldl].
  pose proof (merge_into_climbs exit changed entries s He Hu Hb) as Hc. cbn zeta in Hc.
  destruct (merge_into exit (changed, entries) s) as [c e]. cbn [fst snd] in Hc.
  eapply climbs_trans; [exact Hc|]. apply IH; [done|done|apply Hc].
Qed.

Lemma flow_step_climbs changed entries flow i :
  entries_bounded entries ->
  let acc := flow_step funcs ir liveness rt wide_shift (changed, (entries, flow)) i in
  climbs changed acc.1 entries acc.2.1.
Proof.
  intros Hb. cbn zeta. cbn [flow_step].
  destruct (entries !! i) as [e|] eqn:He, (blocks ir !! i) as [b|] eqn:Hbl; try by apply climbs_refl.
  destruct (unreachable e) eqn:Hu; [by apply climbs_refl|]. rewrite state_copy_id.
  set (flow' := flow_block _ _ _ _ _ _ _).
  assert (Hok : state_ok (flow_state flow')).
  { apply flow_ok_block; [|by eapply list_elem_of_lookup_2]. destruct Hb as [_ Hall]. exact (Forall_lookup_1 _ _ _ _ Hall He). }
  assert (Hu' : unreachable (flow_state flow') = false) by (unfold flow'; by rewrite unreachable_block).
  pose proof (foldl_merge_into_climbs (flow_state flow') (mir_block_successors b) changed entries Hok Hu' Hb) as Hc.
  cbn zeta in Hc. by destruct (foldl _ _ _).
Qed.

Lemma flow_turn_climbs a :
  entries_bounded a.1 ->
  let r := flow_turn funcs ir liveness rt wide_shift a in
  climbs false r.1 a.1 r.2.1.
Proof.
  unfold flow_turn. generalize (seq 0 (block_count ir)) as l. intros l Hb. cbn zeta.
  enough (H : forall changed a, entries_bounded a.1 ->
    let r := foldl (flow_step funcs ir liveness rt wide_shift) (changed, a) l in climbs changed r.1 a.1 r.2.1) by exact (H false a Hb).
  clear a Hb. induction l as [|i l IH]; intros changed [entries flow] Hb; cbn zeta; [by apply climbs_refl|]. cbn [foldl].
  pose proof (flow_step_climbs changed entries flow i Hb) as Hc. cbn zeta in Hc.
  destruct (flow_step _ _ _ _ _ _ i) as [c a']. cbn [fst snd] in *.
  eapply climbs_trans; [exact Hc|]. apply IH. apply Hc.
Qed.

Lemma entries_height_le entries :
  entries_bounded entries -> entries_height entries <= block_count ir * state_height_bound.
Proof.
  intros [<- Hall]. unfold entries_height. induction Hall as [|e entries He _ IH]; [done|].
  pose proof (state_height_le e He).
  change (state_height e + sum_list (state_height <$> entries) <= state_height_bound + length entries * state_height_bound). lia.
Qed.

Lemma initial_entries_bounded : entries_bounded (initial_entries ir).
Proof.
  assert (Hempty : forall u, state_ok (MkState ∅ u)) by (intros u v; split; [by left|done]).
  unfold initial_entries. split; [by rewrite length_insert, length_replicate|].
  apply Forall_insert; [by apply Forall_replicate|].
  enough (H : forall l s, (forall p, p ∈ l -> p ∈ params ir) -> state_ok s ->
    state_ok (foldl (fun s p => mir_state_set s p (param_slot ir p)) s l)) by by apply H.
  induction l as [|p l IH]; intros s Hl Hs; [done|]. cbn. apply IH; [intros; apply Hl; by right|].
  assert (Hp : p ∈ U) by (apply mentioned_param, Hl; left).
  apply state_ok_set; [done|done|]. unfold param_slot.
  destruct (mir_value_info ir p) as [info|]; [|apply leaf_init_ok].
  destruct (borrows_memory _); [|apply leaf_init_ok]. apply slot_ok_add_borrow; [apply leaf_init_ok|done].
Qed.

(** Enough turns. *)
Lemma flow_loop_ends fuel flow :
  block_count ir * state_height_bound < fuel ->
  is_Some (while_changed fuel (flow_turn funcs ir liveness rt wide_shift) (initial_entries ir, flow)).
Proof.
  intros Hfuel.
  apply (while_changed_terminates _ (fun a => entries_bounded a.1) (fun a => entries_height a.1)
           (block_count ir * state_height_bound)).
  - intros a Ha. apply (flow_turn_climbs a Ha).
  - intros a Ha. by apply entries_height_le.
  - intros a Ha Hc. destruct (flow_turn_climbs a Ha) as (_ & _ & H). destruct (H Hc); [done|lia].
  - apply initial_entries_bounded.
  - lia.
Qed.
End function.

(** The turns the loop may take on a function: blocks times the height of a
    state. *)
Definition borrowck_fuel (ir : MIRFunction) : nat := S (block_count ir * state_height_bound ir).

(** ** Chains of definitions *)

Section chains.
Context `{TV : TypeView}.
Context (funcs : gmap nat Function) (ir : MIRFunction).

(** [collect_sources] goes on from [v] to [w]. *)
Definition draws_on (v w : MIRValueId) : Prop :=
  exists inst arg, definition_of ir v = Some inst /\ op inst <> MIR_LOAD /\ op inst <> MIR_REF /\
    arg ∈ source_args funcs inst /\ w = mir_operand_as_value arg.

(** There is a chain of [n] definitions from [v] on. *)
Fixpoint chain (n : nat) (v : MIRValueId) : Prop :=
  match n with O => True | S n => exists w, draws_on v w /\ chain n w end.

Lemma foldl_bind_none {A B} (f : A -> B -> option B) (P : A -> Prop) l : forall into,
  (forall x, x ∈ l -> forall into, f x into = None <-> P x) ->
  foldl (fun into x => into ← into; f x into) (Some into) l = None <-> Exists P l.
Proof.
  induction l as [|x l IH]; intros into Hf; cbn [foldl]; [by rewrite Exists_nil|].
  rewrite Exists_cons, <- (Hf x (list_elem_of_here _ _) into). cbn [mbind option_bind].
  destruct (f x into) as [into'|]; [|rewrite foldl_none; tauto].
  rewrite IH by (intros; apply Hf; by right). naive_solver.
Qed.

(** The walk fails exactly when it is longer than the fuel. *)
Lemma collect_sources_none n state : forall v into,
  collect_sources funcs ir n state v into = None <-> chain n v.
Proof.
  induction n as [|n IH]; intros v into; [done|]. cbn [collect_sources chain].
  destruct (definition_of ir v) as [inst|] eqn:Hd;
    [|split; [done|]; intros (w & (i & a & Hi & _) & _); congruence].
  assert (Hl : foldl (fun into arg => into ← into; collect_sources funcs ir n state (mir_operand_as_value arg) into)
                 (Some into) (source_args funcs inst) = None <->
               Exists (fun arg => chain n (mir_operand_as_value arg)) (source_args funcs inst)).
  { apply foldl_bind_none. intros arg _ into'. apply IH. }
  rewrite Exists_exists in Hl.
  assert (Hc : op inst <> MIR_LOAD -> op inst <> MIR_REF ->
    (exists w, draws_on v w /\ chain n w) <->
    exists arg, arg ∈ source_args funcs inst /\ chain n (mir_operand_as_value arg)).
  { intros H1 H2. split.
    - intros (w & (inst' & arg & Hi & _ & _ & Ha & ->) & Hc). assert (inst' = inst) as -> by congruence. eauto.
    - intros (arg & Ha & Hc). exists (mir_operand_as_value arg). split; [|done]. exists inst, arg. done. }
  assert (Hp : op inst = MIR_LOAD \/ op inst = MIR_REF -> ~ exists w, draws_on v w /\ chain n w).
  { intros Ho (w & (inst' & arg & Hi & H1 & H2 & _) & _). assert (inst' = inst) as -> by congruence. by destruct Ho. }
  destruct (op inst) eqn:Ho;
    try (rewrite Hl, Hc by congruence; reflexivity); (split; [done|]; intros Hw; exfalso; apply Hp; auto).
Qed.

(** A walk that ends is not changed by more fuel. *)
Lemma collect_sources_mono n m state : forall v into slot,
  collect_sources funcs ir n state v into = Some slot -> n <= m ->
  collect_sources funcs ir m state v into = Some slot.
Proof.
  revert m. induction n as [|n IH]; intros m v into slot H Hm; [done|]. destruct m as [|m]; [lia|].
  cbn [collect_sources] in *. destruct (definition_of ir v) as [inst|]; [|done].
  assert (Hl : forall l into, foldl (fun into arg => into ← into; collect_sources funcs ir n state (mir_operand_as_value arg) into)
                 (Some into) l = Some slot ->
               foldl (fun into arg => into ← into; collect_sources funcs ir m state (mir_operand_as_value arg) into)
                 (Some into) l = Some slot).
  { induction l as [|arg l IHl]; intros into'; [done|]. cbn [foldl mbind option_bind].
    destruct (collect_sources funcs ir n _ _ _) as [into1|] eqn:Hc; [|by rewrite foldl_none].
    apply (IH m) in Hc as ->; [|lia]. apply IHl. }
  destruct (op inst); try exact H; by apply Hl.
Qed.

(** *** A long chain goes round *)

Definition goes_round (v : MIRValueId) : Prop := exists w, rtc draws_on v w /\ tc draws_on w w.

Lemma goes_round_chain n : forall v, goes_round v -> chain n v.
Proof.
  induction n as [|n IH]; intros v (w & Hvw & Hww); [done|].
  assert (Hvw' : tc draws_on v w) by (by eapply tc_rtc_l).
  cbn [chain]. inversion Hvw' as [? ? Hd|? u ? Hd Hrest]; subst.
  - exists w. split; [done|]. apply IH. by exists w.
  - exists u. split; [done|]. apply IH. exists w. split; [by apply tc_rtc|done].
Qed.

(** The values a chain passes through, each drawing on the next. *)
Lemma chain_path n : forall v, chain n v ->
  exists l, length l = n /\ (l = [] \/ head l = Some v) /\
    (forall k a b, l !! k = Some a -> l !! S k = Some b -> draws_on a b) /\
    (forall a, a ∈ l -> exists w, draws_on a w).
Proof.
  induction n as [|n IH]; intros v Hc.
  { exists []. repeat split; [by left|done|]. intros a ?%elem_of_nil. done. }
  destruct Hc as (w & Hd & Hc). destruct (IH w Hc) as (l & Hlen & Hhd & Hstep & Hin).
  exists (v :: l). split; [cbn; lia|]. split; [by right|]. split.
  - intros [|k] a b; cbn; [|apply Hstep]. intros [= <-] Hb.
    destruct Hhd as [->|Hh]; [done|]. destruct l; [done|]. cbn in *. by simplify_eq.
  - intros a [->|Ha]%elem_of_cons; [eauto|by apply Hin].
Qed.

Lemma path_tc (l : list MIRValueId) j : forall i a b,
  (forall k a b, l !! k = Some a -> l !! S k = Some b -> draws_on a b) ->
  l !! i = Some a -> l !! (i + S j) = Some b -> tc draws_on a b.
Proof.
  induction j as [|j IH]; intros i a b Hstep Ha Hb.
  - apply tc_once. eapply Hstep; [exact Ha|]. by replace (i + 1) with (S i) in Hb by lia.
  - assert (is_Some (l !! (i + S j))) as [c Hc].
    { apply lookup_lt_is_Some. apply lookup_lt_Some in Hb. lia. }
    eapply tc_r; [by eapply IH|]. eapply Hstep; [exact Hc|]. by replace (S (i + S j)) with (i + S (S j)) by lia.
Qed.

Lemma dup_positions (l : list MIRValueId) :
  ~ NoDup l -> exists i j a, l !! i = Some a /\ l !! (i + S j) = Some a.
Proof.
  induction l as [|x l IH]; intros Hn; [destruct Hn; constructor|].
  destruct (decide (x ∈ l)) as [Hx|Hx].
  - apply list_elem_of_lookup in Hx as [j Hj]. by exists 0, j, x.
  - destruct IH as (i & j & a & Hi & Hj); [intros Hl; apply Hn; by constructor|]. by exists (S i), j, a.
Qed.

Lemma draws_on_defined v w : draws_on v w -> v ∈ result <$> flat_map insts (blocks ir).
Proof.
  intros (inst & _ & Hd & _). apply list_elem_of_fmap. exists inst. unfold definition_of in Hd.
  destruct (mir_value_is_none v); [done|]. apply find_some in Hd as [Hin Hv].
  apply andb_true_iff in Hv as [_ Hv%N.eqb_eq]. split; [done|by apply list_elem_of_In].
Qed.

Lemma long_chain_goes_round v : chain (sources_fuel ir) v -> goes_round v.
Proof.
  intros Hc. destruct (chain_path _ _ Hc) as (l & Hlen & Hhd & Hstep & Hin).
  assert (Hdup : ~ NoDup l).
  { intros Hnd. assert (Hs : l ⊆+ (result <$> flat_map insts (blocks ir))).
    { apply NoDup_submseteq; [done|]. intros a Ha. destruct (Hin a Ha) as [w Hw]. by eapply draws_on_defined. }
    apply submseteq_length in Hs. rewrite length_fmap in Hs. unfold sources_fuel in Hlen. lia. }
  apply dup_positions in Hdup as (i & j & a & Hi & Hj). exists a. split; [|exact (path_tc l j i a a Hstep Hi Hj)].
  destruct Hhd as [->|Hh]; [done|]. destruct l as [|v' l]; [done|]. cbn in Hh. injection Hh as ->.
  destruct i as [|i]; [cbn in Hi; injection Hi as ->; done|].
  apply tc_rtc. eapply (path_tc (v :: l) i 0); [exact Hstep|done|exact Hi].
Qed.

(** What [sources_fuel] answers, every larger fuel answers: [None] is a value
    whose definition goes round, and nothing else. *)
Lemma collect_sources_settled n state v into :
  sources_fuel ir <= n ->
  collect_sources funcs ir n state v into = collect_sources funcs ir (sources_fuel ir) state v into.
Proof.
  intros Hn. destruct (collect_sources funcs ir (sources_fuel ir) state v into) as [slot|] eqn:Hc.
  - by eapply collect_sources_mono.
  - apply collect_sources_none in Hc. apply collect_sources_none, goes_round_chain. by apply long_chain_goes_round.
Qed.

Lemma collect_sources_lost state v into :
  collect_sources funcs ir (sources_fuel ir) state v into = None <-> goes_round v.
Proof.
  rewrite collect_sources_none. split; [apply long_chain_goes_round|apply goes_round_chain].
Qed.
End chains.

(** *** Where no definition goes round, nothing is lost *)

Section ended.
Context `{TV : TypeView}.
Context (funcs : gmap nat Function) (ir : MIRFunction) (liveness : Liveness) (rt : TypePtr) (wide_shift : nat -> N).
Hypothesis (Hround : forall v, ~ tc (draws_on funcs ir) v v).

#[local] Abbreviation ended flow flow' := (sources_ended flow' = sources_ended flow).

Lemma collect_ended flow v into : sources_ended (collect funcs ir flow v into).1 = sources_ended flow.
Proof.
  unfold collect. destruct (collect_sources _ _ _ _ _ _) eqn:Hc; [done|].
  apply collect_sources_lost in Hc as (w & _ & Hw). by apply Hround in Hw.
Qed.

Lemma collect_eq_ended flow v into flow' slot :
  collect funcs ir flow v into = (flow', slot) -> sources_ended flow' = sources_ended flow.
Proof. intros H. by rewrite <- (collect_ended flow v into), H. Qed.

Lemma report_ended flow span m : ended flow (report flow span m).
Proof. unfold report. by destruct (negb _). Qed.

Lemma foldl_ended {A} (f : MIRFlow -> A -> MIRFlow) l :
  (forall flow a, ended flow (f flow a)) -> forall flow, ended flow (foldl f flow l).
Proof. intros Hf. induction l as [|a l IH]; intros flow; [done|]. cbn. by rewrite IH, Hf. Qed.

Lemma report_outlives_ended flow span m v held_in b field :
  ended flow (report_outlives funcs ir liveness flow span m v held_in b field).
Proof.
  unfold report_outlives, outlives_its_source. destruct (collect _ _ _ _ _) as [flow1 slot] eqn:Hc.
  apply collect_eq_ended in Hc as <-. destruct (existsb _ _); [apply report_ended|done].
Qed.

Lemma take_ended flow inst : ended flow (flow_take ir flow inst).
Proof.
  unfold flow_take. cbn. unfold check_readable. destruct (mir_value_is_none _); [done|].
  destruct (state_of _ _); try done; try apply report_ended. destruct (tv_is_indirect _); [apply report_ended|done].
Qed.

Lemma call_ended flow inst : ended flow (flow_call funcs ir flow inst).
Proof.
  unfold flow_call. destruct (collect _ _ _ _ _) as [flow1 slot] eqn:Hc. apply collect_eq_ended in Hc. cbn. rewrite Hc.
  apply foldl_ended. intros fl arg. unfold check_argument. destruct (bool_decide _); [done|].
  destruct (slot_init _); done || apply report_ended.
Qed.

Lemma store_ended flow inst : ended flow (flow_store funcs ir liveness flow inst).
Proof.
  unfold flow_store. destruct (args inst); [done|]. destruct (mir_value_is_none _); [done|].
  destruct (reaches_past_its_root _); [destruct (borrows_memory _); [apply report_outlives_ended|done]|].
  destruct (collect _ _ _ _ _) as [flow0 stored] eqn:Hc. apply collect_eq_ended in Hc as <-.
  set (flow1 := if bool_decide _ && _ then _ else flow0).
  assert (H1 : ended flow0 flow1) by (unfold flow1; by destruct (_ && _)). rewrite <- H1. clearbody flow1.
  set (flow2 := if bool_decide (0 < _) then _ else flow1).
  assert (H2 : ended flow1 flow2) by (unfold flow2; by destruct (bool_decide _)). rewrite <- H2. clearbody flow2.
  set (flow3 := match store_into _ _ _ _ with Some _ => _ | None => _ end).
  assert (H3 : ended flow2 flow3).
  { unfold flow3. destruct (store_into _ _ _ _); [done|]. destruct (collect _ _ _ _ _) as [flow4 slot] eqn:Hc.
    by apply collect_eq_ended in Hc. }
  rewrite <- H3. clearbody flow3. destruct (borrows_memory _); [apply report_outlives_ended|done].
Qed.

Lemma inst_ended flow inst : ended flow (flow_inst funcs ir liveness rt wide_shift flow inst).
Proof.
  unfold flow_inst. destruct (op inst); try done; try apply store_ended; try apply call_ended; try apply take_ended.
  - unfold flow_load. destruct (negb _); apply take_ended.
  - unfold flow_drop. by rewrite foldl_ended.
  - unfold flow_return. destruct (args inst); [done|]. destruct (negb _); [done|].
    destruct (collect _ _ _ _ _) as [flow1 slot] eqn:Hc. apply collect_eq_ended in Hc as <-.
    destruct (_ && _); [by rewrite report_ended|by rewrite report_outlives_ended].
Qed.

Lemma block_ended flow b : ended flow (flow_block funcs ir liveness rt wide_shift flow b).
Proof. apply foldl_ended, inst_ended. Qed.

Lemma turn_ended a : ended a.2 (flow_turn funcs ir liveness rt wide_shift a).2.2.
Proof.
  unfold flow_turn. generalize false as c, (seq 0 (block_count ir)) as l. intros c l. revert c a.
  induction l as [|i l IH]; intros c [entries flow]; [done|]. cbn [foldl flow_step].
  destruct (entries !! i) as [e|]; [|apply IH]. destruct (blocks ir !! i) as [b|]; [|apply IH].
  destruct (unreachable e); [apply IH|]. destruct (foldl (merge_into _) _ _) as [c' entries'].
  etrans; [exact (IH c' (entries', _))|]. cbn [snd]. apply (block_ended (with_state flow _)).
Qed.

Lemma flow_report_ended entries flow : ended flow (flow_report funcs ir liveness rt wide_shift entries flow).
Proof.
  apply foldl_ended. intros fl [e b]. destruct (unreachable e); [done|].
  apply (block_ended (with_state fl (mir_state_copy e))).
Qed.
End ended.

(** Values are defined from values created before. *)
Definition defs_ordered `{TV : TypeView} (funcs : gmap nat Function) (ir : MIRFunction) : Prop :=
  forall v w, draws_on funcs ir v w -> definition_of ir w = None \/ (w < v)%N.

Lemma ordered_never_round `{TV : TypeView} funcs ir :
  defs_ordered funcs ir -> forall v, ~ tc (draws_on funcs ir) v v.
Proof.
  intros Hord. assert (Hlt : forall v w, tc (draws_on funcs ir) v w -> definition_of ir w = None \/ (w < v)%N).
  { induction 1 as [v w H|v u w H Hw IH]; [by apply Hord|].
    destruct IH as [|IH]; [by left|]. apply Hord in H as [Hn|H]; [|right; lia].
    exfalso. inversion Hw as [? ? (i & a & Hi & _)|? ? ? (i & a & Hi & _)]; subst; congruence. }
  intros v Hv. destruct (Hlt v v Hv) as [Hn|]; [|lia].
  inversion Hv as [? ? (i & a & Hi & _)|? ? ? (i & a & Hi & _)]; subst; congruence.
Qed.

Definition defs_orderedb `{TV : TypeView} (funcs : gmap nat Function) (ir : MIRFunction) : bool :=
  forallb (fun inst =>
    forallb (fun arg =>
      let w := mir_operand_as_value arg in bool_decide (definition_of ir w = None) || (w <? result inst)%N)
      (source_args funcs inst)) (flat_map insts (blocks ir)).

Lemma defs_orderedb_ordered `{TV : TypeView} funcs ir : defs_orderedb funcs ir = true -> defs_ordered funcs ir.
Proof.
  unfold defs_orderedb. rewrite forallb_forall. intros H v w (inst & arg & Hd & _ & _ & Ha & ->).
  unfold definition_of in Hd. destruct (mir_value_is_none v); [done|]. apply find_some in Hd as [Hin Hv].
  apply andb_true_iff in Hv as [_ <-%N.eqb_eq]. apply H in Hin. rewrite forallb_forall in Hin.
  apply list_elem_of_In, Hin, orb_true_iff in Ha as [?%bool_decide_eq_true|?%N.ltb_lt]; auto.
Qed.

(** ** Property *)

(** C4: the borrow checker ends on every function whose values are not defined
    from themselves, reachable or not, typed or not: its loop takes no more
    than [borrowck_fuel] turns, whatever the states of the slots, and the walk
    from a value to its sources, which has no bound in the code, comes back.
    The condition is that no chain of definitions, from a value to an argument
    of the instruction that makes it, leads back to where it started; where
    one does, the walk does not come back ([definitions_that_go_round]). *)
Theorem mir_borrowck_terminates `{TV : TypeView} funcs ws ir diags function rep :
  (forall v, ~ tc (draws_on funcs ir) v v) ->
  is_Some (mir_borrowck funcs ws (borrowck_fuel ir) ir diags function rep).
Proof.
  intros Hround. unfold mir_borrowck. case_bool_decide; [by eexists|].
  destruct (mir_liveness_compute_total ir) as [lv ->]. cbn [mbind option_bind].
  set (rt := match function with Some f => return_type (fn_signature f) | None => None end).
  destruct (flow_loop_ends funcs ir lv rt ws (borrowck_fuel ir) (initial_flow diags)) as [[entries flow] Hw];
    [unfold borrowck_fuel; lia|]. rewrite Hw.
  destruct (while_changed_inv _ (fun a => sources_ended a.2 = true) _ _ _
              (fun a Ha => eq_trans (turn_ended funcs ir lv rt ws Hround a) Ha)
              (eq_refl : sources_ended (initial_entries ir, initial_flow diags).2 = true) Hw) as ([e0 f0] & H0 & Hturn).
  pose proof (turn_ended funcs ir lv rt ws Hround (e0, f0)) as Hlast. rewrite Hturn in Hlast. cbn [snd] in H0, Hlast.
  cbn [mbind option_bind]. set (last := flow_report _ _ _ _ _ _ _).
  assert (He : sources_ended last = true)
    by (unfold last; rewrite (flow_report_ended funcs ir lv rt ws Hround); cbn [sources_ended]; by rewrite Hlast, H0).
  rewrite He. by eexists.
Qed.

(** A value that is a copy of itself: the walk does not come back, however
    long it is followed. *)
Definition sample_round : MIRFunction := {|
  mir_function := Some 0;
  blocks :=
    [ MkBlock 0
        [ inst_at MIR_COPY sample_ref 0 [OPERAND_VALUE 0] (payload_constant zero_constant);
          inst_at MIR_RETURN None MIR_NO_VALUE [] (payload_constant zero_constant) ] ];
  entry := 0;
  values := [local sample_ref];
  params := [];
|}.

Lemma definitions_that_go_round state into n :
  collect_sources (TV := sample_view) ∅ sample_round n state 0 into = None.
Proof.
  apply collect_sources_none, goes_round_chain. exists 0%N. split; [done|]. apply tc_once.
  eexists _, (OPERAND_VALUE 0). split; [reflexivity|]. split; [done|]. split; [done|]. split; [left|done].
Qed.

(** A borrow goes through a call and a copy before it is returned. *)
Definition sample_chain : MIRFunction := {|
  mir_function := Some 0;
  blocks :=
    [ MkBlock 0
        [ inst_at MIR_LOAD sample_ref 1 [] (on_place 0 [] READ_COPY);
          inst_at MIR_CALL sample_ref 2 [OPERAND_VALUE 1] (payload_callee None);
          inst_at MIR_COPY sample_ref 3 [OPERAND_VALUE 2; OPERAND_VALUE 0] (payload_constant zero_constant);
          inst_at MIR_RETURN None MIR_NO_VALUE [OPERAND_VALUE 3] (payload_constant zero_constant) ] ];
  entry := 0;
  values := [local sample_ref; local sample_ref; local sample_ref; local sample_ref];
  params := [0%N];
|}.

Lemma mir_borrowck_terminates_witness :
  is_Some (mir_borrowck (TV := sample_view) ∅ (fun _ => 0%N) (borrowck_fuel sample_chain) sample_chain
             (diagnostics_init None) None true).
Proof.
  apply (mir_borrowck_terminates (TV := sample_view)), ordered_never_round, defs_orderedb_ordered.
  vm_compute. reflexivity.
Defined.
