(* ===== verification/BorrowPaths.v ===== *)
(** * BorrowPaths: what the borrow checker follows from block to block

    The theorems of Borrowck.v speak of one block.  Here the facts are followed
    along the edges of the control-flow graph: which slots may name a value
    ([may_name]), which may lack one ([lacks_at]), and which the code leaves
    alone on the way ([untouched]).  Each relation is defined on the
    instructions alone, by what one instruction writes; the theorems say that
    the states the checker's fixed point holds agree with it.

    A point of a function is a block and the number of its instructions that
    have been run. *)

From S2P Require Import Prelude Types Mir Liveness SlotState Diagnostics Decl Borrowck BorrowckEnds.

(** ** Slots *)

(** The slot holds no value to read. *)
Definition lacking (s : MIRSlot) : Prop := slot_init s = MIR_SLOT_UNINIT \/ slot_init s = MIR_SLOT_MOVED.

(** The slot names [q]; itself, or in any of its fields too. *)
Definition held (fields : bool) (q : MIRValueId) (s : MIRSlot) : Prop :=
  if fields then slot_names q s else q ∈ slot_borrows s.

Lemma held_names fields q s : held fields q s -> slot_names q s.
Proof. destruct fields, s; [done|]. by constructor. Qed.

Lemma held_here fields q s : q ∈ slot_borrows s -> held fields q s.
Proof. destruct fields, s; [by constructor|done]. Qed.

Lemma held_equiv fields q a b : a ≡ b -> held fields q a -> held fields q b.
Proof.
  destruct fields; [apply slot_names_equiv|]. destruct a, b. intros (_ & Hb & _)%slot_equiv_inv. by apply Hb.
Qed.

Lemma invalidate_held fields q d s : held fields q s -> held fields q (slot_invalidate_borrows_of s d).
Proof.
  destruct fields; [|destruct s; by rewrite invalidate_eq].
  induction 1 as [i b f Hv|i b f s Hs _ IH]; rewrite invalidate_eq; [by constructor|].
  econstructor 2; [|exact IH]. apply list_elem_of_fmap. eauto.
Qed.

Lemma invalidated_held fields q s s' : invalidated s s' -> held fields q s -> held fields q s'.
Proof.
  intros [ds ->]. revert s. induction ds as [|d ds IH]; intros s Hs; [done|]. cbn. apply IH. by apply invalidate_held.
Qed.

Lemma set_all_held fields q i s : held fields q s -> held fields q (mir_slot_set_all s i).
Proof.
  destruct fields; [|by destruct s].
  induction 1 as [k b f Hv|k b f s Hs _ IH]; [by constructor|].
  cbn [mir_slot_set_all]. econstructor 2; [|exact IH]. apply list_elem_of_fmap. eauto.
Qed.

Lemma field_names s i q : slot_names q (field_or_leaf s i) -> slot_names q s.
Proof.
  destruct s as [k b f]. unfold field_or_leaf. cbn. destruct (f !! i) as [t|] eqn:Ht; cbn.
  - intros H. econstructor 2; [by eapply list_elem_of_lookup_2|exact H].
  - unfold id. intros [H|(? & H & _)]%slot_names_inv; by apply elem_of_nil in H.
Qed.

Lemma merge_names q b : forall a,
  slot_settled b -> q <> MIR_NO_VALUE -> slot_names q b -> slot_names q (slot_merge a b).
Proof.
  induction b as [i l f IH] using slot_ind'. intros a Hb Hq Hn.
  destruct (decide (slot_init a = MIR_SLOT_UNREACHED)) as [|Ha]; [by rewrite slot_merge_unreached_l|].
  assert (Hi : i <> MIR_SLOT_UNREACHED).
  { intros ->. apply slot_settled_unreached in Hb; [|done]. injection Hb as -> ->.
    apply slot_names_inv in Hn as [H|(? & H & _)]; by apply elem_of_nil in H. }
  apply slot_names_inv in Hn as [Hn|(s & Hs & Hn)].
  - assert (q ∈ slot_borrows (slot_merge a (MkSlot i l f))) by (apply slot_merge_borrows; auto).
    destruct (slot_merge a (MkSlot i l f)). by constructor.
  - apply list_elem_of_lookup in Hs as [k Hk]. apply (field_names _ k). rewrite slot_merge_field by done.
    unfold field_or_leaf at 2. cbn [slot_fields slot_init]. rewrite Hk. cbn [default from_option]. unfold id.
    rewrite Forall_forall in IH. apply IH; [by eapply list_elem_of_lookup_2| |done|done].
    pose proof (slot_settled_field _ k Hb) as Hf. unfold field_or_leaf in Hf. cbn in Hf. by rewrite Hk in Hf.
Qed.

Lemma merge_held fields q a b :
  slot_settled b -> q <> MIR_NO_VALUE -> held fields q b -> held fields q (slot_merge a b).
Proof.
  destruct fields; [by apply merge_names|]. intros Hb Hq Hn. cbn in *.
  destruct (decide (slot_init a = MIR_SLOT_UNREACHED)) as [|Ha]; [by rewrite slot_merge_unreached_l|].
  apply slot_merge_borrows; [done| |by right]. intros Hi. apply slot_settled_unreached in Hb; [|done].
  rewrite Hb in Hn. by apply elem_of_nil in Hn.
Qed.

Lemma merge_lacking a b : lacking (slot_merge a b) -> lacking a \/ lacking b.
Proof.
  rewrite slot_merge_eq. case_bool_decide; [by right|]. case_bool_decide; [by left|].
  unfold lacking, init_join. cbn. case_bool_decide; tauto.
Qed.

Lemma invalidated_lacking s s' : invalidated s s' -> lacking s' -> lacking s.
Proof.
  intros [ds ->]. revert s. induction ds as [|d ds IH]; intros s Hs; [done|]. cbn in Hs. apply IH in Hs.
  destruct s as [i b f]. rewrite invalidate_eq in Hs. unfold lacking in *. cbn in *.
  destruct (bool_decide (i = MIR_SLOT_INIT) && _) eqn:Hi; [|done].
  apply andb_true_iff in Hi as [->%bool_decide_eq_true _]. by destruct Hs.
Qed.

(** *** Storing into a field *)

Lemma store_at_names q path : forall s stored s',
  store_at s path stored = Some s' -> slot_names q stored -> slot_names q s'.
Proof.
  induction path as [|p path IH]; intros s stored s'; cbn [store_at]; [by intros [= <-]|].
  destruct (proj_kind p); [|done..]. destruct (_ <=? _)%N; [done|].
  intros (t & Ht & (t' & Ht' & [= <-])%bind_Some)%bind_Some Hq. destruct s as [i b f]. cbn.
  econstructor 2; [|by eapply IH]. apply list_elem_of_lookup. exists (N.to_nat field).
  apply list_lookup_insert_eq. by eapply lookup_lt_Some.
Qed.

Lemma open_fields_count s n : n <= field_count (mir_slot_open_fields s n).
Proof.
  unfold mir_slot_open_fields. destruct (_ || _) eqn:Hb.
  - apply orb_true_iff in Hb as [->%bool_decide_eq_true|Hb%bool_decide_eq_true]; lia.
  - unfold field_count. cbn. rewrite length_app, length_replicate. unfold field_count. lia.
Qed.

(** What [open_path] opens, [store_at] finds. *)
Lemma store_at_open path stored : forall s,
  Forall (fun p => proj_is_field p = true) path ->
  is_Some (store_at (open_path s path) path stored).
Proof.
  induction path as [|p path IH]; intros s Hp; [by eexists|]. apply Forall_cons in Hp as [Hp Hpath].
  cbn [open_path store_at]. unfold proj_is_field in Hp. destruct (proj_kind p) as [f| |] eqn:Hk; try done.
  assert (Hf : proj_field p = f) by (unfold proj_field; by rewrite Hk). rewrite Hf.
  pose proof (open_fields_count s (N.to_nat f + 1)) as Hc. set (o := mir_slot_open_fields _ _) in *.
  assert (Hcount : forall l, field_count (set_fields o l) = length l) by done.
  rewrite Hcount, length_alter. unfold field_count in Hc.
  replace (N.of_nat (length (slot_fields o)) <=? f)%N with false by (symmetry; apply N.leb_gt; lia).
  destruct (lookup_lt_is_Some_2 (slot_fields o) (N.to_nat f)) as [t Ht]; [lia|].
  cbn [set_fields slot_fields]. rewrite list_lookup_alter_eq, Ht.
  change ((fun field => open_path field path) <$> Some t) with (Some (open_path t path)). cbn [mbind option_bind].
  destruct (IH t Hpath) as [t' ->]. by eexists.
Qed.

Lemma leading_fields_are_fields l : Forall (fun p => proj_is_field p = true) (take (leading_fields l) l).
Proof.
  induction l as [|p l IH]; [constructor|]. cbn. destruct (proj_is_field p) eqn:Hp; [by constructor|constructor].
Qed.

(** ** The relations *)

Section relations.
Context `{TV : TypeView}.
Context (funcs : gmap nat Function) (ir : MIRFunction) (wide_shift : nat -> N).

(** The instruction at a point. *)
Definition inst_at_point (i k : nat) (inst : MIRInst) : Prop :=
  exists b, blocks ir !! i = Some b /\ insts b !! k = Some inst.

(** Control goes from the end of block [i], after its [k] instructions, to
    block [s]. *)
Definition edge_at (i k s : nat) : Prop :=
  exists b t, blocks ir !! i = Some b /\ k = length (insts b) /\ t ∈ mir_block_successors b /\
    s = N.to_nat t /\ s < block_count ir.

(** A way from point [(i, k)] to [(j, m)] on which the slot of [v] is given no
    new content. *)
#[warnings="-register-all"]
Inductive untouched (v : MIRValueId) (i k : nat) : nat -> nat -> Prop :=
  | untouched_here : untouched v i k i k
  | untouched_inst j m inst :
      untouched v i k j m -> inst_at_point j m inst -> writes_slot v inst = false -> untouched v i k j (S m)
  | untouched_edge j m s : untouched v i k j m -> edge_at j m s -> untouched v i k s 0.

(** The instruction leaves the slot of [v] without a value, or gives it one. *)
Definition empties (v : MIRValueId) (inst : MIRInst) : bool :=
  let at_root := (root_of (inst_place inst) =? v)%N in
  match op inst with
  | MIR_STORAGE_LIVE | MIR_STORAGE_DEAD => at_root
  | MIR_LOAD => bool_decide (inst_read inst = READ_MOVE) && at_root
  | _ => false
  end.

Definition gives (v : MIRValueId) (inst : MIRInst) : bool :=
  let at_root := (root_of (inst_place inst) =? v)%N in
  match op inst with
  | MIR_STORAGE_INIT => at_root
  | MIR_STORE =>
      at_root && negb (bool_decide (args inst = [])) && negb (mir_value_is_none v) &&
      negb (reaches_past_its_root (inst_place inst))
  | MIR_LOAD | MIR_REF | MIR_CALL | MIR_MAKE_SLICE | MIR_COPY => (result inst =? v)%N
  | _ => false
  end.

(** On some way to the point, the slot of [v] has been emptied and not been
    given a value since. *)
#[warnings="-register-all"]
Inductive lacks_at (v : MIRValueId) : nat -> nat -> Prop :=
  | lacks_emptied i k inst :
      cfg_reachable ir i -> inst_at_point i k inst -> empties v inst = true -> lacks_at v i (S k)
  | lacks_kept i k inst :
      lacks_at v i k -> inst_at_point i k inst -> gives v inst = false -> lacks_at v i (S k)
  | lacks_edge i k s : lacks_at v i k -> edge_at i k s -> lacks_at v s 0.

(** The states after the first [k] instructions of block [i], whatever the
    block is entered with. *)
Definition whatever_entered (i k : nat) (P : MIRFlow -> Prop) : Prop :=
  forall liveness rt flow b, blocks ir !! i = Some b ->
    P (foldl (flow_inst funcs ir liveness rt wide_shift) flow (take k (insts b))).

(** A reference to the place at this point is one to [q]: [q] is its root, and
    is an owner that has its object, or a local that names nothing itself. *)
Definition refers_to (q : MIRValueId) (place : Place) (i k : nat) : Prop :=
  root_of place = q /\ mir_value_is_none q = false /\
  (holds_its_own_object ir q = true /\ ~ lacks_at q i k \/
   holds_its_own_object ir q = false /\ tracked_depth place = 0 /\
   whatever_entered i k (fun flow =>
     slot_borrows (mir_slot_flattened (flow_get flow q)) = [] /\
     slot_init (mir_slot_flattened (flow_get flow q)) <> MIR_SLOT_MOVED)).

(** At some point of the way to [(i, k)] the slot of [v] was given a borrow of
    [q], and since then it was not written: a parameter's own, a reference to
    [q], what is loaded from a slot that names [q], what is stored of such a
    value, the result of a call that is handed one.  [fields] admits slots one
    field of which names it. *)
#[warnings="-register-all"]
Inductive may_name (fields : bool) (q : MIRValueId) : MIRValueId -> nat -> nat -> Prop :=
  | name_param : param_borrows ir q -> may_name fields q q (N.to_nat (entry ir)) 0
  | name_taken i k inst :
      inst_at_point i k inst -> op inst = MIR_LOAD \/ op inst = MIR_REF ->
      place_names fields q (inst_place inst) i k -> may_name fields q (result inst) i (S k)
  | name_stored i k inst arg rest :
      inst_at_point i k inst -> op inst = MIR_STORE -> args inst = arg :: rest ->
      mir_value_is_none (root_of (inst_place inst)) = false ->
      reaches_past_its_root (inst_place inst) = false ->
      fields = true \/ tracked_depth (inst_place inst) = 0 ->
      source_names fields q (mir_operand_as_value arg) i k -> may_name fields q (root_of (inst_place inst)) i (S k)
  | name_result i k inst :
      inst_at_point i k inst -> op inst = MIR_CALL \/ op inst = MIR_COPY \/ op inst = MIR_MAKE_SLICE ->
      source_names fields q (result inst) i k -> may_name fields q (result inst) i (S k)
  | name_kept v i k inst :
      may_name fields q v i k -> inst_at_point i k inst -> writes_slot v inst = false -> may_name fields q v i (S k)
  | name_edge v i k s : may_name fields q v i k -> edge_at i k s -> may_name fields q v s 0

(** What is loaded from the place, or refers to it, may name [q]. *)
with place_names (fields : bool) (q : MIRValueId) : Place -> nat -> nat -> Prop :=
  | place_is i k inst place :
      cfg_reachable ir i -> inst_at_point i k inst -> refers_to q place i k -> place_names fields q place i k
  | place_holds i k place :
      tracked_depth place = 0 -> mir_value_is_none (root_of place) = false ->
      root_of place = q \/ holds_its_own_object ir (root_of place) = false ->
      may_name fields q (root_of place) i k -> place_names fields q place i k

(** The value may name [q]: its slot does and nothing defines it, or its
    definition draws on what does. *)
with source_names (fields : bool) (q : MIRValueId) : MIRValueId -> nat -> nat -> Prop :=
  | source_undefined v i k : definition_of ir v = None -> may_name fields q v i k -> source_names fields q v i k
  | source_taken v i k inst :
      definition_of ir v = Some inst -> op inst = MIR_LOAD \/ op inst = MIR_REF ->
      place_names fields q (inst_place inst) i k -> source_names fields q v i k
  | source_drawn v w i k : draws_on funcs ir v w -> source_names fields q w i k -> source_names fields q v i k.
End relations.

Scheme may_name_mut := Minimality for may_name Sort Prop
  with place_names_mut := Minimality for place_names Sort Prop
  with source_names_mut := Minimality for source_names Sort Prop.
Combined Scheme names_mut from may_name_mut, place_names_mut, source_names_mut.

(** ** One instruction *)

Section steps.
Context `{TV : TypeView}.
Context (funcs : gmap nat Function) (ir : MIRFunction) (liveness : Liveness) (rt : TypePtr) (wide_shift : nat -> N).

#[local] Abbreviation step := (flow_inst funcs ir liveness rt wide_shift).
#[local] Abbreviation run := (foldl (flow_inst funcs ir liveness rt wide_shift)).

Lemma kept_gives_nothing v inst : writes_slot v inst = false -> gives v inst = false.
Proof.
  unfold writes_slot, gives. destruct (op inst); try done.
  - by intros [-> _]%orb_false_iff.
  - destruct (root_of (inst_place inst) =? v)%N; [|done]. cbn [andb]. intros ->%negb_false_iff. by rewrite !andb_false_r.
Qed.

Lemma collect_place_sources_init state place into :
  slot_init (collect_place_sources ir state place into) = slot_init into.
Proof.
  assert (Ha : forall s v, slot_init (mir_slot_add_borrow s v) = slot_init s).
  { intros s v. unfold mir_slot_add_borrow. destruct (_ || _); by destruct s. }
  unfold collect_place_sources. destruct (mir_value_is_none _); [done|]. destruct (_ && _); [apply Ha|].
  destruct (_ && _); rewrite ?Ha, add_borrows_init; done.
Qed.

Lemma collect_sources_init n state : forall v into slot,
  collect_sources funcs ir n state v into = Some slot -> slot_init slot = slot_init into.
Proof.
  induction n as [|n IH]; intros v into slot; [done|]. cbn [collect_sources].
  destruct (definition_of ir v) as [inst|].
  - assert (Hl : forall l into,
      foldl (fun into arg => into ← into; collect_sources funcs ir n state (mir_operand_as_value arg) into) (Some into) l = Some slot ->
      slot_init slot = slot_init into).
    { induction l as [|arg l IHl]; intros into'; cbn [foldl]; [by intros [= ->]|]. cbn [mbind option_bind].
      destruct (collect_sources _ _ n _ _ _) as [into1|] eqn:Hc; [|by rewrite foldl_none].
      intros H%IHl. by rewrite H, (IH _ _ _ Hc). }
    destruct (op inst); try (intros [= <-]; apply collect_place_sources_init); apply Hl.
  - intros [= <-]. unfold collect_undefined, mir_slot_add_borrow.
    destruct (bool_decide _); [by rewrite add_borrows_init|].
    destruct (_ || _); [|by rewrite add_borrows_init].
    destruct (_ || _); [|cbn]; by rewrite add_borrows_init.
Qed.

Lemma collect_init flow v into flow' slot :
  collect funcs ir flow v into = (flow', slot) -> slot_init slot = slot_init into.
Proof.
  unfold collect. destruct (collect_sources _ _ _ _ _ _) eqn:Hc; intros [= <- <-]; [by eapply collect_sources_init|done].
Qed.

Lemma flow_state_check_readable flow place span :
  flow_state (check_readable ir flow place span) = flow_state flow.
Proof.
  unfold check_readable. destruct (mir_value_is_none _); [done|].
  destruct (state_of _ _); rewrite ?with_state_report; try done. destruct (tv_is_indirect _); by rewrite ?with_state_report.
Qed.

Lemma flow_get_take flow inst :
  flow_get (flow_take ir flow inst) (result inst) =
  collect_place_sources ir (flow_state flow) (inst_place inst) (slot_leaf MIR_SLOT_INIT).
Proof.
  unfold flow_take. rewrite flow_get_set, bool_decide_eq_true_2 by done. by rewrite flow_state_check_readable.
Qed.

Lemma flow_state_check_arguments span l : forall flow,
  flow_state (foldl (check_argument span) flow l) = flow_state flow.
Proof.
  induction l as [|arg l IH]; intros flow; [done|]. cbn. rewrite IH. unfold check_argument.
  destruct (bool_decide _); [done|]. destruct (slot_init _); by rewrite ?with_state_report.
Qed.

(** The result of a call, and what a store leaves in the slot of its root. *)
Lemma flow_get_call flow inst :
  flow_get (flow_call funcs ir flow inst) (result inst) =
  default (slot_leaf MIR_SLOT_INIT)
    (collect_sources funcs ir (sources_fuel ir) (flow_state flow) (result inst) (slot_leaf MIR_SLOT_INIT)).
Proof.
  unfold flow_call, collect. rewrite flow_state_check_arguments.
  destruct (collect_sources _ _ _ _ _ _); by rewrite flow_get_set, bool_decide_eq_true_2.
Qed.

Definition stored_slot (flow : MIRFlow) (value : MIRValueId) : MIRSlot :=
  default (slot_leaf MIR_SLOT_INIT)
    (collect_sources funcs ir (sources_fuel ir) (flow_state flow) value (slot_leaf MIR_SLOT_INIT)).

Lemma flow_get_store flow inst arg rest :
  args inst = arg :: rest -> mir_value_is_none (root_of (inst_place inst)) = false ->
  reaches_past_its_root (inst_place inst) = false ->
  let depth := tracked_depth (inst_place inst) in
  let stored := stored_slot flow (mir_operand_as_value arg) in
  exists old, store_at old (take depth (projections (inst_place inst))) stored =
    Some (flow_get (flow_store funcs ir liveness flow inst) (root_of (inst_place inst))) /\
    (0 < depth -> slot_init old = MIR_SLOT_INIT).
Proof.
  intros Ha Hn Hp. unfold flow_store. rewrite Ha. cbv beta zeta. rewrite Hn, Hp.
  set (depth := tracked_depth (inst_place inst)). set (root := root_of (inst_place inst)).
  destruct (collect _ _ _ _ _) as [flow0 stored] eqn:Hc.
  assert (Hst : stored = stored_slot flow (mir_operand_as_value arg)).
  { unfold stored_slot. unfold collect in Hc. destruct (collect_sources _ _ _ _ _ _); by injection Hc as <- <-. }
  rewrite <- Hst. clear Hc Hst.
  set (flow1 := if bool_decide (depth = 0) && _ then _ else flow0). clearbody flow1.
  set (flow2 := if bool_decide (0 < depth) then _ else flow1).
  set (old := flow_get flow2 root).
  assert (Hold : is_Some (store_at old (take depth (projections (inst_place inst))) stored) /\
                 (0 < depth -> slot_init old = MIR_SLOT_INIT)).
  { unfold old, flow2. case_bool_decide as Hd.
    - rewrite flow_get_set, bool_decide_eq_true_2 by done. split.
      + apply store_at_open, leading_fields_are_fields.
      + intros _. destruct (take _ _) as [|p l]; [by destruct (flow_get flow1 root)|]. cbn [open_path].
        unfold mir_slot_open_fields. destruct (_ || _); by destruct (flow_get flow1 root).
    - split; [|lia]. replace depth with 0 by lia. by eexists. }
  destruct Hold as [[slot Hs] Hi]. exists old. split; [|done].
  assert (Hinto : store_into (flow_state flow2) (inst_place inst) depth stored =
                  Some (mir_state_set (flow_state flow2) root slot)).
  { unfold store_into. rewrite Hn. fold root. change (mir_state_get (flow_state flow2) root) with old. by rewrite Hs. }
  rewrite Hinto. assert (Hget : flow_get (with_state flow2 (mir_state_set (flow_state flow2) root slot)) root = slot).
  { unfold flow_get. cbn [flow_state with_state]. by rewrite state_get_set, bool_decide_eq_true_2. }
  destruct (borrows_memory _); rewrite ?flow_get_report_outlives, Hget; done.
Qed.

Lemma store_at_init old path stored slot :
  store_at old path stored = Some slot -> path <> [] -> slot_init slot = slot_init old.
Proof.
  destruct path as [|p path]; [done|]. cbn [store_at]. intros H _.
  destruct (proj_kind p); [|done..]. destruct (_ <=? _)%N; [done|].
  apply bind_Some in H as (t & _ & (t' & _ & [= <-])%bind_Some). done.
Qed.

Lemma stored_init flow value : slot_init (stored_slot flow value) = MIR_SLOT_INIT.
Proof.
  unfold stored_slot. destruct (collect_sources _ _ _ _ _ _) eqn:Hc; [|done]. by apply collect_sources_init in Hc.
Qed.

(** A slot that lacks a value after an instruction was emptied by it, or
    lacked one before and was given none. *)
Lemma lacking_step flow inst v :
  lacking (flow_get (step flow inst) v) ->
  empties v inst = true \/ gives v inst = false /\ lacking (flow_get flow v).
Proof.
  intros Hl. destruct (writes_slot v inst) eqn:Hw.
  2:{ right. split; [by apply kept_gives_nothing|]. by eapply invalidated_lacking, Hl; apply flow_inst_invalidated. }
  assert (Hnot : forall (P : Prop) s, slot_init s = MIR_SLOT_INIT -> lacking s -> P)
    by (intros P s H [H1|H1]; rewrite H in H1; done).
  unfold writes_slot, flow_inst, empties, gives in *. destruct (op inst); try done.
  - apply orb_true_iff in Hw as [Hr%N.eqb_eq|Hm]; [|left; exact Hm]. subst v. rewrite N.eqb_refl.
    unfold flow_load in Hl. case_bool_decide; cbn [negb andb] in *.
    + destruct (N.eqb_spec (root_of (inst_place inst)) (result inst)) as [He|He]; [by left|].
      rewrite flow_get_set_ne, flow_get_take in Hl by congruence.
      refine (Hnot _ _ _ Hl); apply collect_place_sources_init.
    + rewrite flow_get_take in Hl. refine (Hnot _ _ _ Hl); apply collect_place_sources_init.
  - apply andb_true_iff in Hw as [Hr Hp%negb_true_iff]. rewrite Hr. apply N.eqb_eq in Hr. cbn [andb].
    destruct (args inst) as [|arg rest] eqn:Ha.
    { right. split; [done|]. unfold flow_store in Hl. by rewrite Ha in Hl. }
    destruct (mir_value_is_none v) eqn:Hn.
    { right. rewrite andb_false_r. split; [done|]. unfold flow_store in Hl. by rewrite Ha, Hr, Hn in Hl. }
    rewrite <- Hr in Hn, Hl. destruct (flow_get_store flow inst arg rest Ha Hn Hp) as (old & Hs & Hi).
    eapply (Hnot _ _); [|exact Hl].
    destruct (decide (tracked_depth (inst_place inst) = 0)) as [Hz|Hz].
    + rewrite Hz in Hs. cbn [take store_at] in Hs. injection Hs as <-. apply stored_init.
    + rewrite (store_at_init _ _ _ _ Hs); [apply Hi; lia|]. unfold tracked_depth in *.
      destruct (projections (inst_place inst)) as [|p l]; [done|]. cbn in *. destruct (proj_is_field p); [done|lia].
  - apply N.eqb_eq in Hw as <-. rewrite flow_get_take in Hl. refine (Hnot _ _ _ Hl); apply collect_place_sources_init.
  - apply N.eqb_eq in Hw as <-. rewrite flow_get_call in Hl. refine (Hnot _ _ _ Hl); apply (stored_init flow (result inst)).
  - apply N.eqb_eq in Hw as <-. rewrite flow_get_call in Hl. refine (Hnot _ _ _ Hl); apply (stored_init flow (result inst)).
  - apply N.eqb_eq in Hw as <-. rewrite flow_get_call in Hl. refine (Hnot _ _ _ Hl); apply (stored_init flow (result inst)).
  - by left.
  - by left.
  - apply N.eqb_eq in Hw as <-. rewrite flow_get_set, bool_decide_eq_true_2 in Hl by done.
    destruct (flow_get flow (root_of (inst_place inst))). by destruct Hl.
Qed.
End steps.

(** ** The fixed point *)

Section fixed.
Context `{TV : TypeView}.
Context (funcs : gmap nat Function) (ir : MIRFunction) (liveness : Liveness) (rt : TypePtr) (wide_shift : nat -> N).

#[local] Abbreviation run := (foldl (flow_inst funcs ir liveness rt wide_shift)).
#[local] Abbreviation block_run := (flow_block funcs ir liveness rt wide_shift).

(** Only blocks control reaches are entered, and a slot that lacks a value
    there does so for a reason. *)
Definition entries_lack (entries : list MIRState) : Prop :=
  forall i e, entries !! i = Some e -> unreachable e = false ->
    cfg_reachable ir i /\ forall v, lacking (mir_state_get e v) -> lacks_at ir v i 0.

Definition entries_good (entries : list MIRState) : Prop :=
  entries_bounded ir entries /\ entries_ok ir entries /\ entries_lack entries.

Lemma run_snoc flow b k inst :
  insts b !! k = Some inst ->
  run flow (take (S k) (insts b)) = flow_inst funcs ir liveness rt wide_shift (run flow (take k (insts b))) inst.
Proof. intros H. by rewrite (take_S_r _ _ _ H), foldl_app. Qed.

Lemma lacking_prefix flow i b :
  blocks ir !! i = Some b -> cfg_reachable ir i -> (forall v, lacking (flow_get flow v) -> lacks_at ir v i 0) ->
  forall k v, k <= length (insts b) -> lacking (flow_get (run flow (take k (insts b))) v) -> lacks_at ir v i k.
Proof.
  intros Hb Hi H0. induction k as [|k IH]; intros v Hk Hl; [by apply H0|].
  destruct (lookup_lt_is_Some_2 (insts b) k) as [inst Hinst]; [lia|].
  rewrite (run_snoc _ _ _ _ Hinst) in Hl. apply lacking_step in Hl as [He|[Hg Hl]].
  - by apply (lacks_emptied ir v i k inst Hi); [by exists b|].
  - apply (lacks_kept ir v i k inst); [apply IH; [lia|done]|by exists b|done].
Qed.

Lemma merge_get_lacking target exit v :
  lacking (mir_state_get (mir_state_merge target exit) v) ->
  unreachable target = false /\ lacking (mir_state_get target v) \/
  unreachable exit = true /\ lacking (mir_state_get target v) \/ lacking (mir_state_get exit v).
Proof.
  unfold mir_state_merge. rewrite state_copy_id. destruct (unreachable exit); [tauto|].
  destruct (unreachable target); [tauto|]. unfold mir_state_get. cbn [slots]. rewrite lookup_merge.
  destruct (slots target !! v) as [s|], (slots exit !! v) as [t|];
    cbn [merge_entry default from_option diag_None]; unfold id; try tauto; intros [H|H]%merge_lacking; try tauto.
Qed.

Lemma merge_into_lack exit acc s :
  unreachable exit = false ->
  (N.to_nat s < block_count ir -> cfg_reachable ir (N.to_nat s) /\
     forall v, lacking (mir_state_get exit v) -> lacks_at ir v (N.to_nat s) 0) ->
  length acc.2 = block_count ir -> entries_lack acc.2 -> entries_lack (merge_into exit acc s).2.
Proof.
  intros Hu Hs Hlen Hlack. destruct acc as [changed entries]. cbn [merge_into snd] in *.
  destruct (entries !! N.to_nat s) as [target|] eqn:Ht; [|done]. destruct (negb _); [|done]. cbn [snd].
  destruct Hs as [Hreach Hs]; [rewrite <- Hlen; by eapply lookup_lt_Some|].
  intros j e. rewrite !state_copy_id. destruct (decide (N.to_nat s = j)) as [<-|Hj].
  - rewrite list_lookup_insert_eq by (by eapply lookup_lt_Some). intros [= <-] _. split; [done|].
    intros v [[Hut Hl]|[[Hue _]|Hl]]%merge_get_lacking; [by apply (Hlack _ _ Ht Hut)|congruence|by apply Hs].
  - rewrite list_lookup_insert_ne by done. apply Hlack.
Qed.

Lemma merges_lack exit l : forall acc,
  unreachable exit = false ->
  (forall s, s ∈ l -> N.to_nat s < block_count ir -> cfg_reachable ir (N.to_nat s) /\
     forall v, lacking (mir_state_get exit v) -> lacks_at ir v (N.to_nat s) 0) ->
  length acc.2 = block_count ir -> entries_lack acc.2 -> entries_lack (foldl (merge_into exit) acc l).2.
Proof.
  induction l as [|s l IH]; intros acc Hu Hl Hlen Hacc; [done|]. cbn [foldl]. apply IH; [done| | |].
  - intros. apply Hl; [by right|done].
  - destruct acc as [changed entries]. cbn [merge_into snd] in *. destruct (entries !! _); [|done].
    destruct (negb _); [|done]. cbn. by rewrite length_insert.
  - apply merge_into_lack; [done| |done|done]. intros. apply Hl; [by left|done].
Qed.

Lemma flow_step_lack acc i :
  length acc.2.1 = block_count ir -> entries_lack acc.2.1 ->
  entries_lack (flow_step funcs ir liveness rt wide_shift acc i).2.1.
Proof.
  destruct acc as [changed [entries flow]]. cbn [snd fst flow_step]. intros Hlen H.
  destruct (entries !! i) as [e|] eqn:He, (blocks ir !! i) as [b|] eqn:Hb; try done.
  destruct (unreachable e) eqn:Hu; [done|]. destruct (H i e He Hu) as [Hi Hl].
  set (flow' := flow_block _ _ _ _ _ _ _).
  pose proof (merges_lack (flow_state flow') (mir_block_successors b) (changed, entries)) as Hm.
  destruct (foldl (merge_into _) _ _) as [changed1 entries1]. cbn [snd fst] in *. apply Hm; [| |done|done].
  - unfold flow'. by rewrite unreachable_block, state_copy_id.
  - intros s Hs Hlt. split; [by eapply cfg_edge|]. intros v Hv.
    apply (lacks_edge ir v i (length (insts b))); [|by exists b, s].
    eapply (lacking_prefix (with_state flow (mir_state_copy e)) i b Hb Hi); [|done|by rewrite firstn_all].
    intros w. unfold flow_get. cbn [flow_state with_state]. rewrite state_copy_id. apply Hl.
Qed.

Lemma flow_turn_good a :
  entries_good a.1 -> entries_good (flow_turn funcs ir liveness rt wide_shift a).2.1.
Proof.
  intros (Hb & Ho & Hl). split; [apply (flow_turn_climbs funcs ir liveness rt wide_shift a Hb)|].
  split; [by apply flow_turn_ok|]. unfold flow_turn.
  enough (H : forall l acc, entries_ok ir acc.2.1 -> entries_lack acc.2.1 ->
    entries_lack (foldl (flow_step funcs ir liveness rt wide_shift) acc l).2.1) by by apply H.
  induction l as [|i l IH]; intros acc Ha Hla; [done|]. cbn [foldl].
  apply IH; [by apply flow_step_ok|]. apply flow_step_lack; [apply Ha|done].
Qed.

Lemma initial_good : 0 < block_count ir -> entries_good (initial_entries ir).
Proof.
  intros Hpos. split; [by apply initial_entries_bounded|]. split; [by apply initial_entries_ok|].
  intros i e He Hu. unfold initial_entries in He.
  apply list_lookup_insert_Some in He as [(<- & <- & _)|(_ & He)].
  2:{ apply lookup_replicate in He as [-> _]. done. }
  split; [constructor|]. intros v Hv. exfalso. revert Hv.
  enough (H : forall l s, (forall v, ~ lacking (mir_state_get s v)) ->
    forall v, ~ lacking (mir_state_get (foldl (fun s p => mir_state_set s p (param_slot ir p)) s l) v)).
  { apply H. intros w [Hw|Hw]; done. }
  induction l as [|p l IH]; intros s Hs w; [apply Hs|]. cbn [foldl]. apply IH. intros x. rewrite state_get_set.
  case_bool_decide; [|apply Hs]. unfold param_slot.
  assert (Hleaf : forall v, ~ lacking (mir_slot_add_borrow (slot_leaf MIR_SLOT_INIT) v)).
  { intros y. unfold mir_slot_add_borrow. destruct (_ || _); by intros [|]. }
  destruct (mir_value_info ir p) as [info|]; [destruct (borrows_memory _); [apply Hleaf|]|]; by intros [|].
Qed.
End fixed.

Section at_fixed_point.
Context `{TV : TypeView}.
Context (funcs : gmap nat Function) (ir : MIRFunction) (liveness : Liveness) (rt : TypePtr) (wide_shift : nat -> N).
Context (entries : list MIRState).
Hypothesis (Hgood : entries_good ir entries).
Hypothesis (Hfix : fixed_point funcs ir liveness rt wide_shift entries).

#[local] Abbreviation run := (foldl (flow_inst funcs ir liveness rt wide_shift)).

(** A flow at the start of block [i]. *)
Definition entered (i : nat) (flow : MIRFlow) : Prop :=
  exists e, entries !! i = Some e /\ unreachable e = false /\ flow_state flow = e.

(** What holds after the first [k] instructions of block [i]. *)
Definition at_point (i k : nat) (P : MIRFlow -> Prop) : Prop :=
  cfg_reachable ir i /\
  forall flow b, entered i flow -> blocks ir !! i = Some b -> P (run flow (take k (insts b))).

Lemma reached_entry i b : cfg_reachable ir i -> blocks ir !! i = Some b ->
  exists e, entries !! i = Some e /\ unreachable e = false.
Proof.
  intros Hi Hb. destruct Hgood as (_ & Hok & _). destruct (lookup_lt_is_Some_2 entries i) as [e He].
  { rewrite (proj1 Hok). by eapply lookup_lt_Some. }
  exists e. split; [done|]. by eapply fixed_point_reachable.
Qed.

Lemma entry_ok i e : entries !! i = Some e -> state_ok ir e.
Proof. destruct Hgood as ([_ Hall] & _). intros He. by eapply Forall_lookup_1. Qed.

(** Across an edge, the slot entered with has the exit's slot joined in. *)
Lemma edge_joined i k s flow' :
  cfg_reachable ir i -> edge_at ir i k s -> entered s flow' ->
  exists flow b, entered i flow /\ blocks ir !! i = Some b /\
    forall v, let exit := flow_get (run flow (take k (insts b))) v in
      flow_get flow' v ≡ slot_merge (flow_get flow' v) exit /\ slot_settled exit.
Proof.
  intros Hi (b & t & Hb & -> & Ht & -> & Hlt) (e' & He' & Hu' & Hs').
  destruct (reached_entry i b Hi Hb) as (e & He & Hu).
  destruct (Hfix i e b t e' He Hu Hb Ht He') as (flow & Hflow & Habs).
  assert (Hx : state_ok ir (flow_state (flow_block funcs ir liveness rt wide_shift flow b))).
  { apply flow_ok_block; [|by eapply list_elem_of_lookup_2]. unfold flow_ok. rewrite Hflow. by eapply entry_ok. }
  pose proof (entry_ok _ _ He') as Hok'.
  exists flow, b. split; [by exists e|]. split; [done|]. intros v. cbn zeta. rewrite firstn_all. split.
  - apply state_equals_equiv in Habs as [_ Heq];
      [|by apply (state_ok_wf ir), state_ok_merge|by apply (state_ok_wf ir)].
    specialize (Heq v). rewrite state_merge_get in Heq; [|done| |by apply (state_ok_settled ir)].
    2:{ by rewrite unreachable_block, Hflow. }
    unfold flow_get at 1 2. rewrite Hs'. symmetry. exact Heq.
  - apply state_get_settled. by apply (state_ok_settled ir).
Qed.

Lemma inst_unique b i k inst inst' :
  blocks ir !! i = Some b -> inst_at_point ir i k inst -> insts b !! k = Some inst' -> inst = inst'.
Proof. intros Hb (b' & Hb' & Hi) Hi'. congruence. Qed.

(** One instruction further. *)
Lemma at_point_step i k inst (P Q : MIRFlow -> Prop) :
  inst_at_point ir i k inst -> at_point i k P ->
  (forall flow, P flow -> Q (flow_inst funcs ir liveness rt wide_shift flow inst)) -> at_point i (S k) Q.
Proof.
  intros (b & Hb & Hinst) [Hi HP] Hstep. split; [done|]. intros flow b' He Hb'. assert (b' = b) as -> by congruence.
  rewrite (run_snoc _ _ _ _ _ _ _ _ _ Hinst). by apply Hstep, HP.
Qed.

(** A point the slot lacks no value at is entered with one that is not lacking. *)
Lemma entered_not_lacking s flow v : entered s flow -> ~ lacks_at ir v s 0 -> ~ lacking (flow_get flow v).
Proof.
  intros (e & He & Hu & Hs) Hn Hl. apply Hn. destruct Hgood as (_ & _ & Hlack).
  apply (proj2 (Hlack s e He Hu)). unfold flow_get in Hl. by rewrite Hs in Hl.
Qed.

Lemma point_not_lacking i k v flow b :
  cfg_reachable ir i -> entered i flow -> blocks ir !! i = Some b -> k <= length (insts b) -> ~ lacks_at ir v i k ->
  ~ lacking (flow_get (run flow (take k (insts b))) v).
Proof.
  intros Hi (e & He & Hu & Hs) Hb Hk Hn Hl. apply Hn. eapply lacking_prefix; [done|done| |done|exact Hl].
  intros w Hw. destruct Hgood as (_ & _ & Hlack). apply (proj2 (Hlack i e He Hu)).
  unfold flow_get in Hw. by rewrite Hs in Hw.
Qed.

Lemma edge_reachable i k s : cfg_reachable ir i -> edge_at ir i k s -> cfg_reachable ir s.
Proof. intros Hi (b & t & Hb & _ & Ht & -> & Hlt). by eapply cfg_edge. Qed.

(** What invalidations and joins keep of a slot is kept where nothing writes
    the slot, as far as it lacks no value. *)
Section carried.
Context (v : MIRValueId) (P : MIRSlot -> Prop).
Hypothesis (Hinv : forall s s', invalidated s s' -> P s -> P s').
Hypothesis (Hjoin : forall t s, t ≡ slot_merge t s -> slot_settled s -> ~ lacking t -> P s -> P t).

Lemma carried i k j m :
  untouched ir v i k j m -> at_point i k (fun flow => P (flow_get flow v)) -> ~ lacks_at ir v j m ->
  at_point j m (fun flow => P (flow_get flow v)).
Proof.
  induction 1 as [|j m inst _ IH Hat Hw|j m s _ IH Hedge]; intros HP Hn; [done| |].
  - eapply at_point_step; [exact Hat|apply IH; [done|]|].
    + intros Hl. apply Hn. by apply (lacks_kept ir v j m inst); [| |apply kept_gives_nothing].
    + intros flow. cbn beta. by apply Hinv, flow_inst_invalidated.
  - destruct IH as [Hj IH]; [done|intros Hl; apply Hn; by eapply lacks_edge|].
    split; [by eapply edge_reachable|]. intros flow' b' He' Hb'. cbn [take foldl].
    destruct (edge_joined j m s flow' Hj Hedge He') as (flow & b & He & Hb & Hm). destruct (Hm v) as [Heq Hset].
    eapply Hjoin; [exact Heq|exact Hset|by apply (entered_not_lacking s)|]. by apply IH.
Qed.

Lemma untouched_not_lacking i k j m : untouched ir v i k j m -> ~ lacks_at ir v j m -> ~ lacks_at ir v i k.
Proof.
  induction 1 as [|j m inst _ IH Hat Hw|j m s _ IH Hedge]; intros Hn; [done| |]; apply IH; intros Hl; apply Hn.
  - by apply (lacks_kept ir v j m inst); [| |apply kept_gives_nothing].
  - by eapply lacks_edge.
Qed.
End carried.

(** *** What may name a value does *)

(** The instruction has the sources of [v] collected. *)
Definition collects (inst : MIRInst) (v : MIRValueId) : Prop :=
  match op inst with
  | MIR_STORE =>
      mir_value_is_none (root_of (inst_place inst)) = false /\ reaches_past_its_root (inst_place inst) = false /\
      exists arg rest, args inst = arg :: rest /\ v = mir_operand_as_value arg
  | MIR_CALL | MIR_COPY | MIR_MAKE_SLICE => v = result inst
  | MIR_RETURN => borrows_memory rt = true /\ exists arg rest, args inst = arg :: rest /\ v = mir_operand_as_value arg
  | _ => False
  end.

Hypothesis (Hends : forall i k inst v,
  cfg_reachable ir i -> inst_at_point ir i k inst -> collects inst v -> ~ goes_round funcs ir v).

Lemma place_keeps state place into x :
  x ∈ slot_borrows into -> x ∈ slot_borrows (collect_place_sources ir state place into).
Proof.
  assert (Hone : forall s w, x ∈ slot_borrows s -> x ∈ slot_borrows (mir_slot_add_borrow s w)).
  { intros s w Hx. apply (elem_of_add_borrows s [w]). by left. }
  intros Hx. unfold collect_place_sources. destruct (mir_value_is_none _); [done|]. destruct (_ && _); [by apply Hone|].
  assert (Ha : forall l, x ∈ slot_borrows (add_borrows into l)) by (intros l; apply elem_of_add_borrows; by left).
  destruct (_ && _); [by apply Hone|done].
Qed.

Lemma collect_keeps n state x : forall v into slot,
  collect_sources funcs ir n state v into = Some slot -> x ∈ slot_borrows into -> x ∈ slot_borrows slot.
Proof.
  induction n as [|n IH]; intros v into slot; [done|]. cbn [collect_sources].
  destruct (definition_of ir v) as [inst|].
  - assert (Hl : forall l into,
      foldl (fun into arg => into ← into; collect_sources funcs ir n state (mir_operand_as_value arg) into) (Some into) l = Some slot ->
      x ∈ slot_borrows into -> x ∈ slot_borrows slot).
    { induction l as [|arg l IHl]; intros into'; cbn [foldl]; [by intros [= ->]|]. cbn [mbind option_bind].
      destruct (collect_sources _ _ n _ _ _) as [into1|] eqn:Hc; [|by rewrite foldl_none].
      intros H Hx. eapply IHl; [exact H|]. by eapply IH. }
    destruct (op inst); try (intros [= <-]; apply place_keeps); apply Hl.
  - intros [= <-] Hx. unfold collect_undefined.
    assert (Ha : forall l, x ∈ slot_borrows (add_borrows into l)) by (intros l; apply elem_of_add_borrows; by left).
    destruct (bool_decide _); [done|]. destruct (_ || _); [|done].
    apply (elem_of_add_borrows _ [v]). by left.
Qed.

(** The sources of an argument are sources of what is drawn from it. *)
Lemma collect_drawn n state q v w into slot :
  draws_on funcs ir v w ->
  (forall n into slot, collect_sources funcs ir n state w into = Some slot -> q ∈ slot_borrows slot) ->
  collect_sources funcs ir n state v into = Some slot -> q ∈ slot_borrows slot.
Proof.
  intros (inst & arg & Hd & H1 & H2 & Harg & ->) Hq. destruct n as [|n]; [done|]. cbn [collect_sources]. rewrite Hd.
  assert (Hkeep : forall l into,
    foldl (fun into arg => into ← into; collect_sources funcs ir n state (mir_operand_as_value arg) into) (Some into) l = Some slot ->
    q ∈ slot_borrows into -> q ∈ slot_borrows slot).
  { induction l as [|a l IHl]; intros into'; cbn [foldl]; [by intros [= ->]|]. cbn [mbind option_bind].
    destruct (collect_sources _ _ n _ _ _) as [into1|] eqn:Hc; [|by rewrite foldl_none].
    intros H Hx. eapply IHl; [exact H|]. by eapply collect_keeps. }
  assert (Hl : foldl (fun into arg => into ← into; collect_sources funcs ir n state (mir_operand_as_value arg) into)
                 (Some into) (source_args funcs inst) = Some slot -> q ∈ slot_borrows slot).
  { clear Hd H1 H2. revert into. induction (source_args funcs inst) as [|a l IHl]; intros into; [by apply elem_of_nil in Harg|].
    cbn [foldl mbind option_bind]. destruct (collect_sources _ _ n _ _ _) as [into1|] eqn:Hc; [|by rewrite foldl_none].
    apply elem_of_cons in Harg as [->|Ha]; [|by apply IHl]. intros H. eapply Hkeep; [exact H|by eapply Hq]. }
  by destruct (op inst).
Qed.

(** A place whose root's slot names [q], or that refers to [q]. *)
Lemma place_collects_held state place into fields q :
  tracked_depth place = 0 -> mir_value_is_none (root_of place) = false -> q <> MIR_NO_VALUE ->
  root_of place = q \/ holds_its_own_object ir (root_of place) = false ->
  held fields q (mir_state_get state (root_of place)) ->
  q ∈ slot_borrows (collect_place_sources ir state place into).
Proof.
  intros Hd Hn Hq Hr Hh%held_names. unfold collect_place_sources, slot_of. rewrite Hn, slot_walk_whole by done.
  cbn [default from_option]. unfold id.
  destruct (holds_its_own_object ir (root_of place) && _) eqn:Hown.
  - destruct Hr as [<-|Hr]; [|by rewrite Hr in Hown]. apply (elem_of_add_borrows into [root_of place]). right.
    split; [left|done].
  - assert (Hf : q ∈ slot_borrows (add_borrows into (slot_borrows (mir_slot_flattened (mir_state_get state (root_of place)))))).
    { apply elem_of_add_borrows. right. split; [|done]. by apply flattened_borrows. }
    destruct (bool_decide (slot_borrows _ = []) && _); [|exact Hf].
    apply (elem_of_add_borrows _ [root_of place]). by left.
Qed.

Lemma place_collects_referred state place into i k flow :
  refers_to funcs ir wide_shift (root_of place) place i k ->
  flow_state flow = state -> (~ lacks_at ir (root_of place) i k -> ~ lacking (flow_get flow (root_of place))) ->
  (holds_its_own_object ir (root_of place) = false -> tracked_depth place = 0 ->
     slot_borrows (mir_slot_flattened (flow_get flow (root_of place))) = [] /\
     slot_init (mir_slot_flattened (flow_get flow (root_of place))) <> MIR_SLOT_MOVED) ->
  root_of place ∈ slot_borrows (collect_place_sources ir state place into).
Proof.
  intros (_ & Hn & Hcase) <- Hlack Hplain.
  assert (Hone : forall s, root_of place ∈ slot_borrows (mir_slot_add_borrow s (root_of place))).
  { intros s. apply (elem_of_add_borrows s [root_of place]). right. split; [left|]. by apply N.eqb_neq. }
  unfold collect_place_sources. rewrite Hn. destruct Hcase as [[Hown Hl]|(Hown & Hd & _)]; rewrite Hown; cbn [andb].
  - apply Hlack in Hl. rewrite bool_decide_eq_false_2; [apply Hone|]. intros Hm. apply Hl. by right.
  - destruct (Hplain Hown Hd) as [Hb Hi]. unfold slot_of. rewrite Hn, slot_walk_whole by done.
    cbn [default from_option]. unfold id. change (mir_state_get (flow_state flow) (root_of place)) with (flow_get flow (root_of place)).
    rewrite Hb. rewrite (bool_decide_eq_true_2 ([] = [])), (bool_decide_eq_false_2 (_ = MIR_SLOT_MOVED)) by done. apply Hone.
Qed.

Lemma none_is q : mir_value_is_none q = false -> q <> MIR_NO_VALUE.
Proof. by intros ?%N.eqb_neq. Qed.

Lemma param_borrows_value q : param_borrows ir q -> q <> MIR_NO_VALUE.
Proof.
  intros (_ & info & Hi & _). unfold mir_value_info in Hi. destruct (mir_value_is_none q) eqn:Hn; [done|]. by apply none_is.
Qed.

(** What each relation says of the flow at its point. *)
Definition slot_held (fields : bool) (q v : MIRValueId) (flow : MIRFlow) : Prop :=
  q <> MIR_NO_VALUE /\ held fields q (flow_get flow v).
Definition place_held (q : MIRValueId) (place : Place) (flow : MIRFlow) : Prop :=
  q <> MIR_NO_VALUE /\ forall into, q ∈ slot_borrows (collect_place_sources ir (flow_state flow) place into).
Definition source_held (q v : MIRValueId) (flow : MIRFlow) : Prop :=
  q <> MIR_NO_VALUE /\
  forall n into slot, collect_sources funcs ir n (flow_state flow) v into = Some slot -> q ∈ slot_borrows slot.

Lemma at_point_weaken i k (P Q : MIRFlow -> Prop) : at_point i k P -> (forall flow, P flow -> Q flow) -> at_point i k Q.
Proof. intros [Hi HP] H. split; [done|]. intros flow b He Hb. by apply H, HP. Qed.

Lemma taken_held fields q inst flow :
  op inst = MIR_LOAD \/ op inst = MIR_REF -> place_held q (inst_place inst) flow ->
  slot_held fields q (result inst) (flow_inst funcs ir liveness rt wide_shift flow inst).
Proof.
  intros Ho [Hq Hp]. split; [done|]. specialize (Hp (slot_leaf MIR_SLOT_INIT)).
  rewrite <- flow_get_take in Hp. apply (held_here fields) in Hp.
  unfold flow_inst. destruct Ho as [-> | ->]; [|exact Hp]. unfold flow_load.
  destruct (negb _); [exact Hp|]. rewrite flow_get_set. case_bool_decide as He; [|exact Hp].
  rewrite <- He. by apply set_all_held.
Qed.

Lemma collected_held i k inst v q flow :
  cfg_reachable ir i -> inst_at_point ir i k inst -> collects inst v -> source_held q v flow ->
  exists slot, collect_sources funcs ir (sources_fuel ir) (flow_state flow) v (slot_leaf MIR_SLOT_INIT) = Some slot /\
    q ∈ slot_borrows slot.
Proof.
  intros Hi Hat Hc [_ Hs].
  destruct (collect_sources funcs ir (sources_fuel ir) (flow_state flow) v (slot_leaf MIR_SLOT_INIT)) as [slot|] eqn:Hslot.
  - exists slot. split; [done|]. by eapply Hs.
  - apply collect_sources_lost in Hslot. exfalso. exact (Hends _ _ _ _ Hi Hat Hc Hslot).
Qed.

Lemma stored_held i k fields q inst arg rest flow :
  cfg_reachable ir i -> inst_at_point ir i k inst ->
  op inst = MIR_STORE -> args inst = arg :: rest -> mir_value_is_none (root_of (inst_place inst)) = false ->
  reaches_past_its_root (inst_place inst) = false ->
  fields = true \/ tracked_depth (inst_place inst) = 0 ->
  source_held q (mir_operand_as_value arg) flow ->
  slot_held fields q (root_of (inst_place inst)) (flow_inst funcs ir liveness rt wide_shift flow inst).
Proof.
  intros Hi Hat Ho Ha Hn Hp Hf Hs. split; [apply Hs|]. unfold flow_inst. rewrite Ho.
  destruct (collected_held i k inst (mir_operand_as_value arg) q flow) as (slot & Hslot & Hq); [done|done| |done|].
  { unfold collects. rewrite Ho. split; [done|]. split; [done|]. by exists arg, rest. }
  destruct (flow_get_store funcs ir liveness flow inst arg rest Ha Hn Hp) as (old & Hst & _).
  unfold stored_slot in Hst. rewrite Hslot in Hst. cbn [default from_option] in Hst. unfold id in Hst.
  destruct Hf as [->|Hd].
  - eapply store_at_names; [exact Hst|]. by apply (held_here true).
  - rewrite Hd in Hst. cbn [take store_at] in Hst. injection Hst as <-. by apply held_here.
Qed.

Lemma result_held i k fields q inst flow :
  cfg_reachable ir i -> inst_at_point ir i k inst ->
  op inst = MIR_CALL \/ op inst = MIR_COPY \/ op inst = MIR_MAKE_SLICE -> source_held q (result inst) flow ->
  slot_held fields q (result inst) (flow_inst funcs ir liveness rt wide_shift flow inst).
Proof.
  intros Hi Hat Ho Hs. split; [apply Hs|].
  destruct (collected_held i k inst (result inst) q flow) as (slot & Hslot & Hq); [done|done| |done|].
  { unfold collects. by destruct Ho as [-> | [-> | ->]]. }
  assert (Hcall : flow_inst funcs ir liveness rt wide_shift flow inst = flow_call funcs ir flow inst)
    by (unfold flow_inst; by destruct Ho as [-> | [-> | ->]]).
  rewrite Hcall, flow_get_call, Hslot. by apply held_here.
Qed.

Lemma undefined_held fields q v flow :
  definition_of ir v = None -> slot_held fields q v flow -> source_held q v flow.
Proof.
  intros Hd [Hq Hh%held_names]. split; [done|]. intros [|n] into slot; [done|]. cbn [collect_sources]. rewrite Hd.
  intros [= <-]. unfold collect_undefined. fold (flow_get flow v).
  assert (Hf : q ∈ slot_borrows (add_borrows into (slot_borrows (mir_slot_flattened (flow_get flow v))))).
  { apply elem_of_add_borrows. right. split; [|done]. by apply flattened_borrows. }
  destruct (bool_decide _); [done|]. destruct (_ || _); [|done]. apply (elem_of_add_borrows _ [v]). by left.
Qed.

Lemma taken_source q v inst flow :
  definition_of ir v = Some inst -> op inst = MIR_LOAD \/ op inst = MIR_REF -> place_held q (inst_place inst) flow ->
  source_held q v flow.
Proof.
  intros Hd Ho [Hq Hp]. split; [done|]. intros [|n] into slot; [done|]. cbn [collect_sources]. rewrite Hd.
  destruct Ho as [-> | ->]; intros [= <-]; apply Hp.
Qed.

(** The relations are followed by the states of the fixed point. *)
Lemma names_held fields q :
  (forall v i k, may_name funcs ir wide_shift fields q v i k -> at_point i k (slot_held fields q v)) /\
  (forall place i k, place_names funcs ir wide_shift fields q place i k -> at_point i k (place_held q place)) /\
  (forall v i k, source_names funcs ir wide_shift fields q v i k -> at_point i k (source_held q v)).
Proof.
  apply (names_mut _ _ _ _ fields q
    (fun v i k => at_point i k (slot_held fields q v))
    (fun place i k => at_point i k (place_held q place))
    (fun v i k => at_point i k (source_held q v))).
  - intros Hp. split; [constructor|]. intros flow b (e & He & _ & <-) _. split; [by apply param_borrows_value|].
    cbn [take foldl]. apply held_here. destruct Hgood as (_ & [_ Hok] & _). apply (proj2 (Hok _ He)), Hp.
  - intros i k inst Hat Ho _ IH. eapply at_point_step; [exact Hat|exact IH|]. intros flow. by apply taken_held.
  - intros i k inst arg rest Hat Ho Ha Hn Hp Hf _ IH. eapply at_point_step; [exact Hat|exact IH|].
    intros flow. eapply stored_held; try done. apply IH.
  - intros i k inst Hat Ho _ IH. eapply at_point_step; [exact Hat|exact IH|]. intros flow. eapply result_held; try done. apply IH.
  - intros v i k inst _ IH Hat Hw. eapply at_point_step; [exact Hat|exact IH|]. intros flow [Hq Hh]. split; [done|].
    eapply invalidated_held; [by apply flow_inst_invalidated|exact Hh].
  - intros v i k s _ [Hi IH] Hedge. split; [by eapply edge_reachable|]. intros flow' b' He' Hb'. cbn [take foldl].
    destruct (edge_joined i k s flow' Hi Hedge He') as (flow & b & He & Hb & Hm). destruct (Hm v) as [Heq Hset].
    destruct (IH flow b He Hb) as [Hq Hh]. split; [done|].
    eapply held_equiv; [symmetry; exact Heq|]. by apply merge_held.
  - intros i k inst place Hi Hat Hr. split; [done|]. intros flow b He Hb. pose proof Hr as (Hroot & Hn & Hcase).
    split; [by apply none_is|]. intros into. subst q.
    eapply place_collects_referred; [exact Hr|reflexivity| |].
    + intros Hl. apply point_not_lacking with i; try done. destruct Hat as (b' & Hb' & Hinst).
      assert (b' = b) as -> by congruence. apply lookup_lt_Some in Hinst. lia.
    + intros Hown Hd. destruct Hcase as [[Hown' _]|(_ & _ & Hw)]; [congruence|]. by apply Hw.
  - intros i k place Hd Hn Hr _ IH. eapply at_point_weaken; [exact IH|]. intros flow [Hq Hh]. split; [done|].
    intros into. by eapply place_collects_held.
  - intros v i k Hd _ IH. eapply at_point_weaken; [exact IH|]. intros flow. by apply undefined_held.
  - intros v i k inst Hd Ho _ IH. eapply at_point_weaken; [exact IH|]. intros flow. by eapply taken_source.
  - intros v w i k Hd _ IH. eapply at_point_weaken; [exact IH|]. intros flow [Hq Hs]. split; [done|].
    intros n into slot. by eapply collect_drawn.
Qed.

End at_fixed_point.

(** ** A run of the checker *)

(** No walk of a run that came back went round. *)
Lemma collected_ended `{TV : TypeView} funcs ir liveness rt ws flow inst v :
  collects rt inst v -> sources_ended (flow_inst funcs ir liveness rt ws flow inst) = true ->
  ~ goes_round funcs ir v.
Proof.
  assert (Hc : forall flow v into flow', extends (collect funcs ir flow v into).1 flow' ->
            sources_ended flow' = true -> ~ goes_round funcs ir v).
  { intros fl w into fl' (_ & _ & _ & He) H Hr. specialize (He H). unfold collect in He.
    by rewrite (proj2 (collect_sources_lost funcs ir (flow_state fl) w into) Hr) in He. }
  unfold collects, flow_inst. destruct (op inst); try done.
  - intros (Hn & Hp & arg & rest & Ha & ->). eapply Hc. by eapply extends_stored.
  - intros ->. unfold flow_call. destruct (collect _ _ _ _ _) as [flow1 slot] eqn:Hcol.
    apply (Hc (foldl (check_argument (inst_span inst)) flow (args inst)) _ (slot_leaf MIR_SLOT_INIT)). rewrite Hcol.
    apply extends_set.
  - intros ->. unfold flow_call. destruct (collect _ _ _ _ _) as [flow1 slot] eqn:Hcol.
    apply (Hc (foldl (check_argument (inst_span inst)) flow (args inst)) _ (slot_leaf MIR_SLOT_INIT)). rewrite Hcol.
    apply extends_set.
  - intros ->. unfold flow_call. destruct (collect _ _ _ _ _) as [flow1 slot] eqn:Hcol.
    apply (Hc (foldl (check_argument (inst_span inst)) flow (args inst)) _ (slot_leaf MIR_SLOT_INIT)). rewrite Hcol.
    apply extends_set.
  - intros (Hb & arg & rest & Ha & ->). eapply Hc. by eapply extends_return.
Qed.

(** What a run that returns leaves: its entries are a fixed point, good, and
    every walk it took came back; what its last run of a block establishes for
    good, it returns. *)
Lemma mir_borrowck_paths `{TV : TypeView} funcs ws fuel ir diags function rep d f i k inst :
  let rt := match function with Some f => return_type (fn_signature f) | None => None end in
  mir_borrowck funcs ws fuel ir diags function rep = Some (d, f) -> inst_at_point ir i k inst ->
  exists liveness entries last,
    entries_good ir entries /\ fixed_point funcs ir liveness rt ws entries /\
    (forall i k inst v, cfg_reachable ir i -> inst_at_point ir i k inst -> collects rt inst v -> ~ goes_round funcs ir v) /\
    d = flow_diagnostics last /\
    (rep = false -> f = (fun f => with_borrowed_params f (returned_params last)) <$> function) /\
    forall (P : MIRFlow -> Prop) (Q : MIRFlow -> Prop), (forall flow flow', extends flow flow' -> P flow -> P flow') ->
      at_point funcs ir liveness rt ws entries i k Q ->
      (forall flow, reporting flow = rep -> Q flow -> P (flow_inst funcs ir liveness rt ws flow inst)) -> P last.
Proof.
  intros rt H (b & Hb & Hinst).
  assert (Hpos : 0 < block_count ir) by (apply lookup_lt_Some in Hb; unfold block_count; lia).
  destruct (mir_borrowck_loop (entries_good ir) _ _ _ _ _ _ _ _ _ H Hpos (initial_good ir Hpos)
              (fun liveness a Ha => flow_turn_good funcs ir liveness rt ws a Ha))
    as (liveness & entries & flow & _ & Hgood & _ & Hfix & Hrep & Hend & Hd & Hf).
  fold rt in Hfix, Hend, Hd, Hf. set (last := flow_report funcs ir liveness rt ws entries flow) in *.
  assert (Hlast : forall (P Q : MIRFlow -> Prop) i k b inst,
    (forall flow flow', extends flow flow' -> P flow -> P flow') -> blocks ir !! i = Some b -> insts b !! k = Some inst ->
    at_point funcs ir liveness rt ws entries i k Q ->
    (forall flow, reporting flow = rep -> Q flow -> P (flow_inst funcs ir liveness rt ws flow inst)) -> P last).
  { clear i k b inst Hb Hinst. intros P Q i k b inst Hmono Hb Hinst [Hi HQ] Hrun.
    destruct (reached_entry funcs ir liveness rt ws entries Hgood Hfix i b Hi Hb) as (e & He & Hu).
    eapply flow_report_holds; [exact Hmono|exact He|exact Hu|exact Hb|]. intros flow' Hr Hs. unfold flow_block.
    rewrite <- (take_drop_middle _ _ _ Hinst), foldl_app. cbn [foldl].
    eapply Hmono; [apply run_extends|]. apply Hrun; [|apply HQ; [by exists e|done]].
    rewrite (proj1 (run_extends _ _ _ _ _ _ _)). congruence. }
  exists liveness, entries, last. do 2 (split; [done|]). split.
  { intros i' k' inst' v Hi' (b' & Hb' & Hinst') Hc.
    apply (Hlast (fun fl => sources_ended fl = true -> ~ goes_round funcs ir v) (fun _ => True) i' k' b' inst'); try done.
    - intros fl fl' (_ & _ & _ & He) Hfl H'. auto.
    - intros fl _ _. by apply collected_ended. }
  do 2 (split; [done|]). intros P Q Hmono HQ Hrun. by eapply Hlast.
Qed.

(** ** Freeing *)

(** The storage of [x] ends, or the object it owns is dropped. *)
Definition frees (x : MIRValueId) (inst : MIRInst) : Prop :=
  op inst = MIR_STORAGE_DEAD /\ root_of (inst_place inst) = x \/
  op inst = MIR_DROP /\ x ∈ root_of (inst_place inst) :: (mir_operand_as_value <$> args inst).

Lemma invalidations_dangle x ds : forall s,
  x ∈ ds -> x ∈ slot_borrows s -> slot_init s = MIR_SLOT_INIT \/ slot_init s = MIR_SLOT_DANGLING ->
  slot_init (foldl slot_invalidate_borrows_of s ds) = MIR_SLOT_DANGLING.
Proof.
  assert (Hkeep : forall ds s, slot_init s = MIR_SLOT_DANGLING -> slot_init (foldl slot_invalidate_borrows_of s ds) = MIR_SLOT_DANGLING).
  { intros l. induction l as [|y l IH]; intros s Hs; [done|]. cbn [foldl]. apply IH. destruct s. rewrite invalidate_eq. cbn in *. by subst. }
  induction ds as [|y ds IH]; intros s Hx Hb Hi; [by apply elem_of_nil in Hx|]. cbn [foldl].
  destruct s as [i b f]. rewrite invalidate_eq. cbn [slot_init slot_borrows] in *.
  destruct (decide (y ∈ b)) as [Hy|Hy].
  - apply Hkeep. cbn. rewrite (bool_decide_eq_true_2 _ Hy), andb_true_r. case_bool_decide; [done|]. by destruct Hi.
  - rewrite (bool_decide_eq_false_2 _ Hy), andb_false_r. apply IH; [|done|done].
    apply elem_of_cons in Hx as [->|Hx]; [done|exact Hx].
Qed.

Lemma free_dangles `{TV : TypeView} funcs ir liveness rt ws flow inst x v :
  frees x inst -> x <> v -> x ∈ slot_borrows (flow_get flow v) ->
  slot_init (flow_get flow v) = MIR_SLOT_INIT \/ slot_init (flow_get flow v) = MIR_SLOT_DANGLING ->
  slot_init (flow_get (flow_inst funcs ir liveness rt ws flow inst) v) = MIR_SLOT_DANGLING.
Proof.
  intros Hf Hv Hb Hi. unfold flow_inst. destruct Hf as [[-> <-]|[-> Hx]].
  - unfold flow_storage_dead. rewrite flow_get_set_ne, flow_get_invalidate by done.
    apply (invalidations_dangle (root_of (inst_place inst)) [root_of (inst_place inst)]); [left|done|done].
  - assert (Hd : forall l fl, flow_get (foldl (fun flow arg => invalidate flow (mir_operand_as_value arg)) fl l) v =
                   foldl slot_invalidate_borrows_of (flow_get fl v) (mir_operand_as_value <$> l)).
    { induction l as [|a l IH]; intros fl; [done|]. cbn. by rewrite IH, flow_get_invalidate. }
    unfold flow_drop. rewrite Hd, flow_get_invalidate.
    by apply (invalidations_dangle x (root_of (inst_place inst) :: (mir_operand_as_value <$> args inst))).
Qed.

Lemma prefix_settled `{TV : TypeView} funcs ir liveness rt ws entries i k flow b v :
  entries_good ir entries -> entered entries i flow -> blocks ir !! i = Some b ->
  slot_settled (flow_get (foldl (flow_inst funcs ir liveness rt ws) flow (take k (insts b))) v).
Proof.
  intros Hgood (e & He & _ & Hs) Hb. apply state_get_settled, (state_ok_settled ir).
  assert (Hl : forall l fl, (forall inst, inst ∈ l -> inst ∈ all_insts ir) -> flow_ok ir fl ->
            flow_ok ir (foldl (flow_inst funcs ir liveness rt ws) fl l)).
  { induction l as [|inst l IH]; intros fl Hin Hfl; [done|]. cbn [foldl]. apply IH; [intros; apply Hin; by right|].
    apply flow_ok_inst; [done|]. apply Hin. left. }
  apply Hl.
  - intros inst Hi. unfold all_insts. apply list_elem_of_In, in_flat_map. exists b. rewrite <- !list_elem_of_In.
    split; [by eapply list_elem_of_lookup_2|]. by eapply elem_of_take in Hi as (j & Hj & _); eapply list_elem_of_lookup_2.
  - unfold flow_ok. rewrite Hs. by eapply entry_ok.
Qed.

(** A slot that dangles goes on dangling. *)
Lemma dangling_kept s s' : invalidated s s' -> slot_init s = MIR_SLOT_DANGLING -> slot_init s' = MIR_SLOT_DANGLING.
Proof.
  intros [ds ->]. revert s. induction ds as [|d ds IH]; intros s Hs; [done|]. cbn. apply IH. destruct s.
  rewrite invalidate_eq. cbn in *. by subst.
Qed.

Lemma dangling_joined t s :
  t ≡ slot_merge t s -> slot_settled s -> ~ lacking t -> slot_init s = MIR_SLOT_DANGLING ->
  slot_init t = MIR_SLOT_DANGLING.
Proof.
  intros Heq%slot_equiv_init _ Hl Hs. destruct (decide (slot_init t = MIR_SLOT_UNREACHED)) as [Ht|Ht].
  - rewrite slot_merge_unreached_l in Heq by done. congruence.
  - rewrite slot_merge_init in Heq by congruence. rewrite Hs in Heq. unfold lacking in Hl.
    destruct (slot_init t); try done; exfalso; auto.
Qed.

(** A return marks the parameters its value names. *)
Lemma returned_marked `{TV : TypeView} funcs ir liveness rt ws flow ret arg rest p param :
  args ret = arg :: rest -> borrows_memory rt = true -> ~ goes_round funcs ir (mir_operand_as_value arg) ->
  params ir !! p = Some param -> p < 32 ->
  (forall n into slot, collect_sources funcs ir n (flow_state flow) (mir_operand_as_value arg) into = Some slot ->
     param ∈ slot_borrows slot) ->
  N.testbit (returned_params (flow_return funcs ir liveness rt ws flow ret)) (N.of_nat p) = true.
Proof.
  intros Ha Hb Hnot Hp Hlt Hq. unfold flow_return. rewrite Ha, Hb. cbn [negb].
  destruct (collect _ _ _ _ _) as [flow1 reached] eqn:Hc.
  assert (Hin : param ∈ slot_borrows reached).
  { unfold collect in Hc. destruct (collect_sources _ _ _ _ _ _) as [slot|] eqn:Hs.
    - injection Hc as <- <-. by eapply Hq.
    - by apply collect_sources_lost in Hs. }
  set (flow2 := with_returned flow1 _).
  assert (Hbit : N.testbit (returned_params flow2) (N.of_nat p) = true) by (by apply (foldl_mark_params_marks ir ws p param)).
  destruct (_ && _); [by apply extends_report|by apply report_outlives_spec].
Qed.

(** ** Properties *)



(** ** Witnesses *)

(** A set of points that the instructions and edges close over holds every
    point a slot may lack a value at. *)
Definition lacks_closed (ir : MIRFunction) (v : MIRValueId) (S_ : nat -> nat -> bool) : bool :=
  forallb (fun '(i, b) =>
    forallb (fun '(k, inst) => implb (empties v inst || (S_ i k && negb (gives v inst))) (S_ i (S k)))
      (imap pair (insts b)) &&
    implb (S_ i (length (insts b))) (forallb (fun t => S_ (N.to_nat t) 0) (mir_block_successors b)))
  (imap pair (blocks ir)).

Lemma lacks_within ir v S_ i k : lacks_closed ir v S_ = true -> lacks_at ir v i k -> S_ i k = true.
Proof.
  unfold lacks_closed. rewrite forallb_forall. intros Hc.
  assert (Hb : forall i b, blocks ir !! i = Some b ->
    (forall k inst, insts b !! k = Some inst ->
       implb (empties v inst || (S_ i k && negb (gives v inst))) (S_ i (S k)) = true) /\
    implb (S_ i (length (insts b))) (forallb (fun t => S_ (N.to_nat t) 0) (mir_block_successors b)) = true).
  { intros j b Hj. assert (Hin : (j, b) ∈ imap pair (blocks ir)).
    { apply list_elem_of_lookup. exists j. by rewrite list_lookup_imap, Hj. }
    apply list_elem_of_In, Hc, andb_true_iff in Hin as [Hi He]. split; [|done]. rewrite forallb_forall in Hi.
    intros m inst Hm. apply (Hi (m, inst)), list_elem_of_In, list_elem_of_lookup. exists m. by rewrite list_lookup_imap, Hm. }
  induction 1 as [i k inst _ (b & Hbi & Hinst) He|i k inst _ IH (b & Hbi & Hinst) Hg|i k s _ IH (b & t & Hbi & -> & Ht & -> & _)].
  - apply (Hb i b Hbi) in Hinst. by rewrite He in Hinst.
  - apply (Hb i b Hbi) in Hinst. by rewrite IH, Hg, orb_true_r in Hinst.
  - destruct (Hb i b Hbi) as [_ H]. rewrite IH in H. cbn [implb] in H. rewrite forallb_forall in H.
    by apply H, list_elem_of_In.
Qed.

Definition sample_answers (ir : MIRFunction) (function : option Function) (rep : bool) : bool :=
  match sample_check ir function rep with Some _ => true | None => false end.

Lemma sample_answer ir function rep :
  sample_answers ir function rep = true ->
  exists d f, mir_borrowck (TV := sample_view) ∅ (fun _ => 0%N) 20 ir (diagnostics_init None) function rep = Some (d, f).
Proof. unfold sample_answers, sample_check. destruct (mir_borrowck _ _ _ _ _ _ _) as [[d f]|]; [by exists d, f|done]. Qed.

Ltac at_point_of_sample := eexists; split; reflexivity.

(** A borrow of an owner is stored in block 0, the owner is dropped in block 1,
    on one branch only, and the borrow is read in block 2:

<<
    let u = ...; let r = &u; if c { drop u; } ... r ...
>> *)
Definition sample_freed_elsewhere : MIRFunction := {|
  mir_function := Some 0;
  blocks :=
    [ MkBlock 0
        [ inst_at MIR_STORAGE_LIVE sample_unique MIR_NO_VALUE [] (on_place 0 [] READ_COPY);
          inst_at MIR_STORAGE_LIVE sample_ref MIR_NO_VALUE [] (on_place 1 [] READ_COPY);
          inst_at MIR_CALL sample_unique 2 [] (payload_callee None);
          inst_at MIR_STORE sample_unique MIR_NO_VALUE [OPERAND_VALUE 2] (on_place 0 [] READ_COPY);
          inst_at MIR_REF sample_ref 3 [] (on_place 0 [] READ_COPY);
          inst_at MIR_STORE sample_ref MIR_NO_VALUE [OPERAND_VALUE 3] (on_place 1 [] READ_COPY);
          inst_at MIR_BRANCH None MIR_NO_VALUE [OPERAND_VALUE 4] (payload_targets 1 2) ];
      MkBlock 1
        [ inst_at MIR_DROP sample_unique MIR_NO_VALUE [] (on_place 0 [] READ_COPY);
          inst_at MIR_JMP None MIR_NO_VALUE [] (payload_targets 2 0) ];
      MkBlock 2
        [ inst_at MIR_LOAD sample_ref 5 [] (on_place 1 [] READ_COPY);
          inst_at MIR_RETURN None MIR_NO_VALUE [] (payload_constant zero_constant) ] ];
  entry := 0;
  values := [local sample_unique; local sample_ref; local sample_unique; local sample_ref; local sample_bool; local sample_ref];
  params := [];
|}.

(** Its owner lacks a value until it is stored to, its borrower likewise. *)
Definition before_store (n : nat) (i k : nat) : bool := bool_decide (i = 0 /\ 0 < k <= n).

Lemma sample_given v n i k :
  lacks_closed sample_freed_elsewhere v (before_store n) = true -> before_store n i k = false ->
  ~ lacks_at sample_freed_elsewhere v i k.
Proof. intros Hc Hb Hl. by rewrite (lacks_within _ _ _ _ _ Hc Hl) in Hb. Qed.


(** A parameter's borrow is put in a field, crosses an edge in the local, and
    is returned with it:

<<
    func wrap(r: &i32): Pair { let p: Pair; p.a = r; while .. return p; }
>> *)
Definition sample_wrap : MIRFunction := {|
  mir_function := Some 0;
  blocks :=
    [ MkBlock 0
        [ inst_at MIR_STORAGE_LIVE sample_pair MIR_NO_VALUE [] (on_place 2 [] READ_COPY);
          inst_at MIR_LOAD sample_ref 1 [] (on_place 0 [] READ_COPY);
          inst_at MIR_STORE sample_ref MIR_NO_VALUE [OPERAND_VALUE 1] (on_place 2 [PROJ_FIELD 0] READ_COPY);
          inst_at MIR_JMP None MIR_NO_VALUE [] (payload_targets 1 0) ];
      MkBlock 1
        [ inst_at MIR_LOAD sample_pair 3 [] (on_place 2 [] READ_COPY);
          inst_at MIR_RETURN None MIR_NO_VALUE [OPERAND_VALUE 3] (payload_constant zero_constant) ] ];
  entry := 0;
  values := [local sample_ref; local sample_ref; local sample_pair; local sample_pair];
  params := [0%N];
|}.

