(* ===== verification/Drop.v ===== *)
(** * Drop: which releases run, and when

    [src/src/mir/mir_drop.c]: lowering drops every owning local where its scope
    ends; this pass empties the places that were moved out of, releases what an
    overwritten local held, removes the drops of places that hold nothing on
    any path, and guards by a run-time flag those that hold something on some.

    An array of [value_count + 1] entries is a list.  The loops that insert or
    remove instructions while they walk a block are functions of the block's
    list: an index that skips what was just inserted is the recursion on the
    rest of the list. *)

From S2P Require Import Prelude Types Mir.

(** [block_insert] and [block_remove] on the instructions of a block. *)
Definition block_insert (l : list MIRInst) (at_ : nat) (inst : MIRInst) : list MIRInst :=
  take at_ l ++ inst :: drop at_ l.
Definition block_remove (l : list MIRInst) (at_ : nat) : list MIRInst := delete at_ l.

Definition set_block_insts (ir : MIRFunction) (b : nat) (l : list MIRInst) : MIRFunction :=
  set_blocks ir (alter (fun block => set_insts block l) b (blocks ir)).

(** The base of an instruction on a whole local: what the passes look up. *)
Definition base_in_range (vc : nat) (inst : MIRInst) : bool :=
  negb (mir_value_is_none (base (inst_place inst))) && (base (inst_place inst) <? N.of_nat vc)%N.
Definition base_index (inst : MIRInst) : nat := N.to_nat (base (inst_place inst)).
Definition whole_place (inst : MIRInst) : bool := bool_decide (length (projections (inst_place inst)) = 0).

(** An instruction the pass builds; the members left out are zero. *)
Definition drop_pass_inst (o : MIROp) (type : TypePtr) (result : MIRValueId) (args : list MIROperand)
    (place : Place) (flag : MIRValueId) (span : Span) : MIRInst :=
  MkInst o type result args (payload_place place READ_COPY flag) None span.

(** ** Overwrites *)

Section release.
Context `{TV : TypeView}.

(** The function under rewriting and what is known to be stored. *)
Record Overwriting := MkOverwriting { over_values : list MIRValueInfo; over_stored : list bool }.

(** One instruction, with what replaces it. *)
Definition release_inst (s : Overwriting) (inst : MIRInst) : Overwriting * list MIRInst :=
  let vc := length (over_values s) in
  if bool_decide (op inst = MIR_NULL) && base_in_range vc inst then
    (MkOverwriting (over_values s) (<[base_index inst := false]> (over_stored s)), [inst])
  else if negb (bool_decide (op inst = MIR_STORE)) || negb (whole_place inst) || negb (base_in_range vc inst) then
    (s, [inst])
  else if negb (mir_type_needs_drop (inst_type inst)) || bool_decide (tv_kind (inst_type inst) = Some TYPE_REF) then
    (s, [inst])
  else if negb (default false (over_stored s !! base_index inst)) then
    (MkOverwriting (over_values s) (<[base_index inst := true]> (over_stored s)), [inst])
  else
    let held := N.of_nat vc in
    (MkOverwriting (over_values s ++ [MkValueInfo (inst_type inst) None (inst_span inst)]) (over_stored s),
     [drop_pass_inst MIR_LOAD (inst_type inst) held [] (inst_place inst) 0 (inst_span inst);
      inst;
      drop_pass_inst MIR_DROP (inst_type inst) MIR_NO_VALUE [] (mir_place_of held None) 0 (inst_span inst)]).

Fixpoint release_insts (s : Overwriting) (l : list MIRInst) : Overwriting * list MIRInst :=
  match l with
  | [] => (s, [])
  | inst :: l =>
      let '(s, out) := release_inst s inst in
      let '(s, rest) := release_insts s l in
      (s, out ++ rest)
  end.

Fixpoint release_blocks (s : Overwriting) (bs : list MIRBlock) : Overwriting * list MIRBlock :=
  match bs with
  | [] => (s, [])
  | b :: bs =>
      let '(s, l) := release_insts s (insts b) in
      let '(s, rest) := release_blocks s bs in
      (s, set_insts b l :: rest)
  end.

Definition release_before_overwrite (ir : MIRFunction) : MIRFunction :=
  let '(s, bs) := release_blocks (MkOverwriting (values ir) (replicate (value_count ir + 1) false)) (blocks ir) in
  set_values (set_blocks ir bs) (over_values s).

(** ** Moves empty their place *)

Definition empty_after_move (inst : MIRInst) : list MIRInst :=
  if bool_decide (op inst = MIR_LOAD) && bool_decide (inst_read inst = READ_MOVE) &&
     mir_type_needs_drop (inst_type inst)
  then [inst; drop_pass_inst MIR_NULL (inst_type inst) MIR_NO_VALUE [] (inst_place inst) 0 (inst_span inst)]
  else [inst].

Definition map_insts (f : list MIRInst -> list MIRInst) (ir : MIRFunction) : MIRFunction :=
  set_blocks ir ((fun b => set_insts b (f (insts b))) <$> blocks ir).

Definition empty_moved (ir : MIRFunction) : MIRFunction := map_insts (flat_map empty_after_move) ir.
End release.

(** ** What every local holds *)

Inductive Holding := HOLDS_ITS_OBJECT | HOLDS_NOTHING | HOLDS_EITHER.

#[export] Instance Holding_eq_dec : EqDecision Holding.
Proof. solve_decision. Defined.

Definition holding_merge (a b : Holding) : Holding := if bool_decide (a = b) then a else HOLDS_EITHER.

(** The instruction is one [walk_block] looks at. *)
Definition walked (vc : nat) (inst : MIRInst) : bool :=
  mir_op_has_place (op inst) && base_in_range vc inst && whole_place inst.

(** [walk_block] without the visit: the states after an instruction. *)
Definition walk_inst (vc : nat) (holds : list Holding) (inst : MIRInst) : list Holding :=
  if negb (walked vc inst) then holds
  else
    match op inst with
    | MIR_NULL => <[base_index inst := HOLDS_NOTHING]> holds
    | MIR_STORE | MIR_STORAGE_INIT => <[base_index inst := HOLDS_ITS_OBJECT]> holds
    | _ => holds
    end.

Definition walk_block (vc : nat) (holds : list Holding) (l : list MIRInst) : list Holding :=
  foldl (walk_inst vc) holds l.

(** The drops [visit] is called at, with the index and what the base holds. *)
Fixpoint walk_visits (vc at_ : nat) (holds : list Holding) (l : list MIRInst) : list (nat * Holding) :=
  match l with
  | [] => []
  | inst :: l =>
      let visits := walk_visits vc (S at_) (walk_inst vc holds inst) l in
      if walked vc inst && bool_decide (op inst = MIR_DROP)
      then (at_, default HOLDS_ITS_OBJECT (holds !! base_index inst)) :: visits else visits
  end.

(** [next] and [reached]. *)
Record Joining := MkJoining { next : list (list Holding); reached : list bool }.

(** The exit of a block joined into one successor. *)
Definition join_target (exit : list Holding) (j : Joining) (successor : MIRBlockId) : Joining :=
  let target := N.to_nat successor in
  if negb (default false (reached j !! target)) then
    MkJoining (<[target := exit]> (next j)) (<[target := true]> (reached j))
  else
    MkJoining (alter (fun row => zip_with holding_merge row exit) target (next j)) (reached j).

Definition join_block (vc : nat) (entries : list (list Holding)) (j : Joining) (bb : nat * MIRBlock) : Joining :=
  let exit := walk_block vc (default [] (entries !! bb.1)) (insts bb.2) in
  foldl (join_target exit) j (mir_block_successors bb.2).

Definition zero_holdings (ir : MIRFunction) : list (list Holding) :=
  replicate (block_count ir) (replicate (value_count ir + 1) HOLDS_ITS_OBJECT).

Definition holdings_next (ir : MIRFunction) (entries : list (list Holding)) : list (list Holding) :=
  let start := MkJoining (zero_holdings ir) (<[N.to_nat (entry ir) := true]> (replicate (block_count ir) false)) in
  next (foldl (join_block (value_count ir) entries) start (imap pair (blocks ir))).

Definition holdings_turn (ir : MIRFunction) (entries : list (list Holding)) : bool * list (list Holding) :=
  let next := holdings_next ir entries in
  if negb (bool_decide (entries = next)) then (true, next) else (false, entries).

(** Every turn but the last raises one of the states, at most twice each. *)
Definition holdings_fuel (ir : MIRFunction) : nat := S (block_count ir * ((value_count ir + 1) * 2)).

Definition entry_holdings (ir : MIRFunction) : option (list (list Holding)) :=
  while_changed (holdings_fuel ir) (holdings_turn ir) (zero_holdings ir).

(** ** Drops of places that hold nothing *)

(** The indices [note_empty_drop] collects in one block. *)
Definition empty_drops (visits : list (nat * Holding)) : list nat :=
  omap (fun '(at_, held) => if bool_decide (held = HOLDS_NOTHING) then Some at_ else None) visits.

(** The indices are removed from the last to the first. *)
Definition remove_all (l : list MIRInst) (indices : list nat) : list MIRInst :=
  foldl block_remove l (reverse indices).

Definition remove_empty_drops (vc : nat) (entries : list (list Holding)) (i : nat) (b : MIRBlock) : MIRBlock :=
  set_insts b (remove_all (insts b) (empty_drops (walk_visits vc 0 (default [] (entries !! i)) (insts b)))).

Definition drop_releases_of_emptied_places (ir : MIRFunction) : option MIRFunction :=
  if bool_decide (block_count ir = 0) then Some ir
  else
    entries ← entry_holdings ir;
    Some (set_blocks ir (imap (remove_empty_drops (value_count ir) entries) (blocks ir))).

(** ** Drops that depend on the path *)

Section guard.
Context `{TV : TypeView}.

Definition bool_type : TypePtr := tv_primitive TYPE_BOOL.

Definition set_flag (inst : MIRInst) (flag : MIRValueId) : MIRInst :=
  MkInst (op inst) (inst_type inst) (result inst) (args inst)
    (match payload inst with payload_place p r _ => payload_place p r flag | p => p end) (ending inst) (inst_span inst).

(** The values, the block and the flags so far. *)
Record Flagged := MkFlagged { flagged_values : list MIRValueInfo; flagged_insts : list MIRInst; flags : list MIRValueId }.

Definition note_conditional_drop (s : Flagged) (visit : nat * Holding) : Flagged :=
  let '(at_, held) := visit in
  if negb (bool_decide (held = HOLDS_EITHER)) then s
  else
    match flagged_insts s !! at_ with
    | None => s
    | Some inst =>
        let b := base_index inst in
        let '(values, fs) :=
          if mir_value_is_none (default MIR_NO_VALUE (flags s !! b)) then
            (flagged_values s ++ [MkValueInfo bool_type None (inst_span inst)],
             <[b := N.of_nat (length (flagged_values s))]> (flags s))
          else (flagged_values s, flags s) in
        MkFlagged values (<[at_ := set_flag inst (default MIR_NO_VALUE (fs !! b))]> (flagged_insts s)) fs
    end.

(** The loop over the blocks that sets the flags. *)
Fixpoint note_blocks (vc : nat) (entries : list (list Holding)) (i : nat) (values : list MIRValueInfo)
    (fs : list MIRValueId) (bs : list MIRBlock) : list MIRValueInfo * list MIRValueId * list MIRBlock :=
  match bs with
  | [] => (values, fs, [])
  | b :: bs =>
      let s := foldl note_conditional_drop (MkFlagged values (insts b) fs)
                 (walk_visits vc 0 (default [] (entries !! i)) (insts b)) in
      let '(values, fs, rest) := note_blocks vc entries (S i) (flagged_values s) (flags s) bs in
      (values, fs, set_insts b (flagged_insts s) :: rest)
  end.

(** What [write_drop_flags] leaves of one instruction. *)
Definition flag_after (vc : nat) (fs : list MIRValueId) (inst : MIRInst) : list MIRInst :=
  if negb (walked vc inst) then [inst]
  else
    let flag := default MIR_NO_VALUE (fs !! base_index inst) in
    if mir_value_is_none flag then [inst]
    else
      let holds := bool_decide (op inst = MIR_STORE) || bool_decide (op inst = MIR_STORAGE_INIT) in
      if negb holds && negb (bool_decide (op inst = MIR_NULL)) then [inst]
      else
        [inst; drop_pass_inst MIR_DROP_FLAG bool_type MIR_NO_VALUE
                 [mir_operand_const (constant_bool bool_type holds)] (inst_place inst) flag (inst_span inst)].

Definition write_drop_flags (fs : list MIRValueId) (ir : MIRFunction) : MIRFunction :=
  map_insts (flat_map (flag_after (value_count ir) fs)) ir.

(** A flagged local needs no null to be told empty. *)
Definition keeps_null (vc : nat) (fs : list MIRValueId) (inst : MIRInst) : bool :=
  negb (bool_decide (op inst = MIR_NULL) && base_in_range vc inst && whole_place inst &&
        negb (mir_value_is_none (default MIR_NO_VALUE (fs !! base_index inst)))).

Definition remove_flagged_nulls (fs : list MIRValueId) (ir : MIRFunction) : MIRFunction :=
  map_insts (filter (fun inst => keeps_null (value_count ir) fs inst = true)) ir.

Definition guard_conditional_drops (ir : MIRFunction) : option MIRFunction :=
  if bool_decide (block_count ir = 0) then Some ir
  else
    entries ← entry_holdings ir;
    let no_flags := replicate (value_count ir + 1) MIR_NO_VALUE in
    let '(values, fs, bs) := note_blocks (value_count ir) entries 0 (values ir) no_flags (blocks ir) in
    let ir := set_values (set_blocks ir bs) values in
    Some (remove_flagged_nulls fs (write_drop_flags fs ir)).

(** ** Endings *)

(** [owned_for type] is [function_registry_owned_for(functions, type, destroy)]. *)
Definition set_ending (owned_for : TypePtr -> FuncPtr) (inst : MIRInst) : MIRInst :=
  if negb (bool_decide (op inst = MIR_DROP)) then inst
  else MkInst (op inst) (inst_type inst) (result inst) (args inst) (payload inst)
         (owned_for (inst_type inst)) (inst_span inst).

Definition resolve_endings (owned_for : TypePtr -> FuncPtr) (ir : MIRFunction) : MIRFunction :=
  map_insts (fmap (set_ending owned_for)) ir.

(** The passes in front of [resolve_endings]. *)
Definition elaborate_drops (ir : MIRFunction) : option MIRFunction :=
  let ir := release_before_overwrite (empty_moved ir) in
  ir ← drop_releases_of_emptied_places ir;
  guard_conditional_drops ir.

Definition mir_drop_elaborate (owned_for : TypePtr -> FuncPtr) (ir : MIRFunction) : option MIRFunction :=
  ir ← elaborate_drops ir;
  Some (resolve_endings owned_for ir).
End guard.

(** ** The order the iteration climbs *)

Definition holding_rank (h : Holding) : nat :=
  match h with HOLDS_ITS_OBJECT => 0 | HOLDS_EITHER => 1 | HOLDS_NOTHING => 2 end.
Definition holding_le (a b : Holding) : Prop := holding_rank a <= holding_rank b.

Abbreviation row_le := (Forall2 holding_le).
Abbreviation rows_le := (Forall2 (Forall2 holding_le)).

Lemma holding_le_refl a : holding_le a a.
Proof. unfold holding_le. lia. Qed.

Lemma row_le_refl r : row_le r r.
Proof. apply Forall2_same_length_lookup_2; [done|]. intros i x y Hx Hy. simplify_eq. apply holding_le_refl. Qed.

(** The join is the median with [HOLDS_EITHER], so it is monotone. *)
Lemma holding_merge_mono a a' b b' :
  holding_le a a' -> holding_le b b' -> holding_le (holding_merge a b) (holding_merge a' b').
Proof. unfold holding_le. by destruct a, a', b, b'; vm_compute; intros; try lia. Qed.

Lemma row_insert_mono r r' i x y : row_le r r' -> holding_le x y -> row_le (<[i := x]> r) (<[i := y]> r').
Proof. intros. by apply Forall2_insert. Qed.

Lemma walk_inst_mono vc r r' inst : row_le r r' -> row_le (walk_inst vc r inst) (walk_inst vc r' inst).
Proof.
  intros Hr. unfold walk_inst. destruct (negb _); [done|].
  destruct (op inst); try done; apply row_insert_mono; done || apply holding_le_refl.
Qed.

Lemma walk_block_mono vc l : forall r r', row_le r r' -> row_le (walk_block vc r l) (walk_block vc r' l).
Proof. induction l as [|inst l IH]; intros r r' Hr; [done|]. cbn. by apply IH, walk_inst_mono. Qed.

Lemma walk_inst_length vc r inst : length (walk_inst vc r inst) = length r.
Proof. unfold walk_inst. destruct (negb _); [done|]. destruct (op inst); by rewrite ?length_insert. Qed.

Lemma walk_block_length vc l : forall r, length (walk_block vc r l) = length r.
Proof. unfold walk_block. induction l as [|inst l IH]; intros r; [done|]. cbn. by rewrite IH, walk_inst_length. Qed.

Definition joining_le (j j' : Joining) : Prop := reached j = reached j' /\ rows_le (next j) (next j').

Lemma zip_merge_mono r r' e e' :
  row_le r r' -> row_le e e' -> row_le (zip_with holding_merge r e) (zip_with holding_merge r' e').
Proof.
  intros Hr. revert e e'. induction Hr as [|x y r r' Hxy _ IH]; intros e e' He; [constructor|].
  destruct He; [constructor|]. cbn. constructor; [by apply holding_merge_mono|by apply IH].
Qed.

Lemma join_target_mono exit exit' j j' s :
  joining_le j j' -> row_le exit exit' -> joining_le (join_target exit j s) (join_target exit' j' s).
Proof.
  intros [Hr Hn] He. unfold join_target. rewrite Hr. destruct (negb _); split; cbn; try done.
  - by apply Forall2_insert.
  - apply Forall2_alter; [done|]. intros. by apply zip_merge_mono.
Qed.

Lemma join_targets_mono exit exit' l : forall j j',
  joining_le j j' -> row_le exit exit' ->
  joining_le (foldl (join_target exit) j l) (foldl (join_target exit') j' l).
Proof. induction l as [|s l IH]; intros j j' Hj He; [done|]. cbn. by apply IH; [apply join_target_mono|]. Qed.

Lemma row_default_mono (e e' : list (list Holding)) i :
  rows_le e e' -> row_le (default [] (e !! i)) (default [] (e' !! i)).
Proof.
  intros He. destruct (e !! i) as [r|] eqn:Hi.
  - by destruct (Forall2_lookup_l _ _ _ _ _ He Hi) as (r' & -> & Hr).
  - apply lookup_ge_None in Hi. rewrite (Forall2_length _ _ _ He) in Hi.
    rewrite (proj2 (lookup_ge_None e' i) Hi). constructor.
Qed.

Lemma join_blocks_mono vc e e' l : forall j j',
  rows_le e e' -> joining_le j j' -> joining_le (foldl (join_block vc e) j l) (foldl (join_block vc e') j' l).
Proof.
  induction l as [|[i b] l IH]; intros j j' He Hj; [done|]. cbn. apply IH; [done|].
  unfold join_block. cbn. apply join_targets_mono; [done|]. by apply walk_block_mono, row_default_mono.
Qed.

Lemma rows_le_refl e : rows_le e e.
Proof. apply Forall2_same_length_lookup_2; [done|]. intros i x y Hx Hy. simplify_eq. apply row_le_refl. Qed.

Lemma holdings_next_mono ir e e' : rows_le e e' -> rows_le (holdings_next ir e) (holdings_next ir e').
Proof. intros He. apply join_blocks_mono; [done|]. split; [done|apply rows_le_refl]. Qed.

(** Every state is a row of [value_count + 1] for every block. *)
Definition shaped (ir : MIRFunction) (e : list (list Holding)) : Prop :=
  length e = block_count ir /\ Forall (fun r => length r = value_count ir + 1) e.

Lemma join_targets_shaped ir exit l : forall j,
  length exit = value_count ir + 1 -> shaped ir (next j) -> shaped ir (next (foldl (join_target exit) j l)).
Proof.
  induction l as [|s l IH]; intros j He Hj; [done|]. cbn. apply IH; [done|]. destruct Hj as [Hlen Hall].
  unfold join_target. destruct (negb _); split; cbn; rewrite ?length_insert, ?length_alter; try done.
  - by apply Forall_insert.
  - apply Forall_alter; [done|]. intros r Hr Hrl. rewrite length_zip_with. cbn in Hrl. lia.
Qed.

Lemma zero_holdings_shaped ir : shaped ir (zero_holdings ir).
Proof.
  unfold zero_holdings. split; [by rewrite length_replicate|]. apply Forall_replicate. by rewrite length_replicate.
Qed.

Lemma shaped_row ir e i r : shaped ir e -> e !! i = Some r -> length r = value_count ir + 1.
Proof. intros [_ Hall] Hi. by apply (Forall_lookup_1 _ _ _ _ Hall Hi). Qed.

Lemma holdings_next_shaped ir e : shaped ir e -> shaped ir (holdings_next ir e).
Proof.
  intros He. unfold holdings_next.
  enough (H : forall l j, (forall x, x ∈ l -> x.1 < block_count ir) -> shaped ir (next j) ->
    shaped ir (next (foldl (join_block (value_count ir) e) j l))).
  { apply H; [|apply zero_holdings_shaped]. intros x (i & b & -> & Hi)%elem_of_lookup_imap.
    apply lookup_lt_Some in Hi. done. }
  induction l as [|[i b] l IH]; intros j Hl Hj; [done|]. cbn. apply IH; [intros; apply Hl; by right|].
  unfold join_block. cbn. apply join_targets_shaped; [|done]. rewrite walk_block_length.
  destruct (e !! i) as [r|] eqn:Hi; [exact (shaped_row _ _ _ _ He Hi)|].
  apply lookup_ge_None in Hi. destruct He as [He _]. specialize (Hl (i, b) ltac:(left)). cbn in Hl. lia.
Qed.

Lemma zero_holdings_least ir e : shaped ir e -> rows_le (zero_holdings ir) e.
Proof.
  intros [Hlen Hall]. unfold zero_holdings. apply Forall2_same_length_lookup_2; [by rewrite length_replicate|].
  intros i r r' [-> _]%lookup_replicate Hr'. apply (Forall_lookup_1 _ _ _ _ Hall) in Hr'.
  apply Forall2_same_length_lookup_2; [cbn in Hr'; by rewrite length_replicate|].
  intros k x y [-> _]%lookup_replicate _. unfold holding_le. cbn. lia.
Qed.

(** *** The measure of the iteration *)

Definition row_rank (r : list Holding) : nat := sum_list (holding_rank <$> r).
Definition rows_rank (e : list (list Holding)) : nat := sum_list (row_rank <$> e).

Lemma row_rank_mono r r' : row_le r r' -> row_rank r <= row_rank r' /\ (row_rank r = row_rank r' -> r = r').
Proof.
  unfold row_rank. induction 1 as [|x y r r' Hxy Hr [IH1 IH2]]; [done|].
  change (holding_rank x + sum_list (holding_rank <$> r) <= holding_rank y + sum_list (holding_rank <$> r') /\
          (holding_rank x + sum_list (holding_rank <$> r) = holding_rank y + sum_list (holding_rank <$> r') ->
           x :: r = y :: r')).
  unfold holding_le in Hxy. split; [lia|]. intros He. rewrite IH2 by lia.
  assert (holding_rank x = holding_rank y) by lia. by destruct x, y.
Qed.

Lemma rows_rank_mono e e' : rows_le e e' -> rows_rank e <= rows_rank e' /\ (rows_rank e = rows_rank e' -> e = e').
Proof.
  unfold rows_rank. induction 1 as [|x y e e' Hxy He [IH1 IH2]]; [done|].
  change (row_rank x + sum_list (row_rank <$> e) <= row_rank y + sum_list (row_rank <$> e') /\
          (row_rank x + sum_list (row_rank <$> e) = row_rank y + sum_list (row_rank <$> e') -> x :: e = y :: e')).
  destruct (row_rank_mono _ _ Hxy) as [H1 H2]. split; [lia|]. intros Heq. rewrite IH2 by lia. by rewrite H2 by lia.
Qed.

Lemma sum_list_le {A} (f : A -> nat) n l : Forall (fun x => f x <= n) l -> sum_list (f <$> l) <= length l * n.
Proof.
  induction 1 as [|x l Hx _ IH]; [done|]. change (f x + sum_list (f <$> l) <= n + length l * n). lia.
Qed.

Lemma rows_rank_bound ir e : shaped ir e -> rows_rank e <= block_count ir * ((value_count ir + 1) * 2).
Proof.
  intros [<- Hall]. apply sum_list_le. eapply Forall_impl; [exact Hall|]. intros r <-.
  apply sum_list_le. apply Forall_forall. intros h _. destruct h; cbn; lia.
Qed.

Lemma entry_holdings_ends ir : is_Some (entry_holdings ir).
Proof.
  unfold entry_holdings.
  apply (while_changed_terminates _ (fun e => shaped ir e /\ rows_le e (holdings_next ir e)) rows_rank
           (block_count ir * ((value_count ir + 1) * 2))).
  - intros e [Hs Hle]. unfold holdings_turn. destruct (negb _); [|done].
    split; [by apply holdings_next_shaped|by apply holdings_next_mono].
  - intros e [Hs _]. by apply rows_rank_bound.
  - intros e [Hs Hle]. unfold holdings_turn. case_bool_decide as He; [done|]. intros _. cbn.
    destruct (rows_rank_mono _ _ Hle) as [H1 H2]. apply Nat.le_neq. split; [done|]. intros H. apply He, H2, H.
  - split; [apply zero_holdings_shaped|]. apply zero_holdings_least, holdings_next_shaped, zero_holdings_shaped.
  - unfold holdings_fuel. lia.
Qed.

Lemma entry_holdings_fixed ir e : entry_holdings ir = Some e -> shaped ir e /\ holdings_next ir e = e.
Proof.
  intros H.
  assert (Hstep : forall x, shaped ir x -> shaped ir (holdings_turn ir x).2).
  { intros x Hx. unfold holdings_turn. case_bool_decide; [done|by apply holdings_next_shaped]. }
  destruct (while_changed_inv _ (shaped ir) _ _ _ Hstep (zero_holdings_shaped ir) H) as (x & Hx & Hturn).
  unfold holdings_turn in Hturn. case_bool_decide as He; [|done]. injection Hturn as [= <-]. by split.
Qed.

(** ** What a local holds along a path *)

(** The instruction gives the whole local an object, or empties it. *)
Definition fills (vc v : nat) (inst : MIRInst) : bool :=
  walked vc inst && bool_decide (base_index inst = v) &&
  (bool_decide (op inst = MIR_STORE) || bool_decide (op inst = MIR_STORAGE_INIT)).
Definition empties (vc v : nat) (inst : MIRInst) : bool :=
  walked vc inst && bool_decide (base_index inst = v) && bool_decide (op inst = MIR_NULL).

(** Whether the local [v] holds its object after an instruction. *)
Definition track (vc v : nat) (held : bool) (inst : MIRInst) : bool :=
  if fills vc v inst then true else if empties vc v inst then false else held.

(** On some path of the control-flow graph, the block is entered with the local
    holding its object ([true]) or nothing.  Every local counts as holding its
    object when the function is entered. *)
#[warnings="-register-all"]
Inductive enters (ir : MIRFunction) (v : nat) : nat -> bool -> Prop :=
  | enters_function : enters ir v (N.to_nat (entry ir)) true
  | enters_edge i b s held :
      enters ir v i held -> blocks ir !! i = Some b -> s ∈ mir_block_successors b -> N.to_nat s < block_count ir ->
      enters ir v (N.to_nat s) (foldl (track (value_count ir) v) held (insts b)).

Definition may_hold (h : Holding) (held : bool) : Prop :=
  match h with HOLDS_ITS_OBJECT => held = true | HOLDS_NOTHING => held = false | HOLDS_EITHER => True end.

(** The row tells the truth of the local [v]. *)
Definition row_may (r : list Holding) (v : nat) (held : bool) : Prop :=
  exists h, r !! v = Some h /\ may_hold h held.

Lemma may_hold_merge_l a b held : may_hold a held -> may_hold (holding_merge a b) held.
Proof. unfold holding_merge. by case_bool_decide. Qed.
Lemma may_hold_merge_r a b held : may_hold b held -> may_hold (holding_merge a b) held.
Proof. unfold holding_merge. case_bool_decide; [by subst|done]. Qed.

Lemma walk_inst_may vc v r held inst :
  row_may r v held -> row_may (walk_inst vc r inst) v (track vc v held inst).
Proof.
  intros (h & Hr & Hh). unfold track, fills, empties, walk_inst.
  destruct (walked vc inst); cbn [negb andb]; [|by exists h].
  destruct (decide (base_index inst = v)) as [<-|Hv].
  - rewrite bool_decide_eq_true_2 by done. cbn [andb]. pose proof (lookup_lt_Some _ _ _ Hr).
    destruct (op inst); try (by exists h); cbn; eexists;
      (split; [by apply list_lookup_insert_eq|done]).
  - rewrite bool_decide_eq_false_2 by done. cbn [andb].
    exists h. destruct (op inst); rewrite ?list_lookup_insert_ne by done; done.
Qed.

Lemma walk_block_may vc v l : forall r held,
  row_may r v held -> row_may (walk_block vc r l) v (foldl (track vc v) held l).
Proof. induction l as [|inst l IH]; intros r held H; [done|]. cbn. by apply IH, walk_inst_may. Qed.

Lemma zip_merge_may_l r e v held :
  length e = length r -> row_may r v held -> row_may (zip_with holding_merge r e) v held.
Proof.
  intros Hlen (h & Hr & Hh). pose proof (lookup_lt_Some _ _ _ Hr).
  destruct (lookup_lt_is_Some_2 e v) as [k Hk]; [lia|].
  exists (holding_merge h k). split; [by apply lookup_zip_with_Some; eauto|by apply may_hold_merge_l].
Qed.

Lemma zip_merge_may_r r e v held :
  length e = length r -> row_may e v held -> row_may (zip_with holding_merge r e) v held.
Proof.
  intros Hlen (h & Hr & Hh). pose proof (lookup_lt_Some _ _ _ Hr).
  destruct (lookup_lt_is_Some_2 r v) as [k Hk]; [lia|].
  exists (holding_merge k h). split; [by apply lookup_zip_with_Some; eauto|by apply may_hold_merge_r].
Qed.

(** The target is joined into, and its row tells the truth. *)
Definition joined (j : Joining) (t v : nat) (held : bool) : Prop :=
  reached j !! t = Some true /\ exists r, next j !! t = Some r /\ row_may r v held.

Section join.
Context (ir : MIRFunction) (exit : list Holding).
Hypothesis (Hexit : length exit = value_count ir + 1).

Lemma join_target_keeps j s t v held :
  shaped ir (next j) -> joined j t v held -> joined (join_target exit j s) t v held.
Proof.
  intros Hj (Hr & r & Hn & Hm). unfold join_target.
  destruct (decide (N.to_nat s = t)) as [<-|Hne].
  - rewrite Hr. cbn. split; [done|]. exists (zip_with holding_merge r exit). cbn.
    rewrite list_lookup_alter_eq, Hn. split; [done|]. apply zip_merge_may_l; [|done].
    apply (shaped_row _ _ _ _ Hj) in Hn. lia.
  - destruct (negb _); cbn; split; cbn.
    + by rewrite list_lookup_insert_ne.
    + exists r. by rewrite list_lookup_insert_ne.
    + done.
    + exists r. by rewrite list_lookup_alter_ne.
Qed.

Lemma join_target_joins j s v held :
  shaped ir (next j) -> length (reached j) = block_count ir -> N.to_nat s < block_count ir ->
  row_may exit v held -> joined (join_target exit j s) (N.to_nat s) v held.
Proof.
  intros [Hlen Hall] Hrl Hs Hm. unfold join_target.
  destruct (reached j !! N.to_nat s) as [[]|] eqn:Hr; cbn [default from_option id negb].
  - split; [done|]. cbn. rewrite list_lookup_alter_eq.
    destruct (lookup_lt_is_Some_2 (next j) (N.to_nat s)) as [r Hn]; [lia|]. rewrite Hn.
    exists (zip_with holding_merge r exit). split; [done|]. apply zip_merge_may_r; [|done].
    apply (Forall_lookup_1 _ _ _ _ Hall) in Hn. cbn in Hn. lia.
  - split; cbn; [apply list_lookup_insert_eq; lia|]. exists exit. split; [apply list_lookup_insert_eq; lia|done].
  - apply lookup_ge_None in Hr. lia.
Qed.

Lemma join_target_reached_length j s : length (reached (join_target exit j s)) = length (reached j).
Proof. unfold join_target. destruct (negb _); cbn; by rewrite ?length_insert. Qed.

Lemma join_targets_reached_length l : forall j, length (reached (foldl (join_target exit) j l)) = length (reached j).
Proof. induction l as [|s l IH]; intros j; [done|]. cbn. by rewrite IH, join_target_reached_length. Qed.

Lemma join_targets_keep l : forall j t v held,
  shaped ir (next j) -> joined j t v held -> joined (foldl (join_target exit) j l) t v held.
Proof.
  induction l as [|s l IH]; intros j t v held Hj H; [done|]. cbn.
  apply IH; [by apply (join_targets_shaped ir exit [s])|by apply join_target_keeps].
Qed.

Lemma join_targets_join l : forall j s v held,
  shaped ir (next j) -> length (reached j) = block_count ir -> s ∈ l -> N.to_nat s < block_count ir ->
  row_may exit v held -> joined (foldl (join_target exit) j l) (N.to_nat s) v held.
Proof.
  induction l as [|s' l IH]; intros j s v held Hj Hlen Hs Hlt Hm; [by apply elem_of_nil in Hs|]. cbn.
  pose proof (join_targets_shaped ir exit [s'] j Hexit Hj) as Hj'. cbn in Hj'.
  apply elem_of_cons in Hs as [->|Hs].
  - apply join_targets_keep; [done|]. by apply join_target_joins.
  - apply IH; [done| |done..]. by rewrite join_target_reached_length.
Qed.
End join.

Section fixed.
Context (ir : MIRFunction) (e : list (list Holding)).
Hypothesis (He : shaped ir e).

#[local] Abbreviation vc := (value_count ir).

Lemma exit_length i b : i < block_count ir -> length (walk_block vc (default [] (e !! i)) (insts b)) = vc + 1.
Proof.
  intros Hi. rewrite walk_block_length. destruct (e !! i) as [r|] eqn:Hr; [exact (shaped_row _ _ _ _ He Hr)|].
  apply lookup_ge_None in Hr. destruct He as [Hlen _]. lia.
Qed.

Lemma join_blocks_ok l : forall j,
  (forall x, x ∈ l -> x.1 < block_count ir) -> shaped ir (next j) -> length (reached j) = block_count ir ->
  let j' := foldl (join_block vc e) j l in
  shaped ir (next j') /\ length (reached j') = block_count ir /\
  (forall t v held, joined j t v held -> joined j' t v held) /\
  (forall i b s v held, (i, b) ∈ l -> s ∈ mir_block_successors b -> N.to_nat s < block_count ir ->
     row_may (walk_block vc (default [] (e !! i)) (insts b)) v held -> joined j' (N.to_nat s) v held).
Proof.
  induction l as [|[i b] l IH]; intros j Hl Hj Hr; cbn zeta.
  { split; [done|]. split; [done|]. split; [done|]. intros ? ? ? ? ? []%elem_of_nil. }
  cbn [foldl]. assert (Hi : i < block_count ir) by apply (Hl (i, b) ltac:(left)).
  pose proof (exit_length i b Hi) as Hex.
  set (j1 := join_block vc e j (i, b)).
  assert (Hj1 : shaped ir (next j1)) by (unfold j1, join_block; by apply join_targets_shaped).
  assert (Hr1 : length (reached j1) = block_count ir)
    by (unfold j1, join_block; by rewrite join_targets_reached_length).
  destruct (IH j1) as (Hs & Hlen & Hkeep & Hjoin); [intros; apply Hl; by right|done|done|].
  split; [done|]. split; [done|]. split.
  - intros t v held H. apply Hkeep. unfold j1, join_block. by apply (join_targets_keep ir).
  - intros i' b' s v held [Hib|Hib]%elem_of_cons Hsucc Hlt Hm; [|by eapply Hjoin].
    injection Hib as [= -> ->]. apply Hkeep. unfold j1, join_block. by apply (join_targets_join ir).
Qed.

Hypothesis (Hfix : holdings_next ir e = e).

Lemma holdings_entry v :
  v < vc + 1 -> N.to_nat (entry ir) < block_count ir -> exists r, e !! N.to_nat (entry ir) = Some r /\ row_may r v true.
Proof.
  intros Hv Hent.
  set (j0 := MkJoining (zero_holdings ir) (<[N.to_nat (entry ir) := true]> (replicate (block_count ir) false))).
  destruct (join_blocks_ok (imap pair (blocks ir)) j0) as (_ & _ & Hkeep & _).
  - intros x (i & b & -> & Hi)%elem_of_lookup_imap. by apply lookup_lt_Some in Hi.
  - apply zero_holdings_shaped.
  - cbn. by rewrite length_insert, length_replicate.
  - destruct (Hkeep (N.to_nat (entry ir)) v true) as [_ Hr].
    + split; cbn; [apply list_lookup_insert_eq; by rewrite length_replicate|].
      exists (replicate (vc + 1) HOLDS_ITS_OBJECT). split; [by apply lookup_replicate_2|].
      exists HOLDS_ITS_OBJECT. split; [by apply lookup_replicate_2|done].
    + unfold j0 in Hr. change (next (foldl _ _ _)) with (holdings_next ir e) in Hr. by rewrite Hfix in Hr.
Qed.

Lemma holdings_edge i b s v held r :
  e !! i = Some r -> row_may r v held -> blocks ir !! i = Some b -> s ∈ mir_block_successors b ->
  N.to_nat s < block_count ir ->
  exists r', e !! N.to_nat s = Some r' /\ row_may r' v (foldl (track vc v) held (insts b)).
Proof.
  intros Hr Hm Hb Hs Hlt.
  set (j0 := MkJoining (zero_holdings ir) (<[N.to_nat (entry ir) := true]> (replicate (block_count ir) false))).
  destruct (join_blocks_ok (imap pair (blocks ir)) j0) as (_ & _ & _ & Hjoin).
  - intros x (k & b' & -> & Hi)%elem_of_lookup_imap. by apply lookup_lt_Some in Hi.
  - apply zero_holdings_shaped.
  - cbn. by rewrite length_insert, length_replicate.
  - destruct (Hjoin i b s v (foldl (track vc v) held (insts b))) as [_ Hr']; try done.
    + apply elem_of_lookup_imap. eauto.
    + rewrite Hr. by apply walk_block_may.
    + unfold j0 in Hr'. change (next (foldl _ _ _)) with (holdings_next ir e) in Hr'. by rewrite Hfix in Hr'.
Qed.

Lemma enters_sound v i held :
  v < vc + 1 -> N.to_nat (entry ir) < block_count ir -> enters ir v i held ->
  exists r, e !! i = Some r /\ row_may r v held.
Proof.
  intros Hv Hent. induction 1 as [|i b s held Hi IH Hb Hs Hlt]; [by apply holdings_entry|].
  destruct IH as (r & Hr & Hm). by eapply holdings_edge.
Qed.
End fixed.

(** ** Removing drops is filtering *)

(** The instructions [drop_releases_of_emptied_places] leaves. *)
Fixpoint without_empty_drops (vc : nat) (holds : list Holding) (l : list MIRInst) : list MIRInst :=
  match l with
  | [] => []
  | inst :: l =>
      let rest := without_empty_drops vc (walk_inst vc holds inst) l in
      if walked vc inst && bool_decide (op inst = MIR_DROP) &&
         bool_decide (default HOLDS_ITS_OBJECT (holds !! base_index inst) = HOLDS_NOTHING)
      then rest else inst :: rest
  end.

Lemma remove_empty_drops_filters vc l : forall holds pre,
  foldl block_remove (pre ++ l) (reverse (empty_drops (walk_visits vc (length pre) holds l))) =
  pre ++ without_empty_drops vc holds l.
Proof.
  induction l as [|inst l IH]; intros holds pre; [done|].
  cbn [walk_visits without_empty_drops]. specialize (IH (walk_inst vc holds inst) (pre ++ [inst])).
  rewrite length_app in IH. cbn [length] in IH. rewrite Nat.add_1_r, <- app_assoc in IH. cbn [app] in IH.
  destruct (walked vc inst && bool_decide (op inst = MIR_DROP)); cbn [andb].
  - unfold empty_drops. cbn [omap list_omap]. fold (empty_drops (walk_visits vc (S (length pre)) (walk_inst vc holds inst) l)).
    case_bool_decide.
    + rewrite reverse_cons, foldl_app, IH. cbn [foldl]. unfold block_remove. rewrite <- app_assoc.
      by apply delete_middle.
    + rewrite IH, <- app_assoc. done.
  - rewrite IH, <- app_assoc. done.
Qed.

(** ** Functions the witnesses run on *)

(** [let x: Unique<i32> = make(); if c { take(x); } x = make(); return;] with
    [c] a parameter. *)
Definition sample_overwrite : MIRFunction := {|
  mir_function := Some 0;
  blocks :=
    [ MkBlock 0
        [ inst_at MIR_STORAGE_LIVE sample_unique MIR_NO_VALUE [] (on_place 1 [] READ_COPY);
          inst_at MIR_CALL sample_unique 2 [] (payload_callee None);
          inst_at MIR_STORE sample_unique MIR_NO_VALUE [OPERAND_VALUE 2] (on_place 1 [] READ_COPY);
          inst_at MIR_BRANCH None MIR_NO_VALUE [OPERAND_VALUE 0] (payload_targets 1 2) ];
      MkBlock 1
        [ inst_at MIR_LOAD sample_unique 3 [] (on_place 1 [] READ_MOVE);
          inst_at MIR_CALL None MIR_NO_VALUE [OPERAND_VALUE 3] (payload_callee None);
          inst_at MIR_JMP None MIR_NO_VALUE [] (payload_targets 2 0) ];
      MkBlock 2
        [ inst_at MIR_CALL sample_unique 4 [] (payload_callee None);
          inst_at MIR_STORE sample_unique MIR_NO_VALUE [OPERAND_VALUE 4] (on_place 1 [] READ_COPY);
          inst_at MIR_DROP sample_unique MIR_NO_VALUE [] (on_place 1 [] READ_COPY);
          inst_at MIR_STORAGE_DEAD sample_unique MIR_NO_VALUE [] (on_place 1 [] READ_COPY);
          inst_at MIR_RETURN None MIR_NO_VALUE [] (payload_constant zero_constant) ] ];
  entry := 0;
  values := [local sample_bool; local sample_unique; local sample_unique; local sample_unique; local sample_unique];
  params := [0%N];
|}.

(** [func f(c: bool, p: Unique<i32>) { if c { take(p); } return; }] *)
Definition sample_param : MIRFunction := {|
  mir_function := Some 0;
  blocks :=
    [ MkBlock 0 [ inst_at MIR_BRANCH None MIR_NO_VALUE [OPERAND_VALUE 0] (payload_targets 1 2) ];
      MkBlock 1
        [ inst_at MIR_LOAD sample_unique 2 [] (on_place 1 [] READ_MOVE);
          inst_at MIR_CALL None MIR_NO_VALUE [OPERAND_VALUE 2] (payload_callee None);
          inst_at MIR_JMP None MIR_NO_VALUE [] (payload_targets 2 0) ];
      MkBlock 2
        [ inst_at MIR_DROP sample_unique MIR_NO_VALUE [] (on_place 1 [] READ_COPY);
          inst_at MIR_STORAGE_DEAD sample_unique MIR_NO_VALUE [] (on_place 1 [] READ_COPY);
          inst_at MIR_RETURN None MIR_NO_VALUE [] (payload_constant zero_constant) ] ];
  entry := 0;
  values := [local sample_bool; local sample_unique; local sample_unique];
  params := [0%N; 1%N];
|}.

Definition sample_elaborate (ir : MIRFunction) : option MIRFunction :=
  mir_drop_elaborate (TV := sample_view) (fun _ => None) ir.

(** The operation, the base of the place and the flag of every instruction. *)
Definition sample_outline (ir : MIRFunction) : list (list (MIROp * MIRValueId * MIRValueId)) :=
  (fun b => (fun inst => (op inst, base (inst_place inst), inst_flag inst)) <$> insts b) <$> blocks ir.

(** ** Flags follow what is held *)

(** The flag of the local [v] after an instruction: [MIR_DROP_FLAG] stores the
    constant it carries. *)
Definition flag_step (v : nat) (f : bool) (inst : MIRInst) : bool :=
  if bool_decide (op inst = MIR_DROP_FLAG) && bool_decide (base_index inst = v) then
    match args inst with OPERAND_CONST c :: _ => const_bool c | _ => f end
  else f.

Lemma flag_after_tracks `{TV : TypeView} vc fs v flag inst held f :
  fs !! v = Some flag -> mir_value_is_none flag = false -> op inst <> MIR_DROP_FLAG ->
  foldl (flag_step v) f (flag_after vc fs inst) =
  if fills vc v inst || empties vc v inst then track vc v held inst else f.
Proof.
  intros Hv Hflag Hop.
  assert (Hself : flag_step v f inst = f) by (unfold flag_step; by rewrite (bool_decide_eq_false_2 _ Hop)).
  assert (Hwrite : forall t r h fl sp,
    flag_step v f (drop_pass_inst MIR_DROP_FLAG t r [mir_operand_const (constant_bool t h)] (inst_place inst) fl sp) =
    if bool_decide (base_index inst = v) then h else f) by done.
  unfold flag_after, track, fills, empties. destruct (walked vc inst); cbn [negb andb orb]; [|done].
  destruct (decide (base_index inst = v)) as [Hb|Hb].
  - rewrite (bool_decide_eq_true_2 _ Hb), Hb, Hv in *. cbn [default from_option id andb]. rewrite Hflag.
    destruct (op inst) eqn:Ho; decide_closed; cbn [negb andb orb foldl]; by rewrite ?Hself, ?Hwrite.
  - rewrite (bool_decide_eq_false_2 _ Hb) in *. cbn [andb orb].
    destruct (mir_value_is_none (default _ _)); [exact Hself|]. destruct (negb (_ || _) && _); [exact Hself|].
    cbn [foldl]. by rewrite Hself, Hwrite.
Qed.

Lemma flags_track `{TV : TypeView} vc fs v flag l : forall held f,
  fs !! v = Some flag -> mir_value_is_none flag = false -> Forall (fun inst => op inst <> MIR_DROP_FLAG) l ->
  foldl (flag_step v) f (flat_map (flag_after vc fs) l) =
  if existsb (fun inst => fills vc v inst || empties vc v inst) l then foldl (track vc v) held l else f.
Proof.
  induction l as [|inst l IH]; intros held f Hv Hflag Hl; [done|]. apply Forall_cons in Hl as [Hi Hl].
  cbn [flat_map existsb foldl]. rewrite foldl_app, (flag_after_tracks vc fs v flag inst held f) by done.
  destruct (fills vc v inst || empties vc v inst) eqn:Hw; cbn [orb].
  - rewrite (IH (track vc v held inst)) by done. destruct (existsb _ l) eqn:He; [done|].
    clear -He. generalize (track vc v held inst) as h. induction l as [|x l IHl]; intros h; [done|].
    cbn in *. apply orb_false_iff in He as [[Hf Hn]%orb_false_iff He].
    assert (Hx : track vc v h x = h) by (unfold track; by rewrite Hf, Hn). rewrite Hx. by apply IHl.
  - assert (Hx : track vc v held inst = held).
    { apply orb_false_iff in Hw as [Hf Hn]. unfold track. by rewrite Hf, Hn. }
    rewrite Hx. by apply IH.
Qed.

(** ** Properties *)

(** C25: drop elaboration ends on every function: both of its data-flow loops
    reach their fixed point within [holdings_fuel] turns. *)
Theorem mir_drop_elaborate_terminates `{TV : TypeView} owned_for ir :
  is_Some (mir_drop_elaborate owned_for ir).
Proof.
  unfold mir_drop_elaborate, elaborate_drops, drop_releases_of_emptied_places.
  set (ir1 := release_before_overwrite (empty_moved ir)).
  assert (Hguard : forall ir, is_Some (guard_conditional_drops ir)).
  { intros ir'. unfold guard_conditional_drops. case_bool_decide; [by eexists|].
    destruct (entry_holdings_ends ir') as [e ->]. cbn [mbind option_bind].
    destruct (note_blocks _ _ _ _ _ _) as [[values fs] bs]. by eexists. }
  case_bool_decide; cbn [mbind option_bind].
  - destruct (Hguard ir1) as [ir2 ->]. by eexists.
  - destruct (entry_holdings_ends ir1) as [e ->]. cbn [mbind option_bind].
    destruct (Hguard (set_blocks ir1 (imap (remove_empty_drops (value_count ir1) e) (blocks ir1)))) as [ir2 ->].
    by eexists.
Qed.

(** C26: what the analysis says of a local at a point of a block is true on
    every path there: a drop it calls empty has nothing to release, one it
    calls held has the object. *)
Theorem entry_holdings_sound ir e i b pre post v held :
  entry_holdings ir = Some e -> N.to_nat (entry ir) < block_count ir -> v < value_count ir ->
  blocks ir !! i = Some b -> insts b = pre ++ post -> enters ir v i held ->
  exists r h, e !! i = Some r /\ walk_block (value_count ir) r pre !! v = Some h /\
    let held_here := foldl (track (value_count ir) v) held pre in
    (h = HOLDS_NOTHING -> held_here = false) /\ (h = HOLDS_ITS_OBJECT -> held_here = true).
Proof.
  intros [Hs Hfix]%entry_holdings_fixed Hent Hv Hb Hi Hpath.
  destruct (enters_sound ir e Hs Hfix v i held ltac:(lia) Hent Hpath) as (r & Hr & Hm).
  destruct (walk_block_may (value_count ir) v pre r held Hm) as (h & Hh & Hmay).
  exists r, h. split; [done|]. split; [done|]. by split; intros ->.
Qed.

Lemma entry_holdings_sound_witness :
  exists e r h, entry_holdings sample_loop = Some e /\ e !! 1 = Some r /\ r !! 1 = Some h /\ h <> HOLDS_NOTHING.
Proof.
  destruct (entry_holdings sample_loop) as [e|] eqn:He; [|by vm_compute in He].
  assert (Hpath : enters sample_loop 1 1 true).
  { apply (enters_edge sample_loop 1 0 _ 1%N true (enters_function sample_loop 1) eq_refl);
      [apply list_elem_of_here|cbn; lia]. }
  destruct (entry_holdings_sound sample_loop e 1 _ [] _ 1 true He ltac:(cbn; lia) ltac:(cbn; lia) eq_refl eq_refl Hpath)
    as (r & h & Hr & Hh & Hn & _).
  exists e, r, h. split; [done|]. split; [done|]. split; [exact Hh|]. intros Hnothing. by specialize (Hn Hnothing).
Defined.

(** The pass that prunes drops removes exactly the drops of whole locals
    that hold nothing there, and leaves every other instruction in its order. *)
Theorem emptied_drops_filtered ir ir' :
  drop_releases_of_emptied_places ir = Some ir' -> 0 < block_count ir ->
  exists e, entry_holdings ir = Some e /\
    forall i b, blocks ir !! i = Some b ->
      blocks ir' !! i = Some (set_insts b (without_empty_drops (value_count ir) (default [] (e !! i)) (insts b))).
Proof.
  unfold drop_releases_of_emptied_places. intros H Hb. rewrite bool_decide_eq_false_2 in H by lia.
  apply bind_Some in H as (e & He & [= <-]). exists e. split; [done|]. intros i b Hi. cbn.
  rewrite list_lookup_imap, Hi. cbn. unfold remove_empty_drops, remove_all. do 2 f_equal.
  apply (remove_empty_drops_filters (value_count ir) (insts b) _ []).
Qed.

Lemma emptied_drops_filtered_witness :
  exists ir', drop_releases_of_emptied_places (empty_moved (TV := sample_view) sample_param) = Some ir' /\
    length (blocks ir') = 3 /\ exists b, blocks ir' !! 2 = Some b /\ inst_count b = 3.
Proof.
  destruct (drop_releases_of_emptied_places (empty_moved (TV := sample_view) sample_param)) as [ir'|] eqn:H;
    [|by vm_compute in H].
  exists ir'. split; [done|]. split; [vm_compute in H; by injection H as [= <-]|].
  destruct (emptied_drops_filtered _ _ H ltac:(vm_compute; lia)) as (e & He & Hblocks).
  eexists. split; [by apply (Hblocks 2)|]. vm_compute in He. injection He as [= <-]. by vm_compute.
Defined.

(** C27: the flag of a guarded local says what the local holds: after any
    sequence of instructions that stored to it or emptied it, the flags
    written make it true exactly when the local holds its object. *)
Theorem write_drop_flags_tracks `{TV : TypeView} ir fs i b v flag held f :
  blocks ir !! i = Some b -> fs !! v = Some flag -> mir_value_is_none flag = false ->
  Forall (fun inst => op inst <> MIR_DROP_FLAG) (insts b) ->
  existsb (fun inst => fills (value_count ir) v inst || empties (value_count ir) v inst) (insts b) = true ->
  exists b', blocks (write_drop_flags fs ir) !! i = Some b' /\
    foldl (flag_step v) f (insts b') = foldl (track (value_count ir) v) held (insts b).
Proof.
  intros Hb Hv Hflag Hops Hw. eexists. split.
  { unfold write_drop_flags, map_insts. cbn. rewrite list_lookup_fmap, Hb. reflexivity. }
  cbn [insts set_insts]. by rewrite (flags_track _ fs v flag (insts b) held f), Hw.
Qed.

Lemma write_drop_flags_tracks_witness :
  exists b', blocks (write_drop_flags (TV := sample_view) [MIR_NO_VALUE; 5%N] (empty_moved (TV := sample_view) sample_overwrite)) !! 1 = Some b' /\
    foldl (flag_step 1) true (insts b') = false.
Proof.
  destruct (write_drop_flags_tracks (TV := sample_view) (empty_moved (TV := sample_view) sample_overwrite)
              [MIR_NO_VALUE; 5%N] 1 _ 1 5%N true true eq_refl eq_refl eq_refl) as (b' & Hb & Hf).
  - repeat constructor; discriminate.
  - vm_compute. reflexivity.
  - exists b'. split; [done|]. rewrite Hf. vm_compute. reflexivity.
Defined.

(** What a path through the blocks stores to and drops, in order. *)
Definition path_releases (ir : MIRFunction) (path : list nat) : list (MIROp * MIRValueId) :=
  b ← path; inst ← default [] (insts <$> blocks ir !! b);
  match op inst with
  | MIR_STORE | MIR_DROP | MIR_DROP_FLAG => [(op inst, base (inst_place inst))]
  | _ => []
  end.

(** A local that is moved out of on one path only leaks on the other when
    it is overwritten after they meet: the scan for overwrites forgets the
    stored object at the null of the path not taken, so along the path that
    skips the move two objects are stored and one is released.  Likewise an
    owning parameter moved on one path only is guarded by a flag nothing sets
    on the other: the drop there never runs. *)
Example moved_on_one_path_leaks :
  (exists ir', sample_elaborate sample_overwrite = Some ir' /\
     path_releases ir' [0; 2] = [(MIR_STORE, 1%N); (MIR_STORE, 1%N); (MIR_DROP, 1%N)]) /\
  (exists ir', sample_elaborate sample_param = Some ir' /\
     path_releases ir' [0; 2] = [(MIR_DROP, 1%N)] /\
     path_releases ir' [0; 1; 2] = [(MIR_DROP_FLAG, 1%N); (MIR_DROP, 1%N)] /\
     exists b inst, blocks ir' !! 2 = Some b /\ insts b !! 0 = Some inst /\ op inst = MIR_DROP /\ inst_flag inst = 3%N).
Proof.
  split; [eexists; split; vm_compute; reflexivity|].
  eexists. split; [vm_compute; reflexivity|]. split; [reflexivity|]. split; [reflexivity|].
  eexists _, _. done.
Qed.
