(* ===== verification/Fold.v ===== *)
(** * Fold: constant folding

    [src/src/mir/mir_fold.c]: one forward pass that replaces an arithmetic
    instruction on known constants by the constant, then removes the constants
    nothing reads.  [KnownValue *known] is a list indexed by the value's id,
    [None] where [known] is false. *)

From S2P Require Import Prelude Types Mir.

Abbreviation KnownValues := (list (option Constant)).

Definition inst_is_constant (o : MIROp) : bool :=
  match o with MIR_CONST_INT | MIR_CONST_FLOAT | MIR_CONST_BOOL => true | _ => false end.

Definition all_insts_of (bs : list MIRBlock) : list MIRInst := flat_map insts bs.

Definition known_inst (known : KnownValues) (inst : MIRInst) : KnownValues :=
  if negb (inst_is_constant (op inst)) || mir_value_is_none (result inst) then known
  else <[N.to_nat (result inst) := Some (inst_constant inst)]> known.

Definition known_values (ir : MIRFunction) : KnownValues :=
  foldl known_inst (replicate (value_count ir) None) (all_insts_of (blocks ir)).

Definition known_operand (known : KnownValues) (operand : MIROperand) : option Constant :=
  match operand with
  | OPERAND_CONST constant => Some constant
  | OPERAND_VALUE value =>
      if mir_value_is_none value then None else default None (known !! N.to_nat value)
  end.

(** [inst->op = o; inst->constant = c] *)
Definition set_constant (inst : MIRInst) (o : MIROp) (c : Constant) : MIRInst :=
  MkInst o (inst_type inst) (result inst) (args inst) (payload_constant c) (ending inst) (inst_span inst).
Definition clear_args (inst : MIRInst) : MIRInst :=
  MkInst (op inst) (inst_type inst) (result inst) [] (payload inst) (ending inst) (inst_span inst).

Definition fold_int_binary (o : MIROp) (a b : Z) : option Z :=
  match o with
  | MIR_ADD => Some (to_i32 (to_u32 a + to_u32 b))
  | MIR_SUB => Some (to_i32 (to_u32 a - to_u32 b))
  | MIR_MUL => Some (to_i32 (to_u32 a * to_u32 b))
  | MIR_DIV | MIR_MOD =>
      if (b =? 0)%Z || ((a =? INT32_MIN)%Z && (b =? -1)%Z) then None
      else Some (if bool_decide (o = MIR_DIV) then Z.quot a b else Z.rem a b)
  | _ => None
  end.

Definition fold_float_binary (o : MIROp) (a b : f32) : option f32 :=
  match o with
  | MIR_ADD => Some (f32_add a b)
  | MIR_SUB => Some (f32_sub a b)
  | MIR_MUL => Some (f32_mul a b)
  | MIR_DIV => Some (f32_div a b)
  | _ => None
  end.

Section fold.
Context `{TV : TypeView}.

Definition fold_neg (operand : Constant) (inst : MIRInst) : option MIRInst :=
  if constant_is_float operand then
    Some (set_constant inst MIR_CONST_FLOAT (constant_float (constant_type operand) (f32_opp (const_float operand))))
  else if constant_is_int operand then
    Some (set_constant inst MIR_CONST_INT
            (constant_int (constant_type operand) (to_i32 (to_u32 (0 - to_u32 (const_int operand))))))
  else None.

Definition fold_not (operand : Constant) (inst : MIRInst) : option MIRInst :=
  if negb (constant_is_bool operand) then None
  else Some (set_constant inst MIR_CONST_BOOL (constant_bool (constant_type operand) (negb (const_bool operand)))).

(** The operands are converted to [int32_t] by the call; a folded float leaves
    the type of the instruction's own constant, which lowering never set. *)
Definition fold_binary (left right : Constant) (inst : MIRInst) : option MIRInst :=
  if bool_decide (constant_type left = None) || negb (bool_decide (constant_type left = constant_type right)) then None
  else if constant_is_int left then
    if tv_is_unsigned (constant_type left) && (bool_decide (op inst = MIR_DIV) || bool_decide (op inst = MIR_MOD))
    then None
    else
      folded ← fold_int_binary (op inst) (to_i32 (const_int left)) (to_i32 (const_int right));
      Some (set_constant inst MIR_CONST_INT (constant_int (constant_type left) folded))
  else if constant_is_float left then
    folded ← fold_float_binary (op inst) (const_float left) (const_float right);
    Some (set_constant inst MIR_CONST_FLOAT (MkConstant (constant_type (inst_constant inst)) (as_float folded)))
  else None.

(** The [switch]; [operands] are the constants the arguments are known to be. *)
Definition fold_operands (operands : list Constant) (inst : MIRInst) : option MIRInst :=
  match op inst, operands with
  | MIR_NEG, [operand] => fold_neg operand inst
  | MIR_NOT, [operand] => fold_not operand inst
  | (MIR_ADD | MIR_SUB | MIR_MUL | MIR_DIV | MIR_MOD), [a; b] => fold_binary a b inst
  | _, _ => None
  end.

Definition fold_inst (known : KnownValues) (inst : MIRInst) : KnownValues * MIRInst :=
  if bool_decide (arg_count inst < 1) || bool_decide (2 < arg_count inst) then (known, inst)
  else
    match mapM (known_operand known) (args inst) with
    | None => (known, inst)
    | Some operands =>
        match fold_operands operands inst with
        | None => (known, inst)
        | Some inst =>
            let inst := clear_args inst in
            (<[N.to_nat (result inst) := Some (inst_constant inst)]> known, inst)
        end
    end.

Fixpoint fold_insts (known : KnownValues) (l : list MIRInst) : KnownValues * list MIRInst :=
  match l with
  | [] => (known, [])
  | inst :: l =>
      let '(known, inst) := fold_inst known inst in
      let '(known, l) := fold_insts known l in
      (known, inst :: l)
  end.

Fixpoint fold_blocks (known : KnownValues) (bs : list MIRBlock) : KnownValues * list MIRBlock :=
  match bs with
  | [] => (known, [])
  | b :: bs =>
      let '(known, l) := fold_insts known (insts b) in
      let '(known, bs) := fold_blocks known bs in
      (known, set_insts b l :: bs)
  end.

(** *** Constants nothing reads *)

(** The values an instruction reads: its arguments, and the base and the
    indices of its place. *)
Definition fold_reads (inst : MIRInst) : list MIRValueId :=
  (mir_operand_as_value <$> args inst) ++
  (if mir_op_has_place (op inst) then
     base (inst_place inst) ::
     omap (fun p => match proj_kind p with PROJ_INDEX i => Some i | _ => None end) (projections (inst_place inst))
   else []).

Definition mark_read (read : list bool) (v : MIRValueId) : list bool :=
  if mir_value_is_none v then read else <[N.to_nat v := true]> read.

Definition unread_constant (read : list bool) (inst : MIRInst) : bool :=
  if negb (inst_is_constant (op inst)) || mir_value_is_none (result inst) then false
  else negb (default false (read !! N.to_nat (result inst))).

Definition drop_unread_constants (ir : MIRFunction) : MIRFunction :=
  let read := foldl mark_read (replicate (value_count ir) false) (flat_map fold_reads (all_insts_of (blocks ir))) in
  set_blocks ir ((fun b => set_insts b (filter (fun inst => unread_constant read inst = false) (insts b))) <$> blocks ir).

Definition mir_fold (ir : MIRFunction) : MIRFunction :=
  drop_unread_constants (set_blocks ir (fold_blocks (known_values ir) (blocks ir)).2).
End fold.

(** ** What the instructions compute *)

Inductive MValue := VInt (z : Z) | VFloat (f : f32) | VBool (b : bool).

(** The value of a word of the kind's width. *)
Definition norm (k : TypeKind) (z : Z) : Z :=
  match k with
  | TYPE_I32 => to_i32 z
  | TYPE_U8 => wrap_unsigned 8 z
  | TYPE_USIZE => to_u64 z
  | _ => z
  end.

(** Integer arithmetic at the kind's width; [None] is a trap. *)
Definition eval_int (k : TypeKind) (o : MIROp) (a b : Z) : option Z :=
  match o with
  | MIR_ADD => Some (norm k (a + b))
  | MIR_SUB => Some (norm k (a - b))
  | MIR_MUL => Some (norm k (a * b))
  | MIR_DIV | MIR_MOD =>
      if (b =? 0)%Z || ((a =? INT32_MIN)%Z && (b =? -1)%Z && bool_decide (k = TYPE_I32)) then None
      else Some (norm k (if bool_decide (o = MIR_DIV) then Z.quot a b else Z.rem a b))
  | _ => None
  end.

Definition eval_op (k : TypeKind) (o : MIROp) (l : list MValue) : option MValue :=
  match o, l with
  | MIR_NEG, [VInt a] => Some (VInt (norm k (- a)))
  | MIR_NEG, [VFloat a] => Some (VFloat (f32_opp a))
  | MIR_NOT, [VBool a] => Some (VBool (negb a))
  | _, [VInt a; VInt b] => VInt <$> eval_int k o a b
  | _, [VFloat a; VFloat b] => VFloat <$> fold_float_binary o a b
  | _, _ => None
  end.

Definition foldable (o : MIROp) : bool :=
  match o with
  | MIR_NEG | MIR_NOT | MIR_ADD | MIR_SUB | MIR_MUL | MIR_DIV | MIR_MOD => true
  | _ => false
  end.

(** ** Arithmetic at 32 bits is arithmetic at the width *)

Lemma to_u32_mod z : (to_u32 z mod 2 ^ 32 = z mod 2 ^ 32)%Z.
Proof. unfold wrap_unsigned. by rewrite Zmod_mod. Qed.

Lemma to_i32_mod z : (to_i32 z mod 2 ^ 32 = z mod 2 ^ 32)%Z.
Proof. by apply wrap_signed_mod. Qed.

(** The kinds folding computes right: at most 32 bits wide. *)
Definition narrow (k : TypeKind) : Prop := k = TYPE_I32 \/ k = TYPE_U8.

Lemma norm_congr k a b : narrow k -> (a mod 2 ^ 32 = b mod 2 ^ 32)%Z -> norm k a = norm k b.
Proof.
  intros [-> | ->] H; cbn [norm].
  - by apply wrap_signed_congr.
  - unfold wrap_unsigned.
    rewrite <- (Z.mod_mod_divide a (2 ^ 32) (2 ^ 8)), <- (Z.mod_mod_divide b (2 ^ 32) (2 ^ 8)), H; [done|..];
      exists (2 ^ 24)%Z; reflexivity.
Qed.

Lemma norm_idem k a : narrow k -> norm k (norm k a) = norm k a.
Proof.
  intros [-> | ->]; cbn [norm].
  - apply wrap_signed_congr; [done|]. apply to_i32_mod.
  - unfold wrap_unsigned. by rewrite Zmod_mod.
Qed.

(** Operations that are congruences modulo [2 ^ 32] and modulo [2 ^ 8]. *)
Lemma norm_binary k (f : Z -> Z -> Z) a b :
  narrow k ->
  (forall n a b, 0 < n -> (f a b mod n = f (a mod n) (b mod n) mod n))%Z ->
  norm k (f (norm k a) (norm k b)) = norm k (f a b).
Proof.
  intros [-> | ->] Hf; cbn [norm].
  - apply wrap_signed_congr; [done|]. rewrite (Hf (2 ^ 32)%Z) by done.
    rewrite !wrap_signed_mod by done. by rewrite <- Hf.
  - unfold wrap_unsigned. by rewrite <- Hf.
Qed.

Lemma fold_arith k (f : Z -> Z -> Z) a b :
  narrow k ->
  (forall n a b, 0 < n -> (f a b mod n = f (a mod n) (b mod n) mod n))%Z ->
  norm k (to_i32 (f (to_u32 (to_i32 a)) (to_u32 (to_i32 b)))) = norm k (f (norm k a) (norm k b)).
Proof.
  intros Hk Hf. rewrite norm_binary by done. apply norm_congr; [done|].
  rewrite to_i32_mod, (Hf (2 ^ 32)%Z) by done. rewrite !to_u32_mod, !to_i32_mod. by rewrite <- Hf.
Qed.

Lemma add_congr n a b : (0 < n -> (a + b) mod n = (a mod n + b mod n) mod n)%Z.
Proof. intros. by rewrite Zplus_mod. Qed.
Lemma sub_congr n a b : (0 < n -> (a - b) mod n = (a mod n - b mod n) mod n)%Z.
Proof. intros. by rewrite Zminus_mod. Qed.
Lemma mul_congr n a b : (0 < n -> (a * b) mod n = (a mod n * (b mod n)) mod n)%Z.
Proof. intros. by rewrite Zmult_mod. Qed.

Lemma fold_int_binary_eval k o a b r :
  narrow k -> (k = TYPE_U8 -> o <> MIR_DIV /\ o <> MIR_MOD) ->
  fold_int_binary o (to_i32 a) (to_i32 b) = Some r ->
  eval_int k o (norm k a) (norm k b) = Some (norm k r).
Proof.
  intros Hk Hdiv. unfold fold_int_binary, eval_int. destruct o; try done.
  - intros [= <-]. rewrite (fold_arith k Z.add a b Hk add_congr). done.
  - intros [= <-]. rewrite (fold_arith k Z.sub a b Hk sub_congr). done.
  - intros [= <-]. rewrite (fold_arith k Z.mul a b Hk mul_congr). done.
  - destruct Hk as [-> | ->]; [|by destruct (Hdiv eq_refl)]. cbn [norm]. decide_closed.
    rewrite andb_true_r. destruct (_ || _); [done|]. by intros [= <-].
  - destruct Hk as [-> | ->]; [|by destruct (Hdiv eq_refl)]. cbn [norm]. decide_closed.
    rewrite andb_true_r. destruct (_ || _); [done|]. by intros [= <-].
Qed.

Lemma fold_neg_eval k a : narrow k -> norm k (to_i32 (to_u32 (0 - to_u32 a))) = norm k (- norm k a).
Proof.
  intros Hk. pose proof (norm_binary k (fun _ x => - x)%Z 0 a Hk) as Hn. cbn beta in Hn.
  assert (Hopp : forall n a, (0 < n -> (- a) mod n = (- (a mod n)) mod n)%Z).
  { intros n x _. rewrite <- (Z.sub_0_l x), <- (Z.sub_0_l (x mod n)). by rewrite Zminus_mod_idemp_r. }
  rewrite Hn by auto. apply norm_congr; [done|].
  rewrite to_i32_mod, to_u32_mod, <- Zminus_mod_idemp_r, to_u32_mod, Zminus_mod_idemp_r. done.
Qed.

(** ** Valuations *)

Section sound.
Context `{TV : TypeView}.

Definition kind_of (t : TypePtr) : TypeKind := default TYPE_ERROR (tv_kind t).

(** The value of a constant at a type. *)
Definition constant_mvalue (t : TypePtr) (c : Constant) : option MValue :=
  if tv_is_integer t then Some (VInt (norm (kind_of t) (const_int c)))
  else if bool_decide (tv_kind t = Some TYPE_F32) then Some (VFloat (const_float c))
  else if bool_decide (tv_kind t = Some TYPE_BOOL) then Some (VBool (const_bool c))
  else None.

(** What every value of a run is. *)
Context (env : MIRValueId -> option MValue).

Definition operand_mvalue (operand : MIROperand) : option MValue :=
  match operand with
  | OPERAND_VALUE v => env v
  | OPERAND_CONST c => constant_mvalue (constant_type c) c
  end.

(** The run agrees with an instruction: a constant's value is the constant, an
    arithmetic instruction's is what its operands compute. *)
Definition agrees (inst : MIRInst) : Prop :=
  if inst_is_constant (op inst) then
    mir_value_is_none (result inst) = false -> env (result inst) = constant_mvalue (inst_type inst) (inst_constant inst)
  else if foldable (op inst) then
    forall l r, mapM operand_mvalue (args inst) = Some l -> eval_op (kind_of (inst_type inst)) (op inst) l = Some r ->
      env (result inst) = Some r
  else True.

Definition agrees_all (bs : list MIRBlock) : Prop := forall inst, inst ∈ all_insts_of bs -> agrees inst.
End sound.

Section typed.
Context `{TV : TypeView}.

(** The instruction defines its result by a constant or by arithmetic. *)
Definition defines (inst : MIRInst) : bool := inst_is_constant (op inst) || foldable (op inst).

(** What lowering builds: a constant has its instruction's type, an arithmetic
    instruction has its operands' type and carries no constant of its own. *)
Definition inst_typed (l : list MIRInst) (inst : MIRInst) : Prop :=
  (inst_is_constant (op inst) = true -> constant_type (inst_constant inst) = inst_type inst) /\
  (foldable (op inst) = true ->
     constant_type (inst_constant inst) = None /\
     (forall c, OPERAND_CONST c ∈ args inst -> constant_type c = inst_type inst) /\
     forall v def, OPERAND_VALUE v ∈ args inst -> def ∈ l -> result def = v -> defines def = true ->
       inst_type def = inst_type inst).

Definition fold_typed (ir : MIRFunction) : Prop :=
  forall inst, inst ∈ all_insts_of (blocks ir) -> inst_typed (all_insts_of (blocks ir)) inst.

(** No arithmetic on words wider than 32 bits. *)
Definition fold_narrow (ir : MIRFunction) : Prop :=
  forall inst, inst ∈ all_insts_of (blocks ir) -> foldable (op inst) = true ->
    tv_kind (inst_type inst) <> Some TYPE_USIZE.

Section run.
Context (env : MIRValueId -> option MValue) (l : list MIRInst).

(** What is known of a value is what the run has there, at the type its
    definition has; a folded float is known at no type. *)
Definition known_ok (known : KnownValues) : Prop :=
  forall v c, known !! v = Some (Some c) ->
    constant_type c = None \/
    (env (N.of_nat v) = constant_mvalue (constant_type c) c /\
     exists def, def ∈ l /\ result def = N.of_nat v /\ defines def = true /\ inst_type def = constant_type c).

Lemma known_ok_insert known inst c :
  known_ok known ->
  (constant_type c = None \/
   (env (result inst) = constant_mvalue (constant_type c) c /\ inst ∈ l /\ defines inst = true /\
    inst_type inst = constant_type c)) ->
  known_ok (<[N.to_nat (result inst) := Some c]> known).
Proof.
  intros Hk Hc v c' [(<- & [= <-] & _)|(_ & H)]%list_lookup_insert_Some; [|by apply Hk].
  destruct Hc as [|(He & Hin & Hd & Ht)]; [by left|]. right. rewrite N2Nat.id. split; [done|]. by exists inst.
Qed.

Lemma known_ok_none n : known_ok (replicate n None).
Proof. intros v c [? _]%lookup_replicate. done. Qed.

Lemma known_values_ok l' : forall known,
  (forall inst, inst ∈ l' -> inst ∈ l /\ inst_typed l inst /\ agrees env inst) ->
  known_ok known -> known_ok (foldl known_inst known l').
Proof.
  induction l' as [|inst l' IH]; intros known Hl Hk; [done|]. cbn.
  apply IH; [intros; apply Hl; by right|]. destruct (Hl inst ltac:(left)) as (Hin & [Hct _] & Hag).
  unfold known_inst. destruct (inst_is_constant (op inst)) eqn:Hc; cbn [negb orb]; [|done].
  destruct (mir_value_is_none (result inst)) eqn:Hn; [done|].
  apply known_ok_insert; [done|]. right. unfold agrees in Hag. rewrite Hc in Hag.
  rewrite Hct by done. repeat split; try done; [by apply Hag|]. unfold defines. by rewrite Hc.
Qed.

(** A known operand is a constant of no type, or has the instruction's type and
    the run's value. *)
Lemma known_operand_ok known inst operand c :
  known_ok known -> inst_typed l inst -> foldable (op inst) = true -> operand ∈ args inst ->
  known_operand known operand = Some c ->
  constant_type c = None \/
  (constant_type c = inst_type inst /\ operand_mvalue env operand = constant_mvalue (inst_type inst) c).
Proof.
  intros Hk [_ Hty] Hf Hop. destruct (Hty Hf) as (_ & Hconst & Hval). destruct operand as [v|c']; cbn.
  - destruct (mir_value_is_none v); [done|]. destruct (known !! N.to_nat v) as [[c'|]|] eqn:Hv; try done.
    intros [= <-]. destruct (Hk _ _ Hv) as [?|(He & def & Hdef & Hr & Hd & Ht)]; [by left|]. right.
    rewrite N2Nat.id in *. by rewrite <- (Hval v def Hop Hdef Hr Hd), Ht.
  - intros [= <-]. right. by rewrite (Hconst c' Hop).
Qed.

(** A folded instruction is a constant with the value its operands compute. *)
Definition folds_to (inst inst' : MIRInst) (l : list MValue) : Prop :=
  (exists v, eval_op (kind_of (inst_type inst)) (op inst) l = Some v /\
             constant_mvalue (inst_type inst) (inst_constant inst') = Some v) /\
  inst_is_constant (op inst') = true /\ inst_type inst' = inst_type inst /\ result inst' = result inst /\
  (constant_type (inst_constant inst') = inst_type inst \/ constant_type (inst_constant inst') = None).

(** The cases of an operand's type. *)
Ltac kind_cases inst :=
  unfold constant_is_float, constant_is_int, constant_is_bool, constant_mvalue, tv_is_integer, tv_is_unsigned, kind_of in *;
  destruct (tv_kind (inst_type inst)) as [[]|] eqn:Hkind; decide_closed;
  cbn [kind_is_integer kind_is_unsigned default from_option id negb andb orb]; try done.

Lemma fold_neg_ok c inst inst' :
  op inst = MIR_NEG -> tv_kind (inst_type inst) <> Some TYPE_USIZE -> constant_type c = inst_type inst ->
  fold_neg c inst = Some inst' ->
  exists v, constant_mvalue (inst_type inst) c = Some v /\ folds_to inst inst' [v].
Proof.
  intros Ho Hk Hc. unfold fold_neg, folds_to, constant_is_float, constant_is_int. rewrite Ho, Hc. kind_cases inst;
    intros [= <-]; (eexists; split; [reflexivity|]); (split; [|by auto]); eexists; (split; [reflexivity|]); cbn;
    do 2 f_equal; [apply (fold_neg_eval TYPE_I32)|apply (fold_neg_eval TYPE_U8)]; by (left + right).
Qed.

Lemma fold_not_ok c inst inst' :
  op inst = MIR_NOT -> constant_type c = inst_type inst -> fold_not c inst = Some inst' ->
  exists v, constant_mvalue (inst_type inst) c = Some v /\ folds_to inst inst' [v].
Proof.
  intros Ho Hc. unfold fold_not, folds_to, constant_is_bool. rewrite Ho, Hc. kind_cases inst;
    intros [= <-]; (eexists; split; [reflexivity|]); (split; [|by auto]); eexists; (split; [reflexivity|]); done.
Qed.

Lemma eval_op_int k o a b : eval_op k o [VInt a; VInt b] = VInt <$> eval_int k o a b.
Proof. by destruct o. Qed.
Lemma eval_op_float k o a b : eval_op k o [VFloat a; VFloat b] = VFloat <$> fold_float_binary o a b.
Proof. by destruct o. Qed.

Lemma fold_binary_ok a b inst inst' :
  tv_kind (inst_type inst) <> Some TYPE_USIZE -> constant_type a = inst_type inst ->
  constant_type (inst_constant inst) = None -> fold_binary a b inst = Some inst' ->
  exists va vb, constant_mvalue (inst_type inst) a = Some va /\ constant_mvalue (inst_type inst) b = Some vb /\
    folds_to inst inst' [va; vb].
Proof.
  intros Hk Ha Hnone. unfold fold_binary, folds_to. destruct (_ || _); [done|].
  unfold constant_is_int, constant_is_float. rewrite Ha. kind_cases inst.
  - intros (r & Hr & [= <-])%bind_Some. eexists _, _. split; [reflexivity|]. split; [reflexivity|].
    split; [|by auto]. exists (VInt (norm TYPE_I32 r)). split; [|done].
    apply (fold_int_binary_eval TYPE_I32) in Hr; [|by left|done]. by rewrite ?eval_op_int, ?eval_op_float, Hr.
  - intros (r & Hr & [= <-])%bind_Some. eexists _, _. split; [reflexivity|]. split; [reflexivity|].
    split; [|by auto]. exists (VFloat r). split; [|done]. by rewrite ?eval_op_int, ?eval_op_float, Hr.
  - destruct (_ || _) eqn:Ho; [done|].
    intros (r & Hr & [= <-])%bind_Some. eexists _, _. split; [reflexivity|]. split; [reflexivity|].
    split; [|by auto]. exists (VInt (norm TYPE_U8 r)). split; [|done].
    apply orb_false_iff in Ho as [?%bool_decide_eq_false ?%bool_decide_eq_false].
    apply (fold_int_binary_eval TYPE_U8) in Hr; [|by right|done]. by rewrite ?eval_op_int, ?eval_op_float, Hr.
Qed.

Lemma known_operands_two known o1 o2 l' :
  mapM (known_operand known) [o1; o2] = Some l' ->
  exists a b, l' = [a; b] /\ known_operand known o1 = Some a /\ known_operand known o2 = Some b.
Proof. intros (a & Ha & (l1 & (b & Hb & [= <-])%bind_Some & [= <-])%bind_Some)%bind_Some. eauto. Qed.

Context {TL : TypeViewLaws TV}.

Lemma null_folds_nothing c inst :
  constant_type c = None -> fold_neg c inst = None /\ fold_not c inst = None.
Proof.
  intros Hc. unfold fold_neg, fold_not, constant_is_float, constant_is_int, constant_is_bool, tv_is_integer.
  by rewrite Hc, tv_kind_null.
Qed.

(** A fold is of the values the operands have in the run. *)
Lemma fold_operands_ok known inst inst' operands :
  known_ok known -> inst_typed l inst -> tv_kind (inst_type inst) <> Some TYPE_USIZE ->
  mapM (known_operand known) (args inst) = Some operands -> fold_operands operands inst = Some inst' ->
  foldable (op inst) = true /\
  exists vs, mapM (operand_mvalue env) (args inst) = Some vs /\ folds_to inst inst' vs.
Proof.
  intros Hk Hty Hn Hops Hfold.
  assert (Hf : foldable (op inst) = true).
  { unfold fold_operands in Hfold. by destruct (op inst), operands as [|? [|]]. }
  split; [done|]. destruct (proj2 Hty Hf) as (Hnone & _).
  assert (Hop : forall o c, o ∈ args inst -> known_operand known o = Some c -> constant_type c <> None ->
    constant_type c = inst_type inst /\ operand_mvalue env o = constant_mvalue (inst_type inst) c).
  { intros o c Ho Hc Hnn. by destruct (known_operand_ok known inst o c Hk Hty Hf Ho Hc). }
  destruct operands as [|a [|b [|]]].
  - unfold fold_operands in Hfold. by destruct (op inst).
  - assert (exists o, args inst = [o] /\ known_operand known o = Some a) as (o & Hargs & Ha).
    { destruct (args inst) as [|o [|o' [|]]]; try done.
      - apply bind_Some in Hops as (x & Hx & [= ->]). by exists o.
      - by apply known_operands_two in Hops as (? & ? & ? & _).
      - apply bind_Some in Hops as (x & Hx & (y & (z & Hz & (w & _ & [= <-])%bind_Some)%bind_Some & [=])%bind_Some). }
    destruct (decide (constant_type a = None)) as [He|He].
    { destruct (null_folds_nothing a inst He) as [Hneg Hnot]. unfold fold_operands in Hfold.
      rewrite Hneg, Hnot in Hfold. by destruct (op inst). }
    destruct (Hop o a) as [Ht Hv]; [rewrite Hargs; left|done|done|]. rewrite Hargs.
    assert (exists v, constant_mvalue (inst_type inst) a = Some v /\ folds_to inst inst' [v]) as (v & Hav & Hto).
    { unfold fold_operands in Hfold. destruct (op inst) eqn:Ho; try done;
        [by apply (fold_neg_ok a)|by apply (fold_not_ok a)]. }
    exists [v]. split; [|done]. cbn. by rewrite Hv, Hav.
  - assert (exists o o', args inst = [o; o'] /\ known_operand known o = Some a /\ known_operand known o' = Some b)
      as (o & o' & Hargs & Ha & Hb).
    { destruct (args inst) as [|o [|o' [|]]]; try done.
      - by apply bind_Some in Hops as (x & Hx & [= ->]).
      - apply known_operands_two in Hops as (x & y & [= <- <-] & Hx & Hy). eauto.
      - apply bind_Some in Hops as (x & Hx & (y & (z & Hz & (w & (u & _ & (t & _ & [= <-])%bind_Some)%bind_Some & [= <-])%bind_Some)%bind_Some & [=])%bind_Some). }
    assert (Hbin : fold_binary a b inst = Some inst') by (unfold fold_operands in Hfold; by destruct (op inst)).
    assert (He : constant_type a <> None /\ constant_type b = constant_type a).
    { unfold fold_binary in Hbin. destruct (_ || _) eqn:Hc; [done|].
      apply orb_false_iff in Hc as [H1%bool_decide_eq_false H2%negb_false_iff%bool_decide_eq_true].
      by split; [|symmetry]. }
    destruct He as [Hea Heb].
    destruct (Hop o a) as [Ht Hv]; [rewrite Hargs; left|done|done|].
    destruct (Hop o' b) as [Ht' Hv']; [rewrite Hargs; right; left|done|congruence|]. rewrite Hargs.
    destruct (fold_binary_ok a b inst inst' Hn Ht Hnone Hbin) as (va & vb & Hva & Hvb & Hto).
    exists [va; vb]. split; [|done]. cbn. by rewrite Hv, Hv', Hva, Hvb.
  - unfold fold_operands in Hfold. by destruct (op inst).
Qed.

Lemma fold_inst_ok known inst :
  known_ok known -> inst ∈ l -> inst_typed l inst -> agrees env inst ->
  (foldable (op inst) = true -> tv_kind (inst_type inst) <> Some TYPE_USIZE) ->
  let '(known', inst') := fold_inst known inst in known_ok known' /\ agrees env inst'.
Proof.
  intros Hk Hin Hty Hag Hn. unfold fold_inst. destruct (_ || _); [done|].
  destruct (mapM (known_operand known) (args inst)) as [operands|] eqn:Hops; [|done].
  destruct (fold_operands operands inst) as [inst'|] eqn:Hfold; [|done].
  assert (Hf : foldable (op inst) = true).
  { unfold fold_operands in Hfold. by destruct (op inst), operands as [|? [|]]. }
  destruct (fold_operands_ok known inst inst' operands Hk Hty (Hn Hf) Hops Hfold)
    as (_ & vs & Hvs & (v & Hev & Hcv) & Hconst & Hit & Hr & Hct).
  assert (Hnc : inst_is_constant (op inst) = false) by by destruct (op inst).
  assert (Henv : env (result inst) = Some v).
  { unfold agrees in Hag. rewrite Hnc, Hf in Hag. by eapply Hag. }
  cbn [result clear_args inst_constant]. change (inst_constant (clear_args inst')) with (inst_constant inst').
  rewrite Hr. split.
  - apply known_ok_insert; [done|]. destruct Hct as [Hct|Hct]; [right|by left]. rewrite Hct, Hcv, Henv.
    repeat split; try done. unfold defines. rewrite Hf. apply orb_true_r.
  - unfold agrees. cbn [op clear_args result inst_type]. rewrite Hconst, Hit, Hr. intros _.
    change (inst_constant (clear_args inst')) with (inst_constant inst'). by rewrite Hcv.
Qed.

Lemma fold_insts_ok l' : forall known,
  known_ok known ->
  (forall inst, inst ∈ l' -> inst ∈ l /\ inst_typed l inst /\ agrees env inst /\
     (foldable (op inst) = true -> tv_kind (inst_type inst) <> Some TYPE_USIZE)) ->
  let '(known', l'') := fold_insts known l' in known_ok known' /\ forall inst, inst ∈ l'' -> agrees env inst.
Proof.
  induction l' as [|inst l' IH]; intros known Hk Hl; cbn [fold_insts].
  { split; [done|]. by intros inst ?%elem_of_nil. }
  destruct (Hl inst ltac:(left)) as (Hin & Hty & Hag & Hn).
  pose proof (fold_inst_ok known inst Hk Hin Hty Hag Hn) as Hi. destruct (fold_inst known inst) as [known1 inst1].
  destruct Hi as [Hk1 Hag1]. specialize (IH known1 Hk1 ltac:(intros; apply Hl; by right)).
  destruct (fold_insts known1 l') as [known2 l2]. destruct IH as [Hk2 Hag2]. split; [done|].
  intros i [->|?]%elem_of_cons; auto.
Qed.

Lemma fold_blocks_ok bs : forall known,
  known_ok known ->
  (forall inst, inst ∈ all_insts_of bs -> inst ∈ l /\ inst_typed l inst /\ agrees env inst /\
     (foldable (op inst) = true -> tv_kind (inst_type inst) <> Some TYPE_USIZE)) ->
  agrees_all env (fold_blocks known bs).2.
Proof.
  unfold agrees_all, all_insts_of. induction bs as [|b bs IH]; intros known Hk Hl; cbn [fold_blocks].
  { by intros inst ?%elem_of_nil. }
  pose proof (fold_insts_ok (insts b) known Hk) as Hb. destruct (fold_insts known (insts b)) as [known1 l1].
  destruct Hb as [Hk1 Hag1]; [intros; apply Hl; cbn; apply elem_of_app; by left|].
  specialize (IH known1 Hk1 ltac:(intros; apply Hl; cbn; apply elem_of_app; by right)).
  destruct (fold_blocks known1 bs) as [known2 bs2]. cbn [snd] in *.
  intros inst. cbn. intros [?|?]%elem_of_app; auto.
Qed.
End run.
End typed.

(** ** Removing constants *)

Lemma mark_read_spec read vs v :
  v <> MIR_NO_VALUE -> N.to_nat v < length read ->
  foldl mark_read read vs !! N.to_nat v = Some true <-> v ∈ vs \/ read !! N.to_nat v = Some true.
Proof.
  intros Hv. revert read. induction vs as [|w vs IH]; intros read Hlen; cbn [foldl].
  - rewrite elem_of_nil. tauto.
  - rewrite IH, elem_of_cons.
    2:{ unfold mark_read. by destruct (mir_value_is_none w); rewrite ?length_insert. }
    unfold mark_read. destruct (mir_value_is_none w) eqn:Hw.
    + apply N.eqb_eq in Hw as ->. change UINT32_MAX with MIR_NO_VALUE. naive_solver.
    + destruct (decide (w = v)) as [->|Hne].
      * rewrite list_lookup_insert_eq by done. naive_solver.
      * rewrite list_lookup_insert_ne by lia. naive_solver.
Qed.

Lemma elem_of_all_insts inst bs : inst ∈ all_insts_of bs <-> exists b, b ∈ bs /\ inst ∈ insts b.
Proof. unfold all_insts_of. rewrite list_elem_of_In, in_flat_map. by setoid_rewrite <- list_elem_of_In. Qed.

Lemma elem_of_drop_unread ir inst :
  inst ∈ all_insts_of (blocks (drop_unread_constants ir)) <->
  inst ∈ all_insts_of (blocks ir) /\
  unread_constant (foldl mark_read (replicate (value_count ir) false)
                     (flat_map fold_reads (all_insts_of (blocks ir)))) inst = false.
Proof.
  unfold drop_unread_constants. cbn [blocks set_blocks]. rewrite !elem_of_all_insts.
  set (read := foldl _ _ _). split.
  - intros (b & (b' & -> & Hb)%list_elem_of_fmap & [Hu Hi]%list_elem_of_filter). eauto.
  - intros [(b & Hb & Hi) Hu].
    exists (set_insts b (filter (fun inst => unread_constant read inst = false) (insts b))). split.
    + apply list_elem_of_fmap. eauto.
    + by apply list_elem_of_filter.
Qed.

Section kept.
Context `{TV : TypeView}.

Lemma fold_operands_result operands inst inst' :
  fold_operands operands inst = Some inst' ->
  result inst' = result inst /\ defines inst = true /\ inst_is_constant (op inst') = true.
Proof.
  assert (Hd : foldable (op inst) = true -> defines inst = true).
  { intros Hf. unfold defines. rewrite Hf. apply orb_true_r. }
  unfold fold_operands. destruct (op inst), operands as [|a [|b [|]]]; try done;
    unfold fold_neg, fold_not, fold_binary; repeat case_match; try done; intros H';
    try (injection H' as [= <-]); try (apply bind_Some in H' as (r & _ & [= <-])); by rewrite Hd.
Qed.

Lemma fold_inst_kept known inst :
  let inst' := (fold_inst known inst).2 in
  result inst' = result inst /\ (inst' = inst \/ (defines inst = true /\ defines inst' = true)).
Proof.
  cbn zeta. unfold fold_inst. destruct (_ || _); [by auto|].
  destruct (mapM _ _) as [operands|]; [|by auto]. destruct (fold_operands operands inst) as [inst'|] eqn:Hf; [|by auto].
  apply fold_operands_result in Hf as (Hr & Hd & Hc). split; [done|]. right. split; [done|].
  unfold defines. cbn [snd op clear_args]. by rewrite Hc.
Qed.

(** The results and the instructions that are neither constants nor arithmetic
    survive folding one by one. *)
Lemma fold_insts_kept l : forall known,
  let l' := (fold_insts known l).2 in
  (result <$> l') = (result <$> l) /\
  filter (fun inst => defines inst = false) l' = filter (fun inst => defines inst = false) l.
Proof.
  induction l as [|inst l IH]; intros known; cbn zeta; [done|]. cbn [fold_insts].
  pose proof (fold_inst_kept known inst) as Hi. destruct (fold_inst known inst) as [known1 inst1].
  specialize (IH known1). destruct (fold_insts known1 l) as [known2 l2]. cbn [snd] in *.
  destruct IH as [IHr IHf], Hi as [Hr Hi]. split; [cbn; by rewrite Hr, IHr|].
  rewrite !filter_cons. destruct Hi as [->|[Hd Hd']]; [by rewrite IHf|].
  by rewrite !decide_False by (by rewrite ?Hd, ?Hd').
Qed.

Lemma fold_blocks_kept bs : forall known i b,
  bs !! i = Some b ->
  exists b', (fold_blocks known bs).2 !! i = Some b' /\ (result <$> insts b') = (result <$> insts b) /\
    filter (fun inst => defines inst = false) (insts b') = filter (fun inst => defines inst = false) (insts b).
Proof.
  induction bs as [|b0 bs IH]; intros known i b; [done|]. cbn [fold_blocks].
  pose proof (fold_insts_kept (insts b0) known) as Hb. destruct (fold_insts known (insts b0)) as [known1 l1].
  specialize (IH known1). destruct (fold_blocks known1 bs) as [known2 bs2]. cbn [snd] in *.
  destruct i as [|i]; cbn.
  - intros [= <-]. by eexists.
  - apply IH.
Qed.

Lemma fold_blocks_length bs : forall known, length (fold_blocks known bs).2 = length bs.
Proof.
  induction bs as [|b bs IH]; intros known; [done|]. cbn [fold_blocks].
  destruct (fold_insts known (insts b)) as [known1 l1]. specialize (IH known1).
  destruct (fold_blocks known1 bs). cbn in *. by rewrite IH.
Qed.

Lemma unread_defines read inst : unread_constant read inst = true -> defines inst = true.
Proof. unfold unread_constant, defines. by destruct (inst_is_constant (op inst)). Qed.
End kept.

(** ** A function that adds constants, for the witnesses *)

Definition sample_sum (t : TypePtr) (a b : Z) : MIRFunction := {|
  mir_function := Some 0;
  blocks :=
    [ MkBlock 0
        [ inst_at MIR_CONST_INT t 0 [] (payload_constant (constant_int t a));
          inst_at MIR_ADD t 1 [OPERAND_VALUE 0; OPERAND_CONST (constant_int t b)] (payload_constant zero_constant);
          inst_at MIR_RETURN None MIR_NO_VALUE [OPERAND_VALUE 1] (payload_constant zero_constant) ] ];
  entry := 0;
  values := [local t; local t];
  params := [];
|}.

Definition sample_sum_folded (t : TypePtr) (c : Z) : list MIRInst :=
  [ inst_at MIR_CONST_INT t 1 [] (payload_constant (constant_int t c));
    inst_at MIR_RETURN None MIR_NO_VALUE [OPERAND_VALUE 1] (payload_constant zero_constant) ].

(** ** Properties *)

(** C28: folding preserves what a function computes.  On a function typed the
    way lowering types it ([fold_typed]: a constant has the type of its
    instruction, and the operands of arithmetic that are constants have the type of
    the arithmetic), without arithmetic at [usize] ([fold_narrow]: folding wraps at
    32 bits, mir_fold.c:199, where the program wraps at 64), every assignment
    of values that agrees with all instructions of the function agrees with all
    those of the folded one: each constant folding puts in an instruction's
    place is the wrapped result of the instruction. *)
Theorem mir_fold_sound `{TV : TypeView} {TL : TypeViewLaws TV} ir env :
  fold_typed ir -> fold_narrow ir -> agrees_all env (blocks ir) -> agrees_all env (blocks (mir_fold ir)).
Proof.
  intros Hty Hn Hag inst [Hi _]%elem_of_drop_unread.
  refine (fold_blocks_ok env (all_insts_of (blocks ir)) (blocks ir) (known_values ir) _ _ inst Hi).
  - apply known_values_ok; [|apply known_ok_none]. auto.
  - intros i Hin. auto.
Qed.

Lemma mir_fold_sound_witness :
  let env v := match v with 0%N => Some (VInt 2147483647) | 1%N => Some (VInt (-2147483648)) | _ => None end in
  agrees_all (TV := sample_view) env (blocks (mir_fold (TV := sample_view) (sample_sum sample_i32 2147483647 1))).
Proof.
  cbn zeta. apply (mir_fold_sound (TV := sample_view)).
  - intros inst Hin. cbn in Hin. repeat (apply elem_of_cons in Hin as [->|Hin]; [|try by apply elem_of_nil in Hin]).
    + split; [done|]. intros [=].
    + split; [intros [=]|]. intros _. split; [done|]. split.
      * intros c [[=]|[[= ->]|?%elem_of_nil]%elem_of_cons]%elem_of_cons; done.
      * intros v def Hv Hdef Hr Hd. cbn in Hdef.
        repeat (apply elem_of_cons in Hdef as [->|Hdef]; [done|]). by apply elem_of_nil in Hdef.
    + split; intros [=].
  - intros inst Hin _. cbn in Hin.
    repeat (apply elem_of_cons in Hin as [->|Hin]; [discriminate|]). by apply elem_of_nil in Hin.
  - intros inst Hin. cbn in Hin.
    repeat (apply elem_of_cons in Hin as [->|Hin]; [|try by apply elem_of_nil in Hin]); cbn.
    + intros _. vm_compute. reflexivity.
    + intros l r [= <-]. vm_compute. intros [= <-]. reflexivity.
    + exact I.
Defined.

(** C29: folding removes nothing that is needed: the instructions that are
    neither constants nor arithmetic stay, in order, and every value an
    instruction of the folded function reads is still defined there when it was
    defined before. *)
Theorem mir_fold_keeps `{TV : TypeView} ir :
  (forall i b, blocks ir !! i = Some b ->
     exists b', blocks (mir_fold ir) !! i = Some b' /\
       filter (fun inst => defines inst = false) (insts b') = filter (fun inst => defines inst = false) (insts b)) /\
  forall inst v def,
    inst ∈ all_insts_of (blocks (mir_fold ir)) -> v ∈ fold_reads inst -> v <> MIR_NO_VALUE -> N.to_nat v < value_count ir ->
    def ∈ all_insts_of (blocks ir) -> result def = v ->
    exists def', def' ∈ all_insts_of (blocks (mir_fold ir)) /\ result def' = v.
Proof.
  split.
  - intros i b Hb. destruct (fold_blocks_kept (blocks ir) (known_values ir) i b Hb) as (b1 & Hb1 & _ & Hf).
    eexists. split.
    { unfold mir_fold, drop_unread_constants. cbn [blocks set_blocks]. by rewrite list_lookup_fmap, Hb1. }
    cbn [insts set_insts]. rewrite list_filter_filter. rewrite <- Hf. apply list_filter_iff. intros inst. split.
    + by intros [? _].
    + intros Hd. split; [done|]. destruct (unread_constant _ inst) eqn:Hu; [|done].
      apply unread_defines in Hu. congruence.
  - intros inst v def [Hi Hk]%elem_of_drop_unread Hv Hne Hlt (b & Hb & Hdef)%elem_of_all_insts Hr.
    apply list_elem_of_lookup in Hb as [i Hb].
    destruct (fold_blocks_kept (blocks ir) (known_values ir) i b Hb) as (b1 & Hb1 & Hres & _).
    assert (Hv1 : v ∈ result <$> insts b1) by (rewrite Hres; apply list_elem_of_fmap; eauto).
    apply list_elem_of_fmap in Hv1 as (def' & -> & Hdef').
    exists def'. split; [|done]. apply elem_of_drop_unread. cbn [blocks set_blocks] in *. split.
    + apply elem_of_all_insts. exists b1. split; [by eapply list_elem_of_lookup_2|done].
    + unfold unread_constant. destruct (_ || _); [done|]. apply negb_false_iff.
      assert (Hread : foldl mark_read (replicate (value_count ir) false)
                        (flat_map fold_reads (all_insts_of (fold_blocks (known_values ir) (blocks ir)).2))
                      !! N.to_nat (result def') = Some true).
      { apply mark_read_spec; [done|by rewrite length_replicate|]. left.
        apply list_elem_of_In, in_flat_map. exists inst. by rewrite <- !list_elem_of_In. }
      exact (f_equal (default false) Hread).
Qed.

Lemma mir_fold_keeps_witness :
  exists def, def ∈ all_insts_of (blocks (mir_fold (TV := sample_view) (sample_sum sample_i32 2 3))) /\ result def = 1%N.
Proof.
  eapply (proj2 (mir_fold_keeps (TV := sample_view) (sample_sum sample_i32 2 3))
            (inst_at MIR_RETURN None MIR_NO_VALUE [OPERAND_VALUE 1] (payload_constant zero_constant)) 1%N).
  - vm_compute. right. left.
  - left.
  - discriminate.
  - cbn. lia.
  - cbn. right. left.
  - reflexivity.
Defined.

(** Words of 64 bits are folded at 32.  Folding [2147483647 + 1] at
    [usize] leaves the constant [-2147483648], whose word is
    18446744071562067968, where the instruction computes 2147483648. *)
Example usize_folds_at_32_bits :
  insts <$> blocks (mir_fold (TV := sample_view) (sample_sum sample_usize 2147483647 1)) =
    [sample_sum_folded sample_usize (-2147483648)] /\
  constant_mvalue (TV := sample_view) sample_usize (constant_int sample_usize (-2147483648)) =
    Some (VInt 18446744071562067968) /\
  eval_int TYPE_USIZE MIR_ADD 2147483647 1 = Some 2147483648%Z.
Proof. vm_compute. done. Qed.
