(* ===== verification/HashMap.v ===== *)
(** * HashMap: the open-addressing hash table

    The functions [GAB_HASH_MAP] of [src/src/util/hash_map.h] stamps out, for
    any key type with a hash and an equality.  An entry is a slot that is
    empty, live or dead; indices mask a hash with [capacity - 1].

    The table is refined to a finite map: [represents] relates the two, and
    every operation of the code is shown to be the map's. *)

From S2P Require Import Prelude.
From Stdlib Require Import NArith.

Inductive Slot (K V : Type) :=
  | HASH_MAP_EMPTY
  | HASH_MAP_LIVE (key : K) (hash : N) (value : V)
  | HASH_MAP_DEAD.
Arguments HASH_MAP_EMPTY {K V}.
Arguments HASH_MAP_LIVE {K V}.
Arguments HASH_MAP_DEAD {K V}.

Record HashMap (K V : Type) := MkHashMap {
  entries : list (Slot K V);
  size : nat;
  occupied : nat;
}.
Arguments MkHashMap {K V}.
Arguments entries {K V}.
Arguments size {K V}.
Arguments occupied {K V}.

Definition capacity {K V} (m : HashMap K V) : nat := length (entries m).

(** [(capacity & (capacity - 1)) == 0], the table's assertion. *)
Definition power_of_two (n : nat) : bool :=
  bool_decide (0 < n) && (N.land (N.of_nat n) (N.of_nat n - 1) =? 0)%N.

Section hash_map.
Context {K V : Type} (key_hash : K -> N) (key_equals : K -> K -> bool).

#[local] Abbreviation slots := (list (Slot K V)).

(** A failed [assert] is [None]. *)
Definition map_init (cap : nat) : option (HashMap K V) :=
  if power_of_two cap then Some (MkHashMap (replicate cap HASH_MAP_EMPTY) 0 0) else None.

Definition mask (cap : nat) (hash : N) : nat := N.to_nat (N.land hash (N.of_nat cap - 1)).

(** The [for (;;)] of [probe]; [fuel] bounds its turns. *)
Fixpoint probe_from (fuel : nat) (l : slots) (idx : nat) (tombstone : option nat) (key : K) (hash : N) : option nat :=
  match fuel with
  | O => None
  | S fuel =>
      match l !! idx with
      | None => None
      | Some HASH_MAP_EMPTY => Some (default idx tombstone)
      | Some HASH_MAP_DEAD =>
          probe_from fuel l (mask (length l) (N.of_nat (idx + 1)))
            (match tombstone with None => Some idx | t => t end) key hash
      | Some (HASH_MAP_LIVE k h _) =>
          if (h =? hash)%N && key_equals key k then Some idx
          else probe_from fuel l (mask (length l) (N.of_nat (idx + 1))) tombstone key hash
      end
  end.

Definition probe (l : slots) (key : K) (hash : N) : option nat :=
  probe_from (length l) l (mask (length l) hash) None key hash.

(** [size >= capacity * 0.25] and [occupied >= capacity * 0.5]. *)
Definition resized_capacity (m : HashMap K V) : nat :=
  if bool_decide (capacity m <= 4 * size m) then capacity m * 2 else capacity m.
Definition is_crowded (m : HashMap K V) : bool := bool_decide (capacity m <= 2 * occupied m).

(** One live entry put into the new table. *)
Definition rehash (l : slots) (entry : Slot K V) : option slots :=
  match entry with
  | HASH_MAP_LIVE k h _ => i ← probe l k h; Some (<[i := entry]> l)
  | _ => Some l
  end.

Definition map_resize (m : HashMap K V) : option (HashMap K V) :=
  l ← foldl (fun acc entry => l ← acc; rehash l entry)
        (Some (replicate (resized_capacity m) HASH_MAP_EMPTY)) (entries m);
  Some (MkHashMap l (size m) (size m)).

(** The flag tells a pointer from [NULL]; [None] is a probe that does not end. *)
Definition map_insert (m : HashMap K V) (key : K) (value : V) : option (HashMap K V * bool) :=
  m ← (if is_crowded m then map_resize m else Some m);
  let hash := key_hash key in
  i ← probe (entries m) key hash;
  slot ← entries m !! i;
  match slot with
  | HASH_MAP_LIVE _ _ _ => Some (m, false)
  | HASH_MAP_EMPTY =>
      Some (MkHashMap (<[i := HASH_MAP_LIVE key hash value]> (entries m)) (S (size m)) (S (occupied m)), true)
  | HASH_MAP_DEAD =>
      Some (MkHashMap (<[i := HASH_MAP_LIVE key hash value]> (entries m)) (S (size m)) (occupied m), true)
  end.

Definition map_lookup (m : HashMap K V) (key : K) : option (option V) :=
  i ← probe (entries m) key (key_hash key);
  slot ← entries m !! i;
  Some (match slot with HASH_MAP_LIVE _ _ v => Some v | _ => None end).

Definition map_delete (m : HashMap K V) (key : K) : option (HashMap K V * bool) :=
  if bool_decide (size m = 0) then Some (m, false)
  else
    i ← probe (entries m) key (key_hash key);
    slot ← entries m !! i;
    match slot with
    | HASH_MAP_LIVE _ _ _ =>
        Some (MkHashMap (<[i := HASH_MAP_DEAD]> (entries m)) (size m - 1) (occupied m), true)
    | _ => Some (m, false)
    end.

(** A client's write through the pointer [map_lookup] returned it. *)
Definition map_assign (m : HashMap K V) (key : K) (value : V) : option (HashMap K V) :=
  i ← probe (entries m) key (key_hash key);
  slot ← entries m !! i;
  match slot with
  | HASH_MAP_LIVE k h _ => Some (MkHashMap (<[i := HASH_MAP_LIVE k h value]> (entries m)) (size m) (occupied m))
  | _ => None
  end.

(** The entries [GAB_HASH_MAP_FOR_EACH] visits, in order. *)
Definition live_entry (s : Slot K V) : option (K * V) :=
  match s with HASH_MAP_LIVE k _ v => Some (k, v) | _ => None end.
Definition map_entries (m : HashMap K V) : list (K * V) := omap live_entry (entries m).
End hash_map.

(** [hash_dj2b_cstr] over the bytes, read as [signed char]. *)
Definition hash_dj2b_cstr (str : list Z) : Z :=
  foldl (fun hash ch => to_u64 (to_u64 (Z.shiftl hash 5) + hash + ch)) 5381%Z str.

(** ** Probing order *)

(** The indices a probe visits from [start], once around the table. *)
Definition order (cap start : nat) : list nat := (fun k => (start + k) mod cap) <$> seq 0 cap.

Lemma mask_mod cap hash k : cap = 2 ^ k -> mask cap hash = N.to_nat (hash mod N.of_nat cap).
Proof.
  intros ->. unfold mask. f_equal.
  assert (Hp : N.of_nat (2 ^ k) = (2 ^ N.of_nat k)%N) by (rewrite Nat2N.inj_pow; done).
  rewrite Hp, <- N.land_ones. f_equal. by rewrite N.ones_equiv, N.pred_sub.
Qed.

Lemma mask_lt cap hash k : cap = 2 ^ k -> mask cap hash < cap.
Proof.
  intros Hc. rewrite (mask_mod cap hash k Hc). assert (0 < cap) by (subst; apply Nat.neq_0_lt_0, Nat.pow_nonzero; lia).
  pose proof (N.mod_lt hash (N.of_nat cap)). lia.
Qed.

Lemma mask_next cap idx k : cap = 2 ^ k -> mask cap (N.of_nat (idx + 1)) = (idx + 1) mod cap.
Proof.
  intros Hc. rewrite (mask_mod cap _ k Hc), <- Nat2N.inj_mod. apply Nat2N.id.
Qed.

Lemma power_of_two_pow n : power_of_two n = true -> exists k, n = 2 ^ k.
Proof.
  unfold power_of_two. intros [Hn%bool_decide_eq_true Hl%N.eqb_eq]%andb_true_iff.
  pose proof (N.log2_spec (N.of_nat n) ltac:(lia)) as [Hlo Hhi]. set (k := N.log2 (N.of_nat n)) in *.
  exists (N.to_nat k). apply Nat2N.inj. rewrite Nat2N.inj_pow, N2Nat.id. change (N.of_nat 2) with 2%N.
  destruct (N.lt_eq_cases (2 ^ k) (N.of_nat n)) as [H _]. destruct (H Hlo) as [Hlt|Heq]; [|done]. exfalso.
  assert (Ht : N.testbit (N.land (N.of_nat n) (N.of_nat n - 1)) k = true); [|by rewrite Hl, N.bits_0 in Ht].
  rewrite N.land_spec. apply andb_true_iff. split.
  - apply N.bit_log2. lia.
  - assert (Hk : k = N.log2 (N.of_nat n - 1)) by (symmetry; apply N.log2_unique; [lia|]; rewrite <- N.add_1_r in *; lia).
    rewrite Hk. apply N.bit_log2. lia.
Qed.

Lemma elem_of_order cap start i : start < cap -> i < cap -> i ∈ order cap start.
Proof.
  intros Hs Hi. apply list_elem_of_fmap.
  destruct (decide (start <= i)).
  - exists (i - start). split; [rewrite Nat.mod_small; lia|apply elem_of_seq; lia].
  - exists (i + cap - start). split; [|apply elem_of_seq; lia].
    replace (start + (i + cap - start)) with (i + 1 * cap) by lia. rewrite Nat.Div0.mod_add, Nat.mod_small; lia.
Qed.

Lemma NoDup_order cap start : start < cap -> NoDup (order cap start).
Proof.
  intros Hs. apply NoDup_fmap_2_strong; [|apply NoDup_seq].
  intros x y Hx%elem_of_seq Hy%elem_of_seq He.
  assert (forall x, x < cap -> (start + x) mod cap = if decide (start + x < cap) then start + x else start + x - cap) as Hm.
  { intros z Hz. case_decide; [by apply Nat.mod_small|].
    replace (start + z) with (start + z - cap + 1 * cap) at 1 by lia. rewrite Nat.Div0.mod_add, Nat.mod_small; lia. }
  rewrite !Hm in He by lia. repeat case_decide; lia.
Qed.

(** ** The table's invariant *)

Section table.
Context {K V Q : Type} `{Countable Q} (key_hash : K -> N) (key_equals : K -> K -> bool).

(** The equality of the client says which keys are the same: those with the same
    [key_norm]; and it may be made for some keys only, those with [key_ok]. *)
Context (key_norm : K -> Q) (key_ok : K -> Prop).
Hypothesis key_equals_spec : forall k k', key_ok k -> key_ok k' -> key_equals k k' = true <-> key_norm k = key_norm k'.
Hypothesis key_hash_spec : forall k k', key_ok k -> key_ok k' -> key_norm k = key_norm k' -> key_hash k = key_hash k'.

#[local] Abbreviation slots := (list (Slot K V)).
#[local] Abbreviation home l h := (mask (length (A:=Slot K V) l) h).

(** The slot stops a probe for the key: it is empty, or holds it. *)
Definition stops (l : slots) (key : K) (hash : N) (i : nat) : bool :=
  match l !! i with
  | Some HASH_MAP_EMPTY => true
  | Some (HASH_MAP_LIVE k h _) => (h =? hash)%N && key_equals key k
  | _ => false
  end.

Definition is_empty (l : slots) (i : nat) : Prop := l !! i = Some HASH_MAP_EMPTY.
Definition is_dead (l : slots) (i : nat) : Prop := l !! i = Some HASH_MAP_DEAD.
Definition live_at (l : slots) (i : nat) (k : K) (v : V) : Prop := exists h, l !! i = Some (HASH_MAP_LIVE k h v).
Definition live_in (l : slots) (k : K) (v : V) : Prop := exists i, live_at l i k v.

(** Every live entry has its key's hash, is found before any empty slot of its
    probing order, and no two live keys are the same. *)
Record table_ok (l : slots) : Prop := {
  ok_capacity : exists k, length l = 2 ^ k;
  ok_hash : forall i k h v, l !! i = Some (HASH_MAP_LIVE k h v) -> h = key_hash k;
  ok_reach : forall i k v pre post, live_at l i k v ->
    order (length l) (home l (key_hash k)) = pre ++ i :: post -> Forall (fun j => ~ is_empty l j) pre;
  ok_keys : forall i k v, live_at l i k v -> key_ok k;
  ok_unique : forall i j k k' v w, live_at l i k v -> live_at l j k' w -> key_norm k = key_norm k' -> i = j;
}.

(** *** Probing *)

Fixpoint probe_path (l : slots) (path : list nat) (tombstone : option nat) (key : K) (hash : N) : option nat :=
  match path with
  | [] => None
  | idx :: path =>
      match l !! idx with
      | None => None
      | Some HASH_MAP_EMPTY => Some (default idx tombstone)
      | Some HASH_MAP_DEAD =>
          probe_path l path (match tombstone with None => Some idx | t => t end) key hash
      | Some (HASH_MAP_LIVE k h _) =>
          if (h =? hash)%N && key_equals key k then Some idx else probe_path l path tombstone key hash
      end
  end.

Lemma probe_from_path fuel l k : length l = 2 ^ k -> forall idx tombstone key hash,
  idx < length l ->
  probe_from key_equals fuel l idx tombstone key hash =
  probe_path l ((fun j => (idx + j) mod length l) <$> seq 0 fuel) tombstone key hash.
Proof.
  intros Hc. induction fuel as [|fuel IH]; intros idx tombstone key hash Hlt; [done|].
  cbn [probe_from seq fmap list_fmap probe_path]. rewrite Nat.add_0_r, (Nat.mod_small idx) by done.
  rewrite (mask_next _ _ k Hc).
  assert (Hpos : (idx + 1) mod length l < length l) by (apply Nat.mod_upper_bound; lia).
  assert (Hp : (fun j => (idx + j) mod length l) <$> seq 1 fuel =
               (fun j => ((idx + 1) mod length l + j) mod length l) <$> seq 0 fuel).
  { rewrite <- (seq_shift fuel 0). rewrite <- list_fmap_compose. apply list_fmap_ext. intros _ j _. cbn.
    rewrite Nat.Div0.add_mod_idemp_l. f_equal. lia. }
  rewrite Hp. destruct (l !! idx) as [[|k' h v|]|]; try done; by rewrite !IH.
Qed.

Lemma probe_order l key hash k :
  length l = 2 ^ k -> probe key_equals l key hash = probe_path l (order (length l) (home l hash)) None key hash.
Proof. intros Hc. unfold probe. rewrite (probe_from_path _ _ k Hc) by by apply (mask_lt _ _ k). done. Qed.

(** What a probe returns at the first slot that stops it: the slot, or the
    first dead one before an empty slot. *)
Lemma probe_path_stops l key hash pre i post tombstone :
  (forall j, j ∈ pre ++ i :: post -> j < length l) ->
  Forall (fun j => stops l key hash j = false) pre -> stops l key hash i = true ->
  exists t, probe_path l (pre ++ i :: post) tombstone key hash = Some t /\
    (match l !! i with
     | Some HASH_MAP_EMPTY => t = i /\ tombstone = None \/ tombstone = Some t \/ (t ∈ pre /\ is_dead l t)
     | _ => t = i
     end).
Proof.
  intros Hin Hpre Hi. revert tombstone. induction pre as [|j pre IH]; intros tombstone.
  - cbn. unfold stops in Hi. destruct (l !! i) as [[|k h v|]|] eqn:Hs; try done.
    + exists (default i tombstone). split; [done|]. destruct tombstone; cbn; auto.
    + rewrite Hi. eauto.
  - apply Forall_cons in Hpre as [Hj Hpre].
    assert (Hin' : forall x, x ∈ pre ++ i :: post -> x < length l) by (intros; apply Hin; by right).
    cbn. unfold stops in Hj. destruct (l !! j) as [[|k h v|]|] eqn:Hs; try done.
    + rewrite Hj. destruct (IH Hin' Hpre tombstone) as (t & Ht & Hcase). exists t. split; [done|].
      destruct (l !! i) as [[]|]; try done. destruct Hcase as [?|[?|[? ?]]]; [by left|by right; left|].
      right. right. split; [by right|done].
    + destruct (IH Hin' Hpre (match tombstone with None => Some j | t => t end)) as (t & Ht & Hcase).
      exists t. split; [done|]. destruct (l !! i) as [[]|]; try done.
      destruct Hcase as [[? Htn]|[Htn|[? ?]]].
      * by destruct tombstone.
      * destruct tombstone as [t'|]; [by right; left|]. injection Htn as [= <-].
        right. right. split; [left|done].
      * right. right. split; [by right|done].
    + exfalso. apply lookup_ge_None in Hs. specialize (Hin j ltac:(left)). lia.
Qed.

Lemma order_lt n start j : start < n -> j ∈ order n start -> j < n.
Proof. intros Hs (k & -> & _)%list_elem_of_fmap. apply Nat.mod_upper_bound. lia. Qed.

(** The first element of a list that satisfies a test. *)
Lemma first_split {A} (f : A -> bool) l x :
  x ∈ l -> f x = true -> exists pre y post, l = pre ++ y :: post /\ Forall (fun z => f z = false) pre /\ f y = true.
Proof.
  induction l as [|z l IH]; intros Hx Hf; [by apply elem_of_nil in Hx|].
  destruct (f z) eqn:Hz; [exists [], z, l; by repeat split|].
  apply elem_of_cons in Hx as [->|Hx]; [congruence|].
  destruct (IH Hx Hf) as (pre & y & post & -> & Hpre & Hy). exists (z :: pre), y, post. repeat split; try done.
  by constructor.
Qed.

(** The probe of a key in a table with room: at the key's entry when it is
    live, and at a free slot from which the key is reachable when it is not. *)
Lemma probe_found l key k v i :
  table_ok l -> key_ok key -> live_at l i k v -> key_norm key = key_norm k ->
  probe key_equals l key (key_hash key) = Some i.
Proof.
  intros Hok Hkey Hlive Hnorm. pose proof (ok_keys l Hok i k v Hlive) as Hk. destruct Hlive as [h Hi].
  destruct (ok_capacity l Hok) as [c Hc]. rewrite (probe_order _ _ _ c Hc).
  rewrite (key_hash_spec key k Hkey Hk Hnorm).
  set (start := home l (key_hash k)). assert (Hstart : start < length l) by by apply (mask_lt _ _ c).
  pose proof (lookup_lt_Some _ _ _ Hi) as Hlt. pose proof (ok_hash l Hok _ _ _ _ Hi) as ->.
  assert (Hst : stops l key (key_hash k) i = true).
  { unfold stops. rewrite Hi, N.eqb_refl. by apply key_equals_spec. }
  destruct (first_split (stops l key (key_hash k)) (order (length l) start) i) as (pre & j & post & Ho & Hpre & Hj);
    [by apply elem_of_order|done|].
  assert (j = i) as ->.
  { assert (Hj' : is_empty l j \/ exists k' w, live_at l j k' w /\ key_norm key = key_norm k').
    { unfold stops in Hj. destruct (l !! j) as [[|k' h w|]|] eqn:Hs; try done; [by left|].
      apply andb_true_iff in Hj as [_ Hj]. assert (Hl : live_at l j k' w) by by exists h.
      apply key_equals_spec in Hj; [|done|by eapply (ok_keys l Hok)]. right. by exists k', w. }
    destruct Hj' as [He|(k' & w & Hw & Hn)].
    2:{ eapply (ok_unique l Hok); [exact Hw|exists (key_hash k); exact Hi|congruence]. }
    destruct (decide (j = i)) as [->|Hne]; [done|]. exfalso.
    (* an empty slot before the entry *)
    assert (Hip : i ∈ post).
    { assert (i ∈ order (length l) start) as Hio by by apply elem_of_order.
      rewrite Ho in Hio. apply elem_of_app in Hio as [Hio|[->|?]%elem_of_cons]; [|done|done].
      rewrite Forall_forall in Hpre. specialize (Hpre i Hio). congruence. }
    apply list_elem_of_split in Hip as (post1 & post2 & ->).
    pose proof (ok_reach l Hok i k v (pre ++ j :: post1) post2) as Hr.
    rewrite <- app_assoc in Hr. cbn in Hr. specialize (Hr ltac:(exists (key_hash k); exact Hi) Ho).
    apply Forall_app in Hr as [_ Hr]. apply Forall_cons in Hr as [Hr _]. done. }
  destruct (probe_path_stops l key (key_hash k) pre i post None) as (t & Ht & Hcase); [|done|done|].
  - intros x Hx. rewrite <- Ho in Hx. by apply (order_lt _ start).
  - rewrite Ho, Ht. rewrite Hi in Hcase. by subst t.
Qed.

Lemma probe_free l key e :
  table_ok l -> key_ok key -> is_empty l e -> (forall i k v, live_at l i k v -> key_norm k <> key_norm key) ->
  exists t, probe key_equals l key (key_hash key) = Some t /\ (is_empty l t \/ is_dead l t) /\
    exists pre post, order (length l) (home l (key_hash key)) = pre ++ t :: post /\ Forall (fun j => ~ is_empty l j) pre.
Proof.
  intros Hok Hkey He Hno. destruct (ok_capacity l Hok) as [c Hc]. rewrite (probe_order _ _ _ c Hc).
  set (start := home l (key_hash key)). assert (Hstart : start < length l) by by apply (mask_lt _ _ c).
  destruct (first_split (stops l key (key_hash key)) (order (length l) start) e) as (pre & j & post & Ho & Hpre & Hj).
  { apply elem_of_order; [done|]. by eapply lookup_lt_Some. }
  { unfold stops. by rewrite He. }
  assert (Hje : is_empty l j).
  { unfold stops in Hj. destruct (l !! j) as [[|k' h w|]|] eqn:Hs; try done.
    apply andb_true_iff in Hj as [_ Hj]. assert (Hl : live_at l j k' w) by by exists h.
    apply key_equals_spec in Hj; [|done|by eapply (ok_keys l Hok)]. by destruct (Hno j k' w Hl). }
  assert (Hpre' : Forall (fun z => ~ is_empty l z) pre).
  { eapply Forall_impl; [exact Hpre|]. intros z Hz Hze. unfold stops in Hz. by rewrite Hze in Hz. }
  destruct (probe_path_stops l key (key_hash key) pre j post None) as (t & Ht & Hcase); [|done|done|].
  { intros x Hx. rewrite <- Ho in Hx. by apply (order_lt _ start). }
  exists t. rewrite Ho, Ht. split; [done|]. rewrite Hje in Hcase.
  destruct Hcase as [[-> _]|[?|[Htp Hd]]]; [|done|].
  - split; [by left|]. by exists pre, post.
  - split; [by right|]. apply list_elem_of_split in Htp as (pre1 & pre2 & ->).
    exists pre1, (pre2 ++ j :: post). rewrite <- app_assoc. split; [done|]. by apply Forall_app in Hpre' as [? _].
Qed.

(** *** Writing a slot *)

Definition is_live_slot (s : Slot K V) : bool := match s with HASH_MAP_LIVE _ _ _ => true | _ => false end.
Definition is_used_slot (s : Slot K V) : bool := match s with HASH_MAP_EMPTY => false | _ => true end.
Definition count (f : Slot K V -> bool) (l : slots) : nat := sum_list_with (fun s => Nat.b2n (f s)) l.

Lemma count_insert f l i x y :
  l !! i = Some x -> count f (<[i := y]> l) + Nat.b2n (f x) = count f l + Nat.b2n (f y).
Proof.
  unfold count. revert i. induction l as [|z l IH]; intros [|i] Hi; try done.
  - injection Hi as ->. cbn. lia.
  - specialize (IH i Hi). change (<[S i := y]> (z :: l)) with (z :: <[i := y]> l). cbn [sum_list_with]. lia.
Qed.

Lemma count_empty_slot l : count is_used_slot l < length l -> exists e, is_empty l e.
Proof.
  unfold count. induction l as [|z l IH]; cbn; [lia|]. intros Hlt. destruct (is_used_slot z) eqn:Hz.
  - destruct IH as [e He]; [cbn in Hlt; lia|]. by exists (S e).
  - exists 0. unfold is_empty. cbn. by destruct z.
Qed.

Lemma count_live_used l : count is_live_slot l <= count is_used_slot l.
Proof. unfold count. induction l as [|[] l IH]; cbn; lia. Qed.

Lemma lookup_insert_slot (l : slots) i x s j :
  <[i := x]> l !! j = Some s -> (i = j /\ s = x) \/ (i <> j /\ l !! j = Some s).
Proof.
  destruct (decide (i = j)) as [->|Hne].
  - intros Hs. left. split; [done|]. assert (j < length l) by (apply lookup_lt_Some in Hs; by rewrite length_insert in Hs).
    rewrite list_lookup_insert_eq in Hs by done. congruence.
  - rewrite list_lookup_insert_ne by done. auto.
Qed.

Lemma live_at_insert l i key v j k w :
  i < length l -> live_at (<[i := HASH_MAP_LIVE key (key_hash key) v]> l) j k w <->
  (i = j /\ k = key /\ w = v) \/ (i <> j /\ live_at l j k w).
Proof.
  intros Hi. split.
  - intros [h Hh]. apply lookup_insert_slot in Hh as [[-> [= -> -> ->]]|[? ?]]; [by left|right; split; [done|by exists h]].
  - intros [(-> & -> & ->)|[Hne [h Hh]]].
    + exists (key_hash key). by apply list_lookup_insert_eq.
    + exists h. by rewrite list_lookup_insert_ne.
Qed.

Lemma live_at_free l i k v : live_at l i k v -> ~ is_empty l i /\ ~ is_dead l i.
Proof. unfold is_empty, is_dead. intros [h ->]. done. Qed.

(** An entry written to a free slot its key reaches. *)
Lemma place_ok l i key v pre post :
  table_ok l -> key_ok key -> is_empty l i \/ is_dead l i ->
  (forall j k w, live_at l j k w -> key_norm k <> key_norm key) ->
  order (length l) (home l (key_hash key)) = pre ++ i :: post -> Forall (fun j => ~ is_empty l j) pre ->
  let l' := <[i := HASH_MAP_LIVE key (key_hash key) v]> l in
  table_ok l' /\ forall k w, live_in l' k w <-> (k = key /\ w = v) \/ live_in l k w.
Proof.
  intros Hok Hkey Hfree Hno Ho Hpre l'.
  assert (Hi : i < length l) by (destruct Hfree; by eapply lookup_lt_Some).
  assert (Hnlive : forall k w, ~ live_at l i k w) by (intros k w Hl%live_at_free; tauto).
  assert (Hempty : forall j, is_empty l' j -> is_empty l j).
  { intros j Hj. by apply lookup_insert_slot in Hj as [[_ ?]|[_ ?]]. }
  assert (Hlen : length l' = length l) by apply length_insert.
  split; [split|].
  - rewrite Hlen. apply Hok.
  - intros j k h w Hj. apply lookup_insert_slot in Hj as [[_ [= -> -> ->]]|[_ Hj]]; [done|]. by eapply (ok_hash l Hok).
  - intros j k w p q Hl Hp. rewrite Hlen in Hp.
    assert (Hq : Forall (fun j => ~ is_empty l j) p).
    { apply (live_at_insert l) in Hl as [(<- & -> & ->)|[_ Hl]]; [|by eapply (ok_reach l Hok)|done].
      rewrite Ho in Hp.
      assert (Hnd : NoDup (pre ++ i :: post)).
      { rewrite <- Ho. apply NoDup_order. destruct (ok_capacity l Hok) as [c Hc]. by apply (mask_lt _ _ c). }
      destruct (NoDup_app pre (i :: post)) as [Hnda _]. destruct (Hnda Hnd) as (_ & Hnp & Hnq).
      apply NoDup_cons in Hnq as [Hnq _].
      apply app_eq_inv in Hp as [(z & -> & Hz)|(z & -> & Hz)].
      - destruct z as [|y z]; [by rewrite app_nil_r in Hpre|]. injection Hz as <- ->.
        exfalso. apply (Hnp i); [|left]. apply elem_of_app. right. left.
      - destruct z as [|y z]; [by rewrite app_nil_r|]. injection Hz as <- ->.
        exfalso. apply Hnq, elem_of_app. right. left. }
    eapply Forall_impl; [exact Hq|]. cbn. intros x Hx Hx'. by apply Hx, Hempty.
  - intros j k w [(_ & -> & _)|[_ Hj]]%live_at_insert; [done|by eapply (ok_keys l Hok)|done].
  - intros j j' k k' w w' Hj Hj' Hn. apply live_at_insert in Hj as [(<- & -> & ->)|[Hne Hj]]; [..|done];
      apply live_at_insert in Hj' as [(<- & Hk & _)|[Hne' Hj']]; try done.
    + by destruct (Hno j' k' w').
    + subst k'. by destruct (Hno j k w).
    + by eapply (ok_unique l Hok).
  - intros k w. unfold live_in, l'. setoid_rewrite live_at_insert; [|done..]. split.
    + intros (j & [(_ & -> & ->)|[_ Hj]]); [by left|right; by exists j].
    + intros [[-> ->]|[j Hj]]; [exists i; by left|]. exists j. right. split; [|done].
      intros ->. by eapply Hnlive.
Qed.

(** A live slot marked dead. *)
Lemma bury_ok l i key v :
  table_ok l -> live_at l i key v ->
  table_ok (<[i := HASH_MAP_DEAD]> l) /\
  forall k w, live_in (<[i := HASH_MAP_DEAD]> l) k w <-> key_norm k <> key_norm key /\ live_in l k w.
Proof.
  intros Hok Hlive. set (l' := <[i := HASH_MAP_DEAD]> l).
  assert (Hat : forall j k w, live_at l' j k w <-> i <> j /\ live_at l j k w).
  { intros j k w. split.
    - intros [h Hh]. apply lookup_insert_slot in Hh as [[_ ?]|[? ?]]; [done|]. split; [done|by exists h].
    - intros [Hne [h Hh]]. exists h. unfold l'. by rewrite list_lookup_insert_ne. }
  assert (Hempty : forall j, is_empty l' j -> is_empty l j).
  { intros j Hj. by apply lookup_insert_slot in Hj as [[_ ?]|[_ ?]]. }
  assert (Hlen : length l' = length l) by apply length_insert.
  split; [split|].
  - rewrite Hlen. apply Hok.
  - intros j k h w Hj. apply lookup_insert_slot in Hj as [[_ ?]|[_ Hj]]; [done|]. by eapply (ok_hash l Hok).
  - intros j k w p q [_ Hl]%Hat Hp. rewrite Hlen in Hp.
    eapply Forall_impl; [by eapply (ok_reach l Hok)|]. cbn. intros x Hx Hx'. by apply Hx, Hempty.
  - intros j k w [_ Hj]%Hat. by eapply (ok_keys l Hok).
  - intros j j' k k' w w' [_ Hj]%Hat [_ Hj']%Hat. by eapply (ok_unique l Hok).
  - intros k w. unfold live_in. setoid_rewrite Hat. split.
    + intros (j & Hne & Hj). split; [|by exists j]. intros Hn. apply Hne. by eapply (ok_unique l Hok).
    + intros (Hne & j & Hj). exists j. split; [|done]. intros ->. apply Hne.
      destruct Hlive as [h Hh], Hj as [h' Hh']. rewrite Hh in Hh'. by injection Hh' as ->.
Qed.

(** *** Moving the entries to a new table *)

Lemma table_ok_empty c : table_ok (replicate (2 ^ c) HASH_MAP_EMPTY) /\
  forall k v, ~ live_in (replicate (2 ^ c) HASH_MAP_EMPTY) k v.
Proof.
  assert (Hno : forall i k h v, ~ (replicate (2 ^ c) HASH_MAP_EMPTY) !! i = Some (@HASH_MAP_LIVE K V k h v)).
  { intros i k h v Hi. apply lookup_replicate in Hi as [? _]. done. }
  split; [split|].
  - exists c. by rewrite length_replicate.
  - intros i k h v Hi. by apply Hno in Hi.
  - intros i k v pre post [h Hi]. by apply Hno in Hi.
  - intros i k v [h Hi]. by apply Hno in Hi.
  - intros i j k k' v w [h Hi]. by apply Hno in Hi.
  - intros k v (i & h & Hi). by apply Hno in Hi.
Qed.

Lemma live_in_elem l k v : live_in l k v <-> exists h, HASH_MAP_LIVE k h v ∈ l.
Proof.
  split.
  - intros (i & h & Hi). exists h. by eapply list_elem_of_lookup_2.
  - intros (h & [i Hi]%list_elem_of_lookup). by exists i, h.
Qed.

Lemma keys_NoDup l : table_ok l -> NoDup (key_norm <$> (omap live_entry l).*1).
Proof.
  intros Hok. pose proof (ok_unique l Hok) as Hu. clear Hok.
  induction l as [|s l IH]; [constructor|].
  assert (Hl : NoDup (key_norm <$> (omap live_entry l).*1)).
  { apply IH. intros i j k k' v w Hi Hj Hn. cut (S i = S j); [by intros [=]|]. by eapply (Hu (S i) (S j)). }
  destruct s as [|k h v|]; cbn; try done. constructor; [|done].
  intros (k' & Hk & Hin)%list_elem_of_fmap. apply list_elem_of_fmap in Hin as ([k2 w] & -> & Hin). cbn in Hk.
  apply list_elem_of_omap in Hin as ([|k3 h' w'|] & Hin & [=]). subst k3 w'.
  apply list_elem_of_lookup in Hin as [j Hj].
  specialize (Hu 0 (S j) k k2 v w ltac:(by exists h) ltac:(by exists h') Hk). done.
Qed.

Lemma rehash_all es l :
  table_ok l -> (forall i, ~ is_dead l i) -> NoDup (key_norm <$> (omap live_entry es).*1) ->
  (forall k h v, HASH_MAP_LIVE k h v ∈ es ->
     h = key_hash k /\ key_ok k /\ forall k' w, live_in l k' w -> key_norm k' <> key_norm k) ->
  count is_used_slot l + count is_live_slot es < length l ->
  exists l', foldl (fun acc entry => l ← acc; rehash key_equals l entry) (Some l) es = Some l' /\
    table_ok l' /\ length l' = length l /\
    (forall k v, live_in l' k v <-> live_in l k v \/ live_in es k v) /\
    count is_used_slot l' = count is_used_slot l + count is_live_slot es /\
    count is_live_slot l' = count is_live_slot l + count is_live_slot es.
Proof.
  revert l. induction es as [|s es IH]; intros l Hok Hdead Hnd Hes Hroom.
  { exists l. unfold count. cbn. split; [done|]. split; [done|]. split; [done|]. split; [|lia].
    intros k v. split; intros Hin; [by left|]. destruct Hin as [?|[i [h Hi]]]; done. }
  assert (Htail : forall l1, table_ok l1 -> (forall i, ~ is_dead l1 i) -> length l1 = length l ->
    (forall k v, live_in l1 k v <-> live_in l k v \/ live_entry s = Some (k, v)) ->
    count is_used_slot l1 = count is_used_slot l + Nat.b2n (is_live_slot s) ->
    count is_live_slot l1 = count is_live_slot l + Nat.b2n (is_live_slot s) ->
    exists l', foldl (fun acc entry => l ← acc; rehash key_equals l entry) (Some l1) es = Some l' /\
    table_ok l' /\ length l' = length l /\
    (forall k v, live_in l' k v <-> live_in l k v \/ live_in (s :: es) k v) /\
    count is_used_slot l' = count is_used_slot l + count is_live_slot (s :: es) /\
    count is_live_slot l' = count is_live_slot l + count is_live_slot (s :: es)).
  { intros l1 Hok1 Hdead1 Hlen1 Hlive1 Hused1 Hcount1. unfold count in *. cbn [sum_list_with] in *.
    destruct (IH l1 Hok1 Hdead1) as (l' & Hf & Hok' & Hlen' & Hlive' & Hused' & Hcount').
    - cbn in Hnd. destruct (live_entry s); [|done]. by apply NoDup_cons in Hnd as [_ ?].
    - intros k h v Hin. destruct (Hes k h v) as (-> & Hk & Hno); [by right|]. do 2 (split; [done|]).
      intros k' w [Hl|Hs]%Hlive1; [by apply (Hno k' w)|]. cbn in Hnd. rewrite Hs in Hnd. cbn in Hnd.
      apply NoDup_cons in Hnd as [Hnk _]. intros Hn. apply Hnk. rewrite Hn. apply list_elem_of_fmap_2.
      apply list_elem_of_fmap. exists (k, v). split; [done|]. apply list_elem_of_omap. by eexists.
    - unfold count in *. lia.
    - exists l'. split; [done|]. split; [done|]. split; [congruence|]. split; [|unfold count in *; lia].
      intros k v. rewrite Hlive', Hlive1, !live_in_elem. setoid_rewrite elem_of_cons. split.
      + intros [[[h ?]|Hs]|[h ?]]; [by left; exists h| |by right; exists h; right].
        right. destruct s as [|k' h v'|]; try done. injection Hs as -> ->. exists h. by left.
      + intros [?|[h [<-|?]]]; [by left; left|by left; right|by right; exists h]. }
  cbn [foldl mbind option_bind]. destruct s as [|k h v|]; cbn [rehash].
  - apply Htail; [done..| |cbn; lia|cbn; lia]. intros k v. cbn. split; [by left|]. by intros [|].
  - destruct (Hes k h v) as (-> & Hk & Hno); [by left|].
    assert (Hno' : forall i k' w, live_at l i k' w -> key_norm k' <> key_norm k) by (intros i k' w Hi; apply (Hno k' w); by exists i).
    destruct (count_empty_slot l) as [e He]; [unfold count in *; cbn in *; lia|].
    destruct (probe_free l k e Hok Hk He Hno') as (t & Ht & Hfree & pre & post & Ho & Hpre).
    unfold rehash. rewrite Ht. cbn [mbind option_bind].
    destruct (place_ok l t k v pre post Hok Hk Hfree Hno' Ho Hpre) as [Hok1 Hlive1].
    destruct Hfree as [Hfree|Hd]; [|by apply Hdead in Hd].
    pose proof (count_insert is_used_slot l t _ (HASH_MAP_LIVE k (key_hash k) v) Hfree) as Hused.
    pose proof (count_insert is_live_slot l t _ (HASH_MAP_LIVE k (key_hash k) v) Hfree) as Hcount.
    cbn in Hused, Hcount. apply Htail; [done| |apply length_insert| |cbn; lia|cbn; lia].
    + intros i Hi. apply lookup_insert_slot in Hi as [[_ ?]|[_ Hi]]; [done|by apply Hdead in Hi].
    + intros k' v'. rewrite Hlive1. cbn. split; [intros [[-> ->]|?]|intros [?|[= -> ->]]]; auto.
  - apply Htail; [done..| |cbn; lia|cbn; lia]. intros k v. cbn. split; [by left|]. by intros [|].
Qed.

(** ** The map a table stands for *)

(** A table in use: it satisfies the invariant, its counters count, and at most
    half of it is used, which leaves a probe an empty slot to end at. *)
Record represents (m : HashMap K V) (g : gmap Q V) : Prop := {
  rep_ok : table_ok (entries m);
  rep_size : size m = count is_live_slot (entries m);
  rep_occupied : occupied m = count is_used_slot (entries m);
  rep_room : 2 <= capacity m /\ 2 * occupied m <= capacity m;
  rep_live : forall q v, g !! q = Some v <-> exists k, key_norm k = q /\ live_in (entries m) k v;
}.

Lemma represents_empty_slot m g : represents m g -> exists e, is_empty (entries m) e.
Proof.
  intros Hr. apply count_empty_slot. rewrite <- (rep_occupied m g Hr). pose proof (rep_room m g Hr).
  unfold capacity in *. lia.
Qed.

Lemma represents_absent m g key :
  represents m g -> g !! key_norm key = None -> forall i k v, live_at (entries m) i k v -> key_norm k <> key_norm key.
Proof.
  intros Hr Hg i k v Hi Hn. assert (g !! key_norm key = Some v); [|congruence].
  apply (rep_live m g Hr). exists k. split; [done|]. by exists i.
Qed.

Lemma map_init_represents c :
  exists m, map_init (2 ^ S c) = Some m /\ represents m (∅ : gmap Q V).
Proof.
  unfold map_init. assert (Hp : power_of_two (2 ^ S c) = true).
  { unfold power_of_two. apply andb_true_iff. split.
    - apply bool_decide_eq_true. apply Nat.neq_0_lt_0, Nat.pow_nonzero. lia.
    - apply N.eqb_eq. rewrite Nat2N.inj_pow. change (N.of_nat 2) with 2%N.
      rewrite <- N.pred_sub, <- N.ones_equiv, N.land_ones. by apply N.Div0.mod_same. }
  rewrite Hp. eexists. split; [done|]. destruct (table_ok_empty (S c)) as [Hok Hno].
  assert (Hcount : forall f n, f HASH_MAP_EMPTY = false -> count f (replicate n HASH_MAP_EMPTY) = 0).
  { intros f n Hf. unfold count. induction n; cbn; [done|]. by rewrite Hf. }
  split; cbn [entries size occupied]; unfold capacity; cbn [entries]; rewrite ?length_replicate.
  - done.
  - by rewrite Hcount.
  - by rewrite Hcount.
  - cbn. pose proof (Nat.pow_nonzero 2 c). lia.
  - intros q v. rewrite lookup_empty. split; [done|]. intros (k & _ & Hl). by apply Hno in Hl.
Qed.

Lemma resized_capacity_pow (m : HashMap K V) k : capacity m = 2 ^ k -> exists c, resized_capacity m = 2 ^ c.
Proof.
  intros Hk. unfold resized_capacity. case_bool_decide; [exists (S k)|by exists k]. rewrite Hk. cbn. lia.
Qed.

Lemma map_resize_represents m g :
  represents m g ->
  exists m', map_resize key_equals m = Some m' /\ represents m' g /\ is_crowded m' = false.
Proof.
  intros Hr. pose proof (rep_ok m g Hr) as Hok. destruct (ok_capacity _ Hok) as [k Hk].
  destruct (resized_capacity_pow m k Hk) as [c Hc]. destruct (table_ok_empty c) as [Hok0 Hno0].
  pose proof (rep_room m g Hr) as [Hcap _]. pose proof (rep_size m g Hr) as Hsize.
  assert (Hlt : 2 * size m < resized_capacity m).
  { pose proof (count_live_used (entries m)). pose proof (rep_occupied m g Hr). pose proof (rep_room m g Hr).
    unfold resized_capacity. case_bool_decide; lia. }
  assert (Hz : forall f, f HASH_MAP_EMPTY = false -> count f (replicate (2 ^ c) HASH_MAP_EMPTY) = 0).
  { intros f Hf. unfold count. generalize (2 ^ c). intros n. induction n; cbn; [done|]. by rewrite Hf. }
  destruct (rehash_all (entries m) (replicate (2 ^ c) HASH_MAP_EMPTY)) as (l & Hf & Hok' & Hlen & Hlive & Hused & Hcount).
  - done.
  - intros i Hi. apply lookup_replicate in Hi as [? _]. done.
  - by apply keys_NoDup.
  - intros k' h v [i Hi]%list_elem_of_lookup. split; [by eapply (ok_hash _ Hok)|].
    split; [eapply (ok_keys _ Hok i k' v); by exists h|]. intros k2 w Hl. by apply Hno0 in Hl.
  - rewrite Hz by done. rewrite length_replicate, <- Hsize, <- Hc. lia.
  - rewrite length_replicate, <- Hc in Hlen. rewrite Hz in Hused, Hcount by done.
    exists (MkHashMap l (size m) (size m)). unfold map_resize. rewrite Hc, Hf. split; [done|].
    unfold is_crowded. split; [split|]; cbn [entries size occupied]; unfold capacity; cbn [entries occupied]; try done.
    + by rewrite Hcount.
    + by rewrite Hused.
    + rewrite Hlen. split; [|lia]. unfold resized_capacity. case_bool_decide; lia.
    + intros q v. rewrite (rep_live m g Hr). setoid_rewrite Hlive. split.
      * intros (k' & Hq & Hl). exists k'. by auto.
      * intros (k' & Hq & [Hl|Hl]); [by apply Hno0 in Hl|by exists k'].
    + apply bool_decide_eq_false. lia.
Qed.

(** A live key's slot. *)
Lemma represents_probe_live m g key v :
  represents m g -> key_ok key -> g !! key_norm key = Some v ->
  exists i k, probe key_equals (entries m) key (key_hash key) = Some i /\ key_norm k = key_norm key /\
    entries m !! i = Some (HASH_MAP_LIVE k (key_hash k) v).
Proof.
  intros Hr Hkey Hg. destruct (rep_live m g Hr (key_norm key) v) as [Hl _].
  destruct (Hl Hg) as (k & Hn & i & h & Hi). pose proof (ok_hash _ (rep_ok m g Hr) _ _ _ _ Hi) as ->.
  exists i, k. split; [|done]. apply (probe_found _ key k v); [by eapply rep_ok|done|by exists (key_hash k)|done].
Qed.

Lemma map_lookup_represents m g key :
  represents m g -> key_ok key -> map_lookup key_hash key_equals m key = Some (g !! key_norm key).
Proof.
  intros Hr Hkey. unfold map_lookup. destruct (g !! key_norm key) as [v|] eqn:Hg.
  - destruct (represents_probe_live m g key v Hr Hkey Hg) as (i & k & -> & _ & Hi). cbn. by rewrite Hi.
  - destruct (represents_empty_slot m g Hr) as [e He].
    destruct (probe_free _ key e (rep_ok m g Hr) Hkey He (represents_absent m g key Hr Hg)) as (t & -> & [Ht|Ht] & _);
      cbn; by rewrite Ht.
Qed.

(** An insertion into a table that has room. *)
Lemma place_represents m g key v t s pre post :
  represents m g -> key_ok key -> g !! key_norm key = None -> 2 * occupied m < capacity m ->
  entries m !! t = Some s -> is_empty (entries m) t \/ is_dead (entries m) t ->
  order (length (entries m)) (home (entries m) (key_hash key)) = pre ++ t :: post ->
  Forall (fun j => ~ is_empty (entries m) j) pre ->
  represents (MkHashMap (<[t := HASH_MAP_LIVE key (key_hash key) v]> (entries m)) (S (size m))
    (if is_used_slot s then occupied m else S (occupied m))) (<[key_norm key := v]> g).
Proof.
  intros Hr Hkey Hg Hroom Hs Hfree Ho Hpre. pose proof (represents_absent m g key Hr Hg) as Hno.
  destruct (place_ok _ t key v pre post (rep_ok m g Hr) Hkey Hfree Hno Ho Hpre) as [Hok' Hlive].
  pose proof (count_insert is_used_slot _ t _ (HASH_MAP_LIVE key (key_hash key) v) Hs) as Hused.
  pose proof (count_insert is_live_slot _ t _ (HASH_MAP_LIVE key (key_hash key) v) Hs) as Hcount.
  pose proof (rep_size m g Hr). pose proof (rep_occupied m g Hr). pose proof (rep_room m g Hr) as [Hcap _].
  destruct (ok_capacity _ (rep_ok m g Hr)) as [c Hc].
  assert (Heven : 2 * S (occupied m) <= capacity m).
  { unfold capacity in *. destruct c as [|c]; [cbn in Hc; lia|]. cbn in Hc. lia. }
  assert (Hslot : is_live_slot s = false).
  { unfold is_empty, is_dead in Hfree. rewrite Hs in Hfree. by destruct Hfree as [[= ->]|[= ->]]. }
  rewrite Hslot in Hcount. cbn in Hcount, Hused.
  split; cbn [entries size occupied]; unfold capacity; cbn [entries]; rewrite ?length_insert.
  - done.
  - lia.
  - destruct (is_used_slot s); cbn in Hused; lia.
  - fold (capacity m). destruct (is_used_slot s); lia.
  - intros q w. rewrite lookup_insert_Some, (rep_live m g Hr). setoid_rewrite Hlive. split.
    + intros [[<- <-]|(_ & k & Hq & Hl)]; [exists key; by auto|exists k; by auto].
    + intros (k & <- & [[-> ->]|Hl]); [by left|]. right. split; [|by exists k].
      destruct Hl as [i Hi]. by intros Hn%eq_sym%(Hno i k w).
Qed.

Lemma map_insert_represents m g key v :
  represents m g -> key_ok key ->
  exists m', map_insert key_hash key_equals m key v = Some (m', bool_decide (g !! key_norm key = None)) /\
    represents m' (match g !! key_norm key with None => <[key_norm key := v]> g | Some _ => g end).
Proof.
  intros Hr0 Hkey. unfold map_insert.
  assert (Hm : exists m1, (if is_crowded m then map_resize key_equals m else Some m) = Some m1 /\
             represents m1 g /\ is_crowded m1 = false).
  { destruct (is_crowded m) eqn:Hc; [|by exists m]. by apply map_resize_represents. }
  destruct Hm as (m1 & -> & Hr & Hc%bool_decide_eq_false). cbn [mbind option_bind].
  destruct (g !! key_norm key) as [w|] eqn:Hg.
  - destruct (represents_probe_live m1 g key w Hr Hkey Hg) as (i & k & -> & _ & Hi). cbn. rewrite Hi. cbn. by exists m1.
  - destruct (represents_empty_slot m1 g Hr) as [e He].
    destruct (probe_free _ key e (rep_ok m1 g Hr) Hkey He (represents_absent m1 g key Hr Hg))
      as (t & -> & Hfree & pre & post & Ho & Hpre). cbn [mbind option_bind].
    pose proof Hfree as Hfree'. unfold is_empty, is_dead in Hfree'. destruct Hfree' as [Ht|Ht]; rewrite Ht;
      cbn [mbind option_bind]; eexists; (split; [done|]).
    + apply (place_represents m1 g key v t HASH_MAP_EMPTY pre post Hr Hkey Hg); try done; lia.
    + apply (place_represents m1 g key v t HASH_MAP_DEAD pre post Hr Hkey Hg); try done; lia.
Qed.

(** A value written over another of its key. *)
Lemma assign_ok l i key v w :
  table_ok l -> live_at l i key w ->
  let l' := <[i := HASH_MAP_LIVE key (key_hash key) v]> l in
  table_ok l' /\ forall k x, live_in l' k x <-> (k = key /\ x = v) \/ (live_in l k x /\ key_norm k <> key_norm key).
Proof.
  intros Hok Hlive l'. pose proof Hlive as [h Hh]. assert (Hi : i < length l) by (by eapply lookup_lt_Some).
  assert (Hempty : forall j, is_empty l' j -> is_empty l j).
  { intros j Hj. by apply lookup_insert_slot in Hj as [[_ ?]|[_ ?]]. }
  assert (Hold : forall j k x, live_at l' j k x -> exists y, live_at l j k y).
  { intros j k x [(<- & -> & ->)|[_ Hj]]%live_at_insert; [by exists w|by exists x|done]. }
  assert (Hlen : length l' = length l) by apply length_insert.
  split; [split|].
  - rewrite Hlen. apply Hok.
  - intros j k h' x Hj. apply lookup_insert_slot in Hj as [[_ [= -> -> ->]]|[_ Hj]]; [done|]. by eapply (ok_hash l Hok).
  - intros j k x p q [y Hl]%Hold Hp. rewrite Hlen in Hp.
    eapply Forall_impl; [by eapply (ok_reach l Hok)|]. cbn. intros z Hz Hz'. by apply Hz, Hempty.
  - intros j k x [y Hl]%Hold. by eapply (ok_keys l Hok).
  - intros j j' k k' x x' [y Hj]%Hold [y' Hj']%Hold. by eapply (ok_unique l Hok).
  - intros k x. unfold live_in. split.
    + intros (j & [(_ & -> & ->)|[Hne Hj]]%live_at_insert); [by left| |done]. right. split; [by exists j|].
      intros Hn. apply Hne. symmetry. by eapply (ok_unique l Hok).
    + intros [[-> ->]|[[j Hj] Hn]]; [exists i; apply live_at_insert; [done|by left]|]. exists j. apply live_at_insert; [done|]. right.
      split; [|done]. intros <-. apply Hn. destruct Hj as [h' Hj]. congruence.
Qed.

Lemma map_assign_represents m g key v w :
  represents m g -> key_ok key -> g !! key_norm key = Some w ->
  exists m', map_assign key_hash key_equals m key v = Some m' /\ represents m' (<[key_norm key := v]> g).
Proof.
  intros Hr Hkey Hg. destruct (represents_probe_live m g key w Hr Hkey Hg) as (i & k & Hp & Hn & Hi).
  unfold map_assign. rewrite Hp. cbn [mbind option_bind]. rewrite Hi. cbn [mbind option_bind]. eexists. split; [done|].
  assert (Hlive : live_at (entries m) i k w) by (by exists (key_hash k)).
  destruct (assign_ok _ i k v w (rep_ok m g Hr) Hlive) as [Hok' Hin].
  pose proof (count_insert is_live_slot _ i _ (HASH_MAP_LIVE k (key_hash k) v) Hi) as Hcount.
  pose proof (count_insert is_used_slot _ i _ (HASH_MAP_LIVE k (key_hash k) v) Hi) as Hused. cbn in Hcount, Hused.
  pose proof (rep_size m g Hr). pose proof (rep_occupied m g Hr). pose proof (rep_room m g Hr).
  split; cbn [entries size occupied]; unfold capacity; cbn [entries]; rewrite ?length_insert; try done; try lia.
  intros q x. rewrite lookup_insert_Some, (rep_live m g Hr). setoid_rewrite Hin. rewrite <- Hn. split.
  - intros [[<- <-]|(Hne & k' & <- & Hl)]; [exists k; split; [done|by left]|]. exists k'. split; [done|]. right. split; congruence.
  - intros (k' & <- & [[-> ->]|[Hl Hne]]); [by left|]. right. split; [congruence|by exists k'].
Qed.

Lemma map_delete_represents m g key :
  represents m g -> key_ok key ->
  exists m', map_delete key_hash key_equals m key = Some (m', bool_decide (is_Some (g !! key_norm key))) /\
    represents m' (base.delete (key_norm key) g).
Proof.
  intros Hr Hkey. unfold map_delete. case_bool_decide as Hz.
  - assert (Hno : g !! key_norm key = None).
    { destruct (g !! key_norm key) as [v|] eqn:Hg; [|done].
      destruct (represents_probe_live m g key v Hr Hkey Hg) as (i & k & _ & _ & Hi).
      pose proof (count_insert is_live_slot _ i _ HASH_MAP_DEAD Hi) as Hcount. cbn in Hcount.
      pose proof (rep_size m g Hr). lia. }
    exists m. rewrite delete_id, Hno by done. split; done.
  - destruct (g !! key_norm key) as [v|] eqn:Hg.
    + destruct (represents_probe_live m g key v Hr Hkey Hg) as (i & k & -> & Hn & Hi). cbn [mbind option_bind]. rewrite Hi.
      cbn [mbind option_bind]. eexists. split; [done|].
      destruct (bury_ok _ i k v (rep_ok m g Hr)) as [Hok' Hlive]; [by exists (key_hash k)|].
      pose proof (count_insert is_live_slot _ i _ HASH_MAP_DEAD Hi) as Hcount.
      pose proof (count_insert is_used_slot _ i _ HASH_MAP_DEAD Hi) as Hused. cbn in Hcount, Hused.
      pose proof (rep_size m g Hr). pose proof (rep_occupied m g Hr). pose proof (rep_room m g Hr).
      split; cbn [entries size occupied]; unfold capacity; cbn [entries]; rewrite ?length_insert; try done; try lia.
      intros q w. rewrite lookup_delete_Some, (rep_live m g Hr). setoid_rewrite Hlive. rewrite <- Hn. split.
      * intros (Hne & k' & Hq & Hl). exists k'. repeat split; congruence.
      * intros (k' & Hq & Hne & Hl). split; [congruence|by exists k'].
    + destruct (represents_empty_slot m g Hr) as [e He]. exists m. rewrite delete_id by done.
      destruct (probe_free _ key e (rep_ok m g Hr) Hkey He (represents_absent m g key Hr Hg)) as (t & -> & [Ht|Ht] & _);
        cbn; rewrite Ht; cbn; split; done.
Qed.

(** ** Traces

    The calls a client makes, and the answers the table and the finite map
    give: whether a pointer came back, or the value found. *)

Inductive MapCall :=
  | CallInsert (key : K) (value : V)
  | CallLookup (key : K)
  | CallDelete (key : K).

Inductive MapAnswer :=
  | Flag (done : bool)
  | Found (value : option V).

Definition run_call (m : HashMap K V) (c : MapCall) : option (HashMap K V * MapAnswer) :=
  match c with
  | CallInsert k v => '(m, b) ← map_insert key_hash key_equals m k v; Some (m, Flag b)
  | CallLookup k => v ← map_lookup key_hash key_equals m k; Some (m, Found v)
  | CallDelete k => '(m, b) ← map_delete key_hash key_equals m k; Some (m, Flag b)
  end.

Fixpoint run_calls (m : HashMap K V) (cs : list MapCall) : option (HashMap K V * list MapAnswer) :=
  match cs with
  | [] => Some (m, [])
  | c :: cs => '(m, a) ← run_call m c; '(m, rest) ← run_calls m cs; Some (m, a :: rest)
  end.

Definition spec_call (g : gmap Q V) (c : MapCall) : gmap Q V * MapAnswer :=
  match c with
  | CallInsert k v =>
      match g !! key_norm k with None => (<[key_norm k := v]> g, Flag true) | Some _ => (g, Flag false) end
  | CallLookup k => (g, Found (g !! key_norm k))
  | CallDelete k => (base.delete (key_norm k) g, Flag (bool_decide (is_Some (g !! key_norm k))))
  end.

Fixpoint spec_calls (g : gmap Q V) (cs : list MapCall) : gmap Q V * list MapAnswer :=
  match cs with
  | [] => (g, [])
  | c :: cs => let (g, a) := spec_call g c in let (g, rest) := spec_calls g cs in (g, a :: rest)
  end.

Definition call_key (c : MapCall) : K :=
  match c with CallInsert k _ | CallLookup k | CallDelete k => k end.

Lemma run_call_represents m g c :
  represents m g -> key_ok (call_key c) ->
  exists m', run_call m c = Some (m', (spec_call g c).2) /\ represents m' (spec_call g c).1.
Proof.
  intros Hr Hkey. destruct c as [k v|k|k]; cbn [run_call spec_call call_key] in *.
  - destruct (map_insert_represents m g k v Hr Hkey) as (m' & -> & Hr'). cbn. exists m'. by destruct (g !! key_norm k).
  - rewrite (map_lookup_represents m g k Hr Hkey). by exists m.
  - destruct (map_delete_represents m g k Hr Hkey) as (m' & -> & Hr'). by exists m'.
Qed.

Lemma run_calls_represents cs m g :
  represents m g -> Forall (fun c => key_ok (call_key c)) cs ->
  exists m', run_calls m cs = Some (m', (spec_calls g cs).2) /\ represents m' (spec_calls g cs).1.
Proof.
  revert m g. induction cs as [|c cs IH]; intros m g Hr Hcs; [by exists m|].
  apply Forall_cons in Hcs as [Hc0 Hcs]. destruct (run_call_represents m g c Hr Hc0) as (m1 & Hc & Hr1). cbn [run_calls spec_calls]. rewrite Hc.
  cbn [mbind option_bind]. destruct (IH m1 _ Hr1 Hcs) as (m2 & Hrun & Hr2). rewrite Hrun. exists m2.
  destruct (spec_call g c) as [g1 a]. cbn in *. by destruct (spec_calls g1 cs).
Qed.

(** [map_entries] visits the map's pairs, each once. *)
Lemma map_entries_perm m g : represents m g -> (prod_map key_norm id <$> map_entries m) ≡ₚ map_to_list g.
Proof.
  intros Hr. apply NoDup_Permutation.
  - apply (NoDup_fmap_1 fst). rewrite <- list_fmap_compose.
    change (NoDup ((key_norm ∘ fst) <$> map_entries m)). rewrite list_fmap_compose. apply keys_NoDup, (rep_ok m g Hr).
  - apply NoDup_map_to_list.
  - intros [q v]. rewrite elem_of_map_to_list, (rep_live m g Hr), list_elem_of_fmap. setoid_rewrite live_in_elem.
    unfold map_entries. split.
    + intros ([k w] & [= -> ->] & ([|k' h v'|] & Hin & [= -> ->])%list_elem_of_omap). exists k. split; [done|]. by exists h.
    + intros (k & <- & h & Hh). exists (k, v). split; [done|]. apply list_elem_of_omap. by eexists.
Qed.
End table.

(** The same table seen by a client whose notion of key has moved on: the new
    equality and hash agree with the old ones on the keys in it. *)
Lemma represents_transfer {K V Q} `{Countable Q} (hash hash' : K -> N) (norm norm' : K -> Q) (ok ok' : K -> Prop)
    (m : HashMap K V) (g : gmap Q V) :
  (forall k, ok k -> ok' k /\ hash' k = hash k /\ norm' k = norm k) ->
  represents hash norm ok m g -> represents hash' norm' ok' m g.
Proof.
  intros Ha [[H1 H2 H3 H4 H5] H6 H7 H8 H9].
  assert (Hl : forall i k v, live_at (entries m) i k v -> ok' k /\ hash' k = hash k /\ norm' k = norm k).
  { intros i k v Hi. by eapply Ha, H4. }
  split; [split|done|done|done|]; try done.
  - intros i k h v Hi. rewrite (H2 i k h v Hi). symmetry. apply (Hl i k v). by exists h.
  - intros i k v pre post Hi. destruct (Hl i k v Hi) as (_ & -> & _). by apply (H3 i k v).
  - intros i k v Hi. by apply (Hl i k v).
  - intros i j k k' v w Hi Hj. destruct (Hl i k v Hi) as (_ & _ & ->), (Hl j k' w Hj) as (_ & _ & ->). by apply (H5 i j k k' v w).
  - intros q v. rewrite H9. split; intros (k & Hq & i & Hi); exists k; (split; [|by exists i]);
      destruct (Hl i k v Hi) as (_ & _ & ?); congruence.
Qed.

Arguments MapCall : clear implicits.
Arguments MapAnswer : clear implicits.
Arguments CallInsert {K V}.
Arguments CallLookup {K V}.
Arguments CallDelete {K V}.
Arguments Flag {V}.
Arguments Found {V}.

(** ** The properties *)

(** C34: A table created at a capacity of two or more answers every sequence of
    [insert], [lookup] and [delete] calls as the finite map it starts from empty
    would, and a [GAB_HASH_MAP_FOR_EACH] after them visits that map's pairs,
    each once.  No probe runs forever, whatever the keys hash to.  The keys are
    those of the client's equality, with which its hash agrees. *)
Theorem hash_map_refines_finite_map {K V Q} `{Countable Q} (key_hash : K -> N) (key_equals : K -> K -> bool)
    (key_norm : K -> Q) (key_ok : K -> Prop) (cap : nat) (calls : list (MapCall K V))
    (Hequals : forall k k', key_ok k -> key_ok k' -> key_equals k k' = true <-> key_norm k = key_norm k')
    (Hhash : forall k k', key_ok k -> key_ok k' -> key_norm k = key_norm k' -> key_hash k = key_hash k')
    (Hcap : power_of_two cap = true) (Htwo : 2 <= cap) (Hkeys : Forall (fun c => key_ok (call_key c)) calls) :
  let spec := spec_calls key_norm (∅ : gmap Q V) calls in
  exists m, (m ← map_init cap; run_calls key_hash key_equals m calls) = Some (m, spec.2) /\
    (prod_map key_norm id <$> map_entries m) ≡ₚ map_to_list spec.1.
Proof.
  destruct (power_of_two_pow cap Hcap) as [[|c] ->]; [cbn in Htwo; lia|].
  destruct (map_init_represents key_hash key_norm key_ok (V := V) c) as (m0 & -> & Hr0). cbn [mbind option_bind].
  destruct (run_calls_represents key_hash key_equals key_norm key_ok Hequals Hhash calls m0 ∅ Hr0 Hkeys) as (m & Hm & Hr).
  exists m. split; [done|]. by eapply map_entries_perm.
Qed.

(** A run that grows the table, meets a collision, reuses a dead slot and
    refuses a key it holds: keys are the same modulo 10, and all hash to 1. *)
Definition sample_calls : list (MapCall nat nat) :=
  [CallInsert 5 50; CallInsert 6 60; CallInsert 7 70; CallDelete 16; CallLookup 7; CallInsert 8 80;
   CallInsert 15 51; CallLookup 5; CallLookup 6; CallDelete 6].
Definition sample_norm (k : nat) : nat := k mod 10.
Definition sample_equals (k k' : nat) : bool := Nat.eqb (sample_norm k) (sample_norm k').

Lemma hash_map_refines_finite_map_witness :
  let spec := spec_calls sample_norm (∅ : gmap nat nat) sample_calls in
  spec.2 = [Flag true; Flag true; Flag true; Flag true; Found (Some 70); Flag true; Flag false;
            Found (Some 50); Found None; Flag false] /\
  exists m, (m ← map_init 2; run_calls (fun _ => 1%N) sample_equals m sample_calls) = Some (m, spec.2) /\
    (prod_map sample_norm id <$> map_entries m) ≡ₚ map_to_list spec.1.
Proof.
  split; [by vm_compute|].
  apply (hash_map_refines_finite_map (fun _ => 1%N) sample_equals sample_norm (fun _ => True) 2 sample_calls).
  - intros k k' _ _. apply Nat.eqb_eq.
  - done.
  - by vm_compute.
  - lia.
  - repeat constructor.
Defined.

(** The table's assertion accepts a capacity of one, which has no room for an
    empty slot: after one insertion a lookup of any other key probes forever,
    however many turns it is given. *)
Theorem capacity_one_probes_forever {K V} (key_hash : K -> N) (key_equals : K -> K -> bool)
    (key other : K) (value : V) (Hne : key_equals other key = false) :
  exists m0 m, map_init 1 = Some m0 /\ map_insert key_hash key_equals m0 key value = Some (m, true) /\
    forall turns, probe_from key_equals turns (entries m) (mask 1 (key_hash other)) None other (key_hash other) = None.
Proof.
  assert (Hmask : forall h, mask 1 h = 0) by (intros h; unfold mask; cbn; by rewrite N.land_0_r).
  exists (MkHashMap [HASH_MAP_EMPTY] 0 0), (MkHashMap [HASH_MAP_LIVE key (key_hash key) value] 1 1).
  split; [done|]. split.
  - unfold map_insert. change (is_crowded _) with false. cbn [mbind option_bind entries]. unfold probe.
    change (length _) with 1. rewrite Hmask. done.
  - rewrite Hmask. intros turns. induction turns as [|turns IH]; [done|].
    cbn. rewrite Hne, andb_false_r. change (mask 1 1) with 0. apply IH.
Qed.

Lemma capacity_one_probes_forever_witness :
  exists m0 m, map_init 1 = Some m0 /\ map_insert N.of_nat Nat.eqb m0 3 30 = Some (m, true) /\
    forall turns, probe_from Nat.eqb turns (entries m) (mask 1 (N.of_nat 4)) None 4 (N.of_nat 4) = None.
Proof. apply (capacity_one_probes_forever N.of_nat Nat.eqb 3 4 30). done. Defined.
