(* ===== verification/Arena.v ===== *)
(** * Arena: the region allocator

    [src/src/memory/arena.c].  An arena is a chain of blocks with one of them
    current; a block is told by its identity, the address [malloc] gave it,
    which is here the number of blocks made before it.  A pointer is a block
    and an offset into its memory.  [malloc] succeeds: where it does not the
    program aborts.  Sizes and offsets are 64-bit words that wrap. *)

From S2P Require Import Prelude.

Record ArenaBlock := MkArenaBlock {
  block_id : nat;
  block_capacity : Z;
  block_offset : Z;
  block_dedicated : bool;
}.

(** The chain from [first_block]; [arena_current] is the place of [current_block]
    in it.  [arena_poisoned] are the bytes a debug build overwrote: a block, the
    first byte and their number. *)
Record Arena := MkArena {
  arena_blocks : list ArenaBlock;
  arena_current : nat;
  arena_block_size : Z;
  arena_poisoned : list (nat * Z * Z);
}.

Record ArenaCheckpoint := MkArenaCheckpoint {
  checkpoint_block : nat;
  checkpoint_offset : Z;
}.

Record Pointer := MkPointer { ptr_block : nat; ptr_offset : Z }.

Definition ARENA_ALIGNMENT : Z := 8.

Definition with_offset (b : ArenaBlock) (offset : Z) : ArenaBlock :=
  MkArenaBlock (block_id b) (block_capacity b) offset (block_dedicated b).

Definition arena_block_create (id : nat) (size : Z) : ArenaBlock := MkArenaBlock id size 0 false.

Definition arena_create (block_size : Z) : Arena := MkArena [arena_block_create 0 block_size] 0 block_size [].

Definition set_block (a : Arena) (i : nat) (b : ArenaBlock) : Arena :=
  MkArena (<[i := b]> (arena_blocks a)) (arena_current a) (arena_block_size a) (arena_poisoned a).
Definition set_current (a : Arena) (i : nat) : Arena :=
  MkArena (arena_blocks a) i (arena_block_size a) (arena_poisoned a).
(** A block linked behind the current one. *)
Definition link_block (a : Arena) (b : ArenaBlock) : Arena :=
  MkArena (take (S (arena_current a)) (arena_blocks a) ++ b :: drop (S (arena_current a)) (arena_blocks a))
    (arena_current a) (arena_block_size a) (arena_poisoned a).

(** The place of the first block behind the current one that passes the test. *)
Definition find_behind (a : Arena) (f : ArenaBlock -> bool) : option (nat * ArenaBlock) :=
  '(j, b) ← list_find (fun b => f b = true) (drop (S (arena_current a)) (arena_blocks a));
  Some (S (arena_current a) + j, b).

Definition arena_alloc_oversized (a : Arena) (size : Z) : Arena * Pointer :=
  match find_behind a (fun b => block_dedicated b && (block_offset b =? 0)%Z && (size <=? block_capacity b)%Z) with
  | Some (i, reused) => (set_block a i (with_offset reused size), MkPointer (block_id reused) 0)
  | None =>
      let id := length (arena_blocks a) in
      (link_block a (MkArenaBlock id size size true), MkPointer id 0)
  end.

Definition arena_grow (a : Arena) (size : Z) : Arena :=
  match find_behind a (fun b => negb (block_dedicated b) && (size <=? block_capacity b)%Z) with
  | Some (i, _) => set_current a i
  | None =>
      let a := link_block a (arena_block_create (length (arena_blocks a)) (arena_block_size a)) in
      set_current a (S (arena_current a))
  end.

(** The last lines of [arena_alloc]: the bytes are the current block's. *)
Definition bump (a : Arena) (size : Z) : option (Arena * Pointer) :=
  block ← arena_blocks a !! arena_current a;
  let offset := align_up (block_offset block) ARENA_ALIGNMENT in
  Some (set_block a (arena_current a) (with_offset block (to_u64 (offset + size))), MkPointer (block_id block) offset).

Definition arena_alloc (a : Arena) (size : Z) : option (Arena * Pointer) :=
  block ← arena_blocks a !! arena_current a;
  let offset := align_up (block_offset block) ARENA_ALIGNMENT in
  if (block_capacity block <? to_u64 (offset + size))%Z then
    if (arena_block_size a <? size)%Z then Some (arena_alloc_oversized a size)
    else bump (arena_grow a size) size
  else bump a size.

Definition poison_block (b : ArenaBlock) : nat * Z * Z := (block_id b, 0%Z, block_offset b).

Definition arena_reset (a : Arena) : Arena :=
  MkArena ((fun b => with_offset b 0) <$> arena_blocks a) 0 (arena_block_size a)
    (arena_poisoned a ++ (poison_block <$> arena_blocks a)).

Definition arena_checkpoint (a : Arena) : option ArenaCheckpoint :=
  block ← arena_blocks a !! arena_current a; Some (MkArenaCheckpoint (block_id block) (block_offset block)).

Definition block_index (a : Arena) (id : nat) : option nat :=
  fst <$> list_find (fun b => block_id b = id) (arena_blocks a).

Definition arena_rewind (a : Arena) (checkpoint : ArenaCheckpoint) : option Arena :=
  i ← block_index a (checkpoint_block checkpoint);
  block ← arena_blocks a !! i;
  let behind := drop (S i) (arena_blocks a) in
  Some (MkArena (take i (arena_blocks a) ++ with_offset block (checkpoint_offset checkpoint) ::
                 ((fun b => with_offset b 0) <$> behind))
          i (arena_block_size a)
          (arena_poisoned a ++
           (block_id block, checkpoint_offset checkpoint, (block_offset block - checkpoint_offset checkpoint)%Z) ::
           (poison_block <$> behind))).

(** ** A client *)

Record Allocation := MkAllocation { alloc_ptr : Pointer; alloc_size : Z }.

(** The bytes of two allocations do not meet. *)
Definition apart (x y : Allocation) : Prop :=
  ptr_block (alloc_ptr x) <> ptr_block (alloc_ptr y) \/
  (ptr_offset (alloc_ptr x) + alloc_size x <= ptr_offset (alloc_ptr y))%Z \/
  (ptr_offset (alloc_ptr y) + alloc_size y <= ptr_offset (alloc_ptr x))%Z.

Inductive ArenaCall :=
  | CallAlloc (size : Z)
  | CallReset
  | CallMark
  | CallRewind.

(** The arena, what the client still uses, and its checkpoints, the last first,
    each with what it used when it took it. *)
Record Client := MkClient {
  cl_arena : Arena;
  cl_live : list Allocation;
  cl_marks : list (ArenaCheckpoint * list Allocation);
}.

Definition client_step (c : Client) (call : ArenaCall) : option Client :=
  match call with
  | CallAlloc size =>
      '(a, p) ← arena_alloc (cl_arena c) size;
      Some (MkClient a (MkAllocation p size :: cl_live c) (cl_marks c))
  | CallReset => Some (MkClient (arena_reset (cl_arena c)) [] [])
  | CallMark =>
      checkpoint ← arena_checkpoint (cl_arena c);
      Some (MkClient (cl_arena c) (cl_live c) ((checkpoint, cl_live c) :: cl_marks c))
  | CallRewind =>
      match cl_marks c with
      | [] => Some c
      | (checkpoint, live) :: marks =>
          a ← arena_rewind (cl_arena c) checkpoint; Some (MkClient a live marks)
      end
  end.

Fixpoint client_run (c : Client) (calls : list ArenaCall) : option Client :=
  match calls with
  | [] => Some c
  | call :: calls => c ← client_step c call; client_run c calls
  end.

Definition client_start (block_size : Z) : Client := MkClient (arena_create block_size) [] [].

(** Whether a client marks while it uses an oversized allocation. *)
Fixpoint marks_oversized (block_size : Z) (big : bool) (calls : list ArenaCall) : bool :=
  match calls with
  | [] => false
  | CallAlloc size :: calls => marks_oversized block_size (big || (block_size <? size)%Z) calls
  | CallReset :: calls => marks_oversized block_size false calls
  | CallMark :: calls => big || marks_oversized block_size big calls
  | CallRewind :: calls => marks_oversized block_size big calls
  end.


(** ** Alignment *)

Definition size_ok (z : Z) : Prop := (0 <= z < 2 ^ 62)%Z.

Lemma align_up_arena o :
  (0 <= o <= 2 ^ 62)%Z ->
  (o <= align_up o ARENA_ALIGNMENT < o + 8)%Z /\ (align_up o ARENA_ALIGNMENT mod 8 = 0)%Z.
Proof. intros Ho. split; [apply (align_up_bounds o 3); lia|apply (align_up_multiple o 3); lia]. Qed.

(** ** The invariant *)

Record block_ok (block_size : Z) (b : ArenaBlock) : Prop := {
  bo_offset : (0 <= block_offset b <= block_capacity b)%Z;
  bo_capacity : if block_dedicated b then (block_size < block_capacity b < 2 ^ 62)%Z
                else block_capacity b = block_size;
}.

(** The chain: blocks are told apart by their identity, the current one is a
    regular one, and no regular block behind it is used. *)
Record arena_ok (a : Arena) : Prop := {
  ao_size : (0 < arena_block_size a < 2 ^ 62)%Z;
  ao_current : exists b, arena_blocks a !! arena_current a = Some b /\ block_dedicated b = false;
  ao_first : exists b, arena_blocks a !! 0 = Some b /\ block_dedicated b = false;
  ao_blocks : Forall (block_ok (arena_block_size a)) (arena_blocks a);
  ao_distinct : NoDup (block_id <$> arena_blocks a);
  ao_ids : Forall (fun b => block_id b < length (arena_blocks a)) (arena_blocks a);
  ao_behind : forall i b, arena_blocks a !! i = Some b -> arena_current a < i -> block_dedicated b = false ->
    block_offset b = 0%Z;
}.

(** The bytes of an allocation lie in the used part of its block: a regular one,
    not behind the current block, or for an oversized one a block of its own. *)
Definition live_ok (a : Arena) (x : Allocation) : Prop :=
  (0 <= ptr_offset (alloc_ptr x))%Z /\ (ptr_offset (alloc_ptr x) mod 8 = 0)%Z /\ (0 <= alloc_size x)%Z /\
  exists i b, arena_blocks a !! i = Some b /\ block_id b = ptr_block (alloc_ptr x) /\
    (ptr_offset (alloc_ptr x) + alloc_size x <= block_offset b)%Z /\
    (if block_dedicated b then (arena_block_size a < alloc_size x)%Z else i <= arena_current a).

Lemma same_block (a : Arena) i j b b' :
  arena_ok a -> arena_blocks a !! i = Some b -> arena_blocks a !! j = Some b' -> block_id b = block_id b' -> i = j.
Proof.
  intros Hok Hi Hj Hid. apply (NoDup_lookup _ i j (block_id b) (ao_distinct a Hok)); rewrite list_lookup_fmap.
  - by rewrite Hi.
  - by rewrite Hj, Hid.
Qed.

Lemma live_block a x : live_ok a x -> exists i b, arena_blocks a !! i = Some b /\ block_id b = ptr_block (alloc_ptr x).
Proof. intros (_ & _ & _ & i & b & ? & ? & _). by exists i, b. Qed.

(** *** Moving a block's offset *)

Lemma set_offset_ok a i b o :
  arena_ok a -> arena_blocks a !! i = Some b -> (0 <= o <= block_capacity b)%Z ->
  i <= arena_current a \/ block_dedicated b = true -> arena_ok (set_block a i (with_offset b o)).
Proof.
  intros Hok Hi Ho Hwhere. pose proof (lookup_lt_Some _ _ _ Hi) as Hlt. destruct Hok. split; cbn.
  - done.
  - destruct ao_current0 as (c & Hc & Hd). destruct (decide (i = arena_current a)) as [->|Hne].
    + rewrite list_lookup_insert_eq by done. rewrite Hi in Hc. injection Hc as <-. by exists (with_offset b o).
    + rewrite list_lookup_insert_ne by done. by exists c.
  - destruct ao_first0 as (c & Hc & Hd). destruct (decide (i = 0)) as [->|Hne].
    + rewrite list_lookup_insert_eq by done. rewrite Hi in Hc. injection Hc as <-. by exists (with_offset b o).
    + rewrite list_lookup_insert_ne by done. by exists c.
  - apply Forall_insert; [done|]. rewrite Forall_lookup in ao_blocks0. destruct (ao_blocks0 i b Hi). by split.
  - rewrite list_fmap_insert. cbn. rewrite list_insert_id; [done|]. by rewrite list_lookup_fmap, Hi.
  - rewrite length_insert. apply Forall_insert; [done|]. rewrite Forall_lookup in ao_ids0. by apply (ao_ids0 i b).
  - intros j c Hj Hlt' Hd. destruct (decide (i = j)) as [->|Hne].
    + rewrite list_lookup_insert_eq in Hj by done. injection Hj as <-. cbn in Hd. destruct Hwhere; [lia|congruence].
    + rewrite list_lookup_insert_ne in Hj by done. by eapply ao_behind0.
Qed.

Lemma set_offset_live a i b o x :
  arena_blocks a !! i = Some b -> (block_offset b <= o)%Z -> live_ok a x -> live_ok (set_block a i (with_offset b o)) x.
Proof.
  intros Hi Ho (H1 & H2 & H3 & j & c & Hj & Hid & Hend & Hwhere). pose proof (lookup_lt_Some _ _ _ Hi) as Hlt.
  split; [done|]. split; [done|]. split; [done|]. destruct (decide (i = j)) as [->|Hne].
  - rewrite Hi in Hj. injection Hj as <-. exists j, (with_offset b o). cbn. rewrite list_lookup_insert_eq by done.
    repeat split; try done. lia.
  - exists j, c. cbn. by rewrite list_lookup_insert_ne.
Qed.

(** The last bytes of a block are apart from what was in it. *)
Lemma new_apart a i b o size x :
  arena_ok a -> arena_blocks a !! i = Some b -> (block_offset b <= o)%Z -> live_ok a x ->
  apart (MkAllocation (MkPointer (block_id b) o) size) x.
Proof.
  intros Hok Hi Ho (_ & _ & _ & j & c & Hj & Hid & Hend & _). unfold apart. cbn.
  destruct (decide (block_id b = ptr_block (alloc_ptr x))) as [Heq|Hne]; [|by left].
  assert (i = j) by (eapply same_block; try done; congruence). subst j. rewrite Hi in Hj. injection Hj as <-.
  right. right. lia.
Qed.

(** *** Linking a block *)

Lemma link_lookup_low a b i : i <= arena_current a -> arena_current a < length (arena_blocks a) ->
  arena_blocks (link_block a b) !! i = arena_blocks a !! i.
Proof.
  intros Hi Hc. unfold link_block. cbn [arena_blocks]. rewrite lookup_app_l by (rewrite length_take; lia). by rewrite lookup_take_lt by lia.
Qed.

Lemma link_lookup_new a b : arena_current a < length (arena_blocks a) ->
  arena_blocks (link_block a b) !! S (arena_current a) = Some b.
Proof. intros Hc. unfold link_block. cbn [arena_blocks]. rewrite list_lookup_middle; [done|]. rewrite length_take. lia. Qed.

Lemma link_lookup_high a b i : arena_current a < i -> arena_current a < length (arena_blocks a) ->
  arena_blocks (link_block a b) !! S i = arena_blocks a !! i.
Proof.
  intros Hi Hc. unfold link_block. cbn [arena_blocks]. rewrite lookup_app_r by (rewrite length_take; lia). rewrite length_take.
  replace (S i - S (arena_current a) `min` length (arena_blocks a)) with (S (i - S (arena_current a))) by lia.
  rewrite lookup_cons, lookup_drop. f_equal. lia.
Qed.

Lemma link_permutation a b : arena_blocks (link_block a b) ≡ₚ b :: arena_blocks a.
Proof. unfold link_block. cbn [arena_blocks]. rewrite <- Permutation_middle. by rewrite take_drop. Qed.

Lemma current_lt a : arena_ok a -> arena_current a < length (arena_blocks a).
Proof. intros Hok. destruct (ao_current a Hok) as (b & Hb & _). by eapply lookup_lt_Some. Qed.

Lemma fresh_id a : arena_ok a -> length (arena_blocks a) ∉ (block_id <$> arena_blocks a).
Proof.
  intros Hok (b & Hid & Hin)%list_elem_of_fmap. pose proof (ao_ids a Hok) as Hall. rewrite Forall_forall in Hall.
  specialize (Hall b Hin). lia.
Qed.

Lemma link_ok a b :
  arena_ok a -> block_id b = length (arena_blocks a) -> block_ok (arena_block_size a) b ->
  (block_dedicated b = false -> block_offset b = 0%Z) -> arena_ok (link_block a b).
Proof.
  intros Hok Hid Hb Hzero. pose proof (current_lt a Hok) as Hc. pose proof (link_permutation a b) as Hp.
  pose proof (Permutation_length Hp) as Hlen. cbn [length] in Hlen. split.
  - apply Hok.
  - destruct (ao_current a Hok) as (c & Hcur & Hd). exists c. split; [|done].
    change (arena_current (link_block a b)) with (arena_current a). by rewrite link_lookup_low.
  - destruct (ao_first a Hok) as (c & Hf & Hd). exists c. by rewrite link_lookup_low by lia.
  - rewrite Hp. constructor; [done|]. apply Hok.
  - rewrite Hp. cbn. constructor; [|apply Hok]. rewrite Hid. by apply fresh_id.
  - rewrite Hlen, Hp. constructor; [lia|]. eapply Forall_impl; [apply (ao_ids a Hok)|]. cbn. lia.
  - intros i c Hi Hlt Hd. change (arena_current (link_block a b)) with (arena_current a) in Hlt.
    destruct i as [|i]; [lia|]. destruct (decide (i = arena_current a)) as [->|Hne].
    + rewrite link_lookup_new in Hi by done. injection Hi as <-. by apply Hzero.
    + rewrite link_lookup_high in Hi by lia. apply (ao_behind a Hok i c); [done|lia|done].
Qed.

Lemma link_live a b x : arena_ok a -> live_ok a x -> live_ok (link_block a b) x.
Proof.
  intros Hok (H1 & H2 & H3 & j & c & Hj & Hid & Hend & Hwhere). pose proof (current_lt a Hok) as Hc.
  split; [done|]. split; [done|]. split; [done|]. destruct (decide (j <= arena_current a)) as [Hle|Hgt].
  - exists j, c. by rewrite link_lookup_low.
  - exists (S j), c. rewrite link_lookup_high by lia. repeat split; try done.
    destruct (block_dedicated c); [done|]. lia.
Qed.

(** *** Finding a block to use again *)

Lemma find_behind_some a f i b :
  find_behind a f = Some (i, b) -> arena_blocks a !! i = Some b /\ arena_current a < i /\ f b = true.
Proof.
  unfold find_behind. destruct (list_find _ _) as [[j c]|] eqn:Hf; [|done]. cbn. intros [= <- <-].
  apply list_find_Some in Hf as (Hj & Hc & _). rewrite lookup_drop in Hj. repeat split; try done. lia.
Qed.

(** *** Allocating *)

(** What is left of the blocks up to the current one. *)
Definition grows (a a' : Arena) : Prop :=
  arena_block_size a' = arena_block_size a /\ arena_current a <= arena_current a' /\
  forall i b, i <= arena_current a -> arena_blocks a !! i = Some b ->
    exists b', arena_blocks a' !! i = Some b' /\ block_id b' = block_id b /\
      block_dedicated b' = block_dedicated b /\ (block_offset b <= block_offset b')%Z.

Lemma grows_trans a1 a2 a3 : grows a1 a2 -> grows a2 a3 -> grows a1 a3.
Proof.
  intros (H1 & H2 & H3) (K1 & K2 & K3). split; [congruence|]. split; [lia|]. intros i b Hi Hb.
  destruct (H3 i b Hi Hb) as (b' & Hb' & Hid & Hd & Ho). destruct (K3 i b') as (b'' & Hb'' & ? & ? & ?); [lia|done|].
  exists b''. repeat split; try congruence. lia.
Qed.

(** What an allocation leaves: the invariant, what was live, and new bytes. *)
Definition allocated (a : Arena) (live : list Allocation) (size : Z) (a' : Arena) (p : Pointer) : Prop :=
  arena_ok a' /\ grows a a' /\ Forall (live_ok a') (MkAllocation p size :: live) /\
  Forall (apart (MkAllocation p size)) live.

Lemma set_offset_grows a i b o :
  arena_blocks a !! i = Some b -> (block_offset b <= o)%Z -> grows a (set_block a i (with_offset b o)).
Proof.
  intros Hi Ho. pose proof (lookup_lt_Some _ _ _ Hi). split; [done|]. split; [done|]. intros j c Hj Hc. cbn.
  destruct (decide (i = j)) as [->|Hne].
  - rewrite list_lookup_insert_eq by done. rewrite Hi in Hc. injection Hc as <-. by exists (with_offset b o).
  - rewrite list_lookup_insert_ne by done. by exists c.
Qed.

Lemma bump_allocated a live size b :
  arena_ok a -> Forall (live_ok a) live -> size_ok size -> arena_blocks a !! arena_current a = Some b ->
  (align_up (block_offset b) ARENA_ALIGNMENT + size <= block_capacity b)%Z ->
  exists a' p, bump a size = Some (a', p) /\ allocated a live size a' p.
Proof.
  intros Hok Hlive Hs Hb Hfit. unfold bump. rewrite Hb. cbn [mbind option_bind]. eexists _, _. split; [done|].
  pose proof (ao_blocks a Hok) as Hall. rewrite Forall_lookup in Hall. destruct (Hall _ _ Hb) as [Ho Hc].
  pose proof (ao_size a Hok) as Hbs.
  assert (Hcap : (block_capacity b < 2 ^ 62)%Z) by (destruct (block_dedicated b); lia).
  destruct (align_up_arena (block_offset b)) as [Hal Hmod]; [lia|]. unfold size_ok in Hs.
  rewrite wrap_unsigned_id by lia. set (o := align_up (block_offset b) ARENA_ALIGNMENT) in *.
  split; [apply set_offset_ok; try done; [lia|by left]|]. split; [apply set_offset_grows; [done|lia]|]. split.
  - constructor.
    + split; [cbn; lia|]. split; [done|]. split; [cbn; lia|]. exists (arena_current a), (with_offset b (o + size)).
      cbn. rewrite list_lookup_insert_eq by by eapply lookup_lt_Some. repeat split; try done.
      destruct (ao_current a Hok) as (c & Hcur & Hd). rewrite Hb in Hcur. injection Hcur as <-. by rewrite Hd.
    + eapply Forall_impl; [exact Hlive|]. intros x Hx. apply set_offset_live; [done|lia|done].
  - eapply Forall_impl; [exact Hlive|]. intros x Hx. eapply new_apart; [done|done|lia|done].
Qed.

Lemma grow_ok a live size :
  arena_ok a -> Forall (live_ok a) live -> (0 <= size <= arena_block_size a)%Z ->
  let a' := arena_grow a size in
  arena_ok a' /\ grows a a' /\ Forall (live_ok a') live /\
  exists b, arena_blocks a' !! arena_current a' = Some b /\ block_offset b = 0%Z /\ (size <= block_capacity b)%Z.
Proof.
  intros Hok Hlive Hs. unfold arena_grow. destruct (find_behind a _) as [[i b]|] eqn:Hf; cbn zeta.
  - apply find_behind_some in Hf as (Hi & Hlt & [Hd Hcap]%andb_true_iff). apply negb_true_iff in Hd. apply Z.leb_le in Hcap.
    split; [|split; [|split]].
    + destruct Hok. split; try done; cbn; [by exists b|]. intros j c Hj Hlt' Hdc. apply (ao_behind0 j c); [done|lia|done].
    + split; [done|]. split; [cbn; lia|]. intros j c Hj Hc. by exists c.
    + eapply Forall_impl; [exact Hlive|]. intros x (H1 & H2 & H3 & j & c & Hj & Hid & Hend & Hw).
      split; [done|]. split; [done|]. split; [done|]. exists j, c. repeat split; try done.
      cbn. destruct (block_dedicated c); [done|lia].
    + exists b. cbn. repeat split; try done. by apply (ao_behind a Hok i b).
  - set (b := arena_block_create (length (arena_blocks a)) (arena_block_size a)).
    pose proof (current_lt a Hok) as Hc. pose proof (ao_size a Hok) as Hbs.
    assert (Hl : arena_ok (link_block a b)) by (apply link_ok; try done; split; cbn; lia).
    pose proof (link_lookup_new a b Hc) as Hnew.
    split; [|split; [|split]].
    + destruct Hl. split; try done; [by exists b|]. intros j c Hj Hlt' Hdc. cbn in Hlt'.
      apply (ao_behind0 j c); [done|cbn; lia|done].
    + split; [done|]. split; [cbn; lia|]. intros j c Hj Hcj. exists c.
      change (arena_blocks (set_current (link_block a b) (S (arena_current (link_block a b))))) with (arena_blocks (link_block a b)).
      by rewrite link_lookup_low.
    + eapply Forall_impl; [exact Hlive|]. intros x Hx. destruct (link_live a b x Hok Hx) as (H1 & H2 & H3 & j & c & Hj & Hid & Hend & Hw).
      split; [done|]. split; [done|]. split; [done|]. exists j, c. repeat split; try done.
      cbn in Hw |- *. destruct (block_dedicated c); [done|lia].
    + exists b. split; [exact Hnew|]. split; [done|]. cbn. lia.
Qed.

Lemma oversized_allocated a live size :
  arena_ok a -> Forall (live_ok a) live -> size_ok size -> (arena_block_size a < size)%Z ->
  allocated a live size (arena_alloc_oversized a size).1 (arena_alloc_oversized a size).2.
Proof.
  intros Hok Hlive Hs Hbig. pose proof (ao_size a Hok) as Hbs. unfold size_ok in Hs. unfold arena_alloc_oversized.
  destruct (find_behind a _) as [[i b]|] eqn:Hf; cbn [fst snd].
  - apply find_behind_some in Hf as (Hi & Hlt & [[Hd Hz]%andb_true_iff Hcap]%andb_true_iff).
    apply Z.eqb_eq in Hz. apply Z.leb_le in Hcap.
    split; [apply set_offset_ok; try done; [lia|by right]|]. split; [apply set_offset_grows; [done|lia]|]. split.
    + constructor.
      * split; [done|]. split; [done|]. split; [cbn; lia|]. exists i, (with_offset b size). cbn.
        rewrite list_lookup_insert_eq by by eapply lookup_lt_Some. repeat split; try done. by rewrite Hd.
      * eapply Forall_impl; [exact Hlive|]. intros x Hx. apply set_offset_live; [done|lia|done].
    + eapply Forall_impl; [exact Hlive|]. intros x Hx. eapply new_apart; [done|done|lia|done].
  - set (id := length (arena_blocks a)). set (b := MkArenaBlock id size size true).
    assert (Hl : arena_ok (link_block a b)) by (apply link_ok; try done; split; cbn; lia).
    pose proof (current_lt a Hok) as Hc. pose proof (link_lookup_new a b Hc) as Hnew.
    split; [done|]. split; [|split].
    + split; [done|]. split; [done|]. intros j c Hj Hcj. exists c. by rewrite link_lookup_low.
    + constructor.
      * split; [done|]. split; [done|]. split; [cbn; lia|]. exists (S (arena_current a)), b. by rewrite Hnew.
      * eapply Forall_impl; [exact Hlive|]. intros x Hx. by apply link_live.
    + eapply Forall_impl; [exact Hlive|]. intros x Hx. left. cbn.
      destruct (live_block a x Hx) as (j & c & Hj & <-). intros Hid. apply (fresh_id a Hok). fold id. rewrite Hid.
      apply list_elem_of_fmap. exists c. split; [done|]. by eapply list_elem_of_lookup_2.
Qed.

Lemma arena_alloc_ok a live size :
  arena_ok a -> Forall (live_ok a) live -> size_ok size ->
  exists a' p, arena_alloc a size = Some (a', p) /\ allocated a live size a' p.
Proof.
  intros Hok Hlive Hs. unfold arena_alloc. destruct (ao_current a Hok) as (b & Hb & Hd). rewrite Hb. cbn [mbind option_bind].
  pose proof (ao_blocks a Hok) as Hall. rewrite Forall_lookup in Hall. destruct (Hall _ _ Hb) as [Ho Hc]. rewrite Hd in Hc.
  pose proof (ao_size a Hok) as Hbs. destruct (align_up_arena (block_offset b)) as [Hal _]; [lia|].
  unfold size_ok in Hs. rewrite wrap_unsigned_id by lia.
  destruct (Z.ltb_spec (block_capacity b) (align_up (block_offset b) ARENA_ALIGNMENT + size)) as [Hfull|Hfit].
  - destruct (Z.ltb_spec (arena_block_size a) size) as [Hbig|Hsmall].
    + pose proof (oversized_allocated a live size Hok Hlive Hs Hbig) as Ha.
      destruct (arena_alloc_oversized a size) as [a' p]. by exists a', p.
    + destruct (grow_ok a live size Hok Hlive) as (Hok' & Hg & Hlive' & c & Hcur & Hz & Hcap); [lia|].
      destruct (bump_allocated _ live size c Hok' Hlive' Hs Hcur) as (a' & p & Hbump & H1 & H2 & H3 & H4).
      { rewrite Hz. change (align_up 0 ARENA_ALIGNMENT) with 0%Z. lia. }
      exists a', p. split; [done|]. split; [done|]. split; [by eapply grows_trans|]. done.
  - by apply (bump_allocated a live size b).
Qed.

(** *** Checkpoints *)

(** The allocation lies before offset [o] of the [j]th block. *)
Definition before (a : Arena) (j : nat) (o : Z) (x : Allocation) : Prop :=
  exists k b, arena_blocks a !! k = Some b /\ block_id b = ptr_block (alloc_ptr x) /\ block_dedicated b = false /\
    (k < j \/ k = j /\ (ptr_offset (alloc_ptr x) + alloc_size x <= o)%Z).

Fixpoint marks_ok (a : Arena) (i : nat) (o : Z) (live : list Allocation) (marks : list (ArenaCheckpoint * list Allocation)) : Prop :=
  match marks with
  | [] => True
  | (cp, saved) :: marks =>
      exists j b, j <= i /\ (j = i -> (checkpoint_offset cp <= o)%Z) /\ arena_blocks a !! j = Some b /\
        block_id b = checkpoint_block cp /\ block_dedicated b = false /\
        (0 <= checkpoint_offset cp <= block_offset b)%Z /\ saved `suffix_of` live /\
        Forall (before a j (checkpoint_offset cp)) saved /\ marks_ok a j (checkpoint_offset cp) saved marks
  end.

Lemma marks_weaken a i o live i' o' live' marks :
  i <= i' -> (i = i' -> (o <= o')%Z) -> live `suffix_of` live' -> marks_ok a i o live marks -> marks_ok a i' o' live' marks.
Proof.
  intros Hi Ho Hl. destruct marks as [|[cp saved] marks]; [done|]. cbn.
  intros (j & b & Hj & Hjo & Hb & Hid & Hd & Hoff & Hsuf & Hall & Hm). exists j, b.
  split; [lia|]. split; [intros ->; assert (i = i') by lia; subst; specialize (Hjo eq_refl); specialize (Ho eq_refl); lia|].
  do 4 (split; [done|]). split; [by etrans|]. done.
Qed.

(** The blocks up to the [i]th are what they were, the [i]th up to [o]. *)
Definition keeps (a a' : Arena) (i : nat) (o : Z) : Prop :=
  forall k b, k <= i -> arena_blocks a !! k = Some b -> block_dedicated b = false ->
    exists b', arena_blocks a' !! k = Some b' /\ block_id b' = block_id b /\ block_dedicated b' = false /\
      (k < i -> (block_offset b <= block_offset b')%Z) /\ (k = i -> (o <= block_offset b')%Z).

Lemma marks_keep a a' i o live marks :
  keeps a a' i o -> marks_ok a i o live marks -> marks_ok a' i o live marks.
Proof.
  revert i o live. induction marks as [|[cp saved] marks IH]; intros i o live Hk; [done|]. cbn.
  intros (j & b & Hj & Hjo & Hb & Hid & Hd & Hoff & Hsuf & Hall & Hm).
  destruct (Hk j b Hj Hb Hd) as (b' & Hb' & Hid' & Hd' & Hlow & Htop).
  assert (Ho' : (checkpoint_offset cp <= block_offset b')%Z).
  { destruct (decide (j = i)) as [->|Hne]; [specialize (Hjo eq_refl); specialize (Htop eq_refl); lia|].
    specialize (Hlow ltac:(lia)). lia. }
  exists j, b'. split; [done|]. split; [done|]. split; [done|]. split; [congruence|]. split; [done|]. split; [lia|].
  split; [done|]. split.
  - eapply Forall_impl; [exact Hall|]. intros x (k & c & Hc & Hcid & Hcd & Hcase).
    destruct (Hk k c) as (c' & Hc' & Hcid' & Hcd' & _); [lia|done|done|]. exists k, c'. repeat split; try done. congruence.
  - apply IH; [|done]. intros k c Hkj Hc Hcd. destruct (Hk k c) as (c' & Hc' & Hcid' & Hcd' & Hlow' & _); [lia|done|done|].
    exists c'. repeat split; try done.
    + intros Hlt. apply Hlow'. lia.
    + intros ->. congruence.
Qed.

Lemma grows_keeps a a' b :
  arena_blocks a !! arena_current a = Some b -> grows a a' -> keeps a a' (arena_current a) (block_offset b).
Proof.
  intros Hb (_ & _ & Hg) k c Hk Hc Hd. destruct (Hg k c Hk Hc) as (c' & Hc' & Hid & Hd' & Ho). exists c'.
  split; [done|]. split; [done|]. split; [congruence|]. split; [done|]. intros ->. rewrite Hb in Hc. by injection Hc as <-.
Qed.

(** *** Rewinding *)

Definition rewound (j : nat) (o : Z) (k : nat) (b : ArenaBlock) : ArenaBlock :=
  if decide (k < j) then b else if decide (k = j) then with_offset b o else with_offset b 0.

Lemma rewound_fields j o k b :
  block_id (rewound j o k b) = block_id b /\ block_dedicated (rewound j o k b) = block_dedicated b /\
  block_capacity (rewound j o k b) = block_capacity b.
Proof. unfold rewound. by repeat case_decide. Qed.

Lemma rewind_spec a checkpoint j b :
  arena_ok a -> arena_blocks a !! j = Some b -> block_id b = checkpoint_block checkpoint ->
  exists a', arena_rewind a checkpoint = Some a' /\ arena_current a' = j /\
    arena_block_size a' = arena_block_size a /\
    (forall k, arena_blocks a' !! k = rewound j (checkpoint_offset checkpoint) k <$> arena_blocks a !! k).
Proof.
  intros Hok Hj Hid. unfold arena_rewind, block_index. pose proof (lookup_lt_Some _ _ _ Hj) as Hlt.
  destruct (list_find _ _) as [[i c]|] eqn:Hf.
  2:{ rewrite list_find_None, Forall_lookup in Hf. by destruct (Hf j b Hj). }
  apply list_find_Some in Hf as (Hi & Hc & _).
  assert (i = j) by (eapply same_block; [done|done|done|congruence]). subst i. cbn [fmap option_fmap option_map fst mbind option_bind].
  rewrite Hj. cbn [option_bind]. eexists. split; [done|]. do 2 (split; [done|]). cbn [arena_blocks]. intros k. unfold rewound.
  destruct (Nat.lt_trichotomy k j) as [Hkj|[->|Hkj]].
  - rewrite lookup_app_l by (rewrite length_take; lia). rewrite lookup_take_lt by done.
    destruct (arena_blocks a !! k); cbn; [|done]. by rewrite decide_True.
  - rewrite list_lookup_middle by (rewrite length_take; lia). rewrite Hj. cbn.
    by rewrite decide_False, decide_True by lia.
  - rewrite lookup_app_r by (rewrite length_take; lia). rewrite length_take.
    replace (k - j `min` length (arena_blocks a)) with (S (k - S j)) by lia. rewrite lookup_cons, list_lookup_fmap, lookup_drop.
    replace (S j + (k - S j)) with k by lia. destruct (arena_blocks a !! k); cbn; [|done].
    by rewrite !decide_False by lia.
Qed.

(** The chain with other offsets and another current block. *)
Lemma arena_ok_same_chain a a' (f : nat -> ArenaBlock -> ArenaBlock) :
  arena_ok a -> arena_block_size a' = arena_block_size a ->
  (forall k, arena_blocks a' !! k = f k <$> arena_blocks a !! k) ->
  (forall k b, arena_blocks a !! k = Some b -> block_id (f k b) = block_id b /\ block_dedicated (f k b) = block_dedicated b /\
    block_capacity (f k b) = block_capacity b /\ (0 <= block_offset (f k b) <= block_capacity b)%Z /\
    (arena_current a' < k -> block_dedicated b = false -> block_offset (f k b) = 0%Z)) ->
  (exists b, arena_blocks a !! arena_current a' = Some b /\ block_dedicated b = false) ->
  arena_ok a'.
Proof.
  intros Hok Hsize Hlook Hf (c & Hcur & Hd).
  assert (Hids : block_id <$> arena_blocks a' = block_id <$> arena_blocks a).
  { apply list_eq. intros k. rewrite !list_lookup_fmap, Hlook. destruct (arena_blocks a !! k) as [b|] eqn:Hb; cbn; [|done].
    by destruct (Hf k b Hb) as (-> & _). }
  assert (Hlen : length (arena_blocks a') = length (arena_blocks a)).
  { rewrite <- (length_fmap block_id), Hids. apply length_fmap. }
  assert (Hlook' : forall k b', arena_blocks a' !! k = Some b' -> exists b, arena_blocks a !! k = Some b /\ b' = f k b).
  { intros k b'. rewrite Hlook. destruct (arena_blocks a !! k) as [b|]; cbn; [|done]. intros [= <-]. by exists b. }
  split.
  - rewrite Hsize. apply Hok.
  - exists (f (arena_current a') c). rewrite Hlook, Hcur. split; [done|]. by destruct (Hf _ _ Hcur) as (_ & -> & _).
  - destruct (ao_first a Hok) as (b & Hb & Hbd). exists (f 0 b). rewrite Hlook, Hb. split; [done|].
    by destruct (Hf _ _ Hb) as (_ & -> & _).
  - apply Forall_lookup. intros k b' (b & Hb & ->)%Hlook'. destruct (Hf k b Hb) as (_ & Hfd & Hfc & Ho & _).
    pose proof (ao_blocks a Hok) as Hall. rewrite Forall_lookup in Hall. destruct (Hall k b Hb) as [_ Hcap].
    split; [by rewrite Hfc|]. by rewrite Hfd, Hfc, Hsize.
  - rewrite Hids. apply Hok.
  - apply Forall_lookup. intros k b' (b & Hb & ->)%Hlook'. destruct (Hf k b Hb) as (-> & _). rewrite Hlen.
    pose proof (ao_ids a Hok) as Hall. rewrite Forall_lookup in Hall. by eapply Hall.
  - intros k b' (b & Hb & ->)%Hlook' Hlt. destruct (Hf k b Hb) as (_ & Hfd & _ & _ & Hz). rewrite Hfd. auto.
Qed.

Lemma rewind_ok a checkpoint j b live :
  arena_ok a -> j <= arena_current a -> arena_blocks a !! j = Some b -> block_id b = checkpoint_block checkpoint ->
  block_dedicated b = false -> (0 <= checkpoint_offset checkpoint <= block_offset b)%Z ->
  Forall (live_ok a) live -> Forall (before a j (checkpoint_offset checkpoint)) live ->
  exists a', arena_rewind a checkpoint = Some a' /\ arena_ok a' /\ arena_current a' = j /\
    arena_block_size a' = arena_block_size a /\ keeps a a' j (checkpoint_offset checkpoint) /\ Forall (live_ok a') live /\
    arena_blocks a' !! j = Some (with_offset b (checkpoint_offset checkpoint)).
Proof.
  intros Hok Hjc Hj Hid Hd Ho Hlive Hbefore.
  destruct (rewind_spec a checkpoint j b Hok Hj Hid) as (a' & Hr & Hcur & Hsize & Hlook). exists a'. split; [done|].
  assert (Hblk : forall k c, arena_blocks a !! k = Some c -> (0 <= block_offset c <= block_capacity c)%Z).
  { intros k c Hc. pose proof (ao_blocks a Hok) as Hall. rewrite Forall_lookup in Hall. by destruct (Hall k c Hc). }
  split; [|split; [done|split; [done|split; [|split]]]].
  - apply (arena_ok_same_chain a a' (rewound j (checkpoint_offset checkpoint)) Hok Hsize Hlook).
    + intros k c Hc. destruct (rewound_fields j (checkpoint_offset checkpoint) k c) as (-> & -> & ->).
      do 3 (split; [done|]). pose proof (Hblk k c Hc) as Hcc. rewrite Hcur. unfold rewound.
      repeat case_decide; cbn; split; try lia; try done.
      subst k. rewrite Hj in Hc. injection Hc as <-. pose proof (Hblk j b Hj). lia.
    + exists b. by rewrite Hcur.
  - intros k c Hk Hc Hcd. exists (rewound j (checkpoint_offset checkpoint) k c). rewrite Hlook, Hc.
    destruct (rewound_fields j (checkpoint_offset checkpoint) k c) as (-> & -> & _). do 3 (split; [done|]). unfold rewound.
    split; intros Hkj; repeat case_decide; cbn; lia.
  - apply Forall_forall. intros x Hx. rewrite Forall_forall in Hlive, Hbefore.
    destruct (Hlive x Hx) as (H1 & H2 & H3 & i & c & Hi & Hci & Hend & _).
    destruct (Hbefore x Hx) as (k & c' & Hk & Hck & Hcd & Hcase).
    assert (i = k) by (eapply same_block; [done|done|done|congruence]). subst i. rewrite Hi in Hk. injection Hk as <-.
    split; [done|]. split; [done|]. split; [done|]. exists k, (rewound j (checkpoint_offset checkpoint) k c).
    rewrite Hlook, Hi. destruct (rewound_fields j (checkpoint_offset checkpoint) k c) as (-> & -> & _). rewrite Hcd, Hcur.
    do 2 (split; [done|]). unfold rewound. destruct Hcase as [Hlt|[-> Hle]]; repeat case_decide; cbn; (split; lia).
  - rewrite Hlook, Hj. cbn. unfold rewound. by rewrite decide_False, decide_True by lia.
Qed.

Lemma reset_ok a : arena_ok a -> arena_ok (arena_reset a).
Proof.
  intros Hok. apply (arena_ok_same_chain a _ (fun _ b => with_offset b 0) Hok); [done| | |].
  - intros k. cbn. by rewrite list_lookup_fmap.
  - intros k b Hb. pose proof (ao_blocks a Hok) as Hall. rewrite Forall_lookup in Hall. destruct (Hall k b Hb). cbn.
    repeat split; lia || done.
  - apply Hok.
Qed.

(** *** The client *)

Definition client_ok (c : Client) (big : bool) : Prop :=
  arena_ok (cl_arena c) /\ Forall (live_ok (cl_arena c)) (cl_live c) /\ ForallOrdPairs apart (cl_live c) /\
  (big = false -> Forall (fun x => (alloc_size x <= arena_block_size (cl_arena c))%Z) (cl_live c)) /\
  exists b, arena_blocks (cl_arena c) !! arena_current (cl_arena c) = Some b /\
    marks_ok (cl_arena c) (arena_current (cl_arena c)) (block_offset b) (cl_live c) (cl_marks c).

Lemma ordpairs_suffix {A} (R : A -> A -> Prop) l l' : l `suffix_of` l' -> ForallOrdPairs R l' -> ForallOrdPairs R l.
Proof. intros [k ->]. induction k as [|x k IH]; [done|]. cbn. inversion 1. auto. Qed.

Lemma forall_suffix {A} (P : A -> Prop) l l' : l `suffix_of` l' -> Forall P l' -> Forall P l.
Proof. intros [k ->]. by intros [_ ?]%Forall_app. Qed.

Definition call_ok (call : ArenaCall) : Prop := match call with CallAlloc size => size_ok size | _ => True end.

Lemma client_alloc c big size :
  client_ok c big -> size_ok size ->
  exists c', client_step c (CallAlloc size) = Some c' /\ client_ok c' (big || (arena_block_size (cl_arena c) <? size)%Z) /\
    arena_block_size (cl_arena c') = arena_block_size (cl_arena c).
Proof.
  intros (Hok & Hlive & Hpairs & Hbig & b & Hb & Hm) Hs.
  destruct (arena_alloc_ok _ _ _ Hok Hlive Hs) as (a' & p & Ha & Hok' & Hg & Hlive' & Hap).
  cbn [client_step]. rewrite Ha. cbn [mbind option_bind]. eexists. split; [done|]. pose proof Hg as (Hsize & Hcur & Hgrow).
  split; [|done]. destruct (ao_current a' Hok') as (b' & Hb' & Hd').
  split; [done|]. split; [done|]. split; [by constructor|]. split.
  - intros [-> Hle]%orb_false_iff. apply Z.ltb_ge in Hle. cbn. rewrite Hsize. constructor; [done|]. by apply Hbig.
  - exists b'. split; [done|]. cbn [cl_arena cl_live cl_marks].
    apply (marks_weaken a' (arena_current (cl_arena c)) (block_offset b) (cl_live c)); [done| |by apply suffix_cons_r|].
    + intros Heq. destruct (Hgrow _ b (Nat.le_refl _) Hb) as (b'' & Hb'' & _ & _ & Ho). rewrite Heq in Hb''.
      rewrite Hb' in Hb''. by injection Hb'' as <-.
    + eapply marks_keep; [by apply grows_keeps|done].
Qed.

Lemma client_mark c :
  client_ok c false -> exists c', client_step c CallMark = Some c' /\ client_ok c' false /\ cl_arena c' = cl_arena c.
Proof.
  intros (Hok & Hlive & Hpairs & Hbig & b & Hb & Hm). cbn [client_step]. unfold arena_checkpoint. rewrite Hb.
  cbn [mbind option_bind]. eexists. split; [done|]. split; [|done].
  split; [done|]. split; [done|]. split; [done|]. split; [done|]. exists b. split; [done|].
  cbn [cl_arena cl_live cl_marks marks_ok checkpoint_offset checkpoint_block].
  destruct (ao_current _ Hok) as (b' & Hb' & Hd). rewrite Hb in Hb'. injection Hb' as <-.
  pose proof (ao_blocks _ Hok) as Hall. rewrite Forall_lookup in Hall. destruct (Hall _ _ Hb) as [Ho _].
  exists (arena_current (cl_arena c)), b. do 5 (split; [done|]). split; [lia|]. split; [done|]. split; [|done].
  specialize (Hbig eq_refl). rewrite Forall_forall in Hlive, Hbig |- *. intros x Hx.
  destruct (Hlive x Hx) as (_ & _ & _ & i & d & Hi & Hid & Hend & Hwhere). specialize (Hbig x Hx). cbn in Hbig.
  exists i, d. split; [done|]. split; [done|]. destruct (block_dedicated d) eqn:Hdd; [lia|]. split; [done|].
  destruct (decide (i = arena_current (cl_arena c))) as [->|]; [|left; lia]. right. split; [done|].
  rewrite Hb in Hi. by injection Hi as <-.
Qed.

Lemma client_rewind c big :
  client_ok c big ->
  exists c', client_step c CallRewind = Some c' /\ client_ok c' big /\
    arena_block_size (cl_arena c') = arena_block_size (cl_arena c).
Proof.
  intros (Hok & Hlive & Hpairs & Hbig & b & Hb & Hm). cbn [client_step].
  destruct (cl_marks c) as [|[cp saved] marks] eqn:Hmarks.
  { exists c. split; [done|]. split; [|done]. repeat (split; [done|]). exists b. by rewrite Hmarks. }
  cbn in Hm. destruct Hm as (j & d & Hj & _ & Hd & Hid & Hdd & Hoff & Hsuf & Hbefore & Hm).
  pose proof (forall_suffix _ _ _ Hsuf Hlive) as Hlive'.
  destruct (rewind_ok _ cp j d saved Hok Hj Hd Hid Hdd Hoff Hlive' Hbefore)
    as (a' & -> & Hok' & Hcur & Hsize & Hkeep & Hlive2 & Htop). cbn [mbind option_bind].
  eexists. split; [done|]. split; [|done]. split; [done|]. split; [done|]. split; [by eapply ordpairs_suffix|]. split.
  - intros Hb0. cbn. rewrite Hsize. eapply forall_suffix; [done|]. by apply Hbig.
  - exists (with_offset d (checkpoint_offset cp)). cbn [cl_arena cl_live cl_marks]. rewrite Hcur. split; [done|].
    cbn [block_offset with_offset]. by apply (marks_keep (cl_arena c)).
Qed.

Lemma client_reset c big :
  client_ok c big ->
  exists c', client_step c CallReset = Some c' /\ client_ok c' false /\
    arena_block_size (cl_arena c') = arena_block_size (cl_arena c).
Proof.
  intros (Hok & _). eexists. split; [done|]. split; [|done]. pose proof (reset_ok _ Hok) as Hok'.
  split; [done|]. split; [constructor|]. split; [constructor|]. split; [constructor|].
  destruct (ao_current _ Hok') as (b & Hb & _). by exists b.
Qed.

Lemma client_run_ok calls c big :
  client_ok c big -> Forall call_ok calls -> marks_oversized (arena_block_size (cl_arena c)) big calls = false ->
  exists c' big', client_run c calls = Some c' /\ client_ok c' big'.
Proof.
  revert c big. induction calls as [|call calls IH]; intros c big Hok Hcalls Hmarks; [by exists c, big|].
  apply Forall_cons in Hcalls as [Hcall Hcalls]. cbn [client_run]. destruct call as [size| | |]; cbn [marks_oversized] in Hmarks.
  - destruct (client_alloc c big size Hok Hcall) as (c' & Hs & Hok' & Hsize). rewrite Hs. cbn [mbind option_bind].
    eapply IH; [exact Hok'|done|]. by rewrite Hsize.
  - destruct (client_reset c big Hok) as (c' & Hs & Hok' & Hsize). rewrite Hs. cbn [mbind option_bind].
    eapply IH; [exact Hok'|done|]. by rewrite Hsize.
  - apply orb_false_iff in Hmarks as [-> Hmarks]. destruct (client_mark c Hok) as (c' & Hs & Hok' & Ha). rewrite Hs.
    cbn [mbind option_bind]. eapply IH; [exact Hok'|done|]. by rewrite Ha.
  - destruct (client_rewind c big Hok) as (c' & Hs & Hok' & Hsize). rewrite Hs. cbn [mbind option_bind].
    eapply IH; [exact Hok'|done|]. by rewrite Hsize.
Qed.

Lemma client_start_ok block_size : (0 < block_size < 2 ^ 62)%Z -> client_ok (client_start block_size) false.
Proof.
  intros Hs. assert (Hok : arena_ok (arena_create block_size)).
  { split; cbn; try by eexists.
    - done.
    - constructor; [|constructor]. split; cbn; lia.
    - apply NoDup_singleton.
    - constructor; [cbn; lia|constructor].
    - intros [|i] b Hb; [lia|done]. }
  split; [done|]. split; [constructor|]. split; [constructor|]. split; [constructor|]. by eexists.
Qed.

(** C33: Whatever a client allocates, resets, marks and rewinds, as long as it takes no
    checkpoint while it uses an allocation larger than a block: every
    allocation succeeds, what it still uses is aligned to eight bytes, lies
    within one block, and no two of its allocations share a byte. *)
Theorem arena_allocations_apart (block_size : Z) (calls : list ArenaCall)
    (Hsize : (0 < block_size < 2 ^ 62)%Z) (Hcalls : Forall call_ok calls)
    (Hmarks : marks_oversized block_size false calls = false) :
  exists c, client_run (client_start block_size) calls = Some c /\ ForallOrdPairs apart (cl_live c) /\
    Forall (fun x => exists b, b ∈ arena_blocks (cl_arena c) /\ block_id b = ptr_block (alloc_ptr x) /\
      (ptr_offset (alloc_ptr x) mod ARENA_ALIGNMENT = 0)%Z /\
      (0 <= ptr_offset (alloc_ptr x) /\ ptr_offset (alloc_ptr x) + alloc_size x <= block_capacity b)%Z) (cl_live c).
Proof.
  destruct (client_run_ok calls (client_start block_size) false (client_start_ok _ Hsize) Hcalls Hmarks)
    as (c & big & Hrun & Hok & Hlive & Hpairs & _).
  exists c. split; [done|]. split; [done|]. eapply Forall_impl; [exact Hlive|]. cbn.
  intros x (H1 & H2 & H3 & i & b & Hb & Hid & Hend & _). exists b.
  pose proof (ao_blocks _ Hok) as Hall. rewrite Forall_lookup in Hall. destruct (Hall _ _ Hb) as [Ho _].
  split; [by eapply list_elem_of_lookup_2|]. repeat split; try done. lia.
Qed.

Definition sample_client : list ArenaCall :=
  [CallAlloc 10; CallMark; CallAlloc 50; CallAlloc 24; CallMark; CallAlloc 64; CallRewind; CallAlloc 8; CallRewind;
   CallAlloc 30; CallAlloc 200; CallAlloc 100].

Lemma arena_allocations_apart_witness :
  exists c, client_run (client_start 64) sample_client = Some c /\ ForallOrdPairs apart (cl_live c) /\
    Forall (fun x => exists b, b ∈ arena_blocks (cl_arena c) /\ block_id b = ptr_block (alloc_ptr x) /\
      (ptr_offset (alloc_ptr x) mod ARENA_ALIGNMENT = 0)%Z /\
      (0 <= ptr_offset (alloc_ptr x) /\ ptr_offset (alloc_ptr x) + alloc_size x <= block_capacity b)%Z) (cl_live c).
Proof.
  apply (arena_allocations_apart 64 sample_client); [lia| |by vm_compute].
  repeat (constructor; [cbn; unfold size_ok; lia || done|]). constructor.
Defined.

(** A checkpoint does not protect an allocation larger than a block: rewinding to it
    overwrites the allocation's bytes in a debug build, and the next large
    allocation is given the same bytes. *)
Theorem rewind_frees_oversized :
  exists c x y, client_run (client_start 64) [CallAlloc 100; CallMark; CallRewind; CallAlloc 80] = Some c /\
    cl_live c = [y; x] /\ alloc_ptr x = alloc_ptr y /\ ~ apart x y /\
    (ptr_block (alloc_ptr x), 0%Z, alloc_size x) ∈ arena_poisoned (cl_arena c).
Proof.
  eexists _, _, _. split; [by vm_compute|]. split; [done|]. split; [done|]. split.
  - unfold apart. cbn. lia.
  - apply (list_elem_of_lookup_2 _ 1). done.
Qed.
