(* ===== verification/Strings.v ===== *)
(** * Strings: string references and the pool of interned strings

    [src/src/string/string_ref.c] and [src/src/string/string.c].  A
    [StringRef] is the bytes it spans.  A [String] of the pool is an object with
    an identity: the client compares strings by pointer, so a pointer is its
    index among the pool's allocations and [pool_heap] holds what each one
    points to.  The pool's key points into the allocation, never into the
    client's buffer, so a key's bytes are the bytes of the string it maps to. *)

From S2P Require Import Prelude HashMap.
From Stdlib Require Export Ascii.

Definition StringRef : Type := list ascii.

Abbreviation bytes := String.list_ascii_of_string.

(** ** References *)

(** The bytes before the terminator. *)
Definition NUL : ascii := "000"%char.
Definition strlen (s : list ascii) : nat := length s.

(** [strncmp(a, b, n) == 0]; a string ends at its terminator. *)
Fixpoint strncmp_equal (a b : list ascii) (n : nat) : bool :=
  match n with
  | O => true
  | S n =>
      let ca := default NUL (head a) in
      let cb := default NUL (head b) in
      if negb (Ascii.eqb ca cb) then false
      else if Ascii.eqb ca NUL then true
      else strncmp_equal (tail a) (tail b) n
  end.

(** [memcmp(a, b, n) == 0]. *)
Fixpoint memcmp_equal (a b : list ascii) (n : nat) : bool :=
  match n with
  | O => true
  | S n =>
      match a, b with
      | ca :: a, cb :: b => Ascii.eqb ca cb && memcmp_equal a b n
      | _, _ => false
      end
  end.

Definition string_ref_create (data : list ascii) : StringRef := data.

Definition string_ref_equals_cstr (ref : StringRef) (cstr : list ascii) : bool :=
  Nat.eqb (strlen cstr) (length ref) && strncmp_equal ref cstr (length ref).

Definition string_ref_equals (ref other : StringRef) : bool :=
  Nat.eqb (length ref) (length other) && memcmp_equal ref other (length ref).

Lemma memcmp_equal_spec a b : length a = length b -> memcmp_equal a b (length a) = true <-> a = b.
Proof.
  revert b. induction a as [|c a IH]; intros [|d b] Hl; try done. cbn [length memcmp_equal].
  rewrite andb_true_iff, Ascii.eqb_eq, IH by by injection Hl. split; [intros [-> ->]|intros [= -> ->]]; done.
Qed.

Lemma string_ref_equals_spec ref other : string_ref_equals ref other = true <-> ref = other.
Proof.
  unfold string_ref_equals. rewrite andb_true_iff, Nat.eqb_eq. split.
  - intros [Hl Hm]. by apply memcmp_equal_spec in Hm.
  - intros ->. split; [done|]. by apply memcmp_equal_spec.
Qed.

Lemma strncmp_equal_spec a b :
  length a = length b -> Forall (fun c => c <> NUL) b -> strncmp_equal a b (length a) = true <-> a = b.
Proof.
  revert b. induction a as [|c a IH]; intros [|d b] Hl Hb; try done. cbn [length strncmp_equal hd_error tl default from_option id].
  apply Forall_cons in Hb as [Hd Hb]. destruct (Ascii.eqb_spec c d) as [->|Hne]; cbn [negb].
  - destruct (Ascii.eqb_spec d NUL) as [->|_]; [done|]. rewrite IH by (done || by injection Hl). split; congruence.
  - split; [done|congruence].
Qed.

(** A reference equals a C string exactly when it spans the same bytes; the
    string has no terminator among its bytes. *)
Lemma string_ref_equals_cstr_spec ref cstr :
  Forall (fun c => c <> NUL) cstr -> string_ref_equals_cstr ref cstr = true <-> ref = cstr.
Proof.
  intros Hc. unfold string_ref_equals_cstr, strlen. rewrite andb_true_iff, Nat.eqb_eq. split.
  - intros [Hl Hs]. by apply strncmp_equal_spec in Hs.
  - intros ->. split; [done|]. by apply strncmp_equal_spec.
Qed.

(** ** The pool *)

Definition STRING_POOL_INITIAL_CAPACITY : nat := 128.

(** A [char] read as the [int] the hash adds. *)
Definition char_value (c : ascii) : Z := wrap_signed 8 (Z.of_N (N_of_ascii c)).

Definition string_map_hash (key : StringRef) : N := Z.to_N (hash_dj2b_cstr (char_value <$> key)).

Definition string_map_key_equals (key other : StringRef) : bool :=
  Nat.eqb (length key) (length other) && memcmp_equal key other (length key).

Record StringPool := MkStringPool {
  pool_map : HashMap StringRef nat;
  pool_heap : list (list ascii);
}.

Definition string_pool_init : option StringPool :=
  m ← map_init STRING_POOL_INITIAL_CAPACITY; Some (MkStringPool m []).

(** The pointer of the string with the bytes.  [None] is a probe that does not
    end or the dereference of a null pointer. *)
Definition string_from_cstr_len (pool : StringPool) (cstr : list ascii) : option (StringPool * nat) :=
  saved ← map_lookup string_map_hash string_map_key_equals (pool_map pool) cstr;
  match saved with
  | Some string => Some (pool, string)
  | None =>
      let string := length (pool_heap pool) in
      '(map, inserted) ← map_insert string_map_hash string_map_key_equals (pool_map pool) cstr string;
      if inserted : bool then Some (MkStringPool map (pool_heap pool ++ [cstr]), string) else None
  end.

Definition string_from_cstr (pool : StringPool) (cstr : list ascii) : option (StringPool * nat) :=
  string_from_cstr_len pool cstr.
Definition string_from_ref (pool : StringPool) (ref : StringRef) : option (StringPool * nat) :=
  string_from_cstr_len pool ref.

(** Strings interned one after another. *)
Fixpoint intern_all (pool : StringPool) (refs : list StringRef) : option (StringPool * list nat) :=
  match refs with
  | [] => Some (pool, [])
  | ref :: refs =>
      '(pool, string) ← string_from_ref pool ref;
      '(pool, strings) ← intern_all pool refs;
      Some (pool, string :: strings)
  end.

(** The map knows exactly the strings of the heap, each under its bytes. *)
Definition pool_ok (pool : StringPool) : Prop :=
  exists g : gmap StringRef nat, represents string_map_hash id (fun _ => True) (pool_map pool) g /\
    forall ref p, g !! ref = Some p <-> pool_heap pool !! p = Some ref.

Lemma string_map_key_equals_spec key other : string_map_key_equals key other = true <-> key = other.
Proof. apply string_ref_equals_spec. Qed.

(** The table's hypotheses on its key: keys are their bytes. *)
Lemma string_map_equals_id key other :
  True -> True -> string_map_key_equals key other = true <-> id key = id other.
Proof. intros _ _. apply string_map_key_equals_spec. Qed.

Lemma string_map_hash_id (key other : StringRef) :
  True -> True -> id key = id other -> string_map_hash key = string_map_hash other.
Proof. intros _ _ Hk. cbn in Hk. by subst. Qed.

Lemma string_pool_init_ok : exists pool, string_pool_init = Some pool /\ pool_ok pool /\ pool_heap pool = [].
Proof.
  destruct (map_init_represents string_map_hash id (fun _ : StringRef => True) (V := nat) 6) as (m & Hm & Hr).
  exists (MkStringPool m []). unfold string_pool_init, STRING_POOL_INITIAL_CAPACITY. change 128 with (2 ^ 7).
  rewrite Hm. split; [done|]. split; [|done]. exists ∅. split; [done|]. done.
Qed.

Lemma pool_ok_inj pool p q ref :
  pool_ok pool -> pool_heap pool !! p = Some ref -> pool_heap pool !! q = Some ref -> p = q.
Proof. intros (g & _ & Hg) Hp%Hg Hq%Hg. congruence. Qed.

Lemma string_from_ref_ok pool ref :
  pool_ok pool ->
  exists pool' p, string_from_ref pool ref = Some (pool', p) /\ pool_ok pool' /\
    pool_heap pool' !! p = Some ref /\ pool_heap pool `prefix_of` pool_heap pool'.
Proof.
  intros (g & Hr & Hg). unfold string_from_ref, string_from_cstr_len.
  rewrite (map_lookup_represents _ _ _ _ string_map_equals_id string_map_hash_id _ g ref Hr I). cbn [mbind option_bind id].
  destruct (g !! ref) as [p|] eqn:Hp.
  - exists pool, p. split; [done|]. split; [by exists g|]. split; [by apply Hg|done].
  - destruct (map_insert_represents _ _ _ _ string_map_equals_id string_map_hash_id _ g ref (length (pool_heap pool)) Hr I)
      as (m & Hm & Hr'). change (id ref) with ref in Hm, Hr'. rewrite Hp in Hm, Hr'. rewrite Hm. cbn [mbind option_bind].
    rewrite bool_decide_eq_true_2 by done.
    exists (MkStringPool m (pool_heap pool ++ [ref])), (length (pool_heap pool)). split; [done|].
    cbn [pool_heap pool_map]. split; [|split; [by rewrite list_lookup_middle|by apply prefix_app_r]].
    eexists. split; [exact Hr'|]. cbn [pool_heap]. intros ref' p.
    rewrite lookup_insert_Some, lookup_snoc_Some, Hg. split.
    + intros [[<- <-]|[_ Hl]]; [by right|]. left. split; [|done]. by eapply lookup_lt_Some.
    + intros [[? Hl]|[-> ->]]; [|by left]. right. split; [|done]. intros ->.
      apply Hg in Hl. congruence.
Qed.

Lemma intern_all_ok refs pool :
  pool_ok pool ->
  exists pool' ps, intern_all pool refs = Some (pool', ps) /\ pool_ok pool' /\
    pool_heap pool `prefix_of` pool_heap pool' /\
    Forall2 (fun ref p => pool_heap pool' !! p = Some ref) refs ps.
Proof.
  revert pool. induction refs as [|ref refs IH]; intros pool Hok.
  { exists pool, []. by repeat split. }
  destruct (string_from_ref_ok pool ref Hok) as (pool1 & p & H1 & Hok1 & Hp & Hpre1).
  destruct (IH pool1 Hok1) as (pool2 & ps & H2 & Hok2 & Hpre2 & Hall).
  exists pool2, (p :: ps). cbn [intern_all]. rewrite H1. cbn [mbind option_bind]. rewrite H2. split; [done|].
  split; [done|]. split; [by etrans|]. constructor; [|done]. by eapply prefix_lookup_Some.
Qed.

(** C32: Interning any sequence of byte strings always returns, each pointer points
    to a string with the bytes asked for, and two pointers are the same exactly
    when their bytes are: comparing interned strings by pointer is comparing
    their contents. *)
Theorem string_pool_interns (refs : list StringRef) :
  exists pool ps, (pool ← string_pool_init; intern_all pool refs) = Some (pool, ps) /\
    Forall2 (fun ref p => pool_heap pool !! p = Some ref) refs ps /\
    (forall i j p q, ps !! i = Some p -> ps !! j = Some q -> p = q <-> refs !! i = refs !! j).
Proof.
  destruct string_pool_init_ok as (pool0 & -> & Hok0 & _). cbn [mbind option_bind].
  destruct (intern_all_ok refs pool0 Hok0) as (pool & ps & Hi & Hok & _ & Hall).
  exists pool, ps. split; [done|]. split; [done|]. intros i j p q Hp Hq.
  destruct (Forall2_lookup_r _ _ _ _ _ Hall Hp) as (ri & Hri & Hpi).
  destruct (Forall2_lookup_r _ _ _ _ _ Hall Hq) as (rj & Hrj & Hqj). rewrite Hri, Hrj. split.
  - intros ->. congruence.
  - intros [= ->]. by eapply pool_ok_inj.
Qed.

Example intern_repeats :
  (pool ← string_pool_init; snd <$> intern_all pool [bytes "x"; bytes "tmp"; bytes "x"; bytes ""; bytes "tmp"]) =
  Some [0; 1; 0; 2; 1].
Proof. by vm_compute. Qed.
