(* ===== verification/Lexer.v ===== *)
(** * Lexer: from source bytes to tokens

    [src/src/syntax/lexer.c].  A source is the bytes before the terminator of
    the C string; reading at its end gives the terminator.  The [ctype.h]
    classes are those of the "C" locale.  [None] is an access out of bounds,
    or a probe of the string pool that does not end. *)

From S2P Require Import Prelude Types Mir Diagnostics HashMap Strings.
From Stdlib Require Import SpecFloat.

Inductive TokenType :=
  | TOKEN_INVALID | TOKEN_EOF | TOKEN_INT | TOKEN_FLOAT | TOKEN_STRING | TOKEN_PLUS
  | TOKEN_MINUS | TOKEN_MUL | TOKEN_DIV | TOKEN_MOD | TOKEN_ASSIGN | TOKEN_PLUS_EQ
  | TOKEN_MINUS_EQ | TOKEN_MUL_EQ | TOKEN_DIV_EQ | TOKEN_MOD_EQ | TOKEN_NOT | TOKEN_LESS
  | TOKEN_GREATER | TOKEN_EQUAL | TOKEN_NEQUAL | TOKEN_LEQUAL | TOKEN_GEQUAL | TOKEN_AND
  | TOKEN_AMP | TOKEN_OR | TOKEN_LPAREN | TOKEN_RPAREN | TOKEN_LBRACE | TOKEN_RBRACE
  | TOKEN_LBRACKET | TOKEN_RBRACKET | TOKEN_SEMICOLON | TOKEN_COLON | TOKEN_COLON_COLON | TOKEN_COMMA
  | TOKEN_DOT | TOKEN_DOT_DOT | TOKEN_LET | TOKEN_FUNC | TOKEN_EXTERN | TOKEN_INTRINSIC
  | TOKEN_CALLER | TOKEN_BUILTIN | TOKEN_STRUCT | TOKEN_IMPL | TOKEN_INTERFACE | TOKEN_AS
  | TOKEN_MODULE | TOKEN_IMPORT | TOKEN_RETURN | TOKEN_IF | TOKEN_ELSE | TOKEN_FOR
  | TOKEN_BREAK | TOKEN_CONTINUE | TOKEN_TRUE | TOKEN_FALSE | TOKEN_IDENT.

#[export] Instance TokenType_eq_dec : EqDecision TokenType.
Proof. solve_decision. Defined.

(** The union [TokenValue]; a string is a pointer of the pool. *)
Inductive TokenValue :=
  | as_int (value : Z)
  | as_float (value : f32)
  | as_string (value : nat).

Record Token := MkToken {
  token_type : TokenType;
  token_lexeme : StringRef;
  token_value : option TokenValue;
  token_line : Z;
  token_column : Z;
}.

Record Lexer := MkLexer {
  lx_source : list ascii;
  lx_pos : nat;
  lx_line : Z;
  lx_column : Z;
  lx_start_line : Z;
  lx_start_column : Z;
  lx_diagnostics : Diagnostics;
  lx_strings : StringPool;
  lx_scratch : list ascii;
}.

Definition token_span (token : Token) : Span := MkSpan (token_line token) (token_column token).

Definition token_description (type : TokenType) : string :=
  match type with
  | TOKEN_INVALID => "invalid token"
  | TOKEN_EOF => "end of input"
  | TOKEN_INT => "an integer literal"
  | TOKEN_FLOAT => "a float literal"
  | TOKEN_STRING => "a string literal"
  | TOKEN_IDENT => "an identifier"
  | TOKEN_PLUS => "'+'"
  | TOKEN_MINUS => "'-'"
  | TOKEN_MUL => "'*'"
  | TOKEN_DIV => "'/'"
  | TOKEN_MOD => "'%'"
  | TOKEN_ASSIGN => "'='"
  | TOKEN_PLUS_EQ => "'+='"
  | TOKEN_MINUS_EQ => "'-='"
  | TOKEN_MUL_EQ => "'*='"
  | TOKEN_DIV_EQ => "'/='"
  | TOKEN_MOD_EQ => "'%='"
  | TOKEN_NOT => "'!'"
  | TOKEN_LESS => "'<'"
  | TOKEN_GREATER => "'>'"
  | TOKEN_EQUAL => "'=='"
  | TOKEN_NEQUAL => "'!='"
  | TOKEN_LEQUAL => "'<='"
  | TOKEN_GEQUAL => "'>='"
  | TOKEN_AND => "'&&'"
  | TOKEN_AMP => "'&'"
  | TOKEN_OR => "'||'"
  | TOKEN_LPAREN => "'('"
  | TOKEN_RPAREN => "')'"
  | TOKEN_LBRACE => "'{'"
  | TOKEN_RBRACE => "'}'"
  | TOKEN_LBRACKET => "'['"
  | TOKEN_RBRACKET => "']'"
  | TOKEN_SEMICOLON => "';'"
  | TOKEN_COLON => "':'"
  | TOKEN_COLON_COLON => "'::'"
  | TOKEN_COMMA => "','"
  | TOKEN_DOT => "'.'"
  | TOKEN_DOT_DOT => "'..'"
  | TOKEN_LET => "'let'"
  | TOKEN_FUNC => "'func'"
  | TOKEN_EXTERN => "'extern'"
  | TOKEN_INTRINSIC => "'intrinsic'"
  | TOKEN_CALLER => "'caller'"
  | TOKEN_BUILTIN => "a builtin"
  | TOKEN_STRUCT => "'struct'"
  | TOKEN_IMPL => "'impl'"
  | TOKEN_INTERFACE => "'interface'"
  | TOKEN_AS => "'as'"
  | TOKEN_MODULE => "'module'"
  | TOKEN_IMPORT => "'import'"
  | TOKEN_RETURN => "'return'"
  | TOKEN_IF => "'if'"
  | TOKEN_ELSE => "'else'"
  | TOKEN_FOR => "'for'"
  | TOKEN_BREAK => "'break'"
  | TOKEN_CONTINUE => "'continue'"
  | TOKEN_TRUE => "'true'"
  | TOKEN_FALSE => "'false'"
  end.

(** ** The C library's part *)

Definition code (c : ascii) : N := N_of_ascii c.
Definition isdigit (c : ascii) : bool := (48 <=? code c)%N && (code c <=? 57)%N.
Definition isalpha (c : ascii) : bool :=
  ((65 <=? code c) && (code c <=? 90) || (97 <=? code c) && (code c <=? 122))%N.
Definition isalnum (c : ascii) : bool := isalpha c || isdigit c.
Definition isspace (c : ascii) : bool := ((code c =? 32) || (9 <=? code c) && (code c <=? 13))%N.

Definition digit_value (c : ascii) : Z := (Z.of_N (code c) - 48)%Z.
Definition digits_value (ds : list ascii) : Z := foldl (fun v c => 10 * v + digit_value c)%Z 0%Z ds.

(** The longest prefix of a class, and what follows it. *)
Fixpoint span_class (f : ascii -> bool) (s : list ascii) : list ascii * list ascii :=
  match s with
  | c :: s => if f c then let '(a, b) := span_class f s in (c :: a, b) else ([], c :: s)
  | [] => ([], [])
  end.

Definition LLONG_MAX : Z := (2 ^ 63 - 1)%Z.
Definition LLONG_MIN : Z := (- 2 ^ 63)%Z.

(** The sign [strtoll] and [strtof] accept after white space. *)
Definition skip_sign (s : list ascii) : bool * list ascii :=
  match (span_class isspace s).2 with
  | "-"%char :: s => (true, s)
  | "+"%char :: s => (false, s)
  | s => (false, s)
  end.

(** [strtoll(s, NULL, 10)] and whether it set [errno] to [ERANGE]. *)
Definition strtoll (s : list ascii) : Z * bool :=
  let '(negative, s) := skip_sign s in
  let magnitude := digits_value (span_class isdigit s).1 in
  let value := if negative then (- magnitude)%Z else magnitude in
  if (value <? LLONG_MIN)%Z then (LLONG_MIN, true)
  else if (LLONG_MAX <? value)%Z then (LLONG_MAX, true)
  else (value, false).

(** The binary32 nearest to [m * 10 ^ e]. *)
Definition decimal_f32 (negative : bool) (m e : Z) : f32 :=
  match m with
  | Zpos _ =>
      if (0 <=? e)%Z then binary_normalize f32_prec f32_emax (if negative then - (m * 10 ^ e) else m * 10 ^ e)%Z 0 negative
      else
        let d := (10 ^ (- e))%Z in
        let s := Z.max 0 (Z.log2 d - Z.log2 m + 27) in
        let q := (m * 2 ^ s / d)%Z in
        let r := (m * 2 ^ s mod d)%Z in
        let loc := if (r =? 0)%Z then loc_Exact else loc_Inexact (2 * r ?= d)%Z in
        binary_round_aux f32_prec f32_emax negative q (- s) loc
  | _ => S754_zero negative
  end.

(** The exponent part [e[+-]digits], when there is one. *)
Definition exponent_part (s : list ascii) : Z :=
  match s with
  | ("e"%char | "E"%char) :: s =>
      match s with
      | "-"%char :: s => (- digits_value (span_class isdigit s).1)%Z
      | "+"%char :: s => digits_value (span_class isdigit s).1
      | s => digits_value (span_class isdigit s).1
      end
  | _ => 0%Z
  end.

(** [strtof(s, NULL)] on decimal text, the only text the lexer gives it: the
    number it reads never starts with [0x], [inf] or [nan]. *)
Definition strtof (s : list ascii) : f32 :=
  let '(negative, s) := skip_sign s in
  let '(whole, s) := span_class isdigit s in
  let '(fraction, s) := match s with "."%char :: s => span_class isdigit s | s => ([], s) end in
  decimal_f32 negative (digits_value (whole ++ fraction)) (exponent_part s - Z.of_nat (length fraction))%Z.

(** The text of [%c] and of the format after it; a terminator ends the message. *)
Definition format_char (ch : ascii) (after : string) : string :=
  if Ascii.eqb ch NUL then "" else String ch after.

(** ** Reading *)

Definition lexer_create (source : list ascii) (strings : StringPool) (diagnostics : Diagnostics) : Lexer :=
  MkLexer source 0 1 1 1 1 diagnostics strings [].

Definition lexer_peek (lx : Lexer) : ascii := default NUL (lx_source lx !! lx_pos lx).
(** [source[pos + 1]]. *)
Definition lexer_peek_next (lx : Lexer) : ascii := default NUL (lx_source lx !! S (lx_pos lx)).

Definition newline : ascii := "010"%char.
Definition quote : ascii := "034"%char.
Definition backslash : ascii := "092"%char.

Definition lexer_eat (lx : Lexer) : Lexer :=
  let '(line, column) :=
    if Ascii.eqb (lexer_peek lx) newline then ((lx_line lx + 1)%Z, 1%Z) else (lx_line lx, (lx_column lx + 1)%Z) in
  MkLexer (lx_source lx) (S (lx_pos lx)) line column (lx_start_line lx) (lx_start_column lx)
    (lx_diagnostics lx) (lx_strings lx) (lx_scratch lx).

Definition with_start (lx : Lexer) : Lexer :=
  MkLexer (lx_source lx) (lx_pos lx) (lx_line lx) (lx_column lx) (lx_line lx) (lx_column lx)
    (lx_diagnostics lx) (lx_strings lx) (lx_scratch lx).
Definition with_strings (lx : Lexer) (strings : StringPool) : Lexer :=
  MkLexer (lx_source lx) (lx_pos lx) (lx_line lx) (lx_column lx) (lx_start_line lx) (lx_start_column lx)
    (lx_diagnostics lx) strings (lx_scratch lx).
Definition with_scratch (lx : Lexer) (scratch : list ascii) : Lexer :=
  MkLexer (lx_source lx) (lx_pos lx) (lx_line lx) (lx_column lx) (lx_start_line lx) (lx_start_column lx)
    (lx_diagnostics lx) (lx_strings lx) scratch.
Definition report (lx : Lexer) (kind : DiagKind) (span : Span) (message : string) : Lexer :=
  MkLexer (lx_source lx) (lx_pos lx) (lx_line lx) (lx_column lx) (lx_start_line lx) (lx_start_column lx)
    (diag_error (lx_diagnostics lx) kind span message) (lx_strings lx) (lx_scratch lx).

Definition start_span (lx : Lexer) : Span := MkSpan (lx_start_line lx) (lx_start_column lx).

Definition token_create (lx : Lexer) (type : TokenType) : Token :=
  MkToken type [] None (lx_start_line lx) (lx_start_column lx).
Definition token_create_value (lx : Lexer) (type : TokenType) (value : TokenValue) : Token :=
  MkToken type [] (Some value) (lx_start_line lx) (lx_start_column lx).
Definition token_create_ref (lx : Lexer) (type : TokenType) (ref : StringRef) : Token :=
  MkToken type ref None (lx_start_line lx) (lx_start_column lx).

(** The bytes not read yet; the loops below never take more turns than there
    are such bytes, and one to find the end. *)
Definition remaining (lx : Lexer) : list ascii := drop (lx_pos lx) (lx_source lx).
Definition turns (lx : Lexer) : nat := S (length (remaining lx)).

(** [while (f(lexer_peek(lexer))) lexer_eat(lexer);] *)
Fixpoint eat_while (fuel : nat) (f : ascii -> bool) (lx : Lexer) : Lexer :=
  match fuel with
  | O => lx
  | S fuel => if f (lexer_peek lx) then eat_while fuel f (lexer_eat lx) else lx
  end.

(** The bytes a reference made between two positions spans. *)
Definition text_between (before after : Lexer) : StringRef :=
  take (lx_pos after - lx_pos before) (remaining before).

(** ** Tokens *)

Definition lexer_number (lx : Lexer) : Token * Lexer :=
  let opened := start_span lx in
  let begin := remaining lx in
  let lx := eat_while (turns lx) isdigit lx in
  let '(type, lx) :=
    if Ascii.eqb (lexer_peek lx) "."%char && negb (Ascii.eqb (lexer_peek_next lx) "."%char) then
      let lx := lexer_eat lx in (TOKEN_FLOAT, eat_while (turns lx) isdigit lx)
    else (TOKEN_INT, lx) in
  if decide (type = TOKEN_FLOAT) then (token_create_value lx type (as_float (strtof begin)), lx)
  else
    let '(value, out_of_range) := strtoll begin in
    if out_of_range : bool then
      let lx := report lx GAB_ERR_TYPE opened "integer literal is out of range" in
      (token_create lx TOKEN_INVALID, lx)
    else (token_create_value lx type (as_int (to_i64 value)), lx).

(** [while (capacity < needed) capacity *= 2;] *)
Fixpoint grow_capacity (fuel capacity needed : nat) : nat :=
  match fuel with
  | O => capacity
  | S fuel => if Nat.ltb capacity needed then grow_capacity fuel (capacity * 2) needed else capacity
  end.

(** [arena_alloc] aborts rather than return null, so the answer is [true]; the
    bytes it hands out are read only after they are written. *)
Definition lexer_reserve (lx : Lexer) (needed : nat) : bool * Lexer :=
  let scratch_capacity := length (lx_scratch lx) in
  if bool_decide (needed <= scratch_capacity) then (true, lx)
  else
    let capacity := grow_capacity needed (if bool_decide (scratch_capacity = 0) then 32 else scratch_capacity) needed in
    (true, with_scratch lx (lx_scratch lx ++ replicate (capacity - scratch_capacity) NUL)).

Definition escape_value (ch : ascii) : option ascii :=
  if Ascii.eqb ch "n"%char then Some newline
  else if Ascii.eqb ch "t"%char then Some "009"%char
  else if Ascii.eqb ch "0"%char then Some NUL
  else if Ascii.eqb ch backslash then Some backslash
  else if Ascii.eqb ch quote then Some quote
  else None.

(** The loop of [lexer_string]: the length of the closed literal's text, or
    [None] inside when it reported an invalid one. *)
Fixpoint string_chars (fuel : nat) (opened : Span) (lx : Lexer) (length : nat) : option (option nat * Lexer) :=
  match fuel with
  | O => None
  | S fuel =>
      let ch := lexer_peek lx in
      if Ascii.eqb ch quote then Some (Some length, lx)
      else if Ascii.eqb ch NUL || Ascii.eqb ch newline then
        Some (None, report lx GAB_ERR_SYNTAX opened "unterminated string literal")
      else
        let at_ := MkSpan (lx_line lx) (lx_column lx) in
        let '(ch, lx) :=
          if Ascii.eqb ch backslash then let lx := lexer_eat lx in (escape_value (lexer_peek lx), lx)
          else (Some ch, lx) in
        match ch with
        | None =>
            Some (None, report lx GAB_ERR_SYNTAX at_
              ("unknown escape sequence '" +:+ String backslash (format_char (lexer_peek lx) "'")))
        | Some ch =>
            let '(reserved, lx) := lexer_reserve lx (length + 1) in
            if negb reserved then Some (None, report lx GAB_ERR_SYNTAX opened "string literal is too long")
            else if bool_decide (length < List.length (lx_scratch lx)) then
              string_chars fuel opened (lexer_eat (with_scratch lx (<[length := ch]> (lx_scratch lx)))) (length + 1)
            else None
        end
  end.

Definition lexer_string (lx : Lexer) : option (Token * Lexer) :=
  let opened := start_span lx in
  let lx := lexer_eat lx in
  '(closed, lx) ← string_chars (turns lx) opened lx 0;
  match closed with
  | None => Some (token_create lx TOKEN_INVALID, lx)
  | Some length =>
      let lx := lexer_eat lx in
      '(strings, text) ← string_from_ref (lx_strings lx) (take length (lx_scratch lx));
      let lx := with_strings lx strings in
      Some (token_create_value lx TOKEN_STRING (as_string text), lx)
  end.

Definition is_ident_char (ch : ascii) : bool := isalnum ch || Ascii.eqb ch "_"%char.

(** The chain of comparisons of [lexer_identifier], in its order. *)
Definition keywords : list (list ascii * TokenType) :=
  [(bytes "let", TOKEN_LET);
   (bytes "if", TOKEN_IF);
   (bytes "else", TOKEN_ELSE);
   (bytes "for", TOKEN_FOR);
   (bytes "break", TOKEN_BREAK);
   (bytes "continue", TOKEN_CONTINUE);
   (bytes "func", TOKEN_FUNC);
   (bytes "struct", TOKEN_STRUCT);
   (bytes "impl", TOKEN_IMPL);
   (bytes "interface", TOKEN_INTERFACE);
   (bytes "as", TOKEN_AS);
   (bytes "extern", TOKEN_EXTERN);
   (bytes "intrinsic", TOKEN_INTRINSIC);
   (bytes "caller", TOKEN_CALLER);
   (bytes "module", TOKEN_MODULE);
   (bytes "import", TOKEN_IMPORT);
   (bytes "return", TOKEN_RETURN);
   (bytes "true", TOKEN_TRUE);
   (bytes "false", TOKEN_FALSE)].

Fixpoint keyword_type (ref : StringRef) (words : list (list ascii * TokenType)) : TokenType :=
  match words with
  | [] => TOKEN_IDENT
  | (word, type) :: words => if string_ref_equals_cstr ref word then type else keyword_type ref words
  end.

Definition lexer_identifier (lx : Lexer) : Token * Lexer :=
  let begin := lx in
  let lx := eat_while (turns lx) is_ident_char lx in
  let ref := text_between begin lx in
  (token_create_ref lx (keyword_type ref keywords) ref, lx).

Definition lexer_invalid (lx : Lexer) (ch : ascii) : Token * Lexer :=
  let token := token_create lx TOKEN_INVALID in
  (token, report lx GAB_ERR_SYNTAX (token_span token) ("unexpected character '" +:+ format_char ch "'")).

Definition lexer_handle_eq (lx : Lexer) (base_tok eq_tok : TokenType) : Token * Lexer :=
  if Ascii.eqb (lexer_peek lx) "="%char then let lx := lexer_eat lx in (token_create lx eq_tok, lx)
  else (token_create lx base_tok, lx).

Definition lexer_handle_op_eq (lx : Lexer) (base_tok eq_tok : TokenType) (op_ch : ascii) (op_tok : TokenType) :
    Token * Lexer :=
  let ch := lexer_peek lx in
  if Ascii.eqb ch "="%char then
    let lx := lexer_eat lx in
    if decide (eq_tok = TOKEN_INVALID) then lexer_invalid lx op_ch else (token_create lx eq_tok, lx)
  else if Ascii.eqb ch op_ch then let lx := lexer_eat lx in (token_create lx op_tok, lx)
  else if decide (base_tok = TOKEN_INVALID) then lexer_invalid lx op_ch
  else (token_create lx base_tok, lx).

(** The loop inside a block comment: the lexer at its end, or after reporting
    that the source ended first. *)
Fixpoint block_comment (fuel : nat) (opened : Span) (lx : Lexer) : option (bool * Lexer) :=
  match fuel with
  | O => None
  | S fuel =>
      if Ascii.eqb (lexer_peek lx) "*"%char && Ascii.eqb (lexer_peek_next lx) "/"%char then Some (true, lx)
      else if Ascii.eqb (lexer_peek lx) NUL then
        Some (false, report lx GAB_ERR_SYNTAX opened "unterminated block comment")
      else block_comment fuel opened (lexer_eat lx)
  end.

(** The [for (;;)] of [lexer_skip_trivia]. *)
Fixpoint skip_trivia (fuel : nat) (lx : Lexer) : option Lexer :=
  match fuel with
  | O => None
  | S fuel =>
      let lx := eat_while (turns lx) isspace lx in
      if negb (Ascii.eqb (lexer_peek lx) "/"%char) then Some lx
      else
        let next := lexer_peek_next lx in
        if Ascii.eqb next "/"%char then
          skip_trivia fuel (eat_while (turns lx) (fun ch => negb (Ascii.eqb ch newline) && negb (Ascii.eqb ch NUL)) lx)
        else if Ascii.eqb next "*"%char then
          let opened := MkSpan (lx_line lx) (lx_column lx) in
          let lx := lexer_eat (lexer_eat lx) in
          '(closed, lx) ← block_comment (turns lx) opened lx;
          if closed : bool then skip_trivia fuel (lexer_eat (lexer_eat lx)) else Some lx
        else Some lx
  end.

Definition lexer_skip_trivia (lx : Lexer) : option Lexer := skip_trivia (turns lx) lx.

(** The [case '@'] of [lexer_next]. *)
Definition lexer_builtin (lx : Lexer) : Token * Lexer :=
  let begin := lx in
  let lx := eat_while (turns lx) is_ident_char lx in
  let ref := text_between begin lx in
  if Nat.eqb (length ref) 0 then (token_create lx TOKEN_INVALID, lx)
  else (token_create_ref lx TOKEN_BUILTIN ref, lx).

(** The [switch] of [lexer_next], [ch] eaten. *)
Definition lexer_symbol (lx : Lexer) (ch : ascii) : Token * Lexer :=
  match ch with
  | "+"%char => lexer_handle_eq lx TOKEN_PLUS TOKEN_PLUS_EQ
  | "-"%char => lexer_handle_eq lx TOKEN_MINUS TOKEN_MINUS_EQ
  | "*"%char => lexer_handle_eq lx TOKEN_MUL TOKEN_MUL_EQ
  | "/"%char => lexer_handle_eq lx TOKEN_DIV TOKEN_DIV_EQ
  | "%"%char => lexer_handle_eq lx TOKEN_MOD TOKEN_MOD_EQ
  | "("%char => (token_create lx TOKEN_LPAREN, lx)
  | ")"%char => (token_create lx TOKEN_RPAREN, lx)
  | "{"%char => (token_create lx TOKEN_LBRACE, lx)
  | "}"%char => (token_create lx TOKEN_RBRACE, lx)
  | "["%char => (token_create lx TOKEN_LBRACKET, lx)
  | "]"%char => (token_create lx TOKEN_RBRACKET, lx)
  | "="%char => lexer_handle_eq lx TOKEN_ASSIGN TOKEN_EQUAL
  | "!"%char => lexer_handle_eq lx TOKEN_NOT TOKEN_NEQUAL
  | "<"%char => lexer_handle_eq lx TOKEN_LESS TOKEN_LEQUAL
  | ">"%char => lexer_handle_eq lx TOKEN_GREATER TOKEN_GEQUAL
  | "&"%char => lexer_handle_op_eq lx TOKEN_AMP TOKEN_INVALID "&"%char TOKEN_AND
  | "|"%char => lexer_handle_op_eq lx TOKEN_INVALID TOKEN_INVALID "|"%char TOKEN_OR
  | "@"%char => lexer_builtin lx
  | ";"%char => (token_create lx TOKEN_SEMICOLON, lx)
  | ":"%char => lexer_handle_op_eq lx TOKEN_COLON TOKEN_INVALID ":"%char TOKEN_COLON_COLON
  | ","%char => (token_create lx TOKEN_COMMA, lx)
  | "."%char =>
      if Ascii.eqb (lexer_peek lx) "."%char then let lx := lexer_eat lx in (token_create lx TOKEN_DOT_DOT, lx)
      else (token_create lx TOKEN_DOT, lx)
  | _ => lexer_invalid lx ch
  end.

(** What [lexer_next] does after the trivia, from the token's start. *)
Definition lexer_token (lx : Lexer) : option (Token * Lexer) :=
  let ch := lexer_peek lx in
  if isdigit ch || (Ascii.eqb ch "."%char && isdigit (lexer_peek_next lx)) then Some (lexer_number lx)
  else if isalpha ch || Ascii.eqb ch "_"%char then Some (lexer_identifier lx)
  else if Ascii.eqb ch quote then lexer_string lx
  else if Ascii.eqb ch NUL then Some (token_create lx TOKEN_EOF, lx)
  else Some (lexer_symbol (lexer_eat lx) ch).

Definition lexer_next (lx : Lexer) : option (Token * Lexer) :=
  lx ← lexer_skip_trivia lx; lexer_token (with_start lx).

(** Every token up to the first [TOKEN_EOF], as the parser asks for them. *)
Fixpoint lex_tokens (fuel : nat) (lx : Lexer) : option (list Token * Lexer) :=
  match fuel with
  | O => None
  | S fuel =>
      '(token, lx) ← lexer_next lx;
      if decide (token_type token = TOKEN_EOF) then Some ([token], lx)
      else '(tokens, lx) ← lex_tokens fuel lx; Some (token :: tokens, lx)
  end.

Definition lex_source (source : list ascii) : option (list Token * Lexer) :=
  strings ← string_pool_init;
  lex_tokens (S (length source)) (lexer_create source strings (diagnostics_init None)).


(** ** Eating *)

Lemma tail_drop {A} (n : nat) (l : list A) : tail (drop n l) = drop (S n) l.
Proof. revert n. induction l as [|x l IH]; intros [|n]; try done. apply IH. Qed.

Lemma peek_remaining lx : lexer_peek lx = default NUL (head (remaining lx)).
Proof. unfold lexer_peek, remaining. by rewrite head_lookup, lookup_drop, Nat.add_0_r. Qed.

Lemma peek_next_remaining lx : lexer_peek_next lx = default NUL (head (tail (remaining lx))).
Proof. unfold lexer_peek_next, remaining. by rewrite tail_drop, head_lookup, lookup_drop, Nat.add_0_r. Qed.

Lemma eat_fields lx :
  lx_source (lexer_eat lx) = lx_source lx /\ lx_pos (lexer_eat lx) = S (lx_pos lx) /\
  start_span (lexer_eat lx) = start_span lx /\ lx_diagnostics (lexer_eat lx) = lx_diagnostics lx /\
  lx_strings (lexer_eat lx) = lx_strings lx /\ lx_scratch (lexer_eat lx) = lx_scratch lx.
Proof. unfold lexer_eat. by destruct (Ascii.eqb (lexer_peek lx) newline). Qed.

Lemma remaining_eat lx : remaining (lexer_eat lx) = tail (remaining lx).
Proof.
  unfold remaining. destruct (eat_fields lx) as (-> & -> & _). by rewrite tail_drop.
Qed.

(** The lexer after it ate the bytes of [s]. *)
Fixpoint after (lx : Lexer) (s : list ascii) : Lexer :=
  match s with [] => lx | _ :: s => after (lexer_eat lx) s end.

Lemma after_app lx s t : after lx (s ++ t) = after (after lx s) t.
Proof. revert lx. induction s as [|c s IH]; intros lx; [done|]. apply IH. Qed.

Lemma after_fields lx s :
  lx_source (after lx s) = lx_source lx /\ lx_pos (after lx s) = lx_pos lx + length s /\
  start_span (after lx s) = start_span lx /\ lx_diagnostics (after lx s) = lx_diagnostics lx /\
  lx_strings (after lx s) = lx_strings lx /\ lx_scratch (after lx s) = lx_scratch lx.
Proof.
  revert lx. induction s as [|c s IH]; intros lx; [cbn; repeat split; lia|]. cbn [after length].
  destruct (IH (lexer_eat lx)) as (-> & -> & -> & -> & -> & ->).
  destruct (eat_fields lx) as (-> & -> & -> & -> & -> & ->). repeat split; lia.
Qed.

Lemma remaining_after lx s r : remaining lx = s ++ r -> remaining (after lx s) = r.
Proof.
  revert lx. induction s as [|c s IH]; intros lx Hs; [done|]. apply IH. by rewrite remaining_eat, Hs.
Qed.

(** Lines and columns: what each byte does to the position. *)
Definition locate (at_ : Z * Z) (c : ascii) : Z * Z :=
  if Ascii.eqb c newline then (at_.1 + 1, 1)%Z else (at_.1, at_.2 + 1)%Z.
Definition location (before : list ascii) : Z * Z := foldl locate (1, 1)%Z before.
Definition lx_at (lx : Lexer) : Z * Z := (lx_line lx, lx_column lx).

Lemma after_at lx s r : remaining lx = s ++ r -> lx_at (after lx s) = foldl locate (lx_at lx) s.
Proof.
  revert lx. induction s as [|c s IH]; intros lx Hs; [done|]. cbn [after foldl].
  rewrite IH by by rewrite remaining_eat, Hs. f_equal. unfold lexer_eat, locate, lx_at.
  rewrite peek_remaining, Hs. cbn. by destruct (Ascii.eqb c newline).
Qed.

Lemma span_class_app f s : (span_class f s).1 ++ (span_class f s).2 = s.
Proof. induction s as [|c s IH]; [done|]. cbn. destruct (f c); [|done]. destruct (span_class f s). cbn in *. by f_equal. Qed.

Lemma span_class_all f s : Forall (fun c => f c = true) (span_class f s).1.
Proof.
  induction s as [|c s IH]; [constructor|]. cbn. destruct (f c) eqn:Hc; [|constructor].
  destruct (span_class f s). by constructor.
Qed.

Lemma span_class_stop f s : f NUL = false -> f (default NUL (head (span_class f s).2)) = false.
Proof.
  intros Hf. induction s as [|c s IH]; [done|]. cbn. destruct (f c) eqn:Hc; [|done]. by destruct (span_class f s).
Qed.

Lemma span_class_exact f s c r :
  Forall (fun c => f c = true) s -> f c = false -> span_class f (s ++ c :: r) = (s, c :: r).
Proof.
  intros Hs Hc. induction Hs as [|d s Hd Hs IH]; cbn; [by rewrite Hc|]. rewrite Hd.
  change (foldr cons (c :: r) s) with (s ++ c :: r). by rewrite IH.
Qed.

Lemma eat_while_span f fuel lx :
  f NUL = false -> length (remaining lx) < fuel ->
  eat_while fuel f lx = after lx (span_class f (remaining lx)).1.
Proof.
  intros Hf. revert lx. induction fuel as [|fuel IH]; intros lx Hlt; [lia|]. cbn [eat_while].
  rewrite peek_remaining. destruct (remaining lx) as [|c r] eqn:Hr; cbn [head hd_error default from_option id span_class].
  - by rewrite Hf.
  - destruct (f c) eqn:Hc; [|done]. rewrite IH by (rewrite remaining_eat, Hr; cbn in *; lia).
    rewrite remaining_eat, Hr. cbn [tail tl]. by destruct (span_class f r).
Qed.

Lemma text_between_after lx s r : remaining lx = s ++ r -> text_between lx (after lx s) = s.
Proof.
  intros Hs. unfold text_between. destruct (after_fields lx s) as (_ & -> & _).
  rewrite Nat.add_comm, Nat.add_sub, Hs. apply take_app_length.
Qed.

(** ** Reading

    [reads lx s lx']: the lexer went over the bytes of [s], its position with
    them; what was reported and interned before is still there. *)

Record reads (lx : Lexer) (s : list ascii) (lx' : Lexer) : Prop := {
  rd_source : lx_source lx' = lx_source lx;
  rd_pos : lx_pos lx' = lx_pos lx + length s;
  rd_text : remaining lx = s ++ remaining lx';
  rd_at : lx_at lx' = foldl locate (lx_at lx) s;
  rd_pool : pool_ok (lx_strings lx) -> pool_ok (lx_strings lx');
  rd_heap : pool_heap (lx_strings lx) `prefix_of` pool_heap (lx_strings lx');
  rd_diagnostics : diag_items (lx_diagnostics lx) `prefix_of` diag_items (lx_diagnostics lx');
}.

Lemma reads_after lx s r : remaining lx = s ++ r -> reads lx s (after lx s).
Proof.
  intros Hs. destruct (after_fields lx s) as (H1 & H2 & _ & H4 & H5 & _). split; try done.
  - rewrite Hs. by rewrite (remaining_after lx s r).
  - by eapply after_at.
  - by rewrite H5.
  - by rewrite H5.
  - by rewrite H4.
Qed.

Lemma reads_eat lx : lexer_peek lx <> NUL -> reads lx [lexer_peek lx] (lexer_eat lx).
Proof.
  intros Hp. rewrite peek_remaining in *. destruct (remaining lx) as [|c r] eqn:Hr; [done|].
  by apply (reads_after lx [c] r).
Qed.

Lemma reads_trans lx s lx1 t lx2 : reads lx s lx1 -> reads lx1 t lx2 -> reads lx (s ++ t) lx2.
Proof.
  intros [H1 H2 H3 H4 H5 H6 H7] [K1 K2 K3 K4 K5 K6 K7]. split.
  - congruence.
  - rewrite K2, H2, length_app. lia.
  - by rewrite H3, K3, app_assoc.
  - by rewrite K4, H4, foldl_app.
  - auto.
  - by etrans.
  - by etrans.
Qed.

(** What leaves the position alone. *)
Lemma reads_nil lx lx' :
  lx_source lx' = lx_source lx -> lx_pos lx' = lx_pos lx -> lx_at lx' = lx_at lx ->
  (pool_ok (lx_strings lx) -> pool_ok (lx_strings lx')) ->
  pool_heap (lx_strings lx) `prefix_of` pool_heap (lx_strings lx') ->
  diag_items (lx_diagnostics lx) `prefix_of` diag_items (lx_diagnostics lx') -> reads lx [] lx'.
Proof.
  intros H1 H2 H3 H4 H5 H6. split; try done.
  - cbn. lia.
  - unfold remaining. by rewrite H1, H2.
Qed.

Lemma reads_refl lx : reads lx [] lx.
Proof. by apply reads_nil. Qed.
Lemma reads_report lx kind span message : reads lx [] (report lx kind span message).
Proof. apply reads_nil; try done. cbn. by apply prefix_app_r. Qed.
Lemma reads_with_start lx : reads lx [] (with_start lx).
Proof. by apply reads_nil. Qed.
Lemma reads_with_scratch lx scratch : reads lx [] (with_scratch lx scratch).
Proof. by apply reads_nil. Qed.

Lemma reads_eat_while f lx :
  f NUL = false ->
  let s := (span_class f (remaining lx)).1 in
  eat_while (turns lx) f lx = after lx s /\ reads lx s (eat_while (turns lx) f lx) /\
  f (lexer_peek (eat_while (turns lx) f lx)) = false.
Proof.
  intros Hf s. assert (He : eat_while (turns lx) f lx = after lx s) by (apply eat_while_span; [done|unfold turns; lia]).
  pose proof (span_class_app f (remaining lx)) as Hs. fold s in Hs. split; [done|]. rewrite He.
  split; [by eapply reads_after|]. rewrite peek_remaining.
  rewrite (remaining_after lx s (span_class f (remaining lx)).2) by done. by apply span_class_stop.
Qed.

(** ** What the text of a token is *)

Definition symbol_text (type : TokenType) : option (list ascii) :=
  match type with
  | TOKEN_PLUS => Some (bytes "+") | TOKEN_MINUS => Some (bytes "-") | TOKEN_MUL => Some (bytes "*")
  | TOKEN_DIV => Some (bytes "/") | TOKEN_MOD => Some (bytes "%") | TOKEN_ASSIGN => Some (bytes "=")
  | TOKEN_PLUS_EQ => Some (bytes "+=") | TOKEN_MINUS_EQ => Some (bytes "-=") | TOKEN_MUL_EQ => Some (bytes "*=")
  | TOKEN_DIV_EQ => Some (bytes "/=") | TOKEN_MOD_EQ => Some (bytes "%=") | TOKEN_NOT => Some (bytes "!")
  | TOKEN_LESS => Some (bytes "<") | TOKEN_GREATER => Some (bytes ">") | TOKEN_EQUAL => Some (bytes "==")
  | TOKEN_NEQUAL => Some (bytes "!=") | TOKEN_LEQUAL => Some (bytes "<=") | TOKEN_GEQUAL => Some (bytes ">=")
  | TOKEN_AND => Some (bytes "&&") | TOKEN_AMP => Some (bytes "&") | TOKEN_OR => Some (bytes "||")
  | TOKEN_LPAREN => Some (bytes "(") | TOKEN_RPAREN => Some (bytes ")") | TOKEN_LBRACE => Some (bytes "{")
  | TOKEN_RBRACE => Some (bytes "}") | TOKEN_LBRACKET => Some (bytes "[") | TOKEN_RBRACKET => Some (bytes "]")
  | TOKEN_SEMICOLON => Some (bytes ";") | TOKEN_COLON => Some (bytes ":") | TOKEN_COLON_COLON => Some (bytes "::")
  | TOKEN_COMMA => Some (bytes ",") | TOKEN_DOT => Some (bytes ".") | TOKEN_DOT_DOT => Some (bytes "..")
  | _ => None
  end.

Definition is_keyword (type : TokenType) : bool :=
  match type with
  | TOKEN_LET | TOKEN_IF | TOKEN_ELSE | TOKEN_FOR | TOKEN_BREAK | TOKEN_CONTINUE
  | TOKEN_FUNC | TOKEN_STRUCT | TOKEN_IMPL | TOKEN_INTERFACE | TOKEN_AS | TOKEN_EXTERN
  | TOKEN_INTRINSIC | TOKEN_CALLER | TOKEN_MODULE | TOKEN_IMPORT | TOKEN_RETURN | TOKEN_TRUE
  | TOKEN_FALSE => true
  | _ => false
  end.

(** The escape sequences of the language. *)
Definition escapes : list (ascii * ascii) :=
  [("n"%char, "010"%char); ("t"%char, "009"%char); ("0"%char, "000"%char); (backslash, backslash); (quote, quote)].
Definition escape_meaning (e : ascii) : option ascii :=
  snd <$> find (fun p => Ascii.eqb e p.1) escapes.

Lemma escape_meaning_value e : escape_meaning e = escape_value e.
Proof. by destruct e as [[] [] [] [] [] [] [] []]. Qed.

(** The bytes a string literal's body stands for. *)
Fixpoint unescape (body : list ascii) : option (list ascii) :=
  match body with
  | [] => Some []
  | c :: body =>
      if Ascii.eqb c backslash then
        match body with
        | [] => None
        | e :: body => v ← escape_meaning e; rest ← unescape body; Some (v :: rest)
        end
      else if Ascii.eqb c quote || Ascii.eqb c NUL || Ascii.eqb c newline then None
      else rest ← unescape body; Some (c :: rest)
  end.

Definition token_text (heap : list (list ascii)) (tok : Token) (text : list ascii) : Prop :=
  match token_type tok with
  | TOKEN_INVALID => True
  | TOKEN_EOF => text = []
  | TOKEN_INT =>
      Forall (fun c => isdigit c = true) text /\ (digits_value text <= LLONG_MAX)%Z /\
      token_value tok = Some (as_int (digits_value text))
  | TOKEN_FLOAT =>
      exists whole fraction, text = whole ++ "."%char :: fraction /\
        Forall (fun c => isdigit c = true) whole /\ Forall (fun c => isdigit c = true) fraction
  | TOKEN_STRING =>
      exists body p content, text = quote :: body ++ [quote] /\ token_value tok = Some (as_string p) /\
        unescape body = Some content /\ heap !! p = Some content
  | TOKEN_BUILTIN => text = "@"%char :: token_lexeme tok /\ Forall (fun c => is_ident_char c = true) (token_lexeme tok)
  | TOKEN_IDENT =>
      token_lexeme tok = text /\ Forall (fun c => is_ident_char c = true) text /\ text ∉ keywords.*1
  | type =>
      if is_keyword type then token_lexeme tok = text /\ (text, type) ∈ keywords else symbol_text type = Some text
  end.

(** The value of a float literal is what [strtof] reads from where it starts, which
    may be more than its text. *)
Definition float_value (from : list ascii) (tok : Token) : Prop :=
  token_type tok = TOKEN_FLOAT -> token_value tok = Some (as_float (strtof from)).

(** What reading one token from [lx] does: its bytes, where it is said to be,
    and that exactly the invalid ones, but for a lone [@], are reported. *)
Record token_read (lx : Lexer) (text : list ascii) (tok : Token) (lx' : Lexer) : Prop := {
  tr_reads : reads lx text lx';
  tr_span : token_span tok = start_span lx;
  tr_text : token_text (pool_heap (lx_strings lx')) tok text;
  tr_some : text = [] -> lexer_peek lx = NUL /\ lx' = lx;
  tr_valid : token_type tok <> TOKEN_INVALID -> lx_diagnostics lx' = lx_diagnostics lx;
  tr_invalid : token_type tok = TOKEN_INVALID ->
    diagnostics_count (lx_diagnostics lx') =
    diagnostics_count (lx_diagnostics lx) + (if decide (text = bytes "@") then 0 else 1);
  tr_float : float_value (remaining lx) tok;
}.

Lemma diag_report_count lx kind span message :
  diagnostics_count (lx_diagnostics (report lx kind span message)) = S (diagnostics_count (lx_diagnostics lx)).
Proof. unfold diagnostics_count. cbn. rewrite length_app. cbn. lia. Qed.

(** *** Numbers *)

Lemma isdigit_range c : isdigit c = true -> (48 <= code c <= 57)%N.
Proof. unfold isdigit. rewrite andb_true_iff, !N.leb_le. lia. Qed.

Lemma span_class_prefix f s r :
  Forall (fun c => f c = true) s -> f (default NUL (head r)) = false -> f NUL = false ->
  span_class f (s ++ r) = (s, r).
Proof.
  intros Hs Hr Hnul. destruct r as [|c r]; [|by apply span_class_exact].
  rewrite app_nil_r. induction Hs as [|d s Hd _ IH]; [done|]. cbn. by rewrite Hd, IH.
Qed.

Lemma digit_no_sign c r : isdigit c = true -> skip_sign (c :: r) = (false, c :: r).
Proof.
  intros Hc%isdigit_range. unfold skip_sign, isspace. cbn.
  replace (_ || _)%N with false; [|symmetry; apply orb_false_iff; rewrite andb_false_iff, N.eqb_neq, !N.leb_gt; lia].
  cbn. destruct c as [[] [] [] [] [] [] [] []]; try done; unfold code in Hc; cbn in Hc; lia.
Qed.

Lemma digits_value_nonneg ds : Forall (fun c => isdigit c = true) ds -> (0 <= digits_value ds)%Z.
Proof.
  intros Hds. unfold digits_value. assert (Hg : forall v, (0 <= v)%Z -> (0 <= foldl (fun v c => 10 * v + digit_value c) v ds)%Z).
  { induction Hds as [|c ds Hc _ IH]; intros v Hv; [done|]. cbn [foldl]. apply IH.
    apply isdigit_range in Hc. unfold digit_value. lia. }
  by apply Hg.
Qed.

(** [strtoll] on a run of digits. *)
Lemma strtoll_digits ds r :
  Forall (fun c => isdigit c = true) ds -> ds <> [] -> isdigit (default NUL (head r)) = false ->
  strtoll (ds ++ r) =
  if (LLONG_MAX <? digits_value ds)%Z then (LLONG_MAX, true) else (digits_value ds, false).
Proof.
  intros Hds Hne Hr. pose proof (digits_value_nonneg ds Hds) as Hnn. unfold strtoll.
  destruct ds as [|d ds]; [done|]. pose proof Hds as [Hd _]%Forall_cons. cbn [app].
  rewrite (digit_no_sign d) by done. change (d :: ds ++ r) with ((d :: ds) ++ r).
  rewrite (span_class_prefix isdigit) by done. cbn [fst].
  destruct (Z.ltb_spec (digits_value (d :: ds)) LLONG_MIN); [unfold LLONG_MIN in *; lia|]. done.
Qed.

Lemma number_read lx :
  isdigit (lexer_peek lx) || (Ascii.eqb (lexer_peek lx) "."%char && isdigit (lexer_peek_next lx)) = true ->
  exists text, token_read lx text (lexer_number lx).1 (lexer_number lx).2.
Proof.
  intros Hstart. unfold lexer_number.
  destruct (reads_eat_while isdigit lx) as (He & Hreads & Hstop); [done|].
  set (ds := (span_class isdigit (remaining lx)).1) in *.
  pose proof (span_class_all isdigit (remaining lx)) as Hds. fold ds in Hds.
  destruct (after_fields lx ds) as (_ & _ & Hspan & Hdiag & _).
  rewrite <- He in Hspan, Hdiag. set (lx1 := eat_while (turns lx) isdigit lx) in *. clearbody lx1.
  destruct (Ascii.eqb (lexer_peek lx1) "."%char && _) eqn:Hdot.
  - apply andb_true_iff in Hdot as [Hdot%Ascii.eqb_eq _].
    assert (Heat : reads lx1 ["."%char] (lexer_eat lx1)) by (rewrite <- Hdot; apply reads_eat; by rewrite Hdot).
    destruct (eat_fields lx1) as (_ & _ & Hspan1 & Hdiag1 & _).
    set (lx2 := lexer_eat lx1) in *. clearbody lx2.
    destruct (reads_eat_while isdigit lx2) as (He2 & Hreads2 & _); [done|].
    set (fs := (span_class isdigit (remaining lx2)).1) in *.
    pose proof (span_class_all isdigit (remaining lx2)) as Hfs. fold fs in Hfs.
    destruct (after_fields lx2 fs) as (_ & _ & Hspan2 & Hdiag2 & _). rewrite <- He2 in Hspan2, Hdiag2.
    set (lx3 := eat_while (turns lx2) isdigit lx2) in *. clearbody lx3.
    rewrite decide_True by done. exists (ds ++ "."%char :: fs). split; cbn; try done.
    + change ("."%char :: fs) with (["."%char] ++ fs). eapply reads_trans; [done|]. by eapply reads_trans.
    + change (start_span lx3 = start_span lx). congruence.
    + by exists ds, fs.
    + intros [_ ?]%app_eq_nil. done.
    + intros _. congruence.
  - assert (Hne : ds <> []).
    { intros Hn. assert (Heq : lx1 = lx) by by rewrite He, Hn. rewrite Heq in Hstop, Hdot. rewrite Hstop in Hstart.
      cbn in Hstart. apply andb_true_iff in Hstart as [Hd%Ascii.eqb_eq Hn']. rewrite Hd in Hdot. cbn in Hdot.
      apply negb_false_iff, Ascii.eqb_eq in Hdot. by rewrite Hdot in Hn'. }
    cbn [fst snd]. rewrite decide_False by done. rewrite (rd_text _ _ _ Hreads).
    rewrite strtoll_digits by (done || by rewrite <- peek_remaining).
    pose proof (digits_value_nonneg ds Hds) as Hnn. destruct (Z.ltb_spec LLONG_MAX (digits_value ds)) as [Hlt|Hle].
    + exists ds. split; cbn; try done.
      * rewrite <- (app_nil_r ds). eapply reads_trans; [done|apply reads_report].
      * intros _. rewrite decide_False.
        -- unfold diagnostics_count. cbn. rewrite length_app, Hdiag. done.
        -- intros Hat. rewrite Hat in Hds. by inversion_clear Hds.
    + exists ds. split; cbn; try done. split; [done|]. split; [done|].
      rewrite wrap_signed_id; [done|lia|]. unfold LLONG_MAX in Hle. cbn. lia.
Qed.

(** *** Identifiers *)

Lemma keywords_nul : Forall (fun w => Forall (fun c => c <> NUL) w.1) keywords.
Proof. repeat constructor; done. Qed.

(** The chain of comparisons finds the word, or none of them is it. *)
Lemma keyword_type_spec ref words :
  Forall (fun w : list ascii * TokenType => Forall (fun c => c <> NUL) w.1) words ->
  (ref, keyword_type ref words) ∈ words \/ keyword_type ref words = TOKEN_IDENT /\ ref ∉ words.*1.
Proof.
  intros Hw. induction Hw as [|[word type] words Hword _ IH]; [right; split; [done|]; apply not_elem_of_nil|].
  cbn. destruct (string_ref_equals_cstr ref word) eqn:He.
  - apply string_ref_equals_cstr_spec in He as ->; [|done]. left. left.
  - destruct IH as [IH|[IH1 IH2]]; [by left; right|]. right. split; [done|].
    intros [->|?]%elem_of_cons; [|done].
    assert (string_ref_equals_cstr word word = true) by by apply string_ref_equals_cstr_spec. congruence.
Qed.

Lemma keyword_types ref type : (ref, type) ∈ keywords -> is_keyword type = true.
Proof.
  assert (Hk : Forall (fun w => is_keyword w.2 = true) keywords) by (repeat constructor).
  intros Hin. rewrite Forall_forall in Hk. by apply (Hk (ref, type)).
Qed.

Lemma keyword_plain type :
  is_keyword type = true ->
  type <> TOKEN_INVALID /\ type <> TOKEN_EOF /\ type <> TOKEN_IDENT /\
  forall heap tok text, token_type tok = type ->
    token_lexeme tok = text -> (text, type) ∈ keywords -> token_text heap tok text.
Proof.
  intros Hk. repeat split; try by intros ->.
  intros heap tok text Ht Hl Hin. unfold token_text. rewrite Ht. by destruct type.
Qed.

Lemma identifier_read lx :
  isalpha (lexer_peek lx) || Ascii.eqb (lexer_peek lx) "_"%char = true ->
  exists text, token_read lx text (lexer_identifier lx).1 (lexer_identifier lx).2.
Proof.
  intros Hstart. unfold lexer_identifier. destruct (reads_eat_while is_ident_char lx) as (He & Hreads & Hstop); [done|].
  set (s := (span_class is_ident_char (remaining lx)).1) in *.
  assert (Ht : text_between lx (eat_while (turns lx) is_ident_char lx) = s).
  { rewrite He. eapply text_between_after. symmetry. apply span_class_app. }
  rewrite Ht. pose proof (span_class_all is_ident_char (remaining lx)) as Hs. fold s in Hs.
  destruct (after_fields lx s) as (_ & _ & Hspan & Hdiag & _). rewrite <- He in Hspan, Hdiag.
  assert (Hne : s <> []).
  { intros Hn. rewrite He, Hn in Hstop. cbn [after] in Hstop. unfold is_ident_char, isalnum in Hstop.
    apply orb_false_iff in Hstop as [[Ha _]%orb_false_iff Hu]. by rewrite Ha, Hu in Hstart. }
  exists s. destruct (keyword_type_spec s keywords keywords_nul) as [Hin|[Hty Hno]].
  - pose proof (keyword_types _ _ Hin) as (Hk1 & Hk2 & _ & Hk)%keyword_plain. split; cbn; try done.
    + by apply Hk.
    + intros Hf. pose proof (keyword_types _ _ Hin) as Hkw. change (keyword_type s keywords = TOKEN_FLOAT) in Hf. by rewrite Hf in Hkw.
  - rewrite Hty. split; cbn; try done.
Qed.

(** *** String literals *)

Lemma grow_capacity_enough fuel capacity needed :
  0 < capacity -> needed <= capacity + fuel -> needed <= grow_capacity fuel capacity needed.
Proof.
  revert capacity. induction fuel as [|fuel IH]; intros capacity Hc Hn; cbn [grow_capacity]; [lia|].
  destruct (Nat.ltb_spec capacity needed); [|done]. apply IH; lia.
Qed.

Lemma lexer_reserve_enough lx needed :
  exists scratch, lexer_reserve lx needed = (true, with_scratch lx (lx_scratch lx ++ scratch)) /\
    needed <= length (lx_scratch lx ++ scratch).
Proof.
  unfold lexer_reserve. case_bool_decide as Hn.
  - exists []. rewrite app_nil_r. split; [|done]. by destruct lx.
  - eexists. split; [done|]. rewrite length_app, length_replicate.
    set (c := if bool_decide (length (lx_scratch lx) = 0) then 32 else length (lx_scratch lx)).
    pose proof (grow_capacity_enough needed c needed). subst c. case_bool_decide; lia.
Qed.

(** One more byte of the literal put into the scratch buffer. *)
Lemma reserve_write lx n ch :
  n <= length (lx_scratch lx) ->
  exists lx1, lexer_reserve lx (n + 1) = (true, lx1) /\ n < length (lx_scratch lx1) /\
    let lx2 := lexer_eat (with_scratch lx1 (<[n := ch]> (lx_scratch lx1))) in
    n + 1 <= length (lx_scratch lx2) /\ take (n + 1) (lx_scratch lx2) = take n (lx_scratch lx) ++ [ch] /\
    (lexer_peek lx <> NUL -> reads lx [lexer_peek lx] lx2) /\ start_span lx2 = start_span lx /\
    lx_diagnostics lx2 = lx_diagnostics lx /\ remaining lx2 = tail (remaining lx).
Proof.
  intros Hn. destruct (lexer_reserve_enough lx (n + 1)) as (scratch & Hr & Hl). eexists. split; [exact Hr|].
  split; [cbn [lx_scratch with_scratch]; lia|]. intros lx2.
  set (lx1 := with_scratch (with_scratch lx (lx_scratch lx ++ scratch)) (<[n:=ch]> (lx_scratch lx ++ scratch))).
  assert (Hlx : lx2 = lexer_eat lx1) by done. clearbody lx2. subst lx2.
  destruct (eat_fields lx1) as (_ & _ & Hs & Hd & _ & ->). cbn [lx_scratch lx1 with_scratch].
  rewrite length_insert. split; [lia|]. split; [|split; [|split; [done|split; [done|apply (remaining_eat lx1)]]]].
  - rewrite Nat.add_1_r, (take_S_r _ n ch) by (apply list_lookup_insert_eq; lia).
    by rewrite take_insert_ge, take_app_le by lia.
  - intros Hp. change (lexer_peek lx) with (lexer_peek lx1) in *. apply (reads_trans lx [] lx1).
    + apply (reads_trans lx [] (with_scratch lx (lx_scratch lx ++ scratch))); apply reads_with_scratch.
    + by apply reads_eat.
Qed.

Lemma escape_value_plain e : escape_value NUL = None /\ (e <> NUL \/ escape_value e = None).
Proof. split; [done|]. destruct (Ascii.eqb_spec e NUL) as [->|]; [by right|by left]. Qed.

(** The characters of a string up to where they stop: behind its last one, or where
    an error was reported; the scratch buffer held [n] bytes before. *)
Definition string_outcome (lx : Lexer) (n : nat) (closed : option nat) (lx' : Lexer) (s : list ascii) : Prop :=
  reads lx s lx' /\ start_span lx' = start_span lx /\
  match closed with
  | Some n' =>
      exists t, unescape s = Some t /\ take n' (lx_scratch lx') = take n (lx_scratch lx) ++ t /\
        lexer_peek lx' = quote /\ lx_diagnostics lx' = lx_diagnostics lx
  | None => diagnostics_count (lx_diagnostics lx') = S (diagnostics_count (lx_diagnostics lx))
  end.

(** A byte written at the end of the scratch buffer, the lexer having read [p] before
    it; [rest] is what is known of what comes after. *)
Lemma string_chars_write fuel opened lx n l ch p :
  (forall lx n, length (remaining lx) < fuel -> n <= length (lx_scratch lx) ->
     exists closed lx' s, string_chars fuel opened lx n = Some (closed, lx') /\ string_outcome lx n closed lx' s) ->
  n <= length (lx_scratch lx) ->
  reads lx p l -> start_span l = start_span lx -> lx_diagnostics l = lx_diagnostics lx ->
  lx_scratch l = lx_scratch lx -> lexer_peek l <> NUL -> length (remaining l) <= fuel ->
  (forall s t, unescape s = Some t -> unescape (p ++ lexer_peek l :: s) = Some (ch :: t)) ->
  exists closed lx' s,
    (let '(reserved, l) := lexer_reserve l (n + 1) in
     if negb reserved then Some (None, report l GAB_ERR_SYNTAX opened "string literal is too long")
     else if bool_decide (n < length (lx_scratch l)) then
       string_chars fuel opened (lexer_eat (with_scratch l (<[n := ch]> (lx_scratch l)))) (n + 1)
     else None) = Some (closed, lx') /\ string_outcome lx n closed lx' s.
Proof.
  intros rest Hn Hp Hsl Hdl Hscl Hpl Hfl Hun. rewrite <- Hscl in Hn.
  destruct (reserve_write l n ch Hn) as (l1 & -> & Hlt & Hl2 & Htake & Hreads & Hs2 & Hd2 & Hrem).
  cbn [negb]. rewrite bool_decide_eq_true_2 by done. set (l2 := lexer_eat _) in *. clearbody l2.
  destruct (rest l2 (n + 1)) as (closed & lx' & s & Hsc & Hr & Hsp & Hcase); [|done|].
  { rewrite Hrem. rewrite peek_remaining in Hpl. destruct (remaining l); [done|]. cbn in *. lia. }
  exists closed, lx', (p ++ lexer_peek l :: s). split; [done|]. split.
  - eapply reads_trans; [done|]. change (lexer_peek l :: s) with ([lexer_peek l] ++ s).
    eapply reads_trans; [by apply Hreads|done].
  - split; [congruence|]. destruct closed as [n'|]; [|congruence].
    destruct Hcase as (t & Ht & Htk & Hpk & Hdd). exists (ch :: t).
    split; [by apply Hun|]. split; [|split; [done|congruence]]. rewrite Htk, Htake, <- app_assoc, Hscl. done.
Qed.

Lemma string_chars_read fuel opened lx n :
  length (remaining lx) < fuel -> n <= length (lx_scratch lx) ->
  exists closed lx' s, string_chars fuel opened lx n = Some (closed, lx') /\ string_outcome lx n closed lx' s.
Proof.
  revert lx n. induction fuel as [|fuel IH]; intros lx n Hf Hn; [lia|]. cbn [string_chars].
  destruct (Ascii.eqb_spec (lexer_peek lx) quote) as [Hq|Hq].
  { exists (Some n), lx, []. split; [done|]. split; [apply reads_refl|]. split; [done|]. exists [].
    by rewrite app_nil_r. }
  destruct (Ascii.eqb (lexer_peek lx) NUL || Ascii.eqb (lexer_peek lx) newline) eqn:Hend.
  { eexists None, _, []. split; [done|]. split; [apply reads_report|]. split; [done|]. apply diag_report_count. }
  assert (Hnul : lexer_peek lx <> NUL) by (intros Hp; by rewrite Hp in Hend).
  assert (Hshrink : forall l, remaining l = tail (remaining lx) -> length (remaining l) < fuel).
  { intros l ->. rewrite peek_remaining in Hnul. destruct (remaining lx); [done|]. cbn in *. lia. }
  pose proof (string_chars_write fuel opened lx n) as Hgo.
  destruct (Ascii.eqb_spec (lexer_peek lx) backslash) as [Hb|Hb].
  - assert (Heat : reads lx [backslash] (lexer_eat lx)) by (rewrite <- Hb; by apply reads_eat).
    destruct (eat_fields lx) as (_ & _ & Hse & Hde & _ & Hsce).
    pose proof (Hshrink _ (remaining_eat lx)) as Hfe. set (lxe := lexer_eat lx) in *. clearbody lxe.
    destruct (escape_value (lexer_peek lxe)) as [ch|] eqn:Hv.
    + apply (Hgo lxe ch [backslash] IH Hn); [done|done|done|done| |lia|].
      * intros Hp. by rewrite Hp in Hv.
      * intros s t Hst. cbn [app unescape]. change (Ascii.eqb backslash backslash) with true. cbv iota.
        by rewrite escape_meaning_value, Hv, Hst.
    + eexists None, _, [backslash]. split; [done|]. split; [|split; [done|]].
      * rewrite <- (app_nil_r [backslash]). eapply reads_trans; [done|apply reads_report].
      * rewrite diag_report_count. by rewrite Hde.
  - apply (Hgo lx (lexer_peek lx) [] IH Hn); [apply reads_refl|done|done|done|done|lia|].
    intros s t Hst. cbn. apply Ascii.eqb_neq in Hb, Hq. rewrite Hb, Hq. cbn [orb]. rewrite Hend. by rewrite Hst.
Qed.

Lemma string_read lx :
  pool_ok (lx_strings lx) -> lexer_peek lx = quote ->
  exists tok lx' text, lexer_string lx = Some (tok, lx') /\ token_read lx text tok lx'.
Proof.
  intros Hpool Hq. unfold lexer_string.
  assert (Heat : reads lx [quote] (lexer_eat lx)) by (rewrite <- Hq; apply reads_eat; by rewrite Hq).
  destruct (eat_fields lx) as (_ & _ & Hs1 & Hd1 & Hp1 & _). set (lx1 := lexer_eat lx) in *. clearbody lx1.
  destruct (string_chars_read (turns lx1) (start_span lx) lx1 0) as (closed & lx2 & s & Hsc & Hr & Hs2 & Hcase);
    [unfold turns; lia|lia|].
  rewrite Hsc. cbn [mbind option_bind]. destruct closed as [n|].
  - destruct Hcase as (content & Hun & Htake & Hpk & Hd2).
    assert (Heat2 : reads lx2 [quote] (lexer_eat lx2)) by (rewrite <- Hpk; apply reads_eat; by rewrite Hpk).
    destruct (eat_fields lx2) as (_ & _ & Hs3 & Hd3 & Hp3 & Hsc3). set (lx3 := lexer_eat lx2) in *. clearbody lx3.
    assert (Hpool3 : pool_ok (lx_strings lx3)) by (rewrite Hp3; apply (rd_pool _ _ _ Hr); by rewrite Hp1).
    rewrite Hsc3, Htake, take_0. cbn [app].
    destruct (string_from_ref_ok (lx_strings lx3) content Hpool3) as (pool & p & -> & Hok & Hheap & Hpre).
    assert (Hall : reads lx ([quote] ++ s ++ [quote] ++ []) (with_strings lx3 pool)).
    { eapply reads_trans; [done|]. eapply reads_trans; [done|]. eapply reads_trans; [done|]. by apply reads_nil. }
    cbn [mbind option_bind]. eexists _, _, (quote :: s ++ [quote]). split; [done|]. split; cbn; try done.
    + change (start_span lx3 = start_span lx). congruence.
    + by exists s, p, content.
    + intros _. congruence.
  - pose proof (reads_trans _ _ _ _ _ Heat Hr) as Hall. eexists _, _, (quote :: s). split; [done|]. split; cbn; try done.
    + change (start_span lx2 = start_span lx). congruence.
    + intros _. rewrite decide_False by done. rewrite Hcase, Hd1. lia.
Qed.

(** *** Symbols *)

(** What the symbols of [lexer_symbol] share: the first byte is eaten. *)
Lemma symbol_token lx text lx' type :
  reads lx text lx' -> start_span lx' = start_span lx -> lx_diagnostics lx' = lx_diagnostics lx ->
  symbol_text type = Some text -> token_read lx text (token_create lx' type) lx'.
Proof.
  intros Hr Hs Hd Ht. split; cbn; try done.
  - unfold token_text. cbn. by destruct type.
  - intros ->. by destruct type.
  - intros ->. done.
  - intros Hf. cbn in Hf. by subst type.
Qed.

Lemma invalid_token lx text lx' ch :
  reads lx text lx' -> start_span lx' = start_span lx -> lx_diagnostics lx' = lx_diagnostics lx -> text <> [] -> text <> bytes "@" ->
  token_read lx text (lexer_invalid lx' ch).1 (lexer_invalid lx' ch).2.
Proof.
  intros Hr Hs Hd Ht Hat. split; cbn; try done.
  - rewrite <- (app_nil_r text). eapply reads_trans; [done|apply reads_report].
  - intros _. rewrite decide_False by done. unfold diagnostics_count. cbn. by rewrite length_app, Hd.
Qed.

Section symbols.
Context (lx lx1 : Lexer) (ch : ascii).
Context (Hreads : reads lx [ch] lx1) (Hspan : start_span lx1 = start_span lx)
  (Hdiag : lx_diagnostics lx1 = lx_diagnostics lx).

#[local] Abbreviation reads_token r := (exists text, token_read lx text (r.1) (r.2)).

Lemma eat_second c :
  lexer_peek lx1 = c -> c <> NUL ->
  reads lx [ch; c] (lexer_eat lx1) /\ start_span (lexer_eat lx1) = start_span lx /\
  lx_diagnostics (lexer_eat lx1) = lx_diagnostics lx.
Proof.
  intros Hp Hc. destruct (eat_fields lx1) as (_ & _ & Hs & Hd & _). split; [|split; congruence].
  change [ch; c] with ([ch] ++ [c]). eapply reads_trans; [exact Hreads|]. rewrite <- Hp. apply reads_eat. by rewrite Hp.
Qed.

Lemma handle_eq_read base_tok eq_tok :
  symbol_text base_tok = Some [ch] -> symbol_text eq_tok = Some [ch; "="%char] ->
  reads_token (lexer_handle_eq lx1 base_tok eq_tok).
Proof using All.
  intros Hb He. unfold lexer_handle_eq. destruct (Ascii.eqb_spec (lexer_peek lx1) "="%char) as [Hp|_].
  - destruct (eat_second _ Hp) as (? & ? & ?); [done|]. exists [ch; "="%char]. by apply symbol_token.
  - exists [ch]. by apply symbol_token.
Qed.

Lemma handle_op_eq_read base_tok op_tok :
  ch <> NUL -> ch <> "@"%char -> symbol_text base_tok = Some [ch] \/ base_tok = TOKEN_INVALID -> symbol_text op_tok = Some [ch; ch] ->
  reads_token (lexer_handle_op_eq lx1 base_tok TOKEN_INVALID ch op_tok).
Proof using All.
  intros Hch Hat Hb Ho. unfold lexer_handle_op_eq. destruct (Ascii.eqb_spec (lexer_peek lx1) "="%char) as [Hp|_].
  { destruct (eat_second _ Hp) as (? & ? & ?); [done|]. exists [ch; "="%char]. rewrite decide_True by done.
    apply invalid_token; first [done|cbn; congruence]. }
  destruct (Ascii.eqb_spec (lexer_peek lx1) ch) as [Hp|_].
  { destruct (eat_second _ Hp) as (? & ? & ?); [done|]. exists [ch; ch]. by apply symbol_token. }
  exists [ch]. case_decide as Hd; [apply invalid_token; first [done|cbn; congruence]|]. destruct Hb as [Hb| ->]; [|done]. by apply symbol_token.
Qed.

Lemma builtin_read : ch = "@"%char -> reads_token (lexer_builtin lx1).
Proof using All.
  intros Hc. unfold lexer_builtin. destruct (reads_eat_while is_ident_char lx1) as (He & Hr & _); [done|].
  set (s := (span_class is_ident_char (remaining lx1)).1) in *.
  assert (Ht : text_between lx1 (eat_while (turns lx1) is_ident_char lx1) = s).
  { rewrite He. eapply text_between_after. symmetry. apply span_class_app. }
  rewrite Ht. pose proof (span_class_all is_ident_char (remaining lx1)) as Hs. fold s in Hs.
  destruct (after_fields lx1 s) as (_ & _ & Hspan2 & Hdiag2 & _). rewrite <- He in Hspan2, Hdiag2.
  set (lx2 := eat_while (turns lx1) is_ident_char lx1) in *. clearbody lx2.
  pose proof (reads_trans _ _ _ _ _ Hreads Hr) as Hall. exists (ch :: s).
  destruct (Nat.eqb_spec (length s) 0) as [Hn|Hn]; split; cbn; try done; try congruence.
  - change (start_span lx2 = start_span lx). congruence.
  - intros _. destruct s; [|done]. rewrite decide_True by by rewrite Hc. by rewrite Hdiag2, Hdiag, Nat.add_0_r.
  - change (start_span lx2 = start_span lx). congruence.
  - unfold token_text. cbn. by rewrite Hc.
Qed.

Lemma dot_read :
  ch = "."%char ->
  reads_token (if Ascii.eqb (lexer_peek lx1) "."%char then let lx := lexer_eat lx1 in (token_create lx TOKEN_DOT_DOT, lx)
               else (token_create lx1 TOKEN_DOT, lx1)).
Proof using All.
  intros Hc. destruct (Ascii.eqb_spec (lexer_peek lx1) "."%char) as [Hp|_].
  - destruct (eat_second _ Hp) as (? & ? & ?); [done|]. exists [ch; "."%char]. apply symbol_token; try done.
    by rewrite Hc.
  - exists [ch]. apply symbol_token; try done. by rewrite Hc.
Qed.

Lemma symbol_read : reads_token (lexer_symbol lx1 ch).
Proof using All.
  assert (Hinvalid : ch <> "@"%char -> reads_token (lexer_invalid lx1 ch)).
  { intros Hc. exists [ch]. apply invalid_token; first [done|cbn; congruence]. }
  pose proof handle_eq_read as Heq. pose proof handle_op_eq_read as Hop. pose proof builtin_read as Hat.
  pose proof dot_read as Hdot.
  assert (Hone : forall type, symbol_text type = Some [ch] -> reads_token (token_create lx1 type, lx1)).
  { intros type Ht. exists [ch]. by apply symbol_token. }
  destruct ch as [[] [] [] [] [] [] [] []]; cbn [lexer_symbol];
    first [by apply Hinvalid|by apply Hone|by apply Heq|by apply Hop; [done|done|left|]|by apply Hop; [done|done|right|]|by apply Hat|by apply Hdot].
Qed.
End symbols.

(** *** White space and comments *)

Inductive trivia : list ascii -> Prop :=
  | trivia_nil : trivia []
  | trivia_space c s : isspace c = true -> trivia s -> trivia (c :: s)
  | trivia_line body s :
      newline ∉ body -> trivia s -> trivia ("/"%char :: "/"%char :: body ++ s)
  | trivia_block body s :
      (forall a b, body <> a ++ "*"%char :: "/"%char :: b) -> trivia s ->
      trivia ("/"%char :: "*"%char :: body ++ "*"%char :: "/"%char :: s).

(** What the lexer skips: trivia, and a block comment the source ends in, which
    is reported at its opening. *)
Definition skipped (lx : Lexer) (s : list ascii) (lx' : Lexer) : Prop :=
  (trivia s /\ lx_diagnostics lx' = lx_diagnostics lx) \/
  (exists t body, s = t ++ "/"%char :: "*"%char :: body /\ trivia t /\ lexer_peek lx' = NUL /\
    (forall a b, body <> a ++ "*"%char :: "/"%char :: b) /\
    let at_ := foldl locate (lx_at lx) t in
    lx_diagnostics lx' =
      diag_error (lx_diagnostics lx) GAB_ERR_SYNTAX (MkSpan at_.1 at_.2) "unterminated block comment").

Lemma trivia_app s t : trivia s -> trivia t -> trivia (s ++ t).
Proof.
  intros Hs Ht. induction Hs as [|c s Hc _ IH|body s Hb _ IH|body s Hb _ IH]; cbn; [done|by constructor| |].
  - rewrite <- app_assoc. by constructor.
  - rewrite <- app_assoc. cbn. by constructor.
Qed.

Lemma trivia_spaces s : Forall (fun c => isspace c = true) s -> trivia s.
Proof. induction 1; by constructor. Qed.

Lemma skipped_after lx s lx1 t lx2 :
  reads lx s lx1 -> trivia s -> lx_diagnostics lx1 = lx_diagnostics lx -> skipped lx1 t lx2 -> skipped lx (s ++ t) lx2.
Proof.
  intros Hr Hs Hd [[Ht Hd2]|(u & body & -> & Hu & Hp & Hno & Hd2)].
  - left. split; [by apply trivia_app|congruence].
  - right. exists (s ++ u), body. split; [by rewrite <- app_assoc|]. split; [by apply trivia_app|]. do 2 (split; [done|]).
    cbn zeta. by rewrite Hd2, Hd, foldl_app, (rd_at _ _ _ Hr).
Qed.

Lemma block_comment_read fuel opened lx :
  length (remaining lx) < fuel ->
  exists closed lx' body, block_comment fuel opened lx = Some (closed, lx') /\ reads lx body lx' /\
    (forall a b, body <> a ++ "*"%char :: "/"%char :: b) /\
    if closed : bool then
      lexer_peek lx' = "*"%char /\ lexer_peek_next lx' = "/"%char /\ lx_diagnostics lx' = lx_diagnostics lx
    else lexer_peek lx' = NUL /\
      lx_diagnostics lx' = diag_error (lx_diagnostics lx) GAB_ERR_SYNTAX opened "unterminated block comment".
Proof.
  revert lx. induction fuel as [|fuel IH]; intros lx Hf; [lia|]. cbn [block_comment].
  destruct (Ascii.eqb (lexer_peek lx) "*"%char && Ascii.eqb (lexer_peek_next lx) "/"%char) eqn:Hend.
  { apply andb_true_iff in Hend as [Hs%Ascii.eqb_eq Hn%Ascii.eqb_eq]. exists true, lx, []. split; [done|].
    split; [apply reads_refl|]. split; [by intros [|]|done]. }
  destruct (Ascii.eqb_spec (lexer_peek lx) NUL) as [Hnul|Hnul].
  { eexists false, _, []. split; [done|]. split; [apply reads_report|].
    split; [by intros [|]|done]. }
  destruct (IH (lexer_eat lx)) as (closed & lx' & body & Hb & Hr & Hno & Hcase).
  { rewrite remaining_eat. rewrite peek_remaining in Hnul. destruct (remaining lx); [done|]. cbn in *. lia. }
  destruct (eat_fields lx) as (_ & _ & _ & Hd & _). rewrite Hd in Hcase.
  exists closed, lx', ([lexer_peek lx] ++ body). split; [done|].
  split; [eapply reads_trans; [by apply reads_eat|done]|]. split; [|done]. intros [|c a] b He; cbn in He.
  - injection He as Hc Hbody. rewrite Hc in Hend. apply (proj1 (andb_false_iff _ _)) in Hend as [?|Hend]; [done|].
    rewrite peek_next_remaining in Hend. pose proof (rd_text _ _ _ Hr) as Ht. rewrite remaining_eat in Ht.
    rewrite Ht, Hbody in Hend. done.
  - injection He as _ Hbody. by apply (Hno a b).
Qed.

(** A block comment and what is behind it, the lexer having come to it at [lx1]. *)
Lemma skip_block fuel lx sp lx1 r :
  (forall lx, length (remaining lx) < fuel -> exists lx' s, skip_trivia fuel lx = Some lx' /\ reads lx s lx' /\ skipped lx s lx') ->
  trivia sp -> reads lx sp lx1 -> lx_diagnostics lx1 = lx_diagnostics lx -> skipped lx sp lx1 ->
  remaining lx1 = "/"%char :: "*"%char :: r -> length (remaining lx1) <= fuel ->
  exists lx' s,
    ('(closed, l) ← block_comment (turns (lexer_eat (lexer_eat lx1))) (MkSpan (lx_line lx1) (lx_column lx1)) (lexer_eat (lexer_eat lx1));
     if closed : bool then skip_trivia fuel (lexer_eat (lexer_eat l)) else Some l) = Some lx' /\ reads lx s lx' /\ skipped lx s lx'.
Proof.
  intros IH Hsp Hr Hd Hstop Hrem Hlen. rewrite Hrem in Hlen.
  pose proof (reads_after lx1 (bytes "/*") r Hrem) as Hr2. cbn [after bytes] in Hr2.
  pose proof (remaining_after lx1 (bytes "/*") r Hrem) as Hrem2. cbn [after bytes] in Hrem2.
  destruct (after_fields lx1 (bytes "/*")) as (_ & _ & _ & Hd2 & _). cbn [after bytes] in Hd2.
  set (lx2 := lexer_eat (lexer_eat lx1)) in *. clearbody lx2.
  destruct (block_comment_read (turns lx2) (MkSpan (lx_line lx1) (lx_column lx1)) lx2)
    as (closed & lx3 & body & -> & Hr3 & Hno & Hcase); [unfold turns; lia|].
  cbn [mbind option_bind]. destruct closed.
  + destruct Hcase as (Hp3 & Hn3 & Hd3).
    assert (Hrem3 : exists r3, remaining lx3 = bytes "*/" ++ r3).
    { rewrite peek_remaining, peek_next_remaining in *. destruct (remaining lx3) as [|a [|b r3]]; try done.
      cbn in Hp3, Hn3. subst. by exists r3. }
    destruct Hrem3 as [r3 Hrem3]. pose proof (reads_after lx3 _ _ Hrem3) as Hr4. cbn [after bytes] in Hr4.
    destruct (after_fields lx3 (bytes "*/")) as (_ & _ & _ & Hd4 & _). cbn [after bytes] in Hd4.
    set (lx4 := lexer_eat (lexer_eat lx3)) in *. clearbody lx4.
    assert (Hblock : trivia (bytes "/*" ++ body ++ bytes "*/")) by by apply (trivia_block body []), trivia_nil.
    pose proof (reads_trans _ _ _ _ _ Hr2 (reads_trans _ _ _ _ _ Hr3 Hr4)) as Hr5.
    destruct (IH lx4) as (lx' & s & Hs & Hr' & Hsk).
    { pose proof (rd_text _ _ _ Hr5) as Ht. rewrite Hrem in Ht. apply (f_equal length) in Ht.
      rewrite !length_app in Ht. cbn in Ht, Hlen. lia. }
    exists lx', (sp ++ (bytes "/*" ++ body ++ bytes "*/") ++ s). split; [done|].
    split; [eapply reads_trans; [done|by eapply reads_trans]|].
    eapply skipped_after; [done|done|done|]. eapply skipped_after; [done|done|congruence|done].
  + destruct Hcase as (Hp3 & Hd3). exists lx3, (sp ++ bytes "/*" ++ body). split; [done|].
    split; [eapply reads_trans; [done|by eapply reads_trans]|].
    right. exists sp, body. do 4 (split; [done|]). cbn zeta.
    rewrite Hd3, Hd2, Hd, <- (rd_at _ _ _ Hr). done.
Qed.

Lemma skip_trivia_read fuel lx :
  length (remaining lx) < fuel ->
  exists lx' s, skip_trivia fuel lx = Some lx' /\ reads lx s lx' /\ skipped lx s lx'.
Proof.
  revert lx. induction fuel as [|fuel IH]; intros lx Hf; [lia|]. cbn [skip_trivia].
  destruct (reads_eat_while isspace lx) as (He & Hr & _); [done|].
  set (sp := (span_class isspace (remaining lx)).1) in *.
  assert (Hsp : trivia sp) by apply trivia_spaces, span_class_all.
  destruct (after_fields lx sp) as (_ & _ & _ & Hd & _). rewrite <- He in Hd.
  set (lx1 := eat_while (turns lx) isspace lx) in *. clearbody lx1.
  assert (Hlen : length (remaining lx1) <= length (remaining lx)).
  { rewrite (rd_text _ _ _ Hr), length_app. lia. }
  assert (Hstop : skipped lx sp lx1) by by left.
  destruct (Ascii.eqb_spec (lexer_peek lx1) "/"%char) as [Hp|_]; cbn [negb]; [|by exists lx1, sp].
  rewrite peek_remaining, peek_next_remaining in *.
  destruct (remaining lx1) as [|c [|d r]] eqn:Hrem; cbn [head hd_error tail tl default from_option id] in *;
    [done|by exists lx1, sp|]. subst c.
  destruct (Ascii.eqb_spec d "/"%char) as [->|_].
  - set (f := fun ch => negb (Ascii.eqb ch newline) && negb (Ascii.eqb ch NUL)).
    destruct (reads_eat_while f lx1) as (He2 & Hr2 & _); [done|].
    rewrite Hrem in He2, Hr2. cbn [span_class] in He2, Hr2. change (f "/"%char) with true in *. cbv iota in He2, Hr2.
    pose proof (span_class_all f r) as Hall. destruct (span_class f r) as [body rest] eqn:Hspan. cbn [fst] in *.
    destruct (after_fields lx1 ("/"%char :: "/"%char :: body)) as (_ & _ & _ & Hd2 & _). rewrite <- He2 in Hd2.
    set (lx2 := eat_while (turns lx1) f lx1) in *. clearbody lx2.
    assert (Hbody : trivia ("/"%char :: "/"%char :: body)).
    { rewrite <- (app_nil_r body). apply trivia_line; [|apply trivia_nil]. intros Hin. rewrite Forall_forall in Hall.
      specialize (Hall _ Hin). done. }
    destruct (IH lx2) as (lx' & s & Hs & Hr' & Hsk).
    { pose proof (rd_text _ _ _ Hr2) as Ht. rewrite Hrem in Ht. apply (f_equal length) in Ht.
      rewrite length_app in Ht. cbn in Ht, Hlen. lia. }
    exists lx', (sp ++ ("/"%char :: "/"%char :: body) ++ s). split; [done|].
    split; [by eapply reads_trans, reads_trans|].
    eapply skipped_after; [done|done|done|]. by eapply skipped_after.
  - destruct (Ascii.eqb_spec d "*"%char) as [->|_]; [|by exists lx1, sp].
    apply (skip_block fuel lx sp lx1 r IH); [done..|]. rewrite Hrem. cbn [length] in *. lia.
Qed.

(** *** The next token *)

Lemma lexer_token_read l :
  pool_ok (lx_strings l) ->
  exists tok lx' text, lexer_token l = Some (tok, lx') /\ token_read l text tok lx' /\
    (token_type tok = TOKEN_EOF <-> lexer_peek l = NUL) /\ (token_type tok = TOKEN_EOF -> text = []).
Proof.
  intros Hpool. unfold lexer_token.
  assert (Hgo : forall r text, token_read l text r.1 r.2 -> lexer_peek l <> NUL ->
    exists tok lx' text, Some r = Some (tok, lx') /\ token_read l text tok lx' /\
      (token_type tok = TOKEN_EOF <-> lexer_peek l = NUL) /\ (token_type tok = TOKEN_EOF -> text = [])).
  { intros [tok lx'] text Ht Hne. exists tok, lx', text.
    assert (Hnil : token_type tok = TOKEN_EOF -> text = []).
    { intros He. pose proof (tr_text _ _ _ _ Ht) as Htext. unfold token_text in Htext. cbn [fst] in Htext.
      by rewrite He in Htext. }
    do 2 (split; [done|]). split; [|done]. split; [|done]. intros He. by destruct (tr_some _ _ _ _ Ht (Hnil He)). }
  destruct (isdigit (lexer_peek l) || _) eqn:Hdigit.
  { destruct (number_read l Hdigit) as [text Ht]. apply (Hgo _ text Ht). intros Hp. by rewrite Hp in Hdigit. }
  destruct (isalpha (lexer_peek l) || _) eqn:Halpha.
  { destruct (identifier_read l Halpha) as [text Ht]. apply (Hgo _ text Ht). intros Hp. by rewrite Hp in Halpha. }
  destruct (Ascii.eqb_spec (lexer_peek l) quote) as [Hq|_].
  { destruct (string_read l Hpool Hq) as (tok & lx' & text & Hs & Ht). rewrite Hs.
    apply (Hgo (tok, lx') text Ht). by rewrite Hq. }
  destruct (Ascii.eqb_spec (lexer_peek l) NUL) as [Hnul|Hnul].
  { eexists _, _, []. split; [done|]. split; [|done]. by split. }
  destruct (eat_fields l) as (_ & _ & Hs & Hd & _).
  destruct (symbol_read l (lexer_eat l) (lexer_peek l) (reads_eat l Hnul) Hs Hd) as [text Ht].
  by apply (Hgo _ text Ht).
Qed.

Lemma lexer_next_read lx :
  pool_ok (lx_strings lx) ->
  exists tok lx' lx1 s text, lexer_next lx = Some (tok, lx') /\
    reads lx s lx1 /\ skipped lx s lx1 /\ token_read (with_start lx1) text tok lx' /\
    (token_type tok = TOKEN_EOF <-> lexer_peek lx1 = NUL) /\ (token_type tok = TOKEN_EOF -> text = []).
Proof.
  intros Hpool. unfold lexer_next, lexer_skip_trivia.
  destruct (skip_trivia_read (turns lx) lx) as (lx1 & s & -> & Hr & Hsk); [unfold turns; lia|].
  cbn [mbind option_bind].
  destruct (lexer_token_read (with_start lx1)) as (tok & lx' & text & Ht); [by apply (rd_pool _ _ _ Hr)|].
  exists tok, lx', lx1, s, text. tauto.
Qed.

(** ** Whole sources *)

(** One report for every invalid token, but for a lone [@]. *)
Definition reports (tok : Token) (text : list ascii) : nat :=
  if decide (token_type tok = TOKEN_INVALID) then if decide (text = bytes "@") then 0 else 1 else 0.

(** The tokens cover what is left of a source after [before]: trivia, the text
    of a token, and so on to the end; [errors] counts the reports. *)
Inductive covers (heap : list (list ascii)) : list ascii -> list ascii -> list Token -> nat -> Prop :=
  | covers_token before s text rest tok toks errors :
      trivia s -> token_text heap tok text -> float_value (text ++ rest) tok -> text <> [] -> token_type tok <> TOKEN_EOF ->
      (token_line tok, token_column tok) = location (before ++ s) ->
      covers heap (before ++ s ++ text) rest toks errors ->
      covers heap before (s ++ text ++ rest) (tok :: toks) (reports tok text + errors)
  | covers_end before s rest tok :
      trivia s -> default NUL (head rest) = NUL -> token_type tok = TOKEN_EOF ->
      (token_line tok, token_column tok) = location (before ++ s) -> covers heap before (s ++ rest) [tok] 0
  | covers_open_comment before s body rest tok :
      trivia s -> (forall a b, body <> a ++ "*"%char :: "/"%char :: b) -> default NUL (head rest) = NUL -> token_type tok = TOKEN_EOF ->
      (token_line tok, token_column tok) = location (before ++ s ++ "/"%char :: "*"%char :: body) ->
      covers heap before (s ++ "/"%char :: "*"%char :: body ++ rest) [tok] 1.

Lemma token_text_mono heap heap' tok text : heap `prefix_of` heap' -> token_text heap tok text -> token_text heap' tok text.
Proof.
  intros Hpre. unfold token_text. destruct (token_type tok); try done.
  intros (body & p & content & ? & ? & ? & ?). exists body, p, content. repeat split; try done.
  by eapply prefix_lookup_Some.
Qed.

Lemma lex_tokens_covers fuel lx before :
  pool_ok (lx_strings lx) -> length (remaining lx) < fuel -> lx_at lx = location before ->
  exists tokens lx' errors, lex_tokens fuel lx = Some (tokens, lx') /\
    pool_heap (lx_strings lx) `prefix_of` pool_heap (lx_strings lx') /\
    covers (pool_heap (lx_strings lx')) before (remaining lx) tokens errors /\
    diagnostics_count (lx_diagnostics lx') = diagnostics_count (lx_diagnostics lx) + errors.
Proof.
  revert lx before. induction fuel as [|fuel IH]; intros lx before Hpool Hf Hat; [lia|]. cbn [lex_tokens].
  destruct (lexer_next_read lx Hpool) as (tok & lx' & lx1 & s & text & -> & Hr & Hsk & Ht & Heof & Hnil).
  cbn [mbind option_bind]. pose proof (tr_reads _ _ _ _ Ht) as Hr'.
  pose proof (tr_span _ _ _ _ Ht) as Hspan. injection Hspan as Hline Hcolumn.
  assert (Hloc : (token_line tok, token_column tok) = location (before ++ s)).
  { rewrite Hline, Hcolumn. unfold location. rewrite foldl_app. fold (location before). rewrite <- Hat.
    exact (rd_at _ _ _ Hr). }
  assert (Hheap : pool_heap (lx_strings lx) `prefix_of` pool_heap (lx_strings lx')).
  { etrans; [apply (rd_heap _ _ _ Hr)|apply (rd_heap _ _ _ Hr')]. }
  pose proof (rd_text _ _ _ Hr) as Htext. pose proof (rd_text _ _ _ Hr') as Htext'.
  change (remaining (with_start lx1)) with (remaining lx1) in Htext'.
  destruct (decide (token_type tok = TOKEN_EOF)) as [He|He].
  - pose proof (proj1 Heof He) as Hpk. rewrite peek_remaining in Hpk.
    assert (Hd : lx_diagnostics lx' = lx_diagnostics lx1) by (apply (tr_valid _ _ _ _ Ht); congruence).
    destruct Hsk as [[Htr Hd1]|(t & body & -> & Htr & _ & Hno & Hd1)].
    + exists [tok], lx', 0. split; [done|]. split; [done|]. rewrite Htext, Hd, Hd1.
      split; [by constructor|]. lia.
    + exists [tok], lx', 1. split; [done|]. split; [done|]. rewrite Htext, Hd, Hd1, <- app_assoc.
      split; [by apply covers_open_comment|]. unfold diagnostics_count. cbn. rewrite length_app. done.
  - destruct Hsk as [[Htr Hd1]|(t & body & _ & _ & Hpk & _)]; [|by apply Heof in Hpk].
    assert (Hne : text <> []).
    { intros ->. destruct (tr_some _ _ _ _ Ht eq_refl) as [Hpk _]. by apply He, Heof. }
    destruct (IH lx' (before ++ s ++ text)) as (tokens & lx2 & errors & Hl & Hheap2 & Hcov & Hd2).
    { by apply (rd_pool _ _ _ Hr'), (rd_pool _ _ _ Hr). }
    { rewrite Htext, Htext', !length_app in Hf. destruct text; [done|]. cbn [length] in Hf. lia. }
    { rewrite (rd_at _ _ _ Hr'). change (lx_at (with_start lx1)) with (lx_at lx1). rewrite (rd_at _ _ _ Hr), Hat.
      unfold location. by rewrite !foldl_app. }
    rewrite Hl. exists (tok :: tokens), lx2, (reports tok text + errors). split; [done|]. split; [by etrans|].
    split.
    + rewrite Htext, Htext'. constructor; try done.
      * eapply token_text_mono; [done|]. apply (tr_text _ _ _ _ Ht).
      * rewrite <- Htext'. exact (tr_float _ _ _ _ Ht).
    + rewrite Hd2, Nat.add_assoc. f_equal. rewrite <- Hd1. unfold reports.
      destruct (decide (token_type tok = TOKEN_INVALID)) as [Hi|Hi].
      * apply (tr_invalid _ _ _ _ Ht Hi).
      * rewrite (tr_valid _ _ _ _ Ht Hi). cbn. lia.
Qed.

(** C30: Lexing ends on every source and loses nothing of it: the source is trivia
    and token texts in turn, up to the first terminator byte, where the last
    token is.  A valid token has the text its type says: an identifier or a keyword
    its name, a symbol its characters, an integer the digits of its value, a string
    the bytes interned for it behind its escapes.  The text of a float is digits
    around a point, and its value is what [strtof] reads from its first byte, be
    it more than the text (lexer.c:186).  Each token, the last one too, is located
    at the line and column of its first byte.  An invalid token, of which nothing
    else is said here, is reported once, a lone [@] not at all; a block comment left
    open, in which nothing closes it, runs to the end of the source and is reported
    once. *)
Theorem lexer_covers_source (source : list ascii) :
  exists tokens lx' errors, lex_source source = Some (tokens, lx') /\
    covers (pool_heap (lx_strings lx')) [] source tokens errors /\
    diagnostics_count (lx_diagnostics lx') = errors.
Proof.
  unfold lex_source. destruct string_pool_init_ok as (pool & -> & Hpool & _). cbn [mbind option_bind].
  destruct (lex_tokens_covers (S (length source)) (lexer_create source pool (diagnostics_init None)) [])
    as (tokens & lx' & errors & -> & _ & Hcov & Hd); [done| |done|].
  { change (length source < S (length source)). lia. }
  by exists tokens, lx', errors.
Qed.

(** A float literal is what [strtof] reads from the literal's start, not from its
    text: it takes an exponent the token does not cover, which is lexed again. *)
Theorem float_literal_reads_past_its_text :
  (fun r => map (fun t => (token_type t, token_lexeme t, token_value t)) (fst r)) <$> lex_source (bytes "1.5e3") =
  Some [(TOKEN_FLOAT, [], Some (as_float (strtof (bytes "1500"))));
        (TOKEN_IDENT, bytes "e3", None); (TOKEN_EOF, [], None)].
Proof. by vm_compute. Qed.
