(* ===== verification/LexerReadback.v ===== *)
(** * LexerReadback: tokens printed and lexed again

    The forward half of the lexer's correctness: a text that spells a token,
    followed by white space or the end, is lexed as that token. *)

From S2P Require Import Prelude Types Mir Diagnostics HashMap Strings Lexer.

(** ** Printing tokens back *)

(** The text spells one token of the type. *)
Definition spells (type : TokenType) (text : list ascii) : Prop :=
  match type with
  | TOKEN_INVALID | TOKEN_EOF => False
  | TOKEN_INT => text <> [] /\ Forall (fun c => isdigit c = true) text /\ (digits_value text <= LLONG_MAX)%Z
  | TOKEN_FLOAT =>
      exists whole fraction, text = whole ++ "."%char :: fraction /\ (whole <> [] \/ fraction <> []) /\
        Forall (fun c => isdigit c = true) whole /\ Forall (fun c => isdigit c = true) fraction
  | TOKEN_STRING => exists body, text = quote :: body ++ [quote] /\ is_Some (unescape body)
  | TOKEN_BUILTIN => exists name, text = "@"%char :: name /\ name <> [] /\ Forall (fun c => is_ident_char c = true) name
  | TOKEN_IDENT =>
      isdigit (default NUL (head text)) = false /\ text <> [] /\ Forall (fun c => is_ident_char c = true) text /\
      text ∉ keywords.*1
  | type => if is_keyword type then (text, type) ∈ keywords else symbol_text type = Some text
  end.

(** What may follow a token's text: white space, or the end. *)
Definition delimited (r : list ascii) : Prop := match r with [] => True | c :: _ => c = " "%char end.

Lemma delimited_head r : delimited r -> default NUL (head r) = NUL \/ default NUL (head r) = " "%char.
Proof. destruct r; [by left|by right]. Qed.

Lemma span_class_text f text r :
  Forall (fun c => f c = true) text -> delimited r -> f NUL = false -> f " "%char = false ->
  (span_class f (text ++ r)).1 = text.
Proof.
  intros Ht Hr Hn Hs. rewrite span_class_prefix; [done|done| |done]. by destruct (delimited_head r Hr) as [-> | ->].
Qed.

Lemma ident_char_start c :
  is_ident_char c = true -> isdigit c = false -> isalpha c || Ascii.eqb c "_"%char = true.
Proof. unfold is_ident_char, isalnum. intros Hc Hd. by rewrite Hd, orb_false_r in Hc. Qed.

Lemma keyword_text_ok : Forall (fun w =>
  isdigit (default NUL (head w.1)) = false /\ w.1 <> [] /\ Forall (fun c => is_ident_char c = true) w.1 /\
  keyword_type w.1 keywords = w.2) keywords.
Proof. repeat (constructor; [split; [done|split; [done|split; [by repeat constructor|done]]]|]). constructor. Qed.

Lemma identifier_forward l text r :
  remaining l = text ++ r -> delimited r -> isdigit (default NUL (head text)) = false -> text <> [] ->
  Forall (fun c => is_ident_char c = true) text ->
  exists lx', lexer_token l = Some (token_create_ref lx' (keyword_type text keywords) text, lx') /\ remaining lx' = r.
Proof.
  intros Hrem Hr Hd Hne Hall. unfold lexer_token. rewrite peek_remaining, peek_next_remaining, Hrem.
  destruct text as [|c text]; [done|]. cbn [head hd_error default from_option id app tail tl] in *.
  pose proof Hall as [Hc _]%Forall_cons. pose proof (ident_char_start c Hc Hd) as Hstart.
  rewrite Hd, Hstart. cbn [orb]. replace (Ascii.eqb c "."%char) with false.
  2:{ symmetry. apply Ascii.eqb_neq. intros ->. done. }
  cbn [andb]. eexists. unfold lexer_identifier.
  destruct (reads_eat_while is_ident_char l) as (He & _); [done|]. change (c :: text ++ r) with ((c :: text) ++ r) in *.
  rewrite Hrem, span_class_text in He by done. rewrite He, (text_between_after _ _ r) by done.
  split; [done|]. by apply remaining_after.
Qed.

Lemma builtin_forward l name r :
  remaining l = "@"%char :: name ++ r -> delimited r -> name <> [] -> Forall (fun c => is_ident_char c = true) name ->
  exists lx', lexer_token l = Some (token_create_ref lx' TOKEN_BUILTIN name, lx') /\ remaining lx' = r.
Proof.
  intros Hrem Hr Hne Hall. unfold lexer_token. rewrite peek_remaining, Hrem. cbn [head hd_error default from_option id].
  change (isdigit "@"%char) with false. change (isalpha "@"%char) with false. cbn [orb andb Ascii.eqb Bool.eqb].
  change (lexer_symbol (lexer_eat l) "@"%char) with (lexer_builtin (lexer_eat l)).
  assert (Hrem1 : remaining (lexer_eat l) = name ++ r) by by rewrite remaining_eat, Hrem.
  set (l1 := lexer_eat l) in *. clearbody l1. unfold lexer_builtin.
  destruct (reads_eat_while is_ident_char l1) as (He & _); [done|].
  rewrite Hrem1, span_class_text in He by done. rewrite He, (text_between_after _ _ r) by done.
  eexists. split; [by destruct name|]. by apply remaining_after.
Qed.

(** A number's digits, and the point that makes it a float. *)
Lemma number_forward l ds r :
  remaining l = ds ++ r -> Forall (fun c => isdigit c = true) ds -> isdigit (default NUL (head r)) = false ->
  eat_while (turns l) isdigit l = after l ds /\ remaining (after l ds) = r.
Proof.
  intros Hrem Hds Hr. destruct (reads_eat_while isdigit l) as (He & _); [done|].
  rewrite Hrem, span_class_prefix in He by done. split; [done|]. by apply remaining_after.
Qed.

Lemma int_forward l text r :
  remaining l = text ++ r -> delimited r -> text <> [] -> Forall (fun c => isdigit c = true) text ->
  (digits_value text <= LLONG_MAX)%Z ->
  exists tok lx', lexer_token l = Some (tok, lx') /\ token_type tok = TOKEN_INT /\ remaining lx' = r.
Proof.
  intros Hrem Hr Hne Hall Hv. pose proof (delimited_head r Hr) as Hh.
  assert (Hstop : isdigit (default NUL (head r)) = false) by by destruct Hh as [-> | ->].
  destruct (number_forward l text r Hrem Hall Hstop) as [He Hrem1].
  assert (Hnum : lexer_token l = Some (lexer_number l)).
  { unfold lexer_token. rewrite peek_remaining, Hrem. destruct text as [|d text]; [done|].
    apply Forall_cons in Hall as [Hd _]. cbn. by rewrite Hd. }
  rewrite Hnum. unfold lexer_number. rewrite He, peek_remaining, Hrem1.
  replace (Ascii.eqb (default NUL (head r)) "."%char) with false by by destruct Hh as [-> | ->].
  cbn [andb]. rewrite decide_False by done. rewrite Hrem, strtoll_digits by done.
  destruct (Z.ltb_spec LLONG_MAX (digits_value text)); [lia|]. by eexists _, _.
Qed.

Lemma exponent_delimited r : delimited r -> exponent_part r = 0%Z.
Proof. destruct r as [|c r]; [done|]. by intros ->. Qed.

Lemma no_sign s :
  (forall c, head s = Some c -> isspace c = false /\ c <> "-"%char /\ c <> "+"%char) -> skip_sign s = (false, s).
Proof.
  intros Hs. unfold skip_sign. destruct s as [|c s]; [done|]. destruct (Hs c eq_refl) as (Hsp & Hm & Hp).
  cbn [span_class]. rewrite Hsp. cbn [snd].
  destruct c as [[] [] [] [] [] [] [] []]; try done.
Qed.

Lemma strtof_delimited whole fraction r :
  Forall (fun c => isdigit c = true) whole -> Forall (fun c => isdigit c = true) fraction -> delimited r ->
  strtof (whole ++ "."%char :: fraction ++ r) = strtof (whole ++ "."%char :: fraction).
Proof.
  intros Hw Hf Hr. unfold strtof.
  assert (Hsign : forall t, skip_sign (whole ++ "."%char :: t) = (false, whole ++ "."%char :: t)).
  { intros t. destruct whole as [|d whole].
    - apply no_sign. by intros c [= <-].
    - apply digit_no_sign. by apply Forall_cons in Hw as [? _]. }
  rewrite !Hsign, !(span_class_prefix isdigit whole) by done.
  pose proof (span_class_prefix isdigit fraction [] Hf eq_refl eq_refl) as Hend. rewrite app_nil_r in Hend.
  assert (Hstop : isdigit (default NUL (head r)) = false) by by destruct (delimited_head r Hr) as [-> | ->].
  rewrite Hend, (span_class_prefix isdigit fraction r) by done. by rewrite exponent_delimited.
Qed.

Lemma float_forward l whole fraction r :
  remaining l = whole ++ "."%char :: fraction ++ r -> delimited r -> whole <> [] \/ fraction <> [] ->
  Forall (fun c => isdigit c = true) whole -> Forall (fun c => isdigit c = true) fraction ->
  exists tok lx', lexer_token l = Some (tok, lx') /\ token_type tok = TOKEN_FLOAT /\ remaining lx' = r /\
    token_value tok = Some (as_float (strtof (whole ++ "."%char :: fraction))).
Proof.
  intros Hrem Hr Hne Hw Hf. destruct (number_forward l whole _ Hrem Hw) as [He1 Hrem1]; [done|].
  set (l1 := after l whole) in *.
  assert (Hrem2 : remaining (lexer_eat l1) = fraction ++ r) by by rewrite remaining_eat, Hrem1.
  destruct (number_forward (lexer_eat l1) fraction r Hrem2 Hf) as [He2 Hrem3];
    [by destruct (delimited_head r Hr) as [-> | ->]|].
  assert (Hnum : lexer_token l = Some (lexer_number l)).
  { unfold lexer_token. rewrite peek_remaining, peek_next_remaining, Hrem.
    destruct whole as [|d whole]; cbn [app head hd_error tail tl default from_option id].
    - destruct fraction as [|d fraction]; [by destruct Hne|]. cbn [app].
      apply Forall_cons in Hf as [Hd _]. cbn [hd_error default from_option id]. by rewrite Hd.
    - apply Forall_cons in Hw as [Hd _]. by rewrite Hd. }
  assert (Hp : lexer_peek l1 = "."%char) by by rewrite peek_remaining, Hrem1.
  assert (Hn : Ascii.eqb (lexer_peek_next l1) "."%char = false).
  { rewrite peek_next_remaining, Hrem1. cbn [tail tl].
    destruct fraction as [|d fraction]; cbn [app]; [by destruct (delimited_head r Hr) as [-> | ->]|].
    apply Forall_cons in Hf as [Hd _]. apply Ascii.eqb_neq. cbn. by intros ->. }
  rewrite Hnum. unfold lexer_number. rewrite He1. fold l1. rewrite Hp, Hn. cbn [Ascii.eqb Bool.eqb andb negb].
  rewrite decide_True, He2, Hrem by done. eexists _, _. do 3 (split; [done|]). cbn. by rewrite strtof_delimited.
Qed.

(** *** String literals *)

Lemma string_chars_forward fuel opened lx n body t r :
  unescape body = Some t -> remaining lx = body ++ quote :: r -> length (remaining lx) < fuel ->
  n <= length (lx_scratch lx) ->
  exists n' lx', string_chars fuel opened lx n = Some (Some n', lx') /\ remaining lx' = quote :: r.
Proof.
  revert lx n body t. induction fuel as [|fuel IH]; intros lx n body t Hun Hrem Hf Hn; [lia|]. cbn [string_chars].
  rewrite peek_remaining, Hrem. destruct body as [|c body]; [by eexists _, lx|].
  cbn [app head hd_error default from_option id unescape] in *. rewrite Hrem in Hf. cbn [length] in Hf.
  destruct (Ascii.eqb_spec c backslash) as [->|Hb].
  - destruct body as [|e body]; [done|]. rewrite escape_meaning_value in Hun. destruct (escape_value e) as [v|] eqn:Hv; [|done]. cbn in Hun.
    destruct (unescape body) as [rest|] eqn:Hrest; [|done]. change (Ascii.eqb backslash quote) with false. cbn [orb Ascii.eqb Bool.eqb].
    assert (Hrem1 : remaining (lexer_eat lx) = e :: body ++ quote :: r) by by rewrite remaining_eat, Hrem.
    destruct (eat_fields lx) as (_ & _ & _ & _ & _ & Hsc).
    rewrite peek_remaining, Hrem1. cbn [head hd_error default from_option id]. rewrite Hv.
    destruct (reserve_write (lexer_eat lx) n v) as (l1 & -> & Hlt & Hl2 & _ & _ & _ & _ & Hrem2); [by rewrite Hsc|].
    cbn [negb]. rewrite bool_decide_eq_true_2 by done. rewrite Hrem1 in Hrem2.
    apply (IH _ _ body rest Hrest Hrem2); [|done]. rewrite Hrem2. cbn [tail tl app length] in *. lia.
  - destruct (Ascii.eqb c quote || Ascii.eqb c NUL || Ascii.eqb c newline) eqn:Hc; [done|].
    apply orb_false_iff in Hc as [[Hq Hnul]%orb_false_iff Hnl]. rewrite Hq, Hnul, Hnl. cbn [orb].
    destruct (unescape body) as [rest|] eqn:Hrest; [|done].
    destruct (reserve_write lx n c) as (l1 & -> & Hlt & Hl2 & _ & _ & _ & _ & Hrem2); [done|].
    cbn [negb]. rewrite bool_decide_eq_true_2 by done. rewrite Hrem in Hrem2.
    apply (IH _ _ body rest Hrest Hrem2); [|done]. rewrite Hrem2. cbn [tail tl]. lia.
Qed.

Lemma string_forward l body r :
  remaining l = quote :: body ++ quote :: r -> is_Some (unescape body) -> pool_ok (lx_strings l) ->
  exists tok lx', lexer_token l = Some (tok, lx') /\ token_type tok = TOKEN_STRING /\ remaining lx' = r.
Proof.
  intros Hrem [t Hun] Hpool. unfold lexer_token. rewrite peek_remaining, Hrem.
  cbn [head hd_error default from_option id]. change (isdigit quote) with false. change (isalpha quote) with false.
  cbn [orb andb Ascii.eqb Bool.eqb]. unfold lexer_string.
  assert (Hrem1 : remaining (lexer_eat l) = body ++ quote :: r) by by rewrite remaining_eat, Hrem.
  destruct (eat_fields l) as (_ & _ & _ & _ & Hp1 & _). rewrite <- Hp1 in Hpool.
  set (l1 := lexer_eat l) in *. clearbody l1.
  destruct (string_chars_forward (turns l1) (start_span l) l1 0 body t r Hun Hrem1) as (n & l2 & Hsc & Hrem2);
    [unfold turns; lia|lia|].
  destruct (string_chars_read (turns l1) (start_span l) l1 0) as (closed & l2' & s & Hsc' & Hr & _);
    [unfold turns; lia|lia|].
  rewrite Hsc in Hsc'. injection Hsc' as <- <-. rewrite Hsc. cbn [mbind option_bind].
  destruct (eat_fields l2) as (_ & _ & _ & _ & Hp3 & _).
  assert (Hpool2 : pool_ok (lx_strings (lexer_eat l2))) by (rewrite Hp3; by apply (rd_pool _ _ _ Hr)).
  assert (Hrem3 : remaining (lexer_eat l2) = r) by by rewrite remaining_eat, Hrem2.
  set (l3 := lexer_eat l2) in *. clearbody l3.
  destruct (string_from_ref_ok (lx_strings l3) (take n (lx_scratch l3)) Hpool2) as (pool & p & -> & _).
  cbn [mbind option_bind]. by eexists _, _.
Qed.

Lemma symbol_forward l type text r :
  symbol_text type = Some text -> remaining l = text ++ r -> delimited r ->
  exists tok lx', lexer_token l = Some (tok, lx') /\ token_type tok = type.
Proof.
  intros Ht Hrem Hr. pose proof (peek_remaining l) as Hp. pose proof (peek_next_remaining l) as Hn.
  pose proof (peek_remaining (lexer_eat l)) as He. rewrite remaining_eat in He. rewrite Hrem in Hp, Hn, He.
  pose proof (delimited_head r Hr) as Hd. unfold lexer_token.
  destruct type; try done; injection Ht as <-;
    cbn [bytes app head hd_error tail tl default from_option id] in Hp, Hn, He; rewrite Hp, ?Hn; cbn [lexer_symbol];
    unfold lexer_handle_eq, lexer_handle_op_eq; rewrite ?He;
    (destruct r as [|c r]; [|cbn in Hr; subst c]); by eexists _, _.
Qed.

(** Where a token's text starts is neither white space nor a comment. *)
Definition starts_token (t : list ascii) : Prop :=
  let c := default NUL (head t) in
  isspace c = false /\ (c <> "/"%char \/ default NUL (head (tail t)) <> "/"%char /\ default NUL (head (tail t)) <> "*"%char).

Lemma ident_char_code c : is_ident_char c = true -> (48 <= code c)%N.
Proof.
  unfold is_ident_char, isalnum, isalpha, isdigit. rewrite !orb_true_iff, !andb_true_iff, !N.leb_le, Ascii.eqb_eq.
  intros [[[[]|[]]|[]]| ->]; lia || done.
Qed.

Lemma code_starts c t : (47 < code c)%N -> starts_token (c :: t).
Proof.
  intros Hc. unfold starts_token, isspace. cbn [head hd_error default from_option id]. split.
  - apply orb_false_iff. rewrite andb_false_iff, N.eqb_neq, !N.leb_gt. lia.
  - left. intros ->. cbn in Hc. lia.
Qed.

Lemma keyword_spells type text :
  is_keyword type = true -> (text, type) ∈ keywords ->
  isdigit (default NUL (head text)) = false /\ text <> [] /\ Forall (fun c => is_ident_char c = true) text /\
  keyword_type text keywords = type.
Proof. intros _ Hin. pose proof keyword_text_ok as Hk. rewrite Forall_forall in Hk. by apply (Hk (text, type)). Qed.

Lemma spells_cases type text :
  spells type text ->
  (type = TOKEN_INT /\ text <> [] /\ Forall (fun c => isdigit c = true) text /\ (digits_value text <= LLONG_MAX)%Z) \/
  (type = TOKEN_FLOAT /\ spells TOKEN_FLOAT text) \/ (type = TOKEN_STRING /\ spells TOKEN_STRING text) \/
  (type = TOKEN_BUILTIN /\ spells TOKEN_BUILTIN text) \/
  (isdigit (default NUL (head text)) = false /\ text <> [] /\ Forall (fun c => is_ident_char c = true) text /\
   keyword_type text keywords = type) \/
  symbol_text type = Some text.
Proof.
  intros Hs. destruct type; try done; try (by left); try (by right; left); try (by do 2 right; left);
    try (by do 3 right; left); try (by do 5 right); try (by do 4 right; left; apply keyword_spells).
  do 4 right. left. destruct Hs as (Hd & Hne & Hall & Hno). repeat split; try done.
  destruct (keyword_type_spec text keywords keywords_nul) as [Hin|[? _]]; [|done].
  exfalso. apply Hno, list_elem_of_fmap. by exists (text, keyword_type text keywords).
Qed.

Lemma spells_starts type text r : spells type text -> delimited r -> text <> [] /\ starts_token (text ++ r).
Proof.
  intros Hs Hr. destruct (spells_cases type text Hs) as
    [(_ & Hne & Hall & _)|[(_ & whole & fraction & -> & Hne & Hw & _)|[(_ & body & -> & _)|[(_ & name & -> & _)|
     [(_ & Hne & Hall & _)|Ht]]]]].
  - split; [done|]. destruct text as [|c text]; [done|]. apply Forall_cons in Hall as [Hc%isdigit_range _].
    apply code_starts. lia.
  - split; [by destruct whole|]. destruct whole as [|c whole]; [by split; [|left]|].
    apply Forall_cons in Hw as [Hc%isdigit_range _]. apply code_starts. lia.
  - split; [done|]. by split; [|left].
  - split; [done|]. by apply code_starts.
  - split; [done|]. destruct text as [|c text]; [done|]. apply Forall_cons in Hall as [Hc%ident_char_code _].
    apply code_starts. lia.
  - split; [by intros ->; destruct type|].
    destruct type; try done; injection Ht as <-; split; try done; try (by left);
      right; (destruct r as [|c r]; [done|]); cbn in Hr; by subst c.
Qed.

Lemma skip_space lx t :
  remaining lx = " "%char :: t -> starts_token t -> lexer_skip_trivia lx = Some (lexer_eat lx).
Proof.
  intros Hrem [Hsp Hnc]. unfold lexer_skip_trivia, turns. cbn [skip_trivia].
  destruct (reads_eat_while isspace lx) as (He & _); [done|].
  change (" "%char :: t) with ([" "%char] ++ t) in Hrem.
  rewrite Hrem, (span_class_prefix isspace [" "%char] t) in He; [|by repeat constructor|exact Hsp|done]. cbn [fst after] in He. rewrite He.
  assert (Hrem1 : remaining (lexer_eat lx) = t) by by rewrite remaining_eat, Hrem.
  rewrite peek_remaining, peek_next_remaining, Hrem1. destruct Hnc as [Hc|[Hn1 Hn2]].
  - apply Ascii.eqb_neq in Hc. by rewrite Hc.
  - apply Ascii.eqb_neq in Hn1, Hn2. rewrite Hn1, Hn2. by case_match.
Qed.

(** The token the text spells, and the lexer behind it. *)
Lemma lexer_token_spells l type text r :
  spells type text -> remaining l = text ++ r -> delimited r -> pool_ok (lx_strings l) ->
  exists tok lx', lexer_token l = Some (tok, lx') /\ token_type tok = type /\ token_read l text tok lx' /\
    remaining lx' = r /\ (type = TOKEN_FLOAT -> token_value tok = Some (as_float (strtof text))).
Proof.
  intros Hs Hrem Hr Hpool.
  enough (Hf : exists tok lx', lexer_token l = Some (tok, lx') /\ token_type tok = type /\
    (remaining lx' = r \/ symbol_text type = Some text) /\
    (type = TOKEN_FLOAT -> token_value tok = Some (as_float (strtof text)))).
  { destruct Hf as (tok & lx' & Htok & Hty & Hcase & Hv).
    destruct (lexer_token_read l Hpool) as (tok' & l' & text' & Htok' & Ht & _). rewrite Htok in Htok'.
    injection Htok' as <- <-. pose proof (rd_text _ _ _ (tr_reads _ _ _ _ Ht)) as Htext. rewrite Hrem in Htext.
    assert (Heq : text' = text).
    { destruct Hcase as [Hr'|Hsym]; [rewrite Hr' in Htext; by apply app_inv_tail in Htext|].
      pose proof (tr_text _ _ _ _ Ht) as Htt. unfold token_text in Htt. rewrite Hty in Htt.
      destruct type; try done; cbn in Hsym, Htt; congruence. }
    subst text'. apply app_inv_head in Htext. by exists tok, lx'. }
  destruct (spells_cases type text Hs) as
    [(-> & Hne & Hall & Hv)|[(-> & whole & fraction & -> & Hne & Hw & Hfr)|[(-> & body & -> & Hun)|
     [(-> & name & -> & Hne & Hall)|[(Hd & Hne & Hall & Hk)|Ht]]]]].
  - destruct (int_forward l text r) as (tok & lx' & ? & ? & ?); try done. exists tok, lx'. do 2 (split; [done|]). split; [by left|done].
  - rewrite <- app_assoc in Hrem. destruct (float_forward l whole fraction r) as (tok & lx' & ? & ? & ? & ?); try done.
    exists tok, lx'. do 2 (split; [done|]). split; [by left|done].
  - cbn in Hrem. rewrite <- app_assoc in Hrem. destruct (string_forward l body r) as (tok & lx' & ? & ? & ?); try done.
    exists tok, lx'. do 2 (split; [done|]). split; [by left|done].
  - destruct (builtin_forward l name r) as (lx' & ? & ?); try done. eexists _, lx'. split; [done|]. split; [done|]. split; [by left|done].
  - destruct (identifier_forward l text r) as (lx' & ? & ?); try done. eexists _, lx'. split; [done|].
    cbn. split; [done|]. split; [by left|]. intros ->. destruct (keyword_type_spec text keywords keywords_nul) as [Hin|[? _]];
      [|congruence]. rewrite Hk in Hin. by apply keyword_types in Hin.
  - destruct (symbol_forward l type text r) as (tok & lx' & ? & ?); try done. exists tok, lx'.
    do 3 (split; [by auto|]). intros ->. done.
Qed.

(** Every token behind a space. *)
Definition print_tokens (l : list (TokenType * list ascii)) : list ascii := concat ((fun p => " "%char :: p.2) <$> l).

Lemma print_delimited l : delimited (print_tokens l).
Proof. by destruct l as [|[type text] l]. Qed.

Definition read_back (heap : list (list ascii)) (p : TokenType * list ascii) (tok : Token) : Prop :=
  token_type tok = p.1 /\ token_text heap tok p.2 /\
  (p.1 = TOKEN_FLOAT -> token_value tok = Some (as_float (strtof p.2))).

Lemma next_at_end lx :
  remaining lx = [] ->
  exists tok lx', lexer_next lx = Some (tok, lx') /\ token_type tok = TOKEN_EOF /\
    lx_diagnostics lx' = lx_diagnostics lx /\ lx_strings lx' = lx_strings lx.
Proof.
  intros Hrem. destruct (reads_eat_while isspace lx) as (He & _); [done|]. rewrite Hrem in He. cbn [span_class fst after] in He.
  assert (Hp : lexer_peek lx = NUL) by by rewrite peek_remaining, Hrem.
  unfold lexer_next, lexer_skip_trivia. unfold turns at 1. cbn [skip_trivia]. rewrite He, Hp. change (negb (Ascii.eqb NUL "/"%char)) with true. cbv iota.
  cbn [mbind option_bind]. unfold lexer_token. change (lexer_peek (with_start lx)) with (lexer_peek lx). rewrite Hp.
  by eexists _, _.
Qed.

(** The next token of printed tokens. *)
Lemma next_printed lx t l :
  remaining lx = print_tokens (t :: l) -> spells t.1 t.2 -> pool_ok (lx_strings lx) ->
  exists tok lx', lexer_next lx = Some (tok, lx') /\ read_back (pool_heap (lx_strings lx')) t tok /\
    remaining lx' = print_tokens l /\ pool_ok (lx_strings lx') /\
    pool_heap (lx_strings lx) `prefix_of` pool_heap (lx_strings lx') /\ lx_diagnostics lx' = lx_diagnostics lx.
Proof.
  destruct t as [type text]. cbn [fst snd]. intros Hrem Hs Hpool.
  change (remaining lx = " "%char :: text ++ print_tokens l) in Hrem.
  pose proof (print_delimited l) as Hd. destruct (spells_starts _ _ _ Hs Hd) as [_ Hst].
  unfold lexer_next. rewrite (skip_space _ _ Hrem Hst). cbn [mbind option_bind].
  destruct (eat_fields lx) as (_ & _ & _ & Hd1 & Hp1 & _).
  destruct (lexer_token_spells (with_start (lexer_eat lx)) type text (print_tokens l) Hs)
    as (tok & l1 & -> & Hty & Ht & Hrem1 & Hv).
  { change (remaining (with_start (lexer_eat lx))) with (remaining (lexer_eat lx)). by rewrite remaining_eat, Hrem. }
  { done. }
  { cbn. by rewrite Hp1. }
  pose proof (tr_reads _ _ _ _ Ht) as Hr. pose proof (rd_heap _ _ _ Hr) as Hheap1. cbn in Hheap1. rewrite Hp1 in Hheap1.
  exists tok, l1. split; [done|]. split; [split; [done|split; [apply (tr_text _ _ _ _ Ht)|done]]|]. split; [done|].
  split; [apply (rd_pool _ _ _ Hr); cbn; by rewrite Hp1|]. split; [done|].
  rewrite (tr_valid _ _ _ _ Ht) by (intros Hi; rewrite Hi in Hty; by subst type). done.
Qed.

Lemma read_back_mono heap heap' t tok : heap `prefix_of` heap' -> read_back heap t tok -> read_back heap' t tok.
Proof. intros Hpre (H1 & H2 & H3). split; [done|]. split; [|done]. by eapply token_text_mono. Qed.

Lemma lex_tokens_prints l lx fuel :
  Forall (fun p => spells p.1 p.2) l -> remaining lx = print_tokens l -> pool_ok (lx_strings lx) -> length l < fuel ->
  exists tokens eof lx', lex_tokens fuel lx = Some (tokens ++ [eof], lx') /\ token_type eof = TOKEN_EOF /\
    pool_heap (lx_strings lx) `prefix_of` pool_heap (lx_strings lx') /\ lx_diagnostics lx' = lx_diagnostics lx /\
    Forall2 (read_back (pool_heap (lx_strings lx'))) l tokens.
Proof.
  intros Hl. revert lx fuel. induction Hl as [|t l Hs _ IH]; intros lx fuel Hrem Hpool Hf;
    (destruct fuel as [|fuel]; [cbn in Hf; lia|]); cbn [lex_tokens].
  - destruct (next_at_end lx Hrem) as (tok & lx' & Hn & He & Hd & Hp). rewrite Hn. cbn [mbind option_bind].
    rewrite decide_True by done. exists [], tok, lx'. by rewrite Hp.
  - destruct (next_printed lx t l Hrem Hs Hpool) as (tok & l1 & -> & Hread & Hrem1 & Hpool1 & Hheap1 & Hd1).
    cbn [mbind option_bind]. destruct t as [type text]. pose proof Hread as [Hty _]. cbn [fst] in Hty, Hs.
    rewrite decide_False by (intros He; rewrite He in Hty; by subst type).
    destruct (IH l1 fuel Hrem1 Hpool1) as (tokens & eof & lx' & -> & He & Hheap & Hd2 & Hall); [cbn in Hf; lia|].
    cbn [mbind option_bind]. exists (tok :: tokens), eof, lx'. split; [done|]. split; [done|]. split; [by etrans|].
    split; [congruence|]. constructor; [by eapply read_back_mono|done].
Qed.

Lemma print_tokens_length l : length l <= length (print_tokens l).
Proof. induction l as [|[type text] l IH]; [done|]. cbn. rewrite length_app. unfold print_tokens in IH. lia. Qed.

(** C31: Tokens printed one after another, a space before each, are lexed back as
    they were: their types in order, a literal with the value its text denotes
    (an integer up to the largest [int64_t], the float nearest to its decimal
    text, the string its escapes stand for), a name with its text, and nothing
    is reported. *)
Theorem lexer_reads_back (l : list (TokenType * list ascii)) (Hspells : Forall (fun p => spells p.1 p.2) l) :
  exists tokens eof lx', lex_source (print_tokens l) = Some (tokens ++ [eof], lx') /\
    token_type eof = TOKEN_EOF /\ diag_items (lx_diagnostics lx') = [] /\
    Forall2 (read_back (pool_heap (lx_strings lx'))) l tokens.
Proof.
  unfold lex_source. destruct string_pool_init_ok as (pool & -> & Hpool & _). cbn [mbind option_bind].
  destruct (lex_tokens_prints l (lexer_create (print_tokens l) pool (diagnostics_init None)) (S (length (print_tokens l))) Hspells)
    as (tokens & eof & lx' & -> & He & _ & Hd & Hall); [done|done| |].
  { pose proof (print_tokens_length l). lia. }
  exists tokens, eof, lx'. by rewrite Hd.
Qed.

Definition sample_tokens : list (TokenType * list ascii) :=
  [(TOKEN_LET, bytes "let"); (TOKEN_IDENT, bytes "_x1"); (TOKEN_COLON, bytes ":"); (TOKEN_AMP, bytes "&");
   (TOKEN_ASSIGN, bytes "="); (TOKEN_INT, bytes "9223372036854775807"); (TOKEN_DIV, bytes "/");
   (TOKEN_FLOAT, bytes ".1"); (TOKEN_BUILTIN, bytes "@size"); (TOKEN_OR, bytes "||");
   (TOKEN_STRING, quote :: bytes "a\n\0b" ++ [quote]); (TOKEN_SEMICOLON, bytes ";")].

Lemma lexer_reads_back_witness :
  exists tokens eof lx', lex_source (print_tokens sample_tokens) = Some (tokens ++ [eof], lx') /\
    token_type eof = TOKEN_EOF /\ diag_items (lx_diagnostics lx') = [] /\
    Forall2 (read_back (pool_heap (lx_strings lx'))) sample_tokens tokens.
Proof.
  apply lexer_reads_back. unfold sample_tokens.
  repeat (apply Forall_cons; split; [cbn [fst snd spells is_keyword]|]).
  - apply (list_elem_of_lookup_2 _ 0). done.
  - split; [done|]. split; [done|]. split; [by repeat constructor|]. by apply (bool_decide_unpack _); vm_compute.
  - done.
  - done.
  - done.
  - split; [done|]. split; [by repeat constructor|]. by vm_compute.
  - done.
  - exists [], (bytes "1"). split; [done|]. split; [by right|]. split; [constructor|by repeat constructor].
  - exists (bytes "size"). split; [done|]. split; [done|by repeat constructor].
  - done.
  - exists (bytes "a\n\0b"). split; [done|]. by eexists.
  - done.
  - constructor.
Defined.
