(* ===== verification/LexerStream.v ===== *)
(** * LexerStream: the tokens at a place of a source

    What a token is depends on the source and the position alone, not on the
    strings interned, the diagnostics or the scratch buffer a lexer got there
    with: a position has one stream of tokens. *)

From S2P Require Import Prelude Types Mir Diagnostics HashMap Strings Lexer.

(** Two lexers at the same place. *)
Definition same_text (a b : Lexer) : Prop := lx_source a = lx_source b /\ lx_pos a = lx_pos b.

Lemma same_text_peek a b : same_text a b -> lexer_peek a = lexer_peek b.
Proof. intros [Hs Hp]. unfold lexer_peek. by rewrite Hs, Hp. Qed.
Lemma same_text_peek_next a b : same_text a b -> lexer_peek_next a = lexer_peek_next b.
Proof. intros [Hs Hp]. unfold lexer_peek_next. by rewrite Hs, Hp. Qed.
Lemma same_text_remaining a b : same_text a b -> remaining a = remaining b.
Proof. intros [Hs Hp]. unfold remaining. by rewrite Hs, Hp. Qed.
Lemma same_text_turns a b : same_text a b -> turns a = turns b.
Proof. intros H. unfold turns. by rewrite (same_text_remaining a b H). Qed.

Lemma eat_text lx : lx_source (lexer_eat lx) = lx_source lx /\ lx_pos (lexer_eat lx) = S (lx_pos lx).
Proof. unfold lexer_eat. by destruct (Ascii.eqb (lexer_peek lx) newline). Qed.

Lemma same_text_eat a b : same_text a b -> same_text (lexer_eat a) (lexer_eat b).
Proof.
  intros [Hs Hp]. destruct (eat_text a) as [Ha Ha'], (eat_text b) as [Hb Hb']. split; congruence.
Qed.

Lemma same_text_eat_while fuel f a b : same_text a b -> same_text (eat_while fuel f a) (eat_while fuel f b).
Proof.
  revert a b. induction fuel as [|fuel IH]; intros a b H; [done|]. cbn [eat_while].
  rewrite (same_text_peek a b H). destruct (f (lexer_peek b)); [|done]. by apply IH, same_text_eat.
Qed.

Lemma same_text_block_comment fuel opened1 opened2 a b :
  same_text a b ->
  match block_comment fuel opened1 a, block_comment fuel opened2 b with
  | Some (c1, a'), Some (c2, b') => c1 = c2 /\ same_text a' b'
  | None, None => True
  | _, _ => False
  end.
Proof.
  revert a b. induction fuel as [|fuel IH]; intros a b H; [done|]. cbn [block_comment].
  rewrite (same_text_peek a b H), (same_text_peek_next a b H).
  destruct (Ascii.eqb (lexer_peek b) "*"%char && Ascii.eqb (lexer_peek_next b) "/"%char); [done|].
  destruct (Ascii.eqb (lexer_peek b) NUL); [done|]. by apply IH, same_text_eat.
Qed.

Lemma same_text_skip_trivia fuel a b :
  same_text a b ->
  match skip_trivia fuel a, skip_trivia fuel b with
  | Some a', Some b' => same_text a' b'
  | None, None => True
  | _, _ => False
  end.
Proof.
  revert a b. induction fuel as [|fuel IH]; intros a b H; [done|]. cbn [skip_trivia].
  rewrite (same_text_turns a b H). pose proof (same_text_eat_while (turns b) isspace a b H) as H1.
  set (a1 := eat_while _ _ a) in *. set (b1 := eat_while _ _ b) in *. clearbody a1 b1.
  rewrite (same_text_peek a1 b1 H1), (same_text_peek_next a1 b1 H1), (same_text_turns a1 b1 H1).
  destruct (negb _); [done|]. destruct (Ascii.eqb (lexer_peek_next b1) "/"%char); [by apply IH, same_text_eat_while|].
  destruct (Ascii.eqb (lexer_peek_next b1) "*"%char); [|done].
  pose proof (same_text_eat _ _ (same_text_eat _ _ H1)) as H2. rewrite (same_text_turns _ _ H2).
  pose proof (same_text_block_comment (turns (lexer_eat (lexer_eat b1))) (MkSpan (lx_line a1) (lx_column a1))
    (MkSpan (lx_line b1) (lx_column b1)) _ _ H2) as H3.
  destruct (block_comment _ _ (lexer_eat (lexer_eat a1))) as [[c a3]|], (block_comment _ _ (lexer_eat (lexer_eat b1))) as [[c' b3]|];
    cbn [mbind option_bind]; try done.
  destruct H3 as [-> H3]. destruct c'; [|done]. by apply IH, same_text_eat, same_text_eat.
Qed.

(** *** Tokens *)

Definition same_token (r s : Token * Lexer) : Prop :=
  token_type r.1 = token_type s.1 /\ token_lexeme r.1 = token_lexeme s.1 /\ same_text r.2 s.2.

Lemma same_text_between a b a' b' : same_text a b -> same_text a' b' -> text_between a a' = text_between b b'.
Proof.
  intros H [_ Hp]. unfold text_between. rewrite (same_text_remaining a b H). destruct H as [_ Hp0]. by rewrite Hp, Hp0.
Qed.

Lemma same_number a b : same_text a b -> same_token (lexer_number a) (lexer_number b).
Proof.
  intros H. unfold lexer_number. rewrite (same_text_turns a b H), (same_text_remaining a b H).
  pose proof (same_text_eat_while (turns b) isdigit a b H) as H1.
  set (a1 := eat_while _ _ a) in *. set (b1 := eat_while _ _ b) in *. clearbody a1 b1.
  rewrite (same_text_peek a1 b1 H1), (same_text_peek_next a1 b1 H1).
  pose proof (same_text_eat _ _ H1) as H2. rewrite (same_text_turns _ _ H2).
  pose proof (same_text_eat_while (turns (lexer_eat b1)) isdigit _ _ H2) as H3.
  destruct (Ascii.eqb (lexer_peek b1) "."%char && _); [by split|]. rewrite !decide_False by done.
  destruct (strtoll (remaining b)) as [value []]; by split.
Qed.

Lemma same_identifier a b : same_text a b -> same_token (lexer_identifier a) (lexer_identifier b).
Proof.
  intros H. unfold lexer_identifier. rewrite (same_text_turns a b H).
  pose proof (same_text_eat_while (turns b) is_ident_char a b H) as H1. cbv zeta.
  rewrite (same_text_between a b _ _ H H1). by split.
Qed.

Lemma same_string_chars fuel opened1 opened2 a b n :
  same_text a b ->
  match string_chars fuel opened1 a n, string_chars fuel opened2 b n with
  | Some (c, a'), Some (c', b') => (c = None <-> c' = None) /\ same_text a' b'
  | _, _ => True
  end.
Proof.
  revert a b n. induction fuel as [|fuel IH]; intros a b n H; [done|]. cbn [string_chars].
  rewrite (same_text_peek a b H). destruct (Ascii.eqb (lexer_peek b) quote); [done|].
  destruct (Ascii.eqb (lexer_peek b) NUL || Ascii.eqb (lexer_peek b) newline); [done|].
  assert (Hwrite : forall a b ch, same_text a b ->
    match (let '(reserved, lx) := lexer_reserve a (n + 1) in
           if negb reserved then Some (None, report lx GAB_ERR_SYNTAX opened1 "string literal is too long")
           else if bool_decide (n < length (lx_scratch lx)) then
             string_chars fuel opened1 (lexer_eat (with_scratch lx (<[n := ch]> (lx_scratch lx)))) (n + 1)
           else None),
          (let '(reserved, lx) := lexer_reserve b (n + 1) in
           if negb reserved then Some (None, report lx GAB_ERR_SYNTAX opened2 "string literal is too long")
           else if bool_decide (n < length (lx_scratch lx)) then
             string_chars fuel opened2 (lexer_eat (with_scratch lx (<[n := ch]> (lx_scratch lx)))) (n + 1)
           else None) with
    | Some (c, a'), Some (c', b') => (c = None <-> c' = None) /\ same_text a' b'
    | _, _ => True
    end).
  { clear a b H. intros a b ch H. destruct (lexer_reserve_enough a (n + 1)) as (s1 & -> & H1).
    destruct (lexer_reserve_enough b (n + 1)) as (s2 & -> & H2). cbn [negb lx_scratch with_scratch].
    rewrite !bool_decide_eq_true_2 by lia. by apply IH, same_text_eat. }
  destruct (Ascii.eqb (lexer_peek b) backslash); [|by apply Hwrite].
  pose proof (same_text_eat _ _ H) as H1. rewrite (same_text_peek _ _ H1).
  destruct (escape_value (lexer_peek (lexer_eat b))); [by apply Hwrite|done].
Qed.

Lemma same_string a b r s :
  same_text a b -> lexer_string a = Some r -> lexer_string b = Some s -> same_token r s.
Proof.
  intros H. unfold lexer_string. pose proof (same_text_eat _ _ H) as H1. rewrite (same_text_turns _ _ H1).
  pose proof (same_string_chars (turns (lexer_eat b)) (start_span a) (start_span b) _ _ 0 H1) as H2.
  destruct (string_chars _ _ (lexer_eat a) 0) as [[c a2]|], (string_chars _ _ (lexer_eat b) 0) as [[c' b2]|];
    cbn [mbind option_bind]; try done.
  destruct H2 as [Hc H2]. pose proof (same_text_eat _ _ H2) as H3.
  destruct c as [n|], c' as [n'|]; [| |by destruct Hc as [Hc _]; discriminate (Hc eq_refl)|].
  - destruct (string_from_ref _ _) as [[p1 t1]|], (string_from_ref (lx_strings (lexer_eat b2)) _) as [[p2 t2]|];
      cbn [mbind option_bind]; try done. intros [= <-] [= <-]. by split.
  - destruct Hc as [_ Hc]. by discriminate (Hc eq_refl).
  - intros [= <-] [= <-]. by split.
Qed.

Section symbols.
Context (a b : Lexer) (H : same_text a b).

Lemma same_create type : same_token (token_create a type, a) (token_create b type, b).
Proof using All. by split. Qed.

Lemma same_invalid ch : same_token (lexer_invalid a ch) (lexer_invalid b ch).
Proof using All. by split. Qed.

Lemma same_handle_eq base eq : same_token (lexer_handle_eq a base eq) (lexer_handle_eq b base eq).
Proof using All.
  unfold lexer_handle_eq. rewrite (same_text_peek a b H). destruct (Ascii.eqb _ _); split; try done.
  split; [done|]. by apply same_text_eat.
Qed.

Lemma same_handle_op_eq base eq op op_tok :
  same_token (lexer_handle_op_eq a base eq op op_tok) (lexer_handle_op_eq b base eq op op_tok).
Proof using All.
  unfold lexer_handle_op_eq. rewrite (same_text_peek a b H). pose proof (same_text_eat _ _ H).
  destruct (Ascii.eqb _ "="%char); [by case_decide|]. destruct (Ascii.eqb _ op); [done|]. by case_decide.
Qed.

Lemma same_builtin : same_token (lexer_builtin a) (lexer_builtin b).
Proof using All.
  unfold lexer_builtin. rewrite (same_text_turns a b H).
  pose proof (same_text_eat_while (turns b) is_ident_char a b H) as H1. rewrite (same_text_between a b _ _ H H1).
  destruct (Nat.eqb _ 0); by split.
Qed.

Lemma same_dot :
  same_token
    (if Ascii.eqb (lexer_peek a) "."%char then let lx := lexer_eat a in (token_create lx TOKEN_DOT_DOT, lx)
     else (token_create a TOKEN_DOT, a))
    (if Ascii.eqb (lexer_peek b) "."%char then let lx := lexer_eat b in (token_create lx TOKEN_DOT_DOT, lx)
     else (token_create b TOKEN_DOT, b)).
Proof using All.
  rewrite (same_text_peek a b H). pose proof (same_text_eat _ _ H). destruct (Ascii.eqb _ _); by split.
Qed.

Lemma same_symbol ch : same_token (lexer_symbol a ch) (lexer_symbol b ch).
Proof using All.
  destruct ch as [[] [] [] [] [] [] [] []]; cbn [lexer_symbol];
    first [apply same_invalid|apply same_create|apply same_handle_eq|apply same_handle_op_eq|apply same_builtin|apply same_dot].
Qed.
End symbols.

(** The next token is the same from every lexer at the same place. *)
Lemma lexer_next_same a b r s :
  same_text a b -> lexer_next a = Some r -> lexer_next b = Some s -> same_token r s.
Proof.
  intros H. unfold lexer_next, lexer_skip_trivia. rewrite (same_text_turns a b H).
  pose proof (same_text_skip_trivia (turns b) a b H) as H1.
  destruct (skip_trivia _ a) as [a1|], (skip_trivia _ b) as [b1|]; cbn [mbind option_bind]; try done.
  assert (H2 : same_text (with_start a1) (with_start b1)) by done. revert H2.
  generalize (with_start a1) (with_start b1). clear. intros a b H. unfold lexer_token.
  rewrite (same_text_peek a b H), (same_text_peek_next a b H).
  destruct (isdigit (lexer_peek b) || _); [intros [= <-] [= <-]; by apply same_number|].
  destruct (isalpha (lexer_peek b) || _); [intros [= <-] [= <-]; by apply same_identifier|].
  destruct (Ascii.eqb (lexer_peek b) quote); [by apply same_string|].
  destruct (Ascii.eqb (lexer_peek b) NUL); [intros [= <-] [= <-]; by split|].
  intros [= <-] [= <-]. by apply same_symbol, same_text_eat.
Qed.

(** ** What a token holds *)

(** The member of the union a token of the type was given. *)
Definition token_ok (heap : list (list ascii)) (tok : Token) : Prop :=
  match token_type tok with
  | TOKEN_INT => exists value, token_value tok = Some (as_int value)
  | TOKEN_FLOAT => exists value, token_value tok = Some (as_float value)
  | TOKEN_STRING => exists p content, token_value tok = Some (as_string p) /\ heap !! p = Some content
  | _ => True
  end.

Lemma token_ok_mono heap heap' tok : heap `prefix_of` heap' -> token_ok heap tok -> token_ok heap' tok.
Proof.
  intros Hpre. unfold token_ok. destruct (token_type tok); try done.
  intros (p & content & Hv & Hp). exists p, content. split; [done|]. by eapply prefix_lookup_Some.
Qed.

(** Types that [lexer_symbol] makes have no value. *)
Definition no_value (type : TokenType) : bool :=
  match type with TOKEN_INT | TOKEN_FLOAT | TOKEN_STRING => false | _ => true end.

Lemma no_value_ok heap tok : no_value (token_type tok) = true -> token_ok heap tok.
Proof. unfold token_ok. by destruct (token_type tok). Qed.

Lemma symbol_no_value lx ch : no_value (token_type (lexer_symbol lx ch).1) = true.
Proof.
  assert (He : forall base eq, no_value base = true -> no_value eq = true ->
    no_value (token_type (lexer_handle_eq lx base eq).1) = true).
  { intros. unfold lexer_handle_eq. by destruct (Ascii.eqb _ _). }
  assert (Ho : forall base eq op op_tok, no_value base = true -> no_value eq = true -> no_value op_tok = true ->
    no_value (token_type (lexer_handle_op_eq lx base eq op op_tok).1) = true).
  { intros. unfold lexer_handle_op_eq. destruct (Ascii.eqb _ _); [by case_decide|]. destruct (Ascii.eqb _ _); [done|].
    by case_decide. }
  destruct ch as [[] [] [] [] [] [] [] []]; cbn [lexer_symbol]; try done; try (by apply He); try (by apply Ho).
  - by destruct (Ascii.eqb _ _).
  - unfold lexer_builtin. by destruct (Nat.eqb _ 0).
Qed.

Lemma keyword_no_value ref words :
  Forall (fun w => no_value w.2 = true) words -> no_value (keyword_type ref words) = true.
Proof. induction 1 as [|[w t] words Hw _ IH]; [done|]. cbn [keyword_type]. by destruct (string_ref_equals_cstr ref w). Qed.

Lemma string_value_ok lx tok lx' : pool_ok (lx_strings lx) -> lexer_peek lx = quote ->
  lexer_string lx = Some (tok, lx') -> token_ok (pool_heap (lx_strings lx')) tok.
Proof.
  intros Hpool Hq Hs. destruct (string_read lx Hpool Hq) as (tok' & lx2 & text & Hs' & Ht).
  rewrite Hs' in Hs. injection Hs as -> ->. pose proof (tr_text _ _ _ _ Ht) as Htext.
  unfold lexer_string in Hs'. destruct (string_chars _ _ _ 0) as [[[n|] l]|]; cbn [mbind option_bind] in Hs'; [| |done].
  - destruct (string_from_ref _ _) as [[pool p]|]; cbn [mbind option_bind] in Hs'; [|done].
    unfold token_text, token_ok in *. replace (token_type tok) with TOKEN_STRING in * by (by injection Hs' as <- _).
    destruct Htext as (body & q & content & _ & Hv & _ & Hl). by exists q, content.
  - injection Hs' as <- _. by apply no_value_ok.
Qed.

Lemma lexer_token_ok lx tok lx' :
  pool_ok (lx_strings lx) -> lexer_token lx = Some (tok, lx') -> token_ok (pool_heap (lx_strings lx')) tok.
Proof.
  intros Hpool. unfold lexer_token. destruct (isdigit (lexer_peek lx) || _).
  { intros Hn%(inj Some). unfold lexer_number in Hn.
    destruct (Ascii.eqb _ "."%char && _).
    - rewrite decide_True in Hn by done. injection Hn as <- _. by eexists.
    - rewrite decide_False in Hn by done. destruct (strtoll _) as [value []]; injection Hn as <- _; by eexists. }
  destruct (isalpha (lexer_peek lx) || _).
  { intros Hn%(inj Some). apply (f_equal fst) in Hn. change (fst (tok, lx')) with tok in Hn. subst tok. apply no_value_ok.
    unfold lexer_identifier. cbv zeta. cbn [fst token_type token_create_ref]. apply keyword_no_value. by repeat constructor. }
  destruct (Ascii.eqb_spec (lexer_peek lx) quote) as [Hq|_]; [by apply string_value_ok|].
  destruct (Ascii.eqb _ NUL); [by intros [= <- _]|].
  intros Hn%(inj Some). apply no_value_ok. pose proof (symbol_no_value (lexer_eat lx) (lexer_peek lx)) as Hv. by rewrite Hn in Hv.
Qed.

(** *** One token further *)

(** What [lexer_next] does, as far as its clients need: it always answers, reads
    something unless it is at the end, and at the end it stays. *)
Lemma lexer_next_step lx :
  pool_ok (lx_strings lx) ->
  exists tok lx', lexer_next lx = Some (tok, lx') /\ lx_source lx' = lx_source lx /\
    pool_ok (lx_strings lx') /\ pool_heap (lx_strings lx) `prefix_of` pool_heap (lx_strings lx') /\
    diagnostics_count (lx_diagnostics lx) <= diagnostics_count (lx_diagnostics lx') /\
    token_ok (pool_heap (lx_strings lx')) tok /\
    (token_type tok = TOKEN_EOF -> lexer_peek lx' = NUL) /\
    (token_type tok <> TOKEN_EOF -> length (remaining lx') < length (remaining lx)).
Proof.
  intros Hpool. unfold lexer_next, lexer_skip_trivia.
  destruct (skip_trivia_read (turns lx) lx) as (lx1 & s & -> & Hr & _); [unfold turns; lia|]. cbn [mbind option_bind].
  assert (Hpool1 : pool_ok (lx_strings (with_start lx1))) by by apply (rd_pool _ _ _ Hr).
  destruct (lexer_token_read (with_start lx1) Hpool1) as (tok & lx' & text & Hn & Ht & Heof & Hnil).
  pose proof (reads_trans _ _ _ _ _ Hr (reads_trans _ _ _ _ _ (reads_with_start lx1) (tr_reads _ _ _ _ Ht))) as Hr2.
  exists tok, lx'. split; [done|]. split; [apply (rd_source _ _ _ Hr2)|]. split; [by apply (rd_pool _ _ _ Hr2)|].
  split; [apply (rd_heap _ _ _ Hr2)|]. split; [apply prefix_length, (rd_diagnostics _ _ _ Hr2)|].
  split; [by eapply lexer_token_ok|]. split.
  - intros He. pose proof (Hnil He) as ->. destruct (tr_some _ _ _ _ Ht eq_refl) as [Hp ->]. done.
  - intros He. rewrite (rd_text _ _ _ Hr2), !length_app.
    assert (text <> []); [|destruct text; [done|cbn [length]; lia]].
    intros ->. destruct (tr_some _ _ _ _ Ht eq_refl) as [Hp _]. by apply He, Heof.
Qed.

Lemma lexer_next_at_nul lx tok lx' :
  lexer_peek lx = NUL -> lexer_next lx = Some (tok, lx') -> token_type tok = TOKEN_EOF /\ same_text lx lx'.
Proof.
  intros Hp. unfold lexer_next, lexer_skip_trivia, turns. cbn [skip_trivia eat_while].
  unfold turns. cbn [eat_while]. rewrite Hp. change (isspace NUL) with false. cbv iota. rewrite Hp.
  change (negb (Ascii.eqb NUL "/"%char)) with true. cbv iota. cbn [mbind option_bind]. unfold lexer_token.
  change (lexer_peek (with_start lx)) with (lexer_peek lx). rewrite Hp.
  change (isdigit NUL || _) with false. change (isalpha NUL || _) with false. cbv iota.
  change (Ascii.eqb NUL quote) with false. change (Ascii.eqb NUL NUL) with true. cbv iota. intros [= <- <-]. by split.
Qed.
