(* ===== verification/Registry.v ===== *)
(** * Registry: the types of a program

    [src/src/type/type_registry.c], with the structural hash and equality of
    [src/src/type/type.c] it interns by.

    The heap of types and of declarations is part of the registry: a
    [const Type *] is an index into [reg_types].  An operation that allocates
    or fills a cache returns the registry it leaves; [None] is a failed
    [assert], the dereference of a null pointer, or a recursion deeper than its
    fuel.  A key of the intern table is the [Type] it points to. *)

From S2P Require Import Prelude Types HashMap Strings.

(** ** Addresses *)

Section addresses.
(** Where a type and an interned string lie in memory. *)
Context (type_addr str_addr : nat -> N).

Definition to_size (n : N) : N := (n mod 2 ^ 64)%N.
Definition address (at_ : nat -> N) (p : option nat) : N := match p with None => 0%N | Some n => at_ n end.

Definition decl_id_hash (id : DeclId) : N :=
  let hash := address str_addr (id_module id) in
  let hash := to_size (hash * 31 + address str_addr (id_owner id)) in
  let hash := to_size (hash * 31 + address str_addr (id_name id)) in
  to_size (hash * 31 + id_block id).

(** What the functions on constants ask of a type: its kind. *)
Definition heap_view (types : list TypeData) : TypeView := {|
  tv_kind t := p ← t; ty_kind <$> types !! p;
  tv_pointee _ := None; tv_field_count _ := 0; tv_owns _ := false; tv_borrows _ := false;
  tv_is_unique _ := false; tv_primitive _ := None;
|}.

Definition type_arg_hash (types : list TypeData) (arg : TypeArg) : N :=
  match arg with
  | TYPE_ARG_TYPE type => address type_addr type
  | TYPE_ARG_CONST (CONST_PARAM param) => N.of_nat param
  | TYPE_ARG_CONST (CONST_VALUE value) => constant_hash (TV := heap_view types) (address str_addr) value
  end.

Definition type_arg_equals (types : list TypeData) (arg other : TypeArg) : bool :=
  match arg, other with
  | TYPE_ARG_TYPE type, TYPE_ARG_TYPE type' => bool_decide (type = type')
  | TYPE_ARG_CONST (CONST_PARAM param), TYPE_ARG_CONST (CONST_PARAM param') => Nat.eqb param param'
  | TYPE_ARG_CONST (CONST_VALUE value), TYPE_ARG_CONST (CONST_VALUE value') =>
      constant_equals (TV := heap_view types) value value'
  | _, _ => false
  end.

(** The enumerator [TYPE_ARG_TYPE] or [TYPE_ARG_CONST]. *)
Definition arg_kind_index (arg : TypeArg) : N := match arg with TYPE_ARG_TYPE _ => 0%N | TYPE_ARG_CONST _ => 1%N end.

(** [((hash << 5) + hash) + n] *)
Definition hash_step (hash n : N) : N := to_size (to_size (N.shiftl hash 5) + hash + n).

Definition decl_id_at (decls : list TypeDecl) (decl : DeclPtr) : DeclId :=
  default decl_id_zero (d ← decl; decl_id <$> decls !! d).

Definition type_structural_hash (types : list TypeData) (decls : list TypeDecl) (type : TypeData) : N :=
  let hash := hash_step 5381 (kind_index (ty_kind type)) in
  match ty_kind type with
  | TYPE_REF | TYPE_RAW => hash_step hash (address type_addr (ty_pointee type))
  | TYPE_ARRAY | TYPE_SLICE | TYPE_STRUCT =>
      let hash := hash_step hash (decl_id_hash (decl_id_at decls (ty_decl type))) in
      foldl (fun hash arg => hash_step (hash_step hash (arg_kind_index arg)) (type_arg_hash types arg)) hash (ty_args type)
  | _ => hash
  end.

(** The loop over the arguments of two types of one length. *)
Fixpoint args_equal (types : list TypeData) (args others : list TypeArg) : bool :=
  match args, others with
  | arg :: args, other :: others => type_arg_equals types arg other && args_equal types args others
  | _, _ => true
  end.

(** The kinds whose equality is that of the pointers are never put in a table;
    [false] stands for it. *)
Definition type_structurally_equals (types : list TypeData) (decls : list TypeDecl) (type other : TypeData) : bool :=
  if negb (bool_decide (ty_kind type = ty_kind other)) then false
  else
    match ty_kind type with
    | TYPE_REF | TYPE_RAW => bool_decide (ty_pointee type = ty_pointee other)
    | TYPE_ARRAY | TYPE_SLICE | TYPE_STRUCT =>
        if negb (decl_id_equals (decl_id_at decls (ty_decl type)) (decl_id_at decls (ty_decl other))) ||
           negb (Nat.eqb (type_arg_count type) (type_arg_count other)) then false
        else args_equal types (ty_args type) (ty_args other)
    | _ => false
    end.

(** ** Instances and conformances *)

Definition GAB_MAX_TYPE_PARAMS : nat := 4.

Record InstanceId := MkInstanceId { inst_decl : DeclId; inst_args : list TypeArg }.

Definition instance_id_of (decl : DeclId) (args : list TypeArg) : InstanceId :=
  MkInstanceId decl (take GAB_MAX_TYPE_PARAMS args).

Definition instance_id_equals (types : list TypeData) (id other : InstanceId) : bool :=
  if negb (decl_id_equals (inst_decl id) (inst_decl other)) ||
     negb (Nat.eqb (length (inst_args id)) (length (inst_args other))) then false
  else args_equal types (inst_args id) (inst_args other).

Definition instance_id_hash (types : list TypeData) (id : InstanceId) : N :=
  foldl (fun hash arg => to_size (hash * 31 + type_arg_hash types arg)) (decl_id_hash (inst_decl id)) (inst_args id).

Record ConformanceKey := MkConformanceKey { conf_owner : DeclId; conf_interface : InstanceId }.

Definition conformance_key_of (decls : list TypeDecl) (type : TypeData) (interface : DeclId) (args : list TypeArg) : ConformanceKey :=
  MkConformanceKey (decl_id_at decls (ty_decl type)) (instance_id_of interface args).

Definition conformance_key_equals (types : list TypeData) (key other : ConformanceKey) : bool :=
  decl_id_equals (conf_owner key) (conf_owner other) && instance_id_equals types (conf_interface key) (conf_interface other).

Definition conformance_key_hash_of (types : list TypeData) (key : ConformanceKey) : N :=
  to_size (decl_id_hash (conf_owner key) * 31 + instance_id_hash types (conf_interface key)).

Record TypeMemberKey := MkTypeMemberKey { member_owner : DeclId; member_name : StrPtr }.

Definition type_member_key_of (decls : list TypeDecl) (type : TypeData) (name : StrPtr) : TypeMemberKey :=
  MkTypeMemberKey (decl_id_at decls (ty_decl type)) name.

(** ** The registry *)

Record KnownNames := MkKnownNames {
  name_i32 : StrPtr; name_f32 : StrPtr; name_boolean : StrPtr; name_u8 : StrPtr; name_usize : StrPtr;
  name_str : StrPtr; name_slice : StrPtr; name_raw : StrPtr; name_array : StrPtr; name_self : StrPtr;
  name_error : StrPtr;
  destroy_interface : DeclId;
  destroy_method : StrPtr; name_unique : StrPtr; name_index : StrPtr; name_len : StrPtr; name_as_bytes : StrPtr;
  name_caller : StrPtr; name_size_of : StrPtr;
}.

Record TypePrimitives := MkTypePrimitives {
  i32_type : TypePtr; u8_type : TypePtr; usize_type : TypePtr; f32_type : TypePtr; bool_type : TypePtr;
  str_type : TypePtr;
  slice_decl : DeclPtr; array_decl : DeclPtr; raw_decl : DeclPtr;
  error_type : TypePtr;
}.

Record TypeLayout := MkTypeLayout { layout_size : Z; layout_alignment : Z; layout_offsets : list Z }.

Record IntrinsicLowering := MkIntrinsicLowering { intrinsic_owner : StrPtr; intrinsic_name : StrPtr }.

Record TypeRegistry := MkTypeRegistry {
  reg_types : list TypeData;
  reg_decls : list TypeDecl;
  applications : HashMap TypeData nat;
  conformances : HashMap ConformanceKey bool;
  layouts : HashMap nat TypeLayout;
  reg_params : list TypePtr;
  primitives : TypePrimitives;
  names : KnownNames;
  intrinsics : list IntrinsicLowering;
}.

Definition deref (r : TypeRegistry) (p : TypePtr) : option TypeData := n ← p; reg_types r !! n.
Definition deref_decl (r : TypeRegistry) (p : DeclPtr) : option TypeDecl := n ← p; reg_decls r !! n.

Definition with_types (r : TypeRegistry) (types : list TypeData) : TypeRegistry :=
  MkTypeRegistry types (reg_decls r) (applications r) (conformances r) (layouts r) (reg_params r) (primitives r) (names r) (intrinsics r).
Definition with_decls (r : TypeRegistry) (decls : list TypeDecl) : TypeRegistry :=
  MkTypeRegistry (reg_types r) decls (applications r) (conformances r) (layouts r) (reg_params r) (primitives r) (names r) (intrinsics r).
Definition with_applications (r : TypeRegistry) (m : HashMap TypeData nat) : TypeRegistry :=
  MkTypeRegistry (reg_types r) (reg_decls r) m (conformances r) (layouts r) (reg_params r) (primitives r) (names r) (intrinsics r).
Definition with_conformances (r : TypeRegistry) (m : HashMap ConformanceKey bool) : TypeRegistry :=
  MkTypeRegistry (reg_types r) (reg_decls r) (applications r) m (layouts r) (reg_params r) (primitives r) (names r) (intrinsics r).
Definition with_layouts (r : TypeRegistry) (m : HashMap nat TypeLayout) : TypeRegistry :=
  MkTypeRegistry (reg_types r) (reg_decls r) (applications r) (conformances r) m (reg_params r) (primitives r) (names r) (intrinsics r).
Definition with_params (r : TypeRegistry) (params : list TypePtr) : TypeRegistry :=
  MkTypeRegistry (reg_types r) (reg_decls r) (applications r) (conformances r) (layouts r) params (primitives r) (names r) (intrinsics r).

(** [type_create] and the [arena_alloc] of a [Type] or a [TypeDecl]. *)
Definition new_type (r : TypeRegistry) (t : TypeData) : TypeRegistry * nat :=
  (with_types r (reg_types r ++ [t]), length (reg_types r)).
Definition new_decl (r : TypeRegistry) (d : TypeDecl) : TypeRegistry * nat :=
  (with_decls r (reg_decls r ++ [d]), length (reg_decls r)).

Definition intern_hash (r : TypeRegistry) : TypeData -> N := type_structural_hash (reg_types r) (reg_decls r).
Definition intern_equals (r : TypeRegistry) : TypeData -> TypeData -> bool :=
  type_structurally_equals (reg_types r) (reg_decls r).

Definition type_intern_lookup (r : TypeRegistry) (key : TypeData) : option (option nat) :=
  map_lookup (intern_hash r) (intern_equals r) (applications r) key.

Definition intern (r : TypeRegistry) (key : TypeData) : option (TypeRegistry * nat) :=
  existing ← type_intern_lookup r key;
  match existing with
  | Some p => Some (r, p)
  | None =>
      let '(r, p) := new_type r key in
      '(m, _) ← map_insert (intern_hash r) (intern_equals r) (applications r) key p;
      Some (with_applications r m, p)
  end.

Definition with_args (key : TypeData) (args : list TypeArg) : TypeData :=
  MkType (ty_kind key) (ty_name key) (ty_decl key) args (ty_has_param key) (ty_pointee key) (ty_substituted key) (ty_param_index key).
Definition with_decl (key : TypeData) (decl : DeclPtr) (has_param : bool) : TypeData :=
  MkType (ty_kind key) (ty_name key) decl (ty_args key) has_param (ty_pointee key) (ty_substituted key) (ty_param_index key).
Definition with_pointee (key : TypeData) (pointee : TypePtr) (has_param : bool) : TypeData :=
  MkType (ty_kind key) (ty_name key) (ty_decl key) (ty_args key) has_param pointee (ty_substituted key) (ty_param_index key).

Definition intern_applied (r : TypeRegistry) (key : TypeData) (args : list TypeArg) : option (TypeRegistry * nat) :=
  let key := with_args key args in
  existing ← type_intern_lookup r key;
  match existing with
  | Some p => Some (r, p)
  | None => intern r key
  end.

Definition has_param_at (r : TypeRegistry) (p : TypePtr) : bool := type_has_param (deref r p).

Definition type_registry_slice_of (r : TypeRegistry) (element : TypePtr) : option (TypeRegistry * nat) :=
  decl ← deref_decl r (slice_decl (primitives r));
  let key := type_init TYPE_SLICE (id_name (decl_id decl)) in
  intern_applied r (with_decl key (slice_decl (primitives r)) (has_param_at r element)) [TYPE_ARG_TYPE element].

Definition arg_is_const_param (arg : TypeArg) : bool :=
  match arg with TYPE_ARG_CONST (CONST_PARAM _) => true | _ => false end.

Definition type_registry_array_with (r : TypeRegistry) (element : TypePtr) (count : TypeArg) : option (TypeRegistry * nat) :=
  decl ← deref_decl r (array_decl (primitives r));
  let key := type_init TYPE_ARRAY (id_name (decl_id decl)) in
  intern_applied r (with_decl key (array_decl (primitives r)) (has_param_at r element || arg_is_const_param count))
    [TYPE_ARG_TYPE element; count].

Definition type_registry_get_primitive (r : TypeRegistry) (kind : TypeKind) : option TypePtr :=
  match kind with
  | TYPE_I32 => Some (i32_type (primitives r))
  | TYPE_F32 => Some (f32_type (primitives r))
  | TYPE_BOOL => Some (bool_type (primitives r))
  | TYPE_U8 => Some (u8_type (primitives r))
  | TYPE_USIZE => Some (usize_type (primitives r))
  | TYPE_STR => Some (str_type (primitives r))
  | TYPE_ERROR => Some (error_type (primitives r))
  | _ => None
  end.

Definition type_registry_error_type (r : TypeRegistry) : TypePtr := error_type (primitives r).

Definition type_registry_array_of (r : TypeRegistry) (element : TypePtr) (count : Z) : option (TypeRegistry * nat) :=
  i32 ← type_registry_get_primitive r TYPE_I32;
  type_registry_array_with r element (TYPE_ARG_CONST (CONST_VALUE (constant_int i32 count))).

Definition indirect_to (r : TypeRegistry) (kind : TypeKind) (inner : TypePtr) : option (TypeRegistry * nat) :=
  intern r (with_pointee (type_init kind None) inner (has_param_at r inner)).

Definition type_registry_ref_to (r : TypeRegistry) (inner : TypePtr) : option (TypeRegistry * nat) :=
  indirect_to r TYPE_REF inner.

Definition type_registry_raw_of (r : TypeRegistry) (element : TypePtr) : option (TypeRegistry * nat) :=
  decl ← deref_decl r (raw_decl (primitives r));
  let key := with_pointee (type_init TYPE_RAW (id_name (decl_id decl))) element false in
  intern_applied r (with_decl key (raw_decl (primitives r)) (has_param_at r element)) [TYPE_ARG_TYPE element].

Definition with_param_index (key : TypeData) (index : nat) : TypeData :=
  MkType (ty_kind key) (ty_name key) (ty_decl key) (ty_args key) (ty_has_param key) (ty_pointee key) (ty_substituted key) index.

Definition type_registry_param (r : TypeRegistry) (index : nat) : option (TypeRegistry * nat) :=
  if negb (Nat.ltb index GAB_MAX_TYPE_PARAMS) then None
  else
    known ← reg_params r !! index;
    match known with
    | Some p => Some (r, p)
    | None =>
        let '(r, p) := new_type r (with_param_index (type_init TYPE_PARAM None) index) in
        Some (with_params r (<[index := Some p]> (reg_params r)), p)
    end.

Definition arg_has_param (r : TypeRegistry) (arg : TypeArg) : bool :=
  match arg with
  | TYPE_ARG_TYPE type => has_param_at r type
  | TYPE_ARG_CONST constant => arg_is_const_param arg
  end.

Definition type_registry_instantiate (r : TypeRegistry) (decl : DeclPtr) (args : list TypeArg) : option (TypeRegistry * nat) :=
  d ← deref_decl r decl;
  if negb (Nat.eqb (length args) (decl_param_count d)) then None
  else
    let key := with_decl (type_init TYPE_STRUCT (id_name (decl_id d))) decl (existsb (arg_has_param r) args) in
    intern_applied r key args.

Definition type_registry_apply (r : TypeRegistry) (decl : DeclPtr) (args : list TypePtr) : option (TypeRegistry * nat) :=
  if negb (Nat.leb (length args) GAB_MAX_TYPE_PARAMS) then None
  else type_registry_instantiate r decl (TYPE_ARG_TYPE <$> args).

(** ** Substitution *)

Definition substitute_arg (arg : TypeArg) (args : list TypeArg) : option TypeArg :=
  match arg with
  | TYPE_ARG_CONST (CONST_PARAM param) =>
      given ← args !! param;
      match given with TYPE_ARG_CONST _ => Some given | TYPE_ARG_TYPE _ => None end
  | _ => Some arg
  end.

(** The pointer is that of a type: [NULL] has no parameter and is returned. *)
Fixpoint type_registry_substitute (fuel : nat) (r : TypeRegistry) (type : TypePtr) (args : list TypeArg) :
    option (TypeRegistry * TypePtr) :=
  match fuel with
  | O => None
  | S fuel =>
      if negb (has_param_at r type) then Some (r, type)
      else
        t ← deref r type;
        match ty_kind t with
        | TYPE_PARAM =>
            given ← args !! ty_param_index t;
            match given with TYPE_ARG_TYPE type => Some (r, type) | TYPE_ARG_CONST _ => None end
        | TYPE_REF =>
            '(r, inner) ← type_registry_substitute fuel r (ty_pointee t) args;
            '(r, p) ← type_registry_ref_to r inner; Some (r, Some p)
        | TYPE_RAW =>
            '(r, inner) ← type_registry_substitute fuel r (ty_pointee t) args;
            '(r, p) ← type_registry_raw_of r inner; Some (r, Some p)
        | TYPE_ARRAY =>
            element ← type_array_element (Some t);
            '(r, element) ← type_registry_substitute fuel r element args;
            count ← ty_args t !! 1;
            count ← substitute_arg count args;
            '(r, p) ← type_registry_array_with r element count; Some (r, Some p)
        | TYPE_SLICE =>
            element ← type_slice_element (Some t);
            '(r, element) ← type_registry_substitute fuel r element args;
            '(r, p) ← type_registry_slice_of r element; Some (r, Some p)
        | TYPE_STRUCT =>
            d ← deref_decl r (ty_decl t);
            if negb (Nat.leb (decl_param_count d) (length args)) then None
            else '(r, p) ← type_registry_instantiate r (ty_decl t) (take (decl_param_count d) args); Some (r, Some p)
        | _ => None
        end
  end.

(** ** Fields *)

Definition with_substituted (t : TypeData) (fields : list TypeField) : TypeData :=
  MkType (ty_kind t) (ty_name t) (ty_decl t) (ty_args t) (ty_has_param t) (ty_pointee t) (Some fields) (ty_param_index t).

(** The loop over the declared fields. *)
Fixpoint substitute_fields (fuel : nat) (r : TypeRegistry) (fields : list TypeField) (args : list TypeArg) :
    option (TypeRegistry * list TypeField) :=
  match fields with
  | [] => Some (r, [])
  | field :: fields =>
      '(r, type) ← type_registry_substitute fuel r (field_type field) args;
      '(r, rest) ← substitute_fields fuel r fields args;
      Some (r, MkTypeField (field_name field) type :: rest)
  end.

Definition substitute_fuel (r : TypeRegistry) : nat := S (length (reg_types r)).

(** [TypeFields] is its array; the count is its length. *)
Definition type_registry_fields_of (r : TypeRegistry) (type : TypePtr) : option (TypeRegistry * list TypeField) :=
  match type with
  | None => Some (r, [])
  | Some p =>
      t ← reg_types r !! p;
      if negb (bool_decide (ty_kind t = TYPE_STRUCT)) then Some (r, [])
      else
        decl ← deref_decl r (ty_decl t);
        if Nat.eqb (type_arg_count t) 0 then Some (r, decl_fields decl)
        else
          match ty_substituted t with
          | Some fields => Some (r, fields)
          | None =>
              '(r, fields) ← substitute_fields (substitute_fuel r) r (decl_fields decl) (ty_args t);
              Some (with_types r (<[p := with_substituted t fields]> (reg_types r)), fields)
          end
  end.

Definition type_registry_find_field (r : TypeRegistry) (type : TypePtr) (name : StrPtr) : option (TypeRegistry * option TypeField) :=
  '(r, fields) ← type_registry_fields_of r type;
  Some (r, find (fun f => bool_decide (field_name f = name)) fields).

(** ** Conformances *)

Definition conformance_hash (r : TypeRegistry) : ConformanceKey -> N := conformance_key_hash_of (reg_types r).
Definition conformance_equals (r : TypeRegistry) : ConformanceKey -> ConformanceKey -> bool := conformance_key_equals (reg_types r).

Definition type_registry_conforms (r : TypeRegistry) (type : TypePtr) (interface : DeclId) (args : list TypeArg) : option bool :=
  t ← deref r type;
  found ← map_lookup (conformance_hash r) (conformance_equals r) (conformances r) (conformance_key_of (reg_decls r) t interface args);
  Some (match found with Some _ => true | None => false end).

Definition type_registry_conforms_at_any (r : TypeRegistry) (type : TypePtr) (interface : DeclId) : option bool :=
  t ← deref r type;
  let wanted := conformance_key_of (reg_decls r) t interface [] in
  Some (existsb (fun entry =>
    match entry with
    | HASH_MAP_LIVE key _ _ =>
        decl_id_equals (conf_owner key) (conf_owner wanted) &&
        decl_id_equals (inst_decl (conf_interface key)) (inst_decl (conf_interface wanted))
    | _ => false
    end) (entries (conformances r))).

Definition type_registry_declare_conformance (r : TypeRegistry) (type : TypePtr) (interface : DeclId) (args : list TypeArg) :
    option (TypeRegistry * bool) :=
  known ← type_registry_conforms_at_any r type interface;
  if known : bool then Some (r, false)
  else
    t ← deref r type;
    '(m, _) ← map_insert (conformance_hash r) (conformance_equals r) (conformances r)
               (conformance_key_of (reg_decls r) t interface args) true;
    Some (with_conformances r m, true).

(** ** What a type owns, borrows and copies *)

Definition type_registry_is_unique (r : TypeRegistry) (type : TypePtr) : option bool :=
  t ← deref r type;
  match deref_decl r (ty_decl t) with
  | Some decl => Some (bool_decide (id_name (decl_id decl) = name_unique (names r)))
  | None => Some false
  end.

Definition type_registry_unique_pointee (r : TypeRegistry) (type : TypePtr) : option TypePtr :=
  unique ← type_registry_is_unique r type;
  if negb unique then Some None
  else
    t ← deref r type;
    Some (match ty_args t with [TYPE_ARG_TYPE type] => type | _ => None end).

(** [for (...) if (f(field) == stop) return stop;] over the fields' types. *)
Fixpoint fields_until (f : TypeRegistry -> TypePtr -> option (TypeRegistry * bool)) (stop : bool)
    (r : TypeRegistry) (fields : list TypeField) : option (TypeRegistry * bool) :=
  match fields with
  | [] => Some (r, negb stop)
  | field :: fields =>
      '(r, b) ← f r (field_type field);
      if Bool.eqb b stop then Some (r, stop) else fields_until f stop r fields
  end.

(** The checks [owns] and [copies] share: [Unique], a [Destroy] of its own. *)
Definition ends_itself (r : TypeRegistry) (type : TypePtr) : option bool :=
  unique ← type_registry_is_unique r type;
  if unique : bool then Some true else type_registry_conforms r type (destroy_interface (names r)) [].

Fixpoint type_registry_owns (fuel : nat) (r : TypeRegistry) (type : TypePtr) : option (TypeRegistry * bool) :=
  match fuel with
  | O => None
  | S fuel =>
      match type with
      | None => Some (r, false)
      | Some _ =>
          t ← deref r type;
          match ty_kind t with
          | TYPE_REF => Some (r, false)
          | TYPE_RAW => Some (r, false)
          | TYPE_ARRAY => element ← type_array_element (Some t); type_registry_owns fuel r element
          | TYPE_STR | TYPE_SLICE => Some (r, false)
          | TYPE_PARAM => Some (r, true)
          | _ =>
              ends ← ends_itself r type;
              if ends : bool then Some (r, true)
              else
                '(r, fields) ← type_registry_fields_of r type;
                fields_until (type_registry_owns fuel) true r fields
          end
      end
  end.

Fixpoint type_registry_borrows (fuel : nat) (r : TypeRegistry) (type : TypePtr) : option (TypeRegistry * bool) :=
  match fuel with
  | O => None
  | S fuel =>
      match type with
      | None => Some (r, false)
      | Some _ =>
          t ← deref r type;
          match ty_kind t with
          | TYPE_REF => Some (r, true)
          | TYPE_RAW => Some (r, false)
          | TYPE_ARRAY => element ← type_array_element (Some t); type_registry_borrows fuel r element
          | TYPE_STR | TYPE_SLICE => Some (r, false)
          | _ =>
              '(r, fields) ← type_registry_fields_of r type;
              fields_until (type_registry_borrows fuel) true r fields
          end
      end
  end.

Fixpoint type_registry_copies (fuel : nat) (r : TypeRegistry) (type : TypePtr) : option (TypeRegistry * bool) :=
  match fuel with
  | O => None
  | S fuel =>
      match type with
      | None => Some (r, true)
      | Some _ =>
          t ← deref r type;
          match ty_kind t with
          | TYPE_REF | TYPE_RAW => Some (r, true)
          | TYPE_ARRAY => element ← type_array_element (Some t); type_registry_copies fuel r element
          | TYPE_STR | TYPE_SLICE => Some (r, true)
          | TYPE_PARAM => Some (r, false)
          | _ =>
              ends ← ends_itself r type;
              if ends : bool then Some (r, false)
              else
                '(r, fields) ← type_registry_fields_of r type;
                fields_until (type_registry_copies fuel) false r fields
          end
      end
  end.

(** ** Layout *)

Definition SIZEOF_POINTER : Z := 8.

Definition layout_of_scalar (kind : TypeKind) : option (Z * Z) :=
  match kind with
  | TYPE_I32 => Some (4, 4)%Z
  | TYPE_F32 => Some (4, 4)%Z
  | TYPE_BOOL => Some (1, 1)%Z
  | TYPE_U8 => Some (1, 1)%Z
  | TYPE_USIZE => Some (SIZEOF_POINTER, SIZEOF_POINTER)
  | TYPE_STR | TYPE_SLICE | TYPE_ERROR => Some (0, 1)%Z
  | _ => None
  end.

Definition layout_of_indirect (r : TypeRegistry) (t : TypeData) : Z * Z :=
  if bool_decide (type_metadata_of (deref r (type_pointee (Some t))) = TYPE_META_LENGTH) then
    (align_up (SIZEOF_POINTER + 4) SIZEOF_POINTER, SIZEOF_POINTER)
  else (SIZEOF_POINTER, SIZEOF_POINTER).

(** One field placed: the running offset, the alignment so far, the offsets. *)
Definition place_field (acc : Z * Z * list Z) (field : TypeLayout) : Z * Z * list Z :=
  let '(offset, alignment, offsets) := acc in
  let offset := align_up offset (layout_alignment field) in
  (to_u64 (offset + layout_size field),
   (if (alignment <? layout_alignment field)%Z then layout_alignment field else alignment)%Z, offsets ++ [offset]).

Definition layout_of_layouts (fields : list TypeLayout) : TypeLayout :=
  let '(offset, alignment, offsets) := foldl place_field (0%Z, 1%Z, []) fields in
  MkTypeLayout (align_up offset alignment) alignment offsets.

Definition empty_layout : TypeLayout := MkTypeLayout 0 1 [].

Definition layout_key_hash (p : nat) : N := type_addr p.

(** The layouts of the fields, one after another. *)
Fixpoint layouts_of (f : TypeRegistry -> TypePtr -> option (TypeRegistry * TypeLayout)) (r : TypeRegistry)
    (fields : list TypeField) : option (TypeRegistry * list TypeLayout) :=
  match fields with
  | [] => Some (r, [])
  | field :: fields =>
      '(r, l) ← f r (field_type field);
      '(r, rest) ← layouts_of f r fields;
      Some (r, l :: rest)
  end.

(** The layout of a type met for the first time; [layout_of] answers for the
    types in it. *)
Definition compute_layout (layout_of : TypeRegistry -> TypePtr -> option (TypeRegistry * TypeLayout))
    (r : TypeRegistry) (type : TypePtr) (t : TypeData) : option (TypeRegistry * TypeLayout) :=
  match layout_of_scalar (ty_kind t) with
  | Some (size, alignment) => Some (r, MkTypeLayout size alignment [])
  | None =>
      match ty_kind t with
      | TYPE_ARRAY =>
          element ← type_array_element (Some t);
          '(r, l) ← layout_of r element;
          count ← type_array_length (Some t);
          Some (r, MkTypeLayout (to_u64 (layout_size l * to_u64 count)) (layout_alignment l) [])
      | TYPE_REF | TYPE_RAW =>
          let '(size, alignment) := layout_of_indirect r t in Some (r, MkTypeLayout size alignment [])
      | _ =>
          '(r, fields) ← type_registry_fields_of r type;
          '(r, ls) ← layouts_of layout_of r fields;
          Some (r, layout_of_layouts ls)
      end
  end.

Fixpoint type_registry_layout_of (fuel : nat) (r : TypeRegistry) (type : TypePtr) : option (TypeRegistry * TypeLayout) :=
  match fuel with
  | O => None
  | S fuel =>
      match type with
      | None => Some (r, empty_layout)
      | Some p =>
          found ← map_lookup layout_key_hash Nat.eqb (layouts r) p;
          match found with
          | Some layout => Some (r, layout)
          | None =>
              t ← reg_types r !! p;
              '(r, layout) ← compute_layout (type_registry_layout_of fuel) r type t;
              '(m, _) ← map_insert layout_key_hash Nat.eqb (layouts r) p layout;
              Some (with_layouts r m, layout)
          end
      end
  end.

Definition type_registry_size_of (fuel : nat) (r : TypeRegistry) (type : TypePtr) : option (TypeRegistry * Z) :=
  '(r, l) ← type_registry_layout_of fuel r type; Some (r, layout_size l).
Definition type_registry_align_of (fuel : nat) (r : TypeRegistry) (type : TypePtr) : option (TypeRegistry * Z) :=
  '(r, l) ← type_registry_layout_of fuel r type; Some (r, layout_alignment l).

Definition type_registry_deref_of (r : TypeRegistry) (type : TypePtr) : option (TypeRegistry * TypePtr) :=
  match deref r type with
  | Some t =>
      if bool_decide (ty_kind t = TYPE_ARRAY) then
        element ← type_array_element (Some t); '(r, p) ← type_registry_slice_of r element; Some (r, Some p)
      else Some (r, None)
  | None => Some (r, None)
  end.

(** ** Making a registry *)

Definition type_registry_complete (fuel : nat) (r : TypeRegistry) (type : TypePtr) : option TypeRegistry :=
  '(r, _) ← type_registry_layout_of fuel r type; Some r.

Definition type_registry_declare (fuel : nat) (r : TypeRegistry) (decl : DeclPtr) : option (TypeRegistry * TypePtr) :=
  d ← deref_decl r decl;
  match id_name (decl_id d) with
  | None => None
  | Some _ =>
      if Nat.eqb (decl_param_count d) 0 then
        '(r, p) ← type_registry_apply r decl [];
        r ← type_registry_complete fuel r (Some p);
        Some (r, Some p)
      else Some (r, None)
  end.

Definition type_registry_declare_struct (fuel : nat) (r : TypeRegistry) (name : StrPtr) (fields : list TypeField) :
    option (TypeRegistry * TypePtr) :=
  match name with
  | None => None
  | Some _ =>
      let '(r, decl) := new_decl r (MkTypeDecl (MkDeclId None None name 0) 0 fields) in
      type_registry_declare fuel r (Some decl)
  end.

Definition register_builtin (r : TypeRegistry) (kind : TypeKind) (name : StrPtr) : TypeRegistry * TypePtr :=
  let '(r, decl) := new_decl r (MkTypeDecl (MkDeclId None None name 0) 0 []) in
  let '(r, p) := new_type r (with_decl (type_init kind name) (Some decl) false) in
  (r, Some p).

Definition with_primitives (r : TypeRegistry) (p : TypePrimitives) (n : KnownNames) (i : list IntrinsicLowering) : TypeRegistry :=
  MkTypeRegistry (reg_types r) (reg_decls r) (applications r) (conformances r) (layouts r) (reg_params r) p n i.

Definition register_primitives (r : TypeRegistry) (n : KnownNames) : TypeRegistry :=
  let '(r, i32) := register_builtin r TYPE_I32 (name_i32 n) in
  let '(r, f32) := register_builtin r TYPE_F32 (name_f32 n) in
  let '(r, bool_) := register_builtin r TYPE_BOOL (name_boolean n) in
  let '(r, u8) := register_builtin r TYPE_U8 (name_u8 n) in
  let '(r, usize) := register_builtin r TYPE_USIZE (name_usize n) in
  let '(r, str) := register_builtin r TYPE_STR (name_str n) in
  let '(r, error) := register_builtin r TYPE_ERROR (name_error n) in
  let '(r, slice) := new_decl r (MkTypeDecl (MkDeclId None None (name_slice n) 0) 1 []) in
  let '(r, array) := new_decl r (MkTypeDecl (MkDeclId None None (name_array n) 0) 2 []) in
  let '(r, raw) := new_decl r (MkTypeDecl (MkDeclId None None (name_raw n) 0) 1 []) in
  with_primitives r (MkTypePrimitives i32 u8 usize f32 bool_ str (Some slice) (Some array) (Some raw) error) n
    [MkIntrinsicLowering (name_array n) (name_index n); MkIntrinsicLowering (name_array n) (name_len n);
     MkIntrinsicLowering (name_slice n) (name_index n); MkIntrinsicLowering (name_slice n) (name_len n);
     MkIntrinsicLowering (name_raw n) (name_index n); MkIntrinsicLowering (name_str n) (name_as_bytes n)].

Definition TYPE_REGISTRY_INITIAL_CAPACITY : nat := 8.

Definition type_registry_create (n : KnownNames) : option TypeRegistry :=
  layouts ← map_init TYPE_REGISTRY_INITIAL_CAPACITY;
  conformances ← map_init TYPE_REGISTRY_INITIAL_CAPACITY;
  applications ← map_init TYPE_REGISTRY_INITIAL_CAPACITY;
  let r := MkTypeRegistry [] [] applications conformances layouts (replicate GAB_MAX_TYPE_PARAMS None)
             (MkTypePrimitives None None None None None None None None None None) n [] in
  Some (register_primitives r n).

Definition type_registry_intrinsic (r : TypeRegistry) (owner name : StrPtr) : option IntrinsicLowering :=
  find (fun i => bool_decide (intrinsic_owner i = owner) && bool_decide (intrinsic_name i = name)) (intrinsics r).
End addresses.

(** ** The names the compiler knows *)

(** A [String *] from the pool. *)
Definition known_name (pool : StringPool) (text : string) : option (StringPool * StrPtr) :=
  '(pool, string) ← string_from_cstr pool (bytes text); Some (pool, Some string).

Definition GAB_CORE_MODULE : string := "core".

(** The members are interned in the order they are written. *)
Definition known_names (strings : StringPool) : option (StringPool * KnownNames) :=
  '(strings, i32) ← known_name strings "i32";
  '(strings, f32) ← known_name strings "f32";
  '(strings, boolean) ← known_name strings "bool";
  '(strings, u8) ← known_name strings "u8";
  '(strings, usize) ← known_name strings "usize";
  '(strings, str) ← known_name strings "str";
  '(strings, slice) ← known_name strings "slice";
  '(strings, raw) ← known_name strings "raw";
  '(strings, array) ← known_name strings "array";
  '(strings, self) ← known_name strings "Self";
  '(strings, error) ← known_name strings "<error>";
  '(strings, module) ← known_name strings GAB_CORE_MODULE;
  '(strings, destroy) ← known_name strings "Destroy";
  '(strings, method) ← known_name strings "destroy";
  '(strings, unique) ← known_name strings "Unique";
  '(strings, index) ← known_name strings "index";
  '(strings, len) ← known_name strings "len";
  '(strings, as_bytes) ← known_name strings "as_bytes";
  '(strings, caller) ← known_name strings "caller";
  '(strings, size_of) ← known_name strings "size_of";
  Some (strings, MkKnownNames i32 f32 boolean u8 usize str slice raw array self error
    (MkDeclId module None destroy 0) method unique index len as_bytes caller size_of).
