(* ===== verification/RegistryTypes.v ===== *)
(** * RegistryTypes: one pointer per type

    The invariant of the registry of [Registry.v] and what follows from it: a
    type's meaning [ty_of] is a term, every operation that makes a type returns
    the pointer of the term it is called for, and two pointers with one meaning
    are equal. *)

From S2P Require Import Prelude Types HashMap Registry.

(** ** What interning distinguishes *)

Abbreviation ArgNorm := (option nat + (nat + option nat * Z))%type.
Abbreviation IdNorm := (option nat * option nat * option nat * N)%type.
Abbreviation TypeNorm := (N * (option nat + IdNorm * list ArgNorm))%type.

Definition arg_norm (arg : TypeArg) : ArgNorm :=
  match arg with
  | TYPE_ARG_TYPE type => inl type
  | TYPE_ARG_CONST (CONST_PARAM param) => inr (inl param)
  | TYPE_ARG_CONST (CONST_VALUE value) => inr (inr (constant_type value, const_int value))
  end.

Definition id_norm (id : DeclId) : IdNorm := (id_module id, id_owner id, id_name id, id_block id).

Definition type_norm (decls : list TypeDecl) (t : TypeData) : TypeNorm :=
  (kind_index (ty_kind t),
   match ty_kind t with
   | TYPE_REF | TYPE_RAW => inl (ty_pointee t)
   | _ => inr (id_norm (decl_id_at decls (ty_decl t)), arg_norm <$> ty_args t)
   end).

(** The kinds whose types are interned. *)
Definition kind_interned (k : TypeKind) : bool :=
  match k with TYPE_REF | TYPE_RAW | TYPE_ARRAY | TYPE_SLICE | TYPE_STRUCT => true | _ => false end.

(** The type at a pointer, when it is one, is of an integer kind. *)
Definition int_kind_at (types : list TypeData) (p : TypePtr) : Prop :=
  exists n t, p = Some n /\ types !! n = Some t /\ kind_is_integer (ty_kind t) = true.

(** A constant among a type's arguments is an integer. *)
Definition arg_const_ok (types : list TypeData) (arg : TypeArg) : Prop :=
  match arg with
  | TYPE_ARG_CONST (CONST_VALUE value) => int_kind_at types (constant_type value)
  | _ => True
  end.

Definition key_valid (types : list TypeData) (decls : list TypeDecl) (t : TypeData) : Prop :=
  kind_interned (ty_kind t) = true /\
  (match ty_kind t with TYPE_REF | TYPE_RAW => True | _ => exists d decl, ty_decl t = Some d /\ decls !! d = Some decl end) /\
  Forall (arg_const_ok types) (ty_args t).

Lemma kind_index_inj k k' : kind_index k = kind_index k' -> k = k'.
Proof. by destruct k, k'. Qed.

Lemma decl_id_equals_spec id id' : decl_id_equals id id' = true <-> id = id'.
Proof.
  unfold decl_id_equals. rewrite !andb_true_iff, !bool_decide_eq_true, N.eqb_eq.
  destruct id, id'; cbn. split; [intros [[[-> ->] ->] ->]; done|]. by intros [= -> -> -> ->].
Qed.

Lemma id_norm_inj id id' : id_norm id = id_norm id' -> id = id'.
Proof. destruct id, id'. by intros [= -> -> -> ->]. Qed.

Lemma int_kind_string types c :
  int_kind_at types (constant_type c) ->
  constant_is_string (TV := heap_view types) c = false /\ constant_is_float (TV := heap_view types) c = false /\
  constant_is_bool (TV := heap_view types) c = false.
Proof.
  intros (n & t & Hn & Ht & Hk). unfold constant_is_string, constant_is_float, constant_is_bool.
  cbn [tv_kind heap_view]. rewrite Hn. cbn [mbind option_bind]. rewrite Ht. cbn [fmap option_fmap option_map].
  by destruct (ty_kind t).
Qed.

Lemma type_arg_equals_spec types arg other :
  arg_const_ok types arg -> arg_const_ok types other ->
  type_arg_equals types arg other = true <-> arg_norm arg = arg_norm other.
Proof.
  destruct arg as [p|[c|n]], other as [q|[c'|m]]; cbn [arg_const_ok]; intros Ha Ho; cbn [type_arg_equals arg_norm];
    try (split; done).
  - rewrite bool_decide_eq_true. naive_solver.
  - destruct (int_kind_string types c Ha) as (H1 & H2 & H3). unfold constant_equals.
    rewrite H1, H2, H3. case_bool_decide as Ht; cbn [negb].
    + rewrite Z.eqb_eq. split; [intros ->; congruence|]. by intros [= _ ->].
    + split; [done|]. by intros [= ? _].
  - rewrite Nat.eqb_eq. naive_solver.
Qed.

Lemma type_arg_hash_norm type_addr str_addr types arg other :
  arg_const_ok types arg -> arg_const_ok types other -> arg_norm arg = arg_norm other ->
  type_arg_hash type_addr str_addr types arg = type_arg_hash type_addr str_addr types other.
Proof.
  destruct arg as [p|[c|n]], other as [q|[c'|m]]; cbn [arg_const_ok]; intros Ha Ho Hn; cbn [type_arg_hash]; try (by simplify_eq).
  injection Hn as _ Hn. destruct (int_kind_string types c Ha) as (H1 & H2 & _), (int_kind_string types c' Ho) as (H3 & H4 & _).
  unfold constant_hash. by rewrite H1, H2, H3, H4, Hn.
Qed.

Lemma args_equal_spec types args others :
  Forall (arg_const_ok types) args -> Forall (arg_const_ok types) others -> length args = length others ->
  args_equal types args others = true <-> arg_norm <$> args = arg_norm <$> others.
Proof.
  intros Ha. revert others. induction Ha as [|arg args Harg Hargs IH]; intros others Ho Hl; destruct others as [|other others];
    try done. inversion Ho; subst. cbn. rewrite andb_true_iff, type_arg_equals_spec, IH by (done || cbn in Hl; lia).
  split; [by intros [-> ->]|]. by intros [= -> ->].
Qed.

Section addresses.
Context (type_addr str_addr : nat -> N).
#[local] Abbreviation hash_of := (type_structural_hash type_addr str_addr).

(** The loop of the hash over the arguments. *)
Definition args_hash (types : list TypeData) (hash : N) (args : list TypeArg) : N :=
  foldl (fun hash arg => hash_step (hash_step hash (arg_kind_index arg)) (type_arg_hash type_addr str_addr types arg)) hash args.

Lemma args_hash_ext types types' args others hash :
  Forall2 (fun a b => arg_kind_index a = arg_kind_index b /\ type_arg_hash type_addr str_addr types a = type_arg_hash type_addr str_addr types' b) args others ->
  args_hash types hash args = args_hash types' hash others.
Proof.
  intros Hf. revert hash. induction Hf as [|a b args others [Hk Hh] _ IH]; intros hash; [done|].
  unfold args_hash in *. cbn. by rewrite Hk, Hh.
Qed.

Lemma type_structurally_equals_spec types decls t u :
  key_valid types decls t -> key_valid types decls u ->
  type_structurally_equals types decls t u = true <-> type_norm decls t = type_norm decls u.
Proof.
  intros (Hk & Hd & Ha) (Hk' & Hd' & Ha'). unfold type_structurally_equals, type_norm.
  case_bool_decide as Heq; cbn [negb].
  - rewrite <- Heq in *. destruct (ty_kind t); try done;
      try (rewrite bool_decide_eq_true; split; [by intros ->|by intros [= ->]]);
      (destruct (decl_id_equals _ _) eqn:Hid; cbn [negb orb];
       [apply decl_id_equals_spec in Hid; rewrite Hid; destruct (Nat.eqb _ _) eqn:Hl; cbn [negb];
        [apply Nat.eqb_eq in Hl; rewrite args_equal_spec by done; split; [by intros ->|by intros [= ->]]
        |split; [done|]; intros [= Hm]; apply (f_equal length) in Hm; rewrite !length_fmap in Hm;
         apply Nat.eqb_neq in Hl; done]
       |split; [done|]; intros [= H1 H2 H3 H4 _];
        assert (decl_id_at decls (ty_decl t) = decl_id_at decls (ty_decl u)) as Hc
          by (apply id_norm_inj; unfold id_norm; congruence);
        apply decl_id_equals_spec in Hc; congruence]).
  - split; [done|]. intros [= Hn _]. by apply kind_index_inj in Hn.
Qed.

Lemma type_structural_hash_norm types decls t u :
  key_valid types decls t -> key_valid types decls u -> type_norm decls t = type_norm decls u ->
  hash_of types decls t = hash_of types decls u.
Proof.
  intros (Hk & Hd & Ha) (Hk' & Hd' & Ha') Hn.
  assert (Heq : ty_kind t = ty_kind u) by (injection Hn as Hn _; by apply kind_index_inj).
  unfold type_norm, type_structural_hash in *. rewrite <- Heq in *.
  assert (Hfold : forall hash, arg_norm <$> ty_args t = arg_norm <$> ty_args u ->
    args_hash types hash (ty_args t) = args_hash types hash (ty_args u)).
  { intros hash Hm. apply args_hash_ext. revert Ha Ha' Hm. clear. generalize (ty_args t) (ty_args u).
    intros l k Hl. revert k. induction Hl as [|a l Ha Hl IH]; intros [|b k] Hk Hm; try done.
    inversion Hk; subst. injection Hm as Hab Hm. constructor; [|by apply IH].
    split; [by destruct a as [|[]], b as [|[]]|by apply type_arg_hash_norm]. }
  destruct (ty_kind t); try done; injection Hn; intros; try congruence;
    (replace (decl_id_at decls (ty_decl u)) with (decl_id_at decls (ty_decl t));
     [by apply Hfold|by apply id_norm_inj; unfold id_norm; congruence]).
Qed.

(** ** Registries that grow *)

(** A type without the cache of its fields: what never changes of it. *)
Definition core (t : TypeData) : TypeData :=
  MkType (ty_kind t) (ty_name t) (ty_decl t) (ty_args t) (ty_has_param t) (ty_pointee t) None (ty_param_index t).

Lemma core_kind t u : core t = core u -> ty_kind t = ty_kind u.
Proof. by intros [= -> _]. Qed.

Definition types_grow (types types' : list TypeData) : Prop :=
  forall p t, types !! p = Some t -> exists t', types' !! p = Some t' /\ core t' = core t.

Definition decls_grow (decls decls' : list TypeDecl) : Prop :=
  forall d x, decls !! d = Some x ->
    exists x', decls' !! d = Some x' /\ decl_id x' = decl_id x /\ decl_param_count x' = decl_param_count x.

#[export] Instance types_grow_preorder : PreOrder types_grow.
Proof.
  split.
  - intros types p t Ht. by exists t.
  - intros t1 t2 t3 H12 H23 p t Ht. destruct (H12 p t Ht) as (t' & Ht' & Hc). destruct (H23 p t' Ht') as (u & Hu & Hc').
    exists u. split; [done|]. congruence.
Qed.

#[export] Instance decls_grow_preorder : PreOrder decls_grow.
Proof.
  split.
  - intros decls d x Hx. by exists x.
  - intros d1 d2 d3 H12 H23 d x Hx. destruct (H12 d x Hx) as (x' & Hx' & ? & ?). destruct (H23 d x' Hx') as (u & Hu & ? & ?).
    exists u. split; [done|]. split; congruence.
Qed.

Lemma int_kind_grow types types' p : types_grow types types' -> int_kind_at types p -> int_kind_at types' p.
Proof.
  intros Hg (n & t & -> & Ht & Hk). destruct (Hg n t Ht) as (t' & Ht' & Hc). exists n, t'. split; [done|].
  split; [done|]. by injection Hc as -> _.
Qed.

Lemma arg_const_grow types types' arg : types_grow types types' -> arg_const_ok types arg -> arg_const_ok types' arg.
Proof. destruct arg as [|[]]; cbn; [done| |done]. apply int_kind_grow. Qed.

Lemma decl_id_at_grow decls decls' d decl :
  decls_grow decls decls' -> decls !! d = Some decl -> decl_id_at decls' (Some d) = decl_id_at decls (Some d).
Proof.
  intros Hg Hd. destruct (Hg d decl Hd) as (x & Hx & Hi & _). unfold decl_id_at. cbn [mbind option_bind].
  rewrite Hd, Hx. cbn [fmap option_fmap option_map default]. by rewrite Hi.
Qed.

Lemma type_arg_hash_grow types types' arg :
  types_grow types types' -> arg_const_ok types arg ->
  type_arg_hash type_addr str_addr types' arg = type_arg_hash type_addr str_addr types arg.
Proof.
  destruct arg as [|[c|]]; cbn [arg_const_ok type_arg_hash]; intros Hg Ha; try done.
  destruct (int_kind_string types c Ha) as (H1 & H2 & _).
  destruct (int_kind_string types' c (int_kind_grow types types' _ Hg Ha)) as (H3 & H4 & _).
  unfold constant_hash. by rewrite H1, H2, H3, H4.
Qed.

Lemma decl_id_grow decls decls' t :
  decls_grow decls decls' ->
  (match ty_kind t with TYPE_REF | TYPE_RAW => True | _ => exists d decl, ty_decl t = Some d /\ decls !! d = Some decl end) ->
  match ty_kind t with TYPE_REF | TYPE_RAW => True | _ => decl_id_at decls' (ty_decl t) = decl_id_at decls (ty_decl t) end.
Proof. intros Hd Hdecl. destruct (ty_kind t); try done; destruct Hdecl as (d & decl & -> & Hx); by eapply decl_id_at_grow. Qed.

Lemma key_valid_grow types types' decls decls' t :
  types_grow types types' -> decls_grow decls decls' -> key_valid types decls t -> key_valid types' decls' t.
Proof.
  intros Ht Hd (Hk & Hdecl & Ha). split; [done|split].
  - destruct (ty_kind t); try done; destruct Hdecl as (d & decl & -> & Hx); destruct (Hd d decl Hx) as (x & ? & _); eauto.
  - eapply Forall_impl; [exact Ha|]. intros x. by apply arg_const_grow.
Qed.

Lemma key_grow types types' decls decls' t :
  types_grow types types' -> decls_grow decls decls' -> key_valid types decls t ->
  key_valid types' decls' t /\ hash_of types' decls' t = hash_of types decls t /\ type_norm decls' t = type_norm decls t.
Proof.
  intros Ht Hd Hkey. pose proof Hkey as (Hk & Hdecl & Ha). pose proof (decl_id_grow decls decls' t Hd Hdecl) as Hid.
  split; [by eapply key_valid_grow|split].
  - unfold type_structural_hash. destruct (ty_kind t); try done; rewrite Hid; apply args_hash_ext, Forall_Forall2_diag;
      (eapply Forall_impl; [exact Ha|]); intros x Hx; by rewrite (type_arg_hash_grow types types').
  - unfold type_norm. destruct (ty_kind t); try done; by rewrite Hid.
Qed.

(** ** The meaning of a type *)

Inductive Ty :=
  | TNull
  | TBuiltin (kind : TypeKind)
  | TParam (index : nat)
  | TRef (inner : Ty)
  | TRaw (inner : Ty)
  | TApp (kind : TypeKind) (decl : DeclId) (args : list Ty)
  | TConst (kind : option TypeKind) (value : Z)
  | TConstParam (index : nat).

Definition kind_at (types : list TypeData) (p : TypePtr) : option TypeKind := n ← p; ty_kind <$> types !! n.

(** The meaning of an argument and of a type, given those of the pointers in it. *)
Definition arg_meaning (types : list TypeData) (meaning : TypePtr -> Ty) (arg : TypeArg) : Ty :=
  match arg with
  | TYPE_ARG_TYPE type => meaning type
  | TYPE_ARG_CONST (CONST_VALUE value) => TConst (kind_at types (constant_type value)) (const_int value)
  | TYPE_ARG_CONST (CONST_PARAM param) => TConstParam param
  end.

Definition type_meaning (types : list TypeData) (decls : list TypeDecl) (meaning : TypePtr -> Ty) (t : TypeData) : Ty :=
  match ty_kind t with
  | TYPE_REF => TRef (meaning (ty_pointee t))
  | TYPE_RAW => TRaw (meaning (ty_pointee t))
  | TYPE_ARRAY | TYPE_SLICE | TYPE_STRUCT =>
      TApp (ty_kind t) (decl_id_at decls (ty_decl t)) (arg_meaning types meaning <$> ty_args t)
  | TYPE_PARAM => TParam (ty_param_index t)
  | kind => TBuiltin kind
  end.

Fixpoint meaning_at (types : list TypeData) (decls : list TypeDecl) (fuel : nat) (p : TypePtr) : Ty :=
  match fuel, p with
  | S fuel, Some n =>
      match types !! n with
      | Some t => type_meaning types decls (meaning_at types decls fuel) t
      | None => TNull
      end
  | _, _ => TNull
  end.

(** Types point to older types only: the pointer itself is fuel enough. *)
Definition ty_of (r : TypeRegistry) (p : TypePtr) : Ty :=
  meaning_at (reg_types r) (reg_decls r) (S (default 0 p)) p.
Definition arg_ty (r : TypeRegistry) : TypeArg -> Ty := arg_meaning (reg_types r) (ty_of r).

(** ** The invariant *)

Definition arg_pointers (args : list TypeArg) : list nat :=
  omap (fun arg => match arg with TYPE_ARG_TYPE type => type | TYPE_ARG_CONST _ => None end) args.

Definition type_pointers (t : TypeData) : list nat := option_list (ty_pointee t) ++ arg_pointers (ty_args t).

Definition ptr_valid (types : list TypeData) (p : TypePtr) : Prop :=
  match p with None => True | Some n => n < length types end.

Definition arg_valid (types : list TypeData) (arg : TypeArg) : Prop :=
  match arg with TYPE_ARG_TYPE type => ptr_valid types type | TYPE_ARG_CONST _ => arg_const_ok types arg end.

Definition fields_valid (types : list TypeData) (fields : list TypeField) : Prop :=
  Forall (fun f => ptr_valid types (field_type f)) fields.

Definition decl_exists (decls : list TypeDecl) (d : DeclPtr) : Prop := exists n decl, d = Some n /\ decls !! n = Some decl.

(** Whether a type names a parameter of the declaration it is written in. *)
Definition mentions_param (r : TypeRegistry) (t : TypeData) : bool :=
  match ty_kind t with
  | TYPE_REF | TYPE_RAW => has_param_at r (ty_pointee t)
  | TYPE_ARRAY | TYPE_SLICE | TYPE_STRUCT => existsb (arg_has_param r) (ty_args t)
  | TYPE_PARAM => true
  | _ => false
  end.

(** What is kept with each kind of type, at address [p]. *)
Definition shape_ok (r : TypeRegistry) (p : nat) (t : TypeData) : Prop :=
  match ty_kind t with
  | TYPE_REF => ty_args t = []
  | TYPE_RAW => ty_args t = [TYPE_ARG_TYPE (ty_pointee t)]
  | TYPE_ARRAY => ty_decl t = array_decl (primitives r) /\ exists e c, ty_args t = [TYPE_ARG_TYPE e; TYPE_ARG_CONST c]
  | TYPE_SLICE => ty_decl t = slice_decl (primitives r) /\ exists e, ty_args t = [TYPE_ARG_TYPE e]
  | TYPE_STRUCT =>
      exists d decl, ty_decl t = Some d /\ reg_decls r !! d = Some decl /\ decl_param_count decl = length (ty_args t)
  | TYPE_PARAM => ty_args t = [] /\ reg_params r !! ty_param_index t = Some (Some p)
  | kind => ty_args t = [] /\ type_registry_get_primitive r kind = Some (Some p)
  end.

Record type_ok (r : TypeRegistry) (p : nat) (t : TypeData) : Prop := {
  to_below : Forall (fun q => q < p) (type_pointers t);
  to_key : kind_interned (ty_kind t) = true -> key_valid (reg_types r) (reg_decls r) t;
  to_shape : shape_ok r p t;
  to_param : ty_has_param t = mentions_param r t;
}.

#[local] Abbreviation hash_in r := (hash_of (reg_types r) (reg_decls r)).

(** The table holds the interned types, each under what interning sees of it. *)
Definition table_holds (r : TypeRegistry) (g : gmap TypeNorm nat) : Prop :=
  represents (hash_in r) (type_norm (reg_decls r)) (key_valid (reg_types r) (reg_decls r)) (applications r) g /\
  forall q p, g !! q = Some p <->
    exists t, reg_types r !! p = Some t /\ kind_interned (ty_kind t) = true /\ type_norm (reg_decls r) t = q.

Record types_ok (r : TypeRegistry) : Prop := {
  ok_type : forall p t, reg_types r !! p = Some t -> type_ok r p t;
  ok_cache : forall p t fields, reg_types r !! p = Some t -> ty_substituted t = Some fields -> fields_valid (reg_types r) fields;
  ok_table : exists g, table_holds r g;
  ok_params : length (reg_params r) = GAB_MAX_TYPE_PARAMS /\
    forall i p, reg_params r !! i = Some (Some p) -> exists t, reg_types r !! p = Some t /\ ty_kind t = TYPE_PARAM /\ ty_param_index t = i;
  ok_prims : forall k p, type_registry_get_primitive r k = Some p ->
    exists n t, p = Some n /\ reg_types r !! n = Some t /\ ty_kind t = k;
  ok_builtin_decls : decl_exists (reg_decls r) (slice_decl (primitives r)) /\
    decl_exists (reg_decls r) (array_decl (primitives r)) /\ decl_exists (reg_decls r) (raw_decl (primitives r));
  ok_fields : forall d decl, reg_decls r !! d = Some decl -> fields_valid (reg_types r) (decl_fields decl);
}.

(** What an operation that only makes types leaves of a registry. *)
Record grows (r r' : TypeRegistry) : Prop := {
  gr_types : types_grow (reg_types r) (reg_types r');
  gr_decls : decls_grow (reg_decls r) (reg_decls r');
  gr_prims : primitives r' = primitives r;
  gr_names : names r' = names r;
  gr_params : forall i p, reg_params r !! i = Some (Some p) -> reg_params r' !! i = Some (Some p);
}.

#[export] Instance grows_preorder : PreOrder grows.
Proof.
  split.
  - by intros r.
  - intros r1 r2 r3 [] []. split; try congruence; try (by etrans); auto.
Qed.

(** ** Meanings are stable *)

(** A type's meaning asks for its pointers' only. *)
Lemma type_meaning_ext types types' decls decls' (f g : TypePtr -> Ty) t t' :
  core t' = core t ->
  (f None = g None) -> Forall (fun q => f (Some q) = g (Some q)) (type_pointers t) ->
  (match ty_kind t with TYPE_REF | TYPE_RAW => True | _ => decl_id_at decls' (ty_decl t) = decl_id_at decls (ty_decl t) end) ->
  Forall (fun arg => match arg with TYPE_ARG_CONST (CONST_VALUE c) => kind_at types' (constant_type c) = kind_at types (constant_type c) | _ => True end) (ty_args t) ->
  type_meaning types' decls' f t' = type_meaning types decls g t.
Proof.
  intros Hc Hnone [Hp Ha]%Forall_app Hd Hk. injection Hc as H1 _ H2 H3 _ H4 H5.
  assert (Hargs : arg_meaning types' f <$> ty_args t = arg_meaning types g <$> ty_args t).
  { unfold arg_pointers in Ha. revert Ha Hk. generalize (ty_args t). intros l. induction l as [|a l IH]; intros Ha Hk; [done|].
    inversion Hk; subst. cbn [fmap list_fmap]. f_equal.
    - destruct a as [[q|]|[c|]]; cbn [arg_meaning]; try done; [|congruence]. cbn in Ha. by inversion Ha.
    - apply IH; [|done]. destruct a as [[q|]|]; cbn in Ha; [by inversion Ha|done|done]. }
  assert (Hptr : f (ty_pointee t) = g (ty_pointee t)).
  { destruct (ty_pointee t) as [q|]; [|done]. cbn in Hp. by inversion Hp. }
  unfold type_meaning. rewrite H1, H2, H3, H4, H5. destruct (ty_kind t); rewrite ?Hptr, ?Hargs, ?Hd; done.
Qed.

(** The same registry: two meanings that agree on older types. *)
Lemma type_meaning_same types decls (f g : TypePtr -> Ty) t :
  (f None = g None) -> Forall (fun q => f (Some q) = g (Some q)) (type_pointers t) ->
  type_meaning types decls f t = type_meaning types decls g t.
Proof.
  intros Hn Hf. apply type_meaning_ext; try done.
  - by destruct (ty_kind t).
  - apply Forall_true. by intros [|[]].
Qed.

Section meaning.
Context (r : TypeRegistry) (Hr : types_ok r).

Lemma meaning_at_fuel f f' n : n < f -> n < f' ->
  meaning_at (reg_types r) (reg_decls r) f (Some n) = meaning_at (reg_types r) (reg_decls r) f' (Some n).
Proof using All.
  revert f f'. induction n as [n IH] using lt_wf_ind. intros [|f] [|f'] H1 H2; try lia. cbn [meaning_at].
  destruct (reg_types r !! n) as [t|] eqn:Ht; [|done]. apply type_meaning_same; [by destruct f, f'|].
  eapply Forall_impl; [exact (to_below r n t (ok_type r Hr n t Ht))|]. cbn beta. intros q Hq. apply IH; lia.
Qed.

Lemma ty_of_lookup n t : reg_types r !! n = Some t ->
  ty_of r (Some n) = type_meaning (reg_types r) (reg_decls r) (ty_of r) t.
Proof using All.
  intros Ht. unfold ty_of at 1. cbn [default meaning_at]. cbn [from_option id]. rewrite Ht. apply type_meaning_same; [by destruct n|].
  eapply Forall_impl; [exact (to_below r n t (ok_type r Hr n t Ht))|]. cbn beta. intros q Hq.
  unfold ty_of. cbn [default from_option id]. apply meaning_at_fuel; lia.
Qed.

Lemma type_pointers_valid n t : reg_types r !! n = Some t -> Forall (fun q => q < length (reg_types r)) (type_pointers t).
Proof using All.
  intros Ht. eapply Forall_impl; [exact (to_below r n t (ok_type r Hr n t Ht))|]. cbn beta. intros q Hq.
  apply lookup_lt_Some in Ht. lia.
Qed.

Lemma type_args_const n t : reg_types r !! n = Some t -> Forall (arg_const_ok (reg_types r)) (ty_args t).
Proof using All.
  intros Ht. destruct (ok_type r Hr n t Ht) as [_ Hk Hs _]. unfold shape_ok in Hs.
  destruct (kind_interned (ty_kind t)) eqn:Hi; [by apply Hk|].
  destruct (ty_kind t); try done; destruct Hs as [-> _]; constructor.
Qed.

Lemma type_decl_exists n t : reg_types r !! n = Some t ->
  match ty_kind t with TYPE_ARRAY | TYPE_SLICE | TYPE_STRUCT => decl_exists (reg_decls r) (ty_decl t) | _ => True end.
Proof using All.
  intros Ht. destruct (ok_type r Hr n t Ht) as [_ Hk _ _]. destruct (ty_kind t) eqn:He; try done;
    destruct (Hk eq_refl) as (_ & Hd & _); rewrite He in Hd; exact Hd.
Qed.

(** A registry that grew: what was there means what it meant. *)
Lemma ty_of_grows r' p : grows r r' -> ptr_valid (reg_types r) p -> ty_of r' p = ty_of r p.
Proof using All.
  intros [Hgt Hgd _ _ _] Hp. unfold ty_of. generalize (S (default 0 p)). intros f. revert p Hp.
  induction f as [|f IH]; intros p Hp; [done|]. destruct p as [n|]; [|done]. cbn [meaning_at].
  cbn in Hp. destruct (lookup_lt_is_Some_2 _ _ Hp) as [t Ht]. rewrite Ht. destruct (Hgt n t Ht) as (t' & Ht' & Hc). rewrite Ht'.
  pose proof (type_decl_exists n t Ht) as Hdecl. pose proof (type_args_const n t Ht) as Hconst.
  destruct (ok_type r Hr n t Ht) as [Hb Hk Hs _].
  assert (Hid : ty_args t <> [] \/ kind_interned (ty_kind t) = true -> match ty_kind t with TYPE_ARRAY | TYPE_SLICE | TYPE_STRUCT =>
     decl_id_at (reg_decls r') (ty_decl t) = decl_id_at (reg_decls r) (ty_decl t) | _ => True end).
  { intros _. destruct (ty_kind t); try done; destruct Hdecl as (d & decl & -> & Hx); by eapply decl_id_at_grow. }
  destruct (kind_interned (ty_kind t)) eqn:Hki.
  - apply type_meaning_ext; [done|by apply IH| | |].
    + eapply Forall_impl; [exact (type_pointers_valid n t Ht)|]. intros q Hq. by apply IH.
    + specialize (Hid (or_intror eq_refl)). by destruct (ty_kind t).
    + eapply Forall_impl; [exact Hconst|]. intros [|[c|]]; cbn; try done. intros (m & u & -> & Hu & _).
      destruct (Hgt m u Hu) as (u' & Hu' & Hcu). cbn. rewrite Hu, Hu'. cbn. by injection Hcu as -> _.
  - injection Hc as H1 _ H2 H3 _ H4 H5. unfold type_meaning. rewrite H1, H5. by destruct (ty_kind t).
Qed.
End meaning.

(** ** The invariant as the registry grows *)

Section grown.
Context (r r' : TypeRegistry) (Hg : grows r r').

Lemma has_param_grows p : ptr_valid (reg_types r) p -> has_param_at r' p = has_param_at r p.
Proof using Hg.
  destruct p as [n|]; [|done]. cbn. intros Hn. destruct (lookup_lt_is_Some_2 _ _ Hn) as [t Ht].
  destruct (gr_types r r' Hg n t Ht) as (t' & Ht' & Hc). unfold has_param_at, deref. cbn. rewrite Ht, Ht'.
  cbn. by injection Hc as _ _ _ _ ->.
Qed.

Lemma arg_has_param_grows args :
  Forall (fun q => q < length (reg_types r)) (arg_pointers args) ->
  existsb (arg_has_param r') args = existsb (arg_has_param r) args.
Proof using Hg.
  intros Ha. induction args as [|a args IH]; [done|]. cbn [existsb].
  assert (Hrest : Forall (fun q => q < length (reg_types r)) (arg_pointers args)).
  { destruct a as [[q|]|]; cbn in Ha; [by inversion Ha|done|done]. }
  f_equal; [|by apply IH]. destruct a as [[q|]|]; cbn; try done. apply (has_param_grows (Some q)). cbn in *. by inversion Ha.
Qed.

Lemma decl_exists_grows d : decl_exists (reg_decls r) d -> decl_exists (reg_decls r') d.
Proof using Hg. intros (n & x & -> & Hx). destruct (gr_decls r r' Hg n x Hx) as (y & Hy & _). by exists n, y. Qed.

Lemma get_primitive_grows k : type_registry_get_primitive r' k = type_registry_get_primitive r k.
Proof using Hg. unfold type_registry_get_primitive. by rewrite (gr_prims r r' Hg). Qed.

Lemma type_ok_grows p t t' :
  Forall (fun q => q < length (reg_types r)) (type_pointers t) -> core t' = core t -> type_ok r p t -> type_ok r' p t'.
Proof using Hg.
  intros Hv Hc [Hb Hk Hs Hm]. injection Hc as H1 H2 H3 H4 H5 H6 H7. split.
  - unfold type_pointers in *. by rewrite H4, H6.
  - intros Hki. rewrite H1 in Hki. pose proof (key_valid_grow _ _ _ _ t (gr_types r r' Hg) (gr_decls r r' Hg) (Hk Hki)) as Hkv.
    unfold key_valid. by rewrite H1, H3, H4.
  - unfold shape_ok in *. rewrite H1, H3, H4, H6, H7. destruct (ty_kind t); rewrite ?get_primitive_grows, ?(gr_prims r r' Hg); try done.
    + destruct Hs as (d & x & Hd & Hx & Hn). destruct (gr_decls r r' Hg d x Hx) as (y & Hy & _ & Hyn).
      exists d, y. split; [done|]. split; [done|]. congruence.
    + destruct Hs as [? Hp]. split; [done|]. by apply (gr_params r r' Hg).
  - rewrite H5, Hm. apply Forall_app in Hv as [Hv1 Hv2]. unfold mentions_param. rewrite H1, H4, H6.
    destruct (ty_kind t); try done;
      rewrite ?arg_has_param_grows by done; try done;
      (symmetry; apply has_param_grows; destruct (ty_pointee t); [by inversion Hv1|done]).
Qed.

Lemma types_length_grows : length (reg_types r) <= length (reg_types r').
Proof using Hg.
  destruct (decide (length (reg_types r) = 0)) as [->|Hn]; [lia|].
  destruct (lookup_lt_is_Some_2 (reg_types r) (length (reg_types r) - 1)) as [t Ht]; [lia|].
  destruct (gr_types r r' Hg _ t Ht) as (t' & Ht' & _). apply lookup_lt_Some in Ht'. lia.
Qed.

Lemma ptr_valid_grows p : ptr_valid (reg_types r) p -> ptr_valid (reg_types r') p.
Proof using Hg. destruct p; cbn; [|done]. pose proof types_length_grows. lia. Qed.

Lemma fields_valid_grows fields : fields_valid (reg_types r) fields -> fields_valid (reg_types r') fields.
Proof using Hg. intros Hf. eapply Forall_impl; [exact Hf|]. intros f. apply ptr_valid_grows. Qed.

Lemma arg_valid_grows arg : arg_valid (reg_types r) arg -> arg_valid (reg_types r') arg.
Proof using Hg. destruct arg as [p|c]; [apply ptr_valid_grows|]. apply (arg_const_grow _ _ (TYPE_ARG_CONST c)), (gr_types r r' Hg). Qed.

Lemma table_grows g :
  represents (hash_in r) (type_norm (reg_decls r)) (key_valid (reg_types r) (reg_decls r)) (applications r) g ->
  represents (hash_in r') (type_norm (reg_decls r')) (key_valid (reg_types r') (reg_decls r')) (applications r) g.
Proof using All.
  apply represents_transfer. intros k Hk. by apply key_grow; [apply (gr_types r r' Hg)|apply (gr_decls r r' Hg)|].
Qed.
End grown.

(** ** Interning *)

Section intern.
Context (r : TypeRegistry) (Hr : types_ok r).

(** Interning sees two types of one norm as one. *)
Lemma norm_unique p q t u :
  reg_types r !! p = Some t -> reg_types r !! q = Some u -> kind_interned (ty_kind t) = true ->
  type_norm (reg_decls r) t = type_norm (reg_decls r) u -> p = q.
Proof using All.
  intros Ht Hu Hk Hn. destruct (ok_table r Hr) as (g & _ & Hg).
  assert (Hku : kind_interned (ty_kind u) = true) by (injection Hn as Hn _; by apply kind_index_inj in Hn as <-).
  assert (g !! type_norm (reg_decls r) t = Some p) by (apply Hg; eauto).
  assert (g !! type_norm (reg_decls r) t = Some q) by (apply Hg; eauto). congruence.
Qed.

Lemma type_intern_lookup_ok key :
  key_valid (reg_types r) (reg_decls r) key ->
  (exists p t, type_intern_lookup type_addr str_addr r key = Some (Some p) /\ reg_types r !! p = Some t /\
     kind_interned (ty_kind t) = true /\ type_norm (reg_decls r) t = type_norm (reg_decls r) key) \/
  (type_intern_lookup type_addr str_addr r key = Some None /\
     forall p t, reg_types r !! p = Some t -> kind_interned (ty_kind t) = true ->
       type_norm (reg_decls r) t <> type_norm (reg_decls r) key).
Proof using All.
  intros Hk. destruct (ok_table r Hr) as (g & Hrep & Hg). unfold type_intern_lookup.
  unfold intern_hash, intern_equals.
  rewrite (map_lookup_represents _ _ (type_norm (reg_decls r)) (key_valid (reg_types r) (reg_decls r))
    (type_structurally_equals_spec _ _) (type_structural_hash_norm _ _) _ g key Hrep Hk).
  destruct (g !! type_norm (reg_decls r) key) as [p|] eqn:Hp.
  - left. destruct (proj1 (Hg _ _) Hp) as (t & ? & ? & ?). by exists p, t.
  - right. split; [done|]. intros p t Ht Hki Hn.
    assert (g !! type_norm (reg_decls r) key = Some p) by (apply Hg; eauto). congruence.
Qed.
End intern.

Lemma new_type_grows r key : grows r (new_type r key).1.
Proof.
  split; try done. intros p t Ht. exists t. split; [|done]. cbn. rewrite lookup_app_l; [done|]. by apply lookup_lt_Some in Ht.
Qed.

(** A type added at the end of the heap, with a table that knows it. *)
Lemma types_ok_new r r' key :
  types_ok r -> grows r r' -> reg_types r' = reg_types r ++ [key] -> reg_decls r' = reg_decls r ->
  ty_substituted key = None -> type_ok r' (length (reg_types r)) key ->
  length (reg_params r') = length (reg_params r) ->
  (forall i p, reg_params r' !! i = Some (Some p) -> reg_params r !! i = Some (Some p) \/
     p = length (reg_types r) /\ ty_kind key = TYPE_PARAM /\ ty_param_index key = i) ->
  (exists g, table_holds r' g) -> types_ok r'.
Proof.
  intros Hr Hg Ht Hd Hs Hk Hlen Hp Htab.
  assert (Hsplit : forall p t, reg_types r' !! p = Some t -> reg_types r !! p = Some t \/ p = length (reg_types r) /\ t = key).
  { intros p t Hl. rewrite Ht in Hl. apply lookup_snoc_Some in Hl as [[? ?]|[? ?]]; [by left|by right]. }
  assert (Hold : forall p t, reg_types r !! p = Some t -> reg_types r' !! p = Some t).
  { intros p t Hl. rewrite Ht, lookup_app_l; [done|by apply lookup_lt_Some in Hl]. }
  split.
  - intros p t [Hl|[-> ->]]%Hsplit; [|done]. apply (type_ok_grows r r' Hg p t t); [|done|by apply (ok_type r Hr)].
    by apply (type_pointers_valid r Hr p).
  - intros p t fields [Hl|[-> ->]]%Hsplit Hf; [|congruence]. apply (fields_valid_grows r r' Hg). by apply (ok_cache r Hr p t).
  - done.
  - destruct (ok_params r Hr) as [Hn Hpar]. split; [congruence|]. intros i p [Hi|(-> & Hkind & Hi)]%Hp.
    + destruct (Hpar i p Hi) as (t & Hl & ?). exists t. split; [|done]. by apply Hold.
    + exists key. split; [|done]. rewrite Ht. by apply list_lookup_middle.
  - intros k p Hq. rewrite (get_primitive_grows r r' Hg) in Hq. destruct (ok_prims r Hr k p Hq) as (n & t & -> & Hl & ?).
    exists n, t. split; [done|]. split; [|done]. by apply Hold.
  - rewrite Hd, (gr_prims r r' Hg). apply (ok_builtin_decls r Hr).
  - intros d decl Hl. rewrite Hd in Hl. apply (fields_valid_grows r r' Hg), (ok_fields r Hr d decl Hl).
Qed.

(** The rest of the registry: interning leaves it alone. *)
Definition same_tables (r r' : TypeRegistry) : Prop :=
  conformances r' = conformances r /\ layouts r' = layouts r.

Lemma intern_ok r key :
  types_ok r -> kind_interned (ty_kind key) = true -> ty_substituted key = None -> type_ok r (length (reg_types r)) key ->
  exists r' p t, intern type_addr str_addr r key = Some (r', p) /\ types_ok r' /\ grows r r' /\ same_tables r r' /\
    reg_decls r' = reg_decls r /\ reg_types r' !! p = Some t /\ kind_interned (ty_kind t) = true /\
    type_norm (reg_decls r) t = type_norm (reg_decls r) key.
Proof.
  intros Hr Hki Hs Hk. pose proof (to_key _ _ _ Hk Hki) as Hkey. unfold intern.
  destruct (type_intern_lookup_ok r Hr key Hkey) as [(p & t & -> & Hp & Hkt & Hn)|[-> Hnone]]; cbn [mbind option_bind].
  { exists r, p, t. split_and!; done. }
  destruct (ok_table r Hr) as (g & Hrep & Hg).
  pose proof (new_type_grows r key) as Hgrow. cbn [new_type fst] in Hgrow. cbn [new_type].
  set (r1 := with_types r (reg_types r ++ [key])) in *.
  pose proof (table_grows r r1 Hgrow g Hrep) as Hrep1.
  assert (Hkey1 : key_valid (reg_types r1) (reg_decls r1) key).
  { by apply (key_grow (reg_types r) _ (reg_decls r)); [apply (gr_types r r1 Hgrow)| |]. }
  destruct (map_insert_represents _ _ _ _ (type_structurally_equals_spec _ _) (type_structural_hash_norm _ _)
    (applications r1) g key (length (reg_types r)) Hrep1 Hkey1) as (m & Hm & Hrep2).
  unfold intern_hash, intern_equals. rewrite Hm. cbn [mbind option_bind].
  assert (Hno : g !! type_norm (reg_decls r) key = None).
  { destruct (g !! type_norm (reg_decls r) key) as [p|] eqn:Hp; [|done]. destruct (proj1 (Hg _ _) Hp) as (t & Ht & Hkt & Hn).
    by destruct (Hnone p t Ht Hkt). }
  change (reg_decls r1) with (reg_decls r) in Hrep2. rewrite Hno in Hrep2.
  set (r2 := with_applications r1 m). exists r2, (length (reg_types r)), key.
  assert (Hgrow2 : grows r r2) by (destruct Hgrow; by split).
  split; [done|]. split; [|split; [done|split; [done|split; [done|split; [by apply list_lookup_middle|done]]]]].
  apply (types_ok_new r r2 key); try done.
  - apply (type_ok_grows r r2 Hgrow2 _ key key); [exact (to_below _ _ _ Hk)|done|done].
  - by left.
  - exists (<[type_norm (reg_decls r) key := length (reg_types r)]> g). split; [done|]. intros q p.
    change (reg_decls r2) with (reg_decls r). change (reg_types r2) with (reg_types r ++ [key]).
    rewrite lookup_insert_Some, Hg. split.
    + intros [[<- <-]|(Hne & t & Ht & ?)]; [exists key; split; [by apply list_lookup_middle|done]|].
      exists t. split; [|done]. rewrite lookup_app_l; [done|by apply lookup_lt_Some in Ht].
    + intros (t & Ht & Hkt & Hn). apply lookup_snoc_Some in Ht as [[_ Ht]|[-> <-]]; [|by left]. right.
      split; [|by eauto]. intros Hq. apply (Hnone p t); congruence.
Qed.

(** ** A type's meaning is its address *)

Lemma type_meaning_not_null types decls f t : type_meaning types decls f t <> TNull.
Proof. unfold type_meaning. by destruct (ty_kind t). Qed.

Lemma type_meaning_kind types decls f t u :
  type_meaning types decls f t = type_meaning types decls f u -> ty_kind t = ty_kind u.
Proof. unfold type_meaning. destruct (ty_kind t), (ty_kind u); congruence. Qed.

(** Only a null pointer means [TNull], and no pointer means a constant. *)
Lemma ty_of_type r p :
  match ty_of r p with TConst _ _ | TConstParam _ => False | _ => True end.
Proof.
  unfold ty_of. destruct p as [n|]; [|done]. cbn [default from_option id meaning_at]. destruct (reg_types r !! n); [|done].
  unfold type_meaning. by destruct (ty_kind t).
Qed.

Section canonical.
Context (r : TypeRegistry) (Hr : types_ok r).

Lemma int_kind_unique p q :
  int_kind_at (reg_types r) p -> int_kind_at (reg_types r) q -> kind_at (reg_types r) p = kind_at (reg_types r) q -> p = q.
Proof using Hr.
  intros (n & t & -> & Ht & Hi) (m & u & -> & Hu & _). cbn. rewrite Ht, Hu. cbn. intros [= Hk].
  destruct (ok_type r Hr n t Ht) as [_ _ H1 _], (ok_type r Hr m u Hu) as [_ _ H2 _]. unfold shape_ok in *.
  rewrite <- Hk in *. destruct (ty_kind t); try done; destruct H1 as [_ H1], H2 as [_ H2]; congruence.
Qed.

Lemma arg_ty_inj bound args others :
  (forall p q, (forall n, p = Some n -> n < bound) -> ptr_valid (reg_types r) q -> ty_of r p = ty_of r q -> p = q) ->
  Forall (fun q => q < bound) (arg_pointers args) -> Forall (fun q => q < length (reg_types r)) (arg_pointers others) ->
  Forall (arg_const_ok (reg_types r)) args -> Forall (arg_const_ok (reg_types r)) others ->
  arg_ty r <$> args = arg_ty r <$> others -> arg_norm <$> args = arg_norm <$> others.
Proof using Hr.
  intros IH. revert others. induction args as [|a args IHa]; intros [|b others] Hp Hq Ha Hb; try done.
  inversion Ha; inversion Hb; subst. cbn [fmap list_fmap]. intros [= Hab Hrest]. f_equal.
  - unfold arg_ty, arg_meaning in Hab. destruct a as [p|[c|n]], b as [q|[d|m]]; cbn [arg_norm];
      try (pose proof (ty_of_type r p) as Hp'; by rewrite Hab in Hp');
      try (pose proof (ty_of_type r q) as Hq'; by rewrite <- Hab in Hq'); try congruence.
    + f_equal. apply IH; [|destruct q as [n|]|done].
      * intros n ->. cbn in Hp. by inversion Hp.
      * cbn in Hq. by inversion Hq.
      * done.
    + injection Hab as Hk Hz. by rewrite (int_kind_unique (constant_type c) (constant_type d)), Hz.
  - apply IHa; try done.
    + destruct a as [[n|]|]; cbn in Hp; [by inversion Hp|done|done].
    + destruct b as [[n|]|]; cbn in Hq; [by inversion Hq|done|done].
Qed.

(** Two types of one meaning, when older types of one meaning are one. *)
Lemma same_meaning_same_type k m t u :
  reg_types r !! k = Some t -> reg_types r !! m = Some u ->
  (forall p q, (forall j, p = Some j -> j < k) -> ptr_valid (reg_types r) p -> ptr_valid (reg_types r) q ->
    ty_of r p = ty_of r q -> p = q) ->
  type_meaning (reg_types r) (reg_decls r) (ty_of r) t = type_meaning (reg_types r) (reg_decls r) (ty_of r) u -> k = m.
Proof using All.
  intros Ht Hu IH Heq. pose proof (type_meaning_kind _ _ _ _ _ Heq) as Hk.
  pose proof (type_pointers_valid r Hr k t Ht) as Hvt. pose proof (type_pointers_valid r Hr m u Hu) as Hvu.
  pose proof (type_args_const r Hr k t Ht) as Hct. pose proof (type_args_const r Hr m u Hu) as Hcu.
  destruct (ok_type r Hr k t Ht) as [Hbt _ Hst _], (ok_type r Hr m u Hu) as [_ _ Hsu _].
  apply Forall_app in Hbt as [Hbt1 Hbt2], Hvu as [Hvu1 Hvu2].
  assert (Hptr : ty_of r (ty_pointee t) = ty_of r (ty_pointee u) -> ty_pointee t = ty_pointee u).
  { apply IH.
    - intros j Hj. rewrite Hj in Hbt1. by inversion Hbt1.
    - apply Forall_app in Hvt as [Hvt1 _]. destruct (ty_pointee t); [by inversion Hvt1|done].
    - destruct (ty_pointee u); [by inversion Hvu1|done]. }
  assert (Hargs : arg_ty r <$> ty_args t = arg_ty r <$> ty_args u -> arg_norm <$> ty_args t = arg_norm <$> ty_args u).
  { apply (arg_ty_inj k); try done. intros p q Hb Hq. apply IH; [done| |done]. destruct p as [j|]; [|done].
    cbn. specialize (Hb j eq_refl). apply lookup_lt_Some in Ht. lia. }
  destruct (kind_interned (ty_kind t)) eqn:Hki.
  - apply (norm_unique r Hr k m t u Ht Hu Hki). unfold type_norm, type_meaning in *. rewrite <- Hk in *.
    destruct (ty_kind t); try done; injection Heq; intros; try (by rewrite Hptr); (rewrite Hargs by done; congruence).
  - unfold shape_ok, type_meaning in *. rewrite <- Hk in *.
    destruct (ty_kind t); try done; destruct Hst as [_ Hst], Hsu as [_ Hsu]; congruence.
Qed.

Lemma ty_of_inj p q :
  ptr_valid (reg_types r) p -> ptr_valid (reg_types r) q -> ty_of r p = ty_of r q -> p = q.
Proof using All.
  enough (Hn : forall n p q, (forall k, p = Some k -> k < n) -> ptr_valid (reg_types r) p -> ptr_valid (reg_types r) q ->
    ty_of r p = ty_of r q -> p = q).
  { apply (Hn (match p with Some k => S k | None => 0 end)). by intros k ->; lia. }
  clear p q. intros n. induction n as [|n IH]; intros p q Hlt Hp Hq Heq.
  - destruct p as [k|]; [specialize (Hlt k eq_refl); lia|]. destruct q as [m|]; [|done].
    destruct (lookup_lt_is_Some_2 _ _ Hq) as [u Hu]. rewrite (ty_of_lookup r Hr m u Hu) in Heq.
    by destruct (type_meaning_not_null (reg_types r) (reg_decls r) (ty_of r) u).
  - destruct p as [k|], q as [m|]; [|..|done].
    2: { destruct (lookup_lt_is_Some_2 _ _ Hp) as [u Hu]. rewrite (ty_of_lookup r Hr k u Hu) in Heq.
         by destruct (type_meaning_not_null (reg_types r) (reg_decls r) (ty_of r) u). }
    2: { destruct (lookup_lt_is_Some_2 _ _ Hq) as [u Hu]. rewrite (ty_of_lookup r Hr m u Hu) in Heq.
         by destruct (type_meaning_not_null (reg_types r) (reg_decls r) (ty_of r) u). }
    cbn in Hp, Hq. destruct (lookup_lt_is_Some_2 _ _ Hp) as [t Ht], (lookup_lt_is_Some_2 _ _ Hq) as [u Hu].
    f_equal. rewrite (ty_of_lookup r Hr k t Ht), (ty_of_lookup r Hr m u Hu) in Heq.
    pose proof (Hlt k eq_refl) as Hk. apply (same_meaning_same_type k m t u Ht Hu); [|done].
    intros p q Hbelow Hv Hw He. apply IH; try done. intros j Hj. specialize (Hbelow j Hj). lia.
Qed.
End canonical.

(** ** The operations that make types *)

(** What making types leaves of a registry. *)
Record keeps (r r' : TypeRegistry) : Prop := {
  kp_ok : types_ok r';
  kp_grows : grows r r';
  kp_tables : same_tables r r';
  kp_decls : reg_decls r' = reg_decls r;
}.

Lemma keeps_refl r : types_ok r -> keeps r r.
Proof. by split. Qed.

Lemma keeps_trans r1 r2 r3 : keeps r1 r2 -> keeps r2 r3 -> keeps r1 r3.
Proof. intros [_ ? [] ?] [? ? [] ?]. split; [done|by etrans|split; congruence|congruence]. Qed.

(** The call returns the pointer of the term [T]. *)
Definition makes (r : TypeRegistry) (res : option (TypeRegistry * nat)) (T : Ty) : Prop :=
  exists r' p, res = Some (r', p) /\ keeps r r' /\ p < length (reg_types r') /\ ty_of r' (Some p) = T.

(** Interning distinguishes meanings, and nothing finer. *)
Lemma norm_meaning r t u :
  types_ok r -> kind_interned (ty_kind t) = true ->
  Forall (arg_const_ok (reg_types r)) (ty_args t) -> Forall (arg_const_ok (reg_types r)) (ty_args u) ->
  type_norm (reg_decls r) t = type_norm (reg_decls r) u ->
  type_meaning (reg_types r) (reg_decls r) (ty_of r) t = type_meaning (reg_types r) (reg_decls r) (ty_of r) u.
Proof.
  intros Hr Hki Ht Hu Hn. assert (Hk : ty_kind t = ty_kind u) by (injection Hn as Hn _; by apply kind_index_inj in Hn).
  assert (Hargs : forall l k : list TypeArg, arg_norm <$> l = arg_norm <$> k -> arg_ty r <$> l = arg_ty r <$> k).
  { induction l as [|a l IH]; intros [|b k] Hl; try done. injection Hl as Hab Hl. cbn [fmap list_fmap]. f_equal; [|by apply IH].
    destruct a as [|[]], b as [|[]]; cbn in Hab |- *; simplify_eq; congruence. }
  unfold type_norm, type_meaning in *. rewrite <- Hk in *. destruct (ty_kind t); try done; injection Hn; intros;
    first [congruence|f_equal; [apply id_norm_inj; unfold id_norm; congruence|by apply Hargs]].
Qed.

Lemma intern_makes r key T :
  types_ok r -> kind_interned (ty_kind key) = true -> ty_substituted key = None -> type_ok r (length (reg_types r)) key ->
  type_meaning (reg_types r) (reg_decls r) (ty_of r) key = T ->
  makes r (intern type_addr str_addr r key) T.
Proof.
  intros Hr Hki Hs Hk <-. destruct (intern_ok r key Hr Hki Hs Hk) as (r' & p & t & Hi & Hr' & Hg & Hst & Hd & Hp & Hkt & Hn).
  exists r', p. split; [done|]. split; [by split|]. split; [by apply lookup_lt_Some in Hp|].
  rewrite (ty_of_lookup r' Hr' p t Hp). pose proof (to_key _ _ _ Hk Hki) as (_ & Hdk & Hck).
  rewrite (norm_meaning r' t key Hr' Hkt).
  - rewrite Hd. apply type_meaning_ext; try done.
    + eapply Forall_impl; [exact (to_below _ _ _ Hk)|]. intros q Hq. by apply ty_of_grows.
    + by destruct (ty_kind key).
    + eapply Forall_impl; [exact Hck|]. intros [|[c|]]; cbn; try done. intros (m & u & -> & Hu & _).
      destruct (gr_types r r' Hg m u Hu) as (u' & Hu' & Hcu). cbn. rewrite Hu, Hu'. cbn. by injection Hcu as -> _.
  - exact (type_args_const r' Hr' p t Hp).
  - eapply Forall_impl; [exact Hck|]. intros a. apply arg_const_grow, Hg.
  - by rewrite Hd.
Qed.

Lemma intern_applied_intern r key args :
  intern_applied type_addr str_addr r key args = intern type_addr str_addr r (with_args key args).
Proof. unfold intern_applied, intern. by destruct (type_intern_lookup _ _ r (with_args key args)) as [[]|]. Qed.

Lemma deref_decl_exists r d : decl_exists (reg_decls r) d -> exists decl, deref_decl r d = Some decl.
Proof. intros (n & decl & -> & Hn). exists decl. exact Hn. Qed.

Lemma ptr_valid_below r p : ptr_valid (reg_types r) p -> Forall (fun q => q < length (reg_types r)) (option_list p).
Proof. destruct p; cbn; repeat constructor; done. Qed.

Lemma arg_pointers_below r args : Forall (arg_valid (reg_types r)) args -> Forall (fun q => q < length (reg_types r)) (arg_pointers args).
Proof.
  intros Ha. induction Ha as [|[[n|]|c] args Hx Ha IH]; cbn; [constructor| |done|done]. by constructor.
Qed.

Lemma arg_valid_const r args : Forall (arg_valid (reg_types r)) args -> Forall (arg_const_ok (reg_types r)) args.
Proof. intros Ha. eapply Forall_impl; [exact Ha|]. by intros [|]. Qed.

Section constructors.
Context (r : TypeRegistry) (Hr : types_ok r).

Lemma ref_to_makes inner : ptr_valid (reg_types r) inner ->
  makes r (type_registry_ref_to type_addr str_addr r inner) (TRef (ty_of r inner)).
Proof using All.
  intros Hv. apply intern_makes; try done. split; try done.
  unfold type_pointers. cbn. rewrite app_nil_r. by apply ptr_valid_below.
Qed.

Lemma raw_of_makes element : ptr_valid (reg_types r) element ->
  makes r (type_registry_raw_of type_addr str_addr r element) (TRaw (ty_of r element)).
Proof using All.
  intros Hv. unfold type_registry_raw_of.
  destruct (deref_decl_exists r _ (proj2 (proj2 (ok_builtin_decls r Hr)))) as (decl & ->). cbn [mbind option_bind].
  rewrite intern_applied_intern. apply intern_makes; try done. split; try done.
  - apply Forall_app. split; [by apply ptr_valid_below|]. apply (arg_pointers_below r [_]). by repeat constructor.
  - intros _. split_and!; [done|done|]. by repeat constructor.
Qed.

Lemma slice_of_makes element : ptr_valid (reg_types r) element ->
  makes r (type_registry_slice_of type_addr str_addr r element)
    (TApp TYPE_SLICE (decl_id_at (reg_decls r) (slice_decl (primitives r))) [ty_of r element]).
Proof using All.
  intros Hv. unfold type_registry_slice_of. destruct (ok_builtin_decls r Hr) as [Hd _].
  destruct (deref_decl_exists r _ Hd) as (decl & ->). cbn [mbind option_bind].
  rewrite intern_applied_intern. apply intern_makes; try done. split; try done.
  - apply (arg_pointers_below r [_]). by repeat constructor.
  - intros _. split_and!; [done|exact Hd|]. by repeat constructor.
  - split; [done|]. by exists element.
  - cbn. by rewrite orb_false_r.
Qed.

Lemma array_with_makes element count : ptr_valid (reg_types r) element -> arg_valid (reg_types r) (TYPE_ARG_CONST count) ->
  makes r (type_registry_array_with type_addr str_addr r element (TYPE_ARG_CONST count))
    (TApp TYPE_ARRAY (decl_id_at (reg_decls r) (array_decl (primitives r))) [ty_of r element; arg_ty r (TYPE_ARG_CONST count)]).
Proof using All.
  intros Hv Hc. unfold type_registry_array_with. destruct (ok_builtin_decls r Hr) as (_ & Hd & _).
  destruct (deref_decl_exists r _ Hd) as (decl & ->). cbn [mbind option_bind].
  rewrite intern_applied_intern. apply intern_makes; try done. split; try done.
  - apply (arg_pointers_below r [_; _]). by repeat constructor.
  - intros _. split_and!; [done|exact Hd|]. by repeat constructor.
  - split; [done|]. by exists element, count.
  - cbn. by rewrite orb_false_r.
Qed.

Lemma array_of_makes element n : ptr_valid (reg_types r) element ->
  makes r (type_registry_array_of type_addr str_addr r element n)
    (TApp TYPE_ARRAY (decl_id_at (reg_decls r) (array_decl (primitives r))) [ty_of r element; TConst (Some TYPE_I32) n]).
Proof using All.
  intros Hv. unfold type_registry_array_of. cbn [type_registry_get_primitive mbind option_bind].
  destruct (ok_prims r Hr TYPE_I32 (i32_type (primitives r)) eq_refl) as (m & t & Hm & Ht & Hk).
  assert (Hi : arg_ty r (TYPE_ARG_CONST (CONST_VALUE (constant_int (i32_type (primitives r)) n))) = TConst (Some TYPE_I32) n).
  { cbn. rewrite Hm. cbn. rewrite Ht. cbn. by rewrite Hk. }
  rewrite <- Hi. apply array_with_makes; [done|]. exists m, t. split_and!; [done|done|]. by rewrite Hk.
Qed.

Lemma instantiate_makes d decl args :
  deref_decl r d = Some decl -> Forall (arg_valid (reg_types r)) args -> length args = decl_param_count decl ->
  makes r (type_registry_instantiate type_addr str_addr r d args) (TApp TYPE_STRUCT (decl_id decl) (arg_ty r <$> args)).
Proof using All.
  intros Hd Ha Hl. unfold type_registry_instantiate. rewrite Hd. cbn [mbind option_bind].
  rewrite (proj2 (Nat.eqb_eq _ _) Hl). cbn [negb]. rewrite intern_applied_intern.
  destruct d as [n|]; [|done]. unfold deref_decl in Hd. cbn in Hd.
  apply intern_makes; try done.
  - split; try done.
    + by apply arg_pointers_below.
    + intros _. split_and!; [done|by exists n, decl|by apply arg_valid_const].
    + by exists n, decl.
  - unfold type_meaning. cbn [ty_kind with_args with_decl type_init ty_decl ty_args decl_id_at mbind option_bind].
    f_equal. unfold decl_id_at. cbn. by rewrite Hd.
Qed.

Lemma apply_makes d decl args :
  deref_decl r d = Some decl -> Forall (ptr_valid (reg_types r)) args -> length args = decl_param_count decl ->
  length args <= GAB_MAX_TYPE_PARAMS ->
  makes r (type_registry_apply type_addr str_addr r d args) (TApp TYPE_STRUCT (decl_id decl) (ty_of r <$> args)).
Proof using All.
  intros Hd Ha Hl Hle. unfold type_registry_apply. rewrite (proj2 (Nat.leb_le _ _) Hle). cbn [negb].
  replace (ty_of r <$> args) with (arg_ty r <$> (TYPE_ARG_TYPE <$> args)) by (rewrite <- list_fmap_compose; done).
  apply instantiate_makes; [done| |by rewrite length_fmap]. by rewrite Forall_fmap.
Qed.

Lemma param_makes index : index < GAB_MAX_TYPE_PARAMS -> makes r (type_registry_param r index) (TParam index).
Proof using All.
  intros Hi. unfold type_registry_param. rewrite (proj2 (Nat.ltb_lt _ _) Hi). cbn [negb].
  destruct (ok_params r Hr) as [Hlen Hpar]. rewrite <- Hlen in Hi. destruct (lookup_lt_is_Some_2 _ _ Hi) as [known Hk].
  rewrite Hk. cbn [mbind option_bind]. destruct known as [p|].
  - destruct (Hpar index p Hk) as (t & Ht & Hkind & Hidx). exists r, p. split; [done|]. split; [by apply keeps_refl|]. split; [by apply lookup_lt_Some in Ht|].
    rewrite (ty_of_lookup r Hr p t Ht). unfold type_meaning. by rewrite Hkind, Hidx.
  - cbn [new_type].
    set (key := with_param_index (type_init TYPE_PARAM None) index).
    set (r' := with_params (with_types r (reg_types r ++ [key])) (<[index:=Some (length (reg_types r))]> (reg_params r))).
    assert (Hg : grows r r').
    { split; try done; [apply (new_type_grows r key)|]. intros i p Hp. cbn.
      destruct (decide (i = index)) as [->|]; [congruence|]. by rewrite list_lookup_insert_ne. }
    assert (Hr' : types_ok r').
    { apply (types_ok_new r r' key); try done.
      - split; try done. split; [done|]. cbn. by apply list_lookup_insert_eq.
      - cbn. by rewrite length_insert.
      - intros i p Hp. cbn in Hp. destruct (decide (i = index)) as [->|Hne].
        + right. rewrite list_lookup_insert_eq in Hp by done. by injection Hp as <-.
        + left. by rewrite list_lookup_insert_ne in Hp.
      - destruct (ok_table r Hr) as (g & Hrep & Htab). exists g. split; [by apply (table_grows r r' Hg)|]. intros q p.
        rewrite Htab. change (reg_decls r') with (reg_decls r). change (reg_types r') with (reg_types r ++ [key]).
        split; intros (t & Ht & Hki & ?); exists t; (split; [|done]).
        + rewrite lookup_app_l; [done|by apply lookup_lt_Some in Ht].
        + apply lookup_snoc_Some in Ht as [[_ ?]|[_ <-]]; done. }
    exists r', (length (reg_types r)). split; [done|]. split; [by split|]. split; [cbn; rewrite length_app; cbn; lia|].
    rewrite (ty_of_lookup r' Hr' _ key); [done|]. by apply list_lookup_middle.
Qed.
End constructors.

(** ** Substitution *)

(** Induction over a term and the terms it is applied to. *)
Lemma Ty_nested_ind (P : Ty -> Prop) :
  P TNull -> (forall k, P (TBuiltin k)) -> (forall i, P (TParam i)) -> (forall t, P t -> P (TRef t)) ->
  (forall t, P t -> P (TRaw t)) -> (forall k d args, Forall P args -> P (TApp k d args)) ->
  (forall k z, P (TConst k z)) -> (forall i, P (TConstParam i)) -> forall t, P t.
Proof.
  intros H1 H2 H3 H4 H5 H6 H7 H8. fix go 1. intros [|k|i|t|t|k d args|k z|i].
  - done.
  - apply H2.
  - apply H3.
  - apply H4, go.
  - apply H5, go.
  - apply H6. induction args as [|a args IH]; constructor; [apply go|apply IH].
  - apply H7.
  - apply H8.
Qed.

Fixpoint subst_ty (args : list Ty) (T : Ty) : Ty :=
  match T with
  | TParam i | TConstParam i => default TNull (args !! i)
  | TRef t => TRef (subst_ty args t)
  | TRaw t => TRaw (subst_ty args t)
  | TApp k d ts => TApp k d (subst_ty args <$> ts)
  | _ => T
  end.

Fixpoint ty_mentions (T : Ty) : bool :=
  match T with
  | TParam _ | TConstParam _ => true
  | TRef t | TRaw t => ty_mentions t
  | TApp _ _ ts => existsb ty_mentions ts
  | _ => false
  end.

(** The arguments are the parameters of the place, in order. *)
Definition is_own_params (ts : list Ty) : bool :=
  forallb (fun '(i, t) => match t with TParam j | TConstParam j => Nat.eqb i j | _ => false end) (imap pair ts).

(** Every struct that mentions a parameter is applied to those of its place. *)
Fixpoint own_params (T : Ty) : bool :=
  match T with
  | TRef t | TRaw t => own_params t
  | TApp TYPE_STRUCT _ ts => negb (existsb ty_mentions ts) || is_own_params ts
  | TApp _ _ ts => forallb own_params ts
  | _ => true
  end.

(** A type parameter is given a type, a value parameter a value. *)
Fixpoint fits (args : list TypeArg) (T : Ty) : bool :=
  match T with
  | TParam i => match args !! i with Some (TYPE_ARG_TYPE _) => true | _ => false end
  | TConstParam i => match args !! i with Some (TYPE_ARG_CONST _) => true | _ => false end
  | TRef t | TRaw t => fits args t
  | TApp _ _ ts => forallb (fits args) ts
  | _ => true
  end.

Lemma subst_ty_closed args T : ty_mentions T = false -> subst_ty args T = T.
Proof.
  induction T as [| | |t IH|t IH|k d ts IH| |] using Ty_nested_ind; cbn; intros Hm; try done; try (by rewrite IH).
  f_equal. induction IH as [|t ts Ht _ IHts]; [done|]. cbn in *. apply orb_false_iff in Hm as [H1 H2]. by rewrite Ht, IHts.
Qed.

(** The flag [has_param] of a type says whether its meaning mentions one. *)
Lemma has_param_meaning r : types_ok r -> forall p, ptr_valid (reg_types r) p -> has_param_at r p = ty_mentions (ty_of r p).
Proof.
  intros Hr p. enough (Hn : forall n, n < length (reg_types r) -> has_param_at r (Some n) = ty_mentions (ty_of r (Some n))).
  { destruct p as [n|]; [apply Hn|done]. }
  clear p. intros n. induction n as [n IH] using lt_wf_ind. intros Hn. destruct (lookup_lt_is_Some_2 _ _ Hn) as [t Ht].
  rewrite (ty_of_lookup r Hr n t Ht). unfold has_param_at, deref. cbn [mbind option_bind]. rewrite Ht. cbn [type_has_param].
  destruct (ok_type r Hr n t Ht) as [Hb _ _ ->]. apply Forall_app in Hb as [Hb1 Hb2].
  assert (Hptr : has_param_at r (ty_pointee t) = ty_mentions (ty_of r (ty_pointee t))).
  { destruct (ty_pointee t) as [q|]; [|done]. inversion Hb1; subst. apply IH; lia. }
  assert (Hargs : existsb (arg_has_param r) (ty_args t) = existsb ty_mentions (arg_ty r <$> ty_args t)).
  { revert Hb2. generalize (ty_args t). intros l Hl. induction l as [|a l IHl]; [done|]. cbn.
    destruct a as [[q|]|[c|i]]; cbn in Hl |- *; [inversion Hl; subst|..]; rewrite ?IHl by done; try done.
    rewrite (IH q) by lia. done. }
  unfold mentions_param, type_meaning. destruct (ty_kind t); done.
Qed.

Lemma arg_ty_grows r r' arg : types_ok r -> grows r r' -> arg_valid (reg_types r) arg -> arg_ty r' arg = arg_ty r arg.
Proof.
  intros Hr Hg. destruct arg as [p|[c|i]]; cbn; intros Ha; try done; [by apply ty_of_grows|].
  destruct Ha as (n & t & -> & Ht & _). destruct (gr_types r r' Hg n t Ht) as (t' & Ht' & Hc). cbn. rewrite Ht, Ht'. cbn.
  by injection Hc as ->.
Qed.

Lemma args_ty_grows r r' args :
  types_ok r -> grows r r' -> Forall (arg_valid (reg_types r)) args -> arg_ty r' <$> args = arg_ty r <$> args.
Proof. intros Hr Hg Ha. apply Forall_fmap_ext_1. eapply Forall_impl; [exact Ha|]. intros a. by apply arg_ty_grows. Qed.

(** Substituting a struct's own parameters is taking the arguments. *)
Lemma subst_own_params args (l : list TypeArg) ts :
  is_own_params ts = true -> forallb (fits l) ts = true -> length args = length l ->
  length ts <= length l /\ subst_ty args <$> ts = take (length ts) args.
Proof.
  intros Hi Hf Hlen. assert (Hat : forall i t, ts !! i = Some t -> (t = TParam i \/ t = TConstParam i) /\ i < length l).
  { intros i t Ht. unfold is_own_params in Hi. rewrite forallb_forall in Hi.
    assert (Hin : In (i, t) (imap pair ts)).
    { apply list_elem_of_In, list_elem_of_lookup. exists i. rewrite list_lookup_imap, Ht. done. }
    specialize (Hi _ Hin). cbn in Hi. rewrite forallb_forall in Hf.
    assert (Hin' : In t ts) by (by apply list_elem_of_In, list_elem_of_lookup; exists i). specialize (Hf _ Hin').
    destruct t; try done; apply Nat.eqb_eq in Hi as <-; cbn in Hf; (destruct (l !! i) eqn:Hl; [|done]);
      apply lookup_lt_Some in Hl; split; auto. }
  assert (Hle : length ts <= length l).
  { destruct (decide (length ts = 0)) as [->|Hn]; [lia|].
    destruct (lookup_lt_is_Some_2 ts (length ts - 1)) as [t Ht]; [lia|]. destruct (Hat _ t Ht) as [_ ?]. lia. }
  split; [done|]. apply list_eq. intros i. rewrite list_lookup_fmap. destruct (ts !! i) as [t|] eqn:Ht; cbn.
  - destruct (Hat i t Ht) as [Hti Hil]. rewrite lookup_take_lt by (by apply lookup_lt_Some in Ht).
    rewrite <- Hlen in Hil. destruct (lookup_lt_is_Some_2 _ _ Hil) as [x Hx]. rewrite Hx.
    destruct Hti as [-> | ->]; cbn; by rewrite Hx.
  - symmetry. apply lookup_ge_None. rewrite length_take. apply lookup_ge_None in Ht. lia.
Qed.

Lemma type_at r p : ptr_valid (reg_types r) p -> has_param_at r p = true ->
  exists n t, p = Some n /\ reg_types r !! n = Some t /\ deref r p = Some t.
Proof.
  destruct p as [n|]; [|done]. cbn. intros Hn _. destruct (lookup_lt_is_Some_2 _ _ Hn) as [t Ht]. by exists n, t.
Qed.

(** What the kinds substitution rebuilds are made of. *)
Lemma pointee_valid r n t : types_ok r -> reg_types r !! n = Some t -> ptr_valid (reg_types r) (ty_pointee t).
Proof.
  intros Hr Ht. pose proof (type_pointers_valid r Hr n t Ht) as [Hv _]%Forall_app.
  destruct (ty_pointee t); [by inversion Hv|done].
Qed.

Lemma args_valid r n t : types_ok r -> reg_types r !! n = Some t -> Forall (arg_valid (reg_types r)) (ty_args t).
Proof.
  intros Hr Ht. pose proof (type_pointers_valid r Hr n t Ht) as [_ Hv]%Forall_app.
  pose proof (type_args_const r Hr n t Ht) as Hc. revert Hv Hc. generalize (ty_args t). intros l Hv Hc.
  induction Hc as [|a l Ha Hc IH]; constructor.
  - destruct a as [[q|]|]; cbn in Hv |- *; [by inversion Hv|done|done].
  - apply IH. destruct a as [[q|]|]; cbn in Hv; [by inversion Hv|done|done].
Qed.

Lemma array_shape r n t : types_ok r -> reg_types r !! n = Some t -> ty_kind t = TYPE_ARRAY ->
  exists e c, ty_decl t = array_decl (primitives r) /\ ty_args t = [TYPE_ARG_TYPE e; TYPE_ARG_CONST c] /\ ptr_valid (reg_types r) e /\ arg_const_ok (reg_types r) (TYPE_ARG_CONST c).
Proof.
  intros Hr Ht Hk. pose proof (args_valid r n t Hr Ht) as Ha. destruct (ok_type r Hr n t Ht) as [_ _ Hs _]. unfold shape_ok in Hs.
  rewrite Hk in Hs. destruct Hs as (Hd & e & c & He). exists e, c. split; [done|]. split; [done|]. rewrite He in Ha.
  inversion Ha as [|? ? H1 H2]; subst. by inversion H2.
Qed.

Lemma slice_shape r n t : types_ok r -> reg_types r !! n = Some t -> ty_kind t = TYPE_SLICE ->
  exists e, ty_decl t = slice_decl (primitives r) /\ ty_args t = [TYPE_ARG_TYPE e] /\ ptr_valid (reg_types r) e.
Proof.
  intros Hr Ht Hk. pose proof (args_valid r n t Hr Ht) as Ha. destruct (ok_type r Hr n t Ht) as [_ _ Hs _]. unfold shape_ok in Hs.
  rewrite Hk in Hs. destruct Hs as (Hd & e & He). exists e. split; [done|]. split; [done|]. rewrite He in Ha. by inversion Ha.
Qed.

Lemma struct_shape r n t : types_ok r -> reg_types r !! n = Some t -> ty_kind t = TYPE_STRUCT ->
  exists decl, deref_decl r (ty_decl t) = Some decl /\ decl_param_count decl = length (ty_args t).
Proof.
  intros Hr Ht Hk. destruct (ok_type r Hr n t Ht) as [_ _ Hs _]. unfold shape_ok in Hs. rewrite Hk in Hs.
  destruct Hs as (d & decl & -> & Hd & Hc). by exists decl.
Qed.

Lemma substitute_arg_valid types arg args given :
  Forall (arg_valid types) args -> arg_valid types arg -> substitute_arg arg args = Some given -> arg_valid types given.
Proof.
  intros Ha Harg. destruct arg as [p|[c|i]]; cbn; try (by intros [= <-]). destruct (args !! i) as [x|] eqn:Hx; [|done]. cbn.
  pose proof (Forall_lookup_1 _ _ _ _ Ha Hx) as Hv. destruct x; [done|]. by intros [= <-].
Qed.

Lemma substitute_arg_const c args given : substitute_arg (TYPE_ARG_CONST c) args = Some given -> exists c', given = TYPE_ARG_CONST c'.
Proof.
  destruct c as [v|i]; cbn; [intros [= <-]; by eexists|]. destruct (args !! i) as [[]|]; cbn; try done. intros [= <-]. by eexists.
Qed.

(** Run the operation that makes a type. *)
Ltac run_makes H :=
  let r' := fresh "r" in let p := fresh "p" in let Hrun := fresh "Hrun" in let Hk := fresh "Hk" in let Hv := fresh "Hv" in let Hm := fresh "Hm" in
  destruct H as (r' & p & Hrun & Hk & Hv & Hm); rewrite Hrun; cbn [mbind option_bind].

(** Whatever it is given, substitution leaves a registry in order. *)
Lemma substitute_keeps fuel : forall r p args r' q,
  types_ok r -> ptr_valid (reg_types r) p -> Forall (arg_valid (reg_types r)) args ->
  type_registry_substitute type_addr str_addr fuel r p args = Some (r', q) ->
  keeps r r' /\ ptr_valid (reg_types r') q.
Proof.
  induction fuel as [|fuel IH]; intros r p args r' q Hr Hp Ha; cbn [type_registry_substitute]; [done|].
  destruct (has_param_at r p) eqn:Hm; cbn [negb]; [|intros [= <- <-]; split; [by apply keeps_refl|done]].
  destruct (type_at r p Hp Hm) as (n & t & -> & Ht & ->). cbn [mbind option_bind].
  assert (Hinner : forall e r1 q1, ptr_valid (reg_types r) e -> type_registry_substitute type_addr str_addr fuel r e args = Some (r1, q1) ->
    keeps r r1 /\ ptr_valid (reg_types r1) q1) by (intros; by eapply IH).
  assert (Hdone : forall r1 q1 res T, keeps r r1 -> ptr_valid (reg_types r1) q1 -> makes r1 res T ->
    ('(r, p) ← res; Some (r, Some p)) = Some (r', q) -> keeps r r' /\ ptr_valid (reg_types r') q).
  { intros r1 q1 res T Hk1 Hv1 Hmk. run_makes Hmk. intros [= <- <-]. split; [by eapply keeps_trans|done]. }
  destruct (ty_kind t) eqn:Hkind; try done.
  - destruct (type_registry_substitute _ _ fuel r (ty_pointee t) args) as [[r1 e]|] eqn:He; [|done]. cbn [mbind option_bind].
    destruct (Hinner _ _ _ (pointee_valid r n t Hr Ht) He) as [Hk1 Hv1]. eapply Hdone; [done..|]. apply raw_of_makes; [apply Hk1|done].
  - destruct (array_shape r n t Hr Ht Hkind) as (e & c & _ & Hargs & Hve & Hvc).
    unfold type_array_element. rewrite Hkind, Hargs. cbn [mbind option_bind].
    destruct (type_registry_substitute _ _ fuel r e args) as [[r1 e1]|] eqn:He; [|done]. cbn [mbind option_bind].
    destruct (Hinner _ _ _ Hve He) as [Hk1 Hv1]. cbn [lookup list_lookup mbind option_bind].
    destruct (substitute_arg (TYPE_ARG_CONST c) args) as [given|] eqn:Hg; [|done]. cbn [mbind option_bind].
    pose proof (substitute_arg_valid _ _ _ _ Ha (Hvc : arg_valid (reg_types r) (TYPE_ARG_CONST c)) Hg) as Hvg.
    destruct (substitute_arg_const c args given Hg) as [c' ->].
    eapply Hdone; [done..|]. apply array_with_makes; [apply Hk1|done|]. eapply (arg_valid_grows r r1); [apply Hk1|done].
  - destruct (slice_shape r n t Hr Ht Hkind) as (e & _ & Hargs & Hve).
    unfold type_slice_element. rewrite Hkind, Hargs. cbn [mbind option_bind].
    destruct (type_registry_substitute _ _ fuel r e args) as [[r1 e1]|] eqn:He; [|done]. cbn [mbind option_bind].
    destruct (Hinner _ _ _ Hve He) as [Hk1 Hv1]. eapply Hdone; [done..|]. apply slice_of_makes; [apply Hk1|done].
  - destruct (struct_shape r n t Hr Ht Hkind) as (decl & Hd & Hc). rewrite Hd. cbn [mbind option_bind].
    destruct (Nat.leb _ _) eqn:Hle; cbn [negb]; [|done]. apply Nat.leb_le in Hle.
    eapply (Hdone r None); [by apply keeps_refl|done|]. eapply instantiate_makes; [done|done| |].
    + by apply Forall_take.
    + rewrite length_take. lia.
  - destruct (type_registry_substitute _ _ fuel r (ty_pointee t) args) as [[r1 e]|] eqn:He; [|done]. cbn [mbind option_bind].
    destruct (Hinner _ _ _ (pointee_valid r n t Hr Ht) He) as [Hk1 Hv1]. eapply Hdone; [done..|]. apply ref_to_makes; [apply Hk1|done].
  - destruct (args !! ty_param_index t) as [[q1|]|] eqn:Hq; cbn [mbind option_bind]; try done. intros [= <- <-].
    split; [by apply keeps_refl|]. exact (Forall_lookup_1 _ _ _ _ Ha Hq).
Qed.

(** The answer of a call: the pointer, maybe null, of the term [T]. *)
Definition returns (r : TypeRegistry) (res : option (TypeRegistry * TypePtr)) (T : Ty) : Prop :=
  exists r' q, res = Some (r', q) /\ keeps r r' /\ ptr_valid (reg_types r') q /\ ty_of r' q = T.

Lemma returns_made r r1 res T : keeps r r1 -> makes r1 res T -> returns r ('(r, p) ← res; Some (r, Some p)) T.
Proof. intros Hk Hm. run_makes Hm. exists r0, (Some p). split; [done|]. split; [by eapply keeps_trans|done]. Qed.

Ltac run_returns H :=
  let r' := fresh "r" in let p := fresh "q" in let Hrun := fresh "Hrun" in let Hk := fresh "Hk" in let Hv := fresh "Hv" in let Hm := fresh "Hm" in
  destruct H as (r' & p & Hrun & Hk & Hv & Hm); rewrite Hrun; cbn [mbind option_bind].

Lemma substitute_arg_meaning r c args :
  fits args (arg_ty r (TYPE_ARG_CONST c)) = true ->
  exists c', substitute_arg (TYPE_ARG_CONST c) args = Some (TYPE_ARG_CONST c') /\
    arg_ty r (TYPE_ARG_CONST c') = subst_ty (arg_ty r <$> args) (arg_ty r (TYPE_ARG_CONST c)).
Proof.
  destruct c as [v|i]; cbn; [by eexists|]. rewrite list_lookup_fmap. destruct (args !! i) as [[|c]|]; try done. intros _.
  exists c. split; done.
Qed.

(** Fuel enough for a type: its address and one. *)
Definition ptr_depth (p : TypePtr) : nat := match p with None => 0 | Some n => S n end.

Lemma own_params_list k d ts : k <> TYPE_STRUCT -> own_params (TApp k d ts) = true -> Forall (fun t => own_params t = true) ts.
Proof. intros Hk Ho. apply Forall_forall. intros t Ht. destruct k; try done; cbn in Ho; rewrite forallb_forall in Ho; by apply Ho, list_elem_of_In. Qed.

Lemma fits_list args k d ts : fits args (TApp k d ts) = true -> Forall (fun t => fits args t = true) ts.
Proof. intros Ho. apply Forall_forall. intros t Ht. cbn in Ho. rewrite forallb_forall in Ho. by apply Ho, list_elem_of_In. Qed.

(** A struct's case: its declaration instantiated at the arguments. *)
Lemma substitute_struct_returns r n t args :
  types_ok r -> reg_types r !! n = Some t -> ty_kind t = TYPE_STRUCT -> Forall (arg_valid (reg_types r)) args ->
  has_param_at r (Some n) = true -> own_params (ty_of r (Some n)) = true -> fits args (ty_of r (Some n)) = true ->
  exists decl, deref_decl r (ty_decl t) = Some decl /\ decl_param_count decl <= length args /\
    makes r (type_registry_instantiate type_addr str_addr r (ty_decl t) (take (decl_param_count decl) args))
      (subst_ty (arg_ty r <$> args) (ty_of r (Some n))).
Proof.
  intros Hr Ht Hk Ha Hm Ho Hf. assert (Hn : n < length (reg_types r)) by (by apply lookup_lt_Some in Ht).
  rewrite (has_param_meaning r Hr (Some n) Hn) in Hm.
  rewrite (ty_of_lookup r Hr n t Ht) in *. unfold type_meaning in *. rewrite Hk in *. cbn [own_params fits ty_mentions] in *.
  rewrite Hm in Ho. cbn [negb orb] in Ho.
  destruct (struct_shape r n t Hr Ht Hk) as (decl & Hd & Hc). exists decl. split; [done|].
  destruct (subst_own_params (arg_ty r <$> args) args _ Ho Hf) as [Hle Hs]; [by rewrite length_fmap|].
  rewrite length_fmap in Hle, Hs. split; [lia|]. cbn [subst_ty]. unfold arg_ty in Hs at 2. rewrite Hs, <- fmap_take, <- Hc.
  replace (decl_id_at (reg_decls r) (ty_decl t)) with (decl_id decl).
  - apply instantiate_makes; [done|done|by apply Forall_take|]. rewrite length_take. lia.
  - unfold decl_id_at, deref_decl in *. destruct (ty_decl t); [|done]. cbn in *. by rewrite Hd.
Qed.

Lemma substitute_returns fuel : forall r p args,
  types_ok r -> ptr_valid (reg_types r) p -> Forall (arg_valid (reg_types r)) args ->
  ptr_depth p < fuel -> own_params (ty_of r p) = true -> fits args (ty_of r p) = true ->
  returns r (type_registry_substitute type_addr str_addr fuel r p args) (subst_ty (arg_ty r <$> args) (ty_of r p)).
Proof.
  induction fuel as [|fuel IH]; intros r p args Hr Hp Ha Hf Ho Hfit; [lia|]. cbn [type_registry_substitute].
  destruct (has_param_at r p) eqn:Hm; cbn [negb].
  2: { exists r, p. split; [done|]. split; [by apply keeps_refl|]. split; [done|]. symmetry. apply subst_ty_closed.
       by rewrite <- has_param_meaning. }
  destruct (type_at r p Hp Hm) as (n & t & -> & Ht & ->). cbn [mbind option_bind]. cbn [ptr_depth] in Hf.
  pose proof (ty_of_lookup r Hr n t Ht) as Hty.
  assert (Hbelow : forall q, q ∈ option_list (ty_pointee t) ++ arg_pointers (ty_args t) -> S q < fuel).
  { intros q Hq. pose proof (to_below _ _ _ (ok_type r Hr n t Ht)) as Hb. rewrite Forall_forall in Hb. specialize (Hb q Hq). lia. }
  assert (Hptr : ptr_depth (ty_pointee t) < fuel).
  { destruct (ty_pointee t) as [q|] eqn:Hq; cbn; [|lia]. apply Hbelow. left. }
  destruct (ty_kind t) eqn:Hkind; unfold type_meaning in Hty; rewrite Hkind in Hty;
    try (pose proof (has_param_meaning r Hr (Some n) Hp) as Hpm; rewrite Hty, Hm in Hpm; done).
  - rewrite Hty in *. run_returns (IH r (ty_pointee t) args Hr (pointee_valid r n t Hr Ht) Ha Hptr Ho Hfit).
    eapply returns_made; [done|]. cbn [subst_ty]. rewrite <- Hm0. apply raw_of_makes; [apply Hk|done].
  - destruct (array_shape r n t Hr Ht Hkind) as (e & c & Hdecl & Hargs & Hve & Hvc). rewrite Hargs in *.
    unfold type_array_element. rewrite Hkind, Hargs. cbn [mbind option_bind]. rewrite Hty in *.
    pose proof (own_params_list TYPE_ARRAY _ _ ltac:(done) Ho) as [Ho1 _]%Forall_cons. pose proof (fits_list _ _ _ _ Hfit) as [Hf1 [Hf2 _]%Forall_cons]%Forall_cons.
    assert (Hde : ptr_depth e < fuel) by (destruct e as [q|]; cbn; [apply Hbelow; apply elem_of_app; right; left|lia]).
    run_returns (IH r e args Hr Hve Ha Hde Ho1 Hf1). cbn [lookup list_lookup mbind option_bind].
    destruct (substitute_arg_meaning r c args Hf2) as (c' & Hs & Hc'). rewrite Hs. cbn [mbind option_bind].
    pose proof (substitute_arg_valid _ _ _ _ Ha (Hvc : arg_valid (reg_types r) (TYPE_ARG_CONST c)) Hs) as Hvg.
    eapply returns_made; [done|]. cbn [subst_ty fmap list_fmap]. fold (arg_ty r (TYPE_ARG_CONST c)). cbn [arg_meaning].
    rewrite <- Hm0, <- Hc', <- (arg_ty_grows r r0 _ Hr (kp_grows _ _ Hk) Hvg), <- (kp_decls _ _ Hk).
    rewrite Hdecl, <- (gr_prims _ _ (kp_grows _ _ Hk)).
    apply array_with_makes; [apply Hk|done|]. eapply (arg_valid_grows r r0); [apply Hk|done].
  - destruct (slice_shape r n t Hr Ht Hkind) as (e & Hdecl & Hargs & Hve). rewrite Hargs in *.
    unfold type_slice_element. rewrite Hkind, Hargs. cbn [mbind option_bind]. rewrite Hty in *.
    pose proof (own_params_list TYPE_SLICE _ _ ltac:(done) Ho) as [Ho1 _]%Forall_cons. pose proof (fits_list _ _ _ _ Hfit) as [Hf1 _]%Forall_cons.
    assert (Hde : ptr_depth e < fuel) by (destruct e as [q|]; cbn; [apply Hbelow; apply elem_of_app; right; left|lia]).
    run_returns (IH r e args Hr Hve Ha Hde Ho1 Hf1).
    eapply returns_made; [done|]. cbn [subst_ty fmap list_fmap arg_meaning].
    rewrite <- Hm0, <- (kp_decls _ _ Hk), Hdecl, <- (gr_prims _ _ (kp_grows _ _ Hk)).
    apply slice_of_makes; [apply Hk|done].
  - destruct (substitute_struct_returns r n t args Hr Ht Hkind Ha Hm Ho Hfit) as (decl & Hd & Hle & Hmk). rewrite Hd.
    cbn [mbind option_bind]. rewrite (proj2 (Nat.leb_le _ _) Hle). cbn [negb].
    eapply returns_made; [by apply keeps_refl|done].
  - rewrite Hty in *. run_returns (IH r (ty_pointee t) args Hr (pointee_valid r n t Hr Ht) Ha Hptr Ho Hfit).
    eapply returns_made; [done|]. cbn [subst_ty]. rewrite <- Hm0. apply ref_to_makes; [apply Hk|done].
  - rewrite Hty in *. cbn [fits subst_ty] in *. rewrite list_lookup_fmap.
    destruct (args !! ty_param_index t) as [[q|]|] eqn:Hq; try done. cbn [mbind option_bind].
    exists r, q. split; [done|]. split; [by apply keeps_refl|]. split; [|done]. exact (Forall_lookup_1 _ _ _ _ Ha Hq).
Qed.

(** ** The other operations *)

(** Caches filled, declarations made or completed: no type is made. *)
Lemma types_ok_update r r' :
  types_ok r -> grows r r' -> core <$> reg_types r' = core <$> reg_types r -> applications r' = applications r ->
  reg_params r' = reg_params r ->
  (forall p t fields, reg_types r' !! p = Some t -> ty_substituted t = Some fields -> fields_valid (reg_types r') fields) ->
  (forall d decl, reg_decls r' !! d = Some decl -> fields_valid (reg_types r') (decl_fields decl)) ->
  types_ok r'.
Proof.
  intros Hr Hg Hc Happ Hpar Hcache Hfields.
  assert (Hback : forall p t', reg_types r' !! p = Some t' -> exists t, reg_types r !! p = Some t /\ core t' = core t).
  { intros p t' Ht'. assert (Hx : (core <$> reg_types r') !! p = Some (core t')) by (by rewrite list_lookup_fmap, Ht').
    rewrite Hc, list_lookup_fmap in Hx. destruct (reg_types r !! p) as [t|]; [|done]. apply (inj Some) in Hx. by exists t. }
  split; try done.
  - intros p t' Ht'. destruct (Hback p t' Ht') as (t & Ht & Hct). apply (type_ok_grows r r' Hg p t t'); [|done|by apply (ok_type r Hr)].
    by apply (type_pointers_valid r Hr p).
  - destruct (ok_table r Hr) as (g & Hrep & Htab). exists g. split; [rewrite Happ; by apply (table_grows r r' Hg)|].
    assert (Hnorm : forall t t', core t' = core t -> kind_interned (ty_kind t') = true -> key_valid (reg_types r) (reg_decls r) t ->
      type_norm (reg_decls r') t' = type_norm (reg_decls r) t).
    { intros t t' Hct Hk Hkey. injection Hct as H1 _ H3 H4 _ H6 _.
      destruct (key_grow _ _ _ _ t (gr_types r r' Hg) (gr_decls r r' Hg) Hkey) as (_ & _ & <-).
      unfold type_norm. by rewrite H1, H3, H4, H6. }
    intros q p. rewrite Htab. split; intros (t & Ht & Hk & <-).
    + destruct (gr_types r r' Hg p t Ht) as (t' & Ht' & Hct). assert (Hk' : kind_interned (ty_kind t') = true) by (by rewrite (core_kind _ _ Hct)).
      exists t'. split; [done|]. split; [done|]. apply Hnorm; [done..|]. by apply (to_key _ _ _ (ok_type r Hr p t Ht)).
    + destruct (Hback p t Ht) as (u & Hu & Hct). assert (Hku : kind_interned (ty_kind u) = true) by (by rewrite <- (core_kind _ _ Hct)).
      exists u. split; [done|]. split; [done|]. symmetry. apply Hnorm; [done..|]. by apply (to_key _ _ _ (ok_type r Hr p u Hu)).
  - rewrite Hpar. destruct (ok_params r Hr) as [Hlen Hp]. split; [done|]. intros i p Hi. destruct (Hp i p Hi) as (t & Ht & Hk & Hx).
    destruct (gr_types r r' Hg p t Ht) as (t' & Ht' & Hct). exists t'. injection Hct as -> _ _ _ _ _ ->. done.
  - intros k p Hk. rewrite (get_primitive_grows r r' Hg) in Hk. destruct (ok_prims r Hr k p Hk) as (n & t & -> & Ht & Hkt).
    destruct (gr_types r r' Hg n t Ht) as (t' & Ht' & Hct). exists n, t'. by rewrite (core_kind _ _ Hct).
  - rewrite (gr_prims r r' Hg). destruct (ok_builtin_decls r Hr) as (? & ? & ?).
    split_and!; by apply (decl_exists_grows r r' Hg).
Qed.

Lemma fields_cached_ok r p t fields :
  types_ok r -> fields_valid (reg_types r) fields -> (exists t', reg_types r !! p = Some t' /\ core t = core t') ->
  keeps r (with_types r (<[p := with_substituted t fields]> (reg_types r))).
Proof.
  intros Hr Hf (t' & Ht' & Hc). set (r' := with_types _ _).
  assert (Hlen : length (reg_types r') = length (reg_types r)) by (cbn; by rewrite length_insert).
  assert (Hval : forall fs, fields_valid (reg_types r) fs -> fields_valid (reg_types r') fs).
  { intros fs Hfs. eapply Forall_impl; [exact Hfs|]. intros [nm [n|]]; cbn; [|done]. by rewrite length_insert. }
  assert (Hg : grows r r').
  { split; try done. intros q u Hu. cbn. destruct (decide (q = p)) as [->|Hne].
    - rewrite list_lookup_insert_eq by (by apply lookup_lt_Some in Hu). eexists. split; [done|].
      rewrite Hu in Ht'. injection Ht' as ->. exact Hc.
    - rewrite list_lookup_insert_ne by done. by exists u. }
  split; try done. apply (types_ok_update r r'); try done.
  - cbn. rewrite list_fmap_insert. apply list_insert_id. rewrite list_lookup_fmap, Ht'. cbn. f_equal. symmetry. exact Hc.
  - intros q u fs Hu Hs. apply Hval. cbn in Hu. destruct (decide (q = p)) as [->|Hne].
    + rewrite list_lookup_insert_eq in Hu by (by apply lookup_lt_Some in Ht'). injection Hu as <-. by injection Hs as <-.
    + rewrite list_lookup_insert_ne in Hu by done. by apply (ok_cache r Hr q u).
  - intros d decl Hd. apply Hval, (ok_fields r Hr d decl Hd).
Qed.

Lemma substitute_fields_keeps fuel fields : forall r args r' fs,
  types_ok r -> fields_valid (reg_types r) fields -> Forall (arg_valid (reg_types r)) args ->
  substitute_fields type_addr str_addr fuel r fields args = Some (r', fs) ->
  keeps r r' /\ fields_valid (reg_types r') fs.
Proof.
  induction fields as [|f fields IH]; intros r args r' fs Hr Hf Ha; cbn [substitute_fields].
  { intros [= <- <-]. split; [by apply keeps_refl|constructor]. }
  inversion Hf as [|? ? Hf1 Hf2]; subst.
  destruct (type_registry_substitute _ _ fuel r (field_type f) args) as [[r1 q]|] eqn:Hs; [|done]. cbn [mbind option_bind].
  destruct (substitute_keeps fuel r _ args r1 q Hr Hf1 Ha Hs) as [Hk1 Hq].
  destruct (substitute_fields _ _ fuel r1 fields args) as [[r2 rest]|] eqn:Hrest; [|done]. cbn [mbind option_bind].
  destruct (IH r1 args r2 rest (kp_ok _ _ Hk1)) as [Hk2 Hfs]; [| |done|].
  { apply (fields_valid_grows r r1); [apply Hk1|done]. }
  { eapply Forall_impl; [exact Ha|]. intros a. apply arg_valid_grows, Hk1. }
  intros [= <- <-]. split; [by eapply keeps_trans|]. constructor; [|done]. apply (ptr_valid_grows r1 r2 (kp_grows _ _ Hk2)), Hq.
Qed.

Lemma fields_of_keeps r p r' fields :
  types_ok r -> type_registry_fields_of type_addr str_addr r p = Some (r', fields) ->
  keeps r r' /\ fields_valid (reg_types r') fields.
Proof.
  intros Hr. unfold type_registry_fields_of. destruct p as [n|]; [|intros [= <- <-]; split; [by apply keeps_refl|constructor]].
  destruct (reg_types r !! n) as [t|] eqn:Ht; [|done]. cbn [mbind option_bind]. case_bool_decide as Hk; cbn [negb].
  2: { intros [= <- <-]. split; [by apply keeps_refl|constructor]. }
  destruct (struct_shape r n t Hr Ht Hk) as (decl & Hd & _). rewrite Hd. cbn [mbind option_bind].
  assert (Hfd : fields_valid (reg_types r) (decl_fields decl)).
  { unfold deref_decl in Hd. destruct (ty_decl t); [|done]. by eapply (ok_fields r Hr). }
  destruct (Nat.eqb _ 0); [intros [= <- <-]; split; [by apply keeps_refl|done]|].
  destruct (ty_substituted t) as [fs|] eqn:Hs.
  { intros [= <- <-]. split; [by apply keeps_refl|]. by apply (ok_cache r Hr n t). }
  destruct (substitute_fields _ _ _ r (decl_fields decl) (ty_args t)) as [[r1 fs]|] eqn:Hsub; [|done]. cbn [mbind option_bind].
  intros [= <- <-].
  destruct (substitute_fields_keeps _ _ r (ty_args t) r1 fs Hr Hfd (args_valid r n t Hr Ht) Hsub) as [Hk1 Hv].
  assert (Hk2 : keeps r1 (with_types r1 (<[n := with_substituted t fs]> (reg_types r1)))).
  { apply fields_cached_ok; [apply Hk1|done|]. destruct (gr_types _ _ (kp_grows _ _ Hk1) n t Ht) as (t' & ? & ?). by exists t'. }
  split; [by eapply keeps_trans|]. by apply (fields_valid_grows r1 _ (kp_grows _ _ Hk2)).
Qed.
End addresses.
