(* ===== verification/RegistryState.v ===== *)
(** * RegistryState: the registry as its clients use it

    Layouts and conformances, and the steps a registry goes through: what is
    reached from a new registry satisfies the invariants of [RegistryTypes.v]
    and of this file. *)

From S2P Require Import Prelude Types HashMap Registry RegistryTypes.

(** ** Layout *)

(** An alignment the layouts have, and a size that is a multiple of it. *)
Definition aligned_layout (l : TypeLayout) : Prop :=
  (exists k, (0 <= k <= 3)%Z /\ layout_alignment l = 2 ^ k)%Z /\
  (0 <= layout_size l < 2 ^ 64)%Z /\ (layout_size l mod layout_alignment l = 0)%Z.

(** The sizes of the fields and the most that aligning each may add. *)
Definition room_for (ls : list TypeLayout) : Z := foldr (fun l n => layout_size l + 8 + n)%Z 0%Z ls.

Lemma to_u64_multiple z k : (0 <= k <= 63)%Z -> (z mod 2 ^ k = 0)%Z -> (to_u64 z mod 2 ^ k = 0)%Z.
Proof.
  intros Hk Hz. unfold wrap_unsigned. replace (2 ^ 64)%Z with (2 ^ k * 2 ^ (64 - k))%Z by (rewrite <- Z.pow_add_r by lia; f_equal; lia).
  rewrite Z.rem_mul_r by (apply Z.pow_nonzero || apply Z.pow_pos_nonneg; lia).
  rewrite Z.mul_comm, Z.mod_add, Z.mod_mod by (apply Z.pow_nonzero; lia). done.
Qed.

Lemma pow_le_eight k : (0 <= k <= 3)%Z -> (1 <= 2 ^ k <= 8)%Z.
Proof. intros Hk. split; [apply (Z.pow_le_mono_r 2 0); lia|apply (Z.pow_le_mono_r 2 k 3); lia]. Qed.

(** The state after some fields: the offset reached, within [bound], the
    alignment, one offset a field. *)
Definition placed (ls : list TypeLayout) (acc : Z * Z * list Z) : Prop :=
  let '(offset, alignment, offsets) := acc in
  length offsets = length ls /\ (0 <= offset <= room_for ls)%Z /\
  (exists k, (0 <= k <= 3)%Z /\ alignment = 2 ^ k)%Z /\
  Forall (fun l => (layout_alignment l <= alignment)%Z) ls /\
  (forall i o l, offsets !! i = Some o -> ls !! i = Some l ->
     (0 <= o /\ o mod layout_alignment l = 0 /\ o + layout_size l <= offset)%Z) /\
  (forall i j o o' l, i < j -> offsets !! i = Some o -> offsets !! j = Some o' -> ls !! i = Some l -> (o + layout_size l <= o')%Z).

Lemma room_for_app ls ls' : room_for (ls ++ ls') = (room_for ls + room_for ls')%Z.
Proof. induction ls as [|x ls IH]; cbn; [done|]. fold (room_for (ls ++ ls')) (room_for ls). lia. Qed.

Lemma room_for_nonneg ls : Forall aligned_layout ls -> (0 <= room_for ls)%Z.
Proof. intros Hf. induction Hf as [|l ls (_ & ? & _) _ IH]; cbn; [lia|]. fold (room_for ls). lia. Qed.

Lemma place_field_placed ls l acc :
  Forall aligned_layout (ls ++ [l]) -> (room_for (ls ++ [l]) < 2 ^ 64)%Z ->
  placed ls acc -> placed (ls ++ [l]) (place_field acc l).
Proof.
  intros [Hls [Hl _]%Forall_cons]%Forall_app Hb. destruct acc as [[offset alignment] offsets].
  intros (Hlen & Ho & Ha & Hmax & Hin & Hsep). rewrite room_for_app in Hb. cbn [room_for foldr] in Hb.
  destruct Hl as ((k & Hk & Hal) & Hsz & _). pose proof (pow_le_eight k Hk). pose proof (room_for_nonneg ls Hls).
  unfold place_field. rewrite Hal. pose proof (align_up_bounds offset k ltac:(lia) ltac:(lia) ltac:(lia)) as Hup.
  pose proof (align_up_multiple offset k ltac:(lia)) as Hmul. set (o1 := align_up offset (2 ^ k)) in *.
  rewrite wrap_unsigned_id by lia. unfold placed. rewrite room_for_app, !length_app. cbn [length room_for foldr].
  split; [lia|]. split; [lia|]. split; [destruct (Z.ltb_spec alignment (2 ^ k)); [by exists k|done]|].
  split; [|split].
  - apply Forall_app. split; [|repeat constructor; destruct (Z.ltb_spec alignment (2 ^ k)); lia].
    eapply Forall_impl; [exact Hmax|]. cbn beta. intros x Hx. destruct (Z.ltb_spec alignment (2 ^ k)); lia.
  - intros i o x Hi Hx. apply lookup_snoc_Some in Hi as [[Hi1 Hi2]|[-> <-]].
    + rewrite lookup_app_l in Hx by lia. destruct (Hin i o x Hi2 Hx) as (? & ? & ?). split_and!; [done|done|lia].
    + rewrite Hlen, list_lookup_middle in Hx by done. injection Hx as <-. rewrite Hal. split_and!; [lia|done|lia].
  - intros i j o o' x Hij Hi Hj Hx. apply lookup_snoc_Some in Hi as [[Hi1 Hi2]|[-> <-]].
    2: { apply lookup_lt_Some in Hj. rewrite length_app in Hj. cbn in Hj. lia. }
    rewrite lookup_app_l in Hx by lia. apply lookup_snoc_Some in Hj as [[Hj1 Hj2]|[-> <-]]; [exact (Hsep i j o o' x Hij Hi2 Hj2 Hx)|].
    destruct (Hin i o x Hi2 Hx) as (_ & _ & ?). lia.
Qed.

Lemma fold_placed ls : forall before acc,
  Forall aligned_layout (before ++ ls) -> (room_for (before ++ ls) < 2 ^ 64)%Z ->
  placed before acc -> placed (before ++ ls) (foldl place_field acc ls).
Proof.
  induction ls as [|l ls IH]; intros before acc Hf Hb Hp; [by rewrite app_nil_r|].
  cbn [foldl]. replace (before ++ l :: ls) with ((before ++ [l]) ++ ls) in * by (by rewrite <- app_assoc).
  apply IH; [done|done|]. apply Forall_app in Hf as [Hf1 Hf2]. rewrite room_for_app in Hb.
  pose proof (room_for_nonneg ls Hf2). apply place_field_placed; [done|lia|done].
Qed.

Lemma layout_of_layouts_placed ls : Forall aligned_layout ls -> (room_for ls + 8 < 2 ^ 64)%Z ->
  let l := layout_of_layouts ls in
  exists offset, placed ls (offset, layout_alignment l, layout_offsets l) /\ layout_size l = align_up offset (layout_alignment l) /\
    (offset <= layout_size l)%Z /\ aligned_layout l.
Proof.
  intros Hf Hb. pose proof (room_for_nonneg ls Hf). assert (Hp : placed ls (foldl place_field (0%Z, 1%Z, []) ls)).
  { apply (fold_placed ls [] (0%Z, 1%Z, [])); [done|change (room_for ls < 2 ^ 64)%Z; lia|]. split_and!; try done. by exists 0%Z. }
  unfold layout_of_layouts. destruct (foldl place_field _ ls) as [[offset alignment] offsets]. cbn.
  destruct Hp as (H1 & H2 & (k & Hk & ->) & Hp). exists offset. pose proof (pow_le_eight k Hk).
  pose proof (align_up_bounds offset k ltac:(lia) ltac:(lia) ltac:(lia)).
  split; [split; [done|]; split; [done|]; split; [by exists k|done]|]. split; [done|]. split; [lia|].
  split; [by exists k|]. cbn. split; [lia|]. apply align_up_multiple. lia.
Qed.

(** What may be said of every layout, also of one that overflowed. *)
Lemma layout_of_layouts_aligned ls : Forall aligned_layout ls -> aligned_layout (layout_of_layouts ls).
Proof.
  intros Hf. unfold layout_of_layouts.
  assert (Ha : forall acc, (exists k, (0 <= k <= 3)%Z /\ acc.1.2 = 2 ^ k)%Z ->
    (exists k, (0 <= k <= 3)%Z /\ (foldl place_field acc ls).1.2 = 2 ^ k)%Z).
  { induction Hf as [|l ls ((k & Hk & Hal) & _) _ IH]; intros [[o a] os] Hacc; [done|]. cbn [foldl]. apply IH. cbn.
    destruct (Z.ltb_spec a (layout_alignment l)); [by exists k|done]. }
  destruct (Ha (0%Z, 1%Z, []) ltac:(by exists 0%Z)) as (k & Hk & Hal).
  destruct (foldl place_field _ ls) as [[offset alignment] offsets]. cbn in Hal. subst alignment.
  split; [by exists k|]. cbn. split; [|apply align_up_multiple; lia].
  rewrite align_up_pow by lia. pose proof (wrap_unsigned_range 64 (offset + (2 ^ k - 1)) ltac:(lia)). pose proof (pow_le_eight k Hk).
  pose proof (Z.div_mod (to_u64 (offset + (2 ^ k - 1))) (2 ^ k)). pose proof (Z.mod_pos_bound (to_u64 (offset + (2 ^ k - 1))) (2 ^ k)).
  assert (0 <= to_u64 (offset + (2 ^ k - 1)) / 2 ^ k)%Z by (apply Z.div_pos; lia). nia.
Qed.

(** What the equality of instances sees of one: its declaration and its arguments. *)
Abbreviation InstNorm := (IdNorm * list ArgNorm)%type.

Section addresses.
Context (type_addr str_addr : nat -> N).
#[local] Abbreviation types_ok := (types_ok type_addr str_addr).
#[local] Abbreviation keeps := (keeps type_addr str_addr).

(** ** The conformances *)

Definition inst_norm (id : InstanceId) : InstNorm := (id_norm (inst_decl id), arg_norm <$> inst_args id).

Definition inst_valid (types : list TypeData) (id : InstanceId) : Prop := Forall (arg_const_ok types) (inst_args id).

Lemma instance_id_equals_spec types id id' :
  inst_valid types id -> inst_valid types id' -> instance_id_equals types id id' = true <-> inst_norm id = inst_norm id'.
Proof.
  intros Hk Hk'. unfold instance_id_equals, inst_norm.
  destruct (decl_id_equals (inst_decl _) _) eqn:Hi; cbn [negb orb].
  - apply decl_id_equals_spec in Hi. rewrite Hi. destruct (Nat.eqb _ _) eqn:Hl; cbn [negb].
    + apply Nat.eqb_eq in Hl. rewrite args_equal_spec by done. split; [by intros ->|].
      intros Heq. by apply pair_eq in Heq as [_ Heq].
    + split; [done|]. intros Heq. apply pair_eq in Heq as [_ Heq].
      apply (f_equal length) in Heq. rewrite !length_fmap in Heq. by apply Nat.eqb_neq in Hl.
  - split; [done|]. intros Heq. apply pair_eq in Heq as [Hd%id_norm_inj _].
    apply decl_id_equals_spec in Hd. congruence.
Qed.

Lemma instance_id_hash_norm types id id' :
  inst_valid types id -> inst_valid types id' -> inst_norm id = inst_norm id' ->
  instance_id_hash type_addr str_addr types id = instance_id_hash type_addr str_addr types id'.
Proof.
  intros Hk Hk' Heq. apply pair_eq in Heq as [H2%id_norm_inj H3].
  unfold instance_id_hash. rewrite H2. revert Hk Hk' H3. unfold inst_valid.
  generalize (inst_args id) (inst_args id'). intros l l' Hl Hl'.
  generalize (decl_id_hash str_addr (inst_decl id')). revert l' Hl'.
  induction Hl as [|a l Ha Hl IH]; intros [|b l'] Hl' h Hm; try done. inversion Hl'; subst.
  injection Hm as Hab Hm. cbn. rewrite (type_arg_hash_norm type_addr str_addr types a b) by done. by apply IH.
Qed.

Lemma instance_id_hash_grow types types' id :
  types_grow types types' -> inst_valid types id ->
  inst_valid types' id /\ instance_id_hash type_addr str_addr types' id = instance_id_hash type_addr str_addr types id.
Proof.
  intros Hg Hk. split; [eapply Forall_impl; [exact Hk|]; intros a; by apply arg_const_grow|].
  unfold instance_id_hash. generalize (decl_id_hash str_addr (inst_decl id)).
  unfold inst_valid in Hk. induction Hk as [|a l Ha Hk IH]; intros h; [done|]. cbn.
  rewrite (type_arg_hash_grow type_addr str_addr types types') by done. apply IH.
Qed.

Abbreviation ConfNorm := (IdNorm * InstNorm)%type.

Definition conf_norm (key : ConformanceKey) : ConfNorm := (id_norm (conf_owner key), inst_norm (conf_interface key)).

Definition conf_valid (types : list TypeData) (key : ConformanceKey) : Prop := inst_valid types (conf_interface key).

Lemma conformance_key_equals_spec types k k' :
  conf_valid types k -> conf_valid types k' -> conformance_key_equals types k k' = true <-> conf_norm k = conf_norm k'.
Proof.
  intros Hk Hk'. unfold conformance_key_equals, conf_norm.
  rewrite andb_true_iff, decl_id_equals_spec, instance_id_equals_spec by done.
  split; [by intros [-> ->]|]. by intros [->%id_norm_inj ->]%pair_eq.
Qed.

Lemma conformance_key_hash_norm types k k' :
  conf_valid types k -> conf_valid types k' -> conf_norm k = conf_norm k' ->
  conformance_key_hash_of type_addr str_addr types k = conformance_key_hash_of type_addr str_addr types k'.
Proof.
  intros Hk Hk' [H1%id_norm_inj H2]%pair_eq. unfold conformance_key_hash_of. rewrite H1.
  by rewrite (instance_id_hash_norm types _ _ Hk Hk' H2).
Qed.

Lemma conformance_hash_grow types types' k :
  types_grow types types' -> conf_valid types k ->
  conf_valid types' k /\ conformance_key_hash_of type_addr str_addr types' k = conformance_key_hash_of type_addr str_addr types k.
Proof.
  intros Hg Hk. destruct (instance_id_hash_grow types types' _ Hg Hk) as [? Hh]. split; [done|].
  unfold conformance_key_hash_of. by rewrite Hh.
Qed.

(** A type conforms to an interface at most once. *)
Definition coherent (g : gmap ConfNorm bool) : Prop :=
  forall k k', is_Some (g !! k) -> is_Some (g !! k') -> k.1 = k'.1 -> k.2.1 = k'.2.1 -> k = k'.

Definition conformances_hold (r : TypeRegistry) (g : gmap ConfNorm bool) : Prop :=
  represents (conformance_hash type_addr str_addr r) conf_norm (conf_valid (reg_types r)) (conformances r) g /\ coherent g.

Definition layouts_hold (r : TypeRegistry) : Prop :=
  exists g : gmap nat TypeLayout, represents (layout_key_hash type_addr) id (fun _ => True) (layouts r) g /\
    forall p l, g !! p = Some l -> aligned_layout l.

Record registry_ok (r : TypeRegistry) : Prop := {
  ok_types : types_ok r;
  ok_conformances : exists g, conformances_hold r g;
  ok_layouts : layouts_hold r;
}.

(** What an operation leaves of a registry in order. *)
Record leaves (r r' : TypeRegistry) : Prop := {
  lv_ok : registry_ok r';
  lv_grows : grows r r';
}.

Lemma leaves_refl r : registry_ok r -> leaves r r.
Proof. by split. Qed.

Lemma leaves_trans r1 r2 r3 : leaves r1 r2 -> leaves r2 r3 -> leaves r1 r3.
Proof. intros [_ ?] [? ?]. split; [done|by etrans]. Qed.

Lemma conformances_grow r r' g :
  grows r r' -> conformances r' = conformances r -> conformances_hold r g -> conformances_hold r' g.
Proof.
  intros Hg Hc [Hrep Hco]. split; [|done]. rewrite Hc. eapply represents_transfer; [|exact Hrep]. intros k Hk.
  destruct (conformance_hash_grow (reg_types r) (reg_types r') k (gr_types _ _ Hg) Hk). done.
Qed.

Lemma keeps_leaves r r' : registry_ok r -> keeps r r' -> leaves r r'.
Proof.
  intros [Ht [g Hc] Hl] [Ht' Hg [Hc' Hl'] _]. split; [|done]. split; [done| |].
  - exists g. by apply (conformances_grow r r').
  - destruct Hl as (gl & ? & ?). exists gl. by rewrite Hl'.
Qed.

Lemma conforms_lookup r g t type interface args :
  conformances_hold r g -> deref r type = Some t -> Forall (arg_valid (reg_types r)) args ->
  type_registry_conforms type_addr str_addr r type interface args =
    Some (bool_decide (is_Some (g !! conf_norm (conformance_key_of (reg_decls r) t interface args)))).
Proof.
  intros [Hrep _] Ht Ha. unfold type_registry_conforms. rewrite Ht. cbn [mbind option_bind].
  rewrite (map_lookup_represents _ _ conf_norm (conf_valid (reg_types r)) (conformance_key_equals_spec _)
    (conformance_key_hash_norm _) _ g _ Hrep).
  - cbn. by destruct (g !! _).
  - unfold conf_valid. cbn. by apply Forall_take, (arg_valid_const r).
Qed.

Lemma conforms_at_any_spec r g t type interface :
  conformances_hold r g -> deref r type = Some t ->
  exists b, type_registry_conforms_at_any r type interface = Some b /\
    (b = true <-> exists k, is_Some (g !! k) /\ k.1 = id_norm (decl_id_at (reg_decls r) (ty_decl t)) /\ k.2.1 = id_norm interface).
Proof.
  intros [Hrep _] Ht. unfold type_registry_conforms_at_any. rewrite Ht. cbn [mbind option_bind]. eexists. split; [done|].
  rewrite existsb_exists. split.
  - intros (e & Hin%list_elem_of_In & He). destruct e as [|key h v|]; try done.
    apply andb_true_iff in He as [H1%decl_id_equals_spec H2%decl_id_equals_spec]. exists (conf_norm key).
    split; [|cbn; rewrite H1, H2; done]. exists v. apply (rep_live _ _ _ _ _ Hrep). exists key. split; [done|].
    apply live_in_elem. by exists h.
  - intros (k & [v Hk] & H1 & H2). apply (rep_live _ _ _ _ _ Hrep) in Hk as (key & <- & (h & Hin)%live_in_elem).
    exists (HASH_MAP_LIVE key h v). split; [by apply list_elem_of_In|]. apply andb_true_iff.
    split; apply decl_id_equals_spec; by apply id_norm_inj.
Qed.

Lemma declare_conformance_ok r type t interface args :
  registry_ok r -> deref r type = Some t -> Forall (arg_valid (reg_types r)) args ->
  exists r' known, type_registry_conforms_at_any r type interface = Some known /\
    type_registry_declare_conformance type_addr str_addr r type interface args = Some (r', negb known) /\
    leaves r r' /\ reg_types r' = reg_types r /\ reg_decls r' = reg_decls r /\
    (known = true -> r' = r) /\
    (known = false -> type_registry_conforms type_addr str_addr r' type interface args = Some true).
Proof.
  intros Hr Ht Ha. destruct (ok_conformances r Hr) as [g Hg].
  destruct (conforms_at_any_spec r g t type interface Hg Ht) as (b & Hb & Hspec).
  unfold type_registry_declare_conformance. rewrite Hb. cbn [mbind option_bind]. destruct b.
  { exists r, true. split_and!; done. }
  rewrite Ht. cbn [mbind option_bind].
  set (key := conformance_key_of (reg_decls r) t interface args).
  assert (Hkey : conf_valid (reg_types r) key) by (unfold conf_valid; cbn; by apply Forall_take, (arg_valid_const r)).
  pose proof Hg as [Hrep Hco].
  destruct (map_insert_represents _ _ conf_norm (conf_valid (reg_types r)) (conformance_key_equals_spec _)
    (conformance_key_hash_norm _) _ g key true Hrep Hkey) as (m & Hm & Hrep').
  unfold conformance_hash, conformance_equals. rewrite Hm. cbn [mbind option_bind].
  assert (Hno : g !! conf_norm key = None).
  { destruct (g !! conf_norm key) as [v|] eqn:Hv; [|done]. exfalso. assert (false = true); [|done]. apply Hspec.
    exists (conf_norm key). split; [by eexists|done]. }
  rewrite Hno in Hrep'. set (r' := with_conformances r m).
  assert (Hg' : conformances_hold r' (<[conf_norm key := true]> g)).
  { split; [done|]. intros k k' Hk Hk' H1 H2. rewrite !lookup_insert_is_Some' in Hk, Hk'.
    assert (Hnew : forall x, is_Some (g !! x) -> x.1 = (conf_norm key).1 -> x.2.1 = (conf_norm key).2.1 -> False).
    { intros x Hx Hx1 Hx2. assert (false = true); [|done]. apply Hspec. by exists x. }
    destruct Hk as [<-|Hk], Hk' as [<-|Hk'].
    - done.
    - exfalso. by apply (Hnew k').
    - exfalso. by apply (Hnew k).
    - by apply Hco. }
  exists r', false. split; [done|]. split; [done|].
  assert (Hgr : grows r r') by by split.
  assert (Hok : types_ok r').
  { apply (types_ok_update type_addr str_addr r r'); try done; [apply Hr| |].
    - intros p u fields. apply (ok_cache _ _ r (ok_types r Hr)).
    - intros d decl. apply (ok_fields _ _ r (ok_types r Hr)). }
  split; [|split; [done|split; [done|split; [done|]]]].
  - split; [|done]. split; [done|by eexists|]. exact (ok_layouts r Hr).
  - intros _. rewrite (conforms_lookup r' _ t type interface args Hg' Ht Ha). f_equal. apply bool_decide_eq_true.
    rewrite lookup_insert_eq. by eexists.
Qed.

(** *** The questions about a type *)

Section questions.
Context (f : TypeRegistry -> TypePtr -> option (TypeRegistry * bool)).
Hypothesis f_keeps : forall r type r' b, types_ok r -> f r type = Some (r', b) -> keeps r r'.

Lemma fields_until_keeps stop fields : forall r r' b,
  types_ok r -> fields_until f stop r fields = Some (r', b) -> keeps r r'.
Proof using All.
  induction fields as [|fld fields IH]; intros r r' b Hr; cbn [fields_until].
  { intros [= <- _]. by apply keeps_refl. }
  destruct (f r (field_type fld)) as [[r1 b1]|] eqn:Hf; [|done]. cbn [mbind option_bind].
  pose proof (f_keeps r _ r1 b1 Hr Hf) as Hk. destruct (Bool.eqb b1 stop); [by intros [= <- _]|].
  intros H. eapply keeps_trans; [exact Hk|]. apply (IH r1 r' b); [apply Hk|done].
Qed.
End questions.

Lemma owns_keeps fuel : forall r type r' b,
  types_ok r -> type_registry_owns type_addr str_addr fuel r type = Some (r', b) -> keeps r r'.
Proof.
  induction fuel as [|fuel IH]; intros r type r' b Hr; cbn [type_registry_owns]; [done|].
  pose proof (keeps_refl _ _ r Hr) as Hrefl. destruct type as [p|]; [|by intros [= <- _]].
  destruct (deref r (Some p)) as [t|] eqn:Ht; [|done]. cbn [mbind option_bind].
  assert (Hfields : (ends ← ends_itself type_addr str_addr r (Some p); if ends : bool then Some (r, true) else
      '(r, fields) ← type_registry_fields_of type_addr str_addr r (Some p);
      fields_until (type_registry_owns type_addr str_addr fuel) true r fields) = Some (r', b) -> keeps r r').
  { destruct (ends_itself _ _ r (Some p)) as [[]|]; cbn [mbind option_bind]; [by intros [= <- _]| |done].
    destruct (type_registry_fields_of _ _ r (Some p)) as [[r1 fields]|] eqn:Hf; [|done]. cbn [mbind option_bind].
    destruct (fields_of_keeps _ _ r _ r1 fields Hr Hf) as [Hk _]. intros H. eapply keeps_trans; [exact Hk|].
    eapply (fields_until_keeps _ IH); [apply Hk|done]. }
  destruct (ty_kind t); try done; try (by intros [= <- _]).
  destruct (type_array_element (Some t)) as [e|]; [|done]. cbn [mbind option_bind]. by apply IH.
Qed.

Lemma borrows_keeps fuel : forall r type r' b,
  types_ok r -> type_registry_borrows type_addr str_addr fuel r type = Some (r', b) -> keeps r r'.
Proof.
  induction fuel as [|fuel IH]; intros r type r' b Hr; cbn [type_registry_borrows]; [done|].
  pose proof (keeps_refl _ _ r Hr) as Hrefl. destruct type as [p|]; [|by intros [= <- _]].
  destruct (deref r (Some p)) as [t|] eqn:Ht; [|done]. cbn [mbind option_bind].
  assert (Hfields : ('(r, fields) ← type_registry_fields_of type_addr str_addr r (Some p);
      fields_until (type_registry_borrows type_addr str_addr fuel) true r fields) = Some (r', b) -> keeps r r').
  { destruct (type_registry_fields_of _ _ r (Some p)) as [[r1 fields]|] eqn:Hf; [|done]. cbn [mbind option_bind].
    destruct (fields_of_keeps _ _ r _ r1 fields Hr Hf) as [Hk _]. intros H. eapply keeps_trans; [exact Hk|].
    eapply (fields_until_keeps _ IH); [apply Hk|done]. }
  destruct (ty_kind t); try done; try (by intros [= <- _]).
  destruct (type_array_element (Some t)) as [e|]; [|done]. cbn [mbind option_bind]. by apply IH.
Qed.

Definition negate (res : option (TypeRegistry * bool)) : option (TypeRegistry * bool) :=
  '(r, b) ← res; Some (r, negb b).

Lemma fields_until_negate f g fields : (forall r type, g r type = negate (f r type)) ->
  forall r, fields_until g false r fields = negate (fields_until f true r fields).
Proof.
  intros Hfg. induction fields as [|fld fields IH]; intros r; cbn [fields_until]; [done|].
  rewrite Hfg. destruct (f r (field_type fld)) as [[r1 []]|]; cbn; [done|apply IH|done].
Qed.

Lemma copies_negate fuel : forall r type,
  type_registry_copies type_addr str_addr fuel r type = negate (type_registry_owns type_addr str_addr fuel r type).
Proof.
  induction fuel as [|fuel IH]; intros r type; cbn [type_registry_copies type_registry_owns]; [done|].
  destruct type as [p|]; [|done]. destruct (deref r (Some p)) as [t|]; [|done]. cbn [mbind option_bind].
  destruct (ty_kind t); try done;
    try (destruct (type_array_element (Some t)) as [e|]; [apply IH|done]);
    (destruct (ends_itself _ _ r (Some p)) as [[]|]; cbn [mbind option_bind]; [done| |done];
     destruct (type_registry_fields_of _ _ r (Some p)) as [[r1 fields]|]; cbn [mbind option_bind]; [|done];
     by apply fields_until_negate).
Qed.

Lemma copies_keeps fuel r type r' b :
  types_ok r -> type_registry_copies type_addr str_addr fuel r type = Some (r', b) -> keeps r r'.
Proof.
  intros Hr. rewrite copies_negate. destruct (type_registry_owns _ _ fuel r type) as [[r1 b1]|] eqn:Ho; cbn; [|done].
  intros [= <- _]. by eapply owns_keeps.
Qed.

(** *** Layouts *)

Section layouts_of.
Context (f : TypeRegistry -> TypePtr -> option (TypeRegistry * TypeLayout)).
Hypothesis f_ok : forall r type r' l, registry_ok r -> f r type = Some (r', l) -> leaves r r' /\ aligned_layout l.

Lemma layouts_of_ok fields : forall r r' ls,
  registry_ok r -> layouts_of f r fields = Some (r', ls) -> leaves r r' /\ Forall aligned_layout ls.
Proof using All.
  induction fields as [|fld fields IH]; intros r r' ls Hr; cbn [layouts_of].
  { intros [= <- <-]. split; [by apply leaves_refl|constructor]. }
  destruct (f r (field_type fld)) as [[r1 l]|] eqn:Hf; [|done]. cbn [mbind option_bind].
  destruct (f_ok r _ r1 l Hr Hf) as [Hlv Hl]. destruct (layouts_of f r1 fields) as [[r2 rest]|] eqn:Hrest; [|done].
  destruct (IH r1 r2 rest (lv_ok _ _ Hlv) Hrest) as [Hlv2 Hls]. cbn. intros [= <- <-].
  split; [by eapply leaves_trans|by constructor].
Qed.
End layouts_of.

Lemma empty_layout_aligned : aligned_layout empty_layout.
Proof. split; [by exists 0%Z|]. by split. Qed.

Lemma scalar_aligned kind size alignment :
  layout_of_scalar kind = Some (size, alignment) -> aligned_layout (MkTypeLayout size alignment []).
Proof.
  assert (H0 : aligned_layout (MkTypeLayout 0 1 [])) by (split; [by exists 0%Z|by split]).
  assert (H1 : aligned_layout (MkTypeLayout 1 1 [])) by (split; [by exists 0%Z|by split]).
  assert (H4 : aligned_layout (MkTypeLayout 4 4 [])) by (split; [by exists 2%Z|by split]).
  assert (H8 : aligned_layout (MkTypeLayout 8 8 [])) by (split; [by exists 3%Z|by split]).
  destruct kind; cbn; try done; by intros [= <- <-].
Qed.

Lemma indirect_aligned r t size alignment :
  layout_of_indirect r t = (size, alignment) -> aligned_layout (MkTypeLayout size alignment []).
Proof. unfold layout_of_indirect. case_bool_decide; intros [= <- <-]; (split; [by exists 3%Z|by split]). Qed.

Lemma array_aligned l count :
  aligned_layout l -> aligned_layout (MkTypeLayout (to_u64 (layout_size l * to_u64 count)) (layout_alignment l) []).
Proof.
  intros ((k & Hk & Ha) & Hs & Hm). rewrite Ha in *. split; [by exists k|]. cbn. split; [apply wrap_unsigned_range; lia|].
  apply to_u64_multiple; [lia|]. rewrite Z.mul_mod, Hm by (apply Z.pow_nonzero; lia). by rewrite Z.mul_0_l, Z.mod_0_l by (apply Z.pow_nonzero; lia).
Qed.

(** The table of layouts is keyed by the address of the type. *)
Lemma layout_key_equals (k k' : nat) : True -> True -> Nat.eqb k k' = true <-> id k = id k'.
Proof. intros _ _. apply Nat.eqb_eq. Qed.

Lemma layout_key_hash_id (k k' : nat) : True -> True -> id k = id k' -> layout_key_hash type_addr k = layout_key_hash type_addr k'.
Proof. cbn. by intros _ _ ->. Qed.

(** A layout is cached. *)
Lemma layout_cached r p l m b :
  registry_ok r -> aligned_layout l ->
  map_insert (layout_key_hash type_addr) Nat.eqb (layouts r) p l = Some (m, b) -> leaves r (with_layouts r m).
Proof.
  intros Hr Hl Hm. destruct (ok_layouts r Hr) as (g & Hrep & Hal).
  destruct (map_insert_represents _ _ id (fun _ : nat => True) layout_key_equals layout_key_hash_id _ g p l Hrep I) as (m' & Hm' & Hrep').
  rewrite Hm in Hm'. injection Hm' as <- _.
  assert (Hg : grows r (with_layouts r m)) by by split.
  split; [|done]. split.
  - apply (types_ok_update type_addr str_addr r); try done; [apply Hr| |].
    + intros q u fields. apply (ok_cache _ _ r (ok_types r Hr)).
    + intros d decl. apply (ok_fields _ _ r (ok_types r Hr)).
  - destruct (ok_conformances r Hr) as [gc Hgc]. exists gc. by apply (conformances_grow r).
  - eexists. split; [exact Hrep'|]. intros q l'. cbn [id]. destruct (g !! p) as [l0|] eqn:Hp; [apply Hal|].
    rewrite lookup_insert_Some. intros [[_ <-]|[_ Hq]]; [done|by eapply Hal].
Qed.

Lemma compute_layout_ok f r type t r' l :
  (forall r type r' l, registry_ok r -> f r type = Some (r', l) -> leaves r r' /\ aligned_layout l) ->
  registry_ok r -> compute_layout type_addr str_addr f r type t = Some (r', l) -> leaves r r' /\ aligned_layout l.
Proof.
  intros Hf Hr. pose proof (leaves_refl r Hr) as Hrefl. unfold compute_layout.
  destruct (layout_of_scalar (ty_kind t)) as [[size alignment]|] eqn:Hs.
  { intros [= <- <-]. split; [done|by eapply scalar_aligned]. }
  destruct (layout_of_indirect r t) as [isz ial] eqn:Hi.
  assert (Hfields : ('(r, fields) ← type_registry_fields_of type_addr str_addr r type;
     '(r, ls) ← layouts_of f r fields; Some (r, layout_of_layouts ls)) = Some (r', l) -> leaves r r' /\ aligned_layout l).
  { destruct (type_registry_fields_of _ _ r type) as [[r2 fields]|] eqn:Hfs; [|done]. cbn [mbind option_bind].
    destruct (fields_of_keeps _ _ r _ r2 fields (ok_types r Hr) Hfs) as [Hk _]. apply (keeps_leaves r r2 Hr) in Hk.
    destruct (layouts_of _ r2 fields) as [[r3 ls]|] eqn:Hls; [|done]. cbn [mbind option_bind]. intros [= <- <-].
    destruct (layouts_of_ok _ Hf fields r2 r3 ls (lv_ok _ _ Hk) Hls) as [Hlv Hal].
    split; [by eapply leaves_trans|by apply layout_of_layouts_aligned]. }
  destruct (ty_kind t); try exact Hfields; try (intros [= <- <-]; split; [done|by eapply indirect_aligned]).
  destruct (type_array_element (Some t)) as [e|]; [|done]. cbn [mbind option_bind].
  destruct (f r e) as [[r2 l2]|] eqn:He; [|done]. cbn [mbind option_bind].
  destruct (Hf r e r2 l2 Hr He) as [Hlv Hal]. destruct (type_array_length (Some t)) as [count|]; [|done].
  cbn [mbind option_bind]. intros [= <- <-]. split; [done|by apply array_aligned].
Qed.

Lemma layout_of_ok fuel : forall r type r' l,
  registry_ok r -> type_registry_layout_of type_addr str_addr fuel r type = Some (r', l) -> leaves r r' /\ aligned_layout l.
Proof.
  induction fuel as [|fuel IH]; intros r type r' l Hr; cbn [type_registry_layout_of]; [done|].
  destruct type as [p|].
  2: { intros [= <- <-]. split; [by apply leaves_refl|apply empty_layout_aligned]. }
  destruct (map_lookup _ _ (layouts r) p) as [[found|]|] eqn:Hfound; cbn [mbind option_bind]; [|..|done].
  { intros [= <- <-]. split; [by apply leaves_refl|]. destruct (ok_layouts r Hr) as (g & Hrep & Hal).
    rewrite (map_lookup_represents _ _ id (fun _ : nat => True) layout_key_equals layout_key_hash_id _ g p Hrep I) in Hfound.
    injection Hfound as Hfound. by eapply Hal. }
  destruct (reg_types r !! p) as [t|] eqn:Ht; [|done]. cbn [mbind option_bind].
  destruct (compute_layout _ _ _ r (Some p) t) as [[r1 l1]|] eqn:Hc; [|done]. cbn [mbind option_bind].
  destruct (compute_layout_ok _ r _ t r1 l1 IH Hr Hc) as [Hlv Hal].
  destruct (map_insert _ _ (layouts r1) p l1) as [[m b]|] eqn:Hm; [|done]. cbn [mbind option_bind]. intros [= <- <-].
  split; [|done]. eapply leaves_trans; [exact Hlv|]. eapply layout_cached; [apply Hlv|done|done].
Qed.

(** ** The steps of a registry *)

Lemma makes_leaves r res T r' p : registry_ok r -> makes type_addr str_addr r res T -> res = Some (r', p) -> leaves r r'.
Proof. intros Hr (r1 & p1 & -> & Hk & _). intros [= <- _]. by apply keeps_leaves. Qed.

(** One call of the registry's interface, made with types and declarations it
    holds; and what resolution does to a declaration: it makes one, and later
    gives it its fields. *)
Inductive reg_step (r : TypeRegistry) : TypeRegistry -> Prop :=
  | step_ref inner r' p : ptr_valid (reg_types r) inner ->
      type_registry_ref_to type_addr str_addr r inner = Some (r', p) -> reg_step r r'
  | step_raw element r' p : ptr_valid (reg_types r) element ->
      type_registry_raw_of type_addr str_addr r element = Some (r', p) -> reg_step r r'
  | step_slice element r' p : ptr_valid (reg_types r) element ->
      type_registry_slice_of type_addr str_addr r element = Some (r', p) -> reg_step r r'
  | step_array element n r' p : ptr_valid (reg_types r) element ->
      type_registry_array_of type_addr str_addr r element n = Some (r', p) -> reg_step r r'
  | step_array_with element c r' p : ptr_valid (reg_types r) element -> arg_valid (reg_types r) (TYPE_ARG_CONST c) ->
      type_registry_array_with type_addr str_addr r element (TYPE_ARG_CONST c) = Some (r', p) -> reg_step r r'
  | step_param index r' p : type_registry_param r index = Some (r', p) -> reg_step r r'
  | step_instantiate d args r' p : Forall (arg_valid (reg_types r)) args ->
      type_registry_instantiate type_addr str_addr r d args = Some (r', p) -> reg_step r r'
  | step_apply d args r' p : Forall (ptr_valid (reg_types r)) args ->
      type_registry_apply type_addr str_addr r d args = Some (r', p) -> reg_step r r'
  | step_substitute fuel type args r' q : ptr_valid (reg_types r) type -> Forall (arg_valid (reg_types r)) args ->
      type_registry_substitute type_addr str_addr fuel r type args = Some (r', q) -> reg_step r r'
  | step_fields type r' fields : type_registry_fields_of type_addr str_addr r type = Some (r', fields) -> reg_step r r'
  | step_owns fuel type r' b : type_registry_owns type_addr str_addr fuel r type = Some (r', b) -> reg_step r r'
  | step_borrows fuel type r' b : type_registry_borrows type_addr str_addr fuel r type = Some (r', b) -> reg_step r r'
  | step_copies fuel type r' b : type_registry_copies type_addr str_addr fuel r type = Some (r', b) -> reg_step r r'
  | step_layout fuel type r' l : type_registry_layout_of type_addr str_addr fuel r type = Some (r', l) -> reg_step r r'
  | step_conform type interface args r' b : Forall (arg_valid (reg_types r)) args ->
      type_registry_declare_conformance type_addr str_addr r type interface args = Some (r', b) -> reg_step r r'
  | step_new_decl decl : fields_valid (reg_types r) (decl_fields decl) -> reg_step r (new_decl r decl).1
  | step_declare fuel d r' q : type_registry_declare type_addr str_addr fuel r d = Some (r', q) -> reg_step r r'
  | step_declare_struct fuel name fields r' q : fields_valid (reg_types r) fields ->
      type_registry_declare_struct type_addr str_addr fuel r name fields = Some (r', q) -> reg_step r r'
  | step_give_fields d decl fields : reg_decls r !! d = Some decl -> fields_valid (reg_types r) fields ->
      reg_step r (with_decls r (<[d := MkTypeDecl (decl_id decl) (decl_param_count decl) fields]> (reg_decls r))).

(** Declarations that grow, with valid fields, disturb nothing. *)
Lemma decls_leaves r decls :
  registry_ok r -> decls_grow (reg_decls r) decls ->
  (forall d decl, decls !! d = Some decl -> fields_valid (reg_types r) (decl_fields decl)) -> leaves r (with_decls r decls).
Proof.
  intros Hr Hd Hf. assert (Hg : grows r (with_decls r decls)) by by split.
  split; [|done]. split.
  - apply (types_ok_update type_addr str_addr r); try done; [apply Hr|]. intros p t fields. apply (ok_cache _ _ r (ok_types r Hr)).
  - destruct (ok_conformances r Hr) as [g Hgc]. exists g. by apply (conformances_grow r).
  - exact (ok_layouts r Hr).
Qed.

Lemma new_decl_leaves r decl : registry_ok r -> fields_valid (reg_types r) (decl_fields decl) -> leaves r (new_decl r decl).1.
Proof.
  intros Hr Hf. apply decls_leaves; [done| |].
  - intros d x Hx. exists x. split; [|done]. rewrite lookup_app_l; [done|by apply lookup_lt_Some in Hx].
  - intros d x Hx. apply lookup_snoc_Some in Hx as [[_ Hx]|[_ <-]]; [|done]. by apply (ok_fields _ _ r (ok_types r Hr) d).
Qed.

Lemma give_fields_leaves r d decl fields :
  registry_ok r -> reg_decls r !! d = Some decl -> fields_valid (reg_types r) fields ->
  leaves r (with_decls r (<[d := MkTypeDecl (decl_id decl) (decl_param_count decl) fields]> (reg_decls r))).
Proof.
  intros Hr Hd Hf. pose proof (lookup_lt_Some _ _ _ Hd) as Hlt. apply decls_leaves; [done| |].
  - intros e x Hx. destruct (decide (e = d)) as [->|Hne].
    + rewrite list_lookup_insert_eq by done. rewrite Hd in Hx. injection Hx as <-. by eexists.
    + rewrite list_lookup_insert_ne by done. by exists x.
  - intros e x Hx. destruct (decide (e = d)) as [->|Hne].
    + rewrite list_lookup_insert_eq in Hx by done. by injection Hx as <-.
    + rewrite list_lookup_insert_ne in Hx by done. by apply (ok_fields _ _ r (ok_types r Hr) e).
Qed.

Lemma instantiate_leaves r d args r' p :
  registry_ok r -> Forall (arg_valid (reg_types r)) args ->
  type_registry_instantiate type_addr str_addr r d args = Some (r', p) -> leaves r r'.
Proof.
  intros Hr Ha Hi. assert (Hd : exists decl, deref_decl r d = Some decl /\ length args = decl_param_count decl).
  { unfold type_registry_instantiate in Hi. destruct (deref_decl r d) as [decl|]; [|done]. cbn [mbind option_bind] in Hi.
    destruct (Nat.eqb _ _) eqn:Hl; [|done]. exists decl. by apply Nat.eqb_eq in Hl. }
  destruct Hd as (decl & Hd & Hl). eapply makes_leaves; [done| |exact Hi].
  by apply instantiate_makes; [apply Hr|..].
Qed.

Lemma apply_leaves r d args r' p :
  registry_ok r -> Forall (ptr_valid (reg_types r)) args ->
  type_registry_apply type_addr str_addr r d args = Some (r', p) -> leaves r r'.
Proof.
  intros Hr Ha. unfold type_registry_apply. destruct (Nat.leb _ _); [|done]. apply instantiate_leaves; [done|].
  by rewrite Forall_fmap.
Qed.

Lemma declare_leaves fuel r d r' q :
  registry_ok r -> type_registry_declare type_addr str_addr fuel r d = Some (r', q) -> leaves r r'.
Proof.
  intros Hr. unfold type_registry_declare. destruct (deref_decl r d) as [decl|]; [|done]. cbn [mbind option_bind].
  destruct (id_name (decl_id decl)); [|done]. destruct (Nat.eqb _ 0); [|intros [= <- _]; by apply leaves_refl].
  destruct (type_registry_apply _ _ r d []) as [[r1 p1]|] eqn:Hap; [|done]. cbn [mbind option_bind].
  pose proof (apply_leaves r d [] r1 p1 Hr ltac:(constructor) Hap) as Hl1. unfold type_registry_complete.
  destruct (type_registry_layout_of _ _ fuel r1 (Some p1)) as [[r2 l]|] eqn:Hlay; [|done]. cbn. intros [= <- _].
  eapply leaves_trans; [exact Hl1|]. eapply layout_of_ok; [apply Hl1|done].
Qed.

Lemma reg_step_leaves r r' : registry_ok r -> reg_step r r' -> leaves r r'.
Proof.
  intros Hr Hs. pose proof (ok_types r Hr) as Ht.
  destruct Hs as [inner r' p Hv Hs|element r' p Hv Hs|element r' p Hv Hs|element n r' p Hv Hs|element c r' p Hv Hc Hs
    |index r' p Hs|d args r' p Ha Hs|d args r' p Ha Hs|fuel type args r' q Hv Ha Hs|type r' fields Hs|fuel type r' b Hs
    |fuel type r' b Hs|fuel type r' b Hs|fuel type r' l Hs|type interface args r' b Ha Hs|decl Hf|fuel d r' q Hs
    |fuel name fields r' q Hf Hs|d decl fields Hd Hf].
  - eapply makes_leaves; [done|by apply ref_to_makes|exact Hs].
  - eapply makes_leaves; [done|by apply raw_of_makes|exact Hs].
  - eapply makes_leaves; [done|by apply slice_of_makes|exact Hs].
  - eapply makes_leaves; [done|by apply array_of_makes|exact Hs].
  - eapply makes_leaves; [done|by apply array_with_makes|exact Hs].
  - eapply makes_leaves; [done| |exact Hs]. apply param_makes; [done|]. unfold type_registry_param in Hs.
    destruct (Nat.ltb _ _) eqn:Hlt; [by apply Nat.ltb_lt|done].
  - by eapply instantiate_leaves.
  - by eapply apply_leaves.
  - apply keeps_leaves; [done|]. by eapply substitute_keeps.
  - apply keeps_leaves; [done|]. by eapply fields_of_keeps.
  - apply keeps_leaves; [done|]. by eapply owns_keeps.
  - apply keeps_leaves; [done|]. by eapply borrows_keeps.
  - apply keeps_leaves; [done|]. by eapply copies_keeps.
  - by eapply layout_of_ok.
  - assert (Hd : exists t, deref r type = Some t).
    { unfold type_registry_declare_conformance, type_registry_conforms_at_any in Hs. destruct (deref r type); [by eexists|done]. }
    destruct Hd as [t Hd]. destruct (declare_conformance_ok r type t interface args Hr Hd Ha) as (r1 & known & _ & Heq & Hl & _).
    rewrite Heq in Hs. by injection Hs as <- _.
  - by apply new_decl_leaves.
  - by eapply declare_leaves.
  - unfold type_registry_declare_struct in Hs. destruct name as [name|]; [|done]. cbn [new_decl] in Hs.
    set (decl := MkTypeDecl _ 0 fields) in *. pose proof (new_decl_leaves r decl Hr Hf) as Hl.
    eapply leaves_trans; [exact Hl|]. eapply declare_leaves; [apply Hl|exact Hs].
  - by apply give_fields_leaves.
Qed.

(** *** A new registry *)

Lemma new_table_represents {K V Q} `{Countable Q} (hash : K -> N) (norm : K -> Q) (ok : K -> Prop) (m : HashMap K V) :
  map_init TYPE_REGISTRY_INITIAL_CAPACITY = Some m -> represents hash norm ok m ∅.
Proof.
  intros Hm. destruct (map_init_represents (V := V) hash norm ok 2) as (m' & Hm' & Hrep).
  change (2 ^ 3) with TYPE_REGISTRY_INITIAL_CAPACITY in Hm'. rewrite Hm in Hm'. by injection Hm' as <-.
Qed.

Lemma empty_registry_tables r :
  (forall p t, reg_types r !! p = Some t -> kind_interned (ty_kind t) = false) ->
  map_init TYPE_REGISTRY_INITIAL_CAPACITY = Some (applications r) -> exists g, table_holds type_addr str_addr r g.
Proof.
  intros Hk Hm. exists ∅. split; [by apply new_table_represents|]. intros q p. rewrite lookup_empty. split; [done|].
  intros (t & Ht & Hi & _). by rewrite (Hk p t Ht) in Hi.
Qed.

(** What [type_registry_create] makes. *)
Definition new_table {K V} : HashMap K V := MkHashMap (replicate TYPE_REGISTRY_INITIAL_CAPACITY HASH_MAP_EMPTY) 0 0.

Definition builtin_type (i : nat) (kind : TypeKind) (name : StrPtr) : TypeData := MkType kind name (Some i) [] false None None 0.
Definition builtin_types (n : KnownNames) : list TypeData :=
  [builtin_type 0 TYPE_I32 (name_i32 n); builtin_type 1 TYPE_F32 (name_f32 n); builtin_type 2 TYPE_BOOL (name_boolean n);
   builtin_type 3 TYPE_U8 (name_u8 n); builtin_type 4 TYPE_USIZE (name_usize n); builtin_type 5 TYPE_STR (name_str n);
   builtin_type 6 TYPE_ERROR (name_error n)].
Definition builtin_decl (params : nat) (name : StrPtr) : TypeDecl := MkTypeDecl (MkDeclId None None name 0) params [].
Definition builtin_decls (n : KnownNames) : list TypeDecl :=
  [builtin_decl 0 (name_i32 n); builtin_decl 0 (name_f32 n); builtin_decl 0 (name_boolean n); builtin_decl 0 (name_u8 n);
   builtin_decl 0 (name_usize n); builtin_decl 0 (name_str n); builtin_decl 0 (name_error n);
   builtin_decl 1 (name_slice n); builtin_decl 2 (name_array n); builtin_decl 1 (name_raw n)].

Lemma type_registry_create_new n : exists i,
  type_registry_create n = Some (MkTypeRegistry (builtin_types n) (builtin_decls n) new_table new_table new_table
    [None; None; None; None]
    (MkTypePrimitives (Some 0) (Some 3) (Some 4) (Some 1) (Some 2) (Some 5) (Some 7) (Some 8) (Some 9) (Some 6)) n i).
Proof. by eexists. Qed.

Lemma type_registry_create_ok n : exists r, type_registry_create n = Some r /\ registry_ok r.
Proof.
  destruct (type_registry_create_new n) as [i ->]. eexists. split; [done|].
  assert (Hinit : forall K V, map_init (K := K) (V := V) TYPE_REGISTRY_INITIAL_CAPACITY = Some new_table) by done.
  split; [split| |]; cbn [reg_types reg_decls reg_params primitives].
  - intros p t Ht. each_entry p Ht; (split; [by constructor|done|by split|done]).
  - intros p t fields Ht Hs. each_entry p Ht; done.
  - apply empty_registry_tables; [|apply Hinit]. cbn [reg_types]. intros p t Ht. each_entry p Ht; done.
  - split; [done|]. intros j p Hj. do 4 (destruct j as [|j]; [done|]). done.
  - intros k p Hk. destruct k; try done; injection Hk as <-; eexists _, _; done.
  - split_and!; eexists _, _; done.
  - intros d decl Hd. each_entry d Hd; constructor.
  - exists ∅. split; [apply new_table_represents, Hinit|]. intros k k' [v Hv]. by rewrite lookup_empty in Hv.
  - exists ∅. split; [apply new_table_represents, Hinit|]. intros p l Hp. by rewrite lookup_empty in Hp.
Qed.

(** The registries a compilation may come to. *)
Definition reachable (r : TypeRegistry) : Prop :=
  exists n r0, type_registry_create n = Some r0 /\ rtc reg_step r0 r.

Lemma steps_leave r r' : registry_ok r -> rtc reg_step r r' -> leaves r r'.
Proof.
  intros Hr Hs. induction Hs as [r|r1 r2 r3 Hs _ IH]; [by apply leaves_refl|].
  pose proof (reg_step_leaves r1 r2 Hr Hs) as Hl. eapply leaves_trans; [exact Hl|]. apply IH, Hl.
Qed.

Lemma reachable_ok r : reachable r -> registry_ok r.
Proof.
  intros (n & r0 & Hc & Hs). destruct (type_registry_create_ok n) as (r1 & Hc1 & Hr). rewrite Hc in Hc1. injection Hc1 as <-.
  exact (lv_ok _ _ (steps_leave r0 r Hr Hs)).
Qed.

(** *** The calls that make a type *)

Inductive TypeCall :=
  | CallRef (inner : TypePtr)
  | CallRaw (element : TypePtr)
  | CallSlice (element : TypePtr)
  | CallArrayOf (element : TypePtr) (length : Z)
  | CallArrayWith (element : TypePtr) (length : TypeConst)
  | CallParam (index : nat)
  | CallInstantiate (decl : DeclPtr) (args : list TypeArg)
  | CallApply (decl : DeclPtr) (args : list TypePtr).

Definition run_type_call (r : TypeRegistry) (c : TypeCall) : option (TypeRegistry * nat) :=
  match c with
  | CallRef inner => type_registry_ref_to type_addr str_addr r inner
  | CallRaw element => type_registry_raw_of type_addr str_addr r element
  | CallSlice element => type_registry_slice_of type_addr str_addr r element
  | CallArrayOf element n => type_registry_array_of type_addr str_addr r element n
  | CallArrayWith element c => type_registry_array_with type_addr str_addr r element (TYPE_ARG_CONST c)
  | CallParam index => type_registry_param r index
  | CallInstantiate d args => type_registry_instantiate type_addr str_addr r d args
  | CallApply d args => type_registry_apply type_addr str_addr r d args
  end.

(** The call names types and declarations of the registry, and as many
    arguments as the declaration takes. *)
Definition type_call_ok (r : TypeRegistry) (c : TypeCall) : Prop :=
  match c with
  | CallRef p | CallRaw p | CallSlice p | CallArrayOf p _ => ptr_valid (reg_types r) p
  | CallArrayWith p c => ptr_valid (reg_types r) p /\ arg_valid (reg_types r) (TYPE_ARG_CONST c)
  | CallParam index => index < GAB_MAX_TYPE_PARAMS
  | CallInstantiate d args =>
      Forall (arg_valid (reg_types r)) args /\ exists decl, deref_decl r d = Some decl /\ length args = decl_param_count decl
  | CallApply d args =>
      Forall (ptr_valid (reg_types r)) args /\ length args <= GAB_MAX_TYPE_PARAMS /\
      exists decl, deref_decl r d = Some decl /\ length args = decl_param_count decl
  end.

(** The type the call asks for. *)
Definition type_call_term (r : TypeRegistry) (c : TypeCall) : Ty :=
  match c with
  | CallRef p => TRef (ty_of r p)
  | CallRaw p => TRaw (ty_of r p)
  | CallSlice p => TApp TYPE_SLICE (decl_id_at (reg_decls r) (slice_decl (primitives r))) [ty_of r p]
  | CallArrayOf p n => TApp TYPE_ARRAY (decl_id_at (reg_decls r) (array_decl (primitives r))) [ty_of r p; TConst (Some TYPE_I32) n]
  | CallArrayWith p c =>
      TApp TYPE_ARRAY (decl_id_at (reg_decls r) (array_decl (primitives r))) [ty_of r p; arg_ty r (TYPE_ARG_CONST c)]
  | CallParam index => TParam index
  | CallInstantiate d args => TApp TYPE_STRUCT (decl_id_at (reg_decls r) d) (arg_ty r <$> args)
  | CallApply d args => TApp TYPE_STRUCT (decl_id_at (reg_decls r) d) (ty_of r <$> args)
  end.

Lemma decl_id_at_deref r d decl : deref_decl r d = Some decl -> decl_id_at (reg_decls r) d = decl_id decl.
Proof. unfold deref_decl, decl_id_at. destruct d; cbn; [|done]. by intros ->. Qed.

Lemma type_call_makes r c :
  types_ok r -> type_call_ok r c -> makes type_addr str_addr r (run_type_call r c) (type_call_term r c).
Proof.
  intros Hr Hc. destruct c as [p|p|p|p n|p c|i|d args|d args]; cbn [type_call_ok run_type_call type_call_term] in *.
  - by apply ref_to_makes.
  - by apply raw_of_makes.
  - by apply slice_of_makes.
  - by apply array_of_makes.
  - destruct Hc. by apply array_with_makes.
  - by apply param_makes.
  - destruct Hc as (Ha & decl & Hd & Hl). rewrite (decl_id_at_deref r d decl Hd). by apply instantiate_makes.
  - destruct Hc as (Ha & Hle & decl & Hd & Hl). rewrite (decl_id_at_deref r d decl Hd). by apply apply_makes.
Qed.

Lemma type_call_step r c r' p :
  type_call_ok r c -> run_type_call r c = Some (r', p) -> reg_step r r'.
Proof.
  intros Hc Hrun. destruct c as [q|q|q|q n|q c|i|d args|d args]; cbn [type_call_ok run_type_call] in *.
  - by eapply step_ref.
  - by eapply step_raw.
  - by eapply step_slice.
  - by eapply step_array.
  - destruct Hc. by eapply step_array_with.
  - by eapply step_param.
  - destruct Hc. by eapply step_instantiate.
  - destruct Hc. by eapply step_apply.
Qed.

Lemma reachable_step r r' : reachable r -> reg_step r r' -> reachable r'.
Proof. intros (n & r0 & Hc & Hs) Hstep. exists n, r0. split; [done|]. by eapply rtc_r. Qed.

(** Substitution has fuel enough. *)
Lemma ptr_depth_fuel r p : ptr_valid (reg_types r) p -> ptr_depth p < substitute_fuel r.
Proof. destruct p; cbn; unfold substitute_fuel; lia. Qed.
End addresses.

(** ** The answers of a registry to the passes over the MIR *)

Section view.
Context (type_addr str_addr : nat -> N) (fuel : nat) (r : TypeRegistry).

Definition answer {A} (otherwise : A) (res : option (TypeRegistry * A)) : A :=
  match res with Some (_, a) => a | None => otherwise end.

(** [TypeView] of [Types.v], answered by a registry with fuel for [S fuel]
    nested types. *)
Definition registry_view : TypeView := {|
  tv_kind t := kind_at (reg_types r) t;
  tv_pointee t := type_pointee (deref r t);
  tv_field_count t := length (answer [] (type_registry_fields_of type_addr str_addr r t));
  tv_owns t := answer false (type_registry_owns type_addr str_addr (S fuel) r t);
  tv_borrows t := answer false (type_registry_borrows type_addr str_addr (S fuel) r t);
  tv_is_unique t := default false (type_registry_is_unique r t);
  tv_primitive k := default None (type_registry_get_primitive r k);
|}.

Lemma kind_at_deref t k : kind_at (reg_types r) t = Some k -> exists p u, t = Some p /\ reg_types r !! p = Some u /\ deref r t = Some u /\ ty_kind u = k.
Proof.
  unfold kind_at, deref. destruct t as [p|]; [|done]. cbn. destruct (reg_types r !! p) as [u|] eqn:Hu; [|done]. cbn.
  intros [= <-]. by exists p, u.
Qed.

(** The promises the passes rely on hold of every registry. *)
#[export] Instance registry_view_laws : TypeViewLaws registry_view.
Proof.
  split; cbn [registry_view tv_kind tv_pointee tv_field_count tv_owns tv_borrows]; try done.
  - intros t (p & u & -> & _ & Hd & Hk)%kind_at_deref. cbn [type_registry_borrows]. rewrite Hd. cbn. by rewrite Hk.
  - intros t (p & u & -> & _ & Hd & Hk)%kind_at_deref. cbn [type_registry_owns]. rewrite Hd. cbn. by rewrite Hk.
  - intros t (p & u & -> & _ & Hd & Hk)%kind_at_deref. cbn [type_registry_owns type_registry_borrows]. rewrite Hd. cbn. by rewrite Hk.
  - intros [p|] Hne; [|done]. unfold type_registry_fields_of. cbn in Hne. destruct (reg_types r !! p) as [u|]; [|done]. cbn in Hne |- *.
    by rewrite bool_decide_eq_false_2 by congruence.
  - intros t H1 H2. unfold type_pointee. destruct (deref r t) as [u|] eqn:Hd; [|done].
    assert (Hk : kind_at (reg_types r) t = Some (ty_kind u)).
    { unfold kind_at, deref in *. destruct t as [p|]; [|done]. cbn in *. by rewrite Hd. }
    destruct (ty_kind u); congruence.
Qed.
End view.

(** ** A small registry *)

(** Where the witnesses put the types and the strings. *)
Definition sample_addr (n : nat) : N := N.of_nat (8 * n).

Definition sample_names : KnownNames :=
  MkKnownNames (Some 1) (Some 2) (Some 3) (Some 4) (Some 5) (Some 6) (Some 7) (Some 8) (Some 9) (Some 10) (Some 11)
    (MkDeclId (Some 12) None (Some 13) 0) (Some 14) (Some 15) (Some 16) (Some 17) (Some 18) (Some 19) (Some 20).

Definition no_registry : TypeRegistry :=
  MkTypeRegistry [] [] new_table new_table new_table []
    (MkTypePrimitives None None None None None None None None None None) sample_names [].

Definition state_after {A} (res : option (TypeRegistry * A)) : TypeRegistry :=
  match res with Some (r, _) => r | None => no_registry end.

(** [struct Holder<T> { value: T }], then [Holder<T1>], [&Holder<T0>] seen from
    a declaration of two parameters. *)
Definition holder_id : DeclId := MkDeclId None None (Some 30) 0.
Definition sample_0 : TypeRegistry := Eval vm_compute in default no_registry (type_registry_create sample_names).
Definition sample_1 : TypeRegistry := Eval vm_compute in state_after (type_registry_param sample_0 0).
Definition sample_2 : TypeRegistry := Eval vm_compute in state_after (type_registry_param sample_1 1).
Definition sample_3 : TypeRegistry := Eval vm_compute in (new_decl sample_2 (MkTypeDecl holder_id 1 [MkTypeField (Some 31) (Some 7)])).1.
Definition sample_4 : TypeRegistry := Eval vm_compute in
  state_after (type_registry_instantiate sample_addr sample_addr sample_3 (Some 10) [TYPE_ARG_TYPE (Some 8)]).
Definition sample_5 : TypeRegistry := Eval vm_compute in
  state_after (type_registry_instantiate sample_addr sample_addr sample_4 (Some 10) [TYPE_ARG_TYPE (Some 7)]).
Definition sample_6 : TypeRegistry := Eval vm_compute in state_after (type_registry_ref_to sample_addr sample_addr sample_5 (Some 10)).

Definition sample_i32_t : TypePtr := Some 0.
Definition sample_f32_t : TypePtr := Some 1.
Definition holder_of_second : TypePtr := Some 9.
Definition ref_to_holder_of_first : TypePtr := Some 11.

Lemma sample_reachable : reachable sample_addr sample_addr sample_6.
Proof.
  exists sample_names, sample_0. split; [by vm_compute|].
  eapply rtc_l; [eapply (step_param _ _ sample_0 0 sample_1); by vm_compute|].
  eapply rtc_l; [eapply (step_param _ _ sample_1 1 sample_2); by vm_compute|].
  eapply rtc_l; [apply (step_new_decl _ _ sample_2 (MkTypeDecl holder_id 1 [MkTypeField (Some 31) (Some 7)])); repeat constructor; cbn; lia|].
  eapply rtc_l; [eapply (step_instantiate _ _ sample_3 (Some 10) [TYPE_ARG_TYPE (Some 8)] sample_4); [repeat constructor; cbn; lia|by vm_compute]|].
  eapply rtc_l; [eapply (step_instantiate _ _ sample_4 (Some 10) [TYPE_ARG_TYPE (Some 7)] sample_5); [repeat constructor; cbn; lia|by vm_compute]|].
  eapply rtc_l; [eapply (step_ref _ _ sample_5 (Some 10) sample_6); [cbn; lia|by vm_compute]|]. apply rtc_refl.
Qed.

(** [struct Node<T> { next: Node<T> }] and [Node<i32>]. *)
Definition node_id : DeclId := MkDeclId None None (Some 40) 0.
Definition node_decl : TypeDecl := MkTypeDecl node_id 1 [].
Definition node_1 : TypeRegistry := Eval vm_compute in (new_decl sample_1 node_decl).1.
Definition node_2 : TypeRegistry := Eval vm_compute in
  state_after (type_registry_instantiate sample_addr sample_addr node_1 (Some 10) [TYPE_ARG_TYPE (Some 7)]).
Definition node_3 : TypeRegistry := Eval vm_compute in
  with_decls node_2 (<[10 := MkTypeDecl node_id 1 [MkTypeField (Some 41) (Some 8)]]> (reg_decls node_2)).
Definition node_4 : TypeRegistry := Eval vm_compute in
  state_after (type_registry_instantiate sample_addr sample_addr node_3 (Some 10) [TYPE_ARG_TYPE (Some 0)]).
Definition node_of_i32 : TypePtr := Some 9.

Lemma node_reachable : reachable sample_addr sample_addr node_4.
Proof.
  exists sample_names, sample_0. split; [by vm_compute|].
  eapply rtc_l; [eapply (step_param _ _ sample_0 0 sample_1); by vm_compute|].
  eapply rtc_l; [apply (step_new_decl _ _ sample_1 node_decl); constructor|].
  eapply rtc_l; [eapply (step_instantiate _ _ node_1 (Some 10) [TYPE_ARG_TYPE (Some 7)] node_2); [repeat constructor; cbn; lia|by vm_compute]|].
  eapply rtc_l; [apply (step_give_fields _ _ node_2 10 node_decl [MkTypeField (Some 41) (Some 8)]); [done|repeat constructor; cbn; lia]|].
  eapply rtc_l; [eapply (step_instantiate _ _ node_3 (Some 10) [TYPE_ARG_TYPE (Some 0)] node_4); [repeat constructor; cbn; lia|by vm_compute]|].
  apply rtc_refl.
Qed.

(** The fields of [Node<i32>], once asked for: itself. *)
Definition node_5 : TypeRegistry := Eval vm_compute in state_after (type_registry_fields_of sample_addr sample_addr node_4 node_of_i32).

Lemma node_fields r : r = node_4 \/ r = node_5 ->
  type_registry_fields_of sample_addr sample_addr r node_of_i32 = Some (node_5, [MkTypeField (Some 41) node_of_i32]).
Proof. by intros [-> | ->]; vm_compute. Qed.

(** ** The properties *)

(** C35: A call that makes a type, with types and declarations of the registry,
    always returns; the pointer it returns is the type it asked for; no other
    pointer of the registry is that type, so comparing pointers compares types;
    and every type made before still is the type it was.  This is so after any
    sequence of the registry's operations. *)
Theorem one_pointer_per_type (type_addr str_addr : nat -> N) (r : TypeRegistry) (c : TypeCall) :
  reachable type_addr str_addr r -> type_call_ok r c ->
  exists r' p, run_type_call type_addr str_addr r c = Some (r', p) /\ reachable type_addr str_addr r' /\
    ptr_valid (reg_types r') (Some p) /\ ty_of r' (Some p) = type_call_term r c /\
    (forall q, ptr_valid (reg_types r') q -> ty_of r' q = type_call_term r c -> q = Some p) /\
    (forall q, ptr_valid (reg_types r) q -> ty_of r' q = ty_of r q).
Proof.
  intros Hr Hc. pose proof (ok_types _ _ _ (reachable_ok _ _ r Hr)) as Ht.
  destruct (type_call_makes _ _ r c Ht Hc) as (r' & p & Hrun & Hk & Hp & Hty). exists r', p. split; [done|].
  split; [eapply reachable_step; [exact Hr|by eapply type_call_step]|]. split; [done|]. split; [done|]. split.
  - intros q Hq Heq. eapply ty_of_inj; [apply Hk|done|done|congruence].
  - intros q Hq. apply (ty_of_grows type_addr str_addr r Ht); [apply Hk|done].
Qed.

Lemma one_pointer_per_type_witness :
  type_call_ok sample_6 (CallInstantiate (Some 10) [TYPE_ARG_TYPE sample_i32_t]) /\
  exists r' p, run_type_call sample_addr sample_addr sample_6 (CallInstantiate (Some 10) [TYPE_ARG_TYPE sample_i32_t]) = Some (r', p) /\
    ty_of r' (Some p) = TApp TYPE_STRUCT holder_id [TBuiltin TYPE_I32].
Proof.
  assert (Hc : type_call_ok sample_6 (CallInstantiate (Some 10) [TYPE_ARG_TYPE sample_i32_t])).
  { split; [repeat constructor; cbn; lia|]. by eexists. }
  split; [exact Hc|].
  destruct (one_pointer_per_type sample_addr sample_addr sample_6 _ sample_reachable Hc) as (r' & p & H1 & _ & _ & H2 & _).
  exists r', p. split; [exact H1|]. rewrite H2. reflexivity.
Defined.

(** C36: Substituting arguments into a type returns the type with each parameter
    replaced by the argument of its index, when every parameter is given an
    argument of its sort and the structs in the type that mention a parameter
    are applied to the parameters of the place they are written in. *)
Theorem substitution_replaces_parameters (type_addr str_addr : nat -> N) (r : TypeRegistry) (p : TypePtr) (args : list TypeArg) :
  reachable type_addr str_addr r -> ptr_valid (reg_types r) p -> Forall (arg_valid (reg_types r)) args ->
  own_params (ty_of r p) = true -> fits args (ty_of r p) = true ->
  exists r' q, type_registry_substitute type_addr str_addr (substitute_fuel r) r p args = Some (r', q) /\
    reachable type_addr str_addr r' /\ ptr_valid (reg_types r') q /\
    ty_of r' q = subst_ty (arg_ty r <$> args) (ty_of r p).
Proof.
  intros Hr Hp Ha Ho Hf. pose proof (ok_types _ _ _ (reachable_ok _ _ r Hr)) as Ht.
  destruct (substitute_returns _ _ (substitute_fuel r) r p args Ht Hp Ha (ptr_depth_fuel r p Hp) Ho Hf) as (r' & q & Hs & _ & Hq & Hty).
  exists r', q. split; [done|]. split; [eapply reachable_step; [exact Hr|by eapply step_substitute]|done].
Qed.

Lemma substitution_replaces_parameters_witness :
  ty_of sample_6 ref_to_holder_of_first = TRef (TApp TYPE_STRUCT holder_id [TParam 0]) /\
  exists r' q, type_registry_substitute sample_addr sample_addr (substitute_fuel sample_6) sample_6 ref_to_holder_of_first
      [TYPE_ARG_TYPE sample_i32_t; TYPE_ARG_TYPE sample_f32_t] = Some (r', q) /\
    ty_of r' q = TRef (TApp TYPE_STRUCT holder_id [TBuiltin TYPE_I32]).
Proof.
  split; [reflexivity|].
  destruct (substitution_replaces_parameters sample_addr sample_addr sample_6 ref_to_holder_of_first
    [TYPE_ARG_TYPE sample_i32_t; TYPE_ARG_TYPE sample_f32_t] sample_reachable) as (r' & q & H1 & _ & _ & H2).
  - vm_compute. lia.
  - repeat constructor; vm_compute; lia.
  - reflexivity.
  - reflexivity.
  - exists r', q. split; [exact H1|]. rewrite H2. reflexivity.
Defined.

(** A struct applied to another parameter than the first of its place is not
    substituted: [Holder<T1>] at [i32, f32] becomes [Holder<i32>], since the
    declaration is instantiated at the arguments of the place and not at its
    own arguments with the parameters replaced. *)
Theorem struct_arguments_are_positional :
  exists r' q, type_registry_substitute sample_addr sample_addr (substitute_fuel sample_6) sample_6 holder_of_second
      [TYPE_ARG_TYPE sample_i32_t; TYPE_ARG_TYPE sample_f32_t] = Some (r', q) /\
    ty_of sample_6 holder_of_second = TApp TYPE_STRUCT holder_id [TParam 1] /\
    subst_ty (arg_ty sample_6 <$> [TYPE_ARG_TYPE sample_i32_t; TYPE_ARG_TYPE sample_f32_t]) (ty_of sample_6 holder_of_second) =
      TApp TYPE_STRUCT holder_id [TBuiltin TYPE_F32] /\
    ty_of r' q = TApp TYPE_STRUCT holder_id [TBuiltin TYPE_I32].
Proof. eexists _, _. split; [vm_compute; reflexivity|]. split; [reflexivity|]. split; reflexivity. Qed.

(** C37: The layout of a struct is made from those of its fields, each of which
    has a size that is a multiple of its alignment; the struct has one too.
    When the sizes do not overflow a [size_t], every field is aligned, no two
    fields overlap and all lie within the struct. *)
Theorem struct_fields_are_laid_out_apart (type_addr str_addr : nat -> N) (fuel : nat) (r : TypeRegistry) (p : nat)
    (t : TypeData) (r' : TypeRegistry) (l : TypeLayout) :
  reachable type_addr str_addr r -> reg_types r !! p = Some t -> ty_kind t = TYPE_STRUCT ->
  map_lookup (layout_key_hash type_addr) Nat.eqb (layouts r) p = Some None ->
  type_registry_layout_of type_addr str_addr (S fuel) r (Some p) = Some (r', l) ->
  exists r1 fields r2 ls, type_registry_fields_of type_addr str_addr r (Some p) = Some (r1, fields) /\
    layouts_of (type_registry_layout_of type_addr str_addr fuel) r1 fields = Some (r2, ls) /\
    Forall aligned_layout ls /\ aligned_layout l /\
    ((room_for ls + 8 < 2 ^ 64)%Z ->
       length (layout_offsets l) = length ls /\
       (forall i o f, layout_offsets l !! i = Some o -> ls !! i = Some f ->
          (0 <= o /\ o mod layout_alignment f = 0 /\ o + layout_size f <= layout_size l)%Z) /\
       (forall i j o o' f, i < j -> layout_offsets l !! i = Some o -> layout_offsets l !! j = Some o' -> ls !! i = Some f ->
          (o + layout_size f <= o')%Z)).
Proof.
  intros Hr Ht Hk Hm. pose proof (reachable_ok _ _ r Hr) as Hok. intros Hl.
  pose proof (layout_of_ok _ _ _ _ _ _ _ Hok Hl) as [_ Hal]. cbn [type_registry_layout_of] in Hl.
  rewrite Hm in Hl. cbn [mbind option_bind] in Hl. rewrite Ht in Hl. cbn [mbind option_bind] in Hl. unfold compute_layout in Hl.
  rewrite Hk in Hl. cbn [layout_of_scalar] in Hl.
  destruct (type_registry_fields_of _ _ r (Some p)) as [[r1 fields]|] eqn:Hf; [|done]. cbn [mbind option_bind] in Hl.
  destruct (fields_of_keeps _ _ r _ r1 fields (ok_types _ _ _ Hok) Hf) as [Hk1 _]. apply (keeps_leaves _ _ _ _ Hok) in Hk1.
  destruct (layouts_of _ r1 fields) as [[r2 ls]|] eqn:Hls; [|done]. cbn [mbind option_bind] in Hl.
  destruct (layouts_of_ok _ _ _ (layout_of_ok _ _ fuel) fields r1 r2 ls (lv_ok _ _ _ _ Hk1) Hls) as [_ Hals].
  destruct (map_insert _ _ (layouts r2) p _) as [[m b]|]; [|done]. cbn [mbind option_bind] in Hl. injection Hl as _ <-.
  exists r1, fields, r2, ls. split; [done|]. split; [done|]. split; [done|]. split; [done|]. intros Hroom.
  destruct (layout_of_layouts_placed ls Hals Hroom) as (offset & (H1 & _ & _ & _ & H2 & H3) & _ & H4 & _).
  split; [done|]. split; [|done]. intros i o f Hi Hfi. destruct (H2 i o f Hi Hfi) as (? & ? & ?). split_and!; [done|done|lia].
Qed.

(** [struct Pair { first: u8, second: i32 }] declared. *)
Definition pair_declared : option (TypeRegistry * TypePtr) :=
  type_registry_declare_struct sample_addr sample_addr 3 sample_6 (Some 50) [MkTypeField (Some 51) (Some 3); MkTypeField (Some 52) (Some 0)].
Definition pair_decl : TypeDecl :=
  MkTypeDecl (MkDeclId None None (Some 50) 0) 0 [MkTypeField (Some 51) (Some 3); MkTypeField (Some 52) (Some 0)].
Definition pair_1 : TypeRegistry := Eval vm_compute in (new_decl sample_6 pair_decl).1.
Definition pair_2 : TypeRegistry := Eval vm_compute in state_after (type_registry_apply sample_addr sample_addr pair_1 (Some 11) []).
Definition pair_type : nat := 12.

Lemma pair_reachable : reachable sample_addr sample_addr pair_2.
Proof.
  eapply reachable_step; [eapply reachable_step; [exact sample_reachable|]|].
  - apply (step_new_decl _ _ sample_6 pair_decl). repeat constructor; cbn; lia.
  - eapply (step_apply _ _ pair_1 (Some 11) [] pair_2); [constructor|by vm_compute].
Qed.

Lemma struct_fields_are_laid_out_apart_witness :
  exists r' l, type_registry_layout_of sample_addr sample_addr 2 pair_2 (Some pair_type) = Some (r', l) /\
    layout_size l = 8%Z /\ layout_offsets l = [0; 4]%Z /\ aligned_layout l.
Proof.
  destruct (type_registry_layout_of sample_addr sample_addr 2 pair_2 (Some pair_type)) as [[r' l]|] eqn:Hl; [|vm_compute in Hl; discriminate Hl].
  pose proof Hl as Hl'. vm_compute in Hl'. injection Hl' as _ Hv. subst l. exists r'. eexists. split; [reflexivity|].
  split; [reflexivity|]. split; [reflexivity|].
  edestruct (struct_fields_are_laid_out_apart sample_addr sample_addr 1 pair_2 pair_type _ r' _ pair_reachable eq_refl eq_refl eq_refl Hl)
    as (r1 & fields & r2 & ls & _ & _ & _ & Ha & _). exact Ha.
Defined.

(** C38: A type is declared to conform to an interface once: the declaration is
    refused, and changes nothing, when the type already conforms to it at any
    arguments; and at no time does a type conform to one interface at two
    different lists of arguments. *)
Theorem one_conformance_per_interface (type_addr str_addr : nat -> N) (r : TypeRegistry) (type : TypePtr) (t : TypeData)
    (interface : DeclId) (args : list TypeArg) :
  reachable type_addr str_addr r -> deref r type = Some t -> Forall (arg_valid (reg_types r)) args ->
  exists r' known, type_registry_conforms_at_any r type interface = Some known /\
    type_registry_declare_conformance type_addr str_addr r type interface args = Some (r', negb known) /\
    reachable type_addr str_addr r' /\ (known = true -> r' = r) /\
    (known = false -> type_registry_conforms type_addr str_addr r' type interface args = Some true) /\
    (forall args1 args2, Forall (arg_valid (reg_types r')) args1 -> Forall (arg_valid (reg_types r')) args2 ->
       type_registry_conforms type_addr str_addr r' type interface args1 = Some true ->
       type_registry_conforms type_addr str_addr r' type interface args2 = Some true ->
       arg_norm <$> take GAB_MAX_TYPE_PARAMS args1 = arg_norm <$> take GAB_MAX_TYPE_PARAMS args2).
Proof.
  intros Hr Ht Ha. pose proof (reachable_ok _ _ r Hr) as Hok.
  destruct (declare_conformance_ok _ _ r type t interface args Hok Ht Ha) as (r' & known & H1 & H2 & Hl & Hty & _ & H3 & H4).
  exists r', known. split; [done|]. split; [done|]. split; [eapply reachable_step; [exact Hr|by eapply step_conform]|].
  split; [done|]. split; [done|]. intros args1 args2 Ha1 Ha2.
  destruct (ok_conformances _ _ _ (lv_ok _ _ _ _ Hl)) as [g Hg].
  assert (Ht' : deref r' type = Some t) by (unfold deref in *; by rewrite Hty).
  rewrite (conforms_lookup _ _ r' g t type interface args1 Hg Ht' Ha1), (conforms_lookup _ _ r' g t type interface args2 Hg Ht' Ha2).
  intros [= Hk1%bool_decide_eq_true] [= Hk2%bool_decide_eq_true].
  pose proof (proj2 Hg _ _ Hk1 Hk2 eq_refl eq_refl) as Heq. apply pair_eq in Heq as [_ Heq]. by apply pair_eq in Heq as [_ Heq].
Qed.

Lemma one_conformance_per_interface_witness :
  exists r' known, type_registry_declare_conformance sample_addr sample_addr sample_6 sample_i32_t (MkDeclId None None (Some 60) 0)
      [TYPE_ARG_TYPE sample_f32_t] = Some (r', negb known) /\ known = false /\
    type_registry_conforms sample_addr sample_addr r' sample_i32_t (MkDeclId None None (Some 60) 0) [TYPE_ARG_TYPE sample_f32_t] = Some true.
Proof.
  destruct (one_conformance_per_interface sample_addr sample_addr sample_6 sample_i32_t (builtin_type 0 TYPE_I32 (Some 1))
    (MkDeclId None None (Some 60) 0) [TYPE_ARG_TYPE sample_f32_t] sample_reachable) as (r' & known & H1 & H2 & _ & _ & H4 & _).
  - reflexivity.
  - repeat constructor; vm_compute; lia.
  - vm_compute in H1. injection H1 as <-. exists r', false. split; [exact H2|]. split; [reflexivity|]. apply H4. reflexivity.
Defined.

(** The questions a compilation asks of a type recurse over its fields, and
    a generic struct may hold itself by value: for [Node<i32>] of
    [struct Node<T> { next: Node<T> }] neither its layout nor whether it owns is
    ever answered, at any depth of recursion. *)
Theorem generic_cycle_is_never_answered :
  reachable sample_addr sample_addr node_4 /\ ty_of node_4 node_of_i32 = TApp TYPE_STRUCT node_id [TBuiltin TYPE_I32] /\
  (forall fuel, type_registry_layout_of sample_addr sample_addr fuel node_4 node_of_i32 = None) /\
  (forall fuel, type_registry_owns sample_addr sample_addr fuel node_4 node_of_i32 = None) /\
  (forall fuel, type_registry_borrows sample_addr sample_addr fuel node_4 node_of_i32 = None).
Proof.
  split; [exact node_reachable|]. split; [reflexivity|].
  assert (Hat : forall r, r = node_4 \/ r = node_5 -> exists t, reg_types r !! 9 = Some t /\ deref r node_of_i32 = Some t /\ ty_kind t = TYPE_STRUCT /\
    map_lookup (layout_key_hash sample_addr) Nat.eqb (layouts r) 9 = Some None /\
    ends_itself sample_addr sample_addr r node_of_i32 = Some false).
  { intros r [-> | ->]; eexists; (split; [reflexivity|]); (split; [reflexivity|]); (split; [reflexivity|]); by vm_compute. }
  split; [|split]; intros fuel; enough (H : forall r, r = node_4 \/ r = node_5 -> _ sample_addr sample_addr fuel r node_of_i32 = None)
    by (by apply H; left); induction fuel as [|fuel IH]; intros r Hr; try done; destruct (Hat r Hr) as (t & Ht & Hd & Hk & Hm & He).
  - cbn [type_registry_layout_of node_of_i32]. rewrite Hm. cbn [mbind option_bind]. rewrite Ht. cbn [mbind option_bind].
    unfold compute_layout. rewrite Hk. cbn [layout_of_scalar]. fold node_of_i32. rewrite (node_fields r Hr). cbn [mbind option_bind layouts_of field_type].
    by rewrite (IH node_5 (or_intror eq_refl)).
  - cbn [type_registry_owns node_of_i32]. rewrite Hd. cbn [mbind option_bind]. rewrite Hk, He. cbn [mbind option_bind]. rewrite (node_fields r Hr). cbn [mbind option_bind fields_until field_type].
    by rewrite (IH node_5 (or_intror eq_refl)).
  - cbn [type_registry_borrows node_of_i32]. rewrite Hd. cbn [mbind option_bind]. rewrite Hk, (node_fields r Hr). cbn [mbind option_bind fields_until field_type].
    by rewrite (IH node_5 (or_intror eq_refl)).
Qed.
