(* ===== verification/Containers.v ===== *)
(** * Containers: what an index goes into

    A container is reached through references; [mir_indexed_container] of
    [src/src/mir/mir.c] follows them.  In a registry in order it ends, at a type
    that depends on the meaning of the one it starts from only. *)

From S2P Require Import Prelude Types Mir Registry RegistryTypes RegistryState.

(** The container an index goes into: what the references lead to. *)
Fixpoint indexed_ty (T : Ty) : Ty := match T with TRef T => indexed_ty T | T => T end.

Definition is_container (T : Ty) : Prop :=
  match T with TApp TYPE_SLICE _ _ | TApp TYPE_ARRAY _ _ => True | _ => False end.

#[export] Instance is_container_dec T : Decision (is_container T).
Proof. unfold is_container. destruct T as [| | | | |k d ts| |]; try exact False_dec. destruct k; first [exact True_dec|exact False_dec]. Defined.

Definition element_ty (T : Ty) : Ty := match T with TApp _ _ (e :: _) => e | _ => TNull end.

Section registry.
Context (type_addr str_addr : nat -> N) (r : TypeRegistry) (Hr : types_ok type_addr str_addr r).

Lemma ty_of_ref p : kind_at (reg_types r) p = Some TYPE_REF ->
  ptr_valid (reg_types r) (type_pointee (deref r p)) /\
  ptr_depth (type_pointee (deref r p)) < ptr_depth p /\
  ty_of r p = TRef (ty_of r (type_pointee (deref r p))).
Proof.
  intros Hk. destruct (kind_at_deref _ _ _ Hk) as (n & t & -> & Hn & -> & Hkt).
  unfold type_pointee. rewrite Hkt. split; [by eapply pointee_valid|]. split.
  - pose proof (to_below _ _ _ (ok_type _ _ _ Hr n t Hn)) as Hb. unfold type_pointers in Hb. destruct (ty_pointee t) as [q|]; cbn; [|lia].
    apply Forall_app in Hb as [Hb _]. inversion Hb; subst. lia.
  - rewrite (ty_of_lookup type_addr str_addr _ Hr n t Hn). unfold type_meaning. by rewrite Hkt.
Qed.

Lemma ty_not_ref p : kind_at (reg_types r) p <> Some TYPE_REF -> forall T, ty_of r p <> TRef T.
Proof.
  intros Hk T Hty. destruct p as [n|]; [|done].
  destruct (reg_types r !! n) as [t|] eqn:Hn; [|unfold ty_of in Hty; cbn in Hty; by rewrite Hn in Hty].
  rewrite (ty_of_lookup type_addr str_addr _ Hr n t Hn) in Hty. unfold type_meaning in Hty. apply Hk. unfold kind_at. cbn. rewrite Hn. cbn.
  destruct (ty_kind t); done.
Qed.

Lemma indexed_container fuel : forall p, ptr_valid (reg_types r) p -> ptr_depth p <= fuel ->
  exists c, mir_indexed_container (TV := registry_view type_addr str_addr 0 r) fuel p = Some c /\
    ptr_valid (reg_types r) c /\ ty_of r c = indexed_ty (ty_of r p).
Proof.
  induction fuel as [|fuel IH]; intros p Hp Hf; cbn [mir_indexed_container]; unfold tv_is_indirect; cbn [tv_kind registry_view].
  { destruct p; cbn in Hf; [lia|]. by exists None. }
  case_bool_decide as Hk.
  - destruct (ty_of_ref p Hk) as (Hv & Hd & ->). cbn [indexed_ty tv_pointee registry_view]. apply IH; [done|lia].
  - exists p. split; [done|]. split; [done|]. pose proof (ty_not_ref p Hk) as Hno. destruct (ty_of _ p); try done. by specialize (Hno t).
Qed.

Lemma container_element c : is_container (ty_of r c) ->
  exists t e, deref r c = Some t /\ kind_at (reg_types r) c = Some (ty_kind t) /\
    (if bool_decide (ty_kind t = TYPE_SLICE) then type_slice_element (Some t) else type_array_element (Some t)) = Some e /\
    ptr_valid (reg_types r) e /\ ty_of r e = element_ty (ty_of r c) /\
    (ty_kind t = TYPE_SLICE <-> match ty_of r c with TApp TYPE_SLICE _ _ => True | _ => False end).
Proof.
  intros Hc. destruct c as [n|]; [|done].
  destruct (reg_types r !! n) as [t|] eqn:Hn; [|unfold ty_of in Hc; cbn in Hc; by rewrite Hn in Hc].
  rewrite (ty_of_lookup type_addr str_addr _ Hr n t Hn) in *. unfold type_meaning in *. exists t.
  unfold deref, kind_at. cbn. rewrite Hn. cbn.
  destruct (ty_kind t) eqn:Hk; try done.
  - destruct (array_shape type_addr str_addr _ n t Hr Hn Hk) as (e & c & _ & Ha & He & _). exists e. rewrite Ha.
    repeat (split; [done|]). done.
  - destruct (slice_shape type_addr str_addr _ n t Hr Hn Hk) as (e & _ & Ha & He). exists e. rewrite Ha.
    repeat (split; [done|]). done.
Qed.
End registry.
