(* ===== verification/Functions.v ===== *)
(** * Functions: the functions of a program and their instances

    [src/src/function_registry.c], and of [src/src/scope.c] the signature of an
    instance and the identity of a function.

    Every [Function] of a program is made by [function_registry_instance]: the
    heap they lie in is part of the registry, and a [Function *] is an index
    into it.  The registry of types it makes them with is threaded through.
    [None] is a failed [assert], the dereference of a null pointer, or a
    substitution that the registry of types refuses. *)

From S2P Require Import Prelude Types Decl HashMap Registry RegistryTypes RegistryState.

Section addresses.
Context (type_addr str_addr : nat -> N).
#[local] Abbreviation substitute r := (type_registry_substitute type_addr str_addr (substitute_fuel r) r).

(** ** Signatures *)

(** The loop over the parameters. *)
Fixpoint substitute_params (r : TypeRegistry) (params : list TypePtr) (args : list TypeArg) :
    option (TypeRegistry * list TypePtr) :=
  match params with
  | [] => Some (r, [])
  | type :: params =>
      '(r, type) ← substitute r type args;
      '(r, params) ← substitute_params r params args;
      Some (r, type :: params)
  end.

Definition func_signature_instantiate (r : TypeRegistry) (generic : FuncSignature) (args : list TypeArg) :
    option (TypeRegistry * FuncSignature) :=
  if Nat.eqb (length args) 0 then Some (r, generic)
  else
    '(r, ret) ← substitute r (return_type generic) args;
    '(r, params) ← substitute_params r (sig_params generic) args;
    Some (r, MkFuncSignature ret params).

Definition instance_id_of_function (function : option Function) : InstanceId :=
  match function with
  | None => MkInstanceId decl_id_zero []
  | Some f => instance_id_of (func_id (fn_decl f)) (fn_type_args f)
  end.

(** Of [src/src/ast/pending.c]. *)
Definition type_args_are_concrete (r : TypeRegistry) (args : list TypeArg) : bool :=
  forallb (fun arg => match arg with TYPE_ARG_TYPE type => negb (has_param_at r type) | TYPE_ARG_CONST _ => negb (arg_is_const_param arg) end) args.

(** ** The registry *)

Definition FUNCTION_REGISTRY_INITIAL_CAPACITY : nat := 8.

Record FunctionRegistry := MkFunctionRegistry {
  reg_functions : list Function;
  instances : HashMap InstanceId nat;
  owned : HashMap TypeMemberKey nat;
}.

Definition instance_key_hash (r : TypeRegistry) : InstanceId -> N := instance_id_hash type_addr str_addr (reg_types r).
Definition instance_key_equals (r : TypeRegistry) : InstanceId -> InstanceId -> bool := instance_id_equals (reg_types r).

Definition owned_key_hash (key : TypeMemberKey) : N :=
  N.lxor (to_size (decl_id_hash str_addr (member_owner key) * 31)) (address str_addr (member_name key)).
Definition owned_key_equals (key other : TypeMemberKey) : bool :=
  decl_id_equals (member_owner key) (member_owner other) && bool_decide (member_name key = member_name other).

Definition function_registry_create : option FunctionRegistry :=
  i ← map_init FUNCTION_REGISTRY_INITIAL_CAPACITY;
  o ← map_init FUNCTION_REGISTRY_INITIAL_CAPACITY;
  Some (MkFunctionRegistry [] i o).

Definition function_at (fr : FunctionRegistry) (p : FuncPtr) : option Function := n ← p; reg_functions fr !! n.

(** [type] and [function] are not null, and the function has a name. *)
Definition function_registry_declare_owned (r : TypeRegistry) (fr : FunctionRegistry) (type : TypePtr) (function : FuncPtr) :
    option (FunctionRegistry * bool) :=
  t ← deref r type;
  p ← function;
  f ← reg_functions fr !! p;
  match id_name (func_id (fn_decl f)) with
  | None => None
  | Some name =>
      let key := type_member_key_of (reg_decls r) t (Some name) in
      found ← map_lookup owned_key_hash owned_key_equals (owned fr) key;
      match found with
      | Some _ => Some (fr, false)
      | None =>
          '(o, _) ← map_insert owned_key_hash owned_key_equals (owned fr) key p;
          Some (MkFunctionRegistry (reg_functions fr) (instances fr) o, true)
      end
  end.

Definition function_registry_find_owned (r : TypeRegistry) (fr : FunctionRegistry) (type : TypePtr) (name : StrPtr) :
    option FuncPtr :=
  match type with
  | None => Some None
  | Some _ =>
      t ← deref r type;
      map_lookup owned_key_hash owned_key_equals (owned fr) (type_member_key_of (reg_decls r) t name)
  end.

Definition function_registry_owned_is_shared (r : TypeRegistry) (declaration : Function) (t : TypeData) : bool :=
  if Nat.eqb (type_arg_count t) 0 then true
  else if existsb (has_param_at r) (sig_params (fn_signature declaration)) then false
  else negb (has_param_at r (return_type (fn_signature declaration))).

Definition function_registry_destructor (r : TypeRegistry) (fr : FunctionRegistry) (type : TypePtr) : option FuncPtr :=
  conforms ← type_registry_conforms type_addr str_addr r type (destroy_interface (names r)) [];
  if negb conforms then Some None
  else function_registry_find_owned r fr type (destroy_method (names r)).

Definition function_registry_instance (r : TypeRegistry) (fr : FunctionRegistry) (decl : FuncDecl) (args : list TypeArg) :
    option (TypeRegistry * FunctionRegistry * nat) :=
  let key := instance_id_of (func_id decl) args in
  cached ← map_lookup (instance_key_hash r) (instance_key_equals r) (instances fr) key;
  match cached with
  | Some p => Some (r, fr, p)
  | None =>
      '(r, signature) ← func_signature_instantiate r (func_signature decl) args;
      let p := length (reg_functions fr) in
      '(m, _) ← map_insert (instance_key_hash r) (instance_key_equals r) (instances fr) key p;
      Some (r, MkFunctionRegistry (reg_functions fr ++ [MkFunc decl signature args 0 false]) m (owned fr), p)
  end.

Definition function_registry_owned_for (r : TypeRegistry) (fr : FunctionRegistry) (type : TypePtr) (name : StrPtr) :
    option (TypeRegistry * FunctionRegistry * FuncPtr) :=
  declaration ← function_registry_find_owned r fr type name;
  match declaration with
  | None => Some (r, fr, None)
  | Some p =>
      f ← reg_functions fr !! p;
      t ← deref r type;
      if function_registry_owned_is_shared r f t then Some (r, fr, declaration)
      else if Nat.ltb (type_arg_count t) (type_param_count (fn_decl f)) then Some (r, fr, declaration)
      else '(r, fr, p) ← function_registry_instance r fr (fn_decl f) (ty_args t); Some (r, fr, Some p)
  end.

(** The borrow checker's note of what a function's result borrows. *)
Definition set_borrowed_params (fr : FunctionRegistry) (p : nat) (bits : N) : FunctionRegistry :=
  MkFunctionRegistry (alter (fun f => with_borrowed_params f bits) p (reg_functions fr)) (instances fr) (owned fr).

(** ** The invariant *)

#[local] Abbreviation leaves := (leaves type_addr str_addr).
#[local] Abbreviation registry_ok := (registry_ok type_addr str_addr).
#[local] Abbreviation types_ok := (types_ok type_addr str_addr).

(** What a signature says: the terms of its types. *)
Definition signature_types (s : FuncSignature) : list TypePtr := return_type s :: sig_params s.
Definition signature_ty (r : TypeRegistry) (s : FuncSignature) : list Ty := ty_of r <$> signature_types s.

(** A declaration's signature at some arguments; at none it is the declaration's own. *)
Definition signature_at (args : list Ty) (sig : list Ty) : list Ty :=
  match args with [] => sig | _ => subst_ty args <$> sig end.

Definition function_norm (f : Function) : InstNorm := inst_norm (instance_id_of_function (Some f)).

Definition member_norm (key : TypeMemberKey) : IdNorm * StrPtr := (id_norm (member_owner key), member_name key).

(** A signature the registry can substitute in: its types are the registry's,
    and its structs are applied to the parameters of their place. *)
Definition signature_ok (r : TypeRegistry) (s : FuncSignature) : Prop :=
  Forall (ptr_valid (reg_types r)) (signature_types s) /\ Forall (fun T => own_params T = true) (signature_ty r s).

Definition args_ok (r : TypeRegistry) (args : list TypeArg) : Prop :=
  Forall (arg_valid (reg_types r)) args /\ length args <= GAB_MAX_TYPE_PARAMS.

(** A function of the registry: its declaration's signature at its arguments. *)
Record function_ok (r : TypeRegistry) (f : Function) : Prop := {
  fo_decl : signature_ok r (func_signature (fn_decl f));
  fo_args : args_ok r (fn_type_args f);
  fo_fits : fn_type_args f <> [] -> Forall (fun T => fits (fn_type_args f) T = true) (signature_ty r (func_signature (fn_decl f)));
  fo_valid : Forall (ptr_valid (reg_types r)) (signature_types (fn_signature f));
  fo_signature : signature_ty r (fn_signature f) =
    signature_at (arg_ty r <$> fn_type_args f) (signature_ty r (func_signature (fn_decl f)));
}.

Definition instances_hold (r : TypeRegistry) (fr : FunctionRegistry) (g : gmap InstNorm nat) : Prop :=
  represents (instance_key_hash r) inst_norm (inst_valid (reg_types r)) (instances fr) g /\
  forall q p, g !! q = Some p <-> exists f, reg_functions fr !! p = Some f /\ function_norm f = q.

Definition owned_hold (fr : FunctionRegistry) (g : gmap (IdNorm * StrPtr) nat) : Prop :=
  represents owned_key_hash member_norm (fun _ => True) (owned fr) g /\
  forall q p, g !! q = Some p -> exists f, reg_functions fr !! p = Some f /\ id_name (func_id (fn_decl f)) = q.2.

Record functions_ok (r : TypeRegistry) (fr : FunctionRegistry) : Prop := {
  fn_functions : forall p f, reg_functions fr !! p = Some f -> function_ok r f;
  fn_instances : exists g, instances_hold r fr g;
  fn_owned : exists g, owned_hold fr g;
}.

(** What an operation leaves of the functions made before it: all but the note
    the borrow checker writes. *)
Definition function_core (f : Function) : FuncDecl * FuncSignature * list TypeArg := (fn_decl f, fn_signature f, fn_type_args f).
Definition functions_grow (fr fr' : FunctionRegistry) : Prop :=
  forall p f, reg_functions fr !! p = Some f -> exists f', reg_functions fr' !! p = Some f' /\ function_core f' = function_core f.

#[export] Instance functions_grow_preorder : PreOrder functions_grow.
Proof.
  split; [by intros fr p f Hf; exists f|]. intros fr1 fr2 fr3 H1 H2 p f Hf.
  destruct (H1 p f Hf) as (f' & Hf' & Hc). destruct (H2 p f' Hf') as (f'' & Hf'' & Hc'). exists f''. split; [done|congruence].
Qed.

Lemma owned_key_equals_spec k k' : True -> True -> owned_key_equals k k' = true <-> member_norm k = member_norm k'.
Proof.
  intros _ _. unfold owned_key_equals, member_norm. rewrite andb_true_iff, decl_id_equals_spec, bool_decide_eq_true.
  split; [by intros [-> ->]|]. by intros [->%id_norm_inj ->]%pair_eq.
Qed.

Lemma owned_key_hash_norm k k' : True -> True -> member_norm k = member_norm k' -> owned_key_hash k = owned_key_hash k'.
Proof. intros _ _ [H1%id_norm_inj H2]%pair_eq. unfold owned_key_hash. by rewrite H1, H2. Qed.

(** *** As the registry of types grows *)

Lemma args_valid_grows r r' args : grows r r' -> Forall (arg_valid (reg_types r)) args -> Forall (arg_valid (reg_types r')) args.
Proof. intros Hg Ha. eapply Forall_impl; [exact Ha|]. intros a. by apply arg_valid_grows. Qed.

Lemma ptrs_valid_grows r r' ps : grows r r' -> Forall (ptr_valid (reg_types r)) ps -> Forall (ptr_valid (reg_types r')) ps.
Proof. intros Hg Ha. eapply Forall_impl; [exact Ha|]. intros a. by apply ptr_valid_grows. Qed.

Lemma args_ok_grows r r' args : grows r r' -> args_ok r args -> args_ok r' args.
Proof. intros Hg [Ha Hl]. split; [by eapply args_valid_grows|done]. Qed.

Lemma tys_grow r r' ps : types_ok r -> grows r r' -> Forall (ptr_valid (reg_types r)) ps -> ty_of r' <$> ps = ty_of r <$> ps.
Proof.
  intros Hr Hg Hps. apply list_fmap_ext. intros i p Hp. apply (ty_of_grows type_addr str_addr r Hr r' p Hg).
  by eapply Forall_lookup_1.
Qed.

Lemma signature_ok_grows r r' s : types_ok r -> grows r r' -> signature_ok r s ->
  signature_ok r' s /\ signature_ty r' s = signature_ty r s.
Proof.
  intros Hr Hg [Hv Ho]. assert (Hs : signature_ty r' s = signature_ty r s) by (by apply tys_grow).
  split; [|done]. split; [by eapply ptrs_valid_grows|by rewrite Hs].
Qed.

Lemma function_ok_grows r r' f : types_ok r -> grows r r' -> function_ok r f -> function_ok r' f.
Proof.
  intros Hr Hg [Hd Ha Hfit Hv Hs]. destruct (signature_ok_grows r r' _ Hr Hg Hd) as [Hd' Heq]. split; [done| | | |].
  - by eapply args_ok_grows.
  - by rewrite Heq.
  - by eapply ptrs_valid_grows.
  - rewrite Heq, (args_ty_grows type_addr str_addr r r') by (done || apply Ha). rewrite <- Hs. by apply tys_grow.
Qed.

Lemma functions_ok_grows r r' fr : types_ok r -> grows r r' -> functions_ok r fr -> functions_ok r' fr.
Proof.
  intros Hr Hg [Hf [gi [Hi Hi']] Ho]. split; [|exists gi; split|].
  - intros p f Hp. apply (function_ok_grows r r'); [done|done|]. by eapply Hf.
  - eapply represents_transfer; [|exact Hi]. intros id Hid.
    by destruct (instance_id_hash_grow type_addr str_addr _ _ id (gr_types _ _ Hg) Hid).
  - done.
  - done.
Qed.

Lemma instance_id_valid r d args : args_ok r args -> inst_valid (reg_types r) (instance_id_of d args).
Proof. intros [Ha _]. unfold inst_valid. cbn. by apply Forall_take, (arg_valid_const r). Qed.

Lemma instance_norm_eq d args : length args <= GAB_MAX_TYPE_PARAMS ->
  inst_norm (instance_id_of d args) = (id_norm d, arg_norm <$> args).
Proof. intros Hl. unfold inst_norm. cbn. by rewrite firstn_all2. Qed.

(** *** The signature of an instance *)

Lemma substitute_params_returns ps : forall r args,
  types_ok r -> Forall (ptr_valid (reg_types r)) ps -> Forall (arg_valid (reg_types r)) args ->
  Forall (fun T => own_params T = true /\ fits args T = true) (ty_of r <$> ps) ->
  exists r' qs, substitute_params r ps args = Some (r', qs) /\ keeps type_addr str_addr r r' /\
    Forall (ptr_valid (reg_types r')) qs /\ ty_of r' <$> qs = subst_ty (arg_ty r <$> args) <$> (ty_of r <$> ps).
Proof.
  induction ps as [|p ps IH]; intros r args Hr Hps Ha Ho; cbn [substitute_params].
  { exists r, []. split; [done|]. split; [by apply keeps_refl|done]. }
  apply Forall_cons in Hps as [Hp Hps]. apply Forall_cons in Ho as [[Ho Hfit] Hos].
  destruct (substitute_returns type_addr str_addr (substitute_fuel r) r p args Hr Hp Ha (ptr_depth_fuel r p Hp) Ho Hfit)
    as (r1 & q & -> & Hk1 & Hq & Hty). cbn [mbind option_bind].
  pose proof (kp_grows _ _ _ _ Hk1) as Hg1. pose proof (tys_grow r r1 ps Hr Hg1 Hps) as Heq.
  destruct (IH r1 args) as (r2 & qs & -> & Hk2 & Hqs & Htys).
  - apply Hk1.
  - by eapply ptrs_valid_grows.
  - by eapply args_valid_grows.
  - change (fmap (M := list) (ty_of r1) ps) with (ty_of r1 <$> ps). rewrite Heq. exact Hos.
  - exists r2, (q :: qs). split; [done|]. split; [by eapply keeps_trans|]. split.
    + constructor; [|done]. eapply ptr_valid_grows; [apply Hk2|done].
    + cbn [fmap list_fmap]. f_equal.
      * rewrite <- Hty. apply (ty_of_grows type_addr str_addr r1 (kp_ok _ _ _ _ Hk1) r2 q); [apply Hk2|done].
      * change (list_fmap _ _ (ty_of r2) qs) with (ty_of r2 <$> qs). rewrite Htys, Heq.
        by rewrite (args_ty_grows type_addr str_addr r r1).
Qed.

(** A signature the arguments fit is instantiated, and says what it said with the
    parameters replaced. *)
Lemma func_signature_instantiate_returns r s args :
  types_ok r -> signature_ok r s -> args_ok r args ->
  (args <> [] -> Forall (fun T => fits args T = true) (signature_ty r s)) ->
  exists r' s', func_signature_instantiate r s args = Some (r', s') /\ keeps type_addr str_addr r r' /\
    Forall (ptr_valid (reg_types r')) (signature_types s') /\
    signature_ty r' s' = signature_at (arg_ty r <$> args) (signature_ty r s).
Proof.
  intros Hr [Hv Ho] [Ha _] Hfit. unfold func_signature_instantiate. destruct args as [|a args].
  { cbn. exists r, s. split; [done|]. split; [by apply keeps_refl|done]. }
  cbn [length Nat.eqb]. specialize (Hfit ltac:(done)). set (l := a :: args) in *.
  destruct (substitute_params_returns (signature_types s) r l Hr Hv Ha) as (r' & qs & Hrun & Hk & Hqs & Htys).
  { apply Forall_and. split; [exact Ho|exact Hfit]. }
  unfold signature_types in Hrun. cbn [substitute_params] in Hrun.
  destruct (type_registry_substitute _ _ _ r (return_type s) l) as [[r1 q]|]; [|done]. cbn [mbind option_bind] in Hrun |- *.
  destruct (substitute_params r1 (sig_params s) l) as [[r2 ps]|]; [|done]. cbn [mbind option_bind] in Hrun |- *.
  injection Hrun as -> <-. exists r', (MkFuncSignature q ps). split; [done|]. split; [done|]. split; [exact Hqs|]. exact Htys.
Qed.

(** *** The operations *)

Lemma function_core_ok r f f' : function_core f' = function_core f -> function_ok r f -> function_ok r f'.
Proof. intros [= H1 H2 H3] [Hd Ha Hfit Hv Hs]. split; rewrite ?H1, ?H2, ?H3; done. Qed.

Lemma function_core_norm f f' : function_core f' = function_core f -> function_norm f' = function_norm f.
Proof. intros [= H1 H2 H3]. unfold function_norm, instance_id_of_function. by rewrite H1, H3. Qed.

Lemma instance_lookup r fr g id :
  instances_hold r fr g -> inst_valid (reg_types r) id ->
  map_lookup (instance_key_hash r) (instance_key_equals r) (instances fr) id = Some (g !! inst_norm id).
Proof.
  intros [Hrep _] Hid. exact (map_lookup_represents _ _ inst_norm (inst_valid (reg_types r)) (instance_id_equals_spec _)
    (instance_id_hash_norm type_addr str_addr _) _ g _ Hrep Hid).
Qed.

Lemma functions_grow_snoc fr f i o : functions_grow fr (MkFunctionRegistry (reg_functions fr ++ [f]) i o).
Proof. intros p f' Hp. exists f'. split; [|done]. cbn. rewrite lookup_app_l; [done|]. by apply lookup_lt_Some in Hp. Qed.

Lemma owned_hold_grow fr fr' g : owned fr' = owned fr -> functions_grow fr fr' -> owned_hold fr g -> owned_hold fr' g.
Proof.
  intros Ho Hg [Hrep Hown]. split; [by rewrite Ho|]. intros q p Hq. destruct (Hown q p Hq) as (f & Hf & Hn).
  destruct (Hg p f Hf) as (f' & Hf' & [= Hd _ _]). exists f'. by rewrite Hd.
Qed.

(** A new instance put in the table. *)
Lemma new_instance_ok r fr decl args s :
  types_ok r -> functions_ok r fr -> args_ok r args -> signature_ok r (func_signature decl) ->
  (args <> [] -> Forall (fun T => fits args T = true) (signature_ty r (func_signature decl))) ->
  Forall (ptr_valid (reg_types r)) (signature_types s) ->
  signature_ty r s = signature_at (arg_ty r <$> args) (signature_ty r (func_signature decl)) ->
  let key := instance_id_of (func_id decl) args in
  map_lookup (instance_key_hash r) (instance_key_equals r) (instances fr) key = Some None ->
  exists m b, map_insert (instance_key_hash r) (instance_key_equals r) (instances fr) key (length (reg_functions fr)) = Some (m, b) /\
    functions_ok r (MkFunctionRegistry (reg_functions fr ++ [MkFunc decl s args 0 false]) m (owned fr)).
Proof.
  intros Hr [Hf [g Hi] [go Ho]] Ha Hd Hfit Hv Hs key Hno. pose proof (instance_id_valid r (func_id decl) args Ha) as Hid.
  rewrite (instance_lookup r fr g key Hi Hid) in Hno. apply (inj Some) in Hno. destruct Hi as [Hrep Hval].
  destruct (map_insert_represents _ _ inst_norm (inst_valid (reg_types r)) (instance_id_equals_spec _)
    (instance_id_hash_norm type_addr str_addr _) _ g key (length (reg_functions fr)) Hrep Hid) as (m & Hm & Hrep').
  rewrite Hno in Hrep'. eexists m, _. split; [exact Hm|]. split; cbn [reg_functions].
  - intros p f [Hp|[_ Hp]]%lookup_app_Some; [by eapply Hf|]. apply list_lookup_singleton_Some in Hp as [_ <-]. by split.
  - exists (<[inst_norm key := length (reg_functions fr)]> g). split; [done|]. intros q p. cbn [reg_functions].
    assert (Hnew : forall f, (reg_functions fr ++ [f]) !! length (reg_functions fr) = Some f).
    { intros f. by rewrite lookup_app_r, Nat.sub_diag. }
    rewrite lookup_insert_Some. split.
    + intros [[<- <-]|[Hne Hq]]; [eexists; by rewrite Hnew|]. apply Hval in Hq as (f & Hp & Hq). exists f. split; [|done].
      rewrite lookup_app_l; [done|]. by apply lookup_lt_Some in Hp.
    + intros (f & [Hp|[Hge Hp]]%lookup_app_Some & Hq).
      * right. assert (Hg : g !! q = Some p) by (apply Hval; by exists f). split; [|done]. intros Heq. congruence.
      * apply list_lookup_singleton_Some in Hp as [Hz <-]. left. split; [done|lia].
  - exists go. eapply owned_hold_grow; [|apply functions_grow_snoc|exact Ho]. done.
Qed.

(** What an operation leaves of both registries. *)
Record advances (r : TypeRegistry) (fr : FunctionRegistry) (r' : TypeRegistry) (fr' : FunctionRegistry) : Prop := {
  ad_leaves : leaves r r';
  ad_functions : functions_ok r' fr';
  ad_grow : functions_grow fr fr';
}.

Lemma advances_refl r fr : registry_ok r -> functions_ok r fr -> advances r fr r fr.
Proof. intros Hr Hf. split; [by apply leaves_refl|done|done]. Qed.

(** The answer of the registry: a function of the declaration asked for, at the
    arguments asked for. *)
Definition answers (fr : FunctionRegistry) (decl : FuncDecl) (args : list TypeArg) (p : nat) : Prop :=
  exists f, reg_functions fr !! p = Some f /\ func_id (fn_decl f) = func_id decl /\ arg_norm <$> fn_type_args f = arg_norm <$> args.

Lemma cached_answers r fr g decl args p :
  functions_ok r fr -> instances_hold r fr g -> args_ok r args ->
  g !! inst_norm (instance_id_of (func_id decl) args) = Some p -> answers fr decl args p.
Proof.
  intros Hfr [_ Hval] [_ Hl] Hp. apply Hval in Hp as (f & Hf & Hn). exists f. split; [done|].
  pose proof (fn_functions r fr Hfr p f Hf) as [_ [_ Hlf] _ _ _].
  unfold function_norm, instance_id_of_function in Hn. rewrite !instance_norm_eq in Hn by done.
  by apply pair_eq in Hn as [?%id_norm_inj ?].
Qed.

Lemma instance_advances r fr decl args r' fr' p :
  registry_ok r -> functions_ok r fr -> args_ok r args -> signature_ok r (func_signature decl) ->
  (args <> [] -> Forall (fun T => fits args T = true) (signature_ty r (func_signature decl))) ->
  function_registry_instance r fr decl args = Some (r', fr', p) ->
  advances r fr r' fr' /\ answers fr' decl args p.
Proof.
  intros Hr Hfr Ha Hd Hfit. destruct (fn_instances r fr Hfr) as [g Hg]. unfold function_registry_instance.
  rewrite (instance_lookup r fr g _ Hg (instance_id_valid r _ args Ha)). cbn [mbind option_bind].
  destruct (g !! inst_norm _) as [q|] eqn:Hq.
  { intros [= <- <- <-]. split; [by apply advances_refl|]. by eapply cached_answers. }
  pose proof (ok_types _ _ r Hr) as Hty.
  destruct (func_signature_instantiate_returns r _ args Hty Hd Ha Hfit) as (r1 & s & -> & Hk & Hv & Hs).
  cbn [mbind option_bind]. pose proof (kp_grows _ _ _ _ Hk) as Hgr. destruct (signature_ok_grows r r1 _ Hty Hgr Hd) as [Hd1 Heq].
  pose proof (functions_ok_grows r r1 fr Hty Hgr Hfr) as Hfr1. destruct (fn_instances r1 fr Hfr1) as [g1 Hg1].
  pose proof (args_ok_grows r r1 args Hgr Ha) as Ha1.
  destruct (new_instance_ok r1 fr decl args s) as (m & b & Hm & Hok); try done.
  - apply Hk.
  - by rewrite Heq.
  - rewrite Hs, Heq. f_equal. symmetry. apply (args_ty_grows type_addr str_addr r r1 args Hty Hgr), Ha.
  - rewrite (instance_lookup r1 fr g1 _ Hg1 (instance_id_valid r1 _ args Ha1)). f_equal.
    destruct (g1 !! _) as [q|] eqn:Hq1; [|done]. exfalso. apply Hg1 in Hq1. apply Hg in Hq1. congruence.
  - rewrite Hm. cbn [mbind option_bind]. intros [= <- <- <-]. split.
    + split; [by apply keeps_leaves|done|apply functions_grow_snoc].
    + exists (MkFunc decl s args 0 false). split; [|done]. cbn [reg_functions]. by rewrite lookup_app_r, Nat.sub_diag.
Qed.

(** The call returns whenever the arguments fit the signature. *)
Lemma instance_returns r fr decl args :
  registry_ok r -> functions_ok r fr -> args_ok r args -> signature_ok r (func_signature decl) ->
  (args <> [] -> Forall (fun T => fits args T = true) (signature_ty r (func_signature decl))) ->
  is_Some (function_registry_instance r fr decl args).
Proof.
  intros Hr Hfr Ha Hd Hfit. destruct (fn_instances r fr Hfr) as [g Hg]. unfold function_registry_instance.
  rewrite (instance_lookup r fr g _ Hg (instance_id_valid r _ args Ha)). cbn [mbind option_bind].
  destruct (g !! inst_norm _) as [q|] eqn:Hq; [by eexists|]. pose proof (ok_types _ _ r Hr) as Hty.
  destruct (func_signature_instantiate_returns r _ args Hty Hd Ha Hfit) as (r1 & s & -> & Hk & Hv & Hs).
  cbn [mbind option_bind]. pose proof (kp_grows _ _ _ _ Hk) as Hgr.
  pose proof (functions_ok_grows r r1 fr Hty Hgr Hfr) as Hfr1. destruct (fn_instances r1 fr Hfr1) as [g1 [Hrep1 _]].
  destruct (map_insert_represents _ _ inst_norm (inst_valid (reg_types r1)) (instance_id_equals_spec _)
    (instance_id_hash_norm type_addr str_addr _) _ g1 (instance_id_of (func_id decl) args) (length (reg_functions fr)) Hrep1
    (instance_id_valid r1 _ args (args_ok_grows r r1 args Hgr Ha))) as (m & Hm & _).
  unfold instance_key_hash, instance_key_equals. rewrite Hm. by eexists.
Qed.

(** An instance changes nothing of what types own. *)
Lemma instance_owned r fr decl args r' fr' p :
  function_registry_instance r fr decl args = Some (r', fr', p) -> owned fr' = owned fr.
Proof.
  unfold function_registry_instance. destruct (map_lookup _ _ _ _) as [[q|]|]; cbn [mbind option_bind]; [by intros [= _ <- _]| |done].
  destruct (func_signature_instantiate _ _ _) as [[r1 s]|]; [|done]. cbn [mbind option_bind].
  destruct (map_insert _ _ _ _ _) as [[m b]|]; [|done]. cbn [mbind option_bind]. by intros [= _ <- _].
Qed.

Lemma find_owned_lookup r fr g type name :
  owned_hold fr g -> function_registry_find_owned r fr type name =
    match type with
    | None => Some None
    | Some _ => t ← deref r type; Some (g !! member_norm (type_member_key_of (reg_decls r) t name))
    end.
Proof.
  intros [Hrep _]. unfold function_registry_find_owned. destruct type; [|done]. destruct (deref r _) as [t|]; [|done].
  exact (map_lookup_represents _ _ member_norm (fun _ => True) owned_key_equals_spec owned_key_hash_norm _ g _ Hrep I).
Qed.

(** Declaring a function for a type: it is found from then on, unless the name
    was taken, and then nothing changes. *)
Lemma declare_owned_ok r fr type t p f name :
  functions_ok r fr -> deref r type = Some t -> reg_functions fr !! p = Some f -> id_name (func_id (fn_decl f)) = Some name ->
  exists fr' g before, owned_hold fr g /\ function_registry_find_owned r fr type (Some name) = Some before /\
    function_registry_declare_owned r fr type (Some p) = Some (fr', bool_decide (before = None)) /\
    functions_ok r fr' /\ reg_functions fr' = reg_functions fr /\
    let key := member_norm (type_member_key_of (reg_decls r) t (Some name)) in
    owned_hold fr' (match before with Some _ => g | None => <[key := p]> g end) /\ before = g !! key.
Proof.
  intros [Hf Hi [g Ho]] Ht Hp Hn. exists (match g !! member_norm (type_member_key_of (reg_decls r) t (Some name)) with
    Some _ => fr | None => default fr (fst <$> function_registry_declare_owned r fr type (Some p)) end), g,
    (g !! member_norm (type_member_key_of (reg_decls r) t (Some name))).
  split; [done|]. split. { rewrite (find_owned_lookup r fr g _ _ Ho), Ht. by destruct type. }
  unfold function_registry_declare_owned. rewrite Ht. cbn [mbind option_bind]. rewrite Hp. cbn [mbind option_bind]. rewrite Hn.
  set (key := type_member_key_of (reg_decls r) t (Some name)). pose proof Ho as [Hrep Hval].
  rewrite (map_lookup_represents _ _ member_norm (fun _ => True) owned_key_equals_spec owned_key_hash_norm _ g key Hrep I).
  cbn [mbind option_bind]. destruct (g !! member_norm key) as [q|] eqn:Hq.
  { split; [done|]. split; [by split; [..|by exists g]|done]. }
  destruct (map_insert_represents _ _ member_norm (fun _ => True) owned_key_equals_spec owned_key_hash_norm _ g key p Hrep I)
    as (m & -> & Hrep'). rewrite Hq in Hrep'. cbn. set (fr' := MkFunctionRegistry _ _ _).
  assert (Ho' : owned_hold fr' (<[member_norm key := p]> g)).
  { split; [done|]. intros q x [[<- <-]|[_ Hx]]%lookup_insert_Some; [by exists f|]. by apply Hval in Hx. }
  split; [done|]. split; [|done]. split; [done|done|by eexists].
Qed.

(** *** Reachable registries *)

(** The functions a type owns, at the type's arguments. *)
Definition owned_fits (r : TypeRegistry) (fr : FunctionRegistry) (type : TypePtr) (name : StrPtr) : Prop :=
  forall t p f, deref r type = Some t -> function_registry_find_owned r fr type name = Some (Some p) ->
    reg_functions fr !! p = Some f -> length (ty_args t) <= GAB_MAX_TYPE_PARAMS /\
    Forall (fun T => fits (ty_args t) T = true) (signature_ty r (func_signature (fn_decl f))).

Inductive function_step (r : TypeRegistry) (fr : FunctionRegistry) : TypeRegistry -> FunctionRegistry -> Prop :=
  | fstep_types r' : reg_step type_addr str_addr r r' -> function_step r fr r' fr
  | fstep_instance decl args r' fr' p :
      args_ok r args -> signature_ok r (func_signature decl) ->
      (args <> [] -> Forall (fun T => fits args T = true) (signature_ty r (func_signature decl))) ->
      function_registry_instance r fr decl args = Some (r', fr', p) -> function_step r fr r' fr'
  | fstep_declare_owned type function fr' b :
      function_registry_declare_owned r fr type function = Some (fr', b) -> function_step r fr r fr'
  | fstep_owned_for type name r' fr' p :
      owned_fits r fr type name ->
      function_registry_owned_for r fr type name = Some (r', fr', p) -> function_step r fr r' fr'
  | fstep_note p bits : function_step r fr r (set_borrowed_params fr p bits).

Lemma note_advances r fr p bits : registry_ok r -> functions_ok r fr -> advances r fr r (set_borrowed_params fr p bits).
Proof.
  intros Hr [Hf [gi [Hi Hiv]] [go Ho]].
  assert (Hcore : forall q f', reg_functions (set_borrowed_params fr p bits) !! q = Some f' ->
    exists f, reg_functions fr !! q = Some f /\ function_core f' = function_core f).
  { intros q f'. cbn. destruct (decide (p = q)) as [<-|Hne]; [|rewrite list_lookup_alter_ne by done; by exists f'].
    rewrite list_lookup_alter_eq. destruct (reg_functions fr !! p) as [f|]; [|done]. intros [= <-]. by exists f. }
  assert (Hgrow : functions_grow fr (set_borrowed_params fr p bits)).
  { intros q f Hq. cbn. destruct (decide (p = q)) as [<-|Hne]; [|rewrite list_lookup_alter_ne by done; by exists f].
    rewrite list_lookup_alter_eq, Hq. by eexists. }
  split; [by apply leaves_refl| |done]. split.
  - intros q f' Hq. destruct (Hcore q f' Hq) as (f & Hfq & Hc). by apply (function_core_ok r f), (Hf q).
  - exists gi. split; [done|]. intros k q. rewrite Hiv. split.
    + intros (f & Hq & <-). destruct (Hgrow q f Hq) as (f' & Hq' & Hc). exists f'. split; [done|]. by apply function_core_norm.
    + intros (f' & Hq & <-). destruct (Hcore q f' Hq) as (f & Hq' & Hc). exists f. split; [done|]. symmetry. by apply function_core_norm.
  - exists go. eapply owned_hold_grow; [|exact Hgrow|exact Ho]. done.
Qed.

Lemma function_step_advances r fr r' fr' :
  registry_ok r -> functions_ok r fr -> function_step r fr r' fr' -> advances r fr r' fr'.
Proof.
  intros Hr Hf Hs. destruct Hs as [r' Hs|decl args r' fr' p Ha Hd Hfit Hi|type function fr' b Hd|type name r' fr' p Hfit Ho|p bits].
  - pose proof (reg_step_leaves type_addr str_addr r r' Hr Hs) as Hl. split; [done| |done].
    eapply functions_ok_grows; [exact (ok_types _ _ r Hr)|apply Hl|done].
  - by eapply instance_advances.
  - pose proof Hd as Hrun. unfold function_registry_declare_owned in Hd. destruct (deref r type) as [t|] eqn:Ht; [|done].
    destruct function as [p|]; [|done]. cbn [mbind option_bind] in Hd. destruct (reg_functions fr !! p) as [f|] eqn:Hp; [|done].
    cbn [mbind option_bind] in Hd. destruct (id_name (func_id (fn_decl f))) as [name|] eqn:Hn; [|done].
    destruct (declare_owned_ok r fr type t p f name Hf Ht Hp Hn) as (fr1 & g & before & _ & _ & Hrun1 & Hok & Hfs & _).
    rewrite Hrun in Hrun1. injection Hrun1 as -> _. split; [by apply leaves_refl|done|]. intros q x Hq. exists x. by rewrite Hfs.
  - pose proof (advances_refl r fr Hr Hf) as Hrefl. unfold function_registry_owned_for in Ho. unfold owned_fits in Hfit.
    destruct (function_registry_find_owned r fr type name) as [[q|]|] eqn:Hfind; [|by injection Ho as <- <- <-|done].
    cbn [mbind option_bind] in Ho. destruct (reg_functions fr !! q) as [f|] eqn:Hq; [|done]. cbn [mbind option_bind] in Ho.
    destruct (deref r type) as [t|] eqn:Ht; [|done]. cbn [mbind option_bind] in Ho.
    destruct (function_registry_owned_is_shared r f t); [by injection Ho as <- <- <-|].
    destruct (Nat.ltb _ _); [by injection Ho as <- <- <-|].
    destruct (function_registry_instance r fr (fn_decl f) (ty_args t)) as [[[r1 fr1] p1]|] eqn:Hi; [|done].
    injection Ho as <- <- <-. destruct (Hfit t q f eq_refl eq_refl Hq) as [Hl Hfits].
    destruct type as [n|]; [|done].
    eapply instance_advances; [done|done| |by eapply fo_decl, fn_functions|by intros _|exact Hi].
    split; [|done]. by eapply (args_valid type_addr str_addr r n t), Ht; apply Hr.
  - by apply note_advances.
Qed.

Lemma advances_trans r1 fr1 r2 fr2 r3 fr3 : advances r1 fr1 r2 fr2 -> advances r2 fr2 r3 fr3 -> advances r1 fr1 r3 fr3.
Proof. intros [H1 H2 H3] [H4 H5 H6]. split; [by eapply leaves_trans|done|by etrans]. Qed.

Definition function_reachable (r : TypeRegistry) (fr : FunctionRegistry) : Prop :=
  exists n r0 fr0, type_registry_create n = Some r0 /\ function_registry_create = Some fr0 /\
    rtc (fun x y => function_step x.1 x.2 y.1 y.2) (r0, fr0) (r, fr).

Lemma function_registry_create_ok r : exists fr, function_registry_create = Some fr /\ functions_ok r fr.
Proof.
  unfold function_registry_create.
  destruct (map_init_represents (instance_key_hash r) inst_norm (inst_valid (reg_types r)) (V := nat) 2) as (i & Hi & Hri).
  destruct (map_init_represents owned_key_hash member_norm (fun _ => True) (V := nat) 2) as (o & Ho & Hro).
  change (2 ^ 3) with FUNCTION_REGISTRY_INITIAL_CAPACITY in *. rewrite Hi, Ho. eexists. split; [done|]. split.
  - done.
  - exists ∅. split; [done|]. intros q p. rewrite lookup_empty. split; [done|]. by intros (f & Hf & _).
  - exists ∅. split; [done|]. intros q p. by rewrite lookup_empty.
Qed.

Lemma function_steps_advance s s' :
  registry_ok s.1 -> functions_ok s.1 s.2 -> rtc (fun x y => function_step x.1 x.2 y.1 y.2) s s' -> advances s.1 s.2 s'.1 s'.2.
Proof.
  intros Hr Hf Hs. induction Hs as [s|s1 s2 s3 Hs _ IH]; [by apply advances_refl|].
  pose proof (function_step_advances _ _ _ _ Hr Hf Hs) as Had. eapply advances_trans; [exact Had|].
  destruct Had as [Hl Hok _]. apply IH; [apply Hl|done].
Qed.

Lemma function_reachable_ok r fr : function_reachable r fr -> registry_ok r /\ functions_ok r fr.
Proof.
  intros (n & r0 & fr0 & Hc & Hfc & Hs). destruct (type_registry_create_ok type_addr str_addr n) as (r1 & Hc1 & Hr).
  rewrite Hc in Hc1. injection Hc1 as <-. destruct (function_registry_create_ok r0) as (fr1 & Hf1 & Hf).
  rewrite Hfc in Hf1. injection Hf1 as <-. 
  destruct (function_steps_advance (r0, fr0) (r, fr)) as [Hl Hok _]; [done..|]. split; [apply Hl|done].
Qed.

Lemma function_reachable_step r fr r' fr' : function_reachable r fr -> function_step r fr r' fr' -> function_reachable r' fr'.
Proof. intros (n & r0 & fr0 & Hc & Hfc & Hs) Hstep. exists n, r0, fr0. split; [done|]. split; [done|]. by eapply rtc_r. Qed.

(** Arguments of one meaning are one to the table of instances. *)
Lemma arg_norms_of_meaning r args others :
  types_ok r -> Forall (arg_valid (reg_types r)) args -> Forall (arg_valid (reg_types r)) others ->
  arg_ty r <$> args = arg_ty r <$> others <-> arg_norm <$> args = arg_norm <$> others.
Proof.
  intros Hr Ha Ho. split.
  - apply (arg_ty_inj type_addr str_addr r Hr (length (reg_types r))); try by apply arg_pointers_below || by apply (arg_valid_const r).
    intros p q Hp Hq. apply (ty_of_inj type_addr str_addr r Hr); [|done]. destruct p; [by apply Hp|done].
  - revert others Ho. induction Ha as [|a l Ha Hl IH]; intros [|b k] Ho Heq; try done. apply Forall_cons in Ho as [Hb Hk].
    cbn [fmap list_fmap] in Heq |- *. injection Heq as Hab Heq. f_equal; [|by apply IH].
    destruct a as [p|[c|i]], b as [q|[c'|j]]; unfold arg_ty, arg_meaning; cbn in Hab; try done; congruence.
Qed.
End addresses.

(** A function made by the call is of the declaration asked for. *)
Lemma instance_made_of (type_addr str_addr : nat -> N) r fr decl args r' fr' p f :
  function_registry_instance type_addr str_addr r fr decl args = Some (r', fr', p) ->
  reg_functions fr' !! p = Some f -> reg_functions fr !! p = None -> fn_decl f = decl.
Proof.
  unfold function_registry_instance. intros H Hf Hnone.
  apply bind_Some in H as ([q|] & _ & H).
  - injection H as <- <- <-. congruence.
  - apply bind_Some in H as ([r1 s] & _ & H). apply bind_Some in H as ([m b] & _ & H). injection H as <- <- <-.
    cbn [reg_functions] in Hf. rewrite lookup_app_r, Nat.sub_diag in Hf by done. by injection Hf as <-.
Qed.

Lemma types_reachable_functions (type_addr str_addr : nat -> N) r fr :
  reachable type_addr str_addr r -> function_registry_create = Some fr -> function_reachable type_addr str_addr r fr.
Proof.
  intros (n & r0 & Hc & Hs) Hf. exists n, r0, fr. split; [done|]. split; [done|]. clear Hc.
  induction Hs as [r|r1 r2 r3 Hs _ IH]; [by apply rtc_refl|]. eapply rtc_l; [|exact IH]. cbn. by apply fstep_types.
Qed.

(** ** The properties *)

(** C22: Asking for a declaration at some arguments always returns, when the
    declaration's signature is one the registry can substitute in and the
    arguments fit it ([signature_ok]: its types are of the registry, and its structs
    that mention parameters are applied to the parameters of their own declaration
    in their order; [fits]: each parameter is answered by an argument of its sort;
    and no more arguments than [GAB_MAX_TYPE_PARAMS]).  The function returned is of
    that declaration's id, at those arguments.  Its signature is that of its own
    declaration, [fn_decl f], with each parameter replaced by its argument: this is
    the declaration asked for when the function is new, and else the one it was
    made from, which has the same id and which resolve.c:2083 lets differ.  No other
    function of the registry is of that id at arguments of the same meaning, so
    comparing pointers compares instances, and the functions made before are as they
    were.  This is so after any sequence of the operations of both registries. *)
Theorem one_function_per_instance (type_addr str_addr : nat -> N) (r : TypeRegistry) (fr : FunctionRegistry)
    (decl : FuncDecl) (args : list TypeArg) :
  function_reachable type_addr str_addr r fr -> args_ok r args -> signature_ok r (func_signature decl) ->
  (args <> [] -> Forall (fun T => fits args T = true) (signature_ty r (func_signature decl))) ->
  exists r' fr' p f, function_registry_instance type_addr str_addr r fr decl args = Some (r', fr', p) /\
    function_reachable type_addr str_addr r' fr' /\ reg_functions fr' !! p = Some f /\
    func_id (fn_decl f) = func_id decl /\ arg_ty r' <$> fn_type_args f = arg_ty r' <$> args /\
    signature_ty r' (fn_signature f) = signature_at (arg_ty r' <$> args) (signature_ty r' (func_signature (fn_decl f))) /\
    (reg_functions fr !! p = None -> fn_decl f = decl) /\
    (forall q g, reg_functions fr' !! q = Some g -> func_id (fn_decl g) = func_id decl ->
       arg_ty r' <$> fn_type_args g = arg_ty r' <$> args -> q = p) /\
    functions_grow fr fr'.
Proof.
  intros Hreach Ha Hd Hfit. destruct (function_reachable_ok _ _ r fr Hreach) as [Hr Hfr].
  destruct (instance_returns _ _ r fr decl args Hr Hfr Ha Hd Hfit) as [[[r' fr'] p] Hrun].
  destruct (instance_advances _ _ r fr decl args r' fr' p Hr Hfr Ha Hd Hfit Hrun) as [[[Hr' Hg] Hfr' Hgrow] (f & Hf & Hid & Harg)].
  pose proof (ok_types _ _ r' Hr') as Hty'. pose proof (args_ok_grows r r' args Hg Ha) as [Ha' Hlen].
  assert (Hmeans : forall q g, reg_functions fr' !! q = Some g ->
    arg_ty r' <$> fn_type_args g = arg_ty r' <$> args <-> arg_norm <$> fn_type_args g = arg_norm <$> args).
  { intros q g Hq. apply (arg_norms_of_meaning type_addr str_addr); [done| |done]. by eapply fo_args, fn_functions. }
  exists r', fr', p, f. split; [done|]. split; [eapply function_reachable_step; [exact Hreach|by eapply fstep_instance]|].
  split; [done|]. split; [done|]. split; [by apply (Hmeans p f Hf)|]. split; [|split; [by eapply instance_made_of|split; [|done]]].
  - rewrite <- (proj2 (Hmeans p f Hf) Harg). eapply fo_signature. by eapply fn_functions.
  - intros q g Hq Hgid Hgarg%(Hmeans q g Hq). destruct (fn_instances _ _ r' fr' Hfr') as [t [_ Ht]].
    assert (Hn : function_norm g = function_norm f).
    { unfold function_norm, instance_id_of_function. rewrite !instance_norm_eq, Hgid, Hid, Hgarg, Harg; [done|..];
        by eapply fo_args, fn_functions. }
    assert (Hp1 : t !! function_norm f = Some p) by (apply Ht; by exists f).
    assert (Hq1 : t !! function_norm f = Some q) by (apply Ht; by exists g). congruence.
Qed.

(** [fn get<T>(holder: &Holder<T>) -> T] at [i32]. *)
Definition get_decl : FuncDecl :=
  MkFuncDecl (MkDeclId None None (Some 70) 0) None LINKAGE_INTERNAL FUNC_MOD_NONE None
    (MkFuncSignature (Some 7) [ref_to_holder_of_first]) 1 [BOUND_NONE].
Definition no_functions : FunctionRegistry := Eval vm_compute in default (MkFunctionRegistry [] new_table new_table) function_registry_create.

Lemma one_function_per_instance_witness :
  exists r' fr' p f, function_registry_instance sample_addr sample_addr sample_6 no_functions get_decl [TYPE_ARG_TYPE sample_i32_t] = Some (r', fr', p) /\
    reg_functions fr' !! p = Some f /\
    signature_ty r' (fn_signature f) = signature_at (arg_ty r' <$> [TYPE_ARG_TYPE sample_i32_t]) (signature_ty r' (func_signature (fn_decl f))) /\
    signature_ty r' (fn_signature f) = [TBuiltin TYPE_I32; TRef (TApp TYPE_STRUCT holder_id [TBuiltin TYPE_I32])].
Proof.
  destruct (one_function_per_instance sample_addr sample_addr sample_6 no_functions get_decl [TYPE_ARG_TYPE sample_i32_t])
    as (r' & fr' & p & f & H1 & _ & H2 & _ & _ & H3 & _).
  - apply types_reachable_functions; [exact sample_reachable|reflexivity].
  - split; [apply Forall_singleton; apply Nat.ltb_lt; reflexivity|apply Nat.leb_le; reflexivity].
  - split; [apply Forall_cons; split; [apply Nat.ltb_lt; reflexivity|apply Forall_singleton, Nat.ltb_lt; reflexivity]|].
    apply Forall_cons; split; [reflexivity|apply Forall_singleton; reflexivity].
  - intros _. apply Forall_cons; split; [reflexivity|apply Forall_singleton; reflexivity].
  - exists r', fr', p, f. split; [exact H1|]. split; [exact H2|]. split; [exact H3|].
    vm_compute in H1. injection H1 as <- <- <-. vm_compute in H2. injection H2 as <-. vm_compute. reflexivity.
Defined.
