(* ===== verification/Scopes.v ===== *)
(** * Scopes: the names a program declares

    [src/src/scope.c], all but the signatures of instances, which are in
    [Functions.v].  A [Scope *] and a [Symbol *] are indices into the heaps of
    scopes and of symbols; a name is the pointer of its interned string, by
    which the table of a scope hashes and compares it.  [None] is a failed
    [assert], the dereference of a null pointer, or a loop longer than its fuel:
    the heap's length is enough for the walks along the parents, since a scope
    is made after its parent. *)

From S2P Require Import Prelude Types HashMap Registry RegistryTypes RegistryState.

Inductive SymbolKind :=
  | SYMBOL_VAR (type : TypePtr)
  | SYMBOL_FUNC (func : FuncPtr)
  | SYMBOL_MODULE (module : option nat)
  | SYMBOL_TYPE (type : TypePtr)
  | SYMBOL_CONST (constant : TypeConst)
  | SYMBOL_TYPE_DECL (decl : DeclPtr)
  | SYMBOL_INTERFACE (interface : option nat).

(** The kind with the member of the union it selects. *)
Record Symbol := MkSymbol { symbol_kind : SymbolKind; pinned : bool }.

Inductive ScopeKind := SCOPE_GLOBAL | SCOPE_MODULE | SCOPE_FILE | SCOPE_LOCAL.

#[export] Instance ScopeKind_eq_dec : EqDecision ScopeKind.
Proof. solve_decision. Defined.

Record Scope := MkScope {
  scope_symbols : HashMap StrPtr nat;
  scope_parent : option nat;
  scope_kind : ScopeKind;
}.

(** The arena's scopes and symbols. *)
Record Scopes := MkScopes { scope_heap : list Scope; symbol_heap : list Symbol }.

Definition SYMBOL_TABLE_INITIAL_CAPACITY : nat := 8.

Section addresses.
Context (str_addr : nat -> N).

Definition symbol_table_hash (key : StrPtr) : N := address str_addr key.
Definition symbol_table_key_equals (key other : StrPtr) : bool := bool_decide (key = other).

Definition scope_init_kind (parent : option nat) (kind : ScopeKind) : option Scope :=
  symbols ← map_init SYMBOL_TABLE_INITIAL_CAPACITY;
  Some (MkScope symbols parent kind).

Definition scope_create_kind (ss : Scopes) (parent : option nat) (kind : ScopeKind) : option (Scopes * nat) :=
  scope ← scope_init_kind parent kind;
  Some (MkScopes (scope_heap ss ++ [scope]) (symbol_heap ss), length (scope_heap ss)).

Definition scope_create (ss : Scopes) (parent : option nat) : option (Scopes * nat) :=
  scope_create_kind ss parent (match parent with Some _ => SCOPE_LOCAL | None => SCOPE_GLOBAL end).

Definition table_lookup (scope : Scope) (name : StrPtr) : option (option nat) :=
  map_lookup symbol_table_hash symbol_table_key_equals (scope_symbols scope) name.

(** The [for] of [scope_lookup]; a null scope ends it. *)
Fixpoint lookup_from (fuel : nat) (ss : Scopes) (s : option nat) (name : StrPtr) : option (option nat) :=
  match s, fuel with
  | None, _ => Some None
  | Some _, O => None
  | Some s, S fuel =>
      scope ← scope_heap ss !! s;
      found ← table_lookup scope name;
      match found with
      | Some symbol => Some (Some symbol)
      | None => lookup_from fuel ss (scope_parent scope) name
      end
  end.

Definition scope_fuel (ss : Scopes) : nat := length (scope_heap ss).
Definition scope_lookup (ss : Scopes) (scope : option nat) (name : StrPtr) : option (option nat) :=
  lookup_from (scope_fuel ss) ss scope name.

Definition scope_lookup_local (ss : Scopes) (scope : nat) (name : StrPtr) : option (option nat) :=
  scope ← scope_heap ss !! scope;
  table_lookup scope name.

Definition symbol_at (ss : Scopes) (symbol : option nat) : option Symbol := n ← symbol; symbol_heap ss !! n.

(** What a symbol names when it names a type. *)
Definition symbol_type (type_addr : nat -> N) (r : TypeRegistry) (symbol : option Symbol) : option (TypeRegistry * TypePtr) :=
  match symbol with
  | None => Some (r, None)
  | Some s =>
      match symbol_kind s with
      | SYMBOL_TYPE type => Some (r, type)
      | SYMBOL_TYPE_DECL decl =>
          d ← deref_decl r decl;
          if Nat.eqb (decl_param_count d) 0 then
            '(r, p) ← type_registry_apply type_addr str_addr r decl []; Some (r, Some p)
          else Some (r, None)
      | _ => Some (r, None)
      end
  end.

Definition scope_type_lookup (type_addr : nat -> N) (r : TypeRegistry) (ss : Scopes) (scope : option nat) (name : StrPtr) : option (TypeRegistry * TypePtr) :=
  match scope with
  | None => Some (r, None)
  | Some _ => found ← scope_lookup ss scope name; symbol_type type_addr r (symbol_at ss found)
  end.

(** The [for] of [scope_type_lookup_declaring], which ends at a module's scope. *)
Fixpoint type_lookup_declaring_from (fuel : nat) (ss : Scopes) (s : option nat) (name : StrPtr) : option (option nat) :=
  match s, fuel with
  | None, _ => Some None
  | Some _, O => None
  | Some s, S fuel =>
      found ← scope_lookup_local ss s name;
      match found with
      | Some symbol => Some (Some symbol)
      | None =>
          scope ← scope_heap ss !! s;
          if bool_decide (scope_kind scope = SCOPE_MODULE) then Some None
          else type_lookup_declaring_from fuel ss (scope_parent scope) name
      end
  end.

Definition scope_type_lookup_declaring (ss : Scopes) (scope : option nat) (name : StrPtr) : option (option nat) :=
  type_lookup_declaring_from (scope_fuel ss) ss scope name.

(** The [for (;;)] of [scope_lookup_declaring], which goes on from a file's scope
    only. *)
Fixpoint lookup_declaring_from (fuel : nat) (ss : Scopes) (s : nat) (name : StrPtr) : option (option nat) :=
  match fuel with
  | O => None
  | S fuel =>
      found ← scope_lookup_local ss s name;
      match found with
      | Some symbol => Some (Some symbol)
      | None =>
          scope ← scope_heap ss !! s;
          match scope_parent scope with
          | Some parent =>
              if negb (bool_decide (scope_kind scope = SCOPE_FILE)) then Some None
              else lookup_declaring_from fuel ss parent name
          | None => Some None
          end
      end
  end.

Definition scope_lookup_declaring (ss : Scopes) (scope : nat) (name : StrPtr) : option (option nat) :=
  lookup_declaring_from (scope_fuel ss) ss scope name.

(** [symbol_table_insert] of a symbol made for it; the answer is the value of the
    entry inserted, [NULL] when the name was there. *)
Definition insert_symbol (ss : Scopes) (s : nat) (name : StrPtr) (symbol : Symbol) : option (Scopes * option nat) :=
  scope ← scope_heap ss !! s;
  let p := length (symbol_heap ss) in
  '(m, inserted) ← map_insert symbol_table_hash symbol_table_key_equals (scope_symbols scope) name p;
  Some (MkScopes (<[s := MkScope m (scope_parent scope) (scope_kind scope)]> (scope_heap ss)) (symbol_heap ss ++ [symbol]),
        if inserted : bool then Some p else None).

Definition scope_bind (ss : Scopes) (s : nat) (name : StrPtr) (shape : SymbolKind) : option (Scopes * bool) :=
  scope ← scope_heap ss !! s;
  found ← table_lookup scope name;
  match found with
  | Some _ => Some (ss, false)
  | None => '(ss, p) ← insert_symbol ss s name (MkSymbol shape false); Some (ss, bool_decide (is_Some p))
  end.

Definition scope_bind_type (r : TypeRegistry) (ss : Scopes) (s : nat) (name : StrPtr) (type : TypePtr) : option (Scopes * bool) :=
  t ← deref r type;
  if negb (type_names_itself t) then None else scope_bind ss s name (SYMBOL_TYPE type).

Definition scope_bind_type_param (ss : Scopes) (s : nat) (name : StrPtr) (type : TypePtr) : option (Scopes * bool) :=
  scope_bind ss s name (SYMBOL_TYPE type).
Definition scope_bind_const (ss : Scopes) (s : nat) (name : StrPtr) (constant : TypeConst) : option (Scopes * bool) :=
  scope_bind ss s name (SYMBOL_CONST constant).
Definition scope_bind_type_decl (ss : Scopes) (s : nat) (name : StrPtr) (decl : DeclPtr) : option (Scopes * bool) :=
  scope_bind ss s name (SYMBOL_TYPE_DECL decl).
Definition scope_bind_interface (ss : Scopes) (s : nat) (name : StrPtr) (interface : option nat) : option (Scopes * bool) :=
  scope_bind ss s name (SYMBOL_INTERFACE interface).
Definition scope_bind_module (ss : Scopes) (s : nat) (name : StrPtr) (module : option nat) : option (Scopes * bool) :=
  scope_bind ss s name (SYMBOL_MODULE module).

Definition scope_decl_var_against (ss : Scopes) (s against : nat) (name : StrPtr) (type : TypePtr) : option (Scopes * option nat) :=
  found ← scope_lookup_declaring ss against name;
  match found with
  | Some _ => Some (ss, None)
  | None => insert_symbol ss s name (MkSymbol (SYMBOL_VAR type) false)
  end.

Definition scope_decl_var (ss : Scopes) (s : nat) (name : StrPtr) (type : TypePtr) : option (Scopes * option nat) :=
  scope_decl_var_against ss s s name type.

Definition scope_bind_func_against (ss : Scopes) (s against : nat) (name : StrPtr) (function : FuncPtr) : option (Scopes * option nat) :=
  found ← scope_lookup_declaring ss against name;
  match found with
  | Some _ => Some (ss, None)
  | None => insert_symbol ss s name (MkSymbol (SYMBOL_FUNC function) false)
  end.

Definition PRIMITIVES : list TypeKind := [TYPE_I32; TYPE_F32; TYPE_BOOL; TYPE_U8; TYPE_USIZE; TYPE_STR].

(** One turn of the loop of [global_scope_create]. *)
Definition bind_primitive (r : TypeRegistry) (scope : nat) (ss : Scopes) (kind : TypeKind) : option Scopes :=
  type ← type_registry_get_primitive r kind;
  t ← deref r type;
  '(ss, _) ← scope_bind_type r ss scope (type_name_of t) type;
  Some ss.

Definition global_scope_create (r : TypeRegistry) (ss : Scopes) : option (Scopes * nat) :=
  '(ss, scope) ← scope_create ss None;
  ss ← foldl (fun acc kind => ss ← acc; bind_primitive r scope ss kind) (Some ss) PRIMITIVES;
  Some (ss, scope).

(** ** What a scope declares, and the scopes a name is looked for in *)

(** The map of a scope's names. *)
Definition scope_names (scope : Scope) : gmap StrPtr nat := list_to_map (map_entries (scope_symbols scope)).

(** The scope and those around it, innermost first, as far as [goes_on] says. *)
Fixpoint scopes_from (goes_on : ScopeKind -> bool) (fuel : nat) (ss : Scopes) (s : option nat) : list Scope :=
  match s, fuel with
  | Some s, S fuel =>
      match scope_heap ss !! s with
      | Some scope => scope :: (if goes_on (scope_kind scope) then scopes_from goes_on fuel ss (scope_parent scope) else [])
      | None => []
      end
  | _, _ => []
  end.

(** The innermost binding of a name. *)
Definition innermost (scopes : list Scope) (name : StrPtr) : option nat :=
  head (omap (fun scope => scope_names scope !! name) scopes).

Definition visible_scopes (ss : Scopes) (s : option nat) : list Scope := scopes_from (fun _ => true) (scope_fuel ss) ss s.
Definition module_scopes (ss : Scopes) (s : option nat) : list Scope :=
  scopes_from (fun kind => negb (bool_decide (kind = SCOPE_MODULE))) (scope_fuel ss) ss s.
Definition declaring_scopes (ss : Scopes) (s : option nat) : list Scope :=
  scopes_from (fun kind => bool_decide (kind = SCOPE_FILE)) (scope_fuel ss) ss s.

(** ** The invariant *)

Definition table_is (scope : Scope) (g : gmap StrPtr nat) : Prop :=
  represents symbol_table_hash (id : StrPtr -> StrPtr) (fun _ => True) (scope_symbols scope) g.

Record scopes_ok (ss : Scopes) : Prop := {
  so_older : forall s scope p, scope_heap ss !! s = Some scope -> scope_parent scope = Some p -> p < s;
  so_table : forall s scope, scope_heap ss !! s = Some scope -> table_is scope (scope_names scope);
  so_symbols : forall s scope name p, scope_heap ss !! s = Some scope -> scope_names scope !! name = Some p ->
    p < length (symbol_heap ss);
}.

Definition scope_exists (ss : Scopes) (s : option nat) : Prop := match s with Some n => n < length (scope_heap ss) | None => True end.

Lemma key_equals_spec (k k' : StrPtr) : True -> True -> symbol_table_key_equals k k' = true <-> id k = id k'.
Proof. intros _ _. apply bool_decide_eq_true. Qed.

Lemma key_hash_norm (k k' : StrPtr) : True -> True -> id k = id k' -> symbol_table_hash k = symbol_table_hash k'.
Proof. by intros _ _ [= ->]. Qed.

(** The map a table stands for is the one its entries make. *)
Lemma table_names scope g : table_is scope g -> scope_names scope = g.
Proof.
  intros Hr. unfold scope_names. 
  assert (Hp : prod_map (id : StrPtr -> StrPtr) id <$> map_entries (scope_symbols scope) ≡ₚ map_to_list g) by (by eapply map_entries_perm).
  assert (Hid : prod_map (id : StrPtr -> StrPtr) id <$> map_entries (scope_symbols scope) = map_entries (scope_symbols scope)).
  { rewrite <- (list_fmap_id (map_entries _)) at 2. apply list_fmap_ext. by intros i []. }
  rewrite Hid in Hp. rewrite <- (list_to_map_to_list g). apply list_to_map_proper; [|done]. rewrite Hp. apply NoDup_fst_map_to_list.
Qed.

Lemma table_lookup_names scope name : table_is scope (scope_names scope) -> table_lookup scope name = Some (scope_names scope !! name).
Proof. intros Hr. exact (map_lookup_represents _ _ _ _ key_equals_spec key_hash_norm _ _ name Hr I). Qed.

Lemma table_insert_names scope name p : table_is scope (scope_names scope) ->
  exists m, map_insert symbol_table_hash symbol_table_key_equals (scope_symbols scope) name p =
      Some (m, bool_decide (scope_names scope !! name = None)) /\
    let scope' := MkScope m (scope_parent scope) (scope_kind scope) in
    table_is scope' (scope_names scope') /\
    scope_names scope' = match scope_names scope !! name with None => <[name := p]> (scope_names scope) | Some _ => scope_names scope end.
Proof.
  intros Hr. destruct (map_insert_represents _ _ _ _ key_equals_spec key_hash_norm _ _ name p Hr I) as (m & Hm & Hr').
  exists m. split; [exact Hm|]. cbn zeta. set (scope' := MkScope m _ _). change (id name) with name in Hr'.
  pose proof (table_names scope' _ Hr') as Heq. rewrite Heq. by split.
Qed.

(** *** The walks *)

Section walks.
Context (ss : Scopes) (Hss : scopes_ok ss).

Lemma local_names s scope name : scope_heap ss !! s = Some scope -> scope_lookup_local ss s name = Some (scope_names scope !! name).
Proof using All. intros Hs. unfold scope_lookup_local. rewrite Hs. cbn. apply table_lookup_names. by eapply so_table. Qed.

(** The scope a walk goes on to. *)
Lemma parent_walks s scope fuel : scope_heap ss !! s = Some scope -> s < S fuel ->
  forall p, scope_parent scope = Some p -> p < fuel /\ p < length (scope_heap ss).
Proof using All. intros Hs Hf p Hp. pose proof (so_older ss Hss s scope p Hs Hp). apply lookup_lt_Some in Hs. lia. Qed.

Lemma innermost_cons scope scopes name :
  innermost (scope :: scopes) name = match scope_names scope !! name with Some p => Some p | None => innermost scopes name end.
Proof using Type. unfold innermost. cbn. by destruct (scope_names scope !! name). Qed.

Lemma lookup_from_innermost fuel : forall s name,
  (forall n, s = Some n -> n < fuel /\ n < length (scope_heap ss)) ->
  lookup_from fuel ss s name = Some (innermost (scopes_from (fun _ => true) fuel ss s) name).
Proof using All.
  induction fuel as [|fuel IH]; intros [s|] name Hs; try done; [destruct (Hs s eq_refl); lia|]. destruct (Hs s eq_refl) as [Hf Hl].
  destruct (lookup_lt_is_Some_2 _ _ Hl) as [scope Hscope]. cbn [lookup_from scopes_from]. rewrite Hscope. cbn [mbind option_bind].
  rewrite (table_lookup_names scope name) by (by eapply so_table). cbn [mbind option_bind]. rewrite innermost_cons.
  destruct (scope_names scope !! name); [done|]. apply IH. by apply (parent_walks s).
Qed.

Lemma type_lookup_from_innermost fuel : forall s name,
  (forall n, s = Some n -> n < fuel /\ n < length (scope_heap ss)) ->
  type_lookup_declaring_from fuel ss s name =
    Some (innermost (scopes_from (fun kind => negb (bool_decide (kind = SCOPE_MODULE))) fuel ss s) name).
Proof using All.
  induction fuel as [|fuel IH]; intros [s|] name Hs; try done; [destruct (Hs s eq_refl); lia|]. destruct (Hs s eq_refl) as [Hf Hl].
  destruct (lookup_lt_is_Some_2 _ _ Hl) as [scope Hscope]. cbn [type_lookup_declaring_from scopes_from].
  rewrite (local_names s scope name Hscope), Hscope. cbn [mbind option_bind]. rewrite innermost_cons.
  destruct (scope_names scope !! name); [done|]. case_bool_decide; cbn [negb]; [done|]. apply IH. by apply (parent_walks s).
Qed.

Lemma lookup_declaring_from_innermost fuel : forall s name,
  s < fuel -> s < length (scope_heap ss) ->
  lookup_declaring_from fuel ss s name =
    Some (innermost (scopes_from (fun kind => bool_decide (kind = SCOPE_FILE)) fuel ss (Some s)) name).
Proof using All.
  induction fuel as [|fuel IH]; intros s name Hf Hl; [lia|].
  destruct (lookup_lt_is_Some_2 _ _ Hl) as [scope Hscope]. cbn [lookup_declaring_from scopes_from].
  rewrite (local_names s scope name Hscope), Hscope. cbn [mbind option_bind]. rewrite innermost_cons.
  destruct (scope_names scope !! name); [done|]. pose proof (parent_walks s scope fuel Hscope Hf) as Hp.
  destruct (scope_parent scope) as [p|]; [|by case_bool_decide; destruct fuel].
  case_bool_decide; cbn [negb]; [|done]. by apply IH; apply Hp.
Qed.

Lemma declaring_innermost s name : s < length (scope_heap ss) ->
  scope_lookup_declaring ss s name = Some (innermost (declaring_scopes ss (Some s)) name).
Proof using All. intros Hs. by apply lookup_declaring_from_innermost. Qed.
End walks.

(** *** The operations *)

(** What a scope binds a name to. *)
Definition bound_in (ss : Scopes) (s : nat) (name : StrPtr) : option nat :=
  scope ← scope_heap ss !! s; scope_names scope !! name.

(** The parts of the heap of scopes no operation changes. *)
Definition scope_links (ss : Scopes) : list (option nat * ScopeKind) := (fun scope => (scope_parent scope, scope_kind scope)) <$> scope_heap ss.

Lemma scope_links_insert ss s scope m symbols :
  scope_heap ss !! s = Some scope ->
  scope_links (MkScopes (<[s := MkScope m (scope_parent scope) (scope_kind scope)]> (scope_heap ss)) symbols) = scope_links ss.
Proof. intros Hs. unfold scope_links. cbn. rewrite list_fmap_insert. apply list_insert_id. by rewrite list_lookup_fmap, Hs. Qed.

(** Inserting a symbol: its name is bound to it if it was free, and nothing else
    changes but the symbol that is made. *)
Lemma insert_symbol_ok ss s name symbol : scopes_ok ss -> s < length (scope_heap ss) ->
  exists ss' p, insert_symbol ss s name symbol = Some (ss', p) /\ scopes_ok ss' /\ scope_links ss' = scope_links ss /\
    symbol_heap ss' = symbol_heap ss ++ [symbol] /\
    p = (match bound_in ss s name with None => Some (length (symbol_heap ss)) | Some _ => None end) /\
    forall s' name', bound_in ss' s' name' =
      if bool_decide (s' = s /\ name' = name /\ is_Some p) then p else bound_in ss s' name'.
Proof.
  intros Hss Hs. destruct (lookup_lt_is_Some_2 _ _ Hs) as [scope Hscope]. unfold insert_symbol, bound_in. rewrite Hscope.
  cbn [mbind option_bind]. destruct (table_insert_names scope name (length (symbol_heap ss)) (so_table ss Hss s scope Hscope)) as (m & -> & Ht & Hn).
  cbn [mbind option_bind]. set (scope' := MkScope m _ _) in *. eexists _, _. split; [done|]. split; [|split; [by apply scope_links_insert|]].
  - assert (Hcase : forall s0 sc, <[s := scope']> (scope_heap ss) !! s0 = Some sc -> (s0 = s /\ sc = scope') \/ scope_heap ss !! s0 = Some sc).
    { intros s0 sc Hsc. destruct (decide (s = s0)) as [<-|Hne].
      - rewrite list_lookup_insert_eq in Hsc by done. injection Hsc as <-. by left.
      - rewrite list_lookup_insert_ne in Hsc by done. by right. }
    split; cbn [scope_heap symbol_heap].
    + intros s0 sc p [[-> ->]|H]%Hcase; [by apply (so_older ss Hss s scope)|by apply (so_older ss Hss s0 sc)].
    + intros s0 sc [[-> ->]|H]%Hcase; [done|by apply (so_table ss Hss s0)].
    + rewrite length_app. cbn. intros s0 sc nm p [[-> ->]|H]%Hcase.
      * rewrite Hn. pose proof (so_symbols ss Hss s scope nm p Hscope) as Hb. destruct (scope_names scope !! name); [intros Hx; specialize (Hb Hx); lia|].
        intros [[_ <-]|[_ Hx]]%lookup_insert_Some; [lia|]. specialize (Hb Hx). lia.
      * intros Hx. pose proof (so_symbols ss Hss s0 sc nm p H Hx). lia.
  - split; [done|]. split; [by destruct (scope_names scope !! name)|]. intros s' name'. cbn [scope_heap].
    destruct (decide (s' = s)) as [->|Hne].
    2: { rewrite list_lookup_insert_ne by done. rewrite bool_decide_eq_false_2; [done|]. by intros [? _]. }
    rewrite list_lookup_insert_eq, Hscope by done. cbn [mbind option_bind]. rewrite Hn.
    destruct (scope_names scope !! name) as [q|] eqn:Hq; [rewrite bool_decide_eq_false_2; [done|by intros (_ & _ & [])]|].
    destruct (decide (name' = name)) as [->|Hnn].
    + rewrite lookup_insert_eq, bool_decide_eq_true_2; [done|]. by split_and!.
    + rewrite lookup_insert_ne by congruence. rewrite bool_decide_eq_false_2; [done|]. by intros (_ & ? & _).
Qed.

Lemma scope_bind_ok ss s name shape : scopes_ok ss -> s < length (scope_heap ss) ->
  exists ss', scope_bind ss s name shape = Some (ss', bool_decide (bound_in ss s name = None)) /\
    match bound_in ss s name with
    | Some _ => ss' = ss
    | None => insert_symbol ss s name (MkSymbol shape false) = Some (ss', Some (length (symbol_heap ss)))
    end.
Proof.
  intros Hss Hs. destruct (lookup_lt_is_Some_2 _ _ Hs) as [scope Hscope].
  destruct (insert_symbol_ok ss s name (MkSymbol shape false) Hss Hs) as (ss' & p & Hi & _ & _ & _ & Hp & _).
  unfold scope_bind, bound_in in *. rewrite Hscope in *. cbn [mbind option_bind] in *.
  rewrite (table_lookup_names scope name (so_table ss Hss s scope Hscope)). cbn [mbind option_bind].
  destruct (scope_names scope !! name) as [q|]; [by exists ss|]. exists ss'. rewrite Hi, Hp. done.
Qed.

Lemma links_exist ss ss' s : scope_links ss' = scope_links ss -> scope_exists ss s -> scope_exists ss' s.
Proof. intros Hl%(f_equal length). unfold scope_links in Hl. rewrite !length_fmap in Hl. destruct s; cbn; [lia|done]. Qed.

Lemma scope_create_kind_ok ss parent kind : scopes_ok ss -> scope_exists ss parent ->
  exists ss' s, scope_create_kind ss parent kind = Some (ss', s) /\ scopes_ok ss' /\ s = length (scope_heap ss) /\
    (exists scope, scope_heap ss' = scope_heap ss ++ [scope] /\ scope_names scope = ∅ /\ scope_parent scope = parent /\ scope_kind scope = kind) /\
    symbol_heap ss' = symbol_heap ss.
Proof.
  intros Hss Hp. unfold scope_create_kind, scope_init_kind.
  destruct (map_init_represents symbol_table_hash (id : StrPtr -> StrPtr) (fun _ => True) (V := nat) 2) as (m & Hm & Hr).
  change (2 ^ 3) with SYMBOL_TABLE_INITIAL_CAPACITY in Hm. rewrite Hm. cbn [mbind option_bind].
  set (scope := MkScope m parent kind). assert (Hn : scope_names scope = ∅) by exact (table_names scope ∅ Hr).
  eexists _, _. split; [done|]. split; [|split; [done|split; [|done]]].
  2: { exists scope. done. }
  assert (Hcase : forall s0 sc, (scope_heap ss ++ [scope]) !! s0 = Some sc -> scope_heap ss !! s0 = Some sc \/ (s0 = length (scope_heap ss) /\ sc = scope)).
  { intros s0 sc [Hsc|[Hl Hsc]]%lookup_app_Some; [by left|right]. apply list_lookup_singleton_Some in Hsc as [Hz <-]. split; [lia|done]. }
  split; cbn [scope_heap symbol_heap].
  - intros s0 sc p [H|[-> ->]]%Hcase; [by apply (so_older ss Hss s0 sc)|]. cbn. intros ->. done.
  - intros s0 sc [H|[-> ->]]%Hcase; [by apply (so_table ss Hss s0)|]. rewrite Hn. exact Hr.
  - intros s0 sc nm p [H|[-> ->]]%Hcase; [by apply (so_symbols ss Hss s0 sc)|]. by rewrite Hn, lookup_empty.
Qed.

(** *** Reachable scopes *)

Inductive scope_step (ss : Scopes) : Scopes -> Prop :=
  | sstep_create parent kind ss' s : scope_exists ss parent -> scope_create_kind ss parent kind = Some (ss', s) -> scope_step ss ss'
  | sstep_bind s name shape ss' b : s < length (scope_heap ss) -> scope_bind ss s name shape = Some (ss', b) -> scope_step ss ss'
  | sstep_decl_var s against name type ss' p : s < length (scope_heap ss) -> against < length (scope_heap ss) ->
      scope_decl_var_against ss s against name type = Some (ss', p) -> scope_step ss ss'
  | sstep_bind_func s against name function ss' p : s < length (scope_heap ss) -> against < length (scope_heap ss) ->
      scope_bind_func_against ss s against name function = Some (ss', p) -> scope_step ss ss'.

Lemma decl_against ss s against name shape : scopes_ok ss -> s < length (scope_heap ss) -> against < length (scope_heap ss) ->
  exists ss' p, (found ← scope_lookup_declaring ss against name;
      match found with Some _ => Some (ss, None) | None => insert_symbol ss s name (MkSymbol shape false) end) = Some (ss', p) /\
    scopes_ok ss' /\ scope_links ss' = scope_links ss /\
    (is_Some p <-> innermost (declaring_scopes ss (Some against)) name = None /\ bound_in ss s name = None) /\
    (forall s' name', bound_in ss' s' name' = if bool_decide (s' = s /\ name' = name /\ is_Some p) then p else bound_in ss s' name') /\
    (forall q, p = Some q -> symbol_heap ss !! q = None /\ symbol_heap ss' !! q = Some (MkSymbol shape false)).
Proof.
  intros Hss Hs Ha. rewrite (declaring_innermost ss Hss against name Ha). cbn [mbind option_bind].
  destruct (innermost (declaring_scopes ss (Some against)) name) as [q|] eqn:Hq.
  { exists ss, None. split; [done|]. split; [done|]. split; [done|]. split; [split; [by intros []|by intros []]|]. split; [|done].
    intros s' name'. rewrite bool_decide_eq_false_2; [done|]. by intros (_ & _ & []). }
  destruct (insert_symbol_ok ss s name (MkSymbol shape false) Hss Hs) as (ss' & p & Hi & Hok & Hl & Hsym & Hp & Hb).
  exists ss', p. split; [done|]. split; [done|]. split; [done|]. split; [|split; [done|]].
  - rewrite Hp. destruct (bound_in ss s name); [split; [by intros []|by intros [_ ?]]|by split].
  - intros q. rewrite Hp, Hsym. destruct (bound_in ss s name); [done|]. intros [= <-].
    split; [apply lookup_ge_None; lia|by rewrite lookup_app_r, Nat.sub_diag].
Qed.

Lemma scope_step_ok ss ss' : scopes_ok ss -> scope_step ss ss' -> scopes_ok ss'.
Proof.
  intros Hss Hs. destruct Hs as [parent kind ss' s Hp Hc|s name shape ss' b Hs Hb|s against name type ss' p Hs Ha Hd|s against name f ss' p Hs Ha Hd].
  - destruct (scope_create_kind_ok ss parent kind Hss Hp) as (ss1 & s1 & Hc1 & Hok & _). congruence.
  - destruct (scope_bind_ok ss s name shape Hss Hs) as (ss1 & Hb1 & Hcase). rewrite Hb in Hb1. injection Hb1 as -> _.
    destruct (insert_symbol_ok ss s name (MkSymbol shape false) Hss Hs) as (ss2 & p & Hi & Hok & _).
    destruct (bound_in ss s name); congruence.
  - destruct (decl_against ss s against name (SYMBOL_VAR type) Hss Hs Ha) as (ss1 & p1 & Hd1 & Hok & _).
    unfold scope_decl_var_against in Hd. congruence.
  - destruct (decl_against ss s against name (SYMBOL_FUNC f) Hss Hs Ha) as (ss1 & p1 & Hd1 & Hok & _).
    unfold scope_bind_func_against in Hd. congruence.
Qed.

Definition no_scopes : Scopes := MkScopes [] [].
Definition scopes_reachable (ss : Scopes) : Prop := rtc scope_step no_scopes ss.

Lemma scopes_reachable_ok ss : scopes_reachable ss -> scopes_ok ss.
Proof.
  intros Hs. apply (rtc_ind_r (R := scope_step) (fun ss => scopes_ok ss) no_scopes); [by split| |exact Hs].
  intros y z _ Hstep Hok. by eapply scope_step_ok.
Qed.
End addresses.

(** ** The properties *)

(** A small program's scopes: the names every program has, a module's, a file's
    and a function's, with a variable of the module. *)
Definition sample_scopes : Scopes := Eval vm_compute in
  default no_scopes ('(ss, global) ← scope_create no_scopes None;
    '(ss, module) ← scope_create_kind ss (Some global) SCOPE_MODULE;
    '(ss, file) ← scope_create_kind ss (Some module) SCOPE_FILE;
    '(ss, local) ← scope_create ss (Some file);
    '(ss, _) ← scope_decl_var_against sample_addr ss module file (Some 90) (Some 0); Some ss).

Lemma sample_scopes_reachable : scopes_reachable sample_addr sample_scopes.
Proof.
  eapply rtc_l; [eapply (sstep_create _ _ None SCOPE_GLOBAL); [done|by vm_compute]|].
  eapply rtc_l; [eapply (sstep_create _ _ (Some 0) SCOPE_MODULE); [cbn; lia|by vm_compute]|].
  eapply rtc_l; [eapply (sstep_create _ _ (Some 1) SCOPE_FILE); [cbn; lia|by vm_compute]|].
  eapply rtc_l; [eapply (sstep_create _ _ (Some 2) SCOPE_LOCAL); [cbn; lia|by vm_compute]|].
  eapply rtc_l; [eapply (sstep_decl_var _ _ 1 2 (Some 90) (Some 0)); [cbn; lia|cbn; lia|by vm_compute]|].
  apply rtc_refl.
Qed.

(** C23: A declaration of a variable always returns.  It is refused exactly when
    the name is bound in the scope it goes in, or in one its name is checked
    against: that scope and, from a file's scope, the ones around it.  A
    refused one binds nothing; otherwise the name stands for the new variable
    in that scope and there only, whatever the scopes around it bind it to, and
    no other binding changes.  Every lookup returns the binding of the innermost
    scope that has one.  This is so after any sequence of the operations. *)
Theorem declarations_bind_once (str_addr : nat -> N) (ss : Scopes) (s against : nat) (name : StrPtr) (type : TypePtr) :
  scopes_reachable str_addr ss -> s < length (scope_heap ss) -> against < length (scope_heap ss) ->
  exists ss' p, scope_decl_var_against str_addr ss s against name type = Some (ss', p) /\ scopes_reachable str_addr ss' /\
    (is_Some p <-> innermost (declaring_scopes ss (Some against)) name = None /\ bound_in ss s name = None) /\
    (forall s' name', bound_in ss' s' name' = if bool_decide (s' = s /\ name' = name /\ is_Some p) then p else bound_in ss s' name') /\
    (forall q, p = Some q -> scope_lookup str_addr ss' (Some s) name = Some (Some q) /\
       symbol_at ss' (Some q) = Some (MkSymbol (SYMBOL_VAR type) false)) /\
    (forall s' name', scope_exists ss' s' -> scope_lookup str_addr ss' s' name' = Some (innermost (visible_scopes ss' s') name') /\
       scope_type_lookup_declaring str_addr ss' s' name' = Some (innermost (module_scopes ss' s') name')).
Proof.
  intros Hr Hs Ha. pose proof (scopes_reachable_ok _ ss Hr) as Hss.
  destruct (decl_against str_addr ss s against name (SYMBOL_VAR type) Hss Hs Ha) as (ss' & p & Hd & Hok & Hl & Hp & Hb & Hsym).
  assert (Hfind : forall s' name', scope_exists ss' s' -> scope_lookup str_addr ss' s' name' = Some (innermost (visible_scopes ss' s') name')).
  { intros s' name' He. apply (lookup_from_innermost str_addr ss' Hok). intros n ->. split; exact He. }
  exists ss', p. split; [done|]. split; [eapply rtc_r; [exact Hr|eapply sstep_decl_var; [exact Hs|exact Ha|exact Hd]]|]. split; [done|]. split; [done|]. split.
  - intros q ->. split; [|exact (proj2 (Hsym q eq_refl))].
    pose proof (links_exist ss ss' (Some s) Hl Hs) as He. rewrite Hfind by done. unfold visible_scopes, scope_fuel.
    destruct (lookup_lt_is_Some_2 _ _ He) as [scope Hscope]. destruct (length (scope_heap ss')) as [|fuel] eqn:Hfuel; [cbn in He; lia|].
    cbn [scopes_from]. rewrite Hscope, innermost_cons. specialize (Hb s name). unfold bound_in in Hb. rewrite Hscope in Hb.
    cbn [mbind option_bind] in Hb. rewrite bool_decide_eq_true_2 in Hb by (split_and!; by try eexists). by rewrite Hb.
  - intros s' name' He. split; [by apply Hfind|]. apply (type_lookup_from_innermost str_addr ss' Hok). intros n ->. split; exact He.
Qed.

Lemma declarations_bind_once_witness :
  scope_lookup sample_addr sample_scopes (Some 3) (Some 90) = Some (Some 0) /\
  exists ss' p, scope_decl_var_against sample_addr sample_scopes 3 3 (Some 90) (Some 1) = Some (ss', Some p) /\
    scope_lookup sample_addr ss' (Some 3) (Some 90) = Some (Some p) /\ bound_in ss' 1 (Some 90) = Some 0.
Proof.
  split; [reflexivity|].
  destruct (declarations_bind_once sample_addr sample_scopes 3 3 (Some 90) (Some 1) sample_scopes_reachable) as (ss' & p & H1 & _ & H2 & H3 & H4 & _).
  - apply Nat.ltb_lt; reflexivity.
  - apply Nat.ltb_lt; reflexivity.
  - destruct (proj2 H2 ltac:(split; reflexivity)) as [q Hq]. subst p. exists ss', q. split; [exact H1|]. split; [apply (H4 q eq_refl)|].
    rewrite H3. reflexivity.
Defined.
