(* ===== verification/Instantiate.v ===== *)
(** * Instantiate: a generic body at its arguments

    [src/src/mir/mir_instantiate.c].  The registries a body is instantiated with
    are a state the functions thread, in a monad whose [None] is a failed
    [assert], the dereference of a null pointer or a read out of an array. *)

From S2P Require Import Prelude Types Mir Decl HashMap Registry RegistryTypes RegistryState Containers Functions.

(** ** The registries as a state *)

Record World := MkWorld { world_types : TypeRegistry; world_functions : FunctionRegistry }.

Definition Inst (A : Type) : Type := World -> option (World * A).

#[export] Instance Inst_ret : MRet Inst := fun A a w => Some (w, a).
#[export] Instance Inst_bind : MBind Inst := fun A B f m w =>
  match m w with Some (w, a) => f a w | None => None end.

Definition stuck {A} : Inst A := fun _ => None.
Definition lift_option {A} (o : option A) : Inst A := fun w => (fun a => (w, a)) <$> o.
Definition get_types : Inst TypeRegistry := fun w => Some (w, world_types w).
Definition get_functions : Inst FunctionRegistry := fun w => Some (w, world_functions w).

(** The loops that make one entry from each of an array. *)
Fixpoint map_entries_m {A B} (f : A -> Inst B) (l : list A) : Inst (list B) :=
  match l with
  | [] => mret []
  | a :: l => b ← f a; bs ← map_entries_m f l; mret (b :: bs)
  end.

Section instantiation.
(** The arena's addresses, and the [args] of the [Instantiation]. *)
Context (type_addr str_addr : nat -> N) (in_args : list TypeArg).

Definition subst_type (type : TypePtr) : Inst TypePtr := fun w =>
  '(r, q) ← type_registry_substitute type_addr str_addr (substitute_fuel (world_types w)) (world_types w) type in_args;
  Some (MkWorld r (world_functions w), q).

Definition subst_constant (constant : Constant) : Inst Constant :=
  type ← subst_type (constant_type constant);
  r ← get_types;
  if bool_decide (kind_at (reg_types r) type = Some TYPE_ARRAY) then
    length ← lift_option (type_array_length (deref r type));
    i32 ← lift_option (type_registry_get_primitive r TYPE_I32);
    mret (MkConstant i32 (as_int length))
  else mret (MkConstant type (constant_value constant)).

Definition subst_arg (arg : TypeArg) : Inst TypeArg :=
  match arg with
  | TYPE_ARG_TYPE type => type ← subst_type type; mret (TYPE_ARG_TYPE type)
  | TYPE_ARG_CONST (CONST_PARAM param) => mret (default arg (in_args !! param))
  | TYPE_ARG_CONST (CONST_VALUE _) => mret arg
  end.

Definition owned_for (type : TypePtr) (name : StrPtr) : Inst FuncPtr := fun w =>
  '(r, fr, p) ← function_registry_owned_for type_addr str_addr (world_types w) (world_functions w) type name;
  Some (MkWorld r fr, p).

Definition instance_of (decl : FuncDecl) (l : list TypeArg) : Inst nat := fun w =>
  '(r, fr, p) ← function_registry_instance type_addr str_addr (world_types w) (world_functions w) decl l;
  Some (MkWorld r fr, p).

(** The [memcmp] of two arguments tells them apart when their members differ;
    what lies between the members is zero in both. *)
Definition args_moved (l l' : list TypeArg) : bool := negb (bool_decide (l = l')).

Definition subst_callee (callee : FuncPtr) : Inst FuncPtr :=
  match callee with
  | None => mret None
  | Some p =>
      fr ← get_functions;
      f ← lift_option (reg_functions fr !! p);
      match func_interface (fn_decl f), fn_type_args f with
      | Some _, TYPE_ARG_TYPE type :: _ =>
          self ← subst_type type;
          found ← owned_for self (id_name (func_id (fn_decl f)));
          mret (match found with Some _ => found | None => callee end)
      | Some _, TYPE_ARG_CONST _ :: _ => stuck
      | _, [] => mret callee
      | None, given =>
          l ← map_entries_m subst_arg (take GAB_MAX_TYPE_PARAMS given);
          if negb (args_moved (take GAB_MAX_TYPE_PARAMS given) l) then mret callee
          else if Nat.ltb GAB_MAX_TYPE_PARAMS (length given) then stuck
          else q ← instance_of (fn_decl f) l; mret (Some q)
      end
  end.

Definition subst_projection (p : Projection) : Inst Projection :=
  type ← subst_type (proj_type p); mret (MkProjection (proj_kind p) type).

(** [clone_projections] and [subst_place]. *)
Definition subst_place (place : Place) : Inst Place :=
  ps ← map_entries_m subst_projection (projections place);
  mret (MkPlace (base place) ps (binding place)).

Definition clone_arg (arg : MIROperand) : Inst MIROperand :=
  match arg with
  | OPERAND_VALUE v => mret (OPERAND_VALUE v)
  | OPERAND_CONST c => c ← subst_constant c; mret (OPERAND_CONST c)
  end.

Definition clone_args : list MIROperand -> Inst (list MIROperand) := map_entries_m clone_arg.

Definition op_is_const (o : MIROp) : bool :=
  match o with MIR_CONST_INT | MIR_CONST_FLOAT | MIR_CONST_BOOL | MIR_CONST_STR => true | _ => false end.

Definition subst_payload (inst : MIRInst) : Inst MIRPayload :=
  if mir_op_has_place (op inst) then
    place ← subst_place (inst_place inst); mret (payload_place place (inst_read inst) (inst_flag inst))
  else if bool_decide (op inst = MIR_CALL) then callee ← subst_callee (inst_callee inst); mret (payload_callee callee)
  else if op_is_const (op inst) then constant ← subst_constant (inst_constant inst); mret (payload_constant constant)
  else mret (payload inst).

Definition subst_inst (inst : MIRInst) : Inst MIRInst :=
  type ← subst_type (inst_type inst);
  l ← clone_args (args inst);
  p ← subst_payload inst;
  mret (MkInst (op inst) type (result inst) l p (ending inst) (inst_span inst)).

(** A call of an intrinsic with two arguments, both of them values. *)
Definition indexing_call (fr : FunctionRegistry) (inst : MIRInst) : option (option (MIRValueId * MIRValueId)) :=
  if negb (bool_decide (op inst = MIR_CALL)) then Some None
  else
    match inst_callee inst with
    | None => Some None
    | Some p =>
        f ← reg_functions fr !! p;
        if negb (has_modifier (fn_decl f) FUNC_MOD_INTRINSIC) then Some None
        else
          match args inst with
          | [receiver; index] =>
              let receiver := mir_operand_as_value receiver in
              let index := mir_operand_as_value index in
              if mir_value_is_none receiver || mir_value_is_none index then Some None
              else Some (Some (receiver, index))
          | _ => Some None
          end
    end.

Definition container_fuel (r : TypeRegistry) : nat := length (reg_types r).

(** The kinds and pointees of the registry's types are all [expand_intrinsic]
    asks of them. *)
Definition expand_intrinsic (values : list MIRValueInfo) (inst : MIRInst) : Inst (list MIRInst) :=
  fr ← get_functions;
  call ← lift_option (indexing_call fr inst);
  match call with
  | None => mret [inst]
  | Some (receiver, index) =>
      held ← lift_option (value_type <$> values !! N.to_nat receiver);
      r ← get_types;
      let TV := registry_view type_addr str_addr 0 r in
      container ← lift_option (mir_indexed_container (container_fuel r) held);
      t ← lift_option (deref r container);
      element ← lift_option (if bool_decide (ty_kind t = TYPE_SLICE) then type_slice_element (Some t) else type_array_element (Some t));
      let place := mir_place_index (mir_place_of receiver None) held index element in
      checked ← lift_option (mir_bounds_operands (container_fuel r) place held index);
      mret [MkInst MIR_BOUNDS container MIR_NO_VALUE (mir_operand_value <$> checked) (payload_constant zero_constant) None (inst_span inst);
            MkInst MIR_REF (inst_type inst) (result inst) [] (payload_place place READ_COPY 0) None (inst_span inst)]
  end.

(** One turn of the loop over a block's instructions. *)
Definition instantiate_inst (values : list MIRValueInfo) (inst : MIRInst) : Inst (list MIRInst) :=
  inst ← subst_inst inst; expand_intrinsic values inst.

Definition instantiate_block (values : list MIRValueInfo) (from : MIRBlock) : Inst MIRBlock :=
  l ← map_entries_m (instantiate_inst values) (insts from);
  mret (MkBlock (block_id from) (concat l)).

Definition instantiate_value (value : MIRValueInfo) : Inst MIRValueInfo :=
  type ← subst_type (value_type value);
  mret (MkValueInfo type (value_binding value) (value_span value)).

Definition mir_instantiate (generic : MIRFunction) (instance : FuncPtr) : Inst MIRFunction :=
  vs ← map_entries_m instantiate_value (values generic);
  bs ← map_entries_m (instantiate_block vs) (blocks generic);
  mret (MkFunction instance bs (entry generic) vs (params generic)).
End instantiation.

(** ** The types of a body *)

Definition operand_types (arg : MIROperand) : list TypePtr :=
  match arg with OPERAND_VALUE _ => [] | OPERAND_CONST c => [constant_type c] end.

Definition inst_types (inst : MIRInst) : list TypePtr :=
  inst_type inst :: concat (operand_types <$> args inst) ++
  (if mir_op_has_place (op inst) then proj_type <$> projections (inst_place inst) else []) ++
  (if op_is_const (op inst) then [constant_type (inst_constant inst)] else []).

Definition mir_types (ir : MIRFunction) : list TypePtr :=
  (value_type <$> values ir) ++ concat ((fun b => concat (inst_types <$> insts b)) <$> blocks ir).

(** ** Running in a world *)

Section running.
Context (type_addr str_addr : nat -> N).
#[local] Abbreviation step := (fun x y : World =>
  function_step type_addr str_addr (world_types x) (world_functions x) (world_types y) (world_functions y)).

Definition world_ok (w : World) : Prop :=
  registry_ok type_addr str_addr (world_types w) /\ functions_ok type_addr str_addr (world_types w) (world_functions w).

(** What making types and instances does to a world: nothing a type owns is
    declared on the way. *)
Record extends (w w' : World) : Prop := {
  ex_steps : rtc step w w';
  ex_owned : owned (world_functions w') = owned (world_functions w);
}.

#[export] Instance extends_preorder : PreOrder extends.
Proof.
  split; [by intros w; split|]. intros w1 w2 w3 [H1 H2] [H3 H4]. split; [by etrans|congruence].
Qed.

Lemma extends_advances w w' : world_ok w -> extends w w' ->
  advances type_addr str_addr (world_types w) (world_functions w) (world_types w') (world_functions w').
Proof.
  intros [Hr Hf] [Hs _]. induction Hs as [w|w1 w2 w3 Hs _ IH]; [by apply advances_refl|].
  pose proof (function_step_advances _ _ _ _ _ _ Hr Hf Hs) as Had. eapply advances_trans; [exact Had|].
  destruct Had as [Hl Hok _]. apply IH; [apply Hl|done].
Qed.

Lemma extends_ok w w' : world_ok w -> extends w w' -> world_ok w'.
Proof. intros Hw He. destruct (extends_advances w w' Hw He) as [Hl Hok _]. split; [apply Hl|done]. Qed.

Lemma extends_grows w w' : world_ok w -> extends w w' -> grows (world_types w) (world_types w').
Proof. intros Hw He. by destruct (extends_advances w w' Hw He) as [[_ Hg] _ _]. Qed.

Lemma extends_ptr w w' p : world_ok w -> extends w w' -> ptr_valid (reg_types (world_types w)) p ->
  ptr_valid (reg_types (world_types w')) p /\ ty_of (world_types w') p = ty_of (world_types w) p.
Proof.
  intros Hw He Hp. pose proof (extends_grows w w' Hw He) as Hg. split; [by eapply ptr_valid_grows|].
  apply (ty_of_grows type_addr str_addr); [apply Hw|done|done].
Qed.

(** A computation, from a world: it leaves a later one with the answer it
    promises, or it stops for the reason [E]. *)
Definition runs {A} (E : Prop) (m : Inst A) (w : World) (Q : World -> A -> Prop) : Prop :=
  match m w with Some (w', a) => extends w w' /\ Q w' a | None => E end.

Lemma runs_ret {A} E (a : A) w (Q : World -> A -> Prop) : Q w a -> runs E (mret a) w Q.
Proof. intros H. by split. Qed.

Lemma runs_bind {A B} E (m : Inst A) (f : A -> Inst B) w (Q : World -> A -> Prop) (R : World -> B -> Prop) :
  runs E m w Q -> (forall w' a, extends w w' -> Q w' a -> runs E (f a) w' R) -> runs E (a ← m; f a) w R.
Proof.
  unfold runs. intros Hm Hf. unfold mbind, Inst_bind. destruct (m w) as [[w1 a]|]; [|done]. destruct Hm as [He Hq].
  specialize (Hf w1 a He Hq). destruct (f a w1) as [[w2 b]|]; [|done]. destruct Hf as [He2 Hr]. split; [by etrans|done].
Qed.

Lemma inst_runs_weaken {A} E (m : Inst A) w (Q R : World -> A -> Prop) :
  runs E m w Q -> (forall w' a, extends w w' -> Q w' a -> R w' a) -> runs E m w R.
Proof. unfold runs. intros Hm Hw. destruct (m w) as [[w1 a]|]; [|done]. destruct Hm as [He Hq]. split; [done|by apply Hw]. Qed.

Lemma runs_lift {A} E (o : option A) w (Q : World -> A -> Prop) :
  (match o with Some a => Q w a | None => E end) -> runs E (lift_option o) w Q.
Proof. unfold runs, lift_option. destruct o; cbn; [by split|done]. Qed.

Lemma runs_types {B} E (f : TypeRegistry -> Inst B) w (R : World -> B -> Prop) :
  runs E (f (world_types w)) w R -> runs E (r ← get_types; f r) w R.
Proof. done. Qed.

Lemma runs_functions {B} E (f : FunctionRegistry -> Inst B) w (R : World -> B -> Prop) :
  runs E (f (world_functions w)) w R -> runs E (r ← get_functions; f r) w R.
Proof. done. Qed.

(** A loop: each turn runs in the world the turns before it left, and what it
    promised still holds after the turns that follow. *)
Lemma runs_map {A B} E (f : A -> Inst B) (Q : World -> A -> B -> Prop) l : forall w,
  (forall w1 w2 a b, a ∈ l -> extends w w1 -> extends w1 w2 -> Q w1 a b -> Q w2 a b) ->
  (forall w1 a, a ∈ l -> extends w w1 -> runs E (f a) w1 (fun w2 b => Q w2 a b)) ->
  runs E (map_entries_m f l) w (fun w2 bs => Forall2 (Q w2) l bs).
Proof.
  induction l as [|a l IH]; intros w Hstable Hf; [by apply runs_ret|]. cbn [map_entries_m].
  eapply runs_bind; [apply Hf; [left|done]|]. intros w1 b He Hb. cbn beta in Hb.
  eapply runs_bind.
  - apply (IH w1).
    + intros w2 w3 x y Hx H1 H2. apply Hstable; [by right|by etrans|done].
    + intros w2 x Hx H1. apply Hf; [by right|by etrans].
  - intros w2 bs He2 Hbs. apply runs_ret. constructor; [|done]. eapply Hstable; [left|exact He|exact He2|done].
Qed.
End running.

(** ** What an instance is *)

Section instance.
Context (type_addr str_addr : nat -> N) (in_args : list TypeArg) (w0 : World).
#[local] Abbreviation extends := (extends type_addr str_addr).
#[local] Abbreviation world_ok := (world_ok type_addr str_addr).
#[local] Abbreviation runs E := (runs type_addr str_addr E).

(** The terms of the arguments. *)
Definition given : list Ty := arg_ty (world_types w0) <$> in_args.

Definition type_ready (w : World) (p : TypePtr) : Prop :=
  ptr_valid (reg_types (world_types w)) p /\ own_params (ty_of (world_types w) p) = true /\ fits in_args (ty_of (world_types w) p) = true.

(** A type and the one it becomes. *)
Definition type_becomes (w : World) (p q : TypePtr) : Prop :=
  ptr_valid (reg_types (world_types w)) p /\ ptr_valid (reg_types (world_types w)) q /\
  ty_of (world_types w) q = subst_ty given (ty_of (world_types w) p).

(** A constant whose type becomes an array is the array's length. *)
Definition constant_becomes (w : World) (c c' : Constant) : Prop :=
  ptr_valid (reg_types (world_types w)) (constant_type c) /\
  match subst_ty given (ty_of (world_types w) (constant_type c)) with
  | TApp TYPE_ARRAY _ [_; TConst _ n] =>
      type_registry_get_primitive (world_types w) TYPE_I32 = Some (constant_type c') /\ constant_value c' = as_int (to_i32 n)
  | _ => type_becomes w (constant_type c) (constant_type c') /\ constant_value c' = constant_value c
  end.

Definition operand_ready (w : World) (arg : MIROperand) : Prop :=
  match arg with OPERAND_VALUE _ => True | OPERAND_CONST c => type_ready w (constant_type c) end.

Definition operand_becomes (w : World) (arg arg' : MIROperand) : Prop :=
  match arg, arg' with
  | OPERAND_VALUE v, OPERAND_VALUE v' => v' = v
  | OPERAND_CONST c, OPERAND_CONST c' => constant_becomes w c c'
  | _, _ => False
  end.

Definition projection_becomes (w : World) (p p' : Projection) : Prop :=
  proj_kind p' = proj_kind p /\ type_becomes w (proj_type p) (proj_type p').

Definition place_becomes (w : World) (place place' : Place) : Prop :=
  base place' = base place /\ binding place' = binding place /\ Forall2 (projection_becomes w) (projections place) (projections place').

Definition arg_ready (w : World) (arg : TypeArg) : Prop :=
  match arg with
  | TYPE_ARG_TYPE type => type_ready w type
  | TYPE_ARG_CONST (CONST_PARAM i) => exists c, in_args !! i = Some (TYPE_ARG_CONST c)
  | TYPE_ARG_CONST (CONST_VALUE v) => int_kind_at (reg_types (world_types w)) (constant_type v)
  end.

Definition same_sort (a b : TypeArg) : Prop :=
  match a, b with TYPE_ARG_TYPE _, TYPE_ARG_TYPE _ | TYPE_ARG_CONST _, TYPE_ARG_CONST _ => True | _, _ => False end.

Definition arg_becomes (w : World) (arg arg' : TypeArg) : Prop :=
  arg_valid (reg_types (world_types w)) arg /\ arg_valid (reg_types (world_types w)) arg' /\ same_sort arg arg' /\
  arg_ty (world_types w) arg' = subst_ty given (arg_ty (world_types w) arg).

(** A function called: an interface's method has the type it is called at as its
    first argument, and what the type it becomes owns under the name can be
    instantiated at that type's arguments. *)
Definition callee_ready (w : World) (callee : FuncPtr) : Prop :=
  match callee with
  | None => True
  | Some p => exists f, reg_functions (world_functions w) !! p = Some f /\
      match func_interface (fn_decl f), fn_type_args f with
      | Some _, TYPE_ARG_TYPE type :: _ => type_ready w type /\
          (forall w' self, extends w w' -> type_becomes w' type self ->
             owned_fits str_addr (world_types w') (world_functions w') self (id_name (func_id (fn_decl f))))
      | Some _, TYPE_ARG_CONST _ :: _ => False
      | _, own => Forall (arg_ready w) own
      end
  end.

(** What the type a method is called at owns under its name. *)
Definition method_found (w : World) (type : TypePtr) (name : StrPtr) (p q : nat) (g : Function) : Prop :=
  exists w1 self, extends w0 w1 /\ extends w1 w /\ type_becomes w1 type self /\
    (function_registry_find_owned str_addr (world_types w1) (world_functions w1) self name = Some None /\ q = p \/
     exists o h, function_registry_find_owned str_addr (world_types w1) (world_functions w1) self name = Some (Some o) /\
       reg_functions (world_functions w1) !! o = Some h /\ func_id (fn_decl g) = func_id (fn_decl h)).

Definition callee_becomes (w : World) (callee callee' : FuncPtr) : Prop :=
  match callee, callee' with
  | None, None => True
  | Some p, Some q => exists f g, reg_functions (world_functions w) !! p = Some f /\ reg_functions (world_functions w) !! q = Some g /\
      match func_interface (fn_decl f), fn_type_args f with
      | Some _, TYPE_ARG_TYPE type :: _ => method_found w type (id_name (func_id (fn_decl f))) p q g
      | _, own => func_id (fn_decl g) = func_id (fn_decl f) /\
          arg_ty (world_types w) <$> fn_type_args g = subst_ty given <$> (arg_ty (world_types w) <$> own)
      end
  | _, _ => False
  end.

Definition payload_ready (w : World) (inst : MIRInst) : Prop :=
  if mir_op_has_place (op inst) then Forall (fun p => type_ready w (proj_type p)) (projections (inst_place inst))
  else if bool_decide (op inst = MIR_CALL) then callee_ready w (inst_callee inst)
  else if op_is_const (op inst) then type_ready w (constant_type (inst_constant inst))
  else True.

Definition payload_becomes (w : World) (inst : MIRInst) (p' : MIRPayload) : Prop :=
  if mir_op_has_place (op inst) then
    exists place', p' = payload_place place' (inst_read inst) (inst_flag inst) /\ place_becomes w (inst_place inst) place'
  else if bool_decide (op inst = MIR_CALL) then
    exists callee', p' = payload_callee callee' /\ callee_becomes w (inst_callee inst) callee'
  else if op_is_const (op inst) then
    exists c', p' = payload_constant c' /\ constant_becomes w (inst_constant inst) c'
  else p' = payload inst.

Definition inst_ready (w : World) (inst : MIRInst) : Prop :=
  type_ready w (inst_type inst) /\ Forall (operand_ready w) (args inst) /\ payload_ready w inst.

Record inst_becomes (w : World) (inst inst' : MIRInst) : Prop := {
  ib_op : op inst' = op inst;
  ib_type : type_becomes w (inst_type inst) (inst_type inst');
  ib_result : result inst' = result inst;
  ib_args : Forall2 (operand_becomes w) (args inst) (args inst');
  ib_payload : payload_becomes w inst (payload inst');
  ib_ending : ending inst' = ending inst;
  ib_span : inst_span inst' = inst_span inst;
}.

(** A call of an intrinsic that indexes is a check and a reference to the
    element: through the reference held, if it is one, and at the index. *)
Definition expands (w : World) (vs : list MIRValueInfo) (inst : MIRInst) (l : list MIRInst) : Prop :=
  match indexing_call (world_functions w) inst with
  | None => False
  | Some None => l = [inst]
  | Some (Some (receiver, index)) =>
      exists info held container element pointee check, vs !! N.to_nat receiver = Some info /\
        held = ty_of (world_types w) (value_type info) /\ is_container (indexed_ty held) /\
        Forall (ptr_valid (reg_types (world_types w))) [container; element; pointee] /\
        ty_of (world_types w) container = indexed_ty held /\ ty_of (world_types w) element = element_ty (indexed_ty held) /\
        check = (match indexed_ty held with TApp TYPE_SLICE _ _ => [index; receiver] | _ => [index] end) /\
        l = [MkInst MIR_BOUNDS container MIR_NO_VALUE (mir_operand_value <$> check) (payload_constant zero_constant) None (inst_span inst);
             MkInst MIR_REF (inst_type inst) (result inst) []
               (payload_place (MkPlace receiver
                  (match held with TRef _ => [MkProjection PROJ_DEREF pointee] | _ => [] end ++ [MkProjection (PROJ_INDEX index) element]) None)
                  READ_COPY 0) None (inst_span inst)] /\
        (forall T, held = TRef T -> ty_of (world_types w) pointee = T)
  end.

(** The calls that stop an instantiation: an intrinsic that indexes, of a value
    that holds neither a slice nor an array. *)
Definition indexes_no_container (vs : list MIRValueInfo) (inst : MIRInst) : Prop :=
  exists w inst' receiver index, extends w0 w /\ inst_becomes w inst inst' /\
    indexing_call (world_functions w) inst' = Some (Some (receiver, index)) /\
    forall info, vs !! N.to_nat receiver = Some info -> ~ is_container (indexed_ty (subst_ty given (ty_of (world_types w) (value_type info)))).

(** What becomes of an instruction, of a block, of a body. *)
Definition inst_instance (w : World) (vs : list MIRValueInfo) (inst : MIRInst) (l : list MIRInst) : Prop :=
  exists inst', inst_becomes w inst inst' /\ expands w vs inst' l.

Definition block_becomes (w : World) (vs : list MIRValueInfo) (b b' : MIRBlock) : Prop :=
  block_id b' = block_id b /\ exists ls, insts b' = concat ls /\ Forall2 (inst_instance w vs) (insts b) ls.

Definition value_becomes (w : World) (v v' : MIRValueInfo) : Prop :=
  type_becomes w (value_type v) (value_type v') /\ value_binding v' = value_binding v /\ value_span v' = value_span v.

Record body_becomes (w : World) (generic : MIRFunction) (instance : FuncPtr) (out : MIRFunction) : Prop := {
  bb_function : mir_function out = instance;
  bb_entry : entry out = entry generic;
  bb_params : params out = params generic;
  bb_values : Forall2 (value_becomes w) (values generic) (values out);
  bb_blocks : Forall2 (block_becomes w (values out)) (blocks generic) (blocks out);
}.

Definition body_ready (w : World) (generic : MIRFunction) : Prop :=
  Forall (fun v => type_ready w (value_type v)) (values generic) /\
  Forall (fun b => Forall (inst_ready w) (insts b)) (blocks generic).

(** *** Stability *)

Context (Hw0 : world_ok w0) (Hargs : args_ok (world_types w0) in_args)
  (Hconcrete : type_args_are_concrete (world_types w0) in_args = true).

Lemma world_ok_at w : extends w0 w -> world_ok w.
Proof using Hw0. by apply extends_ok. Qed.

Lemma args_valid_at w : extends w0 w -> Forall (arg_valid (reg_types (world_types w))) in_args.
Proof using Hw0 Hargs. intros He. eapply args_valid_grows; [by eapply extends_grows|apply Hargs]. Qed.

Lemma given_at w : extends w0 w -> arg_ty (world_types w) <$> in_args = given.
Proof using Hw0 Hargs. intros He. apply (args_ty_grows type_addr str_addr); [apply Hw0|by eapply extends_grows|apply Hargs]. Qed.

Lemma given_closed T : T ∈ given -> ty_mentions T = false.
Proof using Hw0 Hargs Hconcrete.
  intros (a & -> & Ha)%list_elem_of_fmap. unfold type_args_are_concrete in Hconcrete. rewrite forallb_forall in Hconcrete.
  specialize (Hconcrete a (proj1 (list_elem_of_In _ _) Ha)). destruct Hargs as [Hv _]. rewrite Forall_forall in Hv. specialize (Hv a Ha).
  destruct a as [p|[v|i]]; cbn [arg_is_const_param negb] in Hconcrete; try done.
  change (ty_mentions (ty_of (world_types w0) p) = false). rewrite <- (has_param_meaning type_addr str_addr); [by apply negb_true_iff|apply Hw0|done].
Qed.

(** Nothing substituted mentions a parameter. *)
Lemma subst_given_closed T : ty_mentions (subst_ty given T) = false.
Proof using Hw0 Hargs Hconcrete.
  assert (Hd : forall i, ty_mentions (default TNull (given !! i)) = false).
  { intros i. destruct (given !! i) as [T'|] eqn:Hi; [|done]. cbn. apply given_closed. by eapply list_elem_of_lookup_2. }
  induction T as [|k|i|T IH|T IH|k d ts IH|k z|i] using Ty_nested_ind; try done; try exact (Hd i).
  cbn [subst_ty ty_mentions]. induction IH as [|t ts Ht _ IHts]; [done|]. cbn [fmap list_fmap existsb]. by rewrite Ht.
Qed.

Lemma type_ready_later w w' p : world_ok w -> extends w w' -> type_ready w p -> type_ready w' p.
Proof. intros Hw He (Hv & Ho & Hf). destruct (extends_ptr _ _ w w' p Hw He Hv) as [Hv' Heq]. unfold type_ready. by rewrite Heq. Qed.

Lemma type_becomes_later w w' p q : world_ok w -> extends w w' -> type_becomes w p q -> type_becomes w' p q.
Proof.
  intros Hw He (Hp & Hq & Ht). destruct (extends_ptr _ _ w w' p Hw He Hp) as [Hp' Heq]. destruct (extends_ptr _ _ w w' q Hw He Hq) as [Hq' Heq'].
  unfold type_becomes. by rewrite Heq, Heq'.
Qed.

Lemma primitive_later w w' k : world_ok w -> extends w w' ->
  type_registry_get_primitive (world_types w') k = type_registry_get_primitive (world_types w) k.
Proof. intros Hw He. eapply get_primitive_grows. by eapply extends_grows. Qed.

Lemma constant_becomes_later w w' c c' : world_ok w -> extends w w' -> constant_becomes w c c' -> constant_becomes w' c c'.
Proof.
  intros Hw He [Hv Hc]. destruct (extends_ptr _ _ w w' _ Hw He Hv) as [Hv' Heq]. split; [done|]. revert Hc. rewrite Heq.
  assert (Hrest : type_becomes w (constant_type c) (constant_type c') /\ constant_value c' = constant_value c ->
    type_becomes w' (constant_type c) (constant_type c') /\ constant_value c' = constant_value c).
  { intros [H1 H2]. split; [by eapply type_becomes_later|done]. }
  rewrite (primitive_later w w') by done. repeat case_match; done.
Qed.

Lemma function_later w w' p f : world_ok w -> extends w w' -> reg_functions (world_functions w) !! p = Some f ->
  exists f', reg_functions (world_functions w') !! p = Some f' /\ function_core f' = function_core f.
Proof. intros Hw He Hp. destruct (extends_advances _ _ w w' Hw He) as [_ _ Hg]. by apply Hg. Qed.

Lemma callee_becomes_later w w' callee callee' : extends w0 w -> extends w w' ->
  callee_becomes w callee callee' -> callee_becomes w' callee callee'.
Proof using Hw0.
  intros He0 He. pose proof (world_ok_at w He0) as Hw. destruct callee as [p|], callee' as [q|]; try done.
  intros (f & g & Hf & Hg & Hcase). destruct (function_later w w' p f Hw He Hf) as (f' & Hf' & Hcf).
  destruct (function_later w w' q g Hw He Hg) as (g' & Hg' & Hcg). injection Hcf as Hd1 _ Ha1. injection Hcg as Hd2 _ Ha2.
  exists f', g'. split; [done|]. split; [done|]. rewrite Hd1, Ha1.
  assert (Hsame : forall x h, reg_functions (world_functions w) !! x = Some h ->
    arg_ty (world_types w') <$> fn_type_args h = arg_ty (world_types w) <$> fn_type_args h).
  { intros x h Hx. apply (args_ty_grows type_addr str_addr); [apply Hw|by eapply extends_grows|].
    by eapply fo_args, fn_functions; [apply Hw|]. }
  assert (Hplain : func_id (fn_decl g) = func_id (fn_decl f) /\
      arg_ty (world_types w) <$> fn_type_args g = subst_ty given <$> (arg_ty (world_types w) <$> fn_type_args f) ->
    func_id (fn_decl g') = func_id (fn_decl f) /\
      arg_ty (world_types w') <$> fn_type_args g' = subst_ty given <$> (arg_ty (world_types w') <$> fn_type_args f)).
  { intros [H1 H2]. rewrite Hd2, Ha2, (Hsame q g Hg), (Hsame p f Hf). done. }
  destruct (func_interface (fn_decl f)) as [i|]; [|by apply Hplain].
  destruct (fn_type_args f) as [|[t|c] own] eqn:Hown; [by apply Hplain| |by apply Hplain].
  destruct Hcase as (w1 & self & H1 & H2 & H3 & H4). exists w1, self. split; [done|]. split; [by etrans|]. split; [done|].
  destruct H4 as [H4|(o & h & H5 & H6 & H7)]; [by left|right]. exists o, h. rewrite Hd2. done.
Qed.

Lemma operand_becomes_later w w' a a' : world_ok w -> extends w w' -> operand_becomes w a a' -> operand_becomes w' a a'.
Proof. intros Hw He. destruct a, a'; try done. by apply constant_becomes_later. Qed.

Lemma projection_becomes_later w w' p p' : world_ok w -> extends w w' -> projection_becomes w p p' -> projection_becomes w' p p'.
Proof. intros Hw He [H1 H2]. split; [done|by eapply type_becomes_later]. Qed.

Lemma payload_becomes_later w w' inst p : extends w0 w -> extends w w' -> payload_becomes w inst p -> payload_becomes w' inst p.
Proof using Hw0.
  intros He0 He. pose proof (world_ok_at w He0) as Hw. unfold payload_becomes. destruct (mir_op_has_place _).
  { intros (pl & -> & H1 & H2 & H3). exists pl. split; [done|]. split; [done|]. split; [done|].
    eapply Forall2_impl; [exact H3|]. intros x y. by apply projection_becomes_later. }
  destruct (bool_decide _); [intros (c & -> & H); exists c; split; [done|by eapply callee_becomes_later]|].
  destruct (op_is_const _); [|done]. intros (c & -> & H). exists c. split; [done|by eapply constant_becomes_later].
Qed.

Lemma inst_becomes_later w w' inst inst' : extends w0 w -> extends w w' -> inst_becomes w inst inst' -> inst_becomes w' inst inst'.
Proof using Hw0.
  intros He0 He. pose proof (world_ok_at w He0) as Hw. intros [H1 H2 H3 H4 H5 H6 H7]. split; try done.
  - by eapply type_becomes_later.
  - eapply Forall2_impl; [exact H4|]. intros x y. by apply operand_becomes_later.
  - by eapply payload_becomes_later.
Qed.

(** *** The functions *)

Lemma subst_type_runs E w p : extends w0 w -> type_ready w p -> runs E (subst_type type_addr str_addr in_args p) w (fun w' q => type_becomes w' p q).
Proof using Hw0 Hargs.
  intros He (Hv & Ho & Hf). pose proof (world_ok_at w He) as [Hr Hfr]. pose proof (args_valid_at w He) as Ha.
  pose proof (ok_types _ _ _ Hr) as Hty.
  destruct (substitute_returns type_addr str_addr (substitute_fuel (world_types w)) (world_types w) p in_args Hty Hv Ha
    (ptr_depth_fuel _ p Hv) Ho Hf) as (r' & q & Hs & Hk & Hq & Hm).
  unfold runs, subst_type. rewrite Hs. cbn [mbind option_bind].
  assert (Hext : extends w (MkWorld r' (world_functions w))).
  { split; [|done]. apply rtc_once. cbn. apply fstep_types. by eapply step_substitute. }
  destruct (extends_ptr _ _ w _ p (conj Hr Hfr) Hext Hv) as [Hv' Heq].
  split; [done|]. split; [done|]. split; [done|]. rewrite Heq. cbn [world_types]. rewrite Hm. by rewrite given_at.
Qed.

(** What the terms say of the types they are of. *)
Lemma ty_of_array w p d ts : world_ok w -> ty_of (world_types w) p = TApp TYPE_ARRAY d ts ->
  exists t e c, deref (world_types w) p = Some t /\ kind_at (reg_types (world_types w)) p = Some TYPE_ARRAY /\
    ty_kind t = TYPE_ARRAY /\ ty_args t = [TYPE_ARG_TYPE e; TYPE_ARG_CONST c] /\ ptr_valid (reg_types (world_types w)) e /\
    ts = [ty_of (world_types w) e; arg_ty (world_types w) (TYPE_ARG_CONST c)].
Proof.
  intros [Hr _] Hty. pose proof (ok_types _ _ _ Hr) as Ht. destruct p as [n|]; [|done].
  destruct (reg_types (world_types w) !! n) as [t|] eqn:Hn; [|unfold ty_of in Hty; cbn in Hty; by rewrite Hn in Hty].
  rewrite (ty_of_lookup type_addr str_addr _ Ht n t Hn) in Hty. unfold type_meaning in Hty.
  destruct (ty_kind t) eqn:Hk; try done. destruct (array_shape type_addr str_addr _ n t Ht Hn Hk) as (e & c & _ & Hargs' & He & _).
  rewrite Hargs' in Hty. injection Hty as _ <-. exists t, e, c. unfold kind_at, deref. cbn. rewrite Hn. cbn. rewrite Hk. done.
Qed.

Lemma kind_array_ty w p : world_ok w -> kind_at (reg_types (world_types w)) p = Some TYPE_ARRAY -> exists d ts, ty_of (world_types w) p = TApp TYPE_ARRAY d ts.
Proof.
  intros [Hr _] Hk. pose proof (ok_types _ _ _ Hr) as Ht. destruct p as [n|]; [|done]. unfold kind_at in Hk. cbn in Hk.
  destruct (reg_types (world_types w) !! n) as [t|] eqn:Hn; [|done]. cbn in Hk. injection Hk as Hk.
  rewrite (ty_of_lookup type_addr str_addr _ Ht n t Hn). unfold type_meaning. rewrite Hk. by eexists _, _.
Qed.

Lemma subst_constant_runs E w c : extends w0 w -> type_ready w (constant_type c) ->
  runs E (subst_constant type_addr str_addr in_args c) w (fun w' c' => constant_becomes w' c c').
Proof using Hw0 Hargs Hconcrete.
  intros He Hready. unfold subst_constant. eapply runs_bind; [by apply subst_type_runs|].
  intros w1 q He1 Hq. cbn beta in Hq. pose proof (world_ok_at w1 (transitivity He He1)) as Hw1. apply runs_types.
  pose proof Hq as (Hv & Hvq & Hty). case_bool_decide as Hk.
  - destruct (kind_array_ty w1 q Hw1 Hk) as (d & ts & Ha). destruct (ty_of_array w1 q d ts Hw1 Ha) as (t & e & c' & Hd & _ & Hkt & Hta & _ & ->).
    pose proof (subst_given_closed (ty_of (world_types w1) (constant_type c))) as Hclosed. rewrite <- Hty, Ha in Hclosed.
    cbn [ty_mentions existsb] in Hclosed. apply orb_false_iff in Hclosed as [_ [Hc _]%orb_false_iff].
    destruct c' as [v|i]; [|done].
    eapply runs_bind.
    { apply runs_lift. rewrite Hd. unfold type_array_length. rewrite Hkt, Hta. instantiate (1 := fun w' n => w' = w1 /\ n = to_i32 (const_int v)). done. }
    intros w2 n _ [-> ->]. eapply runs_bind.
    { apply runs_lift. cbn. instantiate (1 := fun w' p => w' = w1 /\ type_registry_get_primitive (world_types w1) TYPE_I32 = Some p). done. }
    intros w2 p _ [-> Hp]. apply runs_ret. split; [done|]. rewrite <- Hty, Ha. done.
  - apply runs_ret. split; [done|].
    assert (Hno : forall d ts, subst_ty given (ty_of (world_types w1) (constant_type c)) <> TApp TYPE_ARRAY d ts).
    { intros d ts Heq. rewrite <- Hty in Heq. destruct (ty_of_array w1 q d ts Hw1 Heq) as (? & ? & ? & _ & ? & _). done. }
    destruct (subst_ty given _) as [| | | | |k d ts| |]; try done. destruct k; try done. by specialize (Hno d ts).
Qed.

Lemma clone_args_runs E w l : extends w0 w -> Forall (operand_ready w) l ->
  runs E (clone_args type_addr str_addr in_args l) w (fun w' l' => Forall2 (operand_becomes w') l l').
Proof using Hw0 Hargs Hconcrete.
  intros He Hl. apply runs_map.
  - intros w1 w2 a b _ H1 H2. apply operand_becomes_later; [|done]. apply world_ok_at. by etrans.
  - intros w1 a Ha H1. rewrite Forall_forall in Hl. specialize (Hl a Ha). unfold clone_arg. destruct a as [v|c]; [by apply runs_ret|].
    eapply runs_bind; [apply subst_constant_runs; [by etrans|by apply (type_ready_later w); [apply world_ok_at|..]]|].
    intros w2 c' H2 Hc. by apply runs_ret.
Qed.

Lemma subst_place_runs E w place : extends w0 w -> Forall (fun p => type_ready w (proj_type p)) (projections place) ->
  runs E (subst_place type_addr str_addr in_args place) w (fun w' place' => place_becomes w' place place').
Proof using Hw0 Hargs.
  intros He Hl. unfold subst_place. eapply runs_bind.
  - apply (runs_map _ _ _ _ projection_becomes).
    + intros w1 w2 a b _ H1 H2. apply projection_becomes_later; [|done]. apply world_ok_at. by etrans.
    + intros w1 a Ha H1. rewrite Forall_forall in Hl. specialize (Hl a Ha). cbn beta in Hl. unfold subst_projection.
      eapply runs_bind; [apply subst_type_runs; [by etrans|by apply (type_ready_later w); [apply world_ok_at|..]]|].
      intros w2 q H2 Hq. by apply runs_ret.
  - intros w1 ps H1 Hps. by apply runs_ret.
Qed.

(** *** The functions called *)

Lemma fits_same_sort l l' T : Forall2 same_sort l l' -> fits l T = fits l' T.
Proof.
  intros Hl. assert (Hi : forall i, match l !! i, l' !! i with Some a, Some b => same_sort a b | None, None => True | _, _ => False end).
  { intros i. destruct (l !! i) as [a|] eqn:Ha.
    - destruct (Forall2_lookup_l _ _ _ _ _ Hl Ha) as (b & -> & Hab). done.
    - destruct (l' !! i) as [b|] eqn:Hb; [|done]. destruct (Forall2_lookup_r _ _ _ _ _ Hl Hb) as (a & Ha' & _). congruence. }
  induction T as [|k|i|T IH|T IH|k d ts IH|k z|i] using Ty_nested_ind; cbn [fits]; try done.
  - specialize (Hi i). destruct (l !! i) as [[]|], (l' !! i) as [[]|]; done.
  - induction IH as [|t ts Ht _ IHts]; [done|]. cbn [forallb]. by rewrite Ht, IHts.
  - specialize (Hi i). destruct (l !! i) as [[]|], (l' !! i) as [[]|]; done.
Qed.

Lemma arg_becomes_later w w' a a' : world_ok w -> extends w w' -> arg_becomes w a a' -> arg_becomes w' a a'.
Proof.
  intros Hw He (H1 & H2 & H3 & H4). pose proof (extends_grows _ _ w w' Hw He) as Hg. unfold arg_becomes.
  rewrite !(arg_ty_grows type_addr str_addr (world_types w) (world_types w')) by (done || apply Hw).
  split; [by eapply arg_valid_grows|]. split; [by eapply arg_valid_grows|]. done.
Qed.

Lemma subst_arg_runs E w a : extends w0 w -> arg_ready w a -> arg_valid (reg_types (world_types w)) a ->
  runs E (subst_arg type_addr str_addr in_args a) w (fun w' a' => arg_becomes w' a a').
Proof using Hw0 Hargs.
  intros He Ha Hv. destruct a as [p|[v|i]]; cbn [subst_arg].
  - eapply runs_bind; [by apply subst_type_runs|]. intros w1 q H1 (Hp & Hq & Hty). by apply runs_ret.
  - by apply runs_ret.
  - destruct Ha as [c Hc]. rewrite Hc. apply runs_ret. cbn [default from_option id]. split; [done|].
    split; [exact (Forall_lookup_1 _ _ _ _ (args_valid_at w He) Hc)|]. split; [done|].
    change (arg_ty (world_types w) (TYPE_ARG_CONST c) = default TNull (given !! i)).
    rewrite <- (given_at w He), list_lookup_fmap, Hc. done.
Qed.

Lemma type_arg_ready_later w w' a : world_ok w -> extends w w' -> arg_ready w a -> arg_ready w' a.
Proof.
  intros Hw He. destruct a as [p|[v|i]]; cbn; [by apply type_ready_later| |done].
  apply int_kind_grow. by apply gr_types, (extends_grows _ _ w w' Hw He).
Qed.

Lemma subst_args_runs E w l : extends w0 w -> Forall (arg_ready w) l -> Forall (arg_valid (reg_types (world_types w))) l ->
  runs E (map_entries_m (subst_arg type_addr str_addr in_args) l) w (fun w' l' => Forall2 (arg_becomes w') l l').
Proof using Hw0 Hargs.
  intros He Hl Hv. apply runs_map.
  - intros w1 w2 a b _ H1 H2. apply arg_becomes_later; [|done]. apply world_ok_at. by etrans.
  - intros w1 a Ha H1. rewrite Forall_forall in Hl, Hv. apply subst_arg_runs; [by etrans| |].
    + apply (type_arg_ready_later w); [by apply world_ok_at|done|by apply Hl].
    + eapply arg_valid_grows; [eapply extends_grows; [by apply world_ok_at|done]|by apply Hv].
Qed.

Lemma instance_of_runs E w p f l : extends w0 w -> reg_functions (world_functions w) !! p = Some f ->
  Forall2 (arg_becomes w) (fn_type_args f) l -> l <> [] ->
  runs E (instance_of type_addr str_addr (fn_decl f) l) w (fun w' q =>
    exists g, reg_functions (world_functions w') !! q = Some g /\ func_id (fn_decl g) = func_id (fn_decl f) /\
      arg_ty (world_types w') <$> fn_type_args g = arg_ty (world_types w') <$> l).
Proof using Hw0.
  intros He Hf Hl Hne. pose proof (world_ok_at w He) as [Hr Hfr]. destruct (fn_functions _ _ _ _ Hfr p f Hf) as [Hd [_ Hlen] Hfit _ _].
  assert (Ha : args_ok (world_types w) l).
  { split; [|by rewrite <- (Forall2_length _ _ _ Hl)]. apply Forall_forall. intros b (i & Hi)%list_elem_of_lookup.
    destruct (Forall2_lookup_r _ _ _ _ _ Hl Hi) as (a & _ & _ & Hb & _). done. }
  assert (Hfits : l <> [] -> Forall (fun T => fits l T = true) (signature_ty (world_types w) (func_signature (fn_decl f)))).
  { intros _. assert (Hsort : Forall2 same_sort (fn_type_args f) l) by (eapply Forall2_impl; [exact Hl|]; by intros a b (_ & _ & ? & _)).
    eapply Forall_impl; [apply Hfit; intros Hn; rewrite Hn in Hl; by inversion Hl; subst|]. cbn beta. intros T. by rewrite (fits_same_sort _ _ T Hsort). }
  destruct (instance_returns _ _ _ _ (fn_decl f) l Hr Hfr Ha Hd Hfits) as [[[r' fr'] q] Hrun].
  destruct (instance_advances _ _ _ _ (fn_decl f) l r' fr' q Hr Hfr Ha Hd Hfits Hrun) as [[[Hr' Hg] Hfr' Hgrow] (g & Hgq & Hid & Harg)].
  unfold runs, instance_of. rewrite Hrun. cbn [mbind option_bind]. split.
  - split; [apply rtc_once; cbn; by eapply fstep_instance|]. cbn [world_functions]. by eapply instance_owned.
  - exists g. cbn [world_types world_functions]. split; [done|]. split; [done|].
    apply (arg_norms_of_meaning type_addr str_addr); [apply Hr'| | |done]; [by eapply fo_args, fn_functions|].
    eapply args_valid_grows; [exact Hg|apply Ha].
Qed.

Lemma find_owned_total w type name : world_ok w -> ptr_valid (reg_types (world_types w)) type ->
  exists found, function_registry_find_owned str_addr (world_types w) (world_functions w) type name = Some found /\
    match found with Some o => exists h, reg_functions (world_functions w) !! o = Some h | None => True end.
Proof.
  intros [Hr Hfr] Hv. destruct (fn_owned _ _ _ _ Hfr) as [g Hg]. rewrite (find_owned_lookup _ _ _ g type name Hg).
  destruct type as [n|]; [|by exists None]. cbn in Hv. destruct (lookup_lt_is_Some_2 _ _ Hv) as [t Ht].
  unfold deref. cbn [mbind option_bind]. rewrite Ht. cbn [mbind option_bind]. eexists. split; [done|].
  destruct (g !! _) as [o|] eqn:Ho; [|done]. destruct Hg as [_ Hval]. destruct (Hval _ _ Ho) as (h & Hh & _). by exists h.
Qed.

Lemma owned_for_runs E w type name : extends w0 w -> ptr_valid (reg_types (world_types w)) type ->
  owned_fits str_addr (world_types w) (world_functions w) type name ->
  runs E (owned_for type_addr str_addr type name) w (fun w' found =>
    match found with
    | None => function_registry_find_owned str_addr (world_types w) (world_functions w) type name = Some None
    | Some q => exists o h g, function_registry_find_owned str_addr (world_types w) (world_functions w) type name = Some (Some o) /\
        reg_functions (world_functions w) !! o = Some h /\ reg_functions (world_functions w') !! q = Some g /\ func_id (fn_decl g) = func_id (fn_decl h)
    end).
Proof using Hw0.
  intros He Hv Hfit. pose proof (world_ok_at w He) as [Hr Hfr]. destruct (find_owned_total w type name (conj Hr Hfr) Hv) as (found & Hfound & Hh).
  unfold runs, owned_for, function_registry_owned_for. rewrite Hfound. cbn [mbind option_bind].
  assert (Heta : MkWorld (world_types w) (world_functions w) = w) by (by destruct w).
  destruct found as [o|]; [|cbn [mbind option_bind]; rewrite Heta; by split]. destruct Hh as [h Hh]. rewrite Hh. cbn [mbind option_bind].
  destruct (deref (world_types w) type) as [t|] eqn:Ht.
  2: { exfalso. destruct type as [n|]; [|done]. cbn in Hv. apply lookup_lt_is_Some_2 in Hv as [t Hn]. unfold deref in Ht. cbn in Ht. congruence. }
  cbn [mbind option_bind].
  assert (Hself : extends w w /\ exists o0 h g, Some (Some o) = Some (Some o0) /\
    reg_functions (world_functions w) !! o0 = Some h /\ reg_functions (world_functions w) !! o = Some g /\ func_id (fn_decl g) = func_id (fn_decl h)).
  { split; [done|]. by exists o, h, h. }
  destruct (function_registry_owned_is_shared _ _ _); [cbn [mbind option_bind]; rewrite Heta; exact Hself|].
  destruct (Nat.ltb _ _); [cbn [mbind option_bind]; rewrite Heta; exact Hself|]. clear Hself.
  destruct (Hfit t o h Ht Hfound Hh) as [Hlen Hfits]. destruct (fn_functions _ _ _ _ Hfr o h Hh) as [Hd _ _ _ _].
  assert (Ha : args_ok (world_types w) (ty_args t)).
  { split; [|done]. destruct type as [n|]; [|done]. by eapply (args_valid type_addr str_addr _ n t); [apply Hr|]. }
  destruct (instance_returns _ _ _ _ (fn_decl h) (ty_args t) Hr Hfr Ha Hd (fun _ => Hfits)) as [[[r' fr'] q] Hrun].
  destruct (instance_advances _ _ _ _ (fn_decl h) (ty_args t) r' fr' q Hr Hfr Ha Hd (fun _ => Hfits) Hrun) as [_ (g & Hgq & Hid & _)].
  rewrite Hrun. cbn [mbind option_bind]. split.
  - split; [|by eapply instance_owned]. apply rtc_once. cbn. by eapply fstep_instance.
  - by exists o, h, g.
Qed.

Lemma callee_ready_later w w' callee : world_ok w -> extends w w' -> callee_ready w callee -> callee_ready w' callee.
Proof.
  intros Hw He. destruct callee as [p|]; [|done]. intros (f & Hf & Hcase). destruct (function_later w w' p f Hw He Hf) as (f' & Hf' & Hc).
  exists f'. split; [done|]. injection Hc as -> _ ->.
  assert (Hargs' : forall l, Forall (arg_ready w) l -> Forall (arg_ready w') l).
  { intros l Hl. eapply Forall_impl; [exact Hl|]. intros a. by apply type_arg_ready_later. }
  destruct (func_interface (fn_decl f)), (fn_type_args f) as [|[t|c] own]; try done; try (by apply Hargs').
  destruct Hcase as [Ht Ho]. split; [by eapply type_ready_later|]. intros w2 self H2. apply Ho. by etrans.
Qed.

(** A function called at arguments of its own. *)
Lemma subst_plain_callee_runs E w p f : extends w0 w -> reg_functions (world_functions w) !! p = Some f ->
  Forall (arg_ready w) (fn_type_args f) -> fn_type_args f <> [] ->
  runs E (l ← map_entries_m (subst_arg type_addr str_addr in_args) (take GAB_MAX_TYPE_PARAMS (fn_type_args f));
    if negb (args_moved (take GAB_MAX_TYPE_PARAMS (fn_type_args f)) l) then mret (Some p)
    else if Nat.ltb GAB_MAX_TYPE_PARAMS (length (fn_type_args f)) then stuck
    else q ← instance_of type_addr str_addr (fn_decl f) l; mret (Some q)) w
  (fun w' callee' => exists f' q g, callee' = Some q /\ reg_functions (world_functions w') !! p = Some f' /\ function_core f' = function_core f /\
    reg_functions (world_functions w') !! q = Some g /\ func_id (fn_decl g) = func_id (fn_decl f) /\
    arg_ty (world_types w') <$> fn_type_args g = subst_ty given <$> (arg_ty (world_types w') <$> fn_type_args f)).
Proof using Hw0 Hargs.
  intros He Hf Hready Hne. pose proof (world_ok_at w He) as Hw. destruct (fn_functions _ _ _ _ (proj2 Hw) p f Hf) as [_ [Hv Hlen] _ _ _].
  rewrite firstn_all2 by done. eapply runs_bind; [by apply subst_args_runs|]. intros w1 l H1 Hl. cbn beta in Hl.
  pose proof (world_ok_at w1 (transitivity He H1)) as Hw1. destruct (function_later w w1 p f Hw H1 Hf) as (f1 & Hf1 & Hc1).
  pose proof Hc1 as Hc1'. injection Hc1' as Hd1 _ Ha1.
  assert (Hargs1 : arg_ty (world_types w1) <$> l = subst_ty given <$> (arg_ty (world_types w1) <$> fn_type_args f)).
  { clear -Hl. induction Hl as [|a b k k' (_ & _ & _ & Hab) _ IH]; [done|]. cbn [fmap list_fmap]. rewrite Hab. f_equal. exact IH. }
  unfold args_moved. rewrite negb_involutive. case_bool_decide as Hsame.
  { apply runs_ret. subst l. exists f1, p, f1. by rewrite Hd1, Ha1. }
  destruct (Nat.ltb_spec GAB_MAX_TYPE_PARAMS (length (fn_type_args f))); [lia|]. rewrite <- Hd1. rewrite <- Ha1 in Hl.
  assert (Hln : l <> []) by (intros ->; inversion Hl; congruence).
  eapply runs_bind; [by eapply instance_of_runs; [etrans|..]|]. intros w2 q H2 (g & Hg & Hid & Hga). apply runs_ret.
  destruct (function_later w1 w2 p f1 Hw1 H2 Hf1) as (f2 & Hf2 & Hc2). exists f2, q, g. rewrite Hc2, Hid, Hd1. split; [done|]. split; [done|].
  split; [done|]. split; [done|]. split; [done|]. rewrite Hga.
  assert (Hgrow : forall k, Forall (arg_valid (reg_types (world_types w1))) k -> arg_ty (world_types w2) <$> k = arg_ty (world_types w1) <$> k).
  { intros k Hk. apply (args_ty_grows type_addr str_addr); [apply Hw1|by eapply extends_grows|done]. }
  rewrite !Hgrow; [exact Hargs1| |].
  - eapply args_valid_grows; [eapply extends_grows; [exact Hw|done]|done].
  - apply Forall_forall. intros b (i & Hi)%list_elem_of_lookup. destruct (Forall2_lookup_r _ _ _ _ _ Hl Hi) as (a & _ & _ & Hb & _). done.
Qed.

Lemma subst_callee_runs E w callee : extends w0 w -> callee_ready w callee ->
  runs E (subst_callee type_addr str_addr in_args callee) w (fun w' callee' => callee_becomes w' callee callee').
Proof using Hw0 Hargs.
  intros He Hready. pose proof (world_ok_at w He) as Hw. destruct callee as [p|]; [|by apply runs_ret]. destruct Hready as (f & Hf & Hcase).
  cbn [subst_callee]. apply runs_functions. eapply runs_bind.
  { apply runs_lift. rewrite Hf. instantiate (1 := fun w' f' => w' = w /\ f' = f). done. }
  intros ? ? _ [-> ->].
  assert (Hnone : fn_type_args f = [] -> runs E (mret (Some p)) w (fun w' callee' => callee_becomes w' (Some p) callee')).
  { intros Hown. apply runs_ret. exists f, f. rewrite Hown. split; [done|]. split; [done|]. by destruct (func_interface (fn_decl f)). }
  destruct (func_interface (fn_decl f)) as [i|] eqn:Hi.
  - destruct (fn_type_args f) as [|[t|c] own] eqn:Hown; [by apply Hnone| |done]. destruct Hcase as [Ht Hfits].
    eapply runs_bind; [by apply subst_type_runs|]. intros w1 self H1 Hself. cbn beta in Hself.
    pose proof (transitivity He H1) as He1. pose proof (world_ok_at w1 He1) as Hw1. pose proof Hself as (_ & Hvs & _).
    eapply runs_bind; [apply owned_for_runs; [done|done|by apply Hfits]|]. intros w2 found H2 Hfound. cbn beta in Hfound. apply runs_ret.
    destruct (function_later w w2 p f Hw (transitivity H1 H2) Hf) as (f2 & Hf2 & Hc2). injection Hc2 as Hd2 _ Ha2.
    destruct found as [q|].
    + destruct Hfound as (o & h & g & Hfind & Hh & Hg & Hid). exists f2, g. rewrite Hd2, Ha2, Hi, Hown. split; [done|]. split; [done|].
      exists w1, self. split; [done|]. split; [done|]. split; [done|]. right. by exists o, h.
    + exists f2, f2. rewrite Hd2, Ha2, Hi, Hown. split; [done|]. split; [done|]. exists w1, self. split; [done|]. split; [done|]. split; [done|]. by left.
  - destruct (fn_type_args f) as [|a own] eqn:Hown; [by apply Hnone|]. rewrite <- Hown in *.
    assert (Hpost : forall m : Inst FuncPtr, runs E m w (fun w' callee' => exists f' q g, callee' = Some q /\ reg_functions (world_functions w') !! p = Some f' /\ function_core f' = function_core f /\
      reg_functions (world_functions w') !! q = Some g /\ func_id (fn_decl g) = func_id (fn_decl f) /\
      arg_ty (world_types w') <$> fn_type_args g = subst_ty given <$> (arg_ty (world_types w') <$> fn_type_args f)) ->
      runs E m w (fun w' callee' => callee_becomes w' (Some p) callee')).
    { intros m Hm. eapply inst_runs_weaken; [exact Hm|]. intros w' c' _ (f' & q & g & -> & Hf' & Hc & Hg & Hid & Hga). injection Hc as Hd _ Ha.
      exists f', g. rewrite Hd, Ha, Hi. done. }
    apply Hpost. apply subst_plain_callee_runs; [done|done|done|by rewrite Hown].
Qed.

Lemma payload_runs E w inst : extends w0 w -> payload_ready w inst ->
  runs E (subst_payload type_addr str_addr in_args inst) w (fun w' p => payload_becomes w' inst p).
Proof using Hw0 Hargs Hconcrete.
  intros He Hready. unfold subst_payload, payload_becomes, payload_ready in *. destruct (mir_op_has_place _).
  { eapply runs_bind; [by apply subst_place_runs|]. intros w1 place H1 Hp. apply runs_ret. by exists place. }
  destruct (bool_decide _). { eapply runs_bind; [by apply subst_callee_runs|]. intros w1 c H1 Hc. apply runs_ret. by exists c. }
  destruct (op_is_const _); [|by apply runs_ret]. eapply runs_bind; [by apply subst_constant_runs|]. intros w1 c H1 Hc. apply runs_ret. by exists c.
Qed.

Lemma operand_ready_later w w' a : world_ok w -> extends w w' -> operand_ready w a -> operand_ready w' a.
Proof. intros Hw He. destruct a; [done|]. by apply type_ready_later. Qed.

Lemma payload_ready_later w w' inst : world_ok w -> extends w w' -> payload_ready w inst -> payload_ready w' inst.
Proof.
  intros Hw He. unfold payload_ready. destruct (mir_op_has_place _).
  { intros Hl. eapply Forall_impl; [exact Hl|]. intros p. by apply type_ready_later. }
  destruct (bool_decide _); [by apply callee_ready_later|]. destruct (op_is_const _); [|done]. by apply type_ready_later.
Qed.

Lemma inst_ready_later w w' inst : world_ok w -> extends w w' -> inst_ready w inst -> inst_ready w' inst.
Proof.
  intros Hw He (H1 & H2 & H3). split; [by eapply type_ready_later|]. split; [|by eapply payload_ready_later].
  eapply Forall_impl; [exact H2|]. intros a. by apply operand_ready_later.
Qed.

Lemma subst_inst_runs E w inst : extends w0 w -> inst_ready w inst ->
  runs E (subst_inst type_addr str_addr in_args inst) w (fun w' inst' => inst_becomes w' inst inst').
Proof using Hw0 Hargs Hconcrete.
  intros He (H1 & H2 & H3). pose proof (world_ok_at w He) as Hw. unfold subst_inst. eapply runs_bind; [by apply subst_type_runs|].
  intros w1 type He1 Ht. cbn beta in Ht. pose proof (transitivity He He1) as He01. eapply runs_bind; [apply clone_args_runs; [done|]|].
  { eapply Forall_impl; [exact H2|]. intros a. by apply operand_ready_later. }
  intros w2 l He2 Hl. cbn beta in Hl. pose proof (transitivity He01 He2) as He02. eapply runs_bind; [apply payload_runs; [done|]|].
  { eapply payload_ready_later; [exact Hw| |done]. by etrans. }
  intros w3 p He3 Hp. apply runs_ret. pose proof (world_ok_at _ He01). pose proof (world_ok_at _ He02). split; try done.
  - apply (type_becomes_later w1); [done|by etrans|done].
  - eapply Forall2_impl; [exact Hl|]. intros a b. by apply operand_becomes_later.
Qed.

(** *** Indexing *)

Lemma expand_runs (E : Prop) w vs inst : extends w0 w ->
  Forall (fun info => ptr_valid (reg_types (world_types w)) (value_type info)) vs ->
  (forall p, op inst = MIR_CALL -> inst_callee inst = Some p -> is_Some (reg_functions (world_functions w) !! p)) ->
  (forall receiver index, indexing_call (world_functions w) inst = Some (Some (receiver, index)) ->
     (forall info, vs !! N.to_nat receiver = Some info -> ~ is_container (indexed_ty (ty_of (world_types w) (value_type info)))) -> E) ->
  runs E (expand_intrinsic type_addr str_addr vs inst) w (fun w' l => w' = w /\ expands w vs inst l).
Proof using Hw0.
  intros He Hvs Hcallee HE. pose proof (world_ok_at w He) as Hw. unfold expand_intrinsic. apply runs_functions.
  assert (Hcall : exists call, indexing_call (world_functions w) inst = Some call).
  { unfold indexing_call. destruct (decide (op inst = MIR_CALL)) as [Hop|Hop]; [rewrite (bool_decide_eq_true_2 _ Hop)|rewrite (bool_decide_eq_false_2 _ Hop); by eexists].
    cbn [negb]. destruct (inst_callee inst) as [p|]; [|by eexists]. destruct (Hcallee p Hop eq_refl) as [f ->]. cbn [mbind option_bind].
    destruct (has_modifier _ _); [|by eexists]. cbn [negb]. destruct (args inst) as [|a [|b [|]]]; try by eexists. destruct (_ || _); by eexists. }
  destruct Hcall as [call Hcall]. specialize (HE : forall r i, _). eapply runs_bind.
  { apply runs_lift. rewrite Hcall. instantiate (1 := fun w' c => w' = w /\ c = call). done. }
  intros ? ? _ [-> ->]. unfold expands. rewrite Hcall in HE |- *. destruct call as [[receiver index]|]; [|by apply runs_ret].
  specialize (HE receiver index eq_refl). destruct (vs !! N.to_nat receiver) as [info|] eqn:Hinfo; [|by apply HE].
  cbn [fmap option_fmap option_map].
  eapply runs_bind. { apply runs_lift. instantiate (1 := fun w' h => w' = w /\ h = value_type info). done. }
  intros ? ? _ [-> ->]. apply runs_types. set (held := value_type info).
  assert (Hvalid : ptr_valid (reg_types (world_types w)) held) by exact (Forall_lookup_1 _ _ _ _ Hvs Hinfo).
  assert (Hdepth : ptr_depth held <= container_fuel (world_types w)) by (unfold container_fuel; destruct held; cbn in *; lia).
  destruct (indexed_container type_addr str_addr _ (ok_types _ _ _ (proj1 Hw)) _ held Hvalid Hdepth) as (c & Hc & Hcv & Hct).
  eapply runs_bind. { apply runs_lift. rewrite Hc. instantiate (1 := fun w' h => w' = w /\ h = c). done. }
  intros ? ? _ [-> ->].
  destruct (decide (is_container (indexed_ty (ty_of (world_types w) held)))) as [Hyes|Hno].
  2: { assert (Hstop : E) by (apply HE; by intros ? [= <-]). destruct (deref (world_types w) c) as [t|] eqn:Hd; [|exact Hstop].
       eapply runs_bind. { apply runs_lift. instantiate (1 := fun w' h => w' = w /\ h = t). done. }
       intros ? ? _ [-> ->]. destruct (bool_decide (ty_kind t = TYPE_SLICE)) eqn:Hk.
       - exfalso. apply bool_decide_eq_true in Hk. apply Hno. rewrite <- Hct. destruct c as [n|]; [|done]. unfold deref in Hd. cbn in Hd.
         rewrite (ty_of_lookup type_addr str_addr _ (ok_types _ _ _ (proj1 Hw)) n t Hd). unfold type_meaning. by rewrite Hk.
       - assert (Hnone : type_array_element (Some t) = None); [|rewrite Hnone; exact Hstop].
         unfold type_array_element. destruct (ty_kind t) eqn:Hkt; try done. exfalso. apply Hno. rewrite <- Hct. destruct c as [n|]; [|done].
         unfold deref in Hd. cbn in Hd. rewrite (ty_of_lookup type_addr str_addr _ (ok_types _ _ _ (proj1 Hw)) n t Hd). unfold type_meaning. by rewrite Hkt. }
  rewrite <- Hct in Hyes. destruct (container_element type_addr str_addr _ (ok_types _ _ _ (proj1 Hw)) c Hyes) as (t & e & Hd & Hkc & Hel & Hev & Het & Hslice).
  eapply runs_bind. { apply runs_lift. rewrite Hd. instantiate (1 := fun w' h => w' = w /\ h = t). done. }
  intros ? ? _ [-> ->]. eapply runs_bind. { apply runs_lift. rewrite Hel. instantiate (1 := fun w' h => w' = w /\ h = e). done. }
  intros ? ? _ [-> ->]. unfold mir_bounds_operands. rewrite Hc. cbn [mbind option_bind].
  eapply runs_bind. { apply runs_lift. cbn beta iota. instantiate (1 := fun w' h => w' = w /\ h = _). split; reflexivity. }
  intros ? ? _ [-> ->]. apply runs_ret. split; [done|].
  exists info, (ty_of (world_types w) held), c, e, (type_pointee (deref (world_types w) held)),
    (match ty_of (world_types w) c with TApp TYPE_SLICE _ _ => [index; receiver] | _ => [index] end).
  split; [done|]. split; [done|]. rewrite <- Hct. split; [done|].
  assert (Hraw : kind_at (reg_types (world_types w)) held <> Some TYPE_RAW).
  { intros Hk. destruct (kind_at_deref _ _ _ Hk) as (n & u & Hheld & Hn & _ & Hku). rewrite Hct, Hheld in Hyes.
    rewrite (ty_of_lookup type_addr str_addr _ (ok_types _ _ _ (proj1 Hw)) n u Hn) in Hyes. unfold type_meaning in Hyes. by rewrite Hku in Hyes. }
  unfold mir_place_index, tv_is_indirect. cbn [tv_kind tv_pointee registry_view]. rewrite (bool_decide_eq_false_2 _ Hraw), Hkc.
  assert (Hcheck : (if bool_decide (Some (ty_kind t) = Some TYPE_SLICE) then [index; receiver] else [index]) =
    match ty_of (world_types w) c with TApp TYPE_SLICE _ _ => [index; receiver] | _ => [index] end).
  { destruct (decide (ty_kind t = TYPE_SLICE)) as [Hk|Hk].
    - rewrite bool_decide_eq_true_2 by congruence. apply Hslice in Hk. destruct (ty_of (world_types w) c) as [| | | | |k d ts| |]; try done. by destruct k.
    - rewrite bool_decide_eq_false_2 by congruence. destruct (ty_of (world_types w) c) as [| | | | |k d ts| |]; try done. destruct k; try done.
      exfalso. by apply Hk, Hslice. }
  destruct (decide (kind_at (reg_types (world_types w)) held = Some TYPE_REF)) as [Href|Href];
    [rewrite (bool_decide_eq_true_2 _ Href)|rewrite (bool_decide_eq_false_2 _ Href)].
  - destruct (ty_of_ref type_addr str_addr _ (ok_types _ _ _ (proj1 Hw)) held Href) as (Hpv & _ & Hpt). rewrite Hpt. cbn [base projections mir_place_project mir_place_of app].
    rewrite Hcheck. split; [by repeat constructor|]. split; [done|]. split; [done|]. split; [done|]. split; [done|]. by intros T [= <-].
  - pose proof (ty_not_ref type_addr str_addr _ (ok_types _ _ _ (proj1 Hw)) held Href) as Hno. cbn [base projections mir_place_project mir_place_of app]. rewrite Hcheck.
    split; [|split; [done|split; [done|split; [done|split]]]].
    + constructor; [done|]. constructor; [done|]. constructor; [|constructor].
      unfold type_pointee. destruct (deref (world_types w) held) as [u|] eqn:Hu; [|done]. destruct held as [n|]; [|done]. unfold deref in Hu. cbn in Hu.
      destruct (ty_kind u); try done; eapply pointee_valid; try done; apply Hw.
    + destruct (ty_of (world_types w) held) as [| | |T| | | |]; try done. by specialize (Hno T).
    + intros T HT. by specialize (Hno T).
Qed.

(** *** Bodies *)

Lemma values_later w w' (vs : list MIRValueInfo) : world_ok w -> extends w w' ->
  Forall (fun info => ptr_valid (reg_types (world_types w)) (value_type info)) vs ->
  Forall (fun info => ptr_valid (reg_types (world_types w')) (value_type info)) vs.
Proof. intros Hw He Hv. eapply Forall_impl; [exact Hv|]. cbn beta. intros info Hi. by apply (extends_ptr type_addr str_addr w w'). Qed.

Lemma value_becomes_later w w' v v' : world_ok w -> extends w w' -> value_becomes w v v' -> value_becomes w' v v'.
Proof. intros Hw He (H1 & H2 & H3). split; [by eapply type_becomes_later|done]. Qed.

Lemma indexing_call_later w w' inst call : world_ok w -> extends w w' ->
  indexing_call (world_functions w) inst = Some call -> indexing_call (world_functions w') inst = Some call.
Proof.
  intros Hw He. unfold indexing_call. destruct (bool_decide (op inst = MIR_CALL)); [|done]. cbn [negb].
  destruct (inst_callee inst) as [p|]; [|done]. destruct (reg_functions (world_functions w) !! p) as [f|] eqn:Hf; [|done].
  destruct (function_later w w' p f Hw He Hf) as (f' & -> & Hc). cbn [mbind option_bind]. by injection Hc as -> _ _.
Qed.

Lemma inst_instance_later w w' vs inst l : extends w0 w -> extends w w' ->
  Forall (fun info => ptr_valid (reg_types (world_types w)) (value_type info)) vs ->
  inst_instance w vs inst l -> inst_instance w' vs inst l.
Proof using Hw0.
  intros He0 He Hvs (inst' & Hi & Hx). pose proof (world_ok_at w He0) as Hw. exists inst'. split; [by eapply inst_becomes_later|].
  unfold expands in *. destruct (indexing_call (world_functions w) inst') as [call|] eqn:Hcall; [|done].
  rewrite (indexing_call_later w w' inst' call Hw He Hcall). destruct call as [[receiver index]|]; [|done].
  destruct Hx as (info & held & c & e & pt & ck & H1 & -> & H3 & H4 & H5 & H6 & H7 & H8 & H9).
  pose proof (Forall_lookup_1 _ _ _ _ Hvs H1) as Hv. cbn beta in Hv.
  apply Forall_cons in H4 as [Hc H4]. apply Forall_cons in H4 as [Hel H4]. apply Forall_cons in H4 as [H4 _].
  destruct (extends_ptr _ _ w w' _ Hw He Hv) as [Hv' Hvt]. destruct (extends_ptr _ _ w w' _ Hw He Hc) as [Hc' Hct].
  destruct (extends_ptr _ _ w w' _ Hw He Hel) as [Hel' Helt]. destruct (extends_ptr _ _ w w' _ Hw He H4) as [Hpt' Hptt].
  exists info, (ty_of (world_types w') (value_type info)), c, e, pt, ck. rewrite Hvt, Hct, Helt, Hptt. by repeat (split; [by repeat constructor|]).
Qed.

Lemma inst_runs (E : Prop) w generic vs inst : extends w0 w -> inst_ready w inst ->
  Forall2 (value_becomes w) (values generic) vs -> (indexes_no_container (values generic) inst -> E) ->
  runs E (instantiate_inst type_addr str_addr in_args vs inst) w (fun w' l => inst_instance w' vs inst l).
Proof using Hw0 Hargs Hconcrete.
  intros He Hready Hvs HE. pose proof (world_ok_at w He) as Hw. unfold instantiate_inst.
  eapply runs_bind; [by apply subst_inst_runs|]. intros w1 inst' H1 Hi. cbn beta in Hi. pose proof (transitivity He H1) as He1.
  pose proof (world_ok_at w1 He1) as Hw1.
  assert (Hvs1 : Forall2 (value_becomes w1) (values generic) vs).
  { eapply Forall2_impl; [exact Hvs|]. intros v v'. by apply value_becomes_later. }
  assert (Hvalid : Forall (fun info => ptr_valid (reg_types (world_types w1)) (value_type info)) vs).
  { apply Forall_forall. intros v (i & Hv)%list_elem_of_lookup. destruct (Forall2_lookup_r _ _ _ _ _ Hvs1 Hv) as (v0 & _ & (_ & ? & _) & _). done. }
  eapply inst_runs_weaken; [apply expand_runs; [done|done| |]|].
  - intros p Hop Hp. pose proof (ib_payload _ _ _ Hi) as Hpay. unfold payload_becomes in Hpay. rewrite <- (ib_op _ _ _ Hi), Hop in Hpay.
    cbn [mir_op_has_place] in Hpay. rewrite bool_decide_eq_true_2 in Hpay by done. destruct Hpay as (c & Hpc & Hc).
    unfold inst_callee in Hp. rewrite Hpc in Hp. subst c. destruct (inst_callee inst) as [p0|]; [|done]. destruct Hc as (f & g & _ & Hg & _). by exists g.
  - intros receiver index Hcall Hno. apply HE. exists w1, inst', receiver, index. split; [done|]. split; [done|]. split; [done|].
    intros info Hinfo. destruct (Forall2_lookup_l _ _ _ _ _ Hvs1 Hinfo) as (info' & Hinfo' & (_ & _ & Ht) & _). rewrite <- Ht. by apply Hno.
  - intros w2 l _ [-> Hx]. by exists inst'.
Qed.

Lemma block_runs (E : Prop) w generic vs b : extends w0 w -> Forall (inst_ready w) (insts b) ->
  Forall2 (value_becomes w) (values generic) vs -> (forall inst, inst ∈ insts b -> indexes_no_container (values generic) inst -> E) ->
  runs E (instantiate_block type_addr str_addr in_args vs b) w (fun w' b' => block_becomes w' vs b b').
Proof using Hw0 Hargs Hconcrete.
  intros He Hready Hvs HE. pose proof (world_ok_at w He) as Hw. unfold instantiate_block. eapply runs_bind.
  - apply (runs_map _ _ _ _ (fun w' => inst_instance w' vs)).
    + intros w1 w2 a l _ H1 H2. pose proof (transitivity He H1) as He1. apply inst_instance_later; [done|done|].
      apply Forall_forall. intros v (i & Hv)%list_elem_of_lookup. destruct (Forall2_lookup_r _ _ _ _ _ Hvs Hv) as (v0 & _ & (_ & ? & _) & _).
      by apply (extends_ptr type_addr str_addr w w1).
    + intros w1 inst Hin H1. rewrite Forall_forall in Hready. eapply (inst_runs E w1 generic).
      * by etrans.
      * by apply (inst_ready_later w), Hready.
      * eapply Forall2_impl; [exact Hvs|]. intros v v'. by apply value_becomes_later.
      * by apply HE.
  - intros w1 ls H1 Hls. apply runs_ret. split; [done|]. by exists ls.
Qed.

Lemma body_runs (E : Prop) w generic instance : extends w0 w -> body_ready w generic ->
  (forall b inst, b ∈ blocks generic -> inst ∈ insts b -> indexes_no_container (values generic) inst -> E) ->
  runs E (mir_instantiate type_addr str_addr in_args generic instance) w (fun w' out => body_becomes w' generic instance out).
Proof using Hw0 Hargs Hconcrete.
  intros He [Hrv Hrb] HE. pose proof (world_ok_at w He) as Hw. unfold mir_instantiate. eapply runs_bind.
  { apply (runs_map _ _ _ _ value_becomes).
    - intros w1 w2 a b _ H1 H2. apply value_becomes_later; [|done]. apply world_ok_at. by etrans.
    - intros w1 v Hin H1. rewrite Forall_forall in Hrv. unfold instantiate_value. eapply runs_bind.
      + apply subst_type_runs; [by etrans|]. by apply (type_ready_later w), Hrv.
      + intros w2 t H2 Ht. by apply runs_ret. }
  intros w1 vs H1 Hvs. cbn beta in Hvs. pose proof (transitivity He H1) as He1. pose proof (world_ok_at w1 He1) as Hw1. eapply runs_bind.
  { apply (runs_map _ _ _ _ (fun w' => block_becomes w' vs)).
    - intros w2 w3 b b' _ H2 H3 (Hid & ls & Hc & Hls). split; [done|]. exists ls. split; [done|]. eapply Forall2_impl; [exact Hls|].
      intros inst l. apply inst_instance_later; [by etrans|done|]. apply (values_later w1); [done|done|].
      apply Forall_forall. intros v (i & Hv)%list_elem_of_lookup. by destruct (Forall2_lookup_r _ _ _ _ _ Hvs Hv) as (v0 & _ & (_ & ? & _) & _).
    - intros w2 b Hin H2. rewrite Forall_forall in Hrb. pose proof (Hrb b Hin) as Hb. eapply (block_runs E w2 generic).
      + by etrans.
      + eapply Forall_impl; [exact Hb|]. intros inst. apply inst_ready_later; [done|by etrans].
      + eapply Forall2_impl; [exact Hvs|]. intros v v'. by apply value_becomes_later.
      + intros inst. by apply HE. }
  intros w2 bs H2 Hbs. apply runs_ret. split; try done. cbn [values]. eapply Forall2_impl; [exact Hvs|]. intros v v'. by apply value_becomes_later.
Qed.

(** *** No parameter is left *)

Lemma becomes_closed w p q : world_ok w -> type_becomes w p q -> has_param_at (world_types w) q = false.
Proof using Hw0 Hargs Hconcrete.
  intros [Hr _] (_ & Hq & Ht). rewrite (has_param_meaning type_addr str_addr _ (ok_types _ _ _ Hr) q Hq), Ht. apply subst_given_closed.
Qed.

Lemma constant_closed w c c' : world_ok w -> constant_becomes w c c' -> has_param_at (world_types w) (constant_type c') = false.
Proof using Hw0 Hargs Hconcrete.
  intros Hw [_ Hc].
  assert (Hprim : type_registry_get_primitive (world_types w) TYPE_I32 = Some (constant_type c') -> has_param_at (world_types w) (constant_type c') = false).
  { intros Hp. pose proof (ok_types _ _ _ (proj1 Hw)) as Ht. destruct (ok_prims _ _ _ Ht _ _ Hp) as (n & t & -> & Hn & Hk).
    rewrite (has_param_meaning type_addr str_addr _ Ht (Some n)) by (cbn; by apply lookup_lt_Some in Hn).
    rewrite (ty_of_lookup type_addr str_addr _ Ht n t Hn). unfold type_meaning. by rewrite Hk. }
  assert (Hrest : type_becomes w (constant_type c) (constant_type c') /\ constant_value c' = constant_value c -> has_param_at (world_types w) (constant_type c') = false).
  { intros [H _]. by eapply becomes_closed. }
  revert Hc. destruct (subst_ty given _) as [| | | | |k d ts| |]; try exact Hrest. destruct k; try exact Hrest.
  destruct ts as [|a [|b [|]]]; try exact Hrest; destruct b; try exact Hrest. intros [H _]. by apply Hprim.
Qed.

#[local] Abbreviation closed w := (Forall (fun p => has_param_at (world_types w) p = false)).

Lemma inst_closed w inst inst' : world_ok w -> inst_becomes w inst inst' -> closed w (inst_types inst').
Proof using Hw0 Hargs Hconcrete.
  intros Hw [H1 H2 _ H4 H5 _ _]. unfold inst_types. constructor; [by eapply becomes_closed|]. apply Forall_app. split; [|apply Forall_app; split].
  - clear -H4 Hw Hw0 Hargs Hconcrete. induction H4 as [|a b l l' Hab _ IH]; [constructor|]. cbn [fmap list_fmap concat]. apply Forall_app. split; [|exact IH].
    destruct a as [v|c], b as [v'|c']; try done. apply Forall_singleton. by eapply constant_closed.
  - unfold payload_becomes in H5. rewrite H1. destruct (mir_op_has_place (op inst)); [|constructor]. destruct H5 as (pl & Hp & _ & _ & Hps).
    unfold inst_place. rewrite Hp. clear -Hps Hw Hw0 Hargs Hconcrete. induction Hps as [|a b l l' [_ Hab] _ IH]; constructor; [by eapply becomes_closed|exact IH].
  - unfold payload_becomes in H5. rewrite H1. destruct (op_is_const (op inst)) eqn:Hc; [|constructor].
    destruct (op inst); try done; cbn [mir_op_has_place] in H5; rewrite bool_decide_eq_false_2 in H5 by done;
      destruct H5 as (c' & Hp & Hb); unfold inst_constant; rewrite Hp; apply Forall_singleton; by eapply constant_closed.
Qed.

Lemma indexed_closed T : ty_mentions T = false -> ty_mentions (indexed_ty T) = false /\ ty_mentions (element_ty (indexed_ty T)) = false.
Proof.
  induction T as [|k|i|T IH|T IH|k d ts IH|k z|i] using Ty_nested_ind; intros H; try done; [by apply IH|].
  split; [done|]. cbn [indexed_ty element_ty]. destruct ts as [|t ts]; [done|]. cbn in H. by apply orb_false_iff in H as [H _].
Qed.

Lemma expands_closed w vs inst l : world_ok w -> closed w (value_type <$> vs) ->
  Forall (fun info => ptr_valid (reg_types (world_types w)) (value_type info)) vs -> closed w (inst_types inst) ->
  expands w vs inst l -> closed w (concat (inst_types <$> l)) /\ length l <= 2.
Proof using Hw0 Hargs Hconcrete.
  intros Hw Hvs Hvalid Hinst. unfold expands. destruct (indexing_call _ _) as [[[receiver index]|]|]; [|intros ->; cbn; rewrite app_nil_r; by split; [|lia]|done].
  intros (info & held & c & e & pt & ck & H1 & -> & H3 & H4 & H5 & H6 & _ & -> & H9). split; [|cbn; lia].
  pose proof (ok_types _ _ _ (proj1 Hw)) as Ht. pose proof (Forall_lookup_1 _ _ _ _ Hvalid H1) as Hv. cbn beta in Hv.
  assert (Hm : ty_mentions (ty_of (world_types w) (value_type info)) = false).
  { rewrite <- (has_param_meaning type_addr str_addr _ Ht _ Hv). rewrite Forall_fmap in Hvs. exact (Forall_lookup_1 _ _ _ _ Hvs H1). }
  destruct (indexed_closed _ Hm) as [Hmc Hme].
  apply Forall_cons in H4 as [Hc H4]. apply Forall_cons in H4 as [Hel H4]. apply Forall_cons in H4 as [Hpt _].
  assert (Hclosed : forall p, ptr_valid (reg_types (world_types w)) p -> ty_mentions (ty_of (world_types w) p) = false -> has_param_at (world_types w) p = false).
  { intros p Hp. by rewrite (has_param_meaning type_addr str_addr _ Ht p Hp). }
  cbn [fmap list_fmap concat inst_types inst_type args op mir_op_has_place op_is_const app].
  assert (Hargs0 : concat (operand_types <$> (mir_operand_value <$> ck)) = []) by (induction ck; done). unfold inst_types.
  cbn [inst_type args op mir_op_has_place op_is_const app fmap list_fmap concat]. change (list_fmap _ _ operand_types (list_fmap _ _ mir_operand_value ck)) with (operand_types <$> (mir_operand_value <$> ck)).
  rewrite Hargs0. cbn [app]. constructor; [apply Hclosed; [done|by rewrite H5]|]. constructor; [by inversion Hinst|].
  rewrite !app_nil_r. cbn [inst_place payload projections]. rewrite fmap_app. apply Forall_app. split.
  - destruct (ty_of (world_types w) (value_type info)) as [| | |T| | | |] eqn:Hty; try constructor; [|constructor]. apply Hclosed; [done|].
    cbn [proj_type]. rewrite (H9 T eq_refl). exact Hm.
  - apply Forall_singleton. apply Hclosed; cbn [proj_type]; [done|by rewrite H6].
Qed.

Lemma body_closed w generic instance out : world_ok w -> body_becomes w generic instance out ->
  closed w (mir_types out) /\ Forall2 (fun b b' => inst_count b' <= 2 * inst_count b) (blocks generic) (blocks out).
Proof using Hw0 Hargs Hconcrete.
  intros Hw [_ _ _ Hvs Hbs].
  assert (Hcl : closed w (value_type <$> values out)).
  { rewrite Forall_fmap. apply Forall_forall. intros v (i & Hv)%list_elem_of_lookup. destruct (Forall2_lookup_r _ _ _ _ _ Hvs Hv) as (v0 & _ & Hb & _). by eapply becomes_closed. }
  assert (Hvalid : Forall (fun info => ptr_valid (reg_types (world_types w)) (value_type info)) (values out)).
  { apply Forall_forall. intros v (i & Hv)%list_elem_of_lookup. by destruct (Forall2_lookup_r _ _ _ _ _ Hvs Hv) as (v0 & _ & (_ & ? & _) & _). }
  assert (Hinsts : forall l ls, Forall2 (inst_instance w (values out)) l ls -> closed w (concat (inst_types <$> concat ls)) /\ length (concat ls) <= 2 * length l).
  { intros l ls Hls. induction Hls as [|inst k l ls (inst' & Hi & Hx) _ [IH1 IH2]]; [by split; [constructor|]|].
    destruct (expands_closed w _ inst' k Hw Hcl Hvalid (inst_closed w inst inst' Hw Hi) Hx) as [Hk1 Hk2]. cbn [concat length].
    rewrite fmap_app, concat_app, length_app. split; [by apply Forall_app|lia]. }
  unfold mir_types. split.
  - apply Forall_app. split; [done|]. clear Hvs. induction Hbs as [|b b' l l' (_ & ls & Hb & Hls) _ IH]; [constructor|]. cbn [fmap list_fmap concat].
    apply Forall_app. split; [|exact IH]. rewrite Hb. by apply (Hinsts _ _ Hls).
  - eapply Forall2_impl; [exact Hbs|]. intros b b' (_ & ls & Hb & Hls). unfold inst_count. rewrite Hb. by apply (Hinsts _ _ Hls).
Qed.
End instance.

Lemma world_reachable (type_addr str_addr : nat -> N) w w' :
  function_reachable type_addr str_addr (world_types w) (world_functions w) -> extends type_addr str_addr w w' ->
  function_reachable type_addr str_addr (world_types w') (world_functions w').
Proof.
  intros Hr [Hs _]. induction Hs as [w|w1 w2 w3 Hs _ IH]; [done|]. apply IH. by eapply function_reachable_step.
Qed.

(** ** The properties *)

(** C16: Instantiating a body at arguments without parameters keeps its shape: the
    same blocks and values, in each block the same instructions in the same
    order.  Each type in it is the generic's with the parameters replaced; a
    call of a generic function calls that function's instance at the arguments
    replaced, a call of an interface's method what the type it is called at owns
    under the name; a constant of an array's type is the array's length; and a
    call of an intrinsic that indexes a slice or an array is a bounds check and
    a reference to the element.  No type in it mentions a parameter, and no block
    outgrows the room made for it.

    This holds of a body and arguments that fit ([body_ready]): the registries are
    reachable, the arguments are valid and concrete; every type in the body is of
    the registry, a struct in it that mentions parameters is applied to the
    parameters of its own declaration in their order ([own_params]: what the
    registry's substitution keeps, cf. type_registry.c:470), and each parameter is
    answered by an argument of its sort, a type by a type and a value by a value
    ([fits]); callees are functions of the registry whose arguments are so too, and
    what a type owns under the name of an interface's method can be instantiated at
    the type's arguments.  Of such a body the instantiation fails in one case only:
    an intrinsic that indexes a value that holds neither a slice nor an array. *)
Theorem instance_is_the_body_at_its_arguments (type_addr str_addr : nat -> N) (r : TypeRegistry) (fr : FunctionRegistry)
    (in_args : list TypeArg) (generic : MIRFunction) (instance : FuncPtr) :
  let w := MkWorld r fr in
  function_reachable type_addr str_addr r fr -> args_ok r in_args -> type_args_are_concrete r in_args = true ->
  body_ready type_addr str_addr in_args w w generic ->
  match mir_instantiate type_addr str_addr in_args generic instance w with
  | Some (w', out) =>
      function_reachable type_addr str_addr (world_types w') (world_functions w') /\
      functions_grow fr (world_functions w') /\
      body_becomes type_addr str_addr in_args w w' generic instance out /\
      Forall (fun p => has_param_at (world_types w') p = false) (mir_types out) /\
      Forall2 (fun b b' => inst_count b' <= 2 * inst_count b + 1) (blocks generic) (blocks out)
  | None => exists b inst, b ∈ blocks generic /\ inst ∈ insts b /\
      indexes_no_container type_addr str_addr in_args w (values generic) inst
  end.
Proof.
  intros w Hreach Hargs Hconcrete Hready. assert (Hw : world_ok type_addr str_addr w) by exact (function_reachable_ok _ _ r fr Hreach).
  pose proof (body_runs type_addr str_addr in_args w Hw Hargs Hconcrete (exists b inst, b ∈ blocks generic /\ inst ∈ insts b /\
      indexes_no_container type_addr str_addr in_args w (values generic) inst) w generic instance (reflexivity w) Hready) as Hrun.
  unfold runs in Hrun. destruct (mir_instantiate _ _ _ _ _ w) as [[w' out]|].
  2: { apply Hrun. intros b inst Hb Hi Hno. by exists b, inst. }
  destruct Hrun as [He Hbody]; [intros b inst Hb Hi Hno; by exists b, inst|].
  pose proof (extends_ok _ _ w w' Hw He) as Hw'.
  destruct (body_closed type_addr str_addr in_args w Hw Hargs Hconcrete w' generic instance out Hw' Hbody) as [Hcl Hlen].
  split; [|split; [|split; [done|split; [done|]]]].
  - apply (world_reachable type_addr str_addr w w'); [exact Hreach|exact He].
  - apply (extends_advances _ _ w w' Hw He).
  - eapply Forall2_impl; [exact Hlen|]. cbn beta. lia.
Qed.

(** [func first<T>(of: &slice<T>): &T { return of.index(0); }], whose call is of the
    intrinsic at [T]. *)
Definition generic_1 : TypeRegistry := Eval vm_compute in state_after (type_registry_slice_of sample_addr sample_addr sample_6 (Some 7)).
Definition generic_2 : TypeRegistry := Eval vm_compute in state_after (type_registry_ref_to sample_addr sample_addr generic_1 (Some 12)).
Definition generic_3 : TypeRegistry := Eval vm_compute in state_after (type_registry_ref_to sample_addr sample_addr generic_2 (Some 7)).

Lemma generic_reachable : reachable sample_addr sample_addr generic_3.
Proof.
  eapply reachable_step; [eapply reachable_step; [eapply reachable_step; [exact sample_reachable|]|]|].
  - eapply (step_slice _ _ sample_6 (Some 7) generic_1 12); [apply Nat.ltb_lt; reflexivity|by vm_compute].
  - eapply (step_ref _ _ generic_1 (Some 12) generic_2 13); [apply Nat.ltb_lt; reflexivity|by vm_compute].
  - eapply (step_ref _ _ generic_2 (Some 7) generic_3 14); [apply Nat.ltb_lt; reflexivity|by vm_compute].
Qed.

Definition index_decl : FuncDecl :=
  MkFuncDecl (MkDeclId None None (Some 80) 0) None LINKAGE_INTERNAL FUNC_MOD_INTRINSIC None
    (MkFuncSignature (Some 14) [Some 13; Some 0]) 1 [BOUND_NONE].

Definition generic_functions : FunctionRegistry := Eval vm_compute in
  match function_registry_instance sample_addr sample_addr generic_3 no_functions index_decl [TYPE_ARG_TYPE (Some 7)] with
  | Some (_, fr, _) => fr
  | None => no_functions
  end.

Definition generic_body : MIRFunction := {|
  mir_function := None;
  blocks := [ MkBlock 0
    [ inst_at MIR_CALL (Some 14) 2 [OPERAND_VALUE 0; OPERAND_VALUE 1] (payload_callee (Some 0));
      inst_at MIR_RETURN None MIR_NO_VALUE [OPERAND_VALUE 2] (payload_constant zero_constant) ] ];
  entry := 0; values := [local (Some 13); local (Some 0); local (Some 14)]; params := [0%N; 1%N];
|}.

Definition generic_args : list TypeArg := [TYPE_ARG_TYPE sample_f32_t].

Lemma generic_functions_reachable : function_reachable sample_addr sample_addr generic_3 generic_functions.
Proof.
  eapply function_reachable_step; [apply (types_reachable_functions _ _ generic_3 no_functions); [exact generic_reachable|reflexivity]|].
  eapply (fstep_instance _ _ _ _ index_decl [TYPE_ARG_TYPE (Some 7)]); [| | |by vm_compute].
  - split; [apply Forall_singleton, Nat.ltb_lt; reflexivity|apply Nat.leb_le; reflexivity].
  - split; repeat (apply Forall_cons; split; [first [reflexivity|apply Nat.ltb_lt; reflexivity]|]); constructor.
  - intros _. repeat (apply Forall_cons; split; [reflexivity|]); constructor.
Qed.

Lemma instance_is_the_body_at_its_arguments_witness :
  exists w' out, mir_instantiate sample_addr sample_addr generic_args generic_body (Some 1) (MkWorld generic_3 generic_functions) = Some (w', out) /\
    body_becomes sample_addr sample_addr generic_args (MkWorld generic_3 generic_functions) w' generic_body (Some 1) out /\
    ((fun b => op <$> insts b) <$> blocks out) = [[MIR_BOUNDS; MIR_REF; MIR_RETURN]] /\
    (ty_of (world_types w') <$> (value_type <$> values out)) =
      [TRef (TApp TYPE_SLICE (MkDeclId None None (Some 7) 0) [TBuiltin TYPE_F32]); TBuiltin TYPE_I32; TRef (TBuiltin TYPE_F32)].
Proof.
  pose proof (instance_is_the_body_at_its_arguments sample_addr sample_addr generic_3 generic_functions generic_args generic_body (Some 1)
    generic_functions_reachable) as H. cbn zeta in H.
  destruct (mir_instantiate _ _ _ _ _ _) as [[w' out]|] eqn:Hrun; [|vm_compute in Hrun; discriminate]. exists w', out. split; [reflexivity|].
  assert (Hready : forall p, (p <? length (reg_types generic_3)) = true -> own_params (ty_of generic_3 (Some p)) = true ->
    fits generic_args (ty_of generic_3 (Some p)) = true -> type_ready generic_args (MkWorld generic_3 generic_functions) (Some p)).
  { intros p Hp Ho Hf. split; [apply Nat.ltb_lt; exact Hp|split; [exact Ho|exact Hf]]. }
  split; [|vm_compute in Hrun; injection Hrun as <- <-; split; reflexivity].
  apply H.
  - split; [apply Forall_singleton, Nat.ltb_lt; reflexivity|apply Nat.leb_le; reflexivity].
  - reflexivity.
  - split; [repeat (apply Forall_cons; split; [apply Hready; reflexivity|]); constructor|]. apply Forall_singleton.
    apply Forall_cons; split; [|apply Forall_singleton].
    + split; [apply Hready; reflexivity|]. split; [repeat constructor|]. eexists. split; [reflexivity|].
      apply Forall_singleton. apply Hready; reflexivity.
    + split; [split; [exact I|split; reflexivity]|]. split; [repeat constructor|exact I].
Defined.
