(* ===== verification/Ast.v ===== *)
(** * Ast: the syntax tree

    The nodes of [src/src/ast]: [type_expr.h], [expr.h], [stmt.h], [ast.h] and
    [ident.h], with the functions that make them.  A node is a value: the parser
    never changes one that it handed on, except the few fields it sets right
    after making it.  A tagged union is an inductive type with the enumerators
    as constructors, each with the members of its case; a pointer that may be
    null is an option; the arrays of [GAB_MAX_TYPE_PARAMS] elements with a count
    are lists. *)

From S2P Require Import Prelude Types Mir Diagnostics Strings.

(** ** Identifiers *)

Record ASTIdent := MkASTIdent { ident_name : nat; ident_span : Span }.

(** Interns the name; [None] as in [string_from_ref]. *)
Definition ast_ident_create (strings : StringPool) (span : Span) (name : StringRef) : option (StringPool * ASTIdent) :=
  '(strings, string) ← string_from_ref strings name; Some (strings, MkASTIdent string span).

(** ** Type expressions *)

#[warnings="-register-all"]
Inductive TypeExpr :=
  | TYPE_EXPR_NAME (name : ASTIdent) (qualifier : option ASTIdent)
  | TYPE_EXPR_RAW (inner : TypeExpr)
  | TYPE_EXPR_REF (inner : TypeExpr)
  | TYPE_EXPR_CONST (constant : Z)
  | TYPE_EXPR_APPLY (base : TypeExpr) (args : list TypeExpr).

Definition type_expr_name (name : ASTIdent) : TypeExpr := TYPE_EXPR_NAME name None.
Definition type_expr_qualified (qualifier name : ASTIdent) : TypeExpr := TYPE_EXPR_NAME name (Some qualifier).
(** [kind] is [TYPE_EXPR_RAW] or [TYPE_EXPR_REF]. *)
Definition type_expr_indirect (kind : TypeExpr -> TypeExpr) (inner : TypeExpr) : TypeExpr := kind inner.
Definition type_expr_apply (base : TypeExpr) : TypeExpr := TYPE_EXPR_APPLY base [].
Definition type_expr_const (value : Z) : TypeExpr := TYPE_EXPR_CONST value.

(** ** Expressions *)

Inductive Literal :=
  | LITERAL_INT (value : Z)
  | LITERAL_FLOAT (value : f32)
  | LITERAL_BOOL (value : bool)
  | LITERAL_STRING (value : nat).

Definition literal_type_kind (literal : Literal) : TypeKind :=
  match literal with
  | LITERAL_FLOAT _ => TYPE_F32
  | LITERAL_BOOL _ => TYPE_BOOL
  | LITERAL_STRING _ => TYPE_STR
  | LITERAL_INT _ => TYPE_I32
  end.

Inductive BinOp :=
  | BIN_OP_ADD | BIN_OP_SUB | BIN_OP_MUL | BIN_OP_DIV | BIN_OP_MOD
  | BIN_OP_LESS | BIN_OP_GREATER | BIN_OP_EQUAL | BIN_OP_NEQUAL | BIN_OP_LEQUAL | BIN_OP_GEQUAL
  | BIN_OP_AND | BIN_OP_OR.

#[export] Instance BinOp_eq_dec : EqDecision BinOp.
Proof. solve_decision. Defined.

#[warnings="-register-all"]
Inductive ASTExpr :=
  | EXPR_LITERAL (span : Span) (lit : Literal)
  | EXPR_BIN_OP (span : Span) (left right : ASTExpr) (op : BinOp)
  | EXPR_NAME (span : Span) (name : ASTIdent) (owner_type_expr : option TypeExpr)
  | EXPR_QUALIFIED (span : Span) (qualifier name : ASTIdent) (owner_type_expr : option TypeExpr)
  | EXPR_CALL (span : Span) (target : ASTExpr) (args : list ASTExpr)
  | EXPR_FIELD (span : Span) (target : ASTExpr) (name : ASTIdent)
  | EXPR_ADDR_OF (span : Span) (target : ASTExpr)
  | EXPR_DEREF (span : Span) (target : ASTExpr)
  | EXPR_NEG (span : Span) (target : ASTExpr)
  | EXPR_NOT (span : Span) (target : ASTExpr)
  | EXPR_CAST (span : Span) (type_expr : TypeExpr)
  | EXPR_BUILTIN (span : Span) (name : ASTIdent) (type_expr : option TypeExpr)
  | EXPR_INDEX (span : Span) (target index : ASTExpr)
  | EXPR_ARRAY_LIT (span : Span) (elements : list ASTExpr)
  | EXPR_STRUCT_LIT (span : Span) (type_expr : TypeExpr) (fields : list (ASTIdent * ASTExpr)).

(** [ASTFieldInit] is the pair of a name and a value. *)
Definition ASTFieldInit : Type := ASTIdent * ASTExpr.

Definition expr_span (e : ASTExpr) : Span :=
  match e with
  | EXPR_LITERAL span _ | EXPR_BIN_OP span _ _ _ | EXPR_NAME span _ _ | EXPR_QUALIFIED span _ _ _
  | EXPR_CALL span _ _ | EXPR_FIELD span _ _ | EXPR_ADDR_OF span _ | EXPR_DEREF span _ | EXPR_NEG span _
  | EXPR_NOT span _ | EXPR_CAST span _ | EXPR_BUILTIN span _ _ | EXPR_INDEX span _ _ | EXPR_ARRAY_LIT span _
  | EXPR_STRUCT_LIT span _ _ => span
  end.

Definition ast_literal_expr_create (span : Span) (value : Literal) : ASTExpr := EXPR_LITERAL span value.
Definition ast_bin_op_expr_create (span : Span) (left : ASTExpr) (op : BinOp) (right : ASTExpr) : ASTExpr :=
  EXPR_BIN_OP span left right op.
Definition ast_name_expr_create (span : Span) (name : ASTIdent) : ASTExpr := EXPR_NAME span name None.
Definition ast_qualified_expr_create (span : Span) (qualifier name : ASTIdent) (owner_type_expr : option TypeExpr) : ASTExpr :=
  EXPR_QUALIFIED span qualifier name owner_type_expr.
Definition ast_builtin_expr_create (span : Span) (name : ASTIdent) (type_expr : option TypeExpr) : ASTExpr :=
  EXPR_BUILTIN span name type_expr.
Definition ast_call_expr_create (span : Span) (target : ASTExpr) (args : list ASTExpr) : ASTExpr := EXPR_CALL span target args.
Definition ast_field_expr_create (span : Span) (target : ASTExpr) (name : ASTIdent) : ASTExpr := EXPR_FIELD span target name.
Definition ast_addr_of_expr_create (span : Span) (target : ASTExpr) : ASTExpr := EXPR_ADDR_OF span target.
Definition ast_deref_expr_create (span : Span) (target : ASTExpr) : ASTExpr := EXPR_DEREF span target.
Definition ast_neg_expr_create (span : Span) (target : ASTExpr) : ASTExpr := EXPR_NEG span target.
Definition ast_not_expr_create (span : Span) (target : ASTExpr) : ASTExpr := EXPR_NOT span target.
Definition ast_cast_expr_create (span : Span) (type_expr : TypeExpr) : ASTExpr := EXPR_CAST span type_expr.
Definition ast_array_lit_expr_create (span : Span) (elements : list ASTExpr) : ASTExpr := EXPR_ARRAY_LIT span elements.
Definition ast_struct_lit_expr_create (span : Span) (type_expr : TypeExpr) (fields : list ASTFieldInit) : ASTExpr :=
  EXPR_STRUCT_LIT span type_expr fields.
Definition ast_index_expr_create (span : Span) (target index : ASTExpr) : ASTExpr := EXPR_INDEX span target index.

(** ** Statements *)

Record ASTField := MkASTField { field_ident : ASTIdent; field_type_expr : TypeExpr }.

Definition ast_field_create (name : ASTIdent) (type_expr : TypeExpr) : ASTField := MkASTField name type_expr.

(** The flags of [FuncSyntax]. *)
Definition FUNC_SYN_NONE : N := 0.
Definition FUNC_SYN_INTRINSIC : N := 1.
Definition FUNC_SYN_EXTERN : N := 2.
Definition FUNC_SYN_FOREIGN : N := 4.
Definition FUNC_SYN_CALLER : N := 8.

(** A type parameter and its bound. *)
Abbreviation ASTTypeParam := (ASTIdent * option TypeExpr)%type.

(** [Stmt] is the type of statements, which the body is. *)
Record ASTFuncDecl (Stmt : Type) := MkASTFuncDecl {
  func_ident : ASTIdent;
  func_owner : option TypeExpr;
  func_return_type : option TypeExpr;
  func_params : list ASTField;
  func_body : option Stmt;
  func_type_params : list ASTTypeParam;
  func_syntax : N;
}.
Arguments MkASTFuncDecl {Stmt}.
Arguments func_ident {Stmt}.
Arguments func_owner {Stmt}.
Arguments func_return_type {Stmt}.
Arguments func_params {Stmt}.
Arguments func_body {Stmt}.
Arguments func_type_params {Stmt}.
Arguments func_syntax {Stmt}.

#[warnings="-register-all"]
Inductive ASTStmt :=
  | STMT_EXPR (span : Span) (value : ASTExpr)
  | STMT_VAR_DECL (span : Span) (name : ASTIdent) (type_expr : option TypeExpr) (initializer : option ASTExpr)
  | STMT_FUNC_DECL (span : Span) (decl : ASTFuncDecl ASTStmt)
  | STMT_STRUCT_DECL (span : Span) (name : ASTIdent) (fields : list ASTField) (params : list ASTIdent) (intrinsic : bool)
  | STMT_IMPL (span : Span) (type : TypeExpr) (members : list ASTStmt) (interface_name : option ASTIdent)
      (interface_args : list TypeExpr) (params : list ASTTypeParam)
  | STMT_INTERFACE_DECL (span : Span) (name : ASTIdent) (members : list ASTStmt) (params : list ASTIdent)
  | STMT_ASSIGN (span : Span) (target value : ASTExpr)
  | STMT_COMPOUND_ASSIGN (span : Span) (target value : ASTExpr) (op : BinOp)
  | STMT_BLOCK (span : Span) (list : list ASTStmt)
  | STMT_IF (span : Span) (condition : ASTExpr) (then_block : ASTStmt) (else_block : option ASTStmt)
  | STMT_FOR (span : Span) (init : option ASTStmt) (condition : option ASTExpr) (post : option ASTStmt) (body : ASTStmt)
  | STMT_JUMP (span : Span) (is_break : bool)
  | STMT_RETURN (span : Span) (result : ASTExpr).

Definition stmt_span (s : ASTStmt) : Span :=
  match s with
  | STMT_EXPR span _ | STMT_VAR_DECL span _ _ _ | STMT_FUNC_DECL span _ | STMT_STRUCT_DECL span _ _ _ _
  | STMT_IMPL span _ _ _ _ _ | STMT_INTERFACE_DECL span _ _ _ | STMT_ASSIGN span _ _ | STMT_COMPOUND_ASSIGN span _ _ _
  | STMT_BLOCK span _ | STMT_IF span _ _ _ | STMT_FOR span _ _ _ _ | STMT_JUMP span _ | STMT_RETURN span _ => span
  end.

Definition ast_expr_stmt_create (span : Span) (value : ASTExpr) : ASTStmt := STMT_EXPR span value.
Definition ast_var_decl_stmt_create (span : Span) (name : ASTIdent) (type_expr : option TypeExpr) (initializer : option ASTExpr) : ASTStmt :=
  STMT_VAR_DECL span name type_expr initializer.
Definition ast_func_decl_stmt_create (name : ASTIdent) (return_type : option TypeExpr) (params : list ASTField)
    (body : option ASTStmt) : ASTFuncDecl ASTStmt :=
  MkASTFuncDecl name None return_type params body [] FUNC_SYN_NONE.
Definition ast_struct_decl_stmt_create (span : Span) (name : ASTIdent) (params : list ASTIdent) (fields : list ASTField)
    (intrinsic : bool) : ASTStmt :=
  STMT_STRUCT_DECL span name fields params intrinsic.
(** The interface and the parameters of the block are set by its only caller. *)
Definition ast_impl_stmt_create (span : Span) (type : TypeExpr) (members : list ASTStmt) (interface_name : option ASTIdent)
    (interface_args : list TypeExpr) (params : list ASTTypeParam) : ASTStmt :=
  STMT_IMPL span type members interface_name interface_args params.
Definition ast_interface_decl_stmt_create (span : Span) (name : ASTIdent) (members : list ASTStmt) (params : list ASTIdent) : ASTStmt :=
  STMT_INTERFACE_DECL span name members params.
Definition ast_assign_stmt_create (span : Span) (target value : ASTExpr) : ASTStmt := STMT_ASSIGN span target value.
Definition ast_compound_assign_stmt_create (span : Span) (target : ASTExpr) (op : BinOp) (value : ASTExpr) : ASTStmt :=
  STMT_COMPOUND_ASSIGN span target value op.
Definition ast_if_stmt_create (span : Span) (condition : ASTExpr) (then_block : ASTStmt) (else_block : option ASTStmt) : ASTStmt :=
  STMT_IF span condition then_block else_block.
Definition ast_for_stmt_create (span : Span) (init : option ASTStmt) (condition : option ASTExpr) (post : option ASTStmt)
    (body : ASTStmt) : ASTStmt :=
  STMT_FOR span init condition post body.
Definition ast_jump_stmt_create (span : Span) (is_break : bool) : ASTStmt := STMT_JUMP span is_break.
Definition ast_block_stmt_create (span : Span) (list : list ASTStmt) : ASTStmt := STMT_BLOCK span list.
Definition ast_return_stmt_create (span : Span) (result : ASTExpr) : ASTStmt := STMT_RETURN span result.

(** ** Files and modules *)

(** An [ASTImport] is the name it imports. *)
Record ASTFile := MkASTFile { file_statements : list ASTStmt; file_imports : list ASTIdent; file_module_name : option ASTIdent }.
Record ASTModule := MkASTModule { module_files : list ASTFile; module_name : option ASTIdent }.

Definition ast_module_create : ASTModule := MkASTModule [] None.
Definition ast_file_create : ASTFile := MkASTFile [] [] None.
Definition ast_module_add_file (module : ASTModule) (file : ASTFile) : ASTModule :=
  MkASTModule (module_files module ++ [file]) (module_name module).
Definition ast_file_add_statement (file : ASTFile) (stmt : ASTStmt) : ASTFile :=
  MkASTFile (file_statements file ++ [stmt]) (file_imports file) (file_module_name file).

(** The statements of the first file, which is made when there is none. *)
Definition ast_module_statements (module : ASTModule) : ASTModule * list ASTStmt :=
  let module := match module_files module with [] => ast_module_add_file module ast_file_create | _ => module end in
  (module, match module_files module with file :: _ => file_statements file | [] => [] end).
