(* ===== verification/Facts.v ===== *)
(** * Facts: what the resolver found out about the nodes of the tree

    [src/src/ast/facts.h] and [facts.c].  The tables are keyed by the address of
    a node, so a node's pointer has to tell it from every other: it is the path
    that leads to the node from the root of its tree.  [node_addr] and
    [ident_addr] are the addresses, which the tables hash by. *)

From S2P Require Import Prelude Types Decl HashMap Ast.

Inductive CallKind := CALL_FUNCTION | CALL_CONVERSION | CALL_METHOD | CALL_INDEX | CALL_DEREF.

#[export] Instance CallKind_eq_dec : EqDecision CallKind.
Proof. solve_decision. Defined.

Inductive AdjustKind := ADJUST_NONE | ADJUST_BORROW | ADJUST_UNSIZE.

#[export] Instance AdjustKind_eq_dec : EqDecision AdjustKind.
Proof. solve_decision. Defined.

(** [derefs] is the length of [deref_types]. *)
Record Adjustment := MkAdjustment {
  adjust_kind : AdjustKind;
  deref_types : list TypePtr;
  adjust_to : TypePtr;
  adjust_length : Z;
}.

Definition derefs (adjustment : Adjustment) : nat := length (deref_types adjustment).

(** [(Adjustment){.kind = ADJUST_NONE}] *)
Definition no_adjustment : Adjustment := MkAdjustment ADJUST_NONE [] None 0.

(** [has_constant] is whether the constant is there. *)
Record ExprFact := MkExprFact {
  fact_type : TypePtr;
  fact_use : SymbolPtr;
  fact_callee : FuncPtr;
  fact_adjust : Adjustment;
  fact_constant : option Constant;
  fact_field : nat;
  fact_initialized_field : nat;
  fact_call : CallKind;
  fact_moved : bool;
}.

(** [(ExprFact){0}] *)
Definition no_fact : ExprFact := MkExprFact None None None no_adjustment None 0 0 CALL_FUNCTION false.

(** A node's pointer, and a declared name's: that of a parameter, told by the
    body's pointer, or of a declaration in a body. *)
Definition NodePtr : Type := list nat.

Inductive IdentPtr := PARAM_NAME (body : NodePtr) (i : nat) | LOCAL_NAME (stmt : NodePtr).

#[export] Instance IdentPtr_eq_dec : EqDecision IdentPtr.
Proof. solve_decision. Defined.

#[export] Instance IdentPtr_countable : Countable IdentPtr.
Proof.
  apply (inj_countable' (fun i => match i with PARAM_NAME b i => inl (b, i) | LOCAL_NAME p => inr p end)
    (fun x : NodePtr * nat + NodePtr => match x with inl (b, i) => PARAM_NAME b i | inr p => LOCAL_NAME p end)). by intros [].
Qed.

Record Facts := MkFacts {
  fact_exprs : HashMap NodePtr ExprFact;
  fact_stmts : HashMap NodePtr FuncPtr;
  fact_defs : HashMap IdentPtr SymbolPtr;
}.

Definition FACTS_INITIAL_CAPACITY : nat := 64.

Section addresses.
Context (node_addr : NodePtr -> N) (ident_addr : IdentPtr -> N).

(** [(size_t)(key) >> 4] *)
Definition node_hash (key : NodePtr) : N := N.shiftr (node_addr key) 4.
Definition ident_hash (key : IdentPtr) : N := N.shiftr (ident_addr key) 4.
Definition key_equals {K} `{EqDecision K} (key other : K) : bool := bool_decide (key = other).

Definition facts_init : option Facts :=
  exprs ← map_init FACTS_INITIAL_CAPACITY;
  stmts ← map_init FACTS_INITIAL_CAPACITY;
  defs ← map_init FACTS_INITIAL_CAPACITY;
  Some (MkFacts exprs stmts defs).

(** [NULL] when there is none. *)
Definition fact_of (facts : Facts) (expr : NodePtr) : option ExprFact :=
  default None (map_lookup node_hash key_equals (fact_exprs facts) expr).

(** [fact_mut], and what is written through the pointer it returns. *)
Definition fact_mut (facts : Facts) (expr : NodePtr) (write : ExprFact -> ExprFact) : option Facts :=
  found ← map_lookup node_hash key_equals (fact_exprs facts) expr;
  match found with
  | Some fact =>
      exprs ← map_assign node_hash key_equals (fact_exprs facts) expr (write fact);
      Some (MkFacts exprs (fact_stmts facts) (fact_defs facts))
  | None =>
      '(exprs, _) ← map_insert node_hash key_equals (fact_exprs facts) expr no_fact;
      exprs ← map_assign node_hash key_equals exprs expr (write no_fact);
      Some (MkFacts exprs (fact_stmts facts) (fact_defs facts))
  end.

Definition fact_set_type (facts : Facts) (expr : NodePtr) (type : TypePtr) : option Facts :=
  fact_mut facts expr (fun f => MkExprFact type (fact_use f) (fact_callee f) (fact_adjust f) (fact_constant f) (fact_field f) (fact_initialized_field f) (fact_call f) (fact_moved f)).
Definition fact_set_use (facts : Facts) (expr : NodePtr) (symbol : SymbolPtr) : option Facts :=
  fact_mut facts expr (fun f => MkExprFact (fact_type f) symbol (fact_callee f) (fact_adjust f) (fact_constant f) (fact_field f) (fact_initialized_field f) (fact_call f) (fact_moved f)).
Definition fact_set_callee (facts : Facts) (expr : NodePtr) (callee : FuncPtr) : option Facts :=
  fact_mut facts expr (fun f => MkExprFact (fact_type f) (fact_use f) callee (fact_adjust f) (fact_constant f) (fact_field f) (fact_initialized_field f) (fact_call f) (fact_moved f)).
Definition fact_set_moves (facts : Facts) (expr : NodePtr) (moves : bool) : option Facts :=
  fact_mut facts expr (fun f => MkExprFact (fact_type f) (fact_use f) (fact_callee f) (fact_adjust f) (fact_constant f) (fact_field f) (fact_initialized_field f) (fact_call f) moves).
Definition fact_set_adjustment (facts : Facts) (expr : NodePtr) (adjustment : Adjustment) : option Facts :=
  fact_mut facts expr (fun f => MkExprFact (fact_type f) (fact_use f) (fact_callee f) adjustment (fact_constant f) (fact_field f) (fact_initialized_field f) (fact_call f) (fact_moved f)).
Definition fact_set_call_kind (facts : Facts) (expr : NodePtr) (kind : CallKind) : option Facts :=
  fact_mut facts expr (fun f => MkExprFact (fact_type f) (fact_use f) (fact_callee f) (fact_adjust f) (fact_constant f) (fact_field f) (fact_initialized_field f) kind (fact_moved f)).
Definition fact_set_constant (facts : Facts) (expr : NodePtr) (constant : Constant) : option Facts :=
  fact_mut facts expr (fun f => MkExprFact (fact_type f) (fact_use f) (fact_callee f) (fact_adjust f) (Some constant) (fact_field f) (fact_initialized_field f) (fact_call f) (fact_moved f)).
Definition fact_set_field (facts : Facts) (expr : NodePtr) (field : nat) : option Facts :=
  fact_mut facts expr (fun f => MkExprFact (fact_type f) (fact_use f) (fact_callee f) (fact_adjust f) (fact_constant f) field (fact_initialized_field f) (fact_call f) (fact_moved f)).
Definition fact_set_initialized_field (facts : Facts) (value : NodePtr) (field : nat) : option Facts :=
  fact_mut facts value (fun f => MkExprFact (fact_type f) (fact_use f) (fact_callee f) (fact_adjust f) (fact_constant f) (fact_field f) field (fact_call f) (fact_moved f)).

(** A statement's fact is its one member. *)
Definition fact_set_function (facts : Facts) (stmt : NodePtr) (function : FuncPtr) : option Facts :=
  found ← map_lookup node_hash key_equals (fact_stmts facts) stmt;
  stmts ← (match found with
           | Some _ => Some (fact_stmts facts)
           | None => '(stmts, _) ← map_insert node_hash key_equals (fact_stmts facts) stmt None; Some stmts
           end);
  stmts ← map_assign node_hash key_equals stmts stmt function;
  Some (MkFacts (fact_exprs facts) stmts (fact_defs facts)).

Definition fact_set_def (facts : Facts) (name : IdentPtr) (symbol : SymbolPtr) : option Facts :=
  slot ← map_lookup ident_hash key_equals (fact_defs facts) name;
  match slot with
  | Some _ =>
      defs ← map_assign ident_hash key_equals (fact_defs facts) name symbol;
      Some (MkFacts (fact_exprs facts) (fact_stmts facts) defs)
  | None =>
      '(defs, _) ← map_insert ident_hash key_equals (fact_defs facts) name symbol;
      Some (MkFacts (fact_exprs facts) (fact_stmts facts) defs)
  end.

Definition fact_function_of (facts : Facts) (stmt : NodePtr) : FuncPtr :=
  default None (default None (map_lookup node_hash key_equals (fact_stmts facts) stmt)).

Definition fact_def_of (facts : Facts) (name : IdentPtr) : SymbolPtr :=
  default None (default None (map_lookup ident_hash key_equals (fact_defs facts) name)).

Definition fact_constant_of (facts : Facts) (expr : NodePtr) : option Constant := fact ← fact_of facts expr; fact_constant fact.
Definition fact_type_of (facts : Facts) (expr : NodePtr) : TypePtr := fact ← fact_of facts expr; fact_type fact.
Definition fact_use_of (facts : Facts) (expr : NodePtr) : SymbolPtr := fact ← fact_of facts expr; fact_use fact.
Definition fact_callee_of (facts : Facts) (expr : NodePtr) : FuncPtr := fact ← fact_of facts expr; fact_callee fact.
Definition fact_moves (facts : Facts) (expr : NodePtr) : bool := default false (fact_moved <$> fact_of facts expr).
Definition fact_call_kind (facts : Facts) (expr : NodePtr) : CallKind := default CALL_FUNCTION (fact_call <$> fact_of facts expr).
Definition fact_field_of (facts : Facts) (expr : NodePtr) : nat := default 0 (fact_field <$> fact_of facts expr).
Definition fact_initialized_field_of (facts : Facts) (value : NodePtr) : nat := default 0 (fact_initialized_field <$> fact_of facts value).
Definition fact_adjustment (facts : Facts) (expr : NodePtr) : Adjustment := default no_adjustment (fact_adjust <$> fact_of facts expr).

Definition fact_adjusted_type_of (facts : Facts) (expr : NodePtr) : TypePtr :=
  match fact_of facts expr with
  | None => None
  | Some fact => match adjust_to (fact_adjust fact) with Some type => Some type | None => fact_type fact end
  end.

(** The target of a node that has one is its first child. *)
Fixpoint fact_root_local (facts : Facts) (path : NodePtr) (expr : ASTExpr) : SymbolPtr :=
  match expr with
  | EXPR_NAME _ _ _ => fact_use_of facts path
  | EXPR_FIELD _ target _ | EXPR_INDEX _ target _ | EXPR_DEREF _ target | EXPR_ADDR_OF _ target => fact_root_local facts (path ++ [0]) target
  | _ => None
  end.

(** ** The tables are maps *)

Definition exprs_hold (facts : Facts) (g : gmap NodePtr ExprFact) : Prop := represents node_hash id (fun _ => True) (fact_exprs facts) g.
Definition defs_hold (facts : Facts) (g : gmap IdentPtr SymbolPtr) : Prop := represents ident_hash id (fun _ => True) (fact_defs facts) g.
Definition stmts_hold (facts : Facts) (g : gmap NodePtr FuncPtr) : Prop := represents node_hash id (fun _ => True) (fact_stmts facts) g.

Lemma fact_key_equals_spec {K} `{EqDecision K} (k k' : K) : True -> True -> key_equals k k' = true <-> id k = id k'.
Proof. intros _ _. apply bool_decide_eq_true. Qed.

Lemma hash_same {K} (hash : K -> N) (k k' : K) : True -> True -> id k = id k' -> hash k = hash k'.
Proof. by intros _ _ [= ->]. Qed.

Lemma fact_of_map facts g expr : exprs_hold facts g -> fact_of facts expr = g !! expr.
Proof.
  intros Hg. unfold fact_of. by rewrite (map_lookup_represents _ _ id (fun _ => True) fact_key_equals_spec (hash_same node_hash) _ g expr Hg I).
Qed.

Lemma fact_def_of_map facts g name : defs_hold facts g -> fact_def_of facts name = default None (g !! name).
Proof.
  intros Hg. unfold fact_def_of. by rewrite (map_lookup_represents _ _ id (fun _ => True) fact_key_equals_spec (hash_same ident_hash) _ g name Hg I).
Qed.

(** Writing a member: the other members are as they were, or zero, and so are the
    facts of the other nodes. *)
Lemma fact_mut_map facts g expr write : exprs_hold facts g ->
  exists facts', fact_mut facts expr write = Some facts' /\
    exprs_hold facts' (<[expr := write (default no_fact (g !! expr))]> g) /\
    fact_stmts facts' = fact_stmts facts /\ fact_defs facts' = fact_defs facts.
Proof.
  intros Hg. unfold fact_mut.
  rewrite (map_lookup_represents _ _ id (fun _ => True) fact_key_equals_spec (hash_same node_hash) _ g expr Hg I). cbn [mbind option_bind].
  change (id expr) with expr. destruct (g !! expr) as [fact|] eqn:Hf.
  - destruct (map_assign_represents _ _ id (fun _ => True) fact_key_equals_spec (hash_same node_hash) _ g expr (write fact) fact Hg I Hf) as (m & -> & Hm).
    cbn [mbind option_bind]. by eexists.
  - destruct (map_insert_represents _ _ id (fun _ => True) fact_key_equals_spec (hash_same node_hash) _ g expr no_fact Hg I) as (m & -> & Hm).
    cbn [mbind option_bind]. change (id expr) with expr in Hm. rewrite Hf in Hm.
    destruct (map_assign_represents _ _ id (fun _ => True) fact_key_equals_spec (hash_same node_hash) m _ expr (write no_fact) no_fact Hm I) as (m' & -> & Hm').
    { change (id expr) with expr. by rewrite lookup_insert_eq. }
    cbn [mbind option_bind]. eexists. split; [done|]. split; [|done]. unfold exprs_hold. cbn [fact_exprs default from_option id].
    change (id expr) with expr in Hm'. by rewrite insert_insert_eq in Hm'.
Qed.

Lemma fact_set_def_map facts g name symbol : defs_hold facts g ->
  exists facts', fact_set_def facts name symbol = Some facts' /\ defs_hold facts' (<[name := symbol]> g) /\
    fact_exprs facts' = fact_exprs facts /\ fact_stmts facts' = fact_stmts facts.
Proof.
  intros Hg. unfold fact_set_def.
  rewrite (map_lookup_represents _ _ id (fun _ => True) fact_key_equals_spec (hash_same ident_hash) _ g name Hg I). cbn [mbind option_bind].
  change (id name) with name. destruct (g !! name) as [s|] eqn:Hf.
  - destruct (map_assign_represents _ _ id (fun _ => True) fact_key_equals_spec (hash_same ident_hash) _ g name symbol s Hg I Hf) as (m & -> & Hm).
    cbn [mbind option_bind]. by eexists.
  - destruct (map_insert_represents _ _ id (fun _ => True) fact_key_equals_spec (hash_same ident_hash) _ g name symbol Hg I) as (m & -> & Hm).
    cbn [mbind option_bind]. change (id name) with name in Hm. rewrite Hf in Hm. by eexists.
Qed.

Lemma facts_init_map : exists facts, facts_init = Some facts /\ exprs_hold facts ∅ /\ stmts_hold facts ∅ /\ defs_hold facts ∅.
Proof.
  unfold facts_init.
  destruct (map_init_represents node_hash (id : NodePtr -> NodePtr) (fun _ => True) (V := ExprFact) 5) as (e & He & Hre).
  destruct (map_init_represents node_hash (id : NodePtr -> NodePtr) (fun _ => True) (V := FuncPtr) 5) as (s & Hs & Hrs).
  destruct (map_init_represents ident_hash (id : IdentPtr -> IdentPtr) (fun _ => True) (V := SymbolPtr) 5) as (d & Hd & Hrd).
  change (2 ^ 6) with FACTS_INITIAL_CAPACITY in *. rewrite He, Hs, Hd. by eexists.
Qed.
End addresses.
