(* ===== verification/Lower.v ===== *)
(** * Lower: from the tree to the MIR

    [src/src/mir/mir_lower.c].  The [Lowering] is a state the functions thread;
    what they only read (the facts, the symbols, the functions) is the context.
    A node is given with its pointer, which is its path.

    A computation that is [Stuck] has failed an [assert], dereferenced a null
    pointer, or asked about a type whose answer never comes; one that is
    [OutOfFuel] has called more deeply than its fuel.  The functions the code
    declares before it defines them call each other through [Recursion], which
    [lower_at] ties at each fuel. *)

From S2P Require Import Prelude Types Mir Decl HashMap Ast Facts Registry RegistryTypes RegistryState Scopes.

(** ** The state *)

Record Lowering := MkLowering {
  lw_ir : MIRFunction;
  lw_block : nat;
  lw_types : TypeRegistry;
  lw_locals : list (SymbolPtr * MIRValueId);
  lw_temp_slots : list MIRValueId;
  lw_break : MIRBlockId;
  lw_continue : MIRBlockId;
  lw_floor : nat;
  lw_constants : gmap MIRValueId Constant;
  lw_caller : MIRValueId;
}.

Definition with_ir (s : Lowering) (ir : MIRFunction) : Lowering :=
  MkLowering ir (lw_block s) (lw_types s) (lw_locals s) (lw_temp_slots s) (lw_break s) (lw_continue s) (lw_floor s) (lw_constants s) (lw_caller s).
Definition with_block (s : Lowering) (block : nat) : Lowering :=
  MkLowering (lw_ir s) block (lw_types s) (lw_locals s) (lw_temp_slots s) (lw_break s) (lw_continue s) (lw_floor s) (lw_constants s) (lw_caller s).
Definition with_registry (s : Lowering) (types : TypeRegistry) : Lowering :=
  MkLowering (lw_ir s) (lw_block s) types (lw_locals s) (lw_temp_slots s) (lw_break s) (lw_continue s) (lw_floor s) (lw_constants s) (lw_caller s).
Definition with_locals (s : Lowering) (locals : list (SymbolPtr * MIRValueId)) : Lowering :=
  MkLowering (lw_ir s) (lw_block s) (lw_types s) locals (lw_temp_slots s) (lw_break s) (lw_continue s) (lw_floor s) (lw_constants s) (lw_caller s).
Definition with_temp_slots (s : Lowering) (slots : list MIRValueId) : Lowering :=
  MkLowering (lw_ir s) (lw_block s) (lw_types s) (lw_locals s) slots (lw_break s) (lw_continue s) (lw_floor s) (lw_constants s) (lw_caller s).
Definition with_targets (s : Lowering) (break continue : MIRBlockId) (floor : nat) : Lowering :=
  MkLowering (lw_ir s) (lw_block s) (lw_types s) (lw_locals s) (lw_temp_slots s) break continue floor (lw_constants s) (lw_caller s).
Definition with_constants (s : Lowering) (constants : gmap MIRValueId Constant) : Lowering :=
  MkLowering (lw_ir s) (lw_block s) (lw_types s) (lw_locals s) (lw_temp_slots s) (lw_break s) (lw_continue s) (lw_floor s) constants (lw_caller s).

Inductive Res (A : Type) :=
  | Done (s : Lowering) (a : A)
  | Stuck
  | OutOfFuel.
Arguments Done {A}.
Arguments Stuck {A}.
Arguments OutOfFuel {A}.

Definition Lower (A : Type) : Type := Lowering -> Res A.

#[export] Instance Lower_ret : MRet Lower := fun A a s => Done s a.
#[export] Instance Lower_bind : MBind Lower := fun A B f m s =>
  match m s with Done s a => f a s | Stuck => Stuck | OutOfFuel => OutOfFuel end.

Definition and_then {A B} (m : Lower A) (f : A -> Lower B) : Lower B := m ≫= f.

Definition stuck {A} : Lower A := fun _ => Stuck.
Definition get : Lower Lowering := fun s => Done s s.
Definition put (s : Lowering) : Lower unit := fun _ => Done s tt.
Definition modify (f : Lowering -> Lowering) : Lower unit := fun s => Done (f s) tt.
Definition ask {A} (o : option A) : Lower A := fun s => match o with Some a => Done s a | None => Stuck end.

(** [for (i = 0; i < l.size; i++)] *)
Section for_each.
Context {A B : Type} (f : nat -> A -> Lower B).
Fixpoint for_each (i : nat) (l : list A) : Lower (list B) :=
  match l with
  | [] => mret []
  | a :: l => b ← f i a; bs ← for_each (S i) l; mret (b :: bs)
  end.
End for_each.

(** The functions declared before their definitions. *)
Record Recursion := MkRecursion {
  rec_expr : NodePtr -> ASTExpr -> Lower MIRValueId;
  rec_place : NodePtr -> ASTExpr -> Lower Place;
  rec_call : NodePtr -> ASTExpr -> Lower MIRValueId;
  rec_struct_lit_into : NodePtr -> ASTExpr -> Place -> Lower unit;
}.

(** An instruction; the members left out are zero. *)
Definition plain_inst (o : MIROp) (type : TypePtr) (result : MIRValueId) (l : list MIROperand) (p : MIRPayload) (span : Span) : MIRInst :=
  MkInst o type result l p None span.

Definition no_payload : MIRPayload := payload_constant zero_constant.
Definition at_place (place : Place) : MIRPayload := payload_place place READ_COPY 0.

Definition is_call_of_builtin (expr : ASTExpr) : bool :=
  match expr with EXPR_CALL _ (EXPR_BUILTIN _ _ _) _ => true | _ => false end.

Section lowering.
Context (type_addr str_addr : nat -> N) (type_fuel : nat).
Context (node_addr : NodePtr -> N) (ident_addr : IdentPtr -> N) (facts : Facts).
Context (symbols : list Symbol) (functions : list Function).

#[local] Abbreviation type_of := (fact_type_of node_addr facts).

(** ** Questions *)

Definition ask_types {A} (f : TypeRegistry -> option A) : Lower A := s ← get; ask (f (lw_types s)).

(** [type_kind], of no null pointer. *)
Definition kind_of (type : TypePtr) : Lower TypeKind := ask_types (fun r => kind_at (reg_types r) type).

Definition is_indirect (type : TypePtr) : Lower bool := ask_types (fun r => Some (type_is_indirect (deref r type))).
Definition pointee_of (type : TypePtr) : Lower TypePtr := ask_types (fun r => Some (type_pointee (deref r type))).

Definition i32_type : Lower TypePtr := ask_types (fun r => type_registry_get_primitive r TYPE_I32).

(** [while (type_is_indirect(type)) type = type_pointee(type)] *)
Definition indexed_container (type : TypePtr) : Lower TypePtr :=
  ask_types (fun r => mir_indexed_container (TV := registry_view type_addr str_addr 0 r) (length (reg_types r)) type).

Definition type_owns (type : TypePtr) : Lower bool := fun s =>
  match type_registry_owns type_addr str_addr type_fuel (lw_types s) type with
  | Some (r, b) => Done (with_registry s r) b
  | None => Stuck
  end.

Definition needs_drop (type : TypePtr) : Lower bool :=
  match type with None => mret false | Some _ => type_owns type end.

Definition raw_of (type : TypePtr) : Lower TypePtr := fun s =>
  match type_registry_raw_of type_addr str_addr (lw_types s) type with
  | Some (r, p) => Done (with_registry s r) (Some p)
  | None => Stuck
  end.

Definition function_of (callee : FuncPtr) : Lower (option Function) :=
  match callee with None => mret None | Some p => f ← ask (functions !! p); mret (Some f) end.

Definition symbol_of (symbol : SymbolPtr) : Lower (option Symbol) :=
  match symbol with None => mret None | Some p => x ← ask (symbols !! p); mret (Some x) end.

(** [binding ? binding->var.type : NULL] *)
Definition binding_type (symbol : option Symbol) : Lower TypePtr :=
  match symbol with
  | None => mret None
  | Some x => match symbol_kind x with SYMBOL_VAR type => mret type | _ => stuck end
  end.

(** ** Values, locals, instructions *)

Definition create_value (type : TypePtr) (symbol : SymbolPtr) (span : Span) : Lower MIRValueId := fun s =>
  let '(ir, value) := mir_value_create (lw_ir s) type symbol span in Done (with_ir s ir) value.

Definition lower_temp (type : TypePtr) (span : Span) : Lower MIRValueId := create_value type None span.

Definition emit (inst : MIRInst) : Lower unit := modify (fun s => with_ir s (mir_emit (lw_ir s) (lw_block s) inst)).

Definition create_block : Lower nat := fun s =>
  let '(ir, b) := mir_block_create (lw_ir s) in Done (with_ir s ir) b.

Definition enter_block (b : nat) : Lower unit := modify (fun s => with_block s b).

Definition bind_local (symbol : SymbolPtr) (value : MIRValueId) : Lower unit :=
  modify (fun s => with_locals s (lw_locals s ++ [(symbol, value)])).

(** The last binding of the symbol. *)
Definition local_value (symbol : SymbolPtr) : Lower MIRValueId :=
  s ← get;
  mret (default MIR_NO_VALUE (snd <$> find (fun l => bool_decide (l.1 = symbol)) (rev (lw_locals s)))).

Definition lower_temp_slot (type : TypePtr) (span : Span) : Lower MIRValueId :=
  value ← create_value type None span;
  bind_local None value;;
  modify (fun s => with_temp_slots s (lw_temp_slots s ++ [value]));;
  emit (plain_inst MIR_STORAGE_LIVE type MIR_NO_VALUE [] (at_place (mir_place_of value None)) span);;
  mret value.

Definition is_temp_slot (value : MIRValueId) : Lower bool :=
  s ← get; mret (negb (mir_value_is_none value) && bool_decide (value ∈ lw_temp_slots s)).

Definition lower_load_from (place : Place) (type : TypePtr) (read : ReadKind) (span : Span) : Lower MIRValueId :=
  result ← lower_temp type span;
  emit (plain_inst MIR_LOAD type result [] (payload_place place read 0) span);;
  mret result.

Definition lower_moved_temp (value : MIRValueId) (type : TypePtr) (span : Span) : Lower MIRValueId :=
  is_slot ← is_temp_slot value;
  if negb is_slot then mret value
  else lower_load_from (mir_place_of value None) type READ_MOVE span.

Definition callee_takes_slot (callee : option Function) (index : nat) : Lower bool :=
  match callee with
  | None => mret false
  | Some f => match sig_params (fn_signature f) !! index with None => mret false | Some type => type_owns type end
  end.

Definition note_constant (value : MIRValueId) (constant : Constant) : Lower unit :=
  if mir_value_is_none value then mret tt
  else modify (fun s => with_constants s (<[value := constant]> (lw_constants s))).

Definition lower_operand (value : MIRValueId) : Lower MIROperand :=
  s ← get;
  mret (if negb (mir_value_is_none value) then
          match lw_constants s !! value with Some c => mir_operand_const c | None => mir_operand_value value end
        else mir_operand_value value).

Definition lower_binary_args (left right : MIRValueId) : Lower (list MIROperand) :=
  right ← lower_operand right; mret [mir_operand_value left; right].

Definition lower_args (l : list MIRValueId) : list MIROperand := mir_operand_value <$> l.

(** ** Blocks *)

Definition current_terminated : Lower bool :=
  s ← get; b ← ask (blocks (lw_ir s) !! lw_block s); mret (mir_block_is_terminated b).

Definition lower_terminator (inst : MIRInst) : Lower unit :=
  terminated ← current_terminated;
  if terminated : bool then mret tt else emit inst.

Definition lower_jump (target : MIRBlockId) : Lower unit :=
  lower_terminator (plain_inst MIR_JMP None MIR_NO_VALUE [] (payload_targets target 0) (MkSpan 0 0)).

Definition lower_branch (condition : MIRValueId) (target other : MIRBlockId) (span : Span) : Lower unit :=
  lower_terminator (plain_inst MIR_BRANCH None MIR_NO_VALUE (lower_args [condition]) (payload_targets target other) span).

Definition bin_op_to_ir (op : BinOp) : MIROp :=
  match op with
  | BIN_OP_ADD => MIR_ADD
  | BIN_OP_SUB => MIR_SUB
  | BIN_OP_MUL => MIR_MUL
  | BIN_OP_DIV => MIR_DIV
  | BIN_OP_MOD => MIR_MOD
  | _ => MIR_CMP
  end.

Definition bin_op_is_comparison (op : BinOp) : option CmpPredicate :=
  match op with
  | BIN_OP_LESS => Some MIR_CMP_LT
  | BIN_OP_GREATER => Some MIR_CMP_GT
  | BIN_OP_EQUAL => Some MIR_CMP_EQ
  | BIN_OP_NEQUAL => Some MIR_CMP_NE
  | BIN_OP_LEQUAL => Some MIR_CMP_LE
  | BIN_OP_GEQUAL => Some MIR_CMP_GE
  | _ => None
  end.

Definition lower_store_to (place : Place) (value : MIRValueId) (type : TypePtr) (span : Span) : Lower unit :=
  emit (plain_inst MIR_STORE type MIR_NO_VALUE (lower_args [value]) (at_place place) span).

(** ** Calls, as written *)

Definition call_arg_count (expr : ASTExpr) : Lower nat :=
  match expr with
  | EXPR_INDEX _ _ _ => mret 1
  | EXPR_DEREF _ _ => mret 0
  | EXPR_CALL _ _ l => mret (length l)
  | _ => stuck
  end.

Definition call_arg (path : NodePtr) (expr : ASTExpr) (i : nat) : Lower (NodePtr * ASTExpr) :=
  match expr with
  | EXPR_INDEX _ _ index => mret (path ++ [1], index)
  | EXPR_CALL _ _ l => e ← ask (l !! i); mret (path ++ [S i], e)
  | _ => stuck
  end.

Definition call_receiver (path : NodePtr) (expr : ASTExpr) : Lower (option (NodePtr * ASTExpr)) :=
  match fact_call_kind node_addr facts path, expr with
  | CALL_INDEX, EXPR_INDEX _ target _ => mret (Some (path ++ [0], target))
  | CALL_DEREF, EXPR_DEREF _ target => mret (Some (path ++ [0], target))
  | CALL_METHOD, EXPR_CALL _ (EXPR_FIELD _ target _) _ => mret (Some (path ++ [0; 0], target))
  | CALL_INDEX, _ | CALL_DEREF, _ | CALL_METHOD, _ => stuck
  | _, _ => mret None
  end.

Definition call_result_type (path : NodePtr) (expr : ASTExpr) : Lower TypePtr :=
  let callee := fact_callee_of node_addr facts path in
  let of_callee := f ← function_of callee; f ← ask f; mret (return_type (fn_signature f)) in
  match expr, callee with
  | EXPR_INDEX _ _ _, _ => of_callee
  | EXPR_DEREF _ _, Some _ => of_callee
  | _, _ => mret (type_of path)
  end.

(** ** Expressions *)

Section self.
Context (self : Recursion).

Definition lower_unary (o : MIROp) (path : NodePtr) (expr : ASTExpr) (operand_path : NodePtr) (operand : ASTExpr) : Lower MIRValueId :=
  value ← rec_expr self operand_path operand;
  result ← lower_temp (type_of path) (expr_span expr);
  emit (plain_inst o (type_of path) result (lower_args [value]) no_payload (expr_span expr));;
  mret result.

Definition place_index (base : Place) (container : TypePtr) (index : MIRValueId) (element : TypePtr) : Lower Place :=
  s ← get; mret (mir_place_index (TV := registry_view type_addr str_addr 0 (lw_types s)) base container index element).

Definition bounds_operands (place : Place) (container : TypePtr) (index : MIRValueId) : Lower (list MIRValueId) :=
  ask_types (fun r => mir_bounds_operands (TV := registry_view type_addr str_addr 0 r) (length (reg_types r)) place container index).

Definition lower_indexed_place (target_path : NodePtr) (target : ASTExpr) (index_path : NodePtr) (index_expr : ASTExpr)
    (element : TypePtr) (span : Span) : Lower Place :=
  base ← rec_place self target_path target;
  index ← rec_expr self index_path index_expr;
  place ← place_index base (type_of target_path) index element;
  container ← indexed_container (type_of target_path);
  kind ← kind_of container;
  if bool_decide (kind = TYPE_RAW) then mret place
  else
    checked ← bounds_operands place (type_of target_path) index;
    emit (plain_inst MIR_BOUNDS container MIR_NO_VALUE (lower_args checked) no_payload span);;
    mret place.

(** The dereferences of the [for] in [EXPR_FIELD]; the pointers of a type are
    fewer than the types. *)
Fixpoint project_pointees (fuel : nat) (place : Place) (reached : TypePtr) : Lower Place :=
  and_then (is_indirect reached) (fun indirect =>
    if negb indirect then mret place
    else
      match fuel with
      | O => stuck
      | S fuel =>
          and_then (pointee_of reached) (fun pointee =>
            project_pointees fuel (mir_place_project place (MkProjection PROJ_DEREF pointee)) pointee)
      end).

Definition lower_place (path : NodePtr) (expr : ASTExpr) : Lower Place :=
  match expr with
  | EXPR_NAME _ _ _ =>
      let symbol := fact_use_of node_addr facts path in
      base ← local_value symbol;
      base ← (if mir_value_is_none base then lower_temp (type_of path) (expr_span expr) else mret base);
      mret (mir_place_of base symbol)
  | EXPR_FIELD _ target _ =>
      place ← rec_place self (path ++ [0]) target;
      s ← get;
      place ← project_pointees (length (reg_types (lw_types s))) place (type_of (path ++ [0]));
      mret (mir_place_project place
        (MkProjection (PROJ_FIELD (N.of_nat (fact_field_of node_addr facts path) mod 2 ^ 32)) (type_of path)))
  | EXPR_DEREF _ target =>
      if bool_decide (fact_call_kind node_addr facts path = CALL_DEREF) then
        v ← rec_call self path expr;
        mret (mir_place_project (mir_place_of v None) (MkProjection PROJ_DEREF (type_of path)))
      else
        place ← rec_place self (path ++ [0]) target;
        mret (mir_place_project place (MkProjection PROJ_DEREF (type_of path)))
  | EXPR_INDEX _ target index =>
      if bool_decide (fact_call_kind node_addr facts path = CALL_INDEX) then
        v ← rec_call self path expr;
        mret (mir_place_project (mir_place_of v None) (MkProjection PROJ_DEREF (type_of path)))
      else lower_indexed_place (path ++ [0]) target (path ++ [1]) index (type_of path) (expr_span expr)
  | _ => v ← rec_expr self path expr; mret (mir_place_of v None)
  end.

(** The zero of the union is read as an integer, and the type is left out. *)
Definition bare_int (value : Z) : Constant := MkConstant None (as_int value).

Definition lower_const_int (type : TypePtr) (result : MIRValueId) (constant : Constant) (span : Span) : Lower unit :=
  emit (plain_inst MIR_CONST_INT type result [] (payload_constant constant) span).

Definition lower_literal (path : NodePtr) (span : Span) (lit : Literal) : Lower MIRValueId :=
  let type := type_of path in
  result ← lower_temp type span;
  let '(o, constant) :=
    match lit with
    | LITERAL_STRING value => (MIR_CONST_STR, constant_string type (Some value))
    | LITERAL_FLOAT value => (MIR_CONST_FLOAT, constant_float type value)
    | LITERAL_BOOL value => (MIR_CONST_BOOL, constant_bool type value)
    | LITERAL_INT value => (MIR_CONST_INT, constant_int type value)
    end in
  emit (plain_inst o type result [] (payload_constant constant) span);;
  (if bool_decide (o = MIR_CONST_STR) then mret tt else note_constant result constant);;
  mret result.

Definition lower_logical (path : NodePtr) (span : Span) (left right : ASTExpr) (op : BinOp) : Lower MIRValueId :=
  let is_and := bool_decide (op = BIN_OP_AND) in
  result ← lower_temp (type_of path) span;
  left ← rec_expr self (path ++ [0]) left;
  let slot := mir_place_of result None in
  lower_store_to slot left (type_of path) span;;
  rhs_block ← create_block;
  join ← create_block;
  let rhs_id := N.of_nat rhs_block in
  let join_id := N.of_nat join in
  lower_branch left (if is_and then rhs_id else join_id) (if is_and then join_id else rhs_id) span;;
  enter_block rhs_block;;
  right ← rec_expr self (path ++ [1]) right;
  lower_store_to slot right (type_of path) span;;
  lower_jump join_id;;
  enter_block join;;
  mret result.

Definition lower_bin_op (path : NodePtr) (span : Span) (left right : ASTExpr) (op : BinOp) : Lower MIRValueId :=
  if bool_decide (op = BIN_OP_AND) || bool_decide (op = BIN_OP_OR) then lower_logical path span left right op
  else
    left ← rec_expr self (path ++ [0]) left;
    right ← rec_expr self (path ++ [1]) right;
    result ← lower_temp (type_of path) span;
    args ← lower_binary_args left right;
    emit (match bin_op_is_comparison op with
          | Some predicate => plain_inst MIR_CMP (type_of path) result args (payload_predicate predicate) span
          | None => plain_inst (bin_op_to_ir op) (type_of path) result args no_payload span
          end);;
    mret result.

(** The one-argument instructions of the intrinsics. *)
Definition lower_of_source (o : MIROp) (path receiver_path : NodePtr) (receiver : ASTExpr) (span : Span) : Lower MIRValueId :=
  source ← rec_expr self receiver_path receiver;
  result ← lower_temp (type_of path) span;
  emit (plain_inst o (type_of path) result (lower_args [source]) no_payload span);;
  mret result.

Definition array_length_constant (base : TypePtr) : Lower Constant :=
  i32 ← i32_type;
  ask_types (fun r =>
    if type_array_length_is_known (deref r base) then constant_int i32 <$> type_array_length (deref r base)
    else Some (constant_int base 0)).

(** Only an array, a slice and a raw run supply the indexing intrinsic. *)
Definition container_element (container : TypePtr) : Lower TypePtr :=
  kind ← kind_of container;
  match kind with
  | TYPE_ARRAY => ask_types (fun r => type_array_element (deref r container))
  | TYPE_RAW => pointee_of container
  | TYPE_SLICE => ask_types (fun r => type_slice_element (deref r container))
  | _ => stuck
  end.

(** [None] is the [false] of the code. *)
Definition lower_intrinsic_call (path : NodePtr) (expr : ASTExpr) : Lower (option MIRValueId) :=
  callee ← function_of (fact_callee_of node_addr facts path);
  receiver ← call_receiver path expr;
  match callee, receiver with
  | Some callee, Some (receiver_path, receiver) =>
      if negb (has_modifier (fn_decl callee) FUNC_MOD_INTRINSIC) then mret None
      else
        str_ref ← ask_types (fun r => Some (type_is_str_ref (deref r) (deref r (type_of receiver_path))));
        count ← call_arg_count expr;
        if str_ref : bool then v ← lower_of_source MIR_COPY path receiver_path receiver (expr_span expr); mret (Some v)
        else if Nat.eqb count 0 then
          base ← indexed_container (type_of receiver_path);
          kind ← kind_of base;
          if bool_decide (kind = TYPE_ARRAY) then
            result ← lower_temp (type_of path) (expr_span expr);
            constant ← array_length_constant base;
            lower_const_int (type_of path) result constant (expr_span expr);;
            mret (Some result)
          else v ← lower_of_source MIR_SLICE_LEN path receiver_path receiver (expr_span expr); mret (Some v)
        else
          container ← indexed_container (type_of receiver_path);
          element ← container_element container;
          '(index_path, index) ← call_arg path expr 0;
          place ← lower_indexed_place receiver_path receiver index_path index element (expr_span expr);
          lent ← call_result_type path expr;
          result ← lower_temp lent (expr_span expr);
          emit (plain_inst MIR_REF lent result [] (at_place place) (expr_span expr));;
          mret (Some result)
  | _, _ => mret None
  end.

(** An argument, moved out of its temporary when the callee takes it. *)
Definition lower_call_arg (callee : option Function) (index : nat) (path : NodePtr) (arg : ASTExpr) (span : Span) : Lower MIROperand :=
  value ← rec_expr self path arg;
  takes ← callee_takes_slot callee index;
  value ← (if takes : bool then
             type ← ask (f ← callee; sig_params (fn_signature f) !! index);
             lower_moved_temp value type span
           else mret value);
  mret (mir_operand_value value).

(** The two members, [line] and [column]. *)
Definition lower_location_of (type : TypePtr) (span : Span) : Lower MIRValueId :=
  result ← lower_temp type span;
  let base := mir_place_of result None in
  for_each (fun i at_i =>
    i32 ← i32_type;
    value ← lower_temp i32 span;
    lower_const_int i32 value (constant_int i32 at_i) span;;
    lower_store_to (mir_place_project base (MkProjection (PROJ_FIELD (N.of_nat i)) i32)) value i32 span)
    0 [to_i32 (span_line span); to_i32 (span_column span)];;
  mret result.

(** A call that no intrinsic and no conversion answered. *)
Definition lower_function_call (path : NodePtr) (expr : ASTExpr) : Lower MIRValueId :=
  let callee_ptr := fact_callee_of node_addr facts path in
  callee ← function_of callee_ptr;
  receiver ← call_receiver path expr;
  written ← call_arg_count expr;
  let shift := match receiver with Some _ => 1 | None => 0 end in
  received ← (match receiver with
              | Some (receiver_path, receiver) => arg ← lower_call_arg callee 0 receiver_path receiver (expr_span expr); mret [arg]
              | None => mret []
              end);
  args ← for_each (fun i _ =>
    '(arg_path, arg) ← call_arg path expr i;
    lower_call_arg callee (i + shift) arg_path arg (expr_span expr)) 0 (replicate written tt);
  located ← (match callee with
             | Some f =>
                 if has_modifier (fn_decl f) FUNC_MOD_CALLER then
                   s ← get;
                   location ← (if mir_value_is_none (lw_caller s) then lower_location_of (location_type (fn_decl f)) (expr_span expr)
                               else mret (lw_caller s));
                   mret [mir_operand_value location]
                 else mret []
             | None => mret []
             end);
  answered ← call_result_type path expr;
  result ← lower_temp answered (expr_span expr);
  emit (plain_inst MIR_CALL answered result (received ++ args ++ located) (payload_callee callee_ptr) (expr_span expr));;
  drops ← needs_drop answered;
  if negb drops then mret result
  else
    slot ← lower_temp_slot answered (expr_span expr);
    lower_store_to (mir_place_of slot None) result answered (expr_span expr);;
    mret slot.

Definition lower_call (path : NodePtr) (expr : ASTExpr) : Lower MIRValueId :=
  match expr with
  | EXPR_CALL _ (EXPR_BUILTIN _ _ _ as target) _ => rec_expr self (path ++ [0]) target
  | _ =>
      intrinsic ← lower_intrinsic_call path expr;
      match intrinsic with
      | Some result => mret result
      | None =>
          if bool_decide (fact_call_kind node_addr facts path = CALL_CONVERSION) then
            '(operand_path, operand) ← call_arg path expr 0;
            to ← kind_of (type_of path);
            from ← kind_of (type_of operand_path);
            if bool_decide (to = from) then rec_expr self operand_path operand
            else lower_unary (if bool_decide (to = TYPE_F32) then MIR_ITOF else MIR_FTOI) path expr operand_path operand
          else lower_function_call path expr
      end
  end.

Definition lower_field_init (path : NodePtr) (base : Place) (init : ASTFieldInit) : Lower unit :=
  let type := type_of path in
  let field := mir_place_project base
    (MkProjection (PROJ_FIELD (N.of_nat (fact_initialized_field_of node_addr facts path) mod 2 ^ 32)) type) in
  match init.2 with
  | EXPR_STRUCT_LIT _ _ _ => rec_struct_lit_into self path init.2 field
  | _ =>
      value ← rec_expr self path init.2;
      value ← lower_moved_temp value type (ident_span init.1);
      lower_store_to field value type (ident_span init.1)
  end.

Definition lower_struct_lit_into (path : NodePtr) (expr : ASTExpr) (base : Place) : Lower unit :=
  match expr with
  | EXPR_STRUCT_LIT _ _ fields => for_each (fun i init => lower_field_init (path ++ [i]) base init) 0 fields;; mret tt
  | _ => stuck
  end.

(** The value a literal is written into: a slot when its type owns. *)
Definition lower_literal_target (type : TypePtr) (span : Span) : Lower MIRValueId :=
  drops ← needs_drop type;
  if drops : bool then lower_temp_slot type span else lower_temp type span.

Definition lower_struct_lit (path : NodePtr) (expr : ASTExpr) : Lower MIRValueId :=
  result ← lower_literal_target (type_of path) (expr_span expr);
  lower_struct_lit_into path expr (mir_place_of result None);;
  mret result.

Definition lower_element (path : NodePtr) (base : Place) (i : nat) (element : ASTExpr) : Lower unit :=
  let type := type_of path in
  i32 ← i32_type;
  index ← lower_temp i32 (expr_span element);
  lower_const_int i32 index (bare_int (to_i32 (Z.of_nat i))) (expr_span element);;
  value ← rec_expr self path element;
  value ← lower_moved_temp value type (expr_span element);
  lower_store_to (mir_place_project base (MkProjection (PROJ_INDEX index) type)) value type (expr_span element).

Definition lower_array_lit (path : NodePtr) (span : Span) (elements : list ASTExpr) : Lower MIRValueId :=
  result ← lower_literal_target (type_of path) span;
  for_each (fun i element => lower_element (path ++ [i]) (mir_place_of result None) i element) 0 elements;;
  mret result.

(** A node whose value the resolver worked out. *)
Definition lower_answered (expr : ASTExpr) (answered : Constant) : Lower MIRValueId :=
  let is_size_of := match expr with EXPR_BUILTIN _ _ _ => true | _ => is_call_of_builtin expr end in
  has_param ← ask_types (fun r => Some (type_has_param (deref r (constant_type answered))));
  if is_size_of && has_param then
    counted ← ask_types (fun r => type_registry_get_primitive r TYPE_USIZE);
    result ← lower_temp counted (expr_span expr);
    emit (plain_inst MIR_SIZE_OF (constant_type answered) result [] no_payload (expr_span expr));;
    mret result
  else
    result ← lower_temp (constant_type answered) (expr_span expr);
    lower_const_int (constant_type answered) result (bare_int (const_int answered)) (expr_span expr);;
    note_constant result answered;;
    mret result.

(** What falls out of the [switch]. *)
Definition lower_read (path : NodePtr) (expr : ASTExpr) : Lower MIRValueId :=
  place ← rec_place self path expr;
  lower_load_from place (type_of path) (if fact_moves node_addr facts path then READ_MOVE else READ_COPY) (expr_span expr).

Definition lower_unadjusted (path : NodePtr) (expr : ASTExpr) : Lower MIRValueId :=
  match fact_constant_of node_addr facts path with
  | Some answered => lower_answered expr answered
  | None =>
      match expr with
      | EXPR_LITERAL span lit => lower_literal path span lit
      | EXPR_BIN_OP span lhs rhs op => lower_bin_op path span lhs rhs op
      | EXPR_CALL _ _ _ => rec_call self path expr
      | EXPR_STRUCT_LIT _ _ _ => lower_struct_lit path expr
      | EXPR_ARRAY_LIT span elements => lower_array_lit path span elements
      | EXPR_NEG _ target => lower_unary MIR_NEG path expr (path ++ [0]) target
      | EXPR_NOT _ target => lower_unary MIR_NOT path expr (path ++ [0]) target
      | EXPR_ADDR_OF span target =>
          result ← lower_temp (type_of path) span;
          place ← rec_place self (path ++ [0]) target;
          emit (plain_inst MIR_REF (type_of path) result [] (at_place place) span);;
          mret result
      | EXPR_BUILTIN _ _ _ => s ← get; mret (lw_caller s)
      | EXPR_NAME _ _ _ =>
          value ← local_value (fact_use_of node_addr facts path);
          if negb (mir_value_is_none value) && negb (fact_moves node_addr facts path) then mret value
          else lower_read path expr
      | _ => lower_read path expr
      end
  end.

Definition lower_adjusted_place (path : NodePtr) (expr : ASTExpr) (adjustment : Adjustment) : Lower Place :=
  place ← rec_place self path expr;
  mret (foldl (fun place type => mir_place_project place (MkProjection PROJ_DEREF type)) place (deref_types adjustment)).

Definition lower_derefs (path : NodePtr) (expr : ASTExpr) (adjustment : Adjustment) : Lower MIRValueId :=
  match last (deref_types adjustment) with
  | None => lower_unadjusted path expr
  | Some reached =>
      result ← lower_temp reached (expr_span expr);
      place ← lower_adjusted_place path expr adjustment;
      emit (plain_inst MIR_LOAD reached result [] (at_place place) (expr_span expr));;
      mret result
  end.

Definition lower_unsize (path : NodePtr) (expr : ASTExpr) (adjustment : Adjustment) : Lower MIRValueId :=
  let span := expr_span expr in
  let reached := default (type_of path) (last (deref_types adjustment)) in
  elements ← raw_of reached;
  data ← lower_temp elements span;
  place ← lower_adjusted_place path expr adjustment;
  emit (plain_inst MIR_REF elements data [] (at_place place) span);;
  i32 ← i32_type;
  length ← lower_temp i32 span;
  lower_const_int i32 length (bare_int (adjust_length adjustment)) span;;
  result ← lower_temp (adjust_to adjustment) span;
  emit (plain_inst MIR_MAKE_SLICE (adjust_to adjustment) result (lower_args [data; length]) no_payload span);;
  mret result.

Definition lower_borrow (path : NodePtr) (expr : ASTExpr) (adjustment : Adjustment) : Lower MIRValueId :=
  result ← lower_temp (adjust_to adjustment) (expr_span expr);
  place ← lower_adjusted_place path expr adjustment;
  emit (plain_inst MIR_REF (adjust_to adjustment) result [] (at_place place) (expr_span expr));;
  mret result.

Definition lower_expr (path : NodePtr) (expr : ASTExpr) : Lower MIRValueId :=
  let adjustment := fact_adjustment node_addr facts path in
  match adjust_kind adjustment with
  | ADJUST_UNSIZE => lower_unsize path expr adjustment
  | ADJUST_BORROW => lower_borrow path expr adjustment
  | ADJUST_NONE => lower_derefs path expr adjustment
  end.

Definition lower_step : Recursion := MkRecursion lower_expr lower_place lower_call lower_struct_lit_into.
End self.

Definition no_recursion : Recursion :=
  MkRecursion (fun _ _ _ => OutOfFuel) (fun _ _ _ => OutOfFuel) (fun _ _ _ => OutOfFuel) (fun _ _ _ _ => OutOfFuel).

(** Calls at most [fuel] deep. *)
Fixpoint lower_at (fuel : nat) : Recursion :=
  match fuel with O => no_recursion | S fuel => lower_step (lower_at fuel) end.

(** ** Statements *)

Section statements.
Context (self : Recursion).

(** The type a local holds: that of a temporary, or that of a variable. *)
Definition local_type (symbol : SymbolPtr) (value : MIRValueId) : Lower TypePtr :=
  binding ← symbol_of symbol;
  match binding with
  | None => s ← get; mret (info ← mir_value_info (lw_ir s) value; value_type info)
  | Some x => mret (match symbol_kind x with SYMBOL_VAR type => type | _ => None end)
  end.

Definition lower_drop (local : SymbolPtr * MIRValueId) (span : Span) : Lower unit :=
  type ← local_type local.1 local.2;
  drops ← needs_drop type;
  if drops : bool then emit (plain_inst MIR_DROP type MIR_NO_VALUE [] (at_place (mir_place_of local.2 local.1)) span)
  else mret tt.

(** The locals above the first [floor], the last first. *)
Definition locals_above (floor : nat) : Lower (list (SymbolPtr * MIRValueId)) :=
  s ← get; mret (rev (drop floor (lw_locals s))).

Definition lower_drops_above (floor : nat) (span : Span) : Lower unit :=
  locals ← locals_above floor;
  for_each (fun _ local => lower_drop local span) 0 locals;;
  mret tt.

Definition pop_locals (enclosing : nat) : Lower unit := modify (fun s => with_locals s (take enclosing (lw_locals s))).

Definition lower_scope_end (enclosing : nat) (span : Span) : Lower unit :=
  terminated ← current_terminated;
  if terminated : bool then pop_locals enclosing
  else
    locals ← locals_above enclosing;
    for_each (fun _ local =>
      lower_drop local span;;
      binding ← symbol_of local.1;
      type ← binding_type binding;
      emit (plain_inst MIR_STORAGE_DEAD type MIR_NO_VALUE [] (at_place (mir_place_of local.2 local.1)) span)) 0 locals;;
    pop_locals enclosing.

Definition lower_store (path : NodePtr) (target : ASTExpr) (value : MIRValueId) (type : TypePtr) (span : Span) : Lower unit :=
  place ← rec_place self path target; lower_store_to place value type span.

(** A value moved into the place that will hold it. *)
Definition lower_moved (path : NodePtr) (expr : ASTExpr) (span : Span) : Lower MIRValueId :=
  value ← rec_expr self path expr; lower_moved_temp value (type_of path) span.

Definition lower_var_decl (path : NodePtr) (span : Span) (initializer : option ASTExpr) : Lower unit :=
  let symbol := fact_def_of ident_addr facts (LOCAL_NAME path) in
  binding ← symbol_of symbol;
  type ← binding_type binding;
  local ← create_value type symbol span;
  bind_local symbol local;;
  let place := mir_place_of local symbol in
  emit (plain_inst MIR_STORAGE_LIVE type MIR_NO_VALUE [] (at_place place) span);;
  match initializer with
  | None => mret tt
  | Some (EXPR_STRUCT_LIT _ _ _ as init) =>
      emit (plain_inst MIR_STORAGE_INIT (type_of (path ++ [0])) MIR_NO_VALUE [] (at_place place) span);;
      rec_struct_lit_into self (path ++ [0]) init place
  | Some init =>
      value ← lower_moved (path ++ [0]) init span;
      lower_store_to place value (type_of (path ++ [0])) span
  end.

Definition assigned_container (target : ASTExpr) : bool :=
  match target with EXPR_DEREF _ _ | EXPR_INDEX _ _ _ => true | _ => false end.
Definition assigned_part (target : ASTExpr) : bool :=
  match target with EXPR_FIELD _ _ _ | EXPR_DEREF _ _ | EXPR_INDEX _ _ _ => true | _ => false end.

Definition lower_assign (path : NodePtr) (span : Span) (target value : ASTExpr) : Lower unit :=
  let type := type_of (path ++ [0]) in
  through_a_raw_run ← (if assigned_container target then
                         kind ← kind_of (type_of (path ++ [0; 0])); mret (bool_decide (kind = TYPE_RAW))
                       else mret false);
  overwrites_owned ← (if assigned_part target && negb through_a_raw_run then needs_drop type else mret false);
  place ← rec_place self (path ++ [0]) target;
  held ← (if overwrites_owned : bool then lower_load_from place type READ_COPY span else mret MIR_NO_VALUE);
  stored ← lower_moved (path ++ [1]) value span;
  lower_store_to place stored (type_of (path ++ [1])) span;;
  if overwrites_owned : bool then emit (plain_inst MIR_DROP type MIR_NO_VALUE [] (at_place (mir_place_of held None)) span)
  else mret tt.

Definition lower_compound_assign (path : NodePtr) (span : Span) (target value : ASTExpr) (op : BinOp) : Lower unit :=
  let type := type_of (path ++ [0]) in
  place ← rec_place self (path ++ [0]) target;
  held ← lower_load_from place type READ_COPY (expr_span target);
  operand ← rec_expr self (path ++ [1]) value;
  result ← lower_temp type span;
  args ← lower_binary_args held operand;
  emit (plain_inst (bin_op_to_ir op) type result args no_payload span);;
  lower_store_to place result type span.

Definition lower_return (path : NodePtr) (span : Span) (answer : option ASTExpr) : Lower unit :=
  args ← (match answer with
          | None => mret []
          | Some answer => value ← lower_moved (path ++ [0]) answer span; mret (lower_args [value])
          end);
  lower_drops_above 0 span;;
  lower_terminator (plain_inst MIR_RETURN None MIR_NO_VALUE args no_payload span).

Definition lower_jump_stmt (span : Span) (is_break : bool) : Lower unit :=
  s ← get;
  lower_drops_above (lw_floor s) span;;
  s ← get;
  let target := if is_break then lw_break s else lw_continue s in
  if mir_block_is_none target then mret tt else lower_jump target.

(** A null statement lowers to nothing; the declarations of functions and of
    types are the [default] of the [switch]. *)
Fixpoint lower_stmt (path : NodePtr) (stmt : ASTStmt) : Lower unit :=
  let lower_opt path stmt := match stmt with None => mret tt | Some stmt => lower_stmt path stmt end in
  match stmt with
  | STMT_EXPR _ value => rec_expr self (path ++ [0]) value;; mret tt
  | STMT_VAR_DECL span _ _ initializer => lower_var_decl path span initializer
  | STMT_ASSIGN span target value => lower_assign path span target value
  | STMT_COMPOUND_ASSIGN span target value op => lower_compound_assign path span target value op
  | STMT_BLOCK span list =>
      s ← get;
      for_each (fun i stmt => lower_stmt (path ++ [i]) stmt) 0 list;;
      lower_scope_end (length (lw_locals s)) span
  | STMT_IF span condition then_block else_block =>
      condition ← rec_expr self (path ++ [0]) condition;
      then_id ← create_block;
      join ← create_block;
      else_id ← (match else_block with Some _ => create_block | None => mret join end);
      lower_branch condition (N.of_nat then_id) (N.of_nat else_id) span;;
      enter_block then_id;;
      lower_stmt (path ++ [1]) then_block;;
      lower_jump (N.of_nat join);;
      (match else_block with
       | Some else_block =>
           enter_block else_id;;
           lower_stmt (path ++ [2]) else_block;;
           lower_jump (N.of_nat join)
       | None => mret tt
       end);;
      enter_block join
  | STMT_FOR span init condition post body =>
      s ← get;
      let enclosing := length (lw_locals s) in
      lower_opt (path ++ [0]) init;;
      header ← create_block;
      body_id ← create_block;
      post_id ← create_block;
      exit ← create_block;
      lower_jump (N.of_nat header);;
      enter_block header;;
      (match condition with
       | Some condition =>
           condition ← rec_expr self (path ++ [1]) condition;
           lower_branch condition (N.of_nat body_id) (N.of_nat exit) span
       | None => lower_jump (N.of_nat body_id)
       end);;
      s ← get;
      modify (fun s => with_targets s (N.of_nat exit) (N.of_nat post_id) (length (lw_locals s)));;
      enter_block body_id;;
      lower_stmt (path ++ [3]) body;;
      lower_jump (N.of_nat post_id);;
      modify (fun now => with_targets now (lw_break s) (lw_continue s) (lw_floor s));;
      enter_block post_id;;
      lower_opt (path ++ [2]) post;;
      lower_jump (N.of_nat header);;
      enter_block exit;;
      lower_scope_end enclosing span
  | STMT_JUMP span is_break => lower_jump_stmt span is_break
  | STMT_RETURN span answer => lower_return path span (Some answer)
  | STMT_FUNC_DECL _ _ | STMT_STRUCT_DECL _ _ _ _ _ | STMT_IMPL _ _ _ _ _ _ | STMT_INTERFACE_DECL _ _ _ _ => mret tt
  end.
End statements.

(** ** A function *)

(** The state [mir_build_function] starts from. *)
Definition lowering_of (types : TypeRegistry) (function : FuncPtr) : Lowering :=
  MkLowering (mir_function_create function) 0 types [] [] MIR_NO_BLOCK MIR_NO_BLOCK 0 ∅ MIR_NO_VALUE.

Definition add_param (value : MIRValueId) : Lower unit :=
  modify (fun s => let ir := lw_ir s in
    with_ir s (MkFunction (mir_function ir) (blocks ir) (entry ir) (values ir) (params ir ++ [value]))).

Definition with_caller (value : MIRValueId) : Lower unit :=
  modify (fun s => MkLowering (lw_ir s) (lw_block s) (lw_types s) (lw_locals s) (lw_temp_slots s) (lw_break s) (lw_continue s) (lw_floor s) (lw_constants s) value).

Definition lower_param (root : NodePtr) (function : Function) (i : nat) (param : ASTField) : Lower unit :=
  let symbol := fact_def_of ident_addr facts (PARAM_NAME root i) in
  type ← ask (sig_params (fn_signature function) !! i);
  value ← create_value type symbol (ident_span (field_ident param));
  add_param value;;
  bind_local symbol value.

Definition lower_function (root : NodePtr) (function : Function) (fields : list ASTField) (body : option ASTStmt) (fuel : nat) : Lower unit :=
  for_each (lower_param root function) 0 fields;;
  (if has_modifier (fn_decl function) FUNC_MOD_CALLER then
     value ← create_value (location_type (fn_decl function)) None (match body with Some body => stmt_span body | None => MkSpan 0 0 end);
     with_caller value;;
     add_param value
   else mret tt);;
  modify (fun s => with_targets s (lw_break s) (lw_continue s) (length (lw_locals s)));;
  (match body with Some body => lower_stmt (lower_at fuel) root body | None => mret tt end);;
  lower_terminator (plain_inst MIR_RETURN None MIR_NO_VALUE [] no_payload (MkSpan 0 0)).

(** The function's MIR, with the types the lowering made; [root] is the body's
    pointer. *)
Definition mir_build_function (root : NodePtr) (types : TypeRegistry) (function : nat) (fields : list ASTField) (body : option ASTStmt) (fuel : nat)
  : Res MIRFunction :=
  match functions !! function with
  | None => Stuck
  | Some f =>
      match lower_function root f fields body fuel (lowering_of types (Some function)) with
      | Done s _ => Done s (lw_ir s)
      | Stuck => Stuck
      | OutOfFuel => OutOfFuel
      end
  end.
End lowering.
