(* ===== verification/LowerShape.v ===== *)
(** * LowerShape: what lowering makes of a function it can lower

    When the facts about a function are what lowering needs ([lowerable],
    [lowerable_stmt], [lowerable_function]) and nothing follows a statement that
    leaves its block ([tail_jumps]), lowering ends, no assertion of it fails, and the
    blocks it leaves are basic blocks: each ends in its one terminator, whose
    targets exist.  Two of these the resolver does not see to, and [LowerLimits]
    shows what becomes of a program without them: that nothing follows a [return],
    a [break] or a [continue], and that only places are adjusted. *)

From S2P Require Import Prelude Types Mir Liveness Decl HashMap Ast Facts Registry RegistryTypes RegistryState Containers Scopes Lower.

(** ** Blocks *)

Definition open_block (b : MIRBlock) : Prop := Forall (fun inst => mir_op_is_terminator (op inst) = false) (insts b).

(** One terminator, at the end, to blocks among the first [n]. *)
Definition closed_block (n : nat) (b : MIRBlock) : Prop :=
  exists pre terminator, insts b = pre ++ [terminator] /\ open_block (set_insts b pre) /\
    mir_op_is_terminator (op terminator) = true /\ Forall (fun id => N.to_nat id < n) (mir_block_successors b).

Inductive Ending := Open | Closed | Either.

Definition ends_as (e : Ending) (n : nat) (b : MIRBlock) : Prop :=
  match e with Open => open_block b | Closed => closed_block n b | Either => open_block b \/ closed_block n b end.

Lemma closed_block_le n n' b : closed_block n b -> n <= n' -> closed_block n' b.
Proof.
  intros (pre & t & ? & ? & ? & Hs) Hle. exists pre, t. split_and!; try done. eapply Forall_impl; [exact Hs|]. cbn beta. intros; lia.
Qed.

Lemma ends_as_le e n n' b : ends_as e n b -> n <= n' -> ends_as e n' b.
Proof. destruct e; cbn; [done|by eauto using closed_block_le|]. intros [|]; eauto using closed_block_le. Qed.

Lemma ends_as_either e n b : ends_as e n b -> ends_as Either n b.
Proof. destruct e; cbn; tauto. Qed.

Lemma open_not_terminated b : open_block b -> mir_block_is_terminated b = false.
Proof.
  unfold open_block, mir_block_is_terminated. destruct (last (insts b)) as [inst|] eqn:Hl; [|done].
  apply last_Some in Hl as [l ->]. by intros [_ [H _]%Forall_cons]%Forall_app.
Qed.

Lemma closed_terminated n b : closed_block n b -> mir_block_is_terminated b = true.
Proof. intros (pre & t & Hi & _ & Ht & _). unfold mir_block_is_terminated. by rewrite Hi, last_snoc. Qed.

Lemma open_snoc b inst : open_block b -> mir_op_is_terminator (op inst) = false -> open_block (set_insts b (insts b ++ [inst])).
Proof. intros Hb Hi. apply Forall_app. split; [done|]. by apply Forall_singleton. Qed.

Lemma closed_snoc n b inst : open_block b -> mir_op_is_terminator (op inst) = true ->
  Forall (fun id => N.to_nat id < n) (mir_block_successors (MkBlock 0 [inst])) ->
  closed_block n (set_insts b (insts b ++ [inst])).
Proof.
  intros Hb Ht Hs. exists (insts b), inst. split_and!; [done|by destruct b|done|].
  unfold mir_block_successors, mir_block_is_terminated in *. cbn [insts set_insts last] in *. by rewrite last_snoc.
Qed.

Create HintDb lower.

(** Blocks made and then entered are no longer pending. *)
Lemma entered_two (P : gset nat) a b : a ∉ P -> b ∉ {[a]} ∪ P -> ({[b]} ∪ ({[a]} ∪ P)) ∖ {[a]} ∖ {[b]} = P.
Proof. set_solver. Qed.
Lemma entered_three (P : gset nat) a b c : a ∉ P -> b ∉ {[a]} ∪ P -> c ∉ {[b]} ∪ ({[a]} ∪ P) ->
  ({[c]} ∪ ({[b]} ∪ ({[a]} ∪ P))) ∖ {[a]} ∖ {[c]} ∖ {[b]} = P.
Proof. set_solver. Qed.
Lemma entered_four (P : gset nat) a b c d : a ∉ P -> b ∉ {[a]} ∪ P -> c ∉ {[b]} ∪ ({[a]} ∪ P) -> d ∉ {[c]} ∪ ({[b]} ∪ ({[a]} ∪ P)) ->
  ({[d]} ∪ ({[c]} ∪ ({[b]} ∪ ({[a]} ∪ P)))) ∖ {[a]} ∖ {[b]} ∖ {[c]} ∖ {[d]} = P.
Proof. set_solver. Qed.

(** ** The statements that leave their block *)

Fixpoint last_of (f : ASTStmt -> bool) (l : list ASTStmt) : bool :=
  match l with [] => false | [s] => f s | _ :: l => last_of f l end.

(** Whether a statement may end its block: a return, a break, a continue, or a
    block that ends in one. *)
Fixpoint jumps (stmt : ASTStmt) : bool :=
  match stmt with
  | STMT_JUMP _ _ | STMT_RETURN _ _ => true
  | STMT_BLOCK _ l => last_of jumps l
  | _ => false
  end.

Fixpoint all_but_last (f g : ASTStmt -> bool) (l : list ASTStmt) : bool :=
  match l with [] => true | [s] => f s | s :: l => f s && negb (g s) && all_but_last f g l end.

(** Nothing follows such a statement in its block. *)
Fixpoint tail_jumps (stmt : ASTStmt) : bool :=
  match stmt with
  | STMT_BLOCK _ l => all_but_last tail_jumps jumps l
  | STMT_IF _ _ then_block else_block =>
      tail_jumps then_block && (match else_block with Some s => tail_jumps s | None => true end)
  | STMT_FOR _ init _ post body =>
      (match init with Some s => tail_jumps s && negb (jumps s) | None => true end) &&
      (match post with Some s => tail_jumps s | None => true end) && tail_jumps body
  | _ => true
  end.

(** Induction over the statements a function body is made of. *)
Lemma stmt_nested_ind (P : ASTStmt -> Prop) :
  (forall span l, Forall P l -> P (STMT_BLOCK span l)) ->
  (forall span c t e, P t -> (forall s, e = Some s -> P s) -> P (STMT_IF span c t e)) ->
  (forall span i c p b, (forall s, i = Some s -> P s) -> (forall s, p = Some s -> P s) -> P b -> P (STMT_FOR span i c p b)) ->
  (forall s, (match s with STMT_BLOCK _ _ | STMT_IF _ _ _ _ | STMT_FOR _ _ _ _ _ => False | _ => True end) -> P s) ->
  forall s, P s.
Proof.
  intros Hblock Hif Hfor Hother. fix IH 1. intros s.
  destruct s as [| | | | | | | |span l|span c t e|span i c p b| |]; try (apply Hother; exact I).
  - apply Hblock. induction l as [|x l IHl]; constructor; [apply IH|exact IHl].
  - apply Hif; [apply IH|]. destruct e as [x|]; [intros ? [= <-]; apply IH|discriminate].
  - apply Hfor; [| |apply IH]; [destruct i as [x|]|destruct p as [x|]]; first [discriminate|intros ? [= <-]; apply IH].
Qed.

(** ** Heights *)

Fixpoint height (e : ASTExpr) : nat :=
  S (match e with
     | EXPR_BIN_OP _ l r _ => Nat.max (height l) (height r)
     | EXPR_CALL _ target l => Nat.max (height target) (foldr (fun e n => Nat.max (height e) n) 0 l)
     | EXPR_FIELD _ t _ | EXPR_ADDR_OF _ t | EXPR_DEREF _ t | EXPR_NEG _ t | EXPR_NOT _ t => height t
     | EXPR_INDEX _ t i => Nat.max (height t) (height i)
     | EXPR_ARRAY_LIT _ l => foldr (fun e n => Nat.max (height e) n) 0 l
     | EXPR_STRUCT_LIT _ _ l => foldr (fun f n => Nat.max (height f.2) n) 0 l
     | EXPR_LITERAL _ _ | EXPR_NAME _ _ _ | EXPR_QUALIFIED _ _ _ _ | EXPR_CAST _ _ | EXPR_BUILTIN _ _ _ => 0
     end).

Lemma height_in {A} (h : A -> nat) (l : list A) i a : l !! i = Some a -> h a <= foldr (fun a n => Nat.max (h a) n) 0 l.
Proof. revert i. induction l as [|b l IH]; intros [|i]; cbn; [done|done|intros [= ->]; lia|]. intros Hi. pose proof (IH i Hi). lia. Qed.

(** The expressions a place is made of. *)
Definition is_place (e : ASTExpr) : bool :=
  match e with EXPR_NAME _ _ _ | EXPR_FIELD _ _ _ | EXPR_DEREF _ _ | EXPR_INDEX _ _ _ => true | _ => false end.

Fixpoint all_from {A} (f : nat -> A -> bool) (i : nat) (l : list A) : bool :=
  match l with [] => true | a :: l => f i a && all_from f (S i) l end.

Lemma all_from_lookup {A} (f : nat -> A -> bool) l : forall i k a, all_from f i l = true -> l !! k = Some a -> f (i + k) a = true.
Proof.
  induction l as [|b l IH]; intros i [|k] a; cbn; try done.
  - intros [H _]%andb_true_iff [= <-]. by rewrite Nat.add_0_r.
  - intros [_ H]%andb_true_iff Hk. rewrite Nat.add_succ_r. by apply (IH (S i)).
Qed.

Section lowered.
Context (type_addr str_addr : nat -> N) (type_fuel : nat).
Context (node_addr : NodePtr -> N) (ident_addr : IdentPtr -> N) (facts : Facts).
Context (symbols : list Symbol) (functions : list Function) (r0 : TypeRegistry).

#[local] Abbreviation type_of := (fact_type_of node_addr facts).

(** ** What lowering needs of the facts

    Types of the registry, symbols of variables, callees and receivers where the
    kind of a call says.  The resolver notes these, but for the last part of
    [adjustment_ok]: it adjusts whatever is given where a reference is read
    through, and lowering asserts that this is a place. *)

(** A type of the registry, or none. *)
Definition is_type (type : TypePtr) : bool := match type with None => true | Some p => Nat.ltb p (length (reg_types r0)) end.

Definition has_kind (type : TypePtr) : bool := match kind_at (reg_types r0) type with Some _ => true | None => false end.

Definition container_of (type : TypePtr) : TypePtr :=
  default None (mir_indexed_container (TV := registry_view type_addr str_addr 0 r0) (length (reg_types r0)) type).

Definition is_indexed (type : TypePtr) : bool :=
  match kind_at (reg_types r0) (container_of type) with Some (TYPE_ARRAY | TYPE_SLICE | TYPE_RAW) => true | _ => false end.

(** What a node is adjusted through: references, and only where a place is. *)
Definition adjustment_ok (path : NodePtr) (e : ASTExpr) : bool :=
  let a := fact_adjustment node_addr facts path in
  forallb is_type (deref_types a) && is_type (adjust_to a) &&
  (is_place e || (bool_decide (adjust_kind a = ADJUST_NONE) && Nat.eqb (derefs a) 0)).

Definition callee_at (path : NodePtr) : option Function := p ← fact_callee_of node_addr facts path; functions !! p.

Definition callee_ok (path : NodePtr) : bool :=
  match fact_callee_of node_addr facts path with None => true | Some p => Nat.ltb p (length functions) end.

(** The receiver is where the kind of the call says. *)
Definition receiver_ok (path : NodePtr) (e : ASTExpr) : bool :=
  match fact_call_kind node_addr facts path, e with
  | CALL_INDEX, EXPR_INDEX _ _ _ | CALL_DEREF, EXPR_DEREF _ _ | CALL_METHOD, EXPR_CALL _ (EXPR_FIELD _ _ _) _ => true
  | (CALL_FUNCTION | CALL_CONVERSION), _ => true
  | _, _ => false
  end.

Definition receiver_path (path : NodePtr) (e : ASTExpr) : NodePtr :=
  match e with EXPR_CALL _ _ _ => path ++ [0; 0] | _ => path ++ [0] end.

Definition is_intrinsic (path : NodePtr) : bool :=
  match callee_at path with Some f => has_modifier (fn_decl f) FUNC_MOD_INTRINSIC | None => false end.

Definition call_ok (path : NodePtr) (e : ASTExpr) : bool :=
  callee_ok path && receiver_ok path e &&
  match e with
  | EXPR_CALL _ _ [] => negb (bool_decide (fact_call_kind node_addr facts path = CALL_CONVERSION)) &&
      (negb (is_intrinsic path) || negb (bool_decide (fact_call_kind node_addr facts path = CALL_METHOD)) ||
       has_kind (container_of (type_of (receiver_path path e))))
  | EXPR_CALL _ _ _ =>
      (negb (bool_decide (fact_call_kind node_addr facts path = CALL_CONVERSION)) ||
       (has_kind (type_of path) && has_kind (type_of (path ++ [1])))) &&
      (negb (is_intrinsic path) || negb (bool_decide (fact_call_kind node_addr facts path = CALL_METHOD)) ||
       is_indexed (type_of (receiver_path path e)))
  | EXPR_INDEX _ _ _ =>
      (match callee_at path with Some _ => true | None => false end) &&
      (negb (is_intrinsic path) || is_indexed (type_of (path ++ [0])))
  | EXPR_DEREF _ _ => negb (is_intrinsic path) || has_kind (container_of (type_of (path ++ [0])))
  | _ => false
  end.

(** An expression lowering can lower. *)
Fixpoint lowerable (path : NodePtr) (e : ASTExpr) : bool :=
  is_type (type_of path) && adjustment_ok path e &&
  (match fact_constant_of node_addr facts path with Some c => is_type (constant_type c) | None => true end) &&
  match e with
  | EXPR_NAME _ _ _ => true
  | EXPR_STRUCT_LIT _ _ l => all_from (fun i f => lowerable (path ++ [i]) f.2) 0 l
  | EXPR_FIELD _ target _ => lowerable (path ++ [0]) target
  | EXPR_DEREF _ target =>
      lowerable (path ++ [0]) target &&
      (negb (bool_decide (fact_call_kind node_addr facts path = CALL_DEREF)) || call_ok path e)
  | EXPR_INDEX _ target index =>
      lowerable (path ++ [0]) target && lowerable (path ++ [1]) index &&
      (if bool_decide (fact_call_kind node_addr facts path = CALL_INDEX) then call_ok path e
       else has_kind (container_of (type_of (path ++ [0]))))
  | _ =>
      match fact_constant_of node_addr facts path with
      | Some _ => true
      | None =>
          match e with
          | EXPR_BIN_OP _ l r _ => lowerable (path ++ [0]) l && lowerable (path ++ [1]) r
          | EXPR_CALL _ (EXPR_BUILTIN _ _ _ as target) _ => lowerable (path ++ [0]) target
          | EXPR_CALL _ target l =>
              call_ok path e && all_from (fun i arg => lowerable (path ++ [S i]) arg) 0 l &&
              match target with
              | EXPR_FIELD _ receiver _ =>
                  negb (bool_decide (fact_call_kind node_addr facts path = CALL_METHOD)) || lowerable (path ++ [0; 0]) receiver
              | _ => true
              end
          | EXPR_ADDR_OF _ t | EXPR_NEG _ t | EXPR_NOT _ t => lowerable (path ++ [0]) t
          | EXPR_ARRAY_LIT _ l => all_from (fun i e => lowerable (path ++ [i]) e) 0 l
          | EXPR_QUALIFIED _ _ _ _ | EXPR_CAST _ _ => false
          | _ => true
          end
      end
  end.

(** The symbol of a declared name is a variable's. *)
Definition symbol_ok (symbol : SymbolPtr) : bool :=
  match symbol with
  | None => true
  | Some p => match symbols !! p with Some x => match symbol_kind x with SYMBOL_VAR type => is_type type | _ => false end | None => false end
  end.

Definition lowerable_opt (path : NodePtr) (e : option ASTExpr) : bool := match e with Some e => lowerable path e | None => true end.

Fixpoint lowerable_stmt (path : NodePtr) (stmt : ASTStmt) : bool :=
  match stmt with
  | STMT_EXPR _ value | STMT_RETURN _ value => lowerable (path ++ [0]) value
  | STMT_VAR_DECL _ _ _ initializer =>
      symbol_ok (fact_def_of ident_addr facts (LOCAL_NAME path)) && lowerable_opt (path ++ [0]) initializer
  | STMT_ASSIGN _ target value =>
      lowerable (path ++ [0]) target && lowerable (path ++ [1]) value &&
      (negb (assigned_container target) || has_kind (type_of (path ++ [0; 0])))
  | STMT_COMPOUND_ASSIGN _ target value _ => lowerable (path ++ [0]) target && lowerable (path ++ [1]) value
  | STMT_BLOCK _ l => all_from (fun i s => lowerable_stmt (path ++ [i]) s) 0 l
  | STMT_IF _ condition then_block else_block =>
      lowerable (path ++ [0]) condition && lowerable_stmt (path ++ [1]) then_block &&
      (match else_block with Some s => lowerable_stmt (path ++ [2]) s | None => true end)
  | STMT_FOR _ init condition post body =>
      (match init with Some s => lowerable_stmt (path ++ [0]) s | None => true end) &&
      lowerable_opt (path ++ [1]) condition &&
      (match post with Some s => lowerable_stmt (path ++ [2]) s | None => true end) &&
      lowerable_stmt (path ++ [3]) body
  | STMT_JUMP _ _ | STMT_FUNC_DECL _ _ | STMT_STRUCT_DECL _ _ _ _ _ | STMT_IMPL _ _ _ _ _ _ | STMT_INTERFACE_DECL _ _ _ _ => true
  end.

(** The depth of the expressions of a statement. *)
Definition opt_height (e : option ASTExpr) : nat := match e with Some e => height e | None => 0 end.

Fixpoint stmt_height (stmt : ASTStmt) : nat :=
  match stmt with
  | STMT_EXPR _ value | STMT_RETURN _ value => height value
  | STMT_VAR_DECL _ _ _ initializer => opt_height initializer
  | STMT_ASSIGN _ target value | STMT_COMPOUND_ASSIGN _ target value _ => Nat.max (height target) (height value)
  | STMT_BLOCK _ l => foldr (fun s n => Nat.max (stmt_height s) n) 0 l
  | STMT_IF _ condition then_block else_block =>
      Nat.max (height condition) (Nat.max (stmt_height then_block) (match else_block with Some s => stmt_height s | None => 0 end))
  | STMT_FOR _ init condition post body =>
      Nat.max (opt_height condition) (Nat.max (stmt_height body)
        (Nat.max (match init with Some s => stmt_height s | None => 0 end) (match post with Some s => stmt_height s | None => 0 end)))
  | _ => 0
  end.

(** The types of a declaration that a call of it takes and answers. *)
Definition function_types_ok (f : Function) : bool :=
  is_type (return_type (fn_signature f)) && forallb is_type (sig_params (fn_signature f)) && is_type (location_type (fn_decl f)).

(** ** The state while lowering *)

(** What lowering does to the types. *)
Inductive type_step (r : TypeRegistry) : TypeRegistry -> Prop :=
  | lower_raw element r' p : ptr_valid (reg_types r) element ->
      type_registry_raw_of type_addr str_addr r element = Some (r', p) -> type_step r r'
  | lower_owns type r' b : type_registry_owns type_addr str_addr type_fuel r type = Some (r', b) -> type_step r r'.

Lemma type_step_reg r r' : type_step r r' -> reg_step type_addr str_addr r r'.
Proof. intros []; [by eapply step_raw|by eapply step_owns]. Qed.

Lemma type_steps_leave r r' : registry_ok type_addr str_addr r -> rtc type_step r r' -> leaves type_addr str_addr r r'.
Proof.
  intros Hr Hs. apply steps_leave; [done|]. clear Hr. induction Hs as [|r1 r2 r3 H _ IH]; [done|]. econstructor; [by apply type_step_reg|done].
Qed.

(** Whatever the lowering made, a type can be asked whether it owns. *)
Definition owning_answered : Prop :=
  forall r, rtc type_step r0 r -> forall p, ptr_valid (reg_types r) p -> is_Some (type_registry_owns type_addr str_addr type_fuel r p).

Definition target_ok (n : nat) (id : MIRBlockId) : Prop := mir_block_is_none id = true \/ N.to_nat id < n.

(** The state between two steps: [n] blocks are known to be there, those of
    [pending] are still empty, and the current one ends as [e] says; every other
    is closed. *)
Record lowering_inv (n : nat) (pending : gset nat) (e : Ending) (s : Lowering) : Prop := {
  li_types : rtc type_step r0 (lw_types s);
  li_count : n <= block_count (lw_ir s);
  li_current : lw_block s < block_count (lw_ir s);
  li_away : lw_block s ∉ pending;
  li_pending : forall i, i ∈ pending -> i < block_count (lw_ir s);
  li_ids : forall i b, blocks (lw_ir s) !! i = Some b -> block_id b = N.of_nat i;
  li_here : forall b, blocks (lw_ir s) !! lw_block s = Some b -> ends_as e (block_count (lw_ir s)) b;
  li_empty : forall i b, i ∈ pending -> blocks (lw_ir s) !! i = Some b -> insts b = [];
  li_closed : forall i b, i ∉ pending -> i <> lw_block s -> blocks (lw_ir s) !! i = Some b -> closed_block (block_count (lw_ir s)) b;
  li_values : Forall (fun info => ptr_valid (reg_types (lw_types s)) (value_type info)) (values (lw_ir s));
  li_locals : Forall (fun l => symbol_ok l.1 = true) (lw_locals s);
  li_targets : target_ok (block_count (lw_ir s)) (lw_break s) /\ target_ok (block_count (lw_ir s)) (lw_continue s);
  li_entry : entry (lw_ir s) = 0%N;
}.

(** A computation that returns, from states in [pre] to states in [post]. *)
Definition returns {A} (m : Lower A) (pre : Lowering -> Prop) (post : A -> Lowering -> Prop) : Prop :=
  forall s, pre s -> match m s with Done s' a => post a s' | Stuck | OutOfFuel => False end.

(** Such a computation in the middle of a block. *)
Definition quietly {A} (m : Lower A) (R : A -> Prop) : Prop :=
  forall n pending, returns m (lowering_inv n pending Open) (fun a s => lowering_inv n pending Open s /\ R a).

Definition any {A} (_ : A) : Prop := True.

Lemma returns_bind {A B} (m : Lower A) (f : A -> Lower B) pre mid post :
  returns m pre mid -> (forall a, returns (f a) (mid a) post) -> returns (a ← m; f a) pre post.
Proof.
  intros Hm Hf s Hs. specialize (Hm s Hs). unfold mbind, Lower_bind. destruct (m s) as [s' a| |]; [|done|done]. by apply Hf.
Qed.

Lemma returns_then {B} (m : Lower unit) (f : Lower B) pre mid post :
  returns m pre (fun _ => mid) -> returns f mid post -> returns (m;; f) pre post.
Proof. intros Hm Hf. eapply returns_bind; [exact Hm|]. by intros []. Qed.

Lemma returns_weaken {A} (m : Lower A) pre pre' (post post' : A -> Lowering -> Prop) :
  returns m pre post -> (forall s, pre' s -> pre s) -> (forall a s, post a s -> post' a s) -> returns m pre' post'.
Proof. intros Hm Hpre Hpost s Hs. specialize (Hm s (Hpre s Hs)). destruct (m s); [by apply Hpost|done|done]. Qed.

Lemma returns_post {A} (m : Lower A) pre (post post' : A -> Lowering -> Prop) :
  returns m pre post -> (forall a s, post a s -> post' a s) -> returns m pre post'.
Proof. intros Hm Hpost. by eapply returns_weaken. Qed.

Lemma returns_ret {A} (a : A) pre : returns (mret a) pre (fun a' s => pre s /\ a' = a).
Proof. by intros s Hs. Qed.

Lemma quietly_ret {A} (a : A) (R : A -> Prop) : R a -> quietly (mret a) R.
Proof. intros Ha n pending s Hs. by split. Qed.

Lemma quietly_bind {A B} (m : Lower A) (f : A -> Lower B) R R' :
  quietly m R -> (forall a, R a -> quietly (f a) R') -> quietly (a ← m; f a) R'.
Proof.
  intros Hm Hf n pending. eapply returns_bind; [apply Hm|]. intros a s [Hs Ha]. by apply Hf.
Qed.

Lemma quietly_weaken {A} (m : Lower A) (R R' : A -> Prop) : quietly m R -> (forall a, R a -> R' a) -> quietly m R'.
Proof. intros Hm HR n pending. eapply returns_weaken; [apply Hm|done|]. intros a s [? ?]. auto. Qed.

Lemma quietly_any {A} (m : Lower A) R : quietly m R -> quietly m any.
Proof. intros Hm. by eapply quietly_weaken. Qed.

Lemma returns_quiet {A B} (m : Lower A) (f : A -> Lower B) R n pending post :
  quietly m R -> (forall a, R a -> returns (f a) (lowering_inv n pending Open) post) ->
  returns (a ← m; f a) (lowering_inv n pending Open) post.
Proof. intros Hm Hf. eapply returns_bind; [apply Hm|]. intros a s [Hs Ha]. by apply Hf. Qed.

Lemma lowering_inv_le n n' pending pending' e s : lowering_inv n' pending' e s -> n <= n' -> pending' = pending -> lowering_inv n pending e s.
Proof. intros [] Hn <-. split; try done. lia. Qed.

Lemma lowering_inv_either n pending e s : lowering_inv n pending e s -> lowering_inv n pending Either s.
Proof. intros []. split; try done. intros b Hb. eapply ends_as_either. by apply li_here0. Qed.

(** A computation chosen by the state. *)
Lemma quietly_get {A} (f : Lowering -> Lower A) R : (forall s, quietly (f s) R) -> quietly (s ← get; f s) R.
Proof. intros Hf n pending s Hs. cbn. by apply Hf. Qed.

Lemma quietly_ask {A} (o : option A) (R : A -> Prop) : (exists a, o = Some a /\ R a) -> quietly (ask o) R.
Proof. intros (a & -> & Ha) n pending s Hs. by split. Qed.

Lemma quietly_for_each {A B} (f : nat -> A -> Lower B) (R : B -> Prop) l : forall i,
  (forall k a, l !! k = Some a -> quietly (f (i + k) a) R) -> quietly (for_each f i l) (Forall R).
Proof.
  induction l as [|a l IH]; intros i Hf; cbn [for_each]; [by apply quietly_ret|].
  eapply quietly_bind; [rewrite <- (Nat.add_0_r i) at 1; by apply (Hf 0)|]. intros b Hb.
  eapply quietly_bind; [apply IH; intros k x Hk; rewrite Nat.add_succ_comm; by apply (Hf (S k))|].
  intros bs Hbs. apply quietly_ret. by constructor.
Qed.

(** ** The steps *)

Lemma block_count_emit ir b inst : block_count (mir_emit ir b inst) = block_count ir.
Proof. unfold block_count, mir_emit. cbn. by rewrite length_alter. Qed.

Lemma emit_blocks ir b inst i x : blocks (mir_emit ir b inst) !! i = Some x ->
  exists y, blocks ir !! i = Some y /\ x = if Nat.eqb i b then set_insts y (insts y ++ [inst]) else y.
Proof.
  unfold mir_emit. cbn. destruct (Nat.eqb_spec i b) as [->|Hne].
  - rewrite list_lookup_alter_eq. destruct (blocks ir !! b) as [y|]; [|done]. intros [= <-]. by exists y.
  - rewrite list_lookup_alter_ne by done. intros Hx. by exists x.
Qed.

(** An instruction behind the others of the current block. *)
Lemma emit_inv n pending e e' s inst : lowering_inv n pending e s ->
  (forall b, ends_as e (block_count (lw_ir s)) b -> ends_as e' (block_count (lw_ir s)) (set_insts b (insts b ++ [inst]))) ->
  lowering_inv n pending e' (with_ir s (mir_emit (lw_ir s) (lw_block s) inst)).
Proof.
  intros [] He. split; cbn [lw_types lw_ir lw_block lw_locals lw_break lw_continue with_ir]; rewrite ?block_count_emit; try done.
  - intros i b (y & Hy & ->)%emit_blocks. pose proof (li_ids0 i y Hy). by destruct (Nat.eqb i (lw_block s)).
  - intros b (y & Hy & ->)%emit_blocks. rewrite Nat.eqb_refl. auto.
  - intros i b Hi (y & Hy & ->)%emit_blocks. destruct (Nat.eqb_spec i (lw_block s)) as [->|]; [done|]. by apply (li_empty0 i).
  - intros i b Hi Hne (y & Hy & ->)%emit_blocks. destruct (Nat.eqb_spec i (lw_block s)) as [->|]; [done|]. by apply (li_closed0 i).
Qed.

Lemma emit_quietly inst : mir_op_is_terminator (op inst) = false -> quietly (emit inst) any.
Proof. intros Ho n pending s Hs. split; [|done]. eapply emit_inv; [done|]. intros b Hb. by apply open_snoc. Qed.

Lemma current_block n pending e s : lowering_inv n pending e s ->
  exists b, blocks (lw_ir s) !! lw_block s = Some b /\ current_terminated s = Done s (mir_block_is_terminated b) /\
    ends_as e (block_count (lw_ir s)) b.
Proof.
  intros Hs. destruct (lookup_lt_is_Some_2 (blocks (lw_ir s)) (lw_block s) (li_current _ _ _ _ Hs)) as [b Hb].
  exists b. split; [done|]. split; [|by apply (li_here _ _ _ _ Hs)].
  unfold current_terminated, mbind, Lower_bind, get, ask. by rewrite Hb.
Qed.

Lemma lower_terminator_returns n pending e inst : mir_op_is_terminator (op inst) = true ->
  Forall (fun id => N.to_nat id < n) (mir_block_successors (MkBlock 0 [inst])) ->
  returns (lower_terminator inst) (lowering_inv n pending e) (fun _ => lowering_inv n pending Closed).
Proof.
  intros Ht Hn s Hs. destruct (current_block n pending e s Hs) as (b & Hb & Hterm & He).
  unfold lower_terminator, mbind, Lower_bind at 1. rewrite Hterm.
  assert (Hcase : open_block b \/ closed_block (block_count (lw_ir s)) b) by (destruct e; cbn in He; tauto).
  destruct Hcase as [Ho|Hc].
  - rewrite (open_not_terminated b Ho). cbn. apply (emit_inv n pending Open); [|].
    { destruct Hs. split; try done. intros b' Hb'. cbn. congruence. }
    intros b' Hb'. apply closed_snoc; [done|done|]. eapply Forall_impl; [exact Hn|]. cbn beta. pose proof (li_count _ _ _ _ Hs). intros; lia.
  - rewrite (closed_terminated _ b Hc). cbn. destruct Hs. split; try done. intros b' Hb'. cbn. congruence.
Qed.

Lemma lower_jump_returns n pending e target : N.to_nat target < n ->
  returns (lower_jump target) (lowering_inv n pending e) (fun _ => lowering_inv n pending Closed).
Proof. intros H. apply lower_terminator_returns; [done|]. cbn. by repeat constructor. Qed.

Lemma lower_branch_returns n pending e c a b span : N.to_nat a < n -> N.to_nat b < n ->
  returns (lower_branch c a b span) (lowering_inv n pending e) (fun _ => lowering_inv n pending Closed).
Proof. intros Ha Hb. apply lower_terminator_returns; [done|]. cbn. by repeat constructor. Qed.

Lemma create_block_returns n pending e :
  returns create_block (lowering_inv n pending e) (fun b s => lowering_inv (S b) ({[b]} ∪ pending) e s /\ n <= b /\ b ∉ pending).
Proof.
  intros s Hs. unfold create_block, mir_block_create. cbn. set (c := block_count (lw_ir s)).
  assert (Hc : block_count (set_blocks (lw_ir s) (blocks (lw_ir s) ++ [MkBlock (N.of_nat c) []])) = S c).
  { unfold block_count. cbn. rewrite length_app. cbn. unfold c, block_count. lia. }
  assert (Hold : forall i b, (blocks (lw_ir s) ++ [MkBlock (N.of_nat c) []]) !! i = Some b ->
    blocks (lw_ir s) !! i = Some b \/ i = c /\ b = MkBlock (N.of_nat c) []).
  { intros i b. rewrite lookup_app. destruct (blocks (lw_ir s) !! i) as [x|] eqn:Hx; [by intros [= ->]; left|].
    apply lookup_ge_None_1 in Hx. intros [Hl Hi]%list_lookup_singleton_Some. right. split; [|done]. unfold c, block_count. lia. }
  assert (Hnew : c ∉ pending) by (intros H; pose proof (li_pending _ _ _ _ Hs c H); unfold c in *; lia).
  destruct Hs. split; [|split; [done|exact Hnew]].
  split; cbn [lw_types lw_ir lw_block lw_locals lw_break lw_continue with_ir set_blocks blocks values entry]; rewrite ?Hc; fold c; try done.
  - lia.
  - set_unfold. unfold c. intros [Heq|]; [lia|done].
  - intros i [->%elem_of_singleton|Hi%li_pending0]%elem_of_union; [lia|unfold c; lia].
  - intros i b [Hb|[-> ->]]%Hold; [by apply li_ids0|done].
  - intros b [Hb|[Heq _]]%Hold; [|unfold c in Heq; lia]. eapply ends_as_le; [by apply li_here0|]. unfold c. lia.
  - intros i b [->%elem_of_singleton|Hi]%elem_of_union [Hb|[Heq ->]]%Hold; try done.
    + apply lookup_lt_Some in Hb. unfold c, block_count in Hb. lia.
    + by eapply li_empty0.
  - intros i b Hi Hne [Hb|[-> ->]]%Hold; [|set_solver]. eapply closed_block_le; [apply (li_closed0 i); [set_solver|done|done]|]. unfold c. lia.
  - destruct li_targets0 as [[?|?] [?|?]]; unfold target_ok, c; split; (left; done) || (right; lia).
Qed.

Lemma returns_create_block {B} (f : nat -> Lower B) n pending e post :
  (forall b, n <= b -> b ∉ pending -> returns (f b) (lowering_inv (S b) ({[b]} ∪ pending) e) post) ->
  returns (b ← create_block; f b) (lowering_inv n pending e) post.
Proof.
  intros Hf. eapply returns_bind; [apply create_block_returns|]. intros b s (Hs & Hn & Hb). by apply (Hf b).
Qed.

Lemma enter_block_returns n pending b : b ∈ pending ->
  returns (enter_block b) (lowering_inv n pending Closed) (fun _ => lowering_inv n (pending ∖ {[b]}) Open).
Proof.
  intros Hb s []. split; cbn [lw_types lw_ir lw_block lw_locals lw_break lw_continue with_block]; try done.
  - by apply li_pending0.
  - set_solver.
  - intros i Hi. apply li_pending0. set_solver.
  - intros x Hx. cbn. unfold open_block. by rewrite (li_empty0 b x Hb Hx).
  - intros i x Hi Hx. apply (li_empty0 i); [set_solver|done].
  - intros i x Hi Hne Hx. destruct (decide (i = lw_block s)) as [->|Hn]; [by apply li_here0|]. apply (li_closed0 i); [set_solver|done|done].
Qed.

(** Changes of the state beside the function. *)
Lemma modify_quietly (f : Lowering -> Lowering) :
  (forall s, Forall (fun l => symbol_ok l.1 = true) (lw_locals s) ->
     lw_ir (f s) = lw_ir s /\ lw_block (f s) = lw_block s /\ lw_types (f s) = lw_types s /\
     lw_break (f s) = lw_break s /\ lw_continue (f s) = lw_continue s /\ Forall (fun l => symbol_ok l.1 = true) (lw_locals (f s))) ->
  forall n pending e, returns (modify f) (lowering_inv n pending e) (fun _ => lowering_inv n pending e).
Proof. intros Hf n pending e s []. destruct (Hf s li_locals0) as (H1 & H2 & H3 & H4 & H5 & H6). split; rewrite ?H1, ?H2, ?H3, ?H4, ?H5; done. Qed.

Section ready.
Context (Hr0 : registry_ok type_addr str_addr r0) (Howns : owning_answered) (Hfunctions : forallb function_types_ok functions = true).

Lemma inv_leaves n pending e s : lowering_inv n pending e s -> leaves type_addr str_addr r0 (lw_types s).
Proof using Hr0. intros Hs. apply type_steps_leave; [done|apply Hs]. Qed.

Lemma is_type_valid type r : leaves type_addr str_addr r0 r -> is_type type = true -> ptr_valid (reg_types r) type.
Proof.
  intros [_ Hg] Ht. eapply ptr_valid_grows; [exact Hg|]. destruct type as [p|]; [|done]. by apply Nat.ltb_lt.
Qed.

(** The registry moves on. *)
Lemma with_registry_inv n pending e s r : lowering_inv n pending e s -> type_step (lw_types s) r ->
  lowering_inv n pending e (with_registry s r).
Proof using Hr0.
  intros Hs Hstep. pose proof (inv_leaves n pending e s Hs) as Hl.
  destruct (type_steps_leave (lw_types s) r (lv_ok _ _ _ _ Hl) (rtc_once _ _ Hstep)) as [_ Hg].
  destruct Hs. split; try done.
  - by eapply rtc_r.
  - eapply Forall_impl; [exact li_values0|]. cbn beta. intros info Hi. by eapply ptr_valid_grows.
Qed.

Lemma create_value_inv n pending e s type symbol span : lowering_inv n pending e s -> ptr_valid (reg_types (lw_types s)) type ->
  lowering_inv n pending e (with_ir s (mir_value_create (lw_ir s) type symbol span).1).
Proof. intros [] Ht. split; try done. cbn. apply Forall_app. split; [done|]. by apply Forall_singleton. Qed.

Lemma create_value_returns n pending e type symbol span : is_type type = true ->
  returns (create_value type symbol span) (lowering_inv n pending e) (fun _ => lowering_inv n pending e).
Proof using Hr0.
  intros Ht s Hs. unfold create_value. cbn. apply (create_value_inv n pending e s type symbol span Hs).
  apply is_type_valid; [by eapply inv_leaves|done].
Qed.

Lemma create_value_quietly type symbol span : is_type type = true -> quietly (create_value type symbol span) any.
Proof using Hr0. intros Ht n pending. eapply returns_weaken; [by apply create_value_returns|done|done]. Qed.

Lemma lower_temp_quietly type span : is_type type = true -> quietly (lower_temp type span) any.
Proof using Hr0. apply create_value_quietly. Qed.

Lemma quietly_modify (f : Lowering -> Lowering) :
  (forall s, Forall (fun l => symbol_ok l.1 = true) (lw_locals s) ->
     lw_ir (f s) = lw_ir s /\ lw_block (f s) = lw_block s /\ lw_types (f s) = lw_types s /\
     lw_break (f s) = lw_break s /\ lw_continue (f s) = lw_continue s /\ Forall (fun l => symbol_ok l.1 = true) (lw_locals (f s))) ->
  quietly (modify f) any.
Proof. intros Hf n pending. eapply returns_weaken; [by apply modify_quietly|done|done]. Qed.

Lemma bind_local_quietly symbol value : symbol_ok symbol = true -> quietly (bind_local symbol value) any.
Proof.
  intros Hs. apply quietly_modify. intros s Hl. split_and!; try done. apply Forall_app. split; [done|]. by apply Forall_singleton.
Qed.

Lemma note_constant_quietly value constant : quietly (note_constant value constant) any.
Proof. unfold note_constant. destruct (mir_value_is_none value); [by apply quietly_ret|]. by apply quietly_modify. Qed.

(** *** Asking about types *)

Lemma needs_drop_returns n pending e type : 
  returns (needs_drop type_addr str_addr type_fuel type) (fun s => lowering_inv n pending e s /\ ptr_valid (reg_types (lw_types s)) type) (fun _ => lowering_inv n pending e).
Proof using Hr0 Howns.
  intros s [Hs Ht]. destruct type as [p|]; [|done]. cbn [needs_drop]. unfold type_owns.
  destruct (Howns (lw_types s) (li_types _ _ _ _ Hs) (Some p) Ht) as [[r b] Ho]. rewrite Ho.
  apply with_registry_inv; [done|]. by eapply lower_owns.
Qed.

Lemma needs_drop_quietly type : is_type type = true -> quietly (needs_drop type_addr str_addr type_fuel type) any.
Proof using Hr0 Howns.
  intros Ht n pending. eapply returns_weaken; [apply (needs_drop_returns n pending Open)| |done].
  intros s Hs. split; [done|]. apply is_type_valid; [by eapply inv_leaves|done].
Qed.

Lemma quietly_get_leaves {A} (f : Lowering -> Lower A) R :
  (forall s, leaves type_addr str_addr r0 (lw_types s) -> quietly (f s) R) -> quietly (s ← get; f s) R.
Proof using Hr0. intros Hf n pending s Hs. cbn. apply (Hf s); [by eapply inv_leaves|done]. Qed.

Lemma kind_at_r0 r type : leaves type_addr str_addr r0 r -> is_type type = true ->
  kind_at (reg_types r) type = kind_at (reg_types r0) type.
Proof.
  intros [_ Hg] Ht. destruct type as [p|]; [|done]. apply Nat.ltb_lt in Ht. destruct (lookup_lt_is_Some_2 _ _ Ht) as [t Hp].
  destruct (gr_types _ _ Hg p t Hp) as (t' & Hp' & Hc). unfold kind_at. cbn. rewrite Hp, Hp'. cbn. by rewrite (core_kind _ _ Hc).
Qed.

Lemma kind_of_quietly type : is_type type = true -> has_kind type = true ->
  quietly (kind_of type) (fun k => kind_at (reg_types r0) type = Some k).
Proof using Hr0.
  intros Ht Hk n pending s Hs. unfold kind_of, ask_types, get, ask, mbind, Lower_bind.
  rewrite (kind_at_r0 (lw_types s) type); [|by eapply inv_leaves|done]. unfold has_kind in Hk.
  by destruct (kind_at (reg_types r0) type) as [k|].
Qed.

(** The container reached now is the one reached before the lowering. *)
Lemma container_of_r0 r type : leaves type_addr str_addr r0 r -> is_type type = true ->
  mir_indexed_container (TV := registry_view type_addr str_addr 0 r) (length (reg_types r)) type = Some (container_of type) /\
  is_type (container_of type) = true.
Proof using Hr0.
  intros Hl Ht. pose proof (ok_types _ _ _ Hr0) as H0. destruct Hl as [Hr Hg]. pose proof (ok_types _ _ _ Hr) as H1.
  assert (Hv0 : ptr_valid (reg_types r0) type) by (apply is_type_valid; [by apply leaves_refl|done]).
  assert (Hv : ptr_valid (reg_types r) type) by by eapply ptr_valid_grows.
  assert (Hdepth : forall q : TypeRegistry, ptr_valid (reg_types q) type -> ptr_depth type <= length (reg_types q)) by (destruct type; cbn; intros; lia).
  destruct (Containers.indexed_container type_addr str_addr r0 H0 _ type Hv0 (Hdepth r0 Hv0)) as (c0 & Hc0 & Hcv0 & Hct0).
  destruct (Containers.indexed_container type_addr str_addr r H1 _ type Hv (Hdepth r Hv)) as (c & Hc & Hcv & Hct).
  unfold container_of. rewrite Hc0, Hc. cbn. split.
  - f_equal. apply (ty_of_inj type_addr str_addr r H1); [done|by eapply ptr_valid_grows|].
    rewrite Hct, (ty_of_grows type_addr str_addr r0 H0 r c0 Hg Hcv0), Hct0. f_equal. by apply (ty_of_grows type_addr str_addr).
  - destruct c0 as [p|]; [|done]. by apply Nat.ltb_lt.
Qed.

Lemma indexed_container_quietly type : is_type type = true ->
  quietly (indexed_container type_addr str_addr type) (fun c => c = container_of type /\ is_type c = true).
Proof using Hr0.
  intros Ht n pending s Hs. unfold Lower.indexed_container, ask_types, get, ask, mbind, Lower_bind.
  destruct (container_of_r0 (lw_types s) type (inv_leaves _ _ _ _ Hs) Ht) as [-> Hc]. done.
Qed.

Lemma ask_types_quietly {A} (f : TypeRegistry -> option A) (R : A -> Prop) :
  (forall r, leaves type_addr str_addr r0 r -> exists a, f r = Some a /\ R a) -> quietly (ask_types f) R.
Proof using Hr0.
  intros Hf n pending s Hs. unfold ask_types, get, ask, mbind, Lower_bind.
  destruct (Hf (lw_types s) (inv_leaves _ _ _ _ Hs)) as (a & -> & Ha). done.
Qed.

Lemma prim_quietly k : (exists p, type_registry_get_primitive r0 k = Some p) ->
  quietly (ask_types (fun r => type_registry_get_primitive r k)) (fun p => is_type p = true).
Proof using Hr0.
  intros [p Hp]. apply ask_types_quietly. intros r [_ Hg]. exists p. rewrite (get_primitive_grows r0 r Hg). split; [done|].
  destruct (ok_prims _ _ _ (ok_types _ _ _ Hr0) k p Hp) as (q & t & -> & Hq & _). apply Nat.ltb_lt. by eapply lookup_lt_Some.
Qed.

Lemma i32_type_quietly : quietly i32_type (fun p => is_type p = true).
Proof using Hr0. apply prim_quietly. by eexists. Qed.

Lemma usize_type_quietly : quietly (ask_types (fun r => type_registry_get_primitive r TYPE_USIZE)) (fun p => is_type p = true).
Proof using Hr0. apply prim_quietly. by eexists. Qed.

Lemma indirect_quietly type : quietly (is_indirect type) any.
Proof using Hr0. apply ask_types_quietly. intros. by eexists. Qed.

Lemma function_at f p : functions !! p = Some f -> function_types_ok f = true.
Proof using Hfunctions. intros Hp. rewrite forallb_forall in Hfunctions. apply Hfunctions, list_elem_of_In. by eapply list_elem_of_lookup_2. Qed.

Lemma function_of_quietly path : callee_ok path = true ->
  quietly (function_of functions (fact_callee_of node_addr facts path)) (fun f => f = callee_at path /\ forall g, f = Some g -> function_types_ok g = true).
Proof using Hfunctions.
  unfold callee_ok, callee_at, function_of. destruct (fact_callee_of node_addr facts path) as [p|]; [|intros _; by apply quietly_ret].
  intros [f Hf]%Nat.ltb_lt%lookup_lt_is_Some_2. cbn. eapply quietly_bind; [by apply (quietly_ask _ (eq f)); exists f|].
  intros g <-. apply quietly_ret. split; [done|]. intros ? [= <-]. by eapply function_at.
Qed.

Lemma param_type f i type : function_types_ok f = true -> sig_params (fn_signature f) !! i = Some type -> is_type type = true.
Proof.
  intros [[_ H]%andb_true_iff _]%andb_true_iff Hi. rewrite forallb_forall in H. apply H, list_elem_of_In. by eapply list_elem_of_lookup_2.
Qed.

Lemma return_type_ok f : function_types_ok f = true -> is_type (return_type (fn_signature f)) = true.
Proof. by intros [[H _]%andb_true_iff _]%andb_true_iff. Qed.

Lemma location_type_ok f : function_types_ok f = true -> is_type (location_type (fn_decl f)) = true.
Proof. by intros [_ H]%andb_true_iff. Qed.

(** *** The small ones *)

Lemma local_value_quietly symbol : quietly (local_value symbol) any.
Proof. apply quietly_get. intros s. by apply quietly_ret. Qed.

Lemma lower_operand_quietly value : quietly (lower_operand value) any.
Proof. apply quietly_get. intros s. by apply quietly_ret. Qed.

Lemma is_temp_slot_quietly value : quietly (is_temp_slot value) any.
Proof. apply quietly_get. intros s. by apply quietly_ret. Qed.

Lemma lower_store_to_quietly place value type span : quietly (lower_store_to place value type span) any.
Proof. by apply emit_quietly. Qed.

Lemma lower_const_int_quietly type value constant span : quietly (lower_const_int type value constant span) any.
Proof. by apply emit_quietly. Qed.

#[local] Hint Resolve emit_quietly lower_temp_quietly bind_local_quietly note_constant_quietly needs_drop_quietly i32_type_quietly
  usize_type_quietly indirect_quietly local_value_quietly lower_operand_quietly is_temp_slot_quietly lower_store_to_quietly
  lower_const_int_quietly kind_of_quietly indexed_container_quietly : lower.
#[local] Hint Extern 1 (any _) => exact I : lower.
#[local] Hint Extern 1 (_ = true) => assumption : lower.

Lemma quietly_for_each_any {A B} (f : nat -> A -> Lower B) l :
  (forall k a, l !! k = Some a -> quietly (f k a) any) -> quietly (for_each f 0 l) any.
Proof. intros Hf. eapply quietly_any. by apply (quietly_for_each _ any). Qed.

Lemma quietly_if {A} (b : bool) (m m' : Lower A) R : (b = true -> quietly m R) -> (b = false -> quietly m' R) -> quietly (if b then m else m') R.
Proof. destruct b; auto. Qed.

Ltac quiet_leaf := solve [eauto 3 with lower | eapply quietly_any; eauto 3 with lower].
Ltac quiet_step :=
  lazymatch goal with
  | |- quietly (mret _) _ => apply quietly_ret; try exact I
  | |- quietly (mbind _ get) _ => apply quietly_get; intros ?
  | |- quietly (mbind _ _) _ => first [eapply quietly_bind; [quiet_leaf|]; cbn beta; intros ? ?|eapply (quietly_bind _ _ any)]
  | |- quietly (if _ then _ else _) _ => apply quietly_if; intros ?
  | |- quietly (let '_ := _ in _) _ => cbn zeta
  | |- quietly (let _ := _ in _) _ => cbn zeta
  | |- quietly _ _ => first [quiet_leaf|progress cbn beta iota zeta]
  | |- forall _, _ => cbn beta; intros
  end.
Ltac quiet := repeat quiet_step.

Lemma lower_load_from_quietly place type read span : is_type type = true -> quietly (lower_load_from place type read span) any.
Proof using Hr0. intros Ht. unfold lower_load_from. quiet. Qed.
#[local] Hint Resolve lower_load_from_quietly : lower.

Lemma lower_moved_temp_quietly value type span : is_type type = true -> quietly (lower_moved_temp value type span) any.
Proof using Hr0. intros Ht. unfold lower_moved_temp. quiet. Qed.
#[local] Hint Resolve lower_moved_temp_quietly : lower.

Lemma lower_temp_slot_quietly type span : is_type type = true -> quietly (lower_temp_slot type span) any.
Proof using Hr0.
  intros Ht. unfold lower_temp_slot. quiet. by apply quietly_modify.
Qed.
#[local] Hint Resolve lower_temp_slot_quietly : lower.

Lemma lower_literal_target_quietly type span : is_type type = true -> quietly (lower_literal_target type_addr str_addr type_fuel type span) any.
Proof using Hr0 Howns. intros Ht. unfold lower_literal_target. quiet. Qed.
#[local] Hint Resolve lower_literal_target_quietly : lower.

Lemma callee_takes_slot_quietly callee index : (forall f, callee = Some f -> function_types_ok f = true) ->
  quietly (callee_takes_slot type_addr str_addr type_fuel callee index)
    (fun takes => takes = true -> exists f type, callee = Some f /\ sig_params (fn_signature f) !! index = Some type /\ is_type type = true).
Proof using Hr0 Howns.
  intros Hf. unfold callee_takes_slot. destruct callee as [f|]; [|by apply quietly_ret].
  destruct (sig_params (fn_signature f) !! index) as [type|] eqn:Hi; [|by apply quietly_ret].
  pose proof (param_type f index type (Hf f eq_refl) Hi) as Ht. destruct type as [p|].
  - change (type_owns type_addr str_addr type_fuel (Some p)) with (needs_drop type_addr str_addr type_fuel (Some p)).
    eapply quietly_weaken; [by apply needs_drop_quietly|]. intros b _ _. by exists f, (Some p).
  - intros n pending s Hs. unfold type_owns.
    destruct (Howns (lw_types s) (li_types _ _ _ _ Hs) None I) as [[r b] Ho]. rewrite Ho. split; [|intros _; by exists f, None].
    apply with_registry_inv; [done|]. by eapply lower_owns.
Qed.

Lemma lower_location_of_quietly type span : is_type type = true -> quietly (lower_location_of type span) any.
Proof using Hr0.
  intros Ht. unfold lower_location_of. quiet. by apply quietly_for_each_any; intros; quiet.
Qed.
#[local] Hint Resolve lower_location_of_quietly : lower.

(** ** Expressions *)

(** What the functions declared before their definitions do at a node. *)
Definition lowers (self : Recursion) (path : NodePtr) (e : ASTExpr) : Prop :=
  quietly (rec_expr self path e) any /\ quietly (rec_place self path e) any /\
  (match e with EXPR_STRUCT_LIT _ _ _ => forall base, quietly (rec_struct_lit_into self path e base) any | _ => True end).

Section node.
Context (self : Recursion) (path : NodePtr).

(** A node below the one at hand. *)
Definition lowers_below (e : ASTExpr) : Prop := forall p c, height c < height e -> lowerable p c = true -> lowers self p c.

Lemma below_expr e p c : lowers_below e -> height c < height e -> lowerable p c = true -> quietly (rec_expr self p c) any.
Proof. intros Hb Hh Hc. by destruct (Hb p c Hh Hc). Qed.
Lemma below_place e p c : lowers_below e -> height c < height e -> lowerable p c = true -> quietly (rec_place self p c) any.
Proof. intros Hb Hh Hc. by destruct (Hb p c Hh Hc) as (_ & H & _). Qed.

Lemma lowerable_type p c : lowerable p c = true -> is_type (type_of p) = true.
Proof. destruct c; cbn; intros [[[H _]%andb_true_iff _]%andb_true_iff _]%andb_true_iff; exact H. Qed.
#[local] Hint Resolve lowerable_type : lower.

Lemma lower_unary_quietly o e p c : is_type (type_of path) = true -> quietly (rec_expr self p c) any ->
  mir_op_is_terminator o = false -> quietly (lower_unary node_addr facts self o path e p c) any.
Proof using Hr0. intros Ht Hc Ho. unfold lower_unary. quiet. Qed.

Lemma lower_of_source_quietly o p c span : is_type (type_of path) = true -> quietly (rec_expr self p c) any ->
  mir_op_is_terminator o = false -> quietly (lower_of_source node_addr facts self o path p c span) any.
Proof using Hr0. intros Ht Hc Ho. unfold lower_of_source. quiet. Qed.

Lemma place_index_quietly base container index element : quietly (place_index type_addr str_addr base container index element) any.
Proof. apply quietly_get. intros s. by apply quietly_ret. Qed.

Lemma bounds_operands_quietly place container index : is_type container = true ->
  quietly (bounds_operands type_addr str_addr place container index) any.
Proof using Hr0.
  intros Ht. apply ask_types_quietly. intros r Hl. unfold mir_bounds_operands.
  destruct (container_of_r0 r container Hl Ht) as [-> _]. by eexists.
Qed.
#[local] Hint Resolve place_index_quietly bounds_operands_quietly : lower.

Lemma lower_indexed_place_quietly tp t ip i element span : is_type (type_of tp) = true -> has_kind (container_of (type_of tp)) = true ->
  quietly (rec_place self tp t) any -> quietly (rec_expr self ip i) any ->
  quietly (lower_indexed_place type_addr str_addr node_addr facts self tp t ip i element span) any.
Proof using Hr0.
  intros Ht Hk Hp He. unfold lower_indexed_place. quiet_step. quiet_step. quiet_step.
  eapply quietly_bind; [by apply indexed_container_quietly|]. cbn beta. intros c [-> Hc]. quiet.
Qed.

Lemma project_pointees_quietly fuel : forall place reached, is_type reached = true -> ptr_depth reached <= fuel ->
  quietly (project_pointees fuel place reached) any.
Proof using Hr0.
  induction fuel as [|fuel IH]; intros place reached Ht Hf; cbn [project_pointees]; unfold and_then.
  - destruct reached; cbn in Hf; [lia|]. eapply (quietly_bind _ _ (fun b => b = false)).
    { apply ask_types_quietly. intros. by eexists. }
    intros ? ->. by apply quietly_ret.
  - set (ref := bool_decide (kind_at (reg_types r0) reached = Some TYPE_REF)).
    eapply (quietly_bind _ _ (fun b => b = ref)).
    { apply ask_types_quietly. intros r Hl. eexists. split; [done|]. unfold ref. rewrite <- (kind_at_r0 r reached Hl Ht).
      unfold type_is_indirect, deref, kind_at. destruct reached as [p|]; [|by rewrite bool_decide_eq_false_2]. cbn.
      destruct (reg_types r !! p) as [t|]; cbn; [|by rewrite bool_decide_eq_false_2]. apply bool_decide_ext. split; congruence. }
    intros ? ->. destruct ref eqn:Href; cbn [negb]; [|by apply quietly_ret]. apply bool_decide_eq_true in Href.
    destruct (ty_of_ref type_addr str_addr r0 (ok_types _ _ _ Hr0) reached Href) as (Hv & Hd & _).
    set (q := type_pointee (deref r0 reached)) in *.
    eapply (quietly_bind _ _ (fun p => p = q)).
    { apply ask_types_quietly. intros r [_ Hg]. eexists. split; [done|].
      destruct (kind_at_deref _ _ _ Href) as (n & t & -> & Hn & Hd0 & Hk). unfold q. rewrite Hd0. unfold deref. cbn.
      destruct (gr_types _ _ Hg n t Hn) as (t' & Hn' & Hc). rewrite Hn'. unfold type_pointee. rewrite (core_kind _ _ Hc), Hk.
      by apply (f_equal ty_pointee) in Hc. }
    intros ? ->. apply IH; [|lia]. destruct q as [n|]; [|done]. by apply Nat.ltb_lt.
Qed.

Lemma is_type_depth type r : leaves type_addr str_addr r0 r -> is_type type = true -> ptr_depth type <= length (reg_types r).
Proof. intros Hl Ht. pose proof (is_type_valid type r Hl Ht). destruct type; cbn in *; lia. Qed.

(** *** Places *)

(** The nodes that are lowered as calls. *)
Definition call_here (e : ASTExpr) : Prop :=
  match e with
  | EXPR_CALL _ _ _ => fact_constant_of node_addr facts path = None
  | EXPR_DEREF _ _ => fact_call_kind node_addr facts path = CALL_DEREF
  | EXPR_INDEX _ _ _ => fact_call_kind node_addr facts path = CALL_INDEX
  | _ => False
  end.

Lemma lower_place_quietly e : lowerable path e = true -> lowers_below e ->
  (call_here e -> quietly (rec_call self path e) any) ->
  (is_place e = false -> quietly (rec_expr self path e) any) ->
  quietly (lower_place type_addr str_addr node_addr facts self path e) any.
Proof using Hr0.
  intros Hres Hbelow Hcall Hexpr. pose proof (lowerable_type path e Hres) as Ht.
  destruct e; cbn [lower_place]; cbn [is_place] in *; try (specialize (Hexpr eq_refl); quiet).
  - quiet.
  - cbn [lowerable] in Hres. apply andb_true_iff in Hres as [_ Hres].
    eapply quietly_bind; [eapply (below_place _ _ _ Hbelow); [cbn; lia|done]|]. intros place _.
    apply quietly_get_leaves. intros s Hl. eapply quietly_bind; [|intros; by apply quietly_ret].
    pose proof (lowerable_type _ _ Hres) as Htt. apply project_pointees_quietly; [done|by apply is_type_depth].
  - cbn [lowerable] in Hres. rewrite !andb_true_iff in Hres. destruct_and! Hres.
    apply quietly_if; intros Hk.
    + eapply quietly_bind; [by apply Hcall; apply bool_decide_eq_true in Hk|]. intros; by apply quietly_ret.
    + eapply quietly_bind; [by eapply (below_place _ _ _ Hbelow); [cbn; lia|]|]. intros; by apply quietly_ret.
  - cbn [lowerable] in Hres. rewrite !andb_true_iff in Hres. destruct_and! Hres.
    apply quietly_if; intros Hk.
    + eapply quietly_bind; [by apply Hcall; apply bool_decide_eq_true in Hk|]. intros; by apply quietly_ret.
    + rewrite Hk in *. apply lower_indexed_place_quietly; [by eapply lowerable_type|done| |].
      * by eapply (below_place _ _ _ Hbelow); [cbn; lia|].
      * by eapply (below_expr _ _ _ Hbelow); [cbn; lia|].
Qed.

(** *** Calls *)

Lemma container_element_quietly c : is_type c = true ->
  (exists t, c = container_of t /\ is_indexed t = true) -> quietly (container_element c) any.
Proof using Hr0.
  intros Hc (t & -> & Hi). unfold is_indexed in Hi.
  destruct (kind_at (reg_types r0) (container_of t)) as [k|] eqn:Hk; [|done].
  unfold container_element. eapply quietly_bind; [apply kind_of_quietly; [done|unfold has_kind; by rewrite Hk]|].
  cbn beta. intros k' Hk'. assert (k' = k) as -> by congruence.
  assert (Hk_of : forall r, leaves type_addr str_addr r0 r -> exists n u, container_of t = Some n /\ reg_types r !! n = Some u /\ deref r (container_of t) = Some u /\ ty_kind u = k).
  { intros r Hl. apply kind_at_deref. by rewrite (kind_at_r0 r _ Hl Hc). }
  destruct k; try done; apply ask_types_quietly; intros r Hl; destruct (Hk_of r Hl) as (n & u & Hn & Hu & Hd & Hku); rewrite Hd.
  - destruct (array_shape type_addr str_addr r n u (ok_types _ _ _ (lv_ok _ _ _ _ Hl)) Hu Hku) as (e & l & _ & Ha & _).
    exists e. split; [|done]. unfold type_array_element. by rewrite Hku, Ha.
  - destruct (slice_shape type_addr str_addr r n u (ok_types _ _ _ (lv_ok _ _ _ _ Hl)) Hu Hku) as (e & _ & Ha & _).
    exists e. split; [|done]. unfold type_slice_element. by rewrite Hku, Ha.
Qed.

Lemma array_length_constant_quietly c : quietly (array_length_constant c) any.
Proof using Hr0.
  unfold array_length_constant. quiet. apply ask_types_quietly. intros r _.
  unfold type_array_length_is_known, type_array_length. destruct (deref r c) as [u|]; [|by eexists].
  destruct (ty_kind u); try by eexists. destruct (ty_args u) as [|? [|[|[]] []]]; by eexists.
Qed.
#[local] Hint Resolve array_length_constant_quietly : lower.

Lemma call_here_ok e : lowerable path e = true -> call_here e -> is_call_of_builtin e = false -> call_ok path e = true.
Proof.
  destruct e; cbn [call_here lowerable is_call_of_builtin]; try done; intros [_ H]%andb_true_iff.
  - intros Hc Hb. rewrite Hc in H. destruct e; try done; by rewrite !andb_true_iff in H; destruct_and! H.
  - intros Hk _. rewrite Hk, bool_decide_eq_true_2 in H by done. by apply andb_true_iff in H as [_ H].
  - intros Hk _. rewrite Hk, bool_decide_eq_true_2 in H by done. by apply andb_true_iff in H as [_ H].
Qed.

(** An argument is below the call. *)
Lemma call_arg_quietly e i : lowerable path e = true -> call_here e -> is_call_of_builtin e = false ->
  (match e with EXPR_CALL _ _ l => i < length l | EXPR_INDEX _ _ _ => True | _ => False end) ->
  quietly (call_arg path e i) (fun a => height a.2 < height e /\ lowerable a.1 a.2 = true /\
    match e with EXPR_CALL _ _ _ => a.1 = path ++ [S i] | _ => True end).
Proof.
  intros Hres Hc Hb Hi. destruct e; try done; cbn [call_arg call_here is_call_of_builtin] in *.
  - destruct (lookup_lt_is_Some_2 _ _ Hi) as [a Ha]. rewrite Ha. cbn [ask].
    assert (Hr : lowerable (path ++ [S i]) a = true).
    { cbn [lowerable] in Hres. apply andb_true_iff in Hres as [_ Hres]. rewrite Hc in Hres.
      destruct e; try done; rewrite !andb_true_iff in Hres; destruct_and! Hres;
        match goal with H : all_from _ 0 _ = true |- _ => exact (all_from_lookup _ _ 0 i a H Ha) end. }
    eapply quietly_bind; [by apply (quietly_ask _ (eq a)); exists a|]. intros x <-. apply quietly_ret. cbn [fst snd].
    split; [|by split]. cbn [height]. pose proof (height_in height _ _ _ Ha). lia.
  - apply quietly_ret. cbn [fst snd]. cbn [lowerable] in Hres. rewrite !andb_true_iff in Hres. destruct_and! Hres.
    split; [cbn [height]; lia|done].
Qed.

Definition has_receiver : bool :=
  match fact_call_kind node_addr facts path with CALL_INDEX | CALL_DEREF | CALL_METHOD => true | CALL_FUNCTION | CALL_CONVERSION => false end.

Lemma call_receiver_quietly e : lowerable path e = true -> call_here e -> is_call_of_builtin e = false ->
  quietly (call_receiver node_addr facts path e) (fun r =>
    match r with
    | Some (p, c) => p = receiver_path path e /\ height c < height e /\ lowerable p c = true /\ has_receiver = true
    | None => has_receiver = false
    end).
Proof.
  intros Hres Hc Hb. pose proof (call_here_ok e Hres Hc Hb) as Hok.
  unfold call_ok in Hok. rewrite !andb_true_iff in Hok. destruct Hok as [[_ Hrec] _].
  unfold receiver_ok in Hrec. unfold call_receiver, has_receiver.
  destruct (fact_call_kind node_addr facts path) eqn:Hk; try (by apply quietly_ret).
  all: destruct e as [| | | |sp target l|sp target nm|sp target|sp target|sp target|sp target| | |sp target index| |]; try done.
  - destruct target; try done. apply quietly_ret. split; [done|]. split; [cbn [height]; lia|]. split; [|done].
    cbn [lowerable call_here] in *. rewrite Hc, Hk in Hres. rewrite !andb_true_iff in Hres. destruct_and! Hres.
    by rewrite bool_decide_eq_true_2 in * by done.
  - apply quietly_ret. split; [done|]. split; [cbn [height]; lia|]. split; [|done]. cbn [lowerable] in Hres. rewrite !andb_true_iff in Hres. by destruct_and! Hres.
  - apply quietly_ret. split; [done|]. split; [cbn [height]; lia|]. split; [|done]. cbn [lowerable] in Hres. rewrite !andb_true_iff in Hres. by destruct_and! Hres.
Qed.

Lemma call_result_type_quietly e : lowerable path e = true -> call_here e -> is_call_of_builtin e = false ->
  quietly (call_result_type node_addr facts functions path e) (fun t => is_type t = true).
Proof using Hfunctions.
  intros Hres Hc Hb. pose proof (call_here_ok e Hres Hc Hb) as Hok. pose proof (lowerable_type path e Hres) as Ht.
  unfold call_ok in Hok. rewrite !andb_true_iff in Hok. destruct Hok as [[Hcal _] Hrest].
  unfold call_result_type.
  assert (Hof : callee_at path <> None -> quietly (f ← function_of functions (fact_callee_of node_addr facts path); f ← ask f; mret (return_type (fn_signature f))) (fun t => is_type t = true)).
  { intros Hsome. eapply quietly_bind; [by apply function_of_quietly|]. cbn beta. intros f [-> Hf]. destruct (callee_at path) as [g|]; [|done].
    eapply quietly_bind; [by apply (quietly_ask _ (eq g)); exists g|]. intros ? <-. apply quietly_ret. by apply return_type_ok, Hf. }
  destruct e; try done; try (by apply quietly_ret).
  - destruct (fact_callee_of node_addr facts path) as [p|] eqn:Hp; [|by apply quietly_ret]. apply Hof.
    unfold callee_ok in Hcal. rewrite Hp in Hcal. apply Nat.ltb_lt in Hcal. unfold callee_at. rewrite Hp. cbn.
    by destruct (lookup_lt_is_Some_2 _ _ Hcal) as [f ->].
  - apply andb_true_iff in Hrest as [Hsome _]. apply Hof. by destruct (callee_at path).
Qed.

Definition written (e : ASTExpr) : nat :=
  match e with EXPR_CALL _ _ l => length l | EXPR_INDEX _ _ _ => 1 | _ => 0 end.

Lemma call_arg_count_quietly e : call_here e -> quietly (call_arg_count e) (fun n => n = written e).
Proof. destruct e; try done; intros _; by apply quietly_ret. Qed.

Lemma is_indexed_kind t : is_indexed t = true -> has_kind (container_of t) = true.
Proof. unfold is_indexed, has_kind. by destruct (kind_at _ _). Qed.

Lemma intrinsic_container e : lowerable path e = true -> call_here e -> is_call_of_builtin e = false ->
  has_receiver = true -> is_intrinsic path = true ->
  has_kind (container_of (type_of (receiver_path path e))) = true /\
  (written e <> 0 -> is_indexed (type_of (receiver_path path e)) = true).
Proof.
  intros Hres Hc Hb Hrec Hin. pose proof (call_here_ok e Hres Hc Hb) as Hok. unfold call_ok in Hok. rewrite !andb_true_iff in Hok.
  destruct Hok as [[_ Hr] Hok]. rewrite Hin in Hok. cbn [negb orb] in Hok.
  destruct e as [| | | |sp target l|sp target nm|sp target|sp target|sp target|sp target| | |sp target index| |]; try done; cbn [receiver_path written].
  - assert (Hm : fact_call_kind node_addr facts path = CALL_METHOD).
    { unfold has_receiver in Hrec. unfold receiver_ok in Hr. destruct (fact_call_kind node_addr facts path); done. }
    rewrite Hm in Hok. rewrite (bool_decide_eq_true_2 (CALL_METHOD = CALL_METHOD)) in Hok by done.
    destruct l; apply andb_true_iff in Hok as [_ Hok]; cbn [negb orb] in Hok; [by split; [|intros []]|]. split; [by apply is_indexed_kind|done].
  - apply andb_true_iff in Hok as [_ Hok]. split; [by apply is_indexed_kind|done].
Qed.

Lemma written_arg e : call_here e -> written e <> 0 -> match e with EXPR_CALL _ _ l => 0 < length l | EXPR_INDEX _ _ _ => True | _ => False end.
Proof. destruct e; cbn; try done. lia. Qed.

Lemma lower_intrinsic_call_quietly e : lowerable path e = true -> call_here e -> is_call_of_builtin e = false -> lowers_below e ->
  quietly (lower_intrinsic_call type_addr str_addr node_addr facts functions self path e) any.
Proof using Hr0 Hfunctions.
  intros Hres Hc Hb Hbelow. pose proof (call_here_ok e Hres Hc Hb) as Hok. pose proof (lowerable_type path e Hres) as Ht.
  unfold call_ok in Hok. rewrite !andb_true_iff in Hok. destruct Hok as [[Hcal _] _].
  unfold lower_intrinsic_call. eapply quietly_bind; [by apply function_of_quietly|]. cbn beta. intros callee [Hcallee _].
  eapply quietly_bind; [by apply call_receiver_quietly|]. cbn beta. intros receiver Hreceiver.
  destruct callee as [f|]; [|by apply quietly_ret]. destruct receiver as [[p c]|]; [|by apply quietly_ret].
  destruct Hreceiver as (-> & Hh & Hrc & Hhas). apply quietly_if; intros Hmod; [by apply quietly_ret|]. apply negb_false_iff in Hmod.
  assert (Hin : is_intrinsic path = true) by (unfold is_intrinsic; by rewrite <- Hcallee).
  destruct (intrinsic_container e Hres Hc Hb Hhas Hin) as [Hkind Hindexed]. pose proof (lowerable_type _ _ Hrc) as Htr.
  pose proof (below_expr _ _ _ Hbelow Hh Hrc) as He. pose proof (below_place _ _ _ Hbelow Hh Hrc) as Hp.
  eapply quietly_bind; [apply (ask_types_quietly _ any); intros; by eexists|]. intros str_ref _.
  eapply quietly_bind; [by apply call_arg_count_quietly|]. cbn beta. intros count ->.
  apply quietly_if; intros _; [|apply quietly_if; intros Hcount].
  - eapply quietly_bind; [by apply lower_of_source_quietly|]. intros v _. by apply quietly_ret.
  - eapply quietly_bind; [by apply indexed_container_quietly|]. cbn beta. intros base [-> Hbase]. quiet_step. apply quietly_if; intros _; [quiet|].
    eapply quietly_bind; [by apply lower_of_source_quietly|]. intros v _. by apply quietly_ret.
  - apply Nat.eqb_neq in Hcount. eapply quietly_bind; [by apply indexed_container_quietly|]. cbn beta. intros container [-> Hcontainer].
    eapply quietly_bind; [apply container_element_quietly; [done|eexists; by split; [|apply Hindexed]]|]. intros element _.
    eapply quietly_bind; [apply call_arg_quietly; try done; by apply written_arg|]. cbn beta. intros [ip i] (Hhi & Hri & _). cbn [fst snd] in *.
    eapply quietly_bind; [apply lower_indexed_place_quietly; try done; by eapply below_expr|]. intros place _.
    eapply quietly_bind; [by apply call_result_type_quietly|]. cbn beta. intros lent Hlent. quiet.
Qed.

Lemma lower_call_arg_quietly callee index p c span : (forall f, callee = Some f -> function_types_ok f = true) ->
  quietly (rec_expr self p c) any -> quietly (lower_call_arg type_addr str_addr type_fuel self callee index p c span) any.
Proof using Hr0 Howns.
  intros Hf Hc. unfold lower_call_arg. quiet_step. eapply quietly_bind; [by apply callee_takes_slot_quietly|]. cbn beta. intros takes Htakes.
  eapply (quietly_bind _ _ any); [|intros; by apply quietly_ret]. destruct takes; [|by apply quietly_ret].
  destruct (Htakes eq_refl) as (f & type & -> & Hi & Ht). cbn [mbind option_bind].
  eapply quietly_bind; [by apply (quietly_ask _ (eq type)); exists type|]. intros ? <-. quiet.
Qed.

Lemma lower_function_call_quietly e : lowerable path e = true -> call_here e -> is_call_of_builtin e = false -> lowers_below e ->
  quietly (lower_function_call type_addr str_addr type_fuel node_addr facts functions self path e) any.
Proof using Hr0 Howns Hfunctions.
  intros Hres Hc Hb Hbelow. pose proof (call_here_ok e Hres Hc Hb) as Hok.
  unfold call_ok in Hok. rewrite !andb_true_iff in Hok. destruct Hok as [[Hcal _] _].
  unfold lower_function_call. eapply quietly_bind; [by apply function_of_quietly|]. cbn beta. intros callee [_ Hcallee].
  eapply quietly_bind; [by apply call_receiver_quietly|]. cbn beta. intros receiver Hreceiver.
  eapply quietly_bind; [by apply call_arg_count_quietly|]. cbn beta. intros count ->.
  eapply (quietly_bind _ _ any).
  { destruct receiver as [[p c]|]; [|by apply quietly_ret]. destruct Hreceiver as (_ & Hh & Hrc & _).
    eapply quietly_bind; [apply lower_call_arg_quietly; [done|by eapply below_expr]|]. intros; by apply quietly_ret. }
  intros received _. eapply quietly_bind.
  { apply quietly_for_each_any. intros k [] Hk. apply lookup_replicate in Hk as [_ Hk].
    eapply quietly_bind; [apply (call_arg_quietly e k); try done; destruct e; cbn in *; (done || lia)|]. cbn beta. intros [ap a] (Ha & Hra & _).
    apply lower_call_arg_quietly; [done|by eapply below_expr]. }
  intros l _. eapply (quietly_bind _ _ any).
  { destruct callee as [f|]; [|by apply quietly_ret]. pose proof (location_type_ok f (Hcallee f eq_refl)). quiet. }
  intros located _. eapply quietly_bind; [by apply call_result_type_quietly|]. cbn beta. intros answered Ha. quiet.
Qed.

Lemma lower_call_quietly e : lowerable path e = true -> call_here e -> lowers_below e ->
  quietly (lower_call type_addr str_addr type_fuel node_addr facts functions self path e) any.
Proof using Hr0 Howns Hfunctions.
  intros Hres Hc Hbelow. destruct (is_call_of_builtin e) eqn:Hb.
  - destruct e as [| | | |sp target l| | | | | | | | | |]; try done. destruct target; try done. cbn [lower_call].
    cbn [lowerable call_here] in *. apply andb_true_iff in Hres as [_ Hres]. rewrite Hc in Hres.
    eapply (below_expr _ _ _ Hbelow); [|exact Hres]. cbn [height]. lia.
  - assert (Hgoal : quietly (intrinsic ← lower_intrinsic_call type_addr str_addr node_addr facts functions self path e;
      match intrinsic with
      | Some result => mret result
      | None =>
          if bool_decide (fact_call_kind node_addr facts path = CALL_CONVERSION) then
            '(operand_path, operand) ← call_arg path e 0;
            to ← kind_of (type_of path);
            from ← kind_of (type_of operand_path);
            if bool_decide (to = from) then rec_expr self operand_path operand
            else lower_unary node_addr facts self (if bool_decide (to = TYPE_F32) then MIR_ITOF else MIR_FTOI) path e operand_path operand
          else lower_function_call type_addr str_addr type_fuel node_addr facts functions self path e
      end) any); [|destruct e as [| | | |sp target l| | | | | | | | | |]; try done; destruct target; done].
    eapply quietly_bind; [by apply lower_intrinsic_call_quietly|]. intros [v|] _; [by apply quietly_ret|].
    apply quietly_if; intros Hk; [|by apply lower_function_call_quietly]. apply bool_decide_eq_true in Hk.
    pose proof (call_here_ok e Hres Hc Hb) as Hok. unfold call_ok, receiver_ok in Hok. rewrite !andb_true_iff, Hk in Hok.
    destruct Hok as [_ Hok]. destruct e as [| | | |sp target l| |sp target|sp target| | | | |sp target index| |]; try done; cbn [call_here] in Hc; try congruence.
    rewrite (bool_decide_eq_true_2 (CALL_CONVERSION = CALL_CONVERSION)) in Hok by done. cbn [negb orb andb] in Hok. destruct l as [|a l]; [done|].
    rewrite !andb_true_iff in Hok. destruct_and! Hok.
    eapply quietly_bind; [apply call_arg_quietly; try done; cbn; lia|]. cbn beta. intros [p c] (Hh & Hr & Hp). cbn [fst snd] in *. subst p.
    pose proof (lowerable_type _ _ Hres) as Htp. pose proof (lowerable_type _ _ Hr) as Hta. pose proof (below_expr _ _ _ Hbelow Hh Hr).
    quiet. apply lower_unary_quietly; [done|done|]. set (f32 := bool_decide (a0 = TYPE_F32)). by destruct f32.
Qed.

(** *** The others *)

Lemma lower_literal_quietly span lit : is_type (type_of path) = true -> quietly (lower_literal node_addr facts path span lit) any.
Proof using Hr0. intros Ht. unfold lower_literal. quiet_step. destruct lit; cbv beta iota; quiet. Qed.

(** The right operand is evaluated in a block of its own. *)
Lemma lower_logical_quietly span l r o : is_type (type_of path) = true ->
  quietly (rec_expr self (path ++ [0]) l) any -> quietly (rec_expr self (path ++ [1]) r) any ->
  quietly (lower_logical node_addr facts self path span l r o) any.
Proof using Hr0 Howns Hfunctions.
  intros Ht Hl Hr n pending. unfold lower_logical. cbn zeta.
  eapply returns_quiet; [by apply lower_temp_quietly|]. intros result _. eapply returns_quiet; [exact Hl|]. intros left _.
  eapply returns_quiet; [apply lower_store_to_quietly|]. intros _ _.
  apply returns_create_block. intros rhs Hn Hrhs. apply returns_create_block. intros join Hle Hjoin.
  eapply returns_then; [apply lower_branch_returns; case_bool_decide; rewrite Nat2N.id; lia|].
  eapply returns_then; [apply enter_block_returns; set_solver|].
  eapply returns_quiet; [exact Hr|]. intros right _. eapply returns_quiet; [apply lower_store_to_quietly|]. intros ? _.
  eapply returns_then; [apply lower_jump_returns; rewrite Nat2N.id; lia|].
  eapply returns_then; [apply enter_block_returns; set_solver|]. intros s Hs. split; [|done].
  eapply lowering_inv_le; [exact Hs|lia|by apply entered_two].
Qed.

Lemma lower_bin_op_quietly span l r o : is_type (type_of path) = true ->
  quietly (rec_expr self (path ++ [0]) l) any -> quietly (rec_expr self (path ++ [1]) r) any ->
  quietly (lower_bin_op node_addr facts self path span l r o) any.
Proof using Hr0 Howns Hfunctions.
  intros Ht Hl Hr. unfold lower_bin_op. apply quietly_if; intros _; [by apply lower_logical_quietly|].
  unfold lower_binary_args. quiet. apply emit_quietly. by destruct o.
Qed.

Lemma lower_answered_quietly e c : is_type (constant_type c) = true -> quietly (lower_answered e c) any.
Proof using Hr0. intros Ht. unfold lower_answered. cbn zeta. eapply quietly_bind; [apply (ask_types_quietly _ any); intros; by eexists|]. intros param _. quiet. Qed.

Lemma lower_read_quietly e : is_type (type_of path) = true -> quietly (rec_place self path e) any ->
  quietly (lower_read node_addr facts self path e) any.
Proof using Hr0. intros Ht Hp. unfold lower_read. quiet. Qed.

Lemma lower_field_init_quietly e p base init : lowers_below e -> height init.2 < height e -> lowerable p init.2 = true ->
  quietly (lower_field_init node_addr facts self p base init) any.
Proof using Hr0.
  intros Hbelow Hh Hr. pose proof (lowerable_type _ _ Hr) as Ht. destruct (Hbelow p init.2 Hh Hr) as (He & Hp & Hs).
  unfold lower_field_init. destruct init as [name value]. cbn [fst snd] in *. destruct value; quiet.
Qed.

Lemma lower_struct_lit_into_quietly e base : lowerable path e = true -> lowers_below e ->
  (match e with EXPR_STRUCT_LIT _ _ _ => True | _ => False end) ->
  quietly (lower_struct_lit_into node_addr facts self path e base) any.
Proof using Hr0.
  intros Hres Hbelow He. destruct e as [| | | | | | | | | | | | | |sp type l]; try done. cbn [lower_struct_lit_into lowerable] in *.
  apply andb_true_iff in Hres as [_ Hres]. eapply quietly_bind; [|intros; by apply quietly_ret].
  apply quietly_for_each_any. intros k init Hk. eapply lower_field_init_quietly; [exact Hbelow| |exact (all_from_lookup _ _ 0 k init Hres Hk)].
  cbn [height]. pose proof (height_in (fun f : ASTFieldInit => height f.2) _ _ _ Hk). unfold ASTFieldInit in *. lia.
Qed.

Lemma lower_array_lit_quietly span l : lowerable path (EXPR_ARRAY_LIT span l) = true -> fact_constant_of node_addr facts path = None ->
  lowers_below (EXPR_ARRAY_LIT span l) -> quietly (lower_array_lit type_addr str_addr type_fuel node_addr facts self path span l) any.
Proof using Hr0 Howns.
  intros Hres Hc Hbelow. pose proof (lowerable_type _ _ Hres) as Ht. cbn [lowerable] in Hres. apply andb_true_iff in Hres as [_ Hres].
  rewrite Hc in Hres. unfold lower_array_lit. quiet_step. eapply quietly_bind; [|intros; by apply quietly_ret].
  apply quietly_for_each_any. intros k e Hk. pose proof (all_from_lookup _ _ 0 k e Hres Hk) as Hr. pose proof (lowerable_type _ _ Hr) as Hte.
  assert (He : quietly (rec_expr self (path ++ [k]) e) any).
  { eapply (below_expr _ _ _ Hbelow); [|done]. cbn [height]. pose proof (height_in height _ _ _ Hk). lia. }
  unfold lower_element. quiet.
Qed.

Lemma lower_unadjusted_quietly e : lowerable path e = true -> lowers_below e ->
  (call_here e -> quietly (rec_call self path e) any) -> (is_place e = true -> quietly (rec_place self path e) any) ->
  quietly (lower_unadjusted type_addr str_addr type_fuel node_addr facts self path e) any.
Proof using Hr0 Howns Hfunctions.
  intros Hres Hbelow Hcall Hplace. pose proof (lowerable_type _ _ Hres) as Ht. unfold lower_unadjusted.
  destruct (fact_constant_of node_addr facts path) as [c|] eqn:Hc.
  { apply lower_answered_quietly. destruct e; cbn [lowerable] in Hres; rewrite Hc, !andb_true_iff in Hres; by destruct_and! Hres. }
  destruct e as [| | | |sp target l| |sp target|sp target|sp target|sp target| | | | |].
  - by apply lower_literal_quietly.
  - cbn [lowerable] in Hres. rewrite Hc, !andb_true_iff in Hres. destruct_and! Hres.
    apply lower_bin_op_quietly; [done| |]; eapply (below_expr _ _ _ Hbelow); try done; cbn; lia.
  - specialize (Hplace eq_refl). quiet. by apply lower_read_quietly.
  - cbn [lowerable] in Hres. by rewrite Hc, andb_false_r in Hres.
  - by apply Hcall.
  - by apply lower_read_quietly, Hplace.
  - cbn [lowerable] in Hres. rewrite Hc, !andb_true_iff in Hres. destruct_and! Hres.
    assert (quietly (rec_place self (path ++ [0]) target) any) by (eapply (below_place _ _ _ Hbelow); [cbn; lia|done]). quiet.
  - by apply lower_read_quietly, Hplace.
  - cbn [lowerable] in Hres. rewrite Hc, !andb_true_iff in Hres. destruct_and! Hres.
    apply lower_unary_quietly; [done| |done]. eapply (below_expr _ _ _ Hbelow); [cbn; lia|done].
  - cbn [lowerable] in Hres. rewrite Hc, !andb_true_iff in Hres. destruct_and! Hres.
    apply lower_unary_quietly; [done| |done]. eapply (below_expr _ _ _ Hbelow); [cbn; lia|done].
  - cbn [lowerable] in Hres. by rewrite Hc, andb_false_r in Hres.
  - quiet.
  - by apply lower_read_quietly, Hplace.
  - by apply lower_array_lit_quietly.
  - unfold lower_struct_lit. quiet_step. eapply quietly_bind; [by apply lower_struct_lit_into_quietly|]. intros; by apply quietly_ret.
Qed.

(** *** Adjustments *)

Lemma adjusted_types e : lowerable path e = true -> let a := fact_adjustment node_addr facts path in
  Forall (fun t => is_type t = true) (deref_types a) /\ is_type (adjust_to a) = true /\
  (is_place e = false -> adjust_kind a = ADJUST_NONE /\ deref_types a = []).
Proof.
  intros Hres a. assert (Ha : adjustment_ok path e = true) by (destruct e; cbn [lowerable] in Hres; rewrite !andb_true_iff in Hres; by destruct_and! Hres).
  unfold adjustment_ok in Ha. fold a in Ha. rewrite !andb_true_iff in Ha. destruct Ha as [[H1 H2] H3].
  split; [|split; [done|]].
  - rewrite forallb_forall in H1. apply Forall_forall. intros t Ht. by apply H1, list_elem_of_In.
  - intros Hp. rewrite Hp in H3. cbn [orb] in H3. apply andb_true_iff in H3 as [Hk%bool_decide_eq_true Hd%Nat.eqb_eq]. split; [done|].
    unfold derefs in Hd. by destruct (deref_types a).
Qed.

Lemma raw_of_returns n pending type : is_type type = true ->
  returns (raw_of type_addr str_addr type) (lowering_inv n pending Open)
    (fun p s => lowering_inv n pending Open s /\ ptr_valid (reg_types (lw_types s)) p).
Proof using Hr0.
  intros Ht s Hs. pose proof (inv_leaves _ _ _ _ Hs) as Hl. pose proof (is_type_valid type _ Hl Ht) as Hv.
  destruct (raw_of_makes type_addr str_addr (lw_types s) (ok_types _ _ _ (lv_ok _ _ _ _ Hl)) type Hv) as (r & p & Hraw & Hk & Hp & _).
  unfold raw_of. rewrite Hraw. split; [|exact Hp]. apply with_registry_inv; [done|]. by eapply lower_raw.
Qed.

Lemma lower_expr_quietly e : lowerable path e = true -> lowers_below e ->
  (call_here e -> quietly (rec_call self path e) any) -> (is_place e = true -> quietly (rec_place self path e) any) ->
  quietly (lower_expr type_addr str_addr type_fuel node_addr facts self path e) any.
Proof using Hr0 Howns Hfunctions.
  intros Hres Hbelow Hcall Hplace. pose proof (lowerable_type _ _ Hres) as Ht. destruct (adjusted_types e Hres) as (Hd & Hto & Hnone).
  pose proof (lower_unadjusted_quietly e Hres Hbelow Hcall Hplace) as Hun. unfold lower_expr. cbn zeta.
  set (a := fact_adjustment node_addr facts path) in *. clearbody a.
  assert (Hlast : forall t, last (deref_types a) = Some t -> is_type t = true).
  { intros t [l Hl]%last_Some. rewrite Hl in Hd. by apply Forall_app in Hd as [_ [Hd _]%Forall_cons]. }
  destruct (is_place e) eqn:Hp.
  2: { destruct (Hnone eq_refl) as [-> Hda]. unfold lower_derefs. by rewrite Hda. }
  specialize (Hplace eq_refl). assert (Hadj : quietly (lower_adjusted_place self path e a) any) by (unfold lower_adjusted_place; quiet).
  destruct (adjust_kind a).
  - unfold lower_derefs. destruct (last (deref_types a)) as [reached|] eqn:Hreached; [|done]. pose proof (Hlast reached eq_refl). quiet.
  - unfold lower_borrow. quiet.
  - unfold lower_unsize. cbn zeta. intros n pending. eapply returns_bind; [apply raw_of_returns|].
    { destruct (last (deref_types a)) as [reached|]; cbn; [by apply Hlast|done]. }
    intros elements. eapply (returns_bind _ _ _ (fun _ => lowering_inv n pending Open)).
    { intros s [Hs Hv]. unfold lower_temp, create_value. cbn. by apply create_value_inv. }
    intros data. match goal with |- returns ?m _ _ => assert (Hq : quietly m any); [|apply Hq] end. quiet.
Qed.
End node.

(** The fuel a node needs: a turn for the place, the value and the call of each
    node on the way down. *)
Lemma lower_at_good h : forall k path e, 3 * h <= k -> height e <= h -> lowerable path e = true ->
  lowers (lower_at type_addr str_addr type_fuel node_addr facts functions k) path e.
Proof using Hr0 Howns Hfunctions.
  induction h as [|h IH]; intros k path e Hk Hh Hres; [destruct e; cbn in Hh; lia|].
  assert (Hbelow : forall j, 3 * h <= j -> lowers_below (lower_at type_addr str_addr type_fuel node_addr facts functions j) e).
  { intros j Hj p c Hc Hr. apply IH; [lia|lia|done]. }
  assert (Hcall : forall j, 3 * h + 1 <= j -> call_here path e -> quietly (rec_call (lower_at type_addr str_addr type_fuel node_addr facts functions j) path e) any).
  { intros [|j] Hj Hc; [lia|]. cbn [lower_at lower_step rec_call]. apply lower_call_quietly; [done|done|]. apply Hbelow. lia. }
  assert (Hplace : forall j, 3 * h + 2 <= j -> is_place e = true -> quietly (rec_place (lower_at type_addr str_addr type_fuel node_addr facts functions j) path e) any).
  { intros [|j] Hj Hp; [lia|]. cbn [lower_at lower_step rec_place]. apply lower_place_quietly; [done|apply Hbelow; lia|apply Hcall; lia|by rewrite Hp]. }
  assert (Hexpr : forall j, (if is_place e then 3 * h + 3 else 3 * h + 2) <= j ->
    quietly (rec_expr (lower_at type_addr str_addr type_fuel node_addr facts functions j) path e) any).
  { intros [|j] Hj; [destruct (is_place e); lia|]. cbn [lower_at lower_step rec_expr].
    apply lower_expr_quietly; [done|apply Hbelow|apply Hcall|intros Hp; apply Hplace; [|done]]; destruct (is_place e); lia || done. }
  split; [apply Hexpr; destruct (is_place e); lia|]. split.
  - destruct (is_place e) eqn:Hp; [apply Hplace; [lia|done]|]. destruct k as [|k]; [lia|]. cbn [lower_at lower_step rec_place].
    apply lower_place_quietly; [done|apply Hbelow; lia|apply Hcall; lia|intros _; apply Hexpr; lia].
  - destruct e; try done. intros base. destruct k as [|k]; [lia|]. cbn [lower_at lower_step rec_struct_lit_into].
    apply lower_struct_lit_into_quietly; [done|apply Hbelow; lia|done].
Qed.

(** ** Statements *)

Lemma returns_get {A} (f : Lowering -> Lower A) (pre : Lowering -> Prop) post :
  (forall s, pre s -> returns (f s) (eq s) post) -> returns (s ← get; f s) pre post.
Proof. intros Hf s Hs. cbn. by apply (Hf s Hs). Qed.

Lemma quiet_get_returns {A} (f : Lowering -> Lower A) (pre : Lowering -> Prop) post :
  (forall s, returns (f s) pre post) -> returns (s ← get; f s) pre post.
Proof. intros Hf s Hs. cbn. by apply (Hf s). Qed.

Lemma symbol_of_quietly symbol : symbol_ok symbol = true ->
  quietly (symbol_of symbols symbol) (fun x =>
    match x with Some x => exists type, symbol_kind x = SYMBOL_VAR type /\ is_type type = true | None => symbol = None end).
Proof.
  unfold symbol_ok, symbol_of. destruct symbol as [p|]; [|intros _; by apply quietly_ret].
  destruct (symbols !! p) as [x|]; [|done]. destruct (symbol_kind x) as [type| | | | | |] eqn:Hk; try done. intros Ht.
  eapply quietly_bind; [by apply (quietly_ask _ (eq x)); exists x|]. intros ? <-. apply quietly_ret. by exists type.
Qed.

Lemma lower_drop_quietly local span : symbol_ok local.1 = true -> quietly (lower_drop type_addr str_addr type_fuel symbols local span) any.
Proof using Hr0 Howns.
  intros Hsym n pending. unfold lower_drop.
  eapply (returns_bind _ _ _ (fun type s => lowering_inv n pending Open s /\ ptr_valid (reg_types (lw_types s)) type)).
  - unfold local_type. eapply returns_quiet; [by apply symbol_of_quietly|]. intros [x|] Hx.
    + destruct Hx as (type & Hk & Ht). intros s Hs. rewrite Hk. split; [done|]. apply is_type_valid; [by eapply inv_leaves|done].
    + intros s Hs. cbn. split; [done|]. unfold mir_value_info. destruct (_ || _); [done|].
      destruct (values (lw_ir s) !! N.to_nat local.2) as [info|] eqn:Hi; [|done]. cbn.
      pose proof (li_values _ _ _ _ Hs) as Hv. rewrite Forall_lookup in Hv. by eapply Hv.
  - intros type. eapply returns_bind; [apply needs_drop_returns|]. intros drops.
    match goal with |- returns ?m _ _ => assert (Hq : quietly m any); [|apply Hq] end. quiet.
Qed.

Lemma locals_above_quietly floor : quietly (locals_above floor) (Forall (fun l => symbol_ok l.1 = true)).
Proof.
  intros n pending s Hs. unfold locals_above. cbn. split; [done|]. apply Forall_rev, Forall_drop. apply Hs.
Qed.

Lemma lower_drops_above_quietly floor span : quietly (lower_drops_above type_addr str_addr type_fuel symbols floor span) any.
Proof using Hr0 Howns.
  unfold lower_drops_above. eapply quietly_bind; [apply locals_above_quietly|]. cbn beta. intros l Hl.
  eapply quietly_bind; [|intros; by apply quietly_ret]. apply quietly_for_each_any. intros k local Hk.
  apply lower_drop_quietly. rewrite Forall_lookup in Hl. by eapply Hl.
Qed.

Lemma pop_locals_returns n pending e enclosing : returns (pop_locals enclosing) (lowering_inv n pending e) (fun _ => lowering_inv n pending e).
Proof. apply modify_quietly. intros s Hl. split_and!; try done. by apply Forall_take. Qed.

Lemma open_scope_end n pending enclosing span s : lowering_inv n pending Open s ->
  match lower_scope_end type_addr str_addr type_fuel symbols enclosing span s with
  | Done s' _ => lowering_inv n pending Open s' | _ => False end.
Proof using Hr0 Howns.
  intros Hs. destruct (current_block _ _ _ s Hs) as (b & Hb & Hterm & Ho). unfold lower_scope_end, mbind, Lower_bind at 1. rewrite Hterm.
  rewrite (open_not_terminated b Ho). revert s Hs b Hb Hterm Ho. intros s Hs _ _ _ _. revert s Hs.
  match goal with |- forall s, _ -> match ?m s with Done _ _ => _ | _ => _ end => change (returns m (lowering_inv n pending Open) (fun _ => lowering_inv n pending Open)) end.
  eapply returns_quiet; [apply locals_above_quietly|]. cbn beta. intros l Hl.
  eapply returns_quiet; [|intros ? _; apply pop_locals_returns].
  apply quietly_for_each_any. intros k local Hk. rewrite Forall_lookup in Hl. pose proof (Hl _ _ Hk) as Hsym.
  eapply quietly_bind; [by apply lower_drop_quietly|]. intros _ _. eapply quietly_bind; [by apply symbol_of_quietly|]. cbn beta. intros x Hx.
  eapply (quietly_bind _ _ any); [|intros; by apply emit_quietly]. unfold binding_type. destruct x as [x|]; [|by apply quietly_ret].
  destruct Hx as (type & -> & _). by apply quietly_ret.
Qed.

Lemma lower_scope_end_returns n pending e enclosing span : e <> Closed ->
  returns (lower_scope_end type_addr str_addr type_fuel symbols enclosing span) (lowering_inv n pending e) (fun _ => lowering_inv n pending e).
Proof using Hr0 Howns.
  intros He s Hs. destruct (current_block _ _ _ s Hs) as (b & Hb & Hterm & Hends).
  assert (Hcase : open_block b \/ e = Either /\ closed_block (block_count (lw_ir s)) b) by (destruct e; cbn in Hends; [by left|done|tauto]).
  destruct Hcase as [Ho|[-> Hc]].
  - assert (Hopen : lowering_inv n pending Open s) by (destruct Hs; split; try done; intros b' Hb'; cbn; congruence).
    pose proof (open_scope_end n pending enclosing span s Hopen) as Hend.
    destruct (lower_scope_end _ _ _ _ _ _ s) as [s' []| |]; [|done|done]. destruct e; [done|done|by apply lowering_inv_either in Hend].
  - unfold lower_scope_end, mbind, Lower_bind at 1. rewrite Hterm, (closed_terminated _ b Hc). by apply pop_locals_returns.
Qed.

Section statement.
Context (self : Recursion) (h : nat).
Context (Hself : forall path e, height e <= h -> lowerable path e = true -> lowers self path e).

Lemma expr_quietly path e : height e <= h -> lowerable path e = true -> quietly (rec_expr self path e) any.
Proof using Hself. intros Hh Hr. by destruct (Hself path e Hh Hr). Qed.

Lemma place_quietly path e : height e <= h -> lowerable path e = true -> quietly (rec_place self path e) any.
Proof using Hself. intros Hh Hr. by destruct (Hself path e Hh Hr) as (_ & ? & _). Qed.

Lemma lower_moved_quietly path e span : height e <= h -> lowerable path e = true -> quietly (lower_moved node_addr facts self path e span) any.
Proof using Hr0 Hself.
  intros Hh Hr. pose proof (lowerable_type _ _ Hr). pose proof (expr_quietly path e Hh Hr). unfold lower_moved. quiet.
Qed.

Lemma lower_var_decl_quietly path span init : symbol_ok (fact_def_of ident_addr facts (LOCAL_NAME path)) = true ->
  opt_height init <= h -> lowerable_opt (path ++ [0]) init = true ->
  quietly (lower_var_decl node_addr ident_addr facts symbols self path span init) any.
Proof using Hr0 Hself.
  intros Hsym Hh Hr. unfold lower_var_decl. cbn zeta. eapply quietly_bind; [by apply symbol_of_quietly|]. cbn beta. intros x Hx.
  eapply (quietly_bind _ _ (fun t => is_type t = true)).
  { unfold binding_type. destruct x as [x|]; [|by apply quietly_ret]. destruct Hx as (type & -> & Ht). by apply quietly_ret. }
  cbn beta. intros type Ht. eapply quietly_bind; [by apply create_value_quietly|]. intros local _. quiet_step. quiet_step.
  destruct init as [e|]; [|by apply quietly_ret]. cbn in Hh, Hr. pose proof (lower_moved_quietly _ _ span Hh Hr) as Hm.
  destruct (Hself _ _ Hh Hr) as (_ & _ & Hs). destruct e; quiet.
Qed.

Lemma lower_assign_quietly path span target value : height target <= h -> height value <= h ->
  lowerable (path ++ [0]) target = true -> lowerable (path ++ [1]) value = true ->
  (assigned_container target = true -> has_kind (type_of (path ++ [0; 0])) = true) ->
  quietly (lower_assign type_addr str_addr type_fuel node_addr facts self path span target value) any.
Proof using Hr0 Howns Hself.
  intros Hht Hhv Hrt Hrv Hk. pose proof (lowerable_type _ _ Hrt) as Ht. pose proof (place_quietly _ _ Hht Hrt) as Hp.
  pose proof (lower_moved_quietly _ _ span Hhv Hrv) as Hm. unfold lower_assign. cbn zeta.
  eapply (quietly_bind _ _ any).
  { destruct (assigned_container target) eqn:Hc; [|by apply quietly_ret].
    assert (Hkt : is_type (type_of (path ++ [0; 0])) = true).
    { destruct target; try done; cbn [lowerable] in Hrt; rewrite !andb_true_iff in Hrt; destruct_and! Hrt;
        rewrite <- app_assoc in *; by eapply lowerable_type. }
    eapply quietly_bind; [by apply kind_of_quietly; auto|]. intros; by apply quietly_ret. }
  intros raw _. quiet.
Qed.

Lemma lower_compound_assign_quietly path span target value o : height target <= h -> height value <= h ->
  lowerable (path ++ [0]) target = true -> lowerable (path ++ [1]) value = true ->
  quietly (lower_compound_assign node_addr facts self path span target value o) any.
Proof using Hr0 Hself.
  intros Hht Hhv Hrt Hrv. pose proof (lowerable_type _ _ Hrt) as Ht. pose proof (place_quietly _ _ Hht Hrt) as Hp.
  pose proof (expr_quietly _ _ Hhv Hrv) as Hv. unfold lower_compound_assign, lower_binary_args. cbn zeta. quiet.
  apply emit_quietly. by destruct o.
Qed.

Lemma lower_return_returns n pending path span e : height e <= h -> lowerable (path ++ [0]) e = true ->
  returns (lower_return type_addr str_addr type_fuel node_addr facts symbols self path span (Some e)) (lowering_inv n pending Open)
    (fun _ => lowering_inv n pending Closed).
Proof using Hr0 Howns Hself.
  intros Hh Hr. pose proof (lower_moved_quietly _ _ span Hh Hr) as Hm. unfold lower_return.
  eapply (returns_quiet _ _ any). { eapply quietly_bind; [exact Hm|]. intros; by apply quietly_ret. }
  intros args _. eapply returns_quiet; [apply lower_drops_above_quietly|]. intros ? _. apply lower_terminator_returns; [done|]. by constructor.
Qed.

Lemma lower_jump_stmt_returns n pending span is_break :
  returns (lower_jump_stmt type_addr str_addr type_fuel symbols span is_break) (lowering_inv n pending Open)
    (fun _ => lowering_inv n pending Either).
Proof using Hr0 Howns.
  unfold lower_jump_stmt. apply quiet_get_returns. intros s0.
  eapply returns_quiet; [apply lower_drops_above_quietly|]. intros ? _. apply returns_get. intros s Hs. cbn zeta.
  set (target := if is_break then lw_break s else lw_continue s).
  assert (Ht : target_ok (block_count (lw_ir s)) target) by (unfold target; destruct (li_targets _ _ _ _ Hs); by destruct is_break).
  destruct (mir_block_is_none target) eqn:Hnone; [intros ? <-; by eapply lowering_inv_either|].
  destruct Ht as [?|Hlt]; [congruence|].
  assert (Hs' : lowering_inv (block_count (lw_ir s)) pending Open s) by (destruct Hs; split; try done; lia).
  intros ? <-. pose proof (lower_jump_returns _ pending Open target Hlt s Hs') as Hj. destruct (lower_jump target s) as [s' []| |]; [|done|done].
  eapply lowering_inv_either, lowering_inv_le; [exact Hj|exact (li_count _ _ _ _ Hs)|done].
Qed.

(** Where control is after a statement. *)
Definition after (stmt : ASTStmt) : Ending := if jumps stmt then Either else Open.

Definition lowers_stmt (path : NodePtr) (stmt : ASTStmt) : Prop :=
  forall n pending, returns (lower_stmt type_addr str_addr type_fuel node_addr ident_addr facts symbols self path stmt)
    (lowering_inv n pending Open) (fun _ => lowering_inv n pending (after stmt)).

Lemma stmt_either path stmt n pending : lowers_stmt path stmt ->
  returns (lower_stmt type_addr str_addr type_fuel node_addr ident_addr facts symbols self path stmt)
    (lowering_inv n pending Open) (fun _ => lowering_inv n pending Either).
Proof. intros Hs. eapply returns_weaken; [apply Hs|done|]. intros [] s. by apply lowering_inv_either. Qed.

Lemma quiet_stmt path stmt : jumps stmt = false ->
  quietly (lower_stmt type_addr str_addr type_fuel node_addr ident_addr facts symbols self path stmt) any -> lowers_stmt path stmt.
Proof. intros Hj Hq n pending. eapply returns_weaken; [apply Hq|done|]. unfold after. rewrite Hj. by intros ? s []. Qed.

(** The statements of a block, one after another. *)
Lemma lower_list_returns l : forall path i n pending, all_but_last tail_jumps jumps l = true ->
  (forall k s, l !! k = Some s -> lowers_stmt (path ++ [i + k]) s) ->
  returns (for_each (fun i stmt => lower_stmt type_addr str_addr type_fuel node_addr ident_addr facts symbols self (path ++ [i]) stmt) i l)
    (lowering_inv n pending Open) (fun _ => lowering_inv n pending (if last_of jumps l then Either else Open)).
Proof.
  induction l as [|x l IH]; intros path i n pending Htail Hl; cbn [for_each]; [by intros s Hs|].
  pose proof (Hl 0 x eq_refl) as Hx. rewrite Nat.add_0_r in Hx. destruct l as [|y l].
  - eapply returns_bind; [apply Hx|]. intros u. cbn [for_each last_of]. by intros s Hs.
  - cbn [all_but_last] in Htail. rewrite !andb_true_iff in Htail. destruct Htail as [[_ Hj] Htail]. apply negb_true_iff in Hj.
    unfold lowers_stmt, after in Hx. rewrite Hj in Hx. eapply returns_bind; [apply Hx|].
    intros u. eapply returns_bind; [apply (IH path (S i)); [done|]|].
    { intros k s Hk. rewrite Nat.add_succ_comm. by apply (Hl (S k)). }
    intros bs. by intros s Hs.
Qed.

Lemma set_targets_returns n pending e b c floor : target_ok n b -> target_ok n c ->
  returns (modify (fun s => with_targets s b c (floor s))) (lowering_inv n pending e) (fun _ => lowering_inv n pending e).
Proof.
  intros Hb Hc s []. split; try done. cbn. unfold target_ok in *. split; [destruct Hb|destruct Hc]; (by left) || (right; lia).
Qed.

Lemma lower_if_returns path span c t e : height c <= h -> lowerable (path ++ [0]) c = true ->
  lowers_stmt (path ++ [1]) t -> (forall s, e = Some s -> lowers_stmt (path ++ [2]) s) ->
  lowers_stmt path (STMT_IF span c t e).
Proof using Hr0 Howns Hfunctions Hself.
  intros Hh Hr Ht He n pending. cbn [lower_stmt after jumps]. cbn zeta.
  eapply returns_quiet; [by apply expr_quietly|]. intros condition _.
  apply returns_create_block. intros then_id Hn Hthen. apply returns_create_block. intros join Hle Hjoin.
  destruct e as [x|].
  - apply returns_create_block. intros else_id Hle' Helse.
    eapply returns_then; [apply lower_branch_returns; rewrite Nat2N.id; lia|].
    eapply returns_then; [apply enter_block_returns; set_solver|]. eapply returns_then; [by apply stmt_either|].
    eapply returns_then; [apply lower_jump_returns; rewrite Nat2N.id; lia|].
    eapply returns_then.
    { eapply returns_then; [apply enter_block_returns; set_solver|]. eapply returns_then; [apply stmt_either; by apply He|].
      apply lower_jump_returns. rewrite Nat2N.id. lia. }
    eapply returns_post; [apply enter_block_returns; set_solver|]. intros [] s Hs.
    eapply lowering_inv_le; [exact Hs|lia|by apply entered_three].
  - eapply returns_bind; [apply returns_ret|]. intros else_id. intros s [Hs ->]. revert s Hs.
    match goal with |- forall s, lowering_inv ?n' ?P ?e s -> match ?m s with Done s' a => ?Q | _ => _ end =>
      change (returns m (lowering_inv n' P e) (fun _ => lowering_inv n pending Open)) end.
    eapply returns_then; [apply lower_branch_returns; rewrite Nat2N.id; lia|].
    eapply returns_then; [apply enter_block_returns; set_solver|]. eapply returns_then; [by apply stmt_either|].
    eapply returns_then; [apply lower_jump_returns; rewrite Nat2N.id; lia|].
    eapply returns_then; [intros s Hs; exact Hs|].
    eapply returns_post; [apply enter_block_returns; set_solver|]. intros [] s Hs.
    eapply lowering_inv_le; [exact Hs|lia|by apply entered_two].
Qed.

Lemma lower_for_returns path span i c p b : opt_height c <= h -> lowerable_opt (path ++ [1]) c = true ->
  (forall s, i = Some s -> lowers_stmt (path ++ [0]) s /\ jumps s = false) ->
  (forall s, p = Some s -> lowers_stmt (path ++ [2]) s) -> lowers_stmt (path ++ [3]) b ->
  lowers_stmt path (STMT_FOR span i c p b).
Proof using Hr0 Howns Hfunctions Hself.
  intros Hh Hr Hi Hp Hb n pending. cbn [lower_stmt after jumps]. cbn zeta.
  apply quiet_get_returns. intros s0. eapply (returns_then _ _ _ (lowering_inv n pending Open)).
  { destruct i as [x|]; [|by intros s Hs]. destruct (Hi x eq_refl) as [Hx Hj]. unfold lowers_stmt, after in Hx. rewrite Hj in Hx. apply Hx. }
  apply returns_create_block. intros header Hn Hheader. apply returns_create_block. intros body Hle1 Hbody.
  apply returns_create_block. intros post Hle2 Hpost. apply returns_create_block. intros exit Hle3 Hexit.
  eapply returns_then; [apply lower_jump_returns; rewrite Nat2N.id; lia|].
  eapply returns_then; [apply enter_block_returns; set_solver|].
  eapply (returns_then _ _ _ (lowering_inv (S exit) (({[exit]} ∪ ({[post]} ∪ ({[body]} ∪ ({[header]} ∪ pending)))) ∖ {[header]}) Closed)).
  { destruct c as [x|].
    - eapply returns_quiet; [by apply expr_quietly|]. intros condition _. apply lower_branch_returns; rewrite Nat2N.id; lia.
    - apply lower_jump_returns. rewrite Nat2N.id. lia. }
  apply returns_get. intros s Hs.
  set (k := block_count (lw_ir s)).
  assert (Hk : S exit <= k) by apply Hs.
  eapply (returns_weaken _ (lowering_inv k (({[exit]} ∪ ({[post]} ∪ ({[body]} ∪ ({[header]} ∪ pending)))) ∖ {[header]}) Closed));
    [|intros ? <-; destruct Hs; by split|intros ? ? H; exact H].
  eapply returns_then; [apply set_targets_returns; right; rewrite Nat2N.id; lia|].
  eapply returns_then; [apply enter_block_returns; set_solver|]. eapply returns_then; [by apply stmt_either|].
  eapply returns_then; [apply lower_jump_returns; rewrite Nat2N.id; lia|].
  eapply returns_then; [apply set_targets_returns; apply Hs|].
  eapply returns_then; [apply enter_block_returns; set_solver|].
  eapply (returns_then _ _ _ (lowering_inv k (({[exit]} ∪ ({[post]} ∪ ({[body]} ∪ ({[header]} ∪ pending)))) ∖ {[header]} ∖ {[body]} ∖ {[post]}) Either)).
  { destruct p as [x|]; [by apply stmt_either, Hp|]. intros s' Hs'. by apply lowering_inv_either in Hs'. }
  eapply returns_then; [apply lower_jump_returns; rewrite Nat2N.id; lia|].
  eapply returns_then; [apply enter_block_returns; set_solver|].
  eapply returns_post; [by apply lower_scope_end_returns|]. intros [] s' Hs'.
  eapply lowering_inv_le; [exact Hs'|lia|by apply entered_four].
Qed.

Lemma foldr_max_in {A} (f : A -> nat) l n k a : foldr (fun a n => Nat.max (f a) n) 0 l <= n -> l !! k = Some a -> f a <= n.
Proof. intros Hl Hk. pose proof (height_in f l k a Hk). lia. Qed.

Lemma all_but_last_lookup l k s : all_but_last tail_jumps jumps l = true -> l !! k = Some s -> tail_jumps s = true.
Proof.
  revert k. induction l as [|x [|y l] IH]; intros [|k]; cbn [all_but_last lookup list_lookup]; try done.
  - by intros Ht [= <-].
  - intros [[Ht _]%andb_true_iff _]%andb_true_iff [= <-]. done.
  - intros [_ Ht]%andb_true_iff Hk. by apply (IH k).
Qed.

Lemma lower_stmt_ok stmt : forall path, stmt_height stmt <= h -> lowerable_stmt path stmt = true -> tail_jumps stmt = true -> lowers_stmt path stmt.
Proof using Hr0 Howns Hfunctions Hself.
  induction stmt as [span l IH|span c t e IHt IHe|span i c p b IHi IHp IHb|stmt Hother] using stmt_nested_ind; intros path Hh Hr Ht.
  - cbn [stmt_height lowerable_stmt tail_jumps] in *. intros n pending. cbn [lower_stmt]. cbn zeta. apply quiet_get_returns. intros s0.
    eapply returns_bind; [apply (lower_list_returns l path 0); [done|]|].
    { intros k s Hk. rewrite Forall_lookup in IH. apply (IH k s Hk).
      - by eapply (foldr_max_in stmt_height).
      - exact (all_from_lookup _ _ 0 k s Hr Hk).
      - by eapply all_but_last_lookup. }
    intros us. unfold after. cbn [jumps]. apply lower_scope_end_returns. by destruct (last_of jumps l).
  - cbn [stmt_height lowerable_stmt tail_jumps] in *. rewrite !andb_true_iff in *. destruct_and! Hr. destruct Ht as [Ht He].
    apply lower_if_returns; [lia|done|apply IHt; [lia|done|done]|].
    intros s ->. by apply (IHe s eq_refl); [lia| |].
  - cbn [stmt_height lowerable_stmt tail_jumps] in *. rewrite !andb_true_iff in *. destruct_and! Hr. destruct_and! Ht.
    apply lower_for_returns; [lia|done| | |apply IHb; [lia|done|done]].
    + intros s ->. cbn beta iota in *. match goal with H : tail_jumps s && _ = true |- _ => apply andb_true_iff in H as [Hts Hj%negb_true_iff] end.
      split; [|done]. by apply (IHi s eq_refl); [lia| |].
    + intros s ->. by apply (IHp s eq_refl); [lia| |].
  - destruct stmt as [span value|span name te init| | | | |span target value|span target value o| | | |span is_break|span value]; try done;
      cbn [stmt_height lowerable_stmt] in *; rewrite ?andb_true_iff in Hr; try (apply quiet_stmt; [done|]; cbn [lower_stmt]; cbn zeta).
    + eapply quietly_bind; [by apply expr_quietly|]. intros; by apply quietly_ret.
    + destruct Hr. by apply lower_var_decl_quietly.
    + by apply quietly_ret.
    + by apply quietly_ret.
    + by apply quietly_ret.
    + by apply quietly_ret.
    + destruct Hr as [[Hrt Hrv] Hk]. apply lower_assign_quietly; [lia|lia|done|done|]. intros Hc. by rewrite Hc in Hk.
    + destruct Hr as [Hrt Hrv]. apply lower_compound_assign_quietly; [lia|lia|done|done].
    + intros n pending. cbn [lower_stmt]. cbn zeta. unfold after. cbn [jumps]. apply lower_jump_stmt_returns.
    + intros n pending. cbn [lower_stmt]. cbn zeta. unfold after. cbn [jumps].
      eapply returns_post; [by apply lower_return_returns|]. intros [] s. by apply lowering_inv_either.
Qed.
End statement.

(** ** A function *)

Lemma add_param_quietly value : quietly (add_param value) any.
Proof. intros n pending s []. by split. Qed.

Lemma lower_param_quietly root f i field : function_types_ok f = true -> i < length (sig_params (fn_signature f)) ->
  symbol_ok (fact_def_of ident_addr facts (PARAM_NAME root i)) = true -> quietly (lower_param ident_addr facts root f i field) any.
Proof using Hr0.
  intros Hf Hi Hsym. unfold lower_param. cbn zeta. destruct (lookup_lt_is_Some_2 _ _ Hi) as [type Ht]. rewrite Ht.
  pose proof (param_type f i type Hf Ht). eapply quietly_bind; [by apply (quietly_ask _ (eq type)); exists type|]. intros ? <-.
  eapply quietly_bind; [by apply create_value_quietly|]. intros value _.
  eapply quietly_bind; [apply add_param_quietly|]. intros _ _. by apply bind_local_quietly.
Qed.

End ready.

Lemma lowering_of_inv function : lowering_inv 1 ∅ Open (lowering_of r0 function).
Proof.
  split; cbn [lowering_of lw_types lw_ir lw_block lw_locals lw_break lw_continue].
  - done.
  - done.
  - cbn. lia.
  - set_solver.
  - set_solver.
  - intros [|[|i]] b; cbn; try done. by intros [= <-].
  - intros b [= <-]. by constructor.
  - set_solver.
  - intros [|[|i]] b _ Hne; cbn; done.
  - by constructor.
  - by constructor.
  - split; by left.
  - done.
Qed.

(** What [mir_build_function] is given: a parameter of the signature and a
    variable for each field, and a body with the facts lowering needs. *)
Definition lowerable_function (root : NodePtr) (f : Function) (fields : list ASTField) (body : option ASTStmt) : bool :=
  Nat.leb (length fields) (length (sig_params (fn_signature f))) &&
  all_from (fun i _ => symbol_ok (fact_def_of ident_addr facts (PARAM_NAME root i))) 0 fields &&
  match body with Some body => lowerable_stmt root body | None => true end.

(** Nothing follows a return, a break or a continue in its block. *)
Definition body_tail_jumps (body : option ASTStmt) : bool := match body with Some body => tail_jumps body | None => true end.

Definition body_height (body : option ASTStmt) : nat := match body with Some body => stmt_height body | None => 0 end.

Lemma lower_function_returns root f fields body fuel :
  registry_ok type_addr str_addr r0 -> owning_answered -> forallb function_types_ok functions = true -> function_types_ok f = true ->
  lowerable_function root f fields body = true -> body_tail_jumps body = true -> 3 * body_height body <= fuel ->
  returns (lower_function type_addr str_addr type_fuel node_addr ident_addr facts symbols functions root f fields body fuel)
    (lowering_inv 1 ∅ Open) (fun _ => lowering_inv 1 ∅ Closed).
Proof.
  intros Hr0 Howns Hfunctions Hf Hres Htail Hfuel. unfold lowerable_function in Hres. rewrite !andb_true_iff in Hres.
  destruct Hres as [[Hlen%Nat.leb_le Hsyms] Hbody]. unfold lower_function.
  eapply returns_quiet.
  { apply quietly_for_each_any. intros k field Hk. pose proof (lookup_lt_Some _ _ _ Hk).
    apply lower_param_quietly; [done|done|lia|]. exact (all_from_lookup _ _ 0 k field Hsyms Hk). }
  intros us _. eapply (returns_quiet _ _ any).
  { apply quietly_if; intros _; [|by apply quietly_ret]. pose proof (location_type_ok f Hf).
    eapply quietly_bind; [by apply create_value_quietly|]. intros value _. eapply quietly_bind; [by apply quietly_modify|].
    intros _ _. apply add_param_quietly. }
  intros ? _. eapply returns_then; [by apply modify_quietly|].
  eapply (returns_then _ _ _ (lowering_inv 1 ∅ Either)).
  - destruct body as [stmt|]; [|intros s Hs; by apply lowering_inv_either in Hs].
    eapply stmt_either, (lower_stmt_ok Hr0 Howns Hfunctions _ (stmt_height stmt)); [|done|done|done].
    intros p e He Hre. by apply (lower_at_good Hr0 Howns Hfunctions (stmt_height stmt)).
  - apply lower_terminator_returns; [done|]. by constructor.
Qed.
End lowered.

(** ** Registries whose types answer at once *)

Section flat.
Context (type_addr str_addr : nat -> N) (type_fuel : nat).

(** No type holds others by value. *)
Definition flat (r : TypeRegistry) : Prop :=
  Forall (fun t => ty_kind t <> TYPE_STRUCT /\ ty_kind t <> TYPE_ARRAY) (reg_types r).

Lemma flat_owns r p : registry_ok type_addr str_addr r -> flat r -> ptr_valid (reg_types r) p ->
  exists b, type_registry_owns type_addr str_addr (S type_fuel) r p = Some (r, b).
Proof.
  intros Hr Hf Hp. destruct p as [n|]; [|by eexists]. destruct (lookup_lt_is_Some_2 _ _ Hp) as [t Ht].
  unfold flat in Hf. rewrite Forall_lookup in Hf. destruct (Hf n t Ht) as [Hs Ha].
  cbn [type_registry_owns]. unfold deref at 1. cbn [mbind option_bind]. rewrite Ht. cbn [mbind option_bind].
  assert (Hd : deref r (Some n) = Some t) by exact Ht.
  assert (Hends : exists e, ends_itself type_addr str_addr r (Some n) = Some e).
  { unfold ends_itself, type_registry_is_unique. rewrite Hd. cbn [mbind option_bind].
    destruct (ok_conformances _ _ _ Hr) as [g Hg].
    destruct (deref_decl r (ty_decl t)) as [d|]; cbn [mbind option_bind]; [destruct (bool_decide _); [by eexists|]|];
      rewrite (conforms_lookup type_addr str_addr r g t _ _ [] Hg Hd) by constructor; by eexists. }
  destruct Hends as [e He]. rewrite He. cbn [mbind option_bind].
  unfold type_registry_fields_of. rewrite Ht. cbn [mbind option_bind]. rewrite (bool_decide_eq_false_2 _ Hs). cbn [negb mbind option_bind fields_until].
  destruct (ty_kind t); try done; destruct e; by eexists.
Qed.

Lemma flat_raw r p r' q : flat r -> type_registry_raw_of type_addr str_addr r p = Some (r', q) -> flat r'.
Proof.
  intros Hf. unfold type_registry_raw_of. destruct (deref_decl _ _) as [d|]; [|done]. cbn [mbind option_bind].
  rewrite intern_applied_intern. unfold intern. destruct (type_intern_lookup _ _ _ _) as [[x|]|]; cbn [mbind option_bind]; [by intros [= <- <-]| |done].
  cbn [new_type]. destruct (map_insert _ _ _ _ _) as [[m b]|]; [|done]. cbn [mbind option_bind]. intros [= <- <-].
  apply Forall_app. split; [done|]. by repeat constructor.
Qed.

Lemma flat_answers r : registry_ok type_addr str_addr r -> flat r -> owning_answered type_addr str_addr (S type_fuel) r.
Proof.
  intros Hr Hf r' Hs. enough (registry_ok type_addr str_addr r' /\ flat r') as [Hr' Hf'].
  { intros p Hp. destruct (flat_owns r' p Hr' Hf' Hp) as [b ->]. by eexists. }
  induction Hs as [r|r1 r2 r3 Hstep _ IH]; [done|]. apply IH.
  - exact (lv_ok _ _ _ _ (type_steps_leave type_addr str_addr (S type_fuel) r1 r2 Hr (rtc_once _ _ Hstep))).
  - destruct Hstep as [element r2 p Hv Hraw|type r2 b Ho]; [by eapply flat_raw|].
    destruct type as [n|]; [|by injection Ho as <- _].
    assert (Hv : ptr_valid (reg_types r1) (Some n)).
    { cbn [type_registry_owns] in Ho. unfold deref in Ho. cbn in Ho. destruct (reg_types r1 !! n) as [t|] eqn:Ht; [|done]. by apply lookup_lt_Some in Ht. }
    destruct (flat_owns r1 (Some n) Hr Hf Hv) as [b' Ho']. rewrite Ho' in Ho. by injection Ho as <- _.
Qed.
End flat.

(** ** Sample functions *)

Definition sample_node_addr (path : NodePtr) : N := 16 * N.of_nat (foldl (fun n i => 4 * n + i + 1) 0 path).
Definition sample_ident_addr (name : IdentPtr) : N :=
  match name with PARAM_NAME body i => sample_node_addr body + 16 * N.of_nat i | LOCAL_NAME path => sample_node_addr path + 64 end.

(** What the resolver notes of a tree: the types of its nodes, and the names that
    are used and declared. *)
Definition note_types (facts : Facts) (l : list (NodePtr * TypePtr)) : Facts :=
  foldl (fun facts n => default facts (fact_set_type sample_node_addr facts n.1 n.2)) facts l.
Definition note_uses (facts : Facts) (l : list (NodePtr * SymbolPtr)) : Facts :=
  foldl (fun facts n => default facts (fact_set_use sample_node_addr facts n.1 n.2)) facts l.
Definition note_defs (facts : Facts) (l : list (IdentPtr * SymbolPtr)) : Facts :=
  foldl (fun facts n => default facts (fact_set_def sample_ident_addr facts n.1 n.2)) facts l.
Definition no_facts : Facts := default (MkFacts (MkHashMap [] 0 0) (MkHashMap [] 0 0) (MkHashMap [] 0 0)) facts_init.

Definition at_line (line : Z) : Span := MkSpan line 1.
Definition name_of (n : nat) : ASTIdent := MkASTIdent n no_span.
Definition use_name (n : nat) : ASTExpr := EXPR_NAME no_span (name_of n) None.
Definition int_lit (n : Z) : ASTExpr := EXPR_LITERAL no_span (LITERAL_INT n).
Definition i32_expr : TypeExpr := TYPE_EXPR_NAME (name_of 1) None.

(**
<<
    func sum(n: i32): i32 {
        let total: i32 = 0;
        for let i: i32 = 0; i < n; i = i + 1 { total = total + i; if total == n { break; } }
        return total;
    }
>> *)
Definition sum_body : ASTStmt :=
  STMT_BLOCK (at_line 1)
    [ STMT_VAR_DECL (at_line 2) (name_of 41) (Some i32_expr) (Some (int_lit 0));
      STMT_FOR (at_line 3) (Some (STMT_VAR_DECL (at_line 3) (name_of 42) (Some i32_expr) (Some (int_lit 0))))
        (Some (EXPR_BIN_OP (at_line 3) (use_name 42) (use_name 40) BIN_OP_LESS))
        (Some (STMT_ASSIGN (at_line 3) (use_name 42) (EXPR_BIN_OP (at_line 3) (use_name 42) (int_lit 1) BIN_OP_ADD)))
        (STMT_BLOCK (at_line 3)
          [ STMT_ASSIGN (at_line 3) (use_name 41) (EXPR_BIN_OP (at_line 3) (use_name 41) (use_name 42) BIN_OP_ADD);
            STMT_IF (at_line 3) (EXPR_BIN_OP (at_line 3) (use_name 41) (use_name 40) BIN_OP_EQUAL)
              (STMT_BLOCK (at_line 3) [STMT_JUMP (at_line 3) true]) None ]);
      STMT_RETURN (at_line 4) (use_name 41) ].

Definition sum_fields : list ASTField := [MkASTField (name_of 40) i32_expr].
Definition sum_symbols : list Symbol :=
  [MkSymbol (SYMBOL_VAR sample_i32_t) false; MkSymbol (SYMBOL_VAR sample_i32_t) false; MkSymbol (SYMBOL_VAR sample_i32_t) false].
Definition sum_facts : Facts := Eval vm_compute in
  let typed := note_types no_facts
    ((fun path => (path, sample_i32_t)) <$>
       [[0; 0]; [1; 0; 0]; [1; 1; 0]; [1; 1; 1]; [1; 2; 0]; [1; 2; 1]; [1; 2; 1; 0]; [1; 2; 1; 1];
        [1; 3; 0; 0]; [1; 3; 0; 1]; [1; 3; 0; 1; 0]; [1; 3; 0; 1; 1]; [1; 3; 1; 0; 0]; [1; 3; 1; 0; 1]; [2; 0]]) in
  let typed := note_types typed [([1; 1], Some 2); ([1; 3; 1; 0], Some 2)] in
  let used := note_uses typed
    [([1; 1; 0], Some 2); ([1; 1; 1], Some 0); ([1; 2; 0], Some 2); ([1; 2; 1; 0], Some 2); ([1; 3; 0; 0], Some 1);
     ([1; 3; 0; 1; 0], Some 1); ([1; 3; 0; 1; 1], Some 2); ([1; 3; 1; 0; 0], Some 1); ([1; 3; 1; 0; 1], Some 0); ([2; 0], Some 1)] in
  note_defs used [(PARAM_NAME [] 0, Some 0); (LOCAL_NAME [0], Some 1); (LOCAL_NAME [1; 0], Some 2)].

Definition sum_function : Function :=
  MkFunc (sample_decl sample_i32_t [sample_i32_t]) (MkFuncSignature sample_i32_t [sample_i32_t]) [] 0 false.

Definition lower_sample (facts : Facts) (body : ASTStmt) (fuel : nat) : Res MIRFunction :=
  mir_build_function sample_addr sample_addr 1 sample_node_addr sample_ident_addr facts sum_symbols [sum_function] [] sample_0 0 sum_fields (Some body) fuel.

Lemma sample_0_ok : registry_ok sample_addr sample_addr sample_0.
Proof. apply reachable_ok. exists sample_names, sample_0. split; [by vm_compute|done]. Qed.

Lemma sample_0_flat : flat sample_0.
Proof. by repeat constructor. Qed.

(** ** Properties *)

(** C10: Lowering a function whose facts are as it needs them ends: however deep its
    expressions nest, with three calls for each level no assertion fails, no null
    pointer is followed and a function comes back.  Its blocks are basic blocks:
    each is at the index of its id and ends in its one terminator, and the targets
    of the terminators are blocks of it.  Every value of it has a type of the
    registry, which lowering only extends.

    What it needs: the registry is well formed and says of every type in it, and
    of those lowering makes, whether it owns ([owning_answered]); the types of the
    signatures of all functions are types of the registry; and of the function
    lowered ([lowerable_function]), each field has a parameter, the types noted for
    the nodes are of the registry, the symbols of the names declared are
    variables', callees are functions and receivers are where the kind of the call
    says, casts and qualified names have constants, and only places are adjusted.
    Nothing follows a return, a break or a continue in its block
    ([body_tail_jumps]).  The last two the resolver does not see to:
    [LowerLimits.adjusted_value_is_never_lowered] and
    [LowerLimits.code_after_break_hides_the_rest] are what happens without them. *)
Theorem lowering_makes_basic_blocks (type_addr str_addr : nat -> N) (type_fuel : nat) (node_addr : NodePtr -> N) (ident_addr : IdentPtr -> N)
    (facts : Facts) (symbols : list Symbol) (functions : list Function) (root : NodePtr) (r0 : TypeRegistry)
    (function : nat) (f : Function) (fields : list ASTField) (body : option ASTStmt) (fuel : nat) :
  registry_ok type_addr str_addr r0 -> owning_answered type_addr str_addr type_fuel r0 ->
  forallb (function_types_ok r0) functions = true -> functions !! function = Some f ->
  lowerable_function type_addr str_addr node_addr ident_addr facts symbols functions r0 root f fields body = true ->
  body_tail_jumps body = true ->
  3 * body_height body <= fuel ->
  exists s ir, mir_build_function type_addr str_addr type_fuel node_addr ident_addr facts symbols functions root r0 function fields body fuel = Done s ir /\
    entry ir = 0%N /\ 0 < block_count ir /\ targets_wf ir /\
    (forall i b, blocks ir !! i = Some b -> block_id b = N.of_nat i /\
       exists pre terminator, insts b = pre ++ [terminator] /\ mir_op_is_terminator (op terminator) = true /\
         Forall (fun inst => mir_op_is_terminator (op inst) = false) pre) /\
    Forall (fun info => ptr_valid (reg_types (lw_types s)) (value_type info)) (values ir) /\
    leaves type_addr str_addr r0 (lw_types s).
Proof.
  intros Hr0 Howns Hfunctions Hf Hres Htail Hfuel. unfold mir_build_function. rewrite Hf.
  pose proof (lower_function_returns type_addr str_addr type_fuel node_addr ident_addr facts symbols functions r0 root f fields body fuel
    Hr0 Howns Hfunctions (function_at functions r0 Hfunctions f function Hf) Hres Htail Hfuel (lowering_of r0 (Some function))
    (lowering_of_inv type_addr str_addr type_fuel symbols r0 (Some function))) as Hdone.
  destruct (lower_function _ _ _ _ _ _ _ _ _ _ _ _ _ _) as [s u| |]; [|done|done]. exists s, (lw_ir s). split; [done|].
  pose proof (inv_leaves type_addr str_addr type_fuel symbols r0 Hr0 _ _ _ _ Hdone) as Hl. destruct Hdone.
  assert (Hclosed : forall i b, blocks (lw_ir s) !! i = Some b -> closed_block (block_count (lw_ir s)) b).
  { intros i b Hb. destruct (decide (i = lw_block s)) as [->|Hne]; [by apply li_here0|]. by apply (li_closed0 i). }
  split; [done|]. split; [lia|]. split; [|split; [|by split]].
  - intros i b id Hb Hid. destruct (Hclosed i b Hb) as (_ & _ & _ & _ & _ & Hsucc). rewrite Forall_forall in Hsucc. by apply Hsucc.
  - intros i b Hb. split; [by apply li_ids0|]. destruct (Hclosed i b Hb) as (pre & t & Hi & Hpre & Ht & _). by exists pre, t.
Qed.

Lemma lowering_makes_basic_blocks_witness :
  exists s ir, lower_sample sum_facts sum_body 6 = Done s ir /\ block_count ir = 7 /\ targets_wf ir.
Proof.
  destruct (lowering_makes_basic_blocks sample_addr sample_addr 1 sample_node_addr sample_ident_addr sum_facts sum_symbols [sum_function]
    [] sample_0 0 sum_function sum_fields (Some sum_body) 6 sample_0_ok) as (s & ir & Hdone & _ & _ & Htargets & _).
  - apply flat_answers; [apply sample_0_ok|apply sample_0_flat].
  - by vm_compute.
  - reflexivity.
  - by vm_compute.
  - reflexivity.
  - vm_compute. lia.
  - exists s, ir. split; [exact Hdone|]. split; [|exact Htargets].
    pose proof (f_equal (fun r => match r with Done _ ir => block_count ir | _ => 0 end) Hdone) as Hcount. vm_compute in Hcount. by symmetry.
Defined.
