(* ===== verification/LowerKeeps.v ===== *)
(** * LowerKeeps: a body is lowered for the function it was asked for

    Lowering adds blocks, values and instructions to the MIR of one function;
    what it returns names that function. *)

From S2P Require Import Ast Facts Lower LowerShape.
From S2P Require Import Prelude Types Mir Decl HashMap Registry RegistryTypes RegistryState Functions Scopes.

(** A computation that stays in the function it is in. *)
Definition stays {A} (m : Lower A) : Prop := forall s,
  match m s with Done s' _ => mir_function (lw_ir s') = mir_function (lw_ir s) | _ => True end.

Lemma stays_bind {A B} (m : Lower A) (k : A -> Lower B) : stays m -> (forall a, stays (k a)) -> stays (m ≫= k).
Proof.
  intros Hm Hk s. unfold mbind, Lower_bind. specialize (Hm s). destruct (m s) as [s1 a| |]; [|done..]. specialize (Hk a s1).
  destruct (k a s1) as [s2 b| |]; [|done..]. by rewrite Hk.
Qed.

Lemma stays_for_each {A B} (f : nat -> A -> Lower B) l : (forall i a, a ∈ l -> stays (f i a)) -> forall i, stays (for_each f i l).
Proof.
  induction l as [|a l IH]; intros Hf i; cbn [for_each]; [done|]. apply stays_bind; [apply Hf; left|]. intros b.
  apply stays_bind; [|done]. apply IH. intros j a' Ha. apply Hf. by right.
Qed.

Lemma stays_ret {A} (a : A) : stays (mret a). Proof. done. Qed.
Lemma stays_get : stays get. Proof. done. Qed.
Lemma stays_stuck {A} : stays (@stuck A). Proof. done. Qed.
Lemma stays_ask {A} (o : option A) : stays (ask o). Proof. intros s. unfold ask. by destruct o. Qed.
Lemma stays_modify f : (forall s, mir_function (lw_ir (f s)) = mir_function (lw_ir s)) -> stays (modify f). Proof. intros Hf s. apply Hf. Qed.

Create HintDb staying.
#[export] Hint Resolve stays_ret stays_get stays_stuck stays_ask : staying.
#[export] Hint Extern 1 (stays (modify _)) => apply stays_modify; reflexivity : staying.

(** One step into a computation. *)
Ltac stay_step :=
  first
  [ solve [eauto 3 with staying nocore]
  | apply stays_bind; [|intro]
  | apply stays_for_each; intros ? ? ?
  | match goal with
    | |- stays (match ?x with _ => _ end) => destruct x eqn:?
    | |- stays ?m => unfold_head m
    end ].
Ltac staying := intros; cbv zeta; repeat (stay_step; cbv zeta).

Section lowering.
Context (type_addr str_addr : nat -> N) (type_fuel : nat) (node_addr : NodePtr -> N) (ident_addr : IdentPtr -> N) (facts : Facts)
  (symbols : list Symbol) (functions : list Function).

Lemma stays_ask_types {A} (f : TypeRegistry -> option A) : stays (Lower.ask_types f).
Proof. staying. Qed.
Lemma stays_owns type : stays (type_owns type_addr str_addr type_fuel type).
Proof. intros s. unfold type_owns. by destruct (type_registry_owns _ _ _ _ _) as [[]|]. Qed.
Lemma stays_raw type : stays (raw_of type_addr str_addr type).
Proof. intros s. unfold raw_of. by destruct (type_registry_raw_of _ _ _ _) as [[]|]. Qed.
Lemma stays_create type symbol span : stays (create_value type symbol span).
Proof. done. Qed.
Lemma stays_block : stays create_block.
Proof. done. Qed.
Lemma stays_emit inst : stays (emit inst).
Proof. by apply stays_modify. Qed.
Hint Resolve stays_ask_types stays_owns stays_raw stays_create stays_block stays_emit : staying.

Section self.
Context (self : Recursion).
Context (Hexpr : forall path e, stays (rec_expr self path e)) (Hplace : forall path e, stays (rec_place self path e))
  (Hcall : forall path e, stays (rec_call self path e)) (Hlit : forall path e base, stays (rec_struct_lit_into self path e base)).
Hint Resolve Hexpr Hplace Hcall Hlit : staying.

Lemma stays_project fuel place : forall reached, stays (project_pointees fuel place reached).
Proof using Type. revert place. induction fuel as [|fuel IH]; intros place reached; cbn [project_pointees]; staying. Qed.
Hint Resolve stays_project : staying.

Lemma stays_then {A B} (m : Lower A) (k : A -> Lower B) : stays m -> (forall a, stays (k a)) -> stays (and_then m k).
Proof using Type. apply stays_bind. Qed.

Lemma stays_place path e : stays (lower_place type_addr str_addr node_addr facts self path e).
Proof using Hexpr Hplace Hcall. destruct e; cbn [lower_place]; staying. Qed.
Lemma stays_call path e : stays (lower_call type_addr str_addr type_fuel node_addr facts functions self path e).
Proof using Hexpr Hplace Hcall Hlit. staying. Qed.
Lemma stays_lit path e base : stays (lower_struct_lit_into node_addr facts self path e base).
Proof using Hexpr Hlit. staying. Qed.
Hint Resolve stays_place stays_call stays_lit : staying.
Lemma stays_expr path e : stays (lower_expr type_addr str_addr type_fuel node_addr facts self path e).
Proof using Hexpr Hplace Hcall Hlit. staying. Qed.

Lemma stays_drops floor span : stays (lower_drops_above type_addr str_addr type_fuel symbols floor span).
Proof using Type. staying. Qed.
Lemma stays_scope_end enclosing span : stays (lower_scope_end type_addr str_addr type_fuel symbols enclosing span).
Proof using Type. staying. Qed.
Hint Resolve stays_drops stays_scope_end : staying.

Lemma stays_stmt stmt : forall path, stays (lower_stmt type_addr str_addr type_fuel node_addr ident_addr facts symbols self path stmt).
Proof using Hexpr Hplace Hcall Hlit.
  induction stmt as [span l IH|span c t e IHt IHe|span i c p b IHi IHp IHb|stmt Hother] using stmt_nested_ind; intros path.
  - cbn [lower_stmt]. cbv zeta. apply stays_bind; [staying|]. intros s. apply stays_bind; [|staying]. apply stays_for_each. intros k a Ha.
    rewrite Forall_forall in IH. by apply IH.
  - cbn [lower_stmt]. cbv zeta. destruct e as [e|]; [specialize (IHe e eq_refl)|]; staying.
  - cbn [lower_stmt]. cbv zeta. destruct i as [i|]; [specialize (IHi i eq_refl)|]; (destruct p as [p|]; [specialize (IHp p eq_refl)|]); staying.
  - destruct stmt; try done; cbn [lower_stmt]; cbv zeta; staying.
Qed.
End self.
Hint Resolve stays_place stays_call stays_lit stays_expr stays_stmt : staying.

Lemma stays_at fuel :
  let self := lower_at type_addr str_addr type_fuel node_addr facts functions fuel in
  (forall path e, stays (rec_expr self path e)) /\ (forall path e, stays (rec_place self path e)) /\
  (forall path e, stays (rec_call self path e)) /\ (forall path e base, stays (rec_struct_lit_into self path e base)).
Proof using Type.
  induction fuel as [|fuel (IH1 & IH2 & IH3 & IH4)]; cbn zeta; [by split|]. cbn [lower_at lower_step rec_expr rec_place rec_call rec_struct_lit_into].
  repeat split; intros; [by apply stays_expr|by apply stays_place|by apply stays_call|by apply stays_lit].
Qed.

Lemma mir_build_function_names root types function fields body fuel s ir :
  mir_build_function type_addr str_addr type_fuel node_addr ident_addr facts symbols functions root types function fields body fuel = Done s ir ->
  mir_function ir = Some function /\ is_Some (functions !! function).
Proof using Type.
  unfold mir_build_function. destruct (functions !! function) as [f|] eqn:Hf; [|done].
  destruct (stays_at fuel) as (H1 & H2 & H3 & H4).
  assert (Hs : stays (lower_function type_addr str_addr type_fuel node_addr ident_addr facts symbols functions root f fields body fuel)) by staying.
  specialize (Hs (lowering_of types (Some function))). destruct (lower_function _ _ _ _ _ _ _ _ _ _ _ _ _ _) as [s1 []| |]; [|done..].
  intros [= <- <-]. by rewrite Hs.
Qed.
End lowering.
