(* ===== verification/LowerLimits.v ===== *)
(** * LowerLimits: what lowering does not do

    The code behind a statement that leaves its block, and the adjustment of what
    has no place: the two conditions of [LowerShape.lowering_makes_basic_blocks]
    that the resolver does not see to. *)

From S2P Require Import Prelude Types Mir Borrowck Decl HashMap Ast Facts Registry RegistryTypes RegistryState Scopes Lower LowerShape.

(**
<<
    func sum(n: i32): i32 {
        for ; ; { break; n = 0; }
        return n;
    }
>> *)
Definition dead_body : ASTStmt :=
  STMT_BLOCK (at_line 1)
    [ STMT_FOR (at_line 2) None None None
        (STMT_BLOCK (at_line 2) [STMT_JUMP (at_line 2) true; STMT_ASSIGN (at_line 2) (use_name 40) (int_lit 0)]);
      STMT_RETURN (at_line 3) (use_name 40) ].

Definition dead_facts : Facts := Eval vm_compute in
  let typed := note_types no_facts ((fun path => (path, sample_i32_t)) <$> [[0; 3; 1; 0]; [0; 3; 1; 1]; [1; 0]]) in
  note_defs (note_uses typed [([0; 3; 1; 0], Some 0); ([1; 0], Some 0)]) [(PARAM_NAME [] 0, Some 0)].

(** The blocks control reaches, from the successors. *)
Lemma unreached ir (live : list nat) : N.to_nat (entry ir) ∈ live ->
  (forall i b s, i ∈ live -> blocks ir !! i = Some b -> s ∈ mir_block_successors b -> N.to_nat s ∈ live) ->
  forall i, i ∉ live -> ~ cfg_reachable ir i.
Proof. intros He Hs i Hi Hr. apply Hi. clear Hi.
  induction Hr as [|i b s Hr IH Hb Hin Hlt]; [done|exact (Hs i b s IH Hb Hin)]. Qed.

(** A call whose answer is read through a reference. *)
Definition deref_facts : Facts := Eval vm_compute in
  default no_facts (fact_set_adjustment sample_node_addr no_facts [0] (MkAdjustment ADJUST_NONE [sample_i32_t] sample_i32_t 0)).

(** ** Properties *)

(** What follows a [break] in its block is lowered behind the jump, into the
    same block, and the block gets a second terminator: the successors of a block
    are read off its last instruction, so the edge to the block behind the loop is
    gone, and nothing behind the loop is reachable to the analyses. *)
Example code_after_break_hides_the_rest :
  exists s ir body exit, lower_sample dead_facts dead_body 3 = Done s ir /\
    blocks ir !! 2 = Some body /\ op <$> insts body = [MIR_JMP; MIR_CONST_INT; MIR_STORE; MIR_JMP] /\
    (inst_targets <$> head (insts body)) = Some (4%N, 0%N) /\ mir_block_successors body = [3%N] /\
    blocks ir !! 4 = Some exit /\ op <$> insts exit = [MIR_RETURN] /\ ~ cfg_reachable ir 4.
Proof.
  eexists _, _, _, _. split; [vm_compute; reflexivity|]. split; [reflexivity|]. split; [reflexivity|]. split; [reflexivity|]. split; [reflexivity|].
  split; [reflexivity|]. split; [reflexivity|]. apply (unreached _ [0; 1; 2; 3]); [apply list_elem_of_here| |by apply (bool_decide_unpack _)].
  intros i b t Hi Hb Ht. apply list_elem_of_In in Hi, Ht. apply list_elem_of_In.
  destruct Hi as [<-|[<-|[<-|[<-|[]]]]]; cbn in Hb; injection Hb as <-; cbn in Ht; cbn; intuition (subst; auto).
Qed.

(** An adjustment that dereferences or borrows is for a place only: for any
    other expression, a call say, that resolution adjusted so, lowering asks for the
    place of the expression, which is where its value was lowered to, which asks for
    the place again, and never returns, whatever the stack. *)
Theorem adjusted_value_is_never_lowered (type_addr str_addr : nat -> N) (type_fuel : nat) (node_addr : NodePtr -> N) (facts : Facts)
    (functions : list Function) (path : NodePtr) (e : ASTExpr) :
  let a := fact_adjustment node_addr facts path in
  is_place e = false -> adjust_kind a = ADJUST_BORROW \/ adjust_kind a = ADJUST_NONE /\ derefs a <> 0 ->
  forall fuel s, rec_expr (lower_at type_addr str_addr type_fuel node_addr facts functions fuel) path e s = OutOfFuel.
Proof.
  intros a Hplace Hadjusted fuel. induction fuel as [fuel IH] using lt_wf_ind. intros s. destruct fuel as [|fuel]; [done|].
  assert (Hrec : forall s, rec_place (lower_at type_addr str_addr type_fuel node_addr facts functions fuel) path e s = OutOfFuel).
  { intros s'. destruct fuel as [|fuel]; [done|]. cbn [lower_at lower_step rec_place].
    destruct e; try done; cbn [lower_place]; unfold mbind, Lower_bind; by rewrite IH by lia. }
  cbn [lower_at lower_step rec_expr]. unfold lower_expr. fold a.
  assert (Hadj : forall s, lower_adjusted_place (lower_at type_addr str_addr type_fuel node_addr facts functions fuel) path e a s = OutOfFuel).
  { intros s'. unfold lower_adjusted_place, mbind, Lower_bind. by rewrite Hrec. }
  destruct Hadjusted as [->|[-> Hd]].
  - unfold lower_borrow, lower_temp, create_value, mbind, Lower_bind. destruct (mir_value_create _ _ _ _). by rewrite Hadj.
  - unfold lower_derefs. destruct (last (deref_types a)) as [t|] eqn:Hl.
    + unfold lower_temp, create_value, mbind, Lower_bind. destruct (mir_value_create _ _ _ _). by rewrite Hadj.
    + apply last_None in Hl. unfold derefs in Hd. by rewrite Hl in Hd.
Qed.

Lemma adjusted_value_is_never_lowered_witness :
  rec_expr (lower_at sample_addr sample_addr 1 sample_node_addr deref_facts [sum_function] 1000) [0] (EXPR_CALL (at_line 1) (use_name 50) [])
    (lowering_of sample_0 (Some 0)) = OutOfFuel.
Proof.
  apply adjusted_value_is_never_lowered; [reflexivity|]. right. split; [reflexivity|]. vm_compute. lia.
Defined.
