(* ===== verification/Build.v ===== *)
(** * Build: a module's MIR, with the instances it calls

    [src/src/mir/mir_build.c] with [mir_module.c], the list of pending bodies of
    [src/src/ast/pending.c], and of [src/src/llvm/llvm_emit.c] what a type's drop
    glue calls.

    The functions thread the registries, the pending bodies, the bodies made and
    the diagnostics.  A computation has [NoAnswer] when an [assert] fails, a null
    pointer is followed, or a pass it calls has no answer within its fuel; it is
    [OutOfTurns] when the loop over the instances has run as often as it was
    given turns for. *)

From S2P Require Import Ast Facts Lower LowerShape.
From S2P Require Import Prelude Types Mir Decl Diagnostics SlotState Borrowck HashMap Registry RegistryTypes RegistryState Functions Scopes Instantiate.

(** ** The pending bodies *)

Definition GAB_MAX_INSTANTIATIONS : nat := 256.

Record PendingBody := MkPendingBody {
  pending_root : NodePtr;
  pending_stmt : option ASTStmt;
  pending_fields : list ASTField;
  pending_function : nat;
}.

Record PendingBodies := MkPendingBodies {
  bodies : list PendingBody;
  wanted : list nat;
  instantiation_overflowed : bool;
}.

Definition pending_bodies_create : PendingBodies := MkPendingBodies [] [] false.

Definition overflow_message (name : string) : string := "'" +:+ name +:+ "' instantiates itself without end".

Section pending.
(** The text of an interned name. *)
Context (text_of : nat -> string).

(** [None] is a failed [assert], or a function without a name. *)
Definition pending_bodies_instantiate (w : World) (work : PendingBodies) (method : nat) (diagnostics : Diagnostics) :
    option (PendingBodies * Diagnostics) :=
  f ← reg_functions (world_functions w) !! method;
  if function_lowers_no_body f then Some (work, diagnostics)
  else if Nat.eqb (type_param_count (fn_decl f)) 0 || Nat.eqb (length (fn_type_args f)) 0 then Some (work, diagnostics)
  else if negb (type_args_are_concrete (world_types w) (fn_type_args f)) then None
  else if bool_decide (method ∈ wanted work) then Some (work, diagnostics)
  else if Nat.leb GAB_MAX_INSTANTIATIONS (length (wanted work)) then
    if instantiation_overflowed work then Some (work, diagnostics)
    else
      name ← id_name (func_id (fn_decl f));
      Some (MkPendingBodies (bodies work) (wanted work) true,
            diag_error diagnostics GAB_ERR_TYPE (MkSpan 0 0) (overflow_message (text_of name)))
  else Some (MkPendingBodies (bodies work) (wanted work ++ [method]) (instantiation_overflowed work), diagnostics).
End pending.

(** ** The bodies made *)

Record MIRModuleEntry := MkMIRModuleEntry {
  entry_function : nat;
  entry_id : InstanceId;
  entry_ir : MIRFunction;
}.

Definition MIRModule : Type := list MIRModuleEntry.

Definition mir_module_create : MIRModule := [].

Definition mir_module_add (fr : FunctionRegistry) (unit : MIRModule) (function : nat) (ir : MIRFunction) : MIRModule :=
  unit ++ [MkMIRModuleEntry function (instance_id_of_function (reg_functions fr !! function)) ir].

Definition mir_module_lookup_id (r : TypeRegistry) (unit : MIRModule) (id : InstanceId) : option MIRFunction :=
  if negb (decl_id_is_set (inst_decl id)) then None
  else entry_ir <$> find (fun entry => instance_id_equals (reg_types r) (entry_id entry) id) unit.

Definition mir_module_lookup (r : TypeRegistry) (fr : FunctionRegistry) (unit : MIRModule) (function : nat) : option MIRFunction :=
  mir_module_lookup_id r unit (instance_id_of_function (reg_functions fr !! function)).

(** Of [mir.c]. *)
Definition mir_function_is_template (fr : FunctionRegistry) (ir : MIRFunction) : bool :=
  match function_at fr (mir_function ir) with
  | Some f => Nat.ltb 0 (type_param_count (fn_decl f)) && Nat.eqb (length (fn_type_args f)) 0
  | None => false
  end.

(** ** The state of a build *)

Record Building := MkBuilding {
  bld_world : World;
  bld_work : PendingBodies;
  bld_made : MIRModule;
  bld_diagnostics : Diagnostics;
}.

Inductive Outcome (A : Type) :=
  | Built (s : Building) (a : A)
  | NoAnswer
  | OutOfTurns.
Arguments Built {A}.
Arguments NoAnswer {A}.
Arguments OutOfTurns {A}.

Definition Build (A : Type) : Type := Building -> Outcome A.

#[export] Instance Build_ret : MRet Build := fun A a s => Built s a.
#[export] Instance Build_bind : MBind Build := fun A B f m s =>
  match m s with Built s a => f a s | NoAnswer => NoAnswer | OutOfTurns => OutOfTurns end.

Definition seq_then {A} (m : Build unit) (k : Build A) : Build A := m ≫= fun _ => k.
Definition no_answer {A} : Build A := fun _ => NoAnswer.
Definition out_of_turns {A} : Build A := fun _ => OutOfTurns.
Definition state : Build Building := fun s => Built s s.
Definition demand {A} (o : option A) : Build A := fun s => match o with Some a => Built s a | None => NoAnswer end.

(** What only the registries are asked. *)
Definition in_world {A} (m : Inst A) : Build A := fun s =>
  match m (bld_world s) with
  | Some (w, a) => Built (MkBuilding w (bld_work s) (bld_made s) (bld_diagnostics s)) a
  | None => NoAnswer
  end.
Definition in_types {A} (f : TypeRegistry -> option (TypeRegistry * A)) : Build A :=
  in_world (fun w => '(r, a) ← f (world_types w); Some (MkWorld r (world_functions w), a)).

Section each.
Context {A : Type} (f : A -> Build unit).
Fixpoint each (l : list A) : Build unit :=
  match l with
  | [] => mret tt
  | a :: l => seq_then (f a) (each l)
  end.
End each.

(** ** [mir_build.c] *)

Section build.
Context (type_addr str_addr : nat -> N) (text_of : nat -> string).
(** The fuel of a question about a type, and of the walk over what a drop ends. *)
Context (type_fuel drop_fuel : nat).

Definition instantiate_needed (callee : FuncPtr) : Build unit := fun s =>
  match callee with
  | None => Built s tt
  | Some p =>
      match reg_functions (world_functions (bld_world s)) !! p with
      | None => NoAnswer
      | Some f =>
          if Nat.ltb 0 (length (fn_type_args f)) then
            match pending_bodies_instantiate text_of (bld_world s) (bld_work s) p (bld_diagnostics s) with
            | Some (work, diagnostics) => Built (MkBuilding (bld_world s) work (bld_made s) diagnostics) tt
            | None => NoAnswer
            end
          else Built s tt
      end
  end.

Definition owning_field (collect : TypePtr -> Build unit) (field : TypeField) : Build unit :=
  owns ← in_types (fun r => type_registry_owns type_addr str_addr type_fuel r (field_type field));
  if owns : bool then collect (field_type field) else mret tt.

Fixpoint collect_dropped_endings (fuel : nat) (type : TypePtr) : Build unit :=
  match fuel with
  | O => no_answer
  | S fuel =>
      match type with
      | None => mret tt
      | Some _ =>
          s ← state;
          ending ← in_world (owned_for type_addr str_addr type (destroy_method (names (world_types (bld_world s)))));
          seq_then (instantiate_needed ending)
            (s ← state;
             seq_then (collect_dropped_endings fuel (type_pointee (deref (world_types (bld_world s)) type)))
               (fields ← in_types (fun r => type_registry_fields_of type_addr str_addr r type);
                each (owning_field (collect_dropped_endings fuel)) fields))
      end
  end.

Definition collect_inst (inst : MIRInst) : Build unit :=
  if bool_decide (op inst = MIR_DROP) then collect_dropped_endings drop_fuel (inst_type inst)
  else if negb (bool_decide (op inst = MIR_CALL)) then mret tt
  else instantiate_needed (inst_callee inst).

Definition collect_called_instances (body : MIRFunction) : Build unit :=
  each (fun block => each collect_inst (insts block)) (blocks body).

(** What [mir_build_function] and [mir_borrowck] are given besides. *)
Context (node_addr : NodePtr -> N) (ident_addr : IdentPtr -> N) (facts : Facts) (symbols : list Symbol)
  (wide_shift : nat -> N) (lower_fuel borrow_fuel : nat) (imported : option MIRModule).

Definition lower_body (body : PendingBody) : Build MIRFunction := fun s =>
  match mir_build_function type_addr str_addr type_fuel node_addr ident_addr facts symbols (reg_functions (world_functions (bld_world s)))
          (pending_root body) (world_types (bld_world s)) (pending_function body) (pending_fields body) (pending_stmt body) lower_fuel with
  | Done lowered ir => Built (MkBuilding (MkWorld (lw_types lowered) (world_functions (bld_world s))) (bld_work s) (bld_made s) (bld_diagnostics s)) ir
  | _ => NoAnswer
  end.

Definition add_body (function : nat) (ir : MIRFunction) : Build unit := fun s =>
  Built (MkBuilding (bld_world s) (bld_work s) (mir_module_add (world_functions (bld_world s)) (bld_made s) function ir) (bld_diagnostics s)) tt.

Definition build_body (body : PendingBody) : Build MIRFunction :=
  ir ← lower_body body;
  seq_then (add_body (pending_function body) ir)
    (s ← state;
     seq_then (if mir_function_is_template (world_functions (bld_world s)) ir then mret tt else collect_called_instances ir)
       (mret ir)).

Fixpoint build_bodies (l : list PendingBody) : Build (list MIRFunction) :=
  match l with
  | [] => mret []
  | body :: l => ir ← build_body body; rest ← build_bodies l; mret (ir :: rest)
  end.

(** The generic an instance is made from: the module's, or an import's. *)
Definition generic_body (s : Building) (instance : Function) : option MIRFunction :=
  let generic := instance_id_of (func_id (fn_decl instance)) [] in
  match mir_module_lookup_id (world_types (bld_world s)) (bld_made s) generic with
  | Some from => Some from
  | None => imported ≫= fun unit => mir_module_lookup_id (world_types (bld_world s)) unit generic
  end.

Definition build_instance (instance : nat) : Build unit :=
  s ← state;
  f ← demand (reg_functions (world_functions (bld_world s)) !! instance);
  match generic_body s f with
  | None => mret tt
  | Some from =>
      match mir_module_lookup (world_types (bld_world s)) (world_functions (bld_world s)) (bld_made s) instance with
      | Some _ => mret tt
      | None =>
          body ← in_world (mir_instantiate type_addr str_addr (fn_type_args f) from (Some instance));
          seq_then (add_body instance body) (collect_called_instances body)
      end
  end.

(** The list grows while it is walked. *)
Fixpoint build_instances (turns i : nat) : Build unit :=
  s ← state;
  match wanted (bld_work s) !! i with
  | None => mret tt
  | Some instance =>
      match turns with
      | O => out_of_turns
      | S turns => seq_then (build_instance instance) (build_instances turns (S i))
      end
  end.

Definition check_body (report : bool) (lowered : MIRFunction * PendingBody) : Build unit := fun s =>
  let fr := world_functions (bld_world s) in
  let function := pending_function lowered.2 in
  match mir_borrowck (TV := registry_view type_addr str_addr type_fuel (world_types (bld_world s))) (map_seq 0 (reg_functions fr)) wide_shift
          borrow_fuel lowered.1 (bld_diagnostics s) (reg_functions fr !! function) report with
  | None => NoAnswer
  | Some (diagnostics, checked) =>
      let fr := match checked with
                | Some f => MkFunctionRegistry (<[function := f]> (reg_functions fr)) (instances fr) (owned fr)
                | None => fr
                end in
      Built (MkBuilding (MkWorld (world_types (bld_world s)) fr) (bld_work s) (bld_made s) diagnostics) tt
  end.

(** The bodies come back in the state; the result is that nothing was reported. *)
Definition mir_build (turns : nat) : Build bool := fun start =>
  let body :=
    (lowered ← build_bodies (bodies (bld_work start));
     seq_then (build_instances turns 0)
       (seq_then (each (check_body false) (zip lowered (bodies (bld_work start))))
          (seq_then (each (check_body true) (zip lowered (bodies (bld_work start))))
             (s ← state;
              mret (Nat.eqb (diagnostics_count (bld_diagnostics s)) (diagnostics_count (bld_diagnostics start)))))))
  in body (MkBuilding (bld_world start) (bld_work start) mir_module_create (bld_diagnostics start)).
End build.

(** ** What a build leaves *)

(** A function the list of instances is for. *)
Definition wants (f : Function) : Prop :=
  function_lowers_no_body f = false /\ type_param_count (fn_decl f) <> 0 /\ ~ fn_type_args f = [].

Definition wanted_ok (fr : FunctionRegistry) (work : PendingBodies) : Prop :=
  NoDup (wanted work) /\ length (wanted work) <= GAB_MAX_INSTANTIATIONS /\
  (instantiation_overflowed work = true -> length (wanted work) = GAB_MAX_INSTANTIATIONS) /\
  Forall (fun p => exists f, reg_functions fr !! p = Some f /\ wants f) (wanted work).

(** Among the diagnostics added is the overflow's. *)
Definition overflow_reported (d d' : Diagnostics) : Prop :=
  exists name pre post, diag_items d' = diag_items d ++ pre ++ MkDiagnostic GAB_ERR_TYPE (MkSpan 0 0) (overflow_message name) :: post.

(** The list of the wanted only grows, and its overflow is reported. *)
Record work_on (work work' : PendingBodies) (d d' : Diagnostics) : Prop := {
  on_wanted : wanted work `prefix_of` wanted work';
  on_bodies : bodies work' = bodies work;
  on_overflowed : instantiation_overflowed work = true -> instantiation_overflowed work' = true;
  on_diagnostics : diag_items d `prefix_of` diag_items d';
  on_reported : instantiation_overflowed work = false -> instantiation_overflowed work' = true -> overflow_reported d d';
}.

Record goes_on (s s' : Building) : Prop := {
  go_functions : functions_grow (world_functions (bld_world s)) (world_functions (bld_world s'));
  go_made : bld_made s `prefix_of` bld_made s';
  go_work : work_on (bld_work s) (bld_work s') (bld_diagnostics s) (bld_diagnostics s');
}.

Lemma work_on_refl work d : work_on work work d d.
Proof. split; try done. congruence. Qed.

Lemma work_on_trans w1 w2 w3 d1 d2 d3 : work_on w1 w2 d1 d2 -> work_on w2 w3 d2 d3 -> work_on w1 w3 d1 d3.
Proof.
  intros [W1 B1 O1 D1 R1] [W2 B2 O2 D2 R2]. split; [by etrans|congruence|by auto|by etrans|].
  intros Ho1 Ho3. destruct (instantiation_overflowed w2) eqn:Ho2.
  - destruct (R1 Ho1 eq_refl) as (name & pre & post & Hd). destruct D2 as [l Hl]. exists name, pre, (post ++ l).
    by rewrite Hl, Hd, <- !app_assoc.
  - destruct (R2 eq_refl Ho3) as (name & pre & post & Hd). destruct D1 as [l Hl]. exists name, (l ++ pre), post.
    by rewrite Hd, Hl, <- !app_assoc.
Qed.

#[export] Instance goes_on_preorder : PreOrder goes_on.
Proof.
  split; [intros s; split; [done|done|apply work_on_refl]|].
  intros s1 s2 s3 [F1 M1 W1] [F2 M2 W2]. split; [by etrans|by etrans|by eapply work_on_trans].
Qed.

Lemma core_wants f f' : function_core f' = function_core f -> wants f -> wants f'.
Proof. intros [= Hd _ Ha] (H1 & H2 & H3). unfold wants, function_lowers_no_body in *. by rewrite Hd, Ha. Qed.

Lemma wanted_ok_later fr fr' work : functions_grow fr fr' -> wanted_ok fr work -> wanted_ok fr' work.
Proof.
  intros Hg (H1 & H2 & H3 & H4). split; [done|]. split; [done|]. split; [done|]. eapply Forall_impl; [exact H4|].
  intros p (f & Hf & Hw). destruct (Hg p f Hf) as (f' & Hf' & Hc). exists f'. split; [done|by eapply core_wants].
Qed.

(** A function asked for is on the list after, unless it does not belong there or
    the list has overflowed. *)
Definition listed (fr : FunctionRegistry) (work : PendingBodies) (p : nat) : Prop :=
  exists f, reg_functions fr !! p = Some f /\ (wants f -> p ∈ wanted work \/ instantiation_overflowed work = true).

Lemma wanted_ok_snoc fr work p f : wanted_ok fr work -> reg_functions fr !! p = Some f -> wants f -> p ∉ wanted work ->
  length (wanted work) < GAB_MAX_INSTANTIATIONS ->
  wanted_ok fr (MkPendingBodies (bodies work) (wanted work ++ [p]) (instantiation_overflowed work)).
Proof.
  intros (H1 & H2 & H3 & H4) Hf Hw Hin Hroom. split; cbn [wanted instantiation_overflowed].
  - apply NoDup_app. split; [done|split; [|apply NoDup_singleton]]. by intros q Hq ->%list_elem_of_singleton.
  - rewrite length_app. cbn. split; [lia|]. split; [intros Ho; specialize (H3 Ho); lia|].
    apply Forall_app. split; [done|]. apply Forall_cons. split; [by exists f|done].
Qed.

Lemma pending_keeps text_of w work p d work' d' :
  pending_bodies_instantiate text_of w work p d = Some (work', d') -> wanted_ok (world_functions w) work ->
  wanted_ok (world_functions w) work' /\ work_on work work' d d' /\ listed (world_functions w) work' p.
Proof.
  intros H Hok. unfold pending_bodies_instantiate in H. apply bind_Some in H as (f & Hf & H).
  assert (Hsame : (wants f -> p ∈ wanted work \/ instantiation_overflowed work = true) -> Some (work, d) = Some (work', d') ->
    wanted_ok (world_functions w) work' /\ work_on work work' d d' /\ listed (world_functions w) work' p).
  { intros Hw [= <- <-]. split; [done|]. split; [apply work_on_refl|]. by exists f. }
  destruct (function_lowers_no_body f) eqn:Hl; [apply Hsame; [unfold wants; rewrite Hl; by intros [? _]|done]|].
  destruct (Nat.eqb (type_param_count (fn_decl f)) 0 || Nat.eqb (length (fn_type_args f)) 0) eqn:Hn.
  { apply Hsame; [|done]. intros (_ & H1 & H2). apply orb_true_iff in Hn as [Hn|Hn]; apply Nat.eqb_eq in Hn; [done|].
    by destruct (fn_type_args f). }
  destruct (negb (type_args_are_concrete _ _)); [done|]. case_bool_decide as Hin; [apply Hsame; [by left|done]|].
  apply orb_false_iff in Hn as [Hn1%Nat.eqb_neq Hn2%Nat.eqb_neq].
  assert (Hw : wants f) by (split; [done|split; [done|intros Heq; by rewrite Heq in Hn2]]).
  destruct (Nat.leb _ _) eqn:Hfull.
  - destruct (instantiation_overflowed work) eqn:Ho; [apply Hsame; [by right|done]|]. clear Hsame.
    apply bind_Some in H as (name & Hname & [= <- <-]). destruct Hok as (H1 & H2 & H3 & H4). apply Nat.leb_le in Hfull.
    split; [split; [done|]; split; [done|]; split; [cbn; lia|done]|]. split; [|exists f; split; [done|by right]].
    split; try done; [by eexists|]. intros _ _. by exists (text_of name), [], [].
  - clear Hsame. injection H as <- <-. apply Nat.leb_gt in Hfull. split; [by eapply wanted_ok_snoc|].
    split; [split; try done; [by eexists|cbn; congruence]|]. exists f. split; [done|]. intros _. left. apply elem_of_app. right. by left.
Qed.

(** *** The registries only grow *)

Definition only_grows {A} (m : Inst A) : Prop :=
  forall w w' a, m w = Some (w', a) -> functions_grow (world_functions w) (world_functions w').

Lemma only_grows_ret {A} (a : A) : only_grows (mret a).
Proof. by intros w w' a' [= <- <-]. Qed.

Lemma only_grows_bind {A B} (m : Inst A) (f : A -> Inst B) : only_grows m -> (forall a, only_grows (f a)) -> only_grows (m ≫= f).
Proof.
  intros Hm Hf w w' b H. unfold mbind, Inst_bind in H. destruct (m w) as [[w1 a]|] eqn:H1; [|done].
  etrans; [by eapply Hm|by eapply Hf].
Qed.

Lemma only_grows_lift {A} (o : option A) : only_grows (lift_option o).
Proof. intros w w' a H. unfold lift_option in H. by destruct o as [x|]; [injection H as <- _|]. Qed.

Lemma only_grows_stuck {A} : only_grows (Instantiate.stuck (A := A)).
Proof. done. Qed.

Lemma only_grows_map {A B} (f : A -> Inst B) l : (forall a, only_grows (f a)) -> only_grows (map_entries_m f l).
Proof.
  intros Hf. induction l as [|a l IH]; [apply only_grows_ret|]. cbn [map_entries_m].
  apply only_grows_bind; [apply Hf|]. intros b. apply only_grows_bind; [exact IH|]. intros bs. apply only_grows_ret.
Qed.

Create HintDb growing.
#[export] Hint Resolve only_grows_ret only_grows_lift only_grows_stuck : growing.

(** Follow a computation through its steps and its cases. *)
Ltac growing :=
  repeat first
    [ solve [auto with growing] | apply only_grows_bind; [|intros ?] | apply only_grows_map; intros ? | case_match ].

Section growing.
Context (type_addr str_addr : nat -> N).

Lemma types_only_grow {A} (f : TypeRegistry -> option (TypeRegistry * A)) :
  only_grows (fun w => '(r, a) ← f (world_types w); Some (MkWorld r (world_functions w), a)).
Proof. intros w w' a H. apply bind_Some in H as ([r b] & _ & [= <- _]). done. Qed.

Lemma instance_only_grows r fr decl l r' fr' p :
  function_registry_instance type_addr str_addr r fr decl l = Some (r', fr', p) -> functions_grow fr fr'.
Proof.
  unfold function_registry_instance. intros H. apply bind_Some in H as ([q|] & _ & H); [by injection H as _ <- _|].
  apply bind_Some in H as ([r1 s] & _ & H). apply bind_Some in H as ([m b] & _ & [= _ <- _]). apply functions_grow_snoc.
Qed.

Lemma instance_of_only_grows decl l : only_grows (instance_of type_addr str_addr decl l).
Proof. intros w w' p H. apply bind_Some in H as ([[r fr] q] & Hi & [= <- _]). by eapply instance_only_grows. Qed.

Lemma owned_for_only_grows type name : only_grows (owned_for type_addr str_addr type name).
Proof.
  intros w w' p H. apply bind_Some in H as ([[r fr] q] & Hi & [= <- _]). cbn [world_functions].
  unfold function_registry_owned_for in Hi. apply bind_Some in Hi as ([d|] & _ & Hi); [|by injection Hi as _ <- _].
  apply bind_Some in Hi as (f & _ & Hi). apply bind_Some in Hi as (t & _ & Hi).
  destruct (function_registry_owned_is_shared _ _ _); [by injection Hi as _ <- _|].
  destruct (Nat.ltb _ _); [by injection Hi as _ <- _|]. apply bind_Some in Hi as ([[r1 fr1] q1] & Hi & [= _ <- _]).
  by eapply instance_only_grows.
Qed.

Lemma subst_type_only_grows l type : only_grows (subst_type type_addr str_addr l type).
Proof. intros w w' q H. unfold subst_type in H. by apply bind_Some in H as ([r p] & _ & [= <- _]). Qed.

Lemma get_types_only_grows : only_grows get_types.
Proof. by intros w w' r [= <- _]. Qed.
Lemma get_functions_only_grows : only_grows get_functions.
Proof. by intros w w' r [= <- _]. Qed.

#[local] Hint Resolve instance_of_only_grows owned_for_only_grows subst_type_only_grows get_types_only_grows get_functions_only_grows : growing.

Lemma subst_constant_only_grows l c : only_grows (subst_constant type_addr str_addr l c).
Proof. unfold subst_constant. growing. Qed.

Lemma subst_callee_only_grows l callee : only_grows (subst_callee type_addr str_addr l callee).
Proof. unfold subst_callee, subst_arg. growing. Qed.

Lemma subst_place_only_grows l place : only_grows (subst_place type_addr str_addr l place).
Proof. unfold subst_place, subst_projection. growing. Qed.

#[local] Hint Resolve subst_constant_only_grows subst_callee_only_grows subst_place_only_grows : growing.

Lemma subst_inst_only_grows l inst : only_grows (subst_inst type_addr str_addr l inst).
Proof. unfold subst_inst, subst_payload, clone_args, clone_arg. growing. Qed.

Lemma expand_intrinsic_only_grows vs inst : only_grows (expand_intrinsic type_addr str_addr vs inst).
Proof. unfold expand_intrinsic. growing. Qed.

#[local] Hint Resolve subst_inst_only_grows expand_intrinsic_only_grows : growing.

Lemma mir_instantiate_only_grows l generic instance : only_grows (mir_instantiate type_addr str_addr l generic instance).
Proof. unfold mir_instantiate, instantiate_value, instantiate_block, instantiate_inst. growing. Qed.
End growing.

Lemma mir_instantiate_function type_addr str_addr l generic instance w w' out :
  mir_instantiate type_addr str_addr l generic instance w = Some (w', out) -> mir_function out = instance.
Proof.
  unfold mir_instantiate, mbind, Inst_bind. destruct (map_entries_m _ _ w) as [[w1 vs]|]; [|done].
  destruct (map_entries_m _ _ w1) as [[w2 bs]|]; [|done]. by intros [= _ <-].
Qed.

(** *** The calls of a body *)

Definition building_ok (s : Building) : Prop := wanted_ok (world_functions (bld_world s)) (bld_work s).

(** From a good state a computation comes to one, with [Q]; it may have no answer,
    but it does not run out of turns. *)
Definition proceeds {A} (m : Build A) (s : Building) (Q : Building -> A -> Prop) : Prop :=
  building_ok s ->
  match m s with
  | Built s' a => building_ok s' /\ goes_on s s' /\ Q s' a
  | NoAnswer => True
  | OutOfTurns => False
  end.

Lemma proceeds_ret {A} (a : A) s (Q : Building -> A -> Prop) : Q s a -> proceeds (mret a) s Q.
Proof. intros HQ Hs. split; [done|]. by split. Qed.

Lemma proceeds_bind {A B} (m : Build A) (f : A -> Build B) s (Q : Building -> A -> Prop) (R : Building -> B -> Prop) :
  proceeds m s Q -> (forall s' a, goes_on s s' -> Q s' a -> proceeds (f a) s' R) -> proceeds (m ≫= f) s R.
Proof.
  intros Hm Hf Hs. specialize (Hm Hs). unfold mbind, Build_bind. destruct (m s) as [s1 a| |]; [|done|done].
  destruct Hm as (Hs1 & Hg & HQ). specialize (Hf s1 a Hg HQ Hs1). destruct (f a s1) as [s2 b| |]; [|done|done].
  destruct Hf as (Hs2 & Hg2 & HR). split; [done|]. split; [by etrans|done].
Qed.

Lemma proceeds_then {A} (m : Build unit) (k : Build A) s (Q : Building -> unit -> Prop) (R : Building -> A -> Prop) :
  proceeds m s Q -> (forall s', goes_on s s' -> Q s' tt -> proceeds k s' R) -> proceeds (seq_then m k) s R.
Proof. intros Hm Hk. eapply proceeds_bind; [exact Hm|]. intros s' [] Hg HQ. by apply Hk. Qed.

Lemma proceeds_state {B} (f : Building -> Build B) s (R : Building -> B -> Prop) : proceeds (f s) s R -> proceeds (s ← state; f s) s R.
Proof. done. Qed.

Lemma proceeds_weaken {A} (m : Build A) s (Q R : Building -> A -> Prop) :
  proceeds m s Q -> (forall s' a, goes_on s s' -> Q s' a -> R s' a) -> proceeds m s R.
Proof.
  intros Hm HQR Hs. specialize (Hm Hs). destruct (m s) as [s' a| |]; [|done|done]. destruct Hm as (H1 & H2 & H3).
  split; [done|]. split; [done|by apply HQR].
Qed.

Lemma proceeds_in_world {A} (m : Inst A) s : only_grows m -> proceeds (in_world m) s (fun s' _ => bld_made s' = bld_made s).
Proof.
  intros Hm Hs. unfold in_world. destruct (m (bld_world s)) as [[w a]|] eqn:H; [|done]. specialize (Hm _ _ _ H).
  split; [by eapply wanted_ok_later|]. split; [|done]. split; [done|done|apply work_on_refl].
Qed.

Lemma proceeds_in_types {A} (f : TypeRegistry -> option (TypeRegistry * A)) s : proceeds (in_types f) s (fun s' _ => bld_made s' = bld_made s).
Proof. apply proceeds_in_world, types_only_grow. Qed.

Lemma proceeds_demand {A} (o : option A) s : proceeds (demand o) s (fun s' a => s' = s /\ o = Some a).
Proof. intros Hs. unfold demand. destruct o as [a|]; [|done]. by split. Qed.

Lemma proceeds_each {A} (f : A -> Build unit) (P : Building -> A -> Prop) l : forall s,
  (forall a s s', goes_on s s' -> P s a -> P s' a) ->
  (forall a s, proceeds (f a) s (fun s' _ => bld_made s' = bld_made s /\ P s' a)) ->
  proceeds (each f l) s (fun s' _ => bld_made s' = bld_made s /\ Forall (P s') l).
Proof.
  intros s HP Hf. revert s. induction l as [|a l IH]; intros s; [by apply proceeds_ret|]. cbn [each].
  eapply proceeds_then; [apply Hf|]. intros s1 H1 [Hm1 Ha]. eapply proceeds_weaken; [apply IH|].
  intros s2 _ H2 [Hm2 Hl]. cbn beta. split; [by rewrite Hm2|]. apply Forall_cons. split; [by eapply HP|done].
Qed.

Lemma proceeds_each_same {A X} (view : Building -> X) (f : A -> Build unit) l : forall s,
  (forall a s, proceeds (f a) s (fun s' _ => view s' = view s)) -> proceeds (each f l) s (fun s' _ => view s' = view s).
Proof.
  intros s Hf. revert s. induction l as [|a l IH]; intros s; [by apply proceeds_ret|]. cbn [each].
  eapply proceeds_then; [apply Hf|]. intros s1 _ H1. eapply proceeds_weaken; [apply IH|]. intros s2 ? _ H2. cbn beta. by rewrite H2.
Qed.

Lemma listed_later s s' p : goes_on s s' -> listed (world_functions (bld_world s)) (bld_work s) p ->
  listed (world_functions (bld_world s')) (bld_work s') p.
Proof.
  intros [Hg _ [[l Hw] _ Ho _ _]] (f & Hf & H). destruct (Hg p f Hf) as (f' & Hf' & Hc). exists f'. split; [done|].
  intros Hwants. destruct H as [Hin|Hov]; [by apply (core_wants f')|left|right; by apply Ho].
  rewrite Hw. apply elem_of_app. by left.
Qed.

Definition call_listed (s : Building) (inst : MIRInst) : Prop :=
  forall p, op inst = MIR_CALL -> inst_callee inst = Some p -> listed (world_functions (bld_world s)) (bld_work s) p.

(** Every function a body calls is on the list. *)
Definition served (s : Building) (body : MIRFunction) : Prop :=
  Forall (fun block => Forall (call_listed s) (insts block)) (blocks body).

Lemma call_listed_later s s' inst : goes_on s s' -> call_listed s inst -> call_listed s' inst.
Proof. intros Hg H p Ho Hc. eapply listed_later; [done|by apply H]. Qed.

Lemma served_later s s' body : goes_on s s' -> served s body -> served s' body.
Proof.
  intros Hg H. eapply Forall_impl; [exact H|]. intros b Hb. eapply Forall_impl; [exact Hb|].
  intros i. by apply call_listed_later.
Qed.

Section collect.
Context (type_addr str_addr : nat -> N) (text_of : nat -> string) (type_fuel drop_fuel : nat).

Lemma instantiate_needed_proceeds callee s :
  proceeds (instantiate_needed text_of callee) s (fun s' _ => bld_made s' = bld_made s /\
    forall p, callee = Some p -> listed (world_functions (bld_world s')) (bld_work s') p).
Proof.
  intros Hs. unfold instantiate_needed. destruct callee as [p|]; [|by split].
  destruct (reg_functions _ !! p) as [f|] eqn:Hf; [|done]. destruct (Nat.ltb _ _) eqn:Hargs.
  - destruct (pending_bodies_instantiate _ _ _ _ _) as [[work d]|] eqn:H; [|done].
    destruct (pending_keeps _ _ _ _ _ _ _ H Hs) as (H1 & H2 & H3). split; [done|]. split; [by split|]. split; [done|]. by intros q [= <-].
  - split; [done|]. split; [done|]. split; [done|]. intros q [= <-]. exists f. split; [done|].
    intros (_ & _ & Hne). by destruct (fn_type_args f).
Qed.

Lemma collect_dropped_endings_proceeds fuel : forall type s,
  proceeds (collect_dropped_endings type_addr str_addr text_of type_fuel fuel type) s (fun s' _ => bld_made s' = bld_made s).
Proof.
  induction fuel as [|fuel IH]; intros type s; [done|]. cbn [collect_dropped_endings]. destruct type as [p|]; [|by apply proceeds_ret].
  apply proceeds_state. eapply proceeds_bind; [apply proceeds_in_world, owned_for_only_grows|]. intros s1 ending _ H1.
  eapply proceeds_then; [apply instantiate_needed_proceeds|]. intros s2 _ [H2 _]. apply proceeds_state.
  eapply proceeds_then; [apply IH|]. intros s3 _ H3. eapply proceeds_bind; [apply proceeds_in_types|]. intros s4 fields _ H4.
  eapply proceeds_weaken; [apply (proceeds_each_same bld_made)|].
  2: { intros s5 ? _ H5. cbn beta. congruence. }
  intros field s5. eapply proceeds_bind; [apply proceeds_in_types|]. intros s6 owns _ H6.
  destruct owns; [|by apply proceeds_ret].
  eapply proceeds_weaken; [apply IH|]. intros s7 ? _ H7. cbn beta. congruence.
Qed.

Lemma collect_inst_proceeds inst s :
  proceeds (collect_inst type_addr str_addr text_of type_fuel drop_fuel inst) s (fun s' _ => bld_made s' = bld_made s /\ call_listed s' inst).
Proof.
  unfold collect_inst, call_listed. case_bool_decide as Hd.
  { eapply proceeds_weaken; [apply collect_dropped_endings_proceeds|]. intros s' ? _ Hm. split; [done|]. by rewrite Hd. }
  case_bool_decide as Hc; cbn [negb]; [|by apply proceeds_ret].
  eapply proceeds_weaken; [apply instantiate_needed_proceeds|]. intros s' ? _ [Hm H]. split; [done|]. by intros p _ Hp; apply H.
Qed.

Lemma collect_called_instances_proceeds body s :
  proceeds (collect_called_instances type_addr str_addr text_of type_fuel drop_fuel body) s
    (fun s' _ => bld_made s' = bld_made s /\ served s' body).
Proof.
  unfold collect_called_instances. apply (proceeds_each _ (fun s block => Forall (call_listed s) (insts block))).
  - intros b s1 s2 Hg Hb. eapply Forall_impl; [exact Hb|]. intros i. by apply call_listed_later.
  - intros b s1. apply (proceeds_each _ call_listed); [by intros a s2 s3; apply call_listed_later|]. intros i s2. apply collect_inst_proceeds.
Qed.
End collect.

(** *** The borrow checker leaves a function but its note *)

Lemma flow_turn_prefix `{TV : TypeView} funcs ir liveness rt ws a :
  diag_items (flow_diagnostics a.2) `prefix_of` diag_items (flow_diagnostics (flow_turn funcs ir liveness rt ws a).2.2).
Proof.
  unfold flow_turn. generalize false at 1. generalize (seq 0 (block_count ir)). intros l. revert a.
  induction l as [|i l IH]; intros [entries flow] changed; [done|]. cbn [foldl flow_step].
  destruct (entries !! i) as [e|]; [|exact (IH (entries, flow) changed)]. destruct (blocks ir !! i) as [b|]; [|exact (IH (entries, flow) changed)].
  destruct (unreachable e); [exact (IH (entries, flow) changed)|].
  set (next := flow_block _ _ _ _ _ _ _). destruct (foldl (merge_into _) _ _) as [c es].
  etrans; [|exact (IH (es, next) c)]. cbn [snd]. unfold next, flow_block.
  destruct (run_extends funcs ir liveness rt ws (insts b) (with_state flow (mir_state_copy e))) as (_ & _ & H & _). exact H.
Qed.

Lemma flow_report_prefix `{TV : TypeView} funcs ir liveness rt ws entries flow :
  diag_items (flow_diagnostics flow) `prefix_of` diag_items (flow_diagnostics (flow_report funcs ir liveness rt ws entries flow)).
Proof.
  unfold flow_report. generalize (zip entries (blocks ir)). intros l. revert flow.
  induction l as [|[e b] l IH]; intros flow; [done|]. cbn [foldl]. destruct (unreachable e); [apply IH|].
  etrans; [|apply IH]. destruct (run_extends funcs ir liveness rt ws (insts b) (with_state flow (mir_state_copy e))) as (_ & _ & H & _). exact H.
Qed.

Lemma mir_borrowck_keeps `{TV : TypeView} funcs ws fuel ir d function report d' function' :
  mir_borrowck funcs ws fuel ir d function report = Some (d', function') ->
  diag_items d `prefix_of` diag_items d' /\ function_core <$> function' = function_core <$> function.
Proof.
  unfold mir_borrowck. case_bool_decide; [by intros [= <- <-]|]. intros H1. apply bind_Some in H1 as (lv & _ & H1).
  apply bind_Some in H1 as ([entries flow] & Hw & H1). destruct (sources_ended _); [|done]. injection H1 as <- <-. split.
  - etrans; [|apply flow_report_prefix]. cbn [flow_diagnostics].
    destruct (while_changed_inv _ (fun a => diag_items d `prefix_of` diag_items (flow_diagnostics a.2)) _ _ _
      (fun a Ha => transitivity Ha (flow_turn_prefix _ _ _ _ _ a))
      (reflexivity _ : diag_items d `prefix_of` diag_items (flow_diagnostics (initial_entries ir, initial_flow d).2)) Hw)
      as ([entries0 flow0] & H0 & Hturn). cbn [snd] in H0.
    pose proof (flow_turn_prefix funcs ir lv (match function with Some f => return_type (fn_signature f) | None => None end) ws (entries0, flow0)) as Hp.
    rewrite Hturn in Hp. by etrans.
  - destruct report; cbn [negb]; [done|]. by destruct function.
Qed.

(** *** The bodies *)

Definition entry_served (s : Building) (entry : MIRModuleEntry) : Prop :=
  mir_function_is_template (world_functions (bld_world s)) (entry_ir entry) = false -> served s (entry_ir entry).

Definition all_served (s : Building) : Prop := Forall (entry_served s) (bld_made s).

Lemma template_later fr fr' ir : functions_grow fr fr' -> mir_function_is_template fr ir = true -> mir_function_is_template fr' ir = true.
Proof.
  intros Hg. unfold mir_function_is_template, function_at. destruct (mir_function ir) as [p|]; [|done]. cbn [mbind option_bind].
  destruct (reg_functions fr !! p) as [f|] eqn:Hf; [|done]. destruct (Hg p f Hf) as (f' & -> & [= -> _ ->]). done.
Qed.

Lemma entry_served_later s s' entry : goes_on s s' -> entry_served s entry -> entry_served s' entry.
Proof.
  intros Hg H Ht. apply (served_later s); [done|]. apply H. destruct (mir_function_is_template (world_functions (bld_world s)) (entry_ir entry)) eqn:Ht0; [|reflexivity].
  by rewrite (template_later _ _ _ (go_functions _ _ Hg) Ht0) in Ht.
Qed.

Lemma all_served_same s s' : goes_on s s' -> bld_made s' = bld_made s -> all_served s -> all_served s'.
Proof. intros Hg Hm H. unfold all_served. rewrite Hm. eapply Forall_impl; [exact H|]. intros e. by apply entry_served_later. Qed.

(** A body put in the module and its calls collected. *)
Lemma all_served_added s s' s'' entry : goes_on s s' -> goes_on s' s'' -> bld_made s' = bld_made s ++ [entry] -> bld_made s'' = bld_made s' ->
  entry_served s'' entry -> all_served s -> all_served s''.
Proof.
  intros H1 H2 Hm1 Hm2 He H. unfold all_served. rewrite Hm2, Hm1. apply Forall_app. split; [|by apply Forall_singleton].
  eapply Forall_impl; [exact H|]. intros e. apply entry_served_later. by etrans.
Qed.

Lemma add_body_proceeds function ir s :
  proceeds (add_body function ir) s (fun s' _ => world_functions (bld_world s') = world_functions (bld_world s) /\
    bld_made s' = bld_made s ++ [MkMIRModuleEntry function (instance_id_of_function (reg_functions (world_functions (bld_world s)) !! function)) ir]).
Proof. intros Hs. split; [done|]. split; [|done]. split; [done|by eexists|apply work_on_refl]. Qed.

(** ** The instances *)

(** The module has a body for the function, or the lookup took another's for it. *)
Definition has_body (s : Building) (p : nat) (f : Function) : Prop :=
  exists entry, entry ∈ bld_made s /\
    (entry_function entry = p \/
     exists r, instance_id_equals (reg_types r) (entry_id entry) (instance_id_of_function (Some f)) = true).

Section phases.
Context (type_addr str_addr : nat -> N) (text_of : nat -> string) (type_fuel drop_fuel : nat).
Context (node_addr : NodePtr -> N) (ident_addr : IdentPtr -> N) (facts : Facts) (symbols : list Symbol)
  (wide_shift : nat -> N) (lower_fuel borrow_fuel : nat) (imported : option MIRModule).

#[local] Abbreviation run_bodies :=
  (build_bodies type_addr str_addr text_of type_fuel drop_fuel node_addr ident_addr facts symbols lower_fuel).
#[local] Abbreviation run_instance := (build_instance type_addr str_addr text_of type_fuel drop_fuel imported).
#[local] Abbreviation run_instances := (build_instances type_addr str_addr text_of type_fuel drop_fuel imported).
#[local] Abbreviation generic_of := (generic_body imported).

Lemma build_body_proceeds body s : all_served s ->
  proceeds (build_body type_addr str_addr text_of type_fuel drop_fuel node_addr ident_addr facts symbols lower_fuel body) s
    (fun s' _ => all_served s').
Proof.
  intros Hall. unfold build_body. eapply (proceeds_bind _ _ _ (fun s' _ => bld_made s' = bld_made s)).
  { intros Hs. unfold lower_body. destruct (mir_build_function _ _ _ _ _ _ _ _ _ _ _ _ _) as [l ir| |]; [|done|done].
    split; [done|]. split; [|done]. split; [done|done|apply work_on_refl]. }
  intros s1 ir H1 Hm1. cbn beta in Hm1. assert (Hall1 : all_served s1) by by eapply all_served_same.
  eapply proceeds_then; [apply add_body_proceeds|]. intros s2 H2 [Hf2 Hm2]. apply proceeds_state.
  eapply (proceeds_then _ _ _ (fun s' _ => all_served s')); [|by intros s3 _ Hall3; apply proceeds_ret].
  destruct (mir_function_is_template _ ir) eqn:Ht.
  - apply proceeds_ret. apply (all_served_added s1 s2 s2 _ H2 (reflexivity s2) Hm2 eq_refl); [|done]. intros Ht2. cbn in Ht2. by rewrite Ht in Ht2.
  - eapply proceeds_weaken; [apply collect_called_instances_proceeds|]. intros s3 ? H3 [Hm3 Hserved]. cbn beta.
    by apply (all_served_added s1 s2 s3 _ H2 H3 Hm2 Hm3 (fun _ => Hserved)).
Qed.

Lemma build_bodies_proceeds l : forall s, all_served s -> proceeds (run_bodies l) s (fun s' _ => all_served s').
Proof.
  induction l as [|body l IH]; intros s Hall; [by apply proceeds_ret|]. cbn [build_bodies].
  eapply proceeds_bind; [by apply build_body_proceeds|]. intros s1 ir _ Hall1. cbn beta in Hall1.
  eapply proceeds_bind; [by apply IH|]. intros s2 rest _ Hall2. by apply proceeds_ret.
Qed.

(** What is put in the module from now on is no template's. *)
Definition adds_instances (s s' : Building) : Prop :=
  exists new, bld_made s' = bld_made s ++ new /\ Forall (fun e => inst_args (entry_id e) <> []) new.

#[local] Instance adds_instances_preorder : PreOrder adds_instances.
Proof.
  split; [by intros s; exists []; rewrite app_nil_r|]. intros s1 s2 s3 (n1 & H1 & F1) (n2 & H2 & F2).
  exists (n1 ++ n2). rewrite H2, H1, <- app_assoc. split; [done|]. by apply Forall_app.
Qed.

Lemma generic_equals types id d : instance_id_equals types id (instance_id_of d []) = decl_id_equals (inst_decl id) d && Nat.eqb (length (inst_args id)) 0.
Proof.
  unfold instance_id_equals, instance_id_of. cbn [inst_decl inst_args take length]. destruct (decl_id_equals _ _); [|done]. cbn.
  by destruct (inst_args id).
Qed.

Lemma lookup_generic r r' made new d : Forall (fun e => inst_args (entry_id e) <> []) new ->
  mir_module_lookup_id r (made ++ new) (instance_id_of d []) = mir_module_lookup_id r' made (instance_id_of d []).
Proof.
  intros Hnew. unfold mir_module_lookup_id. destruct (negb _); [done|]. f_equal.
  induction made as [|e made IH]; cbn [app find]; rewrite ?generic_equals.
  - induction Hnew as [|e new He _ IH]; [done|]. cbn [find]. rewrite generic_equals. destruct (inst_args (entry_id e)); [done|].
    by rewrite andb_false_r.
  - destruct (_ && _); [done|apply IH].
Qed.

Lemma generic_body_later s s' f f' : adds_instances s s' -> function_core f' = function_core f -> generic_of s' f' = generic_of s f.
Proof.
  intros (new & Hm & Hnew) [= Hd _ _]. unfold generic_body. rewrite Hm, Hd.
  rewrite (lookup_generic _ (world_types (bld_world s))) by done. destruct (mir_module_lookup_id _ _ _); [done|].
  destruct imported as [unit|]; [|done]. cbn [mbind option_bind].
  rewrite <- (app_nil_r unit) at 1. apply lookup_generic. constructor.
Qed.

Definition answered (s : Building) (p : nat) : Prop :=
  exists f, reg_functions (world_functions (bld_world s)) !! p = Some f /\ (is_Some (generic_of s f) -> has_body s p f).

Lemma answered_later s s' p : goes_on s s' -> adds_instances s s' -> answered s p -> answered s' p.
Proof.
  intros Hg Ha (f & Hf & H). destruct (go_functions _ _ Hg p f Hf) as (f' & Hf' & Hc). exists f'. split; [done|].
  rewrite (generic_body_later s s' f f') by done. intros Hgen. destruct (H Hgen) as (e & He & Hid). exists e.
  split; [destruct (go_made _ _ Hg) as [l ->]; apply elem_of_app; by left|]. injection Hc as Hd _ Hargs.
  unfold instance_id_of_function in *. by rewrite Hd, Hargs.
Qed.

Lemma instance_is_no_template fr ir p f : mir_function ir = Some p -> reg_functions fr !! p = Some f -> ~ fn_type_args f = [] ->
  mir_function_is_template fr ir = false.
Proof.
  intros Hp Hf Hargs. unfold mir_function_is_template, function_at. rewrite Hp. cbn. rewrite Hf.
  destruct (fn_type_args f); [done|]. apply andb_false_r.
Qed.

Lemma build_instance_proceeds p s : p ∈ wanted (bld_work s) -> all_served s ->
  proceeds (run_instance p) s (fun s' _ => all_served s' /\ adds_instances s s' /\ answered s' p).
Proof.
  intros Hp Hall Hs. revert Hs. pose proof (fun Hs : building_ok s => proj1 (Forall_forall _ _) (proj2 (proj2 (proj2 Hs))) p Hp) as Hw.
  intros Hs. destruct (Hw Hs) as (f & Hf & _ & _ & Hargs). clear Hw. revert Hs. fold (proceeds (run_instance p) s (fun s' _ => all_served s' /\ adds_instances s s' /\ answered s' p)).
  unfold build_instance. apply proceeds_state. eapply proceeds_bind; [apply proceeds_demand|].
  intros s0 f0 _ [-> Hf0]. rewrite Hf in Hf0. injection Hf0 as <-.
  destruct (generic_of s f) as [from|] eqn:Hgen.
  2: { apply proceeds_ret. split; [done|]. split; [done|]. exists f. split; [done|]. rewrite Hgen. by intros [? [=]]. }
  destruct (mir_module_lookup _ _ _ _) as [ir|] eqn:Hhave.
  { apply proceeds_ret. split; [done|]. split; [done|]. exists f. split; [done|]. intros _.
    unfold mir_module_lookup, mir_module_lookup_id in Hhave. destruct (negb _); [done|]. rewrite Hf in Hhave.
    destruct (find _ _) as [e|] eqn:He; [|done]. apply find_some in He as [Hin Heq]. exists e.
    split; [by apply list_elem_of_In|right]. by exists (world_types (bld_world s)). }
  eapply (proceeds_bind _ _ _ (fun s' body => bld_made s' = bld_made s /\ mir_function body = Some p)).
  { intros Hs. pose proof (proceeds_in_world (mir_instantiate type_addr str_addr (fn_type_args f) from (Some p)) s
      (mir_instantiate_only_grows _ _ _ _ _) Hs) as Hrun. unfold in_world in *.
    destruct (mir_instantiate _ _ _ _ _ _) as [[w body]|] eqn:Hi; [|done]. destruct Hrun as (R1 & R2 & R3). split; [done|]. split; [done|].
    split; [done|]. by eapply mir_instantiate_function. }
  intros s1 body H1 [Hm1 Hbody]. eapply proceeds_then; [apply add_body_proceeds|]. intros s2 H2 [Hf2 Hm2].
  eapply proceeds_weaken; [apply collect_called_instances_proceeds|]. intros s3 ? H3 [Hm3 Hserved]. cbn beta.
  destruct (go_functions _ _ H1 p f Hf) as (f1 & Hf1 & Hc1). injection Hc1 as Hd1 Hsig1 Ha1. rewrite Hf1 in Hm2.
  set (e := MkMIRModuleEntry _ _ _) in Hm2.
  assert (Hall1 : all_served s1) by by eapply all_served_same.
  split; [by apply (all_served_added s1 s2 s3 _ H2 H3 Hm2 Hm3 (fun _ => Hserved))|].
  assert (Hadds : adds_instances s s3).
  { exists [e]. rewrite Hm3, Hm2, Hm1. split; [done|]. apply Forall_cons. split; [|done]. unfold e. cbn [entry_id].
    unfold instance_id_of_function, instance_id_of. cbn [inst_args]. rewrite Ha1. by destruct (fn_type_args f). }
  split; [done|]. destruct (go_functions _ _ (transitivity H2 H3) p f1 Hf1) as (f3 & Hf3 & _). exists f3. split; [done|]. intros _.
  exists e. split; [|by left]. rewrite Hm3, Hm2. apply elem_of_app. right. by left.
Qed.

(** The list of the wanted and the number of turns left cover [GAB_MAX_INSTANTIATIONS]. *)
Lemma build_instances_proceeds turns : forall i s, GAB_MAX_INSTANTIATIONS <= turns + i -> all_served s ->
  Forall (answered s) (take i (wanted (bld_work s))) ->
  proceeds (run_instances turns i) s (fun s' _ => all_served s' /\ adds_instances s s' /\ Forall (answered s') (wanted (bld_work s'))).
Proof.
  induction turns as [|turns IH]; intros i s Hturns Hall Hdone Hs; cbn [build_instances];
    revert Hs; fold (building_ok s); intros Hs; (destruct (wanted (bld_work s) !! i) as [p|] eqn:Hp;
      [|revert Hs; apply proceeds_state; rewrite Hp; apply proceeds_ret; split; [done|]; split; [done|];
        rewrite take_ge in Hdone by (by apply lookup_ge_None in Hp); done]).
  { apply lookup_lt_Some in Hp. destruct Hs as (_ & Hlen & _). lia. }
  revert Hs. apply proceeds_state. rewrite Hp.
  eapply proceeds_then; [apply build_instance_proceeds; [by eapply list_elem_of_lookup_2|done]|].
  intros s1 H1 (Hall1 & Hadds1 & Hans1).
  assert (Hdone1 : Forall (answered s1) (take (S i) (wanted (bld_work s1)))).
  { destruct (on_wanted _ _ _ _ (go_work _ _ H1)) as [l ->]. rewrite take_app_le by (apply lookup_lt_Some in Hp; lia).
    rewrite (take_S_r _ _ p) by done. apply Forall_app. split; [|by apply Forall_cons].
    eapply Forall_impl; [exact Hdone|]. intros q. by apply answered_later. }
  eapply proceeds_weaken; [apply IH; [lia|done|done]|]. intros s2 ? H2 (Hall2 & Hadds2 & Hans2). split; [done|].
  split; [by etrans|done].
Qed.

Lemma check_body_proceeds report lowered s :
  proceeds (check_body type_addr str_addr type_fuel wide_shift borrow_fuel report lowered) s
    (fun s' _ => (bld_made s', bld_work s') = (bld_made s, bld_work s)).
Proof.
  intros Hs. unfold check_body. destruct (mir_borrowck _ _ _ _ _ _ _) as [[d checked]|] eqn:H; [|done].
  apply mir_borrowck_keeps in H as [Hd Hc].
  set (fr' := match checked with Some f => _ | None => _ end).
  assert (Hg : functions_grow (world_functions (bld_world s)) fr').
  { unfold fr'. destruct checked as [f'|]; [|done]. destruct (reg_functions _ !! pending_function lowered.2) as [f|] eqn:Hf; [|done].
    apply (inj Some) in Hc. intros q g Hq. cbn [reg_functions]. destruct (decide (q = pending_function lowered.2)) as [->|Hne].
    - exists f'. rewrite list_lookup_insert_eq by (by eapply lookup_lt_Some). split; [done|]. rewrite Hf in Hq. injection Hq as <-. exact Hc.
    - exists g. by rewrite list_lookup_insert_ne. }
  split; [by eapply wanted_ok_later|]. split; [|done]. split; [done|done|]. split; try done. cbn. congruence.
Qed.

Lemma check_bodies_proceed report l s :
  proceeds (each (check_body type_addr str_addr type_fuel wide_shift borrow_fuel report) l) s
    (fun s' _ => (bld_made s', bld_work s') = (bld_made s, bld_work s)).
Proof. apply (proceeds_each_same (fun s => (bld_made s, bld_work s))). intros a s1. apply check_body_proceeds. Qed.

Lemma same_made_adds s s' : bld_made s' = bld_made s -> adds_instances s s'.
Proof. intros Hm. exists []. by rewrite Hm, app_nil_r. Qed.

Lemma mir_build_proceeds turns s : GAB_MAX_INSTANTIATIONS <= turns -> building_ok s ->
  let from := MkBuilding (bld_world s) (bld_work s) mir_module_create (bld_diagnostics s) in
  match mir_build type_addr str_addr text_of type_fuel drop_fuel node_addr ident_addr facts symbols wide_shift lower_fuel borrow_fuel imported turns s with
  | Built s' accepted =>
      building_ok s' /\ goes_on from s' /\ all_served s' /\ Forall (answered s') (wanted (bld_work s')) /\
      accepted = Nat.eqb (diagnostics_count (bld_diagnostics s')) (diagnostics_count (bld_diagnostics s))
  | NoAnswer => True
  | OutOfTurns => False
  end.
Proof.
  intros Hturns Hs from. unfold mir_build. cbn zeta. fold from.
  apply (proceeds_bind _ _ from (fun s' _ => all_served s') (fun s' accepted => all_served s' /\ Forall (answered s') (wanted (bld_work s')) /\
    accepted = Nat.eqb (diagnostics_count (bld_diagnostics s')) (diagnostics_count (bld_diagnostics s)))); [apply build_bodies_proceeds; constructor| |done].
  intros s1 lowered _ Hall1. cbn beta in Hall1.
  eapply proceeds_then; [apply build_instances_proceeds; [lia|done|constructor]|]. intros s2 _ (Hall2 & _ & Hans2).
  eapply proceeds_then; [apply check_bodies_proceed|]. intros s3 H3 E3. cbn beta in E3.
  eapply proceeds_then; [apply check_bodies_proceed|]. intros s4 H4 E4. cbn beta in E4. apply proceeds_state, proceeds_ret.
  pose proof (transitivity H3 H4) as H24. rewrite E3 in E4. injection E4 as Hm Hw.
  split; [by apply (all_served_same s2)|]. split; [|done]. rewrite Hw. eapply Forall_impl; [exact Hans2|].
  intros p. apply answered_later; [done|by apply same_made_adds].
Qed.
End phases.

(** ** Sample programs *)

(** A call of a function without parameters, as what a function returns. *)
Definition return_call (name : nat) : ASTStmt := STMT_BLOCK (at_line 1) [STMT_RETURN (at_line 1) (EXPR_CALL (at_line 1) (use_name name) [])].

Definition note_calls (facts : Facts) (l : list (NodePtr * FuncPtr)) : Facts :=
  foldl (fun facts n => default facts (fact_set_callee sample_node_addr facts n.1 n.2)) facts l.

(** The functions made one after the other. *)
Fixpoint instances_made (w : World) (l : list (FuncDecl * list TypeArg)) : World :=
  match l with
  | [] => w
  | (decl, l') :: l =>
      match function_registry_instance sample_addr sample_addr (world_types w) (world_functions w) decl l' with
      | Some (r, fr, _) => instances_made (MkWorld r fr) l
      | None => w
      end
  end.

Definition plain_decl (name : nat) (param_count : nat) : FuncDecl :=
  MkFuncDecl (MkDeclId None None (Some name) 0) None LINKAGE_INTERNAL FUNC_MOD_NONE None
    (MkFuncSignature sample_i32_t []) param_count (replicate param_count BOUND_NONE).

#[local] Abbreviation build_sample facts start :=
  (mir_build sample_addr sample_addr (fun _ => "grow") 2 8 sample_node_addr sample_ident_addr facts [] sample_addr 12 8 None GAB_MAX_INSTANTIATIONS start).

Definition start_with (w : World) (l : list PendingBody) : Building :=
  MkBuilding w (MkPendingBodies l [] false) mir_module_create (diagnostics_init None).

(** [func grow<T>(): i32 { return grow<Holder<T>>(); }] with
    [func start(): i32 { return grow<i32>(); }]. *)
Definition grow_world : World := Eval vm_compute in
  instances_made (MkWorld sample_6 no_functions)
    [(plain_decl 90 1, []); (plain_decl 91 0, []); (plain_decl 90 1, [TYPE_ARG_TYPE (Some 10)]); (plain_decl 90 1, [TYPE_ARG_TYPE sample_i32_t])].
Definition grow_facts : Facts := Eval vm_compute in
  note_calls (note_types no_facts [([0; 0; 0], sample_i32_t); ([1; 0; 0], sample_i32_t)]) [([0; 0; 0], Some 2); ([1; 0; 0], Some 3)].
Definition grow_start : Building :=
  start_with grow_world [MkPendingBody [0] (Some (return_call 90)) [] 0; MkPendingBody [1] (Some (return_call 90)) [] 1].

(** [func zero<T>(): i32 { return 0; }] and [func start(): i32 { return zero<i32>(); }]. *)
Definition zero_world : World := Eval vm_compute in
  instances_made (MkWorld sample_6 no_functions) [(plain_decl 90 1, []); (plain_decl 91 0, []); (plain_decl 90 1, [TYPE_ARG_TYPE sample_i32_t])].
Definition zero_facts : Facts := Eval vm_compute in
  note_calls (note_types no_facts [([0; 0; 0], sample_i32_t); ([1; 0; 0], sample_i32_t)]) [([1; 0; 0], Some 2)].
Definition zero_start : Building :=
  start_with zero_world [MkPendingBody [0] (Some (STMT_BLOCK (at_line 1) [STMT_RETURN (at_line 1) (int_lit 0)])) [] 0;
                         MkPendingBody [1] (Some (return_call 90)) [] 1].

Lemma start_ok w l : building_ok (start_with w l).
Proof. split; [constructor|]. split; [cbn; lia|]. split; [done|constructor]. Qed.

(** ** More turns change nothing *)

Section turns.
Context (type_addr str_addr : nat -> N) (text_of : nat -> string) (type_fuel drop_fuel : nat) (imported : option MIRModule).

Lemma build_instances_turns more turns : forall i s,
  build_instances type_addr str_addr text_of type_fuel drop_fuel imported turns i s <> OutOfTurns ->
  build_instances type_addr str_addr text_of type_fuel drop_fuel imported (more + turns) i s =
  build_instances type_addr str_addr text_of type_fuel drop_fuel imported turns i s.
Proof.
  induction turns as [|turns IH]; intros i s H.
  - destruct more as [|more]; [done|]. cbn [build_instances Nat.add] in *. unfold mbind, Build_bind, state in *.
    destruct (wanted (bld_work s) !! i); done.
  - rewrite Nat.add_succ_r. cbn [build_instances] in *. unfold mbind, Build_bind, state, seq_then in *.
    destruct (wanted (bld_work s) !! i) as [p|]; [|done]. unfold mbind, Build_bind in *.
    destruct (build_instance _ _ _ _ _ _ p s) as [s1 []| |]; [|done|done]. by apply IH.
Qed.
End turns.

Lemma mir_build_turns type_addr str_addr text_of type_fuel drop_fuel node_addr ident_addr facts symbols wide_shift lower_fuel borrow_fuel
    imported more start : building_ok start ->
  mir_build type_addr str_addr text_of type_fuel drop_fuel node_addr ident_addr facts symbols wide_shift lower_fuel borrow_fuel imported
    (more + GAB_MAX_INSTANTIATIONS) start =
  mir_build type_addr str_addr text_of type_fuel drop_fuel node_addr ident_addr facts symbols wide_shift lower_fuel borrow_fuel imported
    GAB_MAX_INSTANTIATIONS start.
Proof.
  intros Hs. unfold mir_build, seq_then, mbind, Build_bind.
  set (from := MkBuilding _ _ mir_module_create _).
  pose proof (build_bodies_proceeds type_addr str_addr text_of type_fuel drop_fuel node_addr ident_addr facts symbols lower_fuel
    (bodies (bld_work start)) from (Forall_nil_2 _) Hs) as Hb.
  destruct (build_bodies _ _ _ _ _ _ _ _ _ _ _ from) as [s1 lowered| |]; [|done|done]. destruct Hb as (Hs1 & _ & Hall1).
  rewrite (build_instances_turns _ _ _ _ _ _ more); [done|]. intros Hout.
  pose proof (build_instances_proceeds type_addr str_addr text_of type_fuel drop_fuel imported GAB_MAX_INSTANTIATIONS 0 s1
    ltac:(lia) Hall1 (Forall_nil_2 _) Hs1) as Hi. by rewrite Hout in Hi.
Qed.

Lemma prefix_counted {A} `{EqDecision A} (l l' : list A) : l `prefix_of` l' -> Nat.eqb (length l') (length l) = bool_decide (l' = l).
Proof.
  intros [k ->]. rewrite length_app. case_bool_decide as Heq.
  - apply (f_equal length) in Heq. rewrite length_app in Heq. apply Nat.eqb_eq. lia.
  - apply Nat.eqb_neq. destruct k; [by rewrite app_nil_r in Heq|cbn; lia].
Qed.

(** ** Properties *)

(** C17: The walk over the instances of a module ends whatever its functions call.
    The list of the instances wanted grows while it is walked, but it holds no
    instance twice and never more than [GAB_MAX_INSTANTIATIONS]: as many turns walk
    it to its end, and more change nothing.  When there was an instance more the
    list is full, the error says so, and the module is refused.  This bounds the
    walk, from a state whose list is as the calls before left it and did not
    overflow.  It does not say that each turn has an answer: a question about a type,
    a lowering, a drop or a borrow check that has none ([NoAnswer]; generic structs
    that hold ever larger instances of one another) ends the build in the model and
    not in the code. *)
Theorem walk_of_instances_is_bounded (type_addr str_addr : nat -> N) (text_of : nat -> string) (type_fuel drop_fuel : nat)
    (node_addr : NodePtr -> N) (ident_addr : IdentPtr -> N) (facts : Facts) (symbols : list Symbol) (wide_shift : nat -> N)
    (lower_fuel borrow_fuel : nat) (imported : option MIRModule) (more : nat) (start : Building) :
  building_ok start -> instantiation_overflowed (bld_work start) = false ->
  let build := mir_build type_addr str_addr text_of type_fuel drop_fuel node_addr ident_addr facts symbols wide_shift lower_fuel borrow_fuel imported in
  build (more + GAB_MAX_INSTANTIATIONS) start = build GAB_MAX_INSTANTIATIONS start /\
  match build GAB_MAX_INSTANTIATIONS start with
  | Built s accepted =>
      NoDup (wanted (bld_work s)) /\ length (wanted (bld_work s)) <= GAB_MAX_INSTANTIATIONS /\
      wanted (bld_work start) `prefix_of` wanted (bld_work s) /\
      diag_items (bld_diagnostics start) `prefix_of` diag_items (bld_diagnostics s) /\
      accepted = bool_decide (diag_items (bld_diagnostics s) = diag_items (bld_diagnostics start)) /\
      (instantiation_overflowed (bld_work s) = true ->
        length (wanted (bld_work s)) = GAB_MAX_INSTANTIATIONS /\ overflow_reported (bld_diagnostics start) (bld_diagnostics s) /\ accepted = false)
  | NoAnswer => True
  | OutOfTurns => False
  end.
Proof.
  intros Hs Ho build. split; [by apply mir_build_turns|]. unfold build.
  pose proof (mir_build_proceeds type_addr str_addr text_of type_fuel drop_fuel node_addr ident_addr facts symbols wide_shift lower_fuel borrow_fuel
    imported GAB_MAX_INSTANTIATIONS start (le_n _) Hs) as H.
  destruct (mir_build _ _ _ _ _ _ _ _ _ _ _ _ _ _ start) as [s accepted| |]; [|done|done].
  destruct H as ((H1 & H2 & H3 & _) & [_ _ [G1 _ _ G2 G3]] & _ & _ & Ha). cbn [bld_work bld_diagnostics] in *.
  unfold diagnostics_count in Ha. rewrite (prefix_counted _ _ G2) in Ha. do 5 (split; [done|]).
  intros Hov. split; [by apply H3|]. specialize (G3 Ho Hov). split; [done|].
  rewrite Ha. apply bool_decide_eq_false. destruct G3 as (name & pre & post & ->). intros Heq. apply (f_equal length) in Heq.
  rewrite !length_app in Heq. cbn in Heq. lia.
Qed.

Lemma walk_of_instances_is_bounded_witness :
  exists s, build_sample grow_facts grow_start = Built s false /\
    length (wanted (bld_work s)) = GAB_MAX_INSTANTIATIONS /\ NoDup (wanted (bld_work s)) /\
    diag_items (bld_diagnostics s) = [MkDiagnostic GAB_ERR_TYPE (MkSpan 0 0) "'grow' instantiates itself without end"].
Proof.
  destruct (walk_of_instances_is_bounded sample_addr sample_addr (fun _ => "grow") 2 8 sample_node_addr sample_ident_addr grow_facts [] sample_addr
    12 8 None 0 grow_start (start_ok _ _) eq_refl) as [_ H].
  assert (Hrun : match build_sample grow_facts grow_start with
    | Built s accepted => (accepted, length (wanted (bld_work s)), diag_items (bld_diagnostics s))
    | _ => (true, 0, []) end =
    (false, GAB_MAX_INSTANTIATIONS, [MkDiagnostic GAB_ERR_TYPE (MkSpan 0 0) "'grow' instantiates itself without end"])).
  { vm_compute. reflexivity. }
  destruct (build_sample grow_facts grow_start) as [s accepted| |]; [|done|done].
  injection Hrun as -> H1 H2. exists s. split; [done|]. split; [done|]. split; [apply H|done].
Defined.

(** When the list of instances did not overflow, no call is left without a
    body: in every body of the module, the generic ones apart, the callee of each
    call is a function, and one that is an instance has a body in the module when
    its generic has one here or in the import, were it made for a call in the body
    of an instance that was itself made for a call. *)
Theorem every_instance_called_has_its_body (type_addr str_addr : nat -> N) (text_of : nat -> string) (type_fuel drop_fuel : nat)
    (node_addr : NodePtr -> N) (ident_addr : IdentPtr -> N) (facts : Facts) (symbols : list Symbol) (wide_shift : nat -> N)
    (lower_fuel borrow_fuel : nat) (imported : option MIRModule) (start s : Building) (accepted : bool) :
  building_ok start ->
  mir_build type_addr str_addr text_of type_fuel drop_fuel node_addr ident_addr facts symbols wide_shift lower_fuel borrow_fuel imported
    GAB_MAX_INSTANTIATIONS start = Built s accepted ->
  instantiation_overflowed (bld_work s) = false ->
  forall entry block inst p, entry ∈ bld_made s -> mir_function_is_template (world_functions (bld_world s)) (entry_ir entry) = false ->
    block ∈ blocks (entry_ir entry) -> inst ∈ insts block -> op inst = MIR_CALL -> inst_callee inst = Some p ->
    exists f, reg_functions (world_functions (bld_world s)) !! p = Some f /\
      (wants f -> is_Some (generic_body imported s f) -> has_body s p f).
Proof.
  intros Hs Hbuilt Ho entry block inst p Hentry Ht Hblock Hinst Hop Hp.
  pose proof (mir_build_proceeds type_addr str_addr text_of type_fuel drop_fuel node_addr ident_addr facts symbols wide_shift lower_fuel borrow_fuel
    imported GAB_MAX_INSTANTIATIONS start (le_n _) Hs) as H. cbn zeta in H. rewrite Hbuilt in H.
  destruct H as (_ & _ & Hall & Hans & _). unfold all_served in Hall. rewrite Forall_forall in Hall.
  specialize (Hall entry Hentry Ht). unfold served in Hall. rewrite Forall_forall in Hall. specialize (Hall block Hblock). cbn beta in Hall.
  rewrite Forall_forall in Hall. destruct (Hall inst Hinst p Hop Hp) as (f & Hf & Hlisted). exists f. split; [done|]. intros Hw Hgen.
  destruct (Hlisted Hw) as [Hin|Hov]; [|congruence]. rewrite Forall_forall in Hans. destruct (Hans p Hin) as (f' & Hf' & Hbody).
  rewrite Hf in Hf'. injection Hf' as <-. by apply Hbody.
Qed.

Lemma every_instance_called_has_its_body_witness :
  exists s, build_sample zero_facts zero_start = Built s true /\ wanted (bld_work s) = [2] /\
    entry_function <$> bld_made s = [0; 1; 2] /\
    exists f, reg_functions (world_functions (bld_world s)) !! 2 = Some f /\ wants f /\ is_Some (generic_body None s f) /\ has_body s 2 f.
Proof.
  pose proof (fun s accepted => every_instance_called_has_its_body sample_addr sample_addr (fun _ => "grow") 2 8 sample_node_addr sample_ident_addr
    zero_facts [] sample_addr 12 8 None zero_start s accepted (start_ok _ _)) as H.
  eexists. split; [vm_compute; reflexivity|]. split; [reflexivity|]. split; [reflexivity|].
  edestruct H as (f & Hf & Hbody); [vm_compute; reflexivity|reflexivity|..].
  - apply list_elem_of_In. right. left. reflexivity.
  - reflexivity.
  - apply list_elem_of_In. left. reflexivity.
  - apply list_elem_of_In. left. reflexivity.
  - reflexivity.
  - reflexivity.
  - exists f. split; [exact Hf|]. injection Hf as <-.
    assert (Hw : wants (default (sample_function None []) (reg_functions (world_functions zero_world) !! 2))).
    { split; [reflexivity|]. split; discriminate. }
    split; [exact Hw|]. split; [eexists; reflexivity|]. apply Hbody; [exact Hw|eexists; reflexivity].
Defined.
