(* ===== verification/Glue.v ===== *)
(** * Glue: what ending a value calls

    Of [src/src/llvm/llvm_emit.c] the drop glue: the function the code generator
    makes for a type whose values are dropped.  Which calls it makes, and in which
    order, is modelled; the addresses they are given are not. *)

From S2P Require Import Ast Facts Lower LowerShape.
From S2P Require Import Prelude Types Mir Decl Diagnostics HashMap Registry RegistryTypes RegistryState Functions Scopes Instantiate Build.

Definition GAB_MAX_STRUCT_FIELDS : nat := 64.

(** The glue of another type, called on what the value points to, on an element
    or on a field; or a [destroy] of the type's own. *)
Inductive GlueCall :=
  | GLUE_OF_POINTEE (type : TypePtr)
  | GLUE_OF_ELEMENT (type : TypePtr) (index : nat)
  | GLUE_OF_FIELD (type : TypePtr) (index : nat)
  | CALL_DESTROY (function : nat).

#[export] Instance GlueCall_eq_dec : EqDecision GlueCall.
Proof. solve_decision. Defined.

Section glue.
Context (type_addr str_addr : nat -> N) (type_fuel : nat).

Definition ask_registry {A} (f : TypeRegistry -> option (TypeRegistry * A)) : Inst A := fun w =>
  '(r, a) ← f (world_types w); Some (MkWorld r (world_functions w), a).

Definition owns (type : TypePtr) : Inst bool := ask_registry (fun r => type_registry_owns type_addr str_addr type_fuel r type).

(** The ending drop elaboration noted in the body, or else what the type owns
    under the name. *)
Definition noted_ending (ir : MIRFunction) (type : TypePtr) : FuncPtr :=
  match find (fun inst => bool_decide (op inst = MIR_DROP) && bool_decide (inst_type inst = type) && bool_decide (ending inst <> None))
          (concat (insts <$> blocks ir)) with
  | Some inst => ending inst
  | None => None
  end.

Definition ending_of (ir : MIRFunction) (type : TypePtr) : Inst FuncPtr :=
  match noted_ending ir type with
  | Some function => mret (Some function)
  | None => r ← get_types; owned_for type_addr str_addr type (destroy_method (names r))
  end.

(** The [i]th field on. *)
Fixpoint glue_of_fields (i : nat) (fields : list TypeField) : Inst (list GlueCall) :=
  match fields with
  | [] => mret []
  | field :: fields =>
      if Nat.leb GAB_MAX_STRUCT_FIELDS i then mret []
      else
        owned ← owns (field_type field);
        rest ← glue_of_fields (S i) fields;
        mret (if owned : bool then GLUE_OF_FIELD (field_type field) i :: rest else rest)
  end.

Definition glue_of_unique (type : TypePtr) : Inst (list GlueCall) :=
  r ← get_types;
  pointee ← lift_option (type_registry_unique_pointee r type);
  match pointee with
  | None => mret []
  | Some _ => owned ← owns pointee; mret (if owned : bool then [GLUE_OF_POINTEE pointee] else [])
  end.

Definition glue_of_array (t : TypeData) : Inst (list GlueCall) :=
  element ← lift_option (type_array_element (Some t));
  owned ← owns element;
  if negb owned then mret []
  else
    length ← lift_option (type_array_length (Some t));
    mret (GLUE_OF_ELEMENT element <$> seq 0 (Z.to_nat length)).

Definition emit_drop_body (ir : MIRFunction) (type : TypePtr) : Inst (list GlueCall) :=
  r ← get_types;
  t ← lift_option (deref r type);
  unique ← glue_of_unique type;
  rest ← (match ty_kind t with
          | TYPE_ARRAY => glue_of_array t
          | TYPE_STRUCT =>
              destroy ← ending_of ir type;
              fields ← ask_registry (fun r => type_registry_fields_of type_addr str_addr r type);
              calls ← glue_of_fields 0 fields;
              mret (match destroy with Some function => CALL_DESTROY function :: calls | None => calls end)
          | _ => mret []
          end);
  mret (unique ++ rest).
End glue.

(** ** A value in an array *)

(** [struct Holder<T> { value: T }] with a [destroy] of its own, [Holder<i32>] and
    [array<Holder<i32>, 2>]. *)
Definition held_0 : TypeRegistry := Eval vm_compute in
  match type_registry_declare_conformance sample_addr sample_addr sample_6 (Some 10) (destroy_interface (names sample_6)) [] with
  | Some (r, _) => r
  | None => no_registry
  end.
Definition held_1 : TypeRegistry := Eval vm_compute in
  state_after (type_registry_instantiate sample_addr sample_addr held_0 (Some 10) [TYPE_ARG_TYPE sample_i32_t]).
Definition held_2 : TypeRegistry := Eval vm_compute in state_after (type_registry_array_of sample_addr sample_addr held_1 (Some 12) 2).
Definition holder_of_i32 : TypePtr := Some 12.
Definition array_of_holders : TypePtr := Some 13.

Definition ends_decl : FuncDecl :=
  MkFuncDecl (MkDeclId None (Some 30) (Some 14) 0) None LINKAGE_INTERNAL FUNC_MOD_NONE None
    (MkFuncSignature None [ref_to_holder_of_first]) 1 [BOUND_NONE].
Definition held_world : World := Eval vm_compute in
  let w := instances_made (MkWorld held_2 no_functions) [(ends_decl, []); (plain_decl 91 0, [])] in
  match function_registry_declare_owned sample_addr (world_types w) (world_functions w) (Some 10) (Some 0) with
  | Some (fr, _) => MkWorld (world_types w) fr
  | None => w
  end.

(** [func destroy(self: &Holder<T>) { }] and
    [func start(): i32 { let held: array<Holder<i32>, 2>; return 0; }]. *)
Definition held_start : Building :=
  start_with held_world
    [ MkPendingBody [0] (Some (STMT_BLOCK (at_line 1) [])) [MkASTField (name_of 51) i32_expr] 0;
      MkPendingBody [1] (Some (STMT_BLOCK (at_line 1)
        [STMT_VAR_DECL (at_line 1) (name_of 50) (Some i32_expr) None; STMT_RETURN (at_line 1) (int_lit 0)])) [] 1 ].
Definition held_facts : Facts := Eval vm_compute in
  note_defs (note_types no_facts [([1; 1; 0], sample_i32_t)]) [(LOCAL_NAME [1; 0], Some 0); (PARAM_NAME [0] 0, Some 1)].

(** The module built with [held] of a type. *)
#[local] Abbreviation held_build type :=
  (mir_build sample_addr sample_addr (fun _ => "destroy") 3 8 sample_node_addr sample_ident_addr held_facts
    [MkSymbol (SYMBOL_VAR type) false; MkSymbol (SYMBOL_VAR ref_to_holder_of_first) false] sample_addr 12 8 None GAB_MAX_INSTANTIATIONS held_start).

(** ** Property *)

(** What an array's elements end with is not collected.  For a dropped array
    the walk over what ends looks at what the array itself owns and points to and
    at its fields, of which it has none; the drop glue of the array calls the glue
    of its element for each of them, and that calls the element's [destroy].  When
    that is an instance nothing else has asked for, the module is accepted and the
    glue calls a function without a body. *)
Theorem dropped_elements_are_not_collected (type_addr str_addr : nat -> N) (text_of : nat -> string) (type_fuel fuel : nat) (s : Building)
    (ir : MIRFunction) (p : nat) (t : TypeData) (element : TypePtr) (length : Constant) (r' : TypeRegistry) :
  let r := world_types (bld_world s) in
  let type := Some p in
  deref r type = Some t -> ty_kind t = TYPE_ARRAY -> ty_args t = [TYPE_ARG_TYPE element; TYPE_ARG_CONST (CONST_VALUE length)] ->
  function_registry_find_owned str_addr r (world_functions (bld_world s)) type (destroy_method (names r)) = Some None ->
  type_registry_is_unique r type = Some false -> type_registry_owns type_addr str_addr type_fuel r element = Some (r', true) ->
  collect_dropped_endings type_addr str_addr text_of type_fuel (S (S fuel)) type s = Built s tt /\
  emit_drop_body type_addr str_addr type_fuel ir type (bld_world s) =
    Some (MkWorld r' (world_functions (bld_world s)), GLUE_OF_ELEMENT element <$> seq 0 (Z.to_nat (to_i32 (const_int length)))).
Proof.
  intros r type Hd Hk Hargs Hfind Hunique Howns. destruct s as [[r0 fr] work made d]. cbn [bld_world world_types world_functions] in *.
  subst r type. assert (Hpointee : type_pointee (Some t) = None) by (unfold type_pointee; by rewrite Hk).
  split.
  - unfold deref in Hd. cbn [mbind option_bind] in Hd.
    cbn [collect_dropped_endings]. unfold mbind, Build_bind, state, seq_then, in_world, owned_for, function_registry_owned_for.
    cbn [bld_world world_types world_functions]. rewrite Hfind. cbn. unfold mbind, Build_bind. cbn.
    unfold deref. cbn [mbind option_bind]. rewrite Hd. rewrite Hpointee. cbn.
    unfold in_types, in_world, type_registry_fields_of. cbn. rewrite Hd. cbn. rewrite Hk. reflexivity.
  - unfold emit_drop_body, get_types, mbind, Inst_bind, lift_option. cbn [world_types world_functions]. rewrite Hd. cbn [fmap option_fmap option_map].
    unfold glue_of_unique, get_types, mbind, Inst_bind, lift_option, type_registry_unique_pointee. cbn [world_types]. rewrite Hunique. cbn.
    rewrite Hk. unfold glue_of_array, mbind, Inst_bind, lift_option, owns, type_array_element, type_array_length. rewrite Hk, Hargs. cbn.
    rewrite Howns. reflexivity.
Qed.

Lemma dropped_elements_are_not_collected_witness :
  exists s, held_build array_of_holders = Built s true /\ wanted (bld_work s) = [] /\
    (exists w, emit_drop_body sample_addr sample_addr 3 (mir_function_create None) array_of_holders (bld_world s) =
      Some (w, [GLUE_OF_ELEMENT holder_of_i32 0; GLUE_OF_ELEMENT holder_of_i32 1])) /\
    (exists w p f, emit_drop_body sample_addr sample_addr 3 (mir_function_create None) holder_of_i32 (bld_world s) = Some (w, [CALL_DESTROY p]) /\
      reg_functions (world_functions w) !! p = Some f /\ wants f /\
      mir_module_lookup (world_types w) (world_functions w) (bld_made s) p = None) /\
    (exists s', held_build holder_of_i32 = Built s' true /\ entry_function <$> bld_made s' = [0; 1; 2]).
Proof.
  eexists. split; [vm_compute; reflexivity|]. split; [reflexivity|]. split; [|split].
  - eexists. etrans.
    + refine (proj2 (dropped_elements_are_not_collected sample_addr sample_addr (fun _ => "destroy") 3 0 _ _ 13 _ _ _ _ _ _ _ _ _ _)); reflexivity.
    + reflexivity.
  - eexists _, _, _. split; [vm_compute; reflexivity|]. split; [reflexivity|]. split; [|reflexivity].
    split; [reflexivity|]. split; discriminate.
  - eexists. split; [vm_compute; reflexivity|]. reflexivity.
Defined.
