(* ===== verification/Symbols.v ===== *)
(** * Symbols: the names of functions and of drop glue in an object

    [src/src/llvm/llvm_symbol.c].  A symbol spells the module, the owner and the
    name of a function and the types it is made for.  The code generator asks
    LLVM for the function of that name, so functions that share a symbol share a
    body.  A [SymbolBuffer] is the bytes written so far. *)

From Stdlib Require Import String Ascii.
From stdpp Require Import pretty.
From S2P Require Import Prelude Types Decl Diagnostics HashMap Registry RegistryTypes RegistryState Functions.

Abbreviation bytes := list_ascii_of_string.

Definition symbol_append (buffer text : list ascii) : list ascii := buffer ++ text.

(** The number that [%d] and [PRId64] print. *)
Definition symbol_number (value : Z) : list ascii := bytes (print_int value).

Section symbols.
Context (r : TypeRegistry) (text : nat -> list ascii).

(** The bytes of a name; null is the question mark. *)
Definition symbol_name (name : StrPtr) : list ascii := match name with Some name => text name | None => bytes "?" end.

Section append.
Context (append_type : list ascii -> TypePtr -> option (list ascii)).

(** One turn of the loops over type arguments.  A constant that is still a
    parameter has no value to read. *)
Definition append_arg (buffer : list ascii) (arg : TypeArg) : option (list ascii) :=
  let buffer := symbol_append buffer (bytes "$") in
  match arg with
  | TYPE_ARG_TYPE type => append_type buffer type
  | TYPE_ARG_CONST (CONST_VALUE value) => Some (symbol_append buffer (symbol_number (const_int value)))
  | TYPE_ARG_CONST (CONST_PARAM _) => None
  end.

Fixpoint append_args (buffer : list ascii) (args : list TypeArg) : option (list ascii) :=
  match args with
  | [] => Some buffer
  | arg :: args => buffer ← append_arg buffer arg; append_args buffer args
  end.

Definition append_type_of (buffer : list ascii) (type : TypePtr) : option (list ascii) :=
  match type with
  | None => Some (symbol_append buffer (bytes "?"))
  | Some _ =>
      t ← deref r type;
      match type_kind t with
      | TYPE_REF => append_type (symbol_append buffer (bytes "ref.")) (type_pointee (Some t))
      | TYPE_RAW => append_type (symbol_append buffer (bytes "raw.")) (type_pointee (Some t))
      | TYPE_SLICE => element ← type_slice_element (Some t); append_type (symbol_append buffer (bytes "slice.")) element
      | TYPE_ARRAY =>
          length ← type_array_length (Some t);
          element ← type_array_element (Some t);
          append_type (symbol_append buffer (bytes "array" ++ symbol_number length ++ bytes ".")) element
      | _ => append_args (symbol_append buffer (symbol_name (type_name_of t))) (type_args t)
      end
  end.
End append.

Fixpoint append_type (fuel : nat) (buffer : list ascii) (type : TypePtr) : option (list ascii) :=
  match fuel with O => None | S fuel => append_type_of (append_type fuel) buffer type end.

(** Types point to older types. *)
Definition symbol_fuel : nat := S (S (length (reg_types r))).

Definition append_type_args (buffer : list ascii) (function : Function) : option (list ascii) :=
  append_args (append_type symbol_fuel) buffer (fn_type_args function).

Definition llvm_type_symbol (type : TypePtr) : option (list ascii) := append_type symbol_fuel [] type.

Definition llvm_symbol_of (function : Function) : option (list ascii) :=
  let id := func_id (fn_decl function) in
  name ← id_name id;
  if bool_decide (linkage (fn_decl function) = LINKAGE_C) then Some (text name)
  else
    let buffer := match id_module id with Some module => symbol_append (symbol_append [] (text module)) (bytes ".") | None => [] end in
    match id_owner id with
    | Some owner =>
        buffer ← append_type_args (symbol_append buffer (text owner)) function;
        Some (symbol_append (symbol_append buffer (bytes ".")) (text name))
    | None => append_type_args (symbol_append buffer (text name)) function
    end.

(** [drop_glue_of] of [llvm_emit.c]: the name of the glue, in an array of 256. *)
Definition drop_glue_name (type : TypePtr) : option (list ascii) :=
  symbol ← llvm_type_symbol type; Some (take 255 (bytes "drop." ++ symbol)).
End symbols.

(** ** What a symbol tells *)

(** *** Words *)

(** A character of a name. *)
Definition is_letter (a : ascii) : bool := negb (bool_decide (a = "$"%char)) && negb (bool_decide (a = "."%char)).
Definition is_figure (a : ascii) : bool := existsb (fun b => bool_decide (a = b)) (bytes "0123456789-").

(** The bytes of a name: some, no separators, and it begins with no figure. *)
Definition is_word (word : list ascii) : bool :=
  forallb is_letter word && match word with a :: _ => negb (is_figure a) | [] => false end.

(** What may follow a type: nothing, or the next argument. *)
Definition ends (rest : list ascii) : bool := match rest with [] => true | a :: _ => bool_decide (a = "$"%char) end.
Definition breaks (rest : list ascii) : bool := match rest with [] => true | a :: _ => negb (is_letter a) end.

Lemma ends_breaks rest : ends rest = true -> breaks rest = true.
Proof. destruct rest as [|a rest]; [done|]. cbn. rewrite bool_decide_eq_true. by intros ->. Qed.

Lemma word_split w : forall w' c c', forallb is_letter w = true -> forallb is_letter w' = true -> breaks c = true -> breaks c' = true ->
  w ++ c = w' ++ c' -> w = w' /\ c = c'.
Proof.
  induction w as [|a w IH]; intros [|b w'] c c' Hw Hw' Hc Hc' Heq; cbn in *; [done| | |].
  - subst c. cbn in Hc. apply andb_true_iff in Hw' as [Hb _]. by rewrite Hb in Hc.
  - subst c'. cbn in Hc'. apply andb_true_iff in Hw as [Ha _]. by rewrite Ha in Hc'.
  - apply andb_true_iff in Hw as [_ Hw]. apply andb_true_iff in Hw' as [_ Hw']. injection Heq as -> Heq.
    by destruct (IH w' c c') as [-> ->].
Qed.

(** *** Numbers *)

Lemma list_ascii_inj s s' : bytes s = bytes s' -> s = s'.
Proof. intros H. rewrite <- (string_of_list_ascii_of_string s), H. apply string_of_list_ascii_of_string. Qed.

Lemma number_inj z z' : symbol_number z = symbol_number z' -> z = z'.
Proof. intros H%list_ascii_inj. by apply (inj pretty) in H. Qed.

Lemma figures_go x s : forallb is_figure (bytes s) = true -> forallb is_figure (bytes (pretty_N_go x s)) = true.
Proof.
  revert s. induction (N.lt_wf_0 x) as [x _ IH]; intros s Hs. destruct (decide (x = 0)%N) as [->|Hx]; [done|].
  rewrite pretty_N_go_step by lia. apply IH; [apply N.div_lt; lia|]. cbn [bytes forallb]. rewrite Hs, andb_true_r.
  unfold pretty_N_char. by repeat case_match.
Qed.

Lemma figures_N x : forallb is_figure (bytes (pretty (x : N))) = true.
Proof. unfold pretty, pretty_N. case_decide; [done|]. by apply figures_go. Qed.

Lemma figures_number z : forallb is_figure (symbol_number z) = true.
Proof. unfold symbol_number, print_int. destruct z as [|p|p]; [done|apply figures_N|]. apply (figures_N (N.pos p)). Qed.

Lemma number_not_empty z : symbol_number z <> [].
Proof.
  intros H. assert (Hz : forall x, bytes (pretty (x : N)) <> []).
  { intros x Hx. assert (Hl : forall y s, String.length s <= String.length (pretty_N_go y s)).
    { intros y. induction (N.lt_wf_0 y) as [y _ IH]; intros s. destruct (decide (y = 0)%N) as [->|Hy]; [done|].
      rewrite pretty_N_go_step by lia. etrans; [|apply IH, N.div_lt; lia]. cbn. lia. }
    unfold pretty, pretty_N in Hx. case_decide as H0; [done|]. rewrite pretty_N_go_step in Hx by lia.
    specialize (Hl (x / 10)%N (String (pretty_N_char (x mod 10)) "")). destruct (pretty_N_go _ _); [cbn in Hl; lia|done]. }
  destruct z as [|p|p]; [done|by apply (Hz (N.pos p))|done].
Qed.

Lemma figures_letters w : forallb is_figure w = true -> forallb is_letter w = true.
Proof.
  rewrite !forallb_forall. intros Hw a Ha. specialize (Hw a Ha). unfold is_figure in Hw. apply existsb_exists in Hw as (b & Hb & Heq).
  apply bool_decide_eq_true in Heq as ->. revert Hb. cbn. intros Hb. repeat (destruct Hb as [<-|Hb]; [done|]). done.
Qed.

Lemma number_letters z : forallb is_letter (symbol_number z) = true.
Proof. apply figures_letters, figures_number. Qed.

(** *** What is spelled *)

(** A type that is complete: made of no parameter and no error, its constants
    those of an [i32]. *)
Fixpoint is_closed (T : Ty) : bool :=
  match T with
  | TBuiltin TYPE_UNKNOWN | TBuiltin TYPE_ERROR | TNull | TParam _ | TConstParam _ => false
  | TBuiltin _ => true
  | TRef inner | TRaw inner => is_closed inner
  | TApp _ _ args => forallb is_closed args
  | TConst kind value => bool_decide (kind = Some TYPE_I32) && (INT32_MIN <=? value)%Z && (value <=? INT32_MAX)%Z
  end.

(** The kinds whose types are spelled by a name. *)
Definition kind_named (kind : TypeKind) : bool :=
  match kind with TYPE_I32 | TYPE_F32 | TYPE_BOOL | TYPE_U8 | TYPE_USIZE | TYPE_STR | TYPE_STRUCT => true | _ => false end.

(** The names of types are words, and types of one name are of one declaration. *)
Record names_apart (r : TypeRegistry) (text : nat -> list ascii) : Prop := {
  na_word n t : reg_types r !! n = Some t -> kind_named (ty_kind t) = true -> is_word (symbol_name text (ty_name t)) = true;
  na_apart n m t u : reg_types r !! n = Some t -> reg_types r !! m = Some u -> kind_named (ty_kind t) = true -> kind_named (ty_kind u) = true ->
    symbol_name text (ty_name t) = symbol_name text (ty_name u) -> ty_kind t = ty_kind u /\ ty_decl t = ty_decl u;
}.

Section told.
Context (type_addr str_addr : nat -> N) (r : TypeRegistry) (text : nat -> list ascii) (Hr : types_ok type_addr str_addr r) (Hnames : names_apart r text).

Abbreviation spell := (append_type r text).
Abbreviation closed p := (is_closed (ty_of r p) = true).
Abbreviation closed_arg arg := (is_closed (arg_ty r arg) = true).

Lemma append_arg_buffer f : (forall b p, f b p = app b <$> f [] p) -> forall b arg, append_arg f b arg = app b <$> append_arg f [] arg.
Proof using Type.
  intros Hf b [p|[c|n]]; unfold append_arg, symbol_append; cbn; [|by rewrite <- app_assoc|done].
  rewrite Hf, (Hf ["$"%char]). destruct (f [] p); [|done]. cbn. by rewrite <- app_assoc.
Qed.

Lemma append_args_buffer f : (forall b p, f b p = app b <$> f [] p) -> forall args b, append_args f b args = app b <$> append_args f [] args.
Proof using Type.
  intros Hf args. induction args as [|arg args IH]; intros b; cbn [append_args]; [by cbn; rewrite app_nil_r|].
  rewrite append_arg_buffer by done. destruct (append_arg f [] arg) as [s|]; [|done]. cbn. rewrite IH, (IH s).
  destruct (append_args f [] args); [|done]. cbn. by rewrite app_assoc.
Qed.

Lemma append_type_buffer fuel : forall b p, spell fuel b p = app b <$> spell fuel [] p.
Proof using Type.
  induction fuel as [|fuel IH]; intros b p; cbn [append_type]; [done|]. destruct p as [n|]; [|done]. cbn [append_type_of].
  assert (HT : forall w q, spell fuel (b ++ w) q = app b <$> spell fuel w q).
  { intros w q. rewrite IH, (IH w). destruct (spell fuel [] q); [|done]. cbn. by rewrite app_assoc. }
  assert (HA : forall w args, append_args (spell fuel) (b ++ w) args = app b <$> append_args (spell fuel) w args).
  { intros w args. rewrite (append_args_buffer _ IH), (append_args_buffer _ IH _ w). destruct (append_args _ [] args); [|done]. cbn. by rewrite app_assoc. }
  destruct (deref r (Some n)) as [t|]; [|done]. cbn [mbind option_bind]. unfold symbol_append. cbn [app].
  destruct (type_kind t); try (apply HA); try (apply HT).
  - destruct (type_array_length (Some t)); [|done]. destruct (type_array_element (Some t)); [|done]. apply HT.
  - destruct (type_slice_element (Some t)); [|done]. apply HT.
Qed.

(** *** One step *)

(** The word a type begins with. *)
Definition word_of (t : TypeData) : list ascii :=
  match ty_kind t with
  | TYPE_REF => bytes "ref"
  | TYPE_RAW => bytes "raw"
  | TYPE_SLICE => bytes "slice"
  | TYPE_ARRAY => bytes "array" ++ match type_array_length (Some t) with Some length => symbol_number length | None => [] end
  | _ => symbol_name text (ty_name t)
  end.

(** What follows it. *)
Definition tail_of (fuel : nat) (t : TypeData) (tail : list ascii) : Prop :=
  let behind q := closed q /\ exists s, spell fuel [] q = Some s /\ tail = "."%char :: s in
  match ty_kind t with
  | TYPE_REF | TYPE_RAW => behind (ty_pointee t)
  | TYPE_SLICE => exists e, ty_args t = [TYPE_ARG_TYPE e] /\ behind e
  | TYPE_ARRAY => exists e c, ty_args t = [TYPE_ARG_TYPE e; TYPE_ARG_CONST (CONST_VALUE c)] /\ closed_arg (TYPE_ARG_CONST (CONST_VALUE c)) /\ behind e
  | TYPE_PARAM | TYPE_UNKNOWN | TYPE_ERROR => False
  | _ => Forall (fun arg => closed_arg arg) (ty_args t) /\ append_args (spell fuel) [] (ty_args t) = Some tail
  end.

Lemma type_step fuel p s : closed p -> spell (S fuel) [] p = Some s ->
  exists n t tail, p = Some n /\ reg_types r !! n = Some t /\ s = word_of t ++ tail /\ tail_of fuel t tail.
Proof using Hr.
  destruct p as [n|]; [|done]. intros Hc Hs. destruct (reg_types r !! n) as [t|] eqn:Ht.
  2: { unfold ty_of in Hc. cbn in Hc. by rewrite Ht in Hc. }
  rewrite (ty_of_lookup type_addr str_addr r Hr n t Ht) in Hc. cbn [append_type append_type_of] in Hs.
  assert (Hd : deref r (Some n) = Some t) by done. rewrite Hd in Hs. cbn [mbind option_bind] in Hs. unfold symbol_append in Hs. cbn [app] in Hs.
  pose proof (ok_type _ _ r Hr n t Ht) as Hok. pose proof (to_shape _ _ _ Hok) as Hshape.
  unfold word_of, tail_of, type_kind, type_meaning, shape_ok in *.
  assert (Hnamed : forall args, forallb is_closed (arg_meaning (reg_types r) (ty_of r) <$> args) = true ->
    append_args (spell fuel) (symbol_name text (ty_name t)) args = Some s ->
    exists tail, s = symbol_name text (ty_name t) ++ tail /\ Forall (fun arg => closed_arg arg) args /\ append_args (spell fuel) [] args = Some tail).
  { intros args Ha Happ. rewrite (append_args_buffer _ (append_type_buffer fuel)) in Happ. destruct (append_args _ [] args) as [tail|]; [|done].
    injection Happ as <-. exists tail. split; [done|]. split; [|done]. clear -Ha. induction args; [by constructor|].
    cbn in Ha. apply andb_true_iff in Ha as [? ?]. constructor; auto. }
  assert (Hbehind : forall w q, closed q -> spell fuel (w ++ bytes ".") q = Some s -> exists tail, s = w ++ tail /\ closed q /\
    exists s1, spell fuel [] q = Some s1 /\ tail = "."%char :: s1).
  { intros w q Hq Happ. rewrite append_type_buffer in Happ. destruct (spell fuel [] q) as [s1|] eqn:H1; [|done]. injection Happ as <-.
    exists ("."%char :: s1). rewrite <- app_assoc. cbn. eauto. }
  exists n, t. destruct (ty_kind t) eqn:Hk; cbn [is_closed] in Hc; try done;
    try (destruct Hshape as [Hargs _]; unfold type_args in Hs; rewrite Hargs in Hs |- *; destruct (Hnamed [] eq_refl Hs) as (tail & ? & ? & ?); by exists tail).
  - assert (Hq : type_pointee (Some t) = ty_pointee t) by (unfold type_pointee; by rewrite Hk). rewrite Hq in Hs.
    destruct (Hbehind (bytes "raw") _ Hc Hs) as (tail & ? & ?). by exists tail.
  - destruct Hshape as (_ & e & c & Hargs). rewrite Hargs in Hc. cbn in Hc. rewrite andb_true_r in Hc. apply andb_true_iff in Hc as [He Hc].
    destruct c as [c|]; [|done]. unfold type_array_length, type_array_element in Hs |- *. rewrite Hk, Hargs in Hs |- *. cbn [mbind option_bind] in Hs.
    rewrite app_assoc in Hs. destruct (Hbehind _ _ He Hs) as (tail & ? & ?). exists tail. split; [done|]. split; [done|]. split; [done|]. by exists e, c.
  - destruct Hshape as (_ & e & Hargs). rewrite Hargs in Hc. cbn in Hc. rewrite andb_true_r in Hc.
    unfold type_slice_element in Hs. rewrite Hk, Hargs in Hs. cbn [mbind option_bind] in Hs.
    destruct (Hbehind (bytes "slice") _ Hc Hs) as (tail & ? & ?). exists tail. split; [done|]. split; [done|]. split; [done|]. by exists e.
  - destruct (Hnamed _ Hc Hs) as (tail & ? & ? & ?). by exists tail.
  - assert (Hq : type_pointee (Some t) = ty_pointee t) by (unfold type_pointee; by rewrite Hk). rewrite Hq in Hs.
    destruct (Hbehind (bytes "ref") _ Hc Hs) as (tail & ? & ?). by exists tail.
Qed.

Lemma step_word n t fuel tail : reg_types r !! n = Some t -> tail_of fuel t tail -> is_word (word_of t) = true.
Proof using Hnames.
  intros Ht Htail. unfold tail_of, word_of in *. destruct (ty_kind t) eqn:Hk; try done; try (apply (na_word r text Hnames n t Ht); by rewrite Hk).
  unfold is_word. rewrite forallb_app. destruct (type_array_length (Some t)) as [z|]; [by rewrite number_letters|done].
Qed.

Lemma word_letters w : is_word w = true -> forallb is_letter w = true.
Proof using Type. unfold is_word. by intros [? _]%andb_true_iff. Qed.

Lemma args_end f args s rest : (forall b p, f b p = app b <$> f [] p) -> append_args f [] args = Some s -> ends rest = true -> ends (s ++ rest) = true.
Proof using Type.
  intros Hf. destruct args as [|arg args]; cbn [append_args]; [by intros [= <-]|]. destruct (append_arg f [] arg) as [s0|] eqn:H0; [|done].
  cbn [mbind option_bind]. rewrite (append_args_buffer f Hf). destruct (append_args f [] args) as [s1|]; [|done]. intros [= <-] _.
  unfold append_arg, symbol_append in H0. cbn in H0. destruct arg as [p|[c|m]]; [|by injection H0 as <-|done].
  rewrite Hf in H0. destruct (f [] p); [|done]. by injection H0 as <-.
Qed.

(** The types behind a dot, and those spelled by a name. *)
Definition is_behind (t : TypeData) : bool := negb (kind_named (ty_kind t)).

Lemma step_tail fuel t tail rest : tail_of fuel t tail -> ends rest = true ->
  breaks (tail ++ rest) = true /\ (if is_behind t then exists s, tail = "."%char :: s else ends (tail ++ rest) = true).
Proof using Type.
  unfold tail_of, is_behind. intros Ht Hrest.
  destruct (ty_kind t); try done;
    try (destruct Ht as (_ & s & _ & ->); cbn; split; [done|by eexists]);
    try (destruct Ht as [_ Ha]; pose proof (args_end _ _ _ _ (append_type_buffer fuel) Ha Hrest); split; [by apply ends_breaks|done]).
  - destruct Ht as (e & c & _ & _ & _ & s & _ & ->). cbn. split; [done|by eexists].
  - destruct Ht as (e & _ & _ & s & _ & ->). cbn. split; [done|by eexists].
Qed.

Section step.
Context (fuel fuel' : nat).
Context (IH : forall p q s s' rest rest', closed p -> closed q -> spell fuel [] p = Some s -> spell fuel' [] q = Some s' ->
  ends rest = true -> ends rest' = true -> s ++ rest = s' ++ rest' -> p = q /\ rest = rest').

(** A type begins with no figure, where it is spelled at all. *)
Lemma type_begins f p s : closed p -> spell f [] p = Some s -> exists a s', s = a :: s' /\ is_figure a = false.
Proof using Hr Hnames.
  intros Hp Hs. destruct f as [|f]; [done|]. destruct (type_step f p s Hp Hs) as (n & t & tail & _ & Ht & -> & Htail).
  pose proof (step_word n t f tail Ht Htail) as Hw. unfold is_word in Hw. apply andb_true_iff in Hw as [_ Hw].
  destruct (word_of t) as [|a w]; [done|]. exists a, (w ++ tail). split; [done|]. by apply negb_true_iff in Hw.
Qed.

Lemma number_begins z : exists a s, symbol_number z = a :: s /\ is_figure a = true.
Proof using Type.
  pose proof (figures_number z) as Hz. pose proof (number_not_empty z). destruct (symbol_number z) as [|a s]; [done|].
  cbn in Hz. apply andb_true_iff in Hz as [Ha _]. eauto.
Qed.

Lemma arg_told arg arg' s s' rest rest' : closed_arg arg -> closed_arg arg' -> append_arg (spell fuel) [] arg = Some s ->
  append_arg (spell fuel') [] arg' = Some s' -> ends rest = true -> ends rest' = true -> s ++ rest = s' ++ rest' ->
  arg_ty r arg = arg_ty r arg' /\ rest = rest'.
Proof using Hr Hnames IH.
  intros Hc Hc' Hs Hs' He He' Heq. unfold append_arg, symbol_append in *. cbn [app] in *.
  destruct arg as [p|[c|m]], arg' as [q|[c'|m']]; try done.
  - rewrite append_type_buffer in Hs. rewrite append_type_buffer in Hs'. destruct (spell fuel [] p) as [s0|] eqn:H0; [|done]. destruct (spell fuel' [] q) as [s0'|] eqn:H0'; [|done].
    injection Hs as <-. injection Hs' as <-. injection Heq as Heq. by destruct (IH p q s0 s0' rest rest') as [-> ->].
  - rewrite append_type_buffer in Hs. destruct (spell fuel [] p) as [s0|] eqn:H0; [|done]. injection Hs as <-. injection Hs' as <-.
    destruct (type_begins fuel p s0 Hc H0) as (a & w & -> & Ha). destruct (number_begins (const_int c')) as (b & w' & Hb & Hfig). rewrite Hb in Heq.
    cbn in Heq. congruence.
  - rewrite append_type_buffer in Hs'. destruct (spell fuel' [] q) as [s0|] eqn:H0; [|done]. injection Hs as <-. injection Hs' as <-.
    destruct (type_begins fuel' q s0 Hc' H0) as (a & w & -> & Ha). destruct (number_begins (const_int c)) as (b & w' & Hb & Hfig). rewrite Hb in Heq.
    cbn in Heq. congruence.
  - injection Hs as <-. injection Hs' as <-. cbn in Heq. injection Heq as Heq.
    destruct (word_split _ _ rest rest' (number_letters (const_int c)) (number_letters (const_int c')) (ends_breaks _ He) (ends_breaks _ He') Heq) as [Hn ->].
    split; [|done]. apply number_inj in Hn. unfold arg_ty, arg_meaning in *. cbn [is_closed] in Hc, Hc'.
    apply andb_true_iff in Hc as [[Hk _]%andb_true_iff _], Hc' as [[Hk' _]%andb_true_iff _].
    apply bool_decide_eq_true in Hk as ->, Hk' as ->. by rewrite Hn.
Qed.

Lemma args_told args : forall args' s s' rest rest', length args = length args' ->
  Forall (fun arg => closed_arg arg) args -> Forall (fun arg => closed_arg arg) args' ->
  append_args (spell fuel) [] args = Some s -> append_args (spell fuel') [] args' = Some s' ->
  ends rest = true -> ends rest' = true -> s ++ rest = s' ++ rest' -> arg_ty r <$> args = arg_ty r <$> args' /\ rest = rest'.
Proof using Hr Hnames IH.
  induction args as [|arg args IHa]; intros [|arg' args'] s s' rest rest' Hl Hc Hc' Hs Hs' He He' Heq; try done; cbn [append_args] in *.
  - injection Hs as <-. injection Hs' as <-. done.
  - apply Forall_cons in Hc as [Hca Hcs], Hc' as [Hca' Hcs'].
    destruct (append_arg _ [] arg) as [s0|] eqn:H0; [|done]. destruct (append_arg _ [] arg') as [s0'|] eqn:H0'; [|done]. cbn [mbind option_bind] in Hs, Hs'.
    rewrite (append_args_buffer _ (append_type_buffer fuel)) in Hs. rewrite (append_args_buffer _ (append_type_buffer fuel')) in Hs'.
    destruct (append_args _ [] args) as [s1|] eqn:H1; [|done]. destruct (append_args _ [] args') as [s1'|] eqn:H1'; [|done].
    injection Hs as <-. injection Hs' as <-. rewrite <- !app_assoc in Heq.
    destruct (arg_told arg arg' s0 s0' (s1 ++ rest) (s1' ++ rest')) as [Ha Hrest]; try done;
      [by apply (args_end _ _ _ _ (append_type_buffer fuel) H1)|by apply (args_end _ _ _ _ (append_type_buffer fuel') H1')|].
    destruct (IHa args' s1 s1' rest rest') as [Hargs ->]; try done; [by injection Hl|]. cbn. by rewrite Ha, Hargs.
Qed.
End step.

Lemma types_of_behind t u : is_behind t = true -> is_behind u = true ->
  match ty_kind t, ty_kind u with
  | TYPE_PARAM, _ | TYPE_UNKNOWN, _ | TYPE_ERROR, _ | _, TYPE_PARAM | _, TYPE_UNKNOWN | _, TYPE_ERROR => False
  | _, _ => True
  end -> word_of t = word_of u ->
  ty_kind t = ty_kind u /\
  (ty_kind t = TYPE_ARRAY -> forall z z', type_array_length (Some t) = Some z -> type_array_length (Some u) = Some z' -> z = z').
Proof using Type.
  unfold is_behind, word_of. intros Ht Hu Hk Hw. destruct (ty_kind t), (ty_kind u); try done. split; [done|]. intros _ z z' Hz Hz'.
  rewrite Hz, Hz' in Hw. injection Hw as Hw. by apply number_inj.
Qed.

Lemma types_told fuel : forall fuel' p q s s' rest rest', closed p -> closed q ->
  spell fuel [] p = Some s -> spell fuel' [] q = Some s' ->
  ends rest = true -> ends rest' = true -> s ++ rest = s' ++ rest' -> p = q /\ rest = rest'.
Proof using Hr Hnames.
  induction fuel as [|fuel IH]; intros [|fuel'] p q s s' rest rest' Hp Hq Hs Hs' He He' Heq; try done.
  destruct (type_step fuel p s Hp Hs) as (n & t & tail & -> & Ht & -> & Htail). destruct (type_step fuel' q s' Hq Hs') as (m & u & tail' & -> & Hu & -> & Htail').
  rewrite <- !app_assoc in Heq. destruct (step_tail fuel t tail rest Htail He) as [Hb Hd], (step_tail fuel' u tail' rest' Htail' He') as [Hb' Hd'].
  destruct (word_split _ _ _ _ (word_letters _ (step_word n t fuel tail Ht Htail)) (word_letters _ (step_word m u fuel' tail' Hu Htail')) Hb Hb' Heq) as [Hw Hrest].
  specialize (IH fuel').
  enough (type_meaning (reg_types r) (reg_decls r) (ty_of r) t = type_meaning (reg_types r) (reg_decls r) (ty_of r) u /\ rest = rest') as [Hm ->].
  { split; [|done]. apply (ty_of_inj type_addr str_addr r Hr); [by apply lookup_lt_Some in Ht|by apply lookup_lt_Some in Hu|].
    by rewrite (ty_of_lookup _ _ r Hr n t Ht), (ty_of_lookup _ _ r Hr m u Hu). }
  destruct (is_behind t) eqn:Hbt, (is_behind u) eqn:Hbu.
  - destruct (types_of_behind t u Hbt Hbu) as [Hk Hlen]; [unfold tail_of in *; by destruct (ty_kind t), (ty_kind u)|done|].
    unfold tail_of, type_meaning in *. rewrite <- Hk in *.
    assert (Hbehind : forall a b, (closed a /\ exists s, spell fuel [] a = Some s /\ tail = "."%char :: s) ->
      (closed b /\ exists s, spell fuel' [] b = Some s /\ tail' = "."%char :: s) -> a = b /\ rest = rest').
    { intros a b (Ha & s & Hsa & ->) (Hb0 & s' & Hsb & ->). injection Hrest as Hrest. by apply (IH a b s s'). }
    unfold is_behind in Hbt. destruct (ty_kind t) eqn:Hkt; try done.
    + by destruct (Hbehind _ _ Htail Htail') as [-> ->].
    + destruct Htail as (e & c & Ha & Hc & Htail), Htail' as (e' & c' & Ha' & Hc' & Htail').
      destruct (Hbehind _ _ Htail Htail') as [-> ->]. split; [|done]. rewrite Ha, Ha'. cbn.
      assert (Hz : to_i32 (const_int c) = to_i32 (const_int c')).
      { apply (Hlen eq_refl); unfold type_array_length; rewrite <- ?Hk, ?Hkt; [by rewrite Ha|by rewrite Ha']. }
      unfold arg_ty in Hc, Hc'. cbn in Hc, Hc'. apply andb_true_iff in Hc as [[Hk1 H1]%andb_true_iff H2], Hc' as [[Hk2 H3]%andb_true_iff H4].
      apply bool_decide_eq_true in Hk1 as ->, Hk2 as ->. apply Z.leb_le in H1, H2, H3, H4. unfold INT32_MIN, INT32_MAX in *.
      rewrite !wrap_signed_id in Hz by lia. rewrite Hz.
      pose proof (to_shape _ _ _ (ok_type _ _ r Hr n t Ht)) as Hst. pose proof (to_shape _ _ _ (ok_type _ _ r Hr m u Hu)) as Hsu.
      unfold shape_ok in *. rewrite Hkt in Hst. rewrite <- Hk in Hsu. destruct Hst as [-> _], Hsu as [-> _]. done.
    + destruct Htail as (e & Ha & Htail), Htail' as (e' & Ha' & Htail').
      destruct (Hbehind _ _ Htail Htail') as [-> ->]. split; [|done]. rewrite Ha, Ha'.
      pose proof (to_shape _ _ _ (ok_type _ _ r Hr n t Ht)) as Hst. pose proof (to_shape _ _ _ (ok_type _ _ r Hr m u Hu)) as Hsu.
      unfold shape_ok in *. rewrite Hkt in Hst. rewrite <- Hk in Hsu. destruct Hst as [-> _], Hsu as [-> _]. done.
    + by destruct (Hbehind _ _ Htail Htail') as [-> ->].
  - destruct Hd as [w ->]. rewrite <- Hrest in Hd'. done.
  - destruct Hd' as [w ->]. rewrite Hrest in Hd. done.
  - apply negb_false_iff in Hbt, Hbu. destruct (na_apart r text Hnames n m t u Ht Hu Hbt Hbu) as [Hk Hdecl].
    { revert Hw. unfold word_of. revert Hbt Hbu. by destruct (ty_kind t), (ty_kind u). }
    pose proof (to_shape _ _ _ (ok_type _ _ r Hr n t Ht)) as Hst. pose proof (to_shape _ _ _ (ok_type _ _ r Hr m u Hu)) as Hsu.
    unfold shape_ok, tail_of, type_meaning in *. rewrite <- Hk in *.
    assert (Hargs : length (ty_args t) = length (ty_args u) -> Forall (fun arg => closed_arg arg) (ty_args t) /\ append_args (spell fuel) [] (ty_args t) = Some tail ->
      Forall (fun arg => closed_arg arg) (ty_args u) /\ append_args (spell fuel') [] (ty_args u) = Some tail' -> arg_ty r <$> ty_args t = arg_ty r <$> ty_args u /\ rest = rest').
    { intros Hl [Hc Ha] [Hc' Ha']. by apply (args_told fuel fuel' IH _ _ tail tail'). }
    clear Hbu. destruct (ty_kind t) eqn:Hkt; try done; try (destruct Hst as [Hat _], Hsu as [Hau _]; rewrite Hat, Hau in Hargs; by destruct (Hargs eq_refl) as [_ ->];
      [rewrite Hat in Htail|rewrite Hau in Htail'|]).
    destruct Hst as (d & decl & Hd1 & Hdecl1 & Hl), Hsu as (d' & decl' & Hd2 & Hdecl2 & Hl'). rewrite Hdecl, Hd2 in Hd1. injection Hd1 as ->.
    rewrite Hdecl1 in Hdecl2. injection Hdecl2 as ->. destruct Hargs as [Hargs ->]; [by rewrite <- Hl, <- Hl'|done|done|]. unfold arg_ty in Hargs. by rewrite Hargs, Hdecl.
Qed.

(** *** Every complete type is spelled *)

Lemma args_spelled f args b : (forall arg b, arg ∈ args -> is_Some (append_arg f b arg)) -> is_Some (append_args f b args).
Proof using Type.
  revert b. induction args as [|arg args IH]; intros b Hf; cbn [append_args]; [by eexists|].
  destruct (Hf arg b) as [s ->]; [left|]. cbn. apply IH. intros a b' Ha. apply Hf. by right.
Qed.

Lemma type_spelled fuel : forall p b, closed p -> default 0 p < fuel -> is_Some (spell fuel b p).
Proof using Hr.
  induction fuel as [|fuel IH]; intros p b Hp Hlt; [lia|]. destruct p as [n|]; [|done]. cbn in Hlt.
  destruct (reg_types r !! n) as [t|] eqn:Ht; [|unfold ty_of in Hp; cbn in Hp; by rewrite Ht in Hp].
  rewrite (ty_of_lookup type_addr str_addr r Hr n t Ht) in Hp. cbn [append_type append_type_of].
  assert (Hd : deref r (Some n) = Some t) by done. rewrite Hd. cbn [mbind option_bind].
  destruct (ok_type _ _ r Hr n t Ht) as [Hbelow _ Hshape _]. apply Forall_app in Hbelow as [Hb1 Hb2].
  assert (Hq : closed (ty_pointee t) -> forall b, is_Some (spell fuel b (ty_pointee t))).
  { intros Hc b'. apply IH; [done|]. destruct (ty_pointee t) as [q|]; [|done]. apply Forall_cons in Hb1 as [? _]. cbn. lia. }
  assert (Helem : forall q b, TYPE_ARG_TYPE q ∈ ty_args t -> closed q -> is_Some (spell fuel b q)).
  { intros q b' Hin Hc. apply IH; [done|]. destruct q as [q|]; [|done]. rewrite Forall_forall in Hb2. cbn. enough (q < n) by lia.
    apply Hb2. unfold arg_pointers. apply list_elem_of_omap. by exists (TYPE_ARG_TYPE (Some q)). }
  assert (Hargs : forall arg b, arg ∈ ty_args t -> is_closed (arg_meaning (reg_types r) (ty_of r) arg) = true -> is_Some (append_arg (spell fuel) b arg)).
  { intros [q|[c|m]] b' Hin Hc; cbn; [|by eexists|done]. by apply Helem. }
  assert (Hall : forallb is_closed (arg_meaning (reg_types r) (ty_of r) <$> ty_args t) = true -> forall b, is_Some (append_args (spell fuel) b (ty_args t))).
  { intros Hc b'. apply args_spelled. intros arg b0 Hin. apply Hargs; [done|]. rewrite forallb_forall in Hc. apply Hc.
    apply list_elem_of_In. by apply list_elem_of_fmap_2. }
  unfold type_kind, type_meaning, shape_ok, type_pointee, type_array_element, type_array_length, type_slice_element, type_args in *.
  destruct (ty_kind t) eqn:Hk; cbn [is_closed] in Hp; try done; try (apply Hall; destruct Hshape as [-> _]; done); try (by apply Hq); try (by apply Hall).
  - destruct Hshape as (_ & e & c & Ha). rewrite Ha in *. cbn in Hp. rewrite andb_true_r in Hp. apply andb_true_iff in Hp as [He Hc].
    destruct c as [c|]; [|done]. cbn [mbind option_bind]. apply Helem; [left|done].
  - destruct Hshape as (_ & e & Ha). rewrite Ha in *. cbn in Hp. rewrite andb_true_r in Hp. cbn [mbind option_bind].
    apply Helem; [left|done].
Qed.

Lemma closed_exists p : closed p -> default 0 p < length (reg_types r).
Proof using Type.
  destruct p as [n|]; [|done]. unfold ty_of. cbn. destruct (reg_types r !! n) eqn:Ht; [|done]. intros _. by apply lookup_lt_Some in Ht.
Qed.

Lemma fuel_spells p b : closed p -> is_Some (spell (symbol_fuel r) b p).
Proof using Hr. intros Hp. pose proof (closed_exists p Hp). apply type_spelled; [done|]. unfold symbol_fuel. lia. Qed.

(** *** Functions *)

(** A function that is not foreign, of a module, at complete types. *)
Record symbol_ok (f : Function) (module name : nat) : Prop := {
  so_linkage : linkage (fn_decl f) <> LINKAGE_C;
  so_module : id_module (func_id (fn_decl f)) = Some module;
  so_name : id_name (func_id (fn_decl f)) = Some name;
  so_words : is_word (text module) = true /\ is_word (text name) = true /\ forall owner, id_owner (func_id (fn_decl f)) = Some owner -> is_word (text owner) = true;
  so_closed : Forall (fun arg => closed_arg arg) (fn_type_args f);
}.

(** What comes after the module: the owner or else the name, and what is left. *)
Definition symbol_head (f : Function) (name : nat) : nat := default name (id_owner (func_id (fn_decl f))).

Lemma symbol_parts f module name : symbol_ok f module name -> exists args,
  append_args (spell (symbol_fuel r)) [] (fn_type_args f) = Some args /\
  llvm_symbol_of r text f = Some (text module ++ bytes "." ++ text (symbol_head f name) ++ args ++
    match id_owner (func_id (fn_decl f)) with Some _ => bytes "." ++ text name | None => [] end).
Proof using Hr.
  intros [Hl Hm Hn _ Hc]. destruct (args_spelled (spell (symbol_fuel r)) (fn_type_args f) []) as [args Hargs].
  { intros [p|[c|m]] b Hin; rewrite Forall_forall in Hc; specialize (Hc _ Hin); [|by eexists|done]. by apply fuel_spells. }
  exists args. split; [done|]. unfold llvm_symbol_of, symbol_head. rewrite Hm, Hn. cbn [mbind option_bind]. rewrite bool_decide_eq_false_2 by done.
  unfold append_type_args, symbol_append.
  destruct (id_owner (func_id (fn_decl f))) as [owner|]; rewrite (append_args_buffer _ (append_type_buffer _)), Hargs; cbn; by rewrite ?app_nil_r, <- !app_assoc.
Qed.

Lemma word_split_end w w' c c' : forallb is_letter w = true -> forallb is_letter w' = true ->
  c ++ "."%char :: w = c' ++ "."%char :: w' -> c = c' /\ w = w'.
Proof using Type.
  intros Hw Hw' Heq. apply (f_equal (@rev _)) in Heq. rewrite !rev_app_distr in Heq. cbn in Heq. rewrite <- !app_assoc in Heq.
  assert (Hrev : forall v, forallb is_letter v = true -> forallb is_letter (rev v) = true).
  { intros v Hv. rewrite forallb_forall in *. intros a Ha. apply Hv. by apply in_rev. }
  destruct (word_split (rev w) (rev w') ("."%char :: rev c) ("."%char :: rev c') (Hrev _ Hw) (Hrev _ Hw') eq_refl eq_refl Heq) as [H1 H2].
  injection H2 as H2. split; [by rewrite <- (rev_involutive c), H2, rev_involutive|by rewrite <- (rev_involutive w), H1, rev_involutive].
Qed.
End told.

(** C18: A symbol tells functions apart.  Of two functions that are not declared
    with C linkage, each of a module, with names that are words and at complete
    types, both have a symbol; where the symbols are equal, the functions are of the
    same module, owner and name, at type arguments of the same meaning.  This holds
    where types of one name are of one declaration ([names_apart], which two modules
    need not keep), texts are interned, and, for two functions of one module whose
    symbols begin with the same word (the owner, or the name of a function without
    one), either both have an owner or neither, and they have as many type
    arguments: a name of a module is a type's or a function's but not both, and has
    one number of type parameters.  A function with C linkage has its bare name for
    a symbol in every module, and is not told apart. *)
Theorem symbols_tell_functions_apart type_addr str_addr r text f g module module' name name' :
  types_ok type_addr str_addr r -> names_apart r text -> (forall s s', text s = text s' -> s = s') ->
  symbol_ok r text f module name -> symbol_ok r text g module' name' ->
  (module = module' -> symbol_head f name = symbol_head g name' ->
    (is_Some (id_owner (func_id (fn_decl f))) <-> is_Some (id_owner (func_id (fn_decl g)))) /\ length (fn_type_args f) = length (fn_type_args g)) ->
  is_Some (llvm_symbol_of r text f) /\
  (llvm_symbol_of r text f = llvm_symbol_of r text g ->
    module = module' /\ id_owner (func_id (fn_decl f)) = id_owner (func_id (fn_decl g)) /\ name = name' /\
    arg_ty r <$> fn_type_args f = arg_ty r <$> fn_type_args g).
Proof.
  intros Hr Hnames Htext Hf Hg Hsame. destruct (symbol_parts _ _ r text Hr f module name Hf) as (args & Ha & Hsf).
  destruct (symbol_parts _ _ r text Hr g module' name' Hg) as (args' & Ha' & Hsg). rewrite Hsf, Hsg. split; [by eexists|]. intros [= Heq].
  destruct Hf as [_ _ _ (Hm & Hn & Ho) Hc], Hg as [_ _ _ (Hm' & Hn' & Ho') Hc'].
  destruct (word_split _ _ _ _ (word_letters _ Hm) (word_letters _ Hm') (eq_refl : breaks (bytes "." ++ _) = true) (eq_refl : breaks (bytes "." ++ _) = true) Heq)
    as [->%Htext Hrest]. injection Hrest as Hrest.
  assert (Hbreaks : forall f name args, append_args (append_type r text (symbol_fuel r)) [] (fn_type_args f) = Some args ->
    breaks (args ++ match id_owner (func_id (fn_decl f)) with Some _ => bytes "." ++ text name | None => [] end) = true).
  { intros h n a Hh. pose proof (args_end _ _ _ [] (append_type_buffer r text _) Hh eq_refl) as He. rewrite app_nil_r in He.
    destruct a as [|x a]; [by destruct (id_owner (func_id (fn_decl h)))|]. cbn in He |- *. by apply bool_decide_eq_true in He as ->. }
  assert (Hhead : forall f name, is_word (text name) = true -> (forall owner, id_owner (func_id (fn_decl f)) = Some owner -> is_word (text owner) = true) ->
    forallb is_letter (text (symbol_head f name)) = true).
  { intros h n Hw Hwo. apply word_letters. unfold symbol_head. destruct (id_owner (func_id (fn_decl h))); [by apply Hwo|done]. }
  destruct (word_split _ _ _ _ (Hhead f name Hn Ho) (Hhead g name' Hn' Ho') (Hbreaks f name args Ha) (Hbreaks g name' args' Ha') Hrest) as [Hh%Htext Htail].
  destruct (Hsame eq_refl Hh) as [Howner Hl]. unfold symbol_head in Hh.
  assert (Hgoal : forall rest rest', rest = [] -> rest' = [] -> args ++ rest = args' ++ rest' -> arg_ty r <$> fn_type_args f = arg_ty r <$> fn_type_args g).
  { intros rest rest' -> -> Hargs. eapply (args_told _ _ r text Hr Hnames (symbol_fuel r) (symbol_fuel r)); [|exact Hl|exact Hc|exact Hc'|exact Ha|exact Ha'| | |exact Hargs]; [|done..].
    apply (types_told _ _ r text Hr Hnames). }
  destruct (id_owner (func_id (fn_decl f))) as [owner|], (id_owner (func_id (fn_decl g))) as [owner'|]; cbn in Hh.
  - subst owner'. cbn in Htail. destruct (word_split_end _ _ _ _ (word_letters _ Hn) (word_letters _ Hn') Htail) as [Hargs ->%Htext].
    split; [done|]. split; [done|]. split; [done|]. by apply (Hgoal [] []); rewrite ?app_nil_r.
  - destruct Howner as [Howner _]. by destruct Howner; [eexists|].
  - destruct Howner as [_ Howner]. by destruct Howner; [eexists|].
  - subst name'. split; [done|]. split; [done|]. split; [done|]. by apply (Hgoal [] []).
Qed.

(** ** Functions that differ *)

(** The bytes of the names of the examples. *)
Definition sample_text (name : nat) : list ascii := bytes ("n" +:+ pretty name).

(** [Holder<i32>], [array<Holder<i32>, 3>] and [&Holder<i32>]. *)
Definition spelled_1 : TypeRegistry := Eval vm_compute in
  state_after (type_registry_instantiate sample_addr sample_addr sample_6 (Some 10) [TYPE_ARG_TYPE sample_i32_t]).
Definition spelled_2 : TypeRegistry := Eval vm_compute in state_after (type_registry_array_of sample_addr sample_addr spelled_1 (Some 12) 3).
Definition spelled_3 : TypeRegistry := Eval vm_compute in state_after (type_registry_ref_to sample_addr sample_addr spelled_2 (Some 12)).

Definition spelled_function (module : nat) (owner : StrPtr) (name : nat) (args : list TypeArg) : Function :=
  let signature := MkFuncSignature None [] in
  MkFunc (MkFuncDecl (MkDeclId (Some module) owner (Some name) 0) None LINKAGE_INTERNAL FUNC_MOD_NONE None signature (length args) []) signature args 0 false.

Example spelled_function_symbol :
  string_of_list_ascii <$> llvm_symbol_of spelled_3 sample_text (spelled_function 90 (Some 30) 91 [TYPE_ARG_TYPE (Some 13)]) =
    Some "n90.n30$array3.n30$n1.n91"%string.
Proof. vm_compute. reflexivity. Qed.

Lemma spelled_ok : types_ok sample_addr sample_addr spelled_3.
Proof.
  apply ok_types, (reachable_ok sample_addr sample_addr). destruct sample_reachable as (n & r0 & Hc & Hs). exists n, r0. split; [exact Hc|].
  etransitivity; [exact Hs|].
  eapply rtc_l; [eapply (step_instantiate _ _ sample_6 (Some 10) [TYPE_ARG_TYPE sample_i32_t] spelled_1); [repeat constructor; cbn; lia|by vm_compute]|].
  eapply rtc_l; [eapply (step_array _ _ spelled_1 (Some 12) 3 spelled_2); [cbn; lia|by vm_compute]|].
  eapply rtc_l; [eapply (step_ref _ _ spelled_2 (Some 12) spelled_3); [cbn; lia|by vm_compute]|]. apply rtc_refl.
Qed.

Lemma sample_text_inj s s' : sample_text s = sample_text s' -> s = s'.
Proof. unfold sample_text. intros H%list_ascii_inj. injection H as H. by apply (inj pretty). Qed.

Lemma spelled_apart : names_apart spelled_3 sample_text.
Proof.
  split.
  - intros n t Ht. each_entry n Ht; try (by vm_compute); by intros [=].
  - intros n m t u Ht Hu Hk Hk' Heq.
    assert (ty_name t = ty_name u).
    { destruct (ty_name t) as [s|] eqn:Hs, (ty_name u) as [s'|] eqn:Hs'; cbn in Heq; [by f_equal; apply sample_text_inj|discriminate..|done]. }
    each_entry n Ht; try discriminate Hk; each_entry m Hu; try discriminate Hk'; try discriminate H; by split.
Qed.

Lemma symbols_tell_functions_apart_witness :
  let f := spelled_function 90 (Some 30) 91 [TYPE_ARG_TYPE (Some 13)] in
  let g := spelled_function 90 (Some 30) 91 [TYPE_ARG_TYPE (Some 14)] in
  is_Some (llvm_symbol_of spelled_3 sample_text f) /\ llvm_symbol_of spelled_3 sample_text f <> llvm_symbol_of spelled_3 sample_text g.
Proof.
  intros f g. assert (Hok : forall n, is_closed (ty_of spelled_3 (Some n)) = true -> symbol_ok spelled_3 sample_text (spelled_function 90 (Some 30) 91 [TYPE_ARG_TYPE (Some n)]) 90 91).
  { intros n Hn. split; [discriminate|reflexivity|reflexivity| |by apply Forall_singleton].
    split; [reflexivity|]. split; [reflexivity|]. intros owner [= <-]. reflexivity. }
  destruct (symbols_tell_functions_apart sample_addr sample_addr spelled_3 sample_text f g 90 90 91 91) as [Hs Ht].
  - exact spelled_ok.
  - exact spelled_apart.
  - exact sample_text_inj.
  - apply Hok. vm_compute. reflexivity.
  - apply Hok. vm_compute. reflexivity.
  - intros _ _. split; [|reflexivity]. split; intros _; eexists; reflexivity.
  - split; [exact Hs|]. intros Heq. destruct (Ht Heq) as (_ & _ & _ & Hargs). vm_compute in Hargs. discriminate Hargs.
Defined.

(** ** Functions that do not *)

(** [struct P { }] of two modules, [n100] and [n101], and [func f<T>()] of a third,
    called at both. *)
Definition twin_decl (module : nat) : TypeDecl := MkTypeDecl (MkDeclId (Some module) None (Some 200) 0) 0 [].
Definition twins_1 : TypeRegistry := Eval vm_compute in (new_decl (new_decl sample_6 (twin_decl 100)).1 (twin_decl 101)).1.
Definition twins_2 : TypeRegistry := Eval vm_compute in state_after (type_registry_instantiate sample_addr sample_addr twins_1 (Some 11) []).
Definition twins_3 : TypeRegistry := Eval vm_compute in state_after (type_registry_instantiate sample_addr sample_addr twins_2 (Some 12) []).
Definition twin_function : FuncDecl :=
  MkFuncDecl (MkDeclId (Some 102) None (Some 201) 0) None LINKAGE_INTERNAL FUNC_MOD_NONE None (MkFuncSignature None [Some 7]) 1 [BOUND_NONE].

(** Types of one name share symbols.  A symbol names a type without its
    module: where two modules declare a struct of one name, the instances of a
    generic function at the two are different functions, with parameters of
    different types, that share a symbol, and the code generator gives the
    second the body of the first; the drop glue of the one is that of the other. *)
Theorem types_of_one_name_share_symbols : exists r1 fr1 f1 r2 fr2 f2 one other,
  function_registry_instance sample_addr sample_addr twins_3 no_functions twin_function [TYPE_ARG_TYPE (Some 12)] = Some (r1, fr1, f1) /\
  function_registry_instance sample_addr sample_addr r1 fr1 twin_function [TYPE_ARG_TYPE (Some 13)] = Some (r2, fr2, f2) /\
  reg_functions fr2 !! f1 = Some one /\ reg_functions fr2 !! f2 = Some other /\
  f1 <> f2 /\ sig_params (fn_signature one) = [Some 12] /\ sig_params (fn_signature other) = [Some 13] /\
  ty_of r2 (Some 12) <> ty_of r2 (Some 13) /\
  llvm_symbol_of r2 sample_text one = llvm_symbol_of r2 sample_text other /\ is_Some (llvm_symbol_of r2 sample_text one) /\
  drop_glue_name r2 sample_text (Some 12) = drop_glue_name r2 sample_text (Some 13).
Proof.
  do 8 eexists. split; [vm_compute; reflexivity|]. split; [vm_compute; reflexivity|]. do 2 (split; [reflexivity|]). split; [discriminate|].
  do 2 (split; [reflexivity|]). split; [vm_compute; discriminate|]. split; [vm_compute; reflexivity|]. split; [vm_compute; by eexists|vm_compute; reflexivity].
Qed.

(** The function [P] of a module [drop] is called by the name of the glue of a
    struct [P] of any module. *)
Example glue_of_the_name_of_a_function :
  let text (name : nat) := if Nat.eqb name 102 then bytes "drop" else bytes "P" in
  drop_glue_name twins_3 text (Some 12) = llvm_symbol_of twins_3 text (spelled_function 102 None 200 []).
Proof. vm_compute. reflexivity. Qed.
