(* ===== verification/Check.v ===== *)
(** * Check: the state of resolution, and the coercions

    [src/src/ast/check.h] and [coerce.c].  A resolver's state is threaded
    through a monad: [Refused] is a failed [assert], the dereference of a null
    pointer, a read out of an array, or a question about a type that has no
    answer within [type_fuel]; [TooDeep] is a call nested deeper than the fuel of
    the functions that call each other.

    An expression comes with its pointer, the path that leads to it. *)

From stdpp Require Import pretty.
From Stdlib Require Import String Ascii.
From S2P Require Import Ast Facts.
From S2P Require Import Prelude Types Mir Decl Diagnostics Strings HashMap Registry RegistryTypes RegistryState Functions Scopes Instantiate Build.

(** ** The state *)

(** A module's name and its scope. *)
Record Module := MkModule { module_title : StrPtr; module_names : nat }.

(** [Visible] is the list of the modules. *)
Definition Visible : Type := list nat.

(** A declaration of a struct with what resolving its fields reads: the fields,
    the parameters and the span of the statement. *)
Record StructDecl := MkStructDecl {
  sd_fields : list ASTField;
  sd_params : list ASTIdent;
  sd_span : Span;
  sd_file_scope : nat;
  sd_visible : option Visible;
  sd_name : nat;
  sd_decl : DeclPtr;
  fields_demanded : bool;
  poisoned : bool;
}.

Record FuncContext := MkFuncContext { ctx_return_type : TypePtr; is_caller : bool; loop_depth : nat }.

Record Env := MkEnv {
  env_scope : nat;
  env_declaring : option nat;
  env_visible : option Visible;
  env_func : FuncContext;
  env_param_bounds : option (list TypeParamBound);
}.

Definition with_scope (env : Env) (scope : nat) : Env :=
  MkEnv scope (env_declaring env) (env_visible env) (env_func env) (env_param_bounds env).
Definition with_declaring (env : Env) (declaring : option nat) : Env :=
  MkEnv (env_scope env) declaring (env_visible env) (env_func env) (env_param_bounds env).
Definition with_visible (env : Env) (visible : option Visible) : Env :=
  MkEnv (env_scope env) (env_declaring env) visible (env_func env) (env_param_bounds env).
Definition with_func (env : Env) (func : FuncContext) : Env :=
  MkEnv (env_scope env) (env_declaring env) (env_visible env) func (env_param_bounds env).
Definition with_bounds (env : Env) (bounds : option (list TypeParamBound)) : Env :=
  MkEnv (env_scope env) (env_declaring env) (env_visible env) (env_func env) bounds.

(** [Global] and [ResolverState] in one: the registries, the pool and the
    diagnostics are changed through the pointers of [Global].  The heaps of
    interfaces and of their methods' declarations are the arena's. *)
Record ResolverState := MkResolverState {
  rs_world : World;
  rs_strings : StringPool;
  rs_diagnostics : Diagnostics;
  rs_scopes : Scopes;
  rs_interfaces : list InterfaceDecl;
  rs_methods : list FuncDecl;
  rs_facts : Facts;
  rs_work : PendingBodies;
  rs_struct_decls : list StructDecl;
  rs_resolving : list nat;
  rs_declared : HashMap NodePtr bool;
  rs_env : Env;
}.

Inductive Answer (A : Type) :=
  | Answered (s : ResolverState) (a : A)
  | Refused
  | TooDeep.
Arguments Answered {A}.
Arguments Refused {A}.
Arguments TooDeep {A}.

Definition Resolve (A : Type) : Type := ResolverState -> Answer A.

#[export] Instance Resolve_ret : MRet Resolve := fun A a s => Answered s a.
#[export] Instance Resolve_bind : MBind Resolve := fun A B f m s =>
  match m s with Answered s a => f a s | Refused => Refused | TooDeep => TooDeep end.

Definition refused {A} : Resolve A := fun _ => Refused.
Definition too_deep {A} : Resolve A := fun _ => TooDeep.
Definition current : Resolve ResolverState := fun s => Answered s s.
Definition want {A} (o : option A) : Resolve A := fun s => match o with Some a => Answered s a | None => Refused end.
Definition change (f : ResolverState -> ResolverState) : Resolve unit := fun s => Answered (f s) tt.
Definition put_world (s : ResolverState) (w : World) : ResolverState :=
  MkResolverState w (rs_strings s) (rs_diagnostics s) (rs_scopes s) (rs_interfaces s) (rs_methods s) (rs_facts s) (rs_work s)
    (rs_struct_decls s) (rs_resolving s) (rs_declared s) (rs_env s).
Definition put_strings (s : ResolverState) (strings : StringPool) : ResolverState :=
  MkResolverState (rs_world s) strings (rs_diagnostics s) (rs_scopes s) (rs_interfaces s) (rs_methods s) (rs_facts s) (rs_work s)
    (rs_struct_decls s) (rs_resolving s) (rs_declared s) (rs_env s).
Definition put_diagnostics (s : ResolverState) (d : Diagnostics) : ResolverState :=
  MkResolverState (rs_world s) (rs_strings s) d (rs_scopes s) (rs_interfaces s) (rs_methods s) (rs_facts s) (rs_work s)
    (rs_struct_decls s) (rs_resolving s) (rs_declared s) (rs_env s).
Definition put_scopes (s : ResolverState) (scopes : Scopes) : ResolverState :=
  MkResolverState (rs_world s) (rs_strings s) (rs_diagnostics s) scopes (rs_interfaces s) (rs_methods s) (rs_facts s) (rs_work s)
    (rs_struct_decls s) (rs_resolving s) (rs_declared s) (rs_env s).
Definition put_interfaces (s : ResolverState) (interfaces : list InterfaceDecl) (methods : list FuncDecl) : ResolverState :=
  MkResolverState (rs_world s) (rs_strings s) (rs_diagnostics s) (rs_scopes s) interfaces methods (rs_facts s) (rs_work s)
    (rs_struct_decls s) (rs_resolving s) (rs_declared s) (rs_env s).
Definition put_facts (s : ResolverState) (facts : Facts) : ResolverState :=
  MkResolverState (rs_world s) (rs_strings s) (rs_diagnostics s) (rs_scopes s) (rs_interfaces s) (rs_methods s) facts (rs_work s)
    (rs_struct_decls s) (rs_resolving s) (rs_declared s) (rs_env s).
Definition put_work (s : ResolverState) (work : PendingBodies) : ResolverState :=
  MkResolverState (rs_world s) (rs_strings s) (rs_diagnostics s) (rs_scopes s) (rs_interfaces s) (rs_methods s) (rs_facts s) work
    (rs_struct_decls s) (rs_resolving s) (rs_declared s) (rs_env s).
Definition put_structs (s : ResolverState) (structs : list StructDecl) (resolving : list nat) : ResolverState :=
  MkResolverState (rs_world s) (rs_strings s) (rs_diagnostics s) (rs_scopes s) (rs_interfaces s) (rs_methods s) (rs_facts s) (rs_work s)
    structs resolving (rs_declared s) (rs_env s).
Definition put_declared (s : ResolverState) (declared : HashMap NodePtr bool) : ResolverState :=
  MkResolverState (rs_world s) (rs_strings s) (rs_diagnostics s) (rs_scopes s) (rs_interfaces s) (rs_methods s) (rs_facts s) (rs_work s)
    (rs_struct_decls s) (rs_resolving s) declared (rs_env s).
Definition put_env (s : ResolverState) (env : Env) : ResolverState :=
  MkResolverState (rs_world s) (rs_strings s) (rs_diagnostics s) (rs_scopes s) (rs_interfaces s) (rs_methods s) (rs_facts s) (rs_work s)
    (rs_struct_decls s) (rs_resolving s) (rs_declared s) env.

(** *** Through the pointers of the state *)

Definition types_of (s : ResolverState) : TypeRegistry := world_types (rs_world s).
Definition functions_of (s : ResolverState) : FunctionRegistry := world_functions (rs_world s).

Definition with_world {A} (m : Inst A) : Resolve A := fun s =>
  match m (rs_world s) with Some (w, a) => Answered (put_world s w) a | None => Refused end.
Definition with_types {A} (f : TypeRegistry -> option (TypeRegistry * A)) : Resolve A :=
  with_world (fun w => '(r, a) ← f (world_types w); Some (MkWorld r (world_functions w), a)).
(** A type the registry makes. *)
Definition make_type (f : TypeRegistry -> option (TypeRegistry * nat)) : Resolve TypePtr :=
  with_types (fun r => '(r, p) ← f r; Some (r, Some p)).
Definition ask_types {A} (f : TypeRegistry -> option A) : Resolve A := fun s => want (f (types_of s)) s.
Definition with_scopes {A} (f : Scopes -> option (Scopes * A)) : Resolve A := fun s =>
  match f (rs_scopes s) with Some (ss, a) => Answered (put_scopes s ss) a | None => Refused end.
Definition write_facts (f : Facts -> option Facts) : Resolve unit := fun s =>
  match f (rs_facts s) with Some facts => Answered (put_facts s facts) tt | None => Refused end.
Definition in_env (f : Env -> Env) : Resolve unit := change (fun s => put_env s (f (rs_env s))).

(** [Env saved = state->env; ... state->env = saved;] *)
Definition restoring_env {A} (m : Resolve A) : Resolve A :=
  s ← current; a ← m; change (fun s' => put_env s' (rs_env s));; mret a.

Definition diag (kind : DiagKind) (span : Span) (message : string) : Resolve unit :=
  change (fun s => put_diagnostics s (diag_error (rs_diagnostics s) kind span message)).

(** The text of an interned name. *)
Definition text_at (s : ResolverState) (name : StrPtr) : string :=
  string_of_list_ascii (default [] (n ← name; pool_heap (rs_strings s) !! n)).

Section each.
Context {A B : Type} (f : nat -> A -> Resolve B).
(** [for (i = 0; i < l.size; i++)] *)
Fixpoint each_of (i : nat) (l : list A) : Resolve (list B) :=
  match l with
  | [] => mret []
  | a :: l => b ← f i a; bs ← each_of (S i) l; mret (b :: bs)
  end.
End each.
Definition for_all {A} (f : nat -> A -> Resolve unit) (l : list A) : Resolve unit := each_of f 0 l;; mret tt.

Section check.
(** The arena's addresses, and the fuel of a question about a type. *)
Context (type_addr str_addr : nat -> N) (node_addr : NodePtr -> N) (ident_addr : IdentPtr -> N) (type_fuel : nat).

(** ** Names of types *)

(** [type_name]. *)
Fixpoint type_text (fuel : nat) (s : ResolverState) (type : TypePtr) : option string :=
  match type, fuel with
  | None, _ => Some "none"
  | Some _, O => None
  | Some _, S fuel =>
      t ← deref (types_of s) type;
      match ty_kind t with
      | TYPE_ARRAY =>
          element ← type_array_element (Some t);
          element ← type_text fuel s element;
          if type_array_length_is_known (Some t) then
            length ← type_array_length (Some t); Some ("array<" +:+ element +:+ ", " +:+ print_int length +:+ ">")
          else Some ("array<" +:+ element +:+ ", _>")
      | TYPE_SLICE =>
          element ← type_slice_element (Some t);
          element ← type_text fuel s element;
          Some ("slice<" +:+ element +:+ ">")
      | TYPE_RAW => element ← type_text fuel s (type_pointee (Some t)); Some ("raw<" +:+ element +:+ ">")
      | kind =>
          match ty_name t with
          | Some name => Some (text_at s (Some name))
          | None =>
              if bool_decide (kind = TYPE_PARAM) then Some "a type parameter"
              else
                inner ← type_text fuel s (type_pointee (Some t));
                Some ((if bool_decide (kind = TYPE_REF) then "&" else "*") +:+ inner)
          end
      end
  end.

(** A type points to older ones, so the heap's length is enough. *)
Definition heap_fuel (r : TypeRegistry) : nat := S (length (reg_types r)).

Definition type_name (type : TypePtr) : Resolve string := fun s => want (type_text (heap_fuel (types_of s)) s type) s.
Definition name_text (name : nat) : Resolve string := fun s => Answered s (text_at s (Some name)).
Definition opt_text (name : StrPtr) : Resolve string := n ← want name; name_text n.
Definition number (n : nat) : string := pretty n.

(** ** What check.h defines *)

(** [true] when it was marked before. *)
Definition resolver_mark_declared (stmt : NodePtr) : Resolve bool := fun s =>
  match map_lookup (node_hash node_addr) key_equals (rs_declared s) stmt with
  | Some (Some _) => Answered s true
  | Some None =>
      match map_insert (node_hash node_addr) key_equals (rs_declared s) stmt true with
      | Some (m, _) => Answered (put_declared s m) false
      | None => Refused
      end
  | None => Refused
  end.

Definition resolver_error_type : Resolve TypePtr := fun s => Answered s (type_registry_error_type (types_of s)).

(** [type_kind], which dereferences its argument. *)
Definition kind_of (type : TypePtr) : Resolve TypeKind := ask_types (fun r => kind_at (reg_types r) type).
Definition is_kind (kind : TypeKind) (type : TypePtr) : Resolve bool := k ← kind_of type; mret (bool_decide (k = kind)).

Definition is_error_type (type : TypePtr) : Resolve bool :=
  match type with None => mret true | Some _ => is_kind TYPE_ERROR type end.

Definition i32_type : Resolve TypePtr := ask_types (fun r => type_registry_get_primitive r TYPE_I32).
Definition resolver_names : Resolve KnownNames := fun s => Answered s (names (types_of s)).
Definition has_param (type : TypePtr) : Resolve bool := ask_types (fun r => Some (has_param_at r type)).
Definition indirect (r : TypeRegistry) (type : TypePtr) : bool := type_is_indirect (deref r type).
Definition pointee_at (r : TypeRegistry) (type : TypePtr) : TypePtr := type_pointee (deref r type).
Definition is_indirect (type : TypePtr) : Resolve bool := ask_types (fun r => Some (indirect r type)).
Definition pointee (type : TypePtr) : Resolve TypePtr := ask_types (fun r => Some (pointee_at r type)).
Definition fact_type (path : NodePtr) : Resolve TypePtr := fun s => Answered s (fact_type_of node_addr (rs_facts s) path).

(** ** [coerce.c] *)

Fixpoint is_addressable_at (s : ResolverState) (path : NodePtr) (expr : ASTExpr) : bool :=
  match expr with
  | EXPR_NAME _ _ _ =>
      match symbol_at (rs_scopes s) (fact_use_of node_addr (rs_facts s) path) with
      | Some symbol => match symbol_kind symbol with SYMBOL_VAR _ => true | _ => false end
      | None => false
      end
  | EXPR_FIELD _ target _ => is_addressable_at s (path ++ [0]) target
  | EXPR_INDEX _ target _ => is_addressable_at s (path ++ [0]) target
  | EXPR_DEREF _ _ => true
  | _ => false
  end.

Definition is_addressable (path : NodePtr) (expr : ASTExpr) : Resolve bool := fun s => Answered s (is_addressable_at s path expr).

(** The loop that follows references, with the number of its turns. *)
Fixpoint strip_references (fuel : nat) (r : TypeRegistry) (type : TypePtr) : TypePtr * nat :=
  match fuel with
  | O => (type, 0)
  | S fuel => if indirect r type then let '(base, n) := strip_references fuel r (pointee_at r type) in (base, S n) else (type, 0)
  end.

Definition base_type_at (r : TypeRegistry) (type : TypePtr) : TypePtr := (strip_references (heap_fuel r) r type).1.
Definition receiver_base_type (type : TypePtr) : Resolve TypePtr := ask_types (fun r => Some (base_type_at r type)).

Definition derefs_to (type : TypePtr) : Resolve TypePtr := with_types (fun r => type_registry_deref_of type_addr str_addr r type).

Definition reads_as_a_view (to from : TypePtr) : Resolve bool :=
  view ← derefs_to from;
  match view with
  | None => mret false
  | Some _ => reference ← is_kind TYPE_REF to; held ← pointee to; mret (reference && bool_decide (view = held))
  end.

Definition lends_by_pointer (to from : TypePtr) : Resolve bool :=
  reference ← is_kind TYPE_REF to;
  ask_types (fun r => Some (reference && indirect r from && bool_decide (pointee_at r to = pointee_at r from))).

Definition accepts_by_borrowing (to from : TypePtr) : Resolve bool :=
  if bool_decide (to = from) then mret false
  else reference ← is_kind TYPE_REF to; held ← pointee to; mret (reference && bool_decide (held = from)).

Definition unsizes_to_a_slice (to from : TypePtr) : Resolve bool :=
  reference ← is_kind TYPE_REF to;
  if negb reference then mret false
  else
    held ← pointee to;
    slice ← is_kind TYPE_SLICE held;
    if negb slice then mret false
    else
      base ← receiver_base_type from;
      array ← is_kind TYPE_ARRAY base;
      if negb array then mret false
      else
        element ← ask_types (fun r => type_array_element (deref r base));
        wanted ← ask_types (fun r => type_slice_element (deref r held));
        mret (bool_decide (element = wanted)).

(** The [for (;;)] of [type_accepts]. *)
Fixpoint accepts_from (fuel : nat) (to at_ : TypePtr) : Resolve bool :=
  match fuel with
  | O => refused
  | S fuel =>
      view ← reads_as_a_view to at_;
      lent ← (if view : bool then mret true else lends_by_pointer to at_);
      if lent : bool then mret true
      else
        more ← is_indirect at_;
        if negb more then mret false else next ← pointee at_; accepts_from fuel to next
  end.

Definition type_accepts (to from : TypePtr) : Resolve bool :=
  if bool_decide (to = from) then mret true
  else
    unsized ← unsizes_to_a_slice to from;
    if unsized : bool then mret true
    else
      borrowed ← accepts_by_borrowing to from;
      if borrowed : bool then mret true
      else s ← current; accepts_from (heap_fuel (types_of s)) to from.

(** The types [adjust_derefs] writes. *)
Fixpoint deref_chain (r : TypeRegistry) (from : TypePtr) (count : nat) : list TypePtr :=
  match count with
  | O => []
  | S count => pointee_at r from :: deref_chain r (pointee_at r from) count
  end.

Definition adjust_derefs (from : TypePtr) (count : nat) : Resolve (list TypePtr) := ask_types (fun r => Some (deref_chain r from count)).

(** [addressed->pinned = true], when there is a local at the root. *)
Definition pin_root (path : NodePtr) (expr : ASTExpr) : Resolve unit := fun s =>
  match fact_root_local node_addr (rs_facts s) path expr with
  | None => Answered s tt
  | Some symbol =>
      Answered (put_scopes s (MkScopes (scope_heap (rs_scopes s))
        (alter (fun sym => MkSymbol (symbol_kind sym) true) symbol (symbol_heap (rs_scopes s))))) tt
  end.

Definition temporary_message : string := "cannot borrow a temporary; bind it to a variable first".

(** The length an array is unsized with. *)
Definition unsized_length (array : TypePtr) : Resolve Z :=
  ask_types (fun r => if type_array_length_is_known (deref r array) then type_array_length (deref r array) else Some 1%Z).

Definition unsize_into (path : NodePtr) (expr : ASTExpr) (destination : TypePtr) (span : Span) : Resolve bool :=
  from ← fact_type path;
  '(array, count) ← ask_types (fun r => Some (strip_references (heap_fuel r) r from));
  addressable ← is_addressable path expr;
  if negb addressable then diag GAB_ERR_TYPE span temporary_message;; mret false
  else
    pin_root path expr;;
    length ← unsized_length array;
    types ← adjust_derefs from count;
    write_facts (fun facts => fact_set_adjustment node_addr facts path (MkAdjustment ADJUST_UNSIZE types destination length));;
    mret true.

(** The loop of [borrow_into]. *)
Fixpoint derefs_towards (fuel : nat) (r : TypeRegistry) (wanted at_ : TypePtr) : TypePtr * nat :=
  match fuel with
  | O => (at_, 0)
  | S fuel =>
      if indirect r at_ && negb (bool_decide (wanted = pointee_at r at_)) && negb (bool_decide (wanted = at_)) then
        let '(base, n) := derefs_towards fuel r wanted (pointee_at r at_) in (base, S n)
      else (at_, 0)
  end.

Definition borrow_into (path : NodePtr) (expr : ASTExpr) (destination : TypePtr) (span : Span) : Resolve bool :=
  from ← fact_type path;
  unsized ← unsizes_to_a_slice destination from;
  if unsized : bool then unsize_into path expr destination span
  else
    '(at_, count) ← ask_types (fun r => Some (derefs_towards (heap_fuel r) r (pointee_at r destination) from));
    borrowed ← accepts_by_borrowing destination at_;
    if negb borrowed then
      (if Nat.ltb 0 count then
         types ← adjust_derefs from count;
         write_facts (fun facts => fact_set_adjustment node_addr facts path (MkAdjustment ADJUST_NONE types at_ 0))
       else mret tt);;
      mret true
    else
      addressable ← is_addressable path expr;
      if negb addressable then diag GAB_ERR_TYPE span temporary_message;; mret false
      else
        pin_root path expr;;
        types ← adjust_derefs from count;
        write_facts (fun facts => fact_set_adjustment node_addr facts path (MkAdjustment ADJUST_BORROW types destination 0));;
        mret true.

Definition copies (type : TypePtr) : Resolve bool := with_types (fun r => type_registry_copies type_addr str_addr type_fuel r type).
Definition owns (type : TypePtr) : Resolve bool := with_types (fun r => type_registry_owns type_addr str_addr type_fuel r type).

Definition mark_implicit_move (path : NodePtr) (value : option ASTExpr) (destination : TypePtr) (span : Span) : Resolve unit :=
  match value with
  | None => mret tt
  | Some value =>
      type ← fact_type path;
      error ← is_error_type type;
      if error : bool then mret tt
      else
        copied ← copies type;
        if copied : bool then mret tt
        else
          kept ← (match destination with None => mret true | Some _ => owns destination end);
          if negb kept then mret tt
          else
            match value with
            | EXPR_FIELD _ _ _ => diag GAB_ERR_LIFETIME span "a field cannot be given up on its own; bind the whole struct instead"
            | EXPR_INDEX _ _ _ => diag GAB_ERR_LIFETIME span "an element cannot be given up on its own; bind the whole array instead"
            | _ =>
                s ← current;
                match symbol_at (rs_scopes s) (fact_use_of node_addr (rs_facts s) path) with
                | Some symbol =>
                    match symbol_kind symbol with
                    | SYMBOL_VAR _ => write_facts (fun facts => fact_set_moves node_addr facts path true)
                    | _ => mret tt
                    end
                | None => mret tt
                end
            end
  end.
End check.
