(* ===== verification/Coerce.v ===== *)
(** * Coerce: a coerced value has the type it is given to

    [src/src/ast/coerce.c] is modelled in [Check.v].  What [type_accepts] takes
    and [borrow_into] adjusts is, once the adjustment is made, a value of the
    destination's type. *)

From Stdlib Require Import String.
From S2P Require Import Ast Facts.
From S2P Require Import Prelude Types Mir Decl Diagnostics Strings HashMap Registry RegistryTypes RegistryState Functions Scopes Instantiate Build Check.

(** ** What an adjustment does to a type *)

(** Each type is what a reference of the type before it refers to. *)
Fixpoint follows (r : TypeRegistry) (at_ : TypePtr) (types : list TypePtr) : Prop :=
  match types with
  | [] => True
  | type :: types => indirect r at_ = true /\ type = pointee_at r at_ /\ follows r type types
  end.

Definition held_type (at_ : TypePtr) (types : list TypePtr) : TypePtr := default at_ (last types).

Definition refers_to (r : TypeRegistry) (type held : TypePtr) : Prop := kind_at (reg_types r) type = Some TYPE_REF /\ pointee_at r type = held.

(** A value of the type [from] is, adjusted, one of the type [to]: what its
    references hold is that type, or a borrow of it is, or a borrow of a slice of
    the array it is. *)
Definition adjusts (r : TypeRegistry) (from to : TypePtr) (adjustment : Adjustment) : Prop :=
  let held := held_type from (deref_types adjustment) in
  follows r from (deref_types adjustment) /\
  match adjust_kind adjustment with
  | ADJUST_NONE => held = to
  | ADJUST_BORROW => refers_to r to held
  | ADJUST_UNSIZE => exists slice element, refers_to r to slice /\
      kind_at (reg_types r) held = Some TYPE_ARRAY /\ type_array_element (deref r held) = Some element /\
      kind_at (reg_types r) slice = Some TYPE_SLICE /\ type_slice_element (deref r slice) = Some element
  end.

(** ** Chains of references *)

(** [to] is met on following the references of [at_]. *)
Inductive reaches (r : TypeRegistry) (to : TypePtr) : TypePtr -> Prop :=
  | reaches_here : reaches r to to
  | reaches_on at_ : indirect r at_ = true -> reaches r to (pointee_at r at_) -> reaches r to at_.

Lemma indirect_at r p : indirect r p = true <-> kind_at (reg_types r) p = Some TYPE_REF.
Proof.
  unfold indirect, type_is_indirect, deref, kind_at. destruct p as [n|]; cbn; [|done]. destruct (reg_types r !! n) as [t|]; cbn; [|done].
  rewrite bool_decide_eq_true. split; [by intros ->|by intros [= ->]].
Qed.

Lemma follows_chain r from n at_ : (strip_references n r from).2 = at_ -> follows r from (deref_chain r from at_) /\ held_type from (deref_chain r from at_) = (strip_references n r from).1.
Proof.
  revert from at_. induction n as [|n IH]; intros from at_; cbn [strip_references]; [by intros <-|].
  destruct (indirect r from) eqn:Hi; [|by intros <-]. specialize (IH (pointee_at r from)).
  destruct (strip_references n r (pointee_at r from)) as [base count]. cbn in IH |- *. intros <-. destruct (IH count eq_refl) as [Hf Hh].
  cbn [deref_chain follows]. split; [done|]. unfold held_type in *. rewrite last_cons. destruct (last _); [done|]. by cbn in *.
Qed.

Lemma towards_chain r wanted n : forall from at_ count, derefs_towards n r wanted from = (at_, count) ->
  follows r from (deref_chain r from count) /\ held_type from (deref_chain r from count) = at_.
Proof.
  induction n as [|n IH]; intros from at_ count; cbn [derefs_towards]; [by intros [= <- <-]|].
  destruct (indirect r from) eqn:Hi; cbn [andb]; [|by intros [= <- <-]].
  destruct (_ && _); [|by intros [= <- <-]]. destruct (derefs_towards n r wanted (pointee_at r from)) as [base k] eqn:Hd.
  intros [= <- <-]. destruct (IH _ _ _ Hd) as [Hf Hh]. cbn [deref_chain follows]. split; [done|].
  unfold held_type in *. rewrite last_cons. destruct (last _); [done|]. by cbn in *.
Qed.

Section types.
Context (type_addr str_addr : nat -> N).
#[local] Abbreviation types_ok := (types_ok type_addr str_addr).
#[local] Abbreviation keeps := (keeps type_addr str_addr).

Lemma pointee_below r p : types_ok r -> indirect r p = true ->
  exists n, p = Some n /\ n < length (reg_types r) /\ ptr_valid (reg_types r) (pointee_at r p) /\ match pointee_at r p with Some m => m < n | None => True end /\
    ty_of r p = TRef (ty_of r (pointee_at r p)).
Proof.
  intros Hr Hi. pose proof (proj1 (indirect_at r p) Hi) as Hk. unfold kind_at in Hk. destruct p as [n|]; [|done]. cbn in Hk.
  destruct (reg_types r !! n) as [t|] eqn:Ht; [|done]. injection Hk as Hk. exists n. split; [done|]. split; [by apply lookup_lt_Some in Ht|].
  assert (Hp : pointee_at r (Some n) = ty_pointee t).
  { unfold pointee_at, deref, type_pointee. cbn [mbind option_bind]. by rewrite Ht, Hk. }
  rewrite Hp. split; [by eapply pointee_valid|]. split.
  - pose proof (to_below _ _ _ (ok_type _ _ r Hr n t Ht)) as [Hb _]%Forall_app. destruct (ty_pointee t); [by inversion Hb|done].
  - rewrite (ty_of_lookup _ _ r Hr n t Ht). unfold type_meaning. by rewrite Hk.
Qed.

Definition above (p : TypePtr) : nat := match p with Some n => S n | None => 0 end.

Lemma reaches_above r to at_ : types_ok r -> reaches r to at_ -> above to <= above at_.
Proof.
  intros Hr Hreach. induction Hreach as [|at_ Hi _ IH]; [done|]. destruct (pointee_below r at_ Hr Hi) as (n & -> & _ & _ & Hlt & _).
  destruct (pointee_at r (Some n)); cbn in *; lia.
Qed.

Lemma pointee_above r p : types_ok r -> indirect r p = true -> above (pointee_at r p) < above p.
Proof. intros Hr Hi. destruct (pointee_below r p Hr Hi) as (n & -> & _ & _ & Hlt & _). destruct (pointee_at r (Some n)); cbn in *; lia. Qed.

(** Two references to one type are one type. *)
Lemma reference_unique r p q : types_ok r -> indirect r p = true -> indirect r q = true -> pointee_at r p = pointee_at r q -> p = q.
Proof.
  intros Hr Hp Hq Heq. destruct (pointee_below r p Hr Hp) as (n & -> & Hn & _ & _ & Hp'). destruct (pointee_below r q Hr Hq) as (m & -> & Hm & _ & _ & Hq').
  apply (ty_of_inj type_addr str_addr r Hr); [done..|]. by rewrite Hp', Hq', Heq.
Qed.

(** The loop of [borrow_into] stops at the destination. *)
Lemma towards_reaches r to at_ : types_ok r -> indirect r to = true -> reaches r to at_ -> forall fuel, above at_ < fuel ->
  (derefs_towards fuel r (pointee_at r to) at_).1 = to.
Proof.
  intros Hr Hto Hreach. induction Hreach as [|at_ Hi Hreach IH]; intros [|fuel] Hf; try lia; cbn [derefs_towards].
  - rewrite Hto, bool_decide_eq_true_2 by done. done.
  - pose proof (reaches_above r to _ Hr Hreach). pose proof (pointee_above r to Hr Hto). pose proof (pointee_above r at_ Hr Hi).
    rewrite Hi, !bool_decide_eq_false_2; [|intros Heq; rewrite Heq in *; lia..]. cbn [andb negb].
    specialize (IH fuel ltac:(lia)). by destruct (derefs_towards fuel r (pointee_at r to) (pointee_at r at_)).
Qed.

(** ** What growing leaves *)

Lemma deref_grows r r' n t : grows r r' -> reg_types r !! n = Some t -> exists t', reg_types r' !! n = Some t' /\ core t' = core t.
Proof. intros [Hg _ _ _ _]. apply Hg. Qed.

Lemma kind_grows r r' p k : grows r r' -> kind_at (reg_types r) p = Some k -> kind_at (reg_types r') p = Some k.
Proof.
  intros Hg. unfold kind_at. destruct p as [n|]; [|done]. cbn. destruct (reg_types r !! n) as [t|] eqn:Ht; [|done].
  destruct (deref_grows r r' n t Hg Ht) as (t' & -> & Hc). cbn. by rewrite (core_kind _ _ Hc).
Qed.

Lemma indirect_grows r r' p : grows r r' -> indirect r p = true -> indirect r' p = true.
Proof. rewrite !indirect_at. by apply kind_grows. Qed.

Lemma pointee_grows r r' p : grows r r' -> indirect r p = true -> pointee_at r' p = pointee_at r p.
Proof.
  intros Hg Hi%indirect_at. unfold kind_at in Hi. unfold pointee_at, deref. destruct p as [n|]; [|done]. cbn in *. destruct (reg_types r !! n) as [t|] eqn:Ht; [|done].
  destruct (deref_grows r r' n t Hg Ht) as (t' & -> & Hc). unfold type_pointee. injection Hc as -> _ _ _ _ -> _. done.
Qed.

Lemma array_element_grows r r' p e : grows r r' -> type_array_element (deref r p) = Some e -> type_array_element (deref r' p) = Some e.
Proof.
  intros Hg. unfold deref. destruct p as [n|]; [|done]. cbn. destruct (reg_types r !! n) as [t|] eqn:Ht; [|done].
  destruct (deref_grows r r' n t Hg Ht) as (t' & -> & Hc). unfold type_array_element. by injection Hc as -> _ _ -> _ _ _.
Qed.

Lemma slice_element_grows r r' p e : grows r r' -> type_slice_element (deref r p) = Some e -> type_slice_element (deref r' p) = Some e.
Proof.
  intros Hg. unfold deref. destruct p as [n|]; [|done]. cbn. destruct (reg_types r !! n) as [t|] eqn:Ht; [|done].
  destruct (deref_grows r r' n t Hg Ht) as (t' & -> & Hc). unfold type_slice_element. by injection Hc as -> _ _ -> _ _ _.
Qed.

Lemma reaches_grows r r' to at_ : grows r r' -> reaches r to at_ -> reaches r' to at_.
Proof.
  intros Hg Hreach. induction Hreach as [|at_ Hi _ IH]; [constructor|]. apply reaches_on; [by eapply indirect_grows|].
  by rewrite (pointee_grows r r' at_ Hg Hi).
Qed.

(** ** The questions *)

Lemma bind_answer {A B} (m : Resolve A) (k : A -> Resolve B) s s' b : (m ≫= k) s = Answered s' b ->
  exists s1 a, m s = Answered s1 a /\ k a s1 = Answered s' b.
Proof. unfold mbind, Resolve_bind. destruct (m s) as [s1 a| |]; [|done..]. eauto. Qed.

Lemma ask_answer {A} (f : TypeRegistry -> option A) s s' a : ask_types f s = Answered s' a -> s' = s /\ f (types_of s) = Some a.
Proof. unfold ask_types, want. destruct (f (types_of s)); [|done]. by intros [= <- <-]. Qed.

Lemma kind_answer kind type s s' b : is_kind kind type s = Answered s' b ->
  s' = s /\ exists k, kind_at (reg_types (types_of s)) type = Some k /\ b = bool_decide (k = kind).
Proof. unfold is_kind, kind_of. intros H. apply bind_answer in H as (s1 & k & H1 & H). apply ask_answer in H1 as [-> Hk]. injection H as <- <-. eauto. Qed.

(** The next question of a computation that answered. *)
Tactic Notation "asks" hyp(H) "as" ident(Ha) :=
  apply bind_answer in H as (? & ? & Ha & H); apply ask_answer in Ha as [-> Ha].
Tactic Notation "asks" "plainly" hyp(H) :=
  let Ha := fresh in apply bind_answer in H as (? & ? & Ha & H); apply ask_answer in Ha as [-> Ha]; injection Ha as <-.
Tactic Notation "asks" "the" "kind" hyp(H) "as" ident(Ha) :=
  apply bind_answer in H as (? & ? & Ha & H); apply kind_answer in Ha as (-> & ? & Ha & ->).

Definition unsizes_at (r : TypeRegistry) (to from : TypePtr) : Prop := exists slice element, refers_to r to slice /\
  kind_at (reg_types r) slice = Some TYPE_SLICE /\ type_slice_element (deref r slice) = Some element /\
  kind_at (reg_types r) (base_type_at r from) = Some TYPE_ARRAY /\ type_array_element (deref r (base_type_at r from)) = Some element.

Lemma unsizes_answer to from s s' b : unsizes_to_a_slice to from s = Answered s' b ->
  s' = s /\ (b = true <-> unsizes_at (types_of s) to from).
Proof.
  unfold unsizes_to_a_slice, pointee, receiver_base_type. intros H. asks the kind H as Hr. case_bool_decide as Hk; cbn [negb] in H.
  2: { injection H as <- <-. split; [done|]. split; [done|]. intros (sl & e & [Hr' _] & _). congruence. }
  asks plainly H. asks the kind H as Hs. case_bool_decide as Hk1; cbn [negb] in H.
  2: { injection H as <- <-. split; [done|]. split; [done|]. intros (sl & e & [_ <-] & Hs' & _). congruence. }
  asks plainly H. asks the kind H as Ha. case_bool_decide as Hk2; cbn [negb] in H.
  2: { injection H as <- <-. split; [done|]. split; [done|]. intros (sl & e & _ & _ & _ & Ha' & _). congruence. }
  asks H as He. asks H as He'. injection H as <- <-. split; [done|]. rewrite bool_decide_eq_true. subst. split.
  - intros ->. by eexists _, _.
  - intros (sl & e & [_ <-] & _ & Hs' & _ & Ha'). congruence.
Qed.

Lemma borrows_answer to from s s' b : accepts_by_borrowing to from s = Answered s' b ->
  s' = s /\ (b = true <-> to <> from /\ refers_to (types_of s) to from).
Proof.
  unfold accepts_by_borrowing, pointee, refers_to. case_bool_decide as Heq; [intros [= <- <-]; split; [done|]; split; [done|naive_solver]|].
  intros H. asks the kind H as Hk. asks plainly H. injection H as <- <-. split; [done|]. rewrite andb_true_iff, !bool_decide_eq_true.
  rewrite Hk. naive_solver.
Qed.

Lemma lends_answer to from s s' b : lends_by_pointer to from s = Answered s' b ->
  s' = s /\ (b = true -> indirect (types_of s) to = true /\ indirect (types_of s) from = true /\ pointee_at (types_of s) to = pointee_at (types_of s) from).
Proof.
  unfold lends_by_pointer. intros H. asks the kind H as Hk. apply ask_answer in H as [-> H]. injection H as <-. split; [done|].
  intros [[Hr Hi]%andb_true_iff Hp]%andb_true_iff. apply bool_decide_eq_true in Hr as ->, Hp. by rewrite indirect_at.
Qed.

(** A view is a slice of what the array holds. *)
Lemma view_answer to from s s' b : types_ok (types_of s) -> ptr_valid (reg_types (types_of s)) from ->
  reads_as_a_view type_addr str_addr to from s = Answered s' b ->
  rs_facts s' = rs_facts s /\ keeps (types_of s) (types_of s') /\
  (b = true -> exists slice element, refers_to (types_of s') to slice /\
    kind_at (reg_types (types_of s')) slice = Some TYPE_SLICE /\ type_slice_element (deref (types_of s') slice) = Some element /\
    kind_at (reg_types (types_of s')) from = Some TYPE_ARRAY /\ type_array_element (deref (types_of s') from) = Some element).
Proof.
  intros Hr Hv H. unfold reads_as_a_view in H. apply bind_answer in H as (s1 & view & H1 & H).
  unfold derefs_to, with_types, with_world in H1. change (world_types (rs_world s)) with (types_of s) in H1.
  destruct (type_registry_deref_of type_addr str_addr (types_of s) from) as [[r' v]|] eqn:Hd; [|done]. injection H1 as <- <-.
  assert (Hkeep : rs_facts (put_world s (MkWorld r' (world_functions (rs_world s)))) = rs_facts s) by done.
  unfold type_registry_deref_of, deref in Hd. destruct from as [n|]; cbn [mbind option_bind] in Hd.
  2: { injection Hd as <- <-. injection H as <- <-. split; [done|]. split; [by apply keeps_refl|done]. }
  destruct (reg_types (types_of s) !! n) as [t|] eqn:Ht; cbn [mbind option_bind] in Hd.
  2: { injection Hd as <- <-. injection H as <- <-. split; [done|]. split; [by apply keeps_refl|done]. }
  case_bool_decide as Hk.
  2: { injection Hd as <- <-. injection H as <- <-. split; [done|]. split; [by apply keeps_refl|done]. }
  destruct (array_shape _ _ _ n t Hr Ht Hk) as (e & c & _ & Hargs & He & _).
  assert (Hel : type_array_element (Some t) = Some e) by (unfold type_array_element; by rewrite Hk, Hargs). rewrite Hel in Hd. cbn [mbind option_bind] in Hd.
  destruct (slice_of_makes type_addr str_addr (types_of s) Hr e He) as (r1 & p & Hmk & Hkeeps & Hp & Hty). rewrite Hmk in Hd. cbn in Hd. injection Hd as <- <-.
  unfold pointee in H. asks the kind H as Hto. asks plainly H. injection H as <- <-. split; [done|]. split; [exact Hkeeps|].
  intros [Hto' Hview]%andb_true_iff. apply bool_decide_eq_true in Hto' as ->, Hview.
  cbn [types_of rs_world put_world world_types] in *. destruct (lookup_lt_is_Some_2 _ _ Hp) as [u Hu].
  rewrite (ty_of_lookup type_addr str_addr r1 (kp_ok _ _ _ _ Hkeeps) p u Hu) in Hty.
  assert (Hku : ty_kind u = TYPE_SLICE) by (unfold type_meaning in Hty; destruct (ty_kind u); congruence).
  destruct (slice_shape _ _ _ p u (kp_ok _ _ _ _ Hkeeps) Hu Hku) as (e' & _ & Hargs' & He').
  unfold type_meaning in Hty. rewrite Hku, Hargs' in Hty. injection Hty as _ Hty.
  assert (e' = e) as ->.
  { apply (ty_of_inj type_addr str_addr r1 (kp_ok _ _ _ _ Hkeeps)); [done| |].
    - by apply (ptr_valid_grows _ _ (kp_grows _ _ _ _ Hkeeps)).
    - etransitivity; [exact Hty|]. symmetry. apply (ty_of_grows type_addr str_addr (types_of s) Hr); [apply Hkeeps|done]. }
  pose proof (kind_grows _ r1 (Some n) TYPE_ARRAY (kp_grows _ _ _ _ Hkeeps)) as Hka. pose proof (array_element_grows _ r1 (Some n) e (kp_grows _ _ _ _ Hkeeps)) as Hea.
  unfold kind_at, deref in Hka, Hea. cbn [mbind option_bind] in Hka, Hea. rewrite Ht in Hka, Hea. cbn [fmap option_fmap option_map] in Hka. rewrite Hk in Hka.
  exists (Some p), e. split; [split; [done|congruence]|]. unfold kind_at, deref, type_slice_element. cbn [mbind option_bind]. rewrite Hu. cbn [fmap option_fmap option_map].
  rewrite Hku, Hargs'. auto.
Qed.

(** ** What is accepted *)

Lemma strip_enough r : types_ok r -> forall f f' p, above p < f -> above p < f' -> strip_references f r p = strip_references f' r p.
Proof.
  intros Hr f. induction f as [|f IH]; intros [|f'] p Hf Hf'; try lia. cbn [strip_references]. destruct (indirect r p) eqn:Hi; [|done].
  pose proof (pointee_above r p Hr Hi). by rewrite (IH f' (pointee_at r p)) by lia.
Qed.

Lemma above_heap r p : ptr_valid (reg_types r) p -> above p < heap_fuel r.
Proof. unfold heap_fuel. destruct p as [n|]; cbn; lia. Qed.

Lemma base_behind r p : types_ok r -> ptr_valid (reg_types r) p -> indirect r p = true -> base_type_at r p = base_type_at r (pointee_at r p).
Proof.
  intros Hr Hv Hi. unfold base_type_at. pose proof (above_heap r p Hv) as Hf. unfold heap_fuel in Hf |- *. cbn [strip_references]. rewrite Hi.
  pose proof (pointee_above r p Hr Hi). rewrite (strip_enough r Hr (length (reg_types r)) (S (length (reg_types r))) (pointee_at r p)) by lia.
  by destruct (strip_references _ r (pointee_at r p)) eqn:Hs; cbn [strip_references] in Hs; rewrite Hs.
Qed.

(** A value of [from] may become one of [to]. *)
Definition coercible (r : TypeRegistry) (to from : TypePtr) : Prop :=
  to = from \/ refers_to r to from \/ unsizes_at r to from \/ (indirect r to = true /\ reaches r to from).

Lemma accepts_from_answer fuel to : forall at_ s s', types_ok (types_of s) -> ptr_valid (reg_types (types_of s)) at_ -> ptr_valid (reg_types (types_of s)) to ->
  accepts_from type_addr str_addr fuel to at_ s = Answered s' true ->
  rs_facts s' = rs_facts s /\ keeps (types_of s) (types_of s') /\
  (unsizes_at (types_of s') to at_ \/ (indirect (types_of s') to = true /\ reaches (types_of s') to at_)).
Proof.
  induction fuel as [|fuel IH]; intros at_ s s' Hr Hv Hto H; [done|]. cbn [accepts_from] in H.
  apply bind_answer in H as (s1 & view & H1 & H). destruct (view_answer to at_ s s1 view Hr Hv H1) as (Hf1 & Hk1 & Hview).
  pose proof (kp_ok _ _ _ _ Hk1) as Hr1. pose proof (ptr_valid_grows _ _ (kp_grows _ _ _ _ Hk1) _ Hv) as Hv1.
  pose proof (ptr_valid_grows _ _ (kp_grows _ _ _ _ Hk1) _ Hto) as Hto1.
  apply bind_answer in H as (s2 & lent & H2 & H).
  assert (Hlent : s2 = s1 /\ (lent = true -> view = true \/ (view = false /\ indirect (types_of s1) to = true /\ indirect (types_of s1) at_ = true /\ pointee_at (types_of s1) to = pointee_at (types_of s1) at_))).
  { destruct view; [injection H2 as <- <-; auto|]. apply lends_answer in H2 as [-> H2]. naive_solver. }
  destruct Hlent as [-> Hlent]. destruct lent.
  - injection H as <-. split; [done|]. split; [done|]. destruct (Hlent eq_refl) as [->|(_ & Hit & Hia & Hp)].
    + left. destruct (Hview eq_refl) as (slice & e & Href & Hks & Hse & Hka & Hae). exists slice, e.
      assert (Hbase : base_type_at (types_of s1) at_ = at_).
      { unfold base_type_at, heap_fuel. cbn [strip_references]. destruct (indirect (types_of s1) at_) eqn:Hi; [|done]. apply indirect_at in Hi. congruence. }
      by rewrite Hbase.
    + right. split; [done|]. rewrite (reference_unique (types_of s1) to at_ Hr1 Hit Hia Hp). constructor.
  - unfold is_indirect, pointee in H. apply bind_answer in H as (s2 & more & H3 & H). apply ask_answer in H3 as [-> H3]. injection H3 as <-.
    destruct (indirect (types_of s1) at_) eqn:Hi; cbn [negb] in H; [|done]. asks plainly H.
    destruct (pointee_below _ at_ Hr1 Hi) as (_ & _ & _ & Hvp & _ & _).
    destruct (IH _ s1 s' Hr1 Hvp Hto1 H) as (Hf2 & Hk2 & Hres). split; [congruence|]. split; [by eapply keeps_trans|].
    pose proof (indirect_grows _ _ _ (kp_grows _ _ _ _ Hk2) Hi) as Hi'. rewrite <- (pointee_grows _ _ _ (kp_grows _ _ _ _ Hk2) Hi) in Hres.
    destruct Hres as [(slice & e & Hu)|[Hit Hreach]]; [left|right; split; [done|by apply reaches_on]].
    exists slice, e. rewrite (base_behind (types_of s') at_); [done|apply Hk2| |done]. by apply (ptr_valid_grows _ _ (kp_grows _ _ _ _ Hk2)).
Qed.

Lemma accepts_answer to from s s' : types_ok (types_of s) -> ptr_valid (reg_types (types_of s)) from -> ptr_valid (reg_types (types_of s)) to ->
  type_accepts type_addr str_addr to from s = Answered s' true ->
  rs_facts s' = rs_facts s /\ keeps (types_of s) (types_of s') /\ coercible (types_of s') to from.
Proof.
  intros Hr Hv Hto H. unfold type_accepts in H. unfold coercible. case_bool_decide as Heq.
  { injection H as <-. split; [done|]. split; [by apply keeps_refl|]. by left. }
  apply bind_answer in H as (s1 & unsized & H1 & H). apply unsizes_answer in H1 as [-> H1]. destruct unsized.
  { injection H as <-. split; [done|]. split; [by apply keeps_refl|]. right; right; left. by apply H1. }
  apply bind_answer in H as (s1 & borrowed & H2 & H). apply borrows_answer in H2 as [-> H2]. destruct borrowed.
  { injection H as <-. split; [done|]. split; [by apply keeps_refl|]. right; left. by apply H2. }
  apply bind_answer in H as (s1 & s2 & H3 & H). injection H3 as <- <-.
  destruct (accepts_from_answer _ to from s s' Hr Hv Hto H) as (Hf & Hk & Hres). split; [done|]. split; [done|]. tauto.
Qed.

(** ** What is adjusted *)

Section borrow.
Context (node_addr : NodePtr -> N).

(** The expression has a type and no adjustment yet. *)
Definition unadjusted (facts : Facts) (path : NodePtr) (from : TypePtr) : Prop := exists g fact,
  exprs_hold node_addr facts g /\ g !! path = Some fact /\ Facts.fact_type fact = from /\ fact_adjust fact = no_adjustment.

Lemma write_adjustment path adj from s s' u : unadjusted (rs_facts s) path from ->
  write_facts (fun facts => fact_set_adjustment node_addr facts path adj) s = Answered s' u ->
  types_of s' = types_of s /\ fact_adjustment node_addr (rs_facts s') path = adj /\
  fact_adjusted_type_of node_addr (rs_facts s') path = match adjust_to adj with Some type => Some type | None => from end.
Proof.
  intros (g & fact & Hg & Hp & Hft & _) H. unfold write_facts, fact_set_adjustment in H.
  destruct (fact_mut_map node_addr (rs_facts s) g path (fun f => MkExprFact (Facts.fact_type f) (fact_use f) (fact_callee f) adj (fact_constant f) (fact_field f) (fact_initialized_field f) (fact_call f) (fact_moved f)) Hg)
    as (facts & Hm & Hg' & _). rewrite Hm in H. injection H as <-. rewrite Hp in Hg'. cbn [default from_option] in Hg'. split; [done|].
  unfold fact_adjustment, fact_adjusted_type_of. cbn [rs_facts put_facts]. rewrite (fact_of_map node_addr facts _ path Hg'), lookup_insert_eq. cbn. by rewrite Hft.
Qed.

Lemma unadjusted_reads facts path from : unadjusted facts path from ->
  fact_type_of node_addr facts path = from /\ fact_adjustment node_addr facts path = no_adjustment /\ fact_adjusted_type_of node_addr facts path = from.
Proof.
  intros (g & fact & Hg & Hp & Hft & Ha). unfold fact_type_of, fact_adjustment, fact_adjusted_type_of. rewrite (fact_of_map node_addr facts g path Hg), Hp. cbn.
  by rewrite Ha, Hft.
Qed.

Lemma pin_keeps path expr s s' u : pin_root node_addr path expr s = Answered s' u -> types_of s' = types_of s /\ rs_facts s' = rs_facts s.
Proof. unfold pin_root. destruct fact_root_local; by intros [= <-]. Qed.

Definition coerced (s : ResolverState) (path : NodePtr) (from to : TypePtr) : Prop :=
  fact_adjusted_type_of node_addr (rs_facts s) path = to /\ adjusts (types_of s) from to (fact_adjustment node_addr (rs_facts s) path).

Lemma unsized_coerces path expr span from to s s' : types_ok (types_of s) -> unadjusted (rs_facts s) path from -> to <> None ->
  unsizes_at (types_of s) to from -> unsize_into node_addr path expr to span s = Answered s' true -> coerced s' path from to.
Proof.
  intros Hr Hu Hto (slice & e & Href & Hks & Hse & Hka & Hae) H. unfold unsize_into in H. apply bind_answer in H as (s1 & t & H1 & H). injection H1 as <- <-.
  rewrite (proj1 (unadjusted_reads _ _ _ Hu)) in H. apply bind_answer in H as (s1 & [base count] & H1 & H). apply ask_answer in H1 as [-> H1].
  assert (Hs : strip_references (heap_fuel (types_of s)) (types_of s) from = (base, count)) by congruence. clear H1.
  apply bind_answer in H as (s1 & addressable & H2 & H). injection H2 as <- <-.
  destruct (is_addressable_at node_addr s path expr); cbn [negb] in H; [|done].
  apply bind_answer in H as (s1 & [] & H2 & H). apply pin_keeps in H2 as [Ht Hf]. rewrite <- Hf in Hu. rewrite <- Ht in *.
  unfold unsized_length, adjust_derefs in H. asks H as Hlen. asks plainly H. apply bind_answer in H as (s2 & [] & H3 & H). injection H as <-.
  destruct (write_adjustment _ _ _ _ _ _ Hu H3) as (Ht2 & Hadj & Hto2). unfold coerced. rewrite Ht2, Hadj, Hto2. cbn [adjust_to].
  split; [by destruct to|]. unfold adjusts. cbn [deref_types adjust_kind].
  destruct (follows_chain (types_of s1) from (heap_fuel (types_of s1)) count) as [Hfol Hheld]; [by rewrite Hs|]. split; [done|].
  rewrite Hs in Hheld. cbn [fst] in Hheld. rewrite Hheld. unfold base_type_at in Hka, Hae. rewrite Hs in Hka, Hae. by exists slice, e.
Qed.

Lemma borrow_coerces path expr span from to s s' : types_ok (types_of s) -> ptr_valid (reg_types (types_of s)) from -> to <> None ->
  unadjusted (rs_facts s) path from -> coercible (types_of s) to from -> borrow_into node_addr path expr to span s = Answered s' true ->
  coerced s' path from to.
Proof.
  intros Hr Hv Hto Hu Hc H. unfold borrow_into, adjust_derefs in H. apply bind_answer in H as (s1 & t & H1 & H). injection H1 as <- <-.
  rewrite (proj1 (unadjusted_reads _ _ _ Hu)) in H. apply bind_answer in H as (s1 & unsized & H1 & H). apply unsizes_answer in H1 as [-> H1].
  destruct unsized; [by apply (unsized_coerces path expr span from to s s'); try done; apply H1|].
  apply bind_answer in H as (s1 & [at_ count] & H2 & H). apply ask_answer in H2 as [-> H2].
  apply (inj Some) in H2.
  destruct (towards_chain _ _ _ _ _ _ H2) as [Hfol Hheld].
  apply bind_answer in H as (s1 & borrowed & H3 & H). apply borrows_answer in H3 as [-> H3].
  assert (Hcase : (at_ = to /\ borrowed = false) \/ (borrowed = true /\ refers_to (types_of s) to at_)).
  { assert (Hat : at_ = to -> borrowed = false) by (intros ->; destruct borrowed; [by destruct (proj1 H3 eq_refl)|done]).
    assert (Hfst : at_ = (derefs_towards (heap_fuel (types_of s)) (types_of s) (pointee_at (types_of s) to) from).1) by by rewrite H2.
    destruct Hc as [<-|[Href|[Hun|[Hit Hreach]]]].
    - left. enough (at_ = to) by auto. rewrite Hfst. unfold heap_fuel. cbn [derefs_towards]. rewrite bool_decide_eq_true_2 by done.
      by rewrite andb_false_r.
    - right. assert (at_ = from) as Hfrom.
      { rewrite Hfst. unfold heap_fuel. cbn [derefs_towards]. destruct Href as [_ ->]. rewrite (bool_decide_eq_true_2 (from = from)) by done. by rewrite andb_false_r. }
      rewrite Hfrom in H3 |- *. split; [|done]. apply H3. split; [|done]. intros Heq. destruct Href as [Hk Hp].
      pose proof (pointee_above (types_of s) to Hr (proj2 (indirect_at _ _) Hk)) as Hlt. rewrite Hp, <- Heq in Hlt. by apply Nat.lt_irrefl in Hlt.
    - discriminate (proj2 H1 Hun).
    - left. enough (at_ = to) by auto. rewrite Hfst. apply towards_reaches; [done..|]. by apply above_heap. }
  destruct Hcase as [[-> ->]|[-> Href]]; cbn [negb] in H.
  - destruct (Nat.ltb 0 count) eqn:Hcount.
    + apply bind_answer in H as (s1 & [] & H4 & H). injection H as <-. asks plainly H4.
      destruct (write_adjustment _ _ _ _ _ _ Hu H4) as (Ht2 & Hadj & Hto2). unfold coerced. rewrite Ht2, Hadj, Hto2. cbn [adjust_to].
      split; [by destruct to|]. by split.
    + apply bind_answer in H as (s1 & [] & H4 & H). injection H4 as <-. injection H as <-. destruct count; [|done]. cbn in Hheld.
      destruct (unadjusted_reads _ _ _ Hu) as (_ & Hadj & Ht). unfold coerced. rewrite Hadj, Ht. split; [done|]. split; done.
  - apply bind_answer in H as (s1 & addressable & H4 & H). injection H4 as <- <-.
    destruct (is_addressable_at node_addr s path expr); cbn [negb] in H; [|done].
    apply bind_answer in H as (s1 & [] & H5 & H). apply pin_keeps in H5 as [Ht Hf]. rewrite <- Hf in Hu. rewrite <- Ht in *.
    asks plainly H. apply bind_answer in H as (s2 & [] & H6 & H). injection H as <-.
    destruct (write_adjustment _ _ _ _ _ _ Hu H6) as (Ht2 & Hadj & Hto2). unfold coerced. rewrite Ht2, Hadj, Hto2. cbn [adjust_to].
    split; [by destruct to|]. unfold adjusts. cbn [deref_types adjust_kind]. split; [done|]. by rewrite Hheld.
Qed.
End borrow.
End types.

(** C9: A coerced value has the type it is given to.  Where [type_accepts] takes
    a value of a type for a destination's and [borrow_into] adjusts it, the
    adjusted type is the destination's; following the references the adjustment
    counts, one after the other, leads from the value's type to the destination's
    itself, or to the type a reference of the destination's refers to, or to an
    array of what its slice holds, as the adjustment's kind says. *)
Theorem coerced_value_has_the_type type_addr str_addr node_addr path expr span to from s s1 s2 :
  RegistryTypes.types_ok type_addr str_addr (types_of s) -> ptr_valid (reg_types (types_of s)) from -> ptr_valid (reg_types (types_of s)) to -> to <> None ->
  unadjusted node_addr (rs_facts s) path from ->
  type_accepts type_addr str_addr to from s = Answered s1 true -> borrow_into node_addr path expr to span s1 = Answered s2 true ->
  fact_adjusted_type_of node_addr (rs_facts s2) path = to /\
  adjusts (types_of s2) from to (fact_adjustment node_addr (rs_facts s2) path).
Proof.
  intros Hr Hf Ht Hto Hu Ha Hb. destruct (accepts_answer _ _ to from s s1 Hr Hf Ht Ha) as (Hfacts & Hk & Hc). rewrite <- Hfacts in Hu.
  apply (borrow_coerces type_addr str_addr node_addr path expr span from to s1 s2); [apply Hk| |done..].
  by apply (ptr_valid_grows _ _ (kp_grows _ _ _ _ Hk)).
Qed.

(** ** A reference to a reference, given for a reference *)

Definition coerce_types : TypeRegistry := Eval vm_compute in state_after (type_registry_ref_to sample_addr sample_addr sample_6 ref_to_holder_of_first).
Definition ref_to_ref : TypePtr := Some 12.
Definition coerce_facts : Facts := Eval vm_compute in
  default (MkFacts new_table new_table new_table) (facts ← facts_init; fact_set_type (fun _ => 0%N) facts [0] ref_to_ref).

(** A state of resolution with these types and facts, and nothing else. *)
Definition coerce_state : ResolverState :=
  MkResolverState (MkWorld coerce_types no_functions) (MkStringPool new_table []) (diagnostics_init None) (MkScopes [] []) [] [] coerce_facts
    pending_bodies_create [] [] new_table (MkEnv 0 None None (MkFuncContext None false 0) None).

Lemma coerce_types_ok : RegistryTypes.types_ok sample_addr sample_addr coerce_types.
Proof.
  apply ok_types, (reachable_ok sample_addr sample_addr). destruct sample_reachable as (n & r0 & Hc & Hs). exists n, r0. split; [exact Hc|].
  etransitivity; [exact Hs|]. eapply rtc_l; [eapply (step_ref _ _ sample_6 ref_to_holder_of_first coerce_types); [cbn; lia|by vm_compute]|]. apply rtc_refl.
Qed.

Lemma coerce_unadjusted : unadjusted (fun _ => 0%N) coerce_facts [0] ref_to_ref.
Proof.
  destruct (facts_init_map (fun _ => 0%N) (fun _ => 0%N)) as (f0 & H0 & Hg & _).
  destruct (fact_mut_map (fun _ => 0%N) f0 ∅ [0] (fun f => MkExprFact ref_to_ref (fact_use f) (fact_callee f) (fact_adjust f) (fact_constant f) (fact_field f) (fact_initialized_field f) (fact_call f) (fact_moved f)) Hg)
    as (f1 & H1 & Hg1 & _).
  assert (f1 = coerce_facts) as ->.
  { vm_compute in H0. injection H0 as <-. vm_compute in H1. injection H1 as <-. vm_compute. reflexivity. }
  eexists _, _. split; [exact Hg1|]. split; [apply lookup_insert_eq|]. by split.
Qed.

Lemma coerced_value_has_the_type_witness : exists s1 s2,
  type_accepts sample_addr sample_addr ref_to_holder_of_first ref_to_ref coerce_state = Answered s1 true /\
  borrow_into (fun _ => 0%N) [0] (EXPR_NAME (MkSpan 1 1) (MkASTIdent 0 (MkSpan 1 1)) None) ref_to_holder_of_first (MkSpan 1 1) s1 = Answered s2 true /\
  fact_adjusted_type_of (fun _ => 0%N) (rs_facts s2) [0] = ref_to_holder_of_first /\
  deref_types (fact_adjustment (fun _ => 0%N) (rs_facts s2) [0]) = [ref_to_holder_of_first] /\
  adjusts (types_of s2) ref_to_ref ref_to_holder_of_first (fact_adjustment (fun _ => 0%N) (rs_facts s2) [0]).
Proof.
  destruct (type_accepts sample_addr sample_addr ref_to_holder_of_first ref_to_ref coerce_state) as [s1 a| |] eqn:Ha; [|by vm_compute in Ha..].
  vm_compute in Ha. injection Ha as Hs1 <-.
  destruct (borrow_into (fun _ => 0%N) [0] (EXPR_NAME (MkSpan 1 1) (MkASTIdent 0 (MkSpan 1 1)) None) ref_to_holder_of_first (MkSpan 1 1) s1) as [s2 b| |] eqn:Hb;
    [|by subst s1; vm_compute in Hb..].
  assert (b = true) as -> by (subst s1; vm_compute in Hb; congruence).
  exists s1, s2. split; [reflexivity|]. split; [exact Hb|].
  destruct (coerced_value_has_the_type sample_addr sample_addr (fun _ => 0%N) [0] (EXPR_NAME (MkSpan 1 1) (MkASTIdent 0 (MkSpan 1 1)) None) (MkSpan 1 1)
    ref_to_holder_of_first ref_to_ref coerce_state s1 s2) as [H1 H2].
  - exact coerce_types_ok.
  - cbn. lia.
  - cbn. lia.
  - discriminate.
  - exact coerce_unadjusted.
  - rewrite <- Hs1. vm_compute. reflexivity.
  - exact Hb.
  - split; [exact H1|]. split; [|exact H2]. subst s1. vm_compute in Hb. injection Hb as <-. vm_compute. reflexivity.
Defined.
