(* ===== verification/TypeExprs.v ===== *)
(** * TypeExprs: the types a program writes

    [src/src/ast/typexpr.c], and of [src/src/ast/resolve.c] what it calls: the
    names a file sees, and the fields of structs.  A type names a struct, and the
    fields of that struct are resolved when a type that holds it by value is, so
    the functions call each other; [types_at] ties them at each fuel. *)

From Stdlib Require Import String.
From S2P Require Import Ast Facts.
From S2P Require Import Prelude Types Mir Decl Diagnostics Strings HashMap Registry RegistryTypes RegistryState Functions Scopes Instantiate Build Check.

(** What is the same throughout a resolution: the module and its privileges, and
    the modules there are. *)
Record Resolution := MkResolution {
  of_module_scope : nat;
  of_module_name : StrPtr;
  declares_intrinsics : bool;
  of_modules : list Module;
}.

(** [BoundKind] of [decl.h] before the bound is resolved. *)
Inductive BoundKind := NO_BOUND | INTERFACE_BOUND | VALUE_BOUND.

#[export] Instance BoundKind_eq_dec : EqDecision BoundKind.
Proof. solve_decision. Defined.

Definition is_type_name (expr : TypeExpr) : bool := match expr with TYPE_EXPR_NAME _ _ => true | _ => false end.
Definition is_type_const (expr : TypeExpr) : bool := match expr with TYPE_EXPR_CONST _ => true | _ => false end.

(** [expr->name->name]; the name of a type expression of another kind is not set. *)
Definition type_expr_ident (expr : TypeExpr) : option nat :=
  match expr with TYPE_EXPR_NAME name _ => Some (ident_name name) | _ => None end.

(** The functions that call each other. *)
Record TypeRecursion := MkTypeRecursion {
  rec_type_expr : TypeExpr -> Span -> Resolve TypePtr;
  rec_struct_fields : nat -> Resolve unit;
}.

Section type_exprs.
Context (type_addr str_addr : nat -> N) (type_fuel : nat) (res : Resolution).

#[local] Abbreviation lookup := (fun s scope name => scope_lookup str_addr (rs_scopes s) scope name).

(** ** Names *)

Definition scope_lookup_in (scope : option nat) (name : StrPtr) : Resolve SymbolPtr := fun s => want (lookup s scope name) s.
Definition symbol_of (symbol : SymbolPtr) : Resolve (option Symbol) := fun s =>
  match symbol with None => Answered s None | Some n => want (Some <$> symbol_heap (rs_scopes s) !! n) s end.

Definition reject_self_as_name (name : StrPtr) (span : Span) : Resolve bool :=
  known ← resolver_names;
  if negb (bool_decide (name = name_self known)) then mret false
  else diag GAB_ERR_NAME span "'Self' names the type an 'impl' block is for, so it cannot be declared";; mret true.

Definition resolver_declaring_scope : Resolve nat := fun s =>
  Answered s (default (env_scope (rs_env s)) (env_declaring (rs_env s))).

Definition resolver_qualifier_scope (qualifier : nat) : Resolve (option nat) :=
  if bool_decide (Some qualifier = of_module_name res) then mret (Some (of_module_scope res))
  else
    s ← current;
    found ← scope_lookup_in (Some (env_scope (rs_env s))) (Some qualifier);
    bound ← symbol_of found;
    match symbol_kind <$> bound with
    | Some (SYMBOL_MODULE module) => m ← want (n ← module; of_modules res !! n); mret (Some (module_names m))
    | _ => mret None
    end.

Definition resolver_type_expr_scope (qualifier : option ASTIdent) : Resolve (option nat) :=
  match qualifier with
  | Some qualifier => resolver_qualifier_scope (ident_name qualifier)
  | None => s ← current; mret (Some (env_scope (rs_env s)))
  end.

(** The loop of [file_lookup]. *)
Fixpoint lookup_in_modules (modules : list nat) (name : StrPtr) : Resolve SymbolPtr :=
  match modules with
  | [] => mret None
  | module :: modules =>
      m ← want (of_modules res !! module);
      found ← scope_lookup_in (Some (module_names m)) name;
      match found with Some _ => mret found | None => lookup_in_modules modules name end
  end.

Definition file_lookup (name : StrPtr) : Resolve SymbolPtr :=
  s ← current;
  match env_visible (rs_env s) with None => mret None | Some modules => lookup_in_modules modules name end.

Definition resolver_resolve_name (scope : option nat) (name : StrPtr) : Resolve SymbolPtr :=
  found ← (match scope with Some _ => scope_lookup_in scope name | None => mret None end);
  match found with Some _ => mret found | None => file_lookup name end.

Definition type_of_symbol (symbol : option Symbol) : Resolve TypePtr := with_types (fun r => symbol_type str_addr type_addr r symbol).

(** ** Holding a type *)

Definition reject_unsized (type : TypePtr) (span : Span) (held_as : string) : Resolve bool :=
  sized ← ask_types (fun r => Some (type_is_sized (deref r type)));
  if bool_decide (type = None) || sized then mret false
  else
    name ← type_name type;
    diag GAB_ERR_TYPE span ("nothing holds a '" +:+ name +:+ "', so it cannot be " +:+ held_as +:+ "; write '&" +:+ name +:+ "'");;
    mret true.

Definition bound_kind_of (bound : option TypeExpr) : Resolve BoundKind :=
  known ← resolver_names;
  mret (match bound with
        | None => NO_BOUND
        | Some (TYPE_EXPR_NAME name _) => if bool_decide (Some (ident_name name) = name_i32 known) then VALUE_BOUND else INTERFACE_BOUND
        | Some _ => INTERFACE_BOUND
        end).

Definition bind_type_param (params : nat) (name : nat) (index : nat) (kind : BoundKind) : Resolve bool :=
  match kind with
  | VALUE_BOUND => with_scopes (fun ss => scope_bind_const str_addr ss params (Some name) (CONST_PARAM index))
  | _ =>
      type ← make_type (fun r => type_registry_param r index);
      with_scopes (fun ss => scope_bind_type_param str_addr ss params (Some name) type)
  end.

(** *** Structs held by value *)

Fixpoint array_held (fuel : nat) (r : TypeRegistry) (type : TypePtr) : option TypePtr :=
  match fuel with
  | O => None
  | S fuel =>
      match deref r type with
      | Some t => if bool_decide (ty_kind t = TYPE_ARRAY) then element ← type_array_element (Some t); array_held fuel r element else Some type
      | None => Some type
      end
  end.

Definition decl_held_by_value (type : TypePtr) : Resolve (option nat) :=
  held ← ask_types (fun r => array_held (heap_fuel r) r type);
  s ← current;
  mret (match deref (types_of s) held with
        | None => None
        | Some t => fst <$> list_find (fun decl => sd_decl decl = ty_decl t) (rs_struct_decls s)
        end).

(** The index past the end when it is not being resolved. *)
Definition resolving_index_of (s : ResolverState) (decl : nat) : nat :=
  default (length (rs_resolving s)) (fst <$> list_find (eq decl) (rs_resolving s)).

(** The buffer has room for 255 characters and the final [NUL]; where a part that
    does not fit was cut off, the dots are written over it as far as they fit. *)
Fixpoint cycle_path (s : ResolverState) (decls : list nat) (path : string) : string :=
  match decls with
  | [] => path
  | d :: decls =>
      let part := "'" +:+ text_at s (sd_name <$> rs_struct_decls s !! d) +:+ "' contains " in
      let room := 256 - String.length path in
      if Nat.leb room (String.length part) then path +:+ String.substring 0 (room - 1) "... "
      else cycle_path s decls (path +:+ part)
  end.

Definition report_containment_cycle (closes_on : nat) (span : Span) : Resolve unit :=
  s ← current;
  let name := text_at s (sd_name <$> rs_struct_decls s !! closes_on) in
  let path := cycle_path s (drop (resolving_index_of s closes_on) (rs_resolving s)) "" in
  diag GAB_ERR_TYPE span ("struct '" +:+ name +:+ "' cannot contain itself: " +:+ path +:+ "'" +:+ name +:+ "'").

(** ** [typexpr.c] *)

Section recursion.
Context (self : TypeRecursion).

Definition element_completes_a_cycle (type : TypePtr) : Resolve (option nat) :=
  decl ← decl_held_by_value type;
  match decl with
  | None => mret None
  | Some d =>
      s ← current;
      if Nat.ltb (resolving_index_of s d) (length (rs_resolving s)) then mret (Some d)
      else rec_struct_fields self d;; mret None
  end.

Definition size_of (type : TypePtr) : Resolve Z := with_types (fun r => type_registry_size_of type_addr str_addr type_fuel r type).

Definition resolve_element_type (expr : TypeExpr) (span : Span) (held_as : string) : Resolve TypePtr :=
  element ← rec_type_expr self expr span;
  error ← is_error_type element;
  if error : bool then mret None
  else
    generic ← has_param element;
    if generic : bool then mret element
    else
      unsized ← reject_unsized element span held_as;
      if unsized : bool then mret None
      else
        cycle ← element_completes_a_cycle element;
        match cycle with
        | Some decl => report_containment_cycle decl span;; mret None
        | None =>
            size ← size_of element;
            if (size =? 0)%Z then diag GAB_ERR_TYPE span (held_as +:+ " must have a size");; mret None
            else mret element
        end.

Definition array_length_message : string := "an array's length is a literal or a value parameter, as 'array<i32, 3>'".

(** [None] is the [false] of the code. *)
Definition resolve_array_length (expr : TypeExpr) (span : Span) : Resolve (option TypeConst) :=
  let failed := diag GAB_ERR_TYPE span array_length_message;; mret None in
  match expr with
  | TYPE_EXPR_CONST constant => i32 ← i32_type; mret (Some (CONST_VALUE (constant_int i32 constant)))
  | TYPE_EXPR_NAME name qualifier =>
      scope ← resolver_type_expr_scope qualifier;
      found ← resolver_resolve_name scope (Some (ident_name name));
      symbol ← symbol_of found;
      match symbol_kind <$> symbol with
      | Some (SYMBOL_CONST constant) => mret (Some constant)
      | _ => failed
      end
  | _ => failed
  end.

Definition resolve_array_type (args : list TypeExpr) (span : Span) : Resolve TypePtr :=
  match args with
  | [element; length] =>
      element ← resolve_element_type element span "an array's element";
      match element with
      | None => resolver_error_type
      | Some _ =>
          length ← resolve_array_length length span;
          match length with
          | None => resolver_error_type
          | Some (CONST_PARAM param) => make_type (fun r => type_registry_array_with type_addr str_addr r element (TYPE_ARG_CONST (CONST_PARAM param)))
          | Some (CONST_VALUE value) =>
              if (const_int value <=? 0)%Z then
                diag GAB_ERR_TYPE span ("an array's length must be positive, not " +:+ print_int (const_int value));;
                resolver_error_type
              else make_type (fun r => type_registry_array_with type_addr str_addr r element (TYPE_ARG_CONST (CONST_VALUE value)))
          end
      end
  | _ => diag GAB_ERR_TYPE span "'array' takes an element and a length, as 'array<i32, 3>'";; resolver_error_type
  end.

Definition resolve_slice_type (args : list TypeExpr) (span : Span) : Resolve TypePtr :=
  let failed := diag GAB_ERR_TYPE span "'slice' takes one element type, as 'slice<int>'";; resolver_error_type in
  match args with
  | [element] =>
      if is_type_const element then failed
      else
        element ← resolve_element_type element span "a slice's element";
        match element with
        | None => resolver_error_type
        | Some _ => make_type (fun r => type_registry_slice_of type_addr str_addr r element)
        end
  | _ => failed
  end.

(** One turn of the loop over the arguments of a generic struct; [None] is the
    [return] of the error type. *)
Definition resolve_type_arg (expr : TypeExpr) (span : Span) : Resolve (option TypePtr) :=
  arg ← rec_type_expr self expr span;
  error ← is_error_type arg;
  if error : bool then mret None
  else
    generic ← has_param arg;
    if generic : bool then mret (Some arg)
    else
      unsized ← reject_unsized arg span "a type argument";
      if unsized : bool then mret None
      else
        cycle ← element_completes_a_cycle arg;
        match cycle with
        | Some decl => report_containment_cycle decl span;; mret None
        | None => mret (Some arg)
        end.

Fixpoint resolve_type_args (exprs : list TypeExpr) (span : Span) : Resolve (option (list TypePtr)) :=
  match exprs with
  | [] => mret (Some [])
  | expr :: exprs =>
      arg ← resolve_type_arg expr span;
      match arg with
      | None => mret None
      | Some arg =>
          rest ← resolve_type_args exprs span;
          mret ((fun rest => arg :: rest) <$> rest)
      end
  end.

(** The arguments go into an array of [GAB_MAX_TYPE_PARAMS]. *)
Definition resolve_generic_struct (decl : DeclPtr) (args : list TypeExpr) (span : Span) : Resolve TypePtr :=
  d ← ask_types (fun r => deref_decl r decl);
  if negb (Nat.eqb (length args) (decl_param_count d)) then
    name ← opt_text (id_name (decl_id d));
    diag GAB_ERR_TYPE span ("'" +:+ name +:+ "' takes " +:+ number (decl_param_count d) +:+ " type argument(s), not " +:+ number (length args));;
    resolver_error_type
  else if Nat.ltb GAB_MAX_TYPE_PARAMS (length args) then refused
  else
    resolved ← resolve_type_args args span;
    match resolved with
    | None => resolver_error_type
    | Some types => make_type (fun r => type_registry_apply type_addr str_addr r decl types)
    end.

Definition resolve_applied_type (base : TypeExpr) (args : list TypeExpr) (span : Span) : Resolve TypePtr :=
  match base with
  | TYPE_EXPR_NAME name qualifier =>
      known ← resolver_names;
      if bool_decide (Some (ident_name name) = name_array known) then resolve_array_type args span
      else if bool_decide (Some (ident_name name) = name_slice known) then resolve_slice_type args span
      else
        scope ← resolver_type_expr_scope qualifier;
        found ← (match scope with Some _ => resolver_resolve_name scope (Some (ident_name name)) | None => mret None end);
        symbol ← symbol_of found;
        base ← type_of_symbol symbol;
        match symbol_kind <$> symbol with
        | None =>
            text ← name_text (ident_name name);
            diag GAB_ERR_NAME span ("unknown type '" +:+ text +:+ "'");; resolver_error_type
        | Some (SYMBOL_TYPE_DECL (Some decl)) => resolve_generic_struct (Some decl) args span
        | Some _ =>
            text ← type_name base;
            diag GAB_ERR_TYPE span (text +:+ " does not take a type argument");; resolver_error_type
        end
  | _ => refused
  end.

Definition resolve_named_type (name : ASTIdent) (qualifier : option ASTIdent) (span : Span) : Resolve TypePtr :=
  scope ← resolver_type_expr_scope qualifier;
  found ← resolver_resolve_name scope (Some (ident_name name));
  symbol ← symbol_of found;
  type ← type_of_symbol symbol;
  match type with
  | Some _ => mret type
  | None =>
      match symbol_kind <$> symbol with
      | Some (SYMBOL_TYPE_DECL decl) =>
          d ← ask_types (fun r => deref_decl r decl);
          text ← opt_text (id_name (decl_id d));
          diag GAB_ERR_TYPE span ("'" +:+ text +:+ "' takes " +:+ number (decl_param_count d) +:+ " type argument(s), not 0");;
          resolver_error_type
      | _ =>
          known ← resolver_names;
          if bool_decide (Some (ident_name name) = name_self known) then
            diag GAB_ERR_NAME span "'Self' names the type an 'impl' block is for, and there is none here";; resolver_error_type
          else
            text ← name_text (ident_name name);
            diag GAB_ERR_NAME span ("unknown type '" +:+ text +:+ "'");; resolver_error_type
      end
  end.

Definition resolve_type_expr_of (expr : TypeExpr) (span : Span) : Resolve TypePtr :=
  match expr with
  | TYPE_EXPR_REF inner =>
      inner ← rec_type_expr self inner span;
      error ← is_error_type inner;
      if error : bool then resolver_error_type else make_type (fun r => type_registry_ref_to type_addr str_addr r inner)
  | TYPE_EXPR_RAW inner =>
      element ← rec_type_expr self inner span;
      error ← is_error_type element;
      if error : bool then resolver_error_type
      else
        generic ← has_param element;
        unsized ← (if generic : bool then mret false else reject_unsized element span "a raw run's element");
        if unsized : bool then resolver_error_type else make_type (fun r => type_registry_raw_of type_addr str_addr r element)
  | TYPE_EXPR_APPLY base args => resolve_applied_type base args span
  | TYPE_EXPR_CONST _ => diag GAB_ERR_TYPE span "a length is an argument to 'array', not a type";; resolver_error_type
  | TYPE_EXPR_NAME name qualifier => resolve_named_type name qualifier span
  end.

(** ** The fields of a struct *)

Definition struct_decl_at (d : nat) : Resolve StructDecl := s ← current; want (rs_struct_decls s !! d).
Definition change_struct (d : nat) (f : StructDecl -> StructDecl) : Resolve unit :=
  change (fun s => put_structs s (alter f d (rs_struct_decls s)) (rs_resolving s)).
Definition demand_fields (sd : StructDecl) : StructDecl :=
  MkStructDecl (sd_fields sd) (sd_params sd) (sd_span sd) (sd_file_scope sd) (sd_visible sd) (sd_name sd) (sd_decl sd) true (poisoned sd).
Definition poison (sd : StructDecl) : StructDecl :=
  MkStructDecl (sd_fields sd) (sd_params sd) (sd_span sd) (sd_file_scope sd) (sd_visible sd) (sd_name sd) (sd_decl sd) (fields_demanded sd) true.

Definition field_type_failed (type : TypePtr) : Resolve bool :=
  decl ← decl_held_by_value type;
  match decl with None => mret false | Some d => sd ← struct_decl_at d; mret (poisoned sd) end.

(** One turn of the loop over the type parameters. *)
Definition bind_struct_param (params : nat) (sd : StructDecl) (i : nat) (param : ASTIdent) : Resolve unit :=
  rejected ← reject_self_as_name (Some (ident_name param)) (ident_span param);
  if rejected : bool then mret tt
  else
    type ← make_type (fun r => type_registry_param r i);
    s ← current;
    bound ← with_scopes (fun ss => scope_bind_type str_addr (types_of s) ss params (Some (ident_name param)) type);
    if bound : bool then mret tt
    else
      name ← name_text (ident_name param);
      struct_name ← name_text (sd_name sd);
      diag GAB_ERR_NAME (sd_span sd) ("duplicate type parameter '" +:+ name +:+ "' on '" +:+ struct_name +:+ "'").

(** One turn of the loop over the fields; [None] is a field that fails. *)
Definition resolve_field (sd : StructDecl) (seen : list TypeField) (field : ASTField) : Resolve (option TypeField) :=
  let name := Some (ident_name (field_ident field)) in
  let span := ident_span (field_ident field) in
  if existsb (fun f => bool_decide (field_name f = name)) seen then
    text ← opt_text name;
    struct_name ← name_text (sd_name sd);
    diag GAB_ERR_NAME span ("duplicate field '" +:+ text +:+ "' in struct '" +:+ struct_name +:+ "'");; mret None
  else
    type ← rec_type_expr self (field_type_expr field) span;
    error ← is_error_type type;
    if error : bool then mret None
    else
      generic ← has_param type;
      if generic : bool then mret (Some (MkTypeField name type))
      else
        cycle ← element_completes_a_cycle type;
        match cycle with
        | Some closes_on => report_containment_cycle closes_on span;; mret None
        | None =>
            failed ← field_type_failed type;
            if failed : bool then mret None
            else
              unsized ← reject_unsized type span "a field";
              mret (if unsized : bool then None else Some (MkTypeField name type))
        end.

(** The fields that were resolved, and whether one failed. *)
Fixpoint resolve_fields (sd : StructDecl) (seen : list TypeField) (failed : bool) (fields : list ASTField) :
    Resolve (list TypeField * bool) :=
  match fields with
  | [] => mret (seen, failed)
  | field :: fields =>
      resolved ← resolve_field sd seen field;
      match resolved with
      | Some f => resolve_fields sd (seen ++ [f]) failed fields
      | None => resolve_fields sd seen true fields
      end
  end.

Definition set_decl_fields (decl : DeclPtr) (fields : list TypeField) : Resolve unit :=
  n ← want decl;
  with_types (fun r =>
    Some (with_decls r (alter (fun d => MkTypeDecl (decl_id d) (decl_param_count d) fields) n (reg_decls r)), tt)).

Definition layout_struct (sd : StructDecl) : Resolve unit :=
  d ← ask_types (fun r => deref_decl r (sd_decl sd));
  if Nat.ltb 0 (decl_param_count d) then mret tt
  else
    type ← make_type (fun r => type_registry_apply type_addr str_addr r (sd_decl sd) []);
    with_types (fun r => r ← type_registry_complete type_addr str_addr type_fuel r type; Some (r, tt)).

(** What is left once the struct is marked. *)
Definition resolve_demanded (d : nat) (sd : StructDecl) : Resolve unit :=
  change (fun s => put_structs s (rs_struct_decls s) (rs_resolving s ++ [d]));;
  outcome ← restoring_env (
    in_env (fun env => with_visible env (sd_visible sd));;
    params ← with_scopes (fun ss => scope_create ss (Some (sd_file_scope sd)));
    for_all (bind_struct_param params sd) (sd_params sd);;
    in_env (fun env => with_scope env params);;
    resolve_fields sd [] false (sd_fields sd));
  change (fun s => put_structs s (rs_struct_decls s) (removelast (rs_resolving s)));;
  (if outcome.2 : bool then change_struct d poison else mret tt);;
  set_decl_fields (sd_decl sd) outcome.1;;
  layout_struct sd.

Definition resolve_struct_fields_of (d : nat) : Resolve unit :=
  sd ← struct_decl_at d;
  if fields_demanded sd then mret tt else change_struct d demand_fields;; resolve_demanded d sd.
End recursion.

(** The functions at a depth of calls. *)
Fixpoint types_at (fuel : nat) : TypeRecursion :=
  match fuel with
  | O => MkTypeRecursion (fun _ _ => too_deep) (fun _ => too_deep)
  | S fuel => let self := types_at fuel in MkTypeRecursion (resolve_type_expr_of self) (resolve_struct_fields_of self)
  end.

(** A null expression has a null type. *)
Definition resolve_type_expr (fuel : nat) (expr : option TypeExpr) (span : Span) : Resolve TypePtr :=
  match expr with None => mret None | Some expr => rec_type_expr (types_at fuel) expr span end.
Definition resolve_struct_fields (fuel : nat) (d : nat) : Resolve unit := rec_struct_fields (types_at fuel) d.
End type_exprs.
