(* ===== verification/Resolve.v ===== *)
(** * Resolve: the expressions

    [src/src/ast/resolve.c], the part that gives the expressions of a body their
    types: methods and receivers, the type arguments of generics, and
    [resolve_expr].  The functions that call [resolve_expr] take it as [expr_at];
    [exprs_at] ties them at each fuel. *)

From Stdlib Require Import String.
From S2P Require Import Ast Facts.
From S2P Require Import Prelude Types Mir Decl Diagnostics Strings HashMap Registry RegistryTypes RegistryState Functions Scopes Instantiate Build Check TypeExprs.

Definition bin_op_name (op : BinOp) : string :=
  match op with
  | BIN_OP_ADD => "+" | BIN_OP_SUB => "-" | BIN_OP_MUL => "*" | BIN_OP_DIV => "/" | BIN_OP_MOD => "%"
  | BIN_OP_LESS => "<" | BIN_OP_GREATER => ">" | BIN_OP_EQUAL => "==" | BIN_OP_NEQUAL => "!="
  | BIN_OP_LEQUAL => "<=" | BIN_OP_GEQUAL => ">=" | BIN_OP_AND => "&&" | BIN_OP_OR => "||"
  end.

Definition bin_op_yields_bool (op : BinOp) : bool :=
  match op with
  | BIN_OP_EQUAL | BIN_OP_NEQUAL | BIN_OP_LESS | BIN_OP_GREATER | BIN_OP_LEQUAL | BIN_OP_GEQUAL
  | BIN_OP_AND | BIN_OP_OR => true
  | _ => false
  end.

(** A [size_t] that a subtraction made, as [%zu] prints it. *)
Definition size_text (z : Z) : string := print_int (z mod 2 ^ 64)%Z.

Definition GAB_LOCATION_TYPE : string := "Location".

(** Of [is_integer_type] to [is_ordered_type] only the kind matters. *)
Definition is_integer_type (kind : TypeKind) : bool :=
  match kind with
  | TYPE_I32 | TYPE_U8 | TYPE_USIZE => true
  | TYPE_F32 | TYPE_BOOL | TYPE_STR | TYPE_ARRAY | TYPE_SLICE | TYPE_STRUCT | TYPE_REF | TYPE_RAW | TYPE_PARAM
  | TYPE_UNKNOWN | TYPE_ERROR => false
  end.
Definition is_numeric_type (kind : TypeKind) : bool := is_integer_type kind || bool_decide (kind = TYPE_F32).
Definition is_boolean_type (kind : TypeKind) : bool := bool_decide (kind = TYPE_BOOL).
Definition is_ordered_type (kind : TypeKind) : bool := is_numeric_type kind || is_boolean_type kind.

(** [unsize_length] is zero when the receiver is not unsized. *)
Record ReceiverAdjustment := MkReceiverAdjustment { recv_derefs : nat; address_of : bool; unsize_length : Z }.

(** The arguments a call writes, with their pointers; [None] where neither an
    index nor a call is written, whose arguments are another member's bytes. *)
Definition written_args (path : NodePtr) (expr : ASTExpr) : option (list (NodePtr * ASTExpr)) :=
  match expr with
  | EXPR_INDEX _ _ index => Some [(path ++ [1], index)]
  | EXPR_CALL _ _ args => Some (imap (fun i arg => (path ++ [S i], arg)) args)
  | _ => None
  end.

Definition written_owner_type (target : ASTExpr) : option TypeExpr :=
  match target with
  | EXPR_QUALIFIED _ _ _ owner_type_expr => owner_type_expr
  | EXPR_NAME _ _ owner_type_expr => owner_type_expr
  | _ => None
  end.

(** ** The type arguments a call does not write *)

(** [TypeArg args[GAB_MAX_TYPE_PARAMS] = {0}] *)
Definition no_type_args : list TypeArg := replicate GAB_MAX_TYPE_PARAMS TYPE_ARG_NONE.

Section infer.
Context (r : TypeRegistry) (owed : nat).

(** [index < owed], which is at most [GAB_MAX_TYPE_PARAMS], and
    [!type_arg_is_set(args[index])] *)
Definition is_owed (args : list TypeArg) (index : nat) : bool :=
  Nat.ltb index owed && match args !! index with Some arg => negb (type_arg_is_set arg) | None => false end.
Definition take_arg (args : list TypeArg) (index : nat) (arg : TypeArg) : list TypeArg :=
  if is_owed args index then <[index := arg]> args else args.

Section below.
Context (infer : TypePtr -> TypePtr -> list TypeArg -> option (list TypeArg * bool)).

(** The [for (;;)] at a reference: a failed attempt leaves nothing behind. *)
Fixpoint infer_behind (turns : nat) (held at_ : TypePtr) (args : list TypeArg) : option (list TypeArg * bool) :=
  match turns with
  | O => None
  | S turns =>
      '(attempt, ok) ← infer held at_ args;
      if ok : bool then Some (attempt, true)
      else if negb (indirect r at_) then Some (args, false)
      else infer_behind turns held (pointee_at r at_) args
  end.

(** The loop over the arguments of both types, which are equally many. *)
Fixpoint infer_each (wants gots : list TypeArg) (args : list TypeArg) : option (list TypeArg * bool) :=
  match wants, gots with
  | TYPE_ARG_TYPE want :: wants, TYPE_ARG_TYPE got :: gots =>
      '(args, ok) ← infer want got args;
      if ok : bool then infer_each wants gots args else Some (args, false)
  | TYPE_ARG_CONST want :: wants, TYPE_ARG_CONST got :: gots =>
      infer_each wants gots (match want with CONST_PARAM param => take_arg args param (TYPE_ARG_CONST got) | CONST_VALUE _ => args end)
  | [], _ => Some (args, true)
  | _, _ => Some (args, false)
  end.
End below.

(** The arguments as they were left, and what is returned. *)
Fixpoint infer_type_args (fuel : nat) (declared actual : TypePtr) (args : list TypeArg) : option (list TypeArg * bool) :=
  match fuel with
  | O => None
  | S fuel =>
      match declared, actual with
      | Some _, Some _ =>
          if negb (has_param_at r declared) then Some (args, true)
          else
            d ← deref r declared;
            a ← deref r actual;
            if bool_decide (ty_kind d = TYPE_PARAM) then Some (take_arg args (ty_param_index d) (TYPE_ARG_TYPE actual), true)
            else if bool_decide (ty_kind d = TYPE_REF) then
              infer_behind (infer_type_args fuel) (heap_fuel r) (type_pointee (Some d))
                (if type_is_indirect (Some a) then type_pointee (Some a) else actual) args
            else if negb (bool_decide (ty_kind d = ty_kind a)) then Some (args, false)
            else if type_is_indirect (Some d) then infer_type_args fuel (type_pointee (Some d)) (type_pointee (Some a)) args
            else if negb (bool_decide (type_decl d = type_decl a)) || negb (Nat.eqb (type_arg_count d) (type_arg_count a)) then Some (args, false)
            else infer_each (infer_type_args fuel) (type_args d) (type_args a) args
      | _, _ => Some (args, true)
      end
  end.
End infer.

Section resolve.
(** The arena's addresses, the fuel of a question about a type and that of the
    functions of [TypeExprs.v]. *)
Context (type_addr str_addr : nat -> N) (node_addr : NodePtr -> N) (ident_addr : IdentPtr -> N) (type_fuel depth : nat) (res : Resolution).

#[local] Abbreviation type_accepts := (Check.type_accepts type_addr str_addr).
#[local] Abbreviation borrow_into := (Check.borrow_into node_addr).
#[local] Abbreviation mark_implicit_move := (Check.mark_implicit_move type_addr str_addr node_addr type_fuel).
#[local] Abbreviation is_addressable := (Check.is_addressable node_addr).
#[local] Abbreviation fact_type := (Check.fact_type node_addr).
#[local] Abbreviation resolve_type_expr := (TypeExprs.resolve_type_expr type_addr str_addr type_fuel res depth).
#[local] Abbreviation resolver_resolve_name := (TypeExprs.resolver_resolve_name str_addr res).
#[local] Abbreviation scope_lookup_in := (TypeExprs.scope_lookup_in str_addr).

Definition adjusted_type (path : NodePtr) : Resolve TypePtr := fun s => Answered s (fact_adjusted_type_of node_addr (rs_facts s) path).
Definition fact_callee (path : NodePtr) : Resolve FuncPtr := fun s => Answered s (fact_callee_of node_addr (rs_facts s) path).
Definition set_type (path : NodePtr) (type : TypePtr) : Resolve unit := write_facts (fun facts => fact_set_type node_addr facts path type).
Definition set_callee (path : NodePtr) (callee : FuncPtr) : Resolve unit := write_facts (fun facts => fact_set_callee node_addr facts path callee).
Definition set_call_kind (path : NodePtr) (kind : CallKind) : Resolve unit := write_facts (fun facts => fact_set_call_kind node_addr facts path kind).
Definition set_constant (path : NodePtr) (constant : Constant) : Resolve unit := write_facts (fun facts => fact_set_constant node_addr facts path constant).

Definition function_of (function : nat) : Resolve Function := s ← current; want (reg_functions (functions_of s) !! function).
Definition interface_at (interface : option nat) : Resolve InterfaceDecl := s ← current; want (n ← interface; rs_interfaces s !! n).
Definition primitive (kind : TypeKind) : Resolve TypePtr := ask_types (fun r => type_registry_get_primitive r kind).

(** [string_from_cstr] *)
Definition intern_name (text : string) : Resolve StrPtr := fun s =>
  match known_name (rs_strings s) text with Some (pool, name) => Answered (put_strings s pool) name | None => Refused end.

Definition resolver_location_type : Resolve TypePtr :=
  name ← intern_name GAB_LOCATION_TYPE;
  s ← current;
  found ← resolver_resolve_name (Some (env_scope (rs_env s))) name;
  match found with
  | None => mret None
  | Some _ => symbol ← symbol_of found; type_of_symbol type_addr str_addr symbol
  end.

(** [pending_bodies_instantiate(state->work, ..., state->global->diagnostics)] *)
Definition instantiate_body (function : nat) : Resolve unit := fun s =>
  match pending_bodies_instantiate (fun name => text_at s (Some name)) (rs_world s) (rs_work s) function (rs_diagnostics s) with
  | Some (work, diagnostics) => Answered (put_diagnostics (put_work s work) diagnostics) tt
  | None => Refused
  end.

(** ** Methods *)

Definition owned_method (type : TypePtr) (name : StrPtr) : Resolve FuncPtr := with_world (owned_for type_addr str_addr type name).
Definition destructor_of (type : TypePtr) : Resolve FuncPtr := fun s =>
  want (function_registry_destructor type_addr str_addr (types_of s) (functions_of s) type) s.

(** Only an array is seen as another type, and what it is seen as is not. *)
Definition chain_turns : nat := 2.

Fixpoint method_from (turns : nat) (at_ : TypePtr) (name : StrPtr) : Resolve (option (nat * TypePtr)) :=
  match at_, turns with
  | None, _ => mret None
  | Some _, O => refused
  | Some _, S turns =>
      found ← owned_method at_ name;
      match found with
      | Some method => mret (Some (method, at_))
      | None => next ← derefs_to type_addr str_addr at_; method_from turns next name
      end
  end.

Definition find_method_on_chain (type : TypePtr) (name : StrPtr) : Resolve (FuncPtr * TypePtr) :=
  base ← receiver_base_type type;
  found ← method_from chain_turns base name;
  mret (match found with Some (method, at_) => (Some method, at_) | None => (None, base) end).

(** The array of the substitutions has room for [GAB_MAX_TYPE_PARAMS]. *)
Definition interface_method_for (interface : InterfaceDecl) (index : nat) (implementor : TypePtr) (args : list TypeArg) : Resolve nat :=
  s ← current;
  signature ← want (method ← iface_methods interface !! index; n ← method; rs_methods s !! n);
  if Nat.ltb GAB_MAX_TYPE_PARAMS (S (length args)) then refused
  else with_world (instance_of type_addr str_addr signature (TYPE_ARG_TYPE implementor :: args)).

(** The first method of that name. *)
Fixpoint method_named (s : ResolverState) (methods : list DeclPtr) (name : StrPtr) : option (option nat) :=
  match methods with
  | [] => Some None
  | method :: methods =>
      d ← (n ← method; rs_methods s !! n);
      if bool_decide (id_name (func_id d) = name) then Some (Some 0)
      else found ← method_named s methods name; Some (option_map S found)
  end.

Definition param_bound (base : TypePtr) : Resolve TypeParamBound :=
  index ← ask_types (fun r => type_param_index (deref r base));
  s ← current;
  want (bounds ← env_param_bounds (rs_env s); bounds !! index).

Definition bound_method (base : TypePtr) (name : StrPtr) : Resolve FuncPtr :=
  parameter ← (match base with None => mret false | Some _ => is_kind TYPE_PARAM base end);
  if negb parameter then mret None
  else
    bound ← param_bound base;
    match bound with
    | BOUND_INTERFACE bound =>
        interface ← interface_at (ref_interface bound);
        s ← current;
        found ← want (method_named s (iface_methods interface) name);
        match found with
        | Some index => method ← interface_method_for interface index base (ref_args bound); mret (Some method)
        | None => mret None
        end
    | _ => mret None
    end.

Definition find_method (receiver : TypePtr) (name : StrPtr) : Resolve (FuncPtr * TypePtr) :=
  '(method, base) ← find_method_on_chain receiver name;
  match method with
  | Some _ => mret (method, base)
  | None => method ← bound_method base name; mret (method, base)
  end.

(** ** Arguments and receivers *)

Definition check_call_arg (path : NodePtr) (arg : ASTExpr) (param_type : TypePtr) (written : nat) : Resolve unit :=
  type ← fact_type path;
  unknown ← is_error_type type;
  wrong ← is_error_type param_type;
  if unknown || wrong then mret tt
  else
    given ← adjusted_type path;
    accepted ← type_accepts param_type given;
    if negb accepted then
      given ← type_name given;
      wanted ← type_name param_type;
      diag GAB_ERR_TYPE (expr_span arg) ("argument " +:+ number written +:+ " is " +:+ given +:+ ", but " +:+ wanted +:+ " was declared")
    else
      borrowed ← borrow_into path arg param_type (expr_span arg);
      if borrowed : bool then mark_implicit_move path (Some arg) param_type (expr_span arg) else mret tt.

(** [params] points into the array of a signature; a read past it is refused. *)
Definition check_call_args (path : NodePtr) (args : list ASTExpr) (params : list TypePtr) : Resolve unit :=
  for_all (fun i arg => param ← want (params !! i); check_call_arg (path ++ [S i]) arg param (S i)) args.

Definition record_receiver_adjustment (path : NodePtr) (method : Function) (adjustment : ReceiverAdjustment) : Resolve unit :=
  if (unsize_length adjustment =? 0)%Z && negb (address_of adjustment) && Nat.eqb (recv_derefs adjustment) 0 then mret tt
  else
    to ← want (sig_params (fn_signature method) !! 0);
    from ← fact_type path;
    types ← adjust_derefs from (recv_derefs adjustment);
    if (0 <? unsize_length adjustment)%Z then
      write_facts (fun facts => fact_set_adjustment node_addr facts path (MkAdjustment ADJUST_UNSIZE types to (unsize_length adjustment)))
    else if address_of adjustment then
      write_facts (fun facts => fact_set_adjustment node_addr facts path (MkAdjustment ADJUST_BORROW types to (unsize_length adjustment)))
    else
      to ← want (last types);
      write_facts (fun facts => fact_set_adjustment node_addr facts path (MkAdjustment ADJUST_NONE types to (unsize_length adjustment))).

Definition resolve_as_method_call (path : NodePtr) (receiver : ASTExpr) (method : nat) (adjustment : ReceiverAdjustment) : Resolve unit :=
  f ← function_of method;
  record_receiver_adjustment (path ++ [0; 0]) f adjustment;;
  param ← want (sig_params (fn_signature f) !! 0);
  mark_implicit_move (path ++ [0; 0]) (Some receiver) param (expr_span receiver);;
  set_callee path (Some method);;
  set_call_kind path CALL_METHOD.

(** What a receiver that is borrowed has to be. *)
Definition borrow_receiver (span : Span) (path : NodePtr) (receiver : ASTExpr) (name : StrPtr) : Resolve bool :=
  addressable ← is_addressable path receiver;
  if negb addressable then
    text ← opt_text name;
    diag GAB_ERR_TYPE span ("cannot call '" +:+ text +:+ "' on a temporary, since it takes a pointer receiver");; mret false
  else pin_root node_addr path receiver;; mret true.

(** The [for (;;)], from the turn [derefs] on. *)
Fixpoint reconcile_from (turns : nat) (span : Span) (path : NodePtr) (receiver : ASTExpr) (declared at_ actual : TypePtr) (name : StrPtr)
    (derefs : nat) : Resolve (option ReceiverAdjustment) :=
  match turns with
  | O => refused
  | S turns =>
      if bool_decide (declared = at_) then mret (Some (MkReceiverAdjustment derefs false 0))
      else
        borrowing ← accepts_by_borrowing declared at_;
        if borrowing : bool then
          borrowed ← borrow_receiver span path receiver name;
          mret (if borrowed : bool then Some (MkReceiverAdjustment derefs true 0) else None)
        else
          unsizes ← unsizes_to_a_slice declared at_;
          if unsizes : bool then
            borrowed ← borrow_receiver span path receiver name;
            if negb borrowed then mret None
            else
              array ← receiver_base_type at_;
              length ← unsized_length array;
              mret (Some (MkReceiverAdjustment derefs false length))
          else
            view ← reads_as_a_view type_addr str_addr declared at_;
            lent ← (if view : bool then mret true else lends_by_pointer declared at_);
            if lent : bool then mret (Some (MkReceiverAdjustment derefs false 0))
            else
              more ← is_indirect at_;
              if more : bool then next ← pointee at_; reconcile_from turns span path receiver declared next actual name (S derefs)
              else
                text ← opt_text name;
                given ← type_name actual;
                diag GAB_ERR_TYPE span ("cannot call '" +:+ text +:+ "' on " +:+ given);; mret None
  end.

Definition reconcile_receiver (span : Span) (path : NodePtr) (receiver : ASTExpr) (declared actual : TypePtr) (name : StrPtr) :
    Resolve (option ReceiverAdjustment) :=
  s ← current; reconcile_from (heap_fuel (types_of s)) span path receiver declared actual actual name 0.

(** ** Generics *)

(** The two questions put to the registry for one bound. *)
Definition check_bound (span : Span) (bound : InterfaceRef) (type : TypePtr) : Resolve bool :=
  interface ← interface_at (ref_interface bound);
  anywhere ← ask_types (fun r => type_registry_conforms_at_any r type (iface_id interface));
  if negb anywhere then
    given ← type_name type;
    wanted ← opt_text (id_name (iface_id interface));
    diag GAB_ERR_TYPE span (given +:+ " does not implement '" +:+ wanted +:+ "'");; mret false
  else
    there ← ask_types (fun r => type_registry_conforms type_addr str_addr r type (iface_id interface) (ref_args bound));
    if negb there then
      given ← type_name type;
      wanted ← opt_text (id_name (iface_id interface));
      diag GAB_ERR_TYPE span (given +:+ " implements '" +:+ wanted +:+ "' at another type");; mret false
    else mret true.

(** The loop over the bounds and the arguments. *)
Fixpoint check_bounds (span : Span) (bounds : list TypeParamBound) (args : list TypeArg) : Resolve bool :=
  match bounds, args with
  | BOUND_INTERFACE bound :: bounds, TYPE_ARG_TYPE (Some type) :: args =>
      parameter ← is_kind TYPE_PARAM (Some type);
      if parameter : bool then check_bounds span bounds args
      else
        satisfied ← check_bound span bound (Some type);
        if satisfied : bool then check_bounds span bounds args else mret false
  | _ :: bounds, _ :: args => check_bounds span bounds args
  | _, _ => mret true
  end.

(** No bounds are the null pointer; where there are any, they are
    [GAB_MAX_TYPE_PARAMS]. *)
Definition check_bounds_satisfied (span : Span) (generic : Function) (args : list TypeArg) (owed : nat) : Resolve bool :=
  check_bounds span (type_param_bounds (fn_decl generic)) (take owed args).

(** One turn of the loop over the written arguments; [None] is an error. *)
Definition take_written_arg (span : Span) (supplied : TypeExpr) : Resolve (option TypeArg) :=
  match supplied with
  | TYPE_EXPR_CONST constant => i32 ← Check.i32_type; mret (Some (TYPE_ARG_CONST (CONST_VALUE (constant_int i32 constant))))
  | _ =>
      argument ← resolve_type_expr (Some supplied) span;
      error ← is_error_type argument;
      mret (if error : bool then None else Some (TYPE_ARG_TYPE argument))
  end.

Fixpoint written_type_args (span : Span) (supplied : list TypeExpr) : Resolve (option (list TypeArg)) :=
  match supplied with
  | [] => mret (Some [])
  | expr :: supplied =>
      arg ← take_written_arg span expr;
      match arg with
      | None => mret None
      | Some arg => rest ← written_type_args span supplied; mret ((fun rest => arg :: rest) <$> rest)
      end
  end.

Definition take_written_type_args (span : Span) (generic : Function) (supplied : TypeExpr) : Resolve (option (list TypeArg)) :=
  let owed := type_param_count (fn_decl generic) in
  let wrong :=
    text ← opt_text (id_name (func_id (fn_decl generic)));
    diag GAB_ERR_TYPE span ("'" +:+ text +:+ "' takes " +:+ number owed +:+ " type argument(s)");; mret None in
  match supplied with
  | TYPE_EXPR_APPLY _ args => if Nat.eqb (length args) owed then written_type_args span args else wrong
  | _ => wrong
  end.

(** The arguments over those of the array. *)
Definition over_args (args : list TypeArg) : list TypeArg := args ++ drop (length args) no_type_args.

Section recursion.
Context (expr_at : NodePtr -> ASTExpr -> TypePtr -> Resolve TypePtr).

(** The loop over the arguments of [infer_call_args]. *)
Fixpoint infer_from (owed : nat) (args : list TypeArg) (written : list (NodePtr * ASTExpr)) (params : list TypePtr) : Resolve (option (list TypeArg)) :=
  match written, params with
  | [], _ => mret (Some args)
  | (path, arg) :: written, param :: params =>
      argument ← expr_at path arg None;
      error ← is_error_type argument;
      if error : bool then mret None
      else
        '(args, _) ← ask_types (fun r => infer_type_args r owed (heap_fuel r) param argument args);
        infer_from owed args written params
  | _ :: _, [] => refused
  end.

Definition infer_call_args (path : NodePtr) (expr : ASTExpr) (function : Function) (args : list TypeArg) (fixed self_params : nat) :
    Resolve (option (list TypeArg)) :=
  let owed := type_param_count (fn_decl function) in
  let params := sig_params (fn_signature function) in
  written ← want (written_args path expr);
  if negb (Nat.eqb (length written + self_params) (length params)) then
    diag GAB_ERR_TYPE (expr_span expr) ("expected " +:+ size_text (Z.of_nat (length params) - Z.of_nat self_params) +:+
      " argument(s), found " +:+ number (length written));;
    mret None
  else
    inferred ← infer_from owed args written (drop self_params params);
    match inferred with
    | None => mret None
    | Some args =>
        if existsb (is_owed owed args) (seq fixed (owed - fixed)) then
          text ← opt_text (id_name (func_id (fn_decl function)));
          diag GAB_ERR_TYPE (expr_span expr) ("no argument names every type parameter of '" +:+ text +:+ "', so each is written");;
          mret None
        else mret (Some args)
    end.

Definition specialize (path : NodePtr) (expr : ASTExpr) (generic : nat) (args : list TypeArg) (fixed self_params : nat) : Resolve FuncPtr :=
  f ← function_of generic;
  let owed := type_param_count (fn_decl f) in
  let fixed := if Nat.leb owed (length (fn_type_args f)) then owed else fixed in
  if Nat.leb owed fixed then
    s ← current;
    (if type_args_are_concrete (types_of s) (fn_type_args f) then instantiate_body generic else mret tt);;
    mret (Some generic)
  else
    inferred ← infer_call_args path expr f args fixed self_params;
    match inferred with
    | None => mret None
    | Some args =>
        satisfied ← check_bounds_satisfied (expr_span expr) f args owed;
        if negb satisfied then mret None
        else
          specialized ← with_world (instance_of type_addr str_addr (fn_decl f) (take owed args));
          s ← current;
          (if type_args_are_concrete (types_of s) (take owed args) then instantiate_body specialized else mret tt);;
          mret (Some specialized)
    end.

(** The arguments of the receiver's type come first. *)
Definition specialize_method_call (path : NodePtr) (expr : ASTExpr) (method : nat) (receiver : TypePtr) : Resolve FuncPtr :=
  t ← ask_types (fun r => deref r receiver);
  specialize path expr method (over_args (type_args t)) (type_arg_count t) 1.

Definition specialize_call (path : NodePtr) (expr target : ASTExpr) (generic : nat) : Resolve FuncPtr :=
  f ← function_of generic;
  taken ← (match written_owner_type target with
           | Some supplied => take_written_type_args (expr_span expr) f supplied
           | None => mret (Some [])
           end);
  match taken with
  | None => mret None
  | Some args => specialize path expr generic (over_args args) 0 0
  end.

(** ** Through an interface *)

(** What [resolve_index_through_interface] and [resolve_deref_through_interface]
    share: the method's parameters are [count], of which the receiver is one. *)
Definition lend_through_interface (path : NodePtr) (expr target : ASTExpr) (name : StrPtr) (known : string) (count : nat) (not_so : string)
    (missing : string -> string) (what : string) (check_rest : Function -> Resolve unit) (kind : CallKind) : Resolve TypePtr :=
  let span := expr_span expr in
  target_type ← fact_type (path ++ [0]);
  '(found, base) ← find_method target_type name;
  match found with
  | None => given ← type_name target_type; diag GAB_ERR_TYPE span (missing given);; resolver_error_type
  | Some found =>
      method ← specialize_method_call path expr found base;
      match method with
      | None => resolver_error_type
      | Some method =>
          f ← function_of method;
          let params := sig_params (fn_signature f) in
          if negb (Nat.eqb (length params) count) then
            given ← type_name target_type;
            diag GAB_ERR_TYPE span ("'" +:+ known +:+ "' of " +:+ given +:+ " takes " +:+ number (length params) +:+ " argument(s), not " +:+ not_so);;
            resolver_error_type
          else
            declared ← want (params !! 0);
            adjustment ← reconcile_receiver span (path ++ [0]) target declared target_type name;
            match adjustment with
            | None => resolver_error_type
            | Some adjustment =>
                record_receiver_adjustment (path ++ [0]) f adjustment;;
                mark_implicit_move (path ++ [0]) (Some target) declared (expr_span target);;
                check_rest f;;
                set_callee path (Some method);;
                set_call_kind path kind;;
                let lent := return_type (fn_signature f) in
                reference ← is_kind TYPE_REF lent;
                if negb reference then
                  given ← type_name target_type;
                  returned ← type_name lent;
                  diag GAB_ERR_TYPE span ("'" +:+ known +:+ "' of " +:+ given +:+ " returns " +:+ returned +:+ " rather than lending " +:+ what);;
                  resolver_error_type
                else pointee lent
            end
      end
  end.

Definition resolve_index_through_interface (path : NodePtr) (expr target index : ASTExpr) : Resolve TypePtr :=
  name ← intern_name "index";
  lend_through_interface path expr target name "index" 2 "one"
    (fun given => given +:+ " is indexed with '[]' by implementing 'Index'") "an element"
    (fun f => param ← want (sig_params (fn_signature f) !! 1); check_call_arg (path ++ [1]) index param 1) CALL_INDEX.

Definition resolve_deref_through_interface (path : NodePtr) (expr target : ASTExpr) : Resolve TypePtr :=
  name ← intern_name "deref";
  lend_through_interface path expr target name "deref" 1 "0"
    (fun given => "cannot dereference " +:+ given) "what it holds" (fun _ => mret tt) CALL_DEREF.

(** ** Calls *)

(** [fact_set_type(state->facts, expr, resolver_error_type(state))], at the end
    of a call. *)
Definition set_error (path : NodePtr) : Resolve unit := error ← resolver_error_type; set_type path error.

(** What a method that is not found is reported as. *)
Definition report_no_method (span : Span) (base : TypePtr) (name : StrPtr) : Resolve unit :=
  parameter ← (match base with None => mret false | Some _ => is_kind TYPE_PARAM base end);
  unbounded ← (if parameter : bool then
                 bound ← param_bound base; mret (match bound with BOUND_INTERFACE _ => false | _ => true end)
               else mret false);
  if unbounded : bool then
    diag GAB_ERR_NAME span "a type parameter has the methods its bound declares, and this one has no bound"
  else
    given ← type_name base;
    text ← opt_text name;
    diag GAB_ERR_NAME span (given +:+ " has no method '" +:+ text +:+ "'").

(** [method] was found on [base]. *)
Definition call_method (path : NodePtr) (expr receiver : ASTExpr) (args : list ASTExpr) (name : StrPtr) (receiver_type base : TypePtr) (method : nat) :
    Resolve unit :=
  let span := expr_span expr in
  f ← function_of method;
  let params := sig_params (fn_signature f) in
  match params with
  | [] =>
      text ← opt_text name;
      owner ← type_name base;
      diag GAB_ERR_TYPE span ("'" +:+ text +:+ "' takes nothing, so it is called as '" +:+ owner +:+ "::" +:+ text +:+ "()' rather than on a value");;
      set_error path
  | declared_receiver :: params =>
      adjustment ← reconcile_receiver span (path ++ [0; 0]) receiver declared_receiver receiver_type name;
      match adjustment with
      | None => set_error path
      | Some adjustment =>
          if negb (Nat.eqb (length args) (length params)) then
            diag GAB_ERR_TYPE span ("expected " +:+ number (length params) +:+ " argument(s), found " +:+ number (length args));;
            set_error path
          else
            resolve_as_method_call path receiver method adjustment;;
            check_call_args path args params;;
            if has_modifier (fn_decl f) FUNC_MOD_INTRINSIC then
              t ← ask_types (fun r => deref r base);
              type ← Check.with_types (fun r => type_registry_substitute type_addr str_addr (substitute_fuel r) r (return_type (fn_signature f)) (type_args t));
              set_type path type
            else set_type path (return_type (fn_signature f))
      end
  end.

Definition resolve_method_call (path : NodePtr) (expr receiver : ASTExpr) (name : StrPtr) (args : list ASTExpr) : Resolve unit :=
  receiver_type ← expr_at (path ++ [0; 0]) receiver None;
  for_all (fun i arg => expr_at (path ++ [S i]) arg None;; mret tt) args;;
  error ← is_error_type receiver_type;
  if error : bool then set_error path
  else
    '(found, base) ← find_method receiver_type name;
    match found with
    | None => report_no_method (expr_span expr) base name;; set_error path
    | Some found =>
        destructor ← destructor_of base;
        if bool_decide (Some found = destructor) then
          diag GAB_ERR_TYPE (expr_span expr) "'destroy' runs where the value ends, so nothing calls it by hand";; set_error path
        else
          method ← specialize_method_call path expr found base;
          match method with
          | None => set_error path
          | Some method => call_method path expr receiver args name receiver_type base method
          end
    end.

(** [false] where there is no type to convert to. *)
Definition resolve_conversion (path : NodePtr) (expr : ASTExpr) (args : list ASTExpr) (target : TypePtr) : Resolve bool :=
  error ← is_error_type target;
  if error : bool then mret false
  else
    set_call_kind path CALL_CONVERSION;;
    match args with
    | [operand] =>
        from ← expr_at (path ++ [1]) operand None;
        error ← is_error_type from;
        if error : bool then set_error path;; mret true
        else
          to_kind ← kind_of target;
          from_kind ← kind_of from;
          let reads_as_a_run := bool_decide (to_kind = TYPE_RAW) && bool_decide (from_kind = TYPE_RAW) in
          if negb reads_as_a_run && (negb (is_numeric_type to_kind) || negb (is_numeric_type from_kind)) then
            given ← type_name from;
            wanted ← type_name target;
            diag GAB_ERR_TYPE (expr_span expr) ("cannot convert " +:+ given +:+ " to " +:+ wanted);; set_error path;; mret true
          else set_type path target;; mret true
    | _ =>
        wanted ← type_name target;
        diag GAB_ERR_TYPE (expr_span expr) ("a conversion to " +:+ wanted +:+ " takes one operand");; set_error path;; mret true
    end.

Definition resolve_cast (path : NodePtr) (expr : ASTExpr) (name : ASTIdent) (args : list ASTExpr) : Resolve bool :=
  s ← current;
  found ← scope_lookup_in (Some (env_scope (rs_env s))) (Some (ident_name name));
  symbol ← symbol_of found;
  match symbol_kind <$> symbol with
  | Some (SYMBOL_TYPE _) | Some (SYMBOL_TYPE_DECL _) => type ← type_of_symbol type_addr str_addr symbol; resolve_conversion path expr args type
  | _ => mret false
  end.

Definition resolve_run_cast (path : NodePtr) (expr : ASTExpr) (type_expr : TypeExpr) (args : list ASTExpr) : Resolve unit :=
  target ← resolve_type_expr (Some type_expr) (expr_span expr);
  converted ← resolve_conversion path expr args target;
  if converted : bool then mret tt else set_call_kind path CALL_CONVERSION;; set_error path.

(** The type before the [::]; null where there is none. *)
Definition qualified_owner (span : Span) (qualifier : ASTIdent) (owner_type_expr : option TypeExpr) : Resolve TypePtr :=
  match owner_type_expr with
  | Some _ =>
      owner ← resolve_type_expr owner_type_expr span;
      error ← is_error_type owner;
      mret (if error : bool then None else owner)
  | None =>
      s ← current;
      found ← resolver_resolve_name (Some (env_scope (rs_env s))) (Some (ident_name qualifier));
      symbol ← symbol_of found;
      let plain := type_of_symbol type_addr str_addr symbol in
      match symbol_kind <$> symbol with
      | Some (SYMBOL_TYPE_DECL decl) =>
          d ← ask_types (fun r => deref_decl r decl);
          if Nat.ltb 0 (decl_param_count d) then
            text ← opt_text (id_name (decl_id d));
            diag GAB_ERR_TYPE span ("'" +:+ text +:+ "' takes " +:+ number (decl_param_count d) +:+ " type argument(s), not 0");; mret None
          else plain
      | _ => plain
      end
  end.

(** The function of the module before the [::], if it names one. *)
Definition qualified_function (qualifier name : ASTIdent) (owner_type_expr : option TypeExpr) : Resolve FuncPtr :=
  scope ← (match owner_type_expr with Some _ => mret None | None => resolver_qualifier_scope str_addr res (ident_name qualifier) end);
  match scope with
  | None => mret None
  | Some _ =>
      found ← scope_lookup_in scope (Some (ident_name name));
      symbol ← symbol_of found;
      mret (match symbol_kind <$> symbol with Some (SYMBOL_FUNC func) => func | _ => None end)
  end.

Definition resolve_qualified_func (span : Span) (qualifier name : ASTIdent) (owner_type_expr : option TypeExpr) : Resolve FuncPtr :=
  function ← qualified_function qualifier name owner_type_expr;
  match function with
  | Some _ => mret function
  | None =>
      owner ← qualified_owner span qualifier owner_type_expr;
      match owner with
      | None => mret None
      | Some _ =>
          found ← owned_method owner (Some (ident_name name));
          match found with
          | None =>
              t ← ask_types (fun r => deref r owner);
              owner_text ← opt_text (type_name_of t);
              text ← name_text (ident_name name);
              diag GAB_ERR_NAME span ("'" +:+ owner_text +:+ "' has no function '" +:+ text +:+ "'");; mret None
          | Some _ =>
              destructor ← destructor_of owner;
              (if bool_decide (found = destructor) then
                 diag GAB_ERR_TYPE span "'destroy' runs where the value ends, so nothing calls it by hand"
               else mret tt);;
              mret found
          end
      end
  end.

(** The call of a function that is no method: what follows the target's
    resolution. *)
Definition call_function (path : NodePtr) (expr target : ASTExpr) (args : list ASTExpr) (callee : FuncPtr) : Resolve TypePtr :=
  f ← (match callee with Some p => f ← function_of p; mret (Some f) | None => mret None end);
  let params := match f with Some f => sig_params (fn_signature f) | None => [] end in
  let params_known := bool_decide (is_Some f) && Nat.eqb (length args) (length params) in
  for_all (fun i arg =>
    expected ← (if params_known then param ← want (params !! i); mret param else mret None);
    expr_at (path ++ [S i]) arg expected;; mret tt) args;;
  match f with
  | None =>
      type ← fact_type (path ++ [0]);
      error ← resolver_error_type;
      (if bool_decide (type = error) then mret tt else diag GAB_ERR_TYPE (expr_span expr) "this expression is not callable");;
      resolver_error_type
  | Some f =>
      if negb (Nat.eqb (length args) (length params)) then
        diag GAB_ERR_TYPE (expr_span expr) ("expected " +:+ number (length params) +:+ " argument(s), found " +:+ number (length args));;
        resolver_error_type
      else
        check_call_args path args params;;
        set_callee path callee;;
        mret (return_type (fn_signature f))
  end.

Definition resolve_call_of (path : NodePtr) (expr target : ASTExpr) (args : list ASTExpr) : Resolve TypePtr :=
  expr_at (path ++ [0]) target None;;
  callee ← fact_callee (path ++ [0]);
  generic ← (match callee with Some p => f ← function_of p; mret (Nat.ltb 0 (type_param_count (fn_decl f))) | None => mret false end);
  match callee with
  | Some p =>
      if generic : bool then
        specialized ← specialize_call path expr target p;
        match specialized with
        | None => resolver_error_type
        | Some _ => set_callee (path ++ [0]) specialized;; call_function path expr target args specialized
        end
      else call_function path expr target args callee
  | None => call_function path expr target args None
  end.

(** The call of [@size_of] and [@caller]. *)
Definition resolve_builtin_call (path : NodePtr) (expr target : ASTExpr) (name : ASTIdent) (args : list ASTExpr) : Resolve TypePtr :=
  expr_at (path ++ [0]) target None;;
  (if Nat.ltb 0 (length args) then
     text ← name_text (ident_name name);
     diag GAB_ERR_TYPE (expr_span expr) ("'@" +:+ text +:+ "()' takes no arguments")
   else mret tt);;
  s ← current;
  (match fact_constant_of node_addr (rs_facts s) (path ++ [0]) with
   | Some answered => set_constant path answered
   | None => mret tt
   end);;
  fact_type (path ++ [0]).

(** The target of a call is never null in a tree the parser made. *)
Definition resolve_call (path : NodePtr) (expr target : ASTExpr) (args : list ASTExpr) : Resolve TypePtr :=
  match target with
  | EXPR_FIELD _ receiver name => resolve_method_call path expr receiver (Some (ident_name name)) args;; fact_type path
  | EXPR_NAME _ name _ =>
      cast ← resolve_cast path expr name args;
      if cast : bool then fact_type path else resolve_call_of path expr target args
  | EXPR_CAST _ type_expr => resolve_run_cast path expr type_expr args;; fact_type path
  | EXPR_BUILTIN _ name _ => resolve_builtin_call path expr target name args
  | _ => resolve_call_of path expr target args
  end.

(** ** Operators *)

Definition is_string_type (type : TypePtr) : Resolve bool :=
  view ← derefs_to type_addr str_addr type;
  str ← primitive TYPE_STR;
  ask_types (fun r => Some (bool_decide (view = str) || type_is_str_ref (deref r) (deref r type))).

Definition is_comparable_type (type : TypePtr) : Resolve bool :=
  kind ← kind_of type;
  if is_numeric_type kind || is_boolean_type kind then mret true else is_string_type type.

Definition bin_op_accepts (op : BinOp) (type : TypePtr) (span : Span) : Resolve bool :=
  let requires (accepted : bool) (what : string) : Resolve bool :=
    if accepted then mret true
    else given ← type_name type; diag GAB_ERR_TYPE span ("'" +:+ bin_op_name op +:+ "' requires " +:+ what +:+ ", found " +:+ given);; mret false in
  match op with
  | BIN_OP_ADD | BIN_OP_SUB | BIN_OP_MUL | BIN_OP_DIV => kind ← kind_of type; requires (is_numeric_type kind) "a numeric type"
  | BIN_OP_MOD => kind ← kind_of type; requires (is_integer_type kind) "an integer type"
  | BIN_OP_EQUAL | BIN_OP_NEQUAL =>
      accepted ← is_comparable_type type;
      if accepted : bool then mret true
      else given ← type_name type; diag GAB_ERR_TYPE span ("'" +:+ bin_op_name op +:+ "' is not supported for " +:+ given);; mret false
  | BIN_OP_LESS | BIN_OP_GREATER | BIN_OP_LEQUAL | BIN_OP_GEQUAL => kind ← kind_of type; requires (is_ordered_type kind) "an ordered type"
  | BIN_OP_AND | BIN_OP_OR => kind ← kind_of type; requires (is_boolean_type kind) "a boolean type"
  end.

Definition resolve_bin_op (path : NodePtr) (span : Span) (left right : ASTExpr) (op : BinOp) (expected : TypePtr) : Resolve TypePtr :=
  left_type ← expr_at (path ++ [0]) left expected;
  right_type ← expr_at (path ++ [1]) right left_type;
  wrong ← is_error_type left_type;
  wrong' ← is_error_type right_type;
  if wrong || wrong' then resolver_error_type
  else
    string ← is_string_type left_type;
    both_strings ← (if string : bool then is_string_type right_type else mret false);
    if negb (bool_decide (left_type = right_type)) && negb both_strings then
      l ← type_name left_type;
      r ← type_name right_type;
      diag GAB_ERR_TYPE span ("cannot apply '" +:+ bin_op_name op +:+ "' to " +:+ l +:+ " and " +:+ r);; resolver_error_type
    else
      accepted ← bin_op_accepts op left_type span;
      if negb accepted then resolver_error_type
      else
        (if both_strings : bool then
           str ← primitive TYPE_STR;
           characters ← make_type (fun r => type_registry_ref_to type_addr str_addr r str);
           borrow_into (path ++ [0]) left characters span;;
           borrow_into (path ++ [1]) right characters span;; mret tt
         else mret tt);;
        if bin_op_yields_bool op then primitive TYPE_BOOL else mret left_type.

Definition resolve_neg_or_not (path : NodePtr) (span : Span) (target : ASTExpr) (accepts : TypeKind -> bool) (requires : string) : Resolve TypePtr :=
  target_type ← expr_at (path ++ [0]) target None;
  error ← is_error_type target_type;
  if error : bool then resolver_error_type
  else
    kind ← kind_of target_type;
    if accepts kind then mret target_type
    else given ← type_name target_type; diag GAB_ERR_TYPE span (requires +:+ ", found " +:+ given);; resolver_error_type.

(** ** Places *)

Definition resolve_index (path : NodePtr) (expr target index : ASTExpr) : Resolve TypePtr :=
  target_type ← expr_at (path ++ [0]) target None;
  index_type ← expr_at (path ++ [1]) index None;
  wrong ← is_error_type target_type;
  wrong' ← is_error_type index_type;
  if wrong || wrong' then resolver_error_type
  else
    base ← receiver_base_type target_type;
    array ← is_kind TYPE_ARRAY base;
    if negb array then resolve_index_through_interface path expr target index
    else
      i32 ← primitive TYPE_I32;
      if negb (bool_decide (index_type = i32)) then
        given ← type_name index_type;
        diag GAB_ERR_TYPE (expr_span expr) ("an index must be an i32, not " +:+ given);; resolver_error_type
      else ask_types (fun r => type_array_element (deref r base)).

Definition resolve_field_of (path : NodePtr) (span : Span) (target : ASTExpr) (name : ASTIdent) : Resolve TypePtr :=
  target_type ← expr_at (path ++ [0]) target None;
  error ← is_error_type target_type;
  if error : bool then resolver_error_type
  else
    base ← receiver_base_type target_type;
    struct ← is_kind TYPE_STRUCT base;
    if negb struct then
      type ← fact_type (path ++ [0]);
      given ← type_name type;
      diag GAB_ERR_TYPE span (given +:+ " is not a struct, so it has no fields");; resolver_error_type
    else
      field ← Check.with_types (fun r => type_registry_find_field type_addr str_addr r base (Some (ident_name name)));
      match field with
      | None =>
          owner ← type_name base;
          text ← name_text (ident_name name);
          diag GAB_ERR_NAME (ident_span name) ("'" +:+ owner +:+ "' has no field '" +:+ text +:+ "'");; resolver_error_type
      | Some field =>
          fields ← Check.with_types (fun r => type_registry_fields_of type_addr str_addr r base);
          index ← want (list_find (fun f => field_name f = Some (ident_name name)) fields);
          write_facts (fun facts => fact_set_field node_addr facts path index.1);;
          mret (field_type field)
      end.

Definition resolve_addr_of (path : NodePtr) (span : Span) (target : ASTExpr) : Resolve TypePtr :=
  target_type ← expr_at (path ++ [0]) target None;
  error ← is_error_type target_type;
  if error : bool then resolver_error_type
  else
    addressable ← is_addressable (path ++ [0]) target;
    if negb addressable then diag GAB_ERR_TYPE span "cannot take the address of a temporary";; resolver_error_type
    else
      pin_root node_addr (path ++ [0]) target;;
      make_type (fun r => type_registry_ref_to type_addr str_addr r target_type).

Definition resolve_deref (path : NodePtr) (expr target : ASTExpr) : Resolve TypePtr :=
  target_type ← expr_at (path ++ [0]) target None;
  error ← is_error_type target_type;
  if error : bool then resolver_error_type
  else
    reference ← is_indirect target_type;
    run ← is_kind TYPE_RAW target_type;
    if reference || run then pointee target_type else resolve_deref_through_interface path expr target.

(** ** Names and builtins *)

Definition resolve_name (path : NodePtr) (name : ASTIdent) : Resolve TypePtr :=
  s ← current;
  found ← resolver_resolve_name (Some (env_scope (rs_env s))) (Some (ident_name name));
  entry ← symbol_of found;
  match symbol_kind <$> entry with
  | Some (SYMBOL_FUNC func) => set_callee path func;; mret None
  | Some (SYMBOL_VAR type) | Some (SYMBOL_TYPE type) => write_facts (fun facts => fact_set_use node_addr facts path found);; mret type
  | Some _ => refused
  | None =>
      text ← name_text (ident_name name);
      diag GAB_ERR_NAME (ident_span name) ("undeclared name '" +:+ text +:+ "'");; resolver_error_type
  end.

Definition resolve_qualified (path : NodePtr) (span : Span) (qualifier name : ASTIdent) (owner_type_expr : option TypeExpr) : Resolve TypePtr :=
  function ← resolve_qualified_func span qualifier name owner_type_expr;
  set_callee path function;;
  match function with
  | Some _ => mret None
  | None =>
      owner ← name_text (ident_name qualifier);
      text ← name_text (ident_name name);
      diag GAB_ERR_NAME span ("undeclared name '" +:+ owner +:+ "::" +:+ text +:+ "'");; resolver_error_type
  end.

Definition resolve_caller (span : Span) : Resolve TypePtr :=
  s ← current;
  if negb (is_caller (env_func (rs_env s))) then
    diag GAB_ERR_TYPE span "'@caller()' answers where a call was written, so only a 'caller' function asks it";; resolver_error_type
  else
    location ← resolver_location_type;
    match location with
    | Some _ => mret location
    | None =>
        diag GAB_ERR_NAME span ("the core declares no '" +:+ GAB_LOCATION_TYPE +:+ "', which '@caller()' answers with");; resolver_error_type
    end.

Definition resolve_size_of (path : NodePtr) (span : Span) (type_expr : option TypeExpr) : Resolve TypePtr :=
  let wrong := diag GAB_ERR_TYPE span "'@size_of<T>()' measures one type, as '@size_of<i32>()'";; resolver_error_type in
  match type_expr with
  | None => wrong
  | Some (TYPE_EXPR_APPLY _ [measured]) =>
      measured ← resolve_type_expr (Some measured) span;
      error ← is_error_type measured;
      if error : bool then resolver_error_type
      else
        counted ← primitive TYPE_USIZE;
        generic ← has_param measured;
        (if generic : bool then set_constant path (constant_int measured 0)
         else
           size ← size_of type_addr str_addr type_fuel measured;
           set_constant path (constant_int counted (to_i32 size)));;
        mret counted
  | Some (TYPE_EXPR_APPLY _ _) => wrong
  | Some _ => refused
  end.

Definition resolve_builtin (path : NodePtr) (span : Span) (name : ASTIdent) (type_expr : option TypeExpr) : Resolve TypePtr :=
  known ← resolver_names;
  if bool_decide (Some (ident_name name) = name_caller known) then resolve_caller span
  else if bool_decide (Some (ident_name name) = name_size_of known) then resolve_size_of path span type_expr
  else
    text ← name_text (ident_name name);
    diag GAB_ERR_NAME span ("the compiler supplies no '@" +:+ text +:+ "'");; resolver_error_type.

(** ** Literals *)

(** A value given for a field or an element: whether it is taken. *)
Definition take_value (path : NodePtr) (value : ASTExpr) (wanted : TypePtr) (message : string -> string -> string) : Resolve bool :=
  type ← fact_type path;
  error ← is_error_type type;
  if error : bool then mret false
  else
    accepted ← type_accepts wanted type;
    if negb accepted then
      given ← type_name type;
      declared ← type_name wanted;
      diag GAB_ERR_TYPE (expr_span value) (message declared given);; mret false
    else
      borrowed ← borrow_into path value wanted (expr_span value);
      if negb borrowed then mret false
      else mark_implicit_move path (Some value) wanted (expr_span value);; mret true.

(** One turn of the loop over the initialized fields: those seen, and whether
    this one is right. *)
Definition resolve_field_init (path : NodePtr) (type : TypePtr) (fields : list TypeField) (seen : list bool) (i : nat) (init : ASTFieldInit) :
    Resolve (list bool * bool) :=
  let name := Some (ident_name init.1) in
  let span := ident_span init.1 in
  let path := path ++ [i] in
  match list_find (fun f => field_name f = name) fields with
  | None =>
      expr_at path init.2 None;;
      owner ← type_name type;
      text ← opt_text name;
      diag GAB_ERR_TYPE span (owner +:+ " has no field '" +:+ text +:+ "'");; mret (seen, false)
  | Some (index, field) =>
      if default false (seen !! index) then
        expr_at path init.2 (field_type field);;
        text ← opt_text name;
        diag GAB_ERR_TYPE span ("field '" +:+ text +:+ "' is given twice");; mret (seen, false)
      else
        write_facts (fun facts => fact_set_initialized_field node_addr facts path index);;
        expr_at path init.2 (field_type field);;
        text ← opt_text name;
        ok ← take_value path init.2 (field_type field) (fun declared given => "field '" +:+ text +:+ "' is " +:+ declared +:+ ", but " +:+ given +:+ " was given");
        mret (<[index := true]> seen, ok)
  end.

Fixpoint resolve_field_inits (path : NodePtr) (type : TypePtr) (fields : list TypeField) (seen : list bool) (ok : bool) (i : nat)
    (inits : list ASTFieldInit) : Resolve (list bool * bool) :=
  match inits with
  | [] => mret (seen, ok)
  | init :: inits =>
      '(seen, fits) ← resolve_field_init path type fields seen i init;
      resolve_field_inits path type fields seen (ok && fits) (S i) inits
  end.

(** The last loop of the case of a struct literal; [true] when none is missing. *)
Fixpoint report_missing (span : Span) (fields : list TypeField) (seen : list bool) (ok : bool) : Resolve bool :=
  match fields, seen with
  | field :: fields, given :: seen =>
      if given : bool then report_missing span fields seen ok
      else
        text ← opt_text (field_name field);
        diag GAB_ERR_TYPE span ("field '" +:+ text +:+ "' is missing");; report_missing span fields seen false
  | _, _ => mret ok
  end.

Definition resolve_struct_lit (path : NodePtr) (span : Span) (type_expr : TypeExpr) (inits : list ASTFieldInit) : Resolve TypePtr :=
  let resolve_values := for_all (fun i (init : ASTFieldInit) => expr_at (path ++ [i]) init.2 None;; mret tt) inits in
  type ← resolve_type_expr (Some type_expr) span;
  error ← is_error_type type;
  if error : bool then resolve_values;; resolver_error_type
  else
    struct ← is_kind TYPE_STRUCT type;
    if negb struct then
      resolve_values;;
      given ← type_name type;
      diag GAB_ERR_TYPE span (given +:+ " is not a struct");; resolver_error_type
    else
      fields ← Check.with_types (fun r => type_registry_fields_of type_addr str_addr r type);
      '(seen, ok) ← resolve_field_inits path type fields (replicate (length fields) false) true 0 inits;
      ok ← report_missing span fields seen ok;
      if ok : bool then mret type else resolver_error_type.

Definition array_message : string :=
  "an array's elements need the array's type to be written, as 'let xs: [i32; 3] = [1, 2, 3];'".

Definition resolve_array_lit (path : NodePtr) (span : Span) (elements : list ASTExpr) (expected : TypePtr) : Resolve TypePtr :=
  for_all (fun i element => expr_at (path ++ [i]) element None;; mret tt) elements;;
  array ← (match expected with None => mret false | Some _ => is_kind TYPE_ARRAY expected end);
  if negb array then diag GAB_ERR_TYPE span array_message;; resolver_error_type
  else
    count ← ask_types (fun r => type_array_length (deref r expected));
    element ← ask_types (fun r => type_array_element (deref r expected));
    if negb (to_i32 (Z.of_nat (length elements)) =? count)%Z then
      diag GAB_ERR_TYPE span ("expected " +:+ print_int count +:+ " element(s), found " +:+ number (length elements));; resolver_error_type
    else
      fit ← each_of (fun i value => take_value (path ++ [i]) value element
        (fun declared given => "element " +:+ number (S i) +:+ " is " +:+ given +:+ ", but the array holds " +:+ declared)) 0 elements;
      if forallb id fit then mret expected else resolver_error_type.

Definition resolve_literal (lit : Literal) (expected : TypePtr) : Resolve TypePtr :=
  let kind := literal_type_kind lit in
  integer ← (match lit, expected with LITERAL_INT _, Some _ => kind ← kind_of expected; mret (is_integer_type kind) | _, _ => mret false end);
  if integer : bool then mret expected
  else
    type ← primitive kind;
    if bool_decide (kind = TYPE_STR) then make_type (fun r => type_registry_ref_to type_addr str_addr r type) else mret type.

(** ** Every expression *)

Definition resolve_expr_kind (path : NodePtr) (expr : ASTExpr) (expected : TypePtr) : Resolve TypePtr :=
  match expr with
  | EXPR_BIN_OP span l r op => resolve_bin_op path span l r op expected
  | EXPR_BUILTIN span name type_expr => resolve_builtin path span name type_expr
  | EXPR_NAME _ name _ => resolve_name path name
  | EXPR_QUALIFIED span qualifier name owner_type_expr => resolve_qualified path span qualifier name owner_type_expr
  | EXPR_CALL _ target args => resolve_call path expr target args
  | EXPR_INDEX _ target index => resolve_index path expr target index
  | EXPR_FIELD span target name => resolve_field_of path span target name
  | EXPR_ADDR_OF span target => resolve_addr_of path span target
  | EXPR_DEREF _ target => resolve_deref path expr target
  | EXPR_NEG span target => resolve_neg_or_not path span target is_numeric_type "unary '-' requires a numeric type"
  | EXPR_NOT span target => resolve_neg_or_not path span target is_boolean_type "unary '!' requires bool"
  | EXPR_STRUCT_LIT span type_expr fields => resolve_struct_lit path span type_expr fields
  | EXPR_ARRAY_LIT span elements => resolve_array_lit path span elements expected
  | EXPR_LITERAL _ lit => resolve_literal lit expected
  | EXPR_CAST _ _ => mret None
  end.

Definition resolve_expr_of (path : NodePtr) (expr : ASTExpr) (expected : TypePtr) : Resolve TypePtr :=
  type ← resolve_expr_kind path expr expected;
  (match type with Some _ => set_type path type | None => mret tt end);;
  mret type.
End recursion.

(** [resolve_expr] at a depth of expressions; a null expression has a null type. *)
Fixpoint exprs_at (fuel : nat) : NodePtr -> ASTExpr -> TypePtr -> Resolve TypePtr :=
  match fuel with
  | O => fun _ _ _ => too_deep
  | S fuel => resolve_expr_of (exprs_at fuel)
  end.

Definition resolve_expr (fuel : nat) (path : NodePtr) (expr : option ASTExpr) (expected : TypePtr) : Resolve TypePtr :=
  match expr with None => mret None | Some expr => exprs_at fuel path expr expected end.
End resolve.
