(* ===== verification/Declare.v ===== *)
(** * Declare: the declarations of a module

    [src/src/ast/resolve.c], the part that declares structs, interfaces,
    functions and the members of [impl] blocks, and that enters the body of a
    function.  [stmt_at] is [resolve_stmt], which [Resolver.v] ties. *)

From Stdlib Require Import String.
From S2P Require Import Ast Facts.
From S2P Require Import Prelude Types Mir Decl Diagnostics Strings HashMap Registry RegistryTypes RegistryState Functions Scopes Instantiate Build Check TypeExprs Resolve.

Definition has_syntax (decl : ASTFuncDecl ASTStmt) (flag : N) : bool := negb (N.land (func_syntax decl) flag =? 0)%N.

Definition linkage_of (decl : ASTFuncDecl ASTStmt) : Linkage :=
  if has_syntax decl FUNC_SYN_FOREIGN then LINKAGE_C
  else if has_syntax decl FUNC_SYN_INTRINSIC then LINKAGE_INTERNAL
  else match func_body decl with Some _ => LINKAGE_INTERNAL | None => LINKAGE_GAB end.

Definition modifiers_of (decl : ASTFuncDecl ASTStmt) : N :=
  N.lor (if has_syntax decl FUNC_SYN_INTRINSIC then FUNC_MOD_INTRINSIC else FUNC_MOD_NONE)
        (if has_syntax decl FUNC_SYN_CALLER then FUNC_MOD_CALLER else FUNC_MOD_NONE).

Definition own_param_count (decl : ASTFuncDecl ASTStmt) : nat := length (func_type_params decl).

Definition func_decl_is_generic (decl : ASTFuncDecl ASTStmt) : bool :=
  Nat.ltb 0 (own_param_count decl) || match func_owner decl with Some (TYPE_EXPR_APPLY _ _) => true | _ => false end.

Definition owner_type_param_count (owner : option TypeExpr) : nat :=
  match owner with
  | None => 0
  | Some (TYPE_EXPR_APPLY _ args) => length args
  | Some (TYPE_EXPR_RAW (TYPE_EXPR_NAME _ _)) => 1
  | Some _ => 0
  end.

Definition block_declares (members : list ASTStmt) (name : StrPtr) : bool :=
  existsb (fun member => match member with STMT_FUNC_DECL _ decl => bool_decide (Some (ident_name (func_ident decl)) = name) | _ => false end) members.

Fixpoint stmt_returns (stmt : ASTStmt) : bool :=
  match stmt with
  | STMT_RETURN _ _ => true
  | STMT_BLOCK _ list => existsb stmt_returns list
  | STMT_IF _ _ then_block else_block =>
      stmt_returns then_block && match else_block with Some else_block => stmt_returns else_block | None => false end
  | _ => false
  end.

Section declare.
Context (type_addr str_addr : nat -> N) (node_addr : NodePtr -> N) (ident_addr : IdentPtr -> N) (type_fuel depth : nat) (res : Resolution).
Context (stmt_at : NodePtr -> ASTStmt -> Resolve unit).

#[local] Abbreviation resolve_type_expr := (TypeExprs.resolve_type_expr type_addr str_addr type_fuel res depth).
#[local] Abbreviation bind_type_param := (TypeExprs.bind_type_param str_addr).
#[local] Abbreviation scope_lookup_in := (TypeExprs.scope_lookup_in str_addr).

Definition resolver_enter_scope : Resolve unit :=
  s ← current;
  scope ← with_scopes (fun ss => scope_create ss (Some (env_scope (rs_env s))));
  in_env (fun env => with_declaring (with_scope env scope) None).

Definition type_lookup_declaring (scope : nat) (name : StrPtr) : Resolve SymbolPtr := fun s =>
  want (scope_type_lookup_declaring str_addr (rs_scopes s) (Some scope) name) s.

Definition reject_generic_without_body (decl : ASTFuncDecl ASTStmt) (span : Span) (name : nat) : Resolve bool :=
  if Nat.eqb (own_param_count decl) 0 || bool_decide (linkage_of decl = LINKAGE_INTERNAL) then mret false
  else
    text ← name_text name;
    (if has_syntax decl FUNC_SYN_FOREIGN then
       diag GAB_ERR_TYPE span ("C declares no generic, so '" +:+ text +:+ "' cannot take type parameters")
     else diag GAB_ERR_TYPE span ("a generic is instantiated by whoever names it, so '" +:+ text +:+ "' must carry a body"));;
    mret true.

Definition location_type_of (decl : ASTFuncDecl ASTStmt) : Resolve TypePtr :=
  if negb (has_syntax decl FUNC_SYN_CALLER) then mret None else resolver_location_type type_addr str_addr res.

(** ** Structs *)

(** The index of the declaration made. *)
Definition declare_struct (path : NodePtr) (span : Span) (name : ASTIdent) (fields : list ASTField) (params : list ASTIdent) (intrinsic : bool) :
    Resolve (option nat) :=
  resolver_mark_declared node_addr path;;
  known ← resolver_names;
  let struct_name := Some (ident_name name) in
  text ← name_text (ident_name name);
  if intrinsic && negb (declares_intrinsics res) then
    diag GAB_ERR_TYPE span "an intrinsic struct is given its meaning by the compiler, so only its core library declares one";; mret None
  else if intrinsic && negb (bool_decide (struct_name = name_unique known)) then
    diag GAB_ERR_TYPE span ("the compiler gives no intrinsic struct '" +:+ text +:+ "' its meaning");; mret None
  else
    rejected ← reject_self_as_name struct_name span;
    if rejected : bool then mret None
    else
      s ← current;
      there ← type_lookup_declaring (env_scope (rs_env s)) struct_name;
      match there with
      | Some _ => diag GAB_ERR_NAME span ("type '" +:+ text +:+ "' is already declared");; mret None
      | None =>
          declared ← Check.with_types (fun r => Some (new_decl r (MkTypeDecl (MkDeclId (of_module_name res) None struct_name 0) (length params) [])));
          scope ← resolver_declaring_scope;
          with_scopes (fun ss => scope_bind_type_decl str_addr ss scope struct_name (Some declared));;
          s ← current;
          change (fun s => put_structs s (rs_struct_decls s ++
            [MkStructDecl fields params span (env_scope (rs_env s)) (env_visible (rs_env s)) (ident_name name) (Some declared) false false]) (rs_resolving s));;
          mret (Some (length (rs_struct_decls s)))
      end.

(** ** Type parameters and their bounds *)

Definition resolve_param_type_in (param : ASTField) (generic : bool) : Resolve TypePtr :=
  type ← resolve_type_expr (Some (field_type_expr param)) (ident_span (field_ident param));
  abstract_ ← has_param type;
  if generic && abstract_ then mret type
  else
    unsized ← reject_unsized type (ident_span (field_ident param)) "a parameter";
    if unsized : bool then resolver_error_type else mret type.

(** [bounds[i]], of an array of [GAB_MAX_TYPE_PARAMS] where those not given are
    null. *)
Definition bound_at (bounds : list (option TypeExpr)) (i : nat) : Resolve (option TypeExpr) :=
  if Nat.ltb i GAB_MAX_TYPE_PARAMS then mret (default None (bounds !! i)) else refused.

Definition bind_owner_param (params : nat) (bounds : list (option TypeExpr)) (i : nat) (arg : TypeExpr) : Resolve unit :=
  match arg with
  | TYPE_EXPR_NAME name _ =>
      bound ← bound_at bounds i;
      kind ← bound_kind_of bound;
      bind_type_param params (ident_name name) i kind;; mret tt
  | _ => mret tt
  end.

Definition enter_owner_scope (owner : option TypeExpr) (bounds : list (option TypeExpr)) : Resolve unit :=
  match owner with
  | None => mret tt
  | Some type =>
      s ← current;
      params ← with_scopes (fun ss => scope_create ss (Some (env_scope (rs_env s))));
      (match type with
       | TYPE_EXPR_APPLY _ args => for_all (bind_owner_param params bounds) args
       | TYPE_EXPR_RAW inner => bind_owner_param params bounds 0 inner
       | _ => mret tt
       end);;
      in_env (fun env => with_scope env params);;
      self ← resolve_type_expr (Some type) (MkSpan 0 0);
      error ← is_error_type self;
      if error : bool then mret tt
      else
        known ← resolver_names;
        with_scopes (fun ss => scope_bind_type_param str_addr ss params (name_self known) self);; mret tt
  end.

(** One turn of the loops that bind the type parameters of a function. *)
Definition bind_own_type_param (span : Span) (scope : nat) (i : nat) (param : ASTTypeParam) : Resolve unit :=
  rejected ← reject_self_as_name (Some (ident_name param.1)) (ident_span param.1);
  if rejected : bool then mret tt
  else
    kind ← bound_kind_of param.2;
    bound ← bind_type_param scope (ident_name param.1) i kind;
    if bound : bool then mret tt
    else
      text ← name_text (ident_name param.1);
      diag GAB_ERR_NAME span ("duplicate type parameter '" +:+ text +:+ "' on '" +:+ text +:+ "'").

Definition bind_own_type_params (decl : ASTFuncDecl ASTStmt) (span : Span) (owner_count : nat) : Resolve unit :=
  s ← current;
  each_of (bind_own_type_param span (env_scope (rs_env s))) owner_count (drop owner_count (func_type_params decl));; mret tt.

Definition interface_of (symbol : option Symbol) : option nat :=
  match symbol_kind <$> symbol with Some (SYMBOL_INTERFACE interface) => interface | _ => None end.

Definition resolver_lookup_interface (name : StrPtr) : Resolve (option nat) :=
  s ← current;
  found ← scope_lookup_in (Some (env_scope (rs_env s))) name;
  symbol ← symbol_of found;
  match interface_of symbol with
  | Some interface => mret (Some interface)
  | None => found ← file_lookup str_addr res name; symbol ← symbol_of found; mret (interface_of symbol)
  end.

(** One turn of the loop of [enter_param_bounds]: what it leaves in the array. *)
Definition resolve_bound (span : Span) (bound : option TypeExpr) : Resolve TypeParamBound :=
  kind ← bound_kind_of bound;
  match kind, bound with
  | NO_BOUND, _ | _, None => mret BOUND_NONE
  | VALUE_BOUND, Some _ => value ← resolve_type_expr bound span; mret (BOUND_VALUE value)
  | INTERFACE_BOUND, Some written =>
      let named := match written with TYPE_EXPR_APPLY base _ => base | _ => written end in
      let args := match written with TYPE_EXPR_APPLY _ args => args | _ => [] end in
      name ← want (type_expr_ident named);
      text ← name_text name;
      found ← resolver_lookup_interface (Some name);
      match found with
      | None => diag GAB_ERR_NAME span ("'" +:+ text +:+ "' bounds a type parameter, so it names an interface");; mret BOUND_NONE
      | Some _ =>
          interface ← interface_at found;
          if negb (Nat.eqb (length args) (iface_param_count interface)) then
            diag GAB_ERR_TYPE span ("'" +:+ text +:+ "' takes " +:+ number (iface_param_count interface) +:+ " type argument(s), but "
              +:+ number (length args) +:+ " were given");;
            mret BOUND_NONE
          else if Nat.ltb GAB_MAX_TYPE_PARAMS (length args) then refused
          else
            types ← each_of (fun _ arg => resolve_type_expr (Some arg) span) 0 args;
            mret (BOUND_INTERFACE (MkInterfaceRef found (TYPE_ARG_TYPE <$> types)))
      end
  end.

Definition enter_param_bounds (decl : ASTFuncDecl ASTStmt) (span : Span) : Resolve unit :=
  bounds ← each_of (fun _ (param : ASTTypeParam) => resolve_bound span param.2) 0 (func_type_params decl);
  in_env (fun env => with_bounds env (Some (bounds ++ replicate (GAB_MAX_TYPE_PARAMS - length bounds) BOUND_NONE))).

(** The bounds of the declaration that a function points to; one made for it is
    the only one that points there. *)
Definition with_param_bounds (bounds : list TypeParamBound) (f : Function) : Function :=
  let d := fn_decl f in
  MkFunc (MkFuncDecl (func_id d) (func_interface d) (linkage d) (modifiers d) (location_type d) (func_signature d) (type_param_count d) bounds)
    (fn_signature f) (fn_type_args f) (borrowed_params f) (borrowed_params_known f).

Definition record_param_bounds (made : option nat) : Resolve unit :=
  s ← current;
  match made with
  | None => mret tt
  | Some p =>
      with_world (fun w => Some (MkWorld (world_types w)
        (MkFunctionRegistry (alter (with_param_bounds (default [] (env_param_bounds (rs_env s)))) p (reg_functions (world_functions w)))
          (Functions.instances (world_functions w)) (owned (world_functions w))), tt))
  end.

(** ** The body of a function *)

Definition param_decl (path : NodePtr) (signature : Function) (i : nat) (param : ASTField) : Resolve unit :=
  let name := field_ident param in
  type ← want (sig_params (fn_signature signature) !! i);
  rejected ← reject_self_as_name (Some (ident_name name)) (ident_span name);
  if rejected : bool then mret tt
  else
    s ← current;
    binding ← with_scopes (fun ss => scope_decl_var str_addr ss (env_scope (rs_env s)) (Some (ident_name name)) type);
    match binding with
    | None =>
        text ← name_text (ident_name name);
        diag GAB_ERR_NAME (ident_span name) ("duplicate parameter '" +:+ text +:+ "'")
    | Some _ => write_facts (fun facts => fact_set_def ident_addr facts (PARAM_NAME (path ++ [0]) i) binding)
    end.

Definition error_count : Resolve nat := fun s => Answered s (diagnostics_count (rs_diagnostics s)).

(** The function of a statement that was not declared is the null pointer, which
    is dereferenced. *)
Definition resolve_func_body (path : NodePtr) (decl : ASTFuncDecl ASTStmt) (span : Span) : Resolve unit :=
  errors_before ← error_count;
  s ← current;
  function ← want (fact_function_of node_addr (rs_facts s) path);
  signature ← function_of function;
  restoring_env (
    resolver_enter_scope;;
    for_all (param_decl path signature) (func_params decl);;
    in_env (fun env => with_func env (MkFuncContext (return_type (fn_signature signature)) (has_syntax decl FUNC_SYN_CALLER) (loop_depth (env_func env))));;
    (match func_body decl with Some body => stmt_at (path ++ [0]) body | None => mret tt end);;
    errors ← error_count;
    let returns := match func_body decl with Some body => stmt_returns body | None => false end in
    (if Nat.eqb errors errors_before && negb (bool_decide (return_type (fn_signature signature) = None)) && negb returns then
       text ← name_text (ident_name (func_ident decl));
       promised ← type_name (return_type (fn_signature signature));
       diag GAB_ERR_TYPE span ("'" +:+ text +:+ "' promises " +:+ promised +:+ ", and its body ends without returning one")
     else mret tt);;
    errors ← error_count;
    if Nat.eqb errors errors_before then
      change (fun s => put_work s (MkPendingBodies
        (bodies (rs_work s) ++ [MkPendingBody (path ++ [0]) (func_body decl) (func_params decl) function])
        (wanted (rs_work s)) (instantiation_overflowed (rs_work s))))
    else mret tt).

Definition check_abstract_body (path : NodePtr) (decl : ASTFuncDecl ASTStmt) (span : Span) : Resolve unit := resolve_func_body path decl span.

(** ** Functions *)

(** The declaration of a function with the types of its parameters. *)
Definition make_func_decl (decl : ASTFuncDecl ASTStmt) (owner : StrPtr) (ret : TypePtr) (bounds : list TypeParamBound) : Resolve FuncDecl :=
  location ← location_type_of decl;
  params ← each_of (fun _ param => resolve_param_type_in param (Nat.ltb 0 (own_param_count decl))) 0 (func_params decl);
  mret (MkFuncDecl (MkDeclId (of_module_name res) owner (Some (ident_name (func_ident decl))) 0) None (linkage_of decl) (modifiers_of decl) location
    (MkFuncSignature ret params) (own_param_count decl) bounds).

(** [function_registry_instance(..., decl, NULL, 0)], and whether the function
    was made for the declaration. *)
Definition declared_function (decl : FuncDecl) : Resolve (nat * bool) :=
  s ← current;
  func ← with_world (instance_of type_addr str_addr decl []);
  mret (func, Nat.leb (length (reg_functions (functions_of s))) func).

(** The guards of [declare_owned_in_scope]: whether the owner takes a function. *)
Definition owner_takes_function (declaring : nat) (decl : ASTFuncDecl ASTStmt) (span : Span) (owner : TypePtr) : Resolve bool :=
  t ← ask_types (fun r => deref r owner);
  name ← name_text (ident_name (func_ident decl));
  let is_host := bool_decide (func_body decl = None :> option ASTStmt) in
  let fails (message : string -> string) : Resolve bool := owner_text ← type_name owner; diag GAB_ERR_TYPE span (message owner_text);; mret false in
  if type_is_primitive t && negb is_host && negb (declares_intrinsics res) then
    fails (fun owner_text => "a function on " +:+ owner_text +:+ " is declared by its core library, which is where its body belongs")
  else if has_syntax decl FUNC_SYN_INTRINSIC && negb (declares_intrinsics res) then
    fails (fun _ => "an intrinsic is lowered by the compiler, so only its core library declares one")
  else
    s ← current;
    let intrinsic := type_registry_intrinsic (types_of s) (type_name_of t) (Some (ident_name (func_ident decl))) in
    if has_syntax decl FUNC_SYN_INTRINSIC && bool_decide (intrinsic = None) then
      fails (fun owner_text => "the compiler lowers no intrinsic '" +:+ name +:+ "' on " +:+ owner_text)
    else if type_is_primitive t && negb (declares_intrinsics res) then
      fails (fun owner_text => "a function on " +:+ owner_text +:+ " is declared by the runtime's core library")
    else if type_is_primitive t then mret true
    else if negb (bool_decide (ty_kind t = TYPE_STRUCT)) then
      fails (fun owner_text => "a function belongs to a struct this module declares, not to " +:+ owner_text)
    else
      found ← (match type_name_of t with Some _ => type_lookup_declaring declaring (type_name_of t) | None => mret None end);
      bound ← symbol_of found;
      match symbol_kind <$> bound with
      | Some (SYMBOL_TYPE_DECL d) =>
          if bool_decide (d = type_decl t) then mret true
          else fails (fun owner_text => "cannot declare a function on '" +:+ owner_text +:+ "', which this module does not declare")
      | _ => fails (fun owner_text => "cannot declare a function on '" +:+ owner_text +:+ "', which this module does not declare")
      end.

Definition declare_owned_in_scope (declaring : nat) (path : NodePtr) (decl : ASTFuncDecl ASTStmt) (span : Span) : Resolve unit :=
  bind_own_type_params decl span (owner_type_param_count (func_owner decl));;
  owner ← resolve_type_expr (func_owner decl) span;
  error ← is_error_type owner;
  if error : bool then mret tt
  else
    taken ← owner_takes_function declaring decl span owner;
    if negb taken then mret tt
    else
      t ← ask_types (fun r => deref r owner);
      ret ← resolve_type_expr (func_return_type decl) span;
      abstract_ ← has_param ret;
      unsized ← (if abstract_ : bool then mret false else reject_unsized ret span "returned");
      ret ← (if unsized : bool then resolver_error_type else mret ret);
      rejected ← reject_generic_without_body decl span (ident_name (func_ident decl));
      if rejected : bool then mret tt
      else
        made ← make_func_decl decl (type_name_of t) ret [];
        '(func, new) ← declared_function made;
        write_facts (fun facts => fact_set_function node_addr facts path (Some func));;
        declared ← with_world (fun w =>
          '(fr, declared) ← function_registry_declare_owned str_addr (world_types w) (world_functions w) owner (Some func);
          Some (MkWorld (world_types w) fr, declared));
        if negb declared then
          owner_text ← opt_text (type_name_of t);
          name ← name_text (ident_name (func_ident decl));
          diag GAB_ERR_NAME span ("'" +:+ owner_text +:+ "' already has a function '" +:+ name +:+ "'")
        else if Nat.ltb 0 (own_param_count decl) then
          enter_param_bounds decl span;;
          record_param_bounds (if new : bool then Some func else None);;
          match func_body decl with Some _ => check_abstract_body path decl span | None => mret tt end
        else mret tt.

Definition declare_owned (path : NodePtr) (decl : ASTFuncDecl ASTStmt) (span : Span) : Resolve unit :=
  restoring_env (
    s ← current;
    enter_owner_scope (func_owner decl) (snd <$> func_type_params decl);;
    declare_owned_in_scope (env_scope (rs_env s)) path decl span).

Definition declare_free_function (path : NodePtr) (decl : ASTFuncDecl ASTStmt) (span : Span) : Resolve unit :=
  let generic := Nat.ltb 0 (own_param_count decl) in
  let name := func_ident decl in
  (if generic then
     s ← current;
     params ← with_scopes (fun ss => scope_create ss (Some (env_scope (rs_env s))));
     for_all (bind_own_type_param span params) (func_type_params decl);;
     in_env (fun env => with_scope env params);;
     enter_param_bounds decl span
   else mret tt);;
  ret ← resolve_type_expr (func_return_type decl) span;
  rejected ← reject_self_as_name (Some (ident_name name)) (ident_span name);
  if rejected : bool then mret tt
  else
    rejected ← reject_generic_without_body decl span (ident_name name);
    if rejected : bool then mret tt
    else
      s ← current;
      made ← make_func_decl decl None ret (if generic then default [] (env_param_bounds (rs_env s)) else []);
      '(func, _) ← declared_function made;
      write_facts (fun facts => fact_set_function node_addr facts path (Some func));;
      scope ← resolver_declaring_scope;
      bound ← with_scopes (fun ss => scope_bind_func_against str_addr ss scope (env_scope (rs_env s)) (Some (ident_name name)) (Some func));
      (match bound with
       | Some _ => mret tt
       | None =>
           text ← name_text (ident_name name);
           diag GAB_ERR_NAME (ident_span name) ("'" +:+ text +:+ "' is already declared in this scope")
       end);;
      match func_body decl with
      | Some _ => if generic then check_abstract_body path decl span else mret tt
      | None => mret tt
      end.

Definition declare_func (path : NodePtr) (decl : ASTFuncDecl ASTStmt) (span : Span) : Resolve unit :=
  resolver_mark_declared node_addr path;;
  match func_owner decl with
  | Some _ => declare_owned path decl span
  | None => restoring_env (declare_free_function path decl span)
  end.

(** ** Interfaces *)

(** One turn of the loop over the signatures. *)
Definition interface_member (interface param_count : nat) (member : ASTStmt) : Resolve FuncDecl :=
  match member with
  | STMT_FUNC_DECL span decl =>
      ret ← resolve_type_expr (func_return_type decl) span;
      params ← each_of (fun _ param => resolve_param_type_in param true) 0 (func_params decl);
      mret (MkFuncDecl (MkDeclId None None (Some (ident_name (func_ident decl))) 0) (Some interface) LINKAGE_INTERNAL FUNC_MOD_NONE None
        (MkFuncSignature ret params) (S param_count) [])
  | _ => refused
  end.

(** A parameter's type is not bound twice to a name, which is not reported. *)
Definition bind_interface_param (params : nat) (index : nat) (name : StrPtr) : Resolve unit :=
  type ← make_type (fun r => type_registry_param r index);
  s ← current;
  with_scopes (fun ss => scope_bind_type str_addr (types_of s) ss params name type);; mret tt.

Definition declare_interface (span : Span) (name : ASTIdent) (members : list ASTStmt) (params : list ASTIdent) : Resolve unit :=
  rejected ← reject_self_as_name (Some (ident_name name)) (ident_span name);
  if rejected : bool then mret tt
  else
    s ← current;
    there ← type_lookup_declaring (env_scope (rs_env s)) (Some (ident_name name));
    match there with
    | Some _ => text ← name_text (ident_name name); diag GAB_ERR_NAME span ("'" +:+ text +:+ "' is already declared")
    | None =>
        methods ← restoring_env (
          scope ← with_scopes (fun ss => scope_create ss (Some (env_scope (rs_env s))));
          known ← resolver_names;
          bind_interface_param scope 0 (name_self known);;
          for_all (fun i param => bind_interface_param scope (S i) (Some (ident_name param))) params;;
          in_env (fun env => with_scope env scope);;
          each_of (fun _ => interface_member (length (rs_interfaces s)) (length params)) 0 members);
        s ← current;
        let first := length (rs_methods s) in
        let interface := MkInterfaceDecl (MkDeclId (of_module_name res) None (Some (ident_name name)) 0)
          (Some <$> seq first (length methods)) (length params) in
        change (fun s => put_interfaces s (rs_interfaces s ++ [interface]) (rs_methods s ++ methods));;
        scope ← resolver_declaring_scope;
        with_scopes (fun ss => scope_bind_interface str_addr ss scope (Some (ident_name name)) (Some (length (rs_interfaces s))));;
        mret tt
    end.

(** ** What a type implements *)

(** The last loop: the first parameter that differs is reported. *)
Fixpoint check_conforming_params (span : Span) (name interface_name : string) (p : nat) (expected given : list TypePtr) : Resolve unit :=
  match expected, given with
  | e :: expected, g :: given =>
      if bool_decide (e = g) then check_conforming_params span name interface_name (S p) expected given
      else
        g ← type_name g;
        e ← type_name e;
        diag GAB_ERR_TYPE span ("parameter " +:+ number (S p) +:+ " of '" +:+ name +:+ "' is " +:+ g +:+ ", but '" +:+ interface_name
          +:+ "' declares it " +:+ e)
  | _, _ => mret tt
  end.

(** One turn of the loop over the methods of the interface. *)
Definition check_conforming_method (span : Span) (members : list ASTStmt) (implementor : TypePtr) (interface : InterfaceDecl) (interface_name : string)
    (args : list TypeArg) (i : nat) (method : DeclPtr) : Resolve unit :=
  s ← current;
  d ← want (n ← method; rs_methods s !! n);
  let name := id_name (func_id d) in
  supplied ← (if block_declares members name then
                want (function_registry_find_owned str_addr (types_of s) (functions_of s) implementor name)
              else mret None);
  match supplied with
  | None =>
      owner ← type_name implementor;
      text ← opt_text name;
      diag GAB_ERR_TYPE span ("'" +:+ owner +:+ "' implements '" +:+ interface_name +:+ "', which declares '" +:+ text +:+ "', but supplies no '" +:+ text +:+ "'")
  | Some supplied =>
      required ← interface_method_for type_addr str_addr interface i implementor args;
      required ← function_of required;
      supplied ← function_of supplied;
      let expected := fn_signature required in
      let given := fn_signature supplied in
      text ← opt_text name;
      if negb (bool_decide (return_type expected = return_type given)) then
        owner ← type_name implementor;
        g ← type_name (return_type given);
        e ← type_name (return_type expected);
        diag GAB_ERR_TYPE span ("'" +:+ text +:+ "' of '" +:+ owner +:+ "' returns " +:+ g +:+ ", but '" +:+ interface_name +:+ "' declares it returns " +:+ e)
      else if negb (Nat.eqb (length (sig_params expected)) (length (sig_params given))) then
        owner ← type_name implementor;
        diag GAB_ERR_TYPE span ("'" +:+ text +:+ "' of '" +:+ owner +:+ "' takes " +:+ number (length (sig_params given)) +:+ " parameters, but '"
          +:+ interface_name +:+ "' declares " +:+ number (length (sig_params expected)))
      else check_conforming_params span text interface_name 0 (sig_params expected) (sig_params given)
  end.

(** The arguments of the interface; [None] is the [return] at an error. *)
Fixpoint interface_args (span : Span) (exprs : list TypeExpr) : Resolve (option (list TypeArg)) :=
  match exprs with
  | [] => mret (Some [])
  | expr :: exprs =>
      argument ← resolve_type_expr (Some expr) span;
      error ← is_error_type argument;
      if error : bool then mret None
      else rest ← interface_args span exprs; mret ((fun rest => TYPE_ARG_TYPE argument :: rest) <$> rest)
  end.

Definition check_conformance (members : list ASTStmt) (named : ASTIdent) (written : list TypeExpr) (implementor : TypePtr) : Resolve unit :=
  let span := ident_span named in
  text ← name_text (ident_name named);
  found ← resolver_lookup_interface (Some (ident_name named));
  match found with
  | None => diag GAB_ERR_NAME span ("unknown interface '" +:+ text +:+ "'")
  | Some _ =>
      interface ← interface_at found;
      if negb (Nat.eqb (length written) (iface_param_count interface)) then
        diag GAB_ERR_TYPE span ("'" +:+ text +:+ "' takes " +:+ number (iface_param_count interface) +:+ " type argument(s), but "
          +:+ number (length written) +:+ " were given")
      else if Nat.ltb GAB_MAX_TYPE_PARAMS (length written) then refused
      else
        args ← interface_args span written;
        match args with
        | None => mret tt
        | Some args =>
            declared ← Check.with_types (fun r => type_registry_declare_conformance type_addr str_addr r implementor (iface_id interface) args);
            if negb declared then
              owner ← type_name implementor;
              diag GAB_ERR_TYPE span ("'" +:+ owner +:+ "' already implements '" +:+ text +:+ "'")
            else for_all (check_conforming_method span members implementor interface text args) (iface_methods interface)
        end
  end.

(** ** [impl] blocks *)

Definition declare_member (declaring : nat) (path : NodePtr) (i : nat) (member : ASTStmt) : Resolve unit :=
  match member with
  | STMT_FUNC_DECL span decl =>
      declare_owned_in_scope declaring (path ++ [i]) decl span;;
      resolver_mark_declared node_addr (path ++ [i]);; mret tt
  | _ => mret tt
  end.

Definition declare_impl (path : NodePtr) (span : Span) (type : TypeExpr) (members : list ASTStmt) (interface_name : option ASTIdent)
    (written : list TypeExpr) (params : list ASTTypeParam) : Resolve unit :=
  restoring_env (
    s ← current;
    enter_owner_scope (Some type) (snd <$> params);;
    for_all (declare_member (env_scope (rs_env s)) path) members;;
    match interface_name with
    | None => mret tt
    | Some named =>
        implementor ← resolve_type_expr (Some type) span;
        error ← is_error_type implementor;
        if error : bool then mret tt else check_conformance members named written implementor
    end).

Definition resolve_impl (path : NodePtr) (type : TypeExpr) (members : list ASTStmt) (params : list ASTTypeParam) : Resolve unit :=
  restoring_env (
    enter_owner_scope (Some type) (snd <$> params);;
    for_all (fun i member => stmt_at (path ++ [i]) member) members).
End declare.
