(* ===== verification/Resolver.v ===== *)
(** * Resolver: the statements, and a module

    [src/src/ast/resolve.c], the rest: [resolve_stmt], the files of a module, and
    [resolve_module], with [src/src/ast/resolve.h].  A statement's pointer is
    its file, its place in the file, and the path below it. *)

From Stdlib Require Import String.
From S2P Require Import Ast Facts.
From S2P Require Import Prelude Types Mir Decl Diagnostics Strings HashMap Registry RegistryTypes RegistryState Functions Scopes Instantiate Build Check TypeExprs Resolve Declare.

Section statements.
Context (type_addr str_addr : nat -> N) (node_addr : NodePtr -> N) (ident_addr : IdentPtr -> N) (type_fuel depth : nat) (res : Resolution).

#[local] Abbreviation type_accepts := (Check.type_accepts type_addr str_addr).
#[local] Abbreviation borrow_into := (Check.borrow_into node_addr).
#[local] Abbreviation mark_implicit_move := (Check.mark_implicit_move type_addr str_addr node_addr type_fuel).
#[local] Abbreviation fact_type := (Check.fact_type node_addr).
#[local] Abbreviation resolve_type_expr := (TypeExprs.resolve_type_expr type_addr str_addr type_fuel res depth).
#[local] Abbreviation resolve_expr := (Resolve.resolve_expr type_addr str_addr node_addr type_fuel depth res depth).

Section recursion.
Context (stmt_at : NodePtr -> ASTStmt -> Resolve unit).

#[local] Abbreviation resolve_func_body := (Declare.resolve_func_body str_addr node_addr ident_addr stmt_at).
#[local] Abbreviation declare_func := (Declare.declare_func type_addr str_addr node_addr ident_addr type_fuel depth res stmt_at).

(** Neither of two types is an error. *)
Definition both_known (a b : TypePtr) : Resolve bool :=
  wrong ← is_error_type a;
  wrong' ← is_error_type b;
  mret (negb wrong && negb wrong').

(** What a variable declared with a type gets from its initializer. *)
Definition check_initializer (path : NodePtr) (init : ASTExpr) (declared : TypePtr) : Resolve TypePtr :=
  let span := expr_span init in
  init_type ← fact_type path;
  known ← both_known declared init_type;
  accepted ← (if known : bool then type_accepts declared init_type else mret true);
  if negb accepted then
    view ← derefs_to type_addr str_addr declared;
    text ← ask_types (fun r => Some (type_is_str_ref (deref r) (deref r init_type)));
    wanted ← type_name declared;
    (if negb (bool_decide (view = None)) && text then
       diag GAB_ERR_TYPE span ("text is borrowed characters, so " +:+ wanted +:+ " cannot take it")
     else
       given ← type_name init_type;
       diag GAB_ERR_TYPE span ("cannot initialize a variable of type " +:+ wanted +:+ " with a value of type " +:+ given));;
    resolver_error_type
  else
    borrowed ← borrow_into path init declared span;
    if borrowed : bool then mret declared else resolver_error_type.

(** The type a variable's declaration writes. *)
Definition declared_type (path : NodePtr) (span : Span) (type_expr : option TypeExpr) (init : option ASTExpr) : Resolve TypePtr :=
  declared ← resolve_type_expr type_expr span;
  unsized ← reject_unsized declared span "a variable";
  declared ← (if unsized : bool then resolver_error_type else mret declared);
  resolve_expr (path ++ [0]) init declared;;
  error ← is_error_type declared;
  if negb (bool_decide (init = None :> option ASTExpr)) || error then mret declared
  else
    struct ← is_kind TYPE_STRUCT declared;
    if negb struct then mret declared
    else
      text ← type_name declared;
      diag GAB_ERR_TYPE span ("a " +:+ text +:+ " must be given its fields where it is declared, as '" +:+ text +:+ " { ... }'");;
      resolver_error_type.

Definition resolve_var_decl (path : NodePtr) (span : Span) (name : ASTIdent) (type_expr : option TypeExpr) (init : option ASTExpr) : Resolve unit :=
  s ← current;
  scope ← want (scope_heap (rs_scopes s) !! env_scope (rs_env s));
  if negb (bool_decide (scope_kind scope = SCOPE_LOCAL)) then
    diag GAB_ERR_TYPE span "a variable is declared in a function body, and a module declares no state of its own"
  else
    declared ← declared_type path span type_expr init;
    type ← (match type_expr, init with
            | Some _, Some init => check_initializer (path ++ [0]) init declared
            | Some _, None => mret declared
            | None, Some _ => fact_type (path ++ [0])
            | None, None => resolver_error_type
            end);
    rejected ← reject_self_as_name (Some (ident_name name)) (ident_span name);
    var ← (if rejected : bool then mret None
           else
             scope ← resolver_declaring_scope;
             with_scopes (fun ss => scope_decl_var str_addr ss scope (Some (ident_name name)) type));
    match var with
    | None =>
        text ← name_text (ident_name name);
        diag GAB_ERR_NAME (ident_span name) ("'" +:+ text +:+ "' is already declared in this scope")
    | Some _ =>
        mark_implicit_move (path ++ [0]) init type span;;
        write_facts (fun facts => fact_set_def ident_addr facts (LOCAL_NAME path) var)
    end.

Definition is_part (expr : ASTExpr) : bool :=
  match expr with EXPR_FIELD _ _ _ | EXPR_DEREF _ _ | EXPR_INDEX _ _ _ => true | _ => false end.

(** What is left of an assignment whose value fits. *)
Definition move_into (path : NodePtr) (span : Span) (target value : ASTExpr) (target_type : TypePtr) : Resolve unit :=
  if is_part target then mark_implicit_move (path ++ [1]) (Some value) target_type span
  else
    s ← current;
    let used := fact_use_of node_addr (rs_facts s) (path ++ [0]) in
    match symbol_kind <$> symbol_at (rs_scopes s) used with
    | Some (SYMBOL_VAR _) =>
        let itself := bool_decide (fact_use_of node_addr (rs_facts s) (path ++ [1]) = used) in
        copied ← (if itself then copies type_addr str_addr type_fuel target_type else mret true);
        if negb copied then
          t ← ask_types (fun r => deref r target_type);
          let text := match type_name_of t with Some name => text_at s (Some name) | None => "a value" end in
          diag GAB_ERR_LIFETIME span ("'" +:+ text +:+ "' owns what it holds, so it cannot be assigned to itself")
        else mark_implicit_move (path ++ [1]) (Some value) target_type span
    | _ => mret tt
    end.

Definition resolve_assign (path : NodePtr) (span : Span) (target value : ASTExpr) : Resolve unit :=
  target_type ← resolve_expr (path ++ [0]) (Some target) None;
  value_type ← resolve_expr (path ++ [1]) (Some value) target_type;
  known ← both_known target_type value_type;
  accepted ← (if known : bool then type_accepts target_type value_type else mret true);
  if negb accepted then
    given ← type_name value_type;
    wanted ← type_name target_type;
    diag GAB_ERR_TYPE span ("cannot assign a value of type " +:+ given +:+ " to a target of type " +:+ wanted)
  else
    borrowed ← (if known : bool then borrow_into (path ++ [1]) value target_type span else mret true);
    if negb borrowed then mret tt else move_into path span target value target_type.

Definition resolve_compound_assign (path : NodePtr) (span : Span) (target value : ASTExpr) (op : BinOp) : Resolve unit :=
  target_type ← resolve_expr (path ++ [0]) (Some target) None;
  value_type ← resolve_expr (path ++ [1]) (Some value) None;
  known ← both_known target_type value_type;
  if negb known then mret tt
  else if negb (bool_decide (target_type = value_type)) then
    l ← type_name target_type;
    r ← type_name value_type;
    diag GAB_ERR_TYPE span ("cannot apply '" +:+ bin_op_name op +:+ "=' to " +:+ l +:+ " and " +:+ r)
  else
    accepted ← bin_op_accepts type_addr str_addr op target_type span;
    if accepted && bin_op_yields_bool op then refused else mret tt.

(** The condition of an [if] or a [for], [keyword]. *)
Definition resolve_condition (path : NodePtr) (condition : ASTExpr) (keyword : string) : Resolve unit :=
  type ← resolve_expr path (Some condition) None;
  error ← is_error_type type;
  if error : bool then mret tt
  else
    kind ← kind_of type;
    if is_boolean_type kind then mret tt
    else
      given ← type_name type;
      diag GAB_ERR_TYPE (expr_span condition) ("'" +:+ keyword +:+ "' requires a boolean condition, found " +:+ given).

(** A null statement is none. *)
Definition optional_stmt (path : NodePtr) (stmt : option ASTStmt) : Resolve unit :=
  match stmt with Some stmt => stmt_at path stmt | None => mret tt end.

Definition loop_deeper (func : FuncContext) : FuncContext := MkFuncContext (ctx_return_type func) (is_caller func) (S (loop_depth func)).

Definition resolve_for (path : NodePtr) (init : option ASTStmt) (condition : option ASTExpr) (post : option ASTStmt) (body : ASTStmt) : Resolve unit :=
  restoring_env (
    resolver_enter_scope;;
    optional_stmt (path ++ [0]) init;;
    (match condition with Some condition => resolve_condition (path ++ [1]) condition "for" | None => mret tt end);;
    in_env (fun env => with_func env (loop_deeper (env_func env)));;
    stmt_at (path ++ [3]) body;;
    optional_stmt (path ++ [2]) post).

Definition resolve_return (path : NodePtr) (span : Span) (result : ASTExpr) : Resolve unit :=
  s ← current;
  let expected := ctx_return_type (env_func (rs_env s)) in
  resolve_expr (path ++ [0]) (Some result) expected;;
  actual ← fact_type (path ++ [0]);
  poisoned ← (match expected with None => mret false | Some _ => is_kind TYPE_ERROR expected end);
  poisoned' ← (match actual with None => mret false | Some _ => is_kind TYPE_ERROR actual end);
  accepted ← (match actual, expected with Some _, Some _ => type_accepts expected actual | _, _ => mret (bool_decide (actual = expected)) end);
  if poisoned || poisoned' then mret tt
  else if negb accepted then
    given ← type_name actual;
    wanted ← type_name expected;
    diag GAB_ERR_TYPE span ("returns " +:+ given +:+ ", but " +:+ wanted +:+ " was declared")
  else
    match actual with
    | None => mret tt
    | Some _ =>
        mark_implicit_move (path ++ [0]) (Some result) expected span;;
        borrow_into (path ++ [0]) result expected span;; mret tt
    end.

Definition resolve_func_decl (path : NodePtr) (span : Span) (decl : ASTFuncDecl ASTStmt) : Resolve unit :=
  declared ← resolver_mark_declared node_addr path;
  (if declared : bool then mret tt else declare_func path decl span);;
  match func_body decl with
  | None => mret tt
  | Some _ => if func_decl_is_generic decl then mret tt else resolve_func_body path decl span
  end.

Definition resolve_struct_decl (path : NodePtr) (span : Span) (name : ASTIdent) (fields : list ASTField) (params : list ASTIdent) (intrinsic : bool) :
    Resolve unit :=
  declared ← resolver_mark_declared node_addr path;
  if declared : bool then mret tt
  else
    made ← declare_struct str_addr node_addr res path span name fields params intrinsic;
    match made with
    | Some decl => resolve_struct_fields type_addr str_addr type_fuel res depth decl
    | None => mret tt
    end.

Definition resolve_stmt_of (path : NodePtr) (stmt : ASTStmt) : Resolve unit :=
  match stmt with
  | STMT_EXPR _ value => resolve_expr (path ++ [0]) (Some value) None;; mret tt
  | STMT_VAR_DECL span name type_expr initializer => resolve_var_decl path span name type_expr initializer
  | STMT_FUNC_DECL span decl => resolve_func_decl path span decl
  | STMT_INTERFACE_DECL _ _ _ _ => mret tt
  | STMT_IMPL _ type members _ _ params => resolve_impl type_addr str_addr type_fuel depth res stmt_at path type members params
  | STMT_STRUCT_DECL span name fields params intrinsic => resolve_struct_decl path span name fields params intrinsic
  | STMT_ASSIGN span target value => resolve_assign path span target value
  | STMT_COMPOUND_ASSIGN span target value op => resolve_compound_assign path span target value op
  | STMT_IF _ condition then_block else_block =>
      resolve_condition (path ++ [0]) condition "if";;
      stmt_at (path ++ [1]) then_block;;
      optional_stmt (path ++ [2]) else_block
  | STMT_FOR _ init condition post body => resolve_for path init condition post body
  | STMT_JUMP span is_break =>
      s ← current;
      if Nat.eqb (loop_depth (env_func (rs_env s))) 0 then
        diag GAB_ERR_TYPE span ("'" +:+ (if is_break then "break" else "continue") +:+ "' is only valid inside a loop")
      else mret tt
  | STMT_BLOCK _ list => restoring_env (resolver_enter_scope;; for_all (fun i stmt => stmt_at (path ++ [i]) stmt) list)
  | STMT_RETURN span result => resolve_return path span result
  end.
End recursion.

(** [resolve_stmt] at a depth of statements. *)
Fixpoint stmts_at (fuel : nat) : NodePtr -> ASTStmt -> Resolve unit :=
  match fuel with
  | O => fun _ _ => too_deep
  | S fuel => resolve_stmt_of (stmts_at fuel)
  end.

Definition resolve_stmt (path : NodePtr) (stmt : ASTStmt) : Resolve unit := stmts_at depth path stmt.
End statements.

(** ** Modules *)

(** The modules there are, by name, and the core; the rest of [Resolver] is in
    the state. *)
Record Resolver := MkResolver {
  rv_modules : option (HashMap StrPtr nat);
  rv_core : option nat;
  rv_heap : list Module;
}.

(** [Files], with the files themselves. *)
Record FileScope := MkFileScope { fs_file : ASTFile; fs_scope : nat; fs_visible : Visible }.

(** What a resolution begins with: what the pointers of [Resolver] reach, and
    the arena's interfaces. *)
Record Shared := MkShared {
  sh_world : World;
  sh_strings : StringPool;
  sh_diagnostics : Diagnostics;
  sh_scopes : Scopes;
  sh_interfaces : list InterfaceDecl;
  sh_methods : list FuncDecl;
}.

Definition DECLARED_CAPACITY : nat := 64.

Section modules.
Context (type_addr str_addr : nat -> N) (node_addr : NodePtr -> N) (ident_addr : IdentPtr -> N) (type_fuel depth : nat).
Context (resolver : Resolver) (res : Resolution).

#[local] Abbreviation stmt_at := (resolve_stmt type_addr str_addr node_addr ident_addr type_fuel depth res).

(** [module_map_lookup] *)
Definition module_lookup (name : nat) : option (option nat) :=
  match rv_modules resolver with
  | None => Some None
  | Some modules => map_lookup (address str_addr) (fun key other : StrPtr => bool_decide (key = other)) modules (Some name)
  end.

(** One turn of the loop over the imports: the modules it adds. *)
Definition collect_import (scope : nat) (name : ASTIdent) : Resolve Visible :=
  imported ← want (module_lookup (ident_name name));
  match imported with
  | None => mret []
  | Some module =>
      bound ← with_scopes (fun ss => scope_bind_module str_addr ss scope (Some (ident_name name)) (Some module));
      (if bound : bool then mret tt
       else
         text ← name_text (ident_name name);
         diag GAB_ERR_NAME (ident_span name) ("'" +:+ text +:+ "' is already declared in this file"));;
      mret [module]
  end.

Definition collect_file (file : ASTFile) : Resolve FileScope :=
  scope ← with_scopes (fun ss => scope_create_kind ss (Some (of_module_scope res)) SCOPE_FILE);
  imported ← each_of (fun _ => collect_import scope) 0 (file_imports file);
  mret (MkFileScope file scope (concat imported ++ option_list (rv_core resolver))).

Definition collect_files (module : ASTModule) : Resolve (list FileScope) := each_of (fun _ => collect_file) 0 (module_files module).

Definition resolver_enter_file (file : FileScope) : Resolve unit :=
  in_env (fun env => with_declaring (with_scope (with_visible env (Some (fs_visible file))) (fs_scope file)) (Some (of_module_scope res))).

(** The loops over the files and their statements. *)
Definition each_statement (f : NodePtr -> ASTStmt -> Resolve unit) (files : list FileScope) : Resolve unit :=
  for_all (fun k file => resolver_enter_file file;; for_all (fun i stmt => f [k; i] stmt) (file_statements (fs_file file))) files.

Definition declare_type_of (path : NodePtr) (stmt : ASTStmt) : Resolve unit :=
  match stmt with
  | STMT_INTERFACE_DECL span name members params =>
      declare_interface type_addr str_addr type_fuel depth res span name members params
  | STMT_STRUCT_DECL span name fields params intrinsic =>
      declare_struct str_addr node_addr res path span name fields params intrinsic;; mret tt
  | _ => mret tt
  end.

Definition declare_types : list FileScope -> Resolve unit := each_statement declare_type_of.

Definition resolve_type_bodies : Resolve unit :=
  s ← current;
  for_all (fun _ decl => resolve_struct_fields type_addr str_addr type_fuel res depth decl) (seq 0 (length (rs_struct_decls s))).

Definition declare_function_of (path : NodePtr) (stmt : ASTStmt) : Resolve unit :=
  match stmt with
  | STMT_FUNC_DECL span decl => declare_func type_addr str_addr node_addr ident_addr type_fuel depth res stmt_at path decl span
  | STMT_IMPL span type members interface_name written params =>
      declare_impl type_addr str_addr node_addr ident_addr type_fuel depth res stmt_at path span type members interface_name written params
  | _ => mret tt
  end.

Definition declare_functions : list FileScope -> Resolve unit := each_statement declare_function_of.
Definition resolve_bodies : list FileScope -> Resolve unit := each_statement stmt_at.

(** The passes, one after the other. *)
Definition resolve_passes (module : ASTModule) : Resolve unit :=
  files ← collect_files module;
  declare_types files;;
  resolve_type_bodies;;
  declare_functions files;;
  resolve_bodies files.
End modules.

Section resolve_module.
Context (type_addr str_addr : nat -> N) (node_addr : NodePtr -> N) (ident_addr : IdentPtr -> N) (type_fuel depth : nat).

Definition start_env (into : nat) : Env := MkEnv into None None (MkFuncContext None false 0) None.

Definition start_state (shared : Shared) (into : nat) : option ResolverState :=
  facts ← facts_init;
  declared ← map_init DECLARED_CAPACITY;
  Some (MkResolverState (sh_world shared) (sh_strings shared) (sh_diagnostics shared) (sh_scopes shared) (sh_interfaces shared) (sh_methods shared)
    facts pending_bodies_create [] [] declared (start_env into)).

(** [ResolvedModule] is the facts and the work of the state, with the module's
    name and scope. *)
Definition resolve_module (resolver : Resolver) (shared : Shared) (module : ASTModule) (into : nat) (intrinsics : bool) : Answer bool :=
  match start_state shared into with
  | None => Refused
  | Some start =>
      let res := MkResolution into (ident_name <$> module_name module) intrinsics (rv_heap resolver) in
      match resolve_passes type_addr str_addr node_addr ident_addr type_fuel depth resolver res module start with
      | Answered s _ => Answered s (Nat.eqb (diagnostics_count (rs_diagnostics s)) (diagnostics_count (sh_diagnostics shared)))
      | Refused => Refused
      | TooDeep => TooDeep
      end
  end.
End resolve_module.
