(* ===== verification/Parser.v ===== *)
(** * Parser: from tokens to the syntax tree

    [src/src/syntax/parser.c], function by function.  A parse function is an
    action on the parser's state; [None] is a loop or recursion that used up its
    fuel, a lexer that failed, or a null pointer read.  A function of the code that returns a pointer
    returns an option, [None] for [NULL]; so does one that returns [bool] and
    fills an out parameter, [None] for [false].  Everything recursive takes
    [fuel]: a loop has as many turns, and a call nested in another gets less. *)

From S2P Require Import Prelude Types Mir Diagnostics HashMap Strings Lexer Registry Ast.
From stdpp Require Import pretty.

Inductive ExprContext := EXPR_ANY | EXPR_NO_STRUCT_LIT.

#[export] Instance ExprContext_eq_dec : EqDecision ExprContext.
Proof. solve_decision. Defined.

(** The arena, the pool and the diagnostics are the lexer's. *)
Record Parser := MkParser { ps_lexer : Lexer; ps_current : Token }.

(** ** Actions *)

Definition Action (A : Type) : Type := Parser -> option (A * Parser).

Definition done {A} (a : A) : Action A := fun p => Some (a, p).
Definition andthen {A B} (m : Action A) (f : A -> Action B) : Action B := fun p => '(a, p) ← m p; f a p.
(** [if (!x) return NULL;] *)
Definition orfail {A B} (m : Action (option A)) (f : A -> Action (option B)) : Action (option B) :=
  andthen m (fun r => match r with Some a => f a | None => done None end).
(** [if (!b) return NULL;] *)
Definition require {B} (m : Action bool) (k : Action (option B)) : Action (option B) :=
  andthen m (fun b : bool => if b then k else done None).
Definition no_result {A} : Action A := fun _ => None.

Declare Scope parser_scope.
Delimit Scope parser_scope with parser.
Notation "'let!' x := m 'in' k" := (andthen m (fun x => k)) (at level 10, x pattern at level 0, m at level 100, k at level 200) : parser_scope.
Notation "'let?' x := m 'in' k" := (orfail m (fun x => k)) (at level 10, x pattern at level 0, m at level 100, k at level 200) : parser_scope.
Notation "'when' m 'in' k" := (require m k) (at level 10, m at level 100, k at level 200) : parser_scope.
Notation "m ';;' k" := (andthen m (fun _ => k)) (at level 100, k at level 200, right associativity) : parser_scope.
Open Scope parser_scope.

Definition the_current : Action Token := fun p => Some (ps_current p, p).
Definition the_type : Action TokenType := fun p => Some (token_type (ps_current p), p).
(** [parser->current.type == type] *)
Definition at_type (type : TokenType) : Action bool := fun p => Some (bool_decide (token_type (ps_current p) = type), p).

Definition parser_create (lexer : Lexer) : Parser := MkParser lexer (MkToken TOKEN_INVALID [] None 0 0).

Definition parser_next_token : Action unit :=
  fun p => '(token, lexer) ← lexer_next (ps_lexer p); Some (tt, MkParser lexer token).

Definition parser_span : Action Span := fun p => Some (token_span (ps_current p), p).

Definition with_lexer (p : Parser) (lexer : Lexer) : Parser := MkParser lexer (ps_current p).

Definition parser_diag (kind : DiagKind) (span : Span) (message : string) : Action unit :=
  fun p => Some (tt, with_lexer p (report (ps_lexer p) kind span message)).

Definition parser_error (message : string) : Action unit :=
  let! span := parser_span in parser_diag GAB_ERR_SYNTAX span message.

Definition parser_error_found (message : string) : Action unit :=
  let! span := parser_span in
  let! type := the_type in
  parser_diag GAB_ERR_SYNTAX span (message +:+ ", found " +:+ token_description type).

Definition parser_expect (token : TokenType) (message : string) : Action bool :=
  let! ok := at_type token in
  if ok : bool then done true
  else
    let! span := parser_span in
    let! type := the_type in
    parser_diag GAB_ERR_SYNTAX span (message +:+ ", found " +:+ token_description type) ;;
    done false.

(** [ast_ident_create] with the parser's pool. *)
Definition make_ident (span : Span) (name : StringRef) : Action ASTIdent :=
  fun p => '(strings, ident) ← ast_ident_create (lx_strings (ps_lexer p)) span name;
           Some (ident, with_lexer p (with_strings (ps_lexer p) strings)).

(** The identifier under the cursor, at its own place. *)
Definition current_ident : Action ASTIdent :=
  let! span := parser_span in
  let! token := the_current in
  make_ident span (token_lexeme token).

(** The text of a [%.*s]. *)
Definition text_of (ref : StringRef) : string := String.string_of_list_ascii ref.

(** ** The head of a file *)

(** Where a name that was just read begins in the source, and where it ends. *)
Definition name_begin : Action nat :=
  fun p => Some (lx_pos (ps_lexer p) - length (token_lexeme (ps_current p)), p).
Definition name_end : Action nat := fun p => Some (lx_pos (ps_lexer p), p).

(** The loop over [::] and names; the end of the last name. *)
Fixpoint module_path (fuel : nat) (stop : nat) : Action nat :=
  match fuel with
  | O => no_result
  | S fuel =>
      let! more := at_type TOKEN_COLON_COLON in
      if more : bool then
        parser_next_token ;;
        let! name := at_type TOKEN_IDENT in
        if name : bool then
          let! stop := name_end in
          parser_next_token ;;
          module_path fuel stop
        else done stop
      else done stop
  end.

Definition source_slice (start stop : nat) : Action string :=
  fun p => Some (text_of (take (stop - start) (drop start (lx_source (ps_lexer p)))), p).

(** [if (parser_expect(parser, type, message)) parser_next_token(parser);] *)
Definition expect_and_eat (type : TokenType) (message : string) : Action unit :=
  let! ok := parser_expect type message in
  if ok : bool then parser_next_token else done tt.

Definition parse_module_directive (fuel : nat) (file : ASTFile) : Action ASTFile :=
  let! span := parser_span in
  parser_next_token ;;
  let! ok := parser_expect TOKEN_IDENT "expected a module name after 'module'" in
  if negb ok then done file
  else
    let! token := the_current in
    let name := token_lexeme token in
    let! start := name_begin in
    let! stop := name_end in
    parser_next_token ;;
    let! nested := at_type TOKEN_COLON_COLON in
    if nested : bool then
      let! stop := module_path fuel stop in
      let! path := source_slice start stop in
      parser_diag GAB_ERR_SYNTAX span ("module names cannot be nested; '" +:+ path +:+ "' must be a single identifier") ;;
      done file
    else
      let! ident := make_ident span name in
      let file := MkASTFile (file_statements file) (file_imports file) (Some ident) in
      expect_and_eat TOKEN_SEMICOLON "expected ';' after the module name" ;;
      done file.

Definition parse_import_directive (file : ASTFile) : Action ASTFile :=
  let! span := parser_span in
  parser_next_token ;;
  let! ok := parser_expect TOKEN_IDENT "expected a module name after 'import'" in
  if negb ok then done file
  else
    let! token := the_current in
    let name := token_lexeme token in
    parser_next_token ;;
    let! nested := at_type TOKEN_COLON_COLON in
    if nested : bool then
      parser_diag GAB_ERR_SYNTAX span
        ("module names cannot be nested; '" +:+ text_of name +:+ "' must be a single identifier") ;;
      done file
    else
      let! ident := make_ident span name in
      let file := MkASTFile (file_statements file) (file_imports file ++ [ident]) (file_module_name file) in
      expect_and_eat TOKEN_SEMICOLON "expected ';' after the module name" ;;
      done file.

Fixpoint parse_imports (fuel : nat) (file : ASTFile) : Action ASTFile :=
  match fuel with
  | O => no_result
  | S fuel =>
      let! more := at_type TOKEN_IMPORT in
      if more : bool then let! file := parse_import_directive file in parse_imports fuel file
      else done file
  end.

Definition parser_parse_header (fuel : nat) (file : ASTFile) : Action ASTFile :=
  parser_next_token ;;
  let! named := at_type TOKEN_MODULE in
  let! file :=
    (if named : bool then parse_module_directive fuel file
     else
       let! span := parser_span in
       parser_diag GAB_ERR_SYNTAX span "a file must name its module: write 'module <name>;' before anything else" ;;
       done file) in
  parse_imports fuel file.

(** ** Recovery *)

Definition starts_a_statement (type : TokenType) : bool :=
  match type with
  | TOKEN_LET | TOKEN_FUNC | TOKEN_EXTERN | TOKEN_INTRINSIC | TOKEN_CALLER | TOKEN_STRUCT | TOKEN_IMPL
  | TOKEN_MODULE | TOKEN_IF | TOKEN_FOR | TOKEN_BREAK | TOKEN_CONTINUE | TOKEN_RETURN => true
  | _ => false
  end.

Fixpoint parser_synchronize (fuel : nat) : Action unit :=
  match fuel with
  | O => no_result
  | S fuel =>
      let! type := the_type in
      if decide (type = TOKEN_EOF) then done tt
      else if decide (type = TOKEN_SEMICOLON) then parser_next_token
      else if decide (type = TOKEN_RBRACE) then done tt
      else if starts_a_statement type then done tt
      else parser_next_token ;; parser_synchronize fuel
  end.

(** ** Types *)

Section types.
(** The types nested in the one being read. *)
Context (parse_type_expr : Action (option TypeExpr)).

(** [parser->current.value.as_int], cast to [int32_t]. *)
Definition current_const : Action (option TypeExpr) :=
  let! token := the_current in
  match token_value token with
  | Some (as_int value) => parser_next_token ;; done (Some (type_expr_const (to_i32 value)))
  | _ => no_result
  end.

Fixpoint type_args (fuel : nat) (out : list TypeExpr) : Action (option (list TypeExpr)) :=
  match fuel with
  | O => no_result
  | S fuel =>
      let! is_const := at_type TOKEN_INT in
      let? argument := (if is_const : bool then current_const else parse_type_expr) in
      let out := out ++ [argument] in
      let! more := at_type TOKEN_COMMA in
      if more : bool then parser_next_token ;; type_args fuel out
      else done (Some out)
  end.

Definition parse_type_args (fuel : nat) (out : list TypeExpr) : Action (option (list TypeExpr)) :=
  parser_next_token ;;
  let? out := type_args fuel out in
  when parser_expect TOKEN_GREATER "expected '>' after a type's arguments" in
  parser_next_token ;;
  done (Some out).

(** The arguments of a [TYPE_EXPR_APPLY] made for [base]. *)
Definition parse_apply (fuel : nat) (base : TypeExpr) : Action (option TypeExpr) :=
  let? args := parse_type_args fuel [] in done (Some (TYPE_EXPR_APPLY base args)).

(** [parser->current.type = type;] *)
Definition set_type (type : TokenType) : Action unit :=
  fun p => let t := ps_current p in
    Some (tt, MkParser (ps_lexer p) (MkToken type (token_lexeme t) (token_value t) (token_line t) (token_column t))).

Definition parse_indirect : Action (option TypeExpr) :=
  let! type := the_type in
  let kind := if decide (type = TOKEN_MUL) then TYPE_EXPR_RAW else TYPE_EXPR_REF in
  (if decide (type = TOKEN_AND) then set_type TOKEN_AMP else parser_next_token) ;;
  let? inner := parse_type_expr in
  done (Some (type_expr_indirect kind inner)).

(** A name, maybe qualified, maybe applied. *)
Definition parse_named_type (fuel : nat) : Action (option TypeExpr) :=
  when parser_expect TOKEN_IDENT "expected a type" in
  let! name_span := parser_span in
  let! token := the_current in
  let name := token_lexeme token in
  parser_next_token ;;
  let! qualified := at_type TOKEN_COLON_COLON in
  let? named :=
    (if qualified : bool then
       let! qualifier := make_ident name_span name in
       parser_next_token ;;
       when parser_expect TOKEN_IDENT "expected a type name after '::'" in
       let! token := the_current in
       let name := token_lexeme token in
       parser_next_token ;;
       let! again := at_type TOKEN_COLON_COLON in
       if again : bool then
         parser_error "a qualified type name has one '::', as 'Module::Type'" ;; done None
       else done (Some (Some qualifier, name))
     else done (Some (None, name))) in
  let '(qualifier, name) := named in
  let! ident := make_ident name_span name in
  let base := TYPE_EXPR_NAME ident qualifier in
  let! applied := at_type TOKEN_LESS in
  if applied : bool then parse_apply fuel base else done (Some base).
End types.

Fixpoint parse_type_expr (fuel : nat) : Action (option TypeExpr) :=
  match fuel with
  | O => no_result
  | S fuel =>
      let! type := the_type in
      if decide (type = TOKEN_AMP) then parse_indirect (parse_type_expr fuel)
      else if decide (type = TOKEN_MUL) then parse_indirect (parse_type_expr fuel)
      else if decide (type = TOKEN_AND) then parse_indirect (parse_type_expr fuel)
      else parse_named_type (parse_type_expr fuel) fuel
  end.

(** ** Fields and type parameters *)

Definition parse_field (fuel : nat) (name_message : string) : Action (option ASTField) :=
  when parser_expect TOKEN_IDENT name_message in
  let! name := current_ident in
  parser_next_token ;;
  when parser_expect TOKEN_COLON "expected ':' after name" in
  parser_next_token ;;
  let? type := parse_type_expr fuel in
  done (Some (ast_field_create name type)).

(** The [for (;;)] of [parse_type_params]. *)
Fixpoint type_params (fuel : nat) (owner : string) (out : list ASTTypeParam) : Action (option (list ASTTypeParam)) :=
  match fuel with
  | O => no_result
  | S fuel =>
      when parser_expect TOKEN_IDENT "expected a type parameter name" in
      if Nat.eqb (length out) GAB_MAX_TYPE_PARAMS then
        let! span := parser_span in
        parser_diag GAB_ERR_SYNTAX span
          (owner +:+ " takes at most " +:+ pretty (Z.of_nat GAB_MAX_TYPE_PARAMS) +:+ " type parameters") ;;
        done None
      else
        let! name := current_ident in
        parser_next_token ;;
        let! bounded := at_type TOKEN_COLON in
        let? bound :=
          (if bounded : bool then parser_next_token ;; let? bound := parse_type_expr fuel in done (Some (Some bound))
           else done (Some None)) in
        let out := out ++ [(name, bound)] in
        let! more := at_type TOKEN_COMMA in
        if more : bool then parser_next_token ;; type_params fuel owner out
        else done (Some out)
  end.

Definition parse_type_params (fuel : nat) (owner : string) : Action (option (list ASTTypeParam)) :=
  let! given := at_type TOKEN_LESS in
  if negb given then done (Some [])
  else
    parser_next_token ;;
    let? out := type_params fuel owner [] in
    when parser_expect TOKEN_GREATER ("expected '>' after the type parameters " +:+ owner +:+ " takes") in
    parser_next_token ;;
    done (Some out).

(** ** Looking ahead *)

(** The loop of [parser_scan_type_args], [depth] open. *)
Fixpoint scan_type_args (fuel : nat) (depth : nat) (after : TokenType) : Action bool :=
  match fuel with
  | O => no_result
  | S fuel =>
      match depth with
      | O => at_type after
      | S closed =>
          let! type := the_type in
          match type with
          | TOKEN_LESS => parser_next_token ;; scan_type_args fuel (S depth) after
          | TOKEN_GREATER => parser_next_token ;; scan_type_args fuel closed after
          | TOKEN_IDENT | TOKEN_COMMA | TOKEN_AMP | TOKEN_MUL | TOKEN_LBRACKET | TOKEN_RBRACKET | TOKEN_SEMICOLON
          | TOKEN_INT => parser_next_token ;; scan_type_args fuel depth after
          | _ => done false
          end
      end
  end.

Definition parser_scan_type_args (fuel : nat) (after : TokenType) : Action bool :=
  parser_next_token ;; scan_type_args fuel 1 after.

(** The lexer and the token are put back as they were; what the pool and the
    diagnostics point to is not part of either.  The scratch buffer's bytes are
    read only after they are written again. *)
Definition lookahead {A} (scan : Action A) : Action A :=
  fun p =>
    '(a, q) ← scan p;
    let l := ps_lexer p in
    Some (a, MkParser (MkLexer (lx_source l) (lx_pos l) (lx_line l) (lx_column l) (lx_start_line l) (lx_start_column l)
                         (lx_diagnostics (ps_lexer q)) (lx_strings (ps_lexer q)) (lx_scratch l))
               (ps_current p)).

Definition parser_type_args_close_with (fuel : nat) (after : TokenType) : Action bool :=
  lookahead (parser_scan_type_args fuel after).

Definition parser_star_precedes_a_cast (fuel : nat) : Action bool :=
  lookahead (
    parser_next_token ;;
    let! named := at_type TOKEN_IDENT in
    if named : bool then
      parser_next_token ;;
      let! applied := at_type TOKEN_LESS in
      if applied : bool then parser_scan_type_args fuel TOKEN_LPAREN else at_type TOKEN_LPAREN
    else done false).

Definition parser_type_args_precede_a_brace (fuel : nat) : Action bool := parser_type_args_close_with fuel TOKEN_LBRACE.
Definition parser_type_args_precede_colons (fuel : nat) : Action bool :=
  parser_type_args_close_with fuel TOKEN_COLON_COLON.
Definition parser_type_args_precede_a_call (fuel : nat) : Action bool := parser_type_args_close_with fuel TOKEN_LPAREN.

(** ** Expressions *)

Definition get_precedence (type : TokenType) : nat :=
  match type with
  | TOKEN_AND | TOKEN_OR => 1
  | TOKEN_EQUAL | TOKEN_NEQUAL => 2
  | TOKEN_LESS | TOKEN_GREATER | TOKEN_LEQUAL | TOKEN_GEQUAL => 3
  | TOKEN_PLUS | TOKEN_MINUS => 5
  | TOKEN_MUL | TOKEN_DIV | TOKEN_MOD => 6
  | _ => 0
  end.

(** [None] is the [abort]. *)
Definition parse_bin_op (type : TokenType) : option BinOp :=
  match type with
  | TOKEN_EQUAL => Some BIN_OP_EQUAL
  | TOKEN_NEQUAL => Some BIN_OP_NEQUAL
  | TOKEN_LESS => Some BIN_OP_LESS
  | TOKEN_GREATER => Some BIN_OP_GREATER
  | TOKEN_LEQUAL => Some BIN_OP_LEQUAL
  | TOKEN_GEQUAL => Some BIN_OP_GEQUAL
  | TOKEN_PLUS => Some BIN_OP_ADD
  | TOKEN_MINUS => Some BIN_OP_SUB
  | TOKEN_MUL => Some BIN_OP_MUL
  | TOKEN_DIV => Some BIN_OP_DIV
  | TOKEN_MOD => Some BIN_OP_MOD
  | TOKEN_AND => Some BIN_OP_AND
  | TOKEN_OR => Some BIN_OP_OR
  | _ => None
  end.

Definition struct_lit_type_expr (target : ASTExpr) : option TypeExpr :=
  match target with
  | EXPR_QUALIFIED _ qualifier name _ => Some (type_expr_qualified qualifier name)
  | EXPR_NAME _ name _ => Some (type_expr_name name)
  | _ => None
  end.

Definition is_named (expr : ASTExpr) : bool :=
  match expr with EXPR_NAME _ _ _ | EXPR_QUALIFIED _ _ _ _ => true | _ => false end.

Section expressions.
(** The expressions nested in the one being read, and the turns of a loop. *)
Context (parse_precedence : nat -> ExprContext -> Action (option ASTExpr)) (fuel : nat).

Definition parse_expression (ctx : ExprContext) : Action (option ASTExpr) := parse_precedence 0 ctx.

(** The [while] of [parse_call_args]. *)
Fixpoint call_args (turns : nat) (args : list ASTExpr) : Action (option (list ASTExpr)) :=
  match turns with
  | O => no_result
  | S turns =>
      let! closed := at_type TOKEN_RPAREN in
      if closed : bool then done (Some args)
      else
        let! ended := at_type TOKEN_EOF in
        if ended : bool then parser_error "expected ')' to close the argument list" ;; done None
        else
          let? arg := parse_expression EXPR_ANY in
          let args := args ++ [arg] in
          let! comma := at_type TOKEN_COMMA in
          let! closed := at_type TOKEN_RPAREN in
          if negb comma && negb closed then parser_error_found "expected ',' or ')' after argument" ;; done None
          else
            (if comma : bool then parser_next_token else done tt) ;;
            call_args turns args
  end.

Definition parse_call_args : Action (option (list ASTExpr)) :=
  parser_next_token ;;
  let? args := call_args fuel [] in
  parser_next_token ;;
  done (Some args).

Definition parse_type_args_for (name : ASTIdent) : Action (option TypeExpr) :=
  parse_apply (parse_type_expr fuel) fuel (type_expr_name name).

Fixpoint parse_field_inits (turns : nat) (out : list ASTFieldInit) : Action (option (list ASTFieldInit)) :=
  match turns with
  | O => no_result
  | S turns =>
      let! closed := at_type TOKEN_RBRACE in
      if closed : bool then
        when parser_expect TOKEN_RBRACE "expected '}' or ',' after a field value" in done (Some out)
      else
        let! field_span := parser_span in
        when parser_expect TOKEN_IDENT "expected a field name" in
        let! token := the_current in
        let! field_name := make_ident field_span (token_lexeme token) in
        parser_next_token ;;
        when parser_expect TOKEN_COLON "expected ':' after a field name" in
        parser_next_token ;;
        let? value := parse_expression EXPR_ANY in
        let out := out ++ [(field_name, value)] in
        let! comma := at_type TOKEN_COMMA in
        if comma : bool then parser_next_token ;; parse_field_inits turns out
        else when parser_expect TOKEN_RBRACE "expected '}' or ',' after a field value" in done (Some out)
  end.

(** [None] for a target that is not a name: the code reads its name. *)
Definition parse_struct_lit_expr (target : ASTExpr) : Action (option ASTExpr) :=
  let span := expr_span target in
  match struct_lit_type_expr target with
  | None => no_result
  | Some base =>
      let! applied := at_type TOKEN_LESS in
      let? type_expr := (if applied : bool then parse_apply (parse_type_expr fuel) fuel base else done (Some base)) in
      when parser_expect TOKEN_LBRACE "expected '{' after a struct's name" in
      parser_next_token ;;
      let? fields := parse_field_inits fuel [] in
      parser_next_token ;;
      done (Some (ast_struct_lit_expr_create span type_expr fields))
  end.

Definition parse_call_expr (target : ASTExpr) : Action (option ASTExpr) :=
  let span := expr_span target in
  let? args := parse_call_args in
  done (Some (ast_call_expr_create span target args)).

Definition parse_method_call_expr (receiver : ASTExpr) (name : ASTIdent) (span : Span) : Action (option ASTExpr) :=
  let target := ast_field_expr_create span receiver name in
  let? args := parse_call_args in
  done (Some (ast_call_expr_create span target args)).

Definition parse_field_expr (target : ASTExpr) : Action (option ASTExpr) :=
  let! span := parser_span in
  parser_next_token ;;
  when parser_expect TOKEN_IDENT "expected a field name after '.'" in
  let! name := current_ident in
  parser_next_token ;;
  let! called := at_type TOKEN_LPAREN in
  if called : bool then parse_method_call_expr target name span
  else done (Some (ast_field_expr_create span target name)).

Definition parse_index_expr (target : ASTExpr) : Action (option ASTExpr) :=
  let! span := parser_span in
  parser_next_token ;;
  let? index := parse_expression EXPR_ANY in
  when parser_expect TOKEN_RBRACKET "expected ']' after an index" in
  parser_next_token ;;
  done (Some (ast_index_expr_create span target index)).

Definition starts_struct_lit (expr : ASTExpr) (ctx : ExprContext) : Action bool :=
  if bool_decide (ctx <> EXPR_ANY) || negb (is_named expr) then done false
  else
    let! brace := at_type TOKEN_LBRACE in
    if brace : bool then done true else parser_type_args_precede_a_brace fuel.

Fixpoint parse_postfix (turns : nat) (expr : ASTExpr) (ctx : ExprContext) : Action (option ASTExpr) :=
  match turns with
  | O => no_result
  | S turns =>
      let! type := the_type in
      match type with
      | TOKEN_LPAREN => let? expr := parse_call_expr expr in parse_postfix turns expr ctx
      | TOKEN_LBRACKET => let? expr := parse_index_expr expr in parse_postfix turns expr ctx
      | TOKEN_DOT => let? expr := parse_field_expr expr in parse_postfix turns expr ctx
      | TOKEN_LBRACE | TOKEN_LESS =>
          let! literal := starts_struct_lit expr ctx in
          if literal : bool then let? expr := parse_struct_lit_expr expr in parse_postfix turns expr ctx
          else done (Some expr)
      | _ => done (Some expr)
      end
  end.

(** The [while] over an array's elements. *)
Fixpoint array_elements (turns : nat) (elements : list ASTExpr) : Action (option (list ASTExpr)) :=
  match turns with
  | O => no_result
  | S turns =>
      let! closed := at_type TOKEN_RBRACKET in
      if closed : bool then done (Some elements)
      else
        let! ended := at_type TOKEN_EOF in
        if ended : bool then parser_error "expected ']' to close the elements" ;; done None
        else
          let? element := parse_expression EXPR_ANY in
          let elements := elements ++ [element] in
          let! comma := at_type TOKEN_COMMA in
          if comma : bool then parser_next_token ;; array_elements turns elements
          else done (Some elements)
  end.

(** The literal a token holds, [None] when it holds another member. *)
Definition token_literal (token : Token) : option Literal :=
  match token_type token, token_value token with
  | TOKEN_INT, Some (as_int value) => Some (LITERAL_INT value)
  | TOKEN_FLOAT, Some (as_float value) => Some (LITERAL_FLOAT value)
  | TOKEN_STRING, Some (as_string text) => Some (LITERAL_STRING text)
  | TOKEN_TRUE, _ => Some (LITERAL_BOOL true)
  | TOKEN_FALSE, _ => Some (LITERAL_BOOL false)
  | _, _ => None
  end.

Definition parse_array_lit (span : Span) : Action (option ASTExpr) :=
  parser_next_token ;;
  let? elements := array_elements fuel [] in
  when parser_expect TOKEN_RBRACKET "expected ']' after an array's elements" in
  parser_next_token ;;
  done (Some (ast_array_lit_expr_create span elements)).

Definition parse_literal (span : Span) : Action (option ASTExpr) :=
  let! token := the_current in
  match token_literal token with
  | Some literal => parser_next_token ;; done (Some (ast_literal_expr_create span literal))
  | None => no_result
  end.

Definition parse_builtin (span : Span) : Action (option ASTExpr) :=
  let! token := the_current in
  let name := token_lexeme token in
  parser_next_token ;;
  let! applied := at_type TOKEN_LESS in
  let? type_expr :=
    (if applied : bool then
       let! ident := make_ident span name in
       let? apply := parse_type_args_for ident in
       done (Some (Some apply))
     else done (Some None)) in
  let! ident := make_ident span name in
  done (Some (ast_builtin_expr_create span ident type_expr)).

Definition parse_name (span : Span) : Action (option ASTExpr) :=
  let! token := the_current in
  let lexeme := token_lexeme token in
  parser_next_token ;;
  let! less := at_type TOKEN_LESS in
  let! applied :=
    (if less : bool then
       let! colons := parser_type_args_precede_colons fuel in
       if colons : bool then done true else parser_type_args_precede_a_call fuel
     else done false) in
  let? owner_type_expr :=
    (if applied : bool then
       let! ident := make_ident span lexeme in
       let? owner := parse_type_args_for ident in
       done (Some (Some owner))
     else done (Some None)) in
  let! qualified := at_type TOKEN_COLON_COLON in
  if qualified : bool then
    let! qualifier := make_ident span lexeme in
    parser_next_token ;;
    when parser_expect TOKEN_IDENT "expected a name after '::'" in
    let! member := current_ident in
    parser_next_token ;;
    let! again := at_type TOKEN_COLON_COLON in
    if again : bool then parser_error "a qualified name has one '::', as 'Module::name'" ;; done None
    else done (Some (ast_qualified_expr_create span qualifier member owner_type_expr))
  else
    let! name := make_ident span lexeme in
    done (Some (EXPR_NAME span name owner_type_expr)).

Definition parse_parenthesized : Action (option ASTExpr) :=
  parser_next_token ;;
  let? node := parse_expression EXPR_ANY in
  when parser_expect TOKEN_RPAREN "expected ')'" in
  parser_next_token ;;
  done (Some node).

Definition parse_primary : Action (option ASTExpr) :=
  let! span := parser_span in
  let! type := the_type in
  match type with
  | TOKEN_LBRACKET => parse_array_lit span
  | TOKEN_INT | TOKEN_FLOAT | TOKEN_STRING | TOKEN_TRUE | TOKEN_FALSE => parse_literal span
  | TOKEN_BUILTIN => parse_builtin span
  | TOKEN_IDENT => parse_name span
  | TOKEN_LPAREN => parse_parenthesized
  | _ => parser_error_found "expected an expression" ;; done None
  end.

Definition parse_cast (span : Span) (ctx : ExprContext) : Action (option ASTExpr) :=
  let? type_expr := parse_type_expr fuel in
  let target := ast_cast_expr_create span type_expr in
  let? args := parse_call_args in
  parse_postfix fuel (ast_call_expr_create span target args) ctx.

Fixpoint parse_unary (depth : nat) (ctx : ExprContext) : Action (option ASTExpr) :=
  match depth with
  | O => no_result
  | S depth =>
      let! span := parser_span in
      let! type := the_type in
      let! cast := (if decide (type = TOKEN_MUL) then parser_star_precedes_a_cast fuel else done false) in
      if cast : bool then parse_cast span ctx
      else
        match type with
        | TOKEN_MUL =>
            parser_next_token ;; let? target := parse_unary depth ctx in done (Some (ast_deref_expr_create span target))
        | TOKEN_NOT =>
            parser_next_token ;; let? target := parse_unary depth ctx in done (Some (ast_not_expr_create span target))
        | TOKEN_MINUS =>
            parser_next_token ;; let? target := parse_unary depth ctx in done (Some (ast_neg_expr_create span target))
        | _ => let? primary := parse_primary in parse_postfix fuel primary ctx
        end
  end.

(** The [while (1)] of [parse_precedence]. *)
Fixpoint binary_operators (turns : nat) (min_precedence : nat) (ctx : ExprContext) (lhs : ASTExpr) :
    Action (option ASTExpr) :=
  match turns with
  | O => no_result
  | S turns =>
      let! token := the_current in
      let precedence := get_precedence (token_type token) in
      if Nat.eqb precedence 0 || Nat.ltb precedence min_precedence then done (Some lhs)
      else
        parser_next_token ;;
        match parse_bin_op (token_type token) with
        | None => no_result
        | Some op =>
            let? rhs := parse_precedence (precedence + 1) ctx in
            binary_operators turns min_precedence ctx (ast_bin_op_expr_create (token_span token) lhs op rhs)
        end
  end.
End expressions.

Fixpoint parse_precedence (fuel : nat) (min_precedence : nat) (ctx : ExprContext) : Action (option ASTExpr) :=
  match fuel with
  | O => no_result
  | S fuel =>
      let? lhs := parse_unary (parse_precedence fuel) fuel fuel ctx in
      binary_operators (parse_precedence fuel) fuel min_precedence ctx lhs
  end.

(** ** Declarations *)

(** The loop over the fields of a struct. *)
Fixpoint struct_fields (fuel : nat) (fields : list ASTField) : Action (option (list ASTField)) :=
  match fuel with
  | O => no_result
  | S fuel =>
      let! closed := at_type TOKEN_RBRACE in
      if closed : bool then done (Some fields)
      else
        let! ended := at_type TOKEN_EOF in
        if ended : bool then parser_error "expected '}' to close the struct" ;; done None
        else
          let? field := parse_field fuel "expected a field name" in
          let fields := fields ++ [field] in
          let! comma := at_type TOKEN_COMMA in
          let! closed := at_type TOKEN_RBRACE in
          if negb comma && negb closed then parser_error_found "expected ',' or '}' after field" ;; done None
          else
            (if comma : bool then parser_next_token else done tt) ;;
            struct_fields fuel fields
  end.

Definition parse_struct_decl_stmt_at (fuel : nat) (intrinsic : bool) (span : Span) : Action (option ASTStmt) :=
  parser_next_token ;;
  when parser_expect TOKEN_IDENT "expected a struct name" in
  let! name := current_ident in
  parser_next_token ;;
  let? params := parse_type_params fuel "a struct" in
  when parser_expect TOKEN_LBRACE "expected '{' after struct name" in
  parser_next_token ;;
  let? fields := struct_fields fuel [] in
  parser_next_token ;;
  done (Some (ast_struct_decl_stmt_create span name (fst <$> params) fields intrinsic)).

Definition parse_struct_decl_stmt (fuel : nat) : Action (option ASTStmt) :=
  let! span := parser_span in parse_struct_decl_stmt_at fuel false span.

(** Parameters are added while there is room for them. *)
Fixpoint add_type_params (params out : list ASTTypeParam) : list ASTTypeParam :=
  match params with
  | [] => out
  | param :: params => if Nat.ltb (length out) GAB_MAX_TYPE_PARAMS then add_type_params params (out ++ [param]) else out
  end.

Definition func_decl_take_type_params (decl : ASTFuncDecl ASTStmt) (params : list ASTTypeParam) : ASTFuncDecl ASTStmt :=
  let own := func_type_params decl in
  MkASTFuncDecl (func_ident decl) (func_owner decl) (func_return_type decl) (func_params decl) (func_body decl)
    (add_type_params own (add_type_params params [])) (func_syntax decl).

Definition with_syntax (decl : ASTFuncDecl ASTStmt) (syntax : N) : ASTFuncDecl ASTStmt :=
  MkASTFuncDecl (func_ident decl) (func_owner decl) (func_return_type decl) (func_params decl) (func_body decl)
    (func_type_params decl) syntax.
Definition with_owner (decl : ASTFuncDecl ASTStmt) (owner : TypeExpr) : ASTFuncDecl ASTStmt :=
  MkASTFuncDecl (func_ident decl) (Some owner) (func_return_type decl) (func_params decl) (func_body decl)
    (func_type_params decl) (func_syntax decl).

(** [string->data], for [strcmp] and [%s]: the bytes before a terminator. *)
Definition string_data (string : nat) : Action (list ascii) :=
  fun p => content ← pool_heap (lx_strings (ps_lexer p)) !! string;
           Some ((span_class (fun c => negb (Ascii.eqb c NUL)) content).1, p).

Fixpoint func_modifiers (fuel : nat) (out : N) : Action (option N) :=
  match fuel with
  | O => no_result
  | S fuel =>
      let! token := the_current in
      match token_type token with
      | TOKEN_CALLER => parser_next_token ;; func_modifiers fuel (N.lor out FUNC_SYN_CALLER)
      | TOKEN_INTRINSIC => parser_next_token ;; func_modifiers fuel (N.lor out FUNC_SYN_INTRINSIC)
      | TOKEN_EXTERN =>
          let out := N.lor out FUNC_SYN_EXTERN in
          parser_next_token ;;
          let! token := the_current in
          if decide (token_type token = TOKEN_STRING) then
            match token_value token with
            | Some (as_string string) =>
                let! abi := string_data string in
                if negb (bool_decide (abi = bytes "C")) then
                  parser_error ("the only foreign ABI is " +:+ String quote ("C" +:+ String quote "")) ;; done None
                else parser_next_token ;; func_modifiers fuel (N.lor out FUNC_SYN_FOREIGN)
            | _ => no_result
            end
          else func_modifiers fuel out
      | _ => done (Some out)
      end
  end.

Definition parse_func_syntax (fuel : nat) (signature_only : bool) : Action (option N) :=
  func_modifiers fuel (if signature_only then FUNC_SYN_EXTERN else FUNC_SYN_NONE).

(** The loop over the parameters of a function. *)
Fixpoint func_fields (fuel : nat) (params : list ASTField) : Action (option (list ASTField)) :=
  match fuel with
  | O => no_result
  | S fuel =>
      let! closed := at_type TOKEN_RPAREN in
      if closed : bool then done (Some params)
      else
        let? param := parse_field fuel "expected a parameter name" in
        let! comma := at_type TOKEN_COMMA in
        let! closed := at_type TOKEN_RPAREN in
        if negb comma && negb closed then parser_error_found "expected ',' or ')' after parameter" ;; done None
        else
          (if comma : bool then parser_next_token else done tt) ;;
          func_fields fuel (params ++ [param])
  end.

Definition stmt_needs_terminator (stmt : ASTStmt) : bool :=
  match stmt with
  | STMT_IF _ _ _ _ | STMT_FOR _ _ _ _ _ | STMT_BLOCK _ _ | STMT_STRUCT_DECL _ _ _ _ _ | STMT_IMPL _ _ _ _ _ _
  | STMT_INTERFACE_DECL _ _ _ _ => false
  | STMT_FUNC_DECL _ decl => match func_body decl with None => true | Some _ => false end
  | _ => true
  end.

(** What [parse_statement] and [parse_decl_statement] do with what they read. *)
Definition terminated (stmt : ASTStmt) : Action (option ASTStmt) :=
  if negb (stmt_needs_terminator stmt) then done (Some stmt)
  else
    when parser_expect TOKEN_SEMICOLON "expected ';'" in
    parser_next_token ;;
    done (Some stmt).

(** ** Statements without blocks *)

Definition parse_var_decl_stmt (fuel : nat) (ctx : ExprContext) : Action (option ASTStmt) :=
  let! span := parser_span in
  parser_next_token ;;
  when parser_expect TOKEN_IDENT "expected a variable name after 'let'" in
  let! name := current_ident in
  parser_next_token ;;
  let! typed := at_type TOKEN_COLON in
  let? spec :=
    (if typed : bool then parser_next_token ;; let? spec := parse_type_expr fuel in done (Some (Some spec))
     else done (Some None)) in
  let! ended := at_type TOKEN_SEMICOLON in
  if ended : bool then
    match spec with
    | None => parser_error "expected a type or an initializer" ;; done None
    | Some _ => done (Some (ast_var_decl_stmt_create span name spec None))
    end
  else
    when parser_expect TOKEN_ASSIGN "expected ';' or '='" in
    parser_next_token ;;
    let? initializer := parse_expression (parse_precedence fuel) ctx in
    done (Some (ast_var_decl_stmt_create span name spec (Some initializer))).

Definition compound_assign_op (type : TokenType) : option BinOp :=
  match type with
  | TOKEN_PLUS_EQ => Some BIN_OP_ADD
  | TOKEN_MINUS_EQ => Some BIN_OP_SUB
  | TOKEN_MUL_EQ => Some BIN_OP_MUL
  | TOKEN_DIV_EQ => Some BIN_OP_DIV
  | TOKEN_MOD_EQ => Some BIN_OP_MOD
  | _ => None
  end.

Definition is_assignable (expr : ASTExpr) : bool :=
  match expr with EXPR_NAME _ _ _ | EXPR_FIELD _ _ _ | EXPR_DEREF _ _ | EXPR_INDEX _ _ _ => true | _ => false end.

Definition parse_expr_stmt (fuel : nat) (ctx : ExprContext) : Action (option ASTStmt) :=
  let! span := parser_span in
  let? expr := parse_expression (parse_precedence fuel) ctx in
  let! type := the_type in
  let compound := compound_assign_op type in
  if bool_decide (type <> TOKEN_ASSIGN) && bool_decide (compound = None) then done (Some (ast_expr_stmt_create span expr))
  else if negb (is_assignable expr) then parser_error "expression is not assignable" ;; done None
  else
    parser_next_token ;;
    let? value := parse_expression (parse_precedence fuel) ctx in
    done (Some match compound with
               | Some op => ast_compound_assign_stmt_create span expr op value
               | None => ast_assign_stmt_create span expr value
               end).

Definition parse_return_stmt (fuel : nat) : Action (option ASTStmt) :=
  let! span := parser_span in
  parser_next_token ;;
  let? result := parse_expression (parse_precedence fuel) EXPR_ANY in
  done (Some (ast_return_stmt_create span result)).

Definition parse_jump_stmt : Action (option ASTStmt) :=
  let! span := parser_span in
  let! is_break := at_type TOKEN_BREAK in
  parser_next_token ;;
  done (Some (ast_jump_stmt_create span is_break)).

Definition parse_for_clause (fuel : nat) (terminator : TokenType) : Action (option ASTStmt) :=
  let! type := the_type in
  if decide (type = terminator) then done None
  else if decide (type = TOKEN_LET) then parse_var_decl_stmt fuel EXPR_NO_STRUCT_LIT
  else parse_expr_stmt fuel EXPR_NO_STRUCT_LIT.

(** ** Statements *)

Section statements.
(** The statements nested in the one being read. *)
Context (parse_statement : Action (option ASTStmt)) (fuel : nat).

(** The [while] of [parse_block_stmt]. *)
Fixpoint block_statements (turns : nat) (list : list ASTStmt) : Action (option (List.list ASTStmt)) :=
  match turns with
  | O => no_result
  | S turns =>
      let! closed := at_type TOKEN_RBRACE in
      if closed : bool then done (Some list)
      else
        let! ended := at_type TOKEN_EOF in
        if ended : bool then parser_error_found "expected '}' to close the block" ;; done None
        else
          let! stmt := parse_statement in
          match stmt with
          | None => parser_synchronize fuel ;; block_statements turns list
          | Some stmt => block_statements turns (list ++ [stmt])
          end
  end.

Definition parse_block_stmt : Action (option ASTStmt) :=
  let! span := parser_span in
  when parser_expect TOKEN_LBRACE "expected '{'" in
  parser_next_token ;;
  let? list := block_statements fuel [] in
  parser_next_token ;;
  done (Some (ast_block_stmt_create span list)).

Definition parse_if_stmt : Action (option ASTStmt) :=
  let! span := parser_span in
  parser_next_token ;;
  let? condition := parse_expression (parse_precedence fuel) EXPR_NO_STRUCT_LIT in
  let? then_block := parse_block_stmt in
  let! otherwise := at_type TOKEN_ELSE in
  if negb otherwise then done (Some (ast_if_stmt_create span condition then_block None))
  else
    parser_next_token ;;
    let? else_block := parse_block_stmt in
    done (Some (ast_if_stmt_create span condition then_block (Some else_block))).

Definition parse_for_stmt : Action (option ASTStmt) :=
  let! span := parser_span in
  parser_next_token ;;
  let! forever := at_type TOKEN_LBRACE in
  if forever : bool then
    let? body := parse_block_stmt in done (Some (ast_for_stmt_create span None None None body))
  else
    let! first := parse_for_clause fuel TOKEN_SEMICOLON in
    let! clauses := at_type TOKEN_SEMICOLON in
    if negb clauses then
      match first with
      | None => parser_error_found "expected a loop condition or '{'" ;; done None
      | Some (STMT_EXPR _ condition) =>
          let? body := parse_block_stmt in done (Some (ast_for_stmt_create span None (Some condition) None body))
      | Some _ => parser_error "a loop condition must be an expression" ;; done None
      end
    else
      let init := first in
      parser_next_token ;;
      let! endless := at_type TOKEN_SEMICOLON in
      let? condition :=
        (if endless : bool then done (Some None)
         else let? condition := parse_expression (parse_precedence fuel) EXPR_NO_STRUCT_LIT in done (Some (Some condition))) in
      when parser_expect TOKEN_SEMICOLON "expected ';' after the loop condition" in
      parser_next_token ;;
      let! post := parse_for_clause fuel TOKEN_LBRACE in
      let? body := parse_block_stmt in
      done (Some (ast_for_stmt_create span init condition post body)).

Definition parse_func_decl_stmt_at (signature_only : bool) (span : Span) (prefix : N) : Action (option ASTStmt) :=
  let? syntax := parse_func_syntax fuel signature_only in
  let syntax := N.lor syntax prefix in
  let is_extern := negb (N.eqb (N.land syntax (N.lor FUNC_SYN_EXTERN FUNC_SYN_INTRINSIC)) 0) in
  when parser_expect TOKEN_FUNC "expected 'func' after a function's modifiers" in
  parser_next_token ;;
  when parser_expect TOKEN_IDENT "expected a function name" in
  let! func_name := current_ident in
  parser_next_token ;;
  let? declared := parse_type_params fuel "a function" in
  let! member := at_type TOKEN_COLON_COLON in
  if member : bool then
    parser_error "a function on a type is declared in an 'impl' block for that type" ;; done None
  else
    when parser_expect TOKEN_LPAREN "expected '(' after function name" in
    parser_next_token ;;
    let? func_params := func_fields fuel [] in
    parser_next_token ;;
    let! typed := at_type TOKEN_COLON in
    let? func_type :=
      (if typed : bool then parser_next_token ;; let? type := parse_type_expr fuel in done (Some (Some type))
       else done (Some None)) in
    if is_extern then
      let! bodied := at_type TOKEN_LBRACE in
      if bodied : bool then
        parser_error (if signature_only then "an interface declares a signature, which has no body"
                      else "an 'extern' function is defined by the host and cannot have a body") ;;
        parse_block_stmt ;;
        done None
      else
        let decl := with_syntax (ast_func_decl_stmt_create func_name func_type func_params None) syntax in
        done (Some (STMT_FUNC_DECL span (func_decl_take_type_params decl declared)))
    else
      let? func_body := parse_block_stmt in
      let decl := with_syntax (ast_func_decl_stmt_create func_name func_type func_params (Some func_body)) syntax in
      done (Some (STMT_FUNC_DECL span (func_decl_take_type_params decl declared))).

Definition parse_func_decl_stmt : Action (option ASTStmt) :=
  let! span := parser_span in parse_func_decl_stmt_at false span FUNC_SYN_NONE.
Definition parse_func_decl_stmt_after_intrinsic (span : Span) : Action (option ASTStmt) :=
  parse_func_decl_stmt_at false span FUNC_SYN_INTRINSIC.
Definition parse_func_signature_stmt : Action (option ASTStmt) :=
  let! span := parser_span in parse_func_decl_stmt_at true span FUNC_SYN_NONE.

Definition starts_a_member (type : TokenType) : bool :=
  match type with TOKEN_FUNC | TOKEN_EXTERN | TOKEN_INTRINSIC | TOKEN_CALLER => true | _ => false end.

(** The loop over the members of an [impl] block. *)
Fixpoint impl_members (turns : nat) (type : TypeExpr) (declared : list ASTTypeParam) (members : list ASTStmt) :
    Action (option (list ASTStmt)) :=
  match turns with
  | O => no_result
  | S turns =>
      let! at_ := the_type in
      if decide (at_ = TOKEN_RBRACE) then done (Some members)
      else if decide (at_ = TOKEN_EOF) then parser_error "expected '}' to close the impl block" ;; done None
      else if negb (starts_a_member at_) then parser_error_found "expected a function in an 'impl' block" ;; done None
      else
        let? member := parse_func_decl_stmt in
        match member with
        | STMT_FUNC_DECL span decl =>
            if func_owner decl is Some _ then
              parser_error "a function in an 'impl' block is named without its type" ;; done None
            else
              let member := STMT_FUNC_DECL span (func_decl_take_type_params (with_owner decl type) declared) in
              let? member := terminated member in
              impl_members turns type declared (members ++ [member])
        | _ => no_result
        end
  end.

Definition parse_impl_stmt : Action (option ASTStmt) :=
  let! span := parser_span in
  parser_next_token ;;
  let? declared := parse_type_params fuel "an impl block" in
  let? type := parse_type_expr fuel in
  let! conforms := at_type TOKEN_AS in
  let? interface :=
    (if conforms : bool then
       parser_next_token ;;
       when parser_expect TOKEN_IDENT "expected the name of an interface after 'as'" in
       let! interface_name := current_ident in
       parser_next_token ;;
       let! applied := at_type TOKEN_LESS in
       let? interface_args :=
         (if applied : bool then parse_type_args (parse_type_expr fuel) fuel [] else done (Some [])) in
       done (Some (Some interface_name, interface_args))
     else done (Some (None, []))) in
  let '(interface_name, interface_args) := interface in
  when parser_expect TOKEN_LBRACE "expected '{' after the type an 'impl' block is for" in
  parser_next_token ;;
  let? members := impl_members fuel type declared [] in
  parser_next_token ;;
  done (Some (ast_impl_stmt_create span type members interface_name interface_args (take GAB_MAX_TYPE_PARAMS declared))).

(** The loop over the signatures of an interface. *)
Fixpoint interface_members (turns : nat) (members : list ASTStmt) : Action (option (list ASTStmt)) :=
  match turns with
  | O => no_result
  | S turns =>
      let! at_ := the_type in
      if decide (at_ = TOKEN_RBRACE) then done (Some members)
      else if decide (at_ = TOKEN_EOF) then parser_error "expected '}' to close the interface" ;; done None
      else if decide (at_ <> TOKEN_FUNC) then
        parser_error_found "expected a function signature in an interface" ;; done None
      else
        let? member := parse_func_signature_stmt in
        when parser_expect TOKEN_SEMICOLON "expected ';'" in
        parser_next_token ;;
        interface_members turns (members ++ [member])
  end.

Definition parse_interface_decl_stmt : Action (option ASTStmt) :=
  let! span := parser_span in
  parser_next_token ;;
  when parser_expect TOKEN_IDENT "expected an interface name" in
  let! name := current_ident in
  parser_next_token ;;
  let? params := parse_type_params fuel "an interface" in
  when parser_expect TOKEN_LBRACE "expected '{' after an interface's name" in
  parser_next_token ;;
  let? members := interface_members fuel [] in
  parser_next_token ;;
  done (Some (ast_interface_decl_stmt_create span name members (fst <$> params))).

(** An [intrinsic], a struct or a function. *)
Definition parse_intrinsic : Action (option ASTStmt) :=
  let! span := parser_span in
  parser_next_token ;;
  let! type := the_type in
  if decide (type = TOKEN_STRUCT) then parse_struct_decl_stmt_at fuel true span
  else parse_func_decl_stmt_after_intrinsic span.

(** What is read only to report that it stands in the wrong place. *)
Definition discarded (message : string) (m : Action (option ASTStmt)) : Action (option ASTStmt) :=
  parser_error message ;; m ;; done None.

Definition parse_statement_body : Action (option ASTStmt) :=
  let! type := the_type in
  match type with
  | TOKEN_LET => let? stmt := parse_var_decl_stmt fuel EXPR_ANY in terminated stmt
  | TOKEN_FUNC =>
      discarded "a function cannot be declared inside another; declare it at module level" parse_func_decl_stmt
  | TOKEN_STRUCT => let? stmt := parse_struct_decl_stmt fuel in terminated stmt
  | TOKEN_INTRINSIC =>
      discarded "an intrinsic cannot be declared inside a function; declare it at module level" parse_intrinsic
  | TOKEN_IMPL =>
      discarded "an 'impl' block cannot be declared inside a function; declare it at module level" parse_impl_stmt
  | TOKEN_INTERFACE =>
      discarded "an 'interface' cannot be declared inside a function; declare it at module level"
        parse_interface_decl_stmt
  | TOKEN_IF => let? stmt := parse_if_stmt in terminated stmt
  | TOKEN_FOR => let? stmt := parse_for_stmt in terminated stmt
  | TOKEN_BREAK | TOKEN_CONTINUE => let? stmt := parse_jump_stmt in terminated stmt
  | TOKEN_LBRACE => let? stmt := parse_block_stmt in terminated stmt
  | TOKEN_RETURN => let? stmt := parse_return_stmt fuel in terminated stmt
  | _ => let? stmt := parse_expr_stmt fuel EXPR_ANY in terminated stmt
  end.

Definition parse_decl_statement : Action (option ASTStmt) :=
  let! type := the_type in
  match type with
  | TOKEN_LET => let? stmt := parse_var_decl_stmt fuel EXPR_ANY in terminated stmt
  | TOKEN_INTRINSIC => let? stmt := parse_intrinsic in terminated stmt
  | TOKEN_FUNC | TOKEN_EXTERN | TOKEN_CALLER => let? stmt := parse_func_decl_stmt in terminated stmt
  | TOKEN_STRUCT => let? stmt := parse_struct_decl_stmt fuel in terminated stmt
  | TOKEN_IMPL => let? stmt := parse_impl_stmt in terminated stmt
  | TOKEN_INTERFACE => let? stmt := parse_interface_decl_stmt in terminated stmt
  | _ =>
      parser_error_found "expected a declaration ('let', 'func', 'extern', 'struct', 'impl', or 'interface')" ;;
      done None
  end.
End statements.

Fixpoint parse_statement (fuel : nat) : Action (option ASTStmt) :=
  match fuel with
  | O => no_result
  | S fuel => parse_statement_body (parse_statement fuel) fuel
  end.

(** ** Files *)

Definition the_lexer_pos : Action nat := fun p => Some (lx_pos (ps_lexer p), p).

(** The [while] of [parser_parse]. *)
Fixpoint parse_declarations (fuel : nat) (file : ASTFile) : Action ASTFile :=
  match fuel with
  | O => no_result
  | S fuel =>
      let! type := the_type in
      if decide (type = TOKEN_EOF) then done file
      else if decide (type = TOKEN_SEMICOLON) then parser_next_token ;; parse_declarations fuel file
      else if decide (type = TOKEN_IMPORT) then
        let! span := parser_span in
        parser_diag GAB_ERR_SYNTAX span "'import' must appear before any declaration" ;;
        parse_import_directive file ;;
        parse_declarations fuel file
      else if decide (type = TOKEN_MODULE) then
        let! span := parser_span in
        parser_diag GAB_ERR_SYNTAX span "'module' must appear once, before any declaration" ;;
        parse_module_directive fuel file ;;
        parse_declarations fuel file
      else
        let! stmt := parse_decl_statement (parse_statement fuel) fuel in
        match stmt with
        | None =>
            let! before := the_type in
            let! before_pos := the_lexer_pos in
            parser_synchronize fuel ;;
            let! type := the_type in
            let! pos := the_lexer_pos in
            (if bool_decide (type = before) && Nat.eqb pos before_pos then parser_next_token else done tt) ;;
            parse_declarations fuel file
        | Some stmt => parse_declarations fuel (ast_file_add_statement file stmt)
        end
  end.

Definition errors_of (p : Parser) : nat := diagnostics_count (lx_diagnostics (ps_lexer p)).

(** The file, and whether nothing was reported. *)
Definition parser_parse (fuel : nat) (file : ASTFile) : Action (bool * ASTFile) :=
  fun p =>
    let errors_before := errors_of p in
    '(file, p) ← (let! file := parser_parse_header fuel file in parse_declarations fuel file) p;
    Some ((Nat.eqb (errors_of p) errors_before, file), p).

(** The file written to [out], the pool and the diagnostics afterwards. *)
Definition parse_file (fuel : nat) (source : list ascii) (strings : StringPool) (diagnostics : Diagnostics) :
    option (option ASTFile * StringPool * Diagnostics) :=
  '(ok, file, p) ← parser_parse fuel ast_file_create (parser_create (lexer_create source strings diagnostics));
  Some (if ok : bool then Some file else None, lx_strings (ps_lexer p), lx_diagnostics (ps_lexer p)).

Definition parse_header (fuel : nat) (source : list ascii) (strings : StringPool) (diagnostics : Diagnostics) :
    option (option ASTFile * StringPool * Diagnostics) :=
  let errors_before := diagnostics_count diagnostics in
  '(file, p) ← parser_parse_header fuel ast_file_create (parser_create (lexer_create source strings diagnostics));
  Some (if Nat.ltb errors_before (errors_of p) then None else Some file, lx_strings (ps_lexer p),
    lx_diagnostics (ps_lexer p)).

(** The text of [%s]. *)
Definition pool_text (strings : StringPool) (string : nat) : option String.string :=
  content ← pool_heap strings !! string;
  Some (text_of (span_class (fun c => negb (Ascii.eqb c NUL)) content).1).

(** The loop of [parse_module] from its [i]-th source. *)
Fixpoint parse_module_files (fuel : nat) (sources : list (list ascii)) (names : nat -> option string) (i : nat)
    (module : ASTModule) (strings : StringPool) (diagnostics : Diagnostics) :
    option (option ASTModule * StringPool * Diagnostics) :=
  match sources with
  | [] => Some (Some module, strings, diagnostics)
  | source :: sources =>
      '(file, strings, diagnostics) ← parse_file fuel source strings diagnostics;
      match file with
      | None => Some (None, strings, diagnostics)
      | Some file =>
          if Nat.eqb i 0 then
            let module := MkASTModule (module_files module) (file_module_name file) in
            parse_module_files fuel sources names (S i) (ast_module_add_file module file) strings diagnostics
          else
            expected ← module_name module;
            declared ← file_module_name file;
            if negb (Nat.eqb (ident_name expected) (ident_name declared)) then
              declared_text ← pool_text strings (ident_name declared);
              expected_text ← pool_text strings (ident_name expected);
              Some (None, strings,
                diag_error diagnostics GAB_ERR_NAME (ident_span declared)
                  (default "this file" (names i) +:+ " declares module '" +:+ declared_text +:+
                   "', which is compiled as part of '" +:+ expected_text +:+ "'"))
            else parse_module_files fuel sources names (S i) (ast_module_add_file module file) strings diagnostics
      end
  end.

(** [names] is the name of a source, when the client gives one. *)
Definition parse_module (fuel : nat) (sources : list (list ascii)) (names : nat -> option string) (strings : StringPool)
    (diagnostics : Diagnostics) : option (option ASTModule * StringPool * Diagnostics) :=
  parse_module_files fuel sources names 0 ast_module_create strings diagnostics.
