(* ===== verification/Sources.v ===== *)
(** * Sources: modules read from a text

    What the examples of resolution begin with: a text is parsed, over the
    containers of a compilation that has read nothing yet, and its module has a
    scope of its own.  [node_address] and [ident_address] are addresses for the
    nodes of a tree. *)

From Stdlib Require Import String Ascii.
From S2P Require Import Ast Facts Parser.
From S2P Require Import Prelude Types Mir Decl Diagnostics Strings HashMap Registry RegistryTypes RegistryState Functions Scopes Instantiate Build Check TypeExprs Resolve Declare Resolver.

Definition node_address (path : NodePtr) : N := foldl (fun h i => (h * 31 + N.of_nat i + 1) mod 2 ^ 64)%N 7%N path.
Definition ident_address (ident : IdentPtr) : N :=
  match ident with PARAM_NAME body index => node_address (body ++ [index]) | LOCAL_NAME path => node_address path end.

(** The pointers of a compilation, its first module, and the module's scope. *)
Definition read_source (text : string) : option (Shared * ASTModule * nat) :=
  pool ← string_pool_init;
  '(pool, known) ← known_names pool;
  types ← type_registry_create known;
  functions ← function_registry_create;
  '(scopes, global) ← global_scope_create sample_addr types (MkScopes [] []);
  '(module, pool, diagnostics) ← parse_module 2000 [list_ascii_of_string text] (fun _ => None) pool (diagnostics_init None);
  module ← module;
  '(scopes, into) ← scope_create_kind scopes (Some global) SCOPE_MODULE;
  Some (MkShared (MkWorld types functions) pool diagnostics scopes [] [], module, into).

(** The module of a text resolved, without a core and other modules. *)
Definition resolve_source (depth : nat) (text : string) : option (Answer bool) :=
  '(shared, module, into) ← read_source text;
  Some (resolve_module sample_addr sample_addr node_address ident_address 30 depth (MkResolver None None []) shared module into true).

(** What is returned, with the messages reported. *)
Definition verdict (answer : option (Answer bool)) : option (bool * list string) :=
  match answer with
  | Some (Answered s resolved) => Some (resolved, diag_message <$> diag_items (rs_diagnostics s))
  | _ => None
  end.
