(* ===== verification/ResolveKeeps.v ===== *)
(** * ResolveKeeps: what resolution leaves of what was there

    Resolution adds: functions to the registry, bodies and instances to the
    pending work, messages to the diagnostics.  What was there stays, but for the
    bounds of a declaration, which are recorded when it has been made; and the
    list of the wanted instances stays the one that building the module's MIR
    expects. *)

From Stdlib Require Import String Ascii.
From S2P Require Import Ast Facts Parser.
From S2P Require Import Prelude Types Mir Decl Diagnostics Strings HashMap Registry RegistryTypes RegistryState Functions Scopes Instantiate Build Check TypeExprs Resolve Declare Resolver.

(** ** What stays of a function *)

(** All but the bounds of its declaration, and what the borrow checker writes. *)
Definition function_kept (f : Function) : FuncDecl * FuncSignature * list TypeArg := function_core (with_param_bounds [] f).

Definition functions_keep (fr fr' : FunctionRegistry) : Prop :=
  forall p f, reg_functions fr !! p = Some f -> exists f', reg_functions fr' !! p = Some f' /\ function_kept f' = function_kept f.

#[export] Instance functions_keep_preorder : PreOrder functions_keep.
Proof.
  split; [by intros fr p f Hf; exists f|]. intros fr1 fr2 fr3 H1 H2 p f Hf.
  destruct (H1 p f Hf) as (f' & Hf' & Hc). destruct (H2 p f' Hf') as (f'' & Hf'' & Hc'). exists f''. split; [done|congruence].
Qed.

Lemma core_kept f f' : function_core f' = function_core f -> function_kept f' = function_kept f.
Proof. intros [= Hd Hs Ha]. unfold function_kept, function_core, with_param_bounds. cbn. by rewrite Hd, Hs, Ha. Qed.

Lemma grow_keep fr fr' : functions_grow fr fr' -> functions_keep fr fr'.
Proof. intros Hg p f Hf. destruct (Hg p f Hf) as (f' & Hf' & Hc). exists f'. split; [done|by apply core_kept]. Qed.

Lemma kept_wants f f' : function_kept f' = function_kept f -> wants f -> wants f'.
Proof.
  unfold function_kept, function_core, with_param_bounds. cbn. intros Hk (H1 & H2 & H3). unfold wants, function_lowers_no_body, has_modifier in *.
  destruct (fn_decl f') eqn:Hd', (fn_decl f) eqn:Hd. cbn in *. injection Hk as -> -> -> -> -> -> -> _ Ha. by rewrite Ha.
Qed.

Lemma wanted_ok_keep fr fr' work : functions_keep fr fr' -> wanted_ok fr work -> wanted_ok fr' work.
Proof.
  intros Hg (H1 & H2 & H3 & H4). split; [done|]. split; [done|]. split; [done|]. eapply Forall_impl; [exact H4|].
  intros p (f & Hf & Hw). destruct (Hg p f Hf) as (f' & Hf' & Hc). exists f'. split; [done|by eapply kept_wants].
Qed.

(** ** What a computation keeps *)

Record keeps_all (s s' : ResolverState) : Prop := {
  ka_functions : functions_keep (functions_of s) (functions_of s');
  ka_wanted : wanted (rs_work s) `prefix_of` wanted (rs_work s');
  ka_bodies : bodies (rs_work s) `prefix_of` bodies (rs_work s');
  ka_overflowed : instantiation_overflowed (rs_work s) = true -> instantiation_overflowed (rs_work s') = true;
  ka_diagnostics : diag_items (rs_diagnostics s) `prefix_of` diag_items (rs_diagnostics s');
  ka_reported : instantiation_overflowed (rs_work s) = false -> instantiation_overflowed (rs_work s') = true ->
    overflow_reported (rs_diagnostics s) (rs_diagnostics s');
}.

Lemma overflow_reported_later d d' d'' : overflow_reported d d' -> diag_items d' `prefix_of` diag_items d'' -> overflow_reported d d''.
Proof. intros (name & pre & post & H) [l Hl]. exists name, pre, (post ++ l). by rewrite Hl, H, <- !app_assoc. Qed.

Lemma overflow_reported_before d d' d'' : diag_items d `prefix_of` diag_items d' -> overflow_reported d' d'' -> overflow_reported d d''.
Proof. intros [l Hl] (name & pre & post & H). exists name, (l ++ pre), post. by rewrite H, Hl, <- !app_assoc. Qed.

#[export] Instance keeps_all_preorder : PreOrder keeps_all.
Proof.
  split; [intros s; split; done || congruence|].
  intros s1 s2 s3 [F1 W1 B1 O1 D1 R1] [F2 W2 B2 O2 D2 R2]. split; [by etrans..|by auto|by etrans|].
  intros H1 H3. destruct (instantiation_overflowed (rs_work s2)) eqn:H2.
  - by eapply overflow_reported_later; [apply R1|].
  - by eapply overflow_reported_before; [|apply R2].
Qed.

Definition work_ok (s : ResolverState) : Prop := wanted_ok (functions_of s) (rs_work s).

Definition keeps {A} (m : Resolve A) : Prop := forall s, work_ok s ->
  match m s with Answered s' _ => work_ok s' /\ keeps_all s s' | _ => True end.

Lemma keeps_bind {A B} (m : Resolve A) (k : A -> Resolve B) : keeps m -> (forall a, keeps (k a)) -> keeps (m ≫= k).
Proof.
  intros Hm Hk s Hs. unfold mbind, Resolve_bind. specialize (Hm s Hs). destruct (m s) as [s1 a| |]; [|done..]. destruct Hm as [H1 K1].
  specialize (Hk a s1 H1). destruct (k a s1) as [s2 b| |]; [|done..]. destruct Hk as [H2 K2]. split; [done|by etrans].
Qed.

Lemma keeps_each {A B} (f : nat -> A -> Resolve B) (l : list A) : (forall i a, keeps (f i a)) -> forall i, keeps (each_of f i l).
Proof.
  intros Hf. induction l as [|a l IH]; intros i; cbn [each_of]; [by intros s Hs|].
  apply keeps_bind; [apply Hf|]. intros b. apply keeps_bind; [apply IH|]. intros bs. by intros s Hs.
Qed.

Lemma keeps_for_all {A} (f : nat -> A -> Resolve unit) (l : list A) : (forall i a, keeps (f i a)) -> keeps (for_all f l).
Proof. intros Hf. apply keeps_bind; [by apply keeps_each|]. by intros _ s Hs. Qed.

Lemma keeps_restoring {A} (m : Resolve A) : keeps m -> keeps (restoring_env m).
Proof.
  intros Hm s Hs. unfold restoring_env, mbind, Resolve_bind. cbn. specialize (Hm s Hs). destruct (m s) as [s' a| |]; [|done..].
  destruct Hm as [H1 [K1 K2 K3 K4 K5 K6]]. split; [done|]. by split.
Qed.

(** *** The steps *)

(** One that changes nothing that is looked at. *)
Definition aside {A} (m : Resolve A) : Prop := forall s,
  match m s with
  | Answered s' _ => functions_of s' = functions_of s /\ rs_work s' = rs_work s /\ rs_diagnostics s' = rs_diagnostics s
  | _ => True
  end.

Lemma aside_keeps {A} (m : Resolve A) : aside m -> keeps m.
Proof.
  intros Hm s Hs. specialize (Hm s). destruct (m s) as [s' a| |]; [|done..]. destruct Hm as (Hf & Hw & Hd). unfold work_ok in *.
  rewrite Hf, Hw. split; [done|]. split; rewrite ?Hf, ?Hw, ?Hd; done || congruence.
Qed.

Lemma aside_ret {A} (a : A) : aside (mret a). Proof. done. Qed.
Lemma aside_refused {A} : aside (@refused A). Proof. done. Qed.
Lemma aside_too_deep {A} : aside (@too_deep A). Proof. done. Qed.
Lemma aside_current : aside current. Proof. done. Qed.
Lemma aside_want {A} (o : option A) : aside (want o). Proof. intros s. unfold want. by destruct o. Qed.
Lemma aside_ask {A} (f : TypeRegistry -> option A) : aside (ask_types f). Proof. intros s. unfold ask_types, want. by destruct (f _). Qed.
Lemma aside_scopes {A} (f : Scopes -> option (Scopes * A)) : aside (with_scopes f). Proof. intros s. unfold with_scopes. by destruct (f _) as [[]|]. Qed.
Lemma aside_facts f : aside (write_facts f). Proof. intros s. unfold write_facts. by destruct (f _). Qed.
Lemma aside_env f : aside (in_env f). Proof. done. Qed.
Lemma aside_name type : aside (type_name type). Proof. intros s. unfold type_name, want. by destruct type_text. Qed.
Lemma aside_wanted {A} (f : ResolverState -> option A) : aside (fun s => want (f s) s). Proof. intros s. unfold want. by destruct (f s). Qed.
Lemma aside_answer {A} (f : ResolverState -> A) : aside (fun s => Answered s (f s)). Proof. done. Qed.
Lemma aside_symbol symbol : aside (symbol_of symbol).
Proof. intros s. unfold symbol_of, want. destruct symbol; [|done]. by destruct (_ !! _). Qed.
Lemma aside_change f : (forall s, functions_of (f s) = functions_of s /\ rs_work (f s) = rs_work s /\ rs_diagnostics (f s) = rs_diagnostics s) -> aside (change f).
Proof. intros Hf s. apply Hf. Qed.
Lemma aside_mark node_addr path : aside (resolver_mark_declared node_addr path).
Proof. intros s. unfold resolver_mark_declared. destruct (map_lookup _ _ _ _) as [[]|]; [done| |done]. by destruct (map_insert _ _ _ _ _) as [[]|]. Qed.
Lemma aside_pin node_addr path expr : aside (pin_root node_addr path expr).
Proof. intros s. unfold pin_root. by destruct fact_root_local. Qed.
Lemma aside_intern text : aside (intern_name text).
Proof. intros s. unfold intern_name. by destruct (known_name _ _) as [[]|]. Qed.

Lemma keeps_world {A} (m : Inst A) : only_grows m -> keeps (with_world m).
Proof.
  intros Hm s Hs. unfold with_world. destruct (m (rs_world s)) as [[w a]|] eqn:H; [|done]. apply Hm, grow_keep in H.
  split; [by eapply wanted_ok_keep|]. split; [exact H|..]; cbn; done || congruence.
Qed.

Lemma keeps_types {A} (f : TypeRegistry -> option (TypeRegistry * A)) : keeps (Check.with_types f).
Proof. apply keeps_world, types_only_grow. Qed.

Lemma keeps_diag kind span message : keeps (diag kind span message).
Proof. intros s Hs. split; [done|]. split; cbn; try done || congruence. by eexists. Qed.

Lemma keeps_instantiate function : keeps (instantiate_body function).
Proof.
  intros s Hs. unfold instantiate_body. destruct pending_bodies_instantiate as [[work d]|] eqn:H; [|done].
  destruct (pending_keeps _ _ _ _ _ _ _ H Hs) as (Hok & [W B O D R] & _). split; [done|]. split; try done. by rewrite <- B.
Qed.

(** A body that waits to be lowered. *)
Lemma keeps_body body : keeps (change (fun s => put_work s (MkPendingBodies (bodies (rs_work s) ++ [body]) (wanted (rs_work s))
  (instantiation_overflowed (rs_work s))))).
Proof. intros s Hs. split; [done|]. split; cbn; try done || congruence. by eexists. Qed.

(** The bounds of a declaration recorded. *)
Lemma keeps_bounds made : keeps (record_param_bounds made).
Proof.
  intros s Hs. unfold record_param_bounds, mbind, Resolve_bind. cbn [current]. destruct made as [p|]; [|by split].
  unfold with_world. set (w' := MkWorld _ _).
  assert (Hk : functions_keep (functions_of s) (world_functions w')).
  { intros q f Hf. unfold w', functions_of in *. cbn [world_functions reg_functions]. destruct (decide (p = q)) as [->|Hne].
    - exists (with_param_bounds (default [] (env_param_bounds (rs_env s))) f). split; [by rewrite list_lookup_alter_eq, Hf|done].
    - exists f. by rewrite list_lookup_alter_ne. }
  split; [by eapply wanted_ok_keep|]. split; [exact Hk|..]; cbn; done || congruence.
Qed.

Lemma keeps_declares sa (type : TypePtr) (func : FuncPtr) : only_grows (fun w =>
  '(fr, declared) ← function_registry_declare_owned sa (world_types w) (world_functions w) type func; Some (MkWorld (world_types w) fr, declared)).
Proof.
  intros w w' a H. apply bind_Some in H as ([fr declared] & Hd & [= <- _]). cbn. unfold function_registry_declare_owned in Hd.
  repeat (apply bind_Some in Hd as (? & _ & Hd) || case_match); simplify_eq; intros q g Hq; by exists g.
Qed.

Create HintDb keeping.
#[export] Hint Resolve aside_keeps : keeping.
#[export] Hint Resolve aside_ret aside_refused aside_too_deep aside_current aside_want aside_ask aside_scopes aside_facts aside_env aside_name
  aside_wanted aside_answer aside_symbol aside_mark aside_pin aside_intern : keeping.
#[export] Hint Resolve keeps_types keeps_diag keeps_instantiate keeps_body keeps_bounds keeps_world keeps_declares instance_of_only_grows
  owned_for_only_grows : keeping.
#[export] Hint Extern 1 (aside (change _)) => apply aside_change; done : keeping.

(** One step into a computation. *)
Ltac keep_step :=
  first
  [ solve [eauto 4 with keeping nocore]
  | apply keeps_bind; [|intro]
  | apply keeps_for_all; intros ? ?
  | apply keeps_each; intros ? ?
  | apply keeps_restoring
  | match goal with
    | |- keeps (match ?x with _ => _ end) => destruct x eqn:?
    | |- keeps ?m => unfold_head m
    end ].
Ltac keeping := intros; cbv zeta; repeat (keep_step; cbv zeta).

(** ** Coercions *)

Lemma keeps_accepts_from ta sa fuel to : forall at_, keeps (accepts_from ta sa fuel to at_).
Proof. induction fuel as [|fuel IH]; intros at_; cbn [accepts_from]; keeping. Qed.
#[export] Hint Resolve keeps_accepts_from : keeping.

Lemma keeps_accepts ta sa to from : keeps (type_accepts ta sa to from). Proof. keeping. Qed.
Lemma keeps_borrow na path expr to span : keeps (borrow_into na path expr to span). Proof. keeping. Qed.
Lemma keeps_move ta sa na fuel path value to span : keeps (mark_implicit_move ta sa na fuel path value to span). Proof. keeping. Qed.
#[export] Hint Resolve keeps_accepts keeps_borrow keeps_move : keeping.

(** ** Types *)

Lemma keeps_modules sa res modules name : keeps (lookup_in_modules sa res modules name).
Proof. induction modules as [|module modules IH]; cbn [lookup_in_modules]; keeping. Qed.
#[export] Hint Resolve keeps_modules : keeping.

Lemma keeps_resolve_name sa res scope name : keeps (resolver_resolve_name sa res scope name). Proof. keeping. Qed.
Lemma keeps_qualifier sa res qualifier : keeps (resolver_type_expr_scope sa res qualifier). Proof. keeping. Qed.
Lemma keeps_unsized type span held : keeps (reject_unsized type span held). Proof. keeping. Qed.
#[export] Hint Resolve keeps_resolve_name keeps_qualifier keeps_unsized : keeping.

Section types.
Context (ta sa : nat -> N) (type_fuel : nat) (res : Resolution) (self : TypeRecursion)
  (Hexpr : forall expr span, keeps (rec_type_expr self expr span)) (Hfields : forall decl, keeps (rec_struct_fields self decl)).
Hint Resolve Hexpr Hfields : keeping.

Lemma keeps_element expr span held : keeps (resolve_element_type ta sa type_fuel self expr span held).
Proof using Hexpr Hfields. keeping. Qed.
Hint Resolve keeps_element : keeping.

Lemma keeps_type_args exprs span : keeps (resolve_type_args self exprs span).
Proof using Hexpr Hfields. induction exprs as [|expr exprs IH]; cbn [resolve_type_args]; keeping. Qed.
Hint Resolve keeps_type_args : keeping.

Lemma keeps_applied base args span : keeps (resolve_applied_type ta sa type_fuel res self base args span).
Proof using Hexpr Hfields. keeping. Qed.
Hint Resolve keeps_applied : keeping.

Lemma keeps_type_expr_of expr span : keeps (resolve_type_expr_of ta sa type_fuel res self expr span).
Proof using Hexpr Hfields. destruct expr; cbn [resolve_type_expr_of]; keeping. Qed.

Lemma keeps_fields sd fields : forall seen failed, keeps (resolve_fields self sd seen failed fields).
Proof using Hexpr Hfields. induction fields as [|field fields IH]; intros seen failed; cbn [resolve_fields]; keeping. Qed.
Hint Resolve keeps_fields : keeping.

Lemma keeps_struct_fields_of decl : keeps (resolve_struct_fields_of ta sa type_fuel self decl).
Proof using Hexpr Hfields. keeping. Qed.
End types.

Lemma keeps_types_at ta sa type_fuel res fuel :
  (forall expr span, keeps (rec_type_expr (types_at ta sa type_fuel res fuel) expr span)) /\
  (forall decl, keeps (rec_struct_fields (types_at ta sa type_fuel res fuel) decl)).
Proof.
  induction fuel as [|fuel [IHe IHf]]; cbn [types_at rec_type_expr rec_struct_fields]; [split; intros; apply aside_keeps, aside_too_deep|].
  split; intros; [by apply keeps_type_expr_of|by apply keeps_struct_fields_of].
Qed.

Lemma keeps_type_expr ta sa type_fuel depth res expr span : keeps (resolve_type_expr ta sa type_fuel depth res expr span).
Proof. unfold resolve_type_expr. destruct expr; [apply keeps_types_at|keeping]. Qed.
Lemma keeps_struct_fields ta sa type_fuel res depth decl : keeps (resolve_struct_fields ta sa type_fuel res depth decl).
Proof. apply keeps_types_at. Qed.
#[export] Hint Resolve keeps_type_expr keeps_struct_fields : keeping.

(** ** Expressions *)

Section expressions.
Context (ta sa : nat -> N) (na : NodePtr -> N) (type_fuel depth : nat) (res : Resolution).

Lemma keeps_method_from turns name : forall at_, keeps (method_from ta sa turns at_ name).
Proof. induction turns as [|turns IH]; intros [at_|]; cbn [method_from]; keeping. Qed.
Hint Resolve keeps_method_from : keeping.

Lemma keeps_find_method receiver name : keeps (find_method ta sa receiver name).
Proof. keeping. Qed.
Hint Resolve keeps_find_method : keeping.

Lemma keeps_check_args path args params : keeps (check_call_args ta sa na type_fuel path args params).
Proof. keeping. Qed.
Hint Resolve keeps_check_args : keeping.

Lemma keeps_reconcile_from turns span path receiver declared actual name : forall at_ derefs,
  keeps (reconcile_from ta sa na turns span path receiver declared at_ actual name derefs).
Proof. induction turns as [|turns IH]; intros at_ derefs; cbn [reconcile_from]; keeping. Qed.
Hint Resolve keeps_reconcile_from : keeping.

Lemma keeps_bounds_met span bounds : forall args, keeps (check_bounds ta sa span bounds args).
Proof. induction bounds as [|bound bounds IH]; intros args; cbn [check_bounds]; keeping. Qed.
Hint Resolve keeps_bounds_met : keeping.

Lemma keeps_written_types span supplied : keeps (written_type_args ta sa type_fuel depth res span supplied).
Proof. induction supplied as [|expr supplied IH]; cbn [written_type_args]; keeping. Qed.
Hint Resolve keeps_written_types : keeping.

Section below.
Context (expr_at : NodePtr -> ASTExpr -> TypePtr -> Resolve TypePtr) (Hexpr : forall path expr type, keeps (expr_at path expr type)).
Hint Resolve Hexpr : keeping.

Lemma keeps_infer_from owed written : forall args params, keeps (infer_from expr_at owed args written params).
Proof using Hexpr. induction written as [|[path arg] written IH]; intros args [|param params]; cbn [infer_from]; keeping. Qed.
Hint Resolve keeps_infer_from : keeping.

Lemma keeps_specialize path expr generic args fixed self_params : keeps (specialize ta sa expr_at path expr generic args fixed self_params).
Proof using Hexpr. keeping. Qed.
Hint Resolve keeps_specialize : keeping.

Lemma keeps_method_call path expr receiver name args : keeps (resolve_method_call ta sa na type_fuel expr_at path expr receiver name args).
Proof using Hexpr. keeping. Qed.
Hint Resolve keeps_method_call : keeping.

Lemma keeps_conversion path expr args target : keeps (resolve_conversion na expr_at path expr args target).
Proof using Hexpr. keeping. Qed.
Hint Resolve keeps_conversion : keeping.

Lemma keeps_call_of path expr target args : keeps (resolve_call_of ta sa na type_fuel depth res expr_at path expr target args).
Proof using Hexpr. keeping. Qed.
Hint Resolve keeps_call_of : keeping.

Lemma keeps_call path expr target args : keeps (resolve_call ta sa na type_fuel depth res expr_at path expr target args).
Proof using Hexpr. keeping. Qed.
Hint Resolve keeps_call : keeping.

Lemma keeps_lend path expr target name known count not_so missing what check_rest kind : (forall f, keeps (check_rest f)) ->
  keeps (lend_through_interface ta sa na type_fuel expr_at path expr target name known count not_so missing what check_rest kind).
Proof using Hexpr. keeping. Qed.
Hint Resolve keeps_lend : keeping.

Lemma keeps_field_inits path type fields inits : forall seen ok i, keeps (resolve_field_inits ta sa na type_fuel expr_at path type fields seen ok i inits).
Proof using Hexpr. induction inits as [|init inits IH]; intros seen ok i; cbn [resolve_field_inits]; keeping. Qed.

Lemma keeps_missing span fields : forall seen ok, keeps (report_missing span fields seen ok).
Proof. induction fields as [|field fields IH]; intros [|[] seen] ok; cbn [report_missing]; keeping. Qed.
Hint Resolve keeps_field_inits keeps_missing : keeping.

Lemma keeps_expr_of path expr type : keeps (resolve_expr_of ta sa na type_fuel depth res expr_at path expr type).
Proof using Hexpr.
  unfold resolve_expr_of. apply keeps_bind; [|keeping]. destruct expr; cbn [resolve_expr_kind]; keeping.
Qed.
End below.

Lemma keeps_exprs fuel : forall path expr type, keeps (exprs_at ta sa na type_fuel depth res fuel path expr type).
Proof.
  induction fuel as [|fuel IH]; intros path expr type; cbn [exprs_at]; [apply aside_keeps, aside_too_deep|by apply keeps_expr_of].
Qed.

Lemma keeps_resolve_expr fuel path expr type : keeps (resolve_expr ta sa na type_fuel depth res fuel path expr type).
Proof. destruct expr; [apply keeps_exprs|keeping]. Qed.
End expressions.
#[export] Hint Resolve keeps_find_method keeps_check_args keeps_bounds_met keeps_resolve_expr : keeping.

(** ** Declarations *)

Section declare.
Context (ta sa : nat -> N) (na : NodePtr -> N) (ia : IdentPtr -> N) (type_fuel depth : nat) (res : Resolution).
Context (stmt_at : NodePtr -> ASTStmt -> Resolve unit) (Hstmt : forall path stmt, keeps (stmt_at path stmt)).
Hint Resolve Hstmt : keeping.

Lemma keeps_struct path span name fields params intrinsic : keeps (declare_struct sa na res path span name fields params intrinsic).
Proof. keeping. Qed.
Hint Resolve keeps_struct : keeping.

Lemma keeps_enter_owner owner bounds : keeps (enter_owner_scope ta sa type_fuel depth res owner bounds).
Proof. keeping. Qed.
Hint Resolve keeps_enter_owner : keeping.

Lemma keeps_param_bounds decl span : keeps (enter_param_bounds ta sa type_fuel depth res decl span).
Proof. keeping. Qed.
Hint Resolve keeps_param_bounds : keeping.

Lemma keeps_func_body path decl span : keeps (resolve_func_body sa na ia stmt_at path decl span).
Proof using Hstmt. keeping. Qed.
Hint Resolve keeps_func_body : keeping.

Lemma keeps_owned_in_scope declaring path decl span : keeps (declare_owned_in_scope ta sa na ia type_fuel depth res stmt_at declaring path decl span).
Proof using Hstmt. keeping. Qed.
Hint Resolve keeps_owned_in_scope : keeping.

Lemma keeps_func path decl span : keeps (declare_func ta sa na ia type_fuel depth res stmt_at path decl span).
Proof using Hstmt. keeping. Qed.
Hint Resolve keeps_func : keeping.

Lemma keeps_interface span name members params : keeps (declare_interface ta sa type_fuel depth res span name members params).
Proof. keeping. Qed.

Lemma keeps_conforming_params span name interface expected : forall p given, keeps (check_conforming_params span name interface p expected given).
Proof. induction expected as [|e expected IH]; intros p [|g given]; cbn [check_conforming_params]; keeping. Qed.
Hint Resolve keeps_conforming_params : keeping.

Lemma keeps_interface_args span exprs : keeps (interface_args ta sa type_fuel depth res span exprs).
Proof. induction exprs as [|expr exprs IH]; cbn [interface_args]; keeping. Qed.
Hint Resolve keeps_interface_args : keeping.

Lemma keeps_conformance members named written implementor : keeps (check_conformance ta sa type_fuel depth res members named written implementor).
Proof. keeping. Qed.
Hint Resolve keeps_conformance : keeping.

Lemma keeps_declare_impl path span type members interface_name written params :
  keeps (declare_impl ta sa na ia type_fuel depth res stmt_at path span type members interface_name written params).
Proof using Hstmt. keeping. Qed.

Lemma keeps_impl path type members params : keeps (resolve_impl ta sa type_fuel depth res stmt_at path type members params).
Proof using Hstmt. keeping. Qed.
Hint Resolve keeps_declare_impl keeps_impl keeps_interface : keeping.

(** ** Statements *)

Lemma keeps_stmt_of path stmt : keeps (resolve_stmt_of ta sa na ia type_fuel depth res stmt_at path stmt).
Proof using Hstmt. destruct stmt; cbn [resolve_stmt_of]; keeping. Qed.

Lemma keeps_declare_type path stmt : keeps (declare_type_of ta sa na type_fuel depth res path stmt).
Proof. destruct stmt; cbn [declare_type_of]; keeping. Qed.

End declare.

Lemma keeps_stmts ta sa na ia type_fuel depth res fuel : forall path stmt, keeps (stmts_at ta sa na ia type_fuel depth res fuel path stmt).
Proof.
  induction fuel as [|fuel IH]; intros path stmt; cbn [stmts_at]; [apply aside_keeps, aside_too_deep|by apply keeps_stmt_of].
Qed.

Lemma keeps_stmt ta sa na ia type_fuel depth res path stmt : keeps (resolve_stmt ta sa na ia type_fuel depth res path stmt).
Proof. exact (keeps_stmts ta sa na ia type_fuel depth res depth path stmt). Qed.
#[export] Hint Resolve keeps_declare_type keeps_declare_impl keeps_func keeps_stmt : keeping.

(** ** A module *)

Lemma keeps_passes ta sa na ia type_fuel depth resolver res module : keeps (resolve_passes ta sa na ia type_fuel depth resolver res module).
Proof. keeping. Qed.

(** A module resolved over what is there. *)
Lemma resolve_module_keeps ta sa na ia type_fuel depth resolver shared module into intrinsics s resolved :
  resolve_module ta sa na ia type_fuel depth resolver shared module into intrinsics = Answered s resolved ->
  work_ok s /\ functions_keep (world_functions (sh_world shared)) (functions_of s) /\
  diag_items (sh_diagnostics shared) `prefix_of` diag_items (rs_diagnostics s) /\
  resolved = bool_decide (diag_items (rs_diagnostics s) = diag_items (sh_diagnostics shared)) /\
  (instantiation_overflowed (rs_work s) = true -> resolved = false).
Proof.
  unfold resolve_module. destruct (start_state shared into) as [start|] eqn:Hstart; [|done].
  unfold start_state in Hstart. apply bind_Some in Hstart as (facts & _ & Hstart). apply bind_Some in Hstart as (declared & _ & [= <-]).
  match goal with |- context [resolve_passes ?a ?b ?c ?d ?e ?f ?g ?h ?i ?start] =>
    pose proof (keeps_passes a b c d e f g h i start) as Hk; destruct (resolve_passes a b c d e f g h i start) as [s' []| |]; [|done..] end.
  intros [= <- <-]. destruct Hk as [Hok [Hf _ _ _ Hd Hr]].
  { split; [constructor|]. split; [cbn; lia|]. split; [done|constructor]. }
  cbn in Hf, Hd, Hr. split; [done|]. split; [done|]. split; [done|]. unfold diagnostics_count. rewrite (prefix_counted _ _ Hd). split; [done|].
  intros Ho. apply bool_decide_eq_false. destruct (Hr eq_refl Ho) as (name & pre & post & ->). intros Heq. apply (f_equal length) in Heq.
  rewrite !length_app in Heq. cbn in Heq. lia.
Qed.
