(* ===== verification/ResolveEnds.v ===== *)
(** * ResolveEnds: how deep the calls of resolution go

    The functions of resolution call each other on the parts of the tree, and on
    the fields of a struct when a type holds it by value.  Fields are resolved
    once per struct, so the calls nest no deeper than a bound that is computed
    from the module.  What is left besides an answer is [Refused]: a failed
    assertion, a null pointer, or a question to the registry of types that has no
    answer, of which the bound says nothing. *)

From Stdlib Require Import String Ascii.
From S2P Require Import Ast Facts Parser.
From S2P Require Import Prelude Types Mir Decl Diagnostics Strings HashMap Registry RegistryTypes RegistryState Functions Scopes Instantiate Build Check TypeExprs Resolve Declare Resolver Sources.

Create HintDb calm.

(** ** What is measured *)

Definition max_of {A} (f : A -> nat) (l : list A) : nat := foldr (fun a n => Nat.max (f a) n) 0 l.
Definition sum_of {A} (f : A -> nat) (l : list A) : nat := foldr (fun a n => f a + n) 0 l.

#[global] Arguments max_of {A} f l : simpl never.
#[global] Arguments sum_of {A} f l : simpl never.

Lemma max_of_elem {A} (f : A -> nat) (l : list A) a : a ∈ l -> f a <= max_of f l.
Proof. unfold max_of. induction 1 as [|a b l _ IH]; cbn; lia. Qed.

Lemma max_of_least {A} (f : A -> nat) (l : list A) n : (forall a, a ∈ l -> f a <= n) -> max_of f l <= n.
Proof.
  unfold max_of. induction l as [|a l IH]; intros Hl; cbn; [lia|]. apply Nat.max_lub; [apply Hl; left|]. apply IH. intros b Hb. apply Hl. by right.
Qed.

Lemma max_of_app {A} (f : A -> nat) (l l' : list A) : max_of f (l ++ l') = Nat.max (max_of f l) (max_of f l').
Proof. unfold max_of. induction l as [|a l IH]; cbn; [done|]. rewrite IH. lia. Qed.

Lemma sum_of_alter {A} (f : A -> nat) (g : A -> A) l : forall n a, l !! n = Some a -> sum_of f (alter g n l) + f a = sum_of f l + f (g a).
Proof.
  unfold sum_of, alter. induction l as [|b l IH]; intros [|n] a Hn; [done..|injection Hn as ->|]; cbn; [lia|].
  specialize (IH n a Hn). cbn in *. lia.
Qed.

Lemma sum_of_alter_same {A} (f : A -> nat) (g : A -> A) l : (forall a, f (g a) = f a) -> forall n, sum_of f (alter g n l) = sum_of f l.
Proof.
  unfold sum_of, alter. intros Hg. induction l as [|b l IH]; intros [|n]; cbn; [done..|by rewrite Hg|]. by f_equal.
Qed.

Lemma sum_of_app {A} (f : A -> nat) (l l' : list A) : sum_of f (l ++ l') = sum_of f l + sum_of f l'.
Proof. unfold sum_of. induction l as [|a l IH]; cbn; [done|]. rewrite IH. lia. Qed.

(** The depth of a type expression. *)
Fixpoint type_depth (expr : TypeExpr) : nat :=
  match expr with
  | TYPE_EXPR_NAME _ _ | TYPE_EXPR_CONST _ => 1
  | TYPE_EXPR_RAW inner | TYPE_EXPR_REF inner => S (type_depth inner)
  | TYPE_EXPR_APPLY base args => S (Nat.max (type_depth base) (max_of type_depth args))
  end.

(** The structs whose fields are still to be resolved. *)
Definition undemanded (s : ResolverState) : nat := sum_of (fun sd => if fields_demanded sd then 0 else 1) (rs_struct_decls s).

Definition fields_within (D : nat) (sd : StructDecl) : Prop := max_of (fun f => type_depth (field_type_expr f)) (sd_fields sd) <= D.

(** At most [u] structs are left, and the types of their fields are at most [D]
    deep. *)
Record waits (D u : nat) (s : ResolverState) : Prop := {
  w_left : undemanded s <= u;
  w_fields : Forall (fields_within D) (rs_struct_decls s);
}.

(** A computation answers or refuses, and leaves at most [v] structs of [u]. *)
Definition settles (D : nat) {A} (u v : nat) (m : Resolve A) : Prop := forall s, waits D u s ->
  match m s with Answered s' _ => waits D v s' | Refused => True | TooDeep => False end.

(** One that declares no struct, where at most [L] are left. *)
Definition calm (D L : nat) {A} (m : Resolve A) : Prop := forall u, u <= L -> settles D u u m.

(** One that leaves the structs as they are. *)
Definition quiet {A} (m : Resolve A) : Prop := forall s,
  match m s with Answered s' _ => rs_struct_decls s' = rs_struct_decls s | Refused => True | TooDeep => False end.

Lemma waits_mono D u v s : u <= v -> waits D u s -> waits D v s.
Proof. intros Huv [Hl Hf]. split; [lia|done]. Qed.

Lemma settles_mono D {A} u u' v v' (m : Resolve A) : u' <= u -> v <= v' -> settles D u v m -> settles D u' v' m.
Proof.
  intros Hu Hv Hm s Hs. specialize (Hm s (waits_mono _ _ _ s Hu Hs)). destruct (m s); [|done..]. by eapply waits_mono.
Qed.

Lemma settles_bind D {A B} u v w (m : Resolve A) (k : A -> Resolve B) :
  settles D u v m -> (forall a, settles D v w (k a)) -> settles D u w (m ≫= k).
Proof.
  intros Hm Hk s Hs. unfold mbind, Resolve_bind. specialize (Hm s Hs). destruct (m s) as [s' a| |]; [|done..]. by apply Hk.
Qed.

Lemma calm_mono D {A} L L' (m : Resolve A) : L' <= L -> calm D L m -> calm D L' m.
Proof. intros HL Hm u Hu. apply Hm. lia. Qed.

Lemma calm_settles D {A} L (m : Resolve A) u v : u <= v -> u <= L -> calm D L m -> settles D u v m.
Proof. intros Hv Hu Hm. by apply (settles_mono D u u u v), Hm. Qed.

Lemma quiet_calm D L {A} (m : Resolve A) : quiet m -> calm D L m.
Proof.
  intros Hm u _ s [Hl Hf]. specialize (Hm s). destruct (m s) as [s' a| |]; [|done..]. unfold undemanded in Hl. rewrite <- Hm in Hl, Hf. by split.
Qed.

Lemma calm_bind D L {A B} (m : Resolve A) (k : A -> Resolve B) : calm D L m -> (forall a, calm D L (k a)) -> calm D L (m ≫= k).
Proof. intros Hm Hk u Hu. eapply settles_bind; [by apply Hm|]. intros a. by apply Hk. Qed.

Lemma calm_each D L {A B} (f : nat -> A -> Resolve B) (l : list A) : (forall i a, a ∈ l -> calm D L (f i a)) -> forall i, calm D L (each_of f i l).
Proof.
  induction l as [|a l IH]; intros Hf i; cbn [each_of]; [by apply quiet_calm|].
  apply calm_bind; [apply Hf; constructor|]. intros b. apply calm_bind; [|by intros; apply quiet_calm]. apply IH. intros j a' Ha. apply Hf. by constructor.
Qed.

Lemma calm_for_all D L {A} (f : nat -> A -> Resolve unit) (l : list A) : (forall i a, a ∈ l -> calm D L (f i a)) -> calm D L (for_all f l).
Proof. intros Hf. apply calm_bind; [by apply calm_each|]. intros _. by apply quiet_calm. Qed.

Lemma settles_restoring D {A} u v (m : Resolve A) : settles D u v m -> settles D u v (restoring_env m).
Proof.
  intros Hm s Hs. unfold restoring_env, mbind, Resolve_bind. cbn. specialize (Hm s Hs). destruct (m s) as [s' a| |]; [|done..].
  destruct Hm as [Hl Hf]. by split.
Qed.

Lemma calm_restoring D L {A} (m : Resolve A) : calm D L m -> calm D L (restoring_env m).
Proof. intros Hm u Hu. by apply settles_restoring, Hm. Qed.

(** *** The steps that touch no struct *)

Lemma quiet_ret {A} (a : A) : quiet (mret a). Proof. done. Qed.
Lemma quiet_refused {A} : quiet (@refused A). Proof. done. Qed.
Lemma quiet_current : quiet current. Proof. done. Qed.
Lemma quiet_want {A} (o : option A) : quiet (want o). Proof. intros s. unfold want. by destruct o. Qed.
Lemma quiet_ask {A} (f : TypeRegistry -> option A) : quiet (ask_types f). Proof. intros s. unfold ask_types, want. by destruct (f _). Qed.
Lemma quiet_world {A} (m : Inst A) : quiet (with_world m). Proof. intros s. unfold with_world. by destruct (m _) as [[]|]. Qed.
Lemma quiet_scopes {A} (f : Scopes -> option (Scopes * A)) : quiet (with_scopes f). Proof. intros s. unfold with_scopes. by destruct (f _) as [[]|]. Qed.
Lemma quiet_facts f : quiet (write_facts f). Proof. intros s. unfold write_facts. by destruct (f _). Qed.
Lemma quiet_env f : quiet (in_env f). Proof. done. Qed.
Lemma quiet_diag kind span message : quiet (diag kind span message). Proof. done. Qed.
Lemma quiet_name type : quiet (type_name type). Proof. intros s. unfold type_name, want. by destruct type_text. Qed.
Lemma quiet_change f : (forall s, rs_struct_decls (f s) = rs_struct_decls s) -> quiet (change f). Proof. intros Hf s. apply Hf. Qed.
Lemma quiet_wanted {A} (f : ResolverState -> option A) : quiet (fun s => want (f s) s). Proof. intros s. unfold want. by destruct (f s). Qed.
Lemma quiet_answer {A} (f : ResolverState -> A) : quiet (fun s => Answered s (f s)). Proof. done. Qed.
Lemma quiet_symbol symbol : quiet (symbol_of symbol).
Proof. intros s. unfold symbol_of, want. destruct symbol; [|done]. by destruct (_ !! _). Qed.

Lemma quiet_mark node_addr path : quiet (resolver_mark_declared node_addr path).
Proof. intros s. unfold resolver_mark_declared. destruct (map_lookup _ _ _ _) as [[]|]; [done| |done]. by destruct (map_insert _ _ _ _ _) as [[]|]. Qed.
Lemma quiet_pin node_addr path expr : quiet (pin_root node_addr path expr).
Proof. intros s. unfold pin_root. by destruct fact_root_local. Qed.
Lemma quiet_intern text : quiet (intern_name text).
Proof. intros s. unfold intern_name. by destruct (known_name _ _) as [[]|]. Qed.
Lemma quiet_instantiate function : quiet (instantiate_body function).
Proof. intros s. unfold instantiate_body. by destruct pending_bodies_instantiate as [[]|]. Qed.

#[export] Hint Resolve quiet_calm : calm.
#[export] Hint Resolve quiet_ret quiet_refused quiet_current quiet_want quiet_ask quiet_world quiet_scopes quiet_facts quiet_env quiet_diag
  quiet_name quiet_symbol quiet_wanted quiet_answer quiet_mark quiet_pin quiet_intern quiet_instantiate : calm.
#[export] Hint Extern 1 (quiet (change _)) => apply quiet_change; reflexivity : calm.

(** One step into a computation that is not known to be calm. *)
Ltac calm_step :=
  first
  [ solve [eauto 4 with calm nocore]
  | apply calm_bind; [|intro]
  | apply calm_for_all; intros ? ? ?
  | apply calm_each; intros ? ? ?
  | apply calm_restoring
  | match goal with
    | |- calm _ _ (match ?x with _ => _ end) => destruct x eqn:?
    | |- calm _ _ ?m => unfold_head m
    end ].
Ltac calm := intros; cbv zeta; repeat (calm_step; cbv zeta).

(** ** Coercions *)

Lemma calm_error_type D L type : calm D L (is_error_type type). Proof. calm. Qed.
#[export] Hint Resolve calm_error_type : calm.

Lemma calm_accepts_from D L ta sa fuel to : forall at_, calm D L (accepts_from ta sa fuel to at_).
Proof. induction fuel as [|fuel IH]; intros at_; cbn [accepts_from]; calm. Qed.
#[export] Hint Resolve calm_accepts_from : calm.

Lemma calm_unsizes D L to from : calm D L (unsizes_to_a_slice to from). Proof. calm. Qed.
#[export] Hint Resolve calm_unsizes : calm.

Lemma calm_accepts D L ta sa to from : calm D L (type_accepts ta sa to from). Proof. calm. Qed.
Lemma calm_borrow D L na path expr to span : calm D L (borrow_into na path expr to span). Proof. calm. Qed.
Lemma calm_move D L ta sa na fuel path value to span : calm D L (mark_implicit_move ta sa na fuel path value to span). Proof. calm. Qed.
#[export] Hint Resolve calm_accepts calm_borrow calm_move : calm.

(** ** Types *)

Lemma calm_modules D L sa res modules name : calm D L (lookup_in_modules sa res modules name).
Proof. induction modules as [|module modules IH]; cbn [lookup_in_modules]; calm. Qed.
#[export] Hint Resolve calm_modules : calm.

Lemma calm_resolve_name D L sa res scope name : calm D L (resolver_resolve_name sa res scope name). Proof. calm. Qed.
Lemma calm_qualifier D L sa res qualifier : calm D L (resolver_type_expr_scope sa res qualifier). Proof. calm. Qed.
Lemma calm_unsized D L type span held : calm D L (reject_unsized type span held). Proof. calm. Qed.
#[export] Hint Resolve calm_resolve_name calm_qualifier calm_unsized : calm.

Lemma fields_within_alter D f decl l : (forall sd, sd_fields (f sd) = sd_fields sd) -> Forall (fields_within D) l -> Forall (fields_within D) (alter f decl l).
Proof. intros Hf Hl. apply Forall_alter; [done|]. intros sd _ Hsd. unfold fields_within. by rewrite Hf. Qed.

(** Marking a struct as poisoned demands no fields. *)
Lemma calm_poison D L decl : calm D L (change_struct decl poison).
Proof.
  intros u _ s [Hl Hf]. split; cbn; [|by apply fields_within_alter]. unfold undemanded in *. cbn. by rewrite sum_of_alter_same.
Qed.
#[export] Hint Resolve calm_poison : calm.

Section types.
Context (ta sa : nat -> N) (type_fuel : nat) (res : Resolution) (D L : nat).
Context (self : TypeRecursion) (d : nat)
  (Hexpr : forall expr span, type_depth expr <= d -> calm D L (rec_type_expr self expr span))
  (Hfields : forall decl, calm D L (rec_struct_fields self decl)).

Lemma calm_cycle type : calm D L (element_completes_a_cycle self type).
Proof using Hfields. calm. Qed.
Hint Resolve calm_cycle : calm.

Lemma calm_element expr span held : type_depth expr <= d -> calm D L (resolve_element_type ta sa type_fuel self expr span held).
Proof using Hexpr Hfields. calm. Qed.
Hint Resolve calm_element : calm.

Lemma calm_type_args exprs span : Forall (fun e => type_depth e <= d) exprs -> calm D L (resolve_type_args self exprs span).
Proof using Hexpr Hfields. induction 1 as [|expr exprs He _ IH]; cbn [resolve_type_args]; calm. Qed.
Hint Resolve calm_type_args : calm.

Lemma calm_applied base args span : Forall (fun e => type_depth e <= d) args ->
  calm D L (resolve_applied_type ta sa type_fuel res self base args span).
Proof using Hexpr Hfields.
  intros Hargs. calm; try (match goal with H : _ = _ :: _ |- _ => rewrite ?H in Hargs end; inversion_clear Hargs; calm).
Qed.

Lemma calm_type_expr_of expr span : type_depth expr <= S d -> calm D L (resolve_type_expr_of ta sa type_fuel res self expr span).
Proof using Hexpr Hfields.
  intros Hd. destruct expr; cbn [type_depth resolve_type_expr_of] in *.
  - calm.
  - assert (type_depth expr <= d) by lia. calm.
  - assert (type_depth expr <= d) by lia. calm.
  - calm.
  - apply calm_applied. apply Forall_forall. intros e He. pose proof (max_of_elem type_depth args e He). unfold max_of in *. lia.
Qed.

(** *** The fields of a struct *)

Lemma calm_fields sd fields : max_of (fun f => type_depth (field_type_expr f)) fields <= d -> forall seen failed,
  calm D L (resolve_fields self sd seen failed fields).
Proof using Hexpr Hfields.
  induction fields as [|field fields IH]; intros Hd seen failed; cbn [resolve_fields]; [calm|].
  assert (type_depth (field_type_expr field) <= d) by (unfold max_of in Hd; cbn in Hd; lia).
  assert (max_of (fun f => type_depth (field_type_expr f)) fields <= d) by (unfold max_of in *; cbn in Hd; lia).
  apply calm_bind; [unfold resolve_field; calm|]. intros [|]; by apply IH.
Qed.

Lemma calm_demanded decl sd : fields_within d sd -> calm D L (resolve_demanded ta sa type_fuel self decl sd).
Proof using Hexpr Hfields. intros Hd. pose proof (fun seen failed => calm_fields sd (sd_fields sd) Hd seen failed). calm. Qed.
End types.

(** A struct whose fields are resolved is one less to resolve them for. *)
Lemma settles_struct_fields D ta sa type_fuel self decl u :
  (forall v, v < u -> (forall expr span, type_depth expr <= D -> calm D v (rec_type_expr self expr span)) /\
    forall decl, calm D v (rec_struct_fields self decl)) ->
  settles D u u (resolve_struct_fields_of ta sa type_fuel self decl).
Proof.
  intros Hself s Hs. unfold resolve_struct_fields_of, struct_decl_at. cbn [mbind Resolve_bind current want].
  unfold mbind, Resolve_bind. cbn [current].
  destruct (rs_struct_decls s !! decl) as [sd|] eqn:Hsd; [|done]. cbn [want]. destruct (fields_demanded sd) eqn:Hdem; [done|].
  destruct Hs as [Hl Hf]. pose proof (sum_of_alter (fun sd => if fields_demanded sd then 0 else 1) demand_fields _ _ _ Hsd) as Hsum.
  cbn in Hsum. rewrite Hdem in Hsum. unfold undemanded in Hl. destruct u as [|v]; [lia|]. destruct (Hself v) as [He Hd]; [lia|].
  cbn [change_struct change].
  refine (_ (calm_demanded ta sa type_fuel D v self D He Hd decl sd _ v _ (put_structs s (alter demand_fields decl (rs_struct_decls s)) (rs_resolving s)) _)).
  - intros H. unfold change_struct, change. destruct (resolve_demanded _ _ _ _ _ _ _); [|done..]. eapply waits_mono; [|exact H]. lia.
  - by eapply Forall_lookup_1.
  - lia.
  - split; [unfold undemanded; cbn; lia|by apply fields_within_alter].
Qed.

(** *** The depth of the calls *)

Definition fields_need (D u : nat) : nat := 1 + u * S D.
Definition types_need (D u : nat) : nat := D + fields_need D u.

Lemma types_settle D ta sa type_fuel res : forall u fuel,
  (fields_need D u <= fuel -> forall decl, calm D u (rec_struct_fields (types_at ta sa type_fuel res fuel) decl)) /\
  (forall d, 0 < d -> d + fields_need D u <= fuel -> forall expr span, type_depth expr <= d ->
    calm D u (rec_type_expr (types_at ta sa type_fuel res fuel) expr span)).
Proof.
  intros u. induction (lt_wf u) as [u _ IHu]. intros fuel. induction fuel as [|fuel IHf].
  { unfold fields_need. split; intros; lia. }
  cbn [types_at rec_struct_fields rec_type_expr]. split.
  - intros Hn decl v Hv. apply settles_struct_fields. intros w Hw. destruct (IHu w ltac:(lia) fuel) as [Hd He].
    unfold fields_need in *. split.
    + intros expr span. destruct (decide (D = 0)) as [->|HD].
      * intros H0. exfalso. destruct expr; cbn in H0; lia.
      * apply He; nia.
    + apply Hd. nia.
  - intros d Hd0 Hn expr span Hd. destruct IHf as [IHd IHe]. destruct d as [|d]; [lia|].
    apply calm_type_expr_of with (d := d); [| |done].
    + intros e sp He. destruct (decide (d = 0)) as [->|]; [exfalso; destruct e; cbn in He; lia|]. apply (IHe d); [lia..|done].
    + intros n. apply IHd. lia.
Qed.

(** ** Expressions *)

Definition children (expr : ASTExpr) : list ASTExpr :=
  match expr with
  | EXPR_BIN_OP _ l r _ => [l; r]
  | EXPR_CALL _ target args => target :: args
  | EXPR_FIELD _ target _ | EXPR_ADDR_OF _ target | EXPR_DEREF _ target | EXPR_NEG _ target | EXPR_NOT _ target => [target]
  | EXPR_INDEX _ target index => [target; index]
  | EXPR_ARRAY_LIT _ elements => elements
  | EXPR_STRUCT_LIT _ _ fields => snd <$> fields
  | _ => []
  end.

(** The type expressions an expression writes itself. *)
Definition own_types (expr : ASTExpr) : list TypeExpr :=
  match expr with
  | EXPR_NAME _ _ owner | EXPR_QUALIFIED _ _ _ owner => option_list owner
  | EXPR_BUILTIN _ _ type_expr => option_list type_expr
  | EXPR_CAST _ type_expr | EXPR_STRUCT_LIT _ type_expr _ => [type_expr]
  | _ => []
  end.

Fixpoint expr_depth (expr : ASTExpr) : nat :=
  match expr with
  | EXPR_BIN_OP _ l r _ => S (Nat.max (expr_depth l) (expr_depth r))
  | EXPR_CALL _ target args => S (Nat.max (expr_depth target) (max_of expr_depth args))
  | EXPR_FIELD _ target _ | EXPR_ADDR_OF _ target | EXPR_DEREF _ target | EXPR_NEG _ target | EXPR_NOT _ target => S (expr_depth target)
  | EXPR_INDEX _ target index => S (Nat.max (expr_depth target) (expr_depth index))
  | EXPR_ARRAY_LIT _ elements => S (max_of expr_depth elements)
  | EXPR_STRUCT_LIT _ _ fields => S (max_of (fun init => expr_depth init.2) fields)
  | _ => 1
  end.

(** How deep the types are that an expression writes. *)
Fixpoint expr_types (expr : ASTExpr) : nat :=
  Nat.max (max_of type_depth (own_types expr))
  match expr with
  | EXPR_BIN_OP _ l r _ => Nat.max (expr_types l) (expr_types r)
  | EXPR_CALL _ target args => Nat.max (expr_types target) (max_of expr_types args)
  | EXPR_FIELD _ target _ | EXPR_ADDR_OF _ target | EXPR_DEREF _ target | EXPR_NEG _ target | EXPR_NOT _ target => expr_types target
  | EXPR_INDEX _ target index => Nat.max (expr_types target) (expr_types index)
  | EXPR_ARRAY_LIT _ elements => max_of expr_types elements
  | EXPR_STRUCT_LIT _ _ fields => max_of (fun init => expr_types init.2) fields
  | _ => 0
  end.

Definition fit (D d : nat) (expr : ASTExpr) : Prop := expr_depth expr <= d /\ expr_types expr <= D.

Lemma max_of_fmap {A B} (f : B -> nat) (g : A -> B) l : max_of f (g <$> l) = max_of (fun a => f (g a)) l.
Proof. unfold max_of. by induction l as [|a l IH]; cbn; [|rewrite <- IH]. Qed.

Lemma fit_child D d expr child : fit D (S d) expr -> child ∈ children expr -> fit D d child.
Proof.
  intros [Hd Ht] Hin.
  assert (Hmax : expr_depth expr = S (max_of expr_depth (children expr)) /\
    max_of expr_types (children expr) <= expr_types expr).
  { destruct expr; cbn [expr_depth children expr_types]; rewrite ?max_of_fmap; unfold max_of; cbn; split; lia. }
  pose proof (max_of_elem expr_depth _ _ Hin). pose proof (max_of_elem expr_types _ _ Hin). split; lia.
Qed.

Lemma fit_type D d expr type : fit D d expr -> type ∈ own_types expr -> type_depth type <= D.
Proof.
  intros [_ Ht] Hin. pose proof (max_of_elem type_depth _ _ Hin). destruct expr; cbn [expr_types] in Ht; lia.
Qed.

Lemma fit_written D d path expr written arg : fit D (S d) expr -> written_args path expr = Some written -> arg ∈ written -> fit D d arg.2.
Proof.
  intros Hf Hw Hin. destruct expr; try done; injection Hw as <-.
  - apply (fit_child D d _ _ Hf). apply list_elem_of_lookup in Hin as [i Hi]. rewrite list_lookup_imap in Hi.
    destruct (args !! i) eqn:Ha; [|done]. injection Hi as <-. cbn. right. by eapply list_elem_of_lookup_2.
  - apply list_elem_of_singleton in Hin as ->. apply (fit_child D d _ _ Hf). cbn. right. left.
Qed.

Section expressions.
Context (ta sa : nat -> N) (na : NodePtr -> N) (type_fuel depth : nat) (res : Resolution) (D L : nat).
Context (Hdepth : types_need D L <= depth).

Lemma calm_type_expr expr span : match expr with Some e => type_depth e <= D | None => True end ->
  calm D L (resolve_type_expr ta sa type_fuel res depth expr span).
Proof using Hdepth.
  intros He. unfold resolve_type_expr. destruct expr as [e|]; [|calm].
  assert (0 < D) by (destruct e; cbn in He; lia).
  apply (types_settle D ta sa type_fuel res L depth) with (d := D); unfold types_need in *; lia.
Qed.
Lemma calm_some_type expr span : type_depth expr <= D -> calm D L (resolve_type_expr ta sa type_fuel res depth (Some expr) span).
Proof using Hdepth. apply (calm_type_expr (Some expr)). Qed.
Hint Resolve calm_some_type : calm.

(** *** Methods and receivers *)

Lemma calm_method_from turns name : forall at_, calm D L (method_from ta sa turns at_ name).
Proof using Type. induction turns as [|turns IH]; intros [at_|]; cbn [method_from]; calm. Qed.
Hint Resolve calm_method_from : calm.

Lemma calm_interface_method interface index implementor args : calm D L (interface_method_for ta sa interface index implementor args).
Proof using Type. calm. Qed.
Hint Resolve calm_interface_method : calm.

Lemma calm_find_method receiver name : calm D L (find_method ta sa receiver name).
Proof using Type. calm. Qed.
Hint Resolve calm_find_method : calm.

Lemma calm_check_arg path arg param written : calm D L (check_call_arg ta sa na type_fuel path arg param written).
Proof using Type. calm. Qed.
Hint Resolve calm_check_arg : calm.

Lemma calm_check_args path args params : calm D L (check_call_args ta sa na type_fuel path args params).
Proof using Type. calm. Qed.
Hint Resolve calm_check_args : calm.

Lemma calm_record path method adjustment : calm D L (record_receiver_adjustment na path method adjustment).
Proof using Type. calm. Qed.
Hint Resolve calm_record : calm.

Lemma calm_reconcile_from turns span path receiver declared actual name : forall at_ derefs,
  calm D L (reconcile_from ta sa na turns span path receiver declared at_ actual name derefs).
Proof using Type. induction turns as [|turns IH]; intros at_ derefs; cbn [reconcile_from]; calm. Qed.
Hint Resolve calm_reconcile_from : calm.

Lemma calm_bounds span bounds : forall args, calm D L (check_bounds ta sa span bounds args).
Proof using Type. induction bounds as [|bound bounds IH]; intros args; cbn [check_bounds]; [calm|]. calm. Qed.
Hint Resolve calm_bounds : calm.

Lemma calm_written_types span supplied : max_of type_depth supplied <= D -> calm D L (written_type_args ta sa type_fuel depth res span supplied).
Proof using Hdepth.
  induction supplied as [|expr supplied IH]; intros Hd; cbn [written_type_args]; [calm|].
  assert (type_depth expr <= D /\ max_of type_depth supplied <= D) as [? Hrest] by (unfold max_of in *; cbn in Hd; lia). specialize (IH Hrest). calm.
Qed.

Lemma calm_take_written span generic supplied : type_depth supplied <= D -> calm D L (take_written_type_args ta sa type_fuel depth res span generic supplied).
Proof using Hdepth. intros Hd. destruct supplied; [calm..|]. cbn in Hd. pose proof (calm_written_types span args ltac:(lia)). calm. Qed.
Hint Resolve calm_take_written : calm.

Section below.
Context (d : nat) (expr_at : NodePtr -> ASTExpr -> TypePtr -> Resolve TypePtr)
  (Hexpr : forall path expr type, fit D d expr -> calm D L (expr_at path expr type)).
Hint Resolve Hexpr : calm.

Lemma calm_infer_from owed written : (forall arg, arg ∈ written -> fit D d arg.2) -> forall args params,
  calm D L (infer_from expr_at owed args written params).
Proof using Hexpr.
  induction written as [|[path arg] written IH]; intros Hw args params; cbn [infer_from]; [calm|]. destruct params as [|param params]; [calm|].
  assert (fit D d arg) by (apply (Hw (path, arg)); left). assert (forall args params, calm D L (infer_from expr_at owed args written params)).
  { apply IH. intros x Hx. apply Hw. by right. }
  calm.
Qed.

Lemma calm_want_bind {A B} (o : option A) (k : A -> Resolve B) : (forall a, o = Some a -> calm D L (k a)) -> calm D L (want o ≫= k).
Proof using Type. intros Hk. destruct o as [a|]; [|by apply quiet_calm; intros s]. intros u Hu s Hs. by apply (Hk a). Qed.

Lemma calm_infer_call path expr f args fixed self_params : fit D (S d) expr ->
  calm D L (infer_call_args expr_at path expr f args fixed self_params).
Proof using Hexpr.
  intros Hf. unfold infer_call_args. cbv zeta. apply calm_want_bind. intros written Hw.
  assert (forall args params, calm D L (infer_from expr_at (type_param_count (fn_decl f)) args written params)).
  { apply calm_infer_from. intros arg Ha. by apply (fit_written D d path expr written). }
  calm.
Qed.
Hint Resolve calm_infer_call : calm.

Lemma calm_specialize path expr generic args fixed self_params : fit D (S d) expr ->
  calm D L (specialize ta sa expr_at path expr generic args fixed self_params).
Proof using Hexpr. calm. Qed.
Hint Resolve calm_specialize : calm.

Lemma calm_lend path expr target name known count not_so missing what check_rest kind : fit D (S d) expr -> (forall f, calm D L (check_rest f)) ->
  calm D L (lend_through_interface ta sa na type_fuel expr_at path expr target name known count not_so missing what check_rest kind).
Proof using Hexpr. calm. Qed.

(** *** Calls *)

Lemma fit_args (expr : ASTExpr) (args : list ASTExpr) : fit D (S d) expr -> (forall arg, arg ∈ args -> arg ∈ children expr) -> forall arg, arg ∈ args -> fit D d arg.
Proof using Type. intros Hf Hin arg Ha. eapply fit_child; [exact Hf|]. by apply Hin. Qed.

Lemma calm_method_call path expr span receiver sp name args : expr = EXPR_CALL span (EXPR_FIELD sp receiver name) args -> fit D (S d) expr ->
  calm D L (resolve_method_call ta sa na type_fuel expr_at path expr receiver (Some (ident_name name)) args).
Proof using Hexpr Hdepth.
  intros He Hf. assert (fit D d receiver).
  { assert (Ht : fit D d (EXPR_FIELD sp receiver name)) by (apply (fit_child D d _ _ Hf); subst; left).
    split; [destruct Ht as [Hd _]; cbn in Hd; lia|]. destruct Ht as [_ Ht]. cbn in Ht. lia. }
  assert (forall arg, arg ∈ args -> fit D d arg) by (apply (fit_args expr args Hf); subst; intros; by right).
  calm.
Qed.

Lemma calm_conversion path expr args target : (forall arg, arg ∈ args -> fit D d arg) ->
  calm D L (resolve_conversion na expr_at path expr args target).
Proof using Hexpr.
  intros Ha. assert (match args with operand :: _ => fit D d operand | [] => True end) by (destruct args; [done|apply Ha; left]).
  unfold resolve_conversion. destruct args as [|operand []]; calm.
Qed.
Hint Resolve calm_conversion : calm.

Lemma calm_call_function path expr target args callee : (forall arg, arg ∈ args -> fit D d arg) ->
  calm D L (call_function ta sa na type_fuel expr_at path expr target args callee).
Proof using Hexpr. calm. Qed.
Hint Resolve calm_call_function : calm.

Lemma calm_specialize_call path expr target generic : fit D (S d) expr -> (forall supplied, written_owner_type target = Some supplied -> type_depth supplied <= D) ->
  calm D L (specialize_call ta sa type_fuel depth res expr_at path expr target generic).
Proof using Hexpr Hdepth.
  intros Hf Hs. unfold specialize_call. apply calm_bind; [calm|]. intros f. apply calm_bind; [|calm].
  destruct (written_owner_type target) as [supplied|]; [|calm]. apply calm_take_written. by apply Hs.
Qed.
Hint Resolve calm_specialize_call : calm.

Lemma calm_call_of path expr target args : fit D (S d) expr -> fit D d target -> (forall arg, arg ∈ args -> fit D d arg) ->
  (forall supplied, written_owner_type target = Some supplied -> type_depth supplied <= D) ->
  calm D L (resolve_call_of ta sa na type_fuel depth res expr_at path expr target args).
Proof using Hexpr Hdepth. calm. Qed.
Hint Resolve calm_call_of : calm.

Lemma calm_call path expr span target args : expr = EXPR_CALL span target args -> fit D (S d) expr ->
  calm D L (resolve_call ta sa na type_fuel depth res expr_at path expr target args).
Proof using Hexpr Hdepth.
  intros He Hf. assert (Ht : fit D d target) by (apply (fit_child D d _ _ Hf); subst; left).
  assert (Hargs : forall arg, arg ∈ args -> fit D d arg) by (apply (fit_args expr args Hf); subst; intros; by right).
  assert (Htype : forall type, type ∈ own_types target -> type_depth type <= D) by (intros type; by apply fit_type with (d := d)).
  assert (Ho : forall supplied, written_owner_type target = Some supplied -> type_depth supplied <= D).
  { intros supplied Hs. apply Htype. destruct target; try done; cbn in Hs |- *; rewrite Hs; left. }
  pose proof (calm_call_of path expr target args Hf Ht Hargs Ho) as Hcall.
  destruct target; cbn [resolve_call]; try exact Hcall; try (clear Hcall; calm; fail).
  - apply calm_bind; [|calm]. by eapply calm_method_call.
  - assert (type_depth type_expr <= D) by (apply Htype; left). calm.
Qed.

(** *** Every expression *)

Lemma calm_field_init path type fields seen i init : fit D d init.2 ->
  calm D L (resolve_field_init ta sa na type_fuel expr_at path type fields seen i init).
Proof using Hexpr. intros Hf. destruct init as [name init]. cbn in Hf. calm. Qed.
Hint Resolve calm_field_init : calm.

Lemma calm_field_inits path type fields inits : Forall (fun init => fit D d init.2) inits -> forall seen ok i,
  calm D L (resolve_field_inits ta sa na type_fuel expr_at path type fields seen ok i inits).
Proof using Hexpr. induction 1 as [|init inits Hi _ IH]; intros seen ok i; cbn [resolve_field_inits]; calm. Qed.

Lemma calm_missing span fields : forall seen ok, calm D L (report_missing span fields seen ok).
Proof using Type. induction fields as [|field fields IH]; intros [|[] seen] ok; cbn [report_missing]; calm. Qed.
Hint Resolve calm_missing : calm.

Lemma calm_struct_lit path span type inits : type_depth type <= D -> (forall init, init ∈ inits -> fit D d init.2) ->
  calm D L (resolve_struct_lit ta sa na type_fuel depth res expr_at path span type inits).
Proof using Hexpr Hdepth.
  intros Ht Hi. assert (forall i init, init ∈ inits -> calm D L (expr_at (path ++ [i]) init.2 None)) by auto.
  assert (Forall (fun init => fit D d init.2) inits) as Hall by (by apply Forall_forall).
  pose proof (fun type fields => calm_field_inits path type fields inits Hall). calm.
Qed.
Hint Resolve calm_struct_lit : calm.

Lemma calm_array_lit path span elements expected : (forall element, element ∈ elements -> fit D d element) ->
  calm D L (resolve_array_lit ta sa na type_fuel expr_at path span elements expected).
Proof using Hexpr. calm. Qed.
Hint Resolve calm_array_lit : calm.

Lemma calm_qualified path span qualifier name owner : (forall type, owner = Some type -> type_depth type <= D) ->
  calm D L (resolve_qualified ta sa na type_fuel depth res path span qualifier name owner).
Proof using Hdepth. intros Ho. destruct owner as [owner|]; [specialize (Ho _ eq_refl)|]; calm. Qed.
Hint Resolve calm_qualified : calm.

Lemma calm_builtin path span name type : (forall type', type = Some type' -> type_depth type' <= D) ->
  calm D L (resolve_builtin ta sa na type_fuel depth res path span name type).
Proof using Hdepth.
  intros Ht. assert (forall base measured, type = Some (TYPE_EXPR_APPLY base [measured]) -> type_depth measured <= D).
  { intros base measured Hm. specialize (Ht _ Hm). cbn in Ht. unfold max_of in Ht. cbn in Ht. lia. }
  assert (calm D L (resolve_size_of ta sa na type_fuel depth res path span type)).
  { unfold resolve_size_of. destruct type as [[| | | |base [|measured []]]|]; try specialize (H _ _ eq_refl). all: calm. }
  calm.
Qed.
Hint Resolve calm_builtin : calm.

Lemma calm_expr_of path expr type : fit D (S d) expr -> calm D L (resolve_expr_of ta sa na type_fuel depth res expr_at path expr type).
Proof using Hexpr Hdepth.
  intros Hf. assert (Hc : forall child, child ∈ children expr -> fit D d child) by (intros child; by apply fit_child).
  assert (Ht : forall type, type ∈ own_types expr -> type_depth type <= D) by (intros t; by apply (fit_type D (S d))).
  unfold resolve_expr_of. apply calm_bind; [|calm]. destruct expr; cbn [resolve_expr_kind children own_types] in *;
    try (by eapply calm_call).
  all: try (apply calm_struct_lit; [apply Ht; left|intros init Hi; apply Hc; by apply list_elem_of_fmap_2]).
  all: try (by apply calm_array_lit).
  all: try (first [apply calm_builtin|apply calm_qualified]; intros ? ->; apply Ht; left).
  all: try (assert (fit D d expr) by (apply Hc; left)).
  all: try (assert (fit D d expr1 /\ fit D d expr2) as [? ?] by (split; apply Hc; [left|right; left])).
  all: calm.
Qed.
End below.

Lemma calm_exprs fuel : forall path expr type, fit D fuel expr -> calm D L (exprs_at ta sa na type_fuel depth res fuel path expr type).
Proof using Hdepth.
  induction fuel as [|fuel IH]; intros path expr type Hf; cbn [exprs_at]; [|by apply calm_expr_of with (d := fuel)].
  destruct Hf as [Hf _]. destruct expr; cbn in Hf; lia.
Qed.

Lemma calm_resolve_expr fuel path expr type : (forall e, expr = Some e -> fit D fuel e) ->
  calm D L (resolve_expr ta sa na type_fuel depth res fuel path expr type).
Proof using Hdepth. intros Hf. destruct expr as [e|]; [by apply calm_exprs, Hf|]. calm. Qed.
End expressions.

(** ** Statements *)

Definition func_types (decl : ASTFuncDecl ASTStmt) : list TypeExpr :=
  option_list (func_owner decl) ++ option_list (func_return_type decl) ++ (field_type_expr <$> func_params decl) ++ omap snd (func_type_params decl).

(** What a statement writes itself, and the statements below it. *)
Definition stmt_own_types (stmt : ASTStmt) : list TypeExpr :=
  match stmt with
  | STMT_VAR_DECL _ _ type _ => option_list type
  | STMT_FUNC_DECL _ decl => func_types decl
  | STMT_STRUCT_DECL _ _ fields _ _ => field_type_expr <$> fields
  | STMT_IMPL _ type _ _ args _ => type :: args
  | _ => []
  end.

Definition stmt_own_exprs (stmt : ASTStmt) : list ASTExpr :=
  match stmt with
  | STMT_EXPR _ value => [value]
  | STMT_VAR_DECL _ _ _ init => option_list init
  | STMT_ASSIGN _ target value | STMT_COMPOUND_ASSIGN _ target value _ => [target; value]
  | STMT_IF _ condition _ _ => [condition]
  | STMT_FOR _ _ condition _ _ => option_list condition
  | STMT_RETURN _ result => [result]
  | _ => []
  end.

Definition stmt_children (stmt : ASTStmt) : list ASTStmt :=
  match stmt with
  | STMT_FUNC_DECL _ decl => option_list (func_body decl)
  | STMT_IMPL _ _ members _ _ _ | STMT_INTERFACE_DECL _ _ members _ => members
  | STMT_BLOCK _ list => list
  | STMT_IF _ _ then_block else_block => then_block :: option_list else_block
  | STMT_FOR _ init _ post body => option_list init ++ option_list post ++ [body]
  | _ => []
  end.

(** A number of every statement, put together over the statements below. *)
Section measured.
Context (own : ASTStmt -> nat -> nat) (add : nat -> nat -> nat).

Fixpoint stmt_measure (stmt : ASTStmt) : nat :=
  own stmt
  match stmt with
  | STMT_FUNC_DECL _ decl => match func_body decl with Some body => add (stmt_measure body) 0 | None => 0 end
  | STMT_IMPL _ _ members _ _ _ | STMT_INTERFACE_DECL _ _ members _ => foldr (fun s n => add (stmt_measure s) n) 0 members
  | STMT_BLOCK _ list => foldr (fun s n => add (stmt_measure s) n) 0 list
  | STMT_IF _ _ then_block else_block => add (stmt_measure then_block) (match else_block with Some s => add (stmt_measure s) 0 | None => 0 end)
  | STMT_FOR _ init _ post body =>
      let rest := match post with Some s => add (stmt_measure s) (add (stmt_measure body) 0) | None => add (stmt_measure body) 0 end in
      match init with Some s => add (stmt_measure s) rest | None => rest end
  | _ => 0
  end.

Lemma stmt_measure_children stmt : stmt_measure stmt = own stmt (foldr (fun s n => add (stmt_measure s) n) 0 (stmt_children stmt)).
Proof using Type. destruct stmt; cbn; try done; [by destruct (func_body decl)|by destruct else_block|by destruct init, post]. Qed.
End measured.

Definition stmt_depth : ASTStmt -> nat := stmt_measure (fun _ => S) Nat.max.
Definition stmt_types : ASTStmt -> nat :=
  stmt_measure (fun stmt n => Nat.max (Nat.max (max_of type_depth (stmt_own_types stmt)) (max_of expr_types (stmt_own_exprs stmt))) n) Nat.max.
Definition stmt_exprs : ASTStmt -> nat := stmt_measure (fun stmt n => Nat.max (max_of expr_depth (stmt_own_exprs stmt)) n) Nat.max.
Definition structs_in : ASTStmt -> nat :=
  stmt_measure (fun stmt n => match stmt with STMT_STRUCT_DECL _ _ _ _ _ => S n | _ => n end) Nat.add.

Definition stmt_fit (D E d : nat) (stmt : ASTStmt) : Prop := stmt_depth stmt <= d /\ stmt_types stmt <= D /\ stmt_exprs stmt <= E.

Lemma fit_stmt_type D E d stmt type : stmt_fit D E d stmt -> type ∈ stmt_own_types stmt -> type_depth type <= D.
Proof. intros (_ & Ht & _) Hin. unfold stmt_types in Ht. rewrite stmt_measure_children in Ht. pose proof (max_of_elem type_depth _ _ Hin). lia. Qed.

Lemma fit_stmt_expr D E d stmt expr : stmt_fit D E d stmt -> expr ∈ stmt_own_exprs stmt -> fit D E expr.
Proof.
  intros (_ & Ht & He) Hin. unfold stmt_types in Ht. unfold stmt_exprs in He. rewrite stmt_measure_children in Ht, He.
  pose proof (max_of_elem expr_types _ _ Hin). pose proof (max_of_elem expr_depth _ _ Hin). split; lia.
Qed.

Lemma fit_stmt_child D E d stmt child : stmt_fit D E (S d) stmt -> child ∈ stmt_children stmt -> stmt_fit D E d child.
Proof.
  intros (Hd & Ht & He) Hin. unfold stmt_depth in Hd. unfold stmt_types in Ht. unfold stmt_exprs in He. rewrite stmt_measure_children in Hd, Ht, He.
  pose proof (max_of_elem stmt_depth _ _ Hin) as H1. pose proof (max_of_elem stmt_types _ _ Hin) as H2. pose proof (max_of_elem stmt_exprs _ _ Hin) as H3.
  unfold stmt_fit. unfold stmt_depth, stmt_types, stmt_exprs, max_of in *. cbv beta in *. split; [lia|split; lia].
Qed.

Lemma structs_in_children stmt : structs_in stmt = (match stmt with STMT_STRUCT_DECL _ _ _ _ _ => 1 | _ => 0 end) + sum_of structs_in (stmt_children stmt).
Proof. unfold structs_in at 1. rewrite stmt_measure_children. unfold sum_of, structs_in. destruct stmt; cbn; lia. Qed.

(** A computation that declares at most [n] structs. *)
Definition adds (D L n : nat) {A} (m : Resolve A) : Prop := forall u, u + n <= L -> settles D u (u + n) m.

Lemma calm_adds D L n {A} (m : Resolve A) : calm D L m -> adds D L n m.
Proof. intros Hm u Hu. apply (calm_settles D L); [lia|lia|done]. Qed.

Lemma adds_calm D L {A} (m : Resolve A) : adds D L 0 m -> calm D L m.
Proof. intros Hm u Hu. specialize (Hm u ltac:(lia)). by rewrite Nat.add_0_r in Hm. Qed.

Lemma adds_mono D L n n' {A} (m : Resolve A) : n <= n' -> adds D L n m -> adds D L n' m.
Proof. intros Hn Hm u Hu. apply (settles_mono D u u (u + n)); [lia|lia|]. apply Hm. lia. Qed.

Lemma adds_bind D L a b {A B} (m : Resolve A) (k : A -> Resolve B) : adds D L a m -> (forall x, adds D L b (k x)) -> adds D L (a + b) (m ≫= k).
Proof.
  intros Hm Hk u Hu. apply (settles_bind D u (u + a)); [apply Hm; lia|]. intros x. rewrite Nat.add_assoc. apply Hk. lia.
Qed.

Lemma adds_before D L n {A B} (m : Resolve A) (k : A -> Resolve B) : calm D L m -> (forall x, adds D L n (k x)) -> adds D L n (m ≫= k).
Proof. intros Hm Hk. apply (adds_bind D L 0); [by apply calm_adds|done]. Qed.

Lemma adds_after D L n {A B} (m : Resolve A) (k : A -> Resolve B) : adds D L n m -> (forall x, calm D L (k x)) -> adds D L n (m ≫= k).
Proof. intros Hm Hk. rewrite <- (Nat.add_0_r n). apply adds_bind; [done|]. intros x. by apply calm_adds. Qed.

Lemma adds_restoring D L n {A} (m : Resolve A) : adds D L n m -> adds D L n (restoring_env m).
Proof. intros Hm u Hu. by apply settles_restoring, Hm. Qed.

Lemma adds_for_all D L {A} (size : A -> nat) (f : nat -> A -> Resolve unit) (l : list A) :
  (forall i a, a ∈ l -> adds D L (size a) (f i a)) -> adds D L (sum_of size l) (for_all f l).
Proof.
  intros Hf. unfold for_all. apply adds_after; [|calm]. generalize 0 as i. induction l as [|a l IH]; intros i; cbn [each_of].
  - by apply calm_adds, quiet_calm.
  - unfold sum_of; cbn [foldr]; fold (sum_of size l). apply adds_bind; [apply Hf; left|]. intros b. apply adds_after; [|calm].
    apply IH. intros j a' Ha. apply Hf. by right.
Qed.

(** *** Declarations *)

Ltac adding :=
  first
  [ assumption
  | apply adds_for_all; intros ? ? ?
  | apply adds_before; [solve [calm]|intro]
  | apply adds_after; [|solve [calm]]
  | apply adds_restoring
  | match goal with |- adds _ _ _ (match ?x with _ => _ end) => destruct x eqn:? end
  | solve [apply calm_adds; calm] ].

Section declare.
Context (ta sa : nat -> N) (na : NodePtr -> N) (ia : IdentPtr -> N) (type_fuel depth : nat) (res : Resolution) (D E L d : nat).
Context (stmt_at : NodePtr -> ASTStmt -> Resolve unit).
Context (Hdepth : types_need D L <= depth) (Hstmt : forall path stmt, stmt_fit D E d stmt -> adds D L (structs_in stmt) (stmt_at path stmt)).

Lemma calm_written_type expr span : (forall e, expr = Some e -> type_depth e <= D) -> calm D L (resolve_type_expr ta sa type_fuel res depth expr span).
Proof using Hdepth. intros He. destruct expr as [e|]; [apply calm_some_type; auto|]. by apply quiet_calm. Qed.
Hint Resolve calm_written_type : calm.

Lemma adds_struct path span name fields params intrinsic : max_of (fun f => type_depth (field_type_expr f)) fields <= D ->
  adds D L 1 (declare_struct sa na res path span name fields params intrinsic).
Proof using Hdepth.
  intros Hf. unfold declare_struct. cbv zeta. repeat (adding; cbv zeta). intros u _ s [Hl Hw]. split; cbn.
  - unfold undemanded in *. cbn. rewrite sum_of_app. unfold sum_of at 2. cbn. lia.
  - apply Forall_app. split; [done|]. by apply Forall_singleton.
Qed.

Lemma calm_param_type param generic : type_depth (field_type_expr param) <= D -> calm D L (resolve_param_type_in ta sa type_fuel depth res param generic).
Proof using Hdepth. intros Hd. assert (forall e, Some (field_type_expr param) = Some e -> type_depth e <= D) by (by intros ? [= <-]). calm. Qed.
Hint Resolve calm_param_type : calm.

Lemma calm_enter_owner owner bounds : (forall e, owner = Some e -> type_depth e <= D) -> calm D L (enter_owner_scope ta sa type_fuel depth res owner bounds).
Proof using Hdepth. intros Ho. destruct owner; calm. Qed.
Hint Resolve calm_enter_owner : calm.

Lemma calm_bound span bound : (forall e, bound = Some e -> type_depth e <= D) -> calm D L (resolve_bound ta sa type_fuel depth res span bound).
Proof using Hdepth.
  intros Hb. assert (Hargs : forall base args, bound = Some (TYPE_EXPR_APPLY base args) -> forall arg, arg ∈ args -> calm D L (resolve_type_expr ta sa type_fuel res depth (Some arg) span)).
  { intros base args Ha arg Hin. specialize (Hb _ Ha). cbn in Hb. pose proof (max_of_elem type_depth _ _ Hin). apply calm_written_type. intros ? [= <-]. unfold max_of in *. lia. }
  unfold resolve_bound. apply calm_bind; [calm|]. intros kind. destruct kind, bound as [[]|]; cbv zeta; calm.
  all: match goal with H : _ ∈ [] |- _ => by apply elem_of_nil in H | _ => by eapply Hargs end.
Qed.
Hint Resolve calm_bound : calm.

Lemma calm_param_bounds decl span : (forall type, type ∈ func_types decl -> type_depth type <= D) -> calm D L (enter_param_bounds ta sa type_fuel depth res decl span).
Proof using Hdepth.
  intros Ht. unfold enter_param_bounds. apply calm_bind; [|calm]. apply calm_each. intros i [param bound] Hin. apply calm_bound. cbn. intros e ->. apply Ht.
  unfold func_types. rewrite !elem_of_app. right; right; right. apply list_elem_of_omap. by exists (param, Some e).
Qed.
Hint Resolve calm_param_bounds : calm.

Definition decl_fit (decl : ASTFuncDecl ASTStmt) : Prop :=
  (forall type, type ∈ func_types decl -> type_depth type <= D) /\ (forall body, func_body decl = Some body -> stmt_fit D E d body).

Definition structs_of (decl : ASTFuncDecl ASTStmt) : nat := match func_body decl with Some body => structs_in body | None => 0 end.

Lemma decl_owner decl : decl_fit decl -> forall e, func_owner decl = Some e -> type_depth e <= D.
Proof using Type. intros [Ht _] e He. apply Ht. unfold func_types. rewrite !elem_of_app. left. rewrite He. left. Qed.
Lemma decl_return decl : decl_fit decl -> forall e, func_return_type decl = Some e -> type_depth e <= D.
Proof using Type. intros [Ht _] e He. apply Ht. unfold func_types. rewrite !elem_of_app. right; left. rewrite He. left. Qed.
Lemma decl_param decl : decl_fit decl -> forall param, param ∈ func_params decl -> type_depth (field_type_expr param) <= D.
Proof using Type. intros [Ht _] param Hp. apply Ht. unfold func_types. rewrite !elem_of_app. right; right; left. by apply list_elem_of_fmap_2. Qed.

Lemma adds_func_body path decl span : decl_fit decl -> adds D L (structs_of decl) (resolve_func_body sa na ia stmt_at path decl span).
Proof using Hstmt.
  intros [_ Hb]. unfold resolve_func_body, structs_of. repeat (first [adding|apply adds_before; [calm|intro]]).
  apply Hstmt. by apply Hb.
Qed.

Lemma calm_make decl owner ret bounds : decl_fit decl -> calm D L (make_func_decl ta sa type_fuel depth res decl owner ret bounds).
Proof using Hdepth. intros Hd. pose proof (decl_param decl Hd). calm. Qed.
Hint Resolve calm_make : calm.

Lemma calm_owner_takes declaring decl span owner : calm D L (owner_takes_function sa res declaring decl span owner).
Proof using Type. calm. Qed.
Hint Resolve calm_owner_takes : calm.

(** The body of a generic function is resolved where it is declared. *)
Definition structs_declared (decl : ASTFuncDecl ASTStmt) : nat := if Nat.ltb 0 (own_param_count decl) then structs_of decl else 0.

Lemma adds_owned_in_scope declaring path decl span : decl_fit decl ->
  adds D L (structs_declared decl) (declare_owned_in_scope ta sa na ia type_fuel depth res stmt_at declaring path decl span).
Proof using Hdepth Hstmt.
  intros Hd. pose proof (decl_owner decl Hd). pose proof (decl_return decl Hd). pose proof (proj1 Hd). pose proof (adds_func_body path decl span Hd).
  unfold declare_owned_in_scope, structs_declared, check_abstract_body. repeat adding.
Qed.

Lemma adds_owned path decl span : decl_fit decl -> adds D L (structs_declared decl) (declare_owned ta sa na ia type_fuel depth res stmt_at path decl span).
Proof using Hdepth Hstmt.
  intros Hd. pose proof (decl_owner decl Hd). pose proof (fun declaring => adds_owned_in_scope declaring path decl span Hd). unfold declare_owned. apply adds_restoring. repeat (adding; auto).
Qed.

Lemma adds_free_function path decl span : decl_fit decl ->
  adds D L (structs_declared decl) (declare_free_function ta sa na ia type_fuel depth res stmt_at path decl span).
Proof using Hdepth Hstmt.
  intros Hd. pose proof (decl_return decl Hd). pose proof (proj1 Hd). pose proof (adds_func_body path decl span Hd).
  unfold declare_free_function, structs_declared, check_abstract_body. cbv zeta. destruct (Nat.ltb 0 (own_param_count decl)); repeat adding.
Qed.

Lemma adds_func path decl span : decl_fit decl -> adds D L (structs_declared decl) (declare_func ta sa na ia type_fuel depth res stmt_at path decl span).
Proof using Hdepth Hstmt.
  intros Hd. pose proof (adds_owned path decl span Hd). pose proof (adds_free_function path decl span Hd). unfold declare_func. repeat adding.
Qed.

Lemma fit_decl span decl : stmt_fit D E (S d) (STMT_FUNC_DECL span decl) -> decl_fit decl.
Proof using Type.
  intros Hf. split; [intros type Ht; by eapply fit_stmt_type|]. intros body Hb. apply (fit_stmt_child D E d _ body Hf). cbn. rewrite Hb. left.
Qed.

Lemma fit_deeper stmt : stmt_fit D E d stmt -> stmt_fit D E (S d) stmt.
Proof using Type. intros (Hd & Ht & He). split; [by apply Nat.le_le_succ_r|done]. Qed.

(** *** Interfaces and what implements them *)

Lemma calm_interface_member interface count member : stmt_fit D E d member -> calm D L (interface_member ta sa type_fuel depth res interface count member).
Proof using Hdepth.
  intros Hm. destruct member; try (by apply quiet_calm). apply fit_deeper, fit_decl in Hm.
  pose proof (decl_return decl Hm). pose proof (decl_param decl Hm). calm.
Qed.
Hint Resolve calm_interface_member : calm.

Lemma calm_interface span name members params : stmt_fit D E (S d) (STMT_INTERFACE_DECL span name members params) ->
  calm D L (declare_interface ta sa type_fuel depth res span name members params).
Proof using Hdepth.
  intros Hs. assert (forall member, member ∈ members -> stmt_fit D E d member) by (intros member Hm; by apply (fit_stmt_child D E d _ _ Hs)). calm.
Qed.

Lemma calm_conforming_params span name interface p expected : forall given, calm D L (check_conforming_params span name interface p expected given).
Proof using Type. revert p. induction expected as [|e expected IH]; intros p [|g given]; cbn [check_conforming_params]; calm. Qed.
Hint Resolve calm_conforming_params : calm.

Lemma calm_conforming_method span members implementor interface name args i method :
  calm D L (check_conforming_method ta sa span members implementor interface name args i method).
Proof using Type. calm. Qed.
Hint Resolve calm_conforming_method : calm.

Lemma calm_interface_args span exprs : Forall (fun e => type_depth e <= D) exprs -> calm D L (interface_args ta sa type_fuel depth res span exprs).
Proof using Hdepth. induction 1 as [|expr exprs He _ IH]; cbn [interface_args]; [calm|]. pose proof (calm_some_type ta sa type_fuel depth res D L Hdepth expr span He). calm. Qed.

Lemma calm_conformance members named written implementor : Forall (fun e => type_depth e <= D) written ->
  calm D L (check_conformance ta sa type_fuel depth res members named written implementor).
Proof using Hdepth. intros Hw. pose proof (fun span => calm_interface_args span written Hw). calm. Qed.

(** *** [impl] blocks *)

Lemma adds_member declaring path i member : stmt_fit D E d member ->
  adds D L (structs_in member) (declare_member ta sa na ia type_fuel depth res stmt_at declaring path i member).
Proof using Hdepth Hstmt.
  intros Hm. destruct member; try (apply calm_adds; calm; fail). pose proof (fit_decl span decl (fit_deeper _ Hm)) as Hd.
  cbn [declare_member]. apply adds_after; [|calm]. eapply (adds_mono D L (structs_declared decl) _); [|by apply adds_owned_in_scope].
  rewrite structs_in_children. unfold structs_declared, structs_of, sum_of. cbn [stmt_children]. destruct (Nat.ltb 0 (own_param_count decl)), (func_body decl); cbn; clear; lia.
Qed.

Lemma adds_declare_impl path span type members interface_name written params :
  stmt_fit D E (S d) (STMT_IMPL span type members interface_name written params) ->
  adds D L (sum_of structs_in members) (declare_impl ta sa na ia type_fuel depth res stmt_at path span type members interface_name written params).
Proof using Hdepth Hstmt.
  intros Hs. assert (Hm : forall member, member ∈ members -> stmt_fit D E d member) by (intros member Hm; by apply (fit_stmt_child D E d _ _ Hs)).
  assert (Ht : forall t, t ∈ type :: written -> type_depth t <= D) by (intros t Ht; by apply (fit_stmt_type D E (S d) _ _ Hs)).
  assert (type_depth type <= D) by (apply Ht; left). assert (forall e, Some type = Some e -> type_depth e <= D) by (by intros ? [= <-]).
  assert (Forall (fun e => type_depth e <= D) written) as Hw by (apply Forall_forall; intros t Hin; apply Ht; by right).
  pose proof (fun named implementor => calm_conformance members named written implementor Hw).
  unfold declare_impl. repeat adding. apply adds_member. auto.
Qed.

Lemma adds_impl path span type members interface_name written params :
  stmt_fit D E (S d) (STMT_IMPL span type members interface_name written params) ->
  adds D L (sum_of structs_in members) (resolve_impl ta sa type_fuel depth res stmt_at path type members params).
Proof using Hdepth Hstmt.
  intros Hs. assert (Hm : forall member, member ∈ members -> stmt_fit D E d member) by (intros member Hm; by apply (fit_stmt_child D E d _ _ Hs)).
  assert (forall e, Some type = Some e -> type_depth e <= D).
  { intros ? [= <-]. apply (fit_stmt_type D E (S d) _ _ Hs). left. }
  unfold resolve_impl. repeat adding. apply Hstmt. auto.
Qed.
End declare.

(** *** Every statement *)

Section statements.
Context (ta sa : nat -> N) (na : NodePtr -> N) (ia : IdentPtr -> N) (type_fuel depth : nat) (res : Resolution) (D E L : nat).
Context (Hdepth : types_need D L <= depth) (HE : E <= depth).

Lemma calm_stmt_expr path expr type : (forall e, expr = Some e -> fit D E e) -> calm D L (resolve_expr ta sa na type_fuel depth res depth path expr type).
Proof using Hdepth HE. intros Hf. apply calm_resolve_expr; [done|]. intros e He. destruct (Hf e He) as [Hd Ht]. split; [lia|done]. Qed.
Lemma calm_some_expr path expr type : fit D E expr -> calm D L (resolve_expr ta sa na type_fuel depth res depth path (Some expr) type).
Proof using Hdepth HE. intros Hf. apply calm_stmt_expr. by intros ? [= <-]. Qed.
Hint Resolve calm_some_expr : calm.

Lemma calm_var_decl path span name type init : (forall t, type = Some t -> type_depth t <= D) -> (forall e, init = Some e -> fit D E e) ->
  calm D L (resolve_var_decl ta sa na ia type_fuel depth res path span name type init).
Proof using Hdepth HE.
  intros Ht He. pose proof (fun path expected => calm_stmt_expr path init expected He).
  pose proof (fun span => calm_written_type ta sa type_fuel depth res D L Hdepth type span Ht).
  assert (forall path span, calm D L (declared_type ta sa na type_fuel depth res path span type init)) by calm.
  assert (forall path e declared, calm D L (check_initializer ta sa na path e declared)) by calm. calm.
Qed.

Lemma calm_move_into path span target value type : calm D L (move_into ta sa na type_fuel path span target value type).
Proof using Type. calm. Qed.
Hint Resolve calm_move_into : calm.

Lemma calm_assign path span target value : fit D E target -> fit D E value -> calm D L (resolve_assign ta sa na type_fuel depth res path span target value).
Proof using Hdepth HE. calm. Qed.
Lemma calm_compound path span target value op : fit D E target -> fit D E value ->
  calm D L (resolve_compound_assign ta sa na type_fuel depth res path span target value op).
Proof using Hdepth HE. calm. Qed.
Lemma calm_condition path condition keyword : fit D E condition -> calm D L (resolve_condition ta sa na type_fuel depth res path condition keyword).
Proof using Hdepth HE. calm. Qed.
Lemma calm_return path span result : fit D E result -> calm D L (resolve_return ta sa na type_fuel depth res path span result).
Proof using Hdepth HE. calm. Qed.
Hint Resolve calm_assign calm_compound calm_condition calm_return : calm.

Section below.
Context (d : nat) (stmt_at : NodePtr -> ASTStmt -> Resolve unit).
Context (Hstmt : forall path stmt, stmt_fit D E d stmt -> adds D L (structs_in stmt) (stmt_at path stmt)).

Lemma adds_func_decl path span decl : decl_fit D E d decl ->
  adds D L (structs_of decl) (resolve_func_decl ta sa na ia type_fuel depth res stmt_at path span decl).
Proof using Hdepth Hstmt.
  intros Hd. pose proof (adds_func ta sa na ia type_fuel depth res D E L d stmt_at Hdepth Hstmt path decl span Hd) as Hf.
  pose proof (adds_func_body sa na ia D E L d stmt_at Hstmt path decl span Hd) as Hb.
  unfold resolve_func_decl, func_decl_is_generic, structs_declared in *. apply adds_before; [calm|]. intros declared.
  destruct (Nat.ltb 0 (own_param_count decl)) eqn:Hg; cbn [orb].
  - apply adds_after; [|calm]. destruct declared; [by apply calm_adds, quiet_calm|done].
  - apply adds_calm in Hf. apply adds_before; [destruct declared; [by apply quiet_calm|done]|]. intros _.
    destruct (func_body decl); [|by apply calm_adds, quiet_calm]. destruct (func_owner decl) as [[]|]; first [done|by apply calm_adds, quiet_calm].
Qed.

Lemma adds_struct_decl path span name fields params intrinsic : max_of (fun f => type_depth (field_type_expr f)) fields <= D ->
  adds D L 1 (resolve_struct_decl ta sa na type_fuel depth res path span name fields params intrinsic).
Proof using Hdepth HE.
  intros Hf. pose proof (adds_struct sa na depth res D L Hdepth path span name fields params intrinsic Hf) as Hs.
  assert (Hfields : forall decl, calm D L (resolve_struct_fields ta sa type_fuel res depth decl)).
  { apply (types_settle D ta sa type_fuel res L depth). unfold types_need in Hdepth. lia. }
  unfold resolve_struct_decl. apply adds_before; [calm|]. intros declared. destruct declared; [by apply calm_adds, quiet_calm|].
  apply adds_after; [exact Hs|calm].
Qed.

Lemma adds_block path list : (forall stmt, stmt ∈ list -> stmt_fit D E d stmt) -> adds D L (sum_of structs_in list)
  (restoring_env (resolver_enter_scope;; for_all (fun i stmt => stmt_at (path ++ [i]) stmt) list)).
Proof using Hstmt. intros Hl. repeat adding. auto. Qed.

Lemma adds_optional path stmt : (forall s, stmt = Some s -> stmt_fit D E d s) -> adds D L (sum_of structs_in (option_list stmt)) (optional_stmt stmt_at path stmt).
Proof using Hstmt.
  intros Hs. destruct stmt as [stmt|]; cbn [optional_stmt option_list]; [|by apply calm_adds, quiet_calm]. unfold sum_of. cbn. rewrite Nat.add_0_r. auto.
Qed.

Lemma adds_for path init condition post body :
  (forall s, s ∈ option_list init ++ option_list post ++ [body] -> stmt_fit D E d s) -> (forall e, condition = Some e -> fit D E e) ->
  adds D L (sum_of structs_in (option_list init ++ option_list post ++ [body])) (resolve_for ta sa na type_fuel depth res stmt_at path init condition post body).
Proof using Hdepth HE Hstmt.
  intros Hs Hc. unfold resolve_for. apply adds_restoring. apply adds_before; [calm|]. intros _.
  rewrite !sum_of_app. apply adds_bind.
  { apply adds_optional. intros s ->. apply Hs. left. }
  intros _. apply adds_before; [destruct condition; [specialize (Hc _ eq_refl)|]; calm|]. intros _. apply adds_before; [calm|]. intros _.
  rewrite Nat.add_comm. apply adds_bind.
  { unfold sum_of. cbn. rewrite Nat.add_0_r. apply Hstmt, Hs. rewrite !elem_of_app. right; right. left. }
  intros _. apply adds_optional. intros s ->. apply Hs. rewrite elem_of_app. right. left.
Qed.

Lemma adds_if path condition then_block else_block : fit D E condition -> (forall s, s ∈ then_block :: option_list else_block -> stmt_fit D E d s) ->
  adds D L (sum_of structs_in (then_block :: option_list else_block))
    (resolve_condition ta sa na type_fuel depth res (path ++ [0]) condition "if";; stmt_at (path ++ [1]) then_block;; optional_stmt stmt_at (path ++ [2]) else_block).
Proof using Hdepth HE Hstmt.
  intros Hc Hs. apply adds_before; [calm|]. intros _. unfold sum_of. cbn [foldr]. fold (sum_of structs_in (option_list else_block)). apply adds_bind.
  - apply Hstmt, Hs. left.
  - intros _. apply adds_optional. intros s ->. apply Hs. right. left.
Qed.

Lemma adds_stmt_of path stmt : stmt_fit D E (S d) stmt -> adds D L (structs_in stmt) (resolve_stmt_of ta sa na ia type_fuel depth res stmt_at path stmt).
Proof using Hdepth HE Hstmt.
  intros Hf. assert (Hc : forall child, child ∈ stmt_children stmt -> stmt_fit D E d child) by (intros c; by apply fit_stmt_child).
  assert (He : forall expr, expr ∈ stmt_own_exprs stmt -> fit D E expr) by (intros e; by apply fit_stmt_expr with (d := S d)).
  assert (Ht : forall type, type ∈ stmt_own_types stmt -> type_depth type <= D) by (intros t; by apply (fit_stmt_type D E (S d))).
  rewrite structs_in_children. destruct stmt; cbn [stmt_children stmt_own_exprs stmt_own_types resolve_stmt_of Nat.add] in *.
  - assert (fit D E value) by (apply He; left). apply calm_adds. calm.
  - apply calm_adds, calm_var_decl; intros ? ->; [apply Ht|apply He]; left.
  - eapply adds_mono; [|apply adds_func_decl, (fit_decl D E d span), Hf]. unfold structs_of, sum_of. destruct (func_body decl); cbn; clear; lia.
  - eapply adds_mono; [|apply adds_struct_decl]; [unfold sum_of; cbn; clear; lia|]. rewrite <- max_of_fmap. apply max_of_least. exact Ht.
  - by eapply adds_impl.
  - by apply calm_adds, quiet_calm.
  - assert (fit D E target /\ fit D E value) as [? ?] by (split; apply He; [left|right; left]). apply calm_adds. calm.
  - assert (fit D E target /\ fit D E value) as [? ?] by (split; apply He; [left|right; left]). apply calm_adds. calm.
  - by apply adds_block.
  - apply adds_if; [apply He; left|done].
  - apply adds_for; [done|]. intros e ->. apply He. left.
  - apply calm_adds. calm.
  - assert (fit D E result) by (apply He; left). apply calm_adds. calm.
Qed.
End below.

Lemma adds_stmts fuel : forall path stmt, stmt_fit D E fuel stmt -> adds D L (structs_in stmt) (stmts_at ta sa na ia type_fuel depth res fuel path stmt).
Proof using Hdepth HE.
  induction fuel as [|fuel IH]; intros path stmt Hf; cbn [stmts_at]; [|by apply adds_stmt_of with (d := fuel)].
  destruct Hf as [Hf _]. unfold stmt_depth in Hf. rewrite stmt_measure_children in Hf. lia.
Qed.
End statements.

(** ** A module *)

Definition statements_of (files : list ASTFile) : list ASTStmt := concat (file_statements <$> files).

(** How deep the calls go that resolve a module.  A struct that is declared in a
    body may be declared there by two passes, and one at the top by three. *)
Definition module_depth (module : ASTModule) : nat :=
  let statements := statements_of (module_files module) in
  Nat.max (types_need (max_of stmt_types statements) (3 * sum_of structs_in statements))
    (Nat.max (max_of stmt_exprs statements) (max_of stmt_depth statements)).

Section modules.
Context (ta sa : nat -> N) (na : NodePtr -> N) (ia : IdentPtr -> N) (type_fuel depth : nat) (resolver : Resolver) (res : Resolution) (D E L : nat).
Context (Hdepth : types_need D L <= depth) (HE : E <= depth).

Abbreviation stmt_at := (resolve_stmt ta sa na ia type_fuel depth res).

Lemma quiet_ret_unit : calm D L (mret tt).
Proof using Type. by apply quiet_calm. Qed.

Lemma adds_stmt path stmt : stmt_fit D E depth stmt -> adds D L (structs_in stmt) (stmt_at path stmt).
Proof using Hdepth HE. exact (adds_stmts ta sa na ia type_fuel depth res D E L Hdepth HE depth path stmt). Qed.

Lemma calm_collect module : calm D L (collect_files sa resolver res module).
Proof using Type. calm. Qed.

Lemma adds_each_statement f files : (forall path stmt, stmt ∈ statements_of (fs_file <$> files) -> adds D L (structs_in stmt) (f path stmt)) ->
  adds D L (sum_of structs_in (statements_of (fs_file <$> files))) (each_statement res f files).
Proof using Type.
  intros Hf. apply (adds_mono D L (sum_of (fun file => sum_of structs_in (file_statements (fs_file file))) files)).
  - clear. unfold statements_of. induction files as [|file files IH]; [done|]. cbn. rewrite sum_of_app. unfold sum_of at 1. cbn.
    fold (sum_of (fun file => sum_of structs_in (file_statements (fs_file file))) files). lia.
  - apply adds_for_all. intros k file Hk. apply adds_before; [calm|]. intros _. apply adds_for_all. intros i stmt Hi. apply Hf.
    unfold statements_of. apply list_elem_of_In, in_concat. exists (file_statements (fs_file file)).
    rewrite <- !list_elem_of_In. split; [|done]. by do 2 apply list_elem_of_fmap_2.
Qed.

Lemma adds_declare_type path stmt : stmt_fit D E depth stmt -> adds D L (structs_in stmt) (declare_type_of ta sa na type_fuel depth res path stmt).
Proof using Hdepth.
  intros Hf. pose proof (fit_deeper D E depth stmt Hf) as Hf'. destruct stmt; try (apply calm_adds, quiet_ret_unit); cbn [declare_type_of].
  - rewrite structs_in_children. apply adds_after; [|calm]. eapply adds_mono; [|apply (adds_struct sa na depth res D L Hdepth)]; [apply Nat.le_add_r|].
    rewrite <- max_of_fmap. apply max_of_least. intros t Ht. by apply (fit_stmt_type D E depth _ _ Hf).
  - apply calm_adds. by eapply calm_interface.
Qed.

Lemma adds_declare_function path stmt : stmt_fit D E depth stmt ->
  adds D L (structs_in stmt) (declare_function_of ta sa na ia type_fuel depth res path stmt).
Proof using Hdepth HE.
  intros Hf. pose proof (fit_deeper D E depth stmt Hf) as Hf'. rewrite structs_in_children. destruct stmt.
  all: try (apply calm_adds, quiet_ret_unit). 
  all: cbn [declare_function_of stmt_children Nat.add].
  - pose proof (adds_func ta sa na ia type_fuel depth res D E L depth stmt_at Hdepth adds_stmt path decl span (fit_decl D E depth span decl Hf')) as Hd.
    eapply adds_mono; [|exact Hd].
    unfold structs_declared, structs_of, sum_of. destruct (Nat.ltb 0 (own_param_count decl)), (func_body decl); cbn; clear; lia.
  - exact (adds_declare_impl ta sa na ia type_fuel depth res D E L depth stmt_at Hdepth adds_stmt path _ _ _ _ _ _ Hf').
Qed.

Lemma calm_type_bodies : calm D L (resolve_type_bodies ta sa type_fuel depth res).
Proof using Hdepth HE.
  assert (Hfields : forall decl, calm D L (resolve_struct_fields ta sa type_fuel res depth decl)).
  { apply (types_settle D ta sa type_fuel res L depth). unfold types_need in Hdepth. lia. }
  calm.
Qed.

Lemma adds_passes files : (forall stmt, stmt ∈ statements_of (fs_file <$> files) -> stmt_fit D E depth stmt) ->
  let n := sum_of structs_in (statements_of (fs_file <$> files)) in
  adds D L (n + (n + n))
    (declare_types ta sa na type_fuel depth res files;; resolve_type_bodies ta sa type_fuel depth res;;
     declare_functions ta sa na ia type_fuel depth res files;; resolve_bodies ta sa na ia type_fuel depth res files).
Proof using Hdepth HE.
  intros Hf n. apply adds_bind; [apply adds_each_statement; intros; apply adds_declare_type; auto|]. intros _.
  apply adds_before; [apply calm_type_bodies|]. intros _.
  apply adds_bind; [apply adds_each_statement; intros; apply adds_declare_function; auto|]. intros _.
  apply adds_each_statement. intros. apply adds_stmt. auto.
Qed.

(** The files collected are those of the module. *)
Lemma each_of_files files : forall i s s' scopes, each_of (fun _ => collect_file sa resolver res) i files s = Answered s' scopes -> fs_file <$> scopes = files.
Proof using Type.
  induction files as [|file files IH]; intros i s s' scopes; cbn [each_of]; [by intros [= _ <-]|].
  unfold mbind at 1, Resolve_bind at 1. destruct (collect_file sa resolver res file s) as [s1 scope| |] eqn:H1; [|done..].
  unfold mbind, Resolve_bind. destruct (each_of _ _ files s1) as [s2 rest| |] eqn:H2; [|done..]. intros [= _ <-].
  cbn. f_equal; [|by eapply IH]. revert H1. unfold collect_file, mbind, Resolve_bind.
  destruct (with_scopes _ s) as [s3 n| |]; [|done..]. destruct (each_of _ _ _ s3) as [s4 imported| |]; [|done..]. by intros [= _ <-].
Qed.
End modules.

Lemma module_fits module depth stmt : module_depth module <= depth -> stmt ∈ statements_of (module_files module) ->
  stmt_fit (max_of stmt_types (statements_of (module_files module))) (max_of stmt_exprs (statements_of (module_files module))) depth stmt.
Proof.
  unfold module_depth. cbv zeta. intros Hd Hin. pose proof (max_of_elem stmt_depth _ _ Hin). split; [lia|]. split; by apply max_of_elem.
Qed.

(** C8: The recursion of the resolver over the program is bounded.  Its functions
    call one another over types, expressions and statements, and from a type to
    the fields of the struct it names; with calls as deep as [module_depth], which
    is computed from the module alone, none of them is cut short, whatever the
    modules it imports, the answers of the registry and the addresses are.  The
    bound is on this recursion only: a question to the registry of types that has
    no answer (the size of a struct that holds itself at ever larger arguments), a
    failed assertion and a null pointer that is followed are [Refused], which this
    does not exclude. *)
Theorem resolver_recursion_is_bounded ta sa na ia type_fuel depth resolver shared module into intrinsics :
  module_depth module <= depth ->
  resolve_module ta sa na ia type_fuel depth resolver shared module into intrinsics <> TooDeep.
Proof.
  intros Hd. unfold resolve_module. destruct (start_state shared into) as [start|] eqn:Hstart; [|done].
  pose (statements := statements_of (module_files module)). pose (D := max_of stmt_types statements). pose (n := sum_of structs_in statements).
  assert (waits D 0 start) as Hw.
  { unfold start_state in Hstart. destruct facts_init; [|done]. cbn in Hstart. destruct map_init; [|done]. injection Hstart as <-.
    split; [|constructor]. unfold undemanded, sum_of. cbn. lia. }
  unfold resolve_passes, mbind, Resolve_bind at 1.
  destruct (collect_files _ _ _ _ start) as [s files| |] eqn:Hfiles; [| done |].
  2: { by pose proof (calm_collect sa resolver (MkResolution into (ident_name <$> module_name module) intrinsics (rv_heap resolver)) D 0 module 0 (le_n 0) start Hw) as Hc;
       rewrite Hfiles in Hc. }
  pose proof (calm_collect sa resolver (MkResolution into (ident_name <$> module_name module) intrinsics (rv_heap resolver)) D 0 module 0 (le_n 0) start Hw) as Hc.
  rewrite Hfiles in Hc. apply each_of_files in Hfiles.
  assert (Hp := adds_passes ta sa na ia type_fuel depth (MkResolution into (ident_name <$> module_name module) intrinsics (rv_heap resolver))
    D (max_of stmt_exprs statements) (3 * n)).
  specialize (Hp ltac:(unfold module_depth in Hd; unfold D, n, statements in *; lia) ltac:(unfold module_depth in Hd; unfold statements in *; lia) files).
  rewrite Hfiles in Hp. specialize (Hp (fun stmt => module_fits module depth stmt Hd) 0 ltac:(unfold n, statements; lia) s Hc).
  unfold mbind, Resolve_bind in Hp. unfold Resolve_bind. by destruct (match _ with Answered _ _ => _ | Refused => _ | TooDeep => _ end).
Qed.

Definition nested_source : string :=
  "module m; struct P<T> { first: T, next: array<Q, 2> } struct Q { of: &P<i32> } "
  ++ "impl P<T> { func get(self: &Self): &T { return self.first; } } "
  ++ "func twice<T>(x: T): i32 { struct R { a: i32 } let r = R { a: 1 }; return r.a; } "
  ++ "func main(): i32 { let a: array<i32, 2> = [1, 2]; for let i = 0; i < 2; i = i + 1 { if a[i] == 2 { return twice(a[i]); } } return 0; }".

(** It is resolved without an error. *)
Example nested_source_resolves : verdict (resolve_source 40 nested_source) = Some (true, []).
Proof. vm_compute. reflexivity. Qed.

(** With calls of a smaller depth it is cut short. *)
Example nested_source_too_deep : resolve_source 4 nested_source = Some TooDeep.
Proof. vm_compute. reflexivity. Qed.

Lemma resolver_recursion_is_bounded_witness :
  exists shared module into, read_source nested_source = Some (shared, module, into) /\ module_depth module = 40 /\
    resolve_module sample_addr sample_addr node_address ident_address 30 40 (MkResolver None None []) shared module into true <> TooDeep.
Proof.
  destruct (read_source nested_source) as [[[shared module] into]|] eqn:Hread; [|by vm_compute in Hread].
  exists shared, module, into. split; [done|].
  assert (Hd : (fun r => module_depth r.1.2) <$> read_source nested_source = Some 40) by (vm_compute; reflexivity).
  rewrite Hread in Hd. injection Hd as Hd. split; [done|]. apply resolver_recursion_is_bounded. by rewrite Hd.
Defined.
