(* ===== verification/ResolveLimits.v ===== *)
(** * ResolveLimits: where resolution does not do what it means to

    Modules whose resolution by [src/src/ast/resolve.c] crashes, or refuses what
    it means to take, or takes what it means to refuse, computed by the model. *)

From Stdlib Require Import String Ascii.
From S2P Require Import Ast Facts Parser.
From S2P Require Import Prelude Types Mir Decl Diagnostics Strings HashMap Registry RegistryTypes RegistryState Functions Scopes Instantiate Build Check TypeExprs Resolve Declare Resolver Sources.

Definition resolution_depth : nat := 40.
Definition resolving (text : string) : option (Answer bool) := resolve_source resolution_depth text.

(** ** Functions that were not declared *)

(** The body of a function that has no function is not entered: the null pointer
    is followed first. *)
Lemma body_without_function str_addr node_addr ident_addr stmt_at path decl span s :
  fact_function_of node_addr (rs_facts s) path = None ->
  resolve_func_body str_addr node_addr ident_addr stmt_at path decl span s = Refused.
Proof.
  intros Hf. unfold resolve_func_body, mbind, Resolve_bind. cbn [error_count current]. rewrite Hf. cbn [want]. reflexivity.
Qed.

(** A function that was not declared is dereferenced.  A declaration is
    reported and left out where its owner is unknown or its name is reserved; the
    pass over the bodies asks for its function all the same and follows the null
    pointer.  A block for a type there is not is reported, by two passes, when it
    is empty, and its method is taken when the type is there; with a method that
    has a body the compiler crashes, and with a function called [Self]. *)
Theorem undeclared_function_is_dereferenced :
  verdict (resolving "module m; impl Missing { } ") = Some (false, ["unknown type 'Missing'"; "unknown type 'Missing'"]) /\
  verdict (resolving "module m; struct Missing { a: i32 } impl Missing { func f() { } } ") = Some (true, []) /\
  resolving "module m; impl Missing { func f() { } } " = Some Refused /\
  resolving "module m; func Self() { } " = Some Refused.
Proof. repeat split; vm_compute; reflexivity. Qed.

(** ** Methods of one name *)

(** Two interfaces, each with a method, and two generic functions, each of which
    calls the method of its own bound. *)
Definition two_interfaces (first second : string) : string :=
  "module m; interface A { func " ++ first ++ "(self: &Self): i32; } interface B { func " ++ second ++ "(self: &Self): bool; } "
  ++ "func f<T: A>(x: T): i32 { return x." ++ first ++ "(); } func g<T: B>(x: T): bool { return x." ++ second ++ "(); }".

(** Methods of one name of two interfaces are one function.  The
    declaration of an interface's method is identified by its name alone, and
    the registry keeps one function for an identifier at the same arguments: a
    call through the bound [B] gets the signature of the method of [A], and a
    correct module is refused with an error about a type it does not mention
    there; with another name for the method the module is taken. *)
Theorem methods_of_one_name_are_one_function :
  verdict (resolving (two_interfaces "size" "size")) = Some (false, ["returns i32, but bool was declared"]) /\
  verdict (resolving (two_interfaces "size" "full")) = Some (true, []).
Proof. split; vm_compute; reflexivity. Qed.

(** ** What is reported, and what is not *)

(** The own type parameters of the methods of a block are bound in one scope, and
    the message names the parameter twice. *)
Example type_parameters_of_two_methods :
  verdict (resolving "module m; struct S { a: i32 } impl S { func f<U>(x: U): i32 { return 1; } func g<U>(x: U): i32 { return 2; } }") =
    Some (false, ["duplicate type parameter 'U' on 'U'"]).
Proof. vm_compute. reflexivity. Qed.

(** A generic function of no parameters, called on a value. *)
Example arguments_expected :
  verdict (resolving "module m; struct S { a: i32 } impl S { func mk<U>(): i32 { return 1; } } func main(s: S): i32 { return s.mk(); }") =
    Some (false, ["expected 18446744073709551615 argument(s), found 0"]).
Proof. vm_compute. reflexivity. Qed.

(** The argument of the type of a block is a type parameter whatever it is
    called, and the body of the method is not resolved. *)
Example block_for_one_type :
  verdict (resolving ("module m; struct H<T> { v: T } impl H<i32> { func get(self: &Self): i32 { return nonsense; } } "
    ++ "func main(): i32 { let h = H<i32> { v: 1 }; return h.get(); }")) = Some (true, []).
Proof. vm_compute. reflexivity. Qed.

(** A type where a value is meant, and a function that is not called where a
    condition is. *)
Example name_of_a_type_as_a_value : verdict (resolving "module m; func main(): i32 { let x = i32; return 1; }") = Some (true, []).
Proof. vm_compute. reflexivity. Qed.

Example name_of_a_function_as_a_condition :
  verdict (resolving "module m; func f() { } func main(): i32 { if f { } return 1; }") = Some (true, []).
Proof. vm_compute. reflexivity. Qed.

(** A function that is not called has no type, which the coercion to a slice
    dereferences. *)
Example name_of_a_function_as_a_slice :
  resolving "module m; func f() { } func main(): i32 { let x: &slice<i32> = f; return 1; }" = Some Refused.
Proof. vm_compute. reflexivity. Qed.
