(* ===== verification/ParserSteps.v ===== *)
(** * ParserSteps: what an action of the parser does

    Every parse function is shown at once to return, to move forward only, and
    to report when it returns [NULL].  [runs] is the triple of that proof: its
    first argument is the condition under which the action returns, and [later]
    what holds between the parser before and after.  Here the triple, the tactics
    that step through an action, and the triples of types and expressions. *)

From S2P Require Import Prelude Types Mir Diagnostics HashMap Strings Lexer LexerStream Registry Ast Parser.

(** ** Places in a source *)

(** Where a parser is: the position of its lexer and the type of its token. *)
Definition place (p : Parser) : nat * TokenType := (lx_pos (ps_lexer p), token_type (ps_current p)).

(** One token read; or the half of an [&&] that the first [&] left. *)
Inductive place_step (source : list ascii) : nat * TokenType -> nat * TokenType -> Prop :=
  | step_next pos type lx tok lx' :
      lx_source lx = source -> lx_pos lx = pos -> lexer_next lx = Some (tok, lx') ->
      place_step source (pos, type) (lx_pos lx', token_type tok)
  | step_split pos : place_step source (pos, TOKEN_AND) (pos, TOKEN_AMP).

(** The tokens at which a block makes no progress: a statement cannot start with
    one, and [parser_synchronize] stops at it. *)
Definition stalls (type : TokenType) : bool :=
  match type with TOKEN_EXTERN | TOKEN_CALLER | TOKEN_MODULE => true | _ => false end.

(** None of them is still to come. *)
Definition never_stalls (p : Parser) : Prop :=
  forall b, rtc (place_step (lx_source (ps_lexer p))) (place p) b -> stalls b.2 = false.

(** Tokens left, counting the text they are made of; an [&&] is two. *)
Definition measure (p : Parser) : nat :=
  match token_type (ps_current p) with
  | TOKEN_EOF => 0
  | TOKEN_AND => 16 * S (length (remaining (ps_lexer p))) + 8
  | _ => 16 * S (length (remaining (ps_lexer p)))
  end.

Record parser_ok (p : Parser) : Prop := {
  po_pool : pool_ok (lx_strings (ps_lexer p));
  po_token : token_ok (pool_heap (lx_strings (ps_lexer p))) (ps_current p);
  po_eof : token_type (ps_current p) = TOKEN_EOF -> lexer_peek (ps_lexer p) = NUL;
}.

(** What every action does to a parser. *)
Record later (p p' : Parser) : Prop := {
  lt_source : lx_source (ps_lexer p') = lx_source (ps_lexer p);
  lt_reach : rtc (place_step (lx_source (ps_lexer p))) (place p) (place p');
  lt_moves : place p' = place p \/ measure p' + 8 <= measure p;
  lt_heap : pool_heap (lx_strings (ps_lexer p)) `prefix_of` pool_heap (lx_strings (ps_lexer p'));
  lt_errors : errors_of p <= errors_of p';
  lt_ok : parser_ok p';
}.

Lemma measure_bounds p :
  token_type (ps_current p) <> TOKEN_EOF ->
  16 * S (length (remaining (ps_lexer p))) <= measure p <= 16 * S (length (remaining (ps_lexer p))) + 8.
Proof. unfold measure. destruct (token_type (ps_current p)); try done; lia. Qed.

Lemma place_measure p p' :
  lx_source (ps_lexer p') = lx_source (ps_lexer p) -> place p' = place p -> measure p' = measure p.
Proof. intros Hs [= Hp Ht]. unfold measure, remaining. by rewrite Hs, Hp, Ht. Qed.

Lemma lt_measure p p' : later p p' -> measure p' <= measure p.
Proof. intros H. destruct (lt_moves _ _ H) as [Hm|]; [|lia]. by rewrite (place_measure p p' (lt_source _ _ H) Hm). Qed.

Lemma later_refl p : parser_ok p -> later p p.
Proof. intros H. split; try done. by left. Qed.

Lemma later_trans p q r : later p q -> later q r -> later p r.
Proof.
  intros H1 H2. pose proof (lt_measure _ _ H1). pose proof (lt_measure _ _ H2). split.
  - rewrite (lt_source _ _ H2). apply (lt_source _ _ H1).
  - etrans; [apply (lt_reach _ _ H1)|]. rewrite <- (lt_source _ _ H1). apply (lt_reach _ _ H2).
  - destruct (lt_moves _ _ H1) as [Hp|]; [|right; lia]. destruct (lt_moves _ _ H2) as [Hq|]; [|right; lia]. left. congruence.
  - etrans; [apply (lt_heap _ _ H1)|apply (lt_heap _ _ H2)].
  - pose proof (lt_errors _ _ H1). pose proof (lt_errors _ _ H2). lia.
  - apply (lt_ok _ _ H2).
Qed.

Lemma never_stalls_later p p' : later p p' -> never_stalls p -> never_stalls p'.
Proof.
  intros H Hn b Hb. apply Hn. etrans; [apply (lt_reach _ _ H)|]. by rewrite <- (lt_source _ _ H).
Qed.

Lemma never_stalls_here p : never_stalls p -> stalls (token_type (ps_current p)) = false.
Proof. intros Hn. by apply (Hn (place p)). Qed.

(** ** The triple *)

Definition runs {A} (T : Prop) (m : Action A) (p : Parser) (Q : A -> Parser -> Prop) : Prop :=
  match m p with Some (a, p') => later p p' /\ Q a p' | None => ~ T end.

Lemma runs_done {A} T (a : A) p (Q : A -> Parser -> Prop) : parser_ok p -> Q a p -> runs T (done a) p Q.
Proof. intros Hok HQ. split; [by apply later_refl|done]. Qed.

Lemma runs_weaken {A} (T T' : Prop) (m : Action A) p (Q Q' : A -> Parser -> Prop) :
  runs T' m p Q' -> (T -> T') -> (forall a p', later p p' -> Q' a p' -> Q a p') -> runs T m p Q.
Proof. unfold runs. intros H HT HQ. destruct (m p) as [[a p']|]; [|tauto]. destruct H. split; [done|]. by apply HQ. Qed.

Lemma runs_answer {A} T (m : Action A) p Q : runs T m p Q -> runs T m p (fun a q => Q a q /\ m p = Some (a, q)).
Proof. unfold runs. destruct (m p) as [[a q]|]; [|done]. by intros [? ?]. Qed.

Lemma runs_andthen {A B} (T T' : Prop) (m : Action A) (f : A -> Action B) p Q' Q :
  runs T' m p Q' -> (T -> T') -> (forall a p', later p p' -> Q' a p' -> runs T (f a) p' Q) -> runs T (andthen m f) p Q.
Proof.
  unfold runs, andthen. intros H HT Hf. destruct (m p) as [[a p1]|]; cbn [mbind option_bind]; [|tauto].
  destruct H as [Hl HQ]. specialize (Hf a p1 Hl HQ). destruct (f a p1) as [[b p2]|]; [|done].
  destruct Hf. split; [by eapply later_trans|done].
Qed.

Lemma runs_after_done {A B} T (a : A) (f : A -> Action B) p Q : runs T (f a) p Q -> runs T (andthen (done a) f) p Q.
Proof. done. Qed.

Lemma runs_orfail {A B} (T T' : Prop) (m : Action (option A)) (f : A -> Action (option B)) p Q' Q :
  runs T' m p Q' -> (T -> T') -> (forall a p', later p p' -> Q' (Some a) p' -> runs T (f a) p' Q) ->
  (forall p', later p p' -> Q' None p' -> Q None p') -> runs T (orfail m f) p Q.
Proof.
  intros H HT Hf Hn. eapply runs_andthen; [done|done|]. intros [a|] p' Hl HQ; [by apply Hf|].
  apply runs_done; [apply (lt_ok _ _ Hl)|by apply Hn].
Qed.

Lemma runs_require {B} (T T' : Prop) (m : Action bool) (k : Action (option B)) p Q' Q :
  runs T' m p Q' -> (T -> T') -> (forall p', later p p' -> Q' true p' -> runs T k p' Q) ->
  (forall p', later p p' -> Q' false p' -> Q None p') -> runs T (require m k) p Q.
Proof.
  intros H HT Hf Hn. eapply runs_andthen; [done|done|]. intros [] p' Hl HQ; [by apply Hf|].
  apply runs_done; [apply (lt_ok _ _ Hl)|by apply Hn].
Qed.

Lemma runs_no_result {A} (T : Prop) p (Q : A -> Parser -> Prop) : ~ T -> runs T no_result p Q.
Proof. done. Qed.

(** ** The steps *)

(** Actions that only look. *)
Lemma runs_looks {A} T (m : Action A) a p :
  parser_ok p -> m p = Some (a, p) -> runs T m p (fun b q => q = p /\ b = a).
Proof. intros Hok Hm. unfold runs. rewrite Hm. split; [by apply later_refl|done]. Qed.

Lemma runs_next p :
  parser_ok p -> runs True parser_next_token p (fun _ q => token_type (ps_current p) <> TOKEN_EOF -> measure q + 8 <= measure p).
Proof.
  intros Hok. destruct (lexer_next_step (ps_lexer p) (po_pool _ Hok)) as
    (tok & lx' & Hn & Hsrc & Hpool & Hheap & Herr & Htok & Heof & Hlen).
  unfold runs, parser_next_token. rewrite Hn. cbn [mbind option_bind].
  assert (Hm : token_type (ps_current p) <> TOKEN_EOF -> measure (MkParser lx' tok) + 8 <= measure p).
  { intros Hne%measure_bounds. destruct (decide (token_type tok = TOKEN_EOF)) as [He|Ht].
    - unfold measure at 1. cbn [ps_current]. rewrite He. lia.
    - specialize (Hlen Ht). pose proof (measure_bounds (MkParser lx' tok) Ht) as Hb. cbn [ps_lexer] in Hb. lia. }
  split; [|done]. split; cbn [ps_current ps_lexer]; try done.
  - apply rtc_once. by apply (step_next _ _ _ (ps_lexer p)).
  - destruct (decide (token_type (ps_current p) = TOKEN_EOF)) as [He|Hne]; [|right; specialize (Hm Hne); lia].
    left. unfold place. cbn [ps_current ps_lexer].
    destruct (lexer_next_at_nul _ _ _ (po_eof _ Hok He) Hn) as [-> [_ ->]]. by rewrite He.
Qed.

Lemma runs_diag T kind span message p :
  parser_ok p -> runs T (parser_diag kind span message) p (fun _ q => place q = place p /\ errors_of p < errors_of q).
Proof.
  intros [H1 H2 H3]. unfold runs, parser_diag, with_lexer.
  assert (He : errors_of p < errors_of (MkParser (report (ps_lexer p) kind span message) (ps_current p))).
  { unfold errors_of. cbn [ps_lexer]. rewrite diag_report_count. lia. }
  split; [|done]. split; try done; [by left|lia].
Qed.

Lemma runs_error T message p :
  parser_ok p -> runs T (parser_error message) p (fun _ q => place q = place p /\ errors_of p < errors_of q).
Proof. intros Hok. exact (runs_diag T _ _ _ p Hok). Qed.

Lemma runs_error_found T message p :
  parser_ok p -> runs T (parser_error_found message) p (fun _ q => place q = place p /\ errors_of p < errors_of q).
Proof. intros Hok. exact (runs_diag T _ _ _ p Hok). Qed.

Lemma runs_expect T type message p :
  parser_ok p ->
  runs T (parser_expect type message) p
    (fun b q => if b : bool then q = p /\ token_type (ps_current p) = type
                else errors_of p < errors_of q /\ token_type (ps_current p) <> type).
Proof.
  intros Hok. unfold parser_expect. eapply runs_andthen; [by apply runs_looks|done|]. intros b q Hl [-> ->].
  case_bool_decide; [by apply runs_done|].
  eapply runs_andthen; [by apply runs_looks|done|]. intros ? ? _ [-> ->].
  eapply runs_andthen; [by apply runs_looks|done|]. intros ? ? _ [-> ->].
  eapply runs_andthen; [by apply runs_diag|done|]. intros ? p2 Hl2 [_ He]. apply runs_done; [apply (lt_ok _ _ Hl2)|done].
Qed.

Lemma runs_make_ident span name p :
  parser_ok p ->
  runs True (make_ident span name) p (fun id q =>
    place q = place p /\ errors_of q = errors_of p /\ ps_current q = ps_current p /\
    pool_heap (lx_strings (ps_lexer q)) !! ident_name id = Some name).
Proof.
  intros [H1 H2 H3]. unfold runs, make_ident, ast_ident_create.
  destruct (string_from_ref_ok (lx_strings (ps_lexer p)) name H1) as (pool & string & -> & Hpool & Hs & Hpre).
  cbn [mbind option_bind]. split; [|done]. split; try done; [by left|]. split; try done. by eapply token_ok_mono.
Qed.

Lemma runs_current_ident p :
  parser_ok p -> runs True current_ident p (fun _ q => place q = place p /\ errors_of q = errors_of p).
Proof.
  intros Hok. unfold current_ident. do 2 (eapply runs_andthen; [by apply runs_looks|done|]; intros ? ? _ [-> ->]).
  eapply runs_weaken; [by apply runs_make_ident|done|]. by intros ? q _ (? & ? & _).
Qed.

Lemma runs_set_amp T p :
  parser_ok p -> token_type (ps_current p) = TOKEN_AND -> runs T (set_type TOKEN_AMP) p (fun _ q => measure q + 8 <= measure p).
Proof.
  intros [H1 H2 H3] Ht. unfold runs, set_type.
  assert (Hm : forall q, ps_lexer q = ps_lexer p -> token_type (ps_current q) = TOKEN_AMP -> measure q + 8 <= measure p).
  { intros q Hq Hqt. unfold measure. rewrite Hq, Hqt, Ht. lia. }
  split; [|by apply Hm]. split; try done.
  - apply rtc_once. unfold place. rewrite Ht. constructor.
  - right. set (q := MkParser _ _). specialize (Hm q eq_refl eq_refl). lia.
Qed.

Lemma runs_lookahead {A} T (m : Action A) p (Q : A -> Parser -> Prop) :
  parser_ok p -> runs T m p Q -> runs T (lookahead m) p (fun _ q => place q = place p /\ ps_current q = ps_current p).
Proof.
  unfold runs, lookahead. intros [H1 H2 H3] H. destruct (m p) as [[a q]|]; cbn [mbind option_bind]; [|done].
  destruct H as [Hl _]. split; [|done]. split; try done; [by left|apply (lt_heap _ _ Hl)|apply (lt_errors _ _ Hl)|].
  split; try done; [apply (lt_ok _ _ Hl)|]. eapply token_ok_mono; [apply (lt_heap _ _ Hl)|done].
Qed.

(** ** Stepping through an action *)

(** What a function returning a pointer promises of it: it read something, or reported. *)
Definition consumes {A} (p : Parser) (r : option A) (q : Parser) : Prop :=
  match r with Some _ => measure q + 8 <= measure p | None => errors_of p < errors_of q end.
(** It may have read nothing. *)
Definition reports_null {A} (p : Parser) (r : option A) (q : Parser) : Prop :=
  match r with Some _ => True | None => errors_of p < errors_of q end.

(** It read something, and [NULL] is reported. *)
Definition moves {A} (p : Parser) (r : option A) (q : Parser) : Prop :=
  measure q + 8 <= measure p /\ match r with Some _ => True | None => errors_of p < errors_of q end.
(** It stands before the token that closes what it read. *)
Definition closes {A} (p : Parser) (type : TokenType) (r : option A) (q : Parser) : Prop :=
  match r with Some _ => token_type (ps_current q) = type | None => errors_of p < errors_of q end.

(** Facts of a step for [lia]. *)
Ltac moved Hl := pose proof (lt_ok _ _ Hl); pose proof (lt_measure _ _ Hl); pose proof (lt_errors _ _ Hl).

Ltac place_facts H :=
  match type of H with
  | place ?q = place ?p => pose proof (f_equal snd H : token_type (ps_current q) = token_type (ps_current p))
  end.

(** A token known not to be the last. *)
Ltac not_eof := solve [intros ?; congruence | congruence | done].

Ltac bounds := repeat apply conj; unfold consumes, reports_null, closes, moves in *; destruct_and?; repeat apply conj; try done; try (intros; lia).

(** Back along the steps taken. *)
Ltac still_never_stalls :=
  repeat lazymatch goal with
  | H : never_stalls ?q |- never_stalls ?q => exact H
  | H : later ?p ?q |- never_stalls ?q => apply (never_stalls_later p q H)
  end.

(** The condition of a call follows from that of its caller. *)
Ltac covered :=
  first [done | unfold consumes, reports_null, closes, moves in *; intros; destruct_and?; repeat apply conj; first [done | lia | still_never_stalls]].

Ltac step :=
  lazymatch goal with
  | |- runs _ (andthen (parser_next_token) _) _ _ =>
      eapply runs_andthen; [by apply runs_next|done|];
      let q := fresh "q" in let Hl := fresh "Hl" in let Hm := fresh "Hm" in
      intros ? q Hl Hm; cbv beta in Hm; moved Hl; try (specialize (Hm ltac:(not_eof)))
  | |- runs _ (andthen (the_type) _) _ _ => eapply runs_andthen; [by apply runs_looks|done|]; intros ? ? _ [-> ->]
  | |- runs _ (andthen (at_type _) _) _ _ => eapply runs_andthen; [by apply runs_looks|done|]; intros ? ? _ [-> ->]
  | |- runs _ (andthen (the_current) _) _ _ => eapply runs_andthen; [by apply runs_looks|done|]; intros ? ? _ [-> ->]
  | |- runs _ (andthen (parser_span) _) _ _ => eapply runs_andthen; [by apply runs_looks|done|]; intros ? ? _ [-> ->]
  | |- runs _ (andthen (the_lexer_pos) _) _ _ => eapply runs_andthen; [by apply runs_looks|done|]; intros ? ? _ [-> ->]
  | |- runs _ (andthen (parser_error _) _) _ _ =>
      eapply runs_andthen; [by apply runs_error|done|];
      let q := fresh "q" in let Hl := fresh "Hl" in let Hm := fresh "He" in
      let Hp := fresh "Hp" in intros ? q Hl [Hp Hm]; moved Hl; place_facts Hp
  | |- runs _ (andthen (parser_error_found _) _) _ _ =>
      eapply runs_andthen; [by apply runs_error_found|done|];
      let q := fresh "q" in let Hl := fresh "Hl" in let Hm := fresh "He" in
      let Hp := fresh "Hp" in intros ? q Hl [Hp Hm]; moved Hl; place_facts Hp
  | |- runs _ (andthen (parser_diag _ _ _) _) _ _ =>
      eapply runs_andthen; [by apply runs_diag|done|];
      let q := fresh "q" in let Hl := fresh "Hl" in let Hm := fresh "He" in
      let Hp := fresh "Hp" in intros ? q Hl [Hp Hm]; moved Hl; place_facts Hp
  | |- runs _ (andthen (make_ident _ _) _) _ _ =>
      eapply runs_andthen; [by apply runs_make_ident|done|];
      let q := fresh "q" in let Hl := fresh "Hl" in let Hp := fresh "Hp" in
      intros ? q Hl (Hp & ? & _ & _); moved Hl; place_facts Hp
  | |- runs _ (andthen (current_ident) _) _ _ =>
      eapply runs_andthen; [by apply runs_current_ident|done|];
      let q := fresh "q" in let Hl := fresh "Hl" in let Hp := fresh "Hp" in
      intros ? q Hl (Hp & ?); moved Hl; place_facts Hp
  | |- runs _ (require (parser_expect _ _) _) _ _ =>
      eapply runs_require; [by apply runs_expect|done| |];
      [ intros ? _ [-> ?]
      | let q := fresh "q" in let Hl := fresh "Hl" in let Hm := fresh "He" in intros q Hl Hm; cbv beta iota in Hm; moved Hl; bounds ]
  | |- runs _ (andthen (done _) _) _ _ => apply runs_after_done
  | |- runs _ (if negb (bool_decide _) && _ then _ else _) _ _ => case_bool_decide; cbn [negb andb]; cbv iota
  | |- runs _ (done _) _ _ => apply runs_done; [done|bounds]
  | |- runs _ (if bool_decide _ then _ else _) _ _ => case_bool_decide
  | |- runs _ (if decide _ then _ else _) _ _ => case_decide
  | |- runs _ (if negb (bool_decide _) then _ else _) _ _ => case_bool_decide; cbn [negb]
  end.
Ltac steps := repeat step.

(** A call whose triple is known. *)
Ltac call_to lem :=
  let q := fresh "q" in let Hl := fresh "Hl" in let Hc := fresh "Hc" in
  lazymatch goal with
  | |- runs _ (orfail _ _) _ _ =>
      eapply runs_orfail; [apply lem; first [assumption|not_eof|done]|covered|intros ? q Hl Hc; cbv beta in Hc; moved Hl|intros q Hl Hc; cbv beta in Hc; moved Hl; bounds]
  | |- runs _ (andthen _ _) _ _ => eapply runs_andthen; [apply lem; first [assumption|not_eof|done]|covered|intros ? q Hl Hc; cbv beta in Hc; moved Hl]
  | |- _ => eapply runs_weaken; [apply lem; first [assumption|not_eof|done]|covered|intros [?|] q Hl Hc; cbv beta in Hc; moved Hl; bounds]
  end.

(** An optional part: [let? x := if ... then ... else ...]. *)
Ltac part :=
  lazymatch goal with
  | |- runs ?T (orfail _ _) ?p _ =>
      let q := fresh "q" in let Hl := fresh "Hl" in let Hc := fresh "Hc" in
      eapply (runs_orfail T T _ _ p (reports_null p));
      [|done|intros ? q Hl Hc; cbv beta in Hc; moved Hl|intros q Hl Hc; cbv beta in Hc; moved Hl; bounds]
  end.

(** ** Types *)

Section types.
Context (nested : Action (option TypeExpr)) (N : nat).
Hypothesis (nested_runs : forall p, parser_ok p -> runs (measure p < N) nested p (consumes p)).

Lemma current_const_runs p :
  parser_ok p -> token_type (ps_current p) = TOKEN_INT -> runs True current_const p (consumes p).
Proof.
  intros Hok Ht. unfold current_const. step. pose proof (po_token _ Hok) as Hv. unfold token_ok in Hv. rewrite Ht in Hv.
  destruct Hv as [value ->]. steps.
Qed.

Lemma type_args_runs turns out p :
  parser_ok p -> runs (measure p < N /\ measure p < turns) (type_args nested turns out) p (consumes p).
Proof.
  revert out p. induction turns as [|turns IH]; intros out p Hok; [apply runs_no_result; lia|].
  cbn [type_args]. step.
  eapply (runs_orfail _ (measure p < N) _ _ p (consumes p)).
  { case_bool_decide; [|by apply nested_runs]. eapply runs_weaken; [by apply current_const_runs|done|done]. }
  { bounds. }
  { intros a q Hl Hc. moved Hl. cbn in Hc. step. step; [|steps]. step. call_to IH. }
  { intros q Hl Hc. done. }
Qed.

Lemma parse_type_args_runs fuel out p :
  parser_ok p -> token_type (ps_current p) <> TOKEN_EOF ->
  runs (measure p < N + 8 /\ measure p < fuel) (parse_type_args nested fuel out) p (consumes p).
Proof. intros Hok Ht. unfold parse_type_args. step. call_to type_args_runs. steps. Qed.

Lemma parse_apply_runs fuel base p :
  parser_ok p -> token_type (ps_current p) <> TOKEN_EOF ->
  runs (measure p < N + 8 /\ measure p < fuel) (parse_apply nested fuel base) p (consumes p).
Proof. intros Hok Ht. unfold parse_apply. call_to parse_type_args_runs. steps. Qed.

Lemma parse_indirect_runs p :
  parser_ok p -> token_type (ps_current p) <> TOKEN_EOF ->
  runs (measure p < N + 8) (parse_indirect nested) p (consumes p).
Proof.
  intros Hok Ht. unfold parse_indirect. step.
  eapply (runs_andthen _ True _ _ _ (fun _ q => measure q + 8 <= measure p)); [|done|].
  - case_decide; [by apply runs_set_amp|]. eapply runs_weaken; [by apply runs_next|done|]. intros ? q _ Hq. by apply Hq.
  - intros ? q Hl Hm. moved Hl. cbv beta in Hm. call_to nested_runs. steps.
Qed.

Lemma parse_named_type_runs fuel p :
  parser_ok p -> runs (measure p < N + 8 /\ measure p < fuel + 8) (parse_named_type nested fuel) p (consumes p).
Proof.
  intros Hok. unfold parse_named_type. steps. part.
  - step; [|steps]. steps; cbn [negb]; steps.
  - destruct a0 as [qualifier name]. steps. call_to parse_apply_runs.
Qed.
End types.

Lemma parse_type_expr_runs fuel p : parser_ok p -> runs (measure p < fuel) (parse_type_expr fuel) p (consumes p).
Proof.
  revert p. induction fuel as [|fuel IH]; intros p Hok; [apply runs_no_result; lia|]. cbn [parse_type_expr]. step.
  assert (Hi : token_type (ps_current p) <> TOKEN_EOF ->
    runs (measure p < S fuel) (parse_indirect (parse_type_expr fuel)) p (consumes p)).
  { intros Ht. eapply runs_weaken; [by apply (parse_indirect_runs _ fuel IH)|lia|done]. }
  do 3 (case_decide; [apply Hi; congruence|]). 
  eapply runs_weaken; [by apply (parse_named_type_runs _ fuel IH)| |done]. lia.
Qed.

(** ** Fields and type parameters *)

Lemma parse_field_runs fuel message p :
  parser_ok p -> runs (measure p < fuel) (parse_field fuel message) p (consumes p).
Proof. intros Hok. unfold parse_field. steps. call_to parse_type_expr_runs. steps. Qed.

Lemma type_params_runs fuel owner out p :
  parser_ok p -> runs (measure p < fuel) (type_params fuel owner out) p (consumes p).
Proof.
  revert out p. induction fuel as [|fuel IH]; intros out p Hok; [apply runs_no_result; lia|].
  cbn [type_params]. step. destruct (Nat.eqb _ _); [steps|]. steps. part.
  - steps. call_to parse_type_expr_runs. steps.
  - steps. call_to IH.
Qed.

Lemma parse_type_params_runs fuel owner p :
  parser_ok p -> runs (measure p < fuel) (parse_type_params fuel owner) p (reports_null p).
Proof.
  intros Hok. unfold parse_type_params. step. step; [|steps]. step. call_to type_params_runs. steps.
Qed.

(** ** Looking ahead *)

Lemma scan_type_args_runs fuel depth after p :
  parser_ok p -> runs (measure p < fuel) (scan_type_args fuel depth after) p (fun _ _ => True).
Proof.
  revert depth p. induction fuel as [|fuel IH]; intros depth p Hok; [apply runs_no_result; lia|].
  cbn [scan_type_args]. destruct depth as [|closed].
  { eapply runs_weaken; [by apply runs_looks|done|done]. }
  step. destruct (token_type (ps_current p)) eqn:Ht; try by apply runs_done.
  all: step; eapply runs_weaken; [by apply IH|lia|done].
Qed.

Lemma parser_scan_type_args_runs fuel after p :
  parser_ok p -> runs (measure p < fuel) (parser_scan_type_args fuel after) p (fun _ _ => True).
Proof.
  intros Hok. unfold parser_scan_type_args. step. eapply runs_weaken; [by apply scan_type_args_runs|lia|done].
Qed.

Lemma close_with_runs fuel after p :
  parser_ok p ->
  runs (measure p < fuel) (parser_type_args_close_with fuel after) p (fun _ q => place q = place p /\ ps_current q = ps_current p).
Proof. intros Hok. eapply runs_lookahead; [done|]. by apply parser_scan_type_args_runs. Qed.

Lemma star_precedes_a_cast_runs fuel p :
  parser_ok p ->
  runs (measure p < fuel) (parser_star_precedes_a_cast fuel) p (fun _ q => place q = place p /\ ps_current q = ps_current p).
Proof.
  intros Hok. eapply (runs_lookahead _ _ _ (fun _ _ => True)); [done|]. step. step. step; [|by apply runs_done].
  step. step. step.
  - eapply runs_weaken; [by apply parser_scan_type_args_runs|lia|done].
  - eapply runs_weaken; [by apply runs_looks|done|done].
Qed.

(** ** Expressions *)

Lemma get_precedence_op type : get_precedence type <> 0 -> exists op, parse_bin_op type = Some op.
Proof. destruct type; cbn; try done; by eexists. Qed.

Section expressions.
Context (nested : nat -> ExprContext -> Action (option ASTExpr)) (fuel : nat).
Hypothesis (nested_runs : forall min ctx p, parser_ok p -> runs (measure p + 2 < fuel) (nested min ctx) p (consumes p)).

Lemma parse_expression_runs ctx p :
  parser_ok p -> runs (measure p + 2 < fuel) (parse_expression nested ctx) p (consumes p).
Proof using All. apply nested_runs. Qed.

Lemma call_args_runs turns args p :
  parser_ok p ->
  runs (measure p + 2 < fuel /\ measure p < turns) (call_args nested turns args) p (closes p TOKEN_RPAREN).
Proof using All.
  revert args p. induction turns as [|turns IH]; intros args p Hok; [apply runs_no_result; lia|].
  cbn [call_args]. steps. call_to parse_expression_runs. steps; call_to IH.
Qed.

Lemma parse_call_args_runs p :
  parser_ok p -> token_type (ps_current p) <> TOKEN_EOF ->
  runs (measure p + 2 < fuel) (parse_call_args nested fuel) p (consumes p).
Proof using All. intros Hok Ht. unfold parse_call_args. step. call_to call_args_runs. steps. Qed.

(** Wherever it starts. *)
Lemma parse_call_args_reports p :
  parser_ok p -> runs (measure p + 2 < fuel) (parse_call_args nested fuel) p (reports_null p).
Proof using All. intros Hok. unfold parse_call_args. step. call_to call_args_runs. steps. Qed.

Lemma parse_type_args_for_runs name p :
  parser_ok p -> token_type (ps_current p) <> TOKEN_EOF ->
  runs (measure p + 2 < fuel) (parse_type_args_for fuel name) p (consumes p).
Proof using All.
  intros Hok Ht. unfold parse_type_args_for.
  eapply runs_weaken; [apply (parse_apply_runs _ fuel); [by intros; apply parse_type_expr_runs|done|done]|lia|done].
Qed.

Lemma parse_field_inits_runs turns out p :
  parser_ok p ->
  runs (measure p + 2 < fuel /\ measure p < turns) (parse_field_inits nested turns out) p (closes p TOKEN_RBRACE).
Proof using All.
  revert out p. induction turns as [|turns IH]; intros out p Hok; [apply runs_no_result; lia|].
  cbn [parse_field_inits]. steps. call_to parse_expression_runs. steps. call_to IH.
Qed.

Lemma parse_struct_lit_expr_runs target p :
  parser_ok p -> is_named target = true -> token_type (ps_current p) <> TOKEN_EOF ->
  runs (measure p + 2 < fuel) (parse_struct_lit_expr nested fuel target) p (consumes p).
Proof using All.
  intros Hok Hn Ht. unfold parse_struct_lit_expr.
  destruct (struct_lit_type_expr target) as [base|] eqn:Hb; [|by destruct target]. step. part.
  - step; [|steps].
    eapply runs_weaken; [apply (parse_apply_runs _ fuel); [by intros; apply parse_type_expr_runs|done|done]|lia|].
    by intros [] ? ? ?.
  - steps. call_to parse_field_inits_runs. steps.
Qed.

Lemma parse_method_call_expr_runs receiver name span p :
  parser_ok p -> token_type (ps_current p) <> TOKEN_EOF ->
  runs (measure p + 2 < fuel) (parse_method_call_expr nested fuel receiver name span) p (consumes p).
Proof using All. intros Hok Ht. unfold parse_method_call_expr. call_to parse_call_args_runs. steps. Qed.

Lemma parse_call_expr_runs target p :
  parser_ok p -> token_type (ps_current p) <> TOKEN_EOF ->
  runs (measure p + 2 < fuel) (parse_call_expr nested fuel target) p (consumes p).
Proof using All. intros Hok Ht. unfold parse_call_expr. call_to parse_call_args_runs. steps. Qed.

Lemma parse_field_expr_runs target p :
  parser_ok p -> token_type (ps_current p) <> TOKEN_EOF ->
  runs (measure p + 2 < fuel) (parse_field_expr nested fuel target) p (consumes p).
Proof using All. intros Hok Ht. unfold parse_field_expr. steps. call_to parse_method_call_expr_runs. Qed.

Lemma parse_index_expr_runs target p :
  parser_ok p -> token_type (ps_current p) <> TOKEN_EOF ->
  runs (measure p + 2 < fuel) (parse_index_expr nested target) p (consumes p).
Proof using All. intros Hok Ht. unfold parse_index_expr. steps. call_to parse_expression_runs. steps. Qed.

Lemma starts_struct_lit_runs expr ctx p :
  parser_ok p ->
  runs (measure p < fuel) (starts_struct_lit fuel expr ctx) p
    (fun b q => place q = place p /\ (b = true -> is_named expr = true)).
Proof using All.
  intros Hok. unfold starts_struct_lit. destruct (is_named expr); [|rewrite orb_true_r; by apply runs_done].
  case_bool_decide; [by apply runs_done|]. cbn [orb negb]. step. step; [by apply runs_done|].
  eapply runs_weaken; [by apply close_with_runs|done|]. by intros ? ? _ [? _].
Qed.

Lemma parse_postfix_runs turns expr ctx p :
  parser_ok p ->
  runs (measure p + 2 < fuel /\ measure p < turns) (parse_postfix nested fuel turns expr ctx) p (reports_null p).
Proof using All.
  revert expr p. induction turns as [|turns IH]; intros expr p Hok; [apply runs_no_result; lia|].
  cbn [parse_postfix]. step.
  assert (Hlit : token_type (ps_current p) <> TOKEN_EOF ->
    runs (measure p + 2 < fuel /\ measure p < S turns)
      (let! literal := starts_struct_lit fuel expr ctx in
       if literal : bool then let? expr := parse_struct_lit_expr nested fuel expr in parse_postfix nested fuel turns expr ctx
       else done (Some expr)) p (reports_null p)).
  { intros Ht. eapply runs_andthen; [by apply starts_struct_lit_runs|lia|]. intros b q Hl [Hp Hb]. moved Hl. place_facts Hp.
    destruct b; [|steps]. specialize (Hb eq_refl). call_to parse_struct_lit_expr_runs. call_to IH. }
  destruct (token_type (ps_current p)) eqn:Ht; try (by apply runs_done); try (by apply Hlit).
  - call_to parse_call_expr_runs. call_to IH.
  - call_to parse_index_expr_runs. call_to IH.
  - call_to parse_field_expr_runs. call_to IH.
Qed.

Lemma array_elements_runs turns elements p :
  parser_ok p ->
  runs (measure p + 2 < fuel /\ measure p < turns) (array_elements nested turns elements) p (reports_null p).
Proof using All.
  revert elements p. induction turns as [|turns IH]; intros elements p Hok; [apply runs_no_result; lia|].
  cbn [array_elements]. steps. call_to parse_expression_runs. steps. call_to IH.
Qed.

(** The head of a primary, whose token is read before anything nested: it is
    enough that the fuel covers what comes after it. *)
Abbreviation enough p := (measure p + 1 < fuel).

Lemma parse_array_lit_runs span p :
  parser_ok p -> token_type (ps_current p) <> TOKEN_EOF -> runs (enough p) (parse_array_lit nested fuel span) p (consumes p).
Proof using All. intros Hok Ht. unfold parse_array_lit. step. call_to array_elements_runs. steps. Qed.

Definition starts_literal (type : TokenType) : bool :=
  match type with TOKEN_INT | TOKEN_FLOAT | TOKEN_STRING | TOKEN_TRUE | TOKEN_FALSE => true | _ => false end.

Lemma parse_literal_runs span p :
  parser_ok p -> starts_literal (token_type (ps_current p)) = true ->
  runs (enough p) (parse_literal span) p (consumes p).
Proof using All.
  intros Hok Ht. unfold parse_literal. step. pose proof (po_token _ Hok) as Hv. unfold token_ok in Hv.
  assert (exists literal, token_literal (ps_current p) = Some literal) as [literal ->].
  { unfold token_literal. destruct (token_type (ps_current p)); try done; try (by eexists).
    - destruct Hv as [value ->]. by eexists.
    - destruct Hv as [value ->]. by eexists.
    - destruct Hv as (string & content & -> & _). by eexists. }
  assert (token_type (ps_current p) <> TOKEN_EOF) by (intros He; by rewrite He in Ht). steps.
Qed.

Lemma parse_builtin_runs span p :
  parser_ok p -> token_type (ps_current p) <> TOKEN_EOF -> runs (enough p) (parse_builtin fuel span) p (consumes p).
Proof using All.
  intros Hok Ht. unfold parse_builtin. steps. part; [|steps]. steps. call_to parse_type_args_for_runs. steps.
Qed.

Lemma parse_name_runs span p :
  parser_ok p -> token_type (ps_current p) <> TOKEN_EOF -> runs (enough p) (parse_name fuel span) p (consumes p).
Proof using All.
  intros Hok Ht. unfold parse_name. step. step. step.
  eapply (runs_andthen _ (measure q < fuel) _ _ _
    (fun b r => place r = place q /\ (b = true -> token_type (ps_current q) <> TOKEN_EOF))); [|lia|].
  { step; [|by apply runs_done].
    eapply runs_andthen; [by apply close_with_runs|done|]. intros b r Hl1 [Hp1 _]. moved Hl1.
    destruct b; [apply runs_done; [done|split; [done|congruence]]|].
    eapply runs_weaken; [by apply close_with_runs|lia|]. intros ? ? _ [? _]. split; congruence. }
  intros b r Hl1 [Hp1 Hb]. moved Hl1. place_facts Hp1. part.
  - destruct b; [|steps]. specialize (Hb eq_refl). steps.
    call_to parse_type_args_for_runs. steps.
  - steps.
Qed.

Lemma parse_parenthesized_runs p :
  parser_ok p -> token_type (ps_current p) <> TOKEN_EOF -> runs (enough p) (parse_parenthesized nested) p (consumes p).
Proof using All. intros Hok Ht. unfold parse_parenthesized. step. call_to parse_expression_runs. steps. Qed.

Lemma parse_primary_runs p : parser_ok p -> runs (enough p) (parse_primary nested fuel) p (consumes p).
Proof using All.
  intros Hok. unfold parse_primary. step. step.
  assert (Herr : runs (enough p) (parser_error_found "expected an expression" ;; done (@None ASTExpr)) p (consumes p)) by steps.
  destruct (token_type (ps_current p)) eqn:Ht; try exact Herr; clear Herr.
  all: lazymatch goal with
    | |- runs _ (parse_literal _) _ _ => apply parse_literal_runs
    | |- runs _ (parse_parenthesized _) _ _ => apply parse_parenthesized_runs
    | |- runs _ (parse_array_lit _ _ _) _ _ => apply parse_array_lit_runs
    | |- runs _ (parse_builtin _ _) _ _ => apply parse_builtin_runs
    | |- runs _ (parse_name _ _) _ _ => apply parse_name_runs
    end; [done|by rewrite Ht].
Qed.

Lemma parse_cast_runs span ctx p :
  parser_ok p -> runs (enough p) (parse_cast nested fuel span ctx) p (consumes p).
Proof using All.
  intros Hok. unfold parse_cast. call_to parse_type_expr_runs.
  call_to parse_call_args_reports. call_to parse_postfix_runs.
Qed.

Lemma parse_unary_runs depth ctx p :
  parser_ok p -> runs (enough p /\ measure p < depth) (parse_unary nested fuel depth ctx) p (consumes p).
Proof using All.
  revert p. induction depth as [|depth IH]; intros p Hok; [apply runs_no_result; lia|].
  cbn [parse_unary]. step. step.
  eapply (runs_andthen _ (measure p < fuel) _ _ _ (fun _ q => place q = place p /\ ps_current q = ps_current p)); [|lia|].
  { case_decide; [by apply star_precedes_a_cast_runs|by apply runs_done]. }
  intros cast q Hl [Hp Hc]. moved Hl. place_facts Hp. destruct cast; [call_to parse_cast_runs|].
  assert (Hprimary : runs (enough p /\ measure p < S depth)
    (let? primary := parse_primary nested fuel in parse_postfix nested fuel fuel primary ctx) q (consumes p)).
  { call_to parse_primary_runs. call_to parse_postfix_runs. }
  destruct (token_type (ps_current p)) eqn:Ht; try exact Hprimary; clear Hprimary; step; call_to IH; steps.
Qed.

Lemma binary_operators_runs turns min ctx lhs p :
  parser_ok p ->
  runs (measure p + 2 < fuel /\ measure p < turns) (binary_operators nested turns min ctx lhs) p (reports_null p).
Proof using All.
  revert lhs p. induction turns as [|turns IH]; intros lhs p Hok; [apply runs_no_result; lia|].
  cbn [binary_operators]. step.
  destruct (Nat.eqb_spec (get_precedence (token_type (ps_current p))) 0) as [H0|H0]; cbn [orb]; [steps|].
  destruct (Nat.ltb _ min); [steps|]. destruct (get_precedence_op _ H0) as [op ->].
  assert (token_type (ps_current p) <> TOKEN_EOF) by (intros He; by rewrite He in H0).
  step. call_to nested_runs. call_to IH.
Qed.
End expressions.

Lemma parse_precedence_runs fuel min ctx p :
  parser_ok p -> runs (measure p + 2 < fuel) (parse_precedence fuel min ctx) p (consumes p).
Proof.
  revert min ctx p. induction fuel as [|fuel IH]; intros min ctx p Hok; [apply runs_no_result; lia|].
  cbn [parse_precedence].
  eapply runs_orfail; [by apply (parse_unary_runs _ fuel IH fuel)|lia| |done].
  intros lhs q Hl Hc. moved Hl.
  eapply runs_weaken; [by apply (binary_operators_runs _ fuel IH fuel)|bounds|].
  intros [?|] r Hl2 Hc2; moved Hl2; bounds.
Qed.
