(* ===== verification/ParserTotal.v ===== *)
(** * ParserTotal: the parser ends, and reports what it does not read

    The triples of [ParserSteps] for the header of a file, for statements and
    declarations, and for whole files: termination, and that no [NULL] is
    silent.  At the end, where the parser does not do what it means to: a block
    that never ends, and texts accepted as something else. *)

From S2P Require Import Prelude Types Mir Diagnostics HashMap Strings Lexer LexerStream Registry Ast Parser ParserSteps.

(** ** The head of a file *)

Lemma module_path_runs fuel stop p :
  parser_ok p -> runs (measure p < fuel) (module_path fuel stop) p (fun _ _ => True).
Proof.
  revert stop p. induction fuel as [|fuel IH]; intros stop p Hok; [apply runs_no_result; lia|].
  cbn [module_path]. step. step; [|by apply runs_done]. step. step. step; [|by apply runs_done].
  eapply runs_andthen; [by apply runs_looks|done|]. intros ? ? _ [-> ->]. step.
  eapply runs_weaken; [by apply IH|lia|done].
Qed.

Lemma expect_and_eat_runs type message p :
  parser_ok p -> runs True (expect_and_eat type message) p (fun _ _ => True).
Proof.
  intros Hok. unfold expect_and_eat. eapply runs_andthen; [by apply runs_expect|done|]. intros [] q Hl Hq; moved Hl.
  - eapply runs_weaken; [by apply runs_next|done|done].
  - by apply runs_done.
Qed.

(** A directive that names nothing is reported. *)
Definition named_or_reported (p : Parser) (name : option ASTIdent) (q : Parser) : Prop :=
  is_Some name \/ errors_of p < errors_of q.

Lemma parse_module_directive_runs fuel file p :
  parser_ok p ->
  runs (measure p < fuel) (parse_module_directive fuel file) p
    (fun file' q => named_or_reported p (file_module_name file') q /\
       (token_type (ps_current p) <> TOKEN_EOF -> measure q + 8 <= measure p)).
Proof.
  intros Hok. unfold parse_module_directive. step.
  eapply runs_andthen; [by apply runs_next|done|]. intros ? q Hl Hm. moved Hl. cbv beta in Hm.
  eapply runs_andthen; [by apply runs_expect|done|]. intros b q1 Hl1 Hq1. moved Hl1.
  destruct b; cbn [negb].
  2:{ destruct Hq1 as [He _]. apply runs_done; [done|]. split; [right; lia|]. intros Ht. specialize (Hm Ht). lia. }
  destruct Hq1 as [-> Hq1]. step. do 2 (eapply runs_andthen; [by apply runs_looks|done|]; intros ? ? _ [-> ->]).
  eapply runs_andthen; [by apply runs_next|done|]. intros ? q2 Hl2 Hm2. moved Hl2. cbv beta in Hm2. specialize (Hm2 ltac:(congruence)).
  step. step.
  - eapply runs_andthen; [by apply module_path_runs|lia|]. intros ? q3 Hl3 _. moved Hl3.
    eapply runs_andthen; [by apply runs_looks|done|]. intros ? ? _ [-> ->]. step. apply runs_done; [done|].
    split; [right; lia|lia].
  - step. eapply runs_andthen; [by apply expect_and_eat_runs|done|]. intros ? q4 Hl4 _. moved Hl4.
    apply runs_done; [done|]. split; [left; by eexists|lia].
Qed.

Lemma parse_import_directive_runs file p :
  parser_ok p -> token_type (ps_current p) <> TOKEN_EOF ->
  runs True (parse_import_directive file) p
    (fun file' q => file_module_name file' = file_module_name file /\ measure q + 8 <= measure p).
Proof.
  intros Hok Ht. unfold parse_import_directive. step. step.
  eapply runs_andthen; [by apply runs_expect|done|]. intros b q1 Hl1 Hq1. moved Hl1.
  destruct b; cbn [negb]; [|apply runs_done; [done|bounds]].
  destruct Hq1 as [-> Hq1]. step. step. step. step; [steps|].
  step. eapply runs_andthen; [by apply expect_and_eat_runs|done|]. intros ? q4 Hl4 _. moved Hl4. steps.
Qed.

Lemma parse_imports_runs fuel file p :
  parser_ok p ->
  runs (measure p < fuel) (parse_imports fuel file) p (fun file' _ => file_module_name file' = file_module_name file).
Proof.
  revert file p. induction fuel as [|fuel IH]; intros file p Hok; [apply runs_no_result; lia|].
  cbn [parse_imports]. step. step; [|by apply runs_done].
  eapply runs_andthen; [apply parse_import_directive_runs; [done|congruence]|done|]. intros file' q Hl [Hf Hm]. moved Hl.
  eapply runs_weaken; [by apply IH|lia|]. intros ? ? _. congruence.
Qed.

(** The first token is read, and [module] is passed. *)
Definition header_read (p : Parser) (file : ASTFile) (q : Parser) : Prop :=
  named_or_reported p (file_module_name file) q /\
  exists p1, parser_next_token p = Some (tt, p1) /\ later p1 q /\
    (token_type (ps_current p1) = TOKEN_MODULE -> measure q + 8 <= measure p1).

Lemma parser_parse_header_runs fuel p :
  parser_ok p -> runs (measure p < fuel) (parser_parse_header fuel ast_file_create) p (header_read p).
Proof.
  intros Hok. unfold parser_parse_header.
  eapply runs_andthen; [by apply runs_answer, runs_next|done|]. intros [] p1 Hl1 [_ Hp1]. moved Hl1. step.
  eapply (runs_andthen _ (measure p1 < fuel) _ _ _ (fun file r => named_or_reported p1 (file_module_name file) r /\
    (token_type (ps_current p1) = TOKEN_MODULE -> measure r + 8 <= measure p1))); [|lia|].
  - step.
    + eapply runs_weaken; [by apply parse_module_directive_runs|done|]. intros ? ? _ [? Hm]. split; [done|].
      intros _. apply Hm. congruence.
    + step. step. apply runs_done; [done|]. split; [right; lia|done].
  - intros file r Hl2 [Hn Hm]. moved Hl2. eapply runs_weaken; [by apply parse_imports_runs|lia|].
    intros file' s Hl3 Hf. moved Hl3. split; [unfold named_or_reported; rewrite Hf; destruct Hn; [by left|right; lia]|].
    exists p1. split; [done|]. split; [by eapply later_trans|]. intros Ht. specialize (Hm Ht). lia.
Qed.

(** ** Recovery *)

Definition stops_recovery (type : TokenType) : bool :=
  match type with TOKEN_EOF | TOKEN_RBRACE => true | _ => starts_a_statement type end.

Lemma parser_synchronize_runs fuel p :
  parser_ok p ->
  runs (measure p < fuel) (parser_synchronize fuel) p
    (fun _ q => stops_recovery (token_type (ps_current p)) = true \/ measure q + 8 <= measure p).
Proof.
  revert p. induction fuel as [|fuel IH]; intros p Hok; [apply runs_no_result; lia|].
  cbn [parser_synchronize]. step.
  case_decide as He; [apply runs_done; [done|left; by rewrite He]|].
  case_decide as Hs; [eapply runs_weaken; [by apply runs_next|done|]; intros ? ? _ Hm; right; by apply Hm|].
  case_decide as Hb; [apply runs_done; [done|left; by rewrite Hb]|].
  destruct (starts_a_statement _) eqn:Hst.
  { apply runs_done; [done|]. left. unfold stops_recovery. by destruct (token_type (ps_current p)). }
  step. eapply runs_weaken; [by apply IH|lia|]. intros ? r Hl2 _. moved Hl2. right. lia.
Qed.

(** ** Statements without blocks *)

Lemma struct_fields_runs fuel fields p :
  parser_ok p -> runs (measure p + 1 < fuel) (struct_fields fuel fields) p (reports_null p).
Proof.
  revert fields p. induction fuel as [|fuel IH]; intros fields p Hok; [apply runs_no_result; lia|].
  cbn [struct_fields]. steps. call_to parse_field_runs. steps; call_to IH.
Qed.

Lemma parse_struct_decl_stmt_at_runs fuel intrinsic span p :
  parser_ok p -> token_type (ps_current p) <> TOKEN_EOF ->
  runs (measure p < fuel) (parse_struct_decl_stmt_at fuel intrinsic span) p (moves p).
Proof.
  intros Hok Ht. unfold parse_struct_decl_stmt_at. steps. call_to parse_type_params_runs. steps.
  call_to struct_fields_runs. steps.
Qed.

Lemma parse_struct_decl_stmt_runs fuel p :
  parser_ok p -> token_type (ps_current p) <> TOKEN_EOF ->
  runs (measure p < fuel) (parse_struct_decl_stmt fuel) p (moves p).
Proof. intros Hok Ht. unfold parse_struct_decl_stmt. step. by apply parse_struct_decl_stmt_at_runs. Qed.

Lemma terminated_runs stmt p : parser_ok p -> runs True (terminated stmt) p (reports_null p).
Proof. intros Hok. unfold terminated. destruct (negb _); steps. Qed.

Lemma parse_var_decl_stmt_runs fuel ctx p :
  parser_ok p -> token_type (ps_current p) <> TOKEN_EOF ->
  runs (measure p + 2 < fuel) (parse_var_decl_stmt fuel ctx) p (moves p).
Proof.
  intros Hok Ht. unfold parse_var_decl_stmt. steps. part.
  - steps. call_to parse_type_expr_runs. steps.
  - step. step; [case_match; steps|]. steps. unfold parse_expression. call_to parse_precedence_runs. steps.
Qed.

Lemma parse_expr_stmt_runs fuel ctx p :
  parser_ok p -> runs (measure p + 2 < fuel) (parse_expr_stmt fuel ctx) p (consumes p).
Proof.
  intros Hok. unfold parse_expr_stmt, parse_expression. step. call_to parse_precedence_runs. step.
  destruct (bool_decide _ && bool_decide _) eqn:Hop; [steps|]. destruct (negb (is_assignable a)); [steps|].
  assert (token_type (ps_current q) <> TOKEN_EOF) by (intros He; by rewrite He in Hop).
  step. call_to parse_precedence_runs. steps.
Qed.

Lemma parse_return_stmt_runs fuel p :
  parser_ok p -> token_type (ps_current p) <> TOKEN_EOF ->
  runs (measure p + 2 < fuel) (parse_return_stmt fuel) p (moves p).
Proof. intros Hok Ht. unfold parse_return_stmt, parse_expression. steps. call_to parse_precedence_runs. steps. Qed.

Lemma parse_jump_stmt_runs p :
  parser_ok p -> token_type (ps_current p) <> TOKEN_EOF -> runs True parse_jump_stmt p (moves p).
Proof. intros Hok Ht. unfold parse_jump_stmt. steps. Qed.

Lemma parse_for_clause_runs fuel terminator p :
  parser_ok p -> runs (measure p + 2 < fuel) (parse_for_clause fuel terminator) p (fun _ _ => True).
Proof.
  intros Hok. unfold parse_for_clause. step. step; [by apply runs_done|]. step.
  - eapply runs_weaken; [apply parse_var_decl_stmt_runs; [done|congruence]|done|done].
  - eapply runs_weaken; [by apply parse_expr_stmt_runs|done|done].
Qed.

Lemma string_data_runs string p content :
  parser_ok p -> pool_heap (lx_strings (ps_lexer p)) !! string = Some content ->
  runs True (string_data string) p (fun _ q => q = p).
Proof. intros Hok Hs. unfold runs, string_data. rewrite Hs. cbn [mbind option_bind]. split; [by apply later_refl|done]. Qed.

(** [func] itself is no modifier. *)
Definition modifiers_read (p : Parser) (r : option N) (q : Parser) : Prop :=
  match r with
  | Some _ => token_type (ps_current p) = TOKEN_FUNC -> place q = place p
  | None => errors_of p < errors_of q /\ token_type (ps_current p) <> TOKEN_FUNC
  end.

Lemma func_modifiers_runs fuel out p :
  parser_ok p -> runs (measure p < fuel) (func_modifiers fuel out) p (modifiers_read p).
Proof.
  revert out p. induction fuel as [|fuel IH]; intros out p Hok; [apply runs_no_result; lia|].
  cbn [func_modifiers]. step.
  assert (Hgo : forall out q, token_type (ps_current p) <> TOKEN_FUNC -> later p q -> measure q + 8 <= measure p ->
    runs (measure p < S fuel) (func_modifiers fuel out) q (modifiers_read p)).
  { intros out' q Hne Hl Hm. moved Hl. eapply runs_weaken; [by apply IH|lia|]. intros [syntax|] r Hl2 Hr; moved Hl2.
    - by intros Hf.
    - split; [|done]. destruct Hr. lia. }
  destruct (token_type (ps_current p)) eqn:Ht; try (by apply runs_done); [|step; by apply Hgo..].
  step. step. step; [|by apply Hgo].
  pose proof (po_token q ltac:(done)) as Hv. unfold token_ok in Hv. rewrite H2 in Hv. destruct Hv as (string & content & -> & Hs).
  eapply runs_andthen; [by eapply string_data_runs|done|]. intros abi ? _ ->.
  destruct (negb _); [step; apply runs_done; [done|]; split; [lia|congruence]|].
  step. apply Hgo; [done|by eapply later_trans|lia].
Qed.

Lemma func_fields_runs fuel params p :
  parser_ok p -> runs (measure p + 1 < fuel) (func_fields fuel params) p (closes p TOKEN_RPAREN).
Proof.
  revert params p. induction fuel as [|fuel IH]; intros params p Hok; [apply runs_no_result; lia|].
  cbn [func_fields]. steps. call_to parse_field_runs. steps; call_to IH.
Qed.

(** ** Statements *)

(** A statement that is not read leaves its first token only where
    [parser_synchronize] will not. *)
Definition statement_read (p : Parser) (r : option ASTStmt) (q : Parser) : Prop :=
  match r with
  | Some _ => measure q + 8 <= measure p
  | None => errors_of p < errors_of q /\
      (measure q + 8 <= measure p \/
       place q = place p /\ (starts_a_statement (token_type (ps_current p)) = false \/ stalls (token_type (ps_current p)) = true))
  end.

Section statements.
Context (stmt : Action (option ASTStmt)) (fuel : nat).
Hypothesis (stmt_runs : forall p, parser_ok p -> runs (measure p + 4 < fuel /\ never_stalls p) stmt p (statement_read p)).

Lemma block_statements_runs turns list p :
  parser_ok p ->
  runs (measure p + 4 < fuel /\ never_stalls p /\ measure p < turns) (block_statements stmt fuel turns list) p (closes p TOKEN_RBRACE).
Proof using All.
  revert list p. induction turns as [|turns IH]; intros list p Hok; [apply runs_no_result; lia|].
  cbn [block_statements]. steps.
  eapply runs_andthen; [by apply stmt_runs|tauto|]. intros [s|] q Hl Hs; moved Hl; cbn [statement_read] in Hs.
  - call_to IH.
  - destruct Hs as [He Hs]. eapply runs_andthen; [by apply parser_synchronize_runs|lia|]. intros ? r Hl2 Hr. moved Hl2.
    eapply runs_weaken; [by apply IH| |].
    + intros (Hf & Hn & Ht). split; [lia|]. split; [still_never_stalls|].
      destruct Hs as [Hs|[Hp Hs]]; [lia|]. destruct Hr as [Hr|]; [|lia]. exfalso. place_facts Hp.
      rewrite H7 in Hr. destruct Hs as [Hs|Hs]; [|by rewrite (never_stalls_here _ Hn) in Hs].
      unfold stops_recovery in Hr. destruct (token_type (ps_current p)); congruence.
    + intros [l|] s' Hl3 Hc; moved Hl3; bounds.
Qed.

Lemma parse_block_stmt_runs p :
  parser_ok p -> runs (measure p + 3 < fuel /\ never_stalls p) (parse_block_stmt stmt fuel) p (consumes p).
Proof using All. intros Hok. unfold parse_block_stmt. steps. call_to block_statements_runs. steps. Qed.

(** The condition of the functions that read their first token themselves. *)
Abbreviation inside p := (measure p + 3 < fuel /\ never_stalls p).

Lemma parse_if_stmt_runs p :
  parser_ok p -> token_type (ps_current p) <> TOKEN_EOF -> runs (inside p) (parse_if_stmt stmt fuel) p (moves p).
Proof using All.
  intros Hok Ht. unfold parse_if_stmt, parse_expression. steps. call_to parse_precedence_runs.
  call_to parse_block_stmt_runs. steps. call_to parse_block_stmt_runs. steps.
Qed.

Lemma parse_for_stmt_runs p :
  parser_ok p -> token_type (ps_current p) <> TOKEN_EOF -> runs (inside p) (parse_for_stmt stmt fuel) p (moves p).
Proof using All.
  intros Hok Ht. unfold parse_for_stmt, parse_expression. steps; [call_to parse_block_stmt_runs; steps|].
  call_to parse_for_clause_runs. steps.
  - part; [steps; call_to parse_precedence_runs; steps|]. steps. call_to parse_for_clause_runs.
    call_to parse_block_stmt_runs. steps.
  - case_match; [case_match|]; try steps. call_to parse_block_stmt_runs. steps.
Qed.

Definition is_func (s : ASTStmt) : bool := match s with STMT_FUNC_DECL _ _ => true | _ => false end.

(** A function declaration; one that starts with [func] moves in any case. *)
Definition function_read (p : Parser) (r : option ASTStmt) (q : Parser) : Prop :=
  (token_type (ps_current p) = TOKEN_FUNC -> measure q + 8 <= measure p) /\
  match r with Some s => is_func s = true /\ measure q + 8 <= measure p | None => errors_of p < errors_of q end.

Lemma parse_func_decl_stmt_at_runs signature_only span prefix p :
  parser_ok p ->
  runs (inside p) (parse_func_decl_stmt_at stmt fuel signature_only span prefix) p (function_read p).
Proof using All.
  intros Hok. unfold parse_func_decl_stmt_at, parse_func_syntax.
  eapply runs_orfail; [by apply func_modifiers_runs|lia| |by intros q _ [? ?]].
  intros syntax q Hl Hm. moved Hl. cbn [modifiers_read] in Hm.
  eapply runs_require; [by apply runs_expect|done| |].
  2:{ intros q1 Hl1 [He Hne]. moved Hl1. split; [|lia]. intros Hf. exfalso. apply Hne. specialize (Hm Hf). place_facts Hm.
    congruence. }
  intros q1 Hl1 [-> Hf]. clear Hl1. unfold function_read. steps. call_to parse_type_params_runs.
  steps. call_to func_fields_runs. step. step. part.
  { steps. call_to parse_type_expr_runs. steps. }
  destruct (negb (N.eqb _ 0)).
  - steps. call_to parse_block_stmt_runs. steps.
  - call_to parse_block_stmt_runs. steps.
Qed.

Lemma parse_func_decl_stmt_runs p : parser_ok p -> runs (inside p) (parse_func_decl_stmt stmt fuel) p (function_read p).
Proof using All. intros Hok. unfold parse_func_decl_stmt. step. by apply parse_func_decl_stmt_at_runs. Qed.

Lemma parse_func_signature_stmt_runs p :
  parser_ok p -> runs (inside p) (parse_func_signature_stmt stmt fuel) p (function_read p).
Proof using All. intros Hok. unfold parse_func_signature_stmt. step. by apply parse_func_decl_stmt_at_runs. Qed.

Lemma parse_intrinsic_runs p :
  parser_ok p -> token_type (ps_current p) <> TOKEN_EOF -> runs (inside p) (parse_intrinsic stmt fuel) p (moves p).
Proof using All.
  intros Hok Ht. unfold parse_intrinsic. steps; [call_to parse_struct_decl_stmt_at_runs|].
  eapply runs_weaken; [by apply parse_func_decl_stmt_at_runs|covered|].
  intros [s|] r Hl2 [_ Hr]; moved Hl2; bounds.
Qed.

Lemma impl_members_runs turns type declared members p :
  parser_ok p ->
  runs (inside p /\ measure p < turns) (impl_members stmt fuel turns type declared members) p (reports_null p).
Proof using All.
  revert members p. induction turns as [|turns IH]; intros members p Hok; [apply runs_no_result; lia|].
  cbn [impl_members]. steps. destruct (starts_a_member _); cbn [negb]; [|steps].
  eapply runs_orfail; [by apply parse_func_decl_stmt_runs|covered| |by intros q _ [_ ?]].
  intros member q Hl [_ [Hf Hm]]. moved Hl. destruct member as [| |span decl| | | | | | | | | |]; try done.
  destruct (func_owner decl); [steps|]. call_to terminated_runs. call_to IH.
Qed.

Lemma parse_impl_stmt_runs p :
  parser_ok p -> token_type (ps_current p) <> TOKEN_EOF -> runs (inside p) (parse_impl_stmt stmt fuel) p (moves p).
Proof using All.
  intros Hok Ht. unfold parse_impl_stmt. steps. call_to parse_type_params_runs. call_to parse_type_expr_runs. step. part.
  - steps. part; [|steps]. step; [|steps].
    eapply runs_weaken; [apply (parse_type_args_runs _ fuel); [by intros; apply parse_type_expr_runs|done|congruence]|lia|].
    by intros [] ? ? ?.
  - case_match. steps. call_to impl_members_runs. steps.
Qed.

Lemma interface_members_runs turns members p :
  parser_ok p ->
  runs (inside p /\ measure p < turns) (interface_members stmt fuel turns members) p (reports_null p).
Proof using All.
  revert members p. induction turns as [|turns IH]; intros members p Hok; [apply runs_no_result; lia|].
  cbn [interface_members]. steps.
  eapply runs_orfail; [by apply parse_func_signature_stmt_runs|covered| |by intros q _ [_ ?]].
  intros member q Hl [_ [Hf Hm]]. moved Hl. steps. call_to IH.
Qed.

Lemma parse_interface_decl_stmt_runs p :
  parser_ok p -> token_type (ps_current p) <> TOKEN_EOF ->
  runs (inside p) (parse_interface_decl_stmt stmt fuel) p (moves p).
Proof using All.
  intros Hok Ht. unfold parse_interface_decl_stmt. steps. call_to parse_type_params_runs. steps.
  call_to interface_members_runs. steps.
Qed.

(** What is read to be reported has to move. *)
Lemma discarded_runs message (m : Action (option ASTStmt)) p :
  parser_ok p ->
  (forall q, later p q -> token_type (ps_current q) = token_type (ps_current p) -> 
     runs (inside q) m q (fun _ r => measure r + 8 <= measure q)) ->
  runs (inside p) (discarded message m) p (moves p).
Proof using All.
  intros Hok Hm. unfold discarded. eapply runs_andthen; [by apply runs_error|done|]. intros ? q Hl [Hp He]. moved Hl.
  place_facts Hp. eapply runs_andthen; [by apply Hm|covered|]. intros ? r Hl2 Hr. moved Hl2. steps.
Qed.

Lemma moves_measure {A} p (r : option A) q : moves p r q -> measure q + 8 <= measure p.
Proof using All. by intros [? _]. Qed.

Lemma moved_statement p m :
  parser_ok p -> runs (inside p) m p (moves p) ->
  runs (inside p) (let? stmt := m in terminated stmt) p (statement_read p).
Proof using All.
  intros Hok Hm. eapply runs_orfail; [exact Hm|done| |].
  - intros s q Hl [Hq _]. moved Hl. eapply runs_weaken; [by apply terminated_runs|done|].
    intros [s'|] r Hl2 Hr; moved Hl2; unfold statement_read; [|split; [|left]]; bounds.
  - intros q Hl [Hq He]. split; [done|by left].
Qed.

Lemma consumed_statement p m :
  parser_ok p -> starts_a_statement (token_type (ps_current p)) = false \/ stalls (token_type (ps_current p)) = true ->
  runs (inside p) m p (consumes p) -> runs (inside p) (let? stmt := m in terminated stmt) p (statement_read p).
Proof using All.
  intros Hok Hs Hm. eapply runs_orfail; [exact Hm|done| |].
  - intros s q Hl Hq. moved Hl. eapply runs_weaken; [by apply terminated_runs|done|].
    intros [s'|] r Hl2 Hr; moved Hl2; unfold statement_read; [|split; [|left]]; bounds.
  - intros q Hl He. split; [done|]. destruct (lt_moves _ _ Hl); [right|left]; done.
Qed.

Lemma parse_statement_body_runs p :
  parser_ok p -> runs (inside p) (parse_statement_body stmt fuel) p (statement_read p).
Proof using All.
  intros Hok. unfold parse_statement_body. step.
  assert (Hrest : starts_a_statement (token_type (ps_current p)) = false \/ stalls (token_type (ps_current p)) = true ->
    runs (inside p) (let? stmt := parse_expr_stmt fuel EXPR_ANY in terminated stmt) p (statement_read p)).
  { intros Hs. apply consumed_statement; [done|done|]. eapply runs_weaken; [by apply parse_expr_stmt_runs|covered|done]. }
  assert (Hdisc : forall message m, 
    (forall q, later p q -> token_type (ps_current q) = token_type (ps_current p) ->
       runs (inside q) m q (fun _ r => measure r + 8 <= measure q)) ->
    runs (inside p) (discarded message m) p (statement_read p)).
  { intros message m Hm. eapply runs_weaken; [by apply discarded_runs|done|]. intros [s|] q _ [Hq He]; [done|].
    split; [done|by left]. }
  destruct (token_type (ps_current p)) eqn:Ht; try (by apply Hrest; auto).
  - apply consumed_statement; [done|rewrite Ht; by left|]. eapply runs_weaken; [by apply parse_block_stmt_runs|covered|done].
  - apply moved_statement; [done|]. eapply runs_weaken; [apply parse_var_decl_stmt_runs; [done|congruence]|covered|done].
  - apply Hdisc. intros q Hl Hq. moved Hl. eapply runs_weaken; [by apply parse_func_decl_stmt_runs|done|].
    intros ? r _ [Hr _]. by apply Hr.
  - apply Hdisc. intros q Hl Hq. moved Hl. eapply runs_weaken; [apply parse_intrinsic_runs; [done|congruence]|done|].
    intros ? r _. apply moves_measure.
  - apply moved_statement; [done|]. eapply runs_weaken; [apply parse_struct_decl_stmt_runs; [done|congruence]|covered|done].
  - apply Hdisc. intros q Hl Hq. moved Hl. eapply runs_weaken; [apply parse_impl_stmt_runs; [done|congruence]|done|].
    intros ? r _. apply moves_measure.
  - apply Hdisc. intros q Hl Hq. moved Hl. eapply runs_weaken; [apply parse_interface_decl_stmt_runs; [done|congruence]|done|].
    intros ? r _. apply moves_measure.
  - apply moved_statement; [done|]. eapply runs_weaken; [apply parse_return_stmt_runs; [done|congruence]|covered|done].
  - apply moved_statement; [done|]. apply parse_if_stmt_runs; [done|congruence].
  - apply moved_statement; [done|]. apply parse_for_stmt_runs; [done|congruence].
  - apply moved_statement; [done|]. eapply runs_weaken; [apply parse_jump_stmt_runs; [done|congruence]|covered|done].
  - apply moved_statement; [done|]. eapply runs_weaken; [apply parse_jump_stmt_runs; [done|congruence]|covered|done].
Qed.

Lemma parse_decl_statement_runs p :
  parser_ok p -> runs (inside p) (parse_decl_statement stmt fuel) p (consumes p).
Proof using All.
  intros Hok. unfold parse_decl_statement. step.
  assert (Hend : forall m, runs (inside p) m p (fun r q => match r with Some _ => measure q + 8 <= measure p | None => errors_of p < errors_of q end) ->
    runs (inside p) (let? stmt := m in terminated stmt) p (consumes p)).
  { intros m Hm. eapply runs_orfail; [exact Hm|done| |done]. intros s q Hl Hq. moved Hl. call_to terminated_runs. }
  assert (Hfunc : runs (inside p) (let? stmt := parse_func_decl_stmt stmt fuel in terminated stmt) p (consumes p)).
  { apply Hend. eapply runs_weaken; [by apply parse_func_decl_stmt_runs|done|]. by intros [s|] q _ [_ Hq]; [destruct Hq|]. }
  assert (Hmoves : forall m, runs (inside p) m p (moves p) ->
    runs (inside p) (let? stmt := m in terminated stmt) p (consumes p)).
  { intros m Hm. apply Hend. eapply runs_weaken; [exact Hm|done|]. by intros [s|] q _ [? ?]. }
  destruct (token_type (ps_current p)) eqn:Ht; try (by steps); try exact Hfunc.
  all: apply Hmoves.
  - eapply runs_weaken; [apply parse_var_decl_stmt_runs; [done|congruence]|covered|done].
  - apply parse_intrinsic_runs; [done|congruence].
  - eapply runs_weaken; [apply parse_struct_decl_stmt_runs; [done|congruence]|covered|done].
  - apply parse_impl_stmt_runs; [done|congruence].
  - apply parse_interface_decl_stmt_runs; [done|congruence].
Qed.
End statements.

Lemma parse_statement_runs fuel p :
  parser_ok p -> runs (measure p + 4 < fuel /\ never_stalls p) (parse_statement fuel) p (statement_read p).
Proof.
  revert p. induction fuel as [|fuel IH]; intros p Hok; [apply runs_no_result; lia|]. cbn [parse_statement].
  eapply runs_weaken; [by apply (parse_statement_body_runs _ fuel IH)|covered|done].
Qed.

(** ** Files *)

Lemma parse_declarations_runs fuel file p :
  parser_ok p ->
  runs (measure p + 4 < fuel /\ never_stalls p) (parse_declarations fuel file) p
    (fun file' _ => file_module_name file' = file_module_name file).
Proof.
  revert file p. induction fuel as [|fuel IH]; intros file p Hok; [apply runs_no_result; lia|].
  cbn [parse_declarations]. step. step; [by apply runs_done|].
  assert (Hgo : forall file' q, later p q -> measure q + 8 <= measure p -> file_module_name file' = file_module_name file ->
    runs (measure p + 4 < S fuel /\ never_stalls p) (parse_declarations fuel file') q
      (fun file' _ => file_module_name file' = file_module_name file)).
  { intros file' q Hl Hm Hf. moved Hl. eapply runs_weaken; [by apply IH|covered|]. intros ? ? _. congruence. }
  step; [step; by apply Hgo|]. step.
  { step. step. eapply runs_andthen; [apply parse_import_directive_runs; [done|congruence]|done|].
    intros ? r Hl2 [_ Hm]. moved Hl2. apply Hgo; [by eapply later_trans|lia|done]. }
  step.
  { step. step. eapply runs_andthen; [by apply parse_module_directive_runs|lia|].
    intros ? r Hl2 [_ Hm]. moved Hl2. specialize (Hm ltac:(congruence)). apply Hgo; [by eapply later_trans|lia|done]. }
  eapply runs_andthen; [by apply (parse_decl_statement_runs _ fuel (parse_statement_runs fuel))|covered|].
  intros [s|] q Hl Hq; moved Hl; [by apply Hgo|].
  step. step. eapply runs_andthen; [by apply parser_synchronize_runs|lia|]. intros ? r Hl2 _. moved Hl2. step. step.
  assert (Hnext : forall s, later r s -> measure s + 8 <= measure p -> 
    runs (measure p + 4 < S fuel /\ never_stalls p) (parse_declarations fuel file) s
      (fun file' _ => file_module_name file' = file_module_name file)).
  { intros s Hl3 Hm. apply Hgo; [|done|done]. by eapply later_trans, later_trans. }
  destruct (lt_moves _ _ Hl) as [Hp|Hp].
  - destruct (lt_moves _ _ Hl2) as [Hr|Hr].
    + pose proof Hr as [= Hpos Htype]. rewrite Hpos, Htype, bool_decide_eq_true_2, Nat.eqb_refl by done. cbn [andb].
      step. place_facts Hp. specialize (Hm ltac:(congruence)). apply Hnext; [done|lia].
    + eapply (runs_andthen _ True _ _ _ (fun _ _ => True)); [|done|].
      { destruct (_ && _); [eapply runs_weaken; [by apply runs_next|done|done]|by apply runs_done]. }
      intros ? s Hl3 _. moved Hl3. apply Hnext; [done|lia].
  - eapply (runs_andthen _ True _ _ _ (fun _ _ => True)); [|done|].
    { destruct (_ && _); [eapply runs_weaken; [by apply runs_next|done|done]|by apply runs_done]. }
    intros ? s Hl3 _. moved Hl3. apply Hnext; [done|lia].
Qed.

(** The tokens of a source, from the place of a lexer on. *)
Lemma place_stays lx b :
  lexer_peek lx = NUL -> rtc (place_step (lx_source lx)) (lx_pos lx, TOKEN_EOF) b -> b.2 = TOKEN_EOF.
Proof.
  intros Hp Hb. remember (lx_pos lx, TOKEN_EOF) as a eqn:Ha. induction Hb as [a|a c b Hs Hb IH]; [by subst|].
  apply IH. subst a. inversion Hs as [pos type l2 tok lx2 Hsrc Hpos Hn|]; subst.
  destruct (lexer_next_at_nul l2 tok lx2) as [-> [_ <-]]; [|done|by rewrite Hpos].
  rewrite <- Hp. by apply same_text_peek.
Qed.

Lemma place_after_lexed fuel lx type tokens lx' c b :
  pool_ok (lx_strings lx) -> lex_tokens fuel lx = Some (tokens, lx') -> type <> TOKEN_AND ->
  place_step (lx_source lx) (lx_pos lx, type) c -> rtc (place_step (lx_source lx)) c b ->
  b.2 = TOKEN_AMP \/ b.2 ∈ token_type <$> tokens.
Proof.
  revert lx type tokens c. induction fuel as [|fuel IH]; intros lx type tokens c Hpool Hl Htype Hs Hb; [done|].
  cbn [lex_tokens] in Hl.
  destruct (lexer_next_step lx Hpool) as (tok & lx1 & Hn & Hsrc & Hpool1 & _ & _ & _ & Heof & _).
  rewrite Hn in Hl. cbn [mbind option_bind] in Hl.
  inversion Hs as [pos type' l2 tok2 lx2 Hs2 Hp2 Hn2|]; subst; [|done].
  destruct (lexer_next_same l2 lx (tok2, lx2) (tok, lx1)) as (Ht & _ & _ & Hp); [done|done|done|].
  cbn [fst snd] in Ht, Hp. rewrite Ht, Hp in Hb. rewrite <- Hsrc in Hb. case_decide as He.
  { rewrite He in Hb. apply place_stays in Hb; [|by apply Heof]. right. rewrite Hb, <- He.
    injection Hl as <- _. by left. }
  destruct (lex_tokens fuel lx1) as [[rest lx3]|] eqn:Hrest; [|done]. injection Hl as <- ->.
  assert (Hgo : forall type d, type <> TOKEN_AND -> place_step (lx_source lx1) (lx_pos lx1, type) d ->
    rtc (place_step (lx_source lx1)) d b -> b.2 = TOKEN_AMP \/ b.2 ∈ token_type <$> (tok :: rest)).
  { intros type' d Ha Hd Hdb. destruct (IH _ _ _ _ Hpool1 Hrest Ha Hd Hdb); [by left|right; by right]. }
  inversion Hb as [|? d ? Hd Hdb]; subst; [right; by left|].
  destruct (decide (token_type tok = TOKEN_AND)) as [Ha|Ha]; [|by eapply Hgo].
  inversion Hd; subst; [by eapply (Hgo TOKEN_AMP); [done|econstructor|]|].
  inversion Hdb as [|? e ? He2 Heb]; subst; [by left|]. by eapply (Hgo TOKEN_AMP).
Qed.

(** What is enough for a source: its bytes bound the tokens left. *)
Definition parser_fuel (source : list ascii) : nat := 16 * length source + 64.

(** The tokens after the [module] of the first line. *)
Definition after_module (tokens : list Token) : list Token :=
  match tokens with tok :: rest => if decide (token_type tok = TOKEN_MODULE) then rest else tokens | [] => [] end.

Definition start (source : list ascii) (strings : StringPool) (diagnostics : Diagnostics) : Parser :=
  parser_create (lexer_create source strings diagnostics).

Lemma header_never_stalls source strings diagnostics tokens lx file q :
  pool_ok strings -> lex_source source = Some (tokens, lx) ->
  Forall (fun tok => stalls (token_type tok) = false) (after_module tokens) ->
  header_read (start source strings diagnostics) file q -> never_stalls q.
Proof.
  intros Hpool Hlex Hall (_ & p1 & Hn & Hl & Hm) b Hb. set (p := start source strings diagnostics) in *.
  unfold lex_source in Hlex. destruct string_pool_init_ok as (pool & Hp & Hpool0 & _). rewrite Hp in Hlex.
  cbn [mbind option_bind] in Hlex. set (lx0 := lexer_create source pool (diagnostics_init None)) in *.
  unfold parser_next_token in Hn. destruct (lexer_next (ps_lexer p)) as [[tok l1]|] eqn:Hn1; [|done]. injection Hn as <-.
  destruct (lexer_next_step (ps_lexer p) Hpool) as (tok' & l1' & Hn1' & Hsrc1 & _). rewrite Hn1 in Hn1'. injection Hn1' as <- <-.
  destruct (lexer_next_step lx0 Hpool0) as (tok0 & l0 & Hn0 & Hsrc0 & Hpool0' & _).
  destruct (lexer_next_same (ps_lexer p) lx0 (tok, l1) (tok0, l0)) as (Ht & _ & _ & Hpos); [done|done|done|].
  cbn [fst snd] in Ht, Hpos. rewrite (lt_source _ _ Hl) in Hb. cbn [ps_lexer] in Hb.
  assert (Hsafe : forall toks, (b.2 = TOKEN_AMP \/ b.2 ∈ token_type <$> toks) ->
    Forall (fun tok => stalls (token_type tok) = false) toks -> stalls b.2 = false).
  { intros toks [->|Hin] Hs; [done|]. apply list_elem_of_fmap in Hin as (tok' & -> & Hin). rewrite Forall_forall in Hs. by apply Hs. }
  destruct (decide (token_type tok0 = TOKEN_MODULE)) as [Hmod|Hmod].
  - cbn [lex_tokens] in Hlex. rewrite Hn0 in Hlex. cbn [mbind option_bind] in Hlex. rewrite decide_False in Hlex by congruence.
    destruct (lex_tokens (length source) l0) as [[rest lx3]|] eqn:Hrest; [|done]. injection Hlex as <- ->.
    cbn [after_module] in Hall. rewrite decide_True in Hall by done. apply (Hsafe rest); [|done].
    pose proof (lt_reach _ _ Hl) as Hr. unfold place at 1 in Hr. cbn [ps_lexer ps_current] in Hr. specialize (Hm (eq_trans Ht Hmod)).
    rewrite Hsrc1 in Hr, Hb. change (lx_source (ps_lexer p)) with (lx_source lx0) in Hr, Hb. rewrite <- Hsrc0 in Hr, Hb.
    inversion Hr as [Hq|? c ? Hs Hc]; subst.
    + rewrite (place_measure _ _ (lt_source _ _ Hl)) in Hm; [lia|unfold place; cbn; congruence].
    + rewrite Hpos in Hs. eapply (place_after_lexed _ _ _ _ _ c); [done|done| |done|by etrans]. congruence.
  - assert (Hin : b.2 = TOKEN_AMP \/ b.2 ∈ token_type <$> tokens).
    { eapply (place_after_lexed _ lx0 TOKEN_INVALID _ _ (place (MkParser l1 tok)));
        [done|done|done|by apply (step_next _ _ _ (ps_lexer p))|].
      change (lx_source lx0) with (lx_source (ps_lexer p)). rewrite <- Hsrc1. etrans; [apply (lt_reach _ _ Hl)|done]. }
    apply (Hsafe tokens); [done|]. revert Hall. cbn [lex_tokens] in Hlex. rewrite Hn0 in Hlex. cbn [mbind option_bind] in Hlex.
    assert (exists rest, tokens = tok0 :: rest) as [rest ->].
    { case_decide; [by injection Hlex as <- _; eexists|]. destruct (lex_tokens _ l0) as [[rest ?]|]; [|done].
      injection Hlex as <- _. by eexists. }
    cbn [after_module]. by rewrite decide_False.
Qed.

Lemma andthen_some {A B} (m : Action A) (f : A -> Action B) p r :
  andthen m f p = Some r -> exists a q, m p = Some (a, q) /\ f a q = Some r.
Proof. unfold andthen. destruct (m p) as [[a q]|]; [|done]. intros Hf. by exists a, q. Qed.

Lemma parser_parse_runs fuel source strings diagnostics :
  pool_ok strings ->
  runs (parser_fuel source <= fuel /\
        exists tokens lx, lex_source source = Some (tokens, lx) /\
          Forall (fun tok => stalls (token_type tok) = false) (after_module tokens))
    (parser_parse fuel ast_file_create) (start source strings diagnostics)
    (fun r q => r.1 = Nat.eqb (errors_of q) (diagnostics_count diagnostics) /\ (r.1 = true -> is_Some (file_module_name r.2))).
Proof.
  intros Hpool. set (p := start source strings diagnostics). assert (Hok : parser_ok p) by by split.
  assert (Hm : measure p = 16 * S (length source)) by done.
  assert (Hrun : runs (parser_fuel source <= fuel /\
        exists tokens lx, lex_source source = Some (tokens, lx) /\
          Forall (fun tok => stalls (token_type tok) = false) (after_module tokens))
     (let! file := parser_parse_header fuel ast_file_create in parse_declarations fuel file) p
     (fun file q => named_or_reported p (file_module_name file) q)).
  { eapply runs_andthen; [by apply parser_parse_header_runs|unfold parser_fuel; lia|]. intros file q Hl Hh. moved Hl.
    eapply runs_weaken; [by apply parse_declarations_runs| |].
    - intros (Hf & tokens & lx & Hlex & Hall). split; [unfold parser_fuel in Hf; lia|]. by eapply header_never_stalls.
    - intros file' r Hl2 Hf. moved Hl2. destruct Hh as [Hn _]. unfold named_or_reported in *. rewrite Hf.
      destruct Hn; [by left|right; lia]. }
  unfold runs, parser_parse in *. destruct (andthen _ _ p) as [[file q]|]; cbn [mbind option_bind] in *; [|done].
  destruct Hrun as [Hl Hn]. split; [done|]. split; [done|]. cbn [fst snd]. intros He%Nat.eqb_eq.
  destruct Hn; [done|]. lia.
Qed.

(** ** The theorems *)

(** C40: The parser ends on every source in which no [extern], [caller] or [module]
    comes after the [module] of its first line, whatever errors the source has:
    its loops and its recursion need no more turns than [parser_fuel], which is
    linear in the bytes of the source. *)
Theorem parse_file_ends fuel source strings diagnostics tokens lx
    (Hpool : pool_ok strings) (Hlex : lex_source source = Some (tokens, lx))
    (Hall : Forall (fun tok => stalls (token_type tok) = false) (after_module tokens))
    (Hfuel : parser_fuel source <= fuel) :
  exists answer, parse_file fuel source strings diagnostics = Some answer.
Proof.
  pose proof (parser_parse_runs fuel source strings diagnostics Hpool) as Hr. unfold runs in Hr.
  unfold parse_file. fold (start source strings diagnostics).
  destruct (parser_parse _ _ _) as [[[ok file] q]|]; [by eexists|]. destruct Hr. split; [done|]. by exists tokens, lx.
Qed.

(** A source with errors of every part of the parser. *)
Definition faulty_source : list ascii :=
  bytes "module m; import a; struct S { x: &&i32, } func f(a: array<i32, 3>: i32 { let = 1; if a < b { f(, } for ; ; { [1 2] } } ) impl".

Lemma parse_file_ends_witness :
  exists strings tokens lx, string_pool_init = Some strings /\ lex_source faulty_source = Some (tokens, lx) /\
    length tokens = 55 /\ exists answer, parse_file 4000 faulty_source strings (diagnostics_init None) = Some answer.
Proof.
  destruct string_pool_init_ok as (pool & Hp & Hok & _).
  destruct (lex_source faulty_source) as [[tokens lx]|] eqn:Hlex; [|by vm_compute in Hlex].
  exists pool, tokens, lx. split; [done|]. split; [done|].
  assert (Hl : (fun r => length r.1) <$> lex_source faulty_source = Some 55) by by vm_compute.
  assert (Hs : (fun r => forallb (fun tok => negb (stalls (token_type tok))) (after_module r.1)) <$> lex_source faulty_source =
    Some true) by by vm_compute.
  rewrite Hlex in Hl, Hs. injection Hl as Hl. injection Hs as Hs. split; [done|].
  apply (parse_file_ends _ _ _ _ tokens lx Hok Hlex); [|apply Nat.leb_le; vm_compute; reflexivity].
  apply Forall_forall. intros tok Hin. apply negb_true_iff.
  by apply (proj1 (forallb_forall _ _) Hs), list_elem_of_In.
Defined.

(** A pointer for which a parse function returned [NULL] was reported. *)
Definition null_is_reported {A} (m : Action (option A)) : Prop :=
  forall p q, parser_ok p -> m p = Some (None, q) -> errors_of p < errors_of q.

Lemma runs_null_reported {A} (m : Action (option A)) T :
  (forall p, parser_ok p -> runs (T p) m p (reports_null p)) -> null_is_reported m.
Proof. intros Hm p q Hok Hr. specialize (Hm p Hok). unfold runs in Hm. rewrite Hr in Hm. by destruct Hm. Qed.

(** C5: A [NULL] of the parser is never silent: whenever a type, an expression, a
    statement or a declaration is not read, by a parser at a token that was lexed
    and with its strings interned ([parser_ok]), a diagnostic was added.  With the
    strings of a pool, a file is accepted exactly when nothing was reported, and
    then names its module, so [parse_module] compares names that exist.  This is of
    the calls that return; [parse_file] returns on every source without the tokens
    at which a block never ends. *)
Theorem parser_reports_null (fuel : nat) :
  null_is_reported (parse_type_expr fuel) /\
  (forall min ctx, null_is_reported (parse_precedence fuel min ctx)) /\
  null_is_reported (parse_statement fuel) /\
  null_is_reported (parse_decl_statement (parse_statement fuel) fuel) /\
  (forall source strings diagnostics answer strings' diagnostics', pool_ok strings ->
    parse_file fuel source strings diagnostics = Some (answer, strings', diagnostics') ->
    match answer with
    | Some file => is_Some (file_module_name file) /\ diagnostics_count diagnostics' = diagnostics_count diagnostics
    | None => diagnostics_count diagnostics < diagnostics_count diagnostics'
    end).
Proof.
  split; [|split; [|split; [|split]]].
  - eapply runs_null_reported. intros p Hok. eapply runs_weaken; [by apply parse_type_expr_runs|exact id|].
    by intros [s|] q _ Hq.
  - intros min ctx. eapply runs_null_reported. intros p Hok. eapply runs_weaken; [by apply parse_precedence_runs|exact id|].
    by intros [s|] q _ Hq.
  - eapply runs_null_reported. intros p Hok. eapply runs_weaken; [by apply parse_statement_runs|exact id|].
    by intros [s|] q _ Hq; [|destruct Hq].
  - eapply runs_null_reported. intros p Hok.
    eapply runs_weaken; [by apply (parse_decl_statement_runs _ fuel (parse_statement_runs fuel))|exact id|].
    by intros [s|] q _ Hq.
  - intros source strings diagnostics answer strings' diagnostics' Hpool Hp.
    pose proof (parser_parse_runs fuel source strings diagnostics Hpool) as Hr. unfold runs in Hr. unfold parse_file in Hp.
    fold (start source strings diagnostics) in Hp.
    destruct (parser_parse _ _ _) as [[[ok file] q]|]; [|done]. cbn [mbind option_bind] in Hp. injection Hp as <- <- <-.
    destruct Hr as [Hl [Hok Hname]]. cbn [fst snd] in *. pose proof (lt_errors _ _ Hl) as He.
    change (errors_of (start _ _ _)) with (diagnostics_count diagnostics) in He.
    destruct (Nat.eqb_spec (errors_of q) (diagnostics_count diagnostics)) as [Heq|Hne]; subst ok.
    + split; [by apply Hname|done].
    + unfold errors_of in *. lia.
Qed.

Definition is_refused (run : option (option ASTFile * StringPool * Diagnostics)) : bool :=
  match run with Some (None, _, _) => true | _ => false end.

Lemma answered_bind {A B} (m : option A) (f : A -> option B) a : m = Some a -> (m ≫= f) = f a.
Proof. by intros ->. Qed.

(** A file whose first word is misspelt is refused with a message. *)
Lemma parser_reports_null_witness :
  exists strings strings' diagnostics, string_pool_init = Some strings /\
    parse_file 40 (bytes "modul m;") strings (diagnostics_init None) = Some (None, strings', diagnostics) /\
    0 < diagnostics_count diagnostics.
Proof.
  destruct string_pool_init_ok as (strings & Hinit & Hok & _). exists strings.
  assert (Hnone : is_refused (strings ← string_pool_init; parse_file 40 (bytes "modul m;") strings (diagnostics_init None)) = true)
    by (vm_compute; reflexivity).
  rewrite (answered_bind _ _ strings Hinit) in Hnone.
  destruct (parse_file 40 (bytes "modul m;") strings (diagnostics_init None)) as [[[[file|] strings'] diagnostics]|] eqn:Hrun; [discriminate| |discriminate].
  exists strings', diagnostics. split; [exact Hinit|]. split; [reflexivity|].
  exact (proj2 (proj2 (proj2 (proj2 (parser_reports_null 40)))) _ _ _ _ _ _ Hok Hrun).
Defined.

(** ** Where the parser does not do what it means to *)

(** Nothing is read, and the token stays. *)
Definition fails_at {A} (p : Parser) (m : Action (option A)) : Prop :=
  forall r q, m p = Some (r, q) -> r = None /\ ps_current q = ps_current p.

Lemma fails_orfail {A B} p (m : Action (option A)) (f : A -> Action (option B)) : fails_at p m -> fails_at p (orfail m f).
Proof.
  intros Hm r q. unfold orfail, andthen. destruct (m p) as [[a p1]|] eqn:Hr; cbn [mbind option_bind]; [|done].
  destruct (Hm _ _ Hr) as [-> Hc]. by intros [= <- <-].
Qed.

Lemma stalled_primary nested fuel p :
  stalls (token_type (ps_current p)) = true -> fails_at p (parse_primary nested fuel).
Proof.
  intros Hs r q. unfold parse_primary, andthen, parser_span, the_type. cbn [mbind option_bind].
  destruct (token_type (ps_current p)); try done; intros Hr; injection Hr as <- <-; done.
Qed.

Lemma stalled_unary nested fuel depth ctx p :
  stalls (token_type (ps_current p)) = true -> fails_at p (parse_unary nested fuel depth ctx).
Proof.
  intros Hs r q. destruct depth as [|depth]; [done|]. cbn [parse_unary]. unfold andthen, parser_span, the_type.
  cbn [mbind option_bind]. rewrite decide_False by (intros Ht; by rewrite Ht in Hs). cbn [done mbind option_bind].
  pose proof (fails_orfail p _ (fun primary => parse_postfix nested fuel fuel primary ctx) (stalled_primary nested fuel p Hs) r q) as H.
  destruct (token_type (ps_current p)); done.
Qed.

Lemma stalled_statement fuel p :
  stalls (token_type (ps_current p)) = true -> fails_at p (parse_statement fuel).
Proof.
  intros Hs. assert (He : forall fuel, fails_at p (let? stmt := parse_expr_stmt fuel EXPR_ANY in terminated stmt)).
  { intros f. apply fails_orfail. intros r q. unfold parse_expr_stmt, andthen, parser_span at 1. cbn [mbind option_bind].
    apply fails_orfail. unfold parse_expression. destruct f as [|f]; [done|]. cbn [parse_precedence].
    by apply fails_orfail, stalled_unary. }
  intros r q. destruct fuel as [|fuel]; [done|]. cbn [parse_statement]. unfold parse_statement_body, andthen, the_type.
  cbn [mbind option_bind]. specialize (He fuel r q). destruct (token_type (ps_current p)); done.
Qed.

Lemma at_type_then {B} type (f : bool -> Action B) p :
  andthen (at_type type) f p = f (bool_decide (token_type (ps_current p) = type)) p.
Proof. done. Qed.

(** The block loop never returns at an [extern], a [caller] or a [module]: for every
    fuel there is no answer.  No statement starts with one, so [parse_statement]
    reports and returns [NULL] in place, and [parser_synchronize] stops at it:
    the loop of [parse_block_stmt] reports the same token for ever. *)
Theorem block_never_ends fuel stmt_fuel turns (list : list ASTStmt) p
    (Hstalls : stalls (token_type (ps_current p)) = true) :
  block_statements (parse_statement stmt_fuel) fuel turns list p = None.
Proof.
  revert p Hstalls. induction turns as [|turns IH]; intros p Hs; [done|]. cbn [block_statements].
  do 2 rewrite at_type_then, bool_decide_eq_false_2 by (intros Ht; by rewrite Ht in Hs).
  unfold andthen at 1. destruct (parse_statement stmt_fuel p) as [[r q]|] eqn:Hr; [|done]. cbn [mbind option_bind].
  destruct (stalled_statement _ _ Hs _ _ Hr) as [-> Hq]. unfold andthen. rewrite <- Hq in Hs.
  destruct fuel as [|fuel]; [done|]. cbn [parser_synchronize]. unfold andthen, the_type. cbn [mbind option_bind].
  rewrite !decide_False by (intros Ht; by rewrite Ht in Hs).
  assert (starts_a_statement (token_type (ps_current q)) = true) as -> by by destruct (token_type (ps_current q)).
  cbn. by apply IH.
Qed.

(** The parser after as many tokens of a source. *)
Fixpoint parser_after (n : nat) (p : Parser) : option Parser :=
  match n with O => Some p | S n => '(_, p) ← parser_next_token p; parser_after n p end.

(** In the body of a function, before the [extern]. *)
Definition parser_at_extern : option Parser :=
  strings ← string_pool_init;
  parser_after 11 (start (bytes "module m; func f(): i32 { extern }") strings (diagnostics_init None)).

Lemma block_never_ends_witness :
  exists p, parser_at_extern = Some p /\ forall fuel, block_statements (parse_statement fuel) fuel fuel [] p = None.
Proof.
  assert (He : (fun p => token_type (ps_current p)) <$> parser_at_extern = Some TOKEN_EXTERN) by (vm_compute; reflexivity).
  destruct parser_at_extern as [p|]; [|discriminate]. injection He as He. exists p. split; [reflexivity|].
  intros fuel. apply block_never_ends. rewrite He. reflexivity.
Defined.

(** The file read from a text, and whether a diagnostic was added. *)
Definition read_file (text : string) : option (option ASTFile * nat) :=
  strings ← string_pool_init;
  '(file, _, diagnostics) ← parse_file 2000 (bytes text) strings (diagnostics_init None);
  Some (file, diagnostics_count diagnostics).

(** The operator of the first [let] of the first function. *)
Definition first_operator (file : ASTFile) : option BinOp :=
  match file_statements file with
  | STMT_FUNC_DECL _ decl :: _ =>
      match func_body decl with
      | Some (STMT_BLOCK _ (STMT_VAR_DECL _ _ _ (Some (EXPR_BIN_OP _ _ _ op)) :: _)) => Some op
      | _ => None
      end
  | _ => None
  end.
(** The constants among the arguments of the type of the first field. *)
Definition first_length (file : ASTFile) : option Z :=
  match file_statements file with
  | STMT_STRUCT_DECL _ _ (field :: _) _ _ :: _ =>
      match field_type_expr field with TYPE_EXPR_APPLY _ [_; TYPE_EXPR_CONST n] => Some n | _ => None end
  | _ => None
  end.
(** How many type parameters the first member of an [impl] has. *)
Definition first_member_params (file : ASTFile) : option nat :=
  match file_statements file with
  | STMT_IMPL _ _ (STMT_FUNC_DECL _ decl :: _) _ _ _ :: _ => Some (length (func_type_params decl))
  | _ => None
  end.

(** Three texts are accepted without a diagnostic and read as something else: a
    call with a qualified type argument is two comparisons, since the scan for
    type arguments does not know [::]; an array length is cut to 32 bits; and
    the type parameters of a function and its [impl] beyond four are dropped. *)
Theorem accepted_as_something_else :
  (read_file "module m; func f(): i32 { let a = g<m::T>(3); return a; }" ≫= fun r => Some (r.1 ≫= first_operator, r.2)) =
    Some (Some BIN_OP_GREATER, 0) /\
  (read_file "module m; struct S { x: array<i32, 4294967297> }" ≫= fun r => Some (r.1 ≫= first_length, r.2)) =
    Some (Some 1%Z, 0) /\
  (read_file "module m; impl<A, B, C> T<A, B, C> { func f<D, E>(d: D, e: E): i32 { return 1; } }" ≫=
     fun r => Some (r.1 ≫= first_member_params, r.2)) = Some (Some 4, 0).
Proof. split; [|split]; by vm_compute. Qed.
