(* ===== verification/Printer.v ===== *)
(** * Printer: expressions as text

    A printer of expressions, as a specification of the grammar: precedence
    levels, left association, and the parentheses that the lookahead of the
    parser makes necessary.  Here what is printed: that it is made of tokens,
    what it starts with, and what the scan for type arguments says of it. *)

From S2P Require Import Prelude Types Mir Diagnostics HashMap Strings Lexer LexerReadback Registry Ast Parser.

Abbreviation Written := (TokenType * list ascii)%type.

(** ** Trees without places *)

Definition nowhere : Span := MkSpan 0 0.
Definition erase_ident (id : ASTIdent) : ASTIdent := MkASTIdent (ident_name id) nowhere.

Fixpoint erase_type (t : TypeExpr) : TypeExpr :=
  match t with
  | TYPE_EXPR_NAME name qualifier => TYPE_EXPR_NAME (erase_ident name) (erase_ident <$> qualifier)
  | TYPE_EXPR_RAW inner => TYPE_EXPR_RAW (erase_type inner)
  | TYPE_EXPR_REF inner => TYPE_EXPR_REF (erase_type inner)
  | TYPE_EXPR_CONST value => TYPE_EXPR_CONST value
  | TYPE_EXPR_APPLY base args => TYPE_EXPR_APPLY (erase_type base) (erase_type <$> args)
  end.

Fixpoint erase (e : ASTExpr) : ASTExpr :=
  match e with
  | EXPR_LITERAL _ lit => EXPR_LITERAL nowhere lit
  | EXPR_BIN_OP _ l r op => EXPR_BIN_OP nowhere (erase l) (erase r) op
  | EXPR_NAME _ name owner => EXPR_NAME nowhere (erase_ident name) (erase_type <$> owner)
  | EXPR_QUALIFIED _ qualifier name owner =>
      EXPR_QUALIFIED nowhere (erase_ident qualifier) (erase_ident name) (erase_type <$> owner)
  | EXPR_CALL _ target args => EXPR_CALL nowhere (erase target) (erase <$> args)
  | EXPR_FIELD _ target name => EXPR_FIELD nowhere (erase target) (erase_ident name)
  | EXPR_ADDR_OF _ target => EXPR_ADDR_OF nowhere (erase target)
  | EXPR_DEREF _ target => EXPR_DEREF nowhere (erase target)
  | EXPR_NEG _ target => EXPR_NEG nowhere (erase target)
  | EXPR_NOT _ target => EXPR_NOT nowhere (erase target)
  | EXPR_CAST _ type => EXPR_CAST nowhere (erase_type type)
  | EXPR_BUILTIN _ name type => EXPR_BUILTIN nowhere (erase_ident name) (erase_type <$> type)
  | EXPR_INDEX _ target index => EXPR_INDEX nowhere (erase target) (erase index)
  | EXPR_ARRAY_LIT _ elements => EXPR_ARRAY_LIT nowhere (erase <$> elements)
  | EXPR_STRUCT_LIT _ type fields =>
      EXPR_STRUCT_LIT nowhere (erase_type type) ((fun f => (erase_ident f.1, erase f.2)) <$> fields)
  end.

(** ** The printer *)

Definition sym (type : TokenType) : Written := (type, default [] (symbol_text type)).

Definition op_token (op : BinOp) : TokenType :=
  match op with
  | BIN_OP_ADD => TOKEN_PLUS | BIN_OP_SUB => TOKEN_MINUS | BIN_OP_MUL => TOKEN_MUL | BIN_OP_DIV => TOKEN_DIV
  | BIN_OP_MOD => TOKEN_MOD | BIN_OP_LESS => TOKEN_LESS | BIN_OP_GREATER => TOKEN_GREATER
  | BIN_OP_EQUAL => TOKEN_EQUAL | BIN_OP_NEQUAL => TOKEN_NEQUAL | BIN_OP_LEQUAL => TOKEN_LEQUAL
  | BIN_OP_GEQUAL => TOKEN_GEQUAL | BIN_OP_AND => TOKEN_AND | BIN_OP_OR => TOKEN_OR
  end.

(** How tightly an operator binds: disjunction and conjunction alike, then
    equality, order, sums, products. *)
Definition op_level (op : BinOp) : nat :=
  match op with
  | BIN_OP_AND | BIN_OP_OR => 1
  | BIN_OP_EQUAL | BIN_OP_NEQUAL => 2
  | BIN_OP_LESS | BIN_OP_GREATER | BIN_OP_LEQUAL | BIN_OP_GEQUAL => 3
  | BIN_OP_ADD | BIN_OP_SUB => 5
  | BIN_OP_MUL | BIN_OP_DIV | BIN_OP_MOD => 6
  end.

(** An expression is an operand of a level up to its own; a struct literal needs
    parentheses where a block may follow. *)
Definition level (ctx : ExprContext) (e : ASTExpr) : nat :=
  match e with
  | EXPR_BIN_OP _ _ _ op => op_level op
  | EXPR_DEREF _ _ | EXPR_NEG _ _ | EXPR_NOT _ _ => 7
  | EXPR_STRUCT_LIT _ _ _ => match ctx with EXPR_ANY => 8 | EXPR_NO_STRUCT_LIT => 0 end
  | _ => 8
  end.

Fixpoint commas (ls : list (list Written)) : list Written :=
  match ls with
  | [] => []
  | [l] => l
  | l :: ls => l ++ sym TOKEN_COMMA :: commas ls
  end.

Definition literal_token (lit : Literal) : TokenType :=
  match lit with
  | LITERAL_INT _ => TOKEN_INT
  | LITERAL_FLOAT _ => TOKEN_FLOAT
  | LITERAL_STRING _ => TOKEN_STRING
  | LITERAL_BOOL true => TOKEN_TRUE
  | LITERAL_BOOL false => TOKEN_FALSE
  end.

(** What may follow [*] without being taken for the type of a cast. *)
Definition bare_pointer (e : ASTExpr) : bool :=
  match e with EXPR_NAME _ _ None | EXPR_DEREF _ _ | EXPR_NEG _ _ | EXPR_NOT _ _ => true | _ => false end.

Section printer.
(** The strings that names point to, and a way to spell each literal. *)
Context (heap : list (list ascii)) (spelling : Literal -> list ascii).

Definition name_text (id : ASTIdent) : list ascii := default [] (heap !! ident_name id).
Definition name_token (id : ASTIdent) : Written := (TOKEN_IDENT, name_text id).

Fixpoint print_type (t : TypeExpr) : list Written :=
  match t with
  | TYPE_EXPR_NAME name None => [name_token name]
  | TYPE_EXPR_NAME name (Some qualifier) => [name_token qualifier; sym TOKEN_COLON_COLON; name_token name]
  | TYPE_EXPR_RAW inner => sym TOKEN_MUL :: print_type inner
  | TYPE_EXPR_REF inner => sym TOKEN_AMP :: print_type inner
  | TYPE_EXPR_CONST value => [(TOKEN_INT, spelling (LITERAL_INT value))]
  | TYPE_EXPR_APPLY base args => print_type base ++ sym TOKEN_LESS :: commas (print_type <$> args) ++ [sym TOKEN_GREATER]
  end.

Definition type_args_text (args : list TypeExpr) : list Written :=
  sym TOKEN_LESS :: commas (print_type <$> args) ++ [sym TOKEN_GREATER].

Fixpoint body (ctx : ExprContext) (e : ASTExpr) : list Written :=
  let parens e := sym TOKEN_LPAREN :: body EXPR_ANY e ++ [sym TOKEN_RPAREN] in
  let operand ctx min e := if Nat.ltb (level ctx e) min then parens e else body ctx e in
  match e with
  | EXPR_LITERAL _ lit => [(literal_token lit, spelling lit)]
  | EXPR_BIN_OP _ l r op =>
      (if decide (op = BIN_OP_LESS) then parens l else operand ctx (op_level op) l) ++
      sym (op_token op) :: operand ctx (S (op_level op)) r
  | EXPR_NAME _ name None => [name_token name]
  | EXPR_NAME _ _ (Some owner) => print_type owner
  | EXPR_QUALIFIED _ qualifier name owner =>
      match owner with None => [name_token qualifier] | Some owner => print_type owner end ++
      [sym TOKEN_COLON_COLON; name_token name]
  | EXPR_CALL _ target args =>
      match target with EXPR_CAST _ type => print_type type | _ => operand ctx 8 target end ++
      sym TOKEN_LPAREN :: commas (body EXPR_ANY <$> args) ++ [sym TOKEN_RPAREN]
  | EXPR_FIELD _ target name => operand ctx 8 target ++ [sym TOKEN_DOT; name_token name]
  | EXPR_INDEX _ target index =>
      operand ctx 8 target ++ sym TOKEN_LBRACKET :: body EXPR_ANY index ++ [sym TOKEN_RBRACKET]
  | EXPR_NEG _ target => sym TOKEN_MINUS :: operand ctx 7 target
  | EXPR_NOT _ target => sym TOKEN_NOT :: operand ctx 7 target
  | EXPR_DEREF _ target => sym TOKEN_MUL :: (if bare_pointer target then operand ctx 7 target else parens target)
  | EXPR_ARRAY_LIT _ elements => sym TOKEN_LBRACKET :: commas (body EXPR_ANY <$> elements) ++ [sym TOKEN_RBRACKET]
  | EXPR_BUILTIN _ name type =>
      (TOKEN_BUILTIN, "@"%char :: name_text name) ::
      match type with Some (TYPE_EXPR_APPLY _ args) => type_args_text args | _ => [] end
  | EXPR_STRUCT_LIT _ type fields =>
      print_type type ++ sym TOKEN_LBRACE ::
      commas ((fun f => name_token f.1 :: sym TOKEN_COLON :: body EXPR_ANY f.2) <$> fields) ++ [sym TOKEN_RBRACE]
  | EXPR_ADDR_OF _ _ | EXPR_CAST _ _ => []
  end.

Definition parens (e : ASTExpr) : list Written := sym TOKEN_LPAREN :: body EXPR_ANY e ++ [sym TOKEN_RPAREN].
Definition operand (ctx : ExprContext) (min : nat) (e : ASTExpr) : list Written :=
  if Nat.ltb (level ctx e) min then parens e else body ctx e.

(** The text of an expression: a token after another. *)
Definition print_expr (ctx : ExprContext) (e : ASTExpr) : list Written := operand ctx 1 e.

(** ** What can be written *)

Definition good_name (id : ASTIdent) : Prop := spells TOKEN_IDENT (name_text id).

Definition good_literal (lit : Literal) : Prop :=
  spells (literal_token lit) (spelling lit) /\
  match lit with
  | LITERAL_INT value => digits_value (spelling lit) = value
  | LITERAL_FLOAT value => strtof (spelling lit) = value
  | LITERAL_STRING p => exists body, spelling lit = quote :: body ++ [quote] /\ unescape body = heap !! p
  | LITERAL_BOOL _ => True
  end.

Definition is_type_name (t : TypeExpr) : bool := match t with TYPE_EXPR_NAME _ _ => true | _ => false end.
Definition is_type_const (t : TypeExpr) : bool := match t with TYPE_EXPR_CONST _ => true | _ => false end.

(** Lengths stand among arguments only, and fit in 32 bits. *)
Fixpoint good_arg (t : TypeExpr) : Prop :=
  match t with
  | TYPE_EXPR_NAME name qualifier => good_name name /\ match qualifier with Some q => good_name q | None => True end
  | TYPE_EXPR_RAW inner | TYPE_EXPR_REF inner => is_type_const inner = false /\ good_arg inner
  | TYPE_EXPR_CONST value => good_literal (LITERAL_INT value) /\ to_i32 value = value
  | TYPE_EXPR_APPLY base args =>
      is_type_name base = true /\ good_arg base /\ args <> [] /\ foldr (fun t P => good_arg t /\ P) True args
  end.
Definition good_type (t : TypeExpr) : Prop := is_type_const t = false /\ good_arg t.

(** The lookahead for type arguments passes no [::]. *)
Fixpoint scannable (t : TypeExpr) : Prop :=
  match t with
  | TYPE_EXPR_NAME _ qualifier => qualifier = None
  | TYPE_EXPR_RAW inner | TYPE_EXPR_REF inner => scannable inner
  | TYPE_EXPR_CONST _ => True
  | TYPE_EXPR_APPLY base args => scannable base /\ foldr (fun t P => scannable t /\ P) True args
  end.

(** The type arguments of a name: the tree holds the name with them. *)
Definition good_owner (name : ASTIdent) (owner : TypeExpr) : Prop :=
  match owner with
  | TYPE_EXPR_APPLY (TYPE_EXPR_NAME name' None) args => ident_name name' = ident_name name
  | _ => False
  end.

(** The type of a cast or of a struct literal: a name and arguments. *)
Definition plain_type (t : TypeExpr) : Prop :=
  match t with
  | TYPE_EXPR_NAME _ _ => True
  | TYPE_EXPR_APPLY (TYPE_EXPR_NAME _ _) args => Forall scannable args
  | _ => False
  end.

Definition unqualified (t : TypeExpr) : bool :=
  match t with
  | TYPE_EXPR_NAME _ None | TYPE_EXPR_APPLY (TYPE_EXPR_NAME _ None) _ => true
  | _ => false
  end.

(** What the parser makes: no [&e], casts and names with arguments under calls only. *)
Definition is_target (e : ASTExpr) : bool :=
  match e with EXPR_CAST _ _ | EXPR_NAME _ _ (Some _) => true | _ => false end.

Fixpoint good (e : ASTExpr) : Prop :=
  match e with
  | EXPR_LITERAL _ lit => good_literal lit
  | EXPR_BIN_OP _ l r _ => (is_target l = false /\ good l) /\ is_target r = false /\ good r
  | EXPR_NAME _ name owner =>
      good_name name /\
      match owner with None => True | Some owner => good_owner name owner /\ good_type owner /\ scannable owner end
  | EXPR_QUALIFIED _ qualifier name owner =>
      good_name qualifier /\ good_name name /\
      match owner with None => True | Some owner => good_owner qualifier owner /\ good_type owner /\ scannable owner end
  | EXPR_CALL _ target args => good target /\ foldr (fun e P => (is_target e = false /\ good e) /\ P) True args
  | EXPR_FIELD _ target name => (is_target target = false /\ good target) /\ good_name name
  | EXPR_INDEX _ target index => (is_target target = false /\ good target) /\ is_target index = false /\ good index
  | EXPR_DEREF _ target | EXPR_NEG _ target | EXPR_NOT _ target => is_target target = false /\ good target
  | EXPR_CAST _ type =>
      match type with
      | TYPE_EXPR_RAW inner => good_type inner /\ plain_type inner /\ unqualified inner = true
      | _ => False
      end
  | EXPR_BUILTIN _ name type =>
      (name_text name <> [] /\ Forall (fun c => is_ident_char c = true) (name_text name)) /\
      match type with
      | None => True
      | Some (TYPE_EXPR_APPLY (TYPE_EXPR_NAME name' None) args) =>
          ident_name name' = ident_name name /\ args <> [] /\ Forall good_arg args
      | _ => False
      end
  | EXPR_ARRAY_LIT _ elements => foldr (fun e P => (is_target e = false /\ good e) /\ P) True elements
  | EXPR_STRUCT_LIT _ type fields =>
      (good_type type /\ plain_type type) /\
      foldr (fun f P => (good_name f.1 /\ is_target f.2 = false /\ good f.2) /\ P) True fields
  | EXPR_ADDR_OF _ _ => False
  end.

Definition writable (e : ASTExpr) : Prop := is_target e = false /\ good e.
End printer.

(** ** Induction *)

Lemma type_expr_induction (P : TypeExpr -> Prop) :
  (forall name qualifier, P (TYPE_EXPR_NAME name qualifier)) -> (forall t, P t -> P (TYPE_EXPR_RAW t)) ->
  (forall t, P t -> P (TYPE_EXPR_REF t)) -> (forall value, P (TYPE_EXPR_CONST value)) ->
  (forall base args, P base -> Forall P args -> P (TYPE_EXPR_APPLY base args)) -> forall t, P t.
Proof.
  intros Hn Hr Hf Hc Ha. fix go 1. intros [name q|t|t|value|base args]; [apply Hn|apply Hr, go|apply Hf, go|apply Hc|].
  apply Ha; [apply go|]. revert args. fix on_args 1. intros [|t args]; constructor; [apply go|apply on_args].
Qed.

Lemma expr_induction (P : ASTExpr -> Prop) :
  (forall span lit, P (EXPR_LITERAL span lit)) ->
  (forall span l r op, P l -> P r -> P (EXPR_BIN_OP span l r op)) ->
  (forall span name owner, P (EXPR_NAME span name owner)) ->
  (forall span qualifier name owner, P (EXPR_QUALIFIED span qualifier name owner)) ->
  (forall span target args, P target -> Forall P args -> P (EXPR_CALL span target args)) ->
  (forall span target name, P target -> P (EXPR_FIELD span target name)) ->
  (forall span target, P target -> P (EXPR_ADDR_OF span target)) ->
  (forall span target, P target -> P (EXPR_DEREF span target)) ->
  (forall span target, P target -> P (EXPR_NEG span target)) ->
  (forall span target, P target -> P (EXPR_NOT span target)) ->
  (forall span type, P (EXPR_CAST span type)) ->
  (forall span name type, P (EXPR_BUILTIN span name type)) ->
  (forall span target index, P target -> P index -> P (EXPR_INDEX span target index)) ->
  (forall span elements, Forall P elements -> P (EXPR_ARRAY_LIT span elements)) ->
  (forall span type fields, Forall (fun f => P f.2) fields -> P (EXPR_STRUCT_LIT span type fields)) ->
  forall e, P e.
Proof.
  intros H1 H2 H3 H4 H5 H6 H7 H8 H9 H10 H11 H12 H13 H14 H15. fix go 1. intros e. destruct e.
  - apply H1.
  - apply H2; apply go.
  - apply H3.
  - apply H4.
  - apply H5; [apply go|]. revert args. fix on_list 1. intros [|e' es]; constructor; [apply go|apply on_list].
  - apply H6, go.
  - apply H7, go.
  - apply H8, go.
  - apply H9, go.
  - apply H10, go.
  - apply H11.
  - apply H12.
  - apply H13; apply go.
  - apply H14. revert elements. fix on_list 1. intros [|e' es]; constructor; [apply go|apply on_list].
  - apply H15. revert fields. fix on_fields 1. intros [|f fs]; constructor; [apply go|apply on_fields].
Qed.

(** The type of the next token; [TOKEN_EOF] at the end. *)
Definition next_type (l : list Written) : TokenType := match l with [] => TOKEN_EOF | t :: _ => t.1 end.

(** What the scan for type arguments answers, on the tokens alone. *)
Fixpoint scan_types (after : TokenType) (depth : nat) (l : list Written) : bool :=
  match depth with
  | O => bool_decide (next_type l = after)
  | S closed =>
      match l with
      | [] => false
      | t :: l =>
          match t.1 with
          | TOKEN_LESS => scan_types after (S depth) l
          | TOKEN_GREATER => scan_types after closed l
          | TOKEN_IDENT | TOKEN_COMMA | TOKEN_AMP | TOKEN_MUL | TOKEN_LBRACKET | TOKEN_RBRACKET | TOKEN_SEMICOLON
          | TOKEN_INT => scan_types after depth l
          | _ => false
          end
      end
  end.

Section printed.
Context {heap : list (list ascii)} {spelling : Literal -> list ascii}.

Lemma good_name_lookup id : good_name heap id -> heap !! ident_name id = Some (name_text heap id).
Proof. unfold good_name, name_text. destruct (heap !! ident_name id); [done|]. by intros (? & ? & _). Qed.

Definition starts_type (type : TokenType) : bool :=
  match type with TOKEN_IDENT | TOKEN_MUL | TOKEN_AMP => true | _ => false end.

Lemma type_head t l :
  is_type_const t = false -> good_arg heap spelling t -> starts_type (next_type (print_type heap spelling t ++ l)) = true.
Proof.
  intros Hc Hg. destruct t as [n [q|]|t|t|z|base args]; try done.
  destruct Hg as (Hb & _). by destruct base as [n [q|]| | | |].
Qed.

Lemma good_args_forall args : foldr (fun t P => good_arg heap spelling t /\ P) True args <-> Forall (good_arg heap spelling) args.
Proof. induction args as [|t args IH]; cbn; [done|]. by rewrite Forall_cons, IH. Qed.


(** *** The scan on what is printed *)

(** Behind type arguments that are open, no [{] closes a scan. *)
Definition safe (l : list Written) : Prop := forall d, scan_types TOKEN_LBRACE (S d) l = false.

Lemma scan_commas after d ls l :
  Forall (fun t => forall l, scan_types after (S d) (t ++ l) = scan_types after (S d) l) ls ->
  scan_types after (S d) (commas ls ++ l) = scan_types after (S d) l.
Proof.
  intros Hall. induction Hall as [|t ls Ht _ IH]; [done|]. destruct ls as [|t2 ls]; cbn [commas]; [apply Ht|].
  rewrite <- app_assoc, Ht. exact IH.
Qed.

Lemma scannable_args args : foldr (fun t P => scannable t /\ P) True args <-> Forall scannable args.
Proof. induction args as [|t args IH]; cbn; [done|]. by rewrite Forall_cons, IH. Qed.

Lemma scan_type after d t l :
  good_arg heap spelling t -> scannable t -> scan_types after (S d) (print_type heap spelling t ++ l) = scan_types after (S d) l.
Proof.
  revert d l. induction t as [name q|t IH|t IH|value|base args IHb IH] using type_expr_induction; intros d l Hg Hs.
  - cbn in Hs. by subst q.
  - destruct Hg. by apply (IH d l).
  - destruct Hg. by apply (IH d l).
  - done.
  - destruct Hg as (_ & Hb & _ & Hargs%good_args_forall). destruct Hs as [Hsb Hsargs%scannable_args].
    cbn [print_type]. rewrite <- app_assoc, IHb by done. cbn [app scan_types sym fst]. rewrite <- app_assoc, scan_commas; [done|].
    apply Forall_fmap. eapply Forall_impl; [|intros t' Ht l'; apply (Ht l')]. cbv beta.
    rewrite Forall_forall in IH, Hargs, Hsargs |- *. intros t' Hin l'. by apply IH; [|apply Hargs|apply Hsargs].
Qed.

Lemma scan_args after args l :
  Forall (good_arg heap spelling) args -> Forall scannable args ->
  scan_types after 1 (commas (print_type heap spelling <$> args) ++ sym TOKEN_GREATER :: l) = bool_decide (next_type l = after).
Proof.
  intros Hg Hs. rewrite scan_commas; [by destruct l|]. apply Forall_fmap. rewrite Forall_forall in Hg, Hs |- *.
  intros t Hin l'. by apply scan_type; [apply Hg|apply Hs].
Qed.

Lemma safe_cons t l : safe l -> t.1 <> TOKEN_GREATER \/ next_type l <> TOKEN_LBRACE -> safe (t :: l).
Proof.
  intros Hl Ht d. cbn [scan_types]. destruct t.1; try done; try apply Hl. destruct Ht as [|Ht]; [done|].
  destruct d as [|d]; [|apply Hl]. destruct l; by apply bool_decide_eq_false_2.
Qed.

(** Types let a scan pass, or end it. *)
Lemma scan_commas_safe d ls l :
  Forall (fun t => forall l, scan_types TOKEN_LBRACE (S d) l = false -> scan_types TOKEN_LBRACE (S d) (t ++ l) = false) ls ->
  scan_types TOKEN_LBRACE (S d) l = false -> scan_types TOKEN_LBRACE (S d) (commas ls ++ l) = false.
Proof.
  intros Hall Hl. induction Hall as [|t ls Ht _ IH]; [done|]. destruct ls as [|t2 ls]; cbn [commas]; [by apply Ht|].
  rewrite <- app_assoc. apply Ht. exact IH.
Qed.

Lemma scan_type_safe d t l :
  good_arg heap spelling t -> scan_types TOKEN_LBRACE (S d) l = false ->
  scan_types TOKEN_LBRACE (S d) (print_type heap spelling t ++ l) = false.
Proof.
  revert d l. induction t as [name q|t IH|t IH|value|base args IHb IH] using type_expr_induction; intros d l Hg Hl.
  - by destruct q.
  - destruct Hg. by apply (IH d l).
  - destruct Hg. by apply (IH d l).
  - done.
  - destruct Hg as (_ & Hb & _ & Hargs%good_args_forall). cbn [print_type]. rewrite <- app_assoc. apply IHb; [done|].
    cbn [app scan_types sym fst]. rewrite <- app_assoc. apply scan_commas_safe; [|done].
    apply Forall_fmap. rewrite Forall_forall in IH, Hargs |- *. intros t Hin l' Hl'. apply IH; [done|by apply Hargs|done].
Qed.

Lemma safe_type t l : good_arg heap spelling t -> safe l -> safe (print_type heap spelling t ++ l).
Proof. intros Hg Hl d. by apply scan_type_safe. Qed.

Lemma safe_type_args args l :
  Forall (good_arg heap spelling) args -> safe l -> safe (type_args_text heap spelling args ++ l).
Proof.
  intros Hg Hl d. unfold type_args_text. cbn [app scan_types sym fst]. rewrite <- app_assoc. apply scan_commas_safe; [|apply (Hl d)].
  apply Forall_fmap. rewrite Forall_forall in Hg |- *. intros t Hin l' Hl'. by apply scan_type_safe; [apply Hg|].
Qed.

(** What an expression starts with. *)
Definition starts_expr (type : TokenType) : bool :=
  match type with
  | TOKEN_INT | TOKEN_FLOAT | TOKEN_STRING | TOKEN_TRUE | TOKEN_FALSE | TOKEN_IDENT | TOKEN_LPAREN | TOKEN_LBRACKET
  | TOKEN_BUILTIN | TOKEN_MUL | TOKEN_MINUS | TOKEN_NOT => true
  | _ => false
  end.

Abbreviation text_of_expr := (body heap spelling).
Abbreviation in_parens := (parens heap spelling).
Abbreviation as_operand := (operand heap spelling).

Definition is_cast (e : ASTExpr) : bool := match e with EXPR_CAST _ _ => true | _ => false end.

Lemma target_no_cast e : is_target e = false -> is_cast e = false.
Proof. by destruct e. Qed.

Lemma good_exprs args :
  foldr (fun e P => (is_target e = false /\ good heap spelling e) /\ P) True args <-> Forall (writable heap spelling) args.
Proof. induction args as [|e args IH]; cbn; [done|]. by rewrite Forall_cons, IH. Qed.

Lemma good_fields (fields : list ASTFieldInit) :
  foldr (fun f P => (good_name heap f.1 /\ is_target f.2 = false /\ good heap spelling f.2) /\ P) True fields <->
  Forall (fun f => good_name heap f.1 /\ writable heap spelling f.2) fields.
Proof. induction fields as [|f fields IH]; cbn; [done|]. by rewrite Forall_cons, IH. Qed.

Lemma type_starts_expr t l : plain_type t -> next_type (print_type heap spelling t ++ l) = TOKEN_IDENT.
Proof. destruct t as [n [q|]| | | |[n [q|]| | | |] args]; done. Qed.

Lemma parens_starts e l : starts_expr (next_type (in_parens e ++ l)) = true.
Proof. done. Qed.

Lemma operand_starts ctx min e l :
  (forall ctx, starts_expr (next_type (text_of_expr ctx e ++ l)) = true) ->
  starts_expr (next_type (as_operand ctx min e ++ l)) = true.
Proof. intros He. unfold operand. destruct (Nat.ltb _ _); [apply parens_starts|apply He]. Qed.

(** The printer's local definitions by their names. *)
Lemma body_bin ctx span l r op :
  text_of_expr ctx (EXPR_BIN_OP span l r op) =
  (if decide (op = BIN_OP_LESS) then in_parens l else as_operand ctx (op_level op) l) ++
  sym (op_token op) :: as_operand ctx (S (op_level op)) r.
Proof. done. Qed.
Lemma body_call ctx span target args :
  text_of_expr ctx (EXPR_CALL span target args) =
  match target with EXPR_CAST _ type => print_type heap spelling type | _ => as_operand ctx 8 target end ++
  sym TOKEN_LPAREN :: commas (text_of_expr EXPR_ANY <$> args) ++ [sym TOKEN_RPAREN].
Proof. done. Qed.
Lemma body_field ctx span target name :
  text_of_expr ctx (EXPR_FIELD span target name) = as_operand ctx 8 target ++ [sym TOKEN_DOT; name_token heap name].
Proof. done. Qed.
Lemma body_index ctx span target index :
  text_of_expr ctx (EXPR_INDEX span target index) =
  as_operand ctx 8 target ++ sym TOKEN_LBRACKET :: text_of_expr EXPR_ANY index ++ [sym TOKEN_RBRACKET].
Proof. done. Qed.
Lemma body_neg ctx span target : text_of_expr ctx (EXPR_NEG span target) = sym TOKEN_MINUS :: as_operand ctx 7 target.
Proof. done. Qed.
Lemma body_not ctx span target : text_of_expr ctx (EXPR_NOT span target) = sym TOKEN_NOT :: as_operand ctx 7 target.
Proof. done. Qed.
Lemma body_deref ctx span target :
  text_of_expr ctx (EXPR_DEREF span target) =
  sym TOKEN_MUL :: (if bare_pointer target then as_operand ctx 7 target else in_parens target).
Proof. done. Qed.

Lemma body_starts ctx e l :
  good heap spelling e -> is_cast e = false -> starts_expr (next_type (text_of_expr ctx e ++ l)) = true.
Proof.
  revert ctx l. induction e using expr_induction; intros ctx l Hg Hc; try done.
  - cbn. by destruct lit as [| |[]|].
  - rewrite body_bin, <- app_assoc. destruct Hg as [[Ht1 Hg1] _]. case_decide; [done|].
    apply operand_starts. intros ctx'. by apply IHe1; [|apply target_no_cast].
  - destruct Hg as (_ & Ho). destruct owner as [owner|]; [|done]. destruct Ho as [Ho _].
    destruct owner as [| | | |[n [q|]| | | |] args]; done.
  - destruct Hg as (_ & _ & Ho). destruct owner as [owner|]; [|done]. destruct Ho as [Ho _].
    destruct owner as [| | | |[n [q|]| | | |] args]; done.
  - rewrite body_call, <- app_assoc. destruct Hg as [Hg _].
    assert (Hop : is_cast e = false -> starts_expr (next_type (as_operand ctx 8 e ++
      sym TOKEN_LPAREN :: (commas (text_of_expr EXPR_ANY <$> args) ++ [sym TOKEN_RPAREN]) ++ l)) = true).
    { intros He. apply operand_starts. intros ctx'. by apply IHe. }
    destruct e; try (by apply Hop). by destruct type_expr.
  - rewrite body_field, <- app_assoc. destruct Hg as [[Ht Hg] _]. apply operand_starts. intros ctx'. by apply IHe; [|apply target_no_cast].
  - rewrite body_index, <- app_assoc. destruct Hg as [[Ht Hg] _]. apply operand_starts. intros ctx'. by apply IHe1; [|apply target_no_cast].
  - destruct Hg as [[_ Hp] _]. cbn [body]. rewrite <- app_assoc. by rewrite type_starts_expr.
Qed.

Lemma no_brace type : starts_expr type = true -> type <> TOKEN_LBRACE.
Proof. by destruct type. Qed.

(** *** Open type arguments never end before a brace *)

Lemma safe_stop type text l :
  match type with
  | TOKEN_LESS | TOKEN_GREATER | TOKEN_IDENT | TOKEN_COMMA | TOKEN_AMP | TOKEN_MUL | TOKEN_LBRACKET | TOKEN_RBRACKET
  | TOKEN_SEMICOLON | TOKEN_INT => false
  | _ => true
  end = true -> safe ((type, text) :: l).
Proof. intros Ht d. by destruct type. Qed.

Lemma safe_pass type text l : safe l -> type <> TOKEN_GREATER -> safe ((type, text) :: l).
Proof. intros Hl Ht. apply safe_cons; [done|by left]. Qed.

Lemma safe_commas ls l :
  Forall (fun t => forall l, safe l -> safe (t ++ l)) ls -> safe l -> safe (commas ls ++ l).
Proof.
  intros Hall Hl. induction Hall as [|t ls Ht _ IH]; [done|]. destruct ls as [|t2 ls]; cbn [commas]; [by apply Ht|].
  rewrite <- app_assoc. apply Ht. by apply safe_pass.
Qed.

Lemma safe_parens e l : (forall ctx l, safe l -> safe (text_of_expr ctx e ++ l)) -> safe (in_parens e ++ l).
Proof. intros He. by apply safe_stop. Qed.

Lemma safe_operand ctx min e l :
  (forall ctx l, safe l -> safe (text_of_expr ctx e ++ l)) -> safe l -> safe (as_operand ctx min e ++ l).
Proof. intros He Hl. unfold operand. destruct (Nat.ltb _ _); [by apply safe_parens|by apply He]. Qed.

Lemma safe_body ctx e l : good heap spelling e -> safe l -> safe (text_of_expr ctx e ++ l).
Proof.
  revert ctx l. induction e using expr_induction; intros ctx l Hg Hl; try done.
  - destruct lit as [| |[]|]; try (by apply safe_stop). by apply safe_pass.
  - destruct Hg as [[_ Hg1] [Ht2 Hg2]]. rewrite body_bin, <- app_assoc. cbn [app].
    assert (Hr : safe (as_operand ctx (S (op_level op)) e2 ++ l)) by (apply safe_operand; [by intros; apply IHe2|done]).
    assert (Htail : safe (sym (op_token op) :: as_operand ctx (S (op_level op)) e2 ++ l)).
    { apply safe_cons; [done|]. right. apply no_brace, operand_starts. intros ctx'.
      by apply body_starts; [|apply target_no_cast]. }
    case_decide; [by apply safe_parens; intros; apply IHe1|by apply safe_operand; [intros; apply IHe1|]].
  - destruct Hg as [_ Ho]. destruct owner as [owner|]; [|by apply safe_pass]. by apply safe_type; [apply Ho|].
  - destruct Hg as (_ & _ & Ho). cbn [body]. rewrite <- app_assoc.
    assert (Htail : safe (sym TOKEN_COLON_COLON :: name_token heap name :: l)) by by apply safe_stop.
    destruct owner as [owner|]; [by apply safe_type; [apply Ho|]|by apply safe_pass].
  - destruct Hg as [Hg _]. rewrite body_call, <- app_assoc. set (tail := sym TOKEN_LPAREN :: _).
    assert (Htail : safe (tail ++ l)) by by apply safe_stop. clearbody tail.
    assert (Hop : safe (as_operand ctx 8 e ++ tail ++ l)) by (apply safe_operand; [by intros; apply IHe|done]).
    destruct e; try exact Hop. cbn [good] in Hg. destruct type_expr; try done. destruct Hg as [[Hc Hg] _].
    by apply (safe_type (TYPE_EXPR_RAW type_expr)); [split|].
  - destruct Hg as [[_ Hg] _]. rewrite body_field, <- app_assoc. apply safe_operand; [by intros; apply IHe|by apply safe_stop].
  - destruct Hg as [_ Hg]. apply safe_pass; [|done]. destruct (bare_pointer e); [apply safe_operand|apply safe_parens];
      by intros; try apply IHe.
  - destruct Hg as [[_ Hg1] [_ Hg2]]. rewrite body_index, <- app_assoc. apply safe_operand; [by intros; apply IHe1|].
    cbn [app]. rewrite <- app_assoc. apply safe_pass; [|done]. apply IHe2; [done|]. by apply safe_pass.
  - apply good_exprs in Hg. cbn [body app]. rewrite <- app_assoc. apply safe_pass; [|done].
    apply safe_commas; [|by apply safe_pass]. apply Forall_fmap. rewrite Forall_forall in H, Hg |- *.
    intros e Hin l' Hl'. apply H; [done|apply Hg, Hin|done].
  - destruct Hg as [[[_ Hg] _] _]. cbn [body]. rewrite <- app_assoc. apply safe_type; [done|by apply safe_stop].
Qed.

(** *** Only tokens are printed *)

Abbreviation tokens_only := (Forall (fun t : Written => spells t.1 t.2)).

Lemma spells_sym type : is_keyword type = false -> is_Some (symbol_text type) -> spells (sym type).1 (sym type).2.
Proof. intros Hk [text Ht]. unfold sym. rewrite Ht. by destruct type. Qed.

Ltac tokens :=
  repeat first [exact (Forall_nil_2 _) | refine (Forall_cons_2 _ _ _ _ _); [first [done|by apply spells_sym]|]].

Lemma tokens_commas ls : Forall tokens_only ls -> tokens_only (commas ls).
Proof.
  intros Hall. induction Hall as [|t ls Ht _ IH]; [done|]. destruct ls as [|t2 ls]; [done|].
  cbn [commas]. apply Forall_app. split; [done|]. constructor; [by apply spells_sym|done].
Qed.

Lemma tokens_type t : good_arg heap spelling t -> tokens_only (print_type heap spelling t).
Proof.
  induction t as [name [q|]|t IH|t IH|value|base args IHb IH] using type_expr_induction; intros Hg; cbn [print_type].
  - destruct Hg. tokens.
  - destruct Hg. tokens.
  - destruct Hg. constructor; [by apply spells_sym|by apply IH].
  - destruct Hg. constructor; [by apply spells_sym|by apply IH].
  - destruct Hg as [[? _] _]. tokens.
  - destruct Hg as (_ & Hb & _ & Hargs%good_args_forall). apply Forall_app. split; [by apply IHb|].
    constructor; [by apply spells_sym|]. apply Forall_app. split; [|tokens].
    apply tokens_commas, Forall_fmap. rewrite Forall_forall in IH, Hargs |- *. intros t Hin. by apply IH, Hargs.
Qed.

Lemma tokens_type_args args : Forall (good_arg heap spelling) args -> tokens_only (type_args_text heap spelling args).
Proof.
  intros Hg. constructor; [by apply spells_sym|]. apply Forall_app. split; [|tokens].
  apply tokens_commas, Forall_fmap. eapply Forall_impl; [done|]. intros t. apply tokens_type.
Qed.

Lemma tokens_parens e : tokens_only (text_of_expr EXPR_ANY e) -> tokens_only (in_parens e).
Proof. intros He. constructor; [by apply spells_sym|]. apply Forall_app. split; [done|]. tokens. Qed.

Lemma tokens_operand ctx min e : (forall ctx, tokens_only (text_of_expr ctx e)) -> tokens_only (as_operand ctx min e).
Proof. intros He. unfold operand. destruct (Nat.ltb _ _); [by apply tokens_parens|done]. Qed.

Lemma tokens_body ctx e : good heap spelling e -> tokens_only (text_of_expr ctx e).
Proof.
  revert ctx. induction e using expr_induction; intros ctx Hg; try done.
  - destruct Hg. tokens.
  - destruct Hg as [[_ Hg1] [_ Hg2]]. rewrite body_bin. apply Forall_app. split.
    + case_decide; [by apply tokens_parens, IHe1|by apply tokens_operand; intros; apply IHe1].
    + constructor; [by apply spells_sym; destruct op|by apply tokens_operand; intros; apply IHe2].
  - destruct Hg as [Hn Ho]. destruct owner as [owner|]; [by apply tokens_type, Ho|tokens].
  - destruct Hg as (Hq & Hn & Ho). cbn [body]. apply Forall_app. split; [|tokens].
    destruct owner as [owner|]; [by apply tokens_type, Ho|tokens].
  - destruct Hg as [Hg Hargs%good_exprs]. rewrite body_call. apply Forall_app. split.
    + assert (Hop : tokens_only (as_operand ctx 8 e)) by (apply tokens_operand; by intros; apply IHe).
      destruct e; try exact Hop. cbn [good] in Hg. destruct type_expr; try done. destruct Hg as [[Hc Hg] _].
      by apply (tokens_type (TYPE_EXPR_RAW type_expr)).
    + constructor; [by apply spells_sym|]. apply Forall_app. split; [|tokens].
      apply tokens_commas, Forall_fmap. rewrite Forall_forall in H, Hargs |- *. intros a Hin. apply H; [done|by apply Hargs].
  - destruct Hg as [[_ Hg] Hn]. rewrite body_field. apply Forall_app.
    split; [apply tokens_operand; by intros; apply IHe|tokens].
  - destruct Hg as [_ Hg]. rewrite body_deref. constructor; [by apply spells_sym|].
    destruct (bare_pointer e); [by apply tokens_operand; intros; apply IHe|by apply tokens_parens, IHe].
  - destruct Hg as [_ Hg]. rewrite body_neg. constructor; [by apply spells_sym|by apply tokens_operand; intros; apply IHe].
  - destruct Hg as [_ Hg]. rewrite body_not. constructor; [by apply spells_sym|by apply tokens_operand; intros; apply IHe].
  - destruct Hg as [[Hne Hall] Ht]. cbn [body]. constructor; [by eexists|].
    destruct type as [[| | | |[n [q|]| | | |] args]|]; try done. destruct Ht as (_ & _ & ?). by apply tokens_type_args.
  - destruct Hg as [[_ Hg1] [_ Hg2]]. rewrite body_index. apply Forall_app.
    split; [by apply tokens_operand; intros; apply IHe1|]. constructor; [by apply spells_sym|]. apply Forall_app.
    split; [by apply IHe2|tokens].
  - apply good_exprs in Hg. cbn [body]. constructor; [by apply spells_sym|]. apply Forall_app. split; [|tokens].
    apply tokens_commas, Forall_fmap. rewrite Forall_forall in H, Hg |- *. intros a Hin. apply H; [done|by apply Hg].
  - destruct Hg as [[[_ Hg] _] Hf%good_fields]. cbn [body]. apply Forall_app. split; [by apply tokens_type|].
    constructor; [by apply spells_sym|]. apply Forall_app. split; [|tokens].
    apply tokens_commas, Forall_fmap. rewrite Forall_forall in H, Hf |- *. intros f Hin. destruct (Hf f Hin) as [Hn [_ Hg']].
    constructor; [done|]. constructor; [done|]. by apply (H f Hin).
Qed.

Lemma tokens_print ctx e : writable heap spelling e -> tokens_only (print_expr heap spelling ctx e).
Proof. intros [_ Hg]. apply tokens_operand. intros. by apply tokens_body. Qed.
End printed.
