(* ===== verification/Interface.v ===== *)
(** * Interface: the interface file of a module

    [src/src/driver/interface.c]: the declarations of a module printed as
    source, with the bodies of generic functions, for the modules that import
    it to parse.  A [FILE] is the text written to it, so a function that prints
    returns what it prints.  Opening and reading the file are not modelled. *)

From S2P Require Import Prelude Types Mir Diagnostics HashMap Strings Lexer Registry Ast Facts Parser Printer.
From stdpp Require Import pretty.
From Stdlib Require Import Floats.SpecFloat.

(** ** [fprintf] *)

(** [%s] *)
Definition cstr (data : list ascii) : list ascii := (span_class (fun c => negb (Ascii.eqb c NUL)) data).1.

(** [%d] and [%lld] *)
Definition decimal (value : Z) : list ascii := bytes (pretty value).

(** The loops that print [", "] in front of all but the first. *)
Fixpoint comma_separated (l : list (list ascii)) : list ascii :=
  match l with
  | [] => []
  | [text] => text
  | text :: l => text ++ bytes ", " ++ comma_separated l
  end.

(** *** [%.9g] and [%g]

    The value is [num / den] with [10^exponent <= num / den], rounded to [precision]
    digits (9, or 6), to even at a tie. *)

Definition rounded (num den : Z) : Z :=
  let q := (num / den)%Z in
  let twice := (2 * (num mod den))%Z in
  if (twice <? den)%Z || ((twice =? den)%Z && Z.even q) then q else (q + 1)%Z.

(** The decimal exponent, from one that is not too small. *)
Fixpoint decimal_exponent (fuel : nat) (num den exponent : Z) : Z :=
  match fuel with
  | O => exponent
  | S fuel =>
      if (num * 10 ^ Z.max 0 (- exponent) <? den * 10 ^ Z.max 0 exponent)%Z then decimal_exponent fuel num den (exponent - 1)
      else exponent
  end.

(** The digits as a number, and the exponent of the first. *)
Definition leading_digits (precision num den : Z) : Z * Z :=
  let exponent := decimal_exponent 100 num den 39 in
  let behind := (precision - 1 - exponent)%Z in
  let digits := rounded (num * 10 ^ Z.max 0 behind) (den * 10 ^ Z.max 0 (- behind)) in
  if (digits =? 10 ^ precision)%Z then ((10 ^ (precision - 1))%Z, (exponent + 1)%Z) else (digits, exponent).

(** [count] digits of a number, the last ones. *)
Fixpoint last_digits (count : nat) (n : Z) : list ascii :=
  match count with
  | O => []
  | S count => last_digits count (n / 10) ++ [ascii_of_nat (48 + Z.to_nat (n mod 10))]
  end.

Fixpoint without_trailing_zeros (l : list ascii) : list ascii :=
  match l with
  | [] => []
  | c :: l => match without_trailing_zeros l with [] => if Ascii.eqb c "0" then [] else [c] | l => c :: l end
  end.

Definition with_point (whole fraction : list ascii) : list ascii :=
  match without_trailing_zeros fraction with [] => whole | fraction => whole ++ "."%char :: fraction end.

Definition positive_text (precision num den : Z) : list ascii :=
  let '(digits, exponent) := leading_digits precision num den in
  if (-4 <=? exponent)%Z && (exponent <? precision)%Z then
    let shift := (precision - 1 - exponent)%Z in
    with_point (decimal (digits / 10 ^ shift)) (last_digits (Z.to_nat shift) digits)
  else
    with_point (decimal (digits / 10 ^ (precision - 1))) (last_digits (Z.to_nat (precision - 1)) digits) ++
    bytes (if (exponent <? 0)%Z then "e-" else "e+") ++
    (if (Z.abs exponent <? 10)%Z then bytes "0" else []) ++ decimal (Z.abs exponent).

Definition float_of_digits (precision : Z) (value : f32) : list ascii :=
  let sign (negative : bool) := if negative then bytes "-" else [] in
  match value with
  | S754_zero s => sign s ++ bytes "0"
  | S754_infinity s => sign s ++ bytes "inf"
  | S754_nan => bytes "nan"
  | S754_finite s m e => sign s ++ positive_text precision (Z.pos m * 2 ^ Z.max 0 e) (2 ^ Z.max 0 (- e))
  end.

(** [%.9g] *)
Definition float_text (value : f32) : list ascii := float_of_digits 9 value.

(** ** The printer *)

Definition bin_op_text (op : BinOp) : list ascii :=
  bytes match op with
  | BIN_OP_ADD => "+" | BIN_OP_SUB => "-" | BIN_OP_MUL => "*" | BIN_OP_DIV => "/" | BIN_OP_MOD => "%"
  | BIN_OP_LESS => "<" | BIN_OP_GREATER => ">" | BIN_OP_EQUAL => "==" | BIN_OP_NEQUAL => "!="
  | BIN_OP_LEQUAL => "<=" | BIN_OP_GEQUAL => ">=" | BIN_OP_AND => "&&" | BIN_OP_OR => "||"
  end.

Section printer.
(** The strings of the pool, and the table of facts about calls. *)
Context (heap : list (list ascii)) (fact_call_kind : ASTExpr -> CallKind).

Definition name_data (name : ASTIdent) : list ascii := cstr (default [] (heap !! ident_name name)).

Fixpoint print_type (type : TypeExpr) : list ascii :=
  match type with
  | TYPE_EXPR_NAME name qualifier =>
      match qualifier with Some qualifier => name_data qualifier ++ bytes "::" | None => [] end ++ name_data name
  | TYPE_EXPR_REF inner => bytes "&" ++ print_type inner
  | TYPE_EXPR_RAW inner => bytes "*" ++ print_type inner
  | TYPE_EXPR_CONST constant => decimal constant
  | TYPE_EXPR_APPLY base args => print_type base ++ bytes "<" ++ comma_separated (print_type <$> args) ++ bytes ">"
  end.

(** [print_type] of a pointer that may be null. *)
Definition print_type_opt (type : option TypeExpr) : list ascii := match type with Some type => print_type type | None => [] end.

Definition print_param (param : ASTTypeParam) : list ascii :=
  name_data param.1 ++ match param.2 with Some bound => bytes ": " ++ print_type bound | None => [] end.

Definition print_params (params : list ASTTypeParam) : list ascii :=
  match params with [] => [] | _ => bytes "<" ++ comma_separated (print_param <$> params) ++ bytes ">" end.

(** The parameters of a struct or an interface have no bounds. *)
Definition unbounded (params : list ASTIdent) : list ASTTypeParam := (fun name => (name, None)) <$> params.

Definition print_literal (literal : Literal) : list ascii :=
  match literal with
  | LITERAL_INT value => decimal value
  | LITERAL_FLOAT value => float_text value
  | LITERAL_BOOL value => bytes (if value then "true" else "false")
  | LITERAL_STRING string => [quote] ++ cstr (default [] (heap !! string)) ++ [quote]
  end.

Fixpoint print_expr (expr : ASTExpr) : list ascii :=
  let print_args (args : list ASTExpr) := bytes "(" ++ comma_separated (print_expr <$> args) ++ bytes ")" in
  match expr with
  | EXPR_LITERAL _ lit => print_literal lit
  | EXPR_BIN_OP _ lhs rhs op =>
      bytes "(" ++ print_expr lhs ++ bytes " " ++ bin_op_text op ++ bytes " " ++ print_expr rhs ++ bytes ")"
  | EXPR_NAME _ name owner => match owner with Some owner => print_type owner | None => name_data name end
  | EXPR_QUALIFIED _ qualifier name owner =>
      match owner with Some owner => print_type owner | None => name_data qualifier end ++ bytes "::" ++ name_data name
  | EXPR_BUILTIN _ name type =>
      bytes "@" ++ name_data name ++
      match type with
      | Some (TYPE_EXPR_APPLY _ args) => bytes "<" ++ comma_separated (print_type <$> args) ++ bytes ">"
      | _ => []
      end
  | EXPR_CALL _ target args =>
      let conversion := bool_decide (fact_call_kind expr = CALL_CONVERSION) in
      match target with
      | EXPR_NAME _ _ (Some owner) => (if conversion then print_type owner else print_expr target) ++ print_args args
      | EXPR_CAST _ type => (if conversion then print_type type else print_expr target) ++ print_args args
      | _ => print_expr target ++ print_args args
      end
  | EXPR_CAST _ type => print_type type
  | EXPR_FIELD _ target name => print_expr target ++ bytes "." ++ name_data name
  | EXPR_INDEX _ target index => print_expr target ++ bytes "[" ++ print_expr index ++ bytes "]"
  | EXPR_ADDR_OF _ target => bytes "&" ++ print_expr target
  | EXPR_DEREF _ target => bytes "*" ++ print_expr target
  | EXPR_NEG _ target => bytes "-" ++ print_expr target
  | EXPR_NOT _ target => bytes "!" ++ print_expr target
  | EXPR_ARRAY_LIT _ elements => bytes "[" ++ comma_separated (print_expr <$> elements) ++ bytes "]"
  | EXPR_STRUCT_LIT _ type fields =>
      print_type type ++ bytes " { " ++
      comma_separated ((fun field => name_data field.1 ++ bytes ": " ++ print_expr field.2) <$> fields) ++ bytes " }"
  end.

(** [print_expr] of a pointer that may be null. *)
Definition print_expr_opt (expr : option ASTExpr) : list ascii := match expr with Some expr => print_expr expr | None => [] end.

Definition print_indent (depth : nat) : list ascii := concat (repeat (bytes "    ") depth).

Definition line (text : list ascii) : list ascii := text ++ [newline].

(** What the cases of a [let] print, without the semicolon. *)
Definition print_var_decl (name : ASTIdent) (type_expr : option TypeExpr) (initializer : option ASTExpr) : list ascii :=
  bytes "let " ++ name_data name ++
  match type_expr with Some type => bytes ": " ++ print_type type | None => [] end ++
  match initializer with Some value => bytes " = " ++ print_expr value | None => [] end.

Definition print_assign (target value : ASTExpr) : list ascii := print_expr target ++ bytes " = " ++ print_expr value.

Definition print_for_header (init : option ASTStmt) (condition : option ASTExpr) (post : option ASTStmt) : list ascii :=
  match init, post with
  | None, None => match condition with Some condition => bytes " " ++ print_expr condition | None => [] end ++ bytes " "
  | _, _ =>
      bytes " " ++
      match init with
      | Some (STMT_VAR_DECL _ name type_expr initializer) => print_var_decl name type_expr initializer
      | Some (STMT_ASSIGN _ target value) => print_assign target value
      | _ => []
      end ++
      bytes "; " ++ print_expr_opt condition ++ bytes "; " ++
      match post with Some (STMT_ASSIGN _ target value) => print_assign target value | _ => [] end ++
      bytes " "
  end.

Fixpoint print_body_stmt (stmt : ASTStmt) (depth : nat) : list ascii :=
  let braces (inside : list ascii) := line (bytes "{") ++ inside ++ print_indent depth ++ bytes "}" in
  let print_list (list : list ASTStmt) := braces (concat ((fun stmt => print_body_stmt stmt (S depth)) <$> list)) in
  let print_block (stmt : ASTStmt) :=
    match stmt with STMT_BLOCK _ list => print_list list | _ => braces (print_body_stmt stmt (S depth)) end in
  print_indent depth ++
  match stmt with
  | STMT_VAR_DECL _ name type_expr initializer => line (print_var_decl name type_expr initializer ++ bytes ";")
  | STMT_EXPR _ value => line (print_expr value ++ bytes ";")
  | STMT_ASSIGN _ target value => line (print_assign target value ++ bytes ";")
  | STMT_COMPOUND_ASSIGN _ target value op =>
      line (print_expr target ++ bytes " " ++ bin_op_text op ++ bytes "= " ++ print_expr value ++ bytes ";")
  | STMT_RETURN _ result => line (bytes "return" ++ bytes " " ++ print_expr result ++ bytes ";")
  | STMT_JUMP _ is_break => line (bytes (if is_break then "break" else "continue") ++ bytes ";")
  | STMT_IF _ condition then_block else_block =>
      line (bytes "if " ++ print_expr condition ++ bytes " " ++ print_block then_block ++
        match else_block with Some block => bytes " else " ++ print_block block | None => [] end)
  | STMT_FOR _ init condition post body => line (bytes "for" ++ print_for_header init condition post ++ print_block body)
  | STMT_BLOCK _ list => line (print_list list)
  | STMT_FUNC_DECL _ _ | STMT_STRUCT_DECL _ _ _ _ _ | STMT_IMPL _ _ _ _ _ _ | STMT_INTERFACE_DECL _ _ _ _ => []
  end.

Definition print_block (stmt : ASTStmt) (depth : nat) : list ascii :=
  line (bytes "{") ++
  match stmt with
  | STMT_BLOCK _ list => concat ((fun stmt => print_body_stmt stmt (S depth)) <$> list)
  | _ => print_body_stmt stmt (S depth)
  end ++
  print_indent depth ++ bytes "}".

(** The body, when it is printed. *)
Definition carries_body (func : ASTFuncDecl ASTStmt) : option ASTStmt :=
  if Nat.ltb 0 (length (func_type_params func)) then func_body func else None.

Definition indent_depth (indent : list ascii) : nat := length indent / 4.

Definition has_syntax (func : ASTFuncDecl ASTStmt) (flag : N) : bool := negb (N.land (func_syntax func) flag =? 0)%N.

Definition print_modifiers (func : ASTFuncDecl ASTStmt) (states_only : bool) : list ascii :=
  (if has_syntax func FUNC_SYN_CALLER then bytes "caller " else []) ++
  (if has_syntax func FUNC_SYN_FOREIGN then bytes "extern " ++ [quote] ++ bytes "C" ++ [quote] ++ bytes " "
   else if has_syntax func FUNC_SYN_INTRINSIC then bytes "intrinsic "
   else if negb states_only && bool_decide (carries_body func = None) &&
           (bool_decide (is_Some (func_body func)) || has_syntax func FUNC_SYN_EXTERN) then bytes "extern "
   else []).

Definition print_func (func : ASTFuncDecl ASTStmt) (indent : list ascii) (inherited : nat) (states_only : bool) : list ascii :=
  indent ++ print_modifiers func states_only ++ bytes "func " ++ name_data (func_ident func) ++
  print_params (drop inherited (func_type_params func)) ++
  bytes "(" ++
  comma_separated ((fun param => name_data (field_ident param) ++ bytes ": " ++ print_type (field_type_expr param)) <$> func_params func) ++
  bytes ")" ++
  match func_return_type func with Some type => bytes ": " ++ print_type type | None => [] end ++
  match carries_body func with
  | None => line (bytes ";")
  | Some body => line (bytes " " ++ print_block body (indent_depth indent))
  end.

Definition print_members (members : list ASTStmt) (inherited : nat) (states_only : bool) : list ascii :=
  concat ((fun member =>
    match member with
    | STMT_FUNC_DECL _ func =>
        let own := length (func_type_params func) in
        print_func func (bytes "    ") (if Nat.ltb inherited own then inherited else own) states_only
    | _ => []
    end) <$> members).

Definition print_stmt (stmt : ASTStmt) : list ascii :=
  match stmt with
  | STMT_FUNC_DECL _ func => print_func func [] 0 false
  | STMT_STRUCT_DECL _ name fields params intrinsic =>
      bytes (if intrinsic then "intrinsic " else "") ++ bytes "struct " ++ name_data name ++ print_params (unbounded params) ++
      line (bytes " {") ++
      concat ((fun field => line (bytes "    " ++ name_data (field_ident field) ++ bytes ": " ++
        print_type (field_type_expr field) ++ bytes ",")) <$> fields) ++
      line (bytes "}")
  | STMT_INTERFACE_DECL _ name members params =>
      bytes "interface " ++ name_data name ++ print_params (unbounded params) ++ line (bytes " {") ++
      print_members members 0 true ++ line (bytes "}")
  | STMT_IMPL _ type members interface_name interface_args params =>
      bytes "impl" ++ print_params params ++ bytes " " ++ print_type type ++
      match interface_name with
      | Some name =>
          bytes " as " ++ name_data name ++
          match interface_args with [] => [] | _ => bytes "<" ++ comma_separated (print_type <$> interface_args) ++ bytes ">" end
      | None => []
      end ++
      line (bytes " {") ++ print_members members (length params) false ++ line (bytes "}")
  | _ => []
  end.

(** Whether an import is stated before the [index]-th of the file with the imports. *)
Definition stated_before (before : list ASTIdent) (name : ASTIdent) : bool :=
  existsb (fun import => Nat.eqb (ident_name import) (ident_name name)) before.

(** The loop over the imports, [before] those of it already seen. *)
Fixpoint print_imports (before imports : list ASTIdent) : list ascii :=
  match imports with
  | [] => []
  | name :: imports =>
      (if stated_before before name then [] else line (bytes "import " ++ name_data name ++ bytes ";")) ++
      print_imports (before ++ [name]) imports
  end.

(** [None] when the module has no name: the code reads through it. *)
Definition gab_interface_print (module : ASTModule) : option (list ascii) :=
  name ← module_name module;
  Some (line (bytes "module " ++ name_data name ++ bytes ";") ++
    print_imports [] (concat (file_imports <$> module_files module)) ++ [newline] ++
    concat (print_stmt <$> concat (file_statements <$> module_files module))).
End printer.

(** ** The digest *)

(** [(hash ^ c) * 1099511628211], in 64 bits. *)
Definition fnv_step (hash : N) (c : ascii) : N := ((N.lxor hash (N_of_ascii c) * 1099511628211) mod 2 ^ 64)%N.

(** The inner [while]: the text from the end of the line. *)
Fixpoint skip_line (text : list ascii) : list ascii :=
  match text with
  | [] => []
  | c :: rest => if Ascii.eqb c NUL || Ascii.eqb c newline then text else skip_line rest
  end.

(** The loop at [at], a [NUL] or the end of [text] in front of it ends it. *)
Fixpoint digest_from (fuel : nat) (text : list ascii) (hash : N) : option N :=
  match fuel with
  | O => None
  | S fuel =>
      match text with
      | [] => Some hash
      | c :: rest =>
          if Ascii.eqb c NUL then Some hash
          else if Ascii.eqb c "/" && bool_decide (head rest = Some "/"%char) then
            match skip_line text with
            | [] => Some hash
            | d :: rest => if Ascii.eqb d NUL then Some hash else digest_from fuel rest (fnv_step hash d)
            end
          else digest_from fuel rest (fnv_step hash c)
      end
  end.

Definition gab_interface_digest (text : list ascii) : option N := digest_from (S (length text)) text 1469598103934665603.

(** [%016llx] *)
Fixpoint hex_digits (count : nat) (n : N) : list ascii :=
  match count with
  | O => []
  | S count =>
      let digit := (n mod 16)%N in
      hex_digits count (n / 16) ++ [ascii_of_N (if (digit <? 10)%N then 48 + digit else 87 + digit)]
  end.

(** What [snprintf] leaves in [out], without its terminator. *)
Definition gab_interface_symbol (capacity : nat) (module : list ascii) (digest : N) : list ascii :=
  take (capacity - 1) (bytes "gab.iface." ++ cstr module ++ bytes "." ++ hex_digits 16 digest).

Lemma skip_line_length text : length (skip_line text) <= length text.
Proof. induction text as [|c rest IH]; [done|]. cbn [skip_line]. destruct (_ || _); cbn [length]; lia. Qed.

(** The digest ends: every turn reads a byte. *)
Lemma gab_interface_digest_total text : is_Some (gab_interface_digest text).
Proof.
  unfold gab_interface_digest. generalize 1469598103934665603%N. revert text.
  assert (Hlen : forall fuel text hash, length text < fuel -> is_Some (digest_from fuel text hash)).
  { induction fuel as [|fuel IH]; intros text hash Hf; [lia|]. cbn [digest_from]. destruct text as [|c rest]; [done|].
    destruct (Ascii.eqb c NUL); [done|]. destruct (_ && _); [|apply IH; cbn in Hf; lia].
    pose proof (skip_line_length (c :: rest)) as Hl. destruct (skip_line (c :: rest)) as [|d rest']; [done|].
    destruct (Ascii.eqb d NUL); [done|]. apply IH. cbn [length] in *. lia. }
  intros text hash. apply Hlen. lia.
Qed.

(** ** What is not read back *)

(** The file that importers of a module of one source parse; [None] when the
    source does not parse. *)
Definition through_interface (source : list ascii) : option (ASTFile * option ASTFile) :=
  strings ← string_pool_init;
  '(file, strings, _) ← parse_file 2000 source strings (diagnostics_init None);
  file ← file;
  printed ← gab_interface_print (pool_heap strings) (fun _ => CALL_FUNCTION) (MkASTModule [file] (file_module_name file));
  '(again, _, _) ← parse_file 2000 printed strings (diagnostics_init None);
  Some (file, again).

(** A module of one generic function. *)
Definition generic_source (body : string) : list ascii := bytes ("module m; func f<T>(p: T): i32 { " +:+ body +:+ " }").

(** The statements of its body. *)
Definition only_body (file : ASTFile) : list ASTStmt :=
  match file_statements file with
  | [STMT_FUNC_DECL _ func] => match func_body func with Some (STMT_BLOCK _ list) => list | _ => [] end
  | _ => []
  end.

Definition returned (body : list ASTStmt) : option ASTExpr :=
  match body with [STMT_RETURN _ result] => Some (erase result) | _ => None end.

(** What of the body is asked for, before and after; [None] behind when the
    importer reports errors. *)
Definition body_through {A} (ask : list ASTStmt -> A) (body : string) : option (A * option A) :=
  match through_interface (generic_source body) with
  | Some (file, again) => Some (ask (only_body file), (fun file => ask (only_body file)) <$> again)
  | None => None
  end.

Definition has_post (body : list ASTStmt) : option bool :=
  match body with [STMT_FOR _ _ _ post _] => Some (bool_decide (is_Some post)) | _ => None end.

(** The [p] of the source, and the name that it is the next to intern. *)
Definition p_name : ASTExpr := EXPR_NAME nowhere (MkASTIdent 3 nowhere) None.
Definition next_name : ASTIdent := MkASTIdent 5 nowhere.

Definition file_text (l : list string) : list ascii := concat ((fun s => bytes s ++ [newline]) <$> l).

(** What importers of a module parse of its generic functions is not what
    the module says.  The target of a field, an index or a call is printed
    without parentheses, so the field of a dereferenced value is the dereference
    of a field, and the dereference of what a function returns a cast; a float
    without a fraction is printed as an integer; the escapes of a string are
    printed as the bytes they mean, and a struct literal in a condition without
    its parentheses, which do not parse; the post statement of a loop is left
    out when it is a compound assignment, and so is a struct declared in a
    function.  The digest that tells two interfaces apart takes [//] in a string
    for a comment. *)
Theorem generic_bodies_change :
  body_through returned "return (*p).x;" =
    Some (Some (EXPR_FIELD nowhere (EXPR_DEREF nowhere p_name) next_name),
          Some (Some (EXPR_DEREF nowhere (EXPR_FIELD nowhere p_name next_name)))) /\
  body_through returned "return *(g(p));" =
    Some (Some (EXPR_DEREF nowhere (EXPR_CALL nowhere (EXPR_NAME nowhere next_name None) [p_name])),
          Some (Some (EXPR_CALL nowhere (EXPR_CAST nowhere (TYPE_EXPR_RAW (TYPE_EXPR_NAME next_name None))) [p_name]))) /\
  body_through returned "return 1.0;" =
    Some (Some (EXPR_LITERAL nowhere (LITERAL_FLOAT (strtof (bytes "1.0")))),
          Some (Some (EXPR_LITERAL nowhere (LITERAL_INT 1)))) /\
  body_through length ("return " +:+ String quote ("a\nb" +:+ String quote ";")) = Some (1, None) /\
  body_through length "if (S { x: 1 }).x { }" = Some (1, None) /\
  body_through has_post "for let i = 0; i < 3; i += 1 { }" = Some (Some true, Some (Some false)) /\
  body_through length "struct S { x: i32 } return p;" = Some (2, Some 1) /\
  gab_interface_digest (file_text ["return "; String quote ("//a" +:+ String quote ";")]) =
    gab_interface_digest (file_text ["return "; String quote ("//b" +:+ String quote "; x();")]).
Proof. vm_compute. repeat split; reflexivity. Qed.

