(* ===== verification/ParserReadback.v ===== *)
(** * ParserReadback: expressions printed and parsed again

    What [Printer] prints is parsed back to the same tree, up to the places in
    the source. *)

From S2P Require Import Prelude Types Mir Diagnostics HashMap Strings Lexer LexerReadback LexerStream Registry Ast.
From S2P Require Import Parser ParserSteps ParserTotal Printer.

(** ** Reading what was written *)

Section reading.
Context (heap : list (list ascii)) (spelling : Literal -> list ascii) (diagnostics : Diagnostics).

(** The parser stands before the tokens, nothing reported so far. *)
Record ahead (l : list Written) (p : Parser) : Prop := {
  ah_pool : pool_ok (lx_strings (ps_lexer p));
  ah_heap : heap `prefix_of` pool_heap (lx_strings (ps_lexer p));
  ah_diagnostics : lx_diagnostics (ps_lexer p) = diagnostics;
  ah_spells : Forall (fun t => spells t.1 t.2) l;
  ah_current : match l with
               | [] => token_type (ps_current p) = TOKEN_EOF
               | t :: _ => read_back (pool_heap (lx_strings (ps_lexer p))) t (ps_current p)
               end;
  ah_text : remaining (ps_lexer p) = print_tokens (tail l);
}.

Definition grows (p q : Parser) : Prop :=
  pool_heap (lx_strings (ps_lexer p)) `prefix_of` pool_heap (lx_strings (ps_lexer q)).

#[export] Instance grows_preorder : PreOrder grows.
Proof. split; [intros p; unfold grows; done|intros p q r; unfold grows; by etrans]. Qed.

(** If the action answers, it read up to [rest] and reported nothing. *)
Definition gives {A} (m : Action A) (p : Parser) (rest : list Written) (Q : A -> Prop) : Prop :=
  match m p with Some (a, q) => (ahead rest q /\ grows p q) /\ Q a | None => True end.

Lemma ahead_type l p : ahead l p -> token_type (ps_current p) = next_type l.
Proof. intros H. pose proof (ah_current _ _ H) as Hc. destruct l as [|t l]; [done|]. apply Hc. Qed.

Lemma gives_done {A} (a : A) p rest (Q : A -> Prop) : ahead rest p -> Q a -> gives (done a) p rest Q.
Proof. intros Ha HQ. split; [split; [done|reflexivity]|done]. Qed.

Lemma gives_weaken {A} (m : Action A) p rest (Q Q' : A -> Prop) : gives m p rest Q' -> (forall a, Q' a -> Q a) -> gives m p rest Q.
Proof. unfold gives. destruct (m p) as [[a q]|]; [|done]. intros [? ?] Hq. split; [done|by apply Hq]. Qed.

Lemma gives_bind {A B} (m : Action A) (f : A -> Action B) p mid rest Q' Q :
  gives m p mid Q' -> (forall a q, ahead mid q -> Q' a -> gives (f a) q rest Q) -> gives (andthen m f) p rest Q.
Proof.
  unfold gives, andthen. intros Hm Hf. destruct (m p) as [[a q]|]; [|done]. cbn [mbind option_bind].
  destruct Hm as [[Ha Hg] Hq]. specialize (Hf a q Ha Hq). destruct (f a q) as [[b r]|]; [|done].
  destruct Hf as [[? ?] ?]. split; [split; [done|by etrans]|done].
Qed.

Lemma gives_orfail {A B} (m : Action (option A)) (f : A -> Action (option B)) p mid rest (Q' : A -> Prop) Q :
  gives m p mid (fun r => exists a, r = Some a /\ Q' a) ->
  (forall a q, ahead mid q -> Q' a -> gives (f a) q rest Q) -> gives (orfail m f) p rest Q.
Proof. intros Hm Hf. eapply gives_bind; [exact Hm|]. intros r q Hq (a & -> & Ha). by apply Hf. Qed.

(** The token that comes next is read, whatever the current one. *)
Lemma gives_token p l :
  pool_ok (lx_strings (ps_lexer p)) -> heap `prefix_of` pool_heap (lx_strings (ps_lexer p)) ->
  lx_diagnostics (ps_lexer p) = diagnostics -> Forall (fun t => spells t.1 t.2) l ->
  remaining (ps_lexer p) = print_tokens l -> gives parser_next_token p l (fun _ => True).
Proof.
  intros Hpool Hheap Hd Hs Ht. unfold gives, parser_next_token. destruct l as [|t2 l].
  - destruct (next_at_end (ps_lexer p) Ht) as (tok & lx' & Hn & He & Hd1 & Hs1). rewrite Hn. cbn [mbind option_bind].
    assert (Hnul : lexer_peek (ps_lexer p) = NUL) by by rewrite peek_remaining, Ht.
    destruct (lexer_next_at_nul _ _ _ Hnul Hn) as [_ Hsame].
    split; [|done]. unfold grows. cbn [ps_lexer]. rewrite Hs1.
    split; [|done]. split; cbn [ps_lexer ps_current tail]; rewrite ?Hs1; [done|done|congruence|done|done|].
    by rewrite <- (same_text_remaining _ _ Hsame).
  - pose proof Hs as [Hs2 _]%Forall_cons.
    destruct (next_printed (ps_lexer p) t2 l Ht Hs2 Hpool) as (tok & lx' & -> & Hread & Hrem & Hpool1 & Hheap1 & Hd1).
    cbn [mbind option_bind]. split; [|done]. split; [|done].
    split; cbn [ps_lexer ps_current tail]; [done|by etrans|congruence|done|done|done].
Qed.

Lemma gives_next {B} (f : unit -> Action B) p t l rest Q :
  ahead (t :: l) p -> (forall q, ahead l q -> gives (f tt) q rest Q) -> gives (andthen parser_next_token f) p rest Q.
Proof.
  intros [Hpool Hheap Hd Hs Hc Ht] Hf. eapply (gives_bind _ _ _ l _ (fun _ => True)); [|by intros [] q Hq _; apply Hf].
  apply Forall_cons in Hs as [_ Hs]. by apply gives_token.
Qed.

Lemma gives_type {B} (f : TokenType -> Action B) p l rest Q :
  ahead l p -> gives (f (next_type l)) p rest Q -> gives (andthen the_type f) p rest Q.
Proof. intros Ha Hf. unfold gives, andthen, the_type. cbn [mbind option_bind]. by rewrite (ahead_type l p Ha). Qed.

Lemma gives_at {B} type (f : bool -> Action B) p l rest Q :
  ahead l p -> gives (f (bool_decide (next_type l = type))) p rest Q -> gives (andthen (at_type type) f) p rest Q.
Proof. intros Ha Hf. unfold gives, andthen, at_type. cbn [mbind option_bind]. by rewrite (ahead_type l p Ha). Qed.

Lemma gives_at_last type p l (Q : bool -> Prop) :
  ahead l p -> Q (bool_decide (next_type l = type)) -> gives (at_type type) p l Q.
Proof. intros Ha HQ. unfold gives, at_type. rewrite (ahead_type l p Ha). split; [split; [done|reflexivity]|done]. Qed.

Lemma gives_type_inv {B} (f : TokenType -> Action B) p l rest Q :
  ahead l p -> gives (andthen the_type f) p rest Q -> gives (f (next_type l)) p rest Q.
Proof. intros Ha Hf. unfold gives, andthen, the_type in Hf. cbn [mbind option_bind] in Hf. by rewrite (ahead_type l p Ha) in Hf. Qed.

(** What goes on behind two steps goes on behind the second. *)
Lemma gives_orfail_assoc {A B C} (m : Action A) (f : A -> Action (option B)) (g : B -> Action (option C)) p rest Q :
  gives (andthen m (fun a => orfail (f a) g)) p rest Q -> gives (orfail (andthen m f) g) p rest Q.
Proof. unfold gives, orfail, andthen. by destruct (m p) as [[a q]|]. Qed.

Lemma gives_orfail_expect {B C} type message (k : Action (option B)) (g : B -> Action (option C)) p rest Q :
  token_type (ps_current p) = type -> gives (orfail k g) p rest Q ->
  gives (orfail (require (parser_expect type message) k) g) p rest Q.
Proof.
  intros Ht Hk. unfold gives, orfail, require, parser_expect, andthen, at_type in *. cbn [mbind option_bind].
  rewrite Ht, bool_decide_eq_true_2 by done. exact Hk.
Qed.

Lemma gives_span {B} (f : Span -> Action B) p rest Q :
  (forall span, gives (f span) p rest Q) -> gives (andthen parser_span f) p rest Q.
Proof. intros Hf. apply Hf. Qed.

Lemma gives_current {B} (f : Token -> Action B) p t l rest Q :
  ahead (t :: l) p ->
  (forall tok, read_back (pool_heap (lx_strings (ps_lexer p))) t tok -> gives (f tok) p rest Q) ->
  gives (andthen the_current f) p rest Q.
Proof. intros Ha Hf. apply (Hf (ps_current p)), (ah_current _ _ Ha). Qed.

Lemma gives_the_token {B} (f : Token -> Action B) p l rest Q :
  ahead l p -> (forall tok, token_type tok = next_type l -> gives (f tok) p rest Q) -> gives (andthen the_current f) p rest Q.
Proof. intros Ha Hf. apply (Hf (ps_current p)), (ahead_type l p Ha). Qed.

(** The name under the cursor. *)
Lemma gives_lexeme {B} (f : Token -> Action B) p text l rest Q :
  ahead ((TOKEN_IDENT, text) :: l) p ->
  (forall tok, token_type tok = TOKEN_IDENT -> token_lexeme tok = text -> gives (f tok) p rest Q) ->
  gives (andthen the_current f) p rest Q.
Proof.
  intros Ha Hf. eapply gives_current; [done|]. intros tok (Ht & Htext & _). cbn [fst snd] in *. apply Hf; [done|].
  unfold token_text in Htext. rewrite Ht in Htext. by destruct Htext.
Qed.

Lemma gives_expect {B} type message (k : Action (option B)) p l rest Q :
  ahead l p -> next_type l = type -> gives k p rest Q -> gives (require (parser_expect type message) k) p rest Q.
Proof.
  intros Ha Ht Hk. unfold require, parser_expect, gives, andthen, at_type. cbn [mbind option_bind].
  rewrite (ahead_type l p Ha), bool_decide_eq_true_2 by done. exact Hk.
Qed.

(** A name of the heap is interned as the pointer it is. *)
Lemma gives_ident {B} span name (f : ASTIdent -> Action B) p l rest Q string :
  ahead l p -> heap !! string = Some name ->
  (forall id q, ident_name id = string -> ahead l q -> gives (f id) q rest Q) ->
  gives (andthen (make_ident span name) f) p rest Q.
Proof.
  intros [Hpool Hheap Hd Hs Hc Ht] Hn Hf. eapply (gives_bind _ _ _ l _ (fun id => ident_name id = string)); [|by eauto].
  unfold gives, make_ident, ast_ident_create.
  destruct (string_from_ref_ok (lx_strings (ps_lexer p)) name Hpool) as (pool & q & -> & Hok & Hl & Hpre).
  cbn [mbind option_bind ident_name]. split; [split; [|done]|].
  - split; cbn [ps_lexer ps_current lx_strings lx_diagnostics with_lexer with_strings]; try done; [by etrans|].
    destruct l as [|t l]; [done|]. by eapply read_back_mono.
  - eapply (pool_ok_inj pool _ _ name); [done|done|]. eapply prefix_lookup_Some; [exact Hn|by etrans].
Qed.

(** *** Looking ahead *)

(** The answer, whatever is read for it. *)
Definition answers (m : Action bool) (p : Parser) (b : bool) : Prop :=
  match m p with Some (a, q) => a = b /\ grows p q /\ exists l, ahead l q | None => True end.

Lemma answers_gives m p l b : gives m p l (eq b) -> answers m p b.
Proof. unfold gives, answers. destruct (m p) as [[a q]|]; [|done]. intros [[? ?] <-]. split; [done|]. split; [done|by exists l]. Qed.

Lemma answers_bind {A} (m : Action A) f p mid b Q :
  gives m p mid Q -> (forall a q, ahead mid q -> Q a -> answers (f a) q b) -> answers (andthen m f) p b.
Proof.
  unfold gives, answers, andthen. intros Hm Hf. destruct (m p) as [[a q]|]; [|done]. destruct Hm as [[Ha Hg] Hq].
  specialize (Hf a q Ha Hq). cbn [mbind option_bind]. destruct (f a q) as [[c r]|]; [|done].
  destruct Hf as (? & ? & ?). split; [done|]. split; [by etrans|done].
Qed.

Lemma answers_next (f : unit -> Action bool) p t l b :
  ahead (t :: l) p -> (forall q, ahead l q -> answers (f tt) q b) -> answers (andthen parser_next_token f) p b.
Proof.
  intros Ha Hf. apply (answers_bind _ _ _ l _ (fun _ => True)); [|by intros [] q Hq _; apply Hf].
  pose proof (gives_next (fun _ => done tt) p t l l (fun _ => True) Ha) as Hn.
  unfold gives, andthen in Hn |- *. destruct (parser_next_token p) as [[[] q]|]; [|done]. by apply Hn.
Qed.

Lemma answers_type (f : TokenType -> Action bool) p l b :
  ahead l p -> answers (f (next_type l)) p b -> answers (andthen the_type f) p b.
Proof. intros Ha Hf. unfold answers, andthen, the_type. cbn [mbind option_bind]. by rewrite (ahead_type l p Ha). Qed.

Lemma answers_at type (f : bool -> Action bool) p l b :
  ahead l p -> answers (f (bool_decide (next_type l = type))) p b -> answers (andthen (at_type type) f) p b.
Proof. intros Ha Hf. unfold answers, andthen, at_type. cbn [mbind option_bind]. by rewrite (ahead_type l p Ha). Qed.

Lemma scan_type_args_answers fuel depth after l p :
  ahead l p -> answers (scan_type_args fuel depth after) p (scan_types after depth l).
Proof.
  revert depth l p. induction fuel as [|fuel IH]; intros depth l p Ha; [done|].
  destruct depth as [|closed]; cbn [scan_type_args].
  { apply (answers_gives _ _ l). apply gives_at_last; [done|by destruct l]. }
  eapply answers_type; [done|]. assert (Hno : answers (done false) p false).
  { split; [done|]. split; [reflexivity|by exists l]. }
  destruct l as [|t l]; [done|]. cbn [next_type scan_types].
  destruct t.1 eqn:Ht; try exact Hno; (eapply answers_next; [done|]; intros q Hq; by apply IH).
Qed.

Lemma parser_scan_type_args_answers fuel after t l p :
  ahead (t :: l) p -> answers (parser_scan_type_args fuel after) p (scan_types after 1 l).
Proof. intros Ha. eapply answers_next; [done|]. intros q Hq. by apply scan_type_args_answers. Qed.

Lemma gives_lookahead m p l b : ahead l p -> answers m p b -> gives (lookahead m) p l (eq b).
Proof.
  intros [Hpool Hheap Hd Hs Hc Ht] Hm. unfold gives, lookahead, answers in *. destruct (m p) as [[a q]|] eqn:Hq; [|done].
  cbn [mbind option_bind]. destruct Hm as (-> & Hg & l' & Ha). split; [|done]. split; [|exact Hg].
  split; cbn [ps_lexer ps_current lx_strings lx_diagnostics];
    [apply (ah_pool _ _ Ha)|apply (ah_heap _ _ Ha)|apply (ah_diagnostics _ _ Ha)|done| |exact Ht].
  destruct l as [|t l]; [done|]. by eapply read_back_mono.
Qed.

(** *** Types *)

Ltac tidy H := cbn [app print_type type_args_text] in H; rewrite <- ?app_assoc in H; cbn [app] in H.
Ltac known := first [rewrite bool_decide_eq_true_2 by done | rewrite bool_decide_eq_false_2 by done]; cbn [negb andb orb]; cbv iota.
Ltac g :=
  lazymatch goal with
  | |- gives (andthen parser_next_token _) _ _ _ =>
      eapply gives_next; [eassumption|]; let q := fresh "q" in let H := fresh "Ha" in intros q H; cbv beta
  | |- gives (andthen the_type _) _ _ _ => eapply gives_type; [eassumption|]; cbn [next_type fst sym name_token]
  | |- gives (andthen (at_type _) _) _ _ _ => eapply gives_at; [eassumption|]; cbn [next_type fst sym name_token]; try known
  | |- gives (require (parser_expect _ _) _) _ _ _ => eapply gives_expect; [eassumption|first [reflexivity|eassumption]|]
  | |- gives (andthen parser_span _) _ _ _ => apply gives_span; intros ?
  | |- gives (andthen the_current _) _ _ _ =>
      eapply gives_lexeme; [eassumption|]; let H := fresh "Hlex" in intros ? _ H; try rewrite H; clear H
  | |- gives (andthen (done _) _) _ _ _ => change (gives (andthen (done ?a) ?f) ?p ?r ?Q) with (gives (f a) p r Q); cbv beta
  end.
Ltac gs := repeat g.

Definition same_type (t : TypeExpr) (r : option TypeExpr) : Prop := exists t', r = Some t' /\ erase_type t' = erase_type t.

Section types.
Context (nested : Action (option TypeExpr)).
Hypothesis (nested_gives : forall t rest p,
  good_type heap spelling t -> next_type rest <> TOKEN_COLON_COLON -> next_type rest <> TOKEN_LESS ->
  ahead (print_type heap spelling t ++ rest) p -> gives nested p rest (same_type t)).

Lemma gives_type_args turns out args rest p :
  args <> [] -> Forall (good_arg heap spelling) args ->
  ahead (commas (print_type heap spelling <$> args) ++ sym TOKEN_GREATER :: rest) p ->
  gives (type_args nested turns out) p (sym TOKEN_GREATER :: rest)
    (fun r => exists l, r = Some (out ++ l) /\ erase_type <$> l = erase_type <$> args).
Proof using All.
  revert out args p. induction turns as [|turns IH]; intros out args p Hne Hg Ha; [done|].
  destruct args as [|t args]; [done|]. apply Forall_cons in Hg as [Ht Hg]. cbn [type_args].
  (* the tokens behind the first argument *)
  set (behind := match args with [] => sym TOKEN_GREATER :: rest
                 | _ => sym TOKEN_COMMA :: commas (print_type heap spelling <$> args) ++ sym TOKEN_GREATER :: rest end).
  assert (Hb : ahead (print_type heap spelling t ++ behind) p).
  { destruct args; subst behind; cbn [fmap list_fmap commas] in Ha |- *; [done|]. by rewrite <- app_assoc in Ha. }
  clear Ha. g.
  apply (gives_orfail _ _ _ behind _ (fun t' => erase_type t' = erase_type t)).
  { destruct (is_type_const t) eqn:Hc.
    - destruct t; try done. destruct Ht as [[Hs Hv] Hz]. cbn [print_type app] in Hb. cbn [print_type app next_type fst].
      rewrite bool_decide_eq_true_2 by done. unfold current_const. eapply gives_current; [done|].
      intros tok (Hty & Htext & _). cbn [fst snd] in *. unfold token_text in Htext. rewrite Hty in Htext.
      destruct Htext as (_ & _ & ->). g. apply gives_done; [done|]. eexists. split; [done|]. cbn. by rewrite Hv, Hz.
    - pose proof (type_head t behind Hc Ht) as Hh. rewrite bool_decide_eq_false_2 by (intros He; by rewrite He in Hh).
      apply nested_gives; [done| | |done]; subst behind; by destruct args. }
  intros t' q Hq Ht'. cbv beta. destruct args as [|t2 args]; subst behind.
  - g. apply gives_done; [done|]. exists [t']. split; [done|]. cbn. by rewrite Ht'.
  - g. g. eapply gives_weaken; [apply (IH _ (t2 :: args)); done|]. intros r (l & -> & Hl). exists (t' :: l).
    rewrite <- app_assoc. split; [done|]. rewrite !fmap_cons, Ht'. by rewrite Hl.
Qed.

Lemma gives_parse_type_args fuel out args rest p :
  args <> [] -> Forall (good_arg heap spelling) args -> ahead (type_args_text heap spelling args ++ rest) p ->
  gives (parse_type_args nested fuel out) p rest
    (fun r => exists l, r = Some (out ++ l) /\ erase_type <$> l = erase_type <$> args).
Proof using All.
  intros Hne Hg Ha. tidy Ha. unfold parse_type_args. g.
  apply (gives_orfail _ _ _ (sym TOKEN_GREATER :: rest) _ (fun r => exists l, r = out ++ l /\ erase_type <$> l = erase_type <$> args)).
  { eapply gives_weaken; [by apply gives_type_args|]. intros r (l & -> & Hl). exists (out ++ l). split; [done|by exists l]. }
  intros l r Hr (l' & -> & Hl). g. g. apply gives_done; [done|by exists l'].
Qed.

Lemma gives_apply fuel base base' args rest p :
  erase_type base' = erase_type base -> args <> [] -> Forall (good_arg heap spelling) args ->
  ahead (type_args_text heap spelling args ++ rest) p ->
  gives (parse_apply nested fuel base') p rest (same_type (TYPE_EXPR_APPLY base args)).
Proof using All.
  intros Hb Hne Hg Ha. unfold parse_apply.
  apply (gives_orfail _ _ _ rest _ (fun l => erase_type <$> l = erase_type <$> args)).
  { eapply gives_weaken; [by apply gives_parse_type_args|]. intros r (l & -> & Hl). by exists l. }
  intros l q Hq Hl. apply gives_done; [done|]. eexists. split; [done|]. cbn. by rewrite Hb, Hl.
Qed.

(** The name a type starts with; what follows decides what the type is. *)
Lemma gives_named fuel name qualifier l rest p Q :
  good_arg heap spelling (TYPE_EXPR_NAME name qualifier) -> next_type l <> TOKEN_COLON_COLON ->
  ahead (print_type heap spelling (TYPE_EXPR_NAME name qualifier) ++ l) p ->
  (forall base q, erase_type base = erase_type (TYPE_EXPR_NAME name qualifier) -> ahead l q ->
     gives (let! applied := at_type TOKEN_LESS in
            if applied : bool then parse_apply nested fuel base else done (Some base)) q rest Q) ->
  gives (parse_named_type nested fuel) p rest Q.
Proof using All.
  intros [Hn Hq] Hl Ha Hk. unfold parse_named_type. pose proof (good_name_lookup _ Hn) as Hlook.
  destruct qualifier as [qualifier|]; tidy Ha.
  - pose proof (good_name_lookup _ Hq) as Hqual. gs.
    apply (gives_orfail _ _ _ l _ (fun r => r.2 = name_text heap name /\ erase_ident <$> r.1 = Some (erase_ident qualifier))).
    { eapply gives_ident; [done|done|]. intros id r Hid Hr. gs. apply gives_done; [done|]. eexists. split; [done|].
      split; [done|]. cbn. unfold erase_ident. by rewrite Hid. }
    intros [q' text] r Hr [Htext Hq']. cbn [fst snd] in *. subst text. eapply gives_ident; [done|done|].
    intros id s Hid Hs. apply Hk; [|done]. cbn. rewrite Hq'. unfold erase_ident. by rewrite Hid.
  - gs. eapply gives_ident; [done|done|].
    intros id s Hid Hs. apply Hk; [|done]. cbn. unfold erase_ident. by rewrite Hid.
Qed.
End types.

Lemma gives_type_expr fuel t rest p :
  good_type heap spelling t -> next_type rest <> TOKEN_COLON_COLON -> next_type rest <> TOKEN_LESS ->
  ahead (print_type heap spelling t ++ rest) p -> gives (parse_type_expr fuel) p rest (same_type t).
Proof.
  revert t rest p. induction fuel as [|fuel IH]; intros t rest p [Hc Hg] Hcc Hless Ha; [done|]. cbn [parse_type_expr].
  assert (Hind : forall inner (kind : TypeExpr -> TypeExpr) q, is_type_const inner = false /\ good_arg heap spelling inner ->
    (forall t', erase_type (kind t') = kind (erase_type t')) ->
    ahead (print_type heap spelling inner ++ rest) q ->
    gives (let? t' := parse_type_expr fuel in done (Some (type_expr_indirect kind t'))) q rest (same_type (kind inner))).
  { intros inner kind q Hi Hk Hq. eapply (gives_orfail _ _ _ rest _ (fun t' => erase_type t' = erase_type inner)).
    - eapply gives_weaken; [by apply IH|]. by intros r (t' & -> & ?); exists t'.
    - intros t' r Hr Ht'. apply gives_done; [done|]. eexists. split; [done|]. unfold type_expr_indirect. by rewrite !Hk, Ht'. }
  destruct t as [name qualifier|inner|inner|z|base args]; try done.
  - assert (Ht : next_type (print_type heap spelling (TYPE_EXPR_NAME name qualifier) ++ rest) = TOKEN_IDENT) by by destruct qualifier.
    eapply gives_type; [done|]. rewrite Ht, !decide_False by done.
    eapply (gives_named _ IH); [done|done|done|]. intros base q Hb Hq. g. apply gives_done; [done|by exists base].
  - tidy Ha. g. rewrite decide_False, decide_True by done. unfold parse_indirect. g.
    rewrite decide_False by done. rewrite decide_True by done. g. by apply (Hind inner TYPE_EXPR_RAW).
  - tidy Ha. g. rewrite decide_True by done. unfold parse_indirect. g.
    rewrite !decide_False by done. g. by apply (Hind inner TYPE_EXPR_REF).
  - destruct Hg as (Hn & Hb & Hne & Hargs). destruct base as [name qualifier| | | |]; try done. apply good_args_forall in Hargs.
    change (print_type heap spelling (TYPE_EXPR_APPLY (TYPE_EXPR_NAME name qualifier) args)) with
      (print_type heap spelling (TYPE_EXPR_NAME name qualifier) ++ type_args_text heap spelling args) in Ha.
    rewrite <- app_assoc in Ha.
    assert (Ht : next_type (print_type heap spelling (TYPE_EXPR_NAME name qualifier) ++ type_args_text heap spelling args ++ rest) = TOKEN_IDENT)
      by by destruct qualifier.
    eapply gives_type; [done|]. rewrite Ht, !decide_False by done.
    eapply (gives_named _ IH); [done| |exact Ha|]; [done|]. intros base q Hb' Hq. g. by apply (gives_apply _ IH).
Qed.

(** *** Expressions *)

Abbreviation text_of_expr := (body heap spelling).
Abbreviation in_parens := (parens heap spelling).
Abbreviation as_operand := (operand heap spelling).
Abbreviation text_of_type := (print_type heap spelling).

Definition same_expr (e : ASTExpr) (r : option ASTExpr) : Prop := exists e', r = Some e' /\ erase e' = erase e.

(** No operand goes on at such a token, and no struct literal begins. *)
Definition stops (ctx : ExprContext) (type : TokenType) : bool :=
  match type with
  | TOKEN_LPAREN | TOKEN_LBRACKET | TOKEN_DOT | TOKEN_COLON_COLON | TOKEN_LESS => false
  | TOKEN_LBRACE => bool_decide (ctx <> EXPR_ANY)
  | _ => true
  end.

Lemma operand_any e : as_operand EXPR_ANY 1 e = text_of_expr EXPR_ANY e.
Proof. unfold operand. destruct e as [| ? ? ? []| | | | | | | | | | | | |]; reflexivity. Qed.

(** What stands behind the first of a list. *)
Definition behind (ls : list (list Written)) (l : list Written) : list Written :=
  match ls with [] => l | _ => sym TOKEN_COMMA :: commas ls ++ l end.

Lemma commas_cons t ls l : commas (t :: ls) ++ l = t ++ behind ls l.
Proof. destruct ls; cbn [commas behind]; [done|]. by rewrite <- app_assoc. Qed.

Lemma safe_exprs es l : Forall (writable heap spelling) es -> safe l -> safe (commas (text_of_expr EXPR_ANY <$> es) ++ l).
Proof.
  intros Hes Hl. apply safe_commas; [|done]. apply Forall_fmap. eapply Forall_impl; [exact Hes|].
  intros e [_ He] l' Hl'. by apply safe_body.
Qed.

(** Type arguments in front of what decides their meaning. *)
Lemma gives_close_with fuel after t l p :
  ahead (t :: l) p -> gives (parser_type_args_close_with fuel after) p (t :: l) (eq (scan_types after 1 l)).
Proof. intros Ha. apply gives_lookahead; [done|]. by eapply parser_scan_type_args_answers. Qed.

Definition type_args_follow (l : list Written) : bool :=
  bool_decide (next_type l = TOKEN_LESS) &&
  (scan_types TOKEN_COLON_COLON 1 (tail l) || scan_types TOKEN_LPAREN 1 (tail l)).

Lemma gives_applied {B} fuel (f : bool -> Action B) p l rest Q :
  ahead l p -> (forall q, ahead l q -> gives (f (type_args_follow l)) q rest Q) ->
  gives (let! less := at_type TOKEN_LESS in
         let! applied :=
           (if less : bool then
              let! colons := parser_type_args_precede_colons fuel in
              if colons : bool then done true else parser_type_args_precede_a_call fuel
            else done false) in
         f applied) p rest Q.
Proof.
  intros Ha Hf. eapply gives_at; [done|]. apply (gives_bind _ _ _ l _ (eq (type_args_follow l))); [|by intros b q Hq <-; apply Hf].
  unfold type_args_follow. destruct (bool_decide_reflect (next_type l = TOKEN_LESS)) as [Hl|Hl]; [|by apply gives_done].
  destruct l as [|t l]; [done|]. cbn [tail andb].
  eapply gives_bind; [by apply gives_close_with|]. intros b q Hq <-. cbv beta.
  destruct (scan_types TOKEN_COLON_COLON 1 l); [by apply gives_done|]. by apply gives_close_with.
Qed.

Lemma erase_some (t t' : TypeExpr) : erase_type t' = erase_type t -> erase_type <$> Some t' = erase_type <$> Some t.
Proof. cbn. by intros ->. Qed.

(** The type arguments a name is given, and the name itself. *)
Lemma gives_type_args_for fuel name id args rest p :
  ident_name id = ident_name name -> args <> [] -> Forall (good_arg heap spelling) args ->
  ahead (type_args_text heap spelling args ++ rest) p ->
  gives (parse_type_args_for fuel id) p rest (same_type (TYPE_EXPR_APPLY (TYPE_EXPR_NAME name None) args)).
Proof.
  intros Hid Hne Hg Ha. unfold parse_type_args_for. eapply gives_apply; [by apply gives_type_expr| |done|done|done].
  cbn. unfold erase_ident. by rewrite Hid.
Qed.

(** What [parse_name] does behind the name and its type arguments. *)
Definition name_tail (span : Span) (lexeme : StringRef) (owner : option TypeExpr) : Action (option ASTExpr) :=
  let! qualified := at_type TOKEN_COLON_COLON in
  if qualified : bool then
    let! qualifier := make_ident span lexeme in
    parser_next_token ;;
    when parser_expect TOKEN_IDENT "expected a name after '::'" in
    let! member := current_ident in
    parser_next_token ;;
    let! again := at_type TOKEN_COLON_COLON in
    if again : bool then parser_error "a qualified name has one '::', as 'Module::name'" ;; done None
    else done (Some (ast_qualified_expr_create span qualifier member owner))
  else
    let! name := make_ident span lexeme in
    done (Some (EXPR_NAME span name owner)).

Lemma erase_ident_eq id name : ident_name id = ident_name name -> erase_ident id = erase_ident name.
Proof. unfold erase_ident. by intros ->. Qed.

Lemma gives_current_ident {B} (f : ASTIdent -> Action B) p name l rest Q :
  good_name heap name -> ahead (name_token heap name :: l) p ->
  (forall id q, erase_ident id = erase_ident name -> ahead (name_token heap name :: l) q -> gives (f id) q rest Q) ->
  gives (andthen current_ident f) p rest Q.
Proof.
  intros Hn Ha Hf. change (andthen current_ident f) with
    (let! span := parser_span in let! token := the_current in andthen (make_ident span (token_lexeme token)) f).
  g. g. eapply gives_ident; [done|by apply good_name_lookup|]. intros id q Hid. apply Hf. by apply erase_ident_eq.
Qed.

Lemma gives_name_tail span s name owner owner' rest p :
  good_name heap name -> erase_type <$> owner' = erase_type <$> owner -> next_type rest <> TOKEN_COLON_COLON ->
  ahead rest p -> gives (name_tail span (name_text heap name) owner') p rest (same_expr (EXPR_NAME s name owner)).
Proof.
  intros Hn Ho Hcc Ha. unfold name_tail. g. eapply gives_ident; [done|by apply good_name_lookup|].
  intros id q Hid Hq. apply gives_done; [done|]. eexists. split; [done|]. cbn. by rewrite Ho, (erase_ident_eq _ _ Hid).
Qed.

Lemma gives_qualified_tail span s qualifier name owner owner' rest p :
  good_name heap qualifier -> good_name heap name -> erase_type <$> owner' = erase_type <$> owner ->
  next_type rest <> TOKEN_COLON_COLON ->
  ahead (sym TOKEN_COLON_COLON :: name_token heap name :: rest) p ->
  gives (name_tail span (name_text heap qualifier) owner') p rest (same_expr (EXPR_QUALIFIED s qualifier name owner)).
Proof.
  intros Hqual Hn Ho Hcc Ha. unfold name_tail. g. eapply gives_ident; [done|by apply good_name_lookup|].
  intros id q Hid Hq. g. g. eapply gives_current_ident; [done|done|]. intros member r Hm Hr. g. g. apply gives_done; [done|].
  eexists. split; [done|]. cbn. by rewrite Ho, Hm, (erase_ident_eq _ _ Hid).
Qed.

(** A name without type arguments, and one with. *)
Lemma gives_bare_name fuel span name l rest p Q :
  ahead (name_token heap name :: l) p -> type_args_follow l = false ->
  (forall q, ahead l q -> gives (name_tail span (name_text heap name) None) q rest Q) ->
  gives (parse_name fuel span) p rest Q.
Proof.
  intros Ha Hno Hk. unfold parse_name. g. g. eapply gives_applied; [done|]. rewrite Hno. intros r Hr. by apply Hk.
Qed.

Lemma gives_applied_name fuel span name owner l rest p Q :
  good_name heap name -> good_owner name owner -> good_type heap spelling owner -> scannable owner ->
  next_type l = TOKEN_COLON_COLON \/ next_type l = TOKEN_LPAREN ->
  ahead (text_of_type owner ++ l) p ->
  (forall owner' q, erase_type owner' = erase_type owner -> ahead l q ->
     gives (name_tail span (name_text heap name) (Some owner')) q rest Q) ->
  gives (parse_name fuel span) p rest Q.
Proof.
  intros Hn Ho [_ Hg] Hs Hl Ha Hk. destruct owner as [| | | |[name' [q'|]| | | |] args]; try done. cbn [good_owner] in Ho.
  destruct Hg as (_ & _ & Hne & Hargs%good_args_forall). destruct Hs as [_ Hs%scannable_args].
  change (ahead (name_token heap name' :: type_args_text heap spelling args ++ l) p) in Ha.
  assert (Hnt : name_token heap name' = name_token heap name) by (unfold name_token, name_text; by rewrite Ho).
  rewrite Hnt in Ha. unfold parse_name. g. g. eapply gives_applied; [done|]. intros r Hr.
  replace (type_args_follow _) with true.
  2:{ unfold type_args_follow, type_args_text. cbn [app tail next_type fst sym]. rewrite bool_decide_eq_true_2 by done.
      rewrite <- app_assoc. cbn [app]. rewrite !scan_args by done. by destruct Hl as [-> | ->]. }
  set (owner := TYPE_EXPR_APPLY (TYPE_EXPR_NAME name' None) args) in *.
  apply (gives_orfail _ _ _ l _ (fun o => exists owner', o = Some owner' /\ erase_type owner' = erase_type owner)).
  { eapply gives_ident; [done|by apply good_name_lookup|]. intros id s Hid Hq.
    apply (gives_orfail _ _ _ l _ (fun owner' => erase_type owner' = erase_type owner)).
    - apply gives_type_args_for; [by rewrite Hid|done|done|done].
    - intros owner' s2 Hq2 Ho'. apply gives_done; [done|]. eexists. split; [done|by exists owner']. }
  intros o s Hq (owner' & -> & Ho'). by apply Hk.
Qed.

Section expressions.
Context (nested : nat -> ExprContext -> Action (option ASTExpr)) (fuel : nat).
Hypothesis (nested_gives : forall min ctx e rest p,
  writable heap spelling e -> stops ctx (next_type rest) = true -> get_precedence (next_type rest) < Nat.max 1 min ->
  safe rest -> ahead (as_operand ctx (Nat.max 1 min) e ++ rest) p -> gives (nested min ctx) p rest (same_expr e)).

(** An expression in brackets, or in a list. *)
Lemma gives_inner {B} e (f : ASTExpr -> Action (option B)) mid rest p Q :
  writable heap spelling e -> stops EXPR_ANY (next_type mid) = true -> get_precedence (next_type mid) = 0 -> safe mid ->
  ahead (text_of_expr EXPR_ANY e ++ mid) p ->
  (forall e' q, ahead mid q -> erase e' = erase e -> gives (f e') q rest Q) ->
  gives (orfail (parse_expression nested EXPR_ANY) f) p rest Q.
Proof using nested_gives.
  intros He Hs Hp Hsafe Ha Hf. apply (gives_orfail _ _ _ mid _ (fun e' => erase e' = erase e)); [|done].
  apply nested_gives; [done|done|lia|done|]. change (Nat.max 1 0) with 1. by rewrite operand_any.
Qed.

Definition same_exprs (out es : list ASTExpr) (r : option (list ASTExpr)) : Prop :=
  exists l, r = Some (out ++ l) /\ erase <$> l = erase <$> es.

Lemma same_exprs_cons out e e' es r :
  erase e' = erase e -> same_exprs (out ++ [e']) es r -> same_exprs out (e :: es) r.
Proof. intros He (l & -> & Hl). exists (e' :: l). rewrite <- app_assoc. split; [done|]. by rewrite !fmap_cons, He, Hl. Qed.

Lemma same_exprs_nil out : same_exprs out [] (Some out).
Proof. exists []. by rewrite app_nil_r. Qed.

Lemma expr_goes_on e l type :
  writable heap spelling e -> starts_expr type = false ->
  bool_decide (next_type (text_of_expr EXPR_ANY e ++ l) = type) = false.
Proof.
  intros [Ht He] Hno. apply bool_decide_eq_false_2. intros Heq.
  pose proof (body_starts EXPR_ANY e l He (target_no_cast e Ht)) as Hs. congruence.
Qed.

Lemma gives_call_args turns out args rest p :
  Forall (writable heap spelling) args ->
  ahead (commas (text_of_expr EXPR_ANY <$> args) ++ sym TOKEN_RPAREN :: rest) p ->
  gives (call_args nested turns out) p (sym TOKEN_RPAREN :: rest) (same_exprs out args).
Proof using nested_gives.
  revert out args p. induction turns as [|turns IH]; intros out args p Hw Ha; [done|]. cbn [call_args].
  destruct args as [|e args]; [g; apply gives_done; [done|apply same_exprs_nil]|].
  apply Forall_cons in Hw as [He Hw]. rewrite fmap_cons, commas_cons in Ha.
  eapply gives_at; [done|]. rewrite expr_goes_on by done. eapply gives_at; [done|]. rewrite expr_goes_on by done.
  assert (Hb : safe (behind (text_of_expr EXPR_ANY <$> args) (sym TOKEN_RPAREN :: rest))).
  { destruct args; [by apply safe_stop|]. apply safe_pass; [|done]. by apply safe_exprs; [|apply safe_stop]. }
  eapply gives_inner; [done| | |exact Hb|exact Ha|]; [by destruct args|by destruct args|].
  intros e' q Hq He'. cbv beta zeta. eapply gives_weaken; [|intros r Hr; by apply (same_exprs_cons _ _ e')].
  destruct args as [|e2 args]; cbn [fmap list_fmap behind] in Hq.
  - g. g. g. by apply IH.
  - g. eapply gives_at; [done|]. cbn [negb andb]. cbv iota. g. by apply IH.
Qed.

Lemma gives_parse_call_args {B} (f : list ASTExpr -> Action (option B)) args l rest p Q :
  Forall (writable heap spelling) args ->
  ahead (sym TOKEN_LPAREN :: commas (text_of_expr EXPR_ANY <$> args) ++ sym TOKEN_RPAREN :: l) p ->
  (forall args' q, erase <$> args' = erase <$> args -> ahead l q -> gives (f args') q rest Q) ->
  gives (orfail (parse_call_args nested fuel) f) p rest Q.
Proof using nested_gives.
  intros Hw Ha Hf. apply (gives_orfail _ _ _ l _ (fun args' => erase <$> args' = erase <$> args)); [|by intros; apply Hf].
  unfold parse_call_args. g.
  apply (gives_orfail _ _ _ (sym TOKEN_RPAREN :: l) _ (fun args' => erase <$> args' = erase <$> args)).
  { eapply gives_weaken; [by apply gives_call_args|]. intros r (l' & -> & Hl). by exists l'. }
  intros args' r Hr Hargs. g. apply gives_done; [done|by exists args'].
Qed.

Lemma gives_array_elements turns out es rest p :
  Forall (writable heap spelling) es -> safe rest ->
  ahead (commas (text_of_expr EXPR_ANY <$> es) ++ sym TOKEN_RBRACKET :: rest) p ->
  gives (array_elements nested turns out) p (sym TOKEN_RBRACKET :: rest) (same_exprs out es).
Proof using nested_gives.
  intros Hw Hsafe Ha. revert out es p Hw Ha. induction turns as [|turns IH]; intros out es p Hw Ha; [done|]. cbn [array_elements].
  destruct es as [|e es]; [g; apply gives_done; [done|apply same_exprs_nil]|].
  apply Forall_cons in Hw as [He Hw]. rewrite fmap_cons, commas_cons in Ha.
  eapply gives_at; [done|]. rewrite expr_goes_on by done. eapply gives_at; [done|]. rewrite expr_goes_on by done.
  assert (Hb : safe (behind (text_of_expr EXPR_ANY <$> es) (sym TOKEN_RBRACKET :: rest))).
  { destruct es; [by apply safe_pass|]. apply safe_pass; [|done]. by apply safe_exprs; [|apply safe_pass]. }
  eapply gives_inner; [done| | |exact Hb|exact Ha|]; [by destruct es|by destruct es|].
  intros e' q Hq He'. cbv beta zeta. eapply gives_weaken; [|intros r Hr; by apply (same_exprs_cons _ _ e')].
  destruct es as [|e2 es]; cbn [fmap list_fmap behind] in Hq.
  - g. apply gives_done; [done|apply same_exprs_nil].
  - g. g. by apply IH.
Qed.

Abbreviation field_text := (fun f : ASTFieldInit => name_token heap f.1 :: sym TOKEN_COLON :: text_of_expr EXPR_ANY f.2).
Abbreviation erase_field := (fun f : ASTFieldInit => (erase_ident f.1, erase f.2)).

Lemma safe_fields (fields : list ASTFieldInit) l :
  Forall (fun f => good_name heap f.1 /\ writable heap spelling f.2) fields -> safe l ->
  safe (commas (field_text <$> fields) ++ l).
Proof.
  intros Hf Hl. apply safe_commas; [|done]. apply Forall_fmap. eapply Forall_impl; [exact Hf|].
  intros [n e] [Hn [_ He]] l' Hl'. cbn [fst snd app]. apply safe_pass; [|done]. by apply safe_stop.
Qed.

Lemma gives_field_inits turns out (fields : list ASTFieldInit) rest p :
  Forall (fun f => good_name heap f.1 /\ writable heap spelling f.2) fields ->
  ahead (commas (field_text <$> fields) ++ sym TOKEN_RBRACE :: rest) p ->
  gives (parse_field_inits nested turns out) p (sym TOKEN_RBRACE :: rest)
    (fun r => exists l, r = Some (out ++ l) /\ erase_field <$> l = erase_field <$> fields).
Proof using nested_gives.
  revert out fields p. induction turns as [|turns IH]; intros out fields p Hw Ha; [done|]. cbn [parse_field_inits].
  destruct fields as [|[n e] fields].
  { g. g. apply gives_done; [done|]. exists []. by rewrite app_nil_r. }
  apply Forall_cons in Hw as [[Hn He] Hw]. cbn [fst snd] in Hn, He. rewrite fmap_cons, commas_cons in Ha.
  cbn [fst snd app] in Ha. g. g. g. g. eapply gives_ident; [done|by apply good_name_lookup|].
  intros id s Hid Hs. g. g. g.
  assert (Hb : safe (behind (field_text <$> fields) (sym TOKEN_RBRACE :: rest))).
  { destruct fields; [by apply safe_stop|]. apply safe_pass; [|done]. by apply safe_fields; [|apply safe_stop]. }
  eapply gives_inner; [done| | |exact Hb|eassumption|]; [by destruct fields|by destruct fields|].
  intros e' r Hr He'. cbv beta zeta. destruct fields as [|f2 fields]; cbn [fmap list_fmap behind] in Hr.
  - g. g. apply gives_done; [done|]. exists [(id, e')]. split; [done|]. cbn. by rewrite He', (erase_ident_eq _ _ Hid).
  - g. g. eapply gives_weaken; [by apply (IH _ (f2 :: fields))|]. intros a (l & -> & Hl). exists ((id, e') :: l).
    rewrite <- app_assoc. split; [done|]. cbn [fmap list_fmap fst snd] in Hl |- *.
    by rewrite Hl, He', (erase_ident_eq _ _ Hid).
Qed.

(** A literal's token holds the literal. *)
Lemma literal_read strings lit tok :
  pool_ok strings -> heap `prefix_of` pool_heap strings -> good_literal heap spelling lit ->
  read_back (pool_heap strings) (literal_token lit, spelling lit) tok -> token_literal tok = Some lit.
Proof using All.
  intros Hpool Hpre [_ Hlit] (Hty & Htext & Hf). cbn [fst snd] in *. unfold token_literal, token_text in *.
  destruct lit as [value|value|[]|string]; cbn [literal_token] in *; rewrite Hty in Htext |- *.
  - destruct Htext as (_ & _ & ->). by rewrite Hlit.
  - rewrite Hf by done. by rewrite Hlit.
  - done.
  - done.
  - destruct Htext as (body & p & content & Hb & -> & Hun & Hp). destruct Hlit as (body' & Hb' & Hun').
    rewrite Hb in Hb'. injection Hb' as Hb'. apply app_inv_tail in Hb'. subst body'. rewrite Hun in Hun'.
    do 2 f_equal. eapply pool_ok_inj; [done|exact Hp|]. by eapply prefix_lookup_Some.
Qed.

Lemma gives_literal span s lit rest p :
  good_literal heap spelling lit -> ahead ((literal_token lit, spelling lit) :: rest) p ->
  gives (parse_literal span) p rest (same_expr (EXPR_LITERAL s lit)).
Proof using All.
  intros Hlit Ha. unfold parse_literal. eapply gives_current; [done|]. intros tok Hread.
  rewrite (literal_read _ lit tok (ah_pool _ _ Ha) (ah_heap _ _ Ha) Hlit Hread). g. apply gives_done; [done|]. by eexists.
Qed.

Lemma gives_parens e rest p :
  writable heap spelling e -> ahead (in_parens e ++ rest) p -> gives (parse_primary nested fuel) p rest (same_expr e).
Proof using nested_gives.
  intros He Ha. unfold parens in Ha. cbn [app] in Ha. rewrite <- app_assoc in Ha. unfold parse_primary. g. g. cbv iota.
  unfold parse_parenthesized. g. eapply gives_inner; [done| | | |eassumption|]; [done|done|by apply safe_stop|].
  intros e' r Hr He'. g. g. apply gives_done; [done|by exists e'].
Qed.

(** *** Postfix operators *)

(** Where a chain of them ends; behind [<], the scan says no struct literal begins. *)
Definition ends (ctx : ExprContext) (l : list Written) : Prop :=
  match next_type l with
  | TOKEN_LPAREN | TOKEN_LBRACKET | TOKEN_DOT => False
  | TOKEN_LBRACE => ctx <> EXPR_ANY
  | TOKEN_LESS => scan_types TOKEN_LBRACE 1 (tail l) = false
  | _ => True
  end.

Lemma stops_ends ctx l : stops ctx (next_type l) = true -> ends ctx l.
Proof using All. unfold ends. destruct (next_type l); try done. by intros Hc%bool_decide_eq_true. Qed.

Lemma gives_postfix_end turns e ctx l p :
  ends ctx l -> ahead l p -> gives (parse_postfix nested fuel turns e ctx) p l (eq (Some e)).
Proof using All.
  intros He Ha. destruct turns as [|turns]; [done|]. cbn [parse_postfix]. eapply gives_type; [done|]. unfold ends in He.
  destruct (next_type l) eqn:Hl; try done; try (by apply gives_done).
  - apply (gives_bind _ _ _ l _ (eq false)); [|by intros b q Hq <-; apply gives_done].
    unfold starts_struct_lit. destruct (_ || _); [by apply gives_done|]. eapply gives_at; [done|].
    rewrite Hl, bool_decide_eq_false_2 by done. destruct l as [|t l]; [done|]. cbn [tail] in He. rewrite <- He.
    by apply gives_close_with.
  - unfold starts_struct_lit. rewrite bool_decide_eq_true_2 by done. cbn [orb]. g. by apply gives_done.
Qed.

(** The rest of a chain, from what was read of it. *)
Definition goes_on (ctx : ExprContext) (e : ASTExpr) (l final : list Written) (Q : option ASTExpr -> Prop) : Prop :=
  forall e' q turns, erase e' = erase e -> ahead l q -> gives (parse_postfix nested fuel turns e' ctx) q final Q.

Definition starts_primary (type : TokenType) : bool :=
  match type with TOKEN_MUL | TOKEN_NOT | TOKEN_MINUS => false | _ => true end.

Lemma gives_unary_primary depth ctx e l mid final p Q :
  ahead l p -> starts_primary (next_type l) = true -> gives (parse_primary nested fuel) p mid (same_expr e) ->
  goes_on ctx e mid final Q -> gives (parse_unary nested fuel (S depth) ctx) p final Q.
Proof using All.
  intros Ha Hs Hp Hk. cbn [parse_unary]. g. eapply gives_type; [done|].
  destruct (decide (next_type l = TOKEN_MUL)) as [Hm|_]; [by rewrite Hm in Hs|]. g.
  assert (Hgo : gives (let? primary := parse_primary nested fuel in parse_postfix nested fuel fuel primary ctx) p final Q).
  { eapply (gives_orfail _ _ _ mid _ (fun e' => erase e' = erase e)); [exact Hp|]. intros e' q Hq He. by apply Hk. }
  cbv iota. by destruct (next_type l).
Qed.

Lemma goes_on_call ctx e s args rest final Q :
  Forall (writable heap spelling) args ->
  goes_on ctx (EXPR_CALL s e args) rest final Q ->
  goes_on ctx e (sym TOKEN_LPAREN :: commas (text_of_expr EXPR_ANY <$> args) ++ sym TOKEN_RPAREN :: rest) final Q.
Proof using nested_gives.
  intros Hargs Hk e' q turns He Hq. destruct turns as [|turns]; [done|]. cbn [parse_postfix]. g. cbv iota.
  apply (gives_orfail _ _ _ rest _ (fun c => erase c = erase (EXPR_CALL s e args))); [|by intros c r Hr Hc; apply Hk].
  unfold parse_call_expr. eapply gives_parse_call_args; [done|done|]. intros args' r Hargs' Hr.
  apply gives_done; [done|]. eexists. split; [done|]. cbn [erase ast_call_expr_create]. by rewrite He, Hargs'.
Qed.

(** A call behind a field is read with it; as two steps it is the same. *)
Lemma goes_on_field ctx e s name rest final Q :
  good_name heap name -> goes_on ctx (EXPR_FIELD s e name) rest final Q ->
  goes_on ctx e (sym TOKEN_DOT :: name_token heap name :: rest) final Q.
Proof using All.
  intros Hn Hk e' q turns He Hq. destruct turns as [|turns]; [done|]. cbn [parse_postfix]. g. cbv iota.
  assert (Hfield : forall span id, erase_ident id = erase_ident name ->
    erase (ast_field_expr_create span e' id) = erase (EXPR_FIELD s e name)) by (intros ? ? Hid; cbn; by rewrite He, Hid).
  unfold parse_field_expr. apply gives_orfail_assoc. g. apply gives_orfail_assoc. g.
  apply gives_orfail_expect; [exact (ahead_type _ _ Ha)|].
  apply gives_orfail_assoc. eapply gives_current_ident; [done|done|]. intros id r Hid Hr.
  apply gives_orfail_assoc. g. apply gives_orfail_assoc. eapply gives_at; [done|].
  destruct (bool_decide_reflect (next_type rest = TOKEN_LPAREN)) as [Hl|Hl].
  - pose proof (Hk _ _ (S turns) (Hfield span id Hid) Ha0) as Hf. cbn [parse_postfix] in Hf.
    apply (gives_type_inv _ _ rest) in Hf; [|done]. by rewrite Hl in Hf.
  - by apply Hk; [apply Hfield|].
Qed.

Lemma goes_on_index ctx e s i rest final Q :
  writable heap spelling i -> safe rest -> goes_on ctx (EXPR_INDEX s e i) rest final Q ->
  goes_on ctx e (sym TOKEN_LBRACKET :: text_of_expr EXPR_ANY i ++ sym TOKEN_RBRACKET :: rest) final Q.
Proof using nested_gives.
  intros Hi Hsafe Hk e' q turns He Hq. destruct turns as [|turns]; [done|]. cbn [parse_postfix]. g. cbv iota.
  apply (gives_orfail _ _ _ rest _ (fun c => erase c = erase (EXPR_INDEX s e i))); [|by intros c r Hr Hc; apply Hk].
  unfold parse_index_expr. g. g. eapply gives_inner; [done| | | |eassumption|]; [done|done|by apply safe_pass|].
  intros i' r Hr Hi'. g. g. apply gives_done; [done|]. eexists. split; [done|]. cbn [erase ast_index_expr_create].
  by rewrite He, Hi'.
Qed.

(** *** Names, literals, lists *)

Lemma gives_name s name owner rest p :
  good heap spelling (EXPR_NAME s name owner) -> next_type rest <> TOKEN_COLON_COLON -> next_type rest <> TOKEN_LESS ->
  (owner <> None -> next_type rest = TOKEN_LPAREN) ->
  ahead (text_of_expr EXPR_ANY (EXPR_NAME s name owner) ++ rest) p ->
  gives (parse_primary nested fuel) p rest (same_expr (EXPR_NAME s name owner)).
Proof using All.
  intros [Hn Ho] Hcc Hless Howner Ha. unfold parse_primary. destruct owner as [owner|]; cbn [body] in Ha.
  - destruct Ho as (Ho & Ht & Hs). g.
    assert (Hty : next_type (text_of_type owner ++ rest) = TOKEN_IDENT)
      by by destruct owner as [| | | |[n [q|]| | | |] args].
    eapply gives_type; [done|]. rewrite Hty. cbv iota.
    eapply gives_applied_name; [exact Hn|exact Ho|exact Ht|exact Hs|right; by apply Howner|exact Ha|].
    intros owner' q Ho' Hq. by apply gives_name_tail; [|apply erase_some| |].
  - cbn [app] in Ha. g. g. cbv iota. eapply gives_bare_name; [exact Ha| |].
    + unfold type_args_follow. by rewrite bool_decide_eq_false_2.
    + intros q Hq. by apply gives_name_tail.
Qed.

Lemma gives_qualified s qualifier name owner ctx rest p :
  good heap spelling (EXPR_QUALIFIED s qualifier name owner) -> next_type rest <> TOKEN_COLON_COLON ->
  ahead (text_of_expr ctx (EXPR_QUALIFIED s qualifier name owner) ++ rest) p ->
  gives (parse_primary nested fuel) p rest (same_expr (EXPR_QUALIFIED s qualifier name owner)).
Proof using All.
  intros (Hq & Hn & Ho) Hcc Ha. unfold parse_primary. cbn [body] in Ha. rewrite <- app_assoc in Ha. cbn [app] in Ha.
  destruct owner as [owner|].
  - destruct Ho as (Ho & Ht & Hs). g.
    assert (Hty : forall l, next_type (text_of_type owner ++ l) = TOKEN_IDENT)
      by (intros; by destruct owner as [| | | |[n [q|]| | | |] args]).
    eapply gives_type; [done|]. rewrite Hty. cbv iota.
    eapply gives_applied_name; [exact Hq|exact Ho|exact Ht|exact Hs| |exact Ha|]; [by left|].
    intros owner' q Ho' Hr. by apply gives_qualified_tail; [| |apply erase_some| |].
  - g. g. cbv iota. eapply gives_bare_name; [exact Ha|done|]. intros q Hr. by apply gives_qualified_tail.
Qed.

Lemma builtin_lexeme strings name tok :
  read_back (pool_heap strings) (TOKEN_BUILTIN, "@"%char :: name_text heap name) tok -> token_lexeme tok = name_text heap name.
Proof using All. intros (Hty & Htext & _). cbn [fst snd] in *. unfold token_text in Htext. rewrite Hty in Htext. by destruct Htext as [[=] _]. Qed.

Lemma good_builtin_lookup name : name_text heap name <> [] -> heap !! ident_name name = Some (name_text heap name).
Proof using All. unfold name_text. by destruct (heap !! ident_name name). Qed.

Lemma gives_builtin s name type ctx rest p :
  good heap spelling (EXPR_BUILTIN s name type) -> next_type rest <> TOKEN_LESS ->
  ahead (text_of_expr ctx (EXPR_BUILTIN s name type) ++ rest) p ->
  gives (parse_primary nested fuel) p rest (same_expr (EXPR_BUILTIN s name type)).
Proof using All.
  intros [[Hne _] Ht] Hless Ha. cbn [body app] in Ha. unfold parse_primary. g. g. cbv iota. unfold parse_builtin.
  pose proof (good_builtin_lookup name Hne) as Hlook.
  eapply gives_current; [done|]. intros tok Hread. rewrite (builtin_lexeme _ _ _ Hread). g.
  set (tail := match type with Some (TYPE_EXPR_APPLY _ args) => type_args_text heap spelling args | _ => [] end ++ rest) in *.
  eapply (gives_at TOKEN_LESS _ _ tail); [done|].
  apply (gives_orfail _ _ _ rest _ (fun o => erase_type <$> o = erase_type <$> type)).
  - destruct type as [[| | | |[n [q'|]| | | |] args]|]; try done; subst tail.
    + destruct Ht as (Hid & Hargs & Hg). rewrite bool_decide_eq_true_2 by done.
      eapply gives_ident; [done|exact Hlook|]. intros id r Hid' Hr.
      apply (gives_orfail _ _ _ rest _ (fun t => erase_type t = erase_type (TYPE_EXPR_APPLY (TYPE_EXPR_NAME n None) args))).
      * apply gives_type_args_for; [congruence|done|done|done].
      * intros t r2 Hr2 Ht. apply gives_done; [done|]. exists (Some t). split; [done|]. by apply erase_some.
    + rewrite bool_decide_eq_false_2 by done. apply gives_done; [done|by exists None].
  - intros o r Hr Ho. eapply gives_ident; [done|exact Hlook|]. intros id r2 Hid Hr2. apply gives_done; [done|].
    eexists. split; [done|]. cbn. by rewrite Ho, (erase_ident_eq _ _ Hid).
Qed.

Lemma gives_array_lit s es ctx rest p :
  good heap spelling (EXPR_ARRAY_LIT s es) -> safe rest ->
  ahead (text_of_expr ctx (EXPR_ARRAY_LIT s es) ++ rest) p ->
  gives (parse_primary nested fuel) p rest (same_expr (EXPR_ARRAY_LIT s es)).
Proof using nested_gives.
  intros Hg%good_exprs Hsafe Ha. cbn [body app] in Ha. rewrite <- app_assoc in Ha. unfold parse_primary. g. g. cbv iota.
  unfold parse_array_lit. g.
  apply (gives_orfail _ _ _ (sym TOKEN_RBRACKET :: rest) _ (fun l => erase <$> l = erase <$> es)).
  { eapply gives_weaken; [by apply gives_array_elements|]. intros r (l & -> & Hl). by exists l. }
  intros l r Hr Hl. g. g. apply gives_done; [done|]. eexists. split; [done|]. cbn [erase ast_array_lit_expr_create]. by rewrite Hl.
Qed.

(** *** Struct literals *)

Lemma struct_lit_erase e e' :
  erase e' = erase e ->
  is_named e' = is_named e /\ erase_type <$> struct_lit_type_expr e' = erase_type <$> struct_lit_type_expr e.
Proof using All.
  intros He. destruct e, e'; try done; cbn in He; injection He; intros; split; try done; cbn; unfold erase_ident; congruence.
Qed.

(** The type arguments that are written behind the name of a type. *)
Definition args_text (type : TypeExpr) : list Written :=
  match type with TYPE_EXPR_APPLY _ args => type_args_text heap spelling args | _ => [] end.

Definition named_expr (name : ASTIdent) (qualifier : option ASTIdent) : ASTExpr :=
  match qualifier with
  | None => EXPR_NAME nowhere name None
  | Some qualifier => EXPR_QUALIFIED nowhere qualifier name None
  end.

Lemma plain_cases type :
  good_type heap spelling type -> plain_type type ->
  exists name qualifier, text_of_type type = text_of_type (TYPE_EXPR_NAME name qualifier) ++ args_text type /\
    good_arg heap spelling (TYPE_EXPR_NAME name qualifier) /\
    (type = TYPE_EXPR_NAME name qualifier \/
     exists args, type = TYPE_EXPR_APPLY (TYPE_EXPR_NAME name qualifier) args /\ args <> [] /\
       Forall (good_arg heap spelling) args /\ Forall scannable args).
Proof using All.
  intros [_ Hg] Hp. destruct type as [name q| | | |[name q| | | |] args]; try done; exists name, q.
  - cbn [args_text]. rewrite app_nil_r. split; [done|]. split; [done|by left].
  - destruct Hg as (_ & Hn & Hne & Hargs%good_args_forall). split; [done|]. split; [done|]. right. by exists args.
Qed.

Lemma gives_named_expr name qualifier tail p :
  good_arg heap spelling (TYPE_EXPR_NAME name qualifier) -> type_args_follow tail = false ->
  next_type tail <> TOKEN_COLON_COLON -> ahead (text_of_type (TYPE_EXPR_NAME name qualifier) ++ tail) p ->
  gives (parse_primary nested fuel) p tail (same_expr (named_expr name qualifier)).
Proof using All.
  intros [Hn Hq] Hno Hcc Ha. unfold parse_primary. destruct qualifier as [q|]; cbn [print_type app] in Ha; g; g; cbv iota.
  - eapply gives_bare_name; [exact Ha|done|]. intros r Hr. by apply gives_qualified_tail.
  - eapply gives_bare_name; [exact Ha|exact Hno|]. intros r Hr. by apply gives_name_tail.
Qed.

Lemma starts_struct_lit_yes e type tail p :
  is_named e = true -> args_text type = [] \/ (exists args, args_text type = type_args_text heap spelling args /\
     Forall (good_arg heap spelling) args /\ Forall scannable args) ->
  ahead (args_text type ++ sym TOKEN_LBRACE :: tail) p ->
  gives (starts_struct_lit fuel e EXPR_ANY) p (args_text type ++ sym TOKEN_LBRACE :: tail) (eq true).
Proof using All.
  intros He Hargs Ha. unfold starts_struct_lit. rewrite He, bool_decide_eq_false_2 by (by intros []). cbn [negb orb]. cbv iota.
  destruct Hargs as [Hn|(args & Hn & Hg & Hs)]; rewrite Hn in *.
  - cbn [app] in Ha |- *. g. by apply gives_done.
  - unfold type_args_text in *. cbn [app] in Ha |- *. g.
    eapply gives_weaken; [by apply gives_close_with|]. intros b <-. rewrite <- app_assoc. cbn [app]. by rewrite scan_args.
Qed.

(** What is written of a type behind its name. *)
Definition applied_to (name : ASTIdent) (qualifier : option ASTIdent) (type : TypeExpr) : Prop :=
  type = TYPE_EXPR_NAME name qualifier \/
  exists args, type = TYPE_EXPR_APPLY (TYPE_EXPR_NAME name qualifier) args /\ args <> [] /\
    Forall (good_arg heap spelling) args /\ Forall scannable args.

Lemma applied_follow name qualifier type l :
  applied_to name qualifier type -> type_args_follow (args_text type ++ sym TOKEN_LBRACE :: l) = false /\
  (next_type (args_text type ++ sym TOKEN_LBRACE :: l) = TOKEN_LBRACE \/
   next_type (args_text type ++ sym TOKEN_LBRACE :: l) = TOKEN_LESS).
Proof using All.
  intros [->|(args & -> & Hne & Hg & Hs)]; cbn [args_text]; [by split; [|left]|]. split; [|by right].
  unfold type_args_follow, type_args_text. cbn [app tail next_type fst sym]. rewrite bool_decide_eq_true_2 by done.
  rewrite <- app_assoc. cbn [app]. by rewrite !scan_args.
Qed.

Lemma gives_struct_type name qualifier type base l p :
  applied_to name qualifier type -> erase_type base = erase_type (TYPE_EXPR_NAME name qualifier) ->
  ahead (args_text type ++ sym TOKEN_LBRACE :: l) p ->
  gives (let! applied := at_type TOKEN_LESS in
         if applied : bool then parse_apply (parse_type_expr fuel) fuel base else done (Some base))
    p (sym TOKEN_LBRACE :: l) (same_type type).
Proof using All.
  intros [->|(args & -> & Hne & Hg & Hs)] Hb Ha; cbn [args_text] in Ha.
  - cbn [app] in Ha. g. apply gives_done; [done|by exists base].
  - g. eapply gives_apply; [by apply gives_type_expr|done|done|done|done].
Qed.

Lemma goes_on_struct s name qualifier type (fields : list ASTFieldInit) rest final Q :
  applied_to name qualifier type -> Forall (fun f => good_name heap f.1 /\ writable heap spelling f.2) fields ->
  goes_on EXPR_ANY (EXPR_STRUCT_LIT s type fields) rest final Q ->
  goes_on EXPR_ANY (named_expr name qualifier)
    (args_text type ++ sym TOKEN_LBRACE :: commas (field_text <$> fields) ++ sym TOKEN_RBRACE :: rest) final Q.
Proof using nested_gives.
  intros Ht Hf Hk e' q turns He Hq. destruct turns as [|turns]; [done|]. cbn [parse_postfix].
  destruct (struct_lit_erase _ _ He) as [Hnamed Hbase].
  set (l := commas (field_text <$> fields) ++ sym TOKEN_RBRACE :: rest) in *.
  assert (Hgo : gives (let! literal := starts_struct_lit fuel e' EXPR_ANY in
            if literal : bool then let? expr := parse_struct_lit_expr nested fuel e' in parse_postfix nested fuel turns expr EXPR_ANY
            else done (Some e')) q final Q).
  2:{ eapply gives_type; [done|]. by destruct (applied_follow _ _ _ l Ht) as [_ [-> | ->]]. }
  eapply gives_bind; [apply starts_struct_lit_yes; [by rewrite Hnamed; destruct qualifier| |exact Hq]|].
  { destruct Ht as [->|(args & -> & _ & ? & ?)]; [by left|by right; exists args]. }
  intros b r Hr <-. cbv beta iota.
  apply (gives_orfail _ _ _ rest _ (fun c => erase c = erase (EXPR_STRUCT_LIT s type fields))); [|by intros c r2 Hr2 Hc; apply Hk].
  unfold parse_struct_lit_expr.
  replace (struct_lit_type_expr (named_expr name qualifier)) with (Some (TYPE_EXPR_NAME name qualifier)) in Hbase by by destruct qualifier.
  destruct (struct_lit_type_expr e') as [base|]; [|done]. apply (inj Some) in Hbase.
  pose proof (gives_struct_type name qualifier type base l r Ht Hbase Hr) as Htype.
  apply (gives_orfail _ _ _ _ rest (fun t => erase_type t = erase_type type) _ Htype).
  intros t r2 Hr2 Hty. g. g.
  apply (gives_orfail _ _ _ (sym TOKEN_RBRACE :: rest) _ (fun l => erase_field <$> l = erase_field <$> fields)).
  { eapply gives_weaken; [by apply gives_field_inits|]. intros o (l' & -> & Hl). by exists l'. }
  intros l' r3 Hr3 Hl. g. apply gives_done; [done|]. eexists. split; [done|].
  cbn [erase ast_struct_lit_expr_create]. rewrite Hty. by f_equal.
Qed.

(** *** Casts *)

Definition star_cast (l : list Written) : bool :=
  match l with
  | t :: l =>
      bool_decide (t.1 = TOKEN_IDENT) &&
      (if decide (next_type l = TOKEN_LESS) then scan_types TOKEN_LPAREN 1 (tail l) else bool_decide (next_type l = TOKEN_LPAREN))
  | [] => false
  end.

Lemma gives_star l p :
  ahead (sym TOKEN_MUL :: l) p ->
  gives (parser_star_precedes_a_cast fuel) p (sym TOKEN_MUL :: l) (eq (star_cast l)).
Proof using All.
  intros Ha. apply gives_lookahead; [done|]. eapply answers_next; [done|]. intros q Hq.
  eapply answers_at; [done|]. destruct l as [|t l]; [by eapply answers_gives, gives_done|]. cbn [next_type star_cast].
  destruct (bool_decide_reflect (t.1 = TOKEN_IDENT)) as [Hi|Hi]; [|by eapply answers_gives, gives_done]. cbn [andb].
  eapply answers_next; [done|]. intros r Hr. eapply answers_at; [done|].
  destruct (decide (next_type l = TOKEN_LESS)) as [Hl|Hl].
  - rewrite bool_decide_eq_true_2 by done. destruct l as [|t2 l]; [done|]. by eapply parser_scan_type_args_answers.
  - rewrite bool_decide_eq_false_2 by done. eapply answers_gives, gives_at_last; [done|done].
Qed.

Lemma gives_cast s1 s2 type args depth ctx rest final p Q :
  good heap spelling (EXPR_CAST s2 type) -> Forall (writable heap spelling) args ->
  goes_on ctx (EXPR_CALL s1 (EXPR_CAST s2 type) args) rest final Q ->
  ahead (text_of_type type ++ sym TOKEN_LPAREN :: commas (text_of_expr EXPR_ANY <$> args) ++ sym TOKEN_RPAREN :: rest) p ->
  gives (parse_unary nested fuel (S depth) ctx) p final Q.
Proof using nested_gives.
  intros Hg Hargs Hk Ha. cbn [good] in Hg. destruct type as [|inner| | |]; try done. destruct Hg as (Hin & Hplain & Hun).
  cbn [parse_unary]. set (l := sym TOKEN_LPAREN :: _) in Ha.
  change (ahead (sym TOKEN_MUL :: text_of_type inner ++ l) p) in Ha. g. g. rewrite decide_True by done.
  assert (Hcast : star_cast (text_of_type inner ++ l) = true).
  { destruct inner as [name [q|]| | | |[name [q|]| | | |] ts]; try done. destruct Hin as [_ (_ & _ & _ & Hts%good_args_forall)].
    cbn [print_type app star_cast name_token fst next_type]. rewrite bool_decide_eq_true_2 by done. rewrite decide_True by done.
    cbn [tail andb]. rewrite <- app_assoc. cbn [app]. by rewrite scan_args. }
  eapply gives_bind; [apply gives_star; exact Ha|]. intros b q Hq <-. rewrite Hcast. cbv iota. unfold parse_cast.
  apply (gives_orfail _ _ _ l _ (fun t => erase_type t = erase_type (TYPE_EXPR_RAW inner))).
  { apply gives_type_expr; [by split; [|split; apply Hin]|done|done|exact Hq]. }
  intros t r Hr Ht. cbv beta zeta. eapply gives_parse_call_args; [done|exact Hr|]. intros args' r2 Hargs' Hr2.
  apply Hk; [|done]. cbn [erase ast_call_expr_create ast_cast_expr_create]. by rewrite Ht, Hargs'.
Qed.

(** *** A primary and its postfix operators *)

Lemma parens_no_target ctx e : Nat.ltb (level ctx e) 8 = true -> is_target e = false.
Proof using All. by destruct e. Qed.

Lemma gives_spine e ctx depth rest final p Q :
  good heap spelling e -> is_cast e = false -> next_type rest <> TOKEN_COLON_COLON -> next_type rest <> TOKEN_LESS ->
  (is_target e = true -> next_type rest = TOKEN_LPAREN) -> safe rest ->
  ahead (as_operand ctx 8 e ++ rest) p -> goes_on ctx e rest final Q ->
  gives (parse_unary nested fuel (S depth) ctx) p final Q.
Proof using nested_gives.
  revert depth rest p. induction e using expr_induction; intros depth rest p Hg Hc Hcc Hless Ht Hsafe Ha Hk;
    unfold operand in Ha; (destruct (Nat.ltb _ _) eqn:Hl in Ha;
      [eapply gives_unary_primary; [exact Ha|done|eapply gives_parens; [split; [by eapply parens_no_target|done]|exact Ha]|exact Hk]|]);
    try done.
  - eapply gives_unary_primary; [exact Ha|by destruct lit as [| |[]|]| |exact Hk]. cbn [body app] in Ha.
    unfold parse_primary. apply gives_span. intros span'. g. pose proof (gives_literal span' span lit rest p Hg Ha) as Hlit.
    by destruct lit as [| |[]|].
  - by destruct op.
  - eapply gives_unary_primary; [exact Ha| |apply (gives_name span); [done|done|done|by destruct owner; [intros _; apply Ht|]|exact Ha]|exact Hk].
    pose proof (body_starts ctx _ rest Hg Hc) as Hs. cbn [body] in Hs |- *. destruct owner as [t|]; [|done].
    destruct Hg as (_ & Ho & _). by destruct t as [| | | |[n [q|]| | | |] args].
  - eapply gives_unary_primary; [exact Ha| |by apply (gives_qualified span qualifier name owner ctx)|exact Hk].
    cbn [body]. destruct owner as [t|]; [|done]. destruct Hg as (_ & _ & Ho & _). by destruct t as [| | | |[n [q|]| | | |] args].
  - destruct Hg as [Hg Hargs%good_exprs]. rewrite body_call, <- app_assoc in Ha. cbn [app] in Ha.
    rewrite <- app_assoc in Ha. cbn [app] in Ha.
    set (l := sym TOKEN_LPAREN :: _) in Ha.
    assert (Hop : is_cast e = false -> ahead (as_operand ctx 8 e ++ l) p -> gives (parse_unary nested fuel (S depth) ctx) p final Q).
    { intros Hcast Hop. eapply (IHe depth l p); [done|done|done|done|done|by apply safe_stop|done|]. by eapply goes_on_call. }
    destruct e; try (by apply Hop). by eapply gives_cast.
  - destruct Hg as [[Htt Hg] Hn]. rewrite body_field, <- app_assoc in Ha. cbn [app] in Ha.
    eapply IHe; [done|by apply target_no_cast| | | | |exact Ha|]; [done|done|congruence|by apply safe_stop|]. by eapply goes_on_field.
  - eapply gives_unary_primary; [exact Ha|done|by apply (gives_builtin span name type ctx)|exact Hk].
  - destruct Hg as [[Htt Hg] Hi]. rewrite body_index, <- app_assoc in Ha. cbn [app] in Ha.
    rewrite <- app_assoc in Ha. cbn [app] in Ha.
    eapply IHe1; [done|by apply target_no_cast| | | | |exact Ha|]; [done|done|congruence| |by eapply goes_on_index].
    apply safe_pass; [|done]. apply safe_body; [apply Hi|by apply safe_pass].
  - eapply gives_unary_primary; [exact Ha|done|by apply (gives_array_lit span elements ctx)|exact Hk].
  - destruct ctx; [|done]. destruct Hg as [[Hty Hp] Hf%good_fields]. cbn [body] in Ha. rewrite <- app_assoc in Ha. cbn [app] in Ha.
    rewrite <- app_assoc in Ha. cbn [app] in Ha.
    destruct (plain_cases type Hty Hp) as (name & qualifier & Htext & Hn & Happ). rewrite Htext, <- app_assoc in Ha.
    destruct (applied_follow _ _ _ (commas (field_text <$> fields) ++ sym TOKEN_RBRACE :: rest) Happ) as [Hno Hnext].
    eapply gives_unary_primary; [exact Ha|by destruct qualifier| |].
    + apply gives_named_expr; [exact Hn|exact Hno| |exact Ha]. by destruct Hnext as [-> | ->].
    + by apply (goes_on_struct span).
Qed.

(** *** Prefix operators *)

Lemma gives_unary_parens depth ctx e rest p :
  writable heap spelling e -> ends ctx rest -> ahead (in_parens e ++ rest) p ->
  gives (parse_unary nested fuel depth ctx) p rest (same_expr e).
Proof using nested_gives.
  intros He Hend Ha. destruct depth as [|depth]; [done|].
  eapply gives_unary_primary; [exact Ha|done|by apply gives_parens|]. intros e' q turns He' Hq.
  eapply gives_weaken; [by apply gives_postfix_end|]. intros r <-. by exists e'.
Qed.

Lemma stops_not ctx type :
  stops ctx type = true -> type <> TOKEN_COLON_COLON /\ type <> TOKEN_LESS /\ type <> TOKEN_LPAREN.
Proof using All. by destruct type. Qed.

(** The operator in front, then the operand. *)
Lemma gives_prefix depth ctx e kind type rest p l :
  (type, kind) ∈ [(TOKEN_MUL, EXPR_DEREF); (TOKEN_NOT, EXPR_NOT); (TOKEN_MINUS, EXPR_NEG)] ->
  ahead (sym type :: l) p -> (type = TOKEN_MUL -> star_cast l = false) ->
  (forall q, ahead l q -> gives (parse_unary nested fuel depth ctx) q rest (same_expr e)) ->
  gives (parse_unary nested fuel (S depth) ctx) p rest (same_expr (kind nowhere e)).
Proof using All.
  intros Hin Ha Hcast Hk. cbn [parse_unary]. apply gives_span. intros span. eapply gives_type; [done|]. cbn [next_type fst sym].
  assert (Hop : forall q, ahead l q -> gives (let? target := parse_unary nested fuel depth ctx in done (Some (kind span target))) q rest
            (same_expr (kind nowhere e))).
  { intros q Hq. apply (gives_orfail _ _ _ rest _ (fun e' => erase e' = erase e)); [by apply Hk|].
    intros e' r Hr He. apply gives_done; [done|]. eexists. split; [done|].
    rewrite !elem_of_cons, elem_of_nil in Hin. by destruct Hin as [[= -> ->]|[[= -> ->]|[[= -> ->]|[]]]]; cbn; rewrite He. }
  apply (gives_bind _ _ _ (sym type :: l) _ (eq false)).
  - destruct (decide (type = TOKEN_MUL)) as [->|Hn]; [|by apply gives_done]. rewrite <- Hcast by done. by apply gives_star.
  - intros b q Hq <-. cbv iota. rewrite !elem_of_cons, elem_of_nil in Hin.
    destruct Hin as [[= -> ->]|[[= -> ->]|[[= -> ->]|[]]]]; cbv iota; (eapply gives_next; [exact Hq|exact Hop]).
Qed.

Lemma same_prefix e e' r : erase e = erase e' -> same_expr e' r -> same_expr e r.
Proof using All. intros He (e2 & -> & He2). exists e2. split; [done|congruence]. Qed.

Lemma bare_no_cast ctx e rest :
  bare_pointer e = true -> stops ctx (next_type rest) = true -> star_cast (as_operand ctx 7 e ++ rest) = false.
Proof using All.
  intros Hb (_ & Hless & Hparen)%stops_not. destruct e as [| |? name [o|]| | | | | | | | | | | |]; try done.
  change (star_cast (name_token heap name :: rest) = false). cbn [star_cast].
  rewrite (bool_decide_eq_false_2 (next_type rest = _)), decide_False by done. apply andb_false_r.
Qed.

Lemma gives_unary depth ctx e rest p :
  writable heap spelling e -> stops ctx (next_type rest) = true -> safe rest -> ahead (as_operand ctx 7 e ++ rest) p ->
  gives (parse_unary nested fuel depth ctx) p rest (same_expr e).
Proof using nested_gives.
  revert e rest p. induction depth as [|depth IH]; intros e rest p [Ht Hg] Hs Hsafe Ha; [done|].
  destruct (stops_not _ _ Hs) as (Hcc & Hless & Hparen). unfold operand in Ha. destruct (Nat.ltb _ _) eqn:Hl in Ha.
  { apply gives_unary_parens; [done|by apply stops_ends|done]. }
  assert (Hspine : as_operand ctx 8 e = text_of_expr ctx e -> gives (parse_unary nested fuel (S depth) ctx) p rest (same_expr e)).
  { intros Htext. eapply gives_spine; [done|by apply target_no_cast|done|done|congruence|done|by rewrite Htext|].
    intros e' q turns He Hq. eapply gives_weaken; [apply gives_postfix_end; [by apply stops_ends|done]|]. intros r <-. by exists e'. }
  assert (Hop : forall kind type target l q, erase e = erase (kind nowhere target) ->
     (type, kind) ∈ [(TOKEN_MUL, EXPR_DEREF); (TOKEN_NOT, EXPR_NOT); (TOKEN_MINUS, EXPR_NEG)] ->
     (type = TOKEN_MUL -> star_cast (l ++ rest) = false) -> ahead (sym type :: l ++ rest) q ->
     (forall q, ahead (l ++ rest) q -> gives (parse_unary nested fuel depth ctx) q rest (same_expr target)) ->
     gives (parse_unary nested fuel (S depth) ctx) q rest (same_expr e)).
  { intros kind type target l q Her Hin Hcast Hq Hk. eapply gives_weaken; [by eapply gives_prefix|].
    intros r. by apply same_prefix. }
  destruct e; try (by apply Hspine); try done.
  - by destruct op.
  - destruct Hg as [Htt Hgt]. rewrite body_deref in Ha. destruct (bare_pointer e) eqn:Hb.
    + eapply (Hop EXPR_DEREF TOKEN_MUL e (as_operand ctx 7 e)); [done|by left|intros _; by apply (bare_no_cast ctx)|done|].
      intros q Hq. by apply IH.
    + eapply (Hop EXPR_DEREF TOKEN_MUL e (in_parens e)); [done|by left|done|done|].
      intros q Hq. by apply gives_unary_parens; [|apply stops_ends|].
  - rewrite body_neg in Ha. eapply (Hop EXPR_NEG TOKEN_MINUS e (as_operand ctx 7 e)); [done|by right; right; left|done|done|].
    intros q Hq. by apply IH.
  - rewrite body_not in Ha. eapply (Hop EXPR_NOT TOKEN_NOT e (as_operand ctx 7 e)); [done|by right; left|done|done|].
    intros q Hq. by apply IH.
  - destruct ctx; [by apply Hspine|done].
Qed.

(** *** Binary operators *)

Lemma op_token_level op : get_precedence (op_token op) = op_level op.
Proof using All. by destruct op. Qed.

Lemma op_token_op op : parse_bin_op (op_token op) = Some op.
Proof using All. by destruct op. Qed.

Lemma op_level_pos op : 1 <= op_level op <= 6.
Proof using All. destruct op; cbn; lia. Qed.

(** An operand that is no chain of operators. *)
Lemma gives_single e ctx m rest p :
  writable heap spelling e -> level ctx e < m \/ 7 <= level ctx e -> stops ctx (next_type rest) = true -> safe rest ->
  ahead (as_operand ctx m e ++ rest) p -> gives (parse_unary nested fuel fuel ctx) p rest (same_expr e).
Proof using nested_gives.
  intros He Hlevel Hs Hsafe Ha. unfold operand in Ha. destruct (Nat.ltb_spec (level ctx e) m) as [Hl|Hl].
  - by apply gives_unary_parens; [|apply stops_ends|].
  - apply gives_unary; [done|done|done|]. unfold operand. rewrite (proj2 (Nat.ltb_ge _ _)); [done|lia].
Qed.

(** The operators of an operand are read one after another, from the left. *)
Lemma gives_operators e ctx m min rest final turns p Q :
  writable heap spelling e -> min <= m -> 1 <= m -> get_precedence (next_type rest) <= m ->
  stops ctx (next_type rest) = true -> safe rest -> ahead (as_operand ctx m e ++ rest) p ->
  (forall e' q turns, erase e' = erase e -> ahead rest q -> gives (binary_operators nested turns min ctx e') q final Q) ->
  gives (orfail (parse_unary nested fuel fuel ctx) (binary_operators nested turns min ctx)) p final Q.
Proof using nested_gives.
  revert m rest turns p. induction e as [|span l r op IH _| | | | | | | | | | | | |] using expr_induction;
    intros m rest turns p He Hmin Hm Hprec Hs Hsafe Ha Hk;
    match goal with
    | Hw : writable _ _ (EXPR_BIN_OP _ _ _ _) |- _ => idtac
    | Hw : writable _ _ ?e |- _ =>
        apply (gives_orfail _ _ _ rest _ (fun e' => erase e' = erase e) Q); [|by intros e' q Hq He'; apply Hk];
        apply (gives_single e ctx m); [done|destruct ctx; cbn [level]; lia|done|done|exact Ha]
    end.
  destruct He as [_ [[Htl Hgl] [Htr Hgr]]]. pose proof (op_level_pos op).
  unfold operand in Ha. cbn [level] in Ha. destruct (Nat.ltb_spec (op_level op) m) as [Hl|Hl].
  { apply (gives_orfail _ _ _ rest _ (fun e' => erase e' = erase (EXPR_BIN_OP span l r op)) Q); [|by intros e' q Hq He'; apply Hk].
    apply gives_unary_parens; [done|by apply stops_ends|exact Ha]. }
  rewrite body_bin, <- app_assoc in Ha. cbn [app] in Ha. set (right_text := as_operand ctx (S (op_level op)) r ++ rest) in Ha.
  assert (Hsr : safe right_text) by (apply safe_operand; [by intros; apply safe_body|done]).
  assert (Hkr : forall l' q turns, erase l' = erase l -> ahead (sym (op_token op) :: right_text) q ->
    gives (binary_operators nested turns min ctx l') q final Q).
  { intros l' q [|turns'] Hl' Hq; [done|]. cbn [binary_operators]. eapply gives_the_token; [done|]. intros tok Htok.
    cbn [next_type fst sym] in Htok. cbv zeta. rewrite Htok, op_token_level.
    rewrite (proj2 (Nat.eqb_neq _ 0)), (proj2 (Nat.ltb_ge _ _)) by lia. cbn [orb]. g. rewrite op_token_op.
    apply (gives_orfail _ _ _ rest _ (fun r' => erase r' = erase r)).
    - apply nested_gives; [done|done|lia|done|]. by replace (Nat.max 1 (op_level op + 1)) with (S (op_level op)) by lia.
    - intros r' s Hs' Hr'. apply Hk; [|done]. cbn [erase ast_bin_op_expr_create]. by rewrite Hl', Hr'. }
  case_decide as Hless.
  - apply (gives_orfail _ _ _ (sym (op_token op) :: right_text) _ (fun e' => erase e' = erase l) Q); [|by intros; apply Hkr].
    apply gives_unary_parens; [done| |exact Ha]. subst op. apply (Hsr 0).
  - apply (IH (op_level op) (sym (op_token op) :: right_text)); try done; [lia|lia| | |].
    + cbn [next_type fst sym]. by rewrite op_token_level.
    + by destruct op.
    + apply safe_cons; [done|]. right. apply no_brace, operand_starts. intros ctx'.
      by apply body_starts; [|apply target_no_cast].
Qed.
End expressions.

Lemma gives_precedence fuel min ctx e rest p :
  writable heap spelling e -> stops ctx (next_type rest) = true -> get_precedence (next_type rest) < Nat.max 1 min ->
  safe rest -> ahead (as_operand ctx (Nat.max 1 min) e ++ rest) p -> gives (parse_precedence fuel min ctx) p rest (same_expr e).
Proof.
  revert min ctx e rest p. induction fuel as [|fuel IH]; intros min ctx e rest p He Hs Hprec Hsafe Ha; [done|].
  cbn [parse_precedence].
  apply (gives_operators _ fuel IH e ctx (Nat.max 1 min) min rest rest); try done; [lia|lia|lia|].
  intros e' q [|turns] He' Hq; [done|]. cbn [binary_operators]. eapply gives_the_token; [done|]. intros tok Htok. cbv zeta.
  rewrite Htok. replace (_ || _) with true; [by apply gives_done; [|exists e']|]. symmetry.
  destruct (Nat.eqb_spec (get_precedence (next_type rest)) 0); [done|]. cbn [orb]. apply Nat.ltb_lt. lia.
Qed.
End reading.

(** ** The theorem *)

(** Reads an expression from the start of a source. *)
Definition read_expression (fuel : nat) (ctx : ExprContext) (source : list ascii) (strings : StringPool)
    (diagnostics : Diagnostics) : option (option ASTExpr * Parser) :=
  (parser_next_token ;; parse_expression (parse_precedence fuel) ctx) (start source strings diagnostics).

Lemma start_ready source strings diagnostics :
  pool_ok strings ->
  parser_ok (start source strings diagnostics) /\ measure (start source strings diagnostics) = 16 * S (length source) /\
  token_type (ps_current (start source strings diagnostics)) <> TOKEN_EOF.
Proof. intros Hpool. by split; [split|]. Qed.

(** C39: What is printed for an expression, with whatever tokens behind it an
    expression ends at, is parsed as that expression, up to places: the
    precedences, left association, the parentheses, the names with type
    arguments, the casts and the struct literals.  Nothing is reported, and the
    parser stands at the first token behind. *)
Theorem expression_read_back ctx e rest strings spelling diagnostics fuel
    (Hpool : pool_ok strings) (He : writable (pool_heap strings) spelling e)
    (Hrest : Forall (fun t => spells t.1 t.2) rest) (Hstops : stops ctx (next_type rest) = true)
    (Hend : get_precedence (next_type rest) = 0) (Hsafe : safe rest)
    (Hfuel : parser_fuel (print_tokens (print_expr (pool_heap strings) spelling ctx e ++ rest)) <= fuel) :
  exists e' p,
    read_expression fuel ctx (print_tokens (print_expr (pool_heap strings) spelling ctx e ++ rest)) strings diagnostics =
      Some (Some e', p) /\
    erase e' = erase e /\ token_type (ps_current p) = next_type rest /\ remaining (ps_lexer p) = print_tokens (tail rest) /\
    lx_diagnostics (ps_lexer p) = diagnostics.
Proof.
  set (l := print_expr _ _ _ _ ++ rest) in *. set (p := start (print_tokens l) strings diagnostics).
  assert (Hgives : gives (pool_heap strings) diagnostics
    (parser_next_token ;; parse_expression (parse_precedence fuel) ctx) p rest (same_expr e)).
  { eapply gives_bind.
    - apply gives_token; [done|done|done| |done]. apply Forall_app. split; [by apply tokens_print|done].
    - intros _ q Hq _. eapply gives_precedence; [done|done|lia|done|exact Hq]. }
  assert (Hruns : runs True (parser_next_token ;; parse_expression (parse_precedence fuel) ctx) p (fun _ _ => True)).
  { destruct (start_ready (print_tokens l) strings diagnostics Hpool) as (Hok & Hm & Hne). fold p in Hok, Hm, Hne.
    eapply runs_andthen; [by apply runs_next|done|]. intros [] q Hl Hq. specialize (Hq Hne).
    eapply runs_weaken; [apply parse_precedence_runs, (lt_ok _ _ Hl)| |done]. unfold parser_fuel in Hfuel. lia. }
  unfold read_expression. fold p. unfold gives, runs in *. destruct (andthen _ _ p) as [[r q]|]; [|by destruct Hruns].
  destruct Hgives as [[Ha _] (e' & -> & He')]. exists e', q. split; [done|]. split; [done|].
  split; [by eapply ahead_type|]. split; [apply (ah_text _ _ _ _ Ha)|apply (ah_diagnostics _ _ _ _ Ha)].
Qed.

(** An expression with every kind of node, in front of the block of an [if]. *)
Definition sample_names : list (list ascii) :=
  bytes <$> ["f"; "a"; "b"; "get"; "P"; "x"; "i32"; "size"; "Box"; "hi"]%string.

Definition sample_spelling (lit : Literal) : list ascii :=
  match lit with
  | LITERAL_INT _ => bytes "42"
  | LITERAL_FLOAT _ => bytes "0.5"
  | LITERAL_BOOL b => if b then bytes "true" else bytes "false"
  | LITERAL_STRING _ => quote :: bytes "hi" ++ [quote]
  end.

Definition sample_ident (string : nat) : ASTIdent := MkASTIdent string nowhere.
Definition sample_name (string : nat) : ASTExpr := EXPR_NAME nowhere (sample_ident string) None.
Definition sample_box : TypeExpr := TYPE_EXPR_APPLY (TYPE_EXPR_NAME (sample_ident 8) None) [TYPE_EXPR_NAME (sample_ident 6) None; TYPE_EXPR_CONST 42].

Definition sample_expr : ASTExpr :=
  let n := nowhere in
  EXPR_BIN_OP n
    (EXPR_BIN_OP n
       (EXPR_BIN_OP n (sample_name 1) (EXPR_BIN_OP n (sample_name 2) (EXPR_LITERAL n (LITERAL_INT 42)) BIN_OP_SUB) BIN_OP_MUL)
       (EXPR_CALL n (EXPR_FIELD n (EXPR_STRUCT_LIT n sample_box [(sample_ident 5, EXPR_DEREF n (sample_name 1))]) (sample_ident 3))
          [EXPR_LITERAL n (LITERAL_STRING 9); EXPR_NOT n (EXPR_LITERAL n (LITERAL_BOOL true))]) BIN_OP_LESS)
    (EXPR_BIN_OP n
       (EXPR_CALL n (EXPR_CAST n (TYPE_EXPR_RAW sample_box)) [EXPR_INDEX n (EXPR_ARRAY_LIT n [EXPR_LITERAL n (LITERAL_FLOAT (strtof (bytes "0.5")))]) (sample_name 2)])
       (EXPR_NEG n (EXPR_CALL n (EXPR_NAME n (sample_ident 8) (Some sample_box)) [EXPR_QUALIFIED n (sample_ident 8) (sample_ident 0) (Some sample_box);
          EXPR_BUILTIN n (sample_ident 7) (Some (TYPE_EXPR_APPLY (TYPE_EXPR_NAME (sample_ident 7) None) [TYPE_EXPR_RAW (TYPE_EXPR_NAME (sample_ident 6) (Some (sample_ident 4)))]))])) BIN_OP_EQUAL)
    BIN_OP_AND.

Definition sample_text : list ascii :=
  print_tokens (print_expr sample_names sample_spelling EXPR_NO_STRUCT_LIT sample_expr ++ [sym TOKEN_LBRACE]).

Lemma sample_good_name string : string < 10 -> good_name sample_names (sample_ident string).
Proof.
  intros Hs. do 10 (destruct string as [|string];
    [split; [done|split; [done|split; [by repeat constructor|apply (bool_decide_eq_true_1 _); vm_compute; reflexivity]]]|]).
  lia.
Qed.

Lemma sample_literal_int : good_literal sample_names sample_spelling (LITERAL_INT 42).
Proof. split; [|done]. split; [done|]. split; [by repeat constructor|done]. Qed.

Lemma sample_literal_true : good_literal sample_names sample_spelling (LITERAL_BOOL true).
Proof.
  split; [|done]. change ((bytes "true", TOKEN_TRUE) ∈ keywords). apply (bool_decide_eq_true_1 _). vm_compute. reflexivity.
Qed.

Lemma sample_box_good : good_arg sample_names sample_spelling sample_box.
Proof.
  split; [done|]. split; [by split; [apply sample_good_name; lia|]|]. split; [done|].
  split; [by split; [apply sample_good_name; lia|]|]. split; [|done]. split; [apply sample_literal_int|done].
Qed.

Lemma sample_writable : writable sample_names sample_spelling sample_expr.
Proof.
  split; [done|]. cbn [good sample_expr sample_name foldr fst snd].
  repeat lazymatch goal with
  | |- good_name _ _ => apply sample_good_name; cbn; lia
  | |- good_arg _ _ sample_box => exact sample_box_good
  | |- good_type _ _ _ => split
  | |- good_literal _ _ (LITERAL_INT _) => exact sample_literal_int
  | |- good_literal _ _ (LITERAL_FLOAT _) => split; [exists (bytes "0"), (bytes "5")|reflexivity]
  | |- good_literal _ _ (LITERAL_STRING _) => split; [exists (bytes "hi")|exists (bytes "hi")]
  | |- good_literal _ _ (LITERAL_BOOL _) => exact sample_literal_true
  | |- plain_type _ => repeat constructor
  | |- Forall (good_arg _ _) _ => constructor; [|constructor]
  | |- Forall _ _ => by repeat constructor
  | |- _ <> [] \/ _ => by left
  | |- good_arg _ _ (TYPE_EXPR_RAW _) => split
  | |- good_arg _ _ (TYPE_EXPR_NAME _ _) => split
  | |- _ /\ _ => split
  | |- True => exact I
  | |- _ = _ => reflexivity
  end.
  all: done.
Qed.

Lemma expression_read_back_witness :
  sample_text = bytes " ( a * ( b - 42 ) ) < ( Box < i32 , 42 > { x : * a } ) . get ( " ++ quote :: bytes "hi" ++ quote ::
    bytes " , ! true ) && * Box < i32 , 42 > ( [ 0.5 ] [ b ] ) == - Box < i32 , 42 > ( Box < i32 , 42 > :: f , @size < * P :: i32 > ) {" /\
  exists strings e' p,
    read_expression 4000 EXPR_NO_STRUCT_LIT sample_text strings (diagnostics_init None) = Some (Some e', p) /\
    erase e' = erase sample_expr /\ token_type (ps_current p) = TOKEN_LBRACE.
Proof.
  split; [by vm_compute|].
  destruct string_pool_init_ok as (pool0 & Hinit & Hok0 & _).
  destruct (intern_all_ok sample_names pool0 Hok0) as (pool & ps & Hint & Hok & _).
  assert (Hheap : (r ← (pool ← string_pool_init; intern_all pool sample_names); Some (pool_heap r.1)) = Some sample_names)
    by by vm_compute.
  rewrite Hinit in Hheap. cbn [mbind option_bind] in Hheap. rewrite Hint in Hheap. injection Hheap as Hheap.
  pose proof (expression_read_back EXPR_NO_STRUCT_LIT sample_expr [sym TOKEN_LBRACE] pool sample_spelling (diagnostics_init None) 4000 Hok) as Hread.
  cbn [fst] in Hheap. rewrite Hheap in Hread.
  destruct Hread as (e' & p & Hread & He & Ht & _).
  - apply sample_writable.
  - by repeat constructor.
  - done.
  - done.
  - by apply safe_stop.
  - apply Nat.leb_le. vm_compute. reflexivity.
  - exists pool, e', p. split; [exact Hread|]. split; [exact He|exact Ht].
Defined.
