(* ===== verification/Compile.v ===== *)
(** * Compile: a module compiled from its sources and its imports

    [src/src/driver/compile.c], which puts the passes together: the sources are
    parsed, the interfaces of the imports are parsed, resolved and lowered, the
    module is resolved and built over them, its bodies are folded and their drops
    elaborated, and what is left is handed to the code generator.

    The code generator is the list of what it is told, [UnitCall]; what it does to
    the registries while it writes a body is left out.  [Host] has what is outside
    of the program: addresses, the fuel of the passes, whether a file opens, and
    LLVM's answer.  [None] is a pass without an answer: a null pointer, a failed
    [assert], or fuel that does not do. *)

From Stdlib Require Import String Ascii.
From S2P Require Import Ast Facts Parser Lower LowerShape Interface Symbols.
From S2P Require Import Prelude Types Mir Decl Diagnostics Strings HashMap Borrowck Drop Fold Registry RegistryTypes RegistryState Functions Scopes Instantiate Build Check TypeExprs Resolve Declare Resolver.

(** ** The code generator *)

(** The calls of [llvm_emit.c] that a compilation makes, with their arguments. *)
Inductive UnitCall :=
  | llvm_unit_requires (symbol : list ascii)
  | llvm_unit_add (ir : MIRFunction)
  | llvm_unit_entry (symbol : list ascii)
  | llvm_unit_declares (symbol : list ascii).

Record Host := MkHost {
  type_at : nat -> N;
  str_at : nat -> N;
  (** By the number of the module. *)
  node_at : nat -> NodePtr -> N;
  ident_at : nat -> IdentPtr -> N;
  wide_shift : nat -> N;
  parse_fuel : nat;
  type_fuel : nat;
  resolve_depth : nat;
  drop_fuel : nat;
  lower_fuel : nat;
  borrow_fuel : nat;
  opens_to_write : string -> bool;
  opens_to_read : string -> bool;
  (** What [llvm_unit_write_object] reports. *)
  object_error : list UnitCall -> option string;
}.

(** ** The request *)

Record GabDependency := MkGabDependency { dependency_name : list ascii; dependency_text : list ascii; direct : bool }.

Record GabCompile := MkGabCompile {
  sources : list (list ascii);
  source_names : nat -> option string;
  interface_path : option string;
  dependencies : list GabDependency;
  writes_core : bool;
  no_entry : bool;
}.

(** ** The state of a compilation *)

(** [Compilation] with the unit, and what is written: the name of the module in
    [GabCompiled], the interface file and the object. *)
Record Compilation := MkCompilation {
  cp_resolver : Resolver;
  cp_shared : Shared;
  cp_global : nat;
  cp_generics : MIRModule;
  cp_unit : list UnitCall;
  cp_module_name : option (list ascii);
  cp_interface : option (list ascii);
  cp_object : option (list UnitCall);
}.

Definition Compile (A : Type) : Type := Compilation -> option (Compilation * A).

#[export] Instance Compile_ret : MRet Compile := fun A a c => Some (c, a).
#[export] Instance Compile_bind : MBind Compile := fun A B f m c => match m c with Some (c, a) => f a c | None => None end.

Definition the_compilation : Compile Compilation := fun c => Some (c, c).
Definition need {A} (o : option A) : Compile A := fun c => a ← o; Some (c, a).
Definition update (f : Compilation -> Compilation) : Compile unit := fun c => Some (f c, tt).

(** [if (!m) { return false; }] *)
Definition and_if (m k : Compile bool) : Compile bool := ok ← m; if ok : bool then k else mret false.

Definition put_resolver (c : Compilation) (resolver : Resolver) : Compilation :=
  MkCompilation resolver (cp_shared c) (cp_global c) (cp_generics c) (cp_unit c) (cp_module_name c) (cp_interface c) (cp_object c).
Definition put_shared (c : Compilation) (shared : Shared) : Compilation :=
  MkCompilation (cp_resolver c) shared (cp_global c) (cp_generics c) (cp_unit c) (cp_module_name c) (cp_interface c) (cp_object c).
Definition put_generics (c : Compilation) (generics : MIRModule) : Compilation :=
  MkCompilation (cp_resolver c) (cp_shared c) (cp_global c) generics (cp_unit c) (cp_module_name c) (cp_interface c) (cp_object c).
Definition tell (call : UnitCall) : Compile unit := update (fun c =>
  MkCompilation (cp_resolver c) (cp_shared c) (cp_global c) (cp_generics c) (cp_unit c ++ [call]) (cp_module_name c) (cp_interface c) (cp_object c)).
Definition note_module_name (name : list ascii) : Compile unit := update (fun c =>
  MkCompilation (cp_resolver c) (cp_shared c) (cp_global c) (cp_generics c) (cp_unit c) (Some name) (cp_interface c) (cp_object c)).
Definition write_file (text : list ascii) : Compile unit := update (fun c =>
  MkCompilation (cp_resolver c) (cp_shared c) (cp_global c) (cp_generics c) (cp_unit c) (cp_module_name c) (Some text) (cp_object c)).
Definition write_object : Compile unit := update (fun c =>
  MkCompilation (cp_resolver c) (cp_shared c) (cp_global c) (cp_generics c) (cp_unit c) (cp_module_name c) (cp_interface c) (Some (cp_unit c))).

Definition with_world (sh : Shared) (w : World) (d : Diagnostics) : Shared :=
  MkShared w (sh_strings sh) d (sh_scopes sh) (sh_interfaces sh) (sh_methods sh).
Definition with_text (sh : Shared) (strings : StringPool) (d : Diagnostics) : Shared :=
  MkShared (sh_world sh) strings d (sh_scopes sh) (sh_interfaces sh) (sh_methods sh).

Definition cp_diagnostics (c : Compilation) : Diagnostics := sh_diagnostics (cp_shared c).
Definition error_count (c : Compilation) : nat := diagnostics_count (cp_diagnostics c).

(** The registries asked for something. *)
Definition in_registries {A} (m : Inst A) : Compile A := fun c =>
  '(w, a) ← m (sh_world (cp_shared c)); Some (put_shared c (with_world (cp_shared c) w (cp_diagnostics c)), a).

Definition report (message : string) : Compile bool := fun c =>
  Some (put_shared c (with_world (cp_shared c) (sh_world (cp_shared c)) (diag_error (cp_diagnostics c) GAB_ERR_CODEGEN (MkSpan 0 0) message)), false).

Definition intern (text : list ascii) : Compile nat := fun c =>
  '(strings, string) ← string_from_cstr (sh_strings (cp_shared c)) text;
  Some (put_shared c (with_text (cp_shared c) strings (cp_diagnostics c)), string).

(** The bytes of a string of the pool, to its end. *)
Definition pool_data (strings : StringPool) (string : nat) : list ascii := cstr (default [] (pool_heap strings !! string)).

Section each.
Context {A : Type} (f : A -> Compile unit).
Fixpoint for_every (l : list A) : Compile unit :=
  match l with
  | [] => mret tt
  | a :: l => f a ≫= fun _ => for_every l
  end.
End each.

(** ** The passes *)

Section compile.
Context (host : Host).

(** [parse_module]; null when it fails. *)
Definition parse (texts : list (list ascii)) (names : nat -> option string) : Compile (option ASTModule) := fun c =>
  '(module, strings, diagnostics) ← parse_module (parse_fuel host) texts names (sh_strings (cp_shared c)) (cp_diagnostics c);
  Some (put_shared c (with_text (cp_shared c) strings diagnostics), module).

Definition module_scope_create : Compile nat := fun c =>
  let sh := cp_shared c in
  '(scopes, into) ← scope_create_kind (sh_scopes sh) (Some (cp_global c)) SCOPE_MODULE;
  Some (put_shared c (MkShared (sh_world sh) (sh_strings sh) (sh_diagnostics sh) scopes (sh_interfaces sh) (sh_methods sh)), into).

(** [ResolvedModule]: the module declared, its number, the facts and the bodies. *)
Record ResolvedModule := MkResolvedModule {
  resolved_declared : Module;
  resolved_number : nat;
  resolved_facts : Facts;
  resolved_work : PendingBodies;
}.

Definition resolve (module : ASTModule) (into : nat) (intrinsics : bool) : Compile (bool * ResolvedModule) := fun c =>
  let resolver := cp_resolver c in
  let number := length (rv_heap resolver) in
  match resolve_module (type_at host) (str_at host) (node_at host number) (ident_at host number) (type_fuel host) (resolve_depth host)
          resolver (cp_shared c) module into intrinsics with
  | Answered s ok =>
      let declared := MkModule (ident_name <$> module_name module) into in
      let shared := MkShared (rs_world s) (rs_strings s) (rs_diagnostics s) (rs_scopes s) (rs_interfaces s) (rs_methods s) in
      Some (put_resolver (put_shared c shared) (MkResolver (rv_modules resolver) (rv_core resolver) (rv_heap resolver ++ [declared])),
            (ok, MkResolvedModule declared number (rs_facts s) (rs_work s)))
  | _ => None
  end.

(** [mir_build] over the templates kept. *)
Definition build (resolved : ResolvedModule) : Compile (bool * MIRModule) := fun c =>
  let sh := cp_shared c in
  let number := resolved_number resolved in
  match mir_build (type_at host) (str_at host) (fun name => string_of_list_ascii (pool_data (sh_strings sh) name)) (type_fuel host) (drop_fuel host)
          (node_at host number) (ident_at host number) (resolved_facts resolved) (symbol_heap (sh_scopes sh)) (wide_shift host)
          (lower_fuel host) (borrow_fuel host) (Some (cp_generics c)) GAB_MAX_INSTANTIATIONS
          (MkBuilding (sh_world sh) (resolved_work resolved) mir_module_create (sh_diagnostics sh)) with
  | Built s ok => Some (put_shared c (with_world sh (bld_world s) (bld_diagnostics s)), (ok, bld_made s))
  | _ => None
  end.

Definition keep_template (fr : FunctionRegistry) (generics : MIRModule) (body : MIRModuleEntry) : MIRModule :=
  if mir_function_is_template fr (entry_ir body) then mir_module_add fr generics (entry_function body) (entry_ir body) else generics.

Definition keep_templates (bodies : MIRModule) : Compile unit := update (fun c =>
  put_generics c (foldl (keep_template (world_functions (sh_world (cp_shared c)))) (cp_generics c) bodies)).

(** The module's number, when its declarations stand. *)
Definition compile_declarations (text : list ascii) : Compile (option nat) :=
  module ← parse [text] (fun _ => None);
  match module with
  | None => mret None
  | Some module =>
      into ← module_scope_create;
      '(ok, resolved) ← resolve module into true;
      if negb ok then mret None
      else
        '(ok, bodies) ← build resolved;
        if negb ok then mret None
        else keep_templates bodies ≫= fun _ => mret (Some (resolved_number resolved))
  end.

(** *** The entry *)

Definition entry_returns (r : TypeRegistry) (returns : TypePtr) : bool :=
  match returns with None => true | Some _ => bool_decide (kind_at (reg_types r) returns = Some TYPE_I32) end.

(** The function under a symbol when it is one to start with. *)
Definition entry_function_of (w : World) (symbol : option Symbol) : option FuncPtr :=
  match symbol with
  | Some (MkSymbol (SYMBOL_FUNC func) _) =>
      function ← func;
      f ← reg_functions (world_functions w) !! function;
      if bool_decide (is_Some (id_owner (func_id (fn_decl f)))) || Nat.ltb 0 (length (fn_type_args f)) then Some None
      else if entry_returns (world_types w) (return_type (func_signature (fn_decl f))) then Some (Some function) else Some None
  | _ => Some None
  end.

Definition module_entry (module : Module) : Compile FuncPtr :=
  name ← intern (bytes "main");
  c ← the_compilation;
  let sh := cp_shared c in
  found ← need (scope_lookup (str_at host) (sh_scopes sh) (Some (module_names module)) (Some name));
  need (entry_function_of (sh_world sh) (symbol_at (sh_scopes sh) found)).

(** *** A body *)

(** [resolve_endings] of [mir_drop.c], where the registries are asked. *)
Definition find_ending (inst : MIRInst) : Inst MIRInst :=
  if negb (bool_decide (op inst = MIR_DROP)) then mret inst
  else
    r ← get_types;
    found ← owned_for (type_at host) (str_at host) (inst_type inst) (destroy_method (names r));
    mret (MkInst (op inst) (inst_type inst) (result inst) (args inst) (payload inst) found (inst_span inst)).

Definition find_block_endings (b : MIRBlock) : Inst MIRBlock :=
  insts ← mapM find_ending (insts b); mret (MkBlock (block_id b) insts).

Definition find_endings (ir : MIRFunction) : Inst MIRFunction :=
  bs ← mapM find_block_endings (blocks ir); mret (set_blocks ir bs).

(** One turn of the loop over the bodies. *)
Definition compile_body (body : MIRModuleEntry) : Compile unit :=
  c ← the_compilation;
  let w := sh_world (cp_shared c) in
  if mir_function_is_template (world_functions w) (entry_ir body) then mret tt
  else
    let view := registry_view (type_at host) (str_at host) (type_fuel host) (world_types w) in
    ir ← need (elaborate_drops (TV := view) (mir_fold (TV := view) (entry_ir body)));
    ir ← in_registries (find_endings ir);
    tell (llvm_unit_add ir).

(** The module's entry, when it compiles. *)
Definition compile_module (module : ASTModule) (into : nat) (intrinsics : bool) : Compile (bool * FuncPtr) :=
  '(ok, resolved) ← resolve module into intrinsics;
  if negb ok then mret (false, None)
  else
    entry ← module_entry (resolved_declared resolved);
    '(ok, bodies) ← build resolved;
    if negb ok then mret (false, entry)
    else keep_templates bodies ≫= fun _ => for_every compile_body bodies ≫= fun _ => mret (true, entry).

(** ** The compilation *)

(** Of the arrays of [gab_compile]. *)
Definition SYMBOL_CAPACITY : nat := 512.
Definition WRITTEN_NAME_CAPACITY : nat := 128.
Definition MODULE_NAME_CAPACITY : nat := 64.

Definition interface_symbol (module text : list ascii) : Compile (list ascii) :=
  need (digest ← gab_interface_digest text; Some (gab_interface_symbol SYMBOL_CAPACITY module digest)).

Definition insert_module (name number : nat) : Compile unit := fun c =>
  let resolver := cp_resolver c in
  modules ← rv_modules resolver;
  '(modules, _) ← map_insert (address (str_at host)) (fun key other : StrPtr => bool_decide (key = other)) modules (Some name) number;
  Some (put_resolver c (MkResolver (Some modules) (rv_core resolver) (rv_heap resolver)), tt).

Definition note_core (number : nat) : Compile unit := update (fun c =>
  put_resolver c (MkResolver (rv_modules (cp_resolver c)) (Some number) (rv_heap (cp_resolver c)))).

(** One turn of the loop over the dependencies. *)
Definition add_dependency (dependency : GabDependency) : Compile bool :=
  imported ← compile_declarations (dependency_text dependency);
  match imported with
  | None => mret false
  | Some number =>
      (if direct dependency then name ← intern (cstr (dependency_name dependency)); insert_module name number else mret tt) ≫= fun _ =>
      (if bool_decide (cstr (dependency_name dependency) = bytes GAB_CORE_MODULE) then note_core number else mret tt) ≫= fun _ =>
      symbol ← interface_symbol (dependency_name dependency) (dependency_text dependency);
      tell (llvm_unit_requires symbol) ≫= fun _ => mret true
  end.

Fixpoint add_dependencies (l : list GabDependency) : Compile bool :=
  match l with
  | [] => mret true
  | dependency :: l => and_if (add_dependency dependency) (add_dependencies l)
  end.

Definition the_name_of (module : ASTModule) : Compile (list ascii) :=
  c ← the_compilation;
  need (name ← module_name module; Some (pool_data (sh_strings (cp_shared c)) (ident_name name))).

(** [llvm_unit_entry(unit, llvm_symbol_of(arena, entry))] *)
Definition tell_entry (entry : nat) : Compile unit :=
  c ← the_compilation;
  let w := sh_world (cp_shared c) in
  symbol ← need (f ← reg_functions (world_functions w) !! entry;
    llvm_symbol_of (world_types w) (pool_data (sh_strings (cp_shared c))) f);
  tell (llvm_unit_entry symbol).

(** What an executable starts with. *)
Definition add_entry (request : GabCompile) (entry : FuncPtr) : Compile bool :=
  if no_entry request || bool_decide (is_Some (interface_path request)) then mret true
  else
    match entry with
    | Some entry => tell_entry entry ≫= fun _ => mret true
    | None => report "no 'func main()' or 'func main(): i32' found for executable"
    end.

(** The interface file, and the symbol its importers ask for.  The facts it is
    printed over make no difference ([CompileSound.interface_any_facts]). *)
Definition write_interface (declaring : ASTModule) (path : string) : Compile bool :=
  c ← the_compilation;
  if negb (opens_to_write host path) then report ("could not write " +:+ path)
  else
    text ← need (gab_interface_print (pool_heap (sh_strings (cp_shared c))) (fun _ => CALL_FUNCTION) declaring);
    write_file text ≫= fun _ =>
    if opens_to_read host path then
      name ← the_name_of declaring;
      symbol ← interface_symbol (take (WRITTEN_NAME_CAPACITY - 1) name) text;
      tell (llvm_unit_declares symbol) ≫= fun _ => mret true
    else mret true.

Definition add_interface (request : GabCompile) (declaring : ASTModule) : Compile bool :=
  match interface_path request with Some path => write_interface declaring path | None => mret true end.

Definition finish_object : Compile bool :=
  c ← the_compilation;
  match object_error host (cp_unit c) with
  | Some message => report message
  | None => write_object ≫= fun _ => mret true
  end.

(** What follows the parsing of the sources. *)
Definition compile_declaring (request : GabCompile) (declaring : ASTModule) : Compile bool :=
  and_if (add_dependencies (dependencies request))
    (into ← module_scope_create;
     '(ok, entry) ← compile_module declaring into (writes_core request);
     and_if (mret ok)
       (name ← the_name_of declaring;
        note_module_name (take (MODULE_NAME_CAPACITY - 1) name) ≫= fun _ =>
        and_if (add_entry request entry) (and_if (add_interface request declaring) finish_object))).

(** What [gab_compile] makes before it reads anything. *)
Definition compilation_create (diagnostics : Diagnostics) : option Compilation :=
  strings ← string_pool_init;
  '(strings, known) ← known_names strings;
  types ← type_registry_create known;
  functions ← function_registry_create;
  '(scopes, global) ← global_scope_create (str_at host) types (MkScopes [] []);
  modules ← map_init 8;
  Some (MkCompilation (MkResolver (Some modules) None []) (MkShared (MkWorld types functions) strings diagnostics scopes [] []) global
    mir_module_create [] None None None).

(** What follows. *)
Definition compile_request (request : GabCompile) : Compile bool :=
  declaring ← parse (sources request) (source_names request);
  match declaring with None => mret false | Some declaring => compile_declaring request declaring end.

Definition gab_compile (request : GabCompile) (diagnostics : Diagnostics) : option (Compilation * bool) :=
  c ← compilation_create diagnostics; compile_request request c.

(** The name of the module of a source, in an array of [capacity]; null when its
    header does not parse. *)
Definition gab_module_name (source : list ascii) (strings : StringPool) (capacity : nat) (diagnostics : Diagnostics) :
    option (option (list ascii) * StringPool * Diagnostics) :=
  '(file, strings, diagnostics) ← parse_header (parse_fuel host) source strings diagnostics;
  match file with
  | None => Some (None, strings, diagnostics)
  | Some file =>
      name ← file_module_name file;
      Some (Some (take (capacity - 1) (pool_data strings (ident_name name))), strings, diagnostics)
  end.
End compile.
