(* ===== verification/CompileSound.v ===== *)
(** * CompileSound: what a compilation promises

    Of [gab_compile]: that it fails exactly when it reports something, and which
    symbol an object declares for its importers.  [CompileCalls] has what it hands
    to the code generator. *)

From Stdlib Require Import String Ascii.
From S2P Require Import Ast Facts Lexer Parser Lower LowerShape Interface Symbols.
From S2P Require Import Prelude Types Mir Decl Diagnostics Strings HashMap Borrowck Drop Fold Registry RegistryTypes RegistryState Functions Scopes Instantiate Build Check TypeExprs Resolve Declare Resolver Sources Compile.

(** ** What is reported *)

(** A computation whose answer is good exactly when it reports nothing, and that
    writes no object. *)
Definition says {A} (good : A -> bool) (m : Compile A) : Prop := forall c c' a, m c = Some (c', a) ->
  good a = Nat.eqb (error_count c') (error_count c) /\ cp_object c' = cp_object c.

Definition silent {A} : Compile A -> Prop := says (fun _ => true).

Lemma says_ret {A} (good : A -> bool) (a : A) : good a = true -> says good (mret a).
Proof. intros Ha c c' b [= <- <-]. by rewrite Ha, Nat.eqb_refl. Qed.

(** After one that is good the next one decides; after another the answer is bad. *)
Lemma says_bind {A B} (g : A -> bool) (good : B -> bool) (m : Compile A) (k : A -> Compile B) :
  says g m -> (forall a, g a = true -> says good (k a)) -> (forall a, g a = false -> exists b, k a = mret b /\ good b = false) ->
  says good (m ≫= k).
Proof.
  intros Hm Ht Hf c c' b H. unfold mbind, Compile_bind in H. destruct (m c) as [[c1 a]|] eqn:H1; [|done]. apply Hm in H1 as [H1 O1].
  destruct (g a) eqn:Ha.
  - symmetry in H1. apply Nat.eqb_eq in H1. rewrite <- H1, <- O1. by eapply Ht.
  - destruct (Hf a Ha) as (b' & Hk & Hb). rewrite Hk in H. injection H as <- <-. by rewrite Hb.
Qed.

Lemma says_after {A B} (good : B -> bool) (m : Compile A) (k : A -> Compile B) : silent m -> (forall a, says good (k a)) -> says good (m ≫= k).
Proof. intros Hm Hk. eapply says_bind; [exact Hm|intros a _; apply Hk|done]. Qed.

Lemma says_and_if m k : says id m -> says id k -> says id (and_if m k).
Proof. intros Hm Hk. eapply says_bind; [exact Hm|by intros [] ?|intros [] ?; [done|by exists false]]. Qed.

Lemma says_need {A} (o : option A) : silent (need o).
Proof. intros c c' a H. unfold need in H. apply bind_Some in H as (x & _ & [= <- <-]). by rewrite Nat.eqb_refl. Qed.

Lemma says_update f : (forall c, cp_diagnostics (f c) = cp_diagnostics c /\ cp_object (f c) = cp_object c) -> silent (update f).
Proof. intros Hf c c' a [= <- <-]. destruct (Hf c) as [Hd Ho]. unfold error_count. by rewrite Hd, Nat.eqb_refl. Qed.

Lemma says_the : silent the_compilation.
Proof. intros c c' a [= <- <-]. by rewrite Nat.eqb_refl. Qed.

Lemma says_registries {A} (m : Inst A) : silent (in_registries m).
Proof. intros c c' a H. apply bind_Some in H as ([w x] & _ & [= <- <-]). by rewrite Nat.eqb_refl. Qed.

Lemma says_intern text : silent (intern text).
Proof. intros c c' a H. apply bind_Some in H as ([w x] & _ & [= <- <-]). by rewrite Nat.eqb_refl. Qed.

Lemma says_insert host name number : silent (insert_module host name number).
Proof. intros c c' a H. apply bind_Some in H as (m & _ & H). apply bind_Some in H as ([w x] & _ & [= <- <-]). by rewrite Nat.eqb_refl. Qed.

Lemma says_scope : silent module_scope_create.
Proof. intros c c' a H. apply bind_Some in H as ([w x] & _ & [= <- <-]). by rewrite Nat.eqb_refl. Qed.

Lemma says_report message : says id (report message).
Proof.
  intros c c' a [= <- <-]. split; [|done]. unfold error_count, diagnostics_count, cp_diagnostics. cbn. rewrite length_app. cbn. symmetry.
  apply Nat.eqb_neq. lia.
Qed.

Lemma says_every {A} (f : A -> Compile unit) l : (forall a, silent (f a)) -> silent (for_every f l).
Proof. intros Hf. induction l as [|a l IH]; cbn [for_every]; [by apply says_ret|]. apply says_after; [apply Hf|done]. Qed.

(** *** The passes *)

Section says.
Context (host : Host).

(** A file that is not parsed was reported. *)
Lemma parse_file_counts fuel source strings d file strings' d' : parse_file fuel source strings d = Some (file, strings', d') ->
  bool_decide (is_Some file) = Nat.eqb (diagnostics_count d') (diagnostics_count d).
Proof.
  unfold parse_file, parser_parse. intros H. apply bind_Some in H as ([[ok parsed] p] & H & [= <- <- <-]).
  apply bind_Some in H as ([f q] & _ & [= <- <- <-]). cbn. destruct (Nat.eqb _ _) eqn:He; [by apply bool_decide_eq_true|by apply bool_decide_eq_false].
Qed.

Lemma parse_files_count fuel sources names : forall i module strings d out strings' d',
  parse_module_files fuel sources names i module strings d = Some (out, strings', d') ->
  bool_decide (is_Some out) = Nat.eqb (diagnostics_count d') (diagnostics_count d).
Proof.
  induction sources as [|source sources IH]; intros i module strings d out strings' d' H; cbn [parse_module_files] in H.
  { injection H as <- <- <-. by rewrite Nat.eqb_refl, bool_decide_eq_true_2. }
  apply bind_Some in H as ([[file s1] d1] & Hf & H). apply parse_file_counts in Hf. destruct file as [file|].
  2: { injection H as <- <- <-. exact Hf. }
  rewrite bool_decide_eq_true_2 in Hf by done. symmetry in Hf. apply Nat.eqb_eq in Hf. rewrite <- Hf.
  destruct (Nat.eqb i 0); [by eapply IH|].
  apply bind_Some in H as (expected & _ & H). apply bind_Some in H as (declared & _ & H). destruct (negb _); [|by eapply IH].
  apply bind_Some in H as (t1 & _ & H). apply bind_Some in H as (t2 & _ & [= <- <- <-]).
  rewrite bool_decide_eq_false_2 by (by intros [? ?]). symmetry. apply Nat.eqb_neq. unfold diagnostics_count. cbn. rewrite length_app. cbn. lia.
Qed.

Lemma says_parse texts names : says (fun module => bool_decide (is_Some module)) (parse host texts names).
Proof. intros c c' a H. apply bind_Some in H as ([[m s] d] & Hp & [= <- <-]). split; [by eapply parse_files_count|done]. Qed.

Lemma says_resolve module into intrinsics : says fst (resolve host module into intrinsics).
Proof.
  intros c c' a H. unfold resolve, resolve_module in H. destruct (start_state _ _) as [start|]; [|done].
  destruct (resolve_passes _ _ _ _ _ _ _ _ _ start) as [s []| |]; [|done..]. by injection H as <- <-.
Qed.

Lemma mir_build_counts ta sa text_of tf df na ia facts symbols ws lf bf imported turns start s ok :
  mir_build ta sa text_of tf df na ia facts symbols ws lf bf imported turns start = Built s ok ->
  ok = Nat.eqb (diagnostics_count (bld_diagnostics s)) (diagnostics_count (bld_diagnostics start)).
Proof.
  unfold mir_build, seq_then, mbind, Build_bind. destruct (build_bodies _ _ _ _ _ _ _ _ _ _ _ _) as [s1 lowered| |]; [|done..].
  destruct (build_instances _ _ _ _ _ _ _ _ s1) as [s2 []| |]; [|done..]. destruct (each _ _ s2) as [s3 []| |]; [|done..].
  destruct (each _ _ s3) as [s4 []| |]; [|done..]. by intros [= <- <-].
Qed.

Lemma says_build resolved : says fst (build host resolved).
Proof.
  intros c c' a H. unfold build in H. destruct (mir_build _ _ _ _ _ _ _ _ _ _ _ _ _ _ _) as [s ok| |] eqn:Hb; [|done..].
  apply mir_build_counts in Hb. by injection H as <- <-.
Qed.

Create HintDb saying.
Hint Resolve says_need says_the says_registries says_intern says_insert says_scope says_report says_parse says_resolve says_build : saying.
Hint Extern 1 (says _ (mret _)) => apply says_ret; reflexivity : saying.
Hint Extern 1 (silent (mret _)) => apply says_ret; reflexivity : saying.
Hint Extern 1 (silent (update _)) => apply says_update; intros ?; split; reflexivity : saying.
Hint Extern 1 (silent (tell _)) => apply says_update; intros ?; split; reflexivity : saying.
Hint Extern 1 (silent (note_module_name _)) => apply says_update; intros ?; split; reflexivity : saying.
Hint Extern 1 (silent (note_core _)) => apply says_update; intros ?; split; reflexivity : saying.
Hint Extern 1 (silent (write_file _)) => apply says_update; intros ?; split; reflexivity : saying.
Hint Extern 1 (silent (keep_templates _)) => apply says_update; intros ?; split; reflexivity : saying.

Ltac saying := repeat first
  [ solve [auto with saying] | apply says_every; intros ? | apply says_after; [|intros ?] | case_match
  | match goal with |- says (fun _ => true) ?m => change (silent m) end ].

Lemma says_symbol module text : silent (interface_symbol module text).
Proof. apply says_need. Qed.
Lemma says_name module : silent (the_name_of module).
Proof. unfold the_name_of. saying. Qed.
Lemma says_tell_entry entry : silent (tell_entry entry).
Proof. unfold tell_entry. saying. Qed.
Hint Resolve says_symbol says_name says_tell_entry : saying.

Lemma says_declarations text : says (fun imported => bool_decide (is_Some imported)) (compile_declarations host text).
Proof.
  assert (Hsome : forall A (a : A), bool_decide (is_Some (Some a)) = true) by (intros; by apply bool_decide_eq_true).
  assert (Hnone : forall A, bool_decide (is_Some (@None A)) = false) by (intros; apply bool_decide_eq_false; by intros []).
  unfold compile_declarations.
  eapply says_bind; [apply says_parse|intros [module|] H; [|by rewrite Hnone in H]|intros [module|] H; [by rewrite Hsome in H|eauto]].
  apply says_after; [apply says_scope|]. intros into.
  eapply says_bind; [apply says_resolve|intros [[] resolved] H1; [|done]|intros [[] resolved] H1; [done|eauto]]. cbn [negb].
  eapply says_bind; [apply says_build|intros [[] bodies] H2; [|done]|intros [[] bodies] H2; [done|eauto]]. cbn [negb].
  apply says_after; [saying|]. intros []. by apply says_ret.
Qed.

Lemma says_dependency dependency : says id (add_dependency host dependency).
Proof.
  unfold add_dependency. eapply says_bind; [apply says_declarations| |]; intros [number|] H.
  - saying.
  - by rewrite bool_decide_eq_false_2 in H by (by intros []).
  - by rewrite bool_decide_eq_true_2 in H.
  - by exists false.
Qed.

Lemma says_dependencies l : says id (add_dependencies host l).
Proof. induction l as [|dependency l IH]; cbn [add_dependencies]; [by apply says_ret|]. by apply says_and_if; [apply says_dependency|]. Qed.

Lemma says_entry_of module : silent (module_entry host module).
Proof. unfold module_entry. saying. Qed.

Lemma says_body body : silent (compile_body host body).
Proof. unfold compile_body. saying. Qed.

Lemma says_module module into intrinsics : says fst (compile_module host module into intrinsics).
Proof.
  unfold compile_module.
  eapply says_bind; [apply says_resolve|intros [[] resolved] H1; [|done]|intros [[] resolved] H1; [done|by eexists]]. cbn [negb].
  apply says_after; [apply says_entry_of|]. intros entry.
  eapply says_bind; [apply says_build|intros [[] bodies] H2; [|done]|intros [[] bodies] H2; [done|by eexists]]. cbn [negb].
  apply says_after; [saying|]. intros []. apply says_after; [apply says_every, says_body|]. intros []. by apply says_ret.
Qed.

Hint Resolve says_entry_of says_body : saying.

Lemma says_entry request entry : says id (add_entry request entry).
Proof. unfold add_entry. saying. Qed.

Lemma says_interface request declaring : says id (add_interface host request declaring).
Proof. unfold add_interface, write_interface. saying. Qed.

(** The object is written when everything before it was good and LLVM writes it. *)
Lemma finish_says c c' ok : finish_object host c = Some (c', ok) ->
  ok = Nat.eqb (error_count c') (error_count c) /\ cp_object c' = (if ok then Some (cp_unit c') else cp_object c).
Proof.
  unfold finish_object, mbind, Compile_bind. cbn [the_compilation]. destruct (object_error host (cp_unit c)) as [message|].
  - intros H. destruct (says_report message c c' ok H) as [H1 H2]. split; [done|]. by injection H as <- <-.
  - intros [= <- <-]. split; [|done]. unfold error_count, cp_diagnostics. by rewrite Nat.eqb_refl.
Qed.

(** The same of a compilation that may end with an object. *)
Definition concludes (m : Compile bool) : Prop := forall c c' ok, m c = Some (c', ok) ->
  ok = Nat.eqb (error_count c') (error_count c) /\ cp_object c' = (if ok then Some (cp_unit c') else cp_object c).

Lemma concludes_bind {A} (g : A -> bool) (m : Compile A) (k : A -> Compile bool) :
  says g m -> (forall a, g a = true -> concludes (k a)) -> (forall a, g a = false -> k a = mret false) -> concludes (m ≫= k).
Proof.
  intros Hm Ht Hf c c' ok H. unfold mbind, Compile_bind in H. destruct (m c) as [[c1 a]|] eqn:H1; [|done]. apply Hm in H1 as [H1 O1].
  destruct (g a) eqn:Ha.
  - symmetry in H1. apply Nat.eqb_eq in H1. rewrite <- H1, <- O1. by eapply Ht.
  - rewrite Hf in H by done. injection H as <- <-. by rewrite O1.
Qed.

Lemma concludes_and_if m k : says id m -> concludes k -> concludes (and_if m k).
Proof. intros Hm Hk. eapply concludes_bind; [exact Hm|by intros [] ?|by intros [] ?]. Qed.

Lemma concludes_after {A} (m : Compile A) (k : A -> Compile bool) : silent m -> (forall a, concludes (k a)) -> concludes (m ≫= k).
Proof. intros Hm Hk. eapply concludes_bind; [exact Hm|by intros a _|done]. Qed.

Lemma declaring_concludes request declaring : concludes (compile_declaring host request declaring).
Proof.
  unfold compile_declaring. apply concludes_and_if; [apply says_dependencies|]. apply concludes_after; [apply says_scope|]. intros into.
  eapply concludes_bind; [apply says_module|intros [[] entry] H; [|done]|intros [[] entry] H; [done|reflexivity]].
  apply concludes_and_if; [by apply says_ret|]. apply concludes_after; [saying|]. intros name. apply concludes_after; [saying|]. intros [].
  apply concludes_and_if; [apply says_entry|]. apply concludes_and_if; [apply says_interface|]. exact finish_says.
Qed.
End says.

(** What a compilation starts with. *)
Lemma compilation_starts host diagnostics c : compilation_create host diagnostics = Some c ->
  cp_diagnostics c = diagnostics /\ cp_object c = None /\ cp_unit c = [] /\ cp_generics c = [].
Proof.
  unfold compilation_create. generalize (map_init (K := StrPtr) (V := nat) 8) as modules. intros modules H.
  apply bind_Some in H as (strings & _ & H). apply bind_Some in H as ([strings' known] & _ & H). apply bind_Some in H as (types & _ & H).
  apply bind_Some in H as (functions & _ & H). apply bind_Some in H as ([scopes global] & _ & H). apply bind_Some in H as (m & _ & H).
  by injection H as <-.
Qed.

Lemma request_concludes host request : concludes (compile_request host request).
Proof.
  eapply concludes_bind; [apply says_parse| |].
  - intros [declaring|] Hd; [apply declaring_concludes|]. by rewrite bool_decide_eq_false_2 in Hd by (by intros []).
  - intros [declaring|] Hd; [by rewrite bool_decide_eq_true_2 in Hd|done].
Qed.

Lemma compile_concludes host request diagnostics c ok : gab_compile host request diagnostics = Some (c, ok) ->
  ok = Nat.eqb (error_count c) (diagnostics_count diagnostics) /\ cp_object c = (if ok then Some (cp_unit c) else None).
Proof.
  unfold gab_compile. intros H. apply bind_Some in H as (c0 & Hc & H). apply compilation_starts in Hc as (<- & Ho & _).
  apply request_concludes in H as [-> ->]. by rewrite Ho.
Qed.

(** C7: A compilation fails exactly when it reports something: every pass that
    stops it adds a message, and a module that compiles adds none.  The object is
    written in that case only, and is all that the code generator was told. *)
Theorem failures_are_reported (host : Host) (request : GabCompile) (diagnostics : Diagnostics) (c : Compilation) (ok : bool) :
  gab_compile host request diagnostics = Some (c, ok) ->
  ok = Nat.eqb (error_count c) (diagnostics_count diagnostics) /\ cp_object c = (if ok then Some (cp_unit c) else None).
Proof. apply compile_concludes. Qed.

(** ** The text of an interface *)

(** The fact the printer asks for makes no difference: a conversion prints as the
    call it is. *)
Section any_facts.
Context (heap : list (list ascii)) (kind kind' : ASTExpr -> CallKind).

Lemma every_printed {A} (f g : A -> list ascii) (l : list A) : Forall (fun a => f a = g a) l -> f <$> l = g <$> l.
Proof. induction 1 as [|a l Ha _ IH]; [done|]. by rewrite !fmap_cons, Ha, IH. Qed.

Lemma print_expr_any_facts : forall expr, print_expr heap kind expr = print_expr heap kind' expr.
Proof.
  fix IH 1. intros expr. destruct expr as [| | | |span target args| | | | | | | | |span elements|span type fields]; cbn [print_expr]; try reflexivity;
    try (by rewrite !IH).
  - assert (Hargs : print_expr heap kind <$> args = print_expr heap kind' <$> args).
    { apply every_printed. induction args as [|e l IHl]; constructor; [apply IH|exact IHl]. }
    rewrite Hargs, (IH target). destruct target as [| |? ? []| | | | | | | |? type| | | |]; try reflexivity; by repeat case_bool_decide.
  - assert (Helements : print_expr heap kind <$> elements = print_expr heap kind' <$> elements).
    { apply every_printed. induction elements as [|e l IHl]; constructor; [apply IH|exact IHl]. }
    by rewrite Helements.
  - set (field := fun k (f : ASTIdent * ASTExpr) => name_data heap f.1 ++ bytes ": " ++ print_expr heap k f.2).
    assert (Hfields : field kind <$> fields = field kind' <$> fields).
    { apply every_printed. induction fields as [|[name e] l IHl]; constructor; [unfold field; cbn [snd]; by rewrite (IH e)|exact IHl]. }
    unfold field in Hfields. by rewrite Hfields.
Qed.

Lemma print_header_any_facts init condition post : print_for_header heap kind init condition post = print_for_header heap kind' init condition post.
Proof.
  unfold print_for_header, print_var_decl, print_assign, print_expr_opt. destruct init as [[]|], post as [[]|]; try done;
    repeat (case_match; rewrite ?print_expr_any_facts; try done).
Qed.

(** What a block prints inside of its braces. *)
Definition list_text (k : ASTExpr -> CallKind) (depth : nat) (stmts : list ASTStmt) : list ascii :=
  line (bytes "{") ++ concat ((fun stmt => print_body_stmt heap k stmt (S depth)) <$> stmts) ++ print_indent depth ++ bytes "}".

Definition block_text (k : ASTExpr -> CallKind) (depth : nat) (stmt : ASTStmt) : list ascii :=
  match stmt with
  | STMT_BLOCK _ stmts => list_text k depth stmts
  | _ => line (bytes "{") ++ print_body_stmt heap k stmt (S depth) ++ print_indent depth ++ bytes "}"
  end.

Lemma list_any_facts l : Forall (fun s => forall depth, print_body_stmt heap kind s depth = print_body_stmt heap kind' s depth) l ->
  forall depth, list_text kind depth l = list_text kind' depth l.
Proof.
  intros Hl depth. unfold list_text. do 2 f_equal. f_equal. apply every_printed. eapply Forall_impl; [exact Hl|]. by intros s Hs.
Qed.

Lemma print_body_stmt_any_facts : forall stmt depth, print_body_stmt heap kind stmt depth = print_body_stmt heap kind' stmt depth.
Proof.
  pose proof list_any_facts as Hlist. fix IH 1. intros stmt depth.
  destruct stmt as [| | | | | | | |span stmts|span condition then_block else_block|span init condition post body| |]; cbn [print_body_stmt];
    try reflexivity; try (unfold print_var_decl, print_assign; by rewrite ?print_expr_any_facts).
  - destruct initializer; [|done]. unfold print_var_decl. by rewrite print_expr_any_facts.
  - unfold list_text in Hlist. rewrite Hlist; [done|]. induction stmts as [|s l IHl]; constructor; [apply IH|exact IHl].
  - assert (Ht : block_text kind depth then_block = block_text kind' depth then_block).
    { pose proof (IH then_block (S depth)) as Hs. destruct then_block as [| | | | | | | |? stmts| | | |]; try (unfold block_text; by rewrite Hs).
      clear Hs. apply Hlist. induction stmts as [|s l IHl]; constructor; [apply IH|exact IHl]. }
    assert (He : forall b, else_block = Some b -> block_text kind depth b = block_text kind' depth b).
    { destruct else_block as [b|]; [|done]. intros ? [= <-].
      pose proof (IH b (S depth)) as Hs. destruct b as [| | | | | | | |? stmts| | | |]; try (unfold block_text; by rewrite Hs).
      clear Hs. apply Hlist. induction stmts as [|s l IHl]; constructor; [apply IH|exact IHl]. }
    unfold block_text, list_text in Ht, He. rewrite print_expr_any_facts, Ht. destruct else_block as [b|]; [|done]. by rewrite (He b).
  - assert (Hb : block_text kind depth body = block_text kind' depth body).
    { pose proof (IH body (S depth)) as Hs. destruct body as [| | | | | | | |? stmts| | | |]; try (unfold block_text; by rewrite Hs).
      clear Hs. apply Hlist. induction stmts as [|s l IHl]; constructor; [apply IH|exact IHl]. }
    unfold block_text, list_text in Hb. by rewrite print_header_any_facts, Hb.
Qed.

Lemma print_func_any_facts func indent inherited states : print_func heap kind func indent inherited states = print_func heap kind' func indent inherited states.
Proof.
  unfold print_func. do 7 f_equal. f_equal. destruct (carries_body func) as [body|]; [|done]. do 2 f_equal. unfold print_block. do 2 f_equal.
  destruct body; try (by rewrite print_body_stmt_any_facts). do 2 f_equal. apply every_printed, Forall_true. intros s. apply print_body_stmt_any_facts.
Qed.

Lemma print_stmt_any_facts stmt : print_stmt heap kind stmt = print_stmt heap kind' stmt.
Proof.
  assert (Hm : forall members inherited states, print_members heap kind members inherited states = print_members heap kind' members inherited states).
  { intros members inherited states. unfold print_members. f_equal. apply every_printed, Forall_true. intros []; try done. apply print_func_any_facts. }
  destruct stmt; try done; cbn [print_stmt]; [apply print_func_any_facts|by rewrite Hm..].
Qed.

Lemma interface_any_facts module : gab_interface_print heap kind module = gab_interface_print heap kind' module.
Proof.
  unfold gab_interface_print. rewrite (every_printed (print_stmt heap kind) (print_stmt heap kind')); [done|]. apply Forall_true, print_stmt_any_facts.
Qed.
End any_facts.

(** ** The symbol of an interface *)

Lemma then_runs {A B} (m : Compile A) (k : A -> Compile B) c c' b :
  (m ≫= k) c = Some (c', b) <-> exists c1 a, m c = Some (c1, a) /\ k a c1 = Some (c', b).
Proof.
  unfold mbind, Compile_bind. destruct (m c) as [[c1 a]|]; [|by split; [|intros (? & ? & ? & _)]].
  split; [by exists c1, a|]. by intros (? & ? & [= <- <-] & H).
Qed.

Lemma and_if_runs (m k : Compile bool) c c' : and_if m k c = Some (c', true) <-> exists c1, m c = Some (c1, true) /\ k c1 = Some (c', true).
Proof.
  unfold and_if. rewrite then_runs. split; [intros (c1 & [] & H1 & H2); [by exists c1|done]|]. intros (c1 & H1 & H2). by exists c1, true.
Qed.

Lemma need_runs {A} (o : option A) c c' a : need o c = Some (c', a) <-> c' = c /\ o = Some a.
Proof. unfold need. destruct o; cbn; split; [by intros [= <- <-]|by intros [-> [= ->]]|done|by intros []]. Qed.

Lemma tell_runs call c c' b : (tell call ≫= fun _ => mret b) c = Some (c', true) -> b = true /\ last (cp_unit c') = Some call.
Proof. intros [= <- ->]. split; [done|]. cbn. apply last_snoc. Qed.

Lemma cstr_idem s : cstr (cstr s) = cstr s.
Proof. unfold cstr. rewrite <- (app_nil_r (span_class _ s).1) at 1. by rewrite (span_class_prefix _ _ []) by (done || apply span_class_all). Qed.

Lemma cstr_le s : length (cstr s) <= length s.
Proof. unfold cstr. rewrite <- (span_class_app (fun c => negb (Ascii.eqb c NUL)) s) at 2. rewrite length_app. lia. Qed.

Lemma hex_digits_length count : forall n, length (hex_digits count n) = count.
Proof. induction count as [|count IH]; intros n; [done|]. cbn [hex_digits]. rewrite length_app, IH. cbn. lia. Qed.

Lemma symbol_of_cstr module digest : gab_interface_symbol SYMBOL_CAPACITY module digest = gab_interface_symbol SYMBOL_CAPACITY (cstr module) digest.
Proof. unfold gab_interface_symbol. by rewrite cstr_idem. Qed.

(** The symbol of an interface tells how long the name of its module is. *)
Lemma symbol_length module digest : length (gab_interface_symbol SYMBOL_CAPACITY module digest) = Nat.min 511 (27 + length (cstr module)).
Proof.
  unfold gab_interface_symbol. rewrite length_take, !length_app, hex_digits_length.
  change (length (bytes "gab.iface.")) with 10. change (length (bytes ".")) with 1. change (SYMBOL_CAPACITY - 1) with 511. lia.
Qed.

Lemma cut_symbol name digest : cstr name = name ->
  gab_interface_symbol SYMBOL_CAPACITY name digest = gab_interface_symbol SYMBOL_CAPACITY (take (WRITTEN_NAME_CAPACITY - 1) name) digest <->
  length name <= WRITTEN_NAME_CAPACITY - 1.
Proof.
  intros Hname. split.
  - intros H. apply (f_equal length) in H. rewrite !symbol_length, Hname in H. pose proof (cstr_le (take (WRITTEN_NAME_CAPACITY - 1) name)) as Hc.
    rewrite length_take in Hc. change (WRITTEN_NAME_CAPACITY - 1) with 127 in *. lia.
  - intros H. by rewrite take_ge.
Qed.

Section symbol.
Context (host : Host).

(** What an interface that is written leaves. *)
Lemma interface_written declaring path c c' : opens_to_read host path = true -> write_interface host declaring path c = Some (c', true) ->
  exists text name digest, cp_interface c' = Some text /\ gab_interface_digest text = Some digest /\
    (x ← module_name declaring; Some (pool_data (sh_strings (cp_shared c)) (ident_name x))) = Some name /\
    cp_module_name c' = cp_module_name c /\
    last (cp_unit c') = Some (llvm_unit_declares (gab_interface_symbol SYMBOL_CAPACITY (take (WRITTEN_NAME_CAPACITY - 1) name) digest)).
Proof.
  intros Hr. unfold write_interface. rewrite then_runs. intros (c1 & a & [= <- <-] & H). destruct (negb _); [done|].
  apply then_runs in H as (c2 & text & [-> _]%need_runs & H). apply then_runs in H as (c3 & [] & H3 & H). injection H3 as <-.
  rewrite Hr in H. apply then_runs in H as (c4 & name & H4 & H). unfold the_name_of in H4. apply then_runs in H4 as (c5 & a & [= <- <-] & [-> Hn]%need_runs).
  apply then_runs in H as (c6 & symbol & [-> Hs]%need_runs & H). apply bind_Some in Hs as (digest & Hd & [= <-]).
  pose proof H as [_ Hl]%tell_runs. injection H as <-. exists text, name, digest. by repeat split.
Qed.

(** What an import that is added asks for. *)
Lemma dependency_asks dependency c c' : add_dependency host dependency c = Some (c', true) ->
  exists digest, gab_interface_digest (dependency_text dependency) = Some digest /\
    last (cp_unit c') = Some (llvm_unit_requires (gab_interface_symbol SYMBOL_CAPACITY (dependency_name dependency) digest)).
Proof.
  unfold add_dependency. intros H. apply then_runs in H as (c1 & [number|] & _ & H); [|done].
  apply then_runs in H as (c2 & [] & _ & H). apply then_runs in H as (c3 & [] & _ & H).
  apply then_runs in H as (c4 & symbol & [-> Hs]%need_runs & H). apply bind_Some in Hs as (digest & Hd & [= <-]).
  apply tell_runs in H as [_ H]. by exists digest.
Qed.

Lemma declaring_writes request declaring path c c' : interface_path request = Some path -> opens_to_read host path = true ->
  compile_declaring host request declaring c = Some (c', true) ->
  exists text name digest, cp_interface c' = Some text /\ gab_interface_digest text = Some digest /\ cstr name = name /\
    cp_module_name c' = Some (take (MODULE_NAME_CAPACITY - 1) name) /\
    last (cp_unit c') = Some (llvm_unit_declares (gab_interface_symbol SYMBOL_CAPACITY (take (WRITTEN_NAME_CAPACITY - 1) name) digest)).
Proof.
  intros Hp Hr H. unfold compile_declaring in H. apply and_if_runs in H as (c1 & _ & H). apply then_runs in H as (c2 & into & _ & H).
  apply then_runs in H as (c3 & [ok entry] & _ & H). apply and_if_runs in H as (c4 & [= <- ->] & H).
  apply then_runs in H as (c5 & name & H5 & H). unfold the_name_of in H5. apply then_runs in H5 as (c6 & a & [= <- <-] & [-> Hn]%need_runs).
  apply then_runs in H as (c7 & [] & [= <-] & H). unfold add_entry, add_interface in H. rewrite Hp in H.
  rewrite (bool_decide_eq_true_2 (is_Some (Some path))) in H by done. rewrite orb_true_r in H. apply and_if_runs in H as (c8 & [= <-] & H).
  apply and_if_runs in H as (c9 & H9 & H). apply interface_written in H9 as (text & name' & digest & Hi & Hd & Hn' & Hm & Hl); [|done].
  cbn [cp_shared] in Hn'. rewrite Hn in Hn'. injection Hn' as <-. unfold finish_object in H. apply then_runs in H as (c10 & a & [= <- <-] & H).
  destruct (object_error _ _); [done|]. apply then_runs in H as (c11 & [] & H11 & [= <-]). injection H11 as <-.
  exists text, name, digest. repeat split; try done. apply bind_Some in Hn as (x & _ & [= <-]). apply cstr_idem.
Qed.

Lemma request_runs request c c' : compile_request host request c = Some (c', true) ->
  exists declaring c1, compile_declaring host request declaring c1 = Some (c', true).
Proof.
  unfold compile_request, mbind, Compile_bind. destruct (parse host _ _ c) as [[c1 [declaring|]]|]; [|done..]. intros H. by exists declaring, c1.
Qed.

Lemma compile_runs request diagnostics c : gab_compile host request diagnostics = Some (c, true) -> exists c0, compile_request host request c0 = Some (c, true).
Proof. unfold gab_compile. intros H. apply bind_Some in H as (c0 & _ & H). by exists c0. Qed.

Lemma compile_writes request path diagnostics c : interface_path request = Some path -> opens_to_read host path = true ->
  gab_compile host request diagnostics = Some (c, true) ->
  exists text name digest, cp_interface c = Some text /\ gab_interface_digest text = Some digest /\ cstr name = name /\
    cp_module_name c = Some (take (MODULE_NAME_CAPACITY - 1) name) /\
    last (cp_unit c) = Some (llvm_unit_declares (gab_interface_symbol SYMBOL_CAPACITY (take (WRITTEN_NAME_CAPACITY - 1) name) digest)).
Proof.
  intros Hp Hr H. apply compile_runs in H as (c0 & H). apply request_runs in H as (declaring & c1 & H). exact (declaring_writes request declaring path c1 c Hp Hr H).
Qed.
End symbol.

(** C19: The object of a module compiled with an interface declares a symbol made of
    the module's name and the digest of the interface, and who imports that
    interface under that name asks the linker for a symbol of the same name and
    digest; the two are one exactly when the name has at most 127 bytes, the
    array the writer copies it to. *)
Theorem importers_ask_for_the_symbol_declared (host : Host) (request : GabCompile) (path : string) (diagnostics : Diagnostics) (c : Compilation) :
  interface_path request = Some path -> opens_to_read host path = true -> gab_compile host request diagnostics = Some (c, true) ->
  exists name text symbol, cp_module_name c = Some (take (MODULE_NAME_CAPACITY - 1) name) /\ cp_interface c = Some text /\
    last (cp_unit c) = Some (llvm_unit_declares symbol) /\
    forall importing dependency d d', cstr (dependency_name dependency) = name -> dependency_text dependency = text ->
      add_dependency importing dependency d = Some (d', true) ->
      exists asked, last (cp_unit d') = Some (llvm_unit_requires asked) /\ (asked = symbol <-> length name <= WRITTEN_NAME_CAPACITY - 1).
Proof.
  intros Hp Hr H. destruct (compile_writes host request path diagnostics c Hp Hr H) as (text & name & digest & Hi & Hd & Hc & Hm & Hl).
  exists name, text, (gab_interface_symbol SYMBOL_CAPACITY (take (WRITTEN_NAME_CAPACITY - 1) name) digest). split; [exact Hm|]. split; [exact Hi|]. split; [exact Hl|].
  intros importing dependency d d' Hname Htext Ha. apply dependency_asks in Ha as (digest' & Hd' & Ha). rewrite Htext, Hd in Hd'. injection Hd' as <-.
  eexists. split; [exact Ha|]. rewrite symbol_of_cstr, Hname. by apply cut_symbol.
Qed.

(** ** Examples *)

(** A host whose passes have fuel enough for the texts below, and whose files all
    open. *)
Definition sample_host : Host :=
  MkHost sample_addr sample_addr (fun _ => node_address) (fun _ => ident_address) sample_addr 2000 30 40 30 60 60
    (fun _ => true) (fun _ => true) (fun _ => None).

(** One source and its imports; an interface is written where a path is given. *)
Definition sample_request (text : string) (imports : list (string * string)) (path : option string) : GabCompile :=
  MkGabCompile [bytes text] (fun _ => None) path ((fun '(name, text) => MkGabDependency (bytes name) (bytes text) true) <$> imports) false false.

Abbreviation sample_compile text imports path := (gab_compile sample_host (sample_request text imports path) (diagnostics_init None)).

Definition reported (c : Compilation) : list string := diag_message <$> diag_items (cp_diagnostics c).

Definition nameless : string := "module m; func main(): i32 { return gone; }".

Lemma failures_are_reported_witness : exists c, sample_compile nameless [] None = Some (c, false) /\
  reported c = ["undeclared name 'gone'"] /\ cp_object c = None /\ false = Nat.eqb (error_count c) 0.
Proof.
  destruct (sample_compile nameless [] None) as [[c ok]|] eqn:H; [|vm_compute in H; discriminate].
  destruct (failures_are_reported sample_host (sample_request nameless [] None) (diagnostics_init None) c ok H) as [Hok Ho].
  assert (Hr : match sample_compile nameless [] None with Some (c, ok) => (reported c, ok) | None => ([], true) end = (["undeclared name 'gone'"], false))
    by (vm_compute; reflexivity).
  rewrite H in Hr. injection Hr as Hr ->. exact (ex_intro _ c (conj eq_refl (conj Hr (conj Ho Hok)))).
Defined.

(** A module and what imports its interface, where the symbols agree. *)
Definition util_text : string := "module util; func one(): i32 { return 1; }".

Definition util_interface : string := "module util;

extern func one(): i32;
".

(** What an importer asks for, of the interface and in a compilation that has read
    nothing. *)
Definition asks_of (name text : list ascii) : option (Compilation * bool) :=
  c ← compilation_create sample_host (diagnostics_init None); add_dependency sample_host (MkGabDependency name text true) c.

Lemma asks_runs name text d : asks_of name text = Some (d, true) ->
  exists c0, add_dependency sample_host (MkGabDependency name text true) c0 = Some (d, true).
Proof. unfold asks_of. intros H. apply bind_Some in H as (c0 & _ & H). by exists c0. Qed.

Lemma importers_ask_for_the_symbol_declared_witness : exists c text symbol d, sample_compile util_text [] (Some "util.gabi") = Some (c, true) /\
  cp_interface c = Some text /\ last (cp_unit c) = Some (llvm_unit_declares symbol) /\
  asks_of (bytes "util") text = Some (d, true) /\ last (cp_unit d) = Some (llvm_unit_requires symbol).
Proof.
  destruct (sample_compile util_text [] (Some "util.gabi")) as [[c ok]|] eqn:H; [|vm_compute in H; discriminate].
  assert (Hr : match sample_compile util_text [] (Some "util.gabi") with Some (c, ok) => (cp_module_name c, cp_interface c, ok) | None => (None, None, false) end =
    (Some (bytes "util"), Some (bytes util_interface), true)) by (vm_compute; reflexivity).
  rewrite H in Hr. injection Hr as Hm Hi ->.
  destruct (importers_ask_for_the_symbol_declared sample_host (sample_request util_text [] (Some "util.gabi")) "util.gabi" (diagnostics_init None) c
    eq_refl eq_refl H) as (name & text & symbol & Hm' & Hi' & Hl & Hask).
  rewrite Hm in Hm'. rewrite Hi in Hi'. injection Hi' as <-.
  assert (Hname : name = bytes "util").
  { injection Hm' as Hm'. destruct name as [|n0 [|n1 [|n2 [|n3 [|n4 name]]]]]; try discriminate Hm'. injection Hm' as <- <- <- <-. reflexivity. }
  destruct (asks_of (bytes "util") (bytes util_interface)) as [[d ok]|] eqn:Hd; [|vm_compute in Hd; discriminate].
  assert (Ho : match asks_of (bytes "util") (bytes util_interface) with Some (_, ok) => ok | None => false end = true) by (vm_compute; reflexivity).
  rewrite Hd in Ho. subst ok. destruct (asks_runs _ _ d Hd) as (c0 & Hd').
  destruct (Hask sample_host (MkGabDependency (bytes "util") (bytes util_interface) true) c0 d (eq_sym Hname) eq_refl Hd') as (asked & Ha & Heq).
  assert (asked = symbol) as -> by (apply Heq; subst name; apply (leb_complete 4 127 eq_refl)).
  exists c, (bytes util_interface), symbol, d. exact (conj eq_refl (conj Hi (conj Hl (conj Hd Ha)))).
Defined.
