(* ===== verification/CompileCalls.v ===== *)
(** * CompileCalls: the calls of the bodies compiled

    That every body a build makes is the one of the function it is entered under,
    that folding and drop elaboration keep the calls of a body, and so that of a
    module that compiles no call is emitted without the body of the instance it
    calls. *)

From Stdlib Require Import String Ascii.
From S2P Require Import Ast Facts Parser Lower LowerShape LowerKeeps Interface Symbols.
From S2P Require Import Prelude Types Mir Decl Diagnostics Strings HashMap Borrowck Drop Fold Registry RegistryTypes RegistryState Functions Scopes Instantiate Build Check TypeExprs Resolve Declare Resolver ResolveKeeps Sources Compile CompileSound.

(** ** The bodies of a build *)

(** An entry is under the function and the identifier of its body. *)
Definition entry_named (fr : FunctionRegistry) (e : MIRModuleEntry) : Prop :=
  exists f, reg_functions fr !! entry_function e = Some f /\ entry_id e = instance_id_of_function (Some f) /\
    mir_function (entry_ir e) = Some (entry_function e).

Lemma entry_named_later fr fr' e : functions_grow fr fr' -> entry_named fr e -> entry_named fr' e.
Proof.
  intros Hg (f & Hf & Hid & Hir). destruct (Hg _ f Hf) as (f' & Hf' & [= Hd _ Ha]). exists f'. split; [done|]. split; [|done].
  rewrite Hid. unfold instance_id_of_function. by rewrite Hd, Ha.
Qed.

Definition all_named (s : Building) : Prop := Forall (entry_named (world_functions (bld_world s))) (bld_made s).

Lemma all_named_same s s' : goes_on s s' -> bld_made s' = bld_made s -> all_named s -> all_named s'.
Proof.
  intros Hg Hm H. unfold all_named. rewrite Hm. eapply Forall_impl; [exact H|]. intros e. apply entry_named_later. by apply go_functions.
Qed.

Lemma named_added function ir s f : reg_functions (world_functions (bld_world s)) !! function = Some f -> mir_function ir = Some function -> all_named s ->
  proceeds (add_body function ir) s (fun s' _ => all_named s').
Proof.
  intros Hf Hir Hall. eapply proceeds_weaken; [apply add_body_proceeds|]. intros s' _ Hg [Hfr Hm]. unfold all_named. rewrite Hm, Hfr.
  apply Forall_app. split; [done|]. apply Forall_singleton. exists f. cbn. by rewrite Hf.
Qed.

Section build.
Context (type_addr str_addr : nat -> N) (text_of : nat -> string) (type_fuel drop_fuel : nat).
Context (node_addr : NodePtr -> N) (ident_addr : IdentPtr -> N) (facts : Facts) (symbols : list Symbol)
  (wide_shift : nat -> N) (lower_fuel borrow_fuel : nat) (imported : option MIRModule).

Lemma named_collected body s : all_named s ->
  proceeds (collect_called_instances type_addr str_addr text_of type_fuel drop_fuel body) s (fun s' _ => all_named s').
Proof.
  intros Hall. eapply proceeds_weaken; [apply collect_called_instances_proceeds|]. intros s' [] Hg [Hm _]. by apply (all_named_same s).
Qed.

Lemma named_body body s : all_named s ->
  proceeds (build_body type_addr str_addr text_of type_fuel drop_fuel node_addr ident_addr facts symbols lower_fuel body) s (fun s' _ => all_named s').
Proof.
  intros Hall. unfold build_body.
  eapply (proceeds_bind _ _ _ (fun s' ir => all_named s' /\ mir_function ir = Some (pending_function body) /\
    is_Some (reg_functions (world_functions (bld_world s')) !! pending_function body))).
  { intros Hs. unfold lower_body. destruct (mir_build_function _ _ _ _ _ _ _ _ _ _ _ _ _) as [l ir| |] eqn:Hl; [|done|done].
    apply mir_build_function_names in Hl as [Hir Hf]. split; [done|]. split; [split; [done|done|apply work_on_refl]|done]. }
  intros s1 ir _ (Hall1 & Hir & [f Hf]). eapply proceeds_then; [by eapply named_added|]. intros s2 _ Hall2. apply proceeds_state.
  eapply (proceeds_then _ _ _ (fun s' _ => all_named s')); [|by intros s3 _ Hall3; apply proceeds_ret].
  destruct (mir_function_is_template _ ir); [by apply proceeds_ret|by apply named_collected].
Qed.

Lemma named_bodies l : forall s, all_named s ->
  proceeds (build_bodies type_addr str_addr text_of type_fuel drop_fuel node_addr ident_addr facts symbols lower_fuel l) s (fun s' _ => all_named s').
Proof.
  induction l as [|body l IH]; intros s Hall; [by apply proceeds_ret|]. cbn [build_bodies].
  eapply proceeds_bind; [by apply named_body|]. intros s1 ir _ Hall1. eapply proceeds_bind; [by apply IH|]. intros s2 rest _ Hall2. by apply proceeds_ret.
Qed.

Lemma named_instance p s : all_named s -> proceeds (build_instance type_addr str_addr text_of type_fuel drop_fuel imported p) s (fun s' _ => all_named s').
Proof.
  intros Hall. unfold build_instance. apply proceeds_state. eapply proceeds_bind; [apply proceeds_demand|]. intros s0 f _ [-> Hf].
  destruct (generic_body imported s f) as [from|]; [|by apply proceeds_ret].
  destruct (mir_module_lookup _ _ _ _) as [ir|]; [by apply proceeds_ret|].
  eapply (proceeds_bind _ _ _ (fun s' body => all_named s' /\ mir_function body = Some p /\ is_Some (reg_functions (world_functions (bld_world s')) !! p))).
  { intros Hs. pose proof (proceeds_in_world (mir_instantiate type_addr str_addr (fn_type_args f) from (Some p)) s
      (mir_instantiate_only_grows _ _ _ _ _) Hs) as Hrun. unfold in_world in *.
    destruct (mir_instantiate _ _ _ _ _ _) as [[w body]|] eqn:Hi; [|done]. destruct Hrun as (R1 & R2 & R3). split; [done|]. split; [done|].
    split; [by eapply all_named_same|]. split; [by eapply mir_instantiate_function|].
    destruct (go_functions _ _ R2 p f Hf) as (f' & Hf' & _). by exists f'. }
  intros s1 body _ (Hall1 & Hir & [f1 Hf1]). eapply proceeds_then; [by eapply named_added|]. intros s2 _ Hall2. by apply named_collected.
Qed.

Lemma named_instances turns : forall i s, GAB_MAX_INSTANTIATIONS <= turns + i -> all_named s ->
  proceeds (build_instances type_addr str_addr text_of type_fuel drop_fuel imported turns i) s (fun s' _ => all_named s').
Proof.
  induction turns as [|turns IH]; intros i s Hturns Hall Hs; cbn [build_instances]; unfold mbind, Build_bind; cbn [state];
    destruct (wanted (bld_work s) !! i) as [p|] eqn:Hp; try by split.
  { apply lookup_lt_Some in Hp. destruct Hs as (_ & Hlen & _). lia. }
  revert Hs. eapply proceeds_then; [by apply named_instance|]. intros s1 _ Hall1. apply IH; [lia|done].
Qed.

Lemma mir_build_names s s' accepted : building_ok s ->
  mir_build type_addr str_addr text_of type_fuel drop_fuel node_addr ident_addr facts symbols wide_shift lower_fuel borrow_fuel imported
    GAB_MAX_INSTANTIATIONS s = Built s' accepted -> all_named s'.
Proof.
  intros Hs. unfold mir_build. set (from := MkBuilding _ _ mir_module_create _). intros Hb.
  match type of Hb with ?m from = _ => assert (H : proceeds m from (fun s' _ => all_named s')) end.
  { eapply proceeds_bind; [apply named_bodies; constructor|]. intros s1 lowered _ Hall1.
    eapply proceeds_then; [apply named_instances; [lia|done]|]. intros s2 _ Hall2.
    eapply proceeds_then; [apply check_bodies_proceed|]. intros s3 H3 E3. cbn beta in E3. injection E3 as E3 _.
    eapply proceeds_then; [apply check_bodies_proceed|]. intros s4 H4 E4. cbn beta in E4. injection E4 as E4 _. apply proceeds_state, proceeds_ret.
    apply (all_named_same s3); [done|done|]. by apply (all_named_same s2). }
  specialize (H Hs). rewrite Hb in H. by destruct H as (_ & _ & H).
Qed.
End build.

(** ** The calls of a body *)

(** What an instruction calls. *)
Definition call_of (inst : MIRInst) : option FuncPtr := if bool_decide (op inst = MIR_CALL) then Some (inst_callee inst) else None.
Definition calls_of (l : list MIRInst) : list FuncPtr := omap call_of l.
Definition body_calls (ir : MIRFunction) : list FuncPtr := calls_of (all_insts_of (blocks ir)).

Lemma calls_of_app l l' : calls_of (l ++ l') = calls_of l ++ calls_of l'.
Proof. apply omap_app. Qed.

Lemma calls_of_cons inst l : calls_of (inst :: l) = option_list (call_of inst) ++ calls_of l.
Proof. unfold calls_of. cbn. by destruct (call_of inst). Qed.

Lemma calls_of_flat_map f l : (forall inst, calls_of (f inst) = option_list (call_of inst)) -> calls_of (flat_map f l) = calls_of l.
Proof. intros Hf. induction l as [|inst l IH]; [done|]. cbn [flat_map]. by rewrite calls_of_app, calls_of_cons, Hf, IH. Qed.

Lemma calls_of_fmap f l : (forall inst, call_of (f inst) = call_of inst) -> calls_of (f <$> l) = calls_of l.
Proof. intros Hf. induction l as [|inst l IH]; [done|]. rewrite fmap_cons, !calls_of_cons, Hf. by f_equal. Qed.

Lemma calls_of_filter (P : MIRInst -> Prop) `{forall inst, Decision (P inst)} l :
  (forall inst, ~ P inst -> call_of inst = None) -> calls_of (filter P l) = calls_of l.
Proof.
  intros HP. induction l as [|inst l IH]; [done|]. rewrite filter_cons, calls_of_cons, <- IH. case_decide as Hd; [apply calls_of_cons|].
  by rewrite (HP inst Hd).
Qed.

Lemma calls_of_insert l i inst inst' : l !! i = Some inst -> call_of inst' = call_of inst -> calls_of (<[i := inst']> l) = calls_of l.
Proof.
  intros Hi Hc. rewrite <- (take_drop_middle l i inst Hi) at 2. rewrite insert_take_drop by (by eapply lookup_lt_Some).
  by rewrite !calls_of_app, !calls_of_cons, Hc.
Qed.

Lemma in_body_calls ir p : Some p ∈ body_calls ir <->
  exists b inst, b ∈ blocks ir /\ inst ∈ insts b /\ op inst = MIR_CALL /\ inst_callee inst = Some p.
Proof.
  unfold body_calls, calls_of, all_insts_of. rewrite list_elem_of_omap. split.
  - intros (inst & Hin & Hc). apply list_elem_of_In, in_flat_map in Hin as (b & Hb & Hin). exists b, inst. rewrite <- !list_elem_of_In in *.
    unfold call_of in Hc. case_bool_decide; [|done]. by injection Hc.
  - intros (b & inst & Hb & Hin & Hop & Hc). exists inst. split.
    + apply list_elem_of_In, in_flat_map. exists b. by rewrite <- !list_elem_of_In.
    + unfold call_of. by rewrite bool_decide_eq_true_2, Hc.
Qed.

Definition same_calls (b b' : MIRBlock) : Prop := calls_of (insts b') = calls_of (insts b).

Lemma same_body_calls bs bs' : Forall2 same_calls bs bs' -> calls_of (all_insts_of bs') = calls_of (all_insts_of bs).
Proof. unfold all_insts_of. induction 1 as [|b b' bs bs' Hb _ IH]; [done|]. cbn [flat_map]. by rewrite !calls_of_app, Hb, IH. Qed.

Lemma map_insts_calls f ir : (forall l, calls_of (f l) = calls_of l) -> body_calls (map_insts f ir) = body_calls ir.
Proof.
  intros Hf. apply same_body_calls. unfold map_insts. cbn [blocks set_blocks]. apply Forall2_fmap_r, Forall_Forall2_diag, Forall_true.
  intros b. apply Hf.
Qed.

(** *** Folding *)

Section passes.
Context `{TV : TypeView}.

Lemma fold_operands_calls operands inst inst' : fold_operands operands inst = Some inst' -> call_of inst = None /\ call_of (clear_args inst') = None.
Proof.
  assert (Hset : forall o c, inst_is_constant o = true -> call_of (clear_args (Fold.set_constant inst o c)) = None).
  { intros o c Ho. unfold call_of. rewrite bool_decide_eq_false_2; [done|]. cbn. by intros ->. }
  unfold fold_operands, fold_neg, fold_not, fold_binary. intros H. split.
  - unfold call_of. rewrite bool_decide_eq_false_2; [done|]. intros Ho. by rewrite Ho in H.
  - destruct (op inst); try done; repeat (case_match; try done); simplify_eq; try (by apply Hset);
      apply bind_Some in H as (folded & _ & [= <-]); by apply Hset.
Qed.

Lemma fold_inst_calls known inst : call_of (fold_inst known inst).2 = call_of inst.
Proof.
  unfold fold_inst. destruct (_ || _); [done|]. destruct (mapM _ _) as [operands|]; [|done].
  destruct (fold_operands operands inst) as [inst'|] eqn:Hf; [|done]. apply fold_operands_calls in Hf as [H1 H2]. by rewrite H1.
Qed.

Lemma fold_insts_calls l : forall known, calls_of (fold_insts known l).2 = calls_of l.
Proof.
  induction l as [|inst l IH]; intros known; [done|]. cbn [fold_insts]. pose proof (fold_inst_calls known inst) as Hi.
  destruct (fold_inst known inst) as [known1 inst1]. specialize (IH known1). destruct (fold_insts known1 l) as [known2 l2]. cbn [snd] in *.
  by rewrite !calls_of_cons, Hi, IH.
Qed.

Lemma fold_blocks_calls bs : forall known, Forall2 same_calls bs (fold_blocks known bs).2.
Proof.
  induction bs as [|b bs IH]; intros known; [constructor|]. cbn [fold_blocks]. pose proof (fold_insts_calls (insts b) known) as Hi.
  destruct (fold_insts known (insts b)) as [known1 l]. specialize (IH known1). destruct (fold_blocks known1 bs) as [known2 rest]. by constructor.
Qed.

(** Folding keeps the calls of a body, one after the other. *)
Lemma mir_fold_calls ir : body_calls (mir_fold ir) = body_calls ir.
Proof.
  unfold mir_fold, drop_unread_constants. set (folded := set_blocks ir _). etrans; [|apply (same_body_calls _ _ (fold_blocks_calls (blocks ir) (known_values ir)))].
  apply (map_insts_calls (filter (fun inst => unread_constant _ inst = false)) folded). intros l. apply calls_of_filter. intros inst Hu%not_false_iff_true.
  unfold unread_constant in Hu. unfold call_of. rewrite bool_decide_eq_false_2; [done|]. intros Ho. by rewrite Ho in Hu.
Qed.

(** *** Drops *)

Lemma pass_inst_calls o type result args place flag span : o <> MIR_CALL -> call_of (drop_pass_inst o type result args place flag span) = None.
Proof. intros Ho. unfold call_of. by rewrite bool_decide_eq_false_2. Qed.

Lemma release_inst_calls s inst : calls_of (release_inst s inst).2 = option_list (call_of inst).
Proof.
  assert (H1 : calls_of [inst] = option_list (call_of inst)) by (rewrite calls_of_cons; apply app_nil_r).
  unfold release_inst. by repeat (case_match; try done).
Qed.

Lemma release_insts_calls l : forall s, calls_of (release_insts s l).2 = calls_of l.
Proof.
  induction l as [|inst l IH]; intros s; [done|]. cbn [release_insts]. pose proof (release_inst_calls s inst) as Hi.
  destruct (release_inst s inst) as [s1 out]. specialize (IH s1). destruct (release_insts s1 l) as [s2 rest]. cbn [snd] in *.
  by rewrite calls_of_app, calls_of_cons, Hi, IH.
Qed.

Lemma release_blocks_calls bs : forall s, Forall2 same_calls bs (release_blocks s bs).2.
Proof.
  induction bs as [|b bs IH]; intros s; [constructor|]. cbn [release_blocks]. pose proof (release_insts_calls (insts b) s) as Hi.
  destruct (release_insts s (insts b)) as [s1 l]. specialize (IH s1). destruct (release_blocks s1 bs) as [s2 rest]. by constructor.
Qed.

Lemma release_calls ir : body_calls (release_before_overwrite ir) = body_calls ir.
Proof.
  unfold release_before_overwrite. pose proof (release_blocks_calls (blocks ir) (MkOverwriting (values ir) (replicate (value_count ir + 1) false))) as Hr.
  destruct (release_blocks _ _) as [s bs]. by apply same_body_calls.
Qed.

Lemma empty_moved_calls ir : body_calls (empty_moved ir) = body_calls ir.
Proof.
  apply map_insts_calls. intros l. apply calls_of_flat_map. intros inst. unfold empty_after_move. destruct (_ && _).
  - rewrite !calls_of_cons, pass_inst_calls by done. apply app_nil_r.
  - rewrite calls_of_cons. apply app_nil_r.
Qed.

Lemma without_drops_calls vc l : forall holds, calls_of (without_empty_drops vc holds l) = calls_of l.
Proof.
  induction l as [|inst l IH]; intros holds; [done|]. cbn [without_empty_drops]. rewrite calls_of_cons, <- (IH (walk_inst vc holds inst)).
  destruct (_ && _) eqn:Hd; [|apply calls_of_cons]. rewrite !andb_true_iff, !bool_decide_eq_true in Hd. destruct Hd as [[_ Hd] _].
  unfold call_of. by rewrite bool_decide_eq_false_2 by (by rewrite Hd).
Qed.

Lemma removed_calls ir ir' : drop_releases_of_emptied_places ir = Some ir' -> body_calls ir' = body_calls ir.
Proof.
  unfold drop_releases_of_emptied_places. case_bool_decide; [by intros [= <-]|]. intros H'. apply bind_Some in H' as (entries & _ & [= <-]).
  apply same_body_calls. cbn [blocks set_blocks]. apply Forall2_same_length_lookup_2; [by rewrite length_imap|]. intros i b b' Hb.
  rewrite list_lookup_imap, Hb. intros [= <-]. unfold same_calls, remove_empty_drops. cbn [insts set_insts]. unfold remove_all.
  pose proof (remove_empty_drops_filters (value_count ir) (insts b) (default [] (entries !! i)) []) as Hr. cbn [app length] in Hr.
  by rewrite Hr, without_drops_calls.
Qed.

Lemma noted_calls l : forall s, calls_of (flagged_insts (foldl note_conditional_drop s l)) = calls_of (flagged_insts s).
Proof.
  induction l as [|[at_ held] l IH]; intros s; [done|]. cbn [foldl]. rewrite IH. unfold note_conditional_drop.
  destruct (negb _); [done|]. destruct (flagged_insts s !! at_) as [inst|] eqn:Hi; [|done].
  assert (Hs : forall flag, calls_of (<[at_ := set_flag inst flag]> (flagged_insts s)) = calls_of (flagged_insts s)).
  { intros flag. apply (calls_of_insert _ _ inst); [done|]. unfold call_of, set_flag, inst_callee. cbn. by destruct (payload inst). }
  destruct (mir_value_is_none _); apply Hs.
Qed.

Lemma note_blocks_calls vc entries bs : forall i values fs, Forall2 same_calls bs (note_blocks vc entries i values fs bs).2.
Proof.
  induction bs as [|b bs IH]; intros i values fs; [constructor|]. cbn [note_blocks].
  set (s := foldl _ _ _). pose proof (noted_calls (walk_visits vc 0 (default [] (entries !! i)) (insts b)) (MkFlagged values (insts b) fs)) as Hn.
  fold s in Hn. cbn [flagged_insts] in Hn. specialize (IH (S i) (flagged_values s) (flags s)).
  destruct (note_blocks _ _ _ _ _ _) as [[values' fs'] rest]. by constructor.
Qed.

Lemma guarded_calls ir ir' : guard_conditional_drops ir = Some ir' -> body_calls ir' = body_calls ir.
Proof.
  unfold guard_conditional_drops. case_bool_decide; [by intros [= <-]|]. intros H'. apply bind_Some in H' as (entries & _ & H').
  pose proof (note_blocks_calls (value_count ir) entries (blocks ir) 0 (values ir) (replicate (value_count ir + 1) MIR_NO_VALUE)) as Hn.
  destruct (note_blocks _ _ _ _ _ _) as [[values' fs] bs]. injection H' as <-. etrans; [|by apply (same_body_calls _ _ Hn)].
  unfold remove_flagged_nulls. rewrite map_insts_calls.
  - unfold write_drop_flags. rewrite map_insts_calls; [done|]. intros l. apply calls_of_flat_map. intros inst. unfold flag_after. cbn zeta.
    assert (H1 : calls_of [inst] = option_list (call_of inst)) by (rewrite calls_of_cons; apply app_nil_r).
    by repeat (case_match; try done).
  - intros l. apply calls_of_filter. intros inst Hk%not_true_iff_false. unfold keeps_null in Hk. apply negb_false_iff in Hk.
    rewrite !andb_true_iff, bool_decide_eq_true in Hk. destruct Hk as [[[Hk _] _] _]. unfold call_of. by rewrite bool_decide_eq_false_2 by (by rewrite Hk).
Qed.

Lemma elaborate_calls ir ir' : elaborate_drops ir = Some ir' -> body_calls ir' = body_calls ir.
Proof.
  unfold elaborate_drops. intros H. apply bind_Some in H as (ir1 & H1 & H2). apply removed_calls in H1. apply guarded_calls in H2.
  by rewrite H2, H1, release_calls, empty_moved_calls.
Qed.

(** The function of a body stays. *)
Lemma elaborate_function ir ir' : elaborate_drops ir = Some ir' -> mir_function ir' = mir_function ir.
Proof.
  unfold elaborate_drops. intros H. apply bind_Some in H as (ir1 & H1 & H2).
  assert (E1 : mir_function ir1 = mir_function (release_before_overwrite (empty_moved ir))).
  { unfold drop_releases_of_emptied_places in H1. case_bool_decide; [by injection H1 as <-|]. by apply bind_Some in H1 as (e & _ & [= <-]). }
  assert (E2 : mir_function ir' = mir_function ir1).
  { unfold guard_conditional_drops in H2. case_bool_decide; [by injection H2 as <-|]. apply bind_Some in H2 as (e & _ & H2).
    destruct (note_blocks _ _ _ _ _ _) as [[values' fs] bs]. by injection H2 as <-. }
  rewrite E2, E1. unfold release_before_overwrite. by destruct (release_blocks _ _).
Qed.
End passes.

(** *** Endings *)

Section endings.
Context (host : Host).

Lemma find_ending_kept inst w w' inst' : find_ending host inst w = Some (w', inst') ->
  call_of inst' = call_of inst /\ functions_grow (world_functions w) (world_functions w').
Proof.
  unfold find_ending. destruct (negb _); [by intros [= <- <-]|]. intros H.
  unfold mbind, Inst_bind in H. cbn [get_types] in H. destruct (owned_for _ _ _ _ w) as [[w1 found]|] eqn:Ho; [|done].
  injection H as <- <-. split; [done|]. by apply owned_for_only_grows in Ho.
Qed.

Lemma find_all_kept {A} (f : A -> Inst A) (calls : A -> list FuncPtr) l :
  (forall a w w' a', f a w = Some (w', a') -> calls a' = calls a /\ functions_grow (world_functions w) (world_functions w')) ->
  forall w w' l', mapM f l w = Some (w', l') ->
  concat (calls <$> l') = concat (calls <$> l) /\ functions_grow (world_functions w) (world_functions w').
Proof.
  intros Hf. induction l as [|a l IH]; intros w w' l' H; cbn [mapM] in H; [by injection H as <- <-|].
  unfold mbind, Inst_bind in H. destruct (f a w) as [[w1 a1]|] eqn:H1; [|done]. destruct (mapM f l w1) as [[w2 l2]|] eqn:H2; [|done].
  injection H as <- <-. apply Hf in H1 as [C1 G1]. apply IH in H2 as [C2 G2]. rewrite !fmap_cons. cbn [concat]. rewrite C1, C2.
  split; [done|by etrans].
Qed.

Lemma concat_calls l : concat ((fun inst => option_list (call_of inst)) <$> l) = calls_of l.
Proof. induction l as [|inst l IH]; [done|]. rewrite fmap_cons, calls_of_cons, <- IH. done. Qed.

Lemma concat_blocks bs : concat ((fun b => calls_of (insts b)) <$> bs) = calls_of (all_insts_of bs).
Proof. unfold all_insts_of. induction bs as [|b bs IH]; [done|]. cbn [flat_map]. rewrite fmap_cons, calls_of_app, <- IH. done. Qed.

Lemma find_endings_kept ir w w' ir' : find_endings host ir w = Some (w', ir') ->
  body_calls ir' = body_calls ir /\ mir_function ir' = mir_function ir /\ functions_grow (world_functions w) (world_functions w').
Proof.
  unfold find_endings. unfold mbind at 1, Inst_bind at 1. destruct (mapM (find_block_endings host) (blocks ir) w) as [[w1 bs]|] eqn:H; [|done]. intros [= <- <-].
  apply (find_all_kept _ (fun b => calls_of (insts b))) in H as [Hc Hg].
  - rewrite !concat_blocks in Hc. by split.
  - intros b v v' b' Hb. unfold find_block_endings in Hb. unfold mbind at 1, Inst_bind at 1 in Hb.
    destruct (mapM (find_ending host) (insts b) v) as [[v1 l]|] eqn:Hl; [|done]. injection Hb as <- <-.
    apply (find_all_kept _ (fun inst => option_list (call_of inst))) in Hl as [Hc Hg]; [by rewrite !concat_calls in Hc|].
    intros inst u u' inst' Hi. apply find_ending_kept in Hi as [Hc' Hg']. by rewrite Hc'.
Qed.
End endings.

(** ** What is emitted *)

(** The bodies the code generator is given. *)
Definition emitted (unit : list UnitCall) : list MIRFunction :=
  omap (fun call => match call with llvm_unit_add ir => Some ir | _ => None end) unit.

Lemma emitted_app u u' : emitted (u ++ u') = emitted u ++ emitted u'.
Proof. apply omap_app. Qed.

Lemma emitted_adds irs : emitted (llvm_unit_add <$> irs) = irs.
Proof. unfold emitted. induction irs as [|ir irs IH]; [done|]. rewrite fmap_cons. cbn in *. by f_equal. Qed.

Definition functions_in (c : Compilation) : FunctionRegistry := world_functions (sh_world (cp_shared c)).

(** A body that is emitted for one that was built. *)
Definition emitted_for (e : MIRModuleEntry) (ir : MIRFunction) : Prop :=
  body_calls ir = body_calls (entry_ir e) /\ mir_function ir = mir_function (entry_ir e).

Lemma template_same fr fr' ir p f : functions_grow fr fr' -> mir_function ir = Some p -> reg_functions fr !! p = Some f ->
  mir_function_is_template fr' ir = mir_function_is_template fr ir.
Proof.
  intros Hg Hp Hf. destruct (Hg p f Hf) as (f' & Hf' & [= Hd _ Ha]). unfold mir_function_is_template, function_at. rewrite Hp. cbn.
  by rewrite Hf, Hf', Hd, Ha.
Qed.

Section compile.
Context (host : Host).

(** The name of a function in the identifier of its instance is the only thing a
    lookup compares. *)
Definition same_instance (f f' : Function) : Prop :=
  exists types, instance_id_equals types (instance_id_of_function (Some f)) (instance_id_of_function (Some f')) = true.

Record emits (c c' : Compilation) (irs : list MIRFunction) : Prop := {
  em_functions : functions_grow (functions_in c) (functions_in c');
  em_generics : cp_generics c' = cp_generics c;
  em_unit : cp_unit c' = cp_unit c ++ (llvm_unit_add <$> irs);
}.

Lemma compile_body_emits e c c' : entry_named (functions_in c) e -> compile_body host e c = Some (c', tt) ->
  exists irs, emits c c' irs /\
    if mir_function_is_template (functions_in c) (entry_ir e) then irs = [] else exists ir, irs = [ir] /\ emitted_for e ir.
Proof.
  intros _ H. unfold compile_body in H. unfold mbind at 1, Compile_bind at 1 in H. cbn [the_compilation] in H. fold (functions_in c) in H.
  destruct (mir_function_is_template _ _).
  { injection H as <-. exists []. split; [|done]. split; [done|done|]. cbn. by rewrite app_nil_r. }
  unfold mbind at 1, Compile_bind at 1 in H.
  destruct (need _ c) as [[c1 ir1]|] eqn:H1; [|done]. unfold need in H1. apply bind_Some in H1 as (x & H1 & [= <- <-]).
  unfold mbind at 1, Compile_bind at 1 in H. destruct (in_registries _ c) as [[c2 ir2]|] eqn:H2; [|done]. injection H as <-.
  unfold in_registries in H2. apply bind_Some in H2 as ([w ir] & H2 & [= <- <-]). apply find_endings_kept in H2 as (C2 & F2 & G2).
  pose proof (elaborate_calls _ _ H1) as C1. pose proof (elaborate_function _ _ H1) as F1.
  exists [ir]. split; [by split|]. exists ir. split; [done|]. split; [by rewrite C2, C1, mir_fold_calls|by rewrite F2, F1].
Qed.

Lemma compile_bodies_emit es : forall c c', Forall (entry_named (functions_in c)) es -> for_every (compile_body host) es c = Some (c', tt) ->
  exists irs, emits c c' irs /\ Forall2 emitted_for (filter (fun e => mir_function_is_template (functions_in c) (entry_ir e) = false) es) irs.
Proof.
  induction es as [|e es IH]; intros c c' Hn H; cbn [for_every] in H.
  { injection H as <-. exists []. split; [|constructor]. split; [done|done|]. cbn. by rewrite app_nil_r. }
  apply Forall_cons in Hn as [Hn1 Hn2]. unfold mbind, Compile_bind in H. destruct (compile_body host e c) as [[c1 []]|] eqn:H1; [|done].
  destruct (compile_body_emits e c c1 Hn1 H1) as (irs1 & [G1 K1 U1] & E1).
  destruct (IH c1 c') as (irs2 & [G2 K2 U2] & E2); [|done|].
  { eapply Forall_impl; [exact Hn2|]. intros x. by apply entry_named_later. }
  exists (irs1 ++ irs2). split.
  { split; [by etrans|by rewrite K2|]. rewrite U2, U1, fmap_app. by rewrite <- app_assoc. }
  assert (Hsame : filter (fun e => mir_function_is_template (functions_in c1) (entry_ir e) = false) es =
    filter (fun e => mir_function_is_template (functions_in c) (entry_ir e) = false) es).
  { clear -Hn2 G1. induction Hn2 as [|x es (f & Hf & _ & Hx) _ IH]; [done|]. rewrite !filter_cons, IH.
    by rewrite (template_same (functions_in c) (functions_in c1) (entry_ir x) _ f G1 Hx Hf). }
  rewrite Hsame in E2. rewrite filter_cons. destruct (mir_function_is_template _ (entry_ir e)).
  - subst irs1. rewrite decide_False by done. done.
  - destruct E1 as (ir & -> & Hir). rewrite decide_True by done. by constructor.
Qed.

(** *** The templates kept *)

Lemma keep_templates_app fr bodies : Forall (entry_named fr) bodies -> forall generics,
  foldl (keep_template fr) generics bodies = generics ++ filter (fun e => mir_function_is_template fr (entry_ir e) = true) bodies.
Proof.
  induction 1 as [|e bodies (f & Hf & Hid & _) _ IH]; intros generics; cbn [foldl]; [by rewrite app_nil_r|]. rewrite IH, filter_cons. unfold keep_template.
  destruct (mir_function_is_template fr (entry_ir e)).
  - rewrite decide_True by done. unfold mir_module_add. rewrite Hf, <- Hid, <- app_assoc. by destruct e.
  - by rewrite decide_False.
Qed.

Lemma lookup_id_app r u u' d : is_Some (mir_module_lookup_id r (u ++ u') (instance_id_of d [])) ->
  is_Some (mir_module_lookup_id r u (instance_id_of d [])) \/ is_Some (mir_module_lookup_id r u' (instance_id_of d [])).
Proof.
  unfold mir_module_lookup_id. destruct (negb _); [by intros []|]. rewrite !fmap_is_Some. induction u as [|e u IH]; cbn [app find]; [by right|].
  destruct (instance_id_equals _ _ _); [by left|done].
Qed.

Lemma lookup_id_filter r r' (P : MIRModuleEntry -> Prop) `{forall e, Decision (P e)} (u : list MIRModuleEntry) d :
  is_Some (mir_module_lookup_id r (filter P u) (instance_id_of d [])) -> is_Some (mir_module_lookup_id r' u (instance_id_of d [])).
Proof.
  unfold mir_module_lookup_id. destruct (negb _); [by intros []|]. rewrite !fmap_is_Some. induction u as [|e u IH]; [done|].
  rewrite filter_cons. cbn [find]. rewrite generic_equals in *. case_decide; cbn [find]; rewrite ?generic_equals; destruct (_ && _); try done; by intros ?%IH.
Qed.

(** *** A module *)

Lemma resolve_leaves module into intrinsics c c' resolved : resolve host module into intrinsics c = Some (c', (true, resolved)) ->
  wanted_ok (functions_in c') (resolved_work resolved) /\ instantiation_overflowed (resolved_work resolved) = false /\
  cp_generics c' = cp_generics c /\ cp_unit c' = cp_unit c.
Proof.
  unfold resolve. destruct (resolve_module _ _ _ _ _ _ _ _ _ _ _) as [s ok| |] eqn:H; [|done..]. intros [= <- -> <-].
  apply resolve_module_keeps in H as (Hok & _ & _ & _ & Ho). split; [exact Hok|]. split; [|done]. cbn [resolved_work].
  destruct (instantiation_overflowed (rs_work s)); [by specialize (Ho eq_refl)|done].
Qed.

Lemma module_entry_leaves module c c' entry : module_entry host module c = Some (c', entry) ->
  sh_world (cp_shared c') = sh_world (cp_shared c) /\ cp_generics c' = cp_generics c /\ cp_unit c' = cp_unit c.
Proof.
  unfold module_entry. unfold mbind at 1, Compile_bind at 1. destruct (intern _ c) as [[c1 name]|] eqn:H1; [|done]. intros H.
  unfold intern in H1. apply bind_Some in H1 as ([strings string] & _ & [= <- <-]). unfold mbind at 1, Compile_bind at 1 in H.
  cbn [the_compilation] in H. unfold mbind at 1, Compile_bind at 1 in H. destruct (need _ _) as [[c2 found]|] eqn:H2; [|done].
  unfold need in H2, H. apply bind_Some in H2 as (x & _ & [= <- <-]). by apply bind_Some in H as (y & _ & [= <- <-]).
Qed.

(** Every call of the bodies has the body it needs among them. *)
Definition calls_answered (c : Compilation) (irs : list MIRFunction) : Prop :=
  forall ir p, ir ∈ irs -> Some p ∈ body_calls ir ->
  exists f, reg_functions (functions_in c) !! p = Some f /\
    (wants f -> is_Some (mir_module_lookup_id (world_types (sh_world (cp_shared c))) (cp_generics c) (instance_id_of (func_id (fn_decl f)) [])) ->
      exists ir' q f', ir' ∈ irs /\ mir_function ir' = Some q /\ reg_functions (functions_in c) !! q = Some f' /\ (q = p \/ same_instance f' f)).

(** What a build that is accepted leaves. *)
Record built_well (generics : MIRModule) (s : Building) : Prop := {
  bw_named : all_named s;
  bw_served : all_served s;
  bw_answered : Forall (answered (Some generics) s) (wanted (bld_work s));
  bw_listed : instantiation_overflowed (bld_work s) = false;
}.

Lemma build_leaves resolved c c' bodies : wanted_ok (functions_in c) (resolved_work resolved) -> instantiation_overflowed (resolved_work resolved) = false ->
  build host resolved c = Some (c', (true, bodies)) ->
  exists s, built_well (cp_generics c) s /\ bodies = bld_made s /\ sh_world (cp_shared c') = bld_world s /\
    cp_generics c' = cp_generics c /\ cp_unit c' = cp_unit c.
Proof.
  intros Hok Ho. unfold build. destruct (mir_build _ _ _ _ _ _ _ _ _ _ _ _ _ _ _) as [s ok| |] eqn:H; [|done..]. intros [= <- -> <-].
  exists s. split; [|done]. set (start := MkBuilding _ _ _ _) in H. assert (Hstart : building_ok start) by done.
  pose proof (mir_build_names _ _ _ _ _ _ _ _ _ _ _ _ _ _ _ _ Hstart H) as Hn.
  match type of H with mir_build ?a ?b ?d ?e ?f ?g ?h ?i ?j ?k ?l ?m ?n ?t start = _ =>
    pose proof (mir_build_proceeds a b d e f g h i j k l m n t start (le_n _) Hstart) as Hb end.
  cbn zeta in Hb. rewrite H in Hb. destruct Hb as (_ & [_ _ [_ _ _ Hd Hr]] & Hserved & Hans & Hacc). split; [done..|].
  destruct (instantiation_overflowed (bld_work s)) eqn:Hs; [|done]. cbn [bld_work bld_diagnostics start] in *.
  destruct (Hr Ho eq_refl) as (name & pre & post & He). unfold diagnostics_count in Hacc. rewrite He, !length_app in Hacc. cbn in Hacc.
  symmetry in Hacc. apply Nat.eqb_eq in Hacc. lia.
Qed.

(** The bodies emitted of a good build. *)
Lemma built_calls_answered generics s fr' c irs : built_well generics s -> functions_grow (world_functions (bld_world s)) fr' ->
  functions_in c = fr' -> cp_generics c = generics ++ filter (fun e => mir_function_is_template (world_functions (bld_world s)) (entry_ir e) = true) (bld_made s) ->
  Forall2 emitted_for (filter (fun e => mir_function_is_template (world_functions (bld_world s)) (entry_ir e) = false) (bld_made s)) irs ->
  calls_answered c irs.
Proof.
  intros [Hnamed Hserved Hans Ho] Hgrow Hc Hgen Hirs ir p Hir Hcall. set (fr := world_functions (bld_world s)) in *.
  apply list_elem_of_lookup in Hir as [i Hi]. destruct (Forall2_lookup_r _ _ _ _ _ Hirs Hi) as (e & He & Hcalls & _).
  apply list_elem_of_lookup_2, list_elem_of_filter in He as [Ht He]. rewrite Hcalls in Hcall.
  apply in_body_calls in Hcall as (b & inst & Hb & Hinst & Hop & Hcallee).
  unfold all_served in Hserved. rewrite Forall_forall in Hserved. specialize (Hserved e He Ht). unfold served in Hserved.
  rewrite Forall_forall in Hserved. specialize (Hserved b Hb). cbn beta in Hserved. rewrite Forall_forall in Hserved.
  destruct (Hserved inst Hinst p Hop Hcallee) as (f & Hf & Hlisted). destruct (Hgrow p f Hf) as (g & Hg & Hgf). exists g. rewrite Hc.
  split; [done|]. intros Hw Hhas. assert (Hwf : wants f) by (by apply (core_wants g)).
  destruct (Hlisted Hwf) as [Hin|Hov]; [|congruence]. rewrite Forall_forall in Hans. destruct (Hans p Hin) as (f0 & Hf0 & Hbody).
  fold fr in Hf0, Hf. assert (f0 = f) as -> by congruence. clear Hf0. injection Hgf as Hd Hsig Ha.
  destruct Hbody as (e' & He' & Hid).
  { rewrite Hd, Hgen in Hhas. unfold generic_body. apply lookup_id_app in Hhas. destruct (mir_module_lookup_id _ (bld_made s) _) eqn:Hown; [done|]. cbn.
    destruct Hhas as [Hhas|Hhas].
    - rewrite <- (app_nil_r generics) in Hhas |- *. by rewrite (lookup_generic _ (world_types (sh_world (cp_shared c)))), app_nil_r in * by constructor.
    - apply (lookup_id_filter _ (world_types (bld_world s))) in Hhas. by rewrite Hown in Hhas. }
  unfold all_named in Hnamed. rewrite Forall_forall in Hnamed. destruct (Hnamed e' He') as (f' & Hf' & Hname & Hfun). fold fr in Hf'.
  assert (Hargs : ~ fn_type_args f' = []).
  { destruct Hid as [Hid|(r & Hid)]; [rewrite Hid, Hf in Hf'; injection Hf' as <-; apply Hwf|]. rewrite Hname in Hid.
    unfold instance_id_equals, instance_id_of_function, instance_id_of in Hid. destruct (_ || _) eqn:Hor; [done|].
    apply orb_false_iff in Hor as [_ Hlen%negb_false_iff]. apply Nat.eqb_eq in Hlen. cbn [inst_args] in Hlen. intros Heq. rewrite Heq in Hlen. cbn in Hlen.
    destruct Hwf as (_ & _ & Hne). destruct (fn_type_args f); [done|]. cbn in Hlen. lia. }
  assert (He'' : e' ∈ filter (fun e => mir_function_is_template fr (entry_ir e) = false) (bld_made s)).
  { apply list_elem_of_filter. split; [|done]. by eapply instance_is_no_template. }
  apply list_elem_of_lookup in He'' as [j Hj]. destruct (Forall2_lookup_l _ _ _ _ _ Hirs Hj) as (ir' & Hir' & _ & Hfun').
  destruct (Hgrow _ f' Hf') as (g' & Hg' & Hgf'). exists ir', (entry_function e'), g'. split; [by eapply list_elem_of_lookup_2|].
  split; [by rewrite Hfun'|]. split; [done|]. destruct Hid as [Hid|(r & Hid)]; [by left|right]. exists (reg_types r).
  injection Hgf' as Hd' _ Ha'. rewrite Hname in Hid. unfold instance_id_of_function in *. by rewrite Hd, Ha, Hd', Ha'.
Qed.

Lemma compile_module_emits module into intrinsics c c' entry : compile_module host module into intrinsics c = Some (c', (true, entry)) ->
  exists irs, cp_unit c' = cp_unit c ++ (llvm_unit_add <$> irs) /\ calls_answered c' irs.
Proof.
  unfold compile_module. unfold mbind at 1, Compile_bind at 1. destruct (resolve host module into intrinsics c) as [[c1 [[] resolved]]|] eqn:H1; [|done..].
  cbn [negb]. apply resolve_leaves in H1 as (Hok & Ho & G1 & U1).
  unfold mbind at 1, Compile_bind at 1. destruct (module_entry _ _ c1) as [[c2 start]|] eqn:H2; [|done]. apply module_entry_leaves in H2 as (W2 & G2 & U2).
  unfold mbind at 1, Compile_bind at 1. destruct (build host resolved c2) as [[c3 [[] bodies]]|] eqn:H3; [|done..]. cbn [negb].
  assert (Hok2 : wanted_ok (functions_in c2) (resolved_work resolved)) by (unfold functions_in; by rewrite W2).
  destruct (build_leaves resolved c2 c3 bodies Hok2 Ho H3) as (s & Hwell & -> & W3 & G3 & U3).
  unfold mbind at 1, Compile_bind at 1. unfold keep_templates at 1. cbn [update].
  set (c4 := put_generics c3 _). unfold mbind at 1, Compile_bind at 1. destruct (for_every (compile_body host) (bld_made s) c4) as [[c5 []]|] eqn:H5; [|done].
  intros [= <- <-].
  assert (F4 : functions_in c4 = world_functions (bld_world s)) by (unfold functions_in, c4; cbn; by rewrite W3).
  destruct (compile_bodies_emit (bld_made s) c4 c5) as (irs & [F5 K5 U5] & Hirs); [rewrite F4; apply (bw_named _ _ Hwell)|done|].
  rewrite F4 in *. exists irs. split; [by rewrite U5; cbn; rewrite U3, U2, U1|].
  apply (built_calls_answered (cp_generics c2) s (functions_in c5)); [done..| |done].
  rewrite K5. unfold c4. cbn [cp_generics put_generics]. rewrite W3, keep_templates_app by apply (bw_named _ _ Hwell). by rewrite G3.
Qed.
End compile.

(** ** A whole compilation *)

(** A computation that relates the states before and after by a preorder. *)
Definition leaves {A} (R : Compilation -> Compilation -> Prop) (m : Compile A) : Prop := forall c c' a, m c = Some (c', a) -> R c c'.

(** Nothing more is emitted. *)
Definition emits_nothing (c c' : Compilation) : Prop := emitted (cp_unit c') = emitted (cp_unit c).

(** Nor do the functions, the types and the templates change. *)
Definition only_tells (c c' : Compilation) : Prop :=
  emits_nothing c c' /\ sh_world (cp_shared c') = sh_world (cp_shared c) /\ cp_generics c' = cp_generics c.

#[export] Instance emits_nothing_preorder : PreOrder emits_nothing.
Proof. split; [done|]. unfold emits_nothing. intros c c' c'' H1 H2. congruence. Qed.

#[export] Instance only_tells_preorder : PreOrder only_tells.
Proof. split; [done|]. unfold only_tells, emits_nothing. intros c c' c'' (?&?&?) (?&?&?). repeat split; congruence. Qed.

Section leaves.
Context {R : Compilation -> Compilation -> Prop} `{PO : !PreOrder R}.

Lemma leaves_ret {A} (a : A) : leaves R (mret a).
Proof. intros c c' b [= <- <-]. reflexivity. Qed.

Lemma leaves_bind {A B} (m : Compile A) (k : A -> Compile B) : leaves R m -> (forall a, leaves R (k a)) -> leaves R (m ≫= k).
Proof.
  intros Hm Hk c c' b H. unfold mbind, Compile_bind in H. destruct (m c) as [[c1 a]|] eqn:H1; [|done]. etrans; [by eapply Hm|by eapply Hk].
Qed.

Lemma leaves_and_if m k : leaves R m -> leaves R k -> leaves R (and_if m k).
Proof. intros Hm Hk. apply leaves_bind; [done|]. intros []; [done|apply leaves_ret]. Qed.

Lemma leaves_need {A} (o : option A) : leaves R (need o).
Proof. intros c c' a H. unfold need in H. apply bind_Some in H as (x & _ & [= <- <-]). reflexivity. Qed.

Lemma leaves_the : leaves R the_compilation.
Proof. intros c c' a [= <- <-]. reflexivity. Qed.

Lemma leaves_update f : (forall c, R c (f c)) -> leaves R (update f).
Proof. intros Hf c c' a [= <- <-]. apply Hf. Qed.
End leaves.

Section whole.
Context (host : Host).

Ltac stepping := repeat first
  [ apply leaves_ret | apply leaves_need | apply leaves_the | apply leaves_and_if | apply leaves_bind; [|intros ?] | case_match ].

Lemma leaves_tell (call : UnitCall) : (forall ir, call <> llvm_unit_add ir) -> leaves only_tells (tell call).
Proof.
  intros Hc. apply leaves_update. intros c. split; [|done]. unfold emits_nothing. cbn [cp_unit]. rewrite emitted_app.
  destruct call as [|ir| |]; cbn; rewrite ?app_nil_r; try done. by destruct (Hc ir).
Qed.

Lemma leaves_emitting {A} (m : Compile A) : leaves only_tells m -> leaves emits_nothing m.
Proof. intros Hm c c' a H. by apply Hm in H as [H _]. Qed.

Lemma leaves_intern text : leaves only_tells (intern text).
Proof. intros c c' a H. by apply bind_Some in H as ([strings x] & _ & [= <- <-]). Qed.

Lemma leaves_parse texts names : leaves only_tells (parse host texts names).
Proof. intros c c' a H. by apply bind_Some in H as ([[m strings] d] & _ & [= <- <-]). Qed.

Lemma leaves_scope : leaves only_tells module_scope_create.
Proof. intros c c' a H. by apply bind_Some in H as ([scopes x] & _ & [= <- <-]). Qed.

Lemma leaves_insert name number : leaves only_tells (insert_module host name number).
Proof. intros c c' a H. apply bind_Some in H as (m & _ & H). by apply bind_Some in H as ([w x] & _ & [= <- <-]). Qed.

Lemma leaves_report message : leaves only_tells (report message).
Proof. by intros c c' a [= <- <-]. Qed.

(** *** What is done for an import *)

Lemma resolve_emits module into intrinsics : leaves emits_nothing (resolve host module into intrinsics).
Proof. intros c c' a. unfold resolve. destruct (resolve_module _ _ _ _ _ _ _ _ _ _ _); [|done..]. by intros [= <- <-]. Qed.

Lemma build_emits resolved : leaves emits_nothing (build host resolved).
Proof. intros c c' a. unfold build. destruct (mir_build _ _ _ _ _ _ _ _ _ _ _ _ _ _ _); [|done..]. by intros [= <- <-]. Qed.

Lemma declarations_emit text : leaves emits_nothing (compile_declarations host text).
Proof.
  unfold compile_declarations. apply leaves_bind; [apply leaves_emitting, leaves_parse|]. intros [module|]; [|apply leaves_ret].
  apply leaves_bind; [apply leaves_emitting, leaves_scope|]. intros into. apply leaves_bind; [apply resolve_emits|]. intros [ok resolved].
  destruct (negb ok); [apply leaves_ret|]. apply leaves_bind; [apply build_emits|]. intros [accepted bodies]. destruct (negb accepted); [apply leaves_ret|].
  apply leaves_bind; [by apply leaves_update|]. intros _. apply leaves_ret.
Qed.

Lemma dependency_emits dependency : leaves emits_nothing (add_dependency host dependency).
Proof.
  unfold add_dependency. apply leaves_bind; [apply declarations_emit|]. intros [number|]; [|apply leaves_ret]. apply leaves_emitting.
  repeat (apply leaves_bind; [|intros _]); try apply leaves_ret.
  - destruct (direct dependency); [|apply leaves_ret]. apply leaves_bind; [apply leaves_intern|]. intros name. apply leaves_insert.
  - case_bool_decide; [by apply leaves_update|apply leaves_ret].
  - apply leaves_bind; [apply leaves_need|]. intros symbol. apply leaves_bind; [by apply leaves_tell|]. intros _. apply leaves_ret.
Qed.

Lemma dependencies_emit l : leaves emits_nothing (add_dependencies host l).
Proof. induction l as [|dependency l IH]; cbn [add_dependencies]; [apply leaves_ret|]. apply leaves_and_if; [apply dependency_emits|done]. Qed.

(** *** What follows the bodies *)

Lemma name_leaves module : leaves only_tells (the_name_of module).
Proof. unfold the_name_of. stepping. Qed.

Lemma entry_leaves request entry : leaves only_tells (add_entry request entry).
Proof. unfold add_entry, tell_entry. stepping; [by apply leaves_tell|apply leaves_report]. Qed.

Lemma interface_leaves request declaring : leaves only_tells (add_interface host request declaring).
Proof.
  unfold add_interface, write_interface, interface_symbol. stepping; try apply leaves_report; try apply name_leaves; [by apply leaves_update|by apply leaves_tell].
Qed.

Lemma object_leaves : leaves only_tells (finish_object host).
Proof. unfold finish_object. stepping; [apply leaves_report|by apply leaves_update]. Qed.

Lemma rest_leaves request declaring entry : leaves only_tells
  (name ← the_name_of declaring;
   note_module_name (take (MODULE_NAME_CAPACITY - 1) name) ≫= fun _ =>
   and_if (add_entry request entry) (and_if (add_interface host request declaring) (finish_object host))).
Proof.
  apply leaves_bind; [apply name_leaves|]. intros name. apply leaves_bind; [by apply leaves_update|]. intros _.
  apply leaves_and_if; [apply entry_leaves|]. apply leaves_and_if; [apply interface_leaves|apply object_leaves].
Qed.

(** A computation that was good was each of its parts. *)
Lemma and_if_good (m k : Compile bool) c c' : and_if m k c = Some (c', true) -> exists c1, m c = Some (c1, true) /\ k c1 = Some (c', true).
Proof. unfold and_if, mbind, Compile_bind. destruct (m c) as [[c1 []]|]; [by exists c1|done..]. Qed.

Lemma calls_answered_later c c' irs : only_tells c c' -> calls_answered c irs -> calls_answered c' irs.
Proof. intros (_ & Hw & Hg) H. unfold calls_answered, functions_in in *. by rewrite Hw, Hg. Qed.

Lemma declaring_emits request declaring c c' : compile_declaring host request declaring c = Some (c', true) ->
  exists irs, emitted (cp_unit c') = emitted (cp_unit c) ++ irs /\ calls_answered c' irs.
Proof.
  unfold compile_declaring. intros H. apply and_if_good in H as (c1 & H1 & H). apply dependencies_emit in H1.
  unfold mbind at 1, Compile_bind at 1 in H. destruct (module_scope_create c1) as [[c2 into]|] eqn:H2; [|done]. apply leaves_scope in H2 as [H2 _].
  unfold mbind at 1, Compile_bind at 1 in H. destruct (compile_module _ _ _ _ c2) as [[c3 [ok entry]]|] eqn:H3; [|done].
  apply and_if_good in H as (c4 & [= <- ->] & H4). apply compile_module_emits in H3 as (irs & U3 & Ha).
  apply rest_leaves in H4 as H4'. exists irs. split; [|by eapply calls_answered_later]. destruct H4' as [E4 _]. unfold emits_nothing in *.
  by rewrite E4, U3, emitted_app, emitted_adds, H2, H1.
Qed.
End whole.

(** C6: No call is handed to the code generator of a module that compiles without
    the body it needs: every function called is in the registry, and where it is
    an instance whose template is known (of the module or of an import), a body of
    that instance is handed over too.  Resolution lists the instances, lowering
    names each body, the build makes one for each instance listed and for those
    their bodies call, and folding and drop elaboration keep the calls. *)
Theorem no_call_without_a_body (host : Host) (request : GabCompile) (diagnostics : Diagnostics) (c : Compilation) :
  gab_compile host request diagnostics = Some (c, true) -> calls_answered c (emitted (cp_unit c)).
Proof.
  unfold gab_compile. intros H. apply bind_Some in H as (c0 & Hc & H). apply compilation_starts in Hc as (_ & _ & Hu & _).
  unfold compile_request, mbind, Compile_bind in H. destruct (parse host _ _ c0) as [[c1 [declaring|]]|] eqn:Hp; [|done..].
  apply leaves_parse in Hp as [Hp _]. apply declaring_emits in H as (irs & -> & H). unfold emits_nothing in Hp. by rewrite Hp, Hu.
Qed.

Definition same_text : string := "module util; func same<T>(x: T): T { return x; }".
Definition user_text : string := "module m; import util; func main(): i32 { return util::same(1); }".

(** The generic function of the import is compiled in the importer. *)
Lemma no_call_without_a_body_witness : exists c, sample_compile user_text [("util", same_text)] None = Some (c, true) /\
  calls_answered c (emitted (cp_unit c)) /\ (omap id ∘ body_calls) <$> emitted (cp_unit c) = [[2]; []] /\
  mir_function <$> emitted (cp_unit c) = [Some 1; Some 2].
Proof.
  destruct (sample_compile user_text [("util", same_text)] None) as [[c ok]|] eqn:H; [|vm_compute in H; discriminate].
  assert (Hr : match sample_compile user_text [("util", same_text)] None with
    | Some (c, ok) => ((omap id ∘ body_calls) <$> emitted (cp_unit c), mir_function <$> emitted (cp_unit c), ok) | None => ([], [], false) end =
    ([[2]; []], [Some 1; Some 2], true)) by (vm_compute; reflexivity).
  rewrite H in Hr. injection Hr as Hr Hf ->. exists c. split; [reflexivity|]. split; [|exact (conj Hr Hf)].
  exact (no_call_without_a_body sample_host (sample_request user_text [("util", same_text)] None) (diagnostics_init None) c H).
Defined.
