(* ===== verification/MirPrint.v ===== *)
(** * MirPrint: the text of a body

    [src/src/mir/mir_print.c]: a body as the list of the pieces the calls of
    [mir_printf] write, and what they leave in a file or in a buffer.

    [None] is undefined behaviour: the name of an operation that has none, or a
    pointer that is not a slice's where one is asked for its element.  A field of a
    place is given to [%zu] as the structure around its number; the number is
    printed here, as on the machines where the structure is passed like it. *)

From Stdlib Require Import String Ascii SpecFloat.
From S2P Require Import Ast Lexer Parser Interface.
From S2P Require Import Prelude Types Mir Decl Strings Registry RegistryState Functions.

(** The pieces, in the order of the calls. *)
Abbreviation Pieces := (list (list ascii)).

Section print.
Context (types : list TypeData) (heap : list (list ascii)) (functions : list Function).

Definition string_data (string : nat) : list ascii := cstr (default [] (heap !! string)).

(** [name ? name->data : "?"] *)
Definition name_or_mark (name : StrPtr) : list ascii := match name with Some name => string_data name | None => bytes "?" end.

(** [fuel] bounds how deep a type is. *)
Fixpoint mir_print_type (fuel : nat) (type : TypePtr) : option Pieces :=
  match fuel, type with
  | _, None => Some [bytes "?"]
  | O, _ => None
  | S fuel, Some p =>
      t ← types !! p;
      match ty_kind t with
      | TYPE_REF => inner ← mir_print_type fuel (type_pointee (Some t)); Some (bytes "&" :: inner)
      | TYPE_RAW => inner ← mir_print_type fuel (type_pointee (Some t)); Some (bytes "*" :: inner)
      | TYPE_SLICE =>
          element ← type_slice_element (Some t);
          inner ← mir_print_type fuel element;
          Some (bytes "slice<" :: inner ++ [bytes ">"])
      | _ => Some [name_or_mark (type_name_of t)]
      end
  end.

Definition number (n : N) : list ascii := decimal (Z.of_N n).

Definition mir_print_value (value : MIRValueId) : Pieces :=
  if mir_value_is_none value then [bytes "_"] else [bytes "%" ++ number value].

(** [%g] *)
Definition short_float (value : f32) : list ascii := float_of_digits 6 value.

Definition mir_print_constant (constant : Constant) : Pieces :=
  if constant_is_float (TV := heap_view types) constant then [short_float (const_float constant)]
  else if constant_is_bool (TV := heap_view types) constant then [bytes (if const_bool constant then "true" else "false")]
  else if constant_is_string (TV := heap_view types) constant then
    [[quote] ++ match const_string constant with Some string => string_data string | None => [] end ++ [quote]]
  else [decimal (const_int constant)].

Definition mir_print_operand (operand : MIROperand) : Pieces :=
  match operand with OPERAND_VALUE value => mir_print_value value | OPERAND_CONST constant => mir_print_constant constant end.

Definition mir_print_projection (projection : Projection) : Pieces :=
  match proj_kind projection with
  | PROJ_FIELD field => [bytes "." ++ number field]
  | PROJ_DEREF => [bytes ".*"]
  | PROJ_INDEX index => bytes "[" :: mir_print_value index ++ [bytes "]"]
  end.

Definition mir_print_place (place : Place) : Pieces := mir_print_value (base place) ++ concat (mir_print_projection <$> projections place).

(** Each with the piece in front of it. *)
Definition mir_print_args (inst : MIRInst) : Pieces :=
  concat (imap (fun i arg => bytes (if Nat.eqb i 0 then " " else ", ") :: mir_print_operand arg) (args inst)).

Definition declared_name (function : FuncPtr) : list ascii :=
  name_or_mark (f ← function; f ← functions !! f; id_name (func_id (fn_decl f))).

Definition block_text (block : MIRBlockId) : list ascii := bytes "bb" ++ number block.

(** What stands behind the name of the operation. *)
Definition mir_print_payload (inst : MIRInst) : Pieces :=
  match op inst with
  | MIR_CONST_INT => [bytes " " ++ decimal (const_int (inst_constant inst))]
  | MIR_CONST_FLOAT => [bytes " " ++ short_float (const_float (inst_constant inst))]
  | MIR_CONST_BOOL | MIR_CONST_STR => bytes " " :: mir_print_constant (inst_constant inst)
  | MIR_CMP =>
      (bytes "." ++ bytes match payload inst with payload_predicate p => mir_cmp_predicate_name p | _ => mir_cmp_predicate_name MIR_CMP_LT end) ::
      mir_print_args inst
  | MIR_LOAD => bytes (if bool_decide (inst_read inst = READ_MOVE) then ".move " else " ") :: mir_print_place (inst_place inst)
  | MIR_REF | MIR_DROP | MIR_NULL | MIR_STORAGE_LIVE | MIR_STORAGE_DEAD | MIR_STORAGE_INIT => bytes " " :: mir_print_place (inst_place inst)
  | MIR_STORE => bytes " " :: mir_print_place (inst_place inst) ++ bytes "," :: mir_print_args inst
  | MIR_CALL => (bytes " " ++ declared_name (inst_callee inst)) :: mir_print_args inst
  | MIR_JMP => [bytes " " ++ block_text (inst_targets inst).1]
  | MIR_BRANCH => mir_print_args inst ++ [bytes ", " ++ block_text (inst_targets inst).1 ++ bytes ", " ++ block_text (inst_targets inst).2]
  | _ => mir_print_args inst
  end.

Section fuel.
Context (fuel : nat).

Definition mir_print_inst (inst : MIRInst) : option Pieces :=
  declared ←
    (if mir_value_is_none (result inst) then Some []
     else type ← mir_print_type fuel (inst_type inst); Some (mir_print_value (result inst) ++ bytes ": " :: type ++ [bytes " = "]));
  name ← mir_op_name (op inst);
  Some (bytes "    " :: declared ++ bytes name :: mir_print_payload inst ++ [[newline]]).

Definition mir_print_param (ir : MIRFunction) (i : nat) (param : MIRValueId) : option Pieces :=
  type ← mir_print_type fuel (info ← mir_value_info ir param; value_type info);
  Some (bytes (if Nat.eqb i 0 then "" else ", ") :: mir_print_value param ++ bytes ": " :: type).

Definition mir_print_signature (ir : MIRFunction) : option Pieces :=
  params ← mapM (fun '(i, param) => mir_print_param ir i param) (imap pair (params ir));
  let returns := f ← mir_function ir; f ← functions !! f; return_type (fn_signature f) in
  returned ← match returns with Some p => type ← mir_print_type fuel (Some p); Some (bytes ": " :: type) | None => Some [] end;
  Some ((bytes "func " ++ declared_name (mir_function ir) ++ bytes "(") :: concat params ++ bytes ")" :: returned ++ [bytes " {" ++ [newline]]).

Definition mir_print_block (block : MIRBlock) : option Pieces :=
  insts ← mapM mir_print_inst (insts block);
  Some ((bytes "  " ++ block_text (block_id block) ++ bytes ":" ++ [newline]) :: concat insts).

Definition mir_print_function (ir : MIRFunction) : option Pieces :=
  signature ← mir_print_signature ir;
  blocks ← mapM mir_print_block (blocks ir);
  Some (signature ++ concat blocks ++ [bytes "}" ++ [newline]]).

(** ** Where it is written *)

(** To a file: one piece behind the other. *)
Definition mir_print (ir : MIRFunction) : option (list ascii) :=
  pieces ← mir_print_function ir; Some (concat pieces).

(** [buffer + at] overwritten by [s]. *)
Definition overwrite (buffer : list ascii) (at_ : nat) (s : list ascii) : list ascii :=
  take at_ buffer ++ s ++ drop (at_ + length s) buffer.

(** [mir_printf] into a buffer of [capacity] cells of which [written] are asked for:
    [vsnprintf] ends what fits with a [NUL], and returns the whole length. *)
Definition mir_printf_buffer (capacity : nat) (printer : list ascii * nat) (piece : list ascii) : list ascii * nat :=
  let '(buffer, written) := printer in
  let left := capacity - written in
  (if Nat.eqb left 0 then buffer else overwrite buffer written (take (left - 1) piece ++ [NUL]), written + length piece).

(** The buffer, and what the whole text would take. *)
Definition mir_print_to_buffer (ir : MIRFunction) (buffer : list ascii) : option (list ascii * nat) :=
  pieces ← mir_print_function ir;
  let '(buffer, written) := foldl (mir_printf_buffer (length buffer)) (buffer, 0) pieces in
  Some (if Nat.ltb 0 (length buffer) then overwrite buffer (Nat.min written (length buffer - 1)) [NUL] else buffer, written).
End fuel.
End print.

(** ** The buffer *)

Lemma overwrite_length buffer at_ s : at_ + length s <= length buffer -> length (overwrite buffer at_ s) = length buffer.
Proof. intros H. unfold overwrite. rewrite !length_app, length_take, length_drop. lia. Qed.

Lemma overwrite_before buffer at_ s n : n <= at_ -> at_ <= length buffer -> take n (overwrite buffer at_ s) = take n buffer.
Proof. intros Hn Ha. unfold overwrite. rewrite take_app_le by (rewrite length_take; lia). rewrite take_take. f_equal. lia. Qed.

(** What a buffer holds of a text [s] that was written to it. *)
Record holds (capacity : nat) (printer : list ascii * nat) (s : list ascii) : Prop := {
  holds_cells : length printer.1 = capacity;
  holds_length : printer.2 = length s;
  holds_text : take (Nat.min (length s) (capacity - 1)) printer.1 = take (capacity - 1) s;
}.

Lemma mir_printf_holds capacity printer s piece : holds capacity printer s -> holds capacity (mir_printf_buffer capacity printer piece) (s ++ piece).
Proof.
  destruct printer as [buffer written]. intros [Hc Hl Ht]. cbn [fst snd] in *. subst written. unfold mir_printf_buffer.
  destruct (Nat.eqb _ _) eqn:He; [apply Nat.eqb_eq in He|apply Nat.eqb_neq in He].
  - split; cbn [fst snd]; [done|by rewrite length_app|]. rewrite length_app. rewrite take_app_le by lia. rewrite <- Ht. f_equal. lia.
  - set (more := take (capacity - length s - 1) piece).
    assert (Hm : length more = Nat.min (capacity - length s - 1) (length piece)) by apply length_take.
    split; cbn [fst snd]; [rewrite overwrite_length; [done|rewrite length_app; cbn; lia]|by rewrite length_app|].
    rewrite Nat.min_l in Ht by lia. rewrite (take_ge s) in Ht by lia. unfold overwrite. rewrite Ht, length_app.
    rewrite take_app, take_ge by lia. rewrite (take_app_ge s) by lia. f_equal. rewrite <- app_assoc, take_app_le by lia. unfold more.
    rewrite take_take. destruct (decide (length piece <= capacity - length s - 1)) as [Hp|Hp].
    + rewrite !take_ge by lia. done.
    + f_equal. lia.
Qed.

Lemma pieces_hold capacity pieces : forall printer s, holds capacity printer s ->
  holds capacity (foldl (mir_printf_buffer capacity) printer pieces) (s ++ concat pieces).
Proof.
  induction pieces as [|piece pieces IH]; intros printer s H; cbn [foldl concat]; [by rewrite app_nil_r|].
  rewrite app_assoc. by apply IH, mir_printf_holds.
Qed.

(** C15: A buffer is given what a file is given, cut to its capacity: of a body that
    is printed at all (each of its operations has a row in the table of names, and
    what it points to is there), the number returned is the length of the whole
    text, the cells before the terminator are its first bytes, the terminator is in
    the last cell used, and no cell is added. *)
Theorem buffer_holds_what_a_file_holds types heap functions fuel ir (buffer buffer' : list ascii) (written : nat) :
  mir_print_to_buffer types heap functions fuel ir buffer = Some (buffer', written) ->
  exists text, mir_print types heap functions fuel ir = Some text /\ written = length text /\ length buffer' = length buffer /\
    (0 < length buffer -> let n := Nat.min (length text) (length buffer - 1) in take n buffer' = take n text /\ buffer' !! n = Some NUL).
Proof.
  unfold mir_print_to_buffer, mir_print. intros H. apply bind_Some in H as (pieces & Hp & H). rewrite Hp. exists (concat pieces). split; [reflexivity|].
  assert (Hstart : holds (length buffer) (buffer, 0) []) by (split; [done|done|by rewrite take_nil]).
  pose proof (pieces_hold (length buffer) pieces (buffer, 0) [] Hstart) as [Hc Hl Ht]. cbn [app] in *.
  destruct (foldl _ _ pieces) as [buffer1 written1]. cbn [fst snd] in *. injection H as <- <-. split; [done|]. rewrite Hc.
  destruct (Nat.ltb 0 (length buffer)) eqn:Hlt; [apply Nat.ltb_lt in Hlt|apply Nat.ltb_ge in Hlt; split; [done|lia]].
  rewrite Hl. split; [rewrite overwrite_length by (cbn; lia); done|]. intros _. cbn zeta. set (n := Nat.min _ _) in *. assert (Hn : n < length buffer) by lia.
  split.
  - rewrite overwrite_before by lia. rewrite Ht. destruct (decide (length (concat pieces) <= length buffer - 1)) as [Hs|Hs].
    + by rewrite !take_ge by lia.
    + f_equal. lia.
  - unfold overwrite. rewrite lookup_app_r by (rewrite length_take; lia). rewrite length_take. by rewrite Nat.min_l, Nat.sub_diag by lia.
Qed.

(** ** Examples *)

Definition size_measured : MIRFunction :=
  MkFunction None [MkBlock 0 [inst_at MIR_SIZE_OF None 0 [] (payload_constant zero_constant)]] 0 [local None] [].

Definition returning : MIRFunction :=
  MkFunction None [MkBlock 0 [inst_at MIR_RETURN None MIR_NO_VALUE [] (payload_constant zero_constant)]] 0 [] [].

Definition returning_text : list ascii :=
  bytes "func ?() {" ++ [newline] ++ bytes "  bb0:" ++ [newline] ++ bytes "    return" ++ [newline] ++ bytes "}" ++ [newline].

Lemma buffer_holds_what_a_file_holds_witness : exists buffer, mir_print_to_buffer [] [] [] 1 returning (replicate 8 "x"%char) = Some (buffer, 31) /\
  take 7 buffer = bytes "func ?(" /\ buffer !! 7 = Some NUL.
Proof.
  assert (H : mir_print_to_buffer [] [] [] 1 returning (replicate 8 "x"%char) = Some (bytes "func ?(" ++ [NUL], 31)) by (vm_compute; reflexivity).
  exists (bytes "func ?(" ++ [NUL]). split; [exact H|].
  destruct (buffer_holds_what_a_file_holds [] [] [] 1 returning _ _ _ H) as (text & Ht & _ & _ & Hb).
  assert (Htext : mir_print [] [] [] 1 returning = Some returning_text) by (vm_compute; reflexivity). rewrite Htext in Ht. injection Ht as <-.
  destruct (Hb ltac:(apply Nat.ltb_lt; reflexivity)) as [H1 H2]. split; [exact H1|exact H2].
Defined.

(** A body that measures a type has no text: the table of names has no row for the
    operation. *)
Example size_of_has_no_name : mir_print [] [] [] 1 size_measured = None.
Proof. vm_compute. reflexivity. Qed.

(** Six digits of a constant, which are not enough to tell two apart. *)
Example constants_print_alike : short_float (S754_finite false 16777215 0) = bytes "1.67772e+07" /\
  short_float (S754_finite false 16777214 0) = bytes "1.67772e+07" /\ short_float (S754_finite true 3 (-2)) = bytes "-0.75" /\
  short_float (S754_finite false 16384000 (-14)) = bytes "1000".
Proof. repeat split; vm_compute; reflexivity. Qed.
