(* ===== verification/Driver.v ===== *)
(** * Driver: the command line, the files and the linker

    [src/src/driver/main.c] and [src/src/driver/link.c]: the arguments are read
    into arrays of fixed size, the sources and the interfaces of the imports are
    read, [gab_compile] does the rest, and an executable is linked by a command
    made of the objects, whose report is read for the symbols of interfaces.

    Texts are the bytes of C strings, without their terminator.  [System] has what
    is outside of the program: the environment, the files, and what the commands it
    runs do.  [None] is a pass of the compiler without an answer, or a write
    outside of an array.

    [gab_libdir] keeps its answer in a static array; it depends on the environment
    only, so it is a function here. *)

From Stdlib Require Import String Ascii.
From S2P Require Import Ast Lexer Parser Interface.
From S2P Require Import Prelude Types Mir Decl Diagnostics Strings Registry Compile CompileSound.

Definition text : Type := list ascii.

Record System := MkSystem {
  getenv : string -> option text;
  (** [readlink] of [/proc/self/exe]. *)
  self_link : option text;
  (** What a file that opens holds. *)
  file_text : text -> option text;
  process : Z;
  (** Whether a command ends with 0, and the report it leaves. *)
  system_ok : text -> bool;
  report_of : text -> option text;
}.

(** ** The functions of [string.h] and [stdio.h] *)

(** [snprintf] into an array of [capacity] bytes. *)
Definition snprintf (capacity : nat) (s : text) : text := take (capacity - 1) s.

(** [strchr]: what is before and behind the first [c]. *)
Fixpoint strchr (c : ascii) (s : text) : option (text * text) :=
  match s with
  | [] => None
  | d :: s => if Ascii.eqb d c then Some ([], s) else '(before, behind) ← strchr c s; Some (d :: before, behind)
  end.

(** [strrchr]: of the last one. *)
Fixpoint strrchr (c : ascii) (s : text) : option (text * text) :=
  match s with
  | [] => None
  | d :: s =>
      match strrchr c s with
      | Some (before, behind) => Some (d :: before, behind)
      | None => if Ascii.eqb d c then Some ([], s) else None
      end
  end.

(** [strncmp(s, start, strlen(start)) == 0] *)
Definition starts_with (start s : text) : bool := bool_decide (take (length start) s = start).

(** [strstr]: from the first occurrence. *)
Fixpoint strstr (s needle : text) : option text :=
  if starts_with needle s then Some s else match s with [] => None | _ :: s => strstr s needle end.

(** A line of at most [room] bytes, and the rest. *)
Fixpoint fgets (room : nat) (s : text) : text * text :=
  match room, s with
  | S room, c :: s => if Ascii.eqb c newline then ([c], s) else let '(l, rest) := fgets room s in (c :: l, rest)
  | _, _ => ([], s)
  end.

(** [while (fgets(line, room + 1, file))] *)
Fixpoint lines_of (fuel room : nat) (s : text) : list text :=
  match fuel, s with
  | S fuel, _ :: _ => let '(l, rest) := fgets room s in l :: lines_of fuel room rest
  | _, _ => []
  end.

Definition slash : ascii := "/"%char.

Definition has_extension (path extension : text) : bool :=
  Nat.ltb (length extension) (length path) && bool_decide (drop (length path - length extension) path = extension).

(** ** [link.c] *)

Definition PATH_MAX : nat := 4096.

Section system.
Context (system : System).

Definition readable (path : text) : bool := bool_decide (is_Some (file_text system path)).

(** The value of a variable that is set and not empty. *)
Definition set_variable (name : string) : option text :=
  match getenv system name with Some [] | None => None | Some value => Some value end.

Definition core_probe (capacity : nat) (directory : text) : text := snprintf capacity (directory ++ [slash] ++ bytes GAB_CORE_MODULE ++ bytes ".gabi").

Definition gab_libdir : text :=
  match set_variable "GABC_LIBDIR" with
  | Some override => snprintf PATH_MAX override
  | None =>
      match self_link system with
      | None | Some [] => bytes "."
      | Some link =>
          let self := take (PATH_MAX - 1) link in
          let self := match strrchr slash self with Some (before, _) => before | None => self end in
          let directory := snprintf PATH_MAX (self ++ bytes "/../lib/gab") in
          if readable (core_probe PATH_MAX directory) then directory else snprintf PATH_MAX self
      end
  end.

Definition gab_object_beside (interface : text) (capacity : nat) : text :=
  let length := if Nat.ltb 5 (length interface) && bool_decide (drop (length interface - 5) interface = bytes ".gabi") then length interface - 5 else length interface in
  snprintf capacity (take length interface ++ bytes ".o").

(** *** The command *)

Definition COMMAND_CAPACITY : nat := 4096.

(** The array [command], and the length its pieces would have. *)
Record Command := MkCommand { command_text : text; command_length : nat }.

Definition command_start (s : text) : Command := MkCommand (snprintf COMMAND_CAPACITY s) (length s).

(** [snprintf(command + length, sizeof(command) - length, ...)]: the size is
    unsigned, so behind the array it is no bound at all. *)
Definition command_write (command : Command) (s : text) : option text :=
  let room := COMMAND_CAPACITY - command_length command in
  if Nat.ltb COMMAND_CAPACITY (command_length command) then None
  else Some (command_text command ++ (if Nat.eqb room 0 then [] else snprintf room s)).

Fixpoint command_append (command : Command) (extra : list text) : option Command :=
  match extra with
  | [] => Some command
  | object :: extra =>
      if Nat.ltb (command_length command) COMMAND_CAPACITY then
        written ← command_write command (bytes " " ++ object);
        command_append (MkCommand written (command_length command + length (bytes " " ++ object))) extra
      else Some command
  end.

Definition captured_path : text :=
  snprintf 512 (default (bytes "/tmp") (getenv system "TMPDIR") ++ bytes "/gab.link." ++ decimal (process system)).

Definition link_command (cc object : text) (extra : list text) (binary : text) : option text :=
  command ← command_append (command_start (cc ++ bytes " " ++ object)) extra;
  written ← command_write command
    (bytes " " ++ gab_libdir ++ bytes "/libcore.a " ++ default [] (getenv system "GABC_LINK_FLAGS") ++ bytes " -o " ++ binary);
  let room := COMMAND_CAPACITY - length written in
  Some (written ++ snprintf room (bytes " 2>" ++ captured_path)).

(** *** The report *)

Definition IFACE_MARKER : text := bytes "gab.iface.".

(** [sscanf(marker, "gab.iface.%127[^.]", module)] *)
Definition marked_module (marker : text) : option text :=
  let name := match strchr "."%char (drop (length IFACE_MARKER) marker) with Some (before, _) => before | None => drop (length IFACE_MARKER) marker end in
  match take 127 name with [] => None | module => Some module end.

(** The name of a file in its directory. *)
Definition base_name (path : text) : text := match strrchr slash path with Some (_, base) => base | None => path end.

Definition object_present (extra : list text) (module : text) : bool := existsb (fun path => starts_with module (base_name path)) extra.

(** What is said of a line. *)
Definition report_line (extra : list text) (line : text) : text :=
  match strstr line IFACE_MARKER with
  | None => line
  | Some marker =>
      match marked_module marker with
      | None => []
      | Some module =>
          if object_present extra module then
            bytes "the interface for '" ++ module ++ bytes "' is not the one its object was compiled from: recompile them together" ++ [newline]
          else bytes "no object for module '" ++ module ++ bytes "' was linked" ++ [newline]
      end
  end.

Definition report_said (extra : list text) (report : option text) : text :=
  match report with
  | None => []
  | Some report => concat ((fun line => report_line extra (cstr line)) <$> lines_of (length report) 1023 report)
  end.

(** Whether it linked, and what was said. *)
Definition gab_link (object : text) (extra : list text) (binary : text) : option (bool * text) :=
  let cc := default (bytes "cc") (set_variable "GABC_CC") in
  if negb (system_ok system (snprintf 512 (bytes "command -v " ++ cc ++ bytes " > /dev/null 2>&1"))) then
    Some (false, bytes "gabc: '" ++ cc ++ bytes "' is not installed, and linking needs it; set GABC_CC to a C compiler, or pass '-c' to compile without linking" ++ [newline])
  else
    command ← link_command cc object extra binary;
    Some (system_ok system command, report_said extra (report_of system command)).

(** ** [main.c] *)

Definition GABC_MAX_IMPORTS : nat := 64.
Definition GABC_MAX_FILES : nat := 16.
(** Of the array [extra]. *)
Definition EXTRA_CAPACITY : nat := 16.

Definition parse_import (argument : text) : option (text * text) :=
  match strchr "="%char argument with
  | Some (_ :: _ as name, _ :: _ as path) => Some (name, path)
  | _ => None
  end.

Record Arguments := MkArguments {
  binary : option text;
  out_dir : text;
  paths : list text;
  extra : list text;
  imports : list (text * text);
  is_core : bool;
  compile_only : bool;
}.

Definition no_arguments : Arguments := MkArguments None (bytes ".") [] [] [] false false.

(** The arguments read, or what [main] says and returns. *)
Inductive Parsed :=
  | Going (arguments : Arguments)
  | Exit (said : text) (code : nat).

Definition usage : Parsed :=
  Exit (bytes "usage: gabc [-c] [--core] [--out-dir <dir>] [-o <binary>]" ++ [newline] ++
        bytes "            [--import <module>=<interface>]... <source.gab>..." ++ [newline]) 2.

Definition gabc_says (message : text) : text := bytes "gabc: " ++ message ++ [newline].

(** An argument that is no option with a value behind it. *)
Definition lone_argument (a : Arguments) (arg : text) : Parsed :=
  match arg with
  | "-"%char :: _ => usage
  | _ =>
      if has_extension arg (bytes ".gab") then
        if Nat.eqb (length (paths a)) GABC_MAX_FILES then Exit (gabc_says (bytes "more than 16 source files")) 1
        else Going (MkArguments (binary a) (out_dir a) (paths a ++ [arg]) (extra a) (imports a) (is_core a) (compile_only a))
      else if Nat.ltb (length (extra a)) EXTRA_CAPACITY then
        Going (MkArguments (binary a) (out_dir a) (paths a) (extra a ++ [arg]) (imports a) (is_core a) (compile_only a))
      else Going a
  end.

Definition import_argument (a : Arguments) (value : text) : Parsed :=
  if Nat.eqb (length (imports a)) GABC_MAX_IMPORTS then Exit (gabc_says (bytes "more than 64 imports")) 1
  else
    match parse_import value with
    | None => Exit (gabc_says (bytes "--import takes <module>=<interface>, not '" ++ value ++ bytes "'")) 1
    | Some import => Going (MkArguments (binary a) (out_dir a) (paths a) (extra a) (imports a ++ [import]) (is_core a) (compile_only a))
    end.

(** The loop over [argv], from its second. *)
Fixpoint parse_arguments (a : Arguments) (argv : list text) : Parsed :=
  match argv with
  | [] => Going a
  | arg :: argv =>
      if bool_decide (arg = bytes "--core") then
        parse_arguments (MkArguments (binary a) (out_dir a) (paths a) (extra a) (imports a) true (compile_only a)) argv
      else if bool_decide (arg = bytes "-c") then
        parse_arguments (MkArguments (binary a) (out_dir a) (paths a) (extra a) (imports a) (is_core a) true) argv
      else
        match argv with
        | value :: rest =>
            if bool_decide (arg = bytes "--out-dir") then
              parse_arguments (MkArguments (binary a) value (paths a) (extra a) (imports a) (is_core a) (compile_only a)) rest
            else if bool_decide (arg = bytes "-o") then
              parse_arguments (MkArguments (Some value) (out_dir a) (paths a) (extra a) (imports a) (is_core a) (compile_only a)) rest
            else if bool_decide (arg = bytes "--import") then
              match import_argument a value with Going a => parse_arguments a rest | Exit said code => Exit said code end
            else match lone_argument a arg with Going a => parse_arguments a argv | Exit said code => Exit said code end
        | [] => lone_argument a arg
        end
  end.

(** What the program leaves: its exit code, what it wrote to [stderr], and what it
    compiled. *)
Record Outcome := MkOutcome {
  exit_code : nat;
  said : text;
  compiled : option Compilation;
}.

(** The files of the paths, or the first that does not open. *)
Fixpoint read_files (paths : list text) : list text + text :=
  match paths with
  | [] => inl []
  | path :: paths =>
      match file_text system path with
      | None => inr path
      | Some source => match read_files paths with inl sources => inl (source :: sources) | inr path => inr path end
      end
  end.

Definition object_path (out_dir module : text) : text := snprintf 512 (out_dir ++ [slash] ++ module ++ bytes ".o").
Definition interface_file (out_dir module : text) : text := snprintf 512 (out_dir ++ [slash] ++ module ++ bytes ".gabi").

(** The interface of the core, first of the dependencies unless the core is what is
    compiled. *)
Definition core_dependency (is_core : bool) : list GabDependency + text :=
  if is_core then inl []
  else
    let path := core_probe 512 gab_libdir in
    match file_text system path with
    | None => inr (gabc_says (bytes "the core is not installed: no " ++ path))
    | Some interface => inl [MkGabDependency (bytes GAB_CORE_MODULE) interface true]
    end.

Fixpoint import_dependencies (imports : list (text * text)) : list GabDependency + text :=
  match imports with
  | [] => inl []
  | (name, path) :: imports =>
      match file_text system path with
      | None => inr (gabc_says (path ++ bytes ": no such interface"))
      | Some interface =>
          match import_dependencies imports with
          | inl dependencies => inl (MkGabDependency name interface true :: dependencies)
          | inr message => inr message
          end
      end
  end.

Definition read_dependencies (a : Arguments) : list GabDependency + text :=
  match core_dependency (is_core a) with
  | inr message => inr message
  | inl core => match import_dependencies (imports a) with inl dependencies => inl (core ++ dependencies) | inr message => inr message end
  end.

(** Whether an argument is a C file: [main] is then its. *)
Definition brings_entry (extra : list text) : bool :=
  existsb (fun path => match strrchr "."%char path with Some (_, behind) => bool_decide (behind = bytes "c") | None => false end) extra.

Definition request_of (a : Arguments) (sources : list text) (interface : text) (dependencies : list GabDependency) : GabCompile :=
  MkGabCompile sources (fun i => string_of_list_ascii <$> paths a !! i) (if compile_only a then Some (string_of_list_ascii interface) else None)
    dependencies (is_core a) (brings_entry (extra a)).

(** What the linker is given beside the object: the arguments, then an object for
    each import, as many as the array holds. *)
Definition with_import_objects (a : Arguments) : list text :=
  extra a ++ take (EXTRA_CAPACITY - length (extra a)) ((fun import => gab_object_beside import.2 512) <$> imports a).

Definition finish (ok : bool) (said : text) (compiled : option Compilation) : Outcome := MkOutcome (if ok then 0 else 1) said compiled.

(** From the arguments on.  [host] is what the compiler runs on. *)
Definition main_going (host : Host) (a : Arguments) : option Outcome :=
  match paths a with
  | [] => match usage with Exit said code => Some (MkOutcome code said None) | Going _ => None end
  | first :: _ =>
      match read_files (paths a) with
      | inr path => Some (finish false (gabc_says (path ++ bytes ": no such file")) None)
      | inl sources =>
          strings ← string_pool_init;
          source ← head sources;
          '(module, _, diagnostics) ← gab_module_name host source strings 64 (diagnostics_init (Some (string_of_list_ascii first)));
          match module with
          | None => Some (finish false (bytes (diagnostics_print diagnostics)) None)
          | Some module =>
              match read_dependencies a with
              | inr message => Some (finish false (message ++ bytes (diagnostics_print diagnostics)) None)
              | inl dependencies =>
                  let object := object_path (out_dir a) module in
                  '(c, ok) ← gab_compile host (request_of a sources (interface_file (out_dir a) module) dependencies) diagnostics;
                  if negb ok then Some (finish false (bytes (diagnostics_print (cp_diagnostics c))) (Some c))
                  else if compile_only a then Some (finish true [] (Some c))
                  else
                    let out := default module (binary a) in
                    '(linked, said) ← gab_link object (with_import_objects a) out;
                    Some (finish linked (said ++ if linked then [] else gabc_says (out ++ bytes ": the object did not link")) (Some c))
              end
          end
      end
  end.

Definition main (host : Host) (argv : list text) : option Outcome :=
  match parse_arguments no_arguments (tail argv) with
  | Exit said code => Some (MkOutcome code said None)
  | Going a => main_going host a
  end.
End system.

(** ** The arrays *)

(** What the arrays of [main] hold fits. *)
Record arrays_hold (a : Arguments) : Prop := {
  files_fit : length (paths a) <= GABC_MAX_FILES;
  extra_fit : length (extra a) <= EXTRA_CAPACITY;
  imports_fit : length (imports a) <= GABC_MAX_IMPORTS;
}.

(** What every argument keeps, or ends with, the loop keeps or ends with. *)
Section arguments.
Context (P : Arguments -> Prop) (Q : text -> nat -> Prop).

Definition keeps_or_ends (parsed : Parsed) : Prop := match parsed with Going a => P a | Exit said code => Q said code end.

Context (Hset : forall a b o c i, P a -> P (MkArguments b o (paths a) (extra a) (imports a) c i)).
Context (Hlone : forall a arg, P a -> keeps_or_ends (lone_argument a arg)).
Context (Himport : forall a value, P a -> keeps_or_ends (import_argument a value)).

Lemma parse_arguments_keeps : forall argv a, P a -> keeps_or_ends (parse_arguments a argv).
Proof.
  intros argv. remember (length argv) as n eqn:Hn. apply eq_sym, Nat.eq_le_incl in Hn. revert argv Hn.
  induction n as [|n IH]; intros [|arg argv] Hn a Ha; cbn in Hn; try done; [lia|]. cbn [parse_arguments].
  do 2 (case_bool_decide; [apply IH; [lia|by apply Hset]|]). destruct argv as [|value rest]; [by apply Hlone|]. cbn in Hn.
  do 2 (case_bool_decide; [apply IH; [lia|by apply Hset]|]). case_bool_decide.
  - pose proof (Himport a value Ha) as Hk. destruct (import_argument a value); [apply IH; [lia|done]|done].
  - pose proof (Hlone a arg Ha) as Hk. destruct (lone_argument a arg); [apply IH; [cbn; lia|done]|done].
Qed.
End arguments.

(** An argument that is no option is a source, or another one. *)
Lemma lone_argument_cases a arg : lone_argument a arg = usage \/
  lone_argument a arg =
    if has_extension arg (bytes ".gab") then
      if Nat.eqb (length (paths a)) GABC_MAX_FILES then Exit (gabc_says (bytes "more than 16 source files")) 1
      else Going (MkArguments (binary a) (out_dir a) (paths a ++ [arg]) (extra a) (imports a) (is_core a) (compile_only a))
    else if Nat.ltb (length (extra a)) EXTRA_CAPACITY then
      Going (MkArguments (binary a) (out_dir a) (paths a) (extra a ++ [arg]) (imports a) (is_core a) (compile_only a))
    else Going a.
Proof. destruct arg as [|[[] [] [] [] [] [] [] []] arg]; auto. Qed.

Lemma arguments_fit argv a : arrays_hold a -> keeps_or_ends arrays_hold (fun said code => code <> 0 /\ said <> []) (parse_arguments a argv).
Proof.
  apply parse_arguments_keeps.
  - intros b ? ? ? ? []. by split.
  - intros b arg [Hf He Hi]. destruct (lone_argument_cases b arg) as [->| ->]; [done|]. destruct (has_extension arg _).
    + destruct (Nat.eqb _ _) eqn:Hl; [done|]. apply Nat.eqb_neq in Hl. split; cbn; rewrite ?length_app; cbn; lia.
    + destruct (Nat.ltb _ _) eqn:Hl; [|by split]. apply Nat.ltb_lt in Hl. split; cbn; rewrite ?length_app; cbn; lia.
  - intros b value [Hf He Hi]. unfold import_argument. destruct (Nat.eqb _ _) eqn:Hl; [done|]. apply Nat.eqb_neq in Hl.
    destruct (parse_import value); [|done]. split; cbn; rewrite ?length_app; cbn; lia.
Qed.

Lemma no_arguments_fit : arrays_hold no_arguments.
Proof. split; cbn; lia. Qed.

Lemma import_dependencies_length system imports dependencies : import_dependencies system imports = inl dependencies -> length dependencies = length imports.
Proof.
  revert dependencies. induction imports as [|[name path] imports IH]; intros dependencies H; cbn [import_dependencies] in H; [by injection H as <-|].
  destruct (file_text system path); [|done]. destruct (import_dependencies system imports); [|done]. injection H as <-. cbn. by rewrite (IH l).
Qed.

(** C21: Whatever the arguments, no array of [main] is written behind its end: at
    most 16 sources, 16 other arguments and 64 imports are taken, the objects of
    the imports fill only what is left of the 16, and with the core there are at
    most 65 interfaces. *)
Theorem main_stays_in_its_arrays (argv : list text) (a : Arguments) : parse_arguments no_arguments argv = Going a ->
  length (paths a) <= GABC_MAX_FILES /\ length (imports a) <= GABC_MAX_IMPORTS /\ length (with_import_objects a) <= EXTRA_CAPACITY /\
  forall system dependencies, read_dependencies system a = inl dependencies -> length dependencies <= GABC_MAX_IMPORTS + 1.
Proof.
  intros H. pose proof (arguments_fit argv no_arguments no_arguments_fit) as Ha. rewrite H in Ha. destruct Ha as [Hf He Hi]. split; [done|]. split; [done|]. split.
  { unfold with_import_objects. rewrite length_app, length_take. lia. }
  intros system dependencies. unfold read_dependencies. destruct (core_dependency _ _) as [core|] eqn:Hc; [|done].
  assert (length core <= 1) by (unfold core_dependency in Hc; repeat case_match; simplify_eq; cbn; lia).
  destruct (import_dependencies _ _) as [rest|] eqn:Hr; [|done]. intros [= <-]. apply import_dependencies_length in Hr. rewrite length_app. lia.
Qed.

(** The last two are one too many. *)
Definition many_arguments : list text := bytes "a.gab" :: bytes "--import" :: bytes "util=lib/util.gabi" :: replicate 17 (bytes "x.o").

Lemma main_stays_in_its_arrays_witness : exists a, parse_arguments no_arguments many_arguments = Going a /\
  length (extra a) = 16 /\ length (with_import_objects a) <= EXTRA_CAPACITY /\ with_import_objects a = extra a.
Proof.
  destruct (parse_arguments no_arguments many_arguments) as [a|] eqn:H; [|vm_compute in H; discriminate]. exists a. split; [reflexivity|].
  pose proof (main_stays_in_its_arrays many_arguments a H) as (_ & _ & He & _). vm_compute in H. injection H as <-.
  split; [reflexivity|]. split; [exact He|reflexivity].
Defined.

(** ** The object beside an interface *)

(** The object an importer links for an import is the one that compiling the
    module wrote: the path that [gab_object_beside] makes of the path of the
    interface is the path of the object, as long as both fit their arrays. *)
Theorem object_is_beside_its_interface (out_dir module : text) : length (out_dir ++ [slash] ++ module ++ bytes ".gabi") <= 511 ->
  gab_object_beside (interface_file out_dir module) 512 = object_path out_dir module.
Proof.
  intros Hl. unfold interface_file, object_path, snprintf. rewrite take_ge by exact Hl. unfold gab_object_beside, snprintf.
  assert (He : out_dir ++ [slash] ++ module ++ bytes ".gabi" = (out_dir ++ [slash] ++ module) ++ bytes ".gabi") by (by rewrite <- !app_assoc).
  assert (Hn : length (out_dir ++ [slash] ++ module ++ bytes ".gabi") - 5 = length (out_dir ++ [slash] ++ module)).
  { rewrite He, length_app. change (length (bytes ".gabi")) with 5. lia. }
  rewrite Hn, He, drop_app_length, bool_decide_eq_true_2, andb_true_r by done.
  rewrite (proj2 (Nat.ltb_lt _ _)) by (rewrite !length_app; cbn; lia). rewrite take_app_length. f_equal. by rewrite <- !app_assoc.
Qed.

Lemma object_is_beside_its_interface_witness : length (bytes "out" ++ [slash] ++ bytes "util" ++ bytes ".gabi") <= 511 /\
  gab_object_beside (bytes "out/util.gabi") 512 = bytes "out/util.o".
Proof.
  assert (Hl : length (bytes "out" ++ [slash] ++ bytes "util" ++ bytes ".gabi") <= 511) by (vm_compute; lia).
  split; [exact Hl|exact (object_is_beside_its_interface (bytes "out") (bytes "util") Hl)].
Defined.

(** ** The command *)

(** The objects as the command has them. *)
Definition spaced (extra : list text) : text := concat ((fun object => bytes " " ++ object) <$> extra).

Definition command_of (s : text) : Command := MkCommand (take (COMMAND_CAPACITY - 1) s) (length s).

Lemma spaced_app l l' : spaced (l ++ l') = spaced l ++ spaced l'.
Proof. unfold spaced. by rewrite fmap_app, concat_app. Qed.

(** What is written behind a text that fits is the rest of it, to the end of the
    array. *)
Lemma command_write_of s more : length s < COMMAND_CAPACITY -> command_write (command_of s) more = Some (take (COMMAND_CAPACITY - 1) (s ++ more)).
Proof.
  intros Hs. unfold command_write, command_of. cbn [command_length command_text]. rewrite (proj2 (Nat.ltb_ge _ _)) by lia.
  rewrite (proj2 (Nat.eqb_neq _ _)) by lia. unfold snprintf. rewrite take_app. f_equal. do 2 f_equal. lia.
Qed.

Lemma command_append_step s object extra : length s < COMMAND_CAPACITY ->
  command_append (command_of s) (object :: extra) = command_append (command_of (s ++ bytes " " ++ object)) extra.
Proof.
  intros Hs. cbn [command_append command_of command_length]. rewrite (proj2 (Nat.ltb_lt _ _)) by done. fold (command_of s).
  rewrite command_write_of by done. cbn [mbind option_bind]. unfold command_of. by rewrite (length_app s).
Qed.

Lemma command_append_fits extra : forall s rest, length (s ++ spaced extra) < COMMAND_CAPACITY ->
  command_append (command_of s) (extra ++ rest) = command_append (command_of (s ++ spaced extra)) rest.
Proof.
  induction extra as [|object extra IH]; intros s rest Hl; [by rewrite app_nil_r|].
  change (spaced (object :: extra)) with ((bytes " " ++ object) ++ spaced extra) in *. rewrite app_assoc in Hl |- *. rewrite <- (IH _ rest Hl).
  apply command_append_step. rewrite !length_app in Hl. lia.
Qed.

(** The command that links is cut at the 4095 bytes of its array while the
    objects it names fit there.  An object that ends behind the array is the last
    taken, but the length counts it whole, and what follows is then written at
    that length, outside of the array. *)
Theorem long_arguments_overrun_the_command (system : System) (cc object binary : text) (before : list text) (last : text) (behind : list text) :
  let start := cc ++ bytes " " ++ object ++ spaced before in
  (length start < COMMAND_CAPACITY -> exists tail, link_command system cc object before binary = Some (take (COMMAND_CAPACITY - 1) (start ++ tail))) /\
  (length start < COMMAND_CAPACITY < length start + 1 + length last -> link_command system cc object (before ++ last :: behind) binary = None).
Proof.
  intros start. assert (Hs : cc ++ bytes " " ++ object ++ spaced before = (cc ++ bytes " " ++ object) ++ spaced before) by (by rewrite <- !app_assoc).
  unfold start in *. rewrite Hs. clear start Hs. set (s := cc ++ bytes " " ++ object).
  assert (Hstart : command_start (cc ++ bytes " " ++ object) = command_of s) by done. unfold link_command. rewrite Hstart. clearbody s. split.
  - intros Hl. pose proof (command_append_fits before s [] Hl) as Ha. rewrite app_nil_r in Ha. rewrite Ha. cbn [command_append mbind option_bind].
    rewrite command_write_of by done. cbn [mbind option_bind]. set (piece := bytes " " ++ gab_libdir system ++ _).
    exists (piece ++ bytes " 2>" ++ captured_path system). f_equal. rewrite app_assoc. set (whole := (s ++ spaced before) ++ piece).
    unfold snprintf. rewrite (take_app whole). f_equal. rewrite length_take. f_equal. lia.
  - intros [Hl Ho]. rewrite (command_append_fits before s (last :: behind) Hl), command_append_step by done. set (all := (s ++ spaced before) ++ bytes " " ++ last).
    assert (Hall : COMMAND_CAPACITY < length all) by (unfold all; rewrite !length_app in *; cbn [length bytes list_ascii_of_string]; lia).
    assert (Hend : command_append (command_of all) behind = Some (command_of all)).
    { destruct behind; [done|]. cbn [command_append]. by rewrite (proj2 (Nat.ltb_ge _ _)) by (cbn; lia). }
    rewrite Hend. cbn [mbind option_bind]. unfold command_write. by rewrite (proj2 (Nat.ltb_lt _ _)) by done.
Qed.

(** A system without files and variables, where every command ends well. *)
Definition bare_system : System := MkSystem (fun _ => None) None (fun _ => None) 7 (fun _ => true) (fun _ => None).

Lemma long_arguments_overrun_the_command_witness :
  link_command bare_system (bytes "cc") (bytes "./m.o") [bytes "a.o"; replicate 4096 "x"%char] (bytes "m") = None /\
  link_command bare_system (bytes "cc") (bytes "./m.o") [bytes "a.o"] (bytes "m") =
    Some (bytes "cc ./m.o a.o ./libcore.a  -o m 2>/tmp/gab.link.7").
Proof.
  split; [|vm_compute; reflexivity].
  apply (long_arguments_overrun_the_command bare_system (bytes "cc") (bytes "./m.o") (bytes "m") [bytes "a.o"] (replicate 4096 "x"%char) []).
  split; apply Nat.ltb_lt; vm_compute; reflexivity.
Defined.

(** ** The report *)

(** The object of another module whose name begins with that of the missing one is
    taken for it, and its interface is called stale. *)
Example longer_name_is_taken_for_the_module :
  report_line [bytes "out/library.o"] (bytes "undefined reference to `gab.iface.lib.0123'") =
    bytes "the interface for 'lib' is not the one its object was compiled from: recompile them together" ++ [newline] /\
  report_line [bytes "out/other.o"] (bytes "undefined reference to `gab.iface.lib.0123'") =
    bytes "no object for module 'lib' was linked" ++ [newline].
Proof. split; vm_compute; reflexivity. Qed.

(** ** The outcome *)

Lemma diagnostics_say d : diagnostics_count d <> 0 -> bytes (diagnostics_print d) <> [].
Proof.
  unfold diagnostics_count, diagnostics_print. destruct (diag_items d) as [|item items]; [done|]. intros _ H. apply (f_equal length) in H. revert H.
  cbn [foldr length]. unfold bytes, diagnostic_line. generalize (foldr (fun item out => diagnostic_line (default "<script>" (diag_module d)) item +:+ out) "" items).
  intros rest H. apply length_zero_iff_nil in H. destruct (default "<script>" (diag_module d)); discriminate.
Qed.

Lemma module_name_counts host source strings capacity d module strings' d' :
  gab_module_name host source strings capacity d = Some (module, strings', d') ->
  bool_decide (is_Some module) = negb (Nat.ltb (diagnostics_count d) (diagnostics_count d')).
Proof.
  unfold gab_module_name, parse_header. intros H. apply bind_Some in H as ([[file s1] d1] & Hp & H).
  apply bind_Some in Hp as ([f p] & _ & [= <- <- <-]). unfold errors_of in H. destruct (Nat.ltb _ _) eqn:Hlt.
  - injection H as <- <- <-. by rewrite Hlt.
  - apply bind_Some in H as (name & _ & [= <- <- <-]). by rewrite Hlt.
Qed.

(** What an outcome promises. *)
Definition keeps_word (o : Outcome) : Prop :=
  (exit_code o = 0 -> exists c, compiled o = Some c /\ cp_object c = Some (cp_unit c)) /\ (exit_code o <> 0 -> said o <> []).

Lemma says_something message : gabc_says message <> [].
Proof. done. Qed.

Lemma app_not_nil (a b : text) : a <> [] -> a ++ b <> [].
Proof. by destruct a. Qed.

Section outcome.
Context (system : System) (host : Host).

Lemma finish_keeps_word ok message compiled : (ok = true -> exists c, compiled = Some c /\ cp_object c = Some (cp_unit c)) ->
  (ok = false -> message <> []) -> keeps_word (finish ok message compiled).
Proof. intros H1 H2. unfold keeps_word, finish. cbn. destruct ok; [split; [auto|done]|split; [done|auto]]. Qed.

Lemma going_keeps_word a o : main_going system host a = Some o -> keeps_word o.
Proof.
  unfold main_going. destruct (paths a) as [|first rest]; [by intros [= <-]|]. destruct (read_files system (first :: rest)) as [sources|path].
  2: { intros [= <-]. by apply finish_keeps_word; [|intros _; apply says_something]. }
  intros H. apply bind_Some in H as (strings & _ & H). apply bind_Some in H as (source & _ & H).
  apply bind_Some in H as ([[module s] d] & Hm & H). apply module_name_counts in Hm. cbn [diagnostics_count diag_items diagnostics_init length] in Hm.
  destruct module as [module|].
  2: { injection H as <-. apply finish_keeps_word; [done|]. intros _. apply diagnostics_say. rewrite bool_decide_eq_false_2 in Hm by (by intros []).
       destruct (diagnostics_count d); [done|lia]. }
  rewrite bool_decide_eq_true_2 in Hm by done. assert (Hd : diagnostics_count d = 0) by (destruct (diagnostics_count d); done). clear Hm.
  destruct (read_dependencies system a) as [dependencies|message] eqn:Hr.
  2: { injection H as <-. apply finish_keeps_word; [done|]. intros _. apply app_not_nil. unfold read_dependencies in Hr.
       destruct (core_dependency system (is_core a)) as [core|said] eqn:Hc.
       - clear Hc. destruct (import_dependencies system (imports a)) as [deps|said] eqn:Hi; [done|]. injection Hr as <-.
         revert Hi. clear. induction (imports a) as [|[name path] l IH]; cbn; [done|]. destruct (file_text system path); [|by intros [= <-]].
         destruct (import_dependencies system l); [done|]. intros [= <-]. by apply IH.
       - injection Hr as <-. unfold core_dependency in Hc. destruct (is_core a); [done|]. destruct (file_text _ _); [done|]. by injection Hc as <-. }
  apply bind_Some in H as ([c ok] & Hc & H). apply compile_concludes in Hc as [Hok Ho]. rewrite Hd in Hok. destruct ok; cbn [negb] in H.
  - destruct (compile_only a); [injection H as <-; apply finish_keeps_word; [by exists c|done]|].
    apply bind_Some in H as ([linked said] & _ & [= <-]). apply finish_keeps_word; [by exists c|]. intros ->. by destruct said.
  - injection H as <-. apply finish_keeps_word; [done|]. intros _. apply diagnostics_say. symmetry in Hok. by apply Nat.eqb_neq in Hok.
Qed.

(** C20: The program ends with 0 only when everything it was given compiled and the
    object was written, and whenever it ends with another code it has said
    something: the usage, a file that does not open, what was reported, or that
    the object did not link. *)
Theorem main_keeps_its_word (argv : list text) (o : Outcome) : main system host argv = Some o -> keeps_word o.
Proof.
  unfold main. pose proof (arguments_fit (tail argv) no_arguments no_arguments_fit) as Ha.
  destruct (parse_arguments _ _) as [a|said code]; [apply going_keeps_word|]. intros [= <-]. destruct Ha as [Hc Hs]. by split.
Qed.
End outcome.

(** The source of a program without operators, which no core is needed for. *)
Definition one_file : System :=
  MkSystem (fun _ => None) None (fun path => if bool_decide (path = bytes "m.gab") then Some (bytes "module m; func main(): i32 { return 1; }") else None)
    7 (fun _ => true) (fun _ => None).

Lemma main_keeps_its_word_witness :
  (exists o, main one_file sample_host [bytes "gabc"; bytes "--core"; bytes "m.gab"] = Some o /\ keeps_word o /\ exit_code o = 0) /\
  (exists o, main one_file sample_host [bytes "gabc"; bytes "m.gab"] = Some o /\ keeps_word o /\ exit_code o = 1 /\
     said o = bytes "gabc: the core is not installed: no ./core.gabi" ++ [newline]).
Proof.
  split.
  - destruct (main one_file sample_host [bytes "gabc"; bytes "--core"; bytes "m.gab"]) as [o|] eqn:H; [|vm_compute in H; discriminate].
    exists o. split; [reflexivity|]. split; [exact (main_keeps_its_word one_file sample_host _ o H)|].
    assert (Hr : match main one_file sample_host [bytes "gabc"; bytes "--core"; bytes "m.gab"] with Some o => exit_code o | None => 9 end = 0) by (vm_compute; reflexivity).
    rewrite H in Hr. exact Hr.
  - destruct (main one_file sample_host [bytes "gabc"; bytes "m.gab"]) as [o|] eqn:H; [|vm_compute in H; discriminate].
    exists o. split; [reflexivity|]. split; [exact (main_keeps_its_word one_file sample_host _ o H)|].
    assert (Hr : match main one_file sample_host [bytes "gabc"; bytes "m.gab"] with Some o => (exit_code o, said o) | None => (9, []) end =
      (1, bytes "gabc: the core is not installed: no ./core.gabi" ++ [newline])) by (vm_compute; reflexivity).
    rewrite H in Hr. injection Hr as H1 H2. split; [exact H1|exact H2].
Defined.
