(* ===== verification/Emit.v ===== *)
(** * Emit: bodies handed to LLVM

    [src/src/llvm/llvm_emit.c]: what it asks of LLVM for a body, as the list of the
    calls of LLVM's C interface that change a module, in their order.  A value LLVM
    answers with is told by the number of the call that answered; constants,
    parameters and functions are what they are made of, and so are types, of which
    LLVM has one each.  What the code asks LLVM back (whether a function is declared,
    where a builder is) is answered from the calls made so far, as LLVM documents
    it; the four calls about the intrinsic [llvm.fptosi.sat] are one.

    Where C leaves the order of the arguments of a call open, the first comes first.
    [None] is a read of an array behind its end, a null value given to LLVM, a
    failed [assert] or a question to the registries without an answer. *)

From Stdlib Require Import String Ascii.
From S2P Require Import Ast Lexer Parser Facts Lower LowerShape Interface Symbols.
From S2P Require Import Prelude Types Mir Decl Diagnostics Strings HashMap Registry RegistryTypes RegistryState Functions Scopes Instantiate Build Glue.

(** ** LLVM *)

Inductive LLVMType :=
  | LLVMVoidType
  | LLVMIntType (bits : N)
  | LLVMFloatType
  | LLVMPointerType
  | LLVMArrayType (element : LLVMType) (length : Z)
  | LLVMStructType (members : list LLVMType)
  | LLVMFunctionType (returns : LLVMType) (params : list LLVMType).

Inductive LLVMValue :=
  | Answer (call : nat)
  | FunctionNamed (name : list ascii)
  | GlobalNamed (name : list ascii)
  | ParamOf (function : list ascii) (index : nat)
  | LLVMConstInt (type : LLVMType) (n : Z) (sign_extend : bool)
  | LLVMConstReal (type : LLVMType) (value : f32)
  | LLVMConstNull (type : LLVMType)
  | LLVMGetUndef (type : LLVMType).

Inductive LLVMIntPredicate :=
  | LLVMIntEQ | LLVMIntNE | LLVMIntULT | LLVMIntUGT | LLVMIntULE | LLVMIntUGE | LLVMIntSLT | LLVMIntSGT | LLVMIntSLE | LLVMIntSGE.
Inductive LLVMRealPredicate := LLVMRealOLT | LLVMRealOGT | LLVMRealOEQ | LLVMRealONE | LLVMRealOLE | LLVMRealOGE.

Inductive LLVMBinary :=
  | BuildAdd | BuildFAdd | BuildSub | BuildFSub | BuildMul | BuildFMul | BuildSDiv | BuildUDiv | BuildFDiv | BuildSRem | BuildURem | BuildFRem
  | BuildOr | BuildICmp (predicate : LLVMIntPredicate) | BuildFCmp (predicate : LLVMRealPredicate).
Inductive LLVMUnary := BuildNeg | BuildFNeg | BuildNot | BuildSIToFP (type : LLVMType) | BuildFPToSISat (type : LLVMType).

(** The instructions a builder is told to append; a block is the number of the call
    that appended it. *)
Inductive LLVMInst :=
  | BuildBinary (op : LLVMBinary) (left right : LLVMValue)
  | BuildUnary (op : LLVMUnary) (operand : LLVMValue)
  | BuildCall2 (signature : LLVMType) (callee : LLVMValue) (args : list LLVMValue)
  | BuildExtractValue (value : LLVMValue) (index : nat)
  | BuildInsertValue (value element : LLVMValue) (index : nat)
  | BuildAlloca (type : LLVMType)
  | BuildLoad2 (type : LLVMType) (address : LLVMValue)
  | BuildStore (value address : LLVMValue)
  | BuildStructGEP2 (type : LLVMType) (address : LLVMValue) (index : N)
  | BuildGEP2 (type : LLVMType) (address : LLVMValue) (indices : list LLVMValue)
  | BuildGlobalStringPtr (text name : list ascii)
  | BuildBr (to : nat)
  | BuildCondBr (condition : LLVMValue) (to otherwise : nat)
  | BuildRet (value : LLVMValue)
  | BuildRetVoid
  | BuildUnreachable.

Inductive LLVMLinkage := LLVMLinkOnceODRLinkage | LLVMExternalLinkage | LLVMInternalLinkage.

(** The calls; a builder is the number of the call that made it. *)
Inductive Call :=
  | CreateBuilder
  | DisposeBuilder (builder : nat)
  | AddFunction (name : list ascii) (signature : LLVMType)
  | SetLinkage (name : list ascii) (linkage : LLVMLinkage)
  | SetCCallConv (name : list ascii)
  | AppendBasicBlock (function : list ascii) (label : list ascii)
  | PositionBuilderAtEnd (builder block : nat)
  | Build (builder : nat) (inst : LLVMInst)
  | MoveBasicBlockBefore (block other : nat)
  | AddGlobal (name : list ascii) (type : LLVMType)
  | SetInitializer (name : list ascii) (value : LLVMValue)
  | SetGlobalConstant (name : list ascii)
  | SetSection (name section : list ascii)
  | AddAlias (signature : LLVMType) (aliasee : list ascii) (name : list ascii).

(** [LLVMGetNamedFunction], with the signature. *)
Definition named_function (calls : list Call) (name : list ascii) : option LLVMType :=
  head (omap (fun call =>
    match call with AddFunction other signature => if bool_decide (other = name) then Some signature else None | _ => None end) calls).

(** [LLVMGetNamedGlobal] of a string. *)
Definition named_string (calls : list Call) (name : list ascii) : bool :=
  existsb (fun call => match call with Build _ (BuildGlobalStringPtr _ other) => bool_decide (other = name) | _ => false end) calls.

(** [LLVMGetInsertBlock]: where the builder was put last. *)
Definition insert_block (calls : list Call) (builder : nat) : option nat :=
  last (omap (fun call =>
    match call with PositionBuilderAtEnd other block => if Nat.eqb other builder then Some block else None | _ => None end) calls).

(** [LLVMGetBasicBlockParent] *)
Definition block_parent (calls : list Call) (block : nat) : option (list ascii) :=
  match calls !! block with Some (AppendBasicBlock function _) => Some function | _ => None end.

(** ** The state *)

(** [LLVMEmitter], with the module as the calls made, and the registries. *)
Record Emitter := MkEmitter {
  em_world : World;
  em_calls : list Call;
  em_builder : nat;
  em_entry : nat;
  em_values : list (option LLVMValue);
  em_value_types : list (option LLVMType);
  em_flags : list (option LLVMValue);
  em_blocks : list (option nat);
}.

Definition Emit (A : Type) : Type := Emitter -> option (Emitter * A).

#[export] Instance Emit_ret : MRet Emit := fun A a em => Some (em, a).
#[export] Instance Emit_bind : MBind Emit := fun A B f m em => match m em with Some (em, a) => f a em | None => None end.

Definition the_emitter : Emit Emitter := fun em => Some (em, em).
Definition demand {A} (o : option A) : Emit A := fun em => a ← o; Some (em, a).

Definition put_world (em : Emitter) (w : World) : Emitter :=
  MkEmitter w (em_calls em) (em_builder em) (em_entry em) (em_values em) (em_value_types em) (em_flags em) (em_blocks em).
Definition put_calls (em : Emitter) (calls : list Call) : Emitter :=
  MkEmitter (em_world em) calls (em_builder em) (em_entry em) (em_values em) (em_value_types em) (em_flags em) (em_blocks em).
Definition put_builder (em : Emitter) (builder : nat) : Emitter :=
  MkEmitter (em_world em) (em_calls em) builder (em_entry em) (em_values em) (em_value_types em) (em_flags em) (em_blocks em).
Definition put_values (em : Emitter) (values : list (option LLVMValue)) (types : list (option LLVMType)) : Emitter :=
  MkEmitter (em_world em) (em_calls em) (em_builder em) (em_entry em) values types (em_flags em) (em_blocks em).
Definition put_flags (em : Emitter) (flags : list (option LLVMValue)) : Emitter :=
  MkEmitter (em_world em) (em_calls em) (em_builder em) (em_entry em) (em_values em) (em_value_types em) flags (em_blocks em).

Definition use_builder (builder : nat) : Emit unit := fun em => Some (put_builder em builder, tt).

(** The registries asked, as [Instantiate] and [Glue] ask them. *)
Definition asking {A} (m : Inst A) : Emit A := fun em => '(w, a) ← m (em_world em); Some (put_world em w, a).

(** A call, with its number. *)
Definition call (c : Call) : Emit nat := fun em => Some (put_calls em (em_calls em ++ [c]), length (em_calls em)).
Definition build_with (builder : nat) (inst : LLVMInst) : Emit LLVMValue := n ← call (Build builder inst); mret (Answer n).
Definition build (inst : LLVMInst) : Emit LLVMValue := em ← the_emitter; build_with (em_builder em) inst.
Definition build_in_entry (inst : LLVMInst) : Emit LLVMValue := em ← the_emitter; build_with (em_entry em) inst.

(** Elements of the arrays, which are as long as the function has values, and one. *)
Definition held_type (id : MIRValueId) : Emit (option LLVMType) := em ← the_emitter; demand (em_value_types em !! N.to_nat id).
Definition held_value (id : MIRValueId) : Emit (option LLVMValue) := em ← the_emitter; demand (em_values em !! N.to_nat id).
Definition flag_of (id : MIRValueId) : Emit (option LLVMValue) := em ← the_emitter; demand (em_flags em !! N.to_nat id).
Definition set_value (id : MIRValueId) (value : LLVMValue) : Emit unit := fun em =>
  _ ← em_values em !! N.to_nat id; Some (put_values em (<[N.to_nat id := Some value]> (em_values em)) (em_value_types em), tt).
Definition set_slot (id : MIRValueId) (slot : LLVMValue) (type : LLVMType) : Emit unit := fun em =>
  _ ← em_values em !! N.to_nat id;
  _ ← em_value_types em !! N.to_nat id;
  Some (put_values em (<[N.to_nat id := Some slot]> (em_values em)) (<[N.to_nat id := Some type]> (em_value_types em)), tt).
Definition set_flag (id : MIRValueId) (flag : LLVMValue) : Emit unit := fun em =>
  _ ← em_flags em !! N.to_nat id; Some (put_flags em (<[N.to_nat id := Some flag]> (em_flags em)), tt).
Definition block_of (id : MIRBlockId) : Emit nat := em ← the_emitter; b ← demand (em_blocks em !! N.to_nat id); demand b.

Definition i1_type : LLVMType := LLVMIntType 1.
Definition i32_type : LLVMType := LLVMIntType 32.
Definition size_type : LLVMType := LLVMIntType 64.
Definition glue_signature : LLVMType := LLVMFunctionType LLVMVoidType [LLVMPointerType].

Definition GAB_MAX_CALL_ARGS : nat := 64.

Section emit.
Context (type_addr str_addr : nat -> N) (type_fuel : nat) (text_of : nat -> list ascii) (verifies : list Call -> bool).

(** ** Types *)

(** [type_kind] and [type_metadata_of] of a type that is not null. *)
Definition type_data (type : TypePtr) : Emit TypeData := r ← asking get_types; demand (deref r type).

(** The members of a struct: an array of 64 that is read as far as there are
    fields. *)
Fixpoint member_types (of_type : TypePtr -> Emit LLVMType) (fields : list TypeField) : Emit (list LLVMType) :=
  match fields with
  | [] => mret []
  | field :: fields => member ← of_type (field_type field); members ← member_types of_type fields; mret (member :: members)
  end.

Fixpoint llvm_type_of (fuel : nat) (type : TypePtr) : Emit LLVMType :=
  match fuel, type with
  | _, None => mret i32_type
  | O, _ => demand None
  | S fuel, Some _ =>
      t ← type_data type;
      match ty_kind t with
      | TYPE_F32 => mret LLVMFloatType
      | TYPE_BOOL => mret i1_type
      | TYPE_U8 => mret (LLVMIntType 8)
      | TYPE_USIZE => mret size_type
      | TYPE_RAW | TYPE_REF =>
          r ← asking get_types;
          mret (match type_metadata_of (deref r (type_pointee (Some t))) with
                | TYPE_META_LENGTH => LLVMStructType [LLVMPointerType; i32_type]
                | _ => LLVMPointerType
                end)
      | TYPE_ARRAY =>
          element ← demand (type_array_element (Some t));
          element ← llvm_type_of fuel element;
          length ← demand (type_array_length (Some t));
          mret (LLVMArrayType element length)
      | TYPE_STRUCT =>
          fields ← asking (ask_registry (fun r => type_registry_fields_of type_addr str_addr r type));
          members ← member_types (llvm_type_of fuel) (take GAB_MAX_STRUCT_FIELDS fields);
          if Nat.ltb GAB_MAX_STRUCT_FIELDS (length fields) then demand None else mret (LLVMStructType members)
      | _ => mret i32_type
      end
  end.

Definition type_of (type : TypePtr) : Emit LLVMType := llvm_type_of type_fuel type.

(** ** Traps *)

Definition trap_signature : LLVMType := LLVMFunctionType LLVMVoidType [LLVMPointerType; i32_type].
Definition GAB_TRAP_SYMBOL : list ascii := bytes GAB_CORE_MODULE ++ bytes ".trap".
Definition GAB_OUT_OF_RANGE : list ascii := bytes "index is out of range" ++ [newline].
Definition OUT_OF_RANGE_NAME : list ascii := bytes "gab.out_of_range".

Definition trap_function : Emit LLVMValue :=
  em ← the_emitter;
  match named_function (em_calls em) GAB_TRAP_SYMBOL with
  | Some _ => mret (FunctionNamed GAB_TRAP_SYMBOL)
  | None =>
      call (AddFunction GAB_TRAP_SYMBOL trap_signature) ≫= fun _ =>
      call (SetCCallConv GAB_TRAP_SYMBOL) ≫= fun _ => mret (FunctionNamed GAB_TRAP_SYMBOL)
  end.

Definition trap_message : Emit LLVMValue :=
  em ← the_emitter;
  if named_string (em_calls em) OUT_OF_RANGE_NAME then mret (GlobalNamed OUT_OF_RANGE_NAME)
  else build (BuildGlobalStringPtr GAB_OUT_OF_RANGE OUT_OF_RANGE_NAME).

(** ** Functions *)

Definition callee_signature (callee : Function) : Emit LLVMType :=
  let decl := fn_decl callee in
  let params := take GAB_MAX_CALL_ARGS (sig_params (fn_signature callee)) in
  params ← mapM type_of params;
  location ←
    (if has_modifier decl FUNC_MOD_CALLER && bool_decide (is_Some (location_type decl)) && Nat.ltb (length params) GAB_MAX_CALL_ARGS then
       type ← type_of (location_type decl); mret [type]
     else mret []);
  returns ← (match return_type (fn_signature callee) with Some p => type_of (Some p) | None => mret LLVMVoidType end);
  mret (LLVMFunctionType returns (params ++ location)).

Definition symbol_of (function : Function) : Emit (list ascii) := r ← asking get_types; demand (llvm_symbol_of r text_of function).

(** The function of the symbol, declared when it is not yet, and its signature. *)
Definition callee_value (function : nat) : Emit (LLVMValue * LLVMType) :=
  em ← the_emitter;
  callee ← demand (reg_functions (world_functions (em_world em)) !! function);
  name ← symbol_of callee;
  signature ← callee_signature callee;
  em ← the_emitter;
  match named_function (em_calls em) name with
  | Some _ => mret (FunctionNamed name, signature)
  | None => call (AddFunction name signature) ≫= fun _ => mret (FunctionNamed name, signature)
  end.

(** ** Drop glue *)

Section body.
Context (ir : MIRFunction).

Definition call_glue (glue address : LLVMValue) : Emit unit := build (BuildCall2 glue_signature glue [address]) ≫= fun _ => mret tt.

(** The elements from the [i]-th on. *)
Fixpoint drop_elements (held : LLVMType) (glue self : LLVMValue) (i : Z) (count : nat) : Emit unit :=
  match count with
  | O => mret tt
  | S count =>
      address ← build (BuildGEP2 held self [LLVMConstInt i32_type 0 false; LLVMConstInt i32_type i false]);
      call_glue glue address ≫= fun _ => drop_elements held glue self (i + 1) count
  end.

(** The fields from the [i]-th on. *)
Fixpoint drop_fields (glue_of : TypePtr -> Emit LLVMValue) (held : LLVMType) (self : LLVMValue) (i : nat) (fields : list TypeField) : Emit unit :=
  match fields with
  | [] => mret tt
  | field :: fields =>
      if Nat.leb GAB_MAX_STRUCT_FIELDS i then mret tt
      else
        owned ← asking (owns type_addr str_addr type_fuel (field_type field));
        (if owned : bool then
           address ← build (BuildStructGEP2 held self (N.of_nat i));
           glue ← glue_of (field_type field);
           call_glue glue address
         else mret tt) ≫= fun _ => drop_fields glue_of held self (S i) fields
  end.

Definition drop_unique (glue_of : TypePtr -> Emit LLVMValue) (type : TypePtr) (self : LLVMValue) : Emit unit :=
  r ← asking get_types;
  unique ← demand (type_registry_is_unique r type);
  if negb unique then mret tt
  else
    pointee ← demand (type_registry_unique_pointee r type);
    match pointee with
    | None => mret tt
    | Some _ =>
        owned ← asking (owns type_addr str_addr type_fuel pointee);
        if negb owned then mret tt
        else
          held ← type_of type;
          address ← build (BuildStructGEP2 held self 0);
          value ← build (BuildLoad2 LLVMPointerType address);
          glue ← glue_of pointee;
          call_glue glue value
    end.

Definition drop_array (glue_of : TypePtr -> Emit LLVMValue) (type : TypePtr) (t : TypeData) (self : LLVMValue) : Emit unit :=
  element ← demand (type_array_element (Some t));
  owned ← asking (owns type_addr str_addr type_fuel element);
  if negb owned then mret tt
  else
    held ← type_of type;
    glue ← glue_of element;
    count ← demand (type_array_length (Some t));
    drop_elements held glue self 0 (Z.to_nat count).

Definition drop_struct (glue_of : TypePtr -> Emit LLVMValue) (type : TypePtr) (self : LLVMValue) : Emit unit :=
  destroy ← asking (ending_of type_addr str_addr ir type);
  (match destroy with
   | Some function => '(callee, signature) ← callee_value function; build (BuildCall2 signature callee [self]) ≫= fun _ => mret tt
   | None => mret tt
   end) ≫= fun _ =>
  held ← type_of type;
  fields ← asking (ask_registry (fun r => type_registry_fields_of type_addr str_addr r type));
  drop_fields glue_of held self 0 fields.

Definition emit_drop_body (glue_of : TypePtr -> Emit LLVMValue) (type : TypePtr) (self : LLVMValue) : Emit unit :=
  drop_unique glue_of type self ≫= fun _ =>
  t ← type_data type;
  match ty_kind t with
  | TYPE_ARRAY => drop_array glue_of type t self
  | TYPE_STRUCT => drop_struct glue_of type self
  | _ => mret tt
  end.

(** [fuel] bounds how deep types own each other. *)
Fixpoint drop_glue_of (fuel : nat) (type : TypePtr) : Emit LLVMValue :=
  match fuel with
  | O => demand None
  | S fuel =>
      r ← asking get_types;
      name ← demand (drop_glue_name r text_of type);
      em ← the_emitter;
      match named_function (em_calls em) name with
      | Some _ => mret (FunctionNamed name)
      | None =>
          call (AddFunction name glue_signature) ≫= fun _ =>
          call (SetLinkage name LLVMLinkOnceODRLinkage) ≫= fun _ =>
          entry ← call (AppendBasicBlock name (bytes "entry"));
          em ← the_emitter;
          let outer := em_builder em in
          builder ← call CreateBuilder;
          call (PositionBuilderAtEnd builder entry) ≫= fun _ =>
          use_builder builder ≫= fun _ =>
          emit_drop_body (drop_glue_of fuel) type (ParamOf name 0) ≫= fun _ =>
          build_with builder BuildRetVoid ≫= fun _ =>
          call (DisposeBuilder builder) ≫= fun _ =>
          use_builder outer ≫= fun _ =>
          mret (FunctionNamed name)
      end
  end.

(** ** Operands and places *)

(** The value, or what its slot holds; null when neither is there. *)
Definition operand_value (operand : MIROperand) : Emit (option LLVMValue) :=
  match operand with
  | OPERAND_CONST constant =>
      type ← type_of (constant_type constant);
      em ← the_emitter;
      mret (Some (if constant_is_float (TV := heap_view (reg_types (world_types (em_world em)))) constant
                  then LLVMConstReal type (const_float constant) else LLVMConstInt type (const_int constant) true))
  | OPERAND_VALUE id =>
      held ← held_type id;
      value ← held_value id;
      match held with
      | Some held => slot ← demand value; loaded ← build (BuildLoad2 held slot); mret (Some loaded)
      | None => mret value
      end
  end.

(** An operand of an instruction of LLVM. *)
Definition operand (operand : MIROperand) : Emit LLVMValue := value ← operand_value operand; demand value.
Definition arg (inst : MIRInst) (i : nat) : Emit LLVMValue := a ← demand (args inst !! i); operand a.

Definition slice_length (a : MIROperand) : Emit LLVMValue :=
  let id := match a with OPERAND_VALUE id => id | OPERAND_CONST _ => 0%N end in
  held ← held_type id;
  value ← held_value id;
  value ← demand value;
  match held with
  | None => build (BuildExtractValue value 1)
  | Some held => address ← build (BuildStructGEP2 held value 1); build (BuildLoad2 i32_type address)
  end.

Definition value_type_of (id : MIRValueId) : TypePtr := info ← mir_value_info ir id; value_type info.

(** A slot for a value that has none, where it is needed first. *)
Definition spill (id : MIRValueId) : Emit unit :=
  held ← held_type id;
  match held with
  | Some _ => mret tt
  | None =>
      type ← type_of (value_type_of id);
      value ← held_value id;
      slot ← build_in_entry (BuildAlloca type);
      (match value with Some value => build (BuildStore value slot) ≫= fun _ => mret tt | None => mret tt end) ≫= fun _ =>
      set_slot id slot type
  end.

Definition is_struct_type (type : LLVMType) : bool := match type with LLVMStructType _ => true | _ => false end.

(** Whether a pointer is followed to a run: then an index needs no leading zero. *)
Definition views (type : TypePtr) : Emit bool :=
  t ← type_data type;
  mret (bool_decide (type_metadata_of (Some t) = TYPE_META_LENGTH) || bool_decide (ty_kind t = TYPE_RAW)).

Fixpoint project (address : LLVMValue) (type : LLVMType) (viewed : bool) (projections : list Projection) : Emit (LLVMValue * LLVMType) :=
  match projections with
  | [] => mret (address, type)
  | projection :: projections =>
      '(address, viewed) ←
        (match proj_kind projection with
         | PROJ_FIELD field => address ← build (BuildStructGEP2 type address field); mret (address, false)
         | PROJ_DEREF =>
             address ← (if is_struct_type type then build (BuildStructGEP2 type address 0) else mret address);
             address ← build (BuildLoad2 LLVMPointerType address);
             viewed ← views (proj_type projection);
             mret (address, viewed)
         | PROJ_INDEX id =>
             index ← operand (mir_operand_value id);
             if viewed then
               element ← type_of (proj_type projection);
               address ← build (BuildGEP2 element address [index]);
               mret (address, false)
             else
               address ← build (BuildGEP2 type address [LLVMConstInt i32_type 0 false; index]);
               mret (address, false)
         end);
      type ← type_of (proj_type projection);
      project address type viewed projections
  end.

(** The address, and the type of what is there. *)
Definition place_address (place : Place) : Emit (LLVMValue * LLVMType) :=
  spill (base place) ≫= fun _ =>
  slot ← held_value (base place);
  slot ← demand slot;
  type ← held_type (base place);
  type ← demand type;
  project slot type false (projections place).

Section view.
Context (types : list TypeData).

Definition first_operand_type (inst : MIRInst) : TypePtr :=
  match args inst with
  | [] => None
  | OPERAND_CONST constant :: _ => constant_type constant
  | OPERAND_VALUE id :: _ => value_type_of id
  end.

Definition operands_are_float (inst : MIRInst) : bool :=
  bool_decide (tv_kind (TypeView := heap_view types) (first_operand_type inst) = Some TYPE_F32).
Definition operands_are_unsigned (inst : MIRInst) : bool := tv_is_unsigned (TV := heap_view types) (first_operand_type inst).
End view.

Definition int_predicate (predicate : CmpPredicate) (is_unsigned : bool) : LLVMIntPredicate :=
  match predicate with
  | MIR_CMP_LT => if is_unsigned then LLVMIntULT else LLVMIntSLT
  | MIR_CMP_GT => if is_unsigned then LLVMIntUGT else LLVMIntSGT
  | MIR_CMP_EQ => LLVMIntEQ
  | MIR_CMP_NE => LLVMIntNE
  | MIR_CMP_LE => if is_unsigned then LLVMIntULE else LLVMIntSLE
  | MIR_CMP_GE => if is_unsigned then LLVMIntUGE else LLVMIntSGE
  end.

Definition real_predicate (predicate : CmpPredicate) : LLVMRealPredicate :=
  match predicate with
  | MIR_CMP_LT => LLVMRealOLT | MIR_CMP_GT => LLVMRealOGT | MIR_CMP_EQ => LLVMRealOEQ
  | MIR_CMP_NE => LLVMRealONE | MIR_CMP_LE => LLVMRealOLE | MIR_CMP_GE => LLVMRealOGE
  end.

(** ** Instructions *)

Definition inst_predicate (inst : MIRInst) : CmpPredicate := match payload inst with payload_predicate p => p | _ => MIR_CMP_LT end.

(** The operation of LLVM for one of two operands. *)
Definition binary_of (inst : MIRInst) (floating unsigned : bool) : option LLVMBinary :=
  match op inst with
  | MIR_ADD => Some (if floating then BuildFAdd else BuildAdd)
  | MIR_SUB => Some (if floating then BuildFSub else BuildSub)
  | MIR_MUL => Some (if floating then BuildFMul else BuildMul)
  | MIR_DIV => Some (if floating then BuildFDiv else if unsigned then BuildUDiv else BuildSDiv)
  | MIR_MOD => Some (if floating then BuildFRem else if unsigned then BuildURem else BuildSRem)
  | MIR_CMP => Some (if floating then BuildFCmp (real_predicate (inst_predicate inst)) else BuildICmp (int_predicate (inst_predicate inst) unsigned))
  | _ => None
  end.

Definition unary_of (inst : MIRInst) (floating : bool) : option LLVMUnary :=
  match op inst with
  | MIR_NEG => Some (if floating then BuildFNeg else BuildNeg)
  | MIR_NOT => Some BuildNot
  | MIR_ITOF => Some (BuildSIToFP LLVMFloatType)
  | MIR_FTOI => Some (BuildFPToSISat i32_type)
  | _ => None
  end.

Definition emit_constant (inst : MIRInst) : Emit unit :=
  let constant := inst_constant inst in
  match op inst with
  | MIR_CONST_FLOAT => type ← type_of (inst_type inst); set_value (result inst) (LLVMConstReal type (const_float constant))
  | MIR_SIZE_OF =>
      size ← asking (ask_registry (fun r => type_registry_size_of type_addr str_addr type_fuel r (inst_type inst)));
      set_value (result inst) (LLVMConstInt size_type size false)
  | MIR_CONST_STR =>
      let text := match const_string constant with Some string => text_of string | None => [] end in
      characters ← build_in_entry (BuildGlobalStringPtr text (bytes "gab.str"));
      type ← type_of (inst_type inst);
      view ← build (BuildInsertValue (LLVMGetUndef type) characters 0);
      view ← build (BuildInsertValue view (LLVMConstInt i32_type (Z.of_nat (length text)) false) 1);
      set_value (result inst) view
  | _ => type ← type_of (inst_type inst); set_value (result inst) (LLVMConstInt type (const_int constant) true)
  end.

Definition emit_make_slice (inst : MIRInst) : Emit unit :=
  type ← type_of (inst_type inst);
  pointer ← arg inst 0;
  view ← build (BuildInsertValue (LLVMGetUndef type) pointer 0);
  length ← arg inst 1;
  view ← build (BuildInsertValue view length 1);
  set_value (result inst) view.

Definition emit_storage_live (inst : MIRInst) : Emit unit :=
  let id := base (inst_place inst) in
  held ← type_of (value_type_of id);
  slot ← build_in_entry (BuildAlloca held);
  set_slot id slot held ≫= fun _ =>
  build (BuildStore (LLVMConstNull held) slot) ≫= fun _ => mret tt.

Definition emit_access (inst : MIRInst) : Emit unit :=
  '(address, held) ← place_address (inst_place inst);
  match op inst with
  | MIR_NULL => build (BuildStore (LLVMConstNull held) address) ≫= fun _ => mret tt
  | MIR_STORE => value ← arg inst 0; build (BuildStore value address) ≫= fun _ => mret tt
  | MIR_LOAD => type ← type_of (inst_type inst); value ← build (BuildLoad2 type address); set_value (result inst) value
  | _ => set_value (result inst) address
  end.

(** The function the builder is in. *)
Definition this_function : Emit (list ascii) :=
  em ← the_emitter;
  block ← demand (insert_block (em_calls em) (em_builder em));
  demand (block_parent (em_calls em) block).

Definition append_block (function label : list ascii) : Emit nat := call (AppendBasicBlock function label).
Definition position_at (block : nat) : Emit unit := em ← the_emitter; call (PositionBuilderAtEnd (em_builder em) block) ≫= fun _ => mret tt.
Definition finish (inst : LLVMInst) : Emit unit := build inst ≫= fun _ => mret tt.

Definition bounds_length (inst : MIRInst) : Emit LLVMValue :=
  match args inst !! 1 with
  | Some a => slice_length a
  | None =>
      r ← asking get_types;
      length ← demand (type_array_length (deref r (inst_type inst)));
      mret (LLVMConstInt i32_type length false)
  end.

Definition emit_bounds (inst : MIRInst) : Emit unit :=
  index ← arg inst 0;
  length ← bounds_length inst;
  below ← build (BuildBinary (BuildICmp LLVMIntSLT) index (LLVMConstInt i32_type 0 true));
  above ← build (BuildBinary (BuildICmp LLVMIntSGE) index length);
  outside ← build (BuildBinary BuildOr below above);
  function ← this_function;
  trap ← append_block function (bytes "out_of_range");
  ok ← append_block function (bytes "in_range");
  finish (BuildCondBr outside trap ok) ≫= fun _ =>
  position_at trap ≫= fun _ =>
  traps ← trap_function;
  message ← trap_message;
  build (BuildCall2 trap_signature traps [message; LLVMConstInt i32_type (Z.of_nat (List.length GAB_OUT_OF_RANGE)) false]) ≫= fun _ =>
  finish BuildUnreachable ≫= fun _ =>
  position_at ok.

Definition emit_drop_flag (inst : MIRInst) : Emit unit :=
  flag ← flag_of (inst_flag inst);
  (match flag with
   | Some _ => mret tt
   | None =>
       flag ← build_in_entry (BuildAlloca i1_type);
       set_flag (inst_flag inst) flag ≫= fun _ =>
       build_in_entry (BuildStore (LLVMConstInt i1_type 0 false) flag) ≫= fun _ => mret tt
   end) ≫= fun _ =>
  value ← arg inst 0;
  flag ← flag_of (inst_flag inst);
  flag ← demand flag;
  finish (BuildStore value flag).

(** The slot of the flag, where the drop has one and it is there already. *)
Definition guard_of (inst : MIRInst) : Emit (option LLVMValue) :=
  if mir_value_is_none (inst_flag inst) then mret None else flag_of (inst_flag inst).

Definition emit_drop (inst : MIRInst) : Emit unit :=
  match inst_type inst with
  | None => mret tt
  | Some _ =>
      owned ← asking (owns type_addr str_addr type_fuel (inst_type inst));
      if negb owned then mret tt
      else
        '(address, _) ← place_address (inst_place inst);
        guard ← guard_of inst;
        match guard with
        | Some flag =>
            function ← this_function;
            release ← append_block function (bytes "release");
            after ← append_block function (bytes "released");
            holds ← build (BuildLoad2 i1_type flag);
            finish (BuildCondBr holds release after) ≫= fun _ =>
            position_at release ≫= fun _ =>
            glue ← drop_glue_of type_fuel (inst_type inst);
            call_glue glue address ≫= fun _ =>
            finish (BuildBr after) ≫= fun _ =>
            position_at after
        | None => glue ← drop_glue_of type_fuel (inst_type inst); call_glue glue address
        end
  end.

Definition emit_call (inst : MIRInst) : Emit unit :=
  values ← mapM operand (take GAB_MAX_CALL_ARGS (args inst));
  function ← demand (inst_callee inst);
  '(callee, signature) ← callee_value function;
  answer ← build (BuildCall2 signature callee values);
  match inst_type inst with Some _ => set_value (result inst) answer | None => mret tt end.

(** Whether the function returns something. *)
Definition returns_value : Emit bool :=
  em ← the_emitter;
  f ← demand (f ← mir_function ir; reg_functions (world_functions (em_world em)) !! f);
  mret (bool_decide (is_Some (return_type (fn_signature f)))).

Definition emit_return (inst : MIRInst) : Emit unit :=
  match args inst with
  | [] => returns ← returns_value; finish (if returns : bool then BuildUnreachable else BuildRetVoid)
  | _ => value ← arg inst 0; finish (BuildRet value)
  end.

Definition emit_binary (inst : MIRInst) (operation : LLVMBinary) : Emit unit :=
  left ← arg inst 0; right ← arg inst 1; value ← build (BuildBinary operation left right); set_value (result inst) value.

Definition emit_unary (inst : MIRInst) (operation : LLVMUnary) : Emit unit :=
  operand ← arg inst 0; value ← build (BuildUnary operation operand); set_value (result inst) value.

Definition emit_inst (inst : MIRInst) : Emit unit :=
  em ← the_emitter;
  let types := reg_types (world_types (em_world em)) in
  match op inst with
  | MIR_CONST_INT | MIR_CONST_BOOL | MIR_CONST_FLOAT | MIR_SIZE_OF | MIR_CONST_STR => emit_constant inst
  | MIR_ADD | MIR_SUB | MIR_MUL | MIR_DIV | MIR_MOD | MIR_CMP =>
      operation ← demand (binary_of inst (operands_are_float types inst) (operands_are_unsigned types inst)); emit_binary inst operation
  | MIR_NEG | MIR_NOT | MIR_ITOF | MIR_FTOI => operation ← demand (unary_of inst (operands_are_float types inst)); emit_unary inst operation
  | MIR_COPY =>
      a ← demand (args inst !! 0);
      value ← operand_value a;
      match value with Some value => set_value (result inst) value | None => demand None end
  | MIR_MAKE_SLICE => emit_make_slice inst
  | MIR_SLICE_LEN => a ← demand (args inst !! 0); length ← slice_length a; set_value (result inst) length
  | MIR_NULL | MIR_STORE | MIR_LOAD | MIR_REF => emit_access inst
  | MIR_STORAGE_LIVE => emit_storage_live inst
  | MIR_STORAGE_DEAD | MIR_STORAGE_INIT => mret tt
  | MIR_BOUNDS => emit_bounds inst
  | MIR_DROP_FLAG => emit_drop_flag inst
  | MIR_DROP => emit_drop inst
  | MIR_CALL => emit_call inst
  | MIR_JMP => to ← block_of (inst_targets inst).1; finish (BuildBr to)
  | MIR_BRANCH =>
      condition ← arg inst 0;
      to ← block_of (inst_targets inst).1;
      otherwise ← block_of (inst_targets inst).2;
      finish (BuildCondBr condition to otherwise)
  | MIR_RETURN => emit_return inst
  | MIR_UNREACHABLE => finish BuildUnreachable
  end.

(** ** A body *)

Fixpoint each_of {A} (f : A -> Emit unit) (l : list A) : Emit unit :=
  match l with [] => mret tt | a :: l => f a ≫= fun _ => each_of f l end.

(** [emitter] with the arrays of a body, of nulls. *)
Definition start_body : Emit unit := fun em =>
  let cells {A} : list (option A) := replicate (value_count ir + 1) None in
  Some (MkEmitter (em_world em) (em_calls em) (em_builder em) (em_entry em) cells cells cells (replicate (block_count ir + 1) None), tt).

Definition set_block (id : MIRBlockId) (block : nat) : Emit unit := fun em =>
  _ ← em_blocks em !! N.to_nat id;
  Some (MkEmitter (em_world em) (em_calls em) (em_builder em) (em_entry em) (em_values em) (em_value_types em) (em_flags em)
    (<[N.to_nat id := Some block]> (em_blocks em)), tt).
Definition use_entry (builder : nat) : Emit unit := fun em =>
  Some (MkEmitter (em_world em) (em_calls em) (em_builder em) builder (em_values em) (em_value_types em) (em_flags em) (em_blocks em), tt).

Definition param_type (param : MIRValueId) : Emit LLVMType :=
  info ← demand (mir_value_info ir param); type_of (value_type info).

Definition label_of (block : MIRBlock) : list ascii := bytes "b" ++ decimal (Z.of_N (block_id block)).

Definition add_block (symbol : list ascii) (block : MIRBlock) : Emit unit :=
  b ← append_block symbol (label_of block); set_block (block_id block) b.

(** A parameter that is a struct has a slot from the start. *)
Definition spill_param (symbol : list ascii) (numbered : nat * MIRValueId) : Emit unit :=
  let '(i, param) := numbered in
  match value_type_of param with
  | None => mret tt
  | Some p =>
      t ← type_data (Some p);
      if negb (bool_decide (ty_kind t = TYPE_STRUCT)) then mret tt
      else
        held ← type_of (Some p);
        slot ← build_in_entry (BuildAlloca held);
        build_in_entry (BuildStore (ParamOf symbol i) slot) ≫= fun _ => set_slot param slot held
  end.

Definition emit_block (block : MIRBlock) : Emit unit :=
  b ← block_of (block_id block);
  position_at b ≫= fun _ => each_of emit_inst (insts block).

Definition this_signature (f : Function) : Emit LLVMType :=
  params ← mapM param_type (params ir);
  returns ← (match return_type (fn_signature f) with Some p => type_of (Some p) | None => mret LLVMVoidType end);
  mret (LLVMFunctionType returns params).

(** The function of the symbol, added when it is not yet. *)
Definition add_function (symbol : list ascii) (signature : LLVMType) : Emit unit :=
  em ← the_emitter;
  match named_function (em_calls em) symbol with
  | Some _ => mret tt
  | None => call (AddFunction symbol signature) ≫= fun _ => mret tt
  end.

Definition llvm_unit_add : Emit unit :=
  start_body ≫= fun _ =>
  em ← the_emitter;
  f ← demand (f ← mir_function ir; reg_functions (world_functions (em_world em)) !! f);
  signature ← this_signature f;
  symbol ← symbol_of f;
  add_function symbol signature ≫= fun _ =>
  (if Nat.ltb 0 (length (fn_type_args f)) then call (SetLinkage symbol LLVMLinkOnceODRLinkage) ≫= fun _ => mret tt else mret tt) ≫= fun _ =>
  each_of (fun '(i, param) => set_value param (ParamOf symbol i)) (imap pair (params ir)) ≫= fun _ =>
  each_of (add_block symbol) (blocks ir) ≫= fun _ =>
  slots ← append_block symbol (bytes "slots");
  builder ← call CreateBuilder;
  use_entry builder ≫= fun _ =>
  call (PositionBuilderAtEnd builder slots) ≫= fun _ =>
  each_of (spill_param symbol) (imap pair (params ir)) ≫= fun _ =>
  each_of emit_block (blocks ir) ≫= fun _ =>
  entry ← block_of (entry ir);
  build_in_entry (BuildBr entry) ≫= fun _ =>
  call (MoveBasicBlockBefore slots entry) ≫= fun _ =>
  call (DisposeBuilder builder) ≫= fun _ =>
  em ← the_emitter;
  if verifies (em_calls em) then mret tt else demand None.
End body.

(** ** The unit *)

Definition byte_type : LLVMType := LLVMIntType 8.

Definition llvm_unit_open (w : World) : Emitter := MkEmitter w [CreateBuilder] 0 0 [] [] [] [].

Definition llvm_unit_declares (symbol : list ascii) : Emit unit :=
  call (AddGlobal symbol byte_type) ≫= fun _ =>
  call (SetInitializer symbol (LLVMConstInt byte_type 0 false)) ≫= fun _ =>
  call (SetLinkage symbol LLVMExternalLinkage) ≫= fun _ => mret tt.

Definition llvm_unit_requires (symbol : list ascii) : Emit unit :=
  let name := take 511 (symbol ++ bytes ".needed") in
  call (AddGlobal symbol byte_type) ≫= fun _ =>
  call (SetLinkage symbol LLVMExternalLinkage) ≫= fun _ =>
  call (AddGlobal name LLVMPointerType) ≫= fun _ =>
  call (SetInitializer name (GlobalNamed symbol)) ≫= fun _ =>
  call (SetLinkage name LLVMInternalLinkage) ≫= fun _ =>
  call (SetGlobalConstant name) ≫= fun _ =>
  call (SetSection name (bytes ".gab.imports")) ≫= fun _ => mret tt.

Definition is_i32 (type : LLVMType) : bool := match type with LLVMIntType bits => N.eqb bits 32 | _ => false end.
Definition returns_of (signature : LLVMType) : LLVMType := match signature with LLVMFunctionType returns _ => returns | other => other end.

Definition llvm_unit_entry (symbol : list ascii) : Emit unit :=
  em ← the_emitter;
  match named_function (em_calls em) symbol with
  | None => mret tt
  | Some aliasee =>
      let signature := LLVMFunctionType i32_type [] in
      if is_i32 (returns_of aliasee) then call (AddAlias signature symbol (bytes "main")) ≫= fun _ => mret tt
      else
        call (AddFunction (bytes "main") signature) ≫= fun _ =>
        entry ← append_block (bytes "main") (bytes "entry");
        builder ← call CreateBuilder;
        call (PositionBuilderAtEnd builder entry) ≫= fun _ =>
        build_with builder (BuildCall2 aliasee (FunctionNamed symbol) []) ≫= fun _ =>
        build_with builder (BuildRet (LLVMConstInt i32_type 0 false)) ≫= fun _ =>
        call (DisposeBuilder builder) ≫= fun _ => mret tt
  end.
End emit.
