(* ===== verification/EmitArith.v ===== *)
(** * EmitArith: the arithmetic LLVM is told

    What LLVM documents of the operations on two numbers, over the bits of a word
    or on floats, and that the operation chosen for an instruction computes what
    the instruction means at the kind of its operands: the meaning folding is
    proved against, and comparison.  The remainder of floats, which the checker
    rejects, has no meaning here; two comparisons that do not mean what the source
    says are at the end. *)

From Stdlib Require Import String Ascii SpecFloat.
From S2P Require Import Ast Facts Parser Lower LowerShape Interface Symbols.
From S2P Require Import Prelude Types Mir Decl Diagnostics Strings HashMap Fold Registry RegistryTypes RegistryState Functions Scopes Instantiate Build Glue Emit.

#[local] Open Scope Z_scope.

(** ** LLVM's operations *)

(** What a value of LLVM holds: the bits of a word, or a float. *)
Inductive Held := Bits (n : Z) | Real (f : f32).

Definition int_holds (predicate : LLVMIntPredicate) (w x y : Z) : bool :=
  let sx := wrap_signed w x in
  let sy := wrap_signed w y in
  match predicate with
  | LLVMIntEQ => x =? y | LLVMIntNE => negb (x =? y)
  | LLVMIntULT => x <? y | LLVMIntUGT => y <? x | LLVMIntULE => x <=? y | LLVMIntUGE => y <=? x
  | LLVMIntSLT => sx <? sy | LLVMIntSGT => sy <? sx | LLVMIntSLE => sx <=? sy | LLVMIntSGE => sy <=? sx
  end.

(** [None] is undefined behaviour, or an operation on something else. *)
Definition run_bits (w : Z) (operation : LLVMBinary) (x y : Z) : option Z :=
  let overflows := (y =? 0) || ((wrap_signed w x =? - 2 ^ (w - 1)) && (wrap_signed w y =? -1)) in
  match operation with
  | BuildAdd => Some (wrap_unsigned w (x + y))
  | BuildSub => Some (wrap_unsigned w (x - y))
  | BuildMul => Some (wrap_unsigned w (x * y))
  | BuildSDiv => if overflows then None else Some (wrap_unsigned w (Z.quot (wrap_signed w x) (wrap_signed w y)))
  | BuildSRem => if overflows then None else Some (wrap_unsigned w (Z.rem (wrap_signed w x) (wrap_signed w y)))
  | BuildUDiv => if y =? 0 then None else Some (x / y)
  | BuildURem => if y =? 0 then None else Some (x mod y)
  | BuildOr => Some (Z.lor x y)
  | BuildICmp predicate => Some (Z.b2z (int_holds predicate w x y))
  | _ => None
  end.

(** The ordered predicates: none holds where an operand is a NaN. *)
Definition real_holds (predicate : LLVMRealPredicate) (x y : f32) : bool :=
  match predicate, SFcompare x y with
  | _, None => false
  | LLVMRealOLT, Some c => bool_decide (c = Lt)
  | LLVMRealOGT, Some c => bool_decide (c = Gt)
  | LLVMRealOEQ, Some c => bool_decide (c = Eq)
  | LLVMRealONE, Some c => negb (bool_decide (c = Eq))
  | LLVMRealOLE, Some c => negb (bool_decide (c = Gt))
  | LLVMRealOGE, Some c => negb (bool_decide (c = Lt))
  end.

Definition run_reals (operation : LLVMBinary) (x y : f32) : option Held :=
  match operation with
  | BuildFAdd => Some (Real (f32_add x y)) | BuildFSub => Some (Real (f32_sub x y))
  | BuildFMul => Some (Real (f32_mul x y)) | BuildFDiv => Some (Real (f32_div x y))
  | BuildFCmp predicate => Some (Bits (Z.b2z (real_holds predicate x y)))
  | _ => None
  end.

Definition run_binary (w : Z) (operation : LLVMBinary) (x y : Held) : option Held :=
  match x, y with
  | Bits x, Bits y => Bits <$> run_bits w operation x y
  | Real x, Real y => run_reals operation x y
  | _, _ => None
  end.

(** ** What the instructions mean *)

(** The width of a kind of integers, and of [bool]. *)
Definition width (k : TypeKind) : Z := match k with TYPE_BOOL => 1 | TYPE_U8 => 8 | TYPE_USIZE => 64 | _ => 32 end.

Definition is_int (k : TypeKind) : bool := match k with TYPE_I32 | TYPE_U8 | TYPE_USIZE => true | _ => false end.

(** A value of a kind. *)
Definition of_kind (k : TypeKind) (v : MValue) : Prop :=
  match v with VInt z => is_int k = true /\ norm k z = z | VFloat _ => k = TYPE_F32 | VBool _ => k = TYPE_BOOL end.

(** What LLVM holds of it. *)
Definition held (k : TypeKind) (v : MValue) : Held :=
  match v with VInt z => Bits (wrap_unsigned (width k) z) | VFloat f => Real f | VBool b => Bits (Z.b2z b) end.

Definition compares (predicate : CmpPredicate) (a b : Z) : bool :=
  match predicate with
  | MIR_CMP_LT => a <? b | MIR_CMP_GT => b <? a | MIR_CMP_EQ => a =? b | MIR_CMP_NE => negb (a =? b) | MIR_CMP_LE => a <=? b | MIR_CMP_GE => b <=? a
  end.

(** The comparisons of IEEE 754: a NaN is less than, equal to and greater than
    nothing, and so not equal to anything. *)
Definition compares_floats (predicate : CmpPredicate) (a b : f32) : bool :=
  match predicate with
  | MIR_CMP_LT => SFltb a b | MIR_CMP_GT => SFltb b a | MIR_CMP_EQ => SFeqb a b | MIR_CMP_NE => negb (SFeqb a b)
  | MIR_CMP_LE => SFleb a b | MIR_CMP_GE => SFleb b a
  end.

(** [bool] compared for equality.  Its order, which the checker accepts, is left
    out: [booleans_are_ordered_backwards]. *)
Definition compares_bools (predicate : CmpPredicate) (a b : bool) : option bool :=
  match predicate with MIR_CMP_EQ => Some (Bool.eqb a b) | MIR_CMP_NE => Some (negb (Bool.eqb a b)) | _ => None end.

(** The meaning of an instruction of two operands: [Fold.eval_op], and comparison. *)
Definition meant (k : TypeKind) (inst : MIRInst) (a b : MValue) : option MValue :=
  match op inst, a, b with
  | MIR_CMP, VInt a, VInt b => Some (VBool (compares (inst_predicate inst) a b))
  | MIR_CMP, VFloat a, VFloat b => Some (VBool (compares_floats (inst_predicate inst) a b))
  | MIR_CMP, VBool a, VBool b => VBool <$> compares_bools (inst_predicate inst) a b
  | MIR_CMP, _, _ => None
  | o, _, _ => eval_op k o [a; b]
  end.

Definition is_arithmetic (o : MIROp) : bool :=
  match o with MIR_ADD | MIR_SUB | MIR_MUL | MIR_DIV | MIR_MOD | MIR_CMP => true | _ => false end.

(** ** Words *)

Lemma width_pos k : 0 < width k.
Proof. by destruct k. Qed.

(** A value is read back from its bits. *)
Lemma signed_back z : norm TYPE_I32 z = z -> wrap_signed 32 (wrap_unsigned 32 z) = z.
Proof. intros H. rewrite <- H at 2. apply wrap_signed_congr; [lia|]. unfold wrap_unsigned. by rewrite Zmod_mod. Qed.

Definition unsigned_kind (k : TypeKind) : Prop := k = TYPE_U8 \/ k = TYPE_USIZE.

Lemma unsigned_back k z : unsigned_kind k -> norm k z = z -> wrap_unsigned (width k) z = z /\ 0 <= z < 2 ^ width k.
Proof. intros [-> | ->] H; (split; [exact H|rewrite <- H; by apply wrap_unsigned_range]). Qed.

Lemma norm_bits k z : is_int k = true -> wrap_unsigned (width k) (norm k z) = wrap_unsigned (width k) z.
Proof. destruct k; try done; intros _; cbn [norm width]; unfold wrap_unsigned; [by rewrite wrap_signed_mod|by rewrite Zmod_mod..]. Qed.

(** Equal bits are equal values. *)
Lemma bits_inj k a b : is_int k = true -> norm k a = a -> norm k b = b -> (wrap_unsigned (width k) a =? wrap_unsigned (width k) b) = (a =? b).
Proof.
  intros Hk Ha Hb. apply Bool.eq_iff_eq_true. rewrite !Z.eqb_eq. split; [|by intros ->]. destruct k; try done.
  - intros H. rewrite <- (signed_back a Ha), <- (signed_back b Hb). cbn [width] in H. by rewrite H.
  - rewrite (proj1 (unsigned_back TYPE_U8 a ltac:(by left) Ha)), (proj1 (unsigned_back TYPE_U8 b ltac:(by left) Hb)). done.
  - rewrite (proj1 (unsigned_back TYPE_USIZE a ltac:(by right) Ha)), (proj1 (unsigned_back TYPE_USIZE b ltac:(by right) Hb)). done.
Qed.

Lemma zero_bits k b : is_int k = true -> norm k b = b -> (wrap_unsigned (width k) b =? 0) = (b =? 0).
Proof. intros Hk Hb. rewrite <- (bits_inj k b 0 Hk Hb); [done|]. by destruct k. Qed.

(** ** The operation chosen *)

Section chosen.
Context (inst : MIRInst) (k : TypeKind) (a b : Z).
Hypothesis Hk : is_int k = true.
Hypothesis Ha : norm k a = a.
Hypothesis Hb : norm k b = b.

Let x := wrap_unsigned (width k) a.
Let y := wrap_unsigned (width k) b.

Lemma ring_bits (f : Z -> Z -> Z) :
  (forall n a b, 0 < n -> f a b mod n = f (a mod n) (b mod n) mod n) -> wrap_unsigned (width k) (f x y) = wrap_unsigned (width k) (norm k (f a b)).
Proof.
  intros Hf. rewrite norm_bits by done. unfold x, y, wrap_unsigned. rewrite <- Hf; [done|]. apply Z.pow_pos_nonneg; [lia|]. by destruct k.
Qed.

Lemma compare_bits predicate : int_holds (int_predicate predicate (kind_is_unsigned k)) (width k) x y = compares predicate a b.
Proof.
  pose proof (bits_inj k a b Hk Ha Hb) as Heq. fold x y in Heq. destruct (kind_is_unsigned k) eqn:Hu.
  - assert (Hku : unsigned_kind k) by (destruct k; try done; [by left|by right]).
    destruct (unsigned_back k a Hku Ha) as [Hx _], (unsigned_back k b Hku Hb) as [Hy _]. fold x in Hx. fold y in Hy.
    destruct predicate; cbn [int_predicate int_holds compares]; rewrite ?Hx, ?Hy; done.
  - assert (k = TYPE_I32) as Hi by (by destruct k). subst x y. rewrite Hi in *. cbn [width] in *.
    destruct predicate; cbn [int_predicate int_holds compares]; rewrite ?(signed_back a Ha), ?(signed_back b Hb), ?Heq; done.
Qed.

Lemma divide_bits o : o = MIR_DIV \/ o = MIR_MOD ->
  run_bits (width k) (if bool_decide (o = MIR_DIV) then (if kind_is_unsigned k then BuildUDiv else BuildSDiv) else (if kind_is_unsigned k then BuildURem else BuildSRem)) x y =
  wrap_unsigned (width k) <$> eval_int k o a b.
Proof.
  intros Ho. pose proof (zero_bits k b Hk Hb) as Hz. fold y in Hz. destruct (kind_is_unsigned k) eqn:Hu.
  - assert (Hku : unsigned_kind k) by (destruct k; try done; [by left|by right]).
    destruct (unsigned_back k a Hku Ha) as [Hx Hxr], (unsigned_back k b Hku Hb) as [Hy Hyr]. fold x in Hx. fold y in Hy.
    assert (Hn : bool_decide (k = TYPE_I32) = false) by (by destruct k).
    destruct Ho as [-> | ->]; cbn [eval_int]; decide_closed; cbn [run_bits]; rewrite Hz, Hn, andb_false_r, orb_false_r;
      (destruct (b =? 0) eqn:Hb0; [done|]); apply Z.eqb_neq in Hb0; cbn [fmap option_fmap option_map]; rewrite norm_bits by done; rewrite Hx, Hy; f_equal.
    + rewrite Z.quot_div_nonneg by lia. symmetry. apply wrap_unsigned_id. split; [apply Z.div_pos; lia|]. apply Z.le_lt_trans with a; [|lia]. apply Z.div_le_upper_bound; nia.
    + rewrite Z.rem_mod_nonneg by lia. symmetry. apply wrap_unsigned_id. pose proof (Z.mod_pos_bound a b ltac:(lia)). lia.
  - assert (k = TYPE_I32) as Hi by (by destruct k). subst x y. rewrite Hi in *. cbn [width] in *.
    destruct Ho as [-> | ->]; cbn [eval_int]; decide_closed; cbn [run_bits]; rewrite Hz, !(signed_back a Ha), !(signed_back b Hb); rewrite andb_true_r;
      (change (- 2 ^ (32 - 1)) with INT32_MIN; destruct (_ || _); [done|]); cbn [fmap option_fmap option_map]; f_equal; symmetry; by apply (norm_bits TYPE_I32).
Qed.

(** On integers the operation computes what is meant, and is undefined where that
    traps. *)
Lemma chosen_on_integers operation : is_arithmetic (op inst) = true -> binary_of inst false (kind_is_unsigned k) = Some operation ->
  run_binary (width k) operation (Bits x) (Bits y) = held k <$> meant k inst (VInt a) (VInt b).
Proof.
  intros Ho H. unfold binary_of in H. unfold meant. cbn [run_binary]. destruct (op inst) eqn:Hop; try done; injection H as <-.
  - cbn. do 2 f_equal. apply (ring_bits Z.add), add_congr.
  - cbn. do 2 f_equal. apply (ring_bits Z.sub), sub_congr.
  - cbn. do 2 f_equal. apply (ring_bits Z.mul), mul_congr.
  - pose proof (divide_bits MIR_DIV ltac:(by left)) as H. change (bool_decide _) with true in H. rewrite H. cbn [eval_op]. by destruct (eval_int k MIR_DIV a b).
  - pose proof (divide_bits MIR_MOD ltac:(by right)) as H. change (bool_decide _) with false in H. rewrite H. cbn [eval_op]. by destruct (eval_int k MIR_MOD a b).
  - cbn. do 3 f_equal. apply compare_bits.
Qed.
End chosen.

(** *** Floats *)

Lemma compare_swap x y : SFcompare y x = CompOpp <$> SFcompare x y.
Proof.
  destruct x as [[]|[]| |[] m e], y as [[]|[]| |[] m' e']; try done; cbn; rewrite (Z.compare_antisym e e');
    destruct (e ?= e') eqn:He; cbn; try done; change (Pos.compare_cont Eq) with Pos.compare;
    rewrite (Pos.compare_antisym m m'); by destruct (m ?= m')%positive.
Qed.

(** Neither is a NaN. *)
Definition ordered (x y : f32) : bool := match SFcompare x y with Some _ => true | None => false end.

Lemma compare_reals predicate x y : predicate <> MIR_CMP_NE \/ ordered x y = true ->
  real_holds (real_predicate predicate) x y = compares_floats predicate x y.
Proof.
  unfold ordered, compares_floats, SFltb, SFleb, SFeqb. rewrite (compare_swap x y). intros H.
  destruct predicate; cbn [real_predicate real_holds]; destruct (SFcompare x y) as [[]|]; try done; by destruct H.
Qed.

Lemma chosen_on_floats inst operation a b : is_arithmetic (op inst) = true -> binary_of inst true false = Some operation ->
  op inst <> MIR_MOD -> (op inst = MIR_CMP -> inst_predicate inst = MIR_CMP_NE -> ordered a b = true) ->
  run_binary (width TYPE_F32) operation (Real a) (Real b) = held TYPE_F32 <$> meant TYPE_F32 inst (VFloat a) (VFloat b).
Proof.
  unfold binary_of, meant. destruct (op inst); try done; intros _ [= <-] _ Hn; try done. cbn. do 3 f_equal.
  apply compare_reals. destruct (decide (inst_predicate inst = MIR_CMP_NE)); [right; by apply Hn|by left].
Qed.

(** *** Booleans *)

Lemma chosen_on_bools inst operation a b r : is_arithmetic (op inst) = true -> binary_of inst false false = Some operation ->
  meant TYPE_BOOL inst (VBool a) (VBool b) = Some r ->
  run_binary (width TYPE_BOOL) operation (held TYPE_BOOL (VBool a)) (held TYPE_BOOL (VBool b)) = Some (held TYPE_BOOL r).
Proof.
  unfold binary_of, meant. destruct (op inst); try done; intros _ [= <-].
  destruct (inst_predicate inst); try done; intros [= <-]; by destruct a, b.
Qed.

(** ** The instruction emitted *)

Section emitted.
Context (type_addr str_addr : nat -> N) (type_fuel : nat) (text_of : nat -> list ascii) (ir : MIRFunction).

(** What the emitter asks of the kind of the operands. *)
Lemma signs_of_kind types inst k : kind_at types (first_operand_type ir inst) = Some k ->
  operands_are_float ir types inst = bool_decide (k = TYPE_F32) /\ operands_are_unsigned ir types inst = kind_is_unsigned k.
Proof using Type.
  intros Hk. unfold operands_are_float, operands_are_unsigned, tv_is_unsigned. change (tv_kind (TypeView := heap_view types)) with (kind_at types).
  rewrite Hk. split; [|done]. apply bool_decide_ext. split; [by intros [= ->]|by intros ->].
Qed.

(** The values of the two operands, read in order. *)
Definition operands_are (inst : MIRInst) (em : Emitter) (left right : LLVMValue) : Prop :=
  exists a b em1 em2, args inst !! 0%nat = Some a /\ args inst !! 1%nat = Some b /\
    operand type_addr str_addr type_fuel a em = Some (em1, left) /\
    operand type_addr str_addr type_fuel b em1 = Some (em2, right).

Lemma emit_binary_call inst operation em em' : emit_binary type_addr str_addr type_fuel inst operation em = Some (em', tt) ->
  exists left right calls, operands_are inst em left right /\
    em_calls em' = calls ++ [Build (em_builder em') (BuildBinary operation left right)] /\
    em_values em' !! N.to_nat (result inst) = Some (Some (Answer (length calls))).
Proof.
  unfold emit_binary, mbind, Emit_bind. destruct (arg _ _ _ inst 0 em) as [[em1 left]|] eqn:Hl; [|done].
  destruct (arg _ _ _ inst 1 em1) as [[em2 right]|] eqn:Hr; [|done].
  unfold build, build_with, set_value, mbind, Emit_bind. cbn [the_emitter call mret Emit_ret]. intros H. apply bind_Some in H as (v & Hv & [= <-]).
  exists left, right, (em_calls em2). split; [|split; [done|cbn; apply list_lookup_insert_eq; by apply lookup_lt_Some in Hv]].
  unfold arg, mbind, Emit_bind, demand in Hl, Hr. destruct (args inst !! 0%nat) as [a|] eqn:Ha; [|done].
  destruct (args inst !! 1%nat) as [b|] eqn:Hb; [|done]. by exists a, b, em1, em2.
Qed.

(** C11: The instruction LLVM is told for arithmetic or a comparison computes what the
    source means at the kind of its operands: its operands are the values of the
    instruction's two, the first on the left; on integers of any width it gives
    the bits of the result, with the signs read as the kind has them, and is
    undefined exactly where the division traps; on floats it is the operation or
    the comparison of 32-bit floats, but for [!=] on a NaN
    ([unequal_to_no_nan]); on booleans [==] and [!=] compare them.  Its answer is the
    value of the instruction.  Left out are the remainder of floats, which the
    checker rejects, and the order of booleans, which it accepts and which is
    told the wrong way round ([booleans_are_ordered_backwards]). *)
Theorem arithmetic_is_emitted_as_meant inst k em em' : is_arithmetic (op inst) = true ->
  kind_at (reg_types (world_types (em_world em))) (first_operand_type ir inst) = Some k ->
  emit_inst type_addr str_addr type_fuel text_of ir inst em = Some (em', tt) ->
  exists operation left right calls, operands_are inst em left right /\
    em_calls em' = calls ++ [Build (em_builder em') (BuildBinary operation left right)] /\
    em_values em' !! N.to_nat (result inst) = Some (Some (Answer (length calls))) /\
    (forall a b, of_kind k (VInt a) -> of_kind k (VInt b) ->
       run_binary (width k) operation (held k (VInt a)) (held k (VInt b)) = held k <$> meant k inst (VInt a) (VInt b)) /\
    (forall a b, of_kind k (VFloat a) -> of_kind k (VFloat b) -> op inst <> MIR_MOD ->
       (op inst = MIR_CMP -> inst_predicate inst = MIR_CMP_NE -> ordered a b = true) ->
       run_binary (width k) operation (held k (VFloat a)) (held k (VFloat b)) = held k <$> meant k inst (VFloat a) (VFloat b)) /\
    (forall a b r, of_kind k (VBool a) -> of_kind k (VBool b) -> meant k inst (VBool a) (VBool b) = Some r ->
       run_binary (width k) operation (held k (VBool a)) (held k (VBool b)) = Some (held k r)).
Proof.
  intros Ho Hk H. unfold emit_inst in H. unfold mbind at 1, Emit_bind at 1 in H. cbn [the_emitter] in H. cbv zeta in H.
  set (types := reg_types (world_types (em_world em))) in *.
  set (floating := operands_are_float ir types inst) in *. set (unsigned := operands_are_unsigned ir types inst) in *.
  destruct (signs_of_kind types inst k Hk) as [Hf Hu].
  assert (Hb : exists operation, binary_of inst floating unsigned = Some operation /\ emit_binary type_addr str_addr type_fuel inst operation em = Some (em', tt)).
  { destruct (op inst) eqn:Hop; try done; unfold demand, mbind at 1, Emit_bind at 1 in H;
      (destruct (binary_of inst floating unsigned) as [operation|]; [by exists operation|done]). }
  destruct Hb as (operation & Hb & He). destruct (emit_binary_call inst operation em em' He) as (left & right & calls & Ha & Hc & Hv).
  exists operation, left, right, calls. do 3 (split; [done|]). unfold floating, unsigned in Hb. rewrite Hf, Hu in Hb. split; [|split].
  - intros a b [Hi Ha'] [_ Hb']. rewrite bool_decide_eq_false_2 in Hb by (by intros ->). by apply chosen_on_integers.
  - intros a b -> _ Hmod Hne. by apply (chosen_on_floats inst operation).
  - intros a b r -> _ Hm. by apply (chosen_on_bools inst operation).
Qed.
End emitted.

(** *** An instruction emitted *)

(** [a / 7] of a parameter of type [u8]. *)
Definition sample_quotient : MIRFunction := MkFunction None [] 0 [MkValueInfo (Some 3%nat) None (MkSpan 1 1); MkValueInfo (Some 3%nat) None (MkSpan 1 1)] [0%N].
Definition quotient : MIRInst :=
  MkInst MIR_DIV (Some 3%nat) 1 [OPERAND_VALUE 0; OPERAND_CONST (MkConstant (Some 3%nat) (as_int 7))] (payload_constant zero_constant) None (MkSpan 1 1).
Definition quotient_emitter : Emitter :=
  MkEmitter (MkWorld sample_0 no_functions) [CreateBuilder] 0 0 [Some (ParamOf (bytes "f") 0); None; None] [None; None; None] [None; None; None] [None].

Lemma arithmetic_is_emitted_as_meant_witness : exists em operation left right calls,
  emit_inst sample_addr sample_addr 1 (fun _ => []) sample_quotient quotient quotient_emitter = Some (em, tt) /\
  em_calls em = calls ++ [Build 0 (BuildBinary operation left right)] /\
  operands_are sample_addr sample_addr 1 quotient quotient_emitter left right /\
  run_binary 8 operation (Bits 200) (Bits 7) = Some (Bits 28) /\ run_binary 8 operation (Bits 200) (Bits 0) = None.
Proof.
  destruct (emit_inst sample_addr sample_addr 1 (fun _ => []) sample_quotient quotient quotient_emitter) as [[em []]|] eqn:H; [|vm_compute in H; discriminate].
  destruct (arithmetic_is_emitted_as_meant sample_addr sample_addr 1 (fun _ => []) sample_quotient quotient TYPE_U8 quotient_emitter em eq_refl eq_refl H)
    as (operation & left & right & calls & Hargs & Hc & _ & Hi & _).
  assert (Hb : em_builder em = 0%nat) by (vm_compute in H; injection H as <-; reflexivity). rewrite Hb in Hc.
  exists em, operation, left, right, calls. split; [reflexivity|]. split; [exact Hc|]. split; [exact Hargs|]. split.
  - exact (Hi 200 7 (conj eq_refl eq_refl) (conj eq_refl eq_refl)).
  - exact (Hi 200 0 (conj eq_refl eq_refl) (conj eq_refl eq_refl)).
Defined.

(** A NaN is neither equal nor unequal to itself: [!=] is told as "ordered and not
    equal". *)
Lemma unequal_to_no_nan x :
  run_reals (BuildFCmp (real_predicate MIR_CMP_EQ)) S754_nan x = Some (Bits 0) /\
  run_reals (BuildFCmp (real_predicate MIR_CMP_NE)) S754_nan x = Some (Bits 0) /\
  compares_floats MIR_CMP_NE S754_nan x = true.
Proof. by destruct x. Qed.

(** Booleans are compared as words of one bit with signs, in which [true] is -1: what
    is told for [a < b] holds where [a] does and [b] does not. *)
Lemma booleans_are_ordered_backwards types ir inst : op inst = MIR_CMP -> inst_predicate inst = MIR_CMP_LT ->
  kind_at types (first_operand_type ir inst) = Some TYPE_BOOL ->
  exists operation, binary_of inst (operands_are_float ir types inst) (operands_are_unsigned ir types inst) = Some operation /\
    forall a b, run_binary (width TYPE_BOOL) operation (held TYPE_BOOL (VBool a)) (held TYPE_BOOL (VBool b)) =
      Some (held TYPE_BOOL (VBool (a && negb b))).
Proof.
  intros Ho Hp Hk. destruct (signs_of_kind ir types inst TYPE_BOOL Hk) as [-> ->].
  unfold binary_of. rewrite Ho, Hp. eexists. split; [reflexivity|]. by intros [] [].
Qed.
