(* ===== verification/EmitShape.v ===== *)
(** * EmitShape: the blocks LLVM is told

    What the calls of [Emit] make of the blocks of a module, as LLVM documents it: a
    builder appends to the end of the block it was put at.  Every block that a body
    made of basic blocks is given gets one terminator, behind all its instructions,
    whatever the instructions are: those that branch on their own (a check of
    bounds, a guarded release) and the drop glue made on the way too. *)

From Stdlib Require Import String Ascii.
From S2P Require Import Ast Facts Lower LowerShape Interface Symbols Parser.
From S2P Require Import Prelude Types Mir Decl Diagnostics Strings HashMap Registry RegistryTypes RegistryState Functions Scopes Instantiate Build Glue Check TypeExprs Resolve Declare Resolver Sources Compile CompileSound CompileCalls Emit.

(** ** The blocks *)

Record Shape := MkShape { builder_at : gmap nat nat; code : gmap nat (list LLVMInst) }.

Definition ends_block (inst : LLVMInst) : bool :=
  match inst with BuildBr _ | BuildCondBr _ _ _ | BuildRet _ | BuildRetVoid | BuildUnreachable => true | _ => false end.

(** A string is a global: its builder appends nothing. *)
Definition makes_global (inst : LLVMInst) : bool := match inst with BuildGlobalStringPtr _ _ => true | _ => false end.

(** What the [n]-th call does. *)
Definition after_call (n : nat) (sh : Shape) (c : Call) : Shape :=
  match c with
  | AppendBasicBlock _ _ => MkShape (builder_at sh) (<[n := []]> (code sh))
  | PositionBuilderAtEnd builder block => MkShape (<[builder := block]> (builder_at sh)) (code sh)
  | Build builder inst =>
      match builder_at sh !! builder with
      | Some block => if makes_global inst then sh else MkShape (builder_at sh) (alter (fun l => l ++ [inst]) block (code sh))
      | None => sh
      end
  | _ => sh
  end.

Fixpoint shape_from (n : nat) (sh : Shape) (calls : list Call) : Shape :=
  match calls with [] => sh | c :: calls => shape_from (S n) (after_call n sh c) calls end.

Definition shape_of (calls : list Call) : Shape := shape_from 0 (MkShape ∅ ∅) calls.

Lemma shape_from_snoc calls : forall n sh c, shape_from n sh (calls ++ [c]) = after_call (n + length calls) (shape_from n sh calls) c.
Proof.
  induction calls as [|d calls IH]; intros n sh c; cbn [app shape_from length]; [by rewrite Nat.add_0_r|]. rewrite IH. f_equal. lia.
Qed.

Lemma shape_snoc calls c : shape_of (calls ++ [c]) = after_call (length calls) (shape_of calls) c.
Proof. apply (shape_from_snoc calls 0). Qed.

(** ** Open and closed blocks *)

Definition straight (l : list LLVMInst) : Prop := Forall (fun inst => ends_block inst = false) l.

(** A block without a terminator, and one that ends in its only terminator. *)
Definition is_open (sh : Shape) (block : nat) : Prop := exists l, code sh !! block = Some l /\ straight l.
Definition closed_code (l : list LLVMInst) : Prop := exists pre last, l = pre ++ [last] /\ straight pre /\ ends_block last = true.

Lemma closed_not_straight l : closed_code l -> ~ straight l.
Proof. intros (pre & t & -> & _ & Ht) H. apply Forall_app in H as [_ H]. rewrite Forall_singleton in H. by rewrite Ht in H. Qed.

(** What holds of the calls at every point: nothing is behind a terminator, and
    blocks and builders are calls that were made. *)
Record wf (em : Emitter) : Prop := {
  wf_clean : forall block l, code (shape_of (em_calls em)) !! block = Some l -> straight l \/ closed_code l;
  wf_blocks : forall block l, code (shape_of (em_calls em)) !! block = Some l -> block < length (em_calls em);
  wf_builders : forall builder block, builder_at (shape_of (em_calls em)) !! builder = Some block -> builder < length (em_calls em);
}.

Definition at_ (em : Emitter) (builder : nat) : option nat := builder_at (shape_of (em_calls em)) !! builder.
Definition open (em : Emitter) (block : nat) : Prop := is_open (shape_of (em_calls em)) block.

(** A builder stands at an open block. *)
Definition stands (em : Emitter) (builder : nat) : Prop := exists block, at_ em builder = Some block /\ open em block.

(** What most of the code does: the builders that are there stay where they are,
    and the same blocks are open. *)
Record quiet (em em' : Emitter) : Prop := {
  q_wf : wf em';
  q_builder : em_builder em' = em_builder em;
  q_entry : em_entry em' = em_entry em;
  q_blocks : em_blocks em' = em_blocks em;
  q_longer : length (em_calls em) <= length (em_calls em');
  q_at : forall builder, builder < length (em_calls em) -> at_ em' builder = at_ em builder;
  q_open : forall block, open em' block <-> open em block;
}.

Lemma quiet_refl em : wf em -> quiet em em.
Proof. by split. Qed.

Lemma quiet_trans em em' em'' : quiet em em' -> quiet em' em'' -> quiet em em''.
Proof.
  intros [W B E K L A O] [W' B' E' K' L' A' O']. split; [done|congruence..|lia| |].
  - intros builder Hb. rewrite A', A by lia. done.
  - intros block. by rewrite O', O.
Qed.

Lemma stands_bound em builder : wf em -> stands em builder -> builder < length (em_calls em).
Proof. intros W (block & Ha & _). by eapply wf_builders. Qed.

Lemma quiet_stands em em' builder : wf em -> quiet em em' -> stands em builder -> stands em' builder.
Proof.
  intros W Q S. pose proof (stands_bound em builder W S) as Hb. destruct S as (block & Ha & Ho). exists block.
  split; [by rewrite (q_at _ _ Q)|by apply (q_open _ _ Q)].
Qed.

(** Where the builders of the body stand: the one it goes on with, and that of the
    slots.  Some code needs the second only. *)
Definition ready (em : Emitter) : Prop := stands em (em_builder em) /\ stands em (em_entry em).
Definition entered (em : Emitter) : Prop := stands em (em_entry em).

Class Lasting (P : Emitter -> Prop) : Prop := lasting : forall em em', wf em -> quiet em em' -> P em -> P em'.

#[export] Instance entered_lasting : Lasting entered.
Proof. intros em em' W Q H. unfold entered. rewrite (q_entry _ _ Q). by eapply quiet_stands. Qed.

#[export] Instance ready_lasting : Lasting ready.
Proof. intros em em' W Q [H1 H2]. split; [rewrite (q_builder _ _ Q)|rewrite (q_entry _ _ Q)]; by eapply quiet_stands. Qed.

#[export] Instance true_lasting : Lasting (fun _ => True).
Proof. done. Qed.

Definition calm {A} (P : Emitter -> Prop) (m : Emit A) : Prop := forall em em' a, wf em -> P em -> m em = Some (em', a) -> quiet em em'.

Section calm.
Context {P : Emitter -> Prop} `{HP : !Lasting P}.

Lemma calm_ret {A} (a : A) : calm P (mret a).
Proof. intros em em' b W _ [= <- <-]. by apply quiet_refl. Qed.

Lemma calm_then {A B} (m : Emit A) (k : A -> Emit B) : calm P m -> (forall a, calm P (k a)) -> calm P (m ≫= k).
Proof.
  intros Hm Hk em em' b W Hp H. unfold mbind, Emit_bind in H. destruct (m em) as [[em1 a]|] eqn:H1; [|done].
  pose proof (Hm em em1 a W Hp H1) as Q1. eapply quiet_trans; [exact Q1|]. eapply Hk; [apply (q_wf _ _ Q1)|by eapply HP|exact H].
Qed.

Lemma calm_demand {A} (o : option A) : calm P (demand o).
Proof. intros em em' a W _ H. unfold demand in H. apply bind_Some in H as (x & _ & [= <- <-]). by apply quiet_refl. Qed.

Lemma calm_the : calm P the_emitter.
Proof. intros em em' a W _ [= <- <-]. by apply quiet_refl. Qed.

(** What changes the registries or the arrays of the emitter. *)
Lemma quiet_calls em em' : wf em -> em_calls em' = em_calls em -> em_builder em' = em_builder em -> em_entry em' = em_entry em ->
  em_blocks em' = em_blocks em -> quiet em em'.
Proof.
  intros [C B A] Hc Hb He Hk. split; [split|..]; unfold at_, open; rewrite ?Hc; done.
Qed.

Lemma calm_asking {A} (m : Inst A) : calm P (asking m).
Proof. intros em em' a W _ H. unfold asking in H. apply bind_Some in H as ([w x] & _ & [= <- <-]). by apply quiet_calls. Qed.

Lemma calm_set_value id value : calm P (set_value id value).
Proof. intros em em' a W _ H. unfold set_value in H. apply bind_Some in H as (x & _ & [= <- <-]). by apply quiet_calls. Qed.

Lemma calm_set_slot id slot type : calm P (set_slot id slot type).
Proof.
  intros em em' a W _ H. unfold set_slot in H. apply bind_Some in H as (x & _ & H). apply bind_Some in H as (y & _ & [= <- <-]). by apply quiet_calls.
Qed.

Lemma calm_set_flag id flag : calm P (set_flag id flag).
Proof. intros em em' a W _ H. unfold set_flag in H. apply bind_Some in H as (x & _ & [= <- <-]). by apply quiet_calls. Qed.

Lemma calm_weaken {A} (Q : Emitter -> Prop) (m : Emit A) : (forall em, P em -> Q em) -> calm Q m -> calm P m.
Proof. intros H Hm em em' a W Hp. by apply Hm; [|apply H]. Qed.

Lemma calm_mapM {A B} (f : A -> Emit B) l : (forall a, calm P (f a)) -> calm P (mapM f l).
Proof.
  intros Hf. induction l as [|a l IH]; cbn [mapM]; [apply calm_ret|]. apply calm_then; [apply Hf|]. intros b. apply calm_then; [done|]. intros bs. apply calm_ret.
Qed.

Lemma calm_every {A} (f : A -> Emit unit) l : (forall a, calm P (f a)) -> calm P (each_of f l).
Proof. intros Hf. induction l as [|a l IH]; cbn [each_of]; [apply calm_ret|]. apply calm_then; [apply Hf|done]. Qed.
End calm.

(** ** The calls *)

(** A call that is about no block and no builder. *)
Definition indifferent (c : Call) : bool :=
  match c with AppendBasicBlock _ _ | PositionBuilderAtEnd _ _ | Build _ _ => false | _ => true end.

Lemma calm_made {P} `{!Lasting P} c : indifferent c = true -> calm P (call c).
Proof.
  intros Hc em em' a [C B A] _ [= <- <-]. assert (Hs : shape_of (em_calls em ++ [c]) = shape_of (em_calls em)) by (rewrite shape_snoc; by destruct c).
  split; [split|..]; unfold at_, open; cbn [em_calls put_calls em_builder em_entry]; rewrite ?Hs, ?length_app; try done.
  - intros block l Hl. specialize (B block l Hl). cbn. lia.
  - intros builder block Hb. specialize (A builder block Hb). cbn. lia.
  - cbn. lia.
Qed.

(** An instruction at the end of the open block a builder stands at. *)
Lemma built em builder inst block l : at_ em builder = Some block -> code (shape_of (em_calls em)) !! block = Some l ->
  shape_of (em_calls em ++ [Build builder inst]) =
    if makes_global inst then shape_of (em_calls em)
    else MkShape (builder_at (shape_of (em_calls em))) (<[block := l ++ [inst]]> (code (shape_of (em_calls em)))).
Proof.
  intros Ha Hl. rewrite shape_snoc. cbn [after_call]. unfold at_ in Ha. rewrite Ha. destruct (makes_global inst); [done|]. f_equal.
  apply map_eq. intros x. destruct (decide (x = block)) as [->|Hx]; [by rewrite lookup_alter, lookup_insert, Hl|by rewrite lookup_alter_ne, lookup_insert_ne].
Qed.

Lemma build_quiet em builder inst : wf em -> stands em builder -> ends_block inst = false -> quiet em (put_calls em (em_calls em ++ [Build builder inst])).
Proof.
  intros [C B A] (block & Ha & l & Hl & Hs) Hi. pose proof (built em builder inst block l Ha Hl) as Hb.
  destruct (makes_global inst).
  { split; [split|..]; unfold at_, open; cbn [em_calls put_calls em_builder em_entry]; rewrite ?Hb, ?length_app; try done.
    - intros x lx Hx. specialize (B x lx Hx). cbn. lia.
    - intros x y Hx. specialize (A x y Hx). cbn. lia.
    - cbn. lia. }
  assert (Hs' : straight (l ++ [inst])) by (apply Forall_app; split; [done|by apply Forall_singleton]).
  split; [split|..]; unfold at_, open, is_open; cbn [em_calls put_calls em_builder em_entry]; rewrite ?Hb, ?length_app; cbn [builder_at code length]; try done; try lia.
  - intros x lx. rewrite lookup_insert_Some. intros [[<- <-]|[_ Hx]]; [by left|by eapply C].
  - intros x lx. rewrite lookup_insert_Some. intros [[<- _]|[_ Hx]]; [specialize (B _ _ Hl)|specialize (B _ _ Hx)]; lia.
  - intros x y Hx. specialize (A x y Hx). lia.
  - intros x. destruct (decide (x = block)) as [->|Hx]; [|by rewrite lookup_insert_ne]. rewrite lookup_insert_eq. split; [intros _; by exists l|intros _; by exists (l ++ [inst])].
Qed.

Lemma calm_build inst : ends_block inst = false -> calm ready (build inst).
Proof.
  intros Hi em em' a W [Hb _] H. unfold build, build_with, mbind, Emit_bind in H. cbn [the_emitter call] in H. injection H as <- <-. by apply build_quiet.
Qed.

Lemma calm_build_in_entry P : (forall em, P em -> entered em) -> forall inst, ends_block inst = false -> calm P (build_in_entry inst).
Proof.
  intros HP inst Hi em em' a W He H. unfold build_in_entry, build_with, mbind, Emit_bind in H. cbn [the_emitter call] in H. injection H as <- <-.
  apply build_quiet; [done|by apply HP|done].
Qed.

(** *** What opens, moves and closes *)

(** The state behind one more call. *)
Definition with_call (em : Emitter) (c : Call) : Emitter := put_calls em (em_calls em ++ [c]).

Lemma appended em function label : wf em ->
  let em' := with_call em (AppendBasicBlock function label) in
  wf em' /\ (forall builder, at_ em' builder = at_ em builder) /\ forall x, open em' x <-> open em x \/ x = length (em_calls em).
Proof.
  intros [C B A]. cbn zeta. unfold at_, open, is_open, with_call.
  assert (Hs := shape_snoc (em_calls em) (AppendBasicBlock function label)). cbn [after_call] in Hs.
  split; [split|split]; cbn [em_calls put_calls]; rewrite ?Hs, ?length_app; cbn [builder_at code length]; [..|done|].
  - intros x lx. rewrite lookup_insert_Some. intros [[_ <-]|[_ Hx]]; [left; constructor|by eapply C].
  - intros x lx. rewrite lookup_insert_Some. intros [[<- _]|[_ Hx]]; [lia|specialize (B _ _ Hx); lia].
  - intros x y Hx. specialize (A x y Hx). lia.
  - intros x. destruct (decide (x = length (em_calls em))) as [->|Hx].
    + rewrite lookup_insert_eq. split; [by right|]. intros _. exists []. split; [done|constructor].
    + rewrite lookup_insert_ne by done. split; [by left|by intros [|]].
Qed.

Lemma positioned em builder block : wf em -> builder < length (em_calls em) ->
  let em' := with_call em (PositionBuilderAtEnd builder block) in
  wf em' /\ at_ em' builder = Some block /\ (forall other, other <> builder -> at_ em' other = at_ em other) /\ forall x, open em' x <-> open em x.
Proof.
  intros [C B A] Hb. cbn zeta. unfold at_, open, is_open, with_call.
  assert (Hs := shape_snoc (em_calls em) (PositionBuilderAtEnd builder block)). cbn [after_call] in Hs.
  split; [split|split; [|split]]; cbn [em_calls put_calls]; rewrite ?Hs, ?length_app; cbn [builder_at code length]; try done.
  - intros x lx Hx. specialize (B _ _ Hx). lia.
  - intros x y. rewrite lookup_insert_Some. intros [[<- _]|[_ Hx]]; [lia|specialize (A _ _ Hx); lia].
  - by rewrite lookup_insert_eq.
  - intros other Ho. by rewrite lookup_insert_ne.
Qed.

Lemma closed em builder block inst : wf em -> at_ em builder = Some block -> open em block -> ends_block inst = true ->
  let em' := with_call em (Build builder inst) in
  wf em' /\ (forall other, at_ em' other = at_ em other) /\ forall x, open em' x <-> open em x /\ x <> block.
Proof.
  intros [C B A] Ha (l & Hl & Hs) Hi. cbn zeta. pose proof (built em builder inst block l Ha Hl) as Hb.
  assert (makes_global inst = false) as Hg by (by destruct inst). rewrite Hg in Hb.
  assert (Hc : closed_code (l ++ [inst])) by (by exists l, inst).
  unfold at_, open, is_open, with_call. split; [split|split]; cbn [em_calls put_calls]; rewrite ?Hb, ?length_app; cbn [builder_at code length]; [..|done|].
  - intros x lx. rewrite lookup_insert_Some. intros [[_ <-]|[_ Hx]]; [by right|by eapply C].
  - intros x lx. rewrite lookup_insert_Some. intros [[<- _]|[_ Hx]]; [specialize (B _ _ Hl)|specialize (B _ _ Hx)]; lia.
  - intros x y Hx. specialize (A x y Hx). lia.
  - intros x. destruct (decide (x = block)) as [->|Hx].
    + rewrite lookup_insert_eq. split; [|by intros []]. intros (lx & [= <-] & Hst). by apply closed_not_straight in Hc.
    + rewrite lookup_insert_ne by done. split; [done|by intros []].
Qed.

(** A block of its own with a builder of its own, at the end of it. *)
Lemma fresh_block em function label : wf em ->
  let n := length (em_calls em) in
  let em' := with_call (with_call (with_call em (AppendBasicBlock function label)) CreateBuilder) (PositionBuilderAtEnd (S n) n) in
  wf em' /\ length (em_calls em') = S (S (S n)) /\ at_ em' (S n) = Some n /\ (forall builder, builder < n -> at_ em' builder = at_ em builder) /\
  forall x, open em' x <-> open em x \/ x = n.
Proof.
  intros W n. cbn zeta. destruct (appended em function label W) as (W1 & A1 & O1). set (em1 := with_call em _) in *.
  assert (L1 : length (em_calls em1) = S n) by (cbn; rewrite length_app; cbn; lia). set (em2 := with_call em1 CreateBuilder).
  pose proof (calm_made (P := fun _ => True) CreateBuilder eq_refl em1 em2 _ W1 I eq_refl) as Q2. pose proof (q_wf _ _ Q2) as W2.
  assert (L2 : length (em_calls em2) = S (S n)) by (cbn; rewrite !length_app; cbn; lia).
  destruct (positioned em2 (S n) n W2) as (W3 & A3 & B3 & O3); [lia|]. split; [done|]. split; [cbn; rewrite !length_app; cbn; lia|]. split; [done|].
  split; [|intros x; by rewrite O3, (q_open _ _ Q2), O1]. intros builder Hb. rewrite B3, (q_at _ _ Q2), A1 by lia. done.
Qed.

(** ** Drop glue *)

(** The glue of a type is a function of its own, with its own builder: when its body
    is calm, nothing outside has changed. *)
Lemma glue_frame name m : calm ready m -> calm ready (
  entry ← call (AppendBasicBlock name (bytes "entry"));
  em ← the_emitter;
  builder ← call CreateBuilder;
  call (PositionBuilderAtEnd builder entry) ≫= fun _ =>
  use_builder builder ≫= fun _ =>
  m ≫= fun _ : unit =>
  build_with builder BuildRetVoid ≫= fun _ =>
  call (DisposeBuilder builder) ≫= fun _ =>
  use_builder (em_builder em) ≫= fun _ =>
  mret (FunctionNamed name)).
Proof.
  intros Hm em em' a W [Rb Re]. unfold mbind, Emit_bind. cbn [call the_emitter use_builder mret Emit_ret].
  destruct (fresh_block em name (bytes "entry") W) as (W3 & L3 & A3 & B3 & O3). set (n := length (em_calls em)) in *. unfold with_call in *.
  replace (length (em_calls (put_calls em (em_calls em ++ [AppendBasicBlock name (bytes "entry")])))) with (S n) by (cbn; rewrite length_app; cbn; lia).
  set (em3 := put_calls _ (_ ++ [PositionBuilderAtEnd _ _])) in *.
  set (em4 := put_builder em3 (S n)). assert (W4 : wf em4) by (destruct W3; by split).
  assert (Hopen : forall x, open em4 x <-> open em x \/ x = n) by exact O3.
  assert (Hat : forall b, b < n -> at_ em4 b = at_ em b) by exact B3.
  assert (R4 : ready em4).
  { split.
    - exists n. split; [exact A3|]. apply Hopen. by right.
    - pose proof (stands_bound em _ W Re) as Hb. destruct Re as (s & Hs & Ho). exists s. change (em_entry em4) with (em_entry em).
      split; [by rewrite Hat|]. apply Hopen. by left. }
  destruct (m em4) as [[em5 u]|] eqn:H5; [|done]. destruct (Hm em4 em5 u W4 R4 H5) as [W5 B5 E5 K5 L5 A5 O5].
  unfold build_with, mbind, Emit_bind. cbn [call mret Emit_ret]. fold (with_call em5 (Build (S n) BuildRetVoid)).
  destruct (closed em5 (S n) n BuildRetVoid W5) as (W6 & A6 & O6); [|apply O5, Hopen; by right|done|].
  { rewrite A5 by (change (em_calls em4) with (em_calls em3); lia). exact A3. }
  set (em6 := with_call em5 _) in *. fold (with_call em6 (DisposeBuilder (S n))). set (em7 := with_call em6 _).
  pose proof (calm_made (P := fun _ => True) (DisposeBuilder (S n)) eq_refl em6 em7 _ W6 I eq_refl) as Q7. intros [= <- _].
  assert (L6 : length (em_calls em6) = S (length (em_calls em5))) by (cbn; rewrite length_app; cbn; lia).
  assert (L4 : length (em_calls em4) = S (S (S n))) by exact L3. pose proof (q_longer _ _ Q7) as L7.
  split; cbn [em_builder em_entry put_builder put_calls].
  - destruct (q_wf _ _ Q7). by split.
  - done.
  - change (em_entry em5 = em_entry em). by rewrite E5.
  - change (em_blocks em5 = em_blocks em). by rewrite K5.
  - change (length (em_calls em) <= length (em_calls em7)). lia.
  - intros b Hb. change (at_ em7 b = at_ em b). rewrite (q_at _ _ Q7), A6, A5 by lia. by apply Hat.
  - intros x. change (open em7 x <-> open em x). rewrite (q_open _ _ Q7), O6, O5, Hopen. split; [intros [[|] ?]; [done|done]|].
    intros Ho. split; [by left|]. intros ->. destruct Ho as (l & Hl & _). pose proof (wf_blocks em W n l Hl). lia.
Qed.

(** ** What is calm *)

Create HintDb calm.
#[local] Hint Resolve calm_ret calm_demand calm_the calm_asking calm_set_value calm_set_slot calm_set_flag : calm.
#[local] Hint Extern 1 (calm _ (call _)) => apply calm_made; reflexivity : calm.
#[local] Hint Extern 1 (calm _ (build _)) => apply calm_build; reflexivity : calm.
#[local] Hint Extern 1 (calm _ (build_in_entry _)) => apply calm_build_in_entry; [by intros ? []|reflexivity] : calm.

#[local] Hint Extern 1 (Lasting _) => typeclasses eauto : calm.

(** Code is calm when its parts are. *)
Ltac calming :=
  repeat match goal with
  | |- forall _, _ => intro
  | |- calm _ (_ ≫= _) => apply calm_then
  | |- calm _ (mapM _ _) => apply calm_mapM
  | |- calm _ (each_of _ _) => apply calm_every
  | |- calm _ (if ?b then _ else _) => destruct b
  | |- calm _ (match ?x with _ => _ end) => destruct x
  | |- calm _ _ => progress eauto with calm nocore
  end.

Section quiet_code.
Context (type_addr str_addr : nat -> N) (type_fuel : nat) (text_of : nat -> list ascii) (ir : MIRFunction).

Section anywhere.
Context {P : Emitter -> Prop} `{HP : !Lasting P}.

Lemma calm_type_data type : calm P (type_data type).
Proof. unfold type_data. calming. Qed.
Hint Resolve calm_type_data : calm.

Lemma calm_member_types of_type fields : (forall t, calm P (of_type t)) -> calm P (member_types of_type fields).
Proof. intros H. induction fields; cbn [member_types]; calming. Qed.

Lemma calm_llvm_type_of fuel : forall type, calm P (llvm_type_of type_addr str_addr fuel type).
Proof. induction fuel as [|fuel IH]; intros [p|]; cbn [llvm_type_of]; calming. by apply calm_member_types. Qed.

Lemma calm_type_of type : calm P (type_of type_addr str_addr type_fuel type).
Proof. apply calm_llvm_type_of. Qed.
Hint Resolve calm_type_of : calm.

Lemma calm_callee_signature callee : calm P (callee_signature type_addr str_addr type_fuel callee).
Proof. unfold callee_signature. calming. Qed.
Hint Resolve calm_callee_signature : calm.

Lemma calm_callee_value function : calm P (callee_value type_addr str_addr type_fuel text_of function).
Proof. unfold callee_value, symbol_of. calming. Qed.

Lemma calm_trap_function : calm P trap_function.
Proof. unfold trap_function. calming. Qed.

Lemma calm_held_type id : calm P (held_type id).
Proof. unfold held_type. calming. Qed.
Lemma calm_held_value id : calm P (held_value id).
Proof. unfold held_value. calming. Qed.
Lemma calm_flag_of id : calm P (flag_of id).
Proof. unfold flag_of. calming. Qed.
Lemma calm_block_of id : calm P (block_of id).
Proof. unfold block_of. calming. Qed.
Lemma calm_views type : calm P (views type).
Proof. unfold views. calming. Qed.
Lemma calm_this_function : calm P this_function.
Proof. unfold this_function. calming. Qed.
Lemma calm_returns_value : calm P (returns_value ir).
Proof. unfold returns_value. calming. Qed.
Lemma calm_guard_of inst : calm P (guard_of inst).
Proof. unfold guard_of. calming. apply calm_flag_of. Qed.
End anywhere.

Hint Resolve calm_type_data calm_type_of calm_callee_value calm_trap_function calm_held_type calm_held_value calm_flag_of calm_block_of
  calm_views calm_this_function calm_returns_value calm_guard_of : calm.

Lemma calm_trap_message : calm ready trap_message.
Proof. unfold trap_message. calming. Qed.

Lemma calm_call_glue glue address : calm ready (call_glue glue address).
Proof. unfold call_glue. calming. Qed.
Hint Resolve calm_trap_message calm_call_glue : calm.

Lemma calm_drop_elements held glue self count : forall i, calm ready (drop_elements held glue self i count).
Proof. induction count; intros i; cbn [drop_elements]; calming. Qed.

Lemma calm_drop_fields glue_of held self fields : (forall t, calm ready (glue_of t)) ->
  forall i, calm ready (drop_fields type_addr str_addr type_fuel glue_of held self i fields).
Proof. intros Hg. induction fields as [|field fields IH]; intros i; cbn [drop_fields]; calming. Qed.

Lemma calm_emit_drop_body glue_of type self : (forall t, calm ready (glue_of t)) ->
  calm ready (emit_drop_body type_addr str_addr type_fuel text_of ir glue_of type self).
Proof.
  intros Hg. unfold emit_drop_body, drop_unique, drop_array, drop_struct. calming; first [apply calm_drop_elements|by apply calm_drop_fields].
Qed.

(** Drop glue is made where it is needed, without moving the builder of the body. *)
Lemma calm_drop_glue_of fuel : forall type, calm ready (drop_glue_of type_addr str_addr type_fuel text_of ir fuel type).
Proof.
  induction fuel as [|fuel IH]; intros type; cbn [drop_glue_of]; [calming|].
  apply calm_then; [calming|intros r]. apply calm_then; [calming|intros name]. apply calm_then; [calming|intros em].
  destruct (named_function _ _); [calming|]. apply calm_then; [calming|intros _]. apply calm_then; [calming|intros _].
  apply (glue_frame name). by apply calm_emit_drop_body.
Qed.
Hint Resolve calm_drop_glue_of : calm.

Lemma calm_operand_value a : calm ready (operand_value type_addr str_addr type_fuel a).
Proof. unfold operand_value. calming. Qed.
Hint Resolve calm_operand_value : calm.

Lemma calm_operand a : calm ready (operand type_addr str_addr type_fuel a).
Proof. unfold operand. calming. Qed.
Hint Resolve calm_operand : calm.

Lemma calm_arg inst i : calm ready (arg type_addr str_addr type_fuel inst i).
Proof. unfold arg. calming. Qed.
Hint Resolve calm_arg : calm.

Lemma calm_slice_length a : calm ready (slice_length a).
Proof. unfold slice_length. calming. Qed.
Hint Resolve calm_slice_length : calm.

Lemma calm_spill id : calm ready (spill type_addr str_addr type_fuel ir id).
Proof. unfold spill. calming. Qed.
Hint Resolve calm_spill : calm.

Lemma calm_project l : forall address type viewed, calm ready (project type_addr str_addr type_fuel address type viewed l).
Proof. induction l as [|projection l IH]; intros address type viewed; cbn [project]; calming. Qed.
Hint Resolve calm_project : calm.

Lemma calm_place_address place : calm ready (place_address type_addr str_addr type_fuel ir place).
Proof. unfold place_address. calming. Qed.
Hint Resolve calm_place_address : calm.

(** An instruction that does not branch: all the code of it is behind what is in
    the block already. *)
Definition branches (o : MIROp) : bool := match o with MIR_BOUNDS | MIR_DROP => true | _ => mir_op_is_terminator o end.

Lemma calm_emit_inst inst : branches (op inst) = false -> calm ready (emit_inst type_addr str_addr type_fuel text_of ir inst).
Proof.
  unfold emit_inst. destruct (op inst) eqn:Hop; intros [=];
    unfold emit_constant, emit_binary, emit_unary, emit_make_slice, emit_access, emit_storage_live, emit_drop_flag, emit_call, finish; rewrite ?Hop; calming.
Qed.

(** ** What branches *)

(** From where [m] starts to where it leads. *)
Definition leads {A} (P : Emitter -> Prop) (m : Emit A) (Q : A -> Emitter -> Prop) : Prop :=
  forall em em' a, wf em -> P em -> m em = Some (em', a) -> wf em' /\ Q a em'.

Lemma leads_bind {A B} P (m : Emit A) (k : A -> Emit B) Q R : leads P m Q -> (forall a, leads (Q a) (k a) R) -> leads P (m ≫= k) R.
Proof.
  intros Hm Hk em em' b W Hp H. unfold mbind, Emit_bind in H. destruct (m em) as [[em1 a]|] eqn:H1; [|done].
  destruct (Hm em em1 a W Hp H1) as [W1 H2]. by eapply Hk.
Qed.

Lemma leads_ret {A} P (a : A) : leads P (mret a) (fun _ => P).
Proof. by intros em em' b W Hp [= <- <-]. Qed.

Lemma leads_post {A} P (m : Emit A) Q R : leads P m Q -> (forall a em, Q a em -> R a em) -> leads P m R.
Proof. intros H HQ em em' a W Hp Hm. destruct (H em em' a W Hp Hm). auto. Qed.

Lemma leads_calm {A} P (R : Emitter -> Prop) (m : Emit A) : Lasting P -> (forall em, P em -> R em) -> calm R m -> leads P m (fun _ => P).
Proof. intros L HR Hm em em' a W Hp H. pose proof (Hm em em' a W (HR em Hp) H) as Q. split; [apply (q_wf _ _ Q)|by eapply L]. Qed.

Lemma leads_given {A} (F : Prop) P (m : Emit A) Q : (F -> leads P m Q) -> leads (fun em => F /\ P em) m Q.
Proof. intros H em em' a W [Hf Hp]. by eapply H. Qed.

Lemma leads_each {A} P (f : A -> Emit unit) l : (forall a, a ∈ l -> leads P (f a) (fun _ => P)) -> leads P (each_of f l) (fun _ => P).
Proof.
  induction l as [|a l IH]; intros Hf; cbn [each_of]; [apply leads_ret|]. eapply leads_bind; [apply Hf; left|]. intros ?. apply IH. intros b Hb. apply Hf. by right.
Qed.

(** A body is emitted with two builders, at different blocks. *)
Record running (em : Emitter) (here slots : nat) : Prop := {
  rn_here : at_ em (em_builder em) = Some here;
  rn_slots : at_ em (em_entry em) = Some slots;
  rn_open : open em slots;
  rn_apart : em_entry em <> em_builder em;
  rn_other : slots <> here;
}.

Section from.
Context (em0 : Emitter) (here slots : nat).
Hypothesis W0 : wf em0.
Hypothesis R0 : running em0 here slots.

(** On the way from [em0]: the builder is at [there]; the blocks in [extra] are open
    that the body goes on with, and those that were open elsewhere. *)
Record stage (there : nat) (extra : gset nat) (em : Emitter) : Prop := {
  st_builder : em_builder em = em_builder em0;
  st_entry : em_entry em = em_entry em0;
  st_blocks : em_blocks em = em_blocks em0;
  st_longer : length (em_calls em0) <= length (em_calls em);
  st_at : forall builder, builder < length (em_calls em0) -> builder <> em_builder em0 -> at_ em builder = at_ em0 builder;
  st_there : at_ em (em_builder em0) = Some there;
  st_extra : forall x, x ∈ extra -> x = here \/ length (em_calls em0) <= x;
  st_open : forall x, open em x <-> x ∈ extra \/ (open em0 x /\ x <> here);
}.

#[local] Instance stage_lasting there extra : Lasting (stage there extra).
Proof.
  intros em em' W Q [B E K L A T X O]. pose proof (wf_builders em W _ _ T) as Hb.
  split; rewrite ?(q_builder _ _ Q), ?(q_entry _ _ Q), ?(q_blocks _ _ Q); try done.
  - pose proof (q_longer _ _ Q). lia.
  - intros builder H1 H2. rewrite (q_at _ _ Q) by lia. by apply A.
  - by rewrite (q_at _ _ Q).
  - intros x. by rewrite (q_open _ _ Q).
Qed.

Lemma stage_entered there extra em : stage there extra em -> entered em.
Proof.
  intros [B E K L A T X O]. destruct R0 as [Hh Hs Ho Ha Hn]. exists slots. pose proof (wf_builders em0 W0 _ _ Hs). rewrite E. split; [by rewrite A|].
  apply O. by right.
Qed.

Lemma stage_ready there extra em : there ∈ extra -> stage there extra em -> ready em.
Proof.
  intros Ht S. split; [|by eapply stage_entered]. destruct S. exists there. rewrite st_builder0. split; [done|]. apply st_open0. by left.
Qed.

Lemma stage_calm {A} there extra (m : Emit A) : there ∈ extra -> calm ready m -> leads (stage there extra) m (fun _ => stage there extra).
Proof. intros Ht Hm. eapply leads_calm; [apply _|intros em; by apply stage_ready|done]. Qed.

Lemma stage_append there extra function label :
  leads (stage there extra) (append_block function label) (fun n em => (n ∉ extra) /\ length (em_calls em0) <= n /\ stage there ({[n]} ∪ extra) em).
Proof.
  intros em em' n W [B E K L A T X O] [= <- <-]. destruct (appended em function label W) as (W1 & A1 & O1). split; [done|].
  split; [intros Hn|split; [done|]].
  - assert (open em (length (em_calls em))) as (l & Hl & _) by (apply O; by left). pose proof (wf_blocks em W _ _ Hl). lia.
  - split; try done.
    + cbn. rewrite length_app. lia.
    + intros builder H1 H2. unfold with_call in A1. rewrite A1. by apply A.
    + unfold with_call in A1. by rewrite A1.
    + intros x. rewrite elem_of_union, elem_of_singleton. intros [->|Hx]; [by right|by apply X].
    + intros x. unfold with_call in O1. rewrite O1, O, elem_of_union, elem_of_singleton. tauto.
Qed.

Lemma stage_position there extra block : block ∈ extra -> leads (stage there extra) (position_at block) (fun _ => stage block extra).
Proof.
  intros Hb em em' [] W [B E K L A T X O] H. unfold position_at, mbind, Emit_bind in H. cbn [the_emitter call mret Emit_ret] in H. injection H as <-.
  destruct (positioned em (em_builder em) block W) as (W1 & A1 & B1 & O1); [rewrite B; by eapply wf_builders|]. split; [done|]. unfold with_call in *.
  split; try done.
  - cbn. rewrite length_app. lia.
  - intros builder H1 H2. rewrite B1 by congruence. by apply A.
  - by rewrite <- B.
  - intros x. by rewrite O1, O.
Qed.

Lemma stage_finish there extra inst : ends_block inst = true -> there ∈ extra ->
  leads (stage there extra) (finish inst) (fun _ => stage there (extra ∖ {[there]})).
Proof.
  intros Hi Ht em em' [] W [B E K L A T X O] H. unfold finish, build, build_with, mbind, Emit_bind in H. cbn [the_emitter call mret Emit_ret] in H. injection H as <-.
  destruct (closed em (em_builder em) there inst W) as (W1 & A1 & O1); [by rewrite B|apply O; by left|done|]. split; [done|]. unfold with_call in *.
  split; try done.
  - cbn. rewrite length_app. lia.
  - intros builder H1 H2. rewrite A1. by apply A.
  - by rewrite A1.
  - intros x. rewrite elem_of_difference. intros [Hx _]. by apply X.
  - intros x. rewrite O1, O, elem_of_difference, elem_of_singleton. split; [tauto|]. intros [[Hx Hn]|[Hx Hn]]; [by split; [left|]|].
    split; [by right|]. intros ->. destruct (X there Ht) as [|Hl]; [done|]. destruct Hx as (l & Hx & _). pose proof (wf_blocks em0 W0 _ _ Hx). lia.
Qed.

(** Inside a block: it has no terminator yet where the builder is. *)
Definition inside (em : Emitter) : Prop := exists there, stage there {[there]} em.

Lemma inside_calm {A} (m : Emit A) : calm ready m -> leads inside m (fun _ => inside).
Proof.
  intros Hm em em' a W (there & S) H. destruct (stage_calm there {[there]} m (elem_of_singleton_2 there there eq_refl) Hm em em' a W S H) as [W' S']. split; [done|by exists there].
Qed.

Lemma inside_of {A} (m : Emit A) R : (forall there, leads (stage there {[there]}) m R) -> leads inside m R.
Proof. intros H em em' a W (there & S). by eapply H. Qed.

(** Follows calm code up to what is not, and the blocks it appends. *)
Ltac keeping := repeat first
  [ apply leads_ret
  | match goal with |- leads _ (match ?x with _ => _ end) _ => destruct x end
  | eapply leads_bind; [apply stage_append|intros ?; cbn beta]; apply leads_given; intros ?; apply leads_given; intros ?
  | eapply leads_bind; [eapply stage_calm; [set_solver|solve [calming]]|intros ?; cbn beta] ].

(** Two blocks of its own, the first of which is done with before the body goes on
    in the second. *)
Lemma detour_begins {A} there one other branch (k : Emit A) R :
  one ∉ ({[there]} : gset nat) -> other ∉ ({[one]} ∪ {[there]} : gset nat) -> ends_block branch = true ->
  leads (stage one ({[other]} ∪ {[one]})) k R ->
  leads (stage there ({[other]} ∪ ({[one]} ∪ {[there]}))) (finish branch ≫= fun _ => position_at one ≫= fun _ => k) R.
Proof.
  intros H1 H2 Hb Hk. eapply leads_bind; [apply stage_finish; [done|set_solver]|intros ?; cbn beta].
  eapply leads_bind; [apply stage_position; set_solver|intros ?; cbn beta].
  by replace (({[other]} ∪ ({[one]} ∪ {[there]})) ∖ {[there]} : gset nat) with ({[other]} ∪ {[one]} : gset nat) by set_solver.
Qed.

Lemma detour_ends one other inst : other ∉ ({[one]} : gset nat) -> ends_block inst = true ->
  leads (stage one ({[other]} ∪ {[one]})) (finish inst ≫= fun _ => position_at other) (fun _ => inside).
Proof.
  intros H Hi. eapply leads_bind; [apply stage_finish; [done|set_solver]|intros ?; cbn beta].
  eapply leads_post; [apply stage_position; set_solver|]. intros ? em S. exists other.
  by replace ({[other]} : gset nat) with (({[other]} ∪ {[one]}) ∖ {[one]} : gset nat) by set_solver.
Qed.

Lemma inside_bounds inst : leads inside (emit_bounds type_addr str_addr type_fuel inst) (fun _ => inside).
Proof.
  apply inside_of. intros there. unfold emit_bounds, bounds_length. keeping; (apply detour_begins; [done..|]); keeping; (apply detour_ends; [set_solver|done]).
Qed.

Lemma inside_drop inst : leads inside (emit_drop type_addr str_addr type_fuel text_of ir inst) (fun _ => inside).
Proof.
  unfold emit_drop. destruct (inst_type inst) as [p|]; [|apply leads_ret]. apply inside_of. intros there.
  eapply leads_bind; [eapply stage_calm; [set_solver|solve [calming]]|intros owned; cbn beta].
  destruct (negb owned); [eapply leads_post; [apply leads_ret|]; intros ? ? S; by exists there|]. keeping.
  - apply detour_begins; [done..|]. keeping. apply detour_ends; [set_solver|done].
  - eapply leads_post; [eapply stage_calm; [set_solver|calming]|]. intros ? ? S. by exists there.
Qed.

(** An instruction that is no terminator leaves the body in a block without one. *)
Lemma inside_inst inst : mir_op_is_terminator (op inst) = false -> leads inside (emit_inst type_addr str_addr type_fuel text_of ir inst) (fun _ => inside).
Proof.
  intros Ht. destruct (branches (op inst)) eqn:Hb; [|by apply inside_calm, calm_emit_inst].
  eapply leads_bind; [apply inside_calm; calming|intros em; cbn beta zeta]. destruct (op inst) eqn:Hop; try done; [apply inside_bounds|apply inside_drop].
Qed.

(** A terminator ends the block the body is in. *)
Lemma stage_terminator there inst : mir_op_is_terminator (op inst) = true ->
  leads (stage there {[there]}) (emit_inst type_addr str_addr type_fuel text_of ir inst) (fun _ => stage there ({[there]} ∖ {[there]})).
Proof.
  intros Ht. unfold emit_inst, emit_return. destruct (op inst); try done; keeping; (apply stage_finish; [by try case_match|set_solver]).
Qed.

(** A basic block. *)
Definition basic (block : MIRBlock) : Prop :=
  exists pre terminator, insts block = pre ++ [terminator] /\ mir_op_is_terminator (op terminator) = true /\
    Forall (fun inst => mir_op_is_terminator (op inst) = false) pre.

Lemma each_app {A} (f : A -> Emit unit) l l' em : each_of f (l ++ l') em = (each_of f l ≫= fun _ => each_of f l') em.
Proof.
  revert em. induction l as [|a l IH]; intros em; [done|]. cbn [app each_of]. unfold mbind, Emit_bind in *. by destruct (f a em) as [[em1 []]|].
Qed.

Lemma leads_same {A} P (m m' : Emit A) Q : (forall em, m em = m' em) -> leads P m' Q -> leads P m Q.
Proof. intros He H em em' a W Hp Hm. rewrite He in Hm. by eapply H. Qed.

Lemma inside_block block : basic block ->
  leads inside (each_of (emit_inst type_addr str_addr type_fuel text_of ir) (insts block)) (fun _ em => exists there, stage there ∅ em).
Proof.
  intros (pre & t & -> & Ht & Hpre). eapply leads_same; [intros em; apply each_app|]. eapply leads_bind.
  - apply leads_each. intros inst Hi. apply inside_inst. by eapply Forall_forall in Hpre.
  - intros ?. cbn beta. apply inside_of. intros there. cbn [each_of]. eapply leads_bind; [by apply stage_terminator|]. intros ?. cbn beta.
    eapply leads_post; [apply leads_ret|]. intros ? em S. exists there. by replace (∅ : gset nat) with ({[there]} ∖ {[there]} : gset nat) by set_solver.
Qed.
End from.

(** ** A body *)

(** Between two blocks of a body: the slots are open, and the builder is known. *)
Record between (slots : nat) (em : Emitter) : Prop := {
  bt_builder : em_builder em < length (em_calls em);
  bt_slots : at_ em (em_entry em) = Some slots;
  bt_open : open em slots;
  bt_apart : em_entry em <> em_builder em;
}.

(** One block is done with, and what goes on is as before. *)
Lemma emit_block_closes slots block b em em' :
  wf em -> between slots em -> basic block -> em_blocks em !! N.to_nat (block_id block) = Some (Some b) -> open em b -> b <> slots ->
  emit_block type_addr str_addr type_fuel text_of ir block em = Some (em', tt) ->
  wf em' /\ between slots em' /\ em_blocks em' = em_blocks em /\ forall x, open em' x <-> open em x /\ x <> b.
Proof.
  intros W [B S O D] Hbasic Hb Hob Hslots H. unfold emit_block, block_of, position_at, mbind, Emit_bind in H. cbn [the_emitter call mret Emit_ret] in H.
  unfold demand at 1 in H. rewrite Hb in H. cbn in H. fold (with_call em (PositionBuilderAtEnd (em_builder em) b)) in H.
  destruct (positioned em (em_builder em) b W B) as (W1 & A1 & B1 & O1). set (em1 := with_call em _) in *.
  assert (R1 : running em1 b slots).
  { split; try done; [change (em_entry em1) with (em_entry em); by rewrite B1|by apply O1]. }
  assert (S1 : inside em1 b em1).
  { exists b. split; try done; [intros x Hx; left; set_solver|]. intros x. rewrite elem_of_singleton.
    destruct (decide (x = b)) as [->|]; [|tauto]. split; [by left|]. intros _. by apply O1. }
  destruct (inside_block em1 b slots W1 R1 block Hbasic em1 em' tt W1 S1 H) as [W' (there & [B' E' K' L' A' T' _ O'])].
  split; [done|]. split; [|split; [done|]].
  - split; rewrite ?B', ?E'.
    + pose proof (wf_builders em1 W1 _ _ (rn_here _ _ _ R1)). lia.
    + pose proof (wf_builders em1 W1 _ _ (rn_slots _ _ _ R1)). rewrite A'; [by apply R1|done..].
    + apply O'. right. split; [by apply O1|done].
    + done.
  - intros x. rewrite O', O1, elem_of_empty. tauto.
Qed.

(** The blocks of the body, as the emitter knows them. *)
Definition numbered (em : Emitter) (block : MIRBlock) (b : nat) : Prop := em_blocks em !! N.to_nat (block_id block) = Some (Some b).

Lemma emit_blocks_close slots l : forall bs em em',
  wf em -> between slots em -> Forall basic l -> Forall2 (numbered em) l bs -> NoDup bs -> Forall (open em) bs -> slots ∉ bs ->
  each_of (emit_block type_addr str_addr type_fuel text_of ir) l em = Some (em', tt) ->
  wf em' /\ between slots em' /\ forall x, open em' x <-> open em x /\ x ∉ bs.
Proof.
  induction l as [|block l IH]; intros bs em em' W B Hl Hn Hd Ho Hs H; cbn [each_of] in H.
  { apply Forall2_nil_inv_l in Hn as ->. injection H as <-. split; [done|]. split; [done|]. intros x. rewrite elem_of_nil. tauto. }
  apply Forall2_cons_inv_l in Hn as (b & bs' & Hb & Hn & ->). apply Forall_cons in Hl as [Hb' Hl]. apply NoDup_cons in Hd as [Hf Hd].
  apply Forall_cons in Ho as [Hob Ho]. apply not_elem_of_cons in Hs as [Hs Hs'].
  unfold mbind, Emit_bind in H. destruct (emit_block _ _ _ _ _ _ _) as [[em1 []]|] eqn:H1; [|done].
  destruct (emit_block_closes slots block b em em1 W B Hb' Hb Hob) as (W1 & B1 & K1 & O1); [congruence|done|].
  destruct (IH bs' em1 em' W1 B1 Hl) as (W' & B' & O'); try done.
  - eapply Forall2_impl; [exact Hn|]. intros ? ?. unfold numbered. by rewrite K1.
  - apply Forall_forall. intros x Hx. apply O1. split; [by eapply Forall_forall in Ho|by intros ->].
  - split; [done|]. split; [done|]. intros x. rewrite O', O1, not_elem_of_cons. tauto.
Qed.

(** What the blocks of the body become: fresh ones, all different. *)
Lemma add_blocks_open symbol l : forall em em', wf em -> NoDup ((fun block => N.to_nat (block_id block)) <$> l) ->
  each_of (add_block symbol) l em = Some (em', tt) ->
  wf em' /\ em_builder em' = em_builder em /\ length (em_calls em) <= length (em_calls em') /\
  (forall id, id ∉ ((fun block => N.to_nat (block_id block)) <$> l) -> em_blocks em' !! id = em_blocks em !! id) /\
  exists bs, Forall2 (numbered em') l bs /\ NoDup bs /\ Forall (fun b => length (em_calls em) <= b) bs /\ forall x, open em' x <-> open em x \/ x ∈ bs.
Proof.
  induction l as [|block l IH]; intros em em' W Hd H; cbn [each_of] in H.
  { injection H as <-. repeat split; try done; [eapply wf_clean|eapply wf_blocks|eapply wf_builders|]; try done.
    exists []. repeat split; try constructor; try done. intros [|Hx]; [done|]. by apply elem_of_nil in Hx. }
  rewrite fmap_cons in Hd. apply NoDup_cons in Hd as [Hf Hd].
  unfold mbind, Emit_bind in H. destruct (add_block symbol block em) as [[em1 []]|] eqn:H1; [|done].
  unfold add_block, append_block, set_block, mbind, Emit_bind in H1. cbn [call] in H1. apply bind_Some in H1 as (cell & Hcell & [= H1]).
  destruct (appended em symbol (label_of block) W) as (W1 & A1 & O1). set (em1' := with_call em _) in *.
  assert (Wa : wf em1) by (rewrite <- H1; destruct W1; by split). destruct (IH em1 em' Wa Hd H) as (W' & B' & L' & K' & bs & N' & D' & F' & O').
  assert (L1 : length (em_calls em1) = S (length (em_calls em))) by (rewrite <- H1; cbn; rewrite length_app; cbn; lia).
  assert (Oa : forall x, open em1 x <-> open em x \/ x = length (em_calls em)) by (intros x; rewrite <- H1; apply O1).
  split; [done|]. split; [by rewrite B', <- H1|]. split; [lia|]. split.
  - intros id. rewrite fmap_cons, not_elem_of_cons. intros [Hne Hid]. rewrite K' by done. rewrite <- H1. cbn. by rewrite list_lookup_insert_ne.
  - exists (length (em_calls em) :: bs). split; [constructor; [|done]|split; [|split]].
    + unfold numbered. rewrite K' by done. rewrite <- H1. cbn. apply list_lookup_insert_eq. by apply lookup_lt_Some in Hcell.
    + constructor; [|done]. intros Hin. eapply Forall_forall in F'; [|exact Hin]. cbn in F'. lia.
    + constructor; [lia|]. eapply Forall_impl; [exact F'|]. cbn. intros x. lia.
    + intros x. rewrite O', Oa, elem_of_cons. tauto.
Qed.

(** Between two bodies: no block is open. *)
Record settled (em : Emitter) : Prop := { se_builder : em_builder em < length (em_calls em); se_closed : forall x, ~ open em x }.

#[local] Instance settled_lasting : Lasting settled.
Proof.
  intros em em' W Q [B O]. split; [rewrite (q_builder _ _ Q); pose proof (q_longer _ _ Q); lia|]. intros x Hx. by apply (O x), (q_open _ _ Q).
Qed.

(** The blocks of the body are there; so are the slots, the two builders apart. *)
Definition laid_out (l : list MIRBlock) (em : Emitter) : Prop :=
  em_builder em < length (em_calls em) /\ exists bs, Forall2 (numbered em) l bs /\ NoDup bs /\ forall x, open em x <-> x ∈ bs.
Definition begun (l : list MIRBlock) (slots : nat) (em : Emitter) : Prop :=
  between slots em /\ exists bs, Forall2 (numbered em) l bs /\ NoDup bs /\ (slots ∉ bs) /\ forall x, open em x <-> x = slots \/ x ∈ bs.
Definition done_with (slots : nat) (em : Emitter) : Prop := between slots em /\ forall x, open em x <-> x = slots.

#[local] Instance between_lasting slots : Lasting (between slots).
Proof.
  intros em em' W Q [B S O D]. split; rewrite ?(q_builder _ _ Q), ?(q_entry _ _ Q); [pose proof (q_longer _ _ Q); lia| |by apply (q_open _ _ Q)|done].
  rewrite (q_at _ _ Q); [done|by eapply wf_builders].
Qed.

#[local] Instance begun_lasting l slots : Lasting (begun l slots).
Proof.
  intros em em' W Q [B (bs & N & D & S & O)]. split; [by eapply between_lasting|]. exists bs.
  split; [eapply Forall2_impl; [exact N|]; intros ? ?; unfold numbered; by rewrite (q_blocks _ _ Q)|]. repeat split; try done; rewrite (q_open _ _ Q); apply O.
Qed.

#[local] Instance done_with_lasting slots : Lasting (done_with slots).
Proof. intros em em' W Q [B O]. split; [by eapply between_lasting|]. intros x. by rewrite (q_open _ _ Q). Qed.

Lemma settled_start_body : leads settled (start_body ir) (fun _ => settled).
Proof. intros em em' u [C B A] [Hb Ho] [= <- _]. split; by split. Qed.

Lemma settled_lays_out symbol l : NoDup ((fun block => N.to_nat (block_id block)) <$> l) -> leads settled (each_of (add_block symbol) l) (fun _ => laid_out l).
Proof.
  intros Hd em em' [] W [Hb Ho] H. destruct (add_blocks_open symbol l em em' W Hd H) as (W' & B' & L' & _ & bs & N & D & _ & O). split; [done|].
  split; [lia|]. exists bs. repeat split; try done; rewrite O; [by intros [?%Ho|]|by right].
Qed.

(** The slots of a body come first, with a builder of their own. *)
Lemma laid_out_begins {A} l symbol (k : nat -> nat -> Emit A) R :
  (forall slots builder, leads (begun l slots) (k slots builder) R) ->
  leads (laid_out l) (
    slots ← append_block symbol (bytes "slots");
    builder ← call CreateBuilder;
    use_entry builder ≫= fun _ =>
    call (PositionBuilderAtEnd builder slots) ≫= fun _ => k slots builder) R.
Proof.
  intros Hk em em' a W [Hb (bs & N & D & O)] H. unfold append_block, use_entry, mbind, Emit_bind in H. cbn [call] in H.
  destruct (fresh_block em symbol (bytes "slots") W) as (W3 & L3 & A3 & B3 & O3). set (n := length (em_calls em)) in *. unfold with_call in *.
  replace (length (em_calls (put_calls em (em_calls em ++ [AppendBasicBlock symbol (bytes "slots")])))) with (S n) in H by (cbn; rewrite length_app; cbn; lia).
  set (em3 := put_calls (put_calls (put_calls em _) _) _) in *. eapply (Hk n (S n)); [| |exact H]; [by destruct W3; split|].
  assert (Hopen : forall x, open em3 x <-> x = n \/ x ∈ bs) by (intros x; rewrite O3, O; tauto).
  assert (Hn : n ∉ bs). { intros (c & Hc & _)%O. pose proof (wf_blocks em W n c Hc). lia. }
  split; [|by exists bs]. assert (Hx : em_builder em < n) by exact Hb.
  split; [change (em_builder em < length (em_calls em3)); lia|exact A3|apply Hopen; by left|change (S n <> em_builder em); lia].
Qed.

Lemma begun_is_done l slots : Forall basic l -> leads (begun l slots) (each_of (emit_block type_addr str_addr type_fuel text_of ir) l) (fun _ => done_with slots).
Proof.
  intros Hl em em' [] W [B (bs & N & D & S & O)] H. destruct (emit_blocks_close slots l bs em em' W B Hl N D) as (W' & B' & O'); try done.
  - apply Forall_forall. intros x Hx. apply O. by right.
  - split; [done|]. split; [done|]. intros x. rewrite O', O. split; [tauto|]. intros ->. tauto.
Qed.

(** The slots end in the branch to the body. *)
Lemma done_with_settles slots block : leads (done_with slots) (build_in_entry (BuildBr block)) (fun _ => settled).
Proof.
  intros em em' v W [[B S O1 D] O] H. unfold build_in_entry, build_with, mbind, Emit_bind in H. cbn [the_emitter call mret Emit_ret] in H. injection H as <- _.
  destruct (closed em (em_entry em) slots (BuildBr block) W S O1 eq_refl) as (W' & A' & O'). unfold with_call in *. split; [done|].
  split; [cbn; rewrite length_app; cbn; lia|]. intros x [Hx Hs]%O'. by apply O in Hx.
Qed.

(** A body as lowering leaves it: basic blocks, each with an id of its own. *)
Definition basic_body : Prop := NoDup ((fun block => N.to_nat (block_id block)) <$> blocks ir) /\ Forall basic (blocks ir).

Lemma settled_calm {A} (m : Emit A) : calm (fun _ => True) m -> leads settled m (fun _ => settled).
Proof. intros H. eapply leads_calm; [apply _| |exact H]; done. Qed.

Lemma between_entered slots em : between slots em -> entered em.
Proof. intros [B S O D]. by exists slots. Qed.

Lemma calm_spill_param symbol numbered : calm entered (spill_param type_addr str_addr type_fuel ir symbol numbered).
Proof. unfold spill_param. calming; by apply calm_build_in_entry. Qed.

Lemma body_settles verifies : basic_body -> leads settled (Emit.llvm_unit_add type_addr str_addr type_fuel text_of verifies ir) (fun _ => settled).
Proof.
  intros [Hd Hl]. unfold Emit.llvm_unit_add, this_signature, symbol_of, add_function.
  eapply leads_bind; [apply settled_start_body|intros ?; cbn beta].
  repeat (eapply leads_bind; [apply settled_calm; unfold param_type; solve [calming]|intros ?; cbn beta]).
  eapply leads_bind; [by apply settled_lays_out|intros ?; cbn beta]. apply laid_out_begins. intros slots builder.
  eapply leads_bind; [eapply (leads_calm _ entered); [apply _|intros em [S _]; by eapply between_entered|]|intros ?; cbn beta].
  { apply calm_every. intros ?. apply calm_spill_param. }
  eapply leads_bind; [by apply begun_is_done|intros ?; cbn beta].
  eapply leads_bind; [eapply (leads_calm _ (fun _ => True)); [apply _|done|calming]|intros block; cbn beta].
  eapply leads_bind; [apply done_with_settles|intros ?; cbn beta].
  apply settled_calm. calming.
Qed.
End quiet_code.

(** ** A unit *)

Section unit.
Context (type_addr str_addr : nat -> N) (type_fuel : nat) (text_of : nat -> list ascii) (verifies : list Call -> bool).

(** What compilation tells the code generator, in the calls of LLVM it makes. *)
Definition told (call : Compile.UnitCall) : Emit unit :=
  match call with
  | Compile.llvm_unit_requires symbol => Emit.llvm_unit_requires symbol
  | Compile.llvm_unit_add ir => Emit.llvm_unit_add type_addr str_addr type_fuel text_of verifies ir
  | Compile.llvm_unit_entry symbol => Emit.llvm_unit_entry symbol
  | Compile.llvm_unit_declares symbol => Emit.llvm_unit_declares symbol
  end.

Definition emit_unit (w : World) (calls : list Compile.UnitCall) : option (Emitter * ()) := each_of told calls (llvm_unit_open w).

(** The entry that calls a function without a result has a body of its own. *)
Lemma entry_settles symbol : leads settled (Emit.llvm_unit_entry symbol) (fun _ => settled).
Proof.
  unfold Emit.llvm_unit_entry. eapply leads_bind; [apply settled_calm; calming|intros em0; cbn beta].
  destruct (named_function _ _) as [aliasee|]; [|apply leads_ret]. cbn zeta. destruct (is_i32 _); [apply settled_calm; calming|].
  eapply leads_bind; [apply settled_calm; calming|intros ?; cbn beta].
  intros em em' [] W [Hb Ho] H. unfold append_block, build_with, mbind, Emit_bind in H. cbn [call mret Emit_ret] in H.
  destruct (fresh_block em (bytes "main") (bytes "entry") W) as (W3 & L3 & A3 & B3 & O3). set (n := length (em_calls em)) in *. unfold with_call in *.
  replace (length (em_calls (put_calls em (em_calls em ++ [AppendBasicBlock (bytes "main") (bytes "entry")])))) with (S n) in H by (cbn; rewrite length_app; cbn; lia).
  set (em3 := put_calls _ (_ ++ [PositionBuilderAtEnd _ _])) in *.
  set (inst := BuildCall2 aliasee (FunctionNamed symbol) []).
  assert (Hn : open em3 n) by (apply O3; by right).
  pose proof (build_quiet em3 (S n) inst W3 (ex_intro _ n (conj A3 Hn)) eq_refl) as Q4. set (em4 := put_calls em3 (_ ++ [Build (S n) inst])) in *.
  destruct (closed em4 (S n) n (BuildRet (LLVMConstInt i32_type 0 false)) (q_wf _ _ Q4)) as (W5 & A5 & O5);
    [rewrite (q_at _ _ Q4) by (rewrite L3; lia); exact A3|by apply (q_open _ _ Q4)|done|]. set (em5 := with_call em4 _) in *.
  pose proof (calm_made (P := fun _ => True) (DisposeBuilder (S n)) eq_refl em5 _ _ W5 I eq_refl) as Q6. injection H as <-. split; [exact (q_wf _ _ Q6)|].
  assert (L5 : length (em_calls em5) = S (length (em_calls em4))) by (unfold em5, with_call; cbn [put_calls em_calls]; rewrite length_app; cbn; lia).
  pose proof (q_longer _ _ Q4). split.
  - eapply Nat.lt_le_trans; [|exact (q_longer _ _ Q6)]. change (em_builder em < length (em_calls em5)). unfold n in *. lia.
  - intros x Hx. apply (q_open _ _ Q6), O5 in Hx as [Hx Hne]. apply (q_open _ _ Q4), O3 in Hx as [Hx|]; [by apply (Ho x)|done].
Qed.

Lemma told_settles call : Forall basic_body (emitted [call]) -> leads settled (told call) (fun _ => settled).
Proof.
  intros H. destruct call; cbn [told].
  - apply settled_calm. unfold Emit.llvm_unit_requires. calming.
  - apply body_settles. change (Forall basic_body [ir]) in H. by inversion H.
  - apply entry_settles.
  - apply settled_calm. unfold Emit.llvm_unit_declares. calming.
Qed.

Lemma opened_settled w : wf (llvm_unit_open w) /\ settled (llvm_unit_open w).
Proof.
  split; [split|split]; cbn.
  - intros block l H. by rewrite lookup_empty in H.
  - intros block l H. by rewrite lookup_empty in H.
  - intros builder block H. by rewrite lookup_empty in H.
  - lia.
  - intros x (l & H & _). unfold shape_of in H. cbn in H. by rewrite lookup_empty in H.
Qed.

(** C12: Every block of the module a unit makes ends in a terminator and has no other,
    whatever the unit is told: bodies of basic blocks, declarations, what it
    requires, an entry.  The blocks that instructions make on the way (the checks of
    bounds, the guarded releases), the slots, the drop glue and the entry are
    among them. *)
Theorem emitted_blocks_are_terminated w calls em : Forall basic_body (emitted calls) -> emit_unit w calls = Some (em, tt) ->
  forall block l, code (shape_of (em_calls em)) !! block = Some l -> closed_code l.
Proof.
  intros Hbodies H block l Hl. destruct (opened_settled w) as [W S]. unfold emit_unit in H.
  assert (leads settled (each_of told calls) (fun _ => settled)) as Hleads.
  { apply leads_each. intros call Hin. apply told_settles. apply Forall_forall. intros ir Hir. eapply Forall_forall in Hbodies; [exact Hbodies|].
    unfold emitted in *. apply list_elem_of_omap in Hir as (c & Hc & Hir). apply list_elem_of_singleton in Hc as ->. apply list_elem_of_omap. by exists call. }
  destruct (Hleads _ _ _ W S H) as [W' S']. destruct (wf_clean em W' block l Hl) as [Hs|]; [|done].
  exfalso. apply (se_closed _ S' block). by exists l.
Qed.
End unit.

(** *** A unit emitted *)

(** Whether a body is of basic blocks. *)
Definition basicb (block : MIRBlock) : bool :=
  match reverse (insts block) with
  | terminator :: pre => mir_op_is_terminator (op terminator) && forallb (fun inst => negb (mir_op_is_terminator (op inst))) pre
  | [] => false
  end.

Definition basic_bodyb (ir : MIRFunction) : bool :=
  bool_decide (NoDup ((fun block => N.to_nat (block_id block)) <$> blocks ir)) && forallb basicb (blocks ir).

Lemma basicb_sound block : basicb block = true -> basic block.
Proof.
  unfold basicb. destruct (reverse (insts block)) as [|t pre] eqn:Hr; [done|]. intros [Ht Hp]%andb_true_iff. exists (reverse pre), t.
  split; [by rewrite <- (reverse_involutive (insts block)), Hr, reverse_cons|]. split; [done|]. apply Forall_reverse, Forall_forall. intros inst Hi.
  rewrite forallb_forall in Hp. apply negb_true_iff, Hp. by apply list_elem_of_In.
Qed.

Lemma basic_bodyb_sound ir : basic_bodyb ir = true -> basic_body ir.
Proof.
  intros [Hd Hl]%andb_true_iff. split; [by apply bool_decide_eq_true in Hd|]. apply Forall_forall. intros block Hb. apply basicb_sound.
  rewrite forallb_forall in Hl. by apply Hl, list_elem_of_In.
Qed.

Lemma basic_bodies_sound l : forallb basic_bodyb l = true -> Forall basic_body l.
Proof.
  intros H. apply Forall_forall. intros ir Hir. apply basic_bodyb_sound. rewrite forallb_forall in H. by apply H, list_elem_of_In.
Qed.

(** [at] checks its index; [main] returns nothing, so that the entry has a body. *)
Definition indexing_text : string := "module m; func at(i: i32): i32 { let xs: array<i32, 3> = [1, 2, 3]; return xs[i]; } func main() { let a: i32 = at(1); }".

Definition indexing_unit : option Compilation :=
  match gab_compile sample_host (MkGabCompile [bytes indexing_text] (fun _ => None) None [] true false) (diagnostics_init None) with
  | Some (c, true) => Some c
  | _ => None
  end.

Abbreviation emit_sample c := (emit_unit sample_addr sample_addr 30 (pool_data (sh_strings (cp_shared c))) (fun _ => true) (sh_world (cp_shared c)) (cp_unit c)).

Lemma emitted_blocks_are_terminated_witness : exists c em, indexing_unit = Some c /\ emit_sample c = Some (em, tt) /\
  length (map_to_list (code (shape_of (em_calls em)))) = 7 /\ forall block l, code (shape_of (em_calls em)) !! block = Some l -> closed_code l.
Proof.
  destruct indexing_unit as [c|] eqn:Hc; [|vm_compute in Hc; discriminate].
  assert (Hr : match indexing_unit with
    | Some c => match emit_sample c with Some (em, _) => (forallb basic_bodyb (emitted (cp_unit c)), length (map_to_list (code (shape_of (em_calls em))))) | None => (false, 0) end
    | None => (false, 0) end = (true, 7)) by (vm_compute; reflexivity).
  rewrite Hc in Hr. destruct (emit_sample c) as [[em []]|] eqn:He; [|discriminate]. injection Hr as Hb Hs. exists c, em.
  split; [reflexivity|]. split; [exact He|]. split; [exact Hs|].
  exact (emitted_blocks_are_terminated sample_addr sample_addr 30 _ _ _ _ _ (basic_bodies_sound _ Hb) He).
Defined.
