(* ===== verification/PassesKeep.v ===== *)
(** * PassesKeep: basic blocks behind the passes

    That folding, drop elaboration, the endings and instantiation leave the blocks of
    a body where they were, each with its id and its one terminator at the end: code
    generation is told the bodies of the build, in order, block by block. *)

From Stdlib Require Import String Ascii.
From S2P Require Import Ast Facts Parser Lower LowerShape Interface Symbols.
From S2P Require Import Prelude Types Mir Decl Diagnostics Strings HashMap Borrowck Drop Fold Registry RegistryTypes RegistryState Functions Scopes Instantiate Build Check TypeExprs Resolve Declare Resolver Sources Compile CompileSound CompileCalls Emit EmitShape.

(** ** Lists that end once *)

Definition ends (inst : MIRInst) : bool := mir_op_is_terminator (op inst).

Definition same_end (inst inst' : MIRInst) : Prop := ends inst' = ends inst.

#[export] Instance same_end_preorder : PreOrder same_end.
Proof. split; [by intros inst|]. intros a b c. unfold same_end. congruence. Qed.

(** The instructions of a basic block. *)
Definition ends_once (l : list MIRInst) : Prop :=
  exists pre terminator, l = pre ++ [terminator] /\ ends terminator = true /\ Forall (fun inst => ends inst = false) pre.

Lemma ends_once_flat_map f l :
  (forall inst, ends inst = false -> Forall (fun inst => ends inst = false) (f inst)) ->
  (forall inst, ends inst = true -> exists inst', f inst = [inst'] /\ ends inst' = true) -> ends_once l -> ends_once (flat_map f l).
Proof.
  intros Hf Ht (pre & t & -> & He & Hp). destruct (Ht t He) as (t' & Hft & He'). exists (flat_map f pre), t'.
  split; [by rewrite flat_map_app; cbn; rewrite Hft, app_nil_r|]. split; [done|].
  induction Hp as [|inst pre Hi Hp IH]; cbn; [constructor|]. apply Forall_app. split; [by apply Hf|done].
Qed.

Lemma ends_once_Forall2 l l' : Forall2 same_end l l' -> ends_once l -> ends_once l'.
Proof.
  intros H (pre & t & -> & He & Hp). apply Forall2_app_inv_l in H as (pre' & tl & Hpre & Htl & ->).
  apply Forall2_cons_inv_l in Htl as (t' & nil & Ht & Hnil & ->). apply Forall2_nil_inv_l in Hnil as ->. exists pre', t'.
  split; [done|]. split; [by rewrite Ht|]. clear -Hpre Hp. induction Hpre; [constructor|]. apply Forall_cons in Hp as [Hx Hp]. constructor; [congruence|auto].
Qed.

Lemma ends_once_filter (P : MIRInst -> Prop) `{!forall inst, Decision (P inst)} l : (forall inst, ends inst = true -> P inst) -> ends_once l -> ends_once (filter P l).
Proof.
  intros HP (pre & t & -> & He & Hp). exists (filter P pre), t. rewrite filter_app, (filter_cons_True P t []), filter_nil by auto.
  split; [done|]. split; [done|]. apply Forall_forall. intros inst [_ Hi]%list_elem_of_filter. by eapply Forall_forall in Hp.
Qed.

(** ** Blocks and bodies *)

(** What the passes do to a block. *)
Definition keeps_block (b b' : MIRBlock) : Prop := block_id b' = block_id b /\ (ends_once (insts b) -> ends_once (insts b')).
Definition keeps_body (ir ir' : MIRFunction) : Prop := Forall2 keeps_block (blocks ir) (blocks ir').

#[export] Instance keeps_block_preorder : PreOrder keeps_block.
Proof. split; [by intros b|]. intros a b c [I1 E1] [I2 E2]. split; [congruence|auto]. Qed.

#[export] Instance keeps_body_preorder : PreOrder keeps_body.
Proof. split; [intros ir; by apply (reflexivity (R := Forall2 keeps_block))|]. intros a b c. apply (transitivity (R := Forall2 keeps_block)). Qed.

Lemma keeps_basic ir ir' : keeps_body ir ir' -> basic_body ir -> basic_body ir'.
Proof.
  intros H [Hd Hb]. split.
  - replace ((fun block => N.to_nat (block_id block)) <$> blocks ir') with ((fun block => N.to_nat (block_id block)) <$> blocks ir); [done|].
    unfold keeps_body in H. clear Hd Hb. induction H as [|b b' bs bs' [Hi _] H IH]; [done|]. rewrite !fmap_cons, Hi. by f_equal.
  - unfold keeps_body in H. clear Hd. induction H as [|b b' bs bs' [_ He] H IH]; [constructor|]. apply Forall_cons in Hb as [Hb1 Hb2]. constructor; [by apply He|auto].
Qed.

Lemma map_insts_keeps f ir : (forall l, ends_once l -> ends_once (f l)) -> keeps_body ir (map_insts f ir).
Proof.
  intros Hf. unfold keeps_body, map_insts. cbn [blocks set_blocks]. apply Forall2_fmap_r, Forall_Forall2_diag, Forall_true. intros b. split; [done|apply Hf].
Qed.

Section passes.
Context `{TV : TypeView}.

(** ** Folding *)

Lemma fold_inst_ends known inst : ends (fold_inst known inst).2 = ends inst.
Proof.
  unfold fold_inst. destruct (_ || _); [done|]. destruct (mapM _ _) as [operands|]; [|done]. destruct (fold_operands operands inst) as [inst'|] eqn:H; [|done].
  cbn [snd]. change (ends inst' = ends inst). revert H. unfold fold_operands, fold_neg, fold_not, fold_binary, ends.
  destruct (op inst); try done; destruct operands as [|a [|b [|]]]; try done; repeat case_match; try done; intros; simplify_option_eq; done.
Qed.

Lemma fold_insts_ends l : forall known, Forall2 same_end l (fold_insts known l).2.
Proof.
  induction l as [|inst l IH]; intros known; [constructor|]. cbn [fold_insts]. pose proof (fold_inst_ends known inst) as Hi.
  destruct (fold_inst known inst) as [known1 inst']. specialize (IH known1). destruct (fold_insts known1 l) as [known2 l']. by constructor.
Qed.

Lemma fold_blocks_keep bs : forall known, Forall2 keeps_block bs (fold_blocks known bs).2.
Proof.
  induction bs as [|b bs IH]; intros known; [constructor|]. cbn [fold_blocks]. pose proof (fold_insts_ends (insts b) known) as Hi.
  destruct (fold_insts known (insts b)) as [known1 l]. specialize (IH known1). destruct (fold_blocks known1 bs) as [known2 bs'].
  constructor; [|done]. split; [done|]. by apply ends_once_Forall2.
Qed.

Lemma fold_keeps ir : keeps_body ir (mir_fold ir).
Proof.
  unfold mir_fold. transitivity (set_blocks ir (fold_blocks (known_values ir) (blocks ir)).2); [apply fold_blocks_keep|].
  apply map_insts_keeps. intros l. apply ends_once_filter. intros inst He. unfold unread_constant, ends in *. by destruct (op inst).
Qed.

(** ** Drop elaboration *)

Lemma empty_moved_keeps ir : keeps_body ir (empty_moved ir).
Proof.
  apply map_insts_keeps. intros l. apply ends_once_flat_map; intros inst He; unfold empty_after_move.
  - destruct (_ && _); repeat constructor; done.
  - rewrite bool_decide_eq_false_2; [by exists inst|]. unfold ends in He. by destruct (op inst).
Qed.

Lemma release_inst_ends s inst :
  if ends inst then release_inst s inst = (s, [inst]) else Forall (fun inst => ends inst = false) (release_inst s inst).2.
Proof.
  unfold release_inst. cbn zeta. destruct (ends inst) eqn:He.
  - unfold ends in He. by destruct (op inst).
  - repeat case_match; repeat constructor; done.
Qed.

Lemma release_insts_end l : forall s, ends_once l -> ends_once (release_insts s l).2.
Proof.
  intros s (pre & t & -> & He & Hp). revert s. induction Hp as [|inst pre Hi Hp IH]; intros s; cbn [app release_insts].
  - pose proof (release_inst_ends s t) as Ht. rewrite He in Ht. rewrite Ht. cbn [release_insts snd app]. by exists [], t.
  - pose proof (release_inst_ends s inst) as H. rewrite Hi in H. destruct (release_inst s inst) as [s1 out]. specialize (IH s1).
    destruct (release_insts s1 (pre ++ [t])) as [s2 rest]. destruct IH as (pre' & t' & Hr & He' & Hp'). cbn [snd] in *. rewrite Hr.
    exists (out ++ pre'), t'. split; [apply app_assoc|]. split; [done|]. by apply Forall_app.
Qed.

Lemma release_blocks_keep bs : forall s, Forall2 keeps_block bs (release_blocks s bs).2.
Proof.
  induction bs as [|b bs IH]; intros s; [constructor|]. cbn [release_blocks]. pose proof (release_insts_end (insts b) s) as Hi.
  destruct (release_insts s (insts b)) as [s1 l]. specialize (IH s1). destruct (release_blocks s1 bs) as [s2 rest]. by constructor.
Qed.

Lemma release_keeps ir : keeps_body ir (release_before_overwrite ir).
Proof.
  unfold release_before_overwrite. pose proof (release_blocks_keep (blocks ir) (MkOverwriting (values ir) (replicate (value_count ir + 1) false))) as Hr.
  by destruct (release_blocks _ _) as [s bs].
Qed.

Lemma without_drops_end vc l : forall holds, ends_once l -> ends_once (without_empty_drops vc holds l).
Proof.
  intros holds (pre & t & -> & He & Hp). revert holds. induction Hp as [|inst pre Hi Hp IH]; intros holds; cbn [app without_empty_drops].
  - rewrite (bool_decide_eq_false_2 (op t = MIR_DROP)), andb_false_r; [by exists [], t|]. unfold ends in He. by destruct (op t).
  - specialize (IH (walk_inst vc holds inst)). destruct (_ && _); [done|]. destruct IH as (pre' & t' & -> & He' & Hp').
    exists (inst :: pre'), t'. split; [done|]. split; [done|]. by constructor.
Qed.

Lemma removed_keeps ir ir' : drop_releases_of_emptied_places ir = Some ir' -> keeps_body ir ir'.
Proof.
  unfold drop_releases_of_emptied_places. case_bool_decide; [by intros [= <-]|]. intros H'. apply bind_Some in H' as (entries & _ & [= <-]).
  unfold keeps_body. cbn [blocks set_blocks]. apply Forall2_same_length_lookup_2; [by rewrite length_imap|]. intros i b b' Hb.
  rewrite list_lookup_imap, Hb. intros [= <-]. split; [done|]. unfold remove_empty_drops, remove_all. cbn [insts set_insts].
  pose proof (remove_empty_drops_filters (value_count ir) (insts b) (default [] (entries !! i)) []) as Hr. cbn [app length] in Hr.
  rewrite Hr. apply without_drops_end.
Qed.

Lemma noted_ends l : forall s, Forall2 same_end (flagged_insts s) (flagged_insts (foldl note_conditional_drop s l)).
Proof.
  induction l as [|[at_ held] l IH]; intros s; [done|]. cbn [foldl].
  assert (H1 : Forall2 same_end (flagged_insts s) (flagged_insts (note_conditional_drop s (at_, held)))).
  { unfold note_conditional_drop. destruct (negb _); [done|]. destruct (flagged_insts s !! at_) as [inst|] eqn:Hi; [|done]. cbn zeta.
    destruct (mir_value_is_none _); cbn [flagged_insts]; (rewrite <- (list_insert_id _ _ _ Hi) at 1; by apply Forall2_insert). }
  specialize (IH (note_conditional_drop s (at_, held))). by etransitivity.
Qed.

Lemma note_blocks_keep vc entries bs : forall i values fs, Forall2 keeps_block bs (note_blocks vc entries i values fs bs).2.
Proof.
  induction bs as [|b bs IH]; intros i values fs; [constructor|]. cbn [note_blocks].
  set (s := foldl _ _ _). pose proof (noted_ends (walk_visits vc 0 (default [] (entries !! i)) (insts b)) (MkFlagged values (insts b) fs)) as Hn.
  fold s in Hn. cbn [flagged_insts] in Hn. specialize (IH (S i) (flagged_values s) (flags s)).
  destruct (note_blocks _ _ _ _ _ _) as [[values' fs'] rest]. constructor; [|done]. split; [done|]. by apply ends_once_Forall2.
Qed.

Lemma guarded_keeps ir ir' : guard_conditional_drops ir = Some ir' -> keeps_body ir ir'.
Proof.
  unfold guard_conditional_drops. case_bool_decide; [by intros [= <-]|]. intros H'. apply bind_Some in H' as (entries & _ & H').
  pose proof (note_blocks_keep (value_count ir) entries (blocks ir) 0 (values ir) (replicate (value_count ir + 1) MIR_NO_VALUE)) as Hn.
  destruct (note_blocks _ _ _ _ _ _) as [[values' fs] bs]. injection H' as <-. cbn [snd] in Hn.
  transitivity (set_values (set_blocks ir bs) values'); [exact Hn|]. unfold remove_flagged_nulls, write_drop_flags.
  etransitivity; apply map_insts_keeps; intros l.
  - apply ends_once_flat_map; intros inst He; unfold flag_after; cbn zeta.
    + repeat case_match; repeat constructor; done.
    + exists inst. split; [|done]. unfold walked. unfold ends in He. by destruct (op inst).
  - apply ends_once_filter. intros inst He. unfold keeps_null, ends in *. by destruct (op inst).
Qed.

Lemma elaborate_keeps ir ir' : elaborate_drops ir = Some ir' -> keeps_body ir ir'.
Proof.
  unfold elaborate_drops. intros H. apply bind_Some in H as (ir1 & H1 & H2). apply removed_keeps in H1. apply guarded_keeps in H2.
  etransitivity; [apply empty_moved_keeps|]. etransitivity; [apply release_keeps|]. by etransitivity.
Qed.
End passes.

(** ** What asks the registries *)

(** Whatever [m] answers is so. *)
Definition answers {A} (m : Inst A) (Q : A -> Prop) : Prop := forall w w' a, m w = Some (w', a) -> Q a.

Lemma answers_then {A B} (m : Inst A) (k : A -> Inst B) Q R : answers m Q -> (forall a, Q a -> answers (k a) R) -> answers (m ≫= k) R.
Proof.
  intros Hm Hk w w' b H. unfold mbind, Inst_bind in H. destruct (m w) as [[w1 a]|] eqn:H1; [|done]. eapply Hk; [by eapply Hm|exact H].
Qed.

Lemma answers_ret {A} (a : A) (Q : A -> Prop) : Q a -> answers (mret a) Q.
Proof. by intros H w w' b [= _ <-]. Qed.

Lemma answers_any {A} (m : Inst A) : answers m (fun _ => True).
Proof. done. Qed.

Lemma answers_mapM {A B} (f : A -> Inst B) (R : A -> B -> Prop) l : (forall a, answers (f a) (R a)) -> answers (mapM f l) (Forall2 R l).
Proof.
  intros Hf. induction l as [|a l IH]; cbn [mapM]; [by apply answers_ret|].
  eapply answers_then; [apply Hf|]. intros b Hb. eapply answers_then; [exact IH|]. intros bs Hbs. by apply answers_ret, Forall2_cons.
Qed.

Lemma answers_map_entries {A B} (f : A -> Inst B) (R : A -> B -> Prop) l : (forall a, answers (f a) (R a)) -> answers (map_entries_m f l) (Forall2 R l).
Proof.
  intros Hf. induction l as [|a l IH]; cbn [map_entries_m]; [by apply answers_ret|].
  eapply answers_then; [apply Hf|]. intros b Hb. eapply answers_then; [exact IH|]. intros bs Hbs. by apply answers_ret, Forall2_cons.
Qed.

(** *** Endings *)

Lemma find_endings_keeps host ir : answers (find_endings host ir) (keeps_body ir).
Proof.
  unfold find_endings. eapply answers_then; [apply (answers_mapM _ keeps_block)|intros bs Hbs; by apply answers_ret].
  intros b. unfold find_block_endings. eapply answers_then; [apply (answers_mapM _ same_end)|].
  - intros inst. unfold find_ending. destruct (negb _); [by apply answers_ret|].
    eapply answers_then; [apply answers_any|intros r _]. eapply answers_then; [apply answers_any|intros found _]. by apply answers_ret.
  - intros l Hl. apply answers_ret. split; [done|]. by apply ends_once_Forall2.
Qed.

(** *** Instances *)

Section instances.
Context (type_addr str_addr : nat -> N) (in_args : list TypeArg).

(** One instruction becomes some, of which the last ends where it did. *)
Definition becomes (inst : MIRInst) (l : list MIRInst) : Prop :=
  if ends inst then exists inst', l = [inst'] /\ ends inst' = true else Forall (fun inst => ends inst = false) l.

Lemma ends_once_concat l ls : Forall2 becomes l ls -> ends_once l -> ends_once (concat ls).
Proof.
  intros H (pre & t & -> & He & Hp). apply Forall2_app_inv_l in H as (pres & ts & Hpre & Ht & ->).
  apply Forall2_cons_inv_l in Ht as (lt & nil & Ht & Hnil & ->). apply Forall2_nil_inv_l in Hnil as ->.
  unfold becomes in Ht. rewrite He in Ht. destruct Ht as (t' & -> & He'). exists (concat pres), t'.
  split; [by rewrite concat_app|]. split; [done|]. clear -Hpre Hp. induction Hpre as [|inst l pre ls H Hs IH]; cbn; [constructor|].
  apply Forall_cons in Hp as [Hi Hp]. unfold becomes in H. rewrite Hi in H. apply Forall_app. auto.
Qed.

Lemma subst_inst_ends inst : answers (subst_inst type_addr str_addr in_args inst) (same_end inst).
Proof. unfold subst_inst. do 3 (eapply answers_then; [apply answers_any|intros ? _]). by apply answers_ret. Qed.

Lemma expand_becomes values inst : answers (expand_intrinsic type_addr str_addr values inst) (becomes inst).
Proof.
  unfold expand_intrinsic. assert (Hsame : becomes inst [inst]).
  { unfold becomes. destruct (ends inst) eqn:He; [by exists inst|by repeat constructor]. }
  eapply answers_then; [apply answers_any|intros fr _].
  eapply (answers_then _ _ (fun call => match call with None => True | Some _ => op inst = MIR_CALL end)).
  { intros w w' call H. unfold lift_option in H. destruct (indexing_call fr inst) as [c|] eqn:Hc; [|done]. cbn in H. injection H as _ <-.
    unfold indexing_call in Hc. destruct (decide (op inst = MIR_CALL)) as [Hop|Hop]; [by destruct c|].
    rewrite bool_decide_eq_false_2 in Hc by done. by injection Hc as <-. }
  intros [[receiver index]|] Hop; [|by apply answers_ret].
  repeat (eapply answers_then; [apply answers_any|intros ? _]). apply answers_ret. unfold becomes, ends. rewrite Hop. by repeat constructor.
Qed.

Lemma instantiate_becomes values inst : answers (instantiate_inst type_addr str_addr in_args values inst) (becomes inst).
Proof.
  unfold instantiate_inst. eapply answers_then; [apply subst_inst_ends|]. intros inst' He w w' l H. apply expand_becomes in H.
  unfold becomes, same_end in *. by rewrite <- He.
Qed.

(** An instance has the blocks of its generic. *)
Lemma instances_keep generic instance : answers (mir_instantiate type_addr str_addr in_args generic instance) (keeps_body generic).
Proof.
  unfold mir_instantiate. eapply answers_then; [apply answers_any|intros vs _].
  eapply answers_then; [apply (answers_map_entries _ keeps_block)|intros bs Hbs; by apply answers_ret].
  intros b. unfold instantiate_block. eapply answers_then; [apply (answers_map_entries _ becomes), instantiate_becomes|].
  intros l Hl. apply answers_ret. split; [done|]. by apply ends_once_concat.
Qed.
End instances.

(** ** Compilation *)

Lemma bodies_app calls calls' : emitted (calls ++ calls') = emitted calls ++ emitted calls'.
Proof. apply omap_app. Qed.

(** The body is of a function of the registry. *)
Definition registered (fr : FunctionRegistry) (e : MIRModuleEntry) : Prop :=
  exists p f, mir_function (entry_ir e) = Some p /\ reg_functions fr !! p = Some f.

Lemma registered_later fr fr' e : functions_grow fr fr' -> registered fr e -> registered fr' e.
Proof. intros Hg (p & f & Hp & Hf). destruct (Hg p f Hf) as (f' & Hf' & _). by exists p, f'. Qed.

(** Templates are passed over; of any other body one is told that keeps its blocks. *)
Lemma compile_body_keeps host e c c' : compile_body host e c = Some (c', tt) ->
  functions_grow (functions_in c) (functions_in c') /\
  exists irs, emitted (cp_unit c') = emitted (cp_unit c) ++ irs /\
    if mir_function_is_template (functions_in c) (entry_ir e) then irs = []
    else exists ir, irs = [ir] /\ keeps_body (entry_ir e) ir.
Proof.
  intros H. unfold compile_body in H. unfold mbind at 1, Compile_bind at 1 in H. cbn [the_compilation] in H. fold (functions_in c) in H.
  destruct (mir_function_is_template _ _); [injection H as <-; split; [done|]; exists []; split; [by rewrite app_nil_r|done]|].
  unfold mbind at 1, Compile_bind at 1 in H.
  destruct (need _ c) as [[c1 ir1]|] eqn:H1; [|done]. unfold need in H1. apply bind_Some in H1 as (x & H1 & [= <- <-]).
  unfold mbind at 1, Compile_bind at 1 in H. destruct (in_registries _ c) as [[c2 ir2]|] eqn:H2; [|done]. injection H as <-.
  unfold in_registries in H2. apply bind_Some in H2 as ([w ir] & H2 & [= <- <-]).
  pose proof (find_endings_kept host _ _ _ _ H2) as (_ & _ & Hg). split; [exact Hg|].
  apply find_endings_keeps in H2. apply elaborate_keeps in H1. exists [ir]. cbn [cp_unit]. split; [by rewrite bodies_app|].
  exists ir. split; [done|]. etrans; [eapply fold_keeps|]. by etrans.
Qed.

Lemma compile_bodies_keep host es : forall c c', Forall (registered (functions_in c)) es -> for_every (compile_body host) es c = Some (c', tt) ->
  exists told, emitted (cp_unit c') = emitted (cp_unit c) ++ told /\
    Forall2 (fun e ir => keeps_body (entry_ir e) ir) (filter (fun e => mir_function_is_template (functions_in c) (entry_ir e) = false) es) told.
Proof.
  induction es as [|e es IH]; intros c c' Hn H; cbn [for_every] in H.
  { injection H as <-. exists []. split; [by rewrite app_nil_r|constructor]. }
  apply Forall_cons in Hn as [_ Hn]. unfold mbind, Compile_bind in H. destruct (compile_body host e c) as [[c1 []]|] eqn:H1; [|done].
  destruct (compile_body_keeps host e c c1 H1) as (Hg & irs1 & U1 & E1).
  destruct (IH c1 c') as (irs2 & U2 & E2); [|done|].
  { eapply Forall_impl; [exact Hn|]. intros x. by apply registered_later. }
  exists (irs1 ++ irs2). split; [by rewrite U2, U1, app_assoc|].
  assert (Hsame : filter (fun e => mir_function_is_template (functions_in c1) (entry_ir e) = false) es =
    filter (fun e => mir_function_is_template (functions_in c) (entry_ir e) = false) es).
  { clear -Hn Hg. induction Hn as [|x es (p & f & Hp & Hf) _ IH]; [done|]. rewrite !filter_cons, IH.
    by rewrite (template_same (functions_in c) (functions_in c1) (entry_ir x) p f Hg Hp Hf). }
  rewrite Hsame in E2. rewrite filter_cons. destruct (mir_function_is_template _ (entry_ir e)).
  - subst irs1. by rewrite decide_False.
  - destruct E1 as (ir & -> & Hir). rewrite decide_True by done. by constructor.
Qed.

(** C13: The passes keep the blocks of a body.  Code generation is told one body for
    each body of the build that is no template, in their order, and block by block
    it is the body of the build: as many blocks, at the same places, with the same
    ids, and where a block ended in its one terminator it still does, whatever
    folding, drop elaboration and the endings insert, flag or take out.  So does
    instantiation, for the bodies of instances; and bodies of basic blocks (ids
    apart, a terminator at the end and nowhere else) stay such. *)
Theorem bodies_told_are_basic host entries c c' : Forall (registered (functions_in c)) entries ->
  for_every (compile_body host) entries c = Some (c', tt) ->
  exists told, emitted (cp_unit c') = emitted (cp_unit c) ++ told /\
    let kept e ir := Forall2 (fun b b' => block_id b' = block_id b /\ (ends_once (insts b) -> ends_once (insts b')))
                       (blocks (entry_ir e)) (blocks ir) in
    Forall2 kept (filter (fun e => mir_function_is_template (functions_in c) (entry_ir e) = false) entries) told /\
    (Forall (fun e => basic_body (entry_ir e)) entries -> Forall basic_body told) /\
    forall type_addr str_addr args generic instance w w' ir,
      mir_instantiate type_addr str_addr args generic instance w = Some (w', ir) ->
      Forall2 (fun b b' => block_id b' = block_id b /\ (ends_once (insts b) -> ends_once (insts b'))) (blocks generic) (blocks ir) /\
      (basic_body generic -> basic_body ir).
Proof.
  intros Hn H. destruct (compile_bodies_keep host entries c c' Hn H) as (told & Ht & Hk).
  exists told. split; [done|]. split; [exact Hk|]. split.
  - intros He. assert (Hf : Forall (fun e => basic_body (entry_ir e))
      (filter (fun e => mir_function_is_template (functions_in c) (entry_ir e) = false) entries)) by (apply Forall_forall; intros e [_ Hin]%list_elem_of_filter; by eapply Forall_forall in He).
    revert Hf. clear -Hk. induction Hk as [|e ir es irs H _ IH]; [constructor|]. intros [Hb Hf]%Forall_cons.
    constructor; [by eapply keeps_basic|auto].
  - intros type_addr str_addr args generic instance w w' ir H'. apply instances_keep in H'. split; [exact H'|]. by apply keeps_basic.
Qed.

(** The bodies of a unit, through the passes once more. *)
Definition told_again (c : Compilation) : list MIRModuleEntry :=
  (fun ir => MkMIRModuleEntry (default 0 (mir_function ir)) (instance_id_of_function None) ir) <$> emitted (cp_unit c).

Definition registeredb (fr : FunctionRegistry) (e : MIRModuleEntry) : bool :=
  match mir_function (entry_ir e) with Some p => bool_decide (is_Some (reg_functions fr !! p)) | None => false end.

Lemma registered_all fr es : forallb (registeredb fr) es = true -> Forall (registered fr) es.
Proof.
  rewrite forallb_forall, Forall_forall. intros H e He. apply list_elem_of_In, H in He. unfold registeredb in He.
  destruct (mir_function (entry_ir e)) as [p|] eqn:Hp; [|done]. apply bool_decide_eq_true in He as [f Hf]. by exists p, f.
Qed.

Lemma bodies_told_are_basic_witness : exists c c' told, indexing_unit = Some c /\ for_every (compile_body sample_host) (told_again c) c = Some (c', tt) /\
  emitted (cp_unit c') = emitted (cp_unit c) ++ told /\ length told = 2 /\ Forall basic_body told.
Proof.
  destruct indexing_unit as [c|] eqn:Hc; [|vm_compute in Hc; discriminate].
  assert (Hr : match indexing_unit with
    | Some c => match for_every (compile_body sample_host) (told_again c) c with
        Some (c', _) => (forallb basic_bodyb (emitted (cp_unit c)), forallb (registeredb (functions_in c)) (told_again c),
          Nat.eqb (length (emitted (cp_unit c'))) (length (emitted (cp_unit c)) + 2)) | None => (false, false, false) end
    | None => (false, false, false) end = (true, true, true)) by (vm_compute; reflexivity).
  rewrite Hc in Hr. destruct (for_every (compile_body sample_host) (told_again c) c) as [[c' []]|] eqn:He; [|discriminate]. injection Hr as Hb Hn Hs.
  pose proof (basic_bodies_sound _ Hb) as Hall.
  destruct (bodies_told_are_basic sample_host _ c c' (registered_all _ _ Hn) He) as (told & Ht & _ & Hbasic & _).
  exists c, c', told. split; [reflexivity|]. split; [exact He|]. split; [exact Ht|]. split.
  - rewrite Ht, length_app in Hs. apply Nat.eqb_eq in Hs. lia.
  - apply Hbasic. by apply Forall_fmap.
Defined.
