(* ===== verification/EmitLimits.v ===== *)
(** * EmitLimits: what the code generator gets wrong

    Two programs that compile without a report, and the path through the code LLVM
    is told on which it does what the source does not say: a slot read that was not
    stored to, and a value released that was given up. *)

From Stdlib Require Import String Ascii.
From S2P Require Import Ast Facts Parser Lower LowerShape Interface Symbols.
From S2P Require Import Prelude Types Mir Decl Diagnostics Strings HashMap Registry RegistryTypes RegistryState Functions Scopes Instantiate Build Glue Check TypeExprs Resolve Declare Resolver Sources Compile CompileSound CompileCalls Emit EmitShape.

(** ** Paths *)

Section paths.
Context (sh : Shape).

(** The terminator of [block] may go to [next]. *)
Definition may_go (block next : nat) : bool :=
  match last (default [] (code sh !! block)) with
  | Some (BuildBr to) => Nat.eqb to next
  | Some (BuildCondBr _ to otherwise) => Nat.eqb to next || Nat.eqb otherwise next
  | _ => false
  end.

Fixpoint is_path (path : list nat) : bool :=
  match path with
  | block :: (next :: _) as rest => may_go block next && is_path rest
  | _ => true
  end.

(** What runs along a path. *)
Definition along (path : list nat) : list LLVMInst := flat_map (fun block => default [] (code sh !! block)) path.
End paths.

(** What the [n]-th call answered. *)
Definition is_answer (n : nat) (value : LLVMValue) : bool := match value with Answer m => Nat.eqb m n | _ => false end.

(** An instruction that gives a slot a value, or its address away. *)
Definition stores_to (slot : nat) (inst : LLVMInst) : bool :=
  match inst with
  | BuildStore value address => is_answer slot value || is_answer slot address
  | BuildCall2 _ _ l => existsb (is_answer slot) l
  | _ => false
  end.

Definition reads (slot : nat) (inst : LLVMInst) : bool := match inst with BuildLoad2 _ address => is_answer slot address | _ => false end.

(** A call of [name] on one value. *)
Definition calls_with (name : string) (n : nat) (inst : LLVMInst) : bool :=
  match inst with BuildCall2 _ (FunctionNamed other) [value] => bool_decide (other = bytes name) && is_answer n value | _ => false end.

(** [before] somewhere, and [after] behind it. *)
Definition in_order (before after : LLVMInst -> bool) (l : list LLVMInst) : bool :=
  existsb (fun i => existsb before (take i l) && existsb after (drop i l)) (seq 0 (length l)).

(** ** A slot that one branch stores to *)

Abbreviation compiled text core := (gab_compile sample_host (MkGabCompile [bytes text] (fun _ => None) (Some "m.gabi") [] core false) (diagnostics_init None)).

Definition either_text : string :=
  "module m; func set(p: &i32, c: bool) { if c { *p = 1; } else { *p = 2; } } func main(): i32 { let x: i32 = 0; set(x, true); return x; }".

Definition emitted_calls (compiled : option (Compilation * bool)) : option (list string * bool * list Call) :=
  match compiled with
  | Some (c, ok) => match emit_sample c with Some (em, _) => Some (reported c, ok, em_calls em) | None => None end
  | None => None
  end.

(** A reference that both branches of an [if] write through is put in a slot
    where the first branch uses it, and stored there by that branch only: the
    second one reads a slot that nothing on its path has stored to.  The program
    compiles without a report. *)
Theorem other_branch_reads_an_unset_slot : exists calls, emitted_calls (compiled either_text false) = Some ([], true, calls) /\
  let sh := shape_of calls in
  let path := [6; 2; 5] in
  is_path sh path = true /\ calls !! 6 = Some (AppendBasicBlock (bytes "m.set") (bytes "slots")) /\
  existsb (reads 12) (along sh path) = true /\ forallb (fun inst => negb (stores_to 12 inst)) (along sh path) = true /\
  existsb (stores_to 12) (along sh [3]) = true.
Proof.
  destruct (emitted_calls (compiled either_text false)) as [[[messages ok] calls]|] eqn:H; [|vm_compute in H; discriminate].
  exists calls. vm_compute in H. injection H as <- <- <-. split; [reflexivity|]. vm_compute. repeat split.
Qed.

(** ** A release that asks no flag *)

Definition given_text : string :=
  "module core; interface Destroy { func destroy(self: &Self); } struct S { n: i32 } impl S as Destroy { func destroy(self: &Self) { } } "
  ++ "func take(s: S): i32 { return 1; } func f(s: S, c: bool): i32 { if c { } else { take(s); } return 1; }".

(** A value given up in one branch is released behind the branches whichever was
    taken: the release comes before the block that makes its flag, so that the code
    generator finds none and asks none.  On the path through the branch that
    gives the value to [take], which releases it, it is released again. *)
Theorem given_up_and_released_again : exists calls, emitted_calls (compiled given_text true) = Some ([], true, calls) /\
  let sh := shape_of calls in
  let path := [37; 33; 36; 35] in
  is_path sh path = true /\ calls !! 37 = Some (AppendBasicBlock (bytes "core.f") (bytes "slots")) /\
  in_order (calls_with "core.take" 50) (calls_with "drop.S" 40) (along sh path) = true /\
  code sh !! 36 ≫= head = Some (BuildLoad2 (LLVMStructType [LLVMIntType 32]) (Answer 40)) /\
  calls !! 12 = Some (AppendBasicBlock (bytes "core.take") (bytes "b0")) /\ existsb (calls_with "drop.S" 16) (along sh [12]) = true.
Proof.
  destruct (emitted_calls (compiled given_text true)) as [[[messages ok] calls]|] eqn:H; [|vm_compute in H; discriminate].
  exists calls. vm_compute in H. injection H as <- <- <-. split; [reflexivity|]. vm_compute. repeat split.
Qed.
